(* ===== verification/_CoqProject ===== *)
-Q . S2P
Prelude.v
RustStr.v
CacheTypes.v
Floats.v
Ranges.v
RangeParse.v
InflightLedger.v
SignedRequest.v
RangeMerge.v
RangeFetch.v
AwsChunked.v
Maps.v
RamCache.v
MetadataCache.v
InflightTracker.v
DiskPaths.v
DiskRanges.v
Frames.v
CacheTier.v
SizeAccounting.v
Storage.v
DiskStore.v
RangeWriter.v
Consolidate.v
Eviction.v
WriteLedger.v
WriteCache.v
StagingEviction.v
OrphanRecovery.v
DiskRuns.v
Bandwidth.v
Throttle.v
Hedge.v
Globs.v
BucketSettings.v
Durations.v
HttpHeaders.v
CacheKeys.v
Dispatch.v
Widening.v
Multipart.v
StreamMiss.v
SignedForward.v
WriteThrough.v
Egress.v
IpPool.v
HitBuffer.v
LockFiles.v
