(* ===== verification/Prelude.v ===== *)
(** * Hybrid Cache for Amazon S3: verification library (root)

    The program is a caching proxy in front of Amazon S3, written in Rust under
    [src/src].  A GET passes the gates of the front end, gets a cache key, and looks up
    which bytes of the object's current version are cached; it loads those from RAM or
    from disk, fetches the rest from S3 and answers with the pieces merged, while what it
    fetched is written to disk and recorded in a journal that a consolidator folds into
    the metadata of the object.  An upload is forwarded as it was signed and cached as it
    passes.  Eviction keeps both tiers within their limits, and instances that share a
    volume keep one account of its size.  This library models the code on these paths as
    executable definitions, and proves what makes them correct.

    ** Parts and files

    Foundations:
    - [Prelude] (this file): machine integers with their wrap-around, outcomes
      ([Ok], [Err], [Panic]), the state-and-error monad [stM] with the [preserves]
      invariant combinators, sublists, sums and sorting.
    - [RustStr]: the [str] methods and [u64] parsing and printing the proxy uses.
    - [Floats]: [f64] as executable binary floats of 53 bits.
    - [Maps]: [HashMap]s as [gmap]s, with the iteration order a parameter.
    - [CacheTypes]: [ProxyError] ([error.rs]), stored ranges, object metadata and
      their expiry, staging and access rules ([cache_types.rs]).

    Ranges and the read path:
    - [Ranges], [RangeParse]: [RangeSpec], page geometry, [merge_ranges],
      [calculate_missing_ranges], [consolidate_missing_ranges]; the [Range] header
      ([range_handler.rs]).
    - [RangeMerge]: the coverage of a lookup and [merge_range_segments]; class
      [RangeTier] is the cache tier the bytes come from and [RangeTierSpec] what the
      merge needs of it.  [RangeFetch]: [fetch_missing_ranges], the fallback to a
      complete fetch and [merge_ranges_with_fallback]; class [S3Client] is the client
      ([range_handler.rs]).
    - [RamCache], [MetadataCache]: the RAM tiers ([ram_cache.rs], [metadata_cache.rs]);
      the lock sections of concurrent calls are steps of a relation.
    - [DiskPaths], [DiskRanges]: cache keys, file paths, versioned names; metadata and
      journal lookup, reading and removing range files ([path_safety.rs],
      [disk_cache.rs], [journal_manager.rs], [compression.rs]).
    - [CacheTier]: [load_range_data_with_cache] over both tiers and the purge on an ETag
      mismatch ([cache.rs]); its instance [two_tier_spec] discharges [RangeTierSpec], so
      that the merge theorems hold of the real tiers.
    - [InflightLedger], [InflightTracker]: the memory ledger and one fetch per object at
      a time ([inflight_ledger.rs], [inflight_tracker.rs]), as step relations.
    - [Hedge]: hedged requests ([hedged_fetch.rs]).  [Bandwidth], [Throttle]: token
      bucket, deficit round robin and throttled streams ([bandwidth_limiter.rs],
      [throttle_stream.rs]).
    - [StreamMiss]: a miss served and cached at once ([tee_stream.rs]).  [Widening]:
      small reads served from pages ([http_proxy.rs]).

    The front end:
    - [HttpHeaders], [CacheKeys], [Dispatch]: conditional headers and entity tags, the key
      of a request, and the gates of [handle_get_head_request] with presigned URLs
      ([http_proxy.rs], [cache.rs], [presigned_url.rs]).
    - [Globs], [BucketSettings], [Durations]: cache rules and the reload of their file
      ([bucket_settings.rs]), durations of the configuration ([config.rs]).

    The disk:
    - [Frames]: LZ4 frames and store mode ([compression.rs]).
    - [SizeAccounting], [Storage]: the size account of all instances and the journal
      files ([journal_consolidator.rs], [journal_manager.rs]).
    - [DiskStore], [RangeWriter]: storing a range whole and as it arrives
      ([disk_cache.rs], [cache.rs], [hybrid_metadata_writer.rs]).
    - [Consolidate]: a consolidation cycle ([journal_consolidator.rs]).
    - [Eviction], [WriteLedger], [WriteCache], [StagingEviction]: eviction from the disk
      and from the staging tier ([cache.rs], [write_ledger.rs],
      [write_cache_manager.rs], [capacity_manager.rs]).
    - [HitBuffer]: cache hits buffered, flushed and consolidated, and an instance's journal
      file under concurrent writers ([cache_hit_update_buffer.rs], [journal_manager.rs]).
      [LockFiles]: the metadata locks within a process and between hosts
      ([metadata_lock_manager.rs]).
    - [OrphanRecovery]: range files that no metadata lists, scanned for, recovered or
      removed ([orphaned_range_recovery.rs], [background_recovery.rs],
      [hybrid_metadata_writer.rs]).
    - [DiskRuns]: every writer of the disk, in any order, as one step relation.

    Uploads:
    - [SignedRequest], [AwsChunked], [SignedForward]: what a SigV4 signature covers, the
      aws-chunked codec and the raw exchange ([signed_request_proxy.rs],
      [aws_chunked_decoder.rs]).
    - [Multipart], [WriteThrough]: completing an upload, and caching objects and parts as
      they pass ([signed_put_handler.rs], [cache.rs], [s3_client.rs]).

    The network:
    - [Egress]: the destination policy, endpoint overrides, the server name of a TLS
      handshake and the tunnels of the SNI and CONNECT listeners
      ([destination_policy.rs], [tcp_proxy.rs], [tls_proxy_listener.rs]).
    - [IpPool]: transport overrides, the addresses of an endpoint with round robin,
      exclusion, probes and DNS refreshes, and the connection a request is sent over
      ([connection_pool.rs], [upstream_overrides.rs], [https_connector.rs],
      [s3_client.rs]), as a step relation of requests, refreshes and probes.

    ** What the theorems show

    - Bytes: a merge, a fallback, a request through both tiers, a widened read, a streamed
      miss, an upload and a completed multipart upload give or keep exactly the bytes of
      one object version ([merge_returns_object_bytes], [fallback_returns_object_bytes],
      [range_request_end_to_end], [two_tier_load_faithful], [widened_response_faithful],
      [streamed_miss_exact], [put_cached_exact], [part_staged_exact],
      [multipart_object_exact], [upload_forwarded_exact]); fetching what the lookup
      reports missing makes the merge succeed ([partial_hit_merge_succeeds]).  Where the
      code cannot keep this (a refetch under a signed suffix or open-ended Range, a
      part whose record could not be written) the statements say so.
    - The disk: what is stored loads back, stays loadable through consolidation, and the
      reading side's invariant survives every run of the writers ([store_then_load],
      [store_range_refusals], [consolidation_keeps_loads], [runs_keep_faithful],
      [compression_roundtrip], [sharded_path_contained]);
      orphaned files are recovered, and removed only when nothing needs them
      ([orphan_recovery_safe], [orphan_recovered]).
    - Eviction and accounting: passes reach their targets, remove only what they may and
      account for what left, the coldest ranges first ([eviction_reaches_target],
      [eviction_accounted], [eviction_selects_coldest], [batch_deletion_exact],
      [staging_pass_safe], [staging_pass_reaches], [ledger_entry_survives],
      [size_account_conserved]).
    - Range algebra and text: exact lookups and complements, entity tags, cache keys,
      globs, settings, presigned URLs, the chunked codec ([range_lookup_correct],
      [missing_ranges_complement], [etag_lists_exact], [key_styles_agree],
      [glob_language], [settings_refine], [pipeline_gate], [presigned_info_wf],
      [chunked_roundtrip]).
    - Concurrency and resources: bounds and accounts under every interleaving
      ([ledger_accounting_exact], [ram_cache_bounded], [single_fetcher_per_key],
      [hedging_accounted], [bandwidth_bounded], [throttle_keeps_frames],
      [hits_counted_once], [journal_append_survives], [metadata_lock_exclusive]).
    - The network: which destinations a tunnel reaches, that nothing leaves unencrypted or
      unverified unless configured for the host or the address it is moved to, and that
      requests only use addresses known for their host ([tunnel_destination_allowed], [egress_transport_safe], [upstream_ip_known],
      [sni_hostname_read]).
    - Divergences the models exposed are proved as statements about the code, beside the
      definitions they are about ([nested_range_reported_as_gap],
      [tagging_cached_as_object], [multibyte_pattern_panics] and the like).

    ** Modelling choices

    - [u64] and [usize] are integers; [+], [-] and [*] wrap modulo [2^64] as the
      release profile compiles them, saturating and checked methods are written
      out, and theorems carry the bounds they need.
    - Instants are integers in nanoseconds.  Code that reads the clock takes the
      readings as arguments, or takes them from a stream with a counter in the
      state.
    - A file system is a value: files by path, each readable or failing.  Every step of it
      that the code expects to fail may fail; which do is an argument (the [_env] records).
    - Threads and instances are step relations over their atomic accesses or lock
      sections; the theorems are about every interleaving.
    - Fuel: loops that are not structural take fuel, and lemmas show that what
      they are given is enough: the ledger's retry loop takes at most two turns
      when no thread interferes, the chunked decoders consume a byte per turn, the
      eviction loops remove an entry per turn, a frame takes up input, a response is
      searched for its final head at most once per byte.
    - Parameters, with what is relied on as named laws: BLAKE3 and the percent
      encoder ([PathCodecSpec]), xxHash and the LZ4 encoder and frame decoder
      ([FrameEncoder], [FrameCodecSpec], [FrameCodecLaws]), distinct versions getting
      distinct files ([LayoutSeparates]), HTTP dates ([HttpDate]), the regex engine
      ([RegexLaws]), the JSON and RFC 3339 parsers, [str::to_lowercase] beyond ASCII,
      which header names and values the http crate accepts, the sizes of Rust structs,
      the order of a [HashMap]'s iterator, lock contention and the S3 client.
    - [Err] carries the message where the code's callers depend on it and a fixed
      abbreviation of it where only a log does.

    ** Not modelled

    Log output, metrics other than the counters named above, and ratios computed
    in floating point for display; sockets, the TLS handshake and DNS itself; the text of JSON; the
    dashboard, health and OTLP exporters; start-up and shutdown; the directory walks
    of start-up validation; creating and aborting multipart uploads. *)

From stdpp Require Export base tactics numbers list option.
From stdpp Require Export sorting.
From Stdlib Require Export ZArith Lia.

#[global] Open Scope Z_scope.

(** ** Machine integers

    The release profile compiles [u64] and [usize] arithmetic without overflow
    checks, so [+], [-] and [*] wrap modulo [2^64]; [saturating_*] and
    [checked_*] are the library methods of the same name. *)

Definition U64_MAX : Z := 2 ^ 64 - 1.

Definition is_u64 (x : Z) : Prop := 0 <= x < 2 ^ 64.

Definition wrap64 (x : Z) : Z := x mod 2 ^ 64.

Definition u64_add (a b : Z) : Z := wrap64 (a + b).

Definition u64_sub (a b : Z) : Z := wrap64 (a - b).

Definition u64_mul (a b : Z) : Z := wrap64 (a * b).

Definition saturating_add (a b : Z) : Z := Z.min (a + b) U64_MAX.

Definition saturating_sub (a b : Z) : Z := Z.max (a - b) 0.

Definition checked_add (a b : Z) : option Z :=
  if a + b <=? U64_MAX then Some (a + b) else None.

Lemma u64_add_small a b : 0 <= a + b < 2 ^ 64 -> u64_add a b = a + b.
Proof. intros. unfold u64_add, wrap64. by apply Z.mod_small. Qed.

Lemma u64_sub_small a b : 0 <= a - b < 2 ^ 64 -> u64_sub a b = a - b.
Proof. intros. unfold u64_sub, wrap64. by apply Z.mod_small. Qed.

Lemma u64_mul_small a b : 0 <= a * b < 2 ^ 64 -> u64_mul a b = a * b.
Proof. intros. unfold u64_mul, wrap64. by apply Z.mod_small. Qed.

Lemma wrap64_range x : is_u64 (wrap64 x).
Proof. unfold is_u64, wrap64. apply Z.mod_pos_bound. lia. Qed.

(** [u64] rewrites every wrapping operation of the goal whose exact result is
    in range; [u64 in H] does the same in a hypothesis. *)
Ltac u64_side := unfold is_u64, U64_MAX in *; simpl in *; lia.

Ltac u64_step :=
  match goal with
  | |- context [u64_add ?a ?b] => rewrite (u64_add_small a b) by u64_side
  | |- context [u64_sub ?a ?b] => rewrite (u64_sub_small a b) by u64_side
  | |- context [u64_mul ?a ?b] => rewrite (u64_mul_small a b) by u64_side
  end.

Ltac u64 := repeat u64_step.

Ltac u64_in H :=
  repeat match type of H with
  | context [u64_add ?a ?b] => rewrite (u64_add_small a b) in H by u64_side
  | context [u64_sub ?a ?b] => rewrite (u64_sub_small a b) in H by u64_side
  | context [u64_mul ?a ?b] => rewrite (u64_mul_small a b) in H by u64_side
  end.

(** [bsplit] turns the boolean comparisons of the goal and of the context into
    case splits with the order facts [lia] uses. *)
Ltac bsplit_goal :=
  match goal with
  | |- context [if ?a <? ?b then _ else _] => destruct (Z.ltb_spec a b)
  | |- context [if ?a <=? ?b then _ else _] => destruct (Z.leb_spec a b)
  | |- context [if ?a =? ?b then _ else _] => destruct (Z.eqb_spec a b)
  end.

Ltac bsplit_hyp :=
  match goal with
  | H : context [if ?a <? ?b then _ else _] |- _ => destruct (Z.ltb_spec a b)
  | H : context [if ?a <=? ?b then _ else _] |- _ => destruct (Z.leb_spec a b)
  | H : context [if ?a =? ?b then _ else _] |- _ => destruct (Z.eqb_spec a b)
  end.

(** ** Results

    [outcome E A] is a Rust computation that returns [Result<A, E>] and may
    panic (an [assert!], a slice out of bounds, an [unwrap] of [None]). *)

Inductive outcome (E A : Type) : Type :=
  | Ok (a : A)
  | Err (e : E)
  | Panic.
Arguments Ok {E A} a.
Arguments Err {E A} e.
Arguments Panic {E A}.

#[export] Instance outcome_ret E : MRet (outcome E) := fun _ a => Ok a.
#[export] Instance outcome_bind E : MBind (outcome E) := fun _ _ k m =>
  match m with Ok a => k a | Err e => Err e | Panic => Panic end.

(** Rust's [assert!]. *)
Definition rust_assert {E} (b : bool) : outcome E unit := if b then Ok tt else Panic.

Lemma bind_Ok_inv {E A B} (m : outcome E A) (k : A -> outcome E B) b :
  m ≫= k = Ok b -> exists a, m = Ok a /\ k a = Ok b.
Proof. destruct m; simpl; [eauto | discriminate..]. Qed.

Lemma outcome_bind_assoc {E A B C} (m : outcome E A) (f : A -> outcome E B)
    (g : B -> outcome E C) :
  (m ≫= f) ≫= g = m ≫= (fun x => f x ≫= g).
Proof. by destruct m. Qed.

(** ** Stateful computations

    [stM S E A] threads a state [S] through a computation that may fail; an
    early return keeps the state reached so far. *)

Definition stM (S E A : Type) : Type := S -> S * outcome E A.

#[export] Instance stM_ret S E : MRet (stM S E) := fun _ a s => (s, Ok a).
#[export] Instance stM_bind S E : MBind (stM S E) := fun _ _ k m s =>
  match m s with
  | (s', Ok a) => k a s'
  | (s', Err e) => (s', Err e)
  | (s', Panic) => (s', Panic)
  end.

Definition lift {S E A} (r : outcome E A) : stM S E A := fun s => (s, r).

(** A property of the state that holds before holds after, whatever the result. *)
Definition preserves {S E A} (I : S -> Prop) (m : stM S E A) : Prop :=
  forall s s' r, I s -> m s = (s', r) -> I s'.

Lemma stM_bind_Ok {S E A B} (m : stM S E A) (k : A -> stM S E B) s s' b :
  (m ≫= k) s = (s', Ok b) -> exists s1 a, m s = (s1, Ok a) /\ k a s1 = (s', Ok b).
Proof.
  unfold mbind, stM_bind. destruct (m s) as [s1 [a | e |]]; [eauto | discriminate..].
Qed.

Lemma preserves_bind {S E A B} (I : S -> Prop) (m : stM S E A) (k : A -> stM S E B) :
  preserves I m -> (forall a, preserves I (k a)) -> preserves I (m ≫= k).
Proof.
  intros Hm Hk s s' r Hs. unfold mbind, stM_bind.
  destruct (m s) as [s1 [a | e |]] eqn:E1; intros H.
  - eapply Hk, H. by eapply Hm.
  - injection H as <- <-. by eapply Hm.
  - injection H as <- <-. by eapply Hm.
Qed.

Lemma preserves_lift {S E A} (I : S -> Prop) (r : outcome E A) : preserves I (lift r).
Proof. by intros s s' r' Hs [= <- <-]. Qed.

(** [okinv] decomposes every hypothesis that says a bind returned [Ok]. *)
Ltac okinv :=
  repeat match goal with
  | H : _ ≫= _ = Ok _ |- _ =>
      let a := fresh "v" in let E := fresh "E" in
      apply bind_Ok_inv in H as (a & E & H)
  | H : (_ ≫= _) _ = (_, Ok _) |- _ =>
      let s1 := fresh "s" in let a := fresh "v" in let E := fresh "E" in
      apply stM_bind_Ok in H as (s1 & a & E & H)
  | H : lift _ _ = (_, Ok _) |- _ => unfold lift in H
  | H : mret _ _ = (_, Ok _) |- _ => unfold mret, stM_ret in H
  | H : (_, _) = (_, _) |- _ => injection H as ? ?; subst
  | H : Ok _ = Ok _ |- _ => injection H as H; subst
  | H : Err _ = Ok _ |- _ => discriminate H
  | H : Panic = Ok _ |- _ => discriminate H
  | H : rust_assert ?b = Ok _ |- _ => unfold rust_assert in H; destruct b eqn:?
  end.

(** ** Slices

    [slice l i j] is [&l[i..j]]: it panics, here [None], unless
    [i <= j <= l.len()]. *)

Definition zlen {A} (l : list A) : Z := Z.of_nat (length l).

Definition sub_list {A} (l : list A) (i j : Z) : list A :=
  take (Z.to_nat (j - i)) (drop (Z.to_nat i) l).

Definition slice {E A} (l : list A) (i j : Z) : outcome E (list A) :=
  if (0 <=? i) && (i <=? j) && (j <=? zlen l) then Ok (sub_list l i j) else Panic.

Lemma zlen_nonneg {A} (l : list A) : 0 <= zlen l.
Proof. unfold zlen. lia. Qed.

Lemma zlen_nil {A} : zlen (@nil A) = 0.
Proof. done. Qed.

Lemma zlen_cons {A} (x : A) l : zlen (x :: l) = zlen l + 1.
Proof. unfold zlen. simpl. lia. Qed.

Lemma zlen_app {A} (l k : list A) : zlen (l ++ k) = zlen l + zlen k.
Proof. unfold zlen. rewrite length_app. lia. Qed.

Lemma zlen_sub_list {A} (l : list A) i j :
  0 <= i -> i <= j -> j <= zlen l -> zlen (sub_list l i j) = j - i.
Proof.
  unfold zlen, sub_list. intros. rewrite length_take, length_drop. lia.
Qed.

Lemma sub_list_app {A} (l : list A) i j k :
  0 <= i -> i <= j -> j <= k ->
  sub_list l i j ++ sub_list l j k = sub_list l i k.
Proof.
  intros. unfold sub_list.
  replace (Z.to_nat (k - i)) with (Z.to_nat (j - i) + Z.to_nat (k - j))%nat by lia.
  rewrite <- (take_take_drop _ (Z.to_nat (j - i))). f_equal. rewrite drop_drop.
  do 2 f_equal. lia.
Qed.

Lemma sub_list_nil {A} (l : list A) i j : j <= i -> sub_list l i j = [].
Proof. intros. unfold sub_list. by replace (Z.to_nat (j - i)) with 0%nat by lia. Qed.

Lemma sub_list_full {A} (l : list A) : sub_list l 0 (zlen l) = l.
Proof. unfold sub_list, zlen. rewrite drop_0, take_ge; [done | lia]. Qed.

(** Re-slicing a slice shifts the bounds. *)
Lemma sub_list_sub_list {A} (l : list A) a b i j :
  0 <= a -> 0 <= i -> i <= j -> j <= b - a ->
  sub_list (sub_list l a b) i j = sub_list l (a + i) (a + j).
Proof.
  intros. unfold sub_list. rewrite skipn_firstn_comm, take_take, drop_drop.
  f_equal; [lia |]. f_equal. lia.
Qed.

Lemma slice_Ok {E A} (l : list A) i j :
  0 <= i -> i <= j -> j <= zlen l -> slice (E:=E) l i j = Ok (sub_list l i j).
Proof.
  intros. unfold slice.
  by rewrite (proj2 (Z.leb_le 0 i)), (proj2 (Z.leb_le i j)), (proj2 (Z.leb_le j _)) by lia.
Qed.

Lemma slice_Ok_inv {E A} (l v : list A) i j :
  slice (E:=E) l i j = Ok v -> v = sub_list l i j /\ 0 <= i <= j /\ j <= zlen l.
Proof.
  unfold slice. destruct (Z.leb_spec 0 i), (Z.leb_spec i j), (Z.leb_spec j (zlen l)); simpl;
    try done. intros [= <-]. split; [done | lia].
Qed.

(** ** [slice::sort_by_key]

    Rust's sort is stable, so its result is determined by the key function; the
    insertion below inserts before equal keys and is folded from the right. *)

Section SortByKey.
Context {A : Type} (key : A -> Z).

Fixpoint insert_by_key (x : A) (l : list A) : list A :=
  match l with
  | [] => [x]
  | y :: l' => if key x <=? key y then x :: l else y :: insert_by_key x l'
  end.

Definition sort_by_key (l : list A) : list A := foldr insert_by_key [] l.

Definition key_le (x y : A) : Prop := key x <= key y.

#[local] Instance key_le_trans : Transitive key_le.
Proof. intros ???. unfold key_le. lia. Qed.

Lemma insert_by_key_perm x l : insert_by_key x l ≡ₚ x :: l.
Proof.
  induction l as [|y l IH]; simpl; [done |]. bsplit_goal; [done |].
  rewrite IH. constructor.
Qed.

Lemma sort_by_key_perm l : sort_by_key l ≡ₚ l.
Proof. induction l as [|x l IH]; simpl; [done |]. by rewrite insert_by_key_perm, IH. Qed.

Lemma insert_by_key_sorted x l :
  StronglySorted key_le l -> StronglySorted key_le (insert_by_key x l).
Proof.
  induction 1 as [|y l Hs IH Hy]; simpl; [repeat constructor |].
  bsplit_goal.
  - constructor; [by constructor |]. constructor; [done |].
    eapply Forall_impl; [exact Hy |]. unfold key_le. lia.
  - constructor; [done |]. rewrite insert_by_key_perm. constructor; [unfold key_le; lia | done].
Qed.

Lemma sort_by_key_sorted l : StronglySorted key_le (sort_by_key l).
Proof. induction l; simpl; [constructor | by apply insert_by_key_sorted]. Qed.

Lemma insert_by_key_le x l : Forall (key_le x) l -> insert_by_key x l = x :: l.
Proof.
  destruct l as [|y l]; [done |]. intros Hx. apply Forall_cons_1 in Hx as [Hxy _].
  simpl. unfold key_le in Hxy. bsplit_goal; [done | lia].
Qed.

(** Sorting leaves an already sorted slice untouched. *)
Lemma sort_by_key_id l : StronglySorted key_le l -> sort_by_key l = l.
Proof.
  induction 1 as [|y l Hs IH Hy]; simpl; [done |]. rewrite IH. by apply insert_by_key_le.
Qed.

Lemma sort_by_key_nil_inv l : sort_by_key l = [] -> l = [].
Proof.
  intros H. apply Permutation_nil. rewrite <- H. apply sort_by_key_perm.
Qed.

End SortByKey.

(** ** [slice::sort_by] with a comparison, stable as well *)

Section SortBy.
Context {A : Type} (le : A -> A -> bool).

Fixpoint insert_by (x : A) (l : list A) : list A :=
  match l with
  | [] => [x]
  | y :: l' => if le x y then x :: l else y :: insert_by x l'
  end.

Definition sort_by (l : list A) : list A := foldr insert_by [] l.

Lemma insert_by_perm x l : insert_by x l ≡ₚ x :: l.
Proof. induction l as [|y l IH]; simpl; [done |]. destruct (le x y); [done |]. rewrite IH. constructor. Qed.

Lemma sort_by_perm l : sort_by l ≡ₚ l.
Proof. induction l as [|x l IH]; simpl; [done |]. by rewrite insert_by_perm, IH. Qed.

Hypothesis le_total : forall x y, le x y = false -> le y x = true.
Hypothesis le_trans : forall x y z, le x y = true -> le y z = true -> le x z = true.

Lemma insert_by_sorted x l :
  StronglySorted (fun a b => le a b = true) l -> StronglySorted (fun a b => le a b = true) (insert_by x l).
Proof.
  induction 1 as [|y l Hs IH Hy]; simpl; [repeat constructor |]. destruct (le x y) eqn:E.
  - constructor; [by constructor |]. constructor; [done |]. eapply Forall_impl; [exact Hy |]. intros z. by apply le_trans.
  - constructor; [done |]. rewrite insert_by_perm. constructor; [by apply le_total | done].
Qed.

Lemma sort_by_sorted l : StronglySorted (fun a b => le a b = true) (sort_by l).
Proof. induction l; simpl; [constructor | by apply insert_by_sorted]. Qed.

End SortBy.

(** ** Sums over lists *)

Definition sum_by {A} (f : A -> Z) (l : list A) : Z := foldr (fun x acc => f x + acc) 0 l.

Lemma sum_by_app {A} (f : A -> Z) l k : sum_by f (l ++ k) = sum_by f l + sum_by f k.
Proof. induction l; simpl; lia. Qed.

Lemma sum_by_nil {A} (f : A -> Z) : sum_by f [] = 0.
Proof. done. Qed.

Lemma sum_by_cons {A} (f : A -> Z) x l : sum_by f (x :: l) = f x + sum_by f l.
Proof. done. Qed.

Lemma sum_by_perm {A} (f : A -> Z) l k : l ≡ₚ k -> sum_by f l = sum_by f k.
Proof. induction 1; simpl; lia. Qed.

Lemma sum_by_nonneg {A} (f : A -> Z) l : (forall x, x ∈ l -> 0 <= f x) -> 0 <= sum_by f l.
Proof.
  induction l as [|x l IH]; simpl; [lia |]. intros Hf.
  pose proof (Hf x ltac:(left)). pose proof (IH ltac:(intros; apply Hf; by right)). lia.
Qed.

#[export] Instance sum_by_proper {A} (f : A -> Z) : Proper ((≡ₚ) ==> eq) (sum_by f).
Proof. intros l k. apply sum_by_perm. Qed.

(** Lemmas the component files close routine goals with. *)
Create HintDb cache discriminated.
#[export] Hint Resolve zlen_nonneg sort_by_key_perm sort_by_key_sorted wrap64_range : cache.
