(* ===== verification/RustStr.v ===== *)
(** * Rust strings

    The [str] and integer-parsing methods the proxy calls on header values,
    cache keys and file names.  A [&str] is a Rocq [string], one [ascii] per
    byte; [trim] removes the ASCII white space (header values reach this code
    through [HeaderValue::to_str], which admits visible ASCII and tab only). *)

From S2P Require Import Prelude.
From stdpp Require Export strings.
From Stdlib Require Export Ascii.

#[local] Open Scope Z_scope.
#[local] Arguments String.append : simpl nomatch.

Definition ascii_eqb (a b : ascii) : bool := bool_decide (a = b).

(** ** Prefixes, suffixes, substrings *)

Fixpoint strip_prefix (p s : string) : option string :=
  match p, s with
  | EmptyString, _ => Some s
  | String a p', String b s' => if ascii_eqb a b then strip_prefix p' s' else None
  | String _ _, EmptyString => None
  end.

Definition starts_with (p s : string) : bool := bool_decide (is_Some (strip_prefix p s)).

Fixpoint string_rev_app (s acc : string) : string :=
  match s with
  | EmptyString => acc
  | String a s' => string_rev_app s' (String a acc)
  end.

Definition string_rev (s : string) : string := string_rev_app s "".

Definition strip_suffix (suf s : string) : option string :=
  string_rev <$> strip_prefix (string_rev suf) (string_rev s).

Definition ends_with (suf s : string) : bool := bool_decide (is_Some (strip_suffix suf s)).

Fixpoint contains (pat s : string) : bool :=
  starts_with pat s ||
  match s with EmptyString => false | String _ s' => contains pat s' end.

(** [str::find] of a pattern: the byte offset of its first occurrence. *)
Fixpoint find_str (pat s : string) : option nat :=
  if starts_with pat s then Some 0%nat else
  match s with EmptyString => None | String _ s' => S <$> find_str pat s' end.

Fixpoint string_drop (n : nat) (s : string) : string :=
  match n, s with
  | O, _ => s
  | S n', String _ s' => string_drop n' s'
  | S _, EmptyString => EmptyString
  end.

Fixpoint string_take (n : nat) (s : string) : string :=
  match n, s with
  | S n', String a s' => String a (string_take n' s')
  | _, _ => EmptyString
  end.

Fixpoint all_chars (P : ascii -> bool) (s : string) : bool :=
  match s with EmptyString => true | String a s' => P a && all_chars P s' end.

Definition is_empty_str (s : string) : bool :=
  match s with EmptyString => true | _ => false end.

(** ** Splitting and trimming *)

Fixpoint split_char (c : ascii) (s : string) : list string :=
  match s with
  | EmptyString => [EmptyString]
  | String a s' =>
      if ascii_eqb a c then EmptyString :: split_char c s' else
      match split_char c s' with
      | [] => [String a EmptyString]
      | w :: ws => String a w :: ws
      end
  end.

Fixpoint split_once (c : ascii) (s : string) : option (string * string) :=
  match s with
  | EmptyString => None
  | String a s' =>
      if ascii_eqb a c then Some (EmptyString, s') else
      '(l, r) ← split_once c s'; Some (String a l, r)
  end.

(** [str::rsplit_once]. *)
Definition rsplit_once (c : ascii) (s : string) : option (string * string) :=
  '(r, l) ← split_once c (string_rev s); Some (string_rev l, string_rev r).

Definition contains_char (c : ascii) (s : string) : bool :=
  negb (all_chars (fun a => negb (ascii_eqb a c)) s).

Definition is_whitespace (a : ascii) : bool :=
  let n := Ascii.nat_of_ascii a in
  ((9 <=? n)%nat && (n <=? 13)%nat) || (n =? 32)%nat.

Fixpoint trim_start (s : string) : string :=
  match s with
  | EmptyString => EmptyString
  | String a s' => if is_whitespace a then trim_start s' else s
  end.

Definition trim_end (s : string) : string := string_rev (trim_start (string_rev s)).

Definition trim (s : string) : string := trim_end (trim_start s).

(** ** ASCII case folding *)

Definition ascii_to_lower (a : ascii) : ascii :=
  let n := Ascii.nat_of_ascii a in
  if (65 <=? n)%nat && (n <=? 90)%nat then Ascii.ascii_of_nat (n + 32) else a.

Fixpoint to_lowercase (s : string) : string :=
  match s with
  | EmptyString => EmptyString
  | String a s' => String (ascii_to_lower a) (to_lowercase s')
  end.

Definition eq_ignore_ascii_case (s t : string) : bool :=
  bool_decide (to_lowercase s = to_lowercase t).

(** ** Integers: [from_str_radix] and [Display]/[LowerHex] *)

Definition to_digit (radix : Z) (a : ascii) : option Z :=
  let n := Z.of_nat (Ascii.nat_of_ascii a) in
  let d := if (48 <=? n) && (n <=? 57) then Some (n - 48)
           else if (97 <=? n) && (n <=? 122) then Some (n - 87)
           else if (65 <=? n) && (n <=? 90) then Some (n - 55)
           else None in
  match d with
  | Some d => if d <? radix then Some d else None
  | None => None
  end.

Definition from_digit (d : Z) : ascii :=
  Ascii.ascii_of_nat (Z.to_nat (if d <? 10 then 48 + d else 87 + d)).

(** The accumulation loop of [from_str_radix]: checked multiply and add. *)
Fixpoint digits_value (radix acc : Z) (s : string) : option Z :=
  match s with
  | EmptyString => Some acc
  | String a s' =>
      d ← to_digit radix a;
      let acc' := acc * radix + d in
      if acc' <=? U64_MAX then digits_value radix acc' s' else None
  end.

(** [u64::from_str_radix]; [None] is its [ParseIntError].  A single leading
    [+] is accepted, a lone sign and the empty string are not. *)
Definition u64_from_str_radix (radix : Z) (s : string) : option Z :=
  match s with
  | EmptyString => None
  | String a s' =>
      if ascii_eqb a "+"%char
      then match s' with EmptyString => None | _ => digits_value radix 0 s' end
      else digits_value radix 0 s
  end.

Definition parse_u64 : string -> option Z := u64_from_str_radix 10.

Fixpoint fmt_radix (fuel : nat) (radix n : Z) (acc : string) : string :=
  match fuel with
  | O => acc
  | S f =>
      let acc' := String (from_digit (n mod radix)) acc in
      if n <? radix then acc' else fmt_radix f radix (n / radix) acc'
  end.

(** [format!("{}", n)] and [format!("{:x}", n)]; 64 digits are enough for any
    [u64] in any radix of at least 2. *)
Definition u64_to_string (n : Z) : string := fmt_radix 64 10 n "".

Definition u64_to_hex (n : Z) : string := fmt_radix 64 16 n "".

(** ** Facts *)

Lemma ascii_eqb_refl a : ascii_eqb a a = true.
Proof. by apply bool_decide_eq_true. Qed.

Lemma ascii_eqb_eq a b : ascii_eqb a b = true <-> a = b.
Proof. apply bool_decide_eq_true. Qed.

Lemma ascii_eqb_neq a b : a <> b -> ascii_eqb a b = false.
Proof. intros. by apply bool_decide_eq_false. Qed.

Lemma strip_prefix_Some p s t : strip_prefix p s = Some t <-> s = (p +:+ t)%string.
Proof.
  revert s. induction p as [|a p IH]; intros s; simpl.
  - split; [by intros [= ->] | by intros ->].
  - destruct s as [|b s]; simpl; [split; discriminate |].
    unfold ascii_eqb. case_bool_decide as E; subst.
    + rewrite IH. split; [by intros -> | by intros [= ->]].
    + split; [discriminate | intros [= ->]; done].
Qed.

Lemma strip_prefix_app p t : strip_prefix p (p +:+ t)%string = Some t.
Proof. by apply strip_prefix_Some. Qed.

Lemma string_app_assoc (s t u : string) : (s +:+ (t +:+ u) = (s +:+ t) +:+ u)%string.
Proof. induction s; simpl; [done |]. cbn. by f_equal. Qed.

Lemma string_app_nil_r (s : string) : (s +:+ "" = s)%string.
Proof. induction s; cbn; [done |]. by f_equal. Qed.

Lemma string_rev_app_app s t : string_rev_app s t = (string_rev s +:+ t)%string.
Proof.
  unfold string_rev. revert t. induction s as [|a s IH]; intros t; [done |].
  cbn [string_rev_app]. rewrite IH, (IH (String a "")), <- string_app_assoc. done.
Qed.

Lemma string_rev_cons a s : string_rev (String a s) = (string_rev s +:+ String a "")%string.
Proof. unfold string_rev at 1. cbn [string_rev_app]. apply string_rev_app_app. Qed.

Lemma string_rev_distr s t : string_rev (s +:+ t) = (string_rev t +:+ string_rev s)%string.
Proof.
  induction s as [|a s IH]; [by rewrite string_app_nil_r |].
  change (String a s +:+ t)%string with (String a (s +:+ t)).
  rewrite !string_rev_cons. by rewrite IH, string_app_assoc.
Qed.

Lemma string_rev_involutive s : string_rev (string_rev s) = s.
Proof.
  induction s as [|a s IH]; [done |]. rewrite string_rev_cons, string_rev_distr, IH. done.
Qed.

Lemma strip_suffix_Some suf s t : strip_suffix suf s = Some t <-> s = (t +:+ suf)%string.
Proof.
  unfold strip_suffix. rewrite fmap_Some. setoid_rewrite strip_prefix_Some. split.
  - intros (u & Hs & ->). rewrite <- (string_rev_involutive s), Hs, string_rev_distr.
    by rewrite string_rev_involutive.
  - intros ->. exists (string_rev t). by rewrite string_rev_distr, string_rev_involutive.
Qed.

Lemma ends_with_spec suf s : ends_with suf s = true <-> exists t, s = (t +:+ suf)%string.
Proof.
  unfold ends_with. rewrite bool_decide_eq_true. unfold is_Some.
  by setoid_rewrite strip_suffix_Some.
Qed.

Lemma starts_with_spec p s : starts_with p s = true <-> exists t, s = (p +:+ t)%string.
Proof.
  unfold starts_with. rewrite bool_decide_eq_true. unfold is_Some.
  by setoid_rewrite strip_prefix_Some.
Qed.

Lemma contains_spec pat s :
  contains pat s = true <-> exists l r, s = (l +:+ pat +:+ r)%string.
Proof.
  induction s as [|a s IH]; cbn [contains]; rewrite orb_true_iff, starts_with_spec.
  - split.
    + intros [[t Ht] | ?]; [| done]. by exists "", t.
    + intros (l & r & H). left. exists r. destruct l; [done | discriminate].
  - rewrite IH. split.
    + intros [[t Ht] | (l & r & ->)]; [by exists "", t | by exists (String a l), r].
    + intros (l & r & H). destruct l as [|b l]; [left; by exists r |].
      right. injection H as -> ->. by exists l, r.
Qed.

Lemma all_chars_app P s t : all_chars P (s +:+ t) = all_chars P s && all_chars P t.
Proof. induction s as [|a s IH]; cbn; [done |]. by rewrite IH, andb_assoc. Qed.

Lemma all_chars_rev P s : all_chars P (string_rev s) = all_chars P s.
Proof.
  induction s as [|a s IH]; [done |].
  rewrite string_rev_cons, all_chars_app, IH. cbn. rewrite andb_true_r. apply andb_comm.
Qed.

Lemma all_chars_impl (P Q : ascii -> bool) s :
  (forall a, P a = true -> Q a = true) -> all_chars P s = true -> all_chars Q s = true.
Proof.
  intros HPQ. induction s as [|a s IH]; cbn; [done |]. rewrite !andb_true_iff.
  intros [Ha Hs]. split; [by apply HPQ | by apply IH].
Qed.

(** *** Splitting *)

Lemma split_char_free c s :
  all_chars (fun a => negb (ascii_eqb a c)) s = true -> split_char c s = [s].
Proof.
  induction s as [|a s IH]; cbn; [done |]. rewrite andb_true_iff, negb_true_iff.
  intros [-> Hs]. by rewrite IH.
Qed.

Lemma split_char_app c s t :
  all_chars (fun a => negb (ascii_eqb a c)) s = true ->
  split_char c (s +:+ String c t) = s :: split_char c t.
Proof.
  induction s as [|a s IH]; cbn; [by rewrite ascii_eqb_refl |].
  rewrite andb_true_iff, negb_true_iff. intros [-> Hs]. by rewrite IH.
Qed.

Lemma split_char_nonempty c s : split_char c s <> [].
Proof.
  destruct s as [|a s]; cbn; [done |]. destruct (ascii_eqb a c); [done |].
  by destruct (split_char c s).
Qed.

Lemma split_once_app c s t :
  all_chars (fun a => negb (ascii_eqb a c)) s = true ->
  split_once c (s +:+ String c t) = Some (s, t).
Proof.
  induction s as [|a s IH]; cbn; [by rewrite ascii_eqb_refl |].
  rewrite andb_true_iff, negb_true_iff. intros [-> Hs]. by rewrite IH.
Qed.

Lemma rsplit_once_app c s t :
  all_chars (fun a => negb (ascii_eqb a c)) t = true -> rsplit_once c (s +:+ String c t) = Some (s, t).
Proof.
  intros Ht. unfold rsplit_once. rewrite string_rev_distr, string_rev_cons, <- string_app_assoc.
  change (String c "" +:+ string_rev s)%string with (String c (string_rev s)).
  rewrite split_once_app by (by rewrite all_chars_rev). cbn. by rewrite !string_rev_involutive.
Qed.

(** *** Trimming *)

Lemma trim_start_id s :
  all_chars (fun a => negb (is_whitespace a)) s = true -> trim_start s = s.
Proof. destruct s as [|a s]; cbn; [done |]. by destruct (is_whitespace a). Qed.

Lemma trim_id s : all_chars (fun a => negb (is_whitespace a)) s = true -> trim s = s.
Proof.
  intros H. unfold trim, trim_end. rewrite (trim_start_id s) by done.
  rewrite trim_start_id by (by rewrite all_chars_rev). apply string_rev_involutive.
Qed.

(** *** Integers *)

Definition is_digit_char (a : ascii) : bool := bool_decide (is_Some (to_digit 16 a)).

(** What the digits are not: the separators of the formats that print them. *)
Definition is_plain_char (a : ascii) : bool :=
  negb (is_whitespace a) && negb (ascii_eqb a "-"%char) && negb (ascii_eqb a "+"%char)
  && negb (ascii_eqb a ","%char) && negb (ascii_eqb a "."%char) && negb (ascii_eqb a ";"%char)
  && negb (ascii_eqb a "_"%char) && negb (ascii_eqb a ":"%char) && negb (ascii_eqb a "/"%char)
  && negb (ascii_eqb a "013"%char) && negb (ascii_eqb a "010"%char)
  && (Ascii.nat_of_ascii a <? 128)%nat.

Lemma small_digit_cases (P : Z -> Prop) d :
  0 <= d < 16 -> P 0 -> P 1 -> P 2 -> P 3 -> P 4 -> P 5 -> P 6 -> P 7 ->
  P 8 -> P 9 -> P 10 -> P 11 -> P 12 -> P 13 -> P 14 -> P 15 -> P d.
Proof.
  intros.
  assert (d = 0 \/ d = 1 \/ d = 2 \/ d = 3 \/ d = 4 \/ d = 5 \/ d = 6 \/ d = 7 \/
          d = 8 \/ d = 9 \/ d = 10 \/ d = 11 \/ d = 12 \/ d = 13 \/ d = 14 \/ d = 15)
    as Hd by lia.
  by destruct_or! Hd; subst.
Qed.

Lemma to_from_digit radix d : 0 <= d < radix -> radix <= 16 -> to_digit radix (from_digit d) = Some d.
Proof.
  intros Hd Hr.
  assert (to_digit 16 (from_digit d) = Some d) as H16.
  { apply (small_digit_cases (fun d => to_digit 16 (from_digit d) = Some d)); [lia | done..]. }
  revert H16. unfold to_digit.
  repeat (destruct (_ && _)); try discriminate; bsplit_goal; try discriminate;
    intros [= ->]; bsplit_goal; done || lia.
Qed.

Lemma from_digit_plain d : 0 <= d < 16 -> is_plain_char (from_digit d) = true.
Proof.
  intros. by apply (small_digit_cases (fun d => is_plain_char (from_digit d) = true)).
Qed.

Lemma fmt_radix_value fuel radix n tail :
  2 <= radix <= 16 -> 0 <= n <= U64_MAX -> n < radix ^ Z.of_nat fuel -> (0 < fuel)%nat ->
  digits_value radix 0 (fmt_radix fuel radix n tail) = digits_value radix n tail.
Proof.
  intros Hr. revert n tail. induction fuel as [|fuel IH]; intros n tail Hn Hlt Hf; [lia |].
  cbn [fmt_radix]. pose proof (Z.mod_pos_bound n radix ltac:(lia)) as Hm.
  destruct (Z.ltb_spec n radix).
  - cbn [digits_value]. rewrite to_from_digit by lia. cbn.
    rewrite Z.mod_small by lia. bsplit_goal; [done | lia].
  - rewrite Nat2Z.inj_succ, Z.pow_succ_r in Hlt by lia.
    assert (n / radix < radix ^ Z.of_nat fuel) by (apply Z.div_lt_upper_bound; lia).
    assert (0 <= n / radix <= n).
    { split; [apply Z.div_pos; lia | apply Z.div_le_upper_bound; nia]. }
    assert (1 <= n / radix) by (apply Z.div_le_lower_bound; lia).
    destruct fuel as [|fuel]; [simpl in *; lia |].
    rewrite IH by lia. cbn [digits_value].
    rewrite to_from_digit by lia. cbn.
    replace (n / radix * radix + n mod radix) with n
      by (rewrite (Z.div_mod n radix) at 1 by lia; lia).
    bsplit_goal; [done | lia].
Qed.

Lemma fmt_radix_plain fuel radix n tail :
  2 <= radix <= 16 -> 0 <= n ->
  all_chars is_plain_char tail = true -> all_chars is_plain_char (fmt_radix fuel radix n tail) = true.
Proof.
  intros Hr. revert n tail. induction fuel as [|fuel IH]; intros n tail Hn Ht; [done |].
  cbn [fmt_radix]. pose proof (Z.mod_pos_bound n radix ltac:(lia)).
  assert (all_chars is_plain_char (String (from_digit (n mod radix)) tail) = true).
  { cbn [all_chars]. rewrite from_digit_plain by lia. done. }
  bsplit_goal; [done |]. apply IH; [apply Z.div_pos; lia | done].
Qed.

Lemma fmt_radix_cons fuel radix n tail :
  (0 < fuel)%nat -> 2 <= radix <= 16 -> 0 <= n ->
  exists a s, fmt_radix fuel radix n tail = String a s /\ is_plain_char a = true.
Proof.
  intros Hf Hr. revert n tail. induction fuel as [|fuel IH]; intros n tail Hn; [lia |].
  cbn [fmt_radix]. pose proof (Z.mod_pos_bound n radix ltac:(lia)).
  bsplit_goal; [eexists _, _; split; [done |]; apply from_digit_plain; lia |].
  destruct fuel; [eexists _, _; split; [done |]; apply from_digit_plain; lia |].
  apply IH; [lia | apply Z.div_pos; lia].
Qed.

(** Printing a [u64] and parsing it back is the identity, in both radixes. *)
Lemma u64_roundtrip radix n :
  radix = 10 \/ radix = 16 -> is_u64 n ->
  u64_from_str_radix radix (fmt_radix 64 radix n "") = Some n.
Proof.
  intros Hr Hn. unfold is_u64, U64_MAX in *.
  pose proof (fmt_radix_value 64 radix n "" ltac:(lia)) as Hv.
  destruct (fmt_radix_cons 64 radix n "" ltac:(lia) ltac:(lia) ltac:(lia)) as (a & s & Hs & Ha).
  rewrite Hs in *. unfold u64_from_str_radix.
  assert (ascii_eqb a "+" = false) as ->.
  { revert Ha. unfold is_plain_char. rewrite !andb_true_iff, !negb_true_iff. tauto. }
  rewrite Hv; [done | unfold U64_MAX; lia | | lia].
  destruct Hr as [-> | ->]; simpl; lia.
Qed.

Lemma parse_u64_to_string n : is_u64 n -> parse_u64 (u64_to_string n) = Some n.
Proof. intros. apply u64_roundtrip; auto. Qed.

Lemma u64_to_string_plain n : 0 <= n -> all_chars is_plain_char (u64_to_string n) = true.
Proof. intros. by apply fmt_radix_plain. Qed.

Lemma u64_to_string_inj n m :
  is_u64 n -> is_u64 m -> u64_to_string n = u64_to_string m -> n = m.
Proof.
  intros Hn Hm H. apply (f_equal parse_u64) in H.
  rewrite !parse_u64_to_string in H by done. by injection H.
Qed.

Lemma u64_to_string_nonempty n : 0 <= n -> is_empty_str (u64_to_string n) = false.
Proof.
  intros. unfold u64_to_string.
  by destruct (fmt_radix_cons 64 10 n "" ltac:(lia) ltac:(lia) ltac:(lia)) as (a & s & -> & _).
Qed.

(** A plain string holds none of the characters the proxy splits on. *)
Lemma plain_no_sep s c :
  is_plain_char c = false ->
  all_chars is_plain_char s = true -> all_chars (fun a => negb (ascii_eqb a c)) s = true.
Proof.
  intros Hc. apply all_chars_impl. intros a Ha. apply negb_true_iff, ascii_eqb_neq.
  intros ->. congruence.
Qed.

Lemma plain_no_space s :
  all_chars is_plain_char s = true -> all_chars (fun a => negb (is_whitespace a)) s = true.
Proof.
  apply all_chars_impl. intros a. unfold is_plain_char. rewrite !andb_true_iff. tauto.
Qed.

#[export] Hint Resolve u64_to_string_plain plain_no_space : cache.

(** *** What a parsed number is made of *)

(** [trim] only removes white space, so a class of characters that contains
    white space survives trimming in both directions. *)
Lemma all_chars_trim (P : ascii -> bool) s :
  (forall a, is_whitespace a = true -> P a = true) ->
  all_chars P (trim s) = true -> all_chars P s = true.
Proof.
  intros HP. assert (forall t, all_chars P (trim_start t) = true -> all_chars P t = true) as Hst.
  { intros t. induction t as [|a t IH]; cbn; [done |].
    destruct (is_whitespace a) eqn:E; [| done]. intros Ht. by rewrite (HP a E), IH. }
  unfold trim, trim_end. rewrite all_chars_rev. intros Ht.
  apply Hst in Ht. rewrite all_chars_rev in Ht. by apply Hst.
Qed.

(** The characters [u64::from_str] accepts. *)
Definition is_number_char (a : ascii) : bool :=
  ascii_eqb a "+"%char || bool_decide (is_Some (to_digit 10 a)).

Lemma digits_value_chars s : forall acc n,
  digits_value 10 acc s = Some n -> all_chars is_number_char s = true.
Proof.
  induction s as [|a s IH]; intros acc n; cbn [digits_value all_chars]; [done |].
  intros (d & Ed & H)%bind_Some. rewrite andb_true_iff. split.
  - unfold is_number_char. rewrite bool_decide_true by eauto. apply orb_true_r.
  - bsplit_hyp; [eauto | done].
Qed.

Lemma digits_value_range radix s : forall acc n,
  2 <= radix -> 0 <= acc <= U64_MAX -> digits_value radix acc s = Some n -> is_u64 n.
Proof.
  induction s as [|a s IH]; intros acc n Hr Hacc; cbn [digits_value].
  - intros [= <-]. unfold is_u64, U64_MAX in *. lia.
  - intros (d & Ed & H)%bind_Some.
    assert (0 <= d). { unfold to_digit in Ed. repeat case_match; simplify_eq; lia. }
    bsplit_hyp; [| done]. eapply IH; [done | | exact H]. nia.
Qed.

Lemma parse_u64_chars s n : parse_u64 s = Some n -> all_chars is_number_char s = true.
Proof.
  unfold parse_u64, u64_from_str_radix. destruct s as [|a s]; [done |].
  destruct (ascii_eqb a "+"%char) eqn:Ea.
  - destruct s; [done |]. intros H%digits_value_chars. cbn [all_chars] in *. unfold is_number_char at 1.
    by rewrite Ea.
  - apply digits_value_chars.
Qed.

Lemma parse_u64_range s n : parse_u64 s = Some n -> is_u64 n.
Proof.
  unfold parse_u64, u64_from_str_radix. destruct s as [|a s]; [done |].
  destruct (ascii_eqb a "+"%char).
  - destruct s; [done |]. apply digits_value_range; unfold U64_MAX; lia.
  - apply digits_value_range; unfold U64_MAX; lia.
Qed.

Lemma parse_u64_nonempty s n : parse_u64 s = Some n -> is_empty_str s = false.
Proof. by destruct s. Qed.

(** A string whose trimmed form parses holds no separator. *)
Lemma parse_u64_trim_no_sep s n c :
  is_number_char c = false -> is_whitespace c = false ->
  parse_u64 (trim s) = Some n -> all_chars (fun a => negb (ascii_eqb a c)) s = true.
Proof.
  intros Hc Hw H%parse_u64_chars. apply all_chars_trim.
  - intros a Ha. apply negb_true_iff, ascii_eqb_neq. intros ->. congruence.
  - revert H. apply all_chars_impl. intros a Ha. apply negb_true_iff, ascii_eqb_neq.
    intros ->. congruence.
Qed.

Lemma split_once_Some c s l r : split_once c s = Some (l, r) -> s = (l +:+ String c r)%string.
Proof.
  revert l r. induction s as [|a s IH]; intros l r; cbn [split_once]; [done |].
  destruct (ascii_eqb a c) eqn:E.
  - intros [= <- <-]. by apply ascii_eqb_eq in E as ->.
  - intros ([l' r'] & H & [= <- <-])%bind_Some. by rewrite (IH _ _ H).
Qed.

(** *** Lengths and offsets *)

Lemma string_length_app s t :
  String.length (s +:+ t) = (String.length s + String.length t)%nat.
Proof. induction s as [|a s IH]; cbn; [done | by rewrite IH]. Qed.

Lemma string_take_app s t : string_take (String.length s) (s +:+ t) = s.
Proof. induction s as [|a s IH]; cbn; [by destruct t | by rewrite IH]. Qed.

Lemma string_drop_app s t n : string_drop (String.length s + n) (s +:+ t) = string_drop n t.
Proof. induction s as [|a s IH]; cbn; done. Qed.

(** What precedes the first separator is determined. *)
Lemma app_sep_inj c s t s' t' :
  let free x := all_chars (fun a => negb (ascii_eqb a c)) x = true in
  free s -> free s' -> (s +:+ String c t = s' +:+ String c t')%string -> s = s' /\ t = t'.
Proof.
  intros free Hs Hs' E. apply (f_equal (split_once c)) in E.
  rewrite !split_once_app in E by done. by injection E.
Qed.

(** What follows the last separator is determined. *)
Lemma app_sep_inj_r c s t s' t' :
  let free x := all_chars (fun a => negb (ascii_eqb a c)) x = true in
  free t -> free t' -> (s +:+ String c t = s' +:+ String c t')%string -> s = s' /\ t = t'.
Proof.
  intros free Ht Ht' E. apply (f_equal string_rev) in E. rewrite !string_rev_distr, !string_rev_cons in E.
  rewrite <- !string_app_assoc in E. apply app_sep_inj in E as [E1 E2]; [| by rewrite all_chars_rev..].
  apply (f_equal string_rev) in E1, E2. by rewrite !string_rev_involutive in E1, E2.
Qed.

Lemma string_app_inj_r s s' t : (s +:+ t = s' +:+ t)%string -> s = s'.
Proof.
  intros E. apply (f_equal (strip_suffix t)) in E.
  assert (forall x, strip_suffix t (x +:+ t)%string = Some x) as Hs by (intros; by apply strip_suffix_Some).
  rewrite !Hs in E. by injection E.
Qed.

Lemma string_app_inj_l s t t' : (s +:+ t = s +:+ t')%string -> t = t'.
Proof. intros E. apply (f_equal (strip_prefix s)) in E. rewrite !strip_prefix_app in E. by injection E. Qed.

(** Suffixes of the same length are equal. *)
Lemma string_app_inj_len s t s' t' :
  String.length t = String.length t' -> (s +:+ t = s' +:+ t')%string -> s = s' /\ t = t'.
Proof.
  intros Hl E. assert (String.length s = String.length s') as Hs.
  { apply (f_equal String.length) in E. rewrite !string_length_app in E. lia. }
  revert s' Hs E. induction s as [|a s IH]; intros [|b s'] Hs E; try done.
  cbn in *. injection E as -> E. injection Hs as Hs. destruct (IH s' Hs E) as [-> ->]. done.
Qed.

(** The first occurrence of a pattern that ends at its only [c], after a prefix
    without [c]. *)
Lemma find_str_ends_at (c : ascii) q s t :
  let free x := all_chars (fun a => negb (ascii_eqb a c)) x = true in
  free q -> free s ->
  find_str (q +:+ String c "") (s +:+ q +:+ String c t) = Some (String.length s).
Proof.
  intros free Hq Hs.
  assert (forall u, (q +:+ String c "") +:+ u = q +:+ String c u) as Hq1.
  { intros u. by rewrite <- string_app_assoc. }
  induction s as [|a s IH].
  - change ("" +:+ q +:+ String c t) with (q +:+ String c t).
    assert (starts_with (q +:+ String c "") (q +:+ String c t) = true) as Hst.
    { apply starts_with_spec. exists t. by rewrite Hq1. }
    destruct (q +:+ String c t); cbn [find_str]; by rewrite Hst.
  - change (String a s +:+ q +:+ String c t) with (String a (s +:+ q +:+ String c t)).
    cbn [find_str]. destruct (starts_with _ _) eqn:E.
    + exfalso. apply starts_with_spec in E as [u Hu]. rewrite Hq1 in Hu.
      assert (free (String a s +:+ q)) as Hsq.
      { unfold free. by rewrite all_chars_app, Hs, Hq. }
      pose proof (split_once_app c (String a s +:+ q) t Hsq) as H1.
      rewrite <- string_app_assoc in H1.
      change (String a s +:+ q +:+ String c t) with (String a (s +:+ q +:+ String c t)) in H1.
      rewrite Hu, (split_once_app c q u Hq) in H1. injection H1 as H1 _.
      apply (f_equal String.length) in H1. cbn in H1. rewrite string_length_app in H1. lia.
    + cbn in Hs. apply andb_true_iff in Hs as [_ Hs]. by rewrite (IH Hs).
Qed.
