(* ===== verification/CacheTypes.v ===== *)
(** * Shared data: errors, stored ranges, object metadata

    The types of [error.rs] and [cache_types.rs] that the components exchange,
    with the pure operations defined on them: expiry arithmetic, the staging
    (write) tier predicates and access scores.
    Instants and durations are integers in nanoseconds; every function that
    reads the clock takes [now]. *)

From S2P Require Import Prelude RustStr.
From stdpp Require Export gmap.

#[local] Open Scope Z_scope.

(** ** Errors *)

Inductive ProxyError : Type :=
  | IoError (m : string)
  | HttpError (m : string)
  | ConnectionError (m : string)
  | CacheError (m : string)
  | CacheVersionMismatch (cache_key cached_etag response_etag : string)
  | SignedHeaderRewriteRefused (header cache_key : string)
  | CompressionError (m : string)
  | TlsError (m : string)
  | ConfigError (m : string)
  | DnsError (m : string)
  | TimeoutError (m : string)
  | SerializationError (m : string)
  | LockError (m : string)
  | LockContention (m : string)
  | InvalidRequest (m : string)
  | S3Error (m : string)
  | InternalError (m : string)
  | ServiceUnavailable (m : string)
  | InvalidRange (m : string)
  | SystemError (m : string)
  | RetryAfter (secs : Z)
  | EvictionFenceLost (m : string)
  | RequestBodyTooLarge (content_length : option Z) (max_bytes : Z)
  | UpstreamTlsValidationFailed (endpoint source_err : string)
  | InflightCeilingExceeded (ceiling_bytes requested_bytes : Z).

#[export] Instance ProxyError_eq_dec : EqDecision ProxyError.
Proof. solve_decision. Defined.

(** [crate::Result<T>]. *)
Abbreviation Result := (outcome ProxyError).

(** ** Bytes and headers *)

Abbreviation bytes := (list Byte.byte).

#[export] Instance byte_eq_dec : EqDecision Byte.byte := Byte.byte_eq_dec.

(** A [HashMap<String, String>] of HTTP headers in its iteration order. *)
Abbreviation Headers := (list (string * string)).

Definition header_get (h : Headers) (name : string) : option string :=
  match List.find (fun kv => bool_decide (kv.1 = name)) h with
  | Some kv => Some kv.2
  | None => None
  end.

(** [headers.iter().find(|(k, _)| k.eq_ignore_ascii_case(name))]. *)
Definition header_find (h : Headers) (name : string) : option string :=
  match List.find (fun kv => eq_ignore_ascii_case kv.1 name) h with
  | Some kv => Some kv.2
  | None => None
  end.

Definition header_remove (h : Headers) (name : string) : Headers :=
  List.filter (fun kv => negb (bool_decide (kv.1 = name))) h.

Definition header_insert (h : Headers) (name value : string) : Headers :=
  (name, value) :: header_remove h name.

(** ** Time *)

Definition NANOS_PER_SEC : Z := 1000000000.

(** The largest [SystemTime] of the platform: [i64] seconds and the nanoseconds
    of the last one. *)
Definition SYSTEM_TIME_MAX : Z := 2 ^ 63 * NANOS_PER_SEC - 1.

Definition system_time_checked_add (base ttl : Z) : option Z :=
  if base + ttl <=? SYSTEM_TIME_MAX then Some (base + ttl) else None.

(** [later.duration_since(earlier).unwrap_or_default()]: zero when the clock ran
    backwards. *)
Definition duration_since_or_zero (later earlier : Z) : Z := Z.max (later - earlier) 0.

Definition MAX_TTL_SECS : Z := 315360000.

Definition safe_expiry (base ttl : Z) : Z :=
  let max_ttl := MAX_TTL_SECS * NANOS_PER_SEC in
  let clamped_ttl := if max_ttl <? ttl then max_ttl else ttl in
  match system_time_checked_add base clamped_ttl with
  | Some t => t
  | None => default base (system_time_checked_add base max_ttl)
  end.

(** ** Eviction scores ([cache.rs]) *)

Definition TINYLFU_HALF_LIFE_SECS : Z := 3600.

Definition decayed_frequency (access_count idle_secs : Z) : Z :=
  let halvings := Z.min (idle_secs / TINYLFU_HALF_LIFE_SECS) 63 in
  Z.shiftr access_count halvings.

(** ** Enumerations *)

Inductive CompressionAlgorithm := Lz4 | NoCompression.

Inductive UploadState := Complete | InProgress | Bypassed.

Inductive RangeLookupPurpose := FreshServe | RevalidationCandidate.

Inductive StoredFreshness := Fresh | Expired.

#[export] Instance CompressionAlgorithm_eq_dec : EqDecision CompressionAlgorithm.
Proof. solve_decision. Defined.
#[export] Instance UploadState_eq_dec : EqDecision UploadState.
Proof. solve_decision. Defined.
#[export] Instance StoredFreshness_eq_dec : EqDecision StoredFreshness.
Proof. solve_decision. Defined.

(** ** Stored ranges ([cache_types::RangeSpec]) *)

Record NewRangeSpec := mkNewRangeSpec {
  nr_start : Z;
  nr_end : Z;
  nr_file_path : string;
  nr_compression_algorithm : CompressionAlgorithm;
  nr_compressed_size : Z;
  nr_uncompressed_size : Z;
  nr_created_at : Z;
  nr_last_accessed : Z;
  nr_access_count : Z;
  nr_staged : option bool;
}.

#[export] Instance NewRangeSpec_eq_dec : EqDecision NewRangeSpec.
Proof. solve_decision. Defined.

Definition NewRangeSpec_new (now start end_ : Z) (file_path : string)
    (alg : CompressionAlgorithm) (compressed_size uncompressed_size : Z) : NewRangeSpec :=
  {| nr_start := start; nr_end := end_; nr_file_path := file_path;
     nr_compression_algorithm := alg;
     nr_compressed_size := compressed_size; nr_uncompressed_size := uncompressed_size;
     nr_created_at := now; nr_last_accessed := now; nr_access_count := 1;
     nr_staged := None |}.

Definition NewRangeSpec_new_staged (now start end_ : Z) (file_path : string)
    (alg : CompressionAlgorithm) (compressed_size uncompressed_size : Z) (staged : bool)
    : NewRangeSpec :=
  let r := NewRangeSpec_new now start end_ file_path alg compressed_size uncompressed_size in
  {| nr_start := nr_start r; nr_end := nr_end r; nr_file_path := nr_file_path r;
     nr_compression_algorithm := nr_compression_algorithm r;
     nr_compressed_size := nr_compressed_size r; nr_uncompressed_size := nr_uncompressed_size r;
     nr_created_at := nr_created_at r; nr_last_accessed := nr_last_accessed r;
     nr_access_count := nr_access_count r; nr_staged := Some staged |}.

Definition lru_score (r : NewRangeSpec) : Z := Z.max (nr_last_accessed r) 0 / NANOS_PER_SEC.

Definition tinylfu_score (r : NewRangeSpec) (now : Z) : Z :=
  decayed_frequency (nr_access_count r)
    (duration_since_or_zero now (nr_last_accessed r) / NANOS_PER_SEC).

Definition record_access (now : Z) (r : NewRangeSpec) : NewRangeSpec :=
  {| nr_start := nr_start r; nr_end := nr_end r; nr_file_path := nr_file_path r;
     nr_compression_algorithm := nr_compression_algorithm r;
     nr_compressed_size := nr_compressed_size r; nr_uncompressed_size := nr_uncompressed_size r;
     nr_created_at := nr_created_at r; nr_last_accessed := now;
     nr_access_count := u64_add (nr_access_count r) 1; nr_staged := nr_staged r |}.

(** ** The staging tier *)

Definition classify_new_range_as_staged (range_file_path : string) (is_write_cached : bool) : bool :=
  is_write_cached || contains "mpus_in_progress/" range_file_path.

Definition is_staged_range_parts (staged : option bool) (range_file_path : string)
    (object_is_write_cached : bool) : bool :=
  match staged with
  | Some staged => staged
  | None => classify_new_range_as_staged range_file_path object_is_write_cached
  end.

Definition is_staged_range_spec (range : NewRangeSpec) (object_is_write_cached : bool) : bool :=
  is_staged_range_parts (nr_staged range) (nr_file_path range) object_is_write_cached.

(** ** Object metadata *)

Record PartInfo := mkPartInfo {
  pi_part_number : Z;
  pi_size : Z;
  pi_etag : string;
  pi_data : list Z;
}.

Record ObjectMetadata := mkObjectMetadata {
  om_etag : string;
  om_last_modified : string;
  om_content_length : Z;
  om_content_type : option string;
  om_response_headers : gmap string string;
  om_upload_state : UploadState;
  om_cumulative_size : Z;
  om_parts : list PartInfo;
  om_compression_algorithm : CompressionAlgorithm;
  om_compressed_size : Z;
  om_parts_count : option Z;
  om_part_ranges : gmap Z (Z * Z);
  om_upload_id : option string;
  om_is_write_cached : bool;
  om_write_cache_expires_at : option Z;
  om_write_cache_created_at : option Z;
  om_write_cache_last_accessed : option Z;
  om_graduation_accounted : bool;
}.

Definition ObjectMetadata_new_with_compression_and_headers (etag last_modified : string)
    (content_length : Z) (content_type : option string) (headers : gmap string string)
    (alg : CompressionAlgorithm) (compressed_size : Z) : ObjectMetadata :=
  {| om_etag := etag; om_last_modified := last_modified;
     om_content_length := content_length; om_content_type := content_type;
     om_response_headers := headers; om_upload_state := Complete;
     om_cumulative_size := content_length; om_parts := [];
     om_compression_algorithm := alg; om_compressed_size := compressed_size;
     om_parts_count := None; om_part_ranges := ∅; om_upload_id := None;
     om_is_write_cached := false; om_write_cache_expires_at := None;
     om_write_cache_created_at := None; om_write_cache_last_accessed := None;
     om_graduation_accounted := false |}.

Definition ObjectMetadata_new_with_headers (etag last_modified : string)
    (content_length : Z) (content_type : option string) (headers : gmap string string) :=
  ObjectMetadata_new_with_compression_and_headers etag last_modified content_length
    content_type headers Lz4 content_length.

Definition ObjectMetadata_new (etag last_modified : string) (content_length : Z)
    (content_type : option string) :=
  ObjectMetadata_new_with_headers etag last_modified content_length content_type ∅.

Definition is_write_cache_expired (now : Z) (om : ObjectMetadata) : bool :=
  if negb (om_is_write_cached om) then false else
  match om_write_cache_expires_at om with
  | Some expires_at => expires_at <? now
  | None => false
  end.

(** [HashMap::iter] visits the entries in an unspecified order; [find] over the
    header map is modelled on the order of [map_to_list]. *)
Definition effective_last_modified (om : ObjectMetadata) : option string :=
  if negb (is_empty_str (om_last_modified om)) then Some (om_last_modified om) else
  match list_find (fun '(k, _) => eq_ignore_ascii_case k "last-modified")
          (map_to_list (om_response_headers om)) with
  | Some (_, (_, v)) => if is_empty_str v then None else Some v
  | None => None
  end.

Definition set_last_modified (last_modified : string) (om : ObjectMetadata) : ObjectMetadata :=
  {| om_etag := om_etag om; om_last_modified := last_modified;
     om_content_length := om_content_length om; om_content_type := om_content_type om;
     om_response_headers :=
       <[ "last-modified" := last_modified ]>
         (filter (fun '(k, _) => eq_ignore_ascii_case k "last-modified" = false)
            (om_response_headers om));
     om_upload_state := om_upload_state om;
     om_cumulative_size := om_cumulative_size om; om_parts := om_parts om;
     om_compression_algorithm := om_compression_algorithm om;
     om_compressed_size := om_compressed_size om;
     om_parts_count := om_parts_count om; om_part_ranges := om_part_ranges om;
     om_upload_id := om_upload_id om; om_is_write_cached := om_is_write_cached om;
     om_write_cache_expires_at := om_write_cache_expires_at om;
     om_write_cache_created_at := om_write_cache_created_at om;
     om_write_cache_last_accessed := om_write_cache_last_accessed om;
     om_graduation_accounted := om_graduation_accounted om |}.

(** ** Per-object metadata file *)

Record CompressionInfo := mkCompressionInfo {
  ci_body_algorithm : CompressionAlgorithm;
  ci_original_size : option Z;
  ci_compressed_size : option Z;
  ci_file_extension : option string;
}.

Record NewCacheMetadata := mkNewCacheMetadata {
  cm_cache_key : string;
  cm_object_metadata : ObjectMetadata;
  cm_ranges : list NewRangeSpec;
  cm_created_at : Z;
  cm_expires_at : Z;
  cm_compression_info : CompressionInfo;
  cm_head_expires_at : option Z;
  cm_head_last_accessed : option Z;
  cm_head_access_count : Z;
  cm_head_cached_at : option Z;
}.

Definition is_head_expired (now : Z) (m : NewCacheMetadata) : bool :=
  match cm_head_expires_at m with
  | Some expires_at => expires_at <? now
  | None => true
  end.

Definition is_object_expired (now : Z) (m : NewCacheMetadata) : bool := cm_expires_at m <? now.

Definition refresh_head_ttl (now ttl : Z) (m : NewCacheMetadata) : NewCacheMetadata :=
  {| cm_cache_key := cm_cache_key m; cm_object_metadata := cm_object_metadata m;
     cm_ranges := cm_ranges m; cm_created_at := cm_created_at m;
     cm_expires_at := cm_expires_at m; cm_compression_info := cm_compression_info m;
     cm_head_expires_at := Some (now + ttl); cm_head_last_accessed := Some now;
     cm_head_access_count := cm_head_access_count m; cm_head_cached_at := Some now |}.

Definition record_head_access (now : Z) (m : NewCacheMetadata) : NewCacheMetadata :=
  {| cm_cache_key := cm_cache_key m; cm_object_metadata := cm_object_metadata m;
     cm_ranges := cm_ranges m; cm_created_at := cm_created_at m;
     cm_expires_at := cm_expires_at m; cm_compression_info := cm_compression_info m;
     cm_head_expires_at := cm_head_expires_at m; cm_head_last_accessed := Some now;
     cm_head_access_count := u64_add (cm_head_access_count m) 1;
     cm_head_cached_at := cm_head_cached_at m |}.

Definition refresh_object_ttl (now ttl : Z) (m : NewCacheMetadata) : NewCacheMetadata :=
  {| cm_cache_key := cm_cache_key m; cm_object_metadata := cm_object_metadata m;
     cm_ranges := cm_ranges m; cm_created_at := cm_created_at m;
     cm_expires_at := safe_expiry now ttl; cm_compression_info := cm_compression_info m;
     cm_head_expires_at := cm_head_expires_at m;
     cm_head_last_accessed := cm_head_last_accessed m;
     cm_head_access_count := cm_head_access_count m; cm_head_cached_at := cm_head_cached_at m |}.

(** [cache.rs::is_head_fresh]: the anchor of a refreshed entry, or the creation
    time of metadata written before the anchor existed. *)
Definition is_head_fresh (head_expires_at head_cached_at : option Z)
    (created_at current_head_ttl now : Z) : bool :=
  let anchor := default created_at head_cached_at in
  bool_decide (is_Some head_expires_at)
  && negb (current_head_ttl =? 0)
  && (duration_since_or_zero now anchor <=? current_head_ttl).

Definition staged_compressed_size (m : NewCacheMetadata) : Z :=
  wrap64 (sum_by nr_compressed_size
    (base.filter (fun r => is_staged_range_spec r (om_is_write_cached (cm_object_metadata m)) = true)
       (cm_ranges m))).

Definition has_staged_range (m : NewCacheMetadata) : bool :=
  existsb (fun r => is_staged_range_spec r (om_is_write_cached (cm_object_metadata m))) (cm_ranges m).

(** ** Facts *)

Lemma safe_expiry_bounds base ttl :
  0 <= base <= SYSTEM_TIME_MAX -> 0 <= ttl ->
  base <= safe_expiry base ttl <= Z.min (base + MAX_TTL_SECS * NANOS_PER_SEC) SYSTEM_TIME_MAX.
Proof.
  intros. unfold safe_expiry, system_time_checked_add, SYSTEM_TIME_MAX, MAX_TTL_SECS,
    NANOS_PER_SEC in *.
  repeat bsplit_goal; simpl; lia.
Qed.

Lemma decayed_frequency_bounds n idle :
  0 <= n -> 0 <= idle -> 0 <= decayed_frequency n idle <= n.
Proof.
  intros. unfold decayed_frequency, TINYLFU_HALF_LIFE_SECS.
  assert (0 <= Z.min (idle / 3600) 63) by (pose proof (Z.div_pos idle 3600); lia).
  rewrite Z.shiftr_div_pow2 by lia.
  assert (0 < 2 ^ Z.min (idle / 3600) 63) by (apply Z.pow_pos_nonneg; lia).
  split; [apply Z.div_pos; lia | apply Z.div_le_upper_bound; nia].
Qed.

Lemma decayed_frequency_idle_mono n idle idle' :
  0 <= n -> 0 <= idle <= idle' -> decayed_frequency n idle' <= decayed_frequency n idle.
Proof.
  intros. unfold decayed_frequency, TINYLFU_HALF_LIFE_SECS.
  pose proof (Z.div_le_mono idle idle' 3600 ltac:(lia) ltac:(lia)).
  assert (0 <= Z.min (idle / 3600) 63 <= Z.min (idle' / 3600) 63)
    by (pose proof (Z.div_pos idle 3600); lia).
  rewrite !Z.shiftr_div_pow2 by lia.
  apply Z.div_le_compat_l; [lia |]. split; [apply Z.pow_pos_nonneg; lia |].
  apply Z.pow_le_mono_r; lia.
Qed.

Lemma decayed_frequency_count_mono n m idle :
  0 <= idle -> n <= m -> decayed_frequency n idle <= decayed_frequency m idle.
Proof.
  intros. unfold decayed_frequency, TINYLFU_HALF_LIFE_SECS.
  assert (0 <= Z.min (idle / 3600) 63) by (pose proof (Z.div_pos idle 3600); lia).
  rewrite !Z.shiftr_div_pow2 by lia. apply Z.div_le_mono; [| lia].
  apply Z.pow_pos_nonneg; lia.
Qed.
