(* ===== verification/Floats.v ===== *)
(** * Floating-point arithmetic the source computes sizes with

    [f64] as the standard library's executable binary floats of 53 bits, rounding to
    nearest. *)

From S2P Require Import Prelude CacheTypes.
From Stdlib Require Import SpecFloat.

#[local] Open Scope Z_scope.

Definition u64_to_f64 (n : Z) : spec_float := binary_normalize 53 1024 n 0 false.

(** [as u64]: towards zero, and saturating. *)
Definition f64_to_u64 (x : spec_float) : Z :=
  match x with
  | S754_finite false m e => Z.min (Z.shiftl (Zpos m) e) U64_MAX
  | S754_infinity false => U64_MAX
  | _ => 0
  end.

(** [Duration::as_secs_f64]. *)
Definition as_secs_f64 (nanos : Z) : spec_float :=
  SFadd 53 1024 (u64_to_f64 (nanos / NANOS_PER_SEC))
    (SFdiv 53 1024 (u64_to_f64 (nanos mod NANOS_PER_SEC)) (u64_to_f64 NANOS_PER_SEC)).

Definition f64_mul (x y : spec_float) : spec_float := SFmul 53 1024 x y.

Definition f64_div (x y : spec_float) : spec_float := SFdiv 53 1024 x y.

(** [f32], of 24 bits. *)
Definition u64_to_f32 (n : Z) : spec_float := binary_normalize 24 128 n 0 false.

Definition f32_mul (x y : spec_float) : spec_float := SFmul 24 128 x y.

Definition f32_div (x y : spec_float) : spec_float := SFdiv 24 128 x y.

Lemma f64_to_u64_range x : 0 <= f64_to_u64 x <= U64_MAX.
Proof.
  unfold f64_to_u64. destruct x as [| [] | | [] m e]; try (unfold U64_MAX; lia).
  split; [| lia]. apply Z.min_glb; [apply Z.shiftl_nonneg; lia | unfold U64_MAX; lia].
Qed.
