(* ===== verification/Ranges.v ===== *)
(** * Byte ranges and the page grid ([range_handler.rs])

    [RangeSpec] with its slice arithmetic, the page geometry of page-aligned
    caching, and the interval algebra of the range handler: [merge_ranges],
    [calculate_missing_ranges], [consolidate_missing_ranges]. *)

From S2P Require Import Prelude RustStr CacheTypes.

#[local] Open Scope Z_scope.

Record RangeSpec := mkRange { start : Z; end_ : Z }.

#[export] Instance RangeSpec_eq_dec : EqDecision RangeSpec.
Proof. solve_decision. Defined.

(** ** [impl RangeSpec] *)

Definition len (r : RangeSpec) : Z := u64_add (u64_sub (end_ r) (start r)) 1.

Definition is_empty (r : RangeSpec) : bool := end_ r <? start r.

Definition slice_offset_in (r container : RangeSpec) : Z := u64_sub (start r) (start container).

Definition slice_length (r : RangeSpec) : Z := u64_add (u64_sub (end_ r) (start r)) 1.

(** The error texts carry the offending numbers; only the variant is kept. *)
Definition validate_slice_bounds (r container : RangeSpec) (container_data_len : Z) : Result unit :=
  if start r <? start container
  then Err (InvalidRange "Requested range start is before container range start")
  else if end_ container <? end_ r
  then Err (InvalidRange "Requested range end is after container range end")
  else
    let slice_offset := slice_offset_in r container in
    let slice_length := slice_length r in
    let slice_end := u64_add slice_offset slice_length in
    if container_data_len <? slice_end
    then Err (InvalidRange "Slice end exceeds container data length")
    else
      let expected_container_len := u64_add (u64_sub (end_ container) (start container)) 1 in
      if negb (container_data_len =? expected_container_len)
      then Err (InvalidRange "Container data length does not match container range size")
      else Ok tt.

(** ** Page geometry *)

Definition page_bounds (start page_size size : Z) : Result (Z * Z) :=
  _ ← rust_assert (0 <? page_size);
  _ ← rust_assert (0 <? size);
  let page_index := start / page_size in
  let page_start := u64_mul page_index page_size in
  let page_end := Z.min (u64_sub (u64_add page_start page_size) 1) (u64_sub size 1) in
  Ok (page_start, page_end).

Definition overlapping_pages (start end_ page_size size : Z) : Result (list (Z * Z)) :=
  _ ← rust_assert (start <=? end_);
  first ← page_bounds start page_size size;
  last ← page_bounds end_ page_size size;
  Ok (first :: (if bool_decide (last = first) then [] else [last])).

Inductive SuffixPageTarget :=
  | Pages (pages : list (Z * Z))
  | SizeUnknown.

Definition suffix_page_target (n page_size : Z) (size : option Z) : Result SuffixPageTarget :=
  _ ← rust_assert (0 <? n);
  match size with
  | None => Ok SizeUnknown
  | Some size =>
      _ ← rust_assert (0 <? page_size);
      _ ← rust_assert (0 <? size);
      let n := Z.min n size in
      let start := u64_sub size n in
      let end_ := u64_sub size 1 in
      pages ← overlapping_pages start end_ page_size size;
      Ok (Pages pages)
  end.

(** ** Interval algebra *)

Definition ranges_overlap (r1 r2 : RangeSpec) : bool :=
  negb ((end_ r1 <? start r2) || (end_ r2 <? start r1)).

Definition calculate_overlap (s1 e1 s2 e2 : Z) : option (Z * Z) :=
  if (e1 <? s2) || (e2 <? s1) then None else Some (Z.max s1 s2, Z.min e1 e2).

(** The loop of [merge_ranges] over [sorted_ranges.iter().skip(1)], with
    [current] and the reversed order of pushes made explicit by recursion. *)
Fixpoint merge_loop (current : RangeSpec) (rest : list RangeSpec) : list RangeSpec :=
  match rest with
  | [] => [current]
  | range :: rest' =>
      if start range <=? saturating_add (end_ current) 1
      then merge_loop (mkRange (start current) (Z.max (end_ current) (end_ range))) rest'
      else current :: merge_loop range rest'
  end.

Definition merge_ranges (ranges : list RangeSpec) : list RangeSpec :=
  match sort_by_key start ranges with
  | [] => []
  | current :: rest => merge_loop current rest
  end.

(** The loop of [calculate_missing_ranges] over the merged coverage: the missing
    ranges it pushes and the final [current_pos]. *)
Fixpoint missing_loop (current_pos : Z) (covered : list RangeSpec) : list RangeSpec * Z :=
  match covered with
  | [] => ([], current_pos)
  | c :: covered' =>
      let gap := if current_pos <? start c
                 then [mkRange current_pos (u64_sub (start c) 1)] else [] in
      let '(missing, pos) := missing_loop (Z.max current_pos (u64_add (end_ c) 1)) covered' in
      (gap ++ missing, pos)
  end.

Definition calculate_missing_ranges (requested : RangeSpec) (covered : list RangeSpec)
    : list RangeSpec :=
  match covered with
  | [] => [requested]
  | _ =>
      let '(missing, current_pos) := missing_loop (start requested) (merge_ranges covered) in
      missing ++ (if current_pos <=? end_ requested
                  then [mkRange current_pos (end_ requested)] else [])
  end.

Fixpoint consolidate_loop (max_gap_size : Z) (current : RangeSpec) (rest : list RangeSpec)
    : list RangeSpec :=
  match rest with
  | [] => [current]
  | range :: rest' =>
      let gap := if end_ current <? start range
                 then u64_sub (u64_sub (start range) (end_ current)) 1 else 0 in
      if gap <=? max_gap_size
      then consolidate_loop max_gap_size
             (mkRange (start current) (Z.max (end_ current) (end_ range))) rest'
      else current :: consolidate_loop max_gap_size range rest'
  end.

Definition consolidate_missing_ranges (missing_ranges : list RangeSpec) (max_gap_size : Z)
    : list RangeSpec :=
  match missing_ranges with
  | [] => []
  | [_] => missing_ranges
  | _ =>
      match sort_by_key start missing_ranges with
      | [] => []
      | current :: rest => consolidate_loop max_gap_size current rest
      end
  end.

(** ** Specification vocabulary *)

Definition range_wf (r : RangeSpec) : Prop := 0 <= start r /\ start r <= end_ r /\ end_ r < 2 ^ 64.

(** Byte [x] lies in the inclusive range [r]. *)
Definition covers (r : RangeSpec) (x : Z) : Prop := start r <= x <= end_ r.

Definition covered (l : list RangeSpec) (x : Z) : Prop := Exists (fun r => covers r x) l.

#[export] Instance covers_dec r x : Decision (covers r x).
Proof. unfold covers. apply _. Defined.
#[export] Instance covered_dec l x : Decision (covered l x).
Proof. unfold covered. apply _. Defined.

(** Consecutive ranges leave at least one uncovered byte between them. *)
Definition separated (a b : RangeSpec) : Prop := end_ a + 1 < start b.

Definition normalized (l : list RangeSpec) : Prop :=
  Forall range_wf l /\ StronglySorted separated l.

Definition within (outer r : RangeSpec) : Prop := start outer <= start r /\ end_ r <= end_ outer.

Lemma covered_cons r l x : covered (r :: l) x <-> covers r x \/ covered l x.
Proof. apply Exists_cons. Qed.

Lemma covered_app l k x : covered (l ++ k) x <-> covered l x \/ covered k x.
Proof. apply Exists_app. Qed.

Lemma covered_nil x : covered [] x <-> False.
Proof. apply Exists_nil. Qed.

#[export] Instance covered_perm : Proper ((≡ₚ) ==> eq ==> iff) covered.
Proof. intros l k Hlk x _ <-. unfold covered. by rewrite Hlk. Qed.

Lemma range_wf_covers_start r : range_wf r -> covers r (start r).
Proof. unfold range_wf, covers. lia. Qed.

Create Rewrite HintDb cover.
#[export] Hint Rewrite covered_cons covered_app covered_nil : cover.

Lemma sort_by_key_Forall {A} (key : A -> Z) (P : A -> Prop) l :
  Forall P l -> Forall P (sort_by_key key l).
Proof. intros. by rewrite sort_by_key_perm. Qed.

(** ** [merge_ranges] *)

Lemma merge_loop_spec rest : forall current,
  range_wf current -> Forall range_wf rest ->
  StronglySorted (key_le start) (current :: rest) ->
  (forall x, covered (merge_loop current rest) x <-> covers current x \/ covered rest x) /\
  normalized (merge_loop current rest) /\
  Forall (fun r => start current <= start r) (merge_loop current rest).
Proof.
  induction rest as [|r rest IH]; intros cur Hcur Hrest Hs; cbn [merge_loop].
  { split; [| split; [split |]].
    - intros x. autorewrite with cover. tauto.
    - by apply Forall_singleton.
    - repeat constructor.
    - apply Forall_singleton. lia. }
  apply Forall_cons_1 in Hrest as [Hr Hrest].
  apply StronglySorted_inv in Hs as [Hs Hle]. apply Forall_cons_1 in Hle as [Hcr Hle].
  pose proof (proj1 (StronglySorted_inv Hs)) as Hs'.
  unfold range_wf, key_le in *.
  destruct (Z.leb_spec (start r) (saturating_add (end_ cur) 1)) as [Hm | Hm].
  - destruct (IH (mkRange (start cur) (Z.max (end_ cur) (end_ r)))) as (Hc & Hn & Hst);
      [simpl; lia | done | by constructor |].
    split; [| done]. intros x. rewrite Hc. autorewrite with cover.
    assert (covers (mkRange (start cur) (Z.max (end_ cur) (end_ r))) x <->
            covers cur x \/ covers r x); [| tauto].
    unfold covers, saturating_add, U64_MAX in *; simpl. lia.
  - destruct (IH r Hr Hrest Hs) as (Hc & [Hw Hn] & Hst).
    split; [| split].
    + intros x. autorewrite with cover. by rewrite Hc.
    + split; [by constructor |]. constructor; [done |].
      eapply Forall_impl; [exact Hst |]. simpl. unfold separated, saturating_add, U64_MAX in *.
      intros s. lia.
    + constructor; [lia |]. eapply Forall_impl; [exact Hst |]. simpl. lia.
Qed.

Lemma merge_ranges_spec l :
  Forall range_wf l ->
  (forall x, covered (merge_ranges l) x <-> covered l x) /\ normalized (merge_ranges l).
Proof.
  intros Hwf. unfold merge_ranges.
  pose proof (sort_by_key_Forall start range_wf l Hwf) as Hs.
  pose proof (sort_by_key_sorted start l) as Hss.
  assert (forall x, covered (sort_by_key start l) x <-> covered l x) as Hc.
  { intros x. by rewrite sort_by_key_perm. }
  destruct (sort_by_key start l) as [|c rest].
  - split; [done |]. split; constructor.
  - apply Forall_cons_1 in Hs as [Hcw Hrw].
    destruct (merge_loop_spec rest c Hcw Hrw Hss) as (Hm & Hn & _).
    split; [| done]. intros x. rewrite Hm, <- Hc. by autorewrite with cover.
Qed.

Lemma normalized_cons_inv r l : normalized (r :: l) -> range_wf r /\ normalized l /\
  forall x, covered l x -> end_ r + 1 < x.
Proof.
  intros [Hw Hs]. apply Forall_cons_1 in Hw as [Hr Hw].
  apply StronglySorted_inv in Hs as [Hs Hl]. split; [done |]. split; [done |].
  intros x Hx. apply Exists_exists in Hx as (s & Hin & Hx).
  rewrite Forall_forall in Hl. specialize (Hl s Hin). unfold separated, covers in *. lia.
Qed.

(** A normalized list is the only one with its coverage. *)
Lemma normalized_unique l k :
  normalized l -> normalized k -> (forall x, covered l x <-> covered k x) -> l = k.
Proof.
  revert k. induction l as [|r l IH]; intros [|s k] Hl Hk Hc; [done | | |].
  - apply normalized_cons_inv in Hk as (Hs & _).
    specialize (Hc (start s)). autorewrite with cover in Hc.
    pose proof (range_wf_covers_start s Hs). tauto.
  - apply normalized_cons_inv in Hl as (Hr & _).
    specialize (Hc (start r)). autorewrite with cover in Hc.
    pose proof (range_wf_covers_start r Hr). tauto.
  - apply normalized_cons_inv in Hl as (Hr & Hl & Hlx).
    apply normalized_cons_inv in Hk as (Hs & Hk & Hkx).
    setoid_rewrite covered_cons in Hc.
    pose proof (range_wf_covers_start r Hr) as Hrs. pose proof (range_wf_covers_start s Hs) as Hss.
    unfold range_wf, covers in *.
    assert (start r = start s) as Est.
    { pose proof (Hc (start r)) as H1. pose proof (Hc (start s)) as H2.
      pose proof (Hlx (start s)). pose proof (Hkx (start r)).
      destruct (proj1 H1 ltac:(tauto)); destruct (proj2 H2 ltac:(tauto)); lia || (exfalso; lia) || idtac.
      all: repeat match goal with H : covered _ _ |- _ => apply Hlx in H || apply Hkx in H end; lia. }
    assert (end_ r = end_ s) as Een.
    { pose proof (Hc (end_ r + 1)) as H1. pose proof (Hc (end_ s + 1)) as H2.
      pose proof (Hlx (end_ r + 1)). pose proof (Hkx (end_ s + 1)).
      destruct (Z.lt_trichotomy (end_ r) (end_ s)) as [E | [E | E]]; [| done |].
      - destruct (proj2 H1 ltac:(left; lia)) as [? | Hx]; [lia | apply Hlx in Hx; lia].
      - destruct (proj1 H2 ltac:(left; lia)) as [? | Hx]; [lia | apply Hkx in Hx; lia]. }
    f_equal; [destruct r, s; simpl in *; congruence |]. apply IH; [done..|]. intros x.
    split; intros Hx; pose proof Hx as Hx'.
    + apply Hlx in Hx'. destruct (proj1 (Hc x)) as [? | ?]; [tauto | lia | done].
    + apply Hkx in Hx'. destruct (proj2 (Hc x)) as [? | ?]; [tauto | lia | done].
Qed.

(** [merge_ranges] computes the canonical form of a set of bytes: its result
    covers exactly the bytes its input covers, is sorted with at least one
    uncovered byte between neighbours, and two inputs have the same result
    exactly when they cover the same bytes. *)
Theorem merge_ranges_canonical l k :
  Forall range_wf l -> Forall range_wf k ->
  (forall x, covered (merge_ranges l) x <-> covered l x) /\
  normalized (merge_ranges l) /\
  (merge_ranges l = merge_ranges k <-> forall x, covered l x <-> covered k x).
Proof.
  intros Hl Hk. destruct (merge_ranges_spec l Hl) as [Hcl Hnl].
  destruct (merge_ranges_spec k Hk) as [Hck Hnk]. split; [done |]. split; [done |]. split.
  - intros E x. by rewrite <- Hcl, <- Hck, E.
  - intros E. apply normalized_unique; [done..|]. intros x. by rewrite Hcl, Hck.
Qed.

Lemma merge_ranges_canonical_witness :
  merge_ranges [mkRange 10 20; mkRange 0 4; mkRange 5 9] = merge_ranges [mkRange 0 20] /\
  merge_ranges [mkRange 0 20] = [mkRange 0 20].
Proof.
  split; [| reflexivity].
  apply (merge_ranges_canonical [mkRange 10 20; mkRange 0 4; mkRange 5 9] [mkRange 0 20]).
  - repeat constructor; simpl; lia.
  - repeat constructor; simpl; lia.
  - intros x. autorewrite with cover. unfold covers; simpl. lia.
Defined.

(** ** [calculate_missing_ranges] *)

Lemma missing_loop_spec cov : forall pos lim,
  normalized cov -> 0 <= pos -> lim < U64_MAX -> Forall (fun c => end_ c <= lim) cov ->
  let '(missing, pos') := missing_loop pos cov in
  normalized missing /\
  pos <= pos' /\
  (forall x, covered missing x -> pos <= x /\ exists y, covered cov y /\ x < y) /\
  (forall x, pos <= x < pos' -> (covered missing x <-> ~ covered cov x)) /\
  (forall x, covered cov x -> x < pos').
Proof.
  induction cov as [|c cov IH]; intros pos lim Hn Hp Hlim Hle; cbn [missing_loop].
  { split; [split; constructor |]. split; [lia |].
    split; [| split]; intros x; autorewrite with cover; intuition lia. }
  apply normalized_cons_inv in Hn as (Hc & Hn & Hsep). apply Forall_cons_1 in Hle as [Hcl Hle].
  pose proof (range_wf_covers_start c Hc) as Hcs.
  unfold range_wf, U64_MAX in *. u64.
  specialize (IH (Z.max pos (end_ c + 1)) lim Hn ltac:(lia) Hlim Hle).
  destruct (missing_loop (Z.max pos (end_ c + 1)) cov) as [missing pos'].
  destruct IH as ([Hw Hs] & Hpp & Hin & Hiff & Hend).
  split; [| split; [lia |]].
  - destruct (Z.ltb_spec pos (start c)); [| done]. split.
    + constructor; [unfold range_wf; simpl; u64; lia | done].
    + constructor; [done |]. rewrite Forall_forall. intros r Hr. unfold separated; simpl. u64.
      rewrite Forall_forall in Hw. specialize (Hw r Hr).
      destruct (Hin (start r)) as [? _]; [| lia].
      apply Exists_exists. exists r. split; [done |]. by apply range_wf_covers_start.
  - assert (forall x, covered ((if pos <? start c then [mkRange pos (u64_sub (start c) 1)] else [])
                        ++ missing) x <-> pos <= x < start c \/ covered missing x) as Hcov.
    { intros x. destruct (Z.ltb_spec pos (start c)); autorewrite with cover;
        unfold covers; simpl; u64; intuition lia. }
    split; [| split]; intros x.
    + rewrite Hcov. setoid_rewrite covered_cons. intros [? | Hx].
      * split; [lia |]. exists (start c). split; [by left | lia].
      * apply Hin in Hx as (? & y & Hy & ?). split; [lia |]. exists y. split; [by right | lia].
    + intros Hx. rewrite Hcov. autorewrite with cover. unfold covers in *.
      destruct (Z.le_gt_cases (Z.max pos (end_ c + 1)) x).
      * specialize (Hiff x ltac:(lia)). intuition lia.
      * assert (~ covered missing x) by (intros [? _]%Hin; lia).
        assert (~ covered cov x) by (intros ?%Hsep; lia). intuition lia.
    + autorewrite with cover. unfold covers. intros [? | Hx]; [lia |]. by apply Hend.
Qed.

Lemma covered_within outer l x : Forall (within outer) l -> covered l x -> covers outer x.
Proof.
  intros Hl Hx. apply Exists_exists in Hx as (s & Hs & Hx). rewrite Forall_forall in Hl.
  specialize (Hl s Hs). unfold within, covers in *. lia.
Qed.

Lemma merge_ranges_end_le outer l :
  Forall range_wf l -> Forall (within outer) l ->
  Forall (fun c => end_ c <= end_ outer) (merge_ranges l).
Proof.
  intros Hw Hin. destruct (merge_ranges_spec l Hw) as [Hc [Hrw _]].
  rewrite Forall_forall in Hrw |- *. intros r Hr. specialize (Hrw r Hr).
  assert (covered l (end_ r)) as Hx.
  { apply Hc, Exists_exists. exists r. unfold covers, range_wf in *. split; [done | lia]. }
  apply (covered_within outer) in Hx; [| done]. unfold covers in Hx. lia.
Qed.

(** The open tail [if current_pos <= requested.end] pushes. *)
Lemma covered_tail pos e x :
  covered (if pos <=? e then [mkRange pos e] else []) x <-> pos <= x <= e.
Proof.
  destruct (Z.leb_spec pos e); autorewrite with cover; unfold covers; simpl; intuition lia.
Qed.

Lemma calculate_missing_ranges_spec requested cov :
  range_wf requested -> end_ requested < U64_MAX ->
  Forall range_wf cov -> Forall (within requested) cov ->
  (forall x, covered (calculate_missing_ranges requested cov) x <->
             covers requested x /\ ~ covered cov x) /\
  normalized (calculate_missing_ranges requested cov).
Proof.
  intros Hreq Hmax Hw Hin. unfold calculate_missing_ranges.
  destruct cov as [|c0 cov0].
  { split; [intros x; autorewrite with cover; tauto |].
    split; [by apply Forall_singleton | repeat constructor]. }
  set (cov := c0 :: cov0) in *. clearbody cov.
  destruct (merge_ranges_spec cov Hw) as [Hc Hn].
  pose proof (merge_ranges_end_le requested cov Hw Hin) as Hle.
  pose proof (missing_loop_spec (merge_ranges cov) (start requested) (end_ requested) Hn
                ltac:(unfold range_wf in *; lia) Hmax Hle) as Hl.
  destruct (missing_loop (start requested) (merge_ranges cov)) as [missing pos].
  destruct Hl as ([Hmw Hms] & Hpos & Hmin & Hiff & Hend).
  pose proof (fun x => covered_within requested cov x Hin) as Hreqc.
  setoid_rewrite Hc in Hend. setoid_rewrite Hc in Hiff. setoid_rewrite Hc in Hmin.
  unfold range_wf, U64_MAX, covers in *. split.
  - intros x. rewrite covered_app, covered_tail.
    assert (covered missing x -> start requested <= x <= end_ requested /\ x < pos) as Hup.
    { intros Hx. apply Hmin in Hx as (? & y & Hy & ?). pose proof (Hend y Hy).
      specialize (Hreqc y Hy). lia. }
    specialize (Hend x). specialize (Hiff x). specialize (Hreqc x).
    destruct (Z.le_gt_cases pos x); intuition lia.
  - destruct (Z.leb_spec pos (end_ requested)); [| by rewrite app_nil_r]. split.
    + apply Forall_app. split; [done |]. apply Forall_singleton. unfold range_wf; simpl. lia.
    + apply StronglySorted_app_2; [| done | repeat constructor].
      intros r s Hr ->%list_elem_of_singleton. unfold separated; simpl.
      rewrite Forall_forall in Hmw. specialize (Hmw r Hr).
      destruct (Hmin (end_ r)) as (_ & y & Hy & ?); [| specialize (Hend y Hy); lia].
      apply Exists_exists. exists r. unfold covers, range_wf in *. split; [done | lia].
Qed.

Lemma calculate_missing_ranges_inside requested cov :
  range_wf requested -> end_ requested < U64_MAX -> Forall range_wf cov -> Forall (within requested) cov ->
  Forall (fun r => range_wf r /\ within requested r) (calculate_missing_ranges requested cov).
Proof.
  intros Hreq Hmax Hw Hin. destruct (calculate_missing_ranges_spec requested cov Hreq Hmax Hw Hin) as [Hcov [Hmw _]].
  rewrite Forall_forall in Hmw |- *. intros m Hm. specialize (Hmw m Hm). split; [done |].
  assert (forall x, covers m x -> covers requested x) as Hx by (intros x Hx; apply Hcov, Exists_exists; eauto).
  unfold range_wf, covers, within in *. pose proof (Hx (start m)). pose proof (Hx (end_ m)). lia.
Qed.

(** [calculate_missing_ranges] returns exactly the complement of the
    coverage inside the request: a byte is in a missing range if and only if it
    was requested and no covered range holds it, and the missing ranges are
    sorted, disjoint and not adjacent, so no byte is fetched twice.  The request
    must end before the last [u64], past which [end + 1] wraps. *)
Theorem missing_ranges_complement requested cov :
  range_wf requested -> end_ requested < U64_MAX ->
  Forall range_wf cov -> Forall (within requested) cov ->
  (forall x, covered (calculate_missing_ranges requested cov) x <->
             covers requested x /\ ~ covered cov x) /\
  normalized (calculate_missing_ranges requested cov).
Proof. apply calculate_missing_ranges_spec. Qed.

Lemma missing_ranges_complement_witness :
  covered (calculate_missing_ranges (mkRange 100 199) [mkRange 150 159; mkRange 120 129]) 130 /\
  ~ covered (calculate_missing_ranges (mkRange 100 199) [mkRange 150 159; mkRange 120 129]) 155.
Proof.
  destruct (missing_ranges_complement (mkRange 100 199) [mkRange 150 159; mkRange 120 129])
    as [H _].
  - unfold range_wf; simpl; lia.
  - unfold U64_MAX; simpl; lia.
  - repeat constructor; simpl; lia.
  - repeat constructor; simpl; lia.
  - split; [apply H | rewrite H]; autorewrite with cover; unfold covers; simpl; lia.
Defined.

(** ** [consolidate_missing_ranges] *)

(** Byte [x] is in [l], or lies strictly between two bytes of [l] that are at
    most [g] bytes apart. *)
Definition bridged (g : Z) (l : list RangeSpec) (x : Z) : Prop :=
  covered l x \/ exists a b, covered l a /\ covered l b /\ a < x < b /\ b - a - 1 <= g.

(** More than [g] bytes between two ranges: too far to be fetched together. *)
Definition farther (g : Z) (a b : RangeSpec) : Prop := g < start b - end_ a - 1.

Lemma consolidate_loop_spec g l rest : forall current,
  0 <= g -> range_wf current -> Forall range_wf rest ->
  StronglySorted (key_le start) (current :: rest) ->
  (forall x, covers current x -> bridged g l x) -> covered l (end_ current) ->
  (forall x, covered rest x -> covered l x) ->
  let out := consolidate_loop g current rest in
  (forall x, covers current x \/ covered rest x -> covered out x) /\
  (forall x, covered out x -> bridged g l x) /\
  Forall range_wf out /\ StronglySorted (farther g) out /\
  Forall (fun r => start current <= start r) out /\
  (length out <= S (length rest))%nat.
Proof.
  induction rest as [|r rest IH]; intros cur Hg Hcur Hrest Hs Hbr Hend Hl; cbn [consolidate_loop].
  { split_and!; [intros x | intros x | ..]; autorewrite with cover; [tauto | | | |..|done].
    - intros [? | []]; auto.
    - by apply Forall_singleton.
    - repeat constructor.
    - apply Forall_singleton. lia. }
  apply Forall_cons_1 in Hrest as [Hr Hrest].
  apply StronglySorted_inv in Hs as [Hs Hle]. apply Forall_cons_1 in Hle as [Hcr Hle].
  pose proof (proj1 (StronglySorted_inv Hs)) as Hs'.
  assert (covered l (start r) /\ covered l (end_ r)) as [Hls Hle'].
  { split; apply Hl; autorewrite with cover; left; unfold covers, range_wf in *; lia. }
  assert (forall x, covers r x -> covered l x) as Hlr
    by (intros x Hx; apply Hl; autorewrite with cover; auto).
  assert (forall x, covered rest x -> covered l x) as Hlrest
    by (intros x Hx; apply Hl; autorewrite with cover; auto).
  unfold range_wf, key_le in *.
  set (gap := if end_ cur <? start r then u64_sub (u64_sub (start r) (end_ cur)) 1 else 0).
  assert (gap = Z.max 0 (start r - end_ cur - 1)) as Egap.
  { unfold gap. bsplit_goal; [u64; lia | lia]. }
  clearbody gap. destruct (Z.leb_spec gap g).
  - destruct (IH (mkRange (start cur) (Z.max (end_ cur) (end_ r)))) as (H1 & H2 & H3 & H4 & H5 & H6);
      [done | simpl; lia | done | by constructor | | | done |].
    + intros x Hx. unfold covers in Hx; simpl in Hx.
      destruct (Z.le_gt_cases x (end_ cur)); [apply Hbr; unfold covers; lia |].
      destruct (Z.le_gt_cases (start r) x); [left; apply Hlr; unfold covers; lia |].
      right. exists (end_ cur), (start r). split_and!; [done | done | lia..].
    + simpl. destruct (Z.max_spec (end_ cur) (end_ r)) as [[_ ->] | [_ ->]]; done.
    + split_and!; [| done.. | simpl in *; lia].
      intros x Hx. apply H1. autorewrite with cover in Hx. unfold covers in *; simpl. intuition lia.
  - destruct (IH r Hg Hr Hrest Hs) as (H1 & H2 & H3 & H4 & H5 & H6);
      [by left; apply Hlr | done | done |].
    split_and!; [intros x | intros x | | | | simpl; lia].
    + autorewrite with cover. specialize (H1 x). tauto.
    + autorewrite with cover. intros [? | ?]; auto.
    + by constructor.
    + constructor; [done |]. eapply Forall_impl; [exact H5 |]. unfold farther; simpl. lia.
    + constructor; [lia |]. eapply Forall_impl; [exact H5 |]. simpl. lia.
Qed.

Lemma consolidate_missing_ranges_sort l g :
  consolidate_missing_ranges l g =
  match sort_by_key start l with [] => [] | c :: rest => consolidate_loop g c rest end.
Proof. by destruct l as [|a [|b l]]. Qed.

(** [consolidate_missing_ranges] trades few extra bytes for fewer requests:
    every missing byte is still fetched; a byte that was not missing is fetched
    only when it lies in a gap of at most [max_gap_size] bytes between two
    missing bytes; ranges that stay separate are more than [max_gap_size] bytes
    apart; and there are never more ranges than before. *)
Theorem consolidate_bounded_superset l max_gap_size :
  Forall range_wf l -> 0 <= max_gap_size ->
  let out := consolidate_missing_ranges l max_gap_size in
  (forall x, covered l x -> covered out x) /\
  (forall x, covered out x -> bridged max_gap_size l x) /\
  Forall range_wf out /\ StronglySorted (farther max_gap_size) out /\
  (length out <= length l)%nat.
Proof.
  intros Hw Hg. rewrite consolidate_missing_ranges_sort.
  pose proof (sort_by_key_perm start l) as Hp.
  pose proof (sort_by_key_Forall start range_wf l Hw) as Hws.
  pose proof (sort_by_key_sorted start l) as Hs.
  rewrite <- (Permutation_length Hp).
  destruct (sort_by_key start l) as [|c rest].
  { apply Permutation_nil in Hp as ->. split_and!; [tauto | by left | repeat constructor.. | done]. }
  apply Forall_cons_1 in Hws as [Hc Hrest].
  destruct (consolidate_loop_spec max_gap_size l rest c) as (H1 & H2 & H3 & H4 & _ & H6);
    [done.. | | | |].
  - intros x Hx. left. rewrite <- Hp. autorewrite with cover. auto.
  - rewrite <- Hp. autorewrite with cover. left. unfold covers, range_wf in *. lia.
  - intros x Hx. rewrite <- Hp. autorewrite with cover. auto.
  - split_and!; [| done.. | done]. intros x Hx. apply H1. rewrite <- Hp in Hx.
    by autorewrite with cover in Hx.
Qed.

Lemma consolidate_bounded_superset_witness :
  consolidate_missing_ranges [mkRange 300 399; mkRange 0 99; mkRange 110 199] 16
    = [mkRange 0 199; mkRange 300 399] /\
  bridged 16 [mkRange 300 399; mkRange 0 99; mkRange 110 199] 105.
Proof.
  split; [reflexivity |].
  apply (consolidate_bounded_superset [mkRange 300 399; mkRange 0 99; mkRange 110 199] 16).
  - repeat constructor; simpl; lia.
  - lia.
  - change (consolidate_missing_ranges _ _) with [mkRange 0 199; mkRange 300 399].
    autorewrite with cover. unfold covers; simpl. lia.
Defined.

(** ** The page grid *)

(** A page of the grid: it starts on a multiple of [page_size] and runs to the
    byte before the next page or to the end of the object. *)
Definition grid_page (page_size size i : Z) : Z * Z :=
  (i * page_size, Z.min (i * page_size + page_size - 1) (size - 1)).

Definition as_range (p : Z * Z) : RangeSpec := mkRange p.1 p.2.

Lemma page_bounds_grid x page_size size :
  0 < page_size -> 0 <= x < size -> is_u64 size -> x + page_size < 2 ^ 64 ->
  page_bounds x page_size size = Ok (grid_page page_size size (x / page_size)).
Proof.
  unfold is_u64. intros Hp Hx Hs Hxp. unfold page_bounds, grid_page, rust_assert.
  rewrite (proj2 (Z.ltb_lt 0 page_size)), (proj2 (Z.ltb_lt 0 size)) by lia. simpl.
  pose proof (Z.mul_div_le x page_size Hp). pose proof (Z.div_pos x page_size ltac:(lia) Hp).
  assert (0 <= x / page_size * page_size <= x) by nia. u64. done.
Qed.

Lemma grid_page_covers page_size size x y :
  0 < page_size -> 0 <= x < size ->
  covers (as_range (grid_page page_size size y)) x <-> x / page_size = y.
Proof.
  intros Hp Hx. unfold covers, as_range, grid_page; simpl. split.
  - intros H. symmetry. apply (Z.div_unique_pos x page_size y (x - y * page_size)); lia.
  - intros <-. pose proof (Z.div_mod x page_size ltac:(lia)).
    pose proof (Z.mod_pos_bound x page_size Hp). lia.
Qed.

Lemma overlapping_pages_grid s e page_size size :
  0 < page_size -> 0 <= s <= e -> e < size -> is_u64 size -> e + page_size < 2 ^ 64 ->
  exists pages, overlapping_pages s e page_size size = Ok pages /\
    (forall p, p ∈ pages <-> p = grid_page page_size size (s / page_size) \/
                             p = grid_page page_size size (e / page_size)) /\
    NoDup pages.
Proof.
  intros Hp Hse He Hs Hep. unfold overlapping_pages, rust_assert.
  rewrite (proj2 (Z.leb_le s e)) by lia. simpl.
  rewrite !page_bounds_grid by (done || lia). simpl. eexists. split; [done |].
  clear. case_bool_decide as E; [rewrite E; clear E |]; split.
  - intros p. rewrite list_elem_of_singleton. tauto.
  - apply NoDup_singleton.
  - intros p. rewrite elem_of_cons, list_elem_of_singleton. tauto.
  - apply NoDup_cons. split; [rewrite list_elem_of_singleton; congruence | apply NoDup_singleton].
Qed.

(** Page-aligned caching fetches whole grid pages and never past the object:
    for a request inside the object [overlapping_pages] returns the pages that
    hold the first and the last requested byte, without duplicates, each aligned
    to the grid and clamped to the object; together they cover the whole request
    if and only if the request touches at most two consecutive pages. *)
Theorem overlapping_pages_correct s e page_size size :
  0 < page_size -> 0 <= s <= e -> e < size -> is_u64 size -> e + page_size < 2 ^ 64 ->
  exists pages, overlapping_pages s e page_size size = Ok pages /\
    NoDup pages /\ (1 <= length pages <= 2)%nat /\
    Forall (fun p => (page_size | p.1) /\ p.1 <= p.2 < size /\ p.2 - p.1 < page_size) pages /\
    ((forall x, s <= x <= e -> covered (as_range <$> pages) x)
     <-> e / page_size <= s / page_size + 1).
Proof.
  intros Hp Hse He Hs Hep.
  destruct (overlapping_pages_grid s e page_size size Hp Hse He Hs Hep) as (pages & E & Hin & Hnd).
  exists pages. split; [done |]. split; [done |].
  assert (forall x, 0 <= x < size -> covered (as_range <$> pages) x <->
            x / page_size = s / page_size \/ x / page_size = e / page_size) as Hcov.
  { intros x Hx. unfold covered. rewrite Exists_fmap, Exists_exists. split.
    - intros (p & [-> | ->]%Hin & Hc); apply grid_page_covers in Hc; auto; lia.
    - intros H. exists (grid_page page_size size (x / page_size)).
      split; [apply Hin; destruct H as [-> | ->]; auto | by apply grid_page_covers]. }
  split; [| split].
  - unfold overlapping_pages in E. okinv. case_bool_decide; simpl; lia.
  - apply Forall_forall. intros p Hpin. apply Hin in Hpin.
    assert (forall x, 0 <= x < size -> p = grid_page page_size size (x / page_size) ->
      (page_size | p.1) /\ p.1 <= p.2 < size /\ p.2 - p.1 < page_size) as Hpage.
    { intros x Hx ->. pose proof (proj2 (grid_page_covers page_size size x _ Hp Hx) eq_refl) as Hc.
      unfold covers, as_range, grid_page in *; simpl in *.
      split; [by apply Z.divide_factor_r | lia]. }
    destruct Hpin; [apply (Hpage s) | apply (Hpage e)]; auto; lia.
  - pose proof (Z.div_le_mono s e page_size Hp ltac:(lia)) as Hmono. split.
    + intros Hall. destruct (Z.le_gt_cases (e / page_size) (s / page_size + 1)) as [| Hgt]; [done |].
      pose proof (Z.div_mod s page_size ltac:(lia)). pose proof (Z.div_mod e page_size ltac:(lia)).
      pose proof (Z.mod_pos_bound s page_size Hp). pose proof (Z.mod_pos_bound e page_size Hp).
      set (x := (s / page_size + 1) * page_size).
      assert (s <= x <= e) as Hx by (unfold x; nia).
      specialize (Hall x Hx). rewrite Hcov in Hall by lia.
      unfold x in Hall. rewrite Z.div_mul in Hall by lia. lia.
    + intros Hle x Hx. apply Hcov; [lia |].
      pose proof (Z.div_le_mono s x page_size Hp ltac:(lia)).
      pose proof (Z.div_le_mono x e page_size Hp ltac:(lia)). lia.
Qed.

Lemma overlapping_pages_correct_witness :
  overlapping_pages 900 1100 1000 1500 = Ok [(0, 999); (1000, 1499)] /\
  covered [mkRange 0 999; mkRange 1000 1499] 1000.
Proof.
  split; [reflexivity |].
  destruct (overlapping_pages_correct 900 1100 1000 1500) as (pages & E & _ & _ & _ & H);
    unfold is_u64; try lia.
  vm_compute in E. injection E as <-. apply H; [apply Z.leb_le; reflexivity | lia].
Defined.

(** A suffix request for [n] bytes, no larger than one page, of an object of
    known size is served from pages that hold its last [min n size] bytes; the
    size is left unknown, and no page guessed, when the object's size is not
    known. *)
Theorem suffix_page_target_covers n page_size size :
  0 < n -> n <= page_size -> 0 < size -> size + page_size <= 2 ^ 64 ->
  suffix_page_target n page_size None = Ok SizeUnknown /\
  exists pages, suffix_page_target n page_size (Some size) = Ok (Pages pages) /\
    forall x, size - Z.min n size <= x < size -> covered (as_range <$> pages) x.
Proof.
  intros Hn Hnp Hs Hb. unfold suffix_page_target, rust_assert.
  rewrite (proj2 (Z.ltb_lt 0 n)), (proj2 (Z.ltb_lt 0 page_size)), (proj2 (Z.ltb_lt 0 size)) by lia.
  split; [done |]. simpl. u64.
  destruct (overlapping_pages_grid (size - Z.min n size) (size - 1) page_size size)
    as (pages & -> & Hin & _); [lia.. | unfold is_u64; lia | lia |].
  simpl. eexists. split; [done |]. intros x Hx. unfold covered. rewrite Exists_fmap, Exists_exists.
  set (s := size - Z.min n size) in *. set (e := size - 1) in *.
  assert (e / page_size <= s / page_size + 1).
  { replace (s / page_size + 1) with ((s + 1 * page_size) / page_size)
      by (apply Z.div_add; lia). apply Z.div_le_mono; lia. }
  pose proof (Z.div_le_mono s x page_size ltac:(lia) ltac:(lia)).
  pose proof (Z.div_le_mono x e page_size ltac:(lia) ltac:(lia)).
  assert (x / page_size = s / page_size \/ x / page_size = e / page_size) as Hpg by lia.
  exists (grid_page page_size size (x / page_size)).
  split; [apply Hin; destruct Hpg as [-> | ->]; auto | apply grid_page_covers; lia].
Qed.

Lemma suffix_page_target_covers_witness :
  suffix_page_target 600 1000 (Some 2500) = Ok (Pages [(1000, 1999); (2000, 2499)]) /\
  covered [mkRange 1000 1999; mkRange 2000 2499] 1950.
Proof.
  split; [reflexivity |].
  destruct (suffix_page_target_covers 600 1000 2500) as (_ & pages & E & H); try lia.
  vm_compute in E. injection E as <-. apply H. lia.
Defined.
