(* ===== verification/RangeParse.v ===== *)
(** * The [Range] header ([range_handler.rs])

    Parsing of the client's [Range] header, its validation against the object
    length, the [Content-Range] value of the answer, and the comparison that
    decides whether a signed header may be forwarded verbatim. *)

From S2P Require Import Prelude CacheTypes Ranges RustStr.

#[local] Open Scope Z_scope.
#[local] Arguments String.append : simpl nomatch.

Inductive RangeParseResult :=
  | SingleRange (r : RangeSpec)
  | MultipleRanges (rs : list RangeSpec)
  | Invalid (m : string)
  | NoRange.

(** [str::parse::<u64>().map_err(|_| InvalidRange(m))]. *)
Definition parse_u64_or (m : string) (s : string) : Result Z :=
  match parse_u64 s with Some n => Ok n | None => Err (InvalidRange m) end.

Definition parse_single_range_spec (range_spec : string) (content_length : option Z)
    : Result RangeSpec :=
  if contains_char "-" range_spec then
    match split_char "-" range_spec with
    | [p0; p1] =>
        let start_str := trim p0 in
        let end_str := trim p1 in
        match is_empty_str start_str, is_empty_str end_str with
        | false, false =>
            start ← parse_u64_or "Invalid start position" start_str;
            end_ ← parse_u64_or "Invalid end position" end_str;
            if end_ <? start
            then Err (InvalidRange "Start position cannot be greater than end position")
            else match content_length with
                 | Some length =>
                     if length <=? start
                     then Err (InvalidRange "Start position exceeds content length")
                     else Ok (mkRange start (Z.min end_ (u64_sub length 1)))
                 | None => Ok (mkRange start end_)
                 end
        | false, true =>
            start ← parse_u64_or "Invalid start position" start_str;
            match content_length with
            | Some length =>
                if length <=? start
                then Err (InvalidRange "Start position exceeds content length")
                else Ok (mkRange start (u64_sub length 1))
            | None => Err (InvalidRange "Cannot determine end position without content length")
            end
        | true, false =>
            suffix ← parse_u64_or "Invalid suffix length" end_str;
            match content_length with
            | Some length =>
                if suffix =? 0 then Err (InvalidRange "Suffix length cannot be zero")
                else Ok (mkRange (saturating_sub length suffix) (u64_sub length 1))
            | None => Err (InvalidRange "Cannot determine suffix range without content length")
            end
        | true, true => Err (InvalidRange "Empty range specification")
        end
    | _ => Err (InvalidRange "Range specification must contain exactly one dash")
    end
  else Err (InvalidRange "Range specification must contain a dash").

(** The [for range_spec in range_specs] loop with its early return; the error
    text appends the parser's message. *)
Fixpoint parse_range_specs (specs : list string) (content_length : option Z)
    : outcome string (list RangeSpec) :=
  match specs with
  | [] => Ok []
  | s :: specs' =>
      match parse_single_range_spec (trim s) content_length with
      | Ok r => rs ← parse_range_specs specs' content_length; Ok (r :: rs)
      | Err (InvalidRange m) => Err ("Invalid range specification: Invalid range: " +:+ m)
      | Err _ => Err "Invalid range specification"
      | Panic => Panic
      end
  end.

Definition parse_range_header (range_header : string) (content_length : option Z)
    : RangeParseResult :=
  if negb (starts_with "bytes=" range_header)
  then Invalid "Range header must start with 'bytes='"
  else
    let range_specs := split_char "," (string_drop 6 range_header) in
    match range_specs with
    | [] => Invalid "No range specifications found"
    | _ =>
        match parse_range_specs range_specs content_length with
        | Ok [] => Invalid "No valid range specifications"
        | Ok [r] => SingleRange r
        | Ok rs => MultipleRanges rs
        | Err m => Invalid m
        | Panic => Invalid "unreachable"
        end
    end.

Definition validate_range_request (range : RangeSpec) (content_length : Z) : Result unit :=
  if content_length <=? start range
  then Err (InvalidRange "Range start exceeds content length")
  else if content_length <=? end_ range
  then Err (InvalidRange "Range end exceeds content length")
  else if end_ range <? start range
  then Err (InvalidRange "Range start cannot be greater than end")
  else Ok tt.

Definition build_content_range_header (range : RangeSpec) (content_length : Z) : string :=
  "bytes " +:+ u64_to_string (start range) +:+ "-" +:+ u64_to_string (end_ range)
    +:+ "/" +:+ u64_to_string content_length.

Definition signed_client_range_covers (raw : string) (requested : RangeSpec) : option bool :=
  rest ← strip_prefix "bytes=" (trim raw);
  let spec := trim rest in
  '(s, e) ← split_once "-" spec;
  if is_empty_str s || is_empty_str e then None else
  st ← parse_u64 (trim s);
  en ← parse_u64 (trim e);
  Some ((st =? start requested) && (en =? end_ requested)).

(** ** The three header forms *)

(** What RFC 9110 makes of each form for an object of [length] bytes. *)
Inductive range_form :=
  | FromTo (a b : Z)
  | From (a : Z)
  | Suffix (n : Z).

Definition form_text (f : range_form) : string :=
  match f with
  | FromTo a b => u64_to_string a +:+ String "-" (u64_to_string b)
  | From a => u64_to_string a +:+ String "-" ""
  | Suffix n => String "-" (u64_to_string n)
  end.

Definition form_valid (f : range_form) (length : Z) : Prop :=
  match f with
  | FromTo a b => 0 <= a <= b /\ is_u64 b /\ a < length
  | From a => 0 <= a < length
  | Suffix n => 0 < n /\ is_u64 n
  end.

Definition form_range (f : range_form) (length : Z) : RangeSpec :=
  match f with
  | FromTo a b => mkRange a (Z.min b (length - 1))
  | From a => mkRange a (length - 1)
  | Suffix n => mkRange (Z.max 0 (length - n)) (length - 1)
  end.

#[local] Arguments parse_u64_or : simpl never.
#[local] Arguments u64_to_string : simpl never.
#[local] Arguments trim : simpl never.

Lemma contains_dash s t : contains_char "-" (s +:+ String "-" t) = true.
Proof. unfold contains_char. rewrite all_chars_app. cbn. by rewrite andb_false_r. Qed.

Lemma split_dash n s :
  0 <= n -> split_char "-" (u64_to_string n +:+ String "-" s) = u64_to_string n :: split_char "-" s.
Proof.
  intros. apply split_char_app, plain_no_sep; [done | by apply u64_to_string_plain].
Qed.

Lemma split_dash_end n : 0 <= n -> split_char "-" (u64_to_string n) = [u64_to_string n].
Proof. intros. apply split_char_free, plain_no_sep; [done | by apply u64_to_string_plain]. Qed.

Lemma trim_u64 n : 0 <= n -> trim (u64_to_string n) = u64_to_string n.
Proof. intros. by apply trim_id, plain_no_space, u64_to_string_plain. Qed.

Lemma parse_u64_or_to_string m n : is_u64 n -> parse_u64_or m (u64_to_string n) = Ok n.
Proof. intros. unfold parse_u64_or. by rewrite parse_u64_to_string. Qed.

Lemma parse_single_form f length :
  is_u64 length -> 0 < length -> form_valid f length ->
  parse_single_range_spec (form_text f) (Some length) = Ok (form_range f length).
Proof.
  unfold is_u64. intros Hl Hl0 Hf. unfold parse_single_range_spec.
  destruct f as [a b | a | n]; cbn [form_text form_valid form_range] in *; unfold is_u64 in *.
  - rewrite contains_dash, split_dash, split_dash_end, !trim_u64, !u64_to_string_nonempty by lia.
    rewrite !parse_u64_or_to_string by (unfold is_u64; lia). cbn.
    bsplit_goal; [lia |]. bsplit_goal; [lia |]. by u64.
  - rewrite contains_dash, split_dash, trim_u64, u64_to_string_nonempty by lia.
    change (trim "") with "". cbn.
    rewrite parse_u64_or_to_string by (unfold is_u64; lia). cbn. bsplit_goal; [lia |]. by u64.
  - change (contains_char "-" (String "-" (u64_to_string n))) with true.
    change (split_char "-" (String "-" (u64_to_string n))) with
      ("" :: split_char "-" (u64_to_string n)).
    rewrite split_dash_end, trim_u64, u64_to_string_nonempty by lia. change (trim "") with "". cbn.
    rewrite parse_u64_or_to_string by (unfold is_u64; lia). cbn. bsplit_goal; [lia |]. u64.
    unfold saturating_sub. do 2 f_equal. lia.
Qed.

Lemma form_text_chars f length (c : ascii) :
  form_valid f length -> is_plain_char c = false -> c <> "-"%char ->
  all_chars (fun a => negb (ascii_eqb a c)) (form_text f) = true.
Proof.
  intros Hf Hc Hd. assert (negb (ascii_eqb "-" c) = true) as Hn
    by (rewrite ascii_eqb_neq; [done | congruence]).
  assert (forall n, 0 <= n -> all_chars (fun a => negb (ascii_eqb a c)) (u64_to_string n) = true)
    as Hu by (intros; apply plain_no_sep; [done | by apply u64_to_string_plain]).
  destruct f; cbn in *; rewrite ?all_chars_app; cbn; rewrite Hn, ?Hu; cbn; unfold is_u64 in *; auto; lia.
Qed.

Lemma form_text_trim f length : form_valid f length -> trim (form_text f) = form_text f.
Proof.
  intros Hf. apply trim_id.
  assert (forall n, 0 <= n -> all_chars (fun a => negb (is_whitespace a)) (u64_to_string n) = true)
    as Hu by (intros; by apply plain_no_space, u64_to_string_plain).
  destruct f; cbn in *; rewrite ?all_chars_app; cbn; rewrite ?Hu; unfold is_u64 in *; auto; lia.
Qed.

(** The [Range] parser reads every header form as RFC 9110 defines it.  For a
    non-empty object of known length, [bytes=a-b] is clamped to the object,
    [bytes=a-] runs to its end and [bytes=-n] names its last [min n length]
    bytes; each is returned as a single range that [validate_range_request]
    accepts. *)
Theorem parse_range_header_forms f length :
  is_u64 length -> 0 < length -> form_valid f length ->
  parse_range_header ("bytes=" +:+ form_text f) (Some length) = SingleRange (form_range f length) /\
  validate_range_request (form_range f length) length = Ok tt.
Proof.
  intros Hl Hl0 Hf. split.
  - unfold parse_range_header.
    rewrite (proj2 (starts_with_spec _ _)) by eauto. cbn.
    rewrite split_char_free by (eapply form_text_chars; done). cbn.
    rewrite (form_text_trim f length Hf), parse_single_form by done. done.
  - unfold validate_range_request. destruct f; cbn in *; unfold is_u64 in *;
      repeat (bsplit_goal; [lia |]); done.
Qed.

Lemma parse_range_header_forms_witness :
  parse_range_header "bytes=100-999" (Some 500) = SingleRange (mkRange 100 499) /\
  parse_range_header "bytes=-50" (Some 500) = SingleRange (mkRange 450 499).
Proof.
  split.
  - apply (parse_range_header_forms (FromTo 100 999) 500); unfold is_u64; cbn; unfold is_u64; lia.
  - apply (parse_range_header_forms (Suffix 50) 500); unfold is_u64; cbn; unfold is_u64; lia.
Defined.

(** ** Every answer of the parser *)

(** The ranges a parse result names. *)
Definition parsed_ranges (p : RangeParseResult) : list RangeSpec :=
  match p with SingleRange r => [r] | MultipleRanges rs => rs | _ => [] end.

Lemma parse_single_range_spec_valid s length r :
  is_u64 length -> 0 < length -> parse_single_range_spec s (Some length) = Ok r ->
  validate_range_request r length = Ok tt.
Proof.
  unfold is_u64. intros Hl Hl0. unfold parse_single_range_spec, parse_u64_or, saturating_sub.
  destruct (contains_char "-" s); [| done].
  destruct (split_char "-" s) as [|p0 [|p1 [|]]]; try done.
  destruct (is_empty_str (trim p0)), (is_empty_str (trim p1)); try done; cbn.
  all: repeat match goal with
       | |- context [parse_u64 ?t] =>
           let E := fresh "E" in destruct (parse_u64 t) eqn:E; cbn; [apply parse_u64_range in E | done]
       end; unfold is_u64 in *.
  all: repeat (bsplit_goal; [done || fail 1 |]) || idtac.
  all: intros [= <-]; u64; unfold validate_range_request; cbn;
    repeat (bsplit_goal; [lia |]); done.
Qed.

Lemma parse_range_specs_valid length specs : forall rs,
  is_u64 length -> 0 < length -> parse_range_specs specs (Some length) = Ok rs ->
  Forall (fun r => validate_range_request r length = Ok tt) rs /\ List.length rs = List.length specs.
Proof.
  induction specs as [|s specs IH]; intros rs Hl Hl0; cbn [parse_range_specs].
  { intros [= <-]. by split. }
  destruct (parse_single_range_spec (trim s) (Some length)) as [r | [] |] eqn:E; try done.
  intros H. okinv. destruct (IH _ Hl Hl0 E0) as [Hv ?]. split; [| cbn; lia].
  constructor; [by eapply parse_single_range_spec_valid | done].
Qed.

(** Whatever text a client sends, every range the parser accepts for a
    non-empty object of known length passes [validate_range_request]: it starts
    inside the object, ends inside it and is not inverted.  One accepted range
    is reported as a single range, two or more as multiple ranges. *)
Theorem parse_range_header_sound header length :
  is_u64 length -> 0 < length ->
  let p := parse_range_header header (Some length) in
  Forall (fun r => validate_range_request r length = Ok tt) (parsed_ranges p) /\
  match p with
  | SingleRange _ => True
  | MultipleRanges rs => (2 <= List.length rs)%nat
  | Invalid _ => parsed_ranges p = []
  | NoRange => False
  end.
Proof.
  intros Hl Hl0. unfold parse_range_header. destruct (negb _); [by split |].
  destruct (split_char "," (string_drop 6 header)) as [|s specs] eqn:Es; [by split |].
  destruct (parse_range_specs (s :: specs) (Some length)) as [rs | m |] eqn:E; [| by split..].
  destruct (parse_range_specs_valid _ _ _ Hl Hl0 E) as [Hv _].
  destruct rs as [|r [|r' rs]]; split; try done. cbn. lia.
Qed.

Lemma parse_range_header_sound_witness :
  parse_range_header "bytes=0-9, 20-" (Some 30) = MultipleRanges [mkRange 0 9; mkRange 20 29] /\
  Forall (fun r => validate_range_request r 30 = Ok tt) [mkRange 0 9; mkRange 20 29].
Proof.
  split; [reflexivity |].
  apply (parse_range_header_sound "bytes=0-9, 20-" 30); unfold is_u64; lia.
Defined.

(** The length of the object is trusted to be positive: the suffix form is
    the one branch without a [start >= length] test, and for an empty object it
    answers with the range [0 ..= u64::MAX], which no object satisfies. *)
Theorem suffix_of_empty_object n :
  0 < n -> is_u64 n ->
  parse_range_header ("bytes=" +:+ form_text (Suffix n)) (Some 0) = SingleRange (mkRange 0 U64_MAX) /\
  forall length, is_u64 length -> validate_range_request (mkRange 0 U64_MAX) length <> Ok tt.
Proof.
  unfold is_u64. intros Hn Hu. assert (form_valid (Suffix n) 0) as Hf by done.
  split.
  - unfold parse_range_header. rewrite (proj2 (starts_with_spec _ _)) by eauto.
    change (string_drop 6 ("bytes=" +:+ form_text (Suffix n))) with (form_text (Suffix n)).
    rewrite split_char_free by (eapply form_text_chars; done). cbn [parse_range_specs negb].
    rewrite (form_text_trim _ 0 Hf). unfold parse_single_range_spec, form_text.
    change (contains_char "-" (String "-" (u64_to_string n))) with true.
    change (split_char "-" (String "-" (u64_to_string n))) with
      ("" :: split_char "-" (u64_to_string n)).
    rewrite split_dash_end, trim_u64, u64_to_string_nonempty by lia. change (trim "") with "". cbn.
    rewrite parse_u64_or_to_string by done. cbn. bsplit_goal; [lia |]. cbn.
    unfold saturating_sub. by rewrite Z.max_r by lia.
  - unfold validate_range_request, U64_MAX. cbn. intros length Hl.
    repeat bsplit_goal; done || lia.
Qed.

Lemma suffix_of_empty_object_witness :
  parse_range_header "bytes=-5" (Some 0) = SingleRange (mkRange 0 U64_MAX).
Proof. apply (suffix_of_empty_object 5); unfold is_u64; lia. Defined.

(** ** Signed headers *)

Lemma drop_bytes_prefix raw rest :
  strip_prefix "bytes=" raw = Some rest -> string_drop 6 raw = rest /\ starts_with "bytes=" raw = true.
Proof.
  intros H. split.
  - by apply strip_prefix_Some in H as ->.
  - apply starts_with_spec. exists rest. by apply strip_prefix_Some.
Qed.

Lemma signed_covers_parse raw requested :
  start requested <= end_ requested ->
  signed_client_range_covers raw requested = Some true ->
  parse_range_header (trim raw) None = SingleRange requested.
Proof.
  intros Hle H. unfold signed_client_range_covers in H.
  apply bind_Some in H as (rest & [Hd Hs]%drop_bytes_prefix & H).
  apply bind_Some in H as ([s e] & Hsplit%split_once_Some & H).
  destruct (is_empty_str s || is_empty_str e); [done |].
  apply bind_Some in H as (st & Est & H). apply bind_Some in H as (en & Een & H).
  injection H as H. apply andb_true_iff in H as [->%Z.eqb_eq ->%Z.eqb_eq].
  assert (forall c : ascii, is_number_char c = false -> is_whitespace c = false ->
            all_chars (fun a => negb (ascii_eqb a c)) s = true /\
            all_chars (fun a => negb (ascii_eqb a c)) e = true) as Hno.
  { intros c Hn Hw. split; by eapply parse_u64_trim_no_sep. }
  unfold parse_range_header. rewrite Hs, Hd. cbn [negb].
  rewrite (split_char_free "," rest).
  2:{ apply all_chars_trim; [intros a Ha; apply negb_true_iff, ascii_eqb_neq; by intros -> |].
      destruct (Hno ","%char eq_refl eq_refl) as [H1 H2].
      rewrite Hsplit, all_chars_app, H1. cbn. by rewrite H2. }
  destruct (Hno "-"%char eq_refl eq_refl) as [H1 H2].
  cbn [parse_range_specs]. unfold parse_single_range_spec.
  rewrite Hsplit, contains_dash, split_char_app, (split_char_free _ e) by done.
  unfold parse_u64_or. rewrite (parse_u64_nonempty _ _ Est), (parse_u64_nonempty _ _ Een), Est, Een.
  cbn. bsplit_goal; [lia |]. by destruct requested.
Qed.

(** A signed [Range] header that the proxy forwards unchanged because it names
    exactly the requested bytes does name them: when [signed_client_range_covers]
    answers [Some true], the parser reads the same header as the single range
    requested, and nothing else. *)
Theorem signed_range_covers_sound raw requested :
  start requested <= end_ requested ->
  signed_client_range_covers raw requested = Some true ->
  parse_range_header (trim raw) None = SingleRange requested.
Proof. apply signed_covers_parse. Qed.

Lemma signed_range_covers_sound_witness :
  signed_client_range_covers " bytes= 5 - 10 " (mkRange 5 10) = Some true /\
  parse_range_header (trim " bytes= 5 - 10 ") None = SingleRange (mkRange 5 10).
Proof.
  split; [reflexivity |].
  apply (signed_range_covers_sound " bytes= 5 - 10 " (mkRange 5 10)); [cbn; lia | reflexivity].
Defined.
