(* ===== verification/InflightLedger.v ===== *)
(** * The in-flight memory ledger ([inflight_ledger.rs])

    A process-wide account of the bytes buffered for requests.  Each public
    operation is given twice: as the function a single thread runs, and as the
    sequence of atomic accesses it is made of, so that the accounting can be
    proved for every interleaving of any number of threads. *)

From S2P Require Import Prelude CacheTypes.

#[local] Open Scope Z_scope.

Module Ledger.

Record InflightLedger := mkLedger {
  ceiling : Z;
  reserved : Z;
  peak : Z;
  rejected_total : Z;
  aborted_total : Z;
  last_rejection_log_secs : Z;
}.

(** A [Reservation]; [attached] is [self.ledger.is_some()]. *)
Record Reservation := mkReservation { attached : bool; held_bytes : Z }.

Inductive BufferClaim := Held (r : Reservation) | CoveredByCaller.

Definition new (ceiling_bytes : Z) : InflightLedger := mkLedger ceiling_bytes 0 0 0 0 0.

Definition disabled : InflightLedger := new 0.

Definition is_disabled (l : InflightLedger) : bool := ceiling l =? 0.

(** ** The atomic accesses *)

Definition set_reserved (l : InflightLedger) (v : Z) : InflightLedger :=
  mkLedger (ceiling l) v (peak l) (rejected_total l) (aborted_total l) (last_rejection_log_secs l).

Definition fetch_max_peak (l : InflightLedger) (v : Z) : InflightLedger :=
  mkLedger (ceiling l) (reserved l) (Z.max (peak l) v) (rejected_total l) (aborted_total l)
    (last_rejection_log_secs l).

Definition add_rejected (l : InflightLedger) : InflightLedger :=
  mkLedger (ceiling l) (reserved l) (peak l) (u64_add (rejected_total l) 1) (aborted_total l)
    (last_rejection_log_secs l).

Definition log_rejection_rate_limited (now_secs : Z) (l : InflightLedger) : InflightLedger :=
  if u64_add (last_rejection_log_secs l) 60 <=? now_secs
  then mkLedger (ceiling l) (reserved l) (peak l) (rejected_total l) (aborted_total l) now_secs
  else l.

Definition record_aborted_accumulation (l : InflightLedger) : InflightLedger :=
  mkLedger (ceiling l) (reserved l) (peak l) (rejected_total l) (u64_add (aborted_total l) 1)
    (last_rejection_log_secs l).

(** One turn of the compare-exchange loop [try_reserve] and [try_grow] share:
    reject, commit the new total, or come back with the value another thread
    wrote.  [spurious] is the failure [compare_exchange_weak] may report although
    the values agree. *)
Inductive CasNext := Rejected | Retry (current : Z) | Committed (new_total : Z).

Definition cas_turn (now_secs : Z) (spurious : bool) (l : InflightLedger) (bytes current : Z)
    : InflightLedger * CasNext :=
  match checked_add current bytes with
  | None => (log_rejection_rate_limited now_secs (add_rejected l), Rejected)
  | Some new_total =>
      if ceiling l <? new_total
      then (log_rejection_rate_limited now_secs (add_rejected l), Rejected)
      else if negb spurious && (reserved l =? current)
      then (set_reserved l new_total, Committed new_total)
      else (l, Retry (reserved l))
  end.

Definition release (l : InflightLedger) (bytes : Z) : InflightLedger :=
  if bytes =? 0 then l else set_reserved l (u64_sub (reserved l) bytes).

(** ** The operations of one thread *)

(** The loop from a possibly stale [current], run without interference. *)
Fixpoint cas_loop (fuel : nat) (now_secs : Z) (l : InflightLedger) (bytes current : Z)
    : option (InflightLedger * bool) :=
  match fuel with
  | O => None
  | S f =>
      match cas_turn now_secs false l bytes current with
      | (l', Rejected) => Some (l', false)
      | (l', Committed new_total) => Some (fetch_max_peak l' new_total, true)
      | (l', Retry actual) => cas_loop f now_secs l' bytes actual
      end
  end.

(** Two turns are enough: [cas_loop_terminates]. *)
Definition cas_run (now_secs : Z) (l : InflightLedger) (bytes : Z) : InflightLedger * bool :=
  default (l, false) (cas_loop 2 now_secs l bytes (reserved l)).

Definition try_reserve (now_secs : Z) (l : InflightLedger) (bytes : Z)
    : InflightLedger * option Reservation :=
  if ceiling l =? 0 then (l, Some (mkReservation false 0)) else
  match cas_run now_secs l bytes with
  | (l', true) => (l', Some (mkReservation true bytes))
  | (l', false) => (l', None)
  end.

(** [InflightLedger::try_grow]. *)
Definition ledger_try_grow (now_secs : Z) (l : InflightLedger) (additional : Z)
    : InflightLedger * bool :=
  if additional =? 0 then (l, true) else
  if ceiling l =? 0 then (l, true) else
  cas_run now_secs l additional.

(** [Reservation::none], [Reservation::try_grow] and [Drop for Reservation]. *)
Definition none : Reservation := mkReservation false 0.

Definition try_grow (now_secs : Z) (l : InflightLedger) (r : Reservation) (additional : Z)
    : InflightLedger * Reservation * bool :=
  if attached r then
    match ledger_try_grow now_secs l additional with
    | (l', true) => (l', mkReservation true (u64_add (held_bytes r) additional), true)
    | (l', false) => (l', r, false)
    end
  else (l, mkReservation false (u64_add (held_bytes r) additional), true).

Definition drop (l : InflightLedger) (r : Reservation) : InflightLedger :=
  if attached r then release l (held_bytes r) else l.

(** The caller's reservation is borrowed mutably, so it is returned. *)
Definition claim_overlapping (now_secs : Z) (l : InflightLedger) (bytes : Z)
    (caller_reservation : option Reservation)
    : InflightLedger * option Reservation * option BufferClaim :=
  match caller_reservation with
  | Some existing =>
      let shortfall := saturating_sub bytes (held_bytes existing) in
      if shortfall =? 0 then (l, Some existing, Some CoveredByCaller) else
      match try_grow now_secs l existing shortfall with
      | (l', existing', true) => (l', Some existing', Some CoveredByCaller)
      | (l', existing', false) => (l', Some existing', None)
      end
  | None =>
      match try_reserve now_secs l bytes with
      | (l', Some r) => (l', None, Some (Held r))
      | (l', None) => (l', None, None)
      end
  end.

(** ** Interleavings

    An agent is a live reservation or a thread inside the compare-exchange loop.
    Growing borrows the reservation mutably, so a growing thread owns it. *)

Inductive agent :=
  | Holding (bytes : Z)
  | Looping (held bytes current : Z) (growing : bool)
  | Raising (held bytes new_total : Z).

Inductive step : InflightLedger * list agent -> InflightLedger * list agent -> Prop :=
  | step_reserve l ags bytes :
      ceiling l <> 0 -> is_u64 bytes ->
      step (l, ags) (l, Looping 0 bytes (reserved l) false :: ags)
  | step_grow l l1 l2 h additional :
      additional <> 0 -> is_u64 additional ->
      step (l, l1 ++ Holding h :: l2) (l, l1 ++ Looping h additional (reserved l) true :: l2)
  | step_retry now l l1 l2 h b c c' g spurious :
      cas_turn now spurious l b c = (l, Retry c') ->
      step (l, l1 ++ Looping h b c g :: l2) (l, l1 ++ Looping h b c' g :: l2)
  | step_commit now l l' l1 l2 h b c g t :
      cas_turn now false l b c = (l', Committed t) ->
      step (l, l1 ++ Looping h b c g :: l2) (l', l1 ++ Raising h b t :: l2)
  | step_reject now spurious l l' l1 l2 h b c g :
      cas_turn now spurious l b c = (l', Rejected) ->
      step (l, l1 ++ Looping h b c g :: l2)
           (l', l1 ++ (if g then [Holding h] else []) ++ l2)
  | step_peak l l1 l2 h b t :
      step (l, l1 ++ Raising h b t :: l2) (fetch_max_peak l t, l1 ++ Holding (u64_add h b) :: l2)
  | step_drop l l1 l2 h :
      step (l, l1 ++ Holding h :: l2) (drop l (mkReservation true h), l1 ++ l2)
  | step_abort l ags : step (l, ags) (record_aborted_accumulation l, ags).

(** The bytes an agent accounts for in [reserved]. *)
Definition owned (a : agent) : Z :=
  match a with
  | Holding h => h
  | Looping h _ _ _ => h
  | Raising h b _ => h + b
  end.

Definition agent_ok (a : agent) : Prop :=
  match a with
  | Holding h => 0 <= h
  | Looping h b c growing => 0 <= h /\ 0 <= b /\ is_u64 c /\ (growing = false -> h = 0)
  | Raising h b t => 0 <= h /\ 0 <= b
  end.

(** The total some thread has committed and not yet recorded in [peak]. *)
Definition pending_peak (a : agent) : option Z :=
  match a with Raising _ _ t => Some t | _ => None end.

Record consistent (s : InflightLedger * list agent) : Prop := {
  c_ceiling : is_u64 (ceiling s.1);
  c_sum : reserved s.1 = sum_by owned s.2;
  c_agents : Forall agent_ok s.2;
  c_bound : reserved s.1 <= ceiling s.1;
  c_peak : peak s.1 <= ceiling s.1;
  c_pending : Forall (fun a => forall t, pending_peak a = Some t -> t <= ceiling s.1) s.2;
  c_seen : reserved s.1 <= peak s.1 \/
           Exists (fun a => exists t, pending_peak a = Some t /\ reserved s.1 <= t) s.2;
}.

Lemma cas_turn_frame now sp l b c l' r :
  cas_turn now sp l b c = (l', r) ->
  ceiling l' = ceiling l /\ peak l' = peak l /\
  match r with
  | Rejected => reserved l' = reserved l
  | Retry c' => l' = l /\ c' = reserved l
  | Committed t => reserved l = c /\ reserved l' = t /\ t = c + b /\ t <= ceiling l
  end.
Proof.
  unfold cas_turn, checked_add. intros H. bsplit_hyp; [| injection H as <- <-].
  2:{ unfold log_rejection_rate_limited. by bsplit_goal. }
  bsplit_hyp; [injection H as <- <-; unfold log_rejection_rate_limited; by bsplit_goal |].
  destruct sp; simpl in H; [by injection H as <- <- |].
  destruct (Z.eqb_spec (reserved l) c); injection H as <- <-; [| done]. simpl. lia.
Qed.

Lemma owned_nonneg a : agent_ok a -> 0 <= owned a.
Proof. destruct a; simpl; lia. Qed.

Lemma sum_owned_nonneg ags : Forall agent_ok ags -> 0 <= sum_by owned ags.
Proof.
  intros H. apply sum_by_nonneg. intros a Ha. apply owned_nonneg.
  by eapply Forall_forall in Ha.
Qed.

(** Normal form of the invariant around the one agent a step changes. *)
Lemma consistent_split l l1 a l2 :
  consistent (l, l1 ++ a :: l2) <->
  is_u64 (ceiling l) /\ reserved l = sum_by owned l1 + owned a + sum_by owned l2 /\
  Forall agent_ok l1 /\ agent_ok a /\ Forall agent_ok l2 /\
  reserved l <= ceiling l /\ peak l <= ceiling l /\
  (let lim x := forall t, pending_peak x = Some t -> t <= ceiling l in
   Forall lim l1 /\ lim a /\ Forall lim l2) /\
  (let seen x := exists t, pending_peak x = Some t /\ reserved l <= t in
   reserved l <= peak l \/ Exists seen l1 \/ seen a \/ Exists seen l2).
Proof.
  split.
  - intros []; simpl in *. rewrite sum_by_app in *. rewrite Forall_app, Forall_cons in *.
    rewrite Exists_app, Exists_cons in *. simpl in *. intuition lia.
  - intros (?&?&?&?&?&?&?&(?&?&?)&?). constructor; simpl; [done | | | done | done | |].
    + rewrite sum_by_app. simpl. lia.
    + by rewrite Forall_app, Forall_cons.
    + by rewrite Forall_app, Forall_cons.
    + by rewrite Exists_app, Exists_cons.
Qed.

(** An agent that accounts for nothing may come and go. *)
Lemma consistent_zero l l1 l2 :
  consistent (l, l1 ++ Holding 0 :: l2) <-> consistent (l, l1 ++ l2).
Proof.
  split.
  - rewrite consistent_split. intros (?&?&?&?&?&?&?&(?&?&?)&Hs). constructor; simpl in *; [done | | | done | done | |].
    + rewrite sum_by_app. lia.
    + by apply Forall_app.
    + by apply Forall_app.
    + rewrite Exists_app. destruct Hs as [? | [? | [(t & [=] & _) | ?]]]; auto.
  - intros []; simpl in *. rewrite sum_by_app, Forall_app, Exists_app in *. apply consistent_split.
    simpl in *. intuition (try lia; try discriminate).
Qed.

Lemma seen_mono r r' ags :
  r' <= r -> Exists (fun a => exists t, pending_peak a = Some t /\ r <= t) ags ->
  Exists (fun a => exists t, pending_peak a = Some t /\ r' <= t) ags.
Proof.
  intros Hr Hs. eapply Exists_impl; [exact Hs |]. intros a (t & ? & ?). exists t. split; [done | lia]. Qed.

Lemma consistent_release l l1 l2 h :
  consistent (l, l1 ++ Holding h :: l2) -> consistent (drop l (mkReservation true h), l1 ++ l2).
Proof.
  rewrite consistent_split. intros (Hc & Hsum & H1 & Ha & H2 & Hb & Hp & Hlim & Hseen).
  apply consistent_zero. unfold drop, release. simpl in *.
  pose proof (sum_owned_nonneg l1 H1). pose proof (sum_owned_nonneg l2 H2).
  unfold is_u64 in *. destruct (Z.eqb_spec h 0) as [-> |]; apply consistent_split; simpl.
  - split_and!; try done; tauto || lia || idtac.
  - u64. split_and!; try tauto; try lia; try done.
    destruct Hseen as [? | [Hs | [(t & [=] & _) | Hs]]]; [left; lia | right | right].
    + left. eapply seen_mono; [| exact Hs]. lia.
    + right. right. eapply seen_mono; [| exact Hs]. lia.
Qed.

Lemma consistent_reserved l ags : consistent (l, ags) -> is_u64 (reserved l).
Proof.
  intros []; simpl in *. pose proof (sum_owned_nonneg ags c_agents0). unfold is_u64 in *. lia.
Qed.

Lemma step_consistent s s' : step s s' -> consistent s -> consistent s'.
Proof.
  destruct 1 as [l ags bytes Hce Hb | l l1 l2 h add Hadd0 Hadd | now l l1 l2 h b c c' g sp E
    | now l l' l1 l2 h b c g t E | now sp l l' l1 l2 h b c g E | l l1 l2 h b t | l l1 l2 h | l ags];
    intros Hcons; try (pose proof (cas_turn_frame _ _ _ _ _ _ _ E) as Hf).
  - apply (consistent_split l [] _ ags). destruct Hcons; simpl in *.
    pose proof (sum_owned_nonneg ags c_agents0). unfold is_u64 in *.
    split_and!; try done; try lia. tauto.
  - pose proof (consistent_reserved _ _ Hcons). rewrite consistent_split in *.
    simpl in *. unfold is_u64 in *. split_and!; try tauto; try lia; done.
  - pose proof (consistent_reserved _ _ Hcons). rewrite consistent_split in *.
    simpl in *. unfold is_u64 in *. destruct Hf as (_ & _ & _ & ->).
    split_and!; try tauto; try lia; done.
  - rewrite consistent_split in *. destruct Hf as (Hce & Hpk & Hr & Hr' & -> & Hle).
    rewrite Hce, Hpk, Hr'. simpl in *. split_and!; try tauto; try lia.
    + by intros t [= <-].
    + right. right. left. exists (c + b). split; [done | lia].
  - destruct Hf as (Hce & Hpk & Hr).
    assert (consistent (l', l1 ++ Holding h :: l2)) as Hh.
    { rewrite consistent_split in *. rewrite Hce, Hpk, Hr. simpl in *.
      split_and!; try tauto; try lia; done. }
    destruct g; [done |]. apply consistent_zero. rewrite consistent_split in Hcons.
    destruct Hcons as (_ & _ & _ & (_ & _ & _ & Hh0) & _). by rewrite (Hh0 eq_refl) in Hh.
  - rewrite consistent_split in *.
    destruct Hcons as (? & ? & Hok1 & ? & Hok2 & ? & ? & (? & Ht & ?) & Hseen). simpl in *.
    pose proof (sum_owned_nonneg l1 Hok1). pose proof (sum_owned_nonneg l2 Hok2).
    specialize (Ht t eq_refl). unfold is_u64 in *.
    assert (u64_add h b = h + b) as -> by (apply u64_add_small; lia).
    split_and!; try tauto; try lia; try done.
    destruct Hseen as [? | [? | [(t' & [= <-] & ?) | ?]]]; [left; lia | tauto | left; lia | tauto].
  - by apply consistent_release.
  - destruct Hcons; constructor; simpl in *; done.
Qed.

Lemma steps_consistent s s' : rtc step s s' -> consistent s -> consistent s'.
Proof. induction 1; eauto using step_consistent. Qed.

Lemma steps_ceiling s s' : rtc step s s' -> ceiling s'.1 = ceiling s.1.
Proof.
  induction 1 as [| s1 s2 s3 Hst _ IH]; [done |]. rewrite IH. destruct Hst; simpl; try done.
  all: try (by match goal with E : cas_turn _ _ _ _ _ = _ |- _ => apply cas_turn_frame in E as [? _] end).
  unfold drop, release; simpl. by bsplit_goal.
Qed.

Lemma new_consistent c : is_u64 c -> consistent (new c, []).
Proof. intros Hc. unfold is_u64 in *. constructor; simpl; try done; lia. Qed.

(** C31: under every interleaving of any number of threads that reserve, grow,
    retry, are rejected and drop, the ledger's [reserved] is exactly the sum of
    the bytes the live reservations hold (plus those of a thread that has just
    committed), so it never exceeds the ceiling, no release underflows, nothing
    leaks once every reservation is dropped, and once no commit is in flight
    the recorded peak bounds what is reserved and stays under the ceiling. *)
Theorem ledger_accounting_exact c l ags :
  is_u64 c -> rtc step (new c, []) (l, ags) ->
  ceiling l = c /\
  reserved l = sum_by owned ags /\
  reserved l <= c /\
  (forall h, Holding h ∈ ags -> u64_sub (reserved l) h = reserved l - h) /\
  (ags = [] -> reserved l = 0) /\
  ((forall a, a ∈ ags -> pending_peak a = None) -> reserved l <= peak l <= c).
Proof.
  intros Hc Hst. pose proof (steps_ceiling _ _ Hst) as Hce. simpl in Hce.
  pose proof (steps_consistent _ _ Hst (new_consistent c Hc)) as Hcons.
  pose proof (consistent_reserved _ _ Hcons) as Hu.
  destruct Hcons as [_ Hsum Hok Hb Hp _ Hseen]; simpl in *. rewrite Hce in *.
  split; [done |]. split; [done |]. split; [done |]. split; [| split].
  - intros h Hh. apply list_elem_of_split in Hh as (l1 & l2 & ->).
    rewrite sum_by_app in Hsum. rewrite Forall_app, Forall_cons in Hok.
    destruct Hok as (H1 & Ha & H2). apply sum_owned_nonneg in H1, H2. simpl in *.
    unfold is_u64 in *. apply u64_sub_small. lia.
  - intros ->. done.
  - intros Hq. split; [| done]. destruct Hseen as [? | Hs]; [done |].
    apply Exists_exists in Hs as (a & Ha & t & Et & _). by rewrite Hq in Et.
Qed.

Lemma ledger_accounting_exact_witness :
  let l := mkLedger 100 60 60 0 0 0 in
  reserved l = sum_by owned [Holding 60] /\ reserved l <= peak l <= 100.
Proof.
  destruct (ledger_accounting_exact 100 (mkLedger 100 60 60 0 0 0) [Holding 60])
    as (_ & Hsum & _ & _ & _ & Hpeak).
  - unfold is_u64. lia.
  - eapply rtc_l; [apply (step_reserve _ _ 60); [done | unfold is_u64; lia] |].
    eapply rtc_l; [apply (step_commit 0 _ (set_reserved (new 100) 60) [] [] 0 60 0 false 60); reflexivity |].
    eapply rtc_l; [apply (step_peak _ [] []) |]. apply rtc_refl.
  - split; [exact Hsum |]. apply Hpeak. by intros a ->%list_elem_of_singleton.
Defined.

(** ** One thread *)

Lemma cas_turn_fresh now l b :
  is_u64 (ceiling l) ->
  cas_turn now false l b (reserved l) =
  if reserved l + b <=? ceiling l
  then (set_reserved l (reserved l + b), Committed (reserved l + b))
  else (log_rejection_rate_limited now (add_rejected l), Rejected).
Proof.
  unfold is_u64, cas_turn, checked_add, U64_MAX. intros Hc. rewrite Z.eqb_refl. simpl.
  destruct (Z.leb_spec (reserved l + b) (2 ^ 64 - 1)), (Z.leb_spec (reserved l + b) (ceiling l)),
    (Z.ltb_spec (ceiling l) (reserved l + b)); lia || done.
Qed.

(** The loop ends within two turns from any stale value of [current]. *)
Lemma cas_loop_terminates now l b cur : is_Some (cas_loop 2 now l b cur).
Proof.
  simpl. destruct (cas_turn now false l b cur) as [l' [| c' | t]] eqn:E; [by eexists | | by eexists].
  apply cas_turn_frame in E as (_ & _ & -> & ->).
  destruct (cas_turn now false l b (reserved l)) as [l'' [| c'' | t]] eqn:E; [by eexists | | by eexists].
  unfold cas_turn in E. rewrite Z.eqb_refl in E. simpl in E. repeat case_match; simplify_eq.
Qed.

Lemma cas_run_eq now l b :
  is_u64 (ceiling l) ->
  cas_run now l b =
  if reserved l + b <=? ceiling l
  then (fetch_max_peak (set_reserved l (reserved l + b)) (reserved l + b), true)
  else (log_rejection_rate_limited now (add_rejected l), false).
Proof.
  intros Hc. unfold cas_run. simpl. rewrite cas_turn_fresh by done. by bsplit_goal.
Qed.

Lemma log_rejection_reserved now l :
  reserved (log_rejection_rate_limited now l) = reserved l /\
  ceiling (log_rejection_rate_limited now l) = ceiling l.
Proof. unfold log_rejection_rate_limited. by bsplit_goal. Qed.

Lemma try_reserve_ceiling now l bytes :
  is_u64 (ceiling l) -> ceiling (try_reserve now l bytes).1 = ceiling l.
Proof.
  intros Hc. unfold try_reserve. bsplit_goal; [done |]. rewrite cas_run_eq by done.
  bsplit_goal; [done |]. by destruct (log_rejection_reserved now (add_rejected l)).
Qed.

Lemma try_reserve_spec now l bytes :
  is_u64 (ceiling l) -> is_u64 (reserved l) -> is_u64 bytes ->
  let '(l', r) := try_reserve now l bytes in
  (forall current, is_Some (cas_loop 2 now l bytes current)) /\
  if ceiling l =? 0 then l' = l /\ r = Some none
  else if reserved l + bytes <=? ceiling l
  then r = Some (mkReservation true bytes) /\ reserved l' = reserved l + bytes /\
       peak l' = Z.max (peak l) (reserved l + bytes) /\
       reserved (drop l' (mkReservation true bytes)) = reserved l
  else r = None /\ reserved l' = reserved l /\ rejected_total l' = u64_add (rejected_total l) 1.
Proof.
  intros Hc Hr Hb. unfold try_reserve. destruct (Z.eqb_spec (ceiling l) 0).
  { split; [intros; apply cas_loop_terminates | done]. }
  rewrite cas_run_eq by done. unfold is_u64 in *. bsplit_goal.
  - split; [intros; apply cas_loop_terminates |]. split_and!; try done.
    unfold drop, release; simpl. bsplit_goal; simpl; [lia |]. u64. lia.
  - split; [intros; apply cas_loop_terminates |].
    destruct (log_rejection_reserved now (add_rejected l)) as [-> _]. split_and!; try done.
    unfold log_rejection_rate_limited. by bsplit_goal.
Qed.

(** [try_reserve] is an exact admission test and its reservation an exact
    loan.  With a ceiling set it succeeds if and only if the bytes fit under it;
    success reserves exactly those bytes and dropping the reservation restores
    the account, failure leaves the account unchanged and counts one rejection;
    with the ceiling disabled it always succeeds and accounts nothing.  The
    compare-exchange loop needs at most two turns from any stale value. *)
Theorem try_reserve_exact now l bytes :
  is_u64 (ceiling l) -> is_u64 (reserved l) -> is_u64 bytes ->
  let '(l', r) := try_reserve now l bytes in
  (forall current, is_Some (cas_loop 2 now l bytes current)) /\
  if ceiling l =? 0 then l' = l /\ r = Some none
  else if reserved l + bytes <=? ceiling l
  then r = Some (mkReservation true bytes) /\ reserved l' = reserved l + bytes /\
       peak l' = Z.max (peak l) (reserved l + bytes) /\
       reserved (drop l' (mkReservation true bytes)) = reserved l
  else r = None /\ reserved l' = reserved l /\ rejected_total l' = u64_add (rejected_total l) 1.
Proof. apply try_reserve_spec. Qed.

Lemma try_reserve_exact_witness :
  reserved (drop (try_reserve 0 (mkLedger 100 40 40 0 0 0) 60).1 (mkReservation true 60)) = 40 /\
  (try_reserve 0 (mkLedger 100 40 40 0 0 0) 61).2 = @None Reservation.
Proof.
  split.
  - apply (try_reserve_exact 0 (mkLedger 100 40 40 0 0 0) 60); unfold is_u64; simpl; lia.
  - apply (try_reserve_exact 0 (mkLedger 100 40 40 0 0 0) 61); unfold is_u64; simpl; lia.
Defined.

(** A nested buffer is counted once.  When the caller already holds an
    attached reservation, [claim_overlapping] for [bytes] raises the account to
    the larger of the two claims, never to their sum: on success the caller then
    holds [max held bytes] and the account grew by exactly the difference; it is
    refused only when that difference does not fit, and then nothing changes. *)
Theorem claim_overlapping_max now l bytes held :
  is_u64 (ceiling l) -> 0 < ceiling l -> is_u64 bytes -> 0 <= held <= reserved l ->
  reserved l <= ceiling l ->
  let grow := Z.max held bytes - held in
  let '(l', caller', claim) := claim_overlapping now l bytes (Some (mkReservation true held)) in
  if reserved l + grow <=? ceiling l
  then claim = Some CoveredByCaller /\ caller' = Some (mkReservation true (Z.max held bytes)) /\
       reserved l' = reserved l + grow
  else claim = None /\ caller' = Some (mkReservation true held) /\ reserved l' = reserved l.
Proof.
  intros Hc Hc0 Hb Hh Hr grow. unfold is_u64 in *.
  unfold claim_overlapping, try_grow, ledger_try_grow, saturating_sub. simpl.
  replace (Z.max (bytes - held) 0) with grow by (unfold grow; lia).
  destruct (Z.eqb_spec grow 0) as [Eg | Eg].
  { rewrite (proj2 (Z.leb_le _ _)) by lia. split_and!; [done | | lia].
    do 2 f_equal. unfold grow in Eg. lia. }
  rewrite (proj2 (Z.eqb_neq (ceiling l) 0)), cas_run_eq by (unfold is_u64; lia).
  bsplit_goal; simpl.
  - split_and!; [done | | done]. do 2 f_equal. unfold grow in *. u64. lia.
  - split_and!; [done | done |]. by destruct (log_rejection_reserved now (add_rejected l)) as [-> _].
Qed.

Lemma claim_overlapping_max_witness :
  reserved (claim_overlapping 0 (mkLedger 100 50 50 0 0 0) 70 (Some (mkReservation true 50))).1.1 = 70.
Proof.
  apply (claim_overlapping_max 0 (mkLedger 100 50 50 0 0 0) 70 50); unfold is_u64; simpl; lia.
Defined.

End Ledger.
