(* ===== verification/RangeMerge.v ===== *)
(** * Assembling a response from cached and fetched ranges ([range_handler.rs])

    [extract_bytes_from_cached_range], the merge plan and its validation, and the
    merge loop.  The tier that holds the cached bytes (RAM over disk) and the S3
    client are interfaces: classes whose laws are what the merge relies on. *)

From S2P Require Import Prelude CacheTypes Ranges RangeParse InflightLedger RustStr.

#[local] Open Scope Z_scope.

(** ** Data *)

(** [cache::Range]. *)
Record Range := mkCachedRange {
  r_start : Z;
  r_end : Z;
  r_data : bytes;
  r_etag : string;
  r_last_modified : string;
  r_compression_algorithm : CompressionAlgorithm;
}.

Record RangeOverlap := mkOverlap {
  cached_ranges : list Range;
  missing_ranges : list RangeSpec;
  can_serve_from_cache : bool;
  stored_freshness : StoredFreshness;
}.

Definition all_missing (requested : RangeSpec) : RangeOverlap :=
  mkOverlap [] [requested] false CacheTypes.Fresh.

Definition is_serveable_unvalidated (o : RangeOverlap) : bool :=
  can_serve_from_cache o && bool_decide (stored_freshness o = CacheTypes.Fresh).

Definition has_complete_coverage (o : RangeOverlap) : bool := can_serve_from_cache o.

(** The part of the request a cached range covers. *)
Definition covered_part (requested : RangeSpec) (c : Range) : RangeSpec :=
  mkRange (Z.max (start requested) (r_start c)) (Z.min (end_ requested) (r_end c)).

(** The answer of [find_cached_ranges] once the overlapping ranges are known. *)
Definition overlap_of (requested : RangeSpec) (overlapping : list Range)
    (freshness : StoredFreshness) : RangeOverlap :=
  let missing := calculate_missing_ranges requested (covered_part requested <$> overlapping) in
  mkOverlap overlapping missing (bool_decide (missing = [])) freshness.

Inductive RangeMergeSource :=
  | Cached (range : Range) (read_offset read_length : Z)
  | Fetched (data : bytes) (range_spec : RangeSpec).

Record RangeMergeSegment := mkSegment {
  output_start : Z;
  output_end : Z;
  source : RangeMergeSource;
}.

(** [cache_efficiency], a floating-point percentage of the two byte counts, is
    left out. *)
Record RangeMergeResult := mkMergeResult {
  data : bytes;
  bytes_from_cache : Z;
  bytes_from_s3 : Z;
  segments_merged : Z;
  ram_hit : bool;
}.

(** A fetched range: its bounds, its body and the response headers. *)
Abbreviation FetchedRange := (RangeSpec * bytes * Headers)%type.

(** ** Interfaces *)

(** [CacheManager::load_range_data_with_cache]: the bytes of a cached range and
    whether RAM had them; looking changes the tier (promotion, statistics). *)
Class RangeTier (St : Type) :=
  load_range_data_with_cache : string -> Range -> stM St ProxyError (bytes * bool).

(** What the tier promises for the ranges it can tell apart: under its invariant a
    load that succeeds returns the bytes of the object version the range names,
    and a range it [holds] loads, now and after any other load. *)
Class RangeTierSpec (St : Type) `{RangeTier St} (object : string -> string -> bytes) := {
  tier_inv : St -> Prop;
  tier_valid : Range -> Prop;
  tier_holds : St -> string -> Range -> Prop;
  tier_load_inv key r : tier_valid r -> preserves tier_inv (load_range_data_with_cache key r);
  tier_load_faithful key r st st' d hit :
    tier_inv st -> tier_valid r -> load_range_data_with_cache key r st = (st', Ok (d, hit)) ->
    d = sub_list (object key (r_etag r)) (r_start r) (r_end r + 1);
  tier_load_total key r st :
    tier_inv st -> tier_valid r -> tier_holds st key r ->
    exists st' d hit, load_range_data_with_cache key r st = (st', Ok (d, hit));
  tier_holds_stable key r st st' res key' r' :
    tier_inv st -> tier_valid r -> load_range_data_with_cache key r st = (st', res) ->
    tier_holds st key' r' -> tier_holds st' key' r';
}.

(** The response of [S3ClientApi::forward_request]; collecting the body may
    fail. *)
Record S3Response := mkResponse {
  status : Z;
  headers : Headers;
  body : option (Result bytes);
}.

(** A GET with the given headers. *)
Class S3Client := forward_request : Headers -> Result S3Response.

(** ** One cached range *)

Section Merge.
Context {St : Type} `{RangeTier St}.

Definition extract_bytes_from_cached_range (cache_key : string) (cached_range : Range)
    (requested_start requested_end : Z) : stM St ProxyError (bytes * bool) :=
  if (r_end cached_range <? requested_start) || (requested_end <? r_start cached_range)
  then lift (Err (InvalidRange "Cached range does not overlap with requested range"))
  else
    let intersection_start := Z.max (r_start cached_range) requested_start in
    let intersection_end := Z.min (r_end cached_range) requested_end in
    let read_offset := u64_sub intersection_start (r_start cached_range) in
    let read_length := u64_add (u64_sub intersection_end intersection_start) 1 in
    let cached_range_size := u64_add (u64_sub (r_end cached_range) (r_start cached_range)) 1 in
    if cached_range_size <=? read_offset
    then lift (Err (InvalidRange "Read offset exceeds cached range size"))
    else if cached_range_size <? u64_add read_offset read_length
    then lift (Err (InvalidRange "Read offset + length exceeds cached range size"))
    else
      '(range_data, ram_hit) ← load_range_data_with_cache cache_key cached_range;
      if negb (zlen range_data =? cached_range_size)
      then lift (Err (CacheError "Cached range data size mismatch"))
      else
        let end_idx := u64_add read_offset read_length in
        if zlen range_data <? end_idx
        then lift (Err (InvalidRange "Extraction range exceeds data length"))
        else
          extracted ← lift (slice range_data read_offset end_idx);
          mret (extracted, ram_hit).

(** ** The merge plan *)

Definition check_if_merge_needed (requested_range : RangeSpec) (cached : list Range)
    (fetched : list FetchedRange) : bool :=
  if negb (bool_decide (cached = [] \/ fetched = [])) then true
  else if 1 <? zlen cached then true
  else if 1 <? zlen fetched then true
  else
    match cached, fetched with
    | [c], _ =>
        if (r_start c =? start requested_range) && (r_end c =? end_ requested_range) then false
        else if (r_start c <=? start requested_range) && (end_ requested_range <=? r_end c)
        then false else true
    | _, [(f, _, _)] =>
        if (start f =? start requested_range) && (end_ f =? end_ requested_range)
        then false else true
    | _, _ => true
    end.

Definition cached_segment (requested_range : RangeSpec) (c : Range) : option RangeMergeSegment :=
  match calculate_overlap (r_start c) (r_end c) (start requested_range) (end_ requested_range) with
  | Some (overlap_start, overlap_end) =>
      Some (mkSegment overlap_start overlap_end
              (Cached c (u64_sub overlap_start (r_start c))
                 (u64_add (u64_sub overlap_end overlap_start) 1)))
  | None => None
  end.

Definition fetched_segment (requested_range : RangeSpec) (f : FetchedRange)
    : option RangeMergeSegment :=
  let '(range_spec, data, _) := f in
  match calculate_overlap (start range_spec) (end_ range_spec)
          (start requested_range) (end_ requested_range) with
  | Some (overlap_start, overlap_end) =>
      Some (mkSegment overlap_start overlap_end (Fetched data range_spec))
  | None => None
  end.

Definition merge_plan (requested_range : RangeSpec) (cached : list Range)
    (fetched : list FetchedRange) : list RangeMergeSegment :=
  sort_by_key output_start
    (omap (cached_segment requested_range) cached ++ omap (fetched_segment requested_range) fetched).

(** The loop over neighbours: [prev_end] is the end of the segment before. *)
Fixpoint check_gaps (prev_end : Z) (segments : list RangeMergeSegment) : Result unit :=
  match segments with
  | [] => Ok tt
  | s :: segments' =>
      if u64_add prev_end 1 <? output_start s
      then Err (CacheError "Gap detected between segments")
      else check_gaps (output_end s) segments'
  end.

Definition validate_segments (requested_range : RangeSpec) (segments : list RangeMergeSegment)
    : Result unit :=
  match segments with
  | [] => Err (CacheError "No segments available for merge")
  | s0 :: rest =>
      if negb (output_start s0 =? start requested_range)
      then Err (CacheError "Gap at start")
      else
        _ ← check_gaps (output_end s0) rest;
        if negb (output_end (List.last segments s0) =? end_ requested_range)
        then Err (CacheError "Gap at end")
        else Ok tt
  end.

(** ** The merge loop *)

Record MergeState := mkMergeState {
  output : bytes;
  from_cache : Z;
  from_s3 : Z;
  current_position : Z;
  all_ram_hits : bool;
}.

(** The bytes [first ..= output_end] of a segment, appended to the output; the
    two branches of the loop differ only in [first]. *)
Definition append_segment (cache_key : string) (m : MergeState) (segment : RangeMergeSegment)
    (first cached_count : Z) : stM St ProxyError MergeState :=
  let last := output_end segment in
  let count := u64_add (u64_sub last first) 1 in
  match source segment with
  | Cached range _ _ =>
      '(bs, hit) ← extract_bytes_from_cached_range cache_key range first last;
      if negb (zlen bs =? count)
      then lift (Err (CacheError "Sliced data size mismatch"))
      else
        mret (mkMergeState (output m ++ bs) (u64_add (from_cache m) cached_count) (from_s3 m)
                (u64_add last 1) (all_ram_hits m && hit))
  | Fetched data range_spec =>
      let data_offset := u64_sub first (start range_spec) in
      let data_end := u64_add data_offset count in
      if zlen data <? data_end
      then lift (Err (CacheError "Fetched data bounds error"))
      else
        bs ← lift (slice data data_offset data_end);
        mret (mkMergeState (output m ++ bs) (from_cache m) (u64_add (from_s3 m) count)
                (u64_add last 1) (all_ram_hits m))
  end.

(** The count added to [bytes_from_cache]: [read_length] of the plan, less the
    skipped bytes. *)
Definition planned_length (segment : RangeMergeSegment) : Z :=
  match source segment with Cached _ _ read_length => read_length | Fetched _ _ => 0 end.

Definition merge_segment (cache_key : string) (m : MergeState) (segment : RangeMergeSegment)
    : stM St ProxyError MergeState :=
  if output_start segment <? current_position m then
    let skip_bytes := u64_sub (current_position m) (output_start segment) in
    let segment_length := u64_add (u64_sub (output_end segment) (output_start segment)) 1 in
    if segment_length <=? skip_bytes then mret m
    else append_segment cache_key m segment (current_position m)
           (u64_sub (planned_length segment) skip_bytes)
  else append_segment cache_key m segment (output_start segment) (planned_length segment).

Fixpoint merge_segments (cache_key : string) (m : MergeState) (segments : list RangeMergeSegment)
    : stM St ProxyError MergeState :=
  match segments with
  | [] => mret m
  | s :: segments' =>
      m' ← merge_segment cache_key m s;
      merge_segments cache_key m' segments'
  end.

Definition merge_range_segments (cache_key : string) (requested_range : RangeSpec)
    (cached : list Range) (fetched : list FetchedRange) : stM St ProxyError RangeMergeResult :=
  let expected_size := u64_add (u64_sub (end_ requested_range) (start requested_range)) 1 in
  let segments := merge_plan requested_range cached fetched in
  _ ← lift (validate_segments requested_range segments);
  m ← merge_segments cache_key (mkMergeState [] 0 0 (start requested_range) true) segments;
  if negb (zlen (output m) =? expected_size)
  then lift (Err (CacheError "Merge size mismatch"))
  else mret (mkMergeResult (output m) (from_cache m) (from_s3 m) (zlen segments)
               (all_ram_hits m && (from_s3 m =? 0))).

End Merge.

(** ** The merge returns the object's bytes *)

Section MergeCorrect.
Context {St : Type} `{Tier : RangeTier St} {object : string -> string -> bytes}.
Context `{Spec : !RangeTierSpec St object}.
Context (key etag : string).

#[local] Abbreviation obj := (object key etag).

Definition cached_faithful (r : Range) : Prop :=
  r_etag r = etag /\ 0 <= r_start r <= r_end r /\ r_end r < U64_MAX /\ tier_valid r.

Definition fetched_faithful (f : FetchedRange) : Prop :=
  let '(rs, d, _) := f in
  0 <= start rs <= end_ rs /\ end_ rs < U64_MAX /\ d = sub_list obj (start rs) (end_ rs + 1).

Definition segment_ok (requested : RangeSpec) (s : RangeMergeSegment) : Prop :=
  start requested <= output_start s <= output_end s /\ output_end s <= end_ requested /\
  match source s with
  | Cached r _ len =>
      cached_faithful r /\ r_start r <= output_start s /\ output_end s <= r_end r /\
      len = output_end s - output_start s + 1
  | Fetched d rs =>
      fetched_faithful (rs, d, []) /\ start rs <= output_start s /\ output_end s <= end_ rs
  end.

Lemma calculate_overlap_Some s1 e1 s2 e2 a b :
  calculate_overlap s1 e1 s2 e2 = Some (a, b) -> s1 <= e1 -> s2 <= e2 ->
  a = Z.max s1 s2 /\ b = Z.min e1 e2 /\ a <= b.
Proof.
  unfold calculate_overlap. destruct (Z.ltb_spec e1 s2), (Z.ltb_spec e2 s1); simpl; try done.
  intros [= <- <-]. lia.
Qed.

Lemma merge_plan_ok requested cached fetched :
  range_wf requested ->
  Forall cached_faithful cached -> Forall fetched_faithful fetched ->
  Forall (segment_ok requested) (merge_plan requested cached fetched).
Proof.
  intros Hreq Hc Hf. unfold merge_plan. apply sort_by_key_Forall, Forall_app.
  rewrite !Forall_forall in *. unfold range_wf, U64_MAX in *. split; intros s Hs.
  - apply list_elem_of_omap in Hs as (r & Hr & Es). specialize (Hc r Hr).
    pose proof Hc as (_ & ? & ? & _). unfold cached_segment, U64_MAX in *.
    destruct (calculate_overlap _ _ _ _) as [[a b] |] eqn:E; [| done]. injection Es as <-.
    apply calculate_overlap_Some in E; [| lia..]. unfold segment_ok; simpl.
    u64. split_and!; try done; lia.
  - apply list_elem_of_omap in Hs as ([[rs d] h] & Hr & Es). specialize (Hf _ Hr).
    pose proof Hf as (? & ? & _). unfold fetched_segment, U64_MAX in *.
    destruct (calculate_overlap _ _ _ _) as [[a b] |] eqn:E; [| done]. injection Es as <-.
    apply calculate_overlap_Some in E; [| lia..]. unfold segment_ok; simpl.
    split_and!; try apply Hf; lia.
Qed.

Lemma extract_Ok r first last st st' bs hit :
  tier_inv st -> cached_faithful r -> r_start r <= first <= last -> last <= r_end r ->
  extract_bytes_from_cached_range key r first last st = (st', Ok (bs, hit)) ->
  bs = sub_list obj first (last + 1) /\ zlen bs = last - first + 1.
Proof.
  intros Hinv (He & Hr & Hmax & Hval) Hf Hl. unfold U64_MAX in *. unfold extract_bytes_from_cached_range.
  destruct (Z.ltb_spec (r_end r) first), (Z.ltb_spec last (r_start r)); try lia. simpl.
  rewrite Z.max_r, Z.min_r by lia. u64.
  bsplit_goal; [lia |]. bsplit_goal; [lia |]. intros Hok. okinv. destruct v as [d h].
  pose proof (tier_load_faithful _ _ _ _ _ _ Hinv Hval E) as Hd. rewrite He in Hd.
  destruct (Z.eqb_spec (zlen d) (r_end r - r_start r + 1)) as [Ed | Ed]; simpl in Hok; [| okinv].
  destruct (Z.ltb_spec (zlen d) (first - r_start r + (last - first + 1))); [okinv |]. okinv.
  match goal with Hs : slice _ _ _ = Ok _ |- _ => apply slice_Ok_inv in Hs as [-> ?] end.
  split; [| rewrite zlen_sub_list; lia].
  rewrite sub_list_sub_list by lia. f_equal; lia.
Qed.

(** The loop invariant: what is written is the object's bytes up to the current
    position, and every written byte is counted once. *)
Definition progress (requested : RangeSpec) (m : MergeState) : Prop :=
  output m = sub_list obj (start requested) (current_position m) /\
  start requested <= current_position m <= end_ requested + 1 /\
  zlen (output m) = current_position m - start requested /\
  0 <= from_cache m /\ 0 <= from_s3 m /\
  from_cache m + from_s3 m = current_position m - start requested.

Lemma append_segment_Ok requested m s cached_count st st' m' :
  tier_inv st -> range_wf requested -> end_ requested < U64_MAX ->
  segment_ok requested s -> progress requested m ->
  output_start s <= current_position m <= output_end s ->
  (forall r o l, source s = Cached r o l -> cached_count = output_end s - current_position m + 1) ->
  append_segment key m s (current_position m) cached_count st = (st', Ok m') ->
  progress requested m' /\ current_position m' = output_end s + 1.
Proof.
  intros Hinv Hreq Hmax (Hs & Hse & Hsrc) (Hout & Hpos & Hlen & Hc & H3 & Hsum) Hin Hcnt Happ.
  unfold append_segment, range_wf, U64_MAX in *.
  assert (forall bs, bs = sub_list obj (current_position m) (output_end s + 1) ->
            output m ++ bs = sub_list obj (start requested) (output_end s + 1)) as Hglue.
  { intros bs ->. rewrite Hout. apply sub_list_app; lia. }
  destruct (source s) as [r o l | d rs] eqn:Esrc.
  - destruct Hsrc as (Hr & Hr1 & Hr2 & _). okinv. destruct v as [bs hit].
    apply extract_Ok in E as [Ebs Elen]; [| done | done | lia | lia].
    specialize (Hcnt _ _ _ eq_refl). subst cached_count. u64_in Happ.
    rewrite Elen, Z.eqb_refl in Happ. simpl in Happ. okinv. unfold progress; simpl.
    rewrite zlen_app, Elen. u64. split_and!; try lia; auto.
  - destruct Hsrc as ((Hrs & Hrm & Hd) & Hs1 & Hs2). unfold U64_MAX in *. u64_in Happ.
    bsplit_hyp; [okinv |]. okinv.
    match goal with Hs : slice _ _ _ = Ok _ |- _ => apply slice_Ok_inv in Hs as [Ebs ?] end.
    assert (zlen v = output_end s - current_position m + 1) as Elen
      by (rewrite Ebs, zlen_sub_list; lia).
    assert (v = sub_list obj (current_position m) (output_end s + 1)) as Ev
      by (rewrite Ebs, sub_list_sub_list by lia; f_equal; lia).
    unfold progress; simpl. rewrite zlen_app, Elen. u64. split_and!; try lia; auto.
Qed.

Lemma merge_segment_Ok requested m s st st' m' :
  tier_inv st -> range_wf requested -> end_ requested < U64_MAX ->
  segment_ok requested s -> progress requested m -> output_start s <= current_position m ->
  merge_segment key m s st = (st', Ok m') ->
  progress requested m' /\ current_position m' = Z.max (current_position m) (output_end s + 1).
Proof.
  intros Hinv Hreq Hmax Hs Hp Hle. unfold merge_segment.
  pose proof Hs as (Hs1 & Hs2 & Hs3). pose proof Hp as (_ & Hpos & _).
  unfold range_wf, U64_MAX in *.
  destruct (Z.ltb_spec (output_start s) (current_position m)).
  - u64. bsplit_goal.
    + intros Hm. okinv. split; [done | lia].
    + intros Happ. eapply append_segment_Ok in Happ as [??]; [| done.. | lia |].
      * split; [done | lia].
      * intros r o l E. unfold planned_length. rewrite E in *. destruct Hs3 as (_ & _ & _ & ->).
        u64. lia.
  - assert (output_start s = current_position m) as E by lia. rewrite E.
    intros Happ. eapply append_segment_Ok in Happ as [??]; [| done.. | lia |].
    + split; [done | lia].
    + intros r o l E'. unfold planned_length. rewrite E' in *. destruct Hs3 as (_ & _ & _ & ->). lia.
Qed.

Lemma tier_extract_inv r a b :
  tier_valid r -> preserves tier_inv (extract_bytes_from_cached_range key r a b).
Proof.
  intros Hr. unfold extract_bytes_from_cached_range. repeat case_match; try apply preserves_lift.
  apply preserves_bind; [by apply tier_load_inv |]. intros [d h].
  repeat case_match; try apply preserves_lift. apply preserves_bind; [apply preserves_lift |].
  intros x. apply preserves_lift.
Qed.

Definition segment_valid (s : RangeMergeSegment) : Prop :=
  match source s with Cached r _ _ => tier_valid r | Fetched _ _ => True end.

Lemma segment_ok_valid requested s : segment_ok requested s -> segment_valid s.
Proof.
  unfold segment_ok, segment_valid. intros (_ & _ & Hs). destruct (source s); [| done].
  by destruct Hs as [(_ & _ & _ & ?) _].
Qed.

Lemma merge_segment_inv m s : segment_valid s -> preserves tier_inv (merge_segment key m s).
Proof.
  unfold segment_valid. intros Hv. unfold merge_segment, append_segment. repeat case_match; try apply (preserves_lift _ (Ok _)).
  all: try apply preserves_lift.
  all: apply preserves_bind; [first [by apply tier_extract_inv | apply preserves_lift] |].
  all: intros x; repeat case_match; try apply preserves_lift; apply (preserves_lift _ (Ok _)).
Qed.

Lemma merge_segments_Ok requested segs : forall m prev_end st st' m',
  tier_inv st -> range_wf requested -> end_ requested < U64_MAX ->
  Forall (segment_ok requested) segs -> progress requested m ->
  -1 <= prev_end -> prev_end + 1 <= current_position m -> check_gaps prev_end segs = Ok tt ->
  merge_segments key m segs st = (st', Ok m') ->
  progress requested m' /\ current_position m <= current_position m' /\
  (forall s, s ∈ segs -> output_end s + 1 <= current_position m').
Proof.
  induction segs as [|s segs IH]; intros m pe st st' m' Hinv Hreq Hmax Hok Hp Hpe0 Hpe Hg Hm;
    cbn [merge_segments check_gaps] in *.
  { okinv. split; [done |]. split; [lia |]. by intros s ?%elem_of_nil. }
  apply Forall_cons_1 in Hok as [Hs Hok]. pose proof Hs as (Hs1 & Hs2 & _). okinv.
  pose proof Hp as (_ & Hpos & _). unfold range_wf, U64_MAX in *. u64_in Hg.
  bsplit_hyp; [done |]. pose proof E as E'. apply merge_segment_inv in E'; [| by eapply segment_ok_valid | done].
  eapply merge_segment_Ok in E as [Hp' Hpos']; [| done.. | lia].
  destruct (IH v (output_end s) _ _ _ E' Hreq Hmax Hok Hp' ltac:(lia) ltac:(lia) Hg Hm)
    as (Hp'' & Hmono & Hend).
  split; [done |]. split; [lia |]. intros x [-> | Hx]%elem_of_cons; [lia | by apply Hend].
Qed.

Lemma validate_segments_Ok requested segs :
  validate_segments requested segs = Ok tt ->
  range_wf requested ->
  check_gaps (start requested - 1) segs = Ok tt /\
  exists s, s ∈ segs /\ output_end s = end_ requested.
Proof.
  intros Hv Hreq. revert Hv. destruct segs as [|s0 rest]; [done |]. unfold validate_segments.
  destruct (Z.eqb_spec (output_start s0) (start requested)) as [E |]; simpl; [| done].
  intros Hv. okinv. destruct v. split.
  { cbn [check_gaps]. rewrite E. unfold range_wf in Hreq. u64. bsplit_goal; [lia | done]. }
  destruct (Z.eqb_spec (output_end (List.last (s0 :: rest) s0)) (end_ requested)) as [El |];
    [| by rewrite (proj2 (Z.eqb_neq _ _)) in Hv].
  exists (List.last (s0 :: rest) s0). split; [| done].
  apply list_elem_of_In. destruct (@exists_last _ (s0 :: rest)) as (l' & a & El'); [done |].
  rewrite El', last_last. apply in_app_iff. right. by left.
Qed.

Lemma progress_init requested :
  range_wf requested -> progress requested (mkMergeState [] 0 0 (start requested) true).
Proof.
  unfold range_wf, progress. simpl. intros. rewrite sub_list_nil by lia. rewrite zlen_nil.
  split_and!; [done | lia..].
Qed.

Lemma merge_range_segments_inv requested cached fetched st st' res :
  merge_range_segments key requested cached fetched st = (st', Ok res) ->
  let segments := merge_plan requested cached fetched in
  exists m, validate_segments requested segments = Ok tt /\
    merge_segments key (mkMergeState [] 0 0 (start requested) true) segments st = (st', Ok m) /\
    res = mkMergeResult (output m) (from_cache m) (from_s3 m) (zlen segments)
            (all_ram_hits m && (from_s3 m =? 0)).
Proof.
  unfold merge_range_segments, lift. intros Hm.
  apply stM_bind_Ok in Hm as (s1 & [] & Hv & Hm). injection Hv as <- Hv.
  apply stM_bind_Ok in Hm as (s2 & m & Hs & Hm). exists m.
  destruct (negb _); [discriminate |]. unfold mret, stM_ret in Hm. injection Hm as <- <-. done.
Qed.

(** A validated plan, once merged, has written the whole request. *)
Lemma merge_loop_end requested segs st st' m :
  tier_inv st -> range_wf requested -> end_ requested < U64_MAX ->
  Forall (segment_ok requested) segs -> validate_segments requested segs = Ok tt ->
  merge_segments key (mkMergeState [] 0 0 (start requested) true) segs st = (st', Ok m) ->
  progress requested m /\ current_position m = end_ requested + 1.
Proof.
  intros Hinv Hreq Hmax Hok Hv Hm.
  apply validate_segments_Ok in Hv as (Hg & s & Hs & Hend); [| done].
  eapply (merge_segments_Ok requested _ _ (start requested - 1)) in Hm as (Hp & _ & Hall); try done;
    [| by apply progress_init | unfold range_wf in Hreq; lia | simpl; lia].
  split; [done |]. specialize (Hall s Hs). destruct Hp as (_ & Hpos & _). lia.
Qed.

Lemma merge_sound requested cached fetched st st' res :
  tier_inv st -> range_wf requested -> end_ requested < U64_MAX ->
  Forall cached_faithful cached -> Forall fetched_faithful fetched ->
  merge_range_segments key requested cached fetched st = (st', Ok res) ->
  data res = sub_list obj (start requested) (end_ requested + 1) /\
  zlen (data res) = end_ requested - start requested + 1 /\
  bytes_from_cache res + bytes_from_s3 res = zlen (data res) /\
  (ram_hit res = true -> bytes_from_s3 res = 0).
Proof.
  intros Hinv Hreq Hmax Hc Hf Hm.
  apply merge_range_segments_inv in Hm as (m & Hv & Hm & ->).
  pose proof (merge_plan_ok requested cached fetched Hreq Hc Hf) as Hok.
  destruct (merge_loop_end _ _ _ _ _ Hinv Hreq Hmax Hok Hv Hm) as
    [(Hout & Hpos & Hlen & _ & _ & Hsum) Epos]. simpl.
  rewrite Epos in *. split_and!; [done | lia | lia |].
  intros [_ ?%Z.eqb_eq]%andb_true_iff. done.
Qed.

(** C1: a merged response is the object.  Whatever cached and fetched ranges are
    combined, in whatever order and however they overlap, a merge that succeeds
    returns exactly the requested bytes of the object version the ranges belong
    to; each byte is counted once, as served by the cache or as fetched; and a
    RAM hit is reported only when nothing was fetched. *)
Theorem merge_returns_object_bytes requested cached fetched st st' res :
  tier_inv st -> range_wf requested -> end_ requested < U64_MAX ->
  Forall cached_faithful cached -> Forall fetched_faithful fetched ->
  merge_range_segments key requested cached fetched st = (st', Ok res) ->
  data res = sub_list obj (start requested) (end_ requested + 1) /\
  zlen (data res) = end_ requested - start requested + 1 /\
  bytes_from_cache res + bytes_from_s3 res = zlen (data res) /\
  (ram_hit res = true -> bytes_from_s3 res = 0).
Proof. apply merge_sound. Qed.

Lemma merge_range_segments_tier requested cached fetched :
  range_wf requested -> Forall cached_faithful cached -> Forall fetched_faithful fetched ->
  preserves tier_inv (merge_range_segments key requested cached fetched).
Proof.
  intros Hreq Hc Hf. pose proof (merge_plan_ok requested cached fetched Hreq Hc Hf) as Hok.
  unfold merge_range_segments. apply preserves_bind; [apply preserves_lift |]. intros _.
  apply preserves_bind.
  - generalize (mkMergeState [] 0 0 (start requested) true).
    induction Hok as [|s segs Hs _ IH]; intros m; cbn [merge_segments].
    + apply (preserves_lift _ (Ok _)).
    + apply preserves_bind; [by eapply merge_segment_inv, segment_ok_valid | done].
  - intros m. destruct (negb _); [apply preserves_lift | apply (preserves_lift _ (Ok _))].
Qed.

(** ** When the merge succeeds *)

(** The range is cached, loadable and inside the object. *)
Definition cached_available (st : St) (r : Range) : Prop :=
  cached_faithful r /\ r_end r < zlen obj /\ tier_holds st key r.

Definition segment_available (st : St) (s : RangeMergeSegment) : Prop :=
  match source s with
  | Cached r _ _ => cached_available st r
  | Fetched _ rs => end_ rs < zlen obj
  end.

Lemma extract_total r first last st :
  tier_inv st -> cached_available st r -> r_start r <= first <= last -> last <= r_end r ->
  exists st' bs hit, extract_bytes_from_cached_range key r first last st = (st', Ok (bs, hit)) /\
    forall r', tier_holds st key r' -> tier_holds st' key r'.
Proof.
  intros Hinv ((He & Hr & Hmax & Hval) & Hsz & Hh) Hf Hl. unfold extract_bytes_from_cached_range, U64_MAX in *.
  destruct (Z.ltb_spec (r_end r) first), (Z.ltb_spec last (r_start r)); try lia. simpl.
  rewrite Z.max_r, Z.min_r by lia. u64.
  bsplit_goal; [lia |]. bsplit_goal; [lia |].
  destruct (tier_load_total key r st Hinv Hval Hh) as (st' & d & hit & Hload).
  pose proof (tier_load_faithful _ _ _ _ _ _ Hinv Hval Hload) as Hd. rewrite He in Hd.
  assert (zlen d = r_end r - r_start r + 1) as Hlen by (rewrite Hd, zlen_sub_list; lia).
  unfold mbind at 1, stM_bind at 1. rewrite Hload, Hlen, Z.eqb_refl. simpl.
  bsplit_goal; [lia |]. unfold mbind, stM_bind, lift. rewrite slice_Ok by lia.
  eexists _, _, _. split; [done |]. intros r'. by apply (tier_holds_stable _ _ _ _ _ _ _ Hinv Hval Hload).
Qed.

Lemma append_segment_total requested m s n st :
  tier_inv st -> range_wf requested -> end_ requested < U64_MAX -> segment_ok requested s ->
  segment_available st s -> output_start s <= current_position m <= output_end s ->
  exists st' m', append_segment key m s (current_position m) n st = (st', Ok m') /\
    forall r', tier_holds st key r' -> tier_holds st' key r'.
Proof.
  intros Hinv Hreq Hmax (Hs & Hse & Hsrc) Hav Hpos.
  unfold append_segment, segment_available, range_wf, U64_MAX in *.
  destruct (source s) as [r o l | d rs].
  - destruct Hsrc as (Hr & Hr1 & Hr2 & _).
    destruct (extract_total r (current_position m) (output_end s) st) as (st' & bs & hit & E & Hst);
      [done | done | lia | lia |].
    pose proof E as E'. apply extract_Ok in E' as [_ Elen]; [| done | done | lia | lia].
    unfold mbind, stM_bind. rewrite E. u64. rewrite Elen, Z.eqb_refl. simpl. by eexists _, _.
  - destruct Hsrc as ((Hrs & Hrm & Hd) & Hs1 & Hs2). unfold U64_MAX in *.
    assert (zlen d = end_ rs + 1 - start rs) by (rewrite Hd, zlen_sub_list; lia).
    u64. bsplit_goal; [lia |]. unfold mbind, stM_bind, lift. rewrite slice_Ok by lia. by eexists _, _.
Qed.

Lemma merge_segment_total requested m s st :
  tier_inv st -> range_wf requested -> end_ requested < U64_MAX -> segment_ok requested s ->
  segment_available st s -> output_start s <= current_position m <= end_ requested + 1 ->
  exists st' m', merge_segment key m s st = (st', Ok m') /\
    forall r', tier_holds st key r' -> tier_holds st' key r'.
Proof.
  intros Hinv Hreq Hmax Hs Hav Hpos. pose proof Hs as (Hs1 & Hs2 & _). unfold merge_segment.
  unfold range_wf, U64_MAX in *. bsplit_goal.
  - u64. bsplit_goal; [by eexists _, _ |]. eapply append_segment_total; [done.. | lia].
  - assert (output_start s = current_position m) as -> by lia.
    eapply append_segment_total; [done.. | lia].
Qed.

Lemma merge_segments_total requested segs : forall m prev_end st,
  tier_inv st -> range_wf requested -> end_ requested < U64_MAX ->
  Forall (segment_ok requested) segs -> Forall (segment_available st) segs ->
  progress requested m -> -1 <= prev_end -> prev_end + 1 <= current_position m ->
  check_gaps prev_end segs = Ok tt ->
  exists st' m', merge_segments key m segs st = (st', Ok m').
Proof.
  induction segs as [|s segs IH]; intros m pe st Hinv Hreq Hmax Hok Hav Hp Hpe0 Hpe Hg;
    cbn [merge_segments check_gaps] in *; [by eexists _, _ |].
  apply Forall_cons_1 in Hok as [Hs Hok]. apply Forall_cons_1 in Hav as [Ha Hav].
  pose proof Hs as (Hs1 & Hs2 & _). pose proof Hp as (_ & Hpos & _).
  assert (output_start s <= pe + 1) as Hle.
  { unfold range_wf, U64_MAX in *. u64_in Hg. bsplit_hyp; [done | lia]. }
  destruct (Z.ltb _ _) in Hg; [done |].
  destruct (merge_segment_total requested m s st) as (st1 & m1 & E & Hst); [done.. | lia |].
  pose proof E as E'. apply merge_segment_inv in E'; [| by eapply segment_ok_valid | done].
  pose proof E as Em. eapply merge_segment_Ok in Em as [Hp1 Hpos1]; [| done.. | lia].
  destruct (IH m1 (output_end s) st1) as (st' & m' & Hm); [done.. | | done | | lia | done |].
  - eapply Forall_impl; [exact Hav |]. intros x. unfold segment_available, cached_available.
    destruct (source x); [| done]. intros (? & ? & ?). auto.
  - unfold range_wf in Hreq. lia.
  - exists st', m'. unfold mbind, stM_bind. by rewrite E.
Qed.

(** No segment ends before one that starts no later. *)
Definition no_nesting (segs : list RangeMergeSegment) : Prop :=
  forall a b, a ∈ segs -> b ∈ segs -> output_start a <= output_start b -> output_end a <= output_end b.

Definition seg_range (s : RangeMergeSegment) : RangeSpec := mkRange (output_start s) (output_end s).

Lemma check_gaps_ok requested prev rest :
  range_wf requested -> end_ requested < U64_MAX ->
  Forall (fun s => start requested <= output_start s <= output_end s /\ output_end s <= end_ requested)
    (prev :: rest) ->
  StronglySorted (key_le output_start) (prev :: rest) -> no_nesting (prev :: rest) ->
  (forall x, output_end prev < x <= end_ requested -> covered (seg_range <$> rest) x) ->
  check_gaps (output_end prev) rest = Ok tt.
Proof.
  intros Hreq Hmax. unfold range_wf, U64_MAX in *.
  revert prev. induction rest as [|s rest IH]; intros prev Hb Hs Hn Hc; [done |].
  cbn [check_gaps]. apply Forall_cons_1 in Hb as [Hbp Hb]. pose proof (Forall_inv Hb) as Hbs.
  simpl in Hbs. apply StronglySorted_inv in Hs as [Hs Hps]. u64.
  assert (output_start s <= output_end prev + 1).
  { destruct (Z.eq_dec (output_end prev) (end_ requested)) as [E | E]; [lia |].
    specialize (Hc (output_end prev + 1) ltac:(lia)).
    apply StronglySorted_inv in Hs as [_ Hs]. rewrite fmap_cons in Hc.
    apply covered_cons in Hc as [Hc | Hc]; unfold covers in Hc; simpl in Hc; [lia |].
    unfold covered in Hc. rewrite Exists_fmap, Exists_exists in Hc. destruct Hc as (t & Ht & Hc).
    rewrite Forall_forall in Hs. specialize (Hs t Ht). unfold covers, key_le in *. simpl in Hc. lia. }
  bsplit_goal; [lia |]. apply IH; [done | done | |].
  - intros a b Ha Hb'. apply Hn; by right.
  - intros x Hx. pose proof (Forall_inv Hps) as Hpl. unfold key_le in Hpl.
    specialize (Hn prev s ltac:(left) ltac:(right; left) Hpl).
    specialize (Hc x ltac:(lia)). rewrite fmap_cons in Hc.
    apply covered_cons in Hc as [Hc | Hc]; [unfold covers in Hc; simpl in Hc; lia | done].
Qed.

Lemma validate_segments_complete requested segs :
  range_wf requested -> end_ requested < U64_MAX ->
  Forall (fun s => start requested <= output_start s <= output_end s /\ output_end s <= end_ requested)
    segs ->
  StronglySorted (key_le output_start) segs -> no_nesting segs ->
  (forall x, covers requested x -> covered (seg_range <$> segs) x) ->
  validate_segments requested segs = Ok tt.
Proof.
  intros Hreq Hmax Hb Hs Hn Hc. destruct segs as [|s0 rest].
  { specialize (Hc (start requested) (range_wf_covers_start _ Hreq)). by apply covered_nil in Hc. }
  assert (forall x, covers requested x -> exists s, s ∈ s0 :: rest /\ output_start s <= x <= output_end s)
    as Hcov.
  { intros x Hx. specialize (Hc x Hx). unfold covered in Hc.
    rewrite Exists_fmap, Exists_exists in Hc. exact Hc. }
  pose proof Hs as Hs'. apply StronglySorted_inv in Hs' as [_ H0]. rewrite Forall_forall in Hb, H0.
  unfold validate_segments. cbn [negb]. assert (output_start s0 = start requested) as E0.
  { destruct (Hcov (start requested) (range_wf_covers_start _ Hreq)) as (s & Hin & Hx).
    pose proof (Hb s0 ltac:(left)). apply elem_of_cons in Hin as [-> | Hin]; [lia |].
    specialize (H0 s Hin). unfold key_le in H0. lia. }
  rewrite E0, Z.eqb_refl. cbn [negb].
  rewrite (check_gaps_ok requested s0 rest Hreq Hmax); [| by apply Forall_forall | done | done |].
  - cbn [mbind outcome_bind]. destruct (Hcov (end_ requested)) as (s & Hin & Hx).
    { unfold covers, range_wf in *. lia. }
    destruct (@exists_last _ (s0 :: rest)) as (l' & a & El); [done |].
    rewrite El, last_last. assert (output_end a = end_ requested) as ->.
    { assert (a ∈ s0 :: rest) as Ha by (rewrite El; apply elem_of_app; right; left).
      assert (output_start s <= output_start a) as Hsa.
      { rewrite El in Hin. apply elem_of_app in Hin as [Hin | ->%list_elem_of_singleton]; [| lia].
        rewrite El in Hs. by apply (StronglySorted_app_1_elem_of _ _ _ _ _ Hs Hin ltac:(left)). }
      rewrite El in Hin, Ha. specialize (Hn s a). rewrite El in Hn. specialize (Hn Hin Ha Hsa).
      rewrite <- El in Ha. specialize (Hb a Ha). lia. }
    by rewrite Z.eqb_refl.
  - intros x Hx. pose proof (Hb s0 ltac:(left)).
    specialize (Hc x ltac:(unfold covers, range_wf in *; lia)). rewrite fmap_cons in Hc.
    apply covered_cons in Hc as [Hc | Hc]; [unfold covers in Hc; simpl in Hc; lia | done].
Qed.

(** Cached ranges that overlap the request, none nested in another within it. *)
Definition staircase (requested : RangeSpec) (cached : list Range) : Prop :=
  Forall (fun r => ranges_overlap requested (mkRange (r_start r) (r_end r)) = true) cached /\
  forall a b, a ∈ cached -> b ∈ cached ->
    start (covered_part requested a) <= start (covered_part requested b) ->
    end_ (covered_part requested a) <= end_ (covered_part requested b).

(** What S3 returns for each missing range. *)
Definition fetch_of (h : RangeSpec -> Headers) (m : RangeSpec) : FetchedRange :=
  (m, sub_list obj (start m) (end_ m + 1), h m).

Lemma covered_part_wf requested r :
  range_wf requested -> cached_faithful r ->
  ranges_overlap requested (mkRange (r_start r) (r_end r)) = true ->
  range_wf (covered_part requested r) /\ within requested (covered_part requested r).
Proof.
  unfold range_wf, cached_faithful, ranges_overlap, within, U64_MAX. simpl. intros Hreq Hr Ho.
  apply negb_true_iff, orb_false_iff in Ho as [?%Z.ltb_ge ?%Z.ltb_ge]. lia.
Qed.

(** The bounds of the plan's segments: the covered parts and the missing ranges. *)
Lemma plan_segments requested cached h missing :
  range_wf requested -> Forall cached_faithful cached ->
  Forall (fun r => ranges_overlap requested (mkRange (r_start r) (r_end r)) = true) cached ->
  Forall range_wf missing -> Forall (within requested) missing ->
  seg_range <$> (omap (cached_segment requested) cached ++
                 omap (fetched_segment requested) (fetch_of h <$> missing))
  = (covered_part requested <$> cached) ++ missing.
Proof.
  intros Hreq Hc Ho Hm Hw. rewrite fmap_app. f_equal.
  - induction cached as [|r cached IH]; [done |].
    apply Forall_cons_1 in Hc as [Hr Hc]. apply Forall_cons_1 in Ho as [Hor Ho].
    cbn [omap list_omap]. rewrite fmap_cons, <- (IH Hc Ho).
    unfold cached_segment, calculate_overlap. unfold ranges_overlap in Hor. simpl in Hor.
    rewrite orb_comm in Hor. apply negb_true_iff in Hor. rewrite Hor. rewrite fmap_cons. f_equal.
    unfold seg_range, covered_part; simpl. f_equal; lia.
  - induction missing as [|m missing IH]; [done |].
    apply Forall_cons_1 in Hm as [Hm1 Hm]. apply Forall_cons_1 in Hw as [Hw1 Hw].
    specialize (IH Hm Hw). rewrite fmap_cons. cbn [omap list_omap].
    unfold fetched_segment at 1, fetch_of at 1. unfold calculate_overlap, range_wf, within in *.
    destruct (Z.ltb_spec (end_ m) (start requested)), (Z.ltb_spec (end_ requested) (start m));
      try lia. cbn [orb]. rewrite fmap_cons. f_equal; [| exact IH].
    unfold seg_range; simpl. destruct m; simpl in *. f_equal; lia.
Qed.
Lemma missing_within requested cached :
  range_wf requested -> end_ requested < U64_MAX -> Forall cached_faithful cached ->
  staircase requested cached ->
  let missing := missing_ranges (overlap_of requested cached CacheTypes.Fresh) in
  (forall x, covered missing x <->
     covers requested x /\ ~ covered (covered_part requested <$> cached) x) /\
  normalized missing /\ Forall (within requested) missing.
Proof.
  intros Hreq Hmax Hc [Ho _]. simpl.
  assert (Forall range_wf (covered_part requested <$> cached) /\
          Forall (within requested) (covered_part requested <$> cached)) as [Hw Hin].
  { rewrite !Forall_fmap, !Forall_forall. rewrite Forall_forall in Hc, Ho.
    split; intros r Hr; apply covered_part_wf; auto. }
  destruct (calculate_missing_ranges_spec requested _ Hreq Hmax Hw Hin) as [Hcov Hn].
  split; [done |]. split; [done |].
  eapply Forall_impl; [by apply calculate_missing_ranges_inside |]. by intros m [].
Qed.

(** Disjoint from the coverage and from each other, the missing ranges keep the
    plan free of nesting. *)
Lemma staircase_no_nesting requested cached h :
  range_wf requested -> end_ requested < U64_MAX -> Forall cached_faithful cached ->
  staircase requested cached ->
  let missing := missing_ranges (overlap_of requested cached CacheTypes.Fresh) in
  no_nesting (merge_plan requested cached (fetch_of h <$> missing)).
Proof.
  intros Hreq Hmax Hc Hst missing.
  destruct (missing_within requested cached Hreq Hmax Hc Hst) as (Hcov & [Hmw Hms] & Hwi).
  fold missing in Hcov, Hmw, Hms, Hwi. pose proof Hst as [Ho Hnest].
  pose proof (plan_segments requested cached h missing Hreq Hc Ho Hmw Hwi) as Hseg.
  assert (forall s, s ∈ merge_plan requested cached (fetch_of h <$> missing) ->
            seg_range s ∈ (covered_part requested <$> cached) ++ missing) as Hin.
  { intros s Hs. rewrite <- Hseg. apply list_elem_of_fmap_2. unfold merge_plan in Hs.
    by rewrite sort_by_key_perm in Hs. }
  assert (forall a b, a ∈ covered_part requested <$> cached -> b ∈ missing ->
            range_wf a -> end_ a < start b \/ end_ b < start a) as Hdis.
  { intros a b Ha Hb Hwa. rewrite Forall_forall in Hmw. pose proof (Hmw b Hb) as Hwb.
    destruct (Z.lt_ge_cases (end_ a) (start b)); [by left |].
    destruct (Z.lt_ge_cases (end_ b) (start a)); [by right |]. exfalso.
    unfold range_wf in *. assert (covered missing (Z.max (start a) (start b))) as Hx.
    { apply Exists_exists. exists b. unfold covers. split; [done | lia]. }
    apply Hcov in Hx as [_ Hx]. apply Hx, Exists_exists. exists a. unfold covers. split; [done | lia]. }
  assert (forall a, a ∈ covered_part requested <$> cached -> range_wf a) as Hcw.
  { intros a (r & -> & Hr)%list_elem_of_fmap. rewrite Forall_forall in Hc, Ho.
    apply covered_part_wf; auto. }
  rewrite Forall_forall in Hmw.
  intros a b Ha Hb Hle. apply Hin in Ha, Hb. change (end_ (seg_range a) <= end_ (seg_range b)).
  change (start (seg_range a) <= start (seg_range b)) in Hle.
  generalize dependent (seg_range a). generalize dependent (seg_range b). clear a b.
  intros b Hb a Ha Hle. apply elem_of_app in Ha as [Ha | Ha], Hb as [Hb | Hb].
  - apply list_elem_of_fmap in Ha as (ra & -> & Ha), Hb as (rb & -> & Hb). by apply Hnest.
  - pose proof (Hdis a b Ha Hb (Hcw a Ha)). pose proof (Hcw a Ha). pose proof (Hmw b Hb).
    unfold range_wf in *. lia.
  - pose proof (Hdis b a Hb Ha (Hcw b Hb)). pose proof (Hcw b Hb). pose proof (Hmw a Ha).
    unfold range_wf in *. lia.
  - pose proof (Hmw a Ha). pose proof (Hmw b Hb). unfold range_wf in *.
    destruct (decide (a = b)) as [-> | Hne]; [lia |].
    apply list_elem_of_split in Ha as (l1 & l2 & E). rewrite E in Hms, Hb.
    apply elem_of_app in Hb as [Hb | Hb%elem_of_cons].
    + pose proof (StronglySorted_app_1_elem_of _ _ _ _ _ Hms Hb ltac:(left)) as Hsep.
      unfold separated in Hsep. lia.
    + destruct Hb as [-> | Hb]; [done |]. apply StronglySorted_app_1_r in Hms.
      apply StronglySorted_inv in Hms as [_ Hms]. rewrite Forall_forall in Hms.
      specialize (Hms b Hb). unfold separated in Hms. lia.
Qed.

Lemma plan_available requested st cached h missing :
  Forall (cached_available st) cached -> Forall (within requested) missing ->
  end_ requested < zlen obj ->
  Forall (segment_available st) (merge_plan requested cached (fetch_of h <$> missing)).
Proof.
  intros Hc Hm Hsz. unfold merge_plan. apply sort_by_key_Forall, Forall_app.
  rewrite !Forall_forall in *. split; intros s Hs.
  - apply list_elem_of_omap in Hs as (r & Hr & Es). unfold cached_segment in Es.
    destruct (calculate_overlap _ _ _ _) as [[a b] |]; [| done]. injection Es as <-.
    by apply Hc.
  - apply list_elem_of_omap in Hs as (f & (m & -> & Hin)%list_elem_of_fmap & Es).
    unfold fetched_segment, fetch_of in Es.
    destruct (calculate_overlap _ _ _ _) as [[a b] |]; [| done]. injection Es as <-.
    specialize (Hm m Hin). unfold segment_available, within in *; simpl. lia.
Qed.

Lemma append_segment_cached_s3 s r o l m a n st st' m' :
  source s = Cached r o l -> append_segment key m s a n st = (st', Ok m') -> from_s3 m' = from_s3 m.
Proof.
  intros Es. unfold append_segment. rewrite Es. intros Hx.
  apply stM_bind_Ok in Hx as (s2 & [bs hit] & _ & Hx). by destruct (negb _); okinv.
Qed.

Lemma merge_segments_cached_only segs : forall m st st' m',
  Forall (fun s => exists r o l, source s = Cached r o l) segs ->
  merge_segments key m segs st = (st', Ok m') -> from_s3 m' = from_s3 m.
Proof.
  induction segs as [|s segs IH]; intros m st st' m' Hc Hm; cbn [merge_segments] in Hm; [by okinv |].
  apply Forall_cons_1 in Hc as [(r & o & l & Es) Hc].
  apply stM_bind_Ok in Hm as (st1 & m1 & E & Hm). rewrite (IH _ _ _ _ Hc Hm).
  unfold merge_segment in E. repeat case_match; [by okinv | by eapply append_segment_cached_s3..].
Qed.

(** A plan whose segments are all available and pass validation is merged. *)
Lemma merge_succeeds requested cached fetched st :
  let plan := merge_plan requested cached fetched in
  tier_inv st -> range_wf requested -> end_ requested < U64_MAX ->
  Forall (segment_ok requested) plan -> Forall (segment_available st) plan ->
  validate_segments requested plan = Ok tt ->
  exists st' res, merge_range_segments key requested cached fetched st = (st', Ok res) /\
    data res = sub_list obj (start requested) (end_ requested + 1) /\
    (Forall (fun s => exists r o l, source s = Cached r o l) plan -> bytes_from_s3 res = 0).
Proof.
  intros plan Hinv Hreq Hmax Hok Hav Hv. destruct (validate_segments_Ok _ _ Hv Hreq) as [Hg _].
  destruct (merge_segments_total requested plan (mkMergeState [] 0 0 (start requested) true)
    (start requested - 1) st) as (st' & m & Hm); try done;
    [by apply progress_init | unfold range_wf in Hreq; lia | simpl; lia |].
  destruct (merge_loop_end _ _ _ _ _ Hinv Hreq Hmax Hok Hv Hm) as [(Hout & _ & Hlen & _) Epos].
  rewrite Epos in *. unfold merge_range_segments. fold plan.
  unfold mbind, stM_bind, lift. rewrite Hv, Hm, Hlen. unfold range_wf, U64_MAX in *. u64.
  rewrite (proj2 (Z.eqb_eq _ _)) by lia. simpl. eexists _, _. split; [done |]. split; [done |].
  intros Hall. simpl. by rewrite (merge_segments_cached_only _ _ _ _ _ Hall Hm).
Qed.

(** The missing ranges complete the coverage, so the plan passes validation. *)
Lemma partial_hit_plan_valid requested cached h :
  range_wf requested -> end_ requested < U64_MAX -> Forall cached_faithful cached ->
  staircase requested cached ->
  let missing := missing_ranges (overlap_of requested cached CacheTypes.Fresh) in
  Forall fetched_faithful (fetch_of h <$> missing) /\
  validate_segments requested (merge_plan requested cached (fetch_of h <$> missing)) = Ok tt.
Proof.
  intros Hreq Hmax Hc Hst missing.
  destruct (missing_within requested cached Hreq Hmax Hc Hst) as (Hcov & [Hmw _] & Hwi).
  pose proof (staircase_no_nesting requested cached h Hreq Hmax Hc Hst) as Hnn.
  fold missing in Hcov, Hmw, Hwi, Hnn.
  assert (Forall fetched_faithful (fetch_of h <$> missing)) as Hf.
  { rewrite Forall_fmap, Forall_forall. rewrite Forall_forall in Hmw, Hwi. intros m Hm.
    specialize (Hmw m Hm). specialize (Hwi m Hm). unfold range_wf, within, U64_MAX in *.
    unfold fetched_faithful, fetch_of, U64_MAX; simpl. split_and!; [lia.. | done]. }
  split; [done |]. apply validate_segments_complete; [done | done | | apply sort_by_key_sorted | done |].
  - eapply Forall_impl; [by apply merge_plan_ok |]. by intros s (? & ? & _).
  - intros x Hx. unfold merge_plan.
    rewrite sort_by_key_perm, (plan_segments _ _ _ _ Hreq Hc (proj1 Hst) Hmw Hwi), covered_app, Hcov.
    destruct (decide (covered (covered_part requested <$> cached) x)); tauto.
Qed.

(** C3: a partial hit is always completed.  Take cached ranges that overlap the
    request with none nested inside another, fetch exactly the ranges
    [find_cached_ranges] reports missing, and the merge succeeds, returning the
    requested bytes of the object, the missing bytes being exactly those counted
    as fetched. *)
Theorem partial_hit_merge_succeeds requested cached freshness h st :
  tier_inv st -> range_wf requested -> end_ requested < U64_MAX -> end_ requested < zlen obj ->
  Forall (cached_available st) cached -> staircase requested cached ->
  let o := overlap_of requested cached freshness in
  exists st' res,
    merge_range_segments key requested (cached_ranges o) (fetch_of h <$> missing_ranges o) st
      = (st', Ok res) /\
    data res = sub_list obj (start requested) (end_ requested + 1) /\
    (can_serve_from_cache o = true -> bytes_from_s3 res = 0).
Proof.
  intros Hinv Hreq Hmax Hsz Hav Hst o.
  assert (Forall cached_faithful cached) as Hc.
  { eapply Forall_impl; [exact Hav |]. by intros r (? & _). }
  destruct (missing_within requested cached Hreq Hmax Hc Hst) as (_ & _ & Hwi).
  destruct (partial_hit_plan_valid requested cached h Hreq Hmax Hc Hst) as [Hf Hv].
  destruct (merge_succeeds requested cached (fetch_of h <$> missing_ranges o) st)
    as (st' & res & Hm & Hd & Hz); [done.. | by apply merge_plan_ok | by apply plan_available | done |].
  exists st', res. split; [done |]. split; [done |]. intros Hserve. apply Hz.
  unfold o, overlap_of in Hserve |- *. simpl in *. apply bool_decide_eq_true in Hserve as ->.
  unfold merge_plan. simpl. rewrite app_nil_r. apply sort_by_key_Forall, Forall_forall.
  intros s (r & _ & Es)%list_elem_of_omap. unfold cached_segment in Es. repeat case_match; simplify_eq.
  simpl. eauto.
Qed.

End MergeCorrect.

(** ** A concrete tier

    Ten bytes of one object, always in RAM. *)

Definition sample_object (_ _ : string) : bytes :=
  [Byte.x00; Byte.x01; Byte.x02; Byte.x03; Byte.x04; Byte.x05; Byte.x06; Byte.x07; Byte.x08; Byte.x09].

#[local] Instance sample_tier : RangeTier unit := fun key r st =>
  (st, Ok (sub_list (sample_object key (r_etag r)) (r_start r) (r_end r + 1), true)).

#[local] Instance sample_tier_spec : RangeTierSpec unit sample_object.
Proof.
  refine {| tier_inv _ := True; tier_valid _ := True; tier_holds _ _ _ := True |}.
  - done.
  - intros key r st st' d hit _ _ [= <- <- <-]. done.
  - intros key r st _ _ _. eexists _, _, _. reflexivity.
  - done.
Defined.

Definition sample_range (a b : Z) : Range := mkCachedRange a b [] "v1" "" NoCompression.

Lemma merge_returns_object_bytes_witness :
  let res := mkMergeResult [Byte.x02; Byte.x03; Byte.x04; Byte.x05; Byte.x06; Byte.x07] 3 3 3 false in
  merge_range_segments (St:=unit) "k" (mkRange 2 7) [sample_range 5 9; sample_range 0 3]
      [(mkRange 4 6, [Byte.x04; Byte.x05; Byte.x06], [])] tt = (tt, Ok res) /\
  data res = sub_list (sample_object "k" "v1") 2 8.
Proof.
  split; [vm_compute; reflexivity |].
  apply (merge_returns_object_bytes (St:=unit) "k" "v1" (mkRange 2 7)
    [sample_range 5 9; sample_range 0 3] [(mkRange 4 6, [Byte.x04; Byte.x05; Byte.x06], [])] tt tt).
  - exact I.
  - unfold range_wf; simpl; lia.
  - unfold U64_MAX; simpl; lia.
  - repeat constructor; simpl; lia.
  - repeat constructor; simpl; lia.
  - vm_compute; reflexivity.
Defined.

Lemma partial_hit_merge_succeeds_witness :
  exists st' res, merge_range_segments (St:=unit) "k" (mkRange 0 9) [sample_range 0 3; sample_range 3 6]
      [(mkRange 7 9, [Byte.x07; Byte.x08; Byte.x09], [])] tt = (st', Ok res) /\
    data res = sample_object "k" "v1".
Proof.
  destruct (partial_hit_merge_succeeds (St:=unit) "k" "v1" (mkRange 0 9)
    [sample_range 0 3; sample_range 3 6] CacheTypes.Fresh (fun _ => []) tt) as (st' & res & Hm & Hd & _).
  - exact I.
  - unfold range_wf; simpl; lia.
  - unfold U64_MAX; simpl; lia.
  - reflexivity.
  - repeat constructor; simpl; lia.
  - split; [repeat constructor |].
    intros a b Ha Hb. repeat (apply elem_of_cons in Ha as [-> | Ha] || apply elem_of_cons in Hb as [-> | Hb]);
      try (by apply elem_of_nil in Ha); try (by apply elem_of_nil in Hb); simpl; lia.
  - exists st', res. split; [exact Hm | exact Hd].
Defined.

(** A cached range nested in another makes the merge refuse a request it has
    every byte for.  The gap test compares each segment with the one before it,
    not with the bytes written so far: with [outer] reaching further than
    [inner], which starts inside it, and the rest of the request fetched right
    after [outer], the plan covers the request and the merge answers with a gap
    error, so the whole range is fetched from S3 again. *)
Theorem nested_range_reported_as_gap {St} `{RangeTier St} key requested outer inner d h st :
  range_wf requested -> end_ requested < U64_MAX ->
  r_start outer = start requested -> r_end outer < end_ requested ->
  r_start outer < r_start inner <= r_end inner -> r_end inner < r_end outer ->
  let tail := mkRange (r_end outer + 1) (end_ requested) in
  missing_ranges (overlap_of requested [outer; inner] CacheTypes.Fresh) = [tail] /\
  merge_range_segments key requested [outer; inner] [(tail, d, h)] st
    = (st, Err (CacheError "Gap detected between segments")).
Proof.
  intros Hreq Hmax Hs Ho Hi Hio tail. unfold range_wf, U64_MAX in *. split.
  - unfold overlap_of, covered_part, calculate_missing_ranges, merge_ranges. simpl.
    destruct (Z.leb_spec (Z.max (start requested) (r_start outer))
      (Z.max (start requested) (r_start inner))); [| lia]. simpl. unfold saturating_add, U64_MAX.
    bsplit_goal; [| lia]. simpl. bsplit_goal; [lia |]. simpl. u64.
    bsplit_goal; [| lia]. unfold tail. do 2 f_equal. lia.
  - unfold merge_range_segments.
    assert (merge_plan requested [outer; inner] [(tail, d, h)] =
      [mkSegment (start requested) (r_end outer)
         (Cached outer (u64_sub (start requested) (r_start outer))
            (u64_add (u64_sub (r_end outer) (start requested)) 1));
       mkSegment (r_start inner) (r_end inner)
         (Cached inner (u64_sub (r_start inner) (r_start inner))
            (u64_add (u64_sub (r_end inner) (r_start inner)) 1));
       mkSegment (r_end outer + 1) (end_ requested) (Fetched d tail)]) as ->.
    { unfold merge_plan. cbn [omap list_omap app]. unfold cached_segment, fetched_segment, calculate_overlap.
      cbn [tail start end_]. rewrite !(proj2 (Z.ltb_ge _ _)) by (simpl; lia). cbn [orb].
      rewrite !Z.max_l, !Z.min_l by (simpl; lia). rewrite Hs.
      apply sort_by_key_id. repeat constructor; unfold key_le; simpl; lia. }
    unfold validate_segments, lift, mbind, stM_bind. simpl. rewrite Z.eqb_refl. simpl. u64.
    destruct (Z.ltb_spec (r_end outer + 1) (r_start inner)); [lia |].
    destruct (Z.ltb_spec (r_end inner + 1) (r_end outer + 1)); [done | lia].
Qed.

Lemma nested_range_reported_as_gap_witness :
  merge_range_segments (St:=unit) "k" (mkRange 0 9) [sample_range 0 6; sample_range 2 3]
      [(mkRange 7 9, [Byte.x07; Byte.x08; Byte.x09], [])] tt
    = (tt, Err (CacheError "Gap detected between segments")).
Proof.
  apply (nested_range_reported_as_gap "k" (mkRange 0 9) (sample_range 0 6) (sample_range 2 3));
    unfold range_wf, U64_MAX; simpl; lia.
Defined.
