(* ===== verification/RangeFetch.v ===== *)
(** * Fetching from S3 and the fallback ([range_handler.rs])

    [fetch_missing_ranges], the complete fetch that replaces a failed merge, and
    [merge_ranges_with_fallback], which ties the merge, the fallback and the
    in-flight ledger together. *)

From S2P Require Import Prelude CacheTypes Ranges RangeParse InflightLedger SignedRequest RangeMerge RustStr.

#[local] Open Scope Z_scope.
#[local] Arguments String.append : simpl nomatch.

(** [format!("bytes={}-{}", start, end)]. *)
Definition range_header_value (r : RangeSpec) : string :=
  "bytes=" +:+ form_text (FromTo (start r) (end_ r)).

Definition strip_sentinels (h : Headers) : Headers :=
  header_remove (header_remove h "x-proxy-injected-if-match") "x-proxy-injected-if-unmodified-since".

Section Fetch.
Context `{S3Client}.

(** One sub-fetch of [fetch_missing_ranges]. *)
Definition fetch_range (headers : Headers) (range_spec : RangeSpec) : Result FetchedRange :=
  let s3_headers := List.filter (fun kv => negb (bool_decide (to_lowercase kv.1 = "range"))) headers in
  let s3_headers := header_insert s3_headers "Range" (range_header_value range_spec) in
  s3_response ← forward_request (strip_sentinels s3_headers);
  if status s3_response =? 206 then
    match body s3_response with
    | Some b => body_bytes ← b; Ok (range_spec, body_bytes, RangeMerge.headers s3_response)
    | None => Err (S3Error "S3 response has no body")
    end
  else Err (S3Error "Unexpected status").

Definition ok_result {A} (r : Result A) : option A := match r with Ok a => Some a | _ => None end.

(** The sub-fetches run in parallel; failures are dropped. *)
Definition fetch_missing_ranges (cache_key : string) (missing : list RangeSpec) (headers : Headers)
    : Result (list FetchedRange) :=
  if bool_decide (missing = []) then Ok []
  else if is_range_signed headers then Err (SignedHeaderRewriteRefused "range" cache_key)
  else
    let fetched := omap (fun r => ok_result (fetch_range headers r)) missing in
    if bool_decide (fetched = [])
    then Err (S3Error "Failed to fetch any missing ranges from S3")
    else Ok fetched.

(** The headers the fallback sends, or the refusal. *)
Definition fallback_headers (cache_key : string) (requested_range : RangeSpec) (headers : Headers)
    : Result Headers :=
  if is_range_signed headers then
    match (fun raw => default true (signed_client_range_covers raw requested_range))
            <$> header_find headers "range" with
    | Some true => Ok (strip_sentinels headers)
    | _ => Err (SignedHeaderRewriteRefused "range" cache_key)
    end
  else
    let h := List.filter (fun kv => negb (eq_ignore_ascii_case kv.1 "range")) headers in
    Ok (strip_sentinels (header_insert h "range" (range_header_value requested_range))).

(** The body of the fallback once the memory is claimed. *)
Definition fallback_body (requested_range : RangeSpec) (s3_headers : Headers)
    : Result RangeMergeResult :=
  s3_response ← forward_request s3_headers;
  if status s3_response =? 206 then
    match body s3_response with
    | Some b =>
        body_bytes ← b;
        let expected_size := u64_add (u64_sub (end_ requested_range) (start requested_range)) 1 in
        if negb (zlen body_bytes =? expected_size)
        then Err (S3Error "S3 fallback fetch size mismatch")
        else Ok (mkMergeResult body_bytes 0 (zlen body_bytes) 1 false)
    | None => Err (S3Error "S3 fallback fetch returned no body")
    end
  else Err (S3Error "S3 fallback fetch failed").

(** What the fallback and its caller share: the ledger, the reservation the
    caller lends, and the fallback statistic. *)
Record FallbackState := mkFallbackState {
  ledger : Ledger.InflightLedger;
  caller_reservation : option Ledger.Reservation;
  incomplete_range_fallbacks : Z;
}.

Definition drop_claim (l : Ledger.InflightLedger) (c : Ledger.BufferClaim) : Ledger.InflightLedger :=
  match c with Ledger.Held r => Ledger.drop l r | Ledger.CoveredByCaller => l end.

(** The claim is dropped when the function returns, on every path. *)
Definition fallback_to_complete_s3_fetch (now_secs : Z) (cache_key : string)
    (requested_range : RangeSpec) (headers : Headers) : stM FallbackState ProxyError RangeMergeResult :=
  let fallback_fetch_bytes :=
    u64_add (u64_sub (end_ requested_range) (start requested_range)) 1 in
  fun fs =>
  match fallback_headers cache_key requested_range headers with
  | Ok s3_headers =>
      match Ledger.claim_overlapping now_secs (ledger fs) fallback_fetch_bytes
              (caller_reservation fs) with
      | (l, caller, Some claim) =>
          (mkFallbackState (drop_claim l claim) caller (incomplete_range_fallbacks fs),
           fallback_body requested_range s3_headers)
      | (l, caller, None) =>
          (mkFallbackState l caller (incomplete_range_fallbacks fs),
           Err (InflightCeilingExceeded (Ledger.ceiling l) fallback_fetch_bytes))
      end
  | Err e => (fs, Err e)
  | Panic => (fs, Panic)
  end.

(** ** [merge_ranges_with_fallback] *)

Context {St : Type} `{RangeTier St}.

(** The version each segment comes from: the empty string when a response has no
    ETag. *)
Definition segment_etags (cached : list Range) (fetched : list FetchedRange) : list string :=
  (r_etag <$> cached) ++ ((fun f : FetchedRange => default "" (header_find f.2 "etag")) <$> fetched).

Definition same_version (etags : list string) : bool :=
  match etags with
  | [] => false
  | first :: rest => negb (is_empty_str first) && bool_decide (Forall (fun e => e = first) rest)
  end.

Definition error_context (e : ProxyError) : string :=
  match e with
  | CacheError msg =>
      if contains "not found" msg || contains "Metadata not found" msg
      then "cached range file missing"
      else if contains "decompression" msg || contains "decompress" msg
      then "decompression failure"
      else if contains "Gap" msg || contains "alignment" msg then "byte alignment mismatch"
      else if contains "size mismatch" msg then "cached data size mismatch"
      else "unknown merge error"
  | InvalidRange _ => "invalid range specification"
  | _ => "unknown merge error"
  end.

Definition record_incomplete_range_fallback (fs : FallbackState) : FallbackState :=
  mkFallbackState (ledger fs) (caller_reservation fs) (u64_add (incomplete_range_fallbacks fs) 1).

(** Run a computation on one half of the state. *)
Definition on_tier {A} (m : stM St ProxyError A) : stM (St * FallbackState) ProxyError A :=
  fun s => let '(st, r) := m s.1 in ((st, s.2), r).

Definition on_fallback {A} (m : stM FallbackState ProxyError A) : stM (St * FallbackState) ProxyError A :=
  fun s => let '(fs, r) := m s.2 in ((s.1, fs), r).

Definition merge_ranges_with_fallback (now_secs : Z) (cache_key : string)
    (requested_range : RangeSpec) (cached : list Range) (fetched : list FetchedRange)
    (headers : Headers) : stM (St * FallbackState) ProxyError RangeMergeResult :=
  fun s =>
  let etags := segment_etags cached fetched in
  let fallback := on_fallback (fallback_to_complete_s3_fetch now_secs cache_key requested_range headers) in
  let merge :=
    if same_version etags
    then on_tier (merge_range_segments cache_key requested_range cached fetched)
    else lift (Err (CacheVersionMismatch cache_key (default "" (head etags)) "")) in
  match merge s with
  | (s', Ok merge_result) =>
      let expected_size := u64_add (u64_sub (end_ requested_range) (start requested_range)) 1 in
      if negb (zlen (data merge_result) =? expected_size) then fallback s'
      else (s', Ok merge_result)
  | (s', Err (CacheVersionMismatch k c r)) => (s', Err (CacheVersionMismatch k c r))
  | (s', Err e) =>
      let s' := if bool_decide (error_context e = "byte alignment mismatch")
                then (s'.1, record_incomplete_range_fallback s'.2) else s' in
      fallback s'
  | (s', Panic) => (s', Panic)
  end.

End Fetch.

(** ** What the requests name *)

(** The byte range a request with these headers asks S3 for. *)
Definition requested_by (h : Headers) : option RangeSpec :=
  match header_find h "range" with
  | Some v => match parse_range_header (trim v) None with SingleRange r => Some r | _ => None end
  | None => None
  end.

(** S3 answers a range request for the object [current] with the named bytes. *)
Class S3Serves `{S3Client} (current : bytes) : Prop :=
  s3_serves h resp d r :
    forward_request h = Ok resp -> status resp = 206 -> body resp = Some (Ok d) ->
    requested_by h = Some r -> d = sub_list current (start r) (end_ r + 1).

Lemma parse_range_header_value r :
  range_wf r -> parse_range_header (trim (range_header_value r)) None = SingleRange r.
Proof.
  unfold range_wf. intros Hr. unfold range_header_value.
  assert (form_valid (FromTo (start r) (end_ r)) (end_ r + 1)) as Hf.
  { cbn. unfold is_u64. lia. }
  assert (all_chars (fun a => negb (is_whitespace a)) ("bytes=" +:+ form_text (FromTo (start r) (end_ r)))
            = true) as Hsp.
  { rewrite all_chars_app. cbn -[u64_to_string]. rewrite all_chars_app. cbn -[u64_to_string].
    rewrite !plain_no_space; [done | apply u64_to_string_plain; lia..]. }
  rewrite trim_id by done. unfold parse_range_header. rewrite (proj2 (starts_with_spec _ _)) by eauto.
  change (string_drop 6 ("bytes=" +:+ form_text (FromTo (start r) (end_ r)))) with
    (form_text (FromTo (start r) (end_ r))).
  rewrite split_char_free by (eapply form_text_chars; done). cbn [negb parse_range_specs].
  rewrite (form_text_trim _ _ Hf). unfold parse_single_range_spec, form_text.
  rewrite contains_dash, split_dash, split_dash_end, !trim_u64, !u64_to_string_nonempty by lia.
  rewrite !parse_u64_or_to_string by (unfold is_u64; lia). cbn [mbind outcome_bind].
  bsplit_goal; [lia |]. cbn. by destruct r.
Qed.

Lemma header_find_remove h n name :
  eq_ignore_ascii_case n name = false -> header_find (header_remove h n) name = header_find h name.
Proof.
  intros Hn. unfold header_find, header_remove.
  induction h as [|[k v] h IH]; [done |]. cbn [List.filter List.find fst].
  destruct (decide (k = n)) as [-> | Hk].
  - rewrite bool_decide_true by done. cbn. by rewrite Hn.
  - rewrite bool_decide_false by done. cbn. by destruct (eq_ignore_ascii_case k name).
Qed.

Lemma strip_sentinels_range h : header_find (strip_sentinels h) "range" = header_find h "range".
Proof. unfold strip_sentinels. by rewrite !header_find_remove. Qed.

(** A fallback request names the requested range, when the client's signed header
    is not a suffix or open-ended form. *)
Definition range_comparable (requested : RangeSpec) (h : Headers) : Prop :=
  is_range_signed h = true ->
  forall raw, header_find h "range" = Some raw -> is_Some (signed_client_range_covers raw requested).

(** The body is S3's answer to the client's own signed request, whose [Range]
    header (a suffix or open-ended form) cannot be compared with the requested
    range and is sent as it came. *)
Definition answers_client_range `{S3Client} (requested : RangeSpec) (h : Headers) (d : bytes) : Prop :=
  is_range_signed h = true /\
  (exists raw, header_find h "range" = Some raw /\ signed_client_range_covers raw requested = None) /\
  exists resp, forward_request (strip_sentinels h) = Ok resp /\ status resp = 206 /\ body resp = Some (Ok d).

Lemma fallback_headers_name key requested h h' :
  range_wf requested -> range_comparable requested h ->
  fallback_headers key requested h = Ok h' -> requested_by h' = Some requested.
Proof.
  intros Hr Hcmp. unfold fallback_headers, range_comparable in *. destruct (is_range_signed h).
  - destruct (header_find h "range") as [raw |] eqn:Eraw; [| done]. simpl.
    destruct (Hcmp eq_refl raw eq_refl) as [b Eb]. rewrite Eb. simpl. destruct b; [| done].
    intros [= <-]. unfold requested_by. rewrite strip_sentinels_range, Eraw.
    rewrite (signed_covers_parse raw requested); [done | unfold range_wf in Hr; lia | done].
  - intros [= <-]. unfold requested_by. rewrite strip_sentinels_range.
    change (header_find (header_insert _ "range" (range_header_value requested)) "range")
      with (Some (range_header_value requested)).
    cbv beta iota. by rewrite parse_range_header_value.
Qed.

(** Otherwise the client's headers are sent as they are. *)
Lemma fallback_headers_verbatim key requested h h' :
  fallback_headers key requested h = Ok h' ->
  range_comparable requested h \/
  (is_range_signed h = true /\ h' = strip_sentinels h /\
   exists raw, header_find h "range" = Some raw /\ signed_client_range_covers raw requested = None).
Proof.
  unfold fallback_headers, range_comparable. destruct (is_range_signed h); [| by left].
  destruct (header_find h "range") as [raw |]; [| done]. simpl.
  destruct (signed_client_range_covers raw requested) eqn:E.
  - intros _. left. intros _ raw' [= <-]. by rewrite E.
  - intros [= <-]. right. eauto.
Qed.

Lemma fetch_range_names h r :
  range_wf r ->
  requested_by (strip_sentinels (header_insert
    (List.filter (fun kv => negb (bool_decide (to_lowercase kv.1 = "range"))) h)
    "Range" (range_header_value r))) = Some r.
Proof.
  intros Hr. unfold requested_by. rewrite strip_sentinels_range.
  change (header_find (header_insert _ "Range" (range_header_value r)) "range")
    with (Some (range_header_value r)).
  cbv beta iota. by rewrite parse_range_header_value.
Qed.

(** ** [fetch_missing_ranges] *)

(** Every range [fetch_missing_ranges] returns carries the object's bytes for
    one of the missing ranges, in their order; the call never rewrites a signed
    [Range] header (it is refused), and an empty success means that nothing was
    missing. *)
Theorem fetch_missing_ranges_faithful `{S3Client} object key etag
    `{!S3Serves (object key etag)} missing h :
  Forall range_wf missing -> Forall (fun r => end_ r < U64_MAX) missing ->
  match fetch_missing_ranges key missing h with
  | Ok fetched =>
      Forall (fetched_faithful (object := object) key etag) fetched /\
      sublist ((fun f : FetchedRange => f.1.1) <$> fetched) missing /\
      (fetched = [] <-> missing = []) /\ (is_range_signed h = true -> missing = [])
  | Err e => missing <> [] /\ (is_range_signed h = true -> e = SignedHeaderRewriteRefused "range" key)
  | Panic => False
  end.
Proof.
  intros Hw Hmax. unfold fetch_missing_ranges.
  case_bool_decide as Em; [by subst |].
  destruct (is_range_signed h); [done |].
  case_bool_decide as Ef; [done |].
  assert (forall r f, r ∈ missing -> ok_result (fetch_range h r) = Some f ->
            f.1.1 = r /\ fetched_faithful (object := object) key etag f) as Hfetch.
  { intros r f Hr Hok. rewrite Forall_forall in Hw, Hmax. specialize (Hw r Hr).
    destruct (fetch_range h r) as [f' | |] eqn:E; [| done..]. injection Hok as <-.
    unfold fetch_range in E. okinv. destruct (Z.eqb_spec (status v) 206) as [Es |]; [| done].
    destruct (body v) as [b |] eqn:Eb; [| done]. okinv.
    split; [done |]. cbn. unfold range_wf in Hw. pose proof (Hmax r Hr). split_and!; [lia.. | done |].
    eapply s3_serves; [exact E0 | done | exact Eb | by apply fetch_range_names]. }
  split; [| split; [| done]].
  - apply Forall_forall. intros f (r & Hr & Hf)%list_elem_of_omap. by eapply Hfetch.
  - clear Em Ef Hw Hmax. induction missing as [|r missing IH]; [constructor |]. cbn [omap list_omap].
    destruct (ok_result (fetch_range h r)) as [f |] eqn:Ef.
    + rewrite fmap_cons. destruct (Hfetch r f) as [-> _]; [left | done |]. constructor.
      apply IH. intros r' f' Hr'. apply Hfetch. by right.
    + constructor. apply IH. intros r' f' Hr'. apply Hfetch. by right.
Qed.

(** ** The fallback *)

Lemma fallback_body_ok `{S3Client} requested h res :
  range_wf requested -> end_ requested < U64_MAX -> fallback_body requested h = Ok res ->
  zlen (data res) = end_ requested - start requested + 1 /\
  exists resp, forward_request h = Ok resp /\ status resp = 206 /\ body resp = Some (Ok (data res)).
Proof.
  unfold range_wf, U64_MAX. intros Hr Hm Hb. unfold fallback_body in Hb. okinv.
  destruct (Z.eqb_spec (status v) 206) as [Es |]; [| done].
  destruct (body v) as [b |] eqn:Eb; [| done]. okinv. u64_in Hb.
  destruct (Z.eqb_spec (zlen v0) (end_ requested - start requested + 1)) as [El |]; simpl in Hb; okinv.
  split; [done |]. by exists v.
Qed.

Lemma fallback_fetch_sound `{S3Client} current `{!S3Serves current} now key requested h fs fs' res m :
  range_wf requested -> end_ requested < U64_MAX ->
  fallback_to_complete_s3_fetch now key requested h fs = (fs', res) -> res = Ok m ->
  zlen (data m) = end_ requested - start requested + 1 /\
  (data m = sub_list current (start requested) (end_ requested + 1) \/
   answers_client_range requested h (data m)).
Proof.
  intros Hr Hmax. unfold fallback_to_complete_s3_fetch.
  destruct (fallback_headers key requested h) as [h' | e |] eqn:Eh; [| congruence..].
  destruct (Ledger.claim_overlapping _ _ _ _) as [[l caller] [claim |]]; [| congruence].
  intros [= _ <-] Hm. destruct (fallback_body_ok _ _ _ Hr Hmax Hm) as (Hsz & resp & Hf & Hs & Hb).
  split; [done |]. destruct (fallback_headers_verbatim _ _ _ _ Eh) as [Hcmp | (Hsig & -> & Hraw)].
  - left. eapply s3_serves; [done.. |]. by eapply fallback_headers_name.
  - right. split_and!; [done.. |]. by exists resp.
Qed.

(** The memory the fallback buffers is accounted and returned.  On every path,
    success or error, the fallback leaves the ledger of a caller without a
    reservation with the bytes it found reserved, and when the range does not fit
    under the ceiling the fetch is refused. *)
Theorem fallback_ledger_balanced `{S3Client} now key requested h l n fs' res :
  is_u64 (Ledger.ceiling l) -> 0 < Ledger.ceiling l -> is_u64 (Ledger.reserved l) ->
  range_wf requested -> end_ requested < U64_MAX ->
  let size := end_ requested - start requested + 1 in
  fallback_to_complete_s3_fetch now key requested h (mkFallbackState l None n) = (fs', res) ->
  Ledger.reserved (ledger fs') = Ledger.reserved l /\ caller_reservation fs' = None /\
  (Ledger.ceiling l < Ledger.reserved l + size ->
   res = Err (InflightCeilingExceeded (Ledger.ceiling l) size) \/
   res = Err (SignedHeaderRewriteRefused "range" key)).
Proof.
  intros Hc Hc0 Hr Hreq Hmax size. unfold fallback_to_complete_s3_fetch.
  assert (forall e, fallback_headers key requested h = Err e -> e = SignedHeaderRewriteRefused "range" key)
    as Herr.
  { unfold fallback_headers. intros e. repeat case_match; congruence. }
  assert (fallback_headers key requested h <> Panic) as Hnp.
  { unfold fallback_headers. repeat case_match; congruence. }
  destruct (fallback_headers key requested h) as [h' | e |]; [| | done].
  2:{ intros [= <- <-]. split_and!; [done.. |]. intros _. right. by rewrite (Herr e). }
  unfold range_wf, U64_MAX in *. simpl. u64. fold size.
  pose proof (Ledger.try_reserve_ceiling now l size Hc) as Hce.
  pose proof (Ledger.try_reserve_spec now l size Hc Hr ltac:(unfold is_u64, size; lia)) as Hspec.
  destruct (Ledger.try_reserve now l size) as [l' r]. destruct Hspec as [_ Hspec].
  rewrite (proj2 (Z.eqb_neq (Ledger.ceiling l) 0)) in Hspec by lia.
  destruct (Z.leb_spec (Ledger.reserved l + size) (Ledger.ceiling l)).
  - destruct Hspec as (-> & _ & _ & Hdrop). intros [= <- <-]. split_and!; [exact Hdrop | done |]. lia.
  - destruct Hspec as (-> & Hres & _). intros [= <- <-]. split_and!; [done.. |]. intros _. left.
    simpl in *. by rewrite Hce.
Qed.

(** ** [merge_ranges_with_fallback] *)

Lemma same_version_false etags :
  (exists e1 e2, e1 ∈ etags /\ e2 ∈ etags /\ e1 <> e2) \/ "" ∈ etags -> same_version etags = false.
Proof.
  intros Hm. destruct etags as [|e rest]; [done |]. unfold same_version.
  destruct (is_empty_str e) eqn:He; [done |]. cbn [negb andb]. apply bool_decide_false.
  intros Hall. assert (Forall (fun x => x = e) (e :: rest)) as Hall' by by constructor.
  rewrite Forall_forall in Hall'. destruct Hm as [(e1 & e2 & H1 & H2 & Hne) | H0].
  - apply Hne. by rewrite (Hall' e1 H1), (Hall' e2 H2).
  - by rewrite <- (Hall' "" H0) in He.
Qed.

(** Versions are never mixed.  If two of the cached and fetched segments carry
    different ETags, or one carries none, no merge is attempted, no fallback is
    sent and nothing changes: the caller gets a version mismatch and forwards the
    client's request. *)
Theorem mixed_versions_refused `{S3Client} `{RangeTier St} now key requested cached fetched h s :
  let etags := segment_etags cached fetched in
  (exists e1 e2, e1 ∈ etags /\ e2 ∈ etags /\ e1 <> e2) \/ "" ∈ etags ->
  merge_ranges_with_fallback now key requested cached fetched h s
    = (s, Err (CacheVersionMismatch key (default "" (head etags)) "")).
Proof.
  intros etags Hm. unfold merge_ranges_with_fallback. fold etags.
  by rewrite (same_version_false etags Hm).
Qed.

(** C2: what the range path answers is the object.  With a faithful cache tier,
    faithful fetched ranges and S3 serving the version they belong to, every
    success of [merge_ranges_with_fallback] has the requested length, and it is
    exactly the requested bytes of that version.  The one exception is a refetch
    for a client that signed a suffix or open-ended [Range] header: it is S3's
    answer to the client's own header, sent as it came, of which only the length
    is checked.  The tier's invariant survives on every path. *)
Theorem fallback_returns_object_bytes `{S3Client} `{Tier : RangeTier St} object
    `{!RangeTierSpec St object} key etag `{!S3Serves (object key etag)}
    now requested cached fetched h st fs st' fs' res :
  tier_inv st -> range_wf requested -> end_ requested < U64_MAX ->
  Forall (cached_faithful etag) cached ->
  Forall (fetched_faithful (object := object) key etag) fetched ->
  merge_ranges_with_fallback now key requested cached fetched h (st, fs) = ((st', fs'), res) ->
  tier_inv st' /\
  forall m, res = Ok m ->
    zlen (data m) = end_ requested - start requested + 1 /\
    (data m = sub_list (object key etag) (start requested) (end_ requested + 1) \/
     answers_client_range requested h (data m)).
Proof.
  intros Hinv Hr Hmax Hc Hf Hrun.
  assert (forall st1 fs1, tier_inv st1 ->
    on_fallback (fallback_to_complete_s3_fetch now key requested h) (st1, fs1) = ((st', fs'), res) ->
    tier_inv st' /\ forall m, res = Ok m ->
      zlen (data m) = end_ requested - start requested + 1 /\
      (data m = sub_list (object key etag) (start requested) (end_ requested + 1) \/
       answers_client_range requested h (data m))) as Hfb.
  { intros st1 fs1 Hi1. unfold on_fallback. simpl.
    destruct (fallback_to_complete_s3_fetch now key requested h fs1) as [fs2 r2] eqn:E.
    intros [= <- <- <-]. split; [done |]. intros m Hm. by eapply fallback_fetch_sound. }
  unfold merge_ranges_with_fallback in Hrun. destruct (same_version _); cycle 1.
  { injection Hrun as <- <- <-. done. }
  unfold on_tier at 1 in Hrun. cbn [fst snd] in Hrun.
  destruct (merge_range_segments key requested cached fetched st) as [st1 r] eqn:Em.
  pose proof (merge_range_segments_tier _ _ _ _ _ Hr Hc Hf _ _ _ Hinv Em) as Hi1.
  destruct r as [m | e |].
  - destruct (negb _); [by eapply Hfb |]. injection Hrun as <- <- <-. split; [done |].
    intros m' [= <-]. destruct (merge_sound _ _ _ _ _ _ _ _ Hinv Hr Hmax Hc Hf Em) as (? & ? & _).
    split; [done | by left].
  - destruct e; try (by injection Hrun as <- <- <-); case_bool_decide; by eapply Hfb.
  - injection Hrun as <- <- <-. done.
Qed.

(** ** A concrete S3 *)

#[local] Existing Instance sample_tier.
#[local] Existing Instance sample_tier_spec.

#[local] Instance sample_s3 : S3Client := fun h =>
  match requested_by h with
  | Some r => Ok (mkResponse 206 [("ETag", "v1")]
                    (Some (Ok (sub_list (sample_object "k" "v1") (start r) (end_ r + 1)))))
  | None => Err (S3Error "not a range request")
  end.

#[local] Instance sample_s3_serves : S3Serves (sample_object "k" "v1").
Proof.
  intros h resp d r Hf _ Hb Hr. unfold forward_request, sample_s3 in Hf. rewrite Hr in Hf.
  injection Hf as <-. simpl in Hb. by injection Hb.
Qed.

Lemma fetch_missing_ranges_faithful_witness :
  match fetch_missing_ranges "k" [mkRange 7 9] [("host", "s3")] with
  | Ok fetched => fetched = [(mkRange 7 9, [Byte.x07; Byte.x08; Byte.x09], [("ETag", "v1")])] /\
                  Forall (fetched_faithful (object := sample_object) "k" "v1") fetched
  | _ => False
  end.
Proof.
  pose proof (fetch_missing_ranges_faithful sample_object "k" "v1" [mkRange 7 9] [("host", "s3")]
    ltac:(repeat constructor; simpl; lia) ltac:(repeat constructor; unfold U64_MAX; simpl; lia)) as Hf.
  assert (fetch_missing_ranges "k" [mkRange 7 9] [("host", "s3")] =
    Ok [(mkRange 7 9, [Byte.x07; Byte.x08; Byte.x09], [("ETag", "v1")])]) as E
    by (vm_compute; reflexivity).
  rewrite E in Hf |- *. split; [reflexivity | apply Hf].
Defined.

Lemma fallback_ledger_balanced_witness :
  Ledger.reserved (ledger (fallback_to_complete_s3_fetch 0 "k" (mkRange 0 9) []
    (mkFallbackState (Ledger.mkLedger 100 50 50 0 0 0) None 0)).1) = 50.
Proof.
  destruct (fallback_to_complete_s3_fetch 0 "k" (mkRange 0 9) []
    (mkFallbackState (Ledger.mkLedger 100 50 50 0 0 0) None 0)) as [fs' res] eqn:E.
  apply (fallback_ledger_balanced 0 "k" (mkRange 0 9) [] (Ledger.mkLedger 100 50 50 0 0 0) 0 fs' res);
    [unfold is_u64, range_wf, U64_MAX; simpl; lia.. | exact E].
Defined.

Lemma mixed_versions_refused_witness :
  merge_ranges_with_fallback 0 "k" (mkRange 0 9) [sample_range 0 6]
      [(mkRange 7 9, [Byte.x07; Byte.x08; Byte.x09], [("ETag", "v2")])] []
      (tt, mkFallbackState (Ledger.new 100) None 0)
    = ((tt, mkFallbackState (Ledger.new 100) None 0), Err (CacheVersionMismatch "k" "v1" "")).
Proof.
  apply (mixed_versions_refused 0 "k" (mkRange 0 9) [sample_range 0 6]
      [(mkRange 7 9, [Byte.x07; Byte.x08; Byte.x09], [("ETag", "v2")])] []).
  left. exists "v1", "v2". vm_compute. split; [left | split; [right; left | discriminate]].
Defined.

Lemma fallback_returns_object_bytes_witness :
  exists st' fs' m,
    merge_ranges_with_fallback 0 "k" (mkRange 0 9) [sample_range 0 6; sample_range 2 3]
      [(mkRange 7 9, [Byte.x07; Byte.x08; Byte.x09], [("ETag", "v1")])] []
      (tt, mkFallbackState (Ledger.new 100) None 0) = ((st', fs'), Ok m) /\
    incomplete_range_fallbacks fs' = 1 /\ data m = sample_object "k" "v1".
Proof.
  eexists _, _, _.
  match goal with |- ?run = ?r /\ _ => let v := eval vm_compute in run in assert (run = v) as E
    by (vm_compute; reflexivity) end.
  split; [exact E |]. split; [reflexivity |].
  eapply (fallback_returns_object_bytes sample_object "k" "v1") in E as [_ Hd].
  - destruct (Hd _ eq_refl) as [_ [Hb | (Hs & _)]]; [exact Hb |]. vm_compute in Hs. discriminate.
  - exact I.
  - unfold range_wf; simpl; lia.
  - unfold U64_MAX; simpl; lia.
  - repeat constructor; simpl; lia.
  - repeat constructor; simpl; lia.
Defined.

(** The exception is real: asked for bytes 0-4 on behalf of a client that signed
    [bytes=-5], the fallback sends the suffix and takes the last five bytes of the
    object for the first five, since only their number is checked. *)
Lemma signed_suffix_unchecked :
  let s3 : S3Client := fun _ => Ok (mkResponse 206 []
    (Some (Ok [Byte.x05; Byte.x06; Byte.x07; Byte.x08; Byte.x09]))) in
  (fallback_to_complete_s3_fetch (H := s3) 0 "k" (mkRange 0 4)
    [("range", "bytes=-5");
     ("authorization", "AWS4-HMAC-SHA256 Credential=a, SignedHeaders=host;range, Signature=b")]
    (mkFallbackState (Ledger.new 100) None 0)).2
  = Ok (mkMergeResult [Byte.x05; Byte.x06; Byte.x07; Byte.x08; Byte.x09] 0 5 1 false).
Proof. vm_compute. reflexivity. Qed.
