(* ===== verification/AwsChunked.v ===== *)
(** * The aws-chunked coding ([aws_chunked_decoder.rs])

    The whole-buffer decoder, the incremental decoder of the streaming write
    path, the encoder, and header-based detection.  A position in the body is
    kept as the bytes from it on; the decoder's loops take fuel, and the lemmas
    show that the fuel given is enough. *)

From S2P Require Import Prelude CacheTypes RustStr.

#[local] Open Scope Z_scope.

Module Chunked.

Definition MAX_TRAILER_SECTION_BYTES : Z := 8192.

Inductive AwsChunkedError :=
  | InvalidChunkHeader (m : string)
  | InvalidChunkSize (m : string)
  | UnexpectedEof
  | LengthMismatch (expected actual : Z)
  | TrailerTooLarge (size max : Z).

Abbreviation Res := (outcome AwsChunkedError).

Record AwsChunkedDecodeResult := mkDecoded {
  data : bytes;
  trailers : list (string * string);
}.

Definition CR : Byte.byte := Byte.x0d.
Definition LF : Byte.byte := Byte.x0a.
Definition CRLF : bytes := [CR; LF].

(** ** Detection *)

Definition is_aws_chunked (headers : Headers) : bool :=
  (match header_get headers "content-encoding" with
   | Some ce => contains "aws-chunked" (to_lowercase ce)
   | None => false
   end)
  || (match header_get headers "x-amz-content-sha256" with
      | Some sha256 =>
          bool_decide (sha256 ∈ ["STREAMING-AWS4-HMAC-SHA256-PAYLOAD";
            "STREAMING-AWS4-ECDSA-P256-SHA256-PAYLOAD"; "STREAMING-UNSIGNED-PAYLOAD-TRAILER";
            "STREAMING-AWS4-HMAC-SHA256-PAYLOAD-TRAILER";
            "STREAMING-AWS4-ECDSA-P256-SHA256-PAYLOAD-TRAILER"])
      | None => false
      end).

Definition get_decoded_content_length (headers : Headers) : option Z :=
  header_get headers "x-amz-decoded-content-length" ≫= parse_u64.

(** ** [std::str::from_utf8] *)

Definition byte_val (b : Byte.byte) : Z := Z.of_N (Byte.to_N b).

Definition in_range (lo hi : Z) (b : Byte.byte) : bool := (lo <=? byte_val b) && (byte_val b <=? hi).

Definition is_cont : Byte.byte -> bool := in_range 128 191.

Fixpoint utf8_valid (fuel : nat) (s : bytes) : bool :=
  match fuel with
  | O => true
  | S f =>
      match s with
      | [] => true
      | b0 :: r0 =>
          if in_range 0 127 b0 then utf8_valid f r0 else
          match r0 with
          | [] => false
          | b1 :: r1 =>
              if in_range 194 223 b0 then is_cont b1 && utf8_valid f r1 else
              match r1 with
              | [] => false
              | b2 :: r2 =>
                  if in_range 224 239 b0 then
                    (if in_range 224 224 b0 then in_range 160 191 b1
                     else if in_range 237 237 b0 then in_range 128 159 b1 else is_cont b1)
                    && is_cont b2 && utf8_valid f r2
                  else
                  match r2 with
                  | [] => false
                  | b3 :: r3 =>
                      in_range 240 244 b0
                      && (if in_range 240 240 b0 then in_range 144 191 b1
                          else if in_range 244 244 b0 then in_range 128 143 b1 else is_cont b1)
                      && is_cont b2 && is_cont b3 && utf8_valid f r3
                  end
              end
          end
      end
  end.

(** Each step consumes a byte, so the length of the input is enough fuel. *)
Definition from_utf8 (s : bytes) : Res string :=
  if utf8_valid (length s) s then Ok (String.string_of_list_byte s)
  else Err (InvalidChunkHeader "invalid utf-8 sequence").

(** ** Lines *)

(** [find_crlf] from the current position: the bytes before the first CRLF and
    those after it. *)
Fixpoint split_crlf (s : bytes) : option (bytes * bytes) :=
  match s with
  | [] => None
  | b :: s' =>
      match s' with
      | b' :: s'' =>
          if bool_decide (b = CR) && bool_decide (b' = LF) then Some ([], s'')
          else '(line, rest) ← split_crlf s'; Some (b :: line, rest)
      | [] => None
      end
  end.

Definition parse_chunk_size (header : string) : Res Z :=
  let size_str := trim (default header (head (split_char ";" header))) in
  if is_empty_str size_str then Err (InvalidChunkSize "Empty chunk size") else
  match u64_from_str_radix 16 size_str with
  | Some n => Ok n
  | None => Err (InvalidChunkSize "Invalid hex value")
  end.

Definition parse_trailer_line (line : bytes) : Res (string * string) :=
  line_str ← from_utf8 line;
  match find_str ":" line_str with
  | Some colon_pos =>
      Ok (trim (string_take colon_pos line_str), trim (string_drop (colon_pos + 1) line_str))
  | None => Err (InvalidChunkHeader "Trailer line missing colon separator")
  end.

(** The loop of [parse_trailers]; [consumed] is [*pos - trailer_start].  The
    result carries the bytes after the terminal CRLF. *)
Fixpoint parse_trailers_loop (fuel : nat) (consumed : Z) (rest : bytes)
    : Res (list (string * string) * bytes) :=
  match fuel with
  | O => Err UnexpectedEof
  | S f =>
      match rest with
      | b :: b' :: rest' =>
          if bool_decide (b = CR) && bool_decide (b' = LF) then Ok ([], rest') else
          match split_crlf rest with
          | None => Err UnexpectedEof
          | Some (line, after) =>
              let trailer_bytes_consumed := consumed + zlen line + 2 in
              if MAX_TRAILER_SECTION_BYTES <? trailer_bytes_consumed
              then Err (TrailerTooLarge trailer_bytes_consumed MAX_TRAILER_SECTION_BYTES)
              else
                t ← parse_trailer_line line;
                '(ts, r) ← parse_trailers_loop f trailer_bytes_consumed after;
                Ok (t :: ts, r)
          end
      | _ => Err UnexpectedEof
      end
  end.

Definition parse_trailers (rest : bytes) : Res (list (string * string) * bytes) :=
  parse_trailers_loop (S (length rest)) 0 rest.

(** ** [decode_aws_chunked] *)

Fixpoint decode_loop (fuel : nat) (body_len : Z) (rest result : bytes) : Res AwsChunkedDecodeResult :=
  match fuel with
  | O => Err UnexpectedEof
  | S f =>
      match split_crlf rest with
      | None => Err UnexpectedEof
      | Some (header_bytes, rest) =>
          header_str ← from_utf8 header_bytes;
          chunk_size ← parse_chunk_size header_str;
          if chunk_size =? 0 then
            '(trailers, rest) ← parse_trailers rest;
            match rest with
            | [] => Ok (mkDecoded result trailers)
            | _ => Err (LengthMismatch (body_len - zlen rest) body_len)
            end
          else
            let pos := body_len - zlen rest in
            match checked_add pos chunk_size with
            | None => Err UnexpectedEof
            | Some chunk_end =>
                if body_len <? chunk_end then Err UnexpectedEof else
                let result := result ++ sub_list rest 0 chunk_size in
                let rest := drop (Z.to_nat chunk_size) rest in
                match checked_add chunk_end 2 with
                | None => Err UnexpectedEof
                | Some trailer_end =>
                    if body_len <? trailer_end then Err UnexpectedEof else
                    if negb (bool_decide (sub_list rest 0 2 = CRLF))
                    then Err (InvalidChunkHeader "Missing CRLF after chunk data")
                    else decode_loop f body_len (drop 2 rest) result
                end
            end
      end
  end.

Definition decode_aws_chunked (body : bytes) : Res AwsChunkedDecodeResult :=
  decode_loop (S (length body)) (zlen body) body [].

(** ** The encoder *)

Definition str_bytes (s : string) : bytes := String.list_byte_of_string s.

(** ["0".repeat(64)]. *)
Definition placeholder_sig : string :=
  "0000000000000000000000000000000000000000000000000000000000000000".

Definition chunk_header (n : Z) : bytes :=
  str_bytes (u64_to_hex n +:+ ";chunk-signature=" +:+ placeholder_sig) ++ CRLF.

Fixpoint encode_chunks (fuel : nat) (data : bytes) (chunk_size : Z) : bytes :=
  match fuel, data with
  | S f, _ :: _ =>
      let current_chunk_size := Z.min (zlen data) chunk_size in
      chunk_header current_chunk_size ++ sub_list data 0 current_chunk_size ++ CRLF
      ++ encode_chunks f (drop (Z.to_nat current_chunk_size) data) chunk_size
  | _, _ => []
  end.

Definition trailer_line (t : string * string) : bytes := str_bytes (t.1 +:+ ":" +:+ t.2) ++ CRLF.

Definition encode_aws_chunked_with_trailers (data : bytes) (chunk_size : Z)
    (trailers : list (string * string)) : Res bytes :=
  _ ← rust_assert (0 <? chunk_size);
  Ok (encode_chunks (length data) data chunk_size
      ++ str_bytes ("0;chunk-signature=" +:+ placeholder_sig) ++ CRLF
      ++ concat (trailer_line <$> trailers) ++ CRLF).

Definition encode_aws_chunked (data : bytes) (chunk_size : Z) : Res bytes :=
  encode_aws_chunked_with_trailers data chunk_size [].

(** ** The incremental decoder *)

Inductive DecoderState :=
  | Header
  | Data (remaining : Z)
  | DataCrlf (seen_cr : bool)
  | Trailers
  | Done.

Record Decoder := mkDecoder {
  state : DecoderState;
  line_buf : bytes;
  decoded_len : Z;
  dec_trailers : list (string * string);
  total_raw : Z;
}.

Record AwsChunkedTrailers := mkTrailers { at_trailers : list (string * string); at_decoded_len : Z }.

Definition new : Decoder := mkDecoder Header [] 0 [] 0.

Definition with_line (d : Decoder) (buf : bytes) (raw : Z) : Decoder :=
  mkDecoder (state d) buf (decoded_len d) (dec_trailers d) (u64_add (total_raw d) raw).

Definition ends_with_crlf (buf : bytes) : bool :=
  bool_decide (CRLF `suffix_of` buf).

Definition ends_section (buf : bytes) : bool :=
  bool_decide (buf = CRLF) || bool_decide ((CRLF ++ CRLF) `suffix_of` buf).

(** [feed_line]: [true] and the rest of the slice once a line is complete. *)
Fixpoint feed_line (d : Decoder) (input : bytes) : Res (Decoder * bytes * bool) :=
  match input with
  | [] => Ok (d, [], false)
  | b :: input' =>
      let buf := line_buf d ++ [b] in
      if ends_with_crlf buf
      then Ok (with_line d (take (length buf - 2) buf) 1, input', true)
      else if MAX_TRAILER_SECTION_BYTES <? zlen buf
      then Err (InvalidChunkHeader "Chunk header line exceeds maximum size")
      else feed_line (with_line d buf 1) input'
  end.

Fixpoint feed_trailers (d : Decoder) (input : bytes) : Res (Decoder * bytes * bool) :=
  match input with
  | [] => Ok (d, [], false)
  | b :: input' =>
      let buf := line_buf d ++ [b] in
      if ends_section buf then Ok (with_line d buf 1, input', true)
      else if MAX_TRAILER_SECTION_BYTES <? zlen buf
      then Err (TrailerTooLarge (zlen buf) MAX_TRAILER_SECTION_BYTES)
      else feed_trailers (with_line d buf 1) input'
  end.

(** One turn of the [while cursor < input.len()] loop of [push]: the decoder, the
    rest of the slice and the bytes emitted. *)
Definition push_turn (d : Decoder) (input : bytes) : Res (Decoder * bytes * bytes) :=
  match state d with
  | Header =>
      '(d1, rest, complete) ← feed_line d input;
      if complete : bool then
        header_str ← from_utf8 (line_buf d1);
        chunk_size ← parse_chunk_size header_str;
        Ok (mkDecoder (if chunk_size =? 0 then Trailers else Data chunk_size) [] (decoded_len d1)
              (dec_trailers d1) (total_raw d1), rest, [])
      else Ok (d1, [], [])
  | Data remaining =>
      let take_ := Z.min remaining (zlen input) in
      let left := remaining - take_ in
      Ok (mkDecoder (if left =? 0 then DataCrlf false else Data left) (line_buf d)
            (u64_add (decoded_len d) take_) (dec_trailers d) (u64_add (total_raw d) take_),
          drop (Z.to_nat take_) input, sub_list input 0 take_)
  | DataCrlf seen_cr =>
      match input with
      | [] => Ok (d, [], [])
      | b :: rest =>
          if negb (bool_decide (b = if seen_cr then LF else CR))
          then Err (InvalidChunkHeader "Missing CRLF after chunk data")
          else Ok (mkDecoder (if seen_cr then Header else DataCrlf true) (line_buf d)
                     (decoded_len d) (dec_trailers d) (u64_add (total_raw d) 1), rest, [])
      end
  | Trailers =>
      '(d1, rest, complete) ← feed_trailers d input;
      if complete : bool then
        '(ts, _) ← parse_trailers (line_buf d1);
        Ok (mkDecoder Done [] (decoded_len d1) ts (total_raw d1), rest, [])
      else Ok (d1, [], [])
  | Done => Err (LengthMismatch (total_raw d) (u64_add (total_raw d) (zlen input)))
  end.

Fixpoint push_loop (fuel : nat) (d : Decoder) (input out : bytes) : Res (Decoder * bytes) :=
  match fuel, input with
  | S f, _ :: _ =>
      '(d', rest, emitted) ← push_turn d input;
      push_loop f d' rest (out ++ emitted)
  | _, _ => Ok (d, out)
  end.

(** Every turn consumes a byte, so the length of the slice is enough fuel.  An
    error abandons the decoder. *)
Definition push (d : Decoder) (input : bytes) : Res (Decoder * bytes) :=
  push_loop (length input) d input [].

Definition finish (d : Decoder) : Res AwsChunkedTrailers :=
  match state d with
  | Done => Ok (mkTrailers (dec_trailers d) (decoded_len d))
  | _ => Err UnexpectedEof
  end.

(** ** Byte by byte

    [run] feeds a decoder one byte at a time; [push] on any slice agrees with it,
    so the way the body is cut into slices does not matter. *)

Definition byte_step (d : Decoder) (b : Byte.byte) : Res (Decoder * bytes) :=
  '(d', _, emitted) ← push_turn d [b];
  Ok (d', emitted).

Fixpoint run (d : Decoder) (s : bytes) : Res (Decoder * bytes) :=
  match s with
  | [] => Ok (d, [])
  | b :: s' =>
      '(d1, o1) ← byte_step d b;
      '(d2, o2) ← run d1 s';
      Ok (d2, o1 ++ o2)
  end.

Definition ok_of {A} (r : Res A) : option A := match r with Ok a => Some a | _ => None end.

Definition decoder_ok (d : Decoder) : Prop :=
  match state d with Data r => 0 < r | _ => True end.

(** A turn, then the rest byte by byte. *)
Definition turn_then_run (d : Decoder) (s : bytes) : Res (Decoder * bytes) :=
  '(d', rest, o1) ← push_turn d s;
  '(d2, o2) ← run d' rest;
  Ok (d2, o1 ++ o2).

Lemma u64_add_assoc1 x k : u64_add (u64_add x 1) k = u64_add x (k + 1).
Proof. unfold u64_add, wrap64. rewrite Zplus_mod_idemp_l. f_equal. lia. Qed.

Lemma parse_chunk_size_nonneg s n : parse_chunk_size s = Ok n -> 0 <= n.
Proof.
  unfold parse_chunk_size, u64_from_str_radix. destruct (is_empty_str _); [done |].
  destruct (trim _) as [|a t]; [done |].
  assert (forall u m, digits_value 16 0 u = Some m -> 0 <= m) as Hd.
  { intros u m Hm. apply digits_value_range in Hm; unfold U64_MAX, is_u64 in *; lia. }
  repeat case_match; intros; simplify_eq; eauto.
Qed.

Lemma header_turn s : forall d, s <> [] -> state d = Header -> turn_then_run d s = run d s.
Proof.
  induction s as [|b s IH]; intros d Hne Hst; [done |]. clear Hne.
  unfold turn_then_run, byte_step. cbn [run]. unfold byte_step, push_turn. rewrite Hst.
  cbn [feed_line]. destruct (ends_with_crlf (line_buf d ++ [b])) eqn:Ee.
  - cbn [mbind outcome_bind]. destruct (from_utf8 _) as [h | |]; [| done..]. cbn [mbind outcome_bind].
    destruct (parse_chunk_size h) as [n | |]; [| done..]. done.
  - destruct (MAX_TRAILER_SECTION_BYTES <? zlen (line_buf d ++ [b])); [done |].
    cbn [mbind outcome_bind]. destruct s as [|b' s].
    { cbn [feed_line mbind outcome_bind run]. done. }
    assert (state (with_line d (line_buf d ++ [b]) 1) = Header) as Hst' by done.
    specialize (IH _ ltac:(done) Hst'). unfold turn_then_run, push_turn in IH. rewrite Hst' in IH.
    rewrite IH. destruct (run _ (b' :: s)) as [[d2 o2] | |]; done.
Qed.

Lemma trailers_turn s : forall d, s <> [] -> state d = Trailers -> turn_then_run d s = run d s.
Proof.
  induction s as [|b s IH]; intros d Hne Hst; [done |]. clear Hne.
  unfold turn_then_run, byte_step. cbn [run]. unfold byte_step, push_turn. rewrite Hst.
  cbn [feed_trailers]. destruct (ends_section (line_buf d ++ [b])) eqn:Ee.
  - cbn [mbind outcome_bind]. destruct (parse_trailers _) as [[ts r] | |]; done.
  - destruct (MAX_TRAILER_SECTION_BYTES <? zlen (line_buf d ++ [b])); [done |].
    cbn [mbind outcome_bind]. destruct s as [|b' s]; [done |].
    assert (state (with_line d (line_buf d ++ [b]) 1) = Trailers) as Hst' by done.
    specialize (IH _ ltac:(done) Hst'). unfold turn_then_run, push_turn in IH. rewrite Hst' in IH.
    rewrite IH. destruct (run _ (b' :: s)) as [[d2 o2] | |]; done.
Qed.

Lemma data_turn s : forall d r, s <> [] -> state d = Data r -> 0 < r -> turn_then_run d s = run d s.
Proof.
  induction s as [|b s IH]; intros d r Hne Hst Hr; [done |]. clear Hne.
  unfold turn_then_run. cbn [run]. unfold byte_step, push_turn. rewrite Hst.
  cbn [mbind outcome_bind]. change (zlen [b]) with 1. rewrite (zlen_cons b s).
  pose proof (zlen_nonneg s). replace (Z.min r 1) with 1 by lia.
  change (sub_list [b] 0 1) with [b].
  destruct (Z.eqb_spec (r - 1) 0) as [E1 | E1].
  - replace (Z.min r (zlen s + 1)) with 1 by lia. by rewrite E1.
  - set (d1 := mkDecoder (Data (r - 1)) (line_buf d) (u64_add (decoded_len d) 1) (dec_trailers d)
                 (u64_add (total_raw d) 1)).
    destruct s as [|b' s].
    { change (zlen []) with 0. replace (Z.min r (0 + 1)) with 1 by lia.
      rewrite (proj2 (Z.eqb_neq _ _)) by lia. done. }
    specialize (IH d1 (r - 1) ltac:(done) eq_refl ltac:(lia)). rewrite <- IH.
    unfold turn_then_run, push_turn. cbn [state d1 mbind outcome_bind line_buf decoded_len dec_trailers total_raw].
    rewrite !u64_add_assoc1, (zlen_cons b' s). pose proof (zlen_nonneg s).
    set (k := Z.min (r - 1) (zlen s + 1)). replace (Z.min r (zlen s + 1 + 1)) with (k + 1) by lia.
    replace (r - (k + 1)) with (r - 1 - k) by lia.
    replace (Z.to_nat (k + 1)) with (S (Z.to_nat k)) by lia. cbn [drop].
    assert (sub_list (b :: b' :: s) 0 (k + 1) = b :: sub_list (b' :: s) 0 k) as ->.
    { unfold sub_list. replace (Z.to_nat (k + 1 - 0)) with (S (Z.to_nat (k - 0))) by lia. done. }
    clear IH. rewrite outcome_bind_assoc.
    match goal with |- ?m ≫= _ = _ => destruct m as [[d2 o2] | |] end; reflexivity.
Qed.

Lemma push_turn_ok d s d' rest o :
  decoder_ok d -> push_turn d s = Ok (d', rest, o) -> decoder_ok d'.
Proof.
  assert (forall x, state x = Header \/ state x = Trailers \/ state x = Done -> decoder_ok x) as Hnd.
  { intros x [E | [E | E]]; unfold decoder_ok; by rewrite E. }
  assert (forall x t, forall y r c, feed_line x t = Ok (y, r, c) -> state y = state x) as Hfl.
  { intros x t. revert x. induction t as [|b t IH]; intros x y r c; cbn [feed_line]; [by intros [= <- <- <-] |].
    repeat case_match; try done; [by intros [= <- <- <-] | by intros ->%IH]. }
  assert (forall x t, forall y r c, feed_trailers x t = Ok (y, r, c) -> state y = state x) as Hft.
  { intros x t. revert x. induction t as [|b t IH]; intros x y r c; cbn [feed_trailers]; [by intros [= <- <- <-] |].
    repeat case_match; try done; [by intros [= <- <- <-] | by intros ->%IH]. }
  intros Hok Ht. unfold push_turn in Ht. destruct (state d) as [| r | seen | |] eqn:Es; [| | | | done].
  - apply bind_Ok_inv in Ht as ([[d1 r1] c] & Ef & Ht). destruct c.
    + okinv. unfold decoder_ok; cbn. apply parse_chunk_size_nonneg in E0. bsplit_goal; [done | lia].
    + okinv. apply Hfl in Ef. apply Hnd. left. congruence.
  - okinv. unfold decoder_ok in *. rewrite Es in Hok. cbn. bsplit_goal; [done |]. lia.
  - destruct s as [|b s]; [by okinv |]. destruct (negb _); [done |]. okinv. by destruct seen.
  - apply bind_Ok_inv in Ht as ([[d1 r1] c] & Ef & Ht). destruct c.
    + apply bind_Ok_inv in Ht as ([ts r2] & _ & Ht). by okinv.
    + okinv. apply Hft in Ef. apply Hnd. right. left. congruence.
Qed.

Lemma turn_run d s : decoder_ok d -> s <> [] -> ok_of (turn_then_run d s) = ok_of (run d s).
Proof.
  intros Hok Hne. destruct (state d) as [| r | seen | |] eqn:Es.
  - by rewrite header_turn.
  - unfold decoder_ok in Hok. rewrite Es in Hok. by rewrite (data_turn s d r).
  - destruct s as [|b s]; [done |]. unfold turn_then_run, byte_step. cbn [run].
    unfold byte_step, push_turn. rewrite Es. destruct (negb _); [done |].
    cbn [mbind outcome_bind]. by destruct (run _ _) as [[] | |].
  - by rewrite trailers_turn.
  - destruct s as [|b s]; [done |]. unfold turn_then_run. cbn [run]. unfold byte_step, push_turn.
    by rewrite Es.
Qed.

Lemma push_turn_shorter d s d' rest o :
  decoder_ok d -> s <> [] -> push_turn d s = Ok (d', rest, o) -> (length rest < length s)%nat.
Proof.
  assert (forall t x y r c, feed_line x t = Ok (y, r, c) -> (length r <= pred (length t))%nat) as Hfl.
  { induction t as [|b t IH]; intros x y r c; cbn [feed_line]; [by intros [= <- <- <-] |].
    repeat case_match; try done; [by intros [= <- <- <-] | intros ?%IH; cbn; lia]. }
  assert (forall t x y r c, feed_trailers x t = Ok (y, r, c) -> (length r <= pred (length t))%nat) as Hft.
  { induction t as [|b t IH]; intros x y r c; cbn [feed_trailers]; [by intros [= <- <- <-] |].
    repeat case_match; try done; [by intros [= <- <- <-] | intros ?%IH; cbn; lia]. }
  intros Hok Hne Ht. unfold push_turn in Ht.
  assert (0 < length s)%nat by (destruct s; cbn; [done | lia]).
  destruct (state d) as [| r | seen | |] eqn:Es; [| | | | done].
  - apply bind_Ok_inv in Ht as ([[d1 r1] c] & Ef & Ht). apply Hfl in Ef. destruct c; okinv; cbn; lia.
  - okinv. unfold decoder_ok in Hok. rewrite Es in Hok. rewrite length_drop. unfold zlen. lia.
  - destruct s as [|b s]; [done |]. destruct (negb _); [done |]. okinv. cbn. lia.
  - apply bind_Ok_inv in Ht as ([[d1 r1] c] & Ef & Ht). apply Hft in Ef. destruct c.
    + apply bind_Ok_inv in Ht as ([ts r2] & _ & Ht). okinv. lia.
    + okinv. cbn. lia.
Qed.

(** [push] is [run], whatever the slice. *)
Lemma push_loop_run fuel : forall d s out,
  decoder_ok d -> (length s <= fuel)%nat ->
  ok_of (push_loop fuel d s out) = ok_of ('(d', o) ← run d s; Ok (d', out ++ o)).
Proof.
  induction fuel as [|f IH]; intros d s out Hok Hlen.
  { destruct s; [| cbn in Hlen; lia]. cbn. by rewrite app_nil_r. }
  destruct s as [|b s]; [cbn; by rewrite app_nil_r |]. cbn [push_loop].
  pose proof (turn_run d (b :: s) Hok ltac:(done)) as Hturn. unfold turn_then_run in Hturn.
  destruct (push_turn d (b :: s)) as [[[d1 rest] o1] | |] eqn:Et;
    [| cbn [mbind outcome_bind ok_of] in *; by destruct (run d (b :: s)) as [[] | |]..].
  pose proof (push_turn_ok _ _ _ _ _ Hok Et) as Hok1.
  apply push_turn_shorter in Et; [| done..]. cbn [length] in Hlen, Et. cbn [mbind outcome_bind] in *.
  rewrite IH by (done || lia).
  destruct (run d1 rest) as [[d2 o2] | |], (run d (b :: s)) as [[d3 o3] | |]; cbn in *; try done.
  injection Hturn as -> <-. by rewrite app_assoc.
Qed.

Lemma push_run d s : decoder_ok d -> ok_of (push d s) = ok_of (run d s).
Proof.
  intros Hok. unfold push. rewrite push_loop_run by done.
  by destruct (run d s) as [[] | |].
Qed.

Lemma run_app s t : forall d,
  run d (s ++ t) = ('(d1, o1) ← run d s; '(d2, o2) ← run d1 t; Ok (d2, o1 ++ o2)).
Proof.
  induction s as [|b s IH]; intros d; cbn [run app].
  - cbn. by destruct (run d t) as [[] | |].
  - destruct (byte_step d b) as [[d1 o1] | |]; [| done..]. cbn [mbind outcome_bind]. rewrite IH.
    destruct (run d1 s) as [[d2 o2] | |]; [| done..]. cbn [mbind outcome_bind].
    destruct (run d2 t) as [[d3 o3] | |]; [| done..]. cbn. by rewrite app_assoc.
Qed.

(** Feed a list of slices. *)
Fixpoint push_all (d : Decoder) (slices : list bytes) : Res (Decoder * bytes) :=
  match slices with
  | [] => Ok (d, [])
  | s :: slices' =>
      '(d1, o1) ← push d s;
      '(d2, o2) ← push_all d1 slices';
      Ok (d2, o1 ++ o2)
  end.

Lemma byte_step_ok d b d' o : decoder_ok d -> byte_step d b = Ok (d', o) -> decoder_ok d'.
Proof.
  intros Hok. unfold byte_step. intros Ht. apply bind_Ok_inv in Ht as ([[d1 r] o1] & Ht & Hr).
  okinv. by eapply push_turn_ok.
Qed.

Lemma run_ok s : forall d d' o, decoder_ok d -> run d s = Ok (d', o) -> decoder_ok d'.
Proof.
  induction s as [|b s IH]; intros d d' o Hok; cbn [run]; [by intros [= <- <-] |].
  intros H. apply bind_Ok_inv in H as ([d1 o1] & Hb & H). apply bind_Ok_inv in H as ([d2 o2] & Hr & H).
  okinv. eapply IH, Hr. by eapply byte_step_ok.
Qed.

Lemma push_all_run slices : forall d,
  decoder_ok d -> ok_of (push_all d slices) = ok_of (run d (concat slices)).
Proof.
  induction slices as [|s slices IH]; intros d Hok; cbn [push_all concat]; [done |].
  rewrite run_app. pose proof (push_run d s Hok) as Hs.
  destruct (push d s) as [[d1 o1] | |], (run d s) as [[d1' o1'] | |] eqn:Er; cbn in Hs |- *; try done.
  injection Hs as -> ->. pose proof (run_ok _ _ _ _ Hok Er) as Hok1. specialize (IH d1' Hok1).
  destruct (push_all d1' slices) as [[d2 o2] | |], (run d1' (concat slices)) as [[d2' o2'] | |];
    cbn in *; try done. by injection IH as -> ->.
Qed.

(** The incremental decoder does not see how the network cut the body.
    Feeding the slices of a body one after the other succeeds exactly when
    feeding the whole body at once does, with the same decoded bytes, the same
    trailers and the same internal state. *)
Theorem incremental_split_invariant slices :
  ok_of (push_all new slices) = ok_of (push new (concat slices)).
Proof. rewrite push_all_run, push_run by done. done. Qed.

(** ** Lines of the body *)

Lemma split_crlf_cons b s :
  split_crlf (b :: s) =
  match s with
  | b' :: s'' =>
      if bool_decide (b = CR) && bool_decide (b' = LF) then Some ([], s'')
      else '(line, rest) ← split_crlf s; Some (b :: line, rest)
  | [] => None
  end.
Proof. done. Qed.

Lemma crlf_head_spec b b' :
  bool_decide (b = CR) && bool_decide (b' = LF) = true <-> b = CR /\ b' = LF.
Proof. rewrite andb_true_iff, !bool_decide_eq_true. done. Qed.

Lemma split_crlf_None s : split_crlf s = None <-> forall x y, s <> x ++ CRLF ++ y.
Proof.
  induction s as [|b s IH]; [split; [intros _ [|??] y; discriminate | done] |].
  rewrite split_crlf_cons. destruct s as [|b' s].
  { split; [| done]. intros _ x y. destruct x as [|? [|??]]; discriminate. }
  destruct (bool_decide (b = CR) && bool_decide (b' = LF)) eqn:Eh.
  - apply crlf_head_spec in Eh as [-> ->]. split; [done |]. intros H. by destruct (H [] s).
  - destruct (split_crlf (b' :: s)) as [[line rest] |]; cbn.
    + split; [done |]. intros H. exfalso.
      assert (Some (line, rest) = None); [| done].
      apply IH. intros x y E. apply (H (b :: x) y). by rewrite E.
    + split; [| done]. intros _ x y E. destruct x as [|a x]; cbn in E.
      * injection E as -> -> _. by cbn in Eh.
      * injection E as -> E. by apply (proj1 IH eq_refl x y).
Qed.

Lemma split_crlf_Some s line rest :
  split_crlf s = Some (line, rest) -> s = line ++ CRLF ++ rest /\ split_crlf line = None.
Proof.
  revert line rest. induction s as [|b s IH]; intros line rest; [done |].
  rewrite split_crlf_cons. destruct s as [|b' s]; [done |].
  destruct (bool_decide (b = CR) && bool_decide (b' = LF)) eqn:Eh.
  - apply crlf_head_spec in Eh as [-> ->]. intros [= <- <-]. done.
  - intros ([l r] & E & [= <- <-])%bind_Some. apply IH in E as [E Hl]. split; [cbn; by rewrite E |].
    rewrite split_crlf_cons. destruct l as [|b'' l]; [done |]. injection E as <- _.
    rewrite Eh. by rewrite Hl.
Qed.

Lemma no_crlf_snoc l b :
  split_crlf l = None -> ends_with_crlf (l ++ [b]) = false -> split_crlf (l ++ [b]) = None.
Proof.
  rewrite !split_crlf_None. intros Hl He x y E. apply bool_decide_eq_false in He.
  destruct y as [|c y _] using rev_ind.
  - apply He. exists x. by rewrite E, app_nil_r.
  - rewrite !app_assoc in E. apply app_inj_tail in E as [E _]. apply (Hl x y).
    by rewrite E, app_assoc.
Qed.

Lemma split_crlf_app line rest :
  split_crlf line = None -> split_crlf (line ++ CRLF ++ rest) = Some (line, rest).
Proof.
  intros Hl. destruct (split_crlf (line ++ CRLF ++ rest)) as [[l r] |] eqn:E.
  - apply split_crlf_Some in E as [E Hn]. rewrite split_crlf_None in Hl, Hn.
    destruct (app_eq_inv _ _ _ _ E) as [(k & -> & E') | (k & -> & E')].
    + destruct k as [|c [|c' k]]; cbn in E'.
      * rewrite app_nil_r. by injection E' as <-.
      * discriminate E'.
      * injection E' as <- <- _. by destruct (Hl l k).
    + destruct k as [|c [|c' k]]; cbn in E'.
      * rewrite app_nil_r. by injection E' as <-.
      * discriminate E'.
      * injection E' as <- <- _. by destruct (Hn line k).
  - rewrite split_crlf_None in E. by destruct (E line rest).
Qed.

(** A prefix without CRLF ends before the first one does. *)
Lemma split_crlf_prefix p s line rest :
  split_crlf p = None -> split_crlf (p ++ s) = Some (line, rest) -> zlen p <= zlen line + 1.
Proof.
  intros Hp [E _]%split_crlf_Some. rewrite split_crlf_None in Hp. unfold zlen.
  destruct (Nat.le_gt_cases (length p) (length line + 1)) as [| Hgt]; [lia |]. exfalso.
  apply (f_equal (take (length p))) in E. rewrite take_app_length in E.
  rewrite take_app_ge in E by lia. rewrite take_app_ge in E by (cbn; lia).
  exact (Hp _ _ E).
Qed.

(** ** The incremental decoder on a whole body *)

(** The decoder after a complete header line. *)
Definition header_next (d : Decoder) (line : bytes) (raw : Z) : Res Decoder :=
  h ← from_utf8 line;
  n ← parse_chunk_size h;
  Ok (mkDecoder (if n =? 0 then Trailers else Data n) [] (decoded_len d) (dec_trailers d) raw).

Lemma ends_with_crlf_snoc l b :
  ends_with_crlf (l ++ [b]) = true -> exists x, l = x ++ [CR] /\ b = LF.
Proof.
  intros [x Hx]%bool_decide_eq_true. exists x. change CRLF with ([CR] ++ [LF]) in Hx.
  rewrite app_assoc in Hx. by apply app_inj_tail in Hx.
Qed.

Lemma no_crlf_app_l x y : split_crlf (x ++ y) = None -> split_crlf x = None.
Proof.
  rewrite !split_crlf_None. intros H a b ->. apply (H a (b ++ y)). by rewrite <- !app_assoc.
Qed.

Lemma byte_step_header d b :
  state d = Header ->
  byte_step d b =
  let buf := line_buf d ++ [b] in
  if ends_with_crlf buf
  then d' ← header_next d (take (length buf - 2) buf) (u64_add (total_raw d) 1); Ok (d', [])
  else if MAX_TRAILER_SECTION_BYTES <? zlen buf
  then Err (InvalidChunkHeader "Chunk header line exceeds maximum size")
  else Ok (with_line d buf 1, []).
Proof.
  intros Hst. unfold byte_step, push_turn, header_next. rewrite Hst. cbn [feed_line].
  destruct (ends_with_crlf _).
  - cbn [mbind outcome_bind with_line line_buf]. destruct (from_utf8 _); [| done..].
    cbn. destruct (parse_chunk_size _); done.
  - by destruct (_ <? _).
Qed.

Lemma header_run s : forall d,
  state d = Header -> split_crlf (line_buf d) = None ->
  match split_crlf (line_buf d ++ s) with
  | None => forall d' o, run d s = Ok (d', o) -> state d' = Header
  | Some (line, rest) =>
      forall r, run d s = Ok r -> exists raw, (d1 ← header_next d line raw; run d1 rest) = Ok r
  end.
Proof.
  induction s as [|b s IH]; intros d Hst Hbuf.
  { rewrite app_nil_r, Hbuf. cbn. by intros d' o [= <- _]. }
  cbn [run]. rewrite (byte_step_header d b Hst). cbv zeta.
  destruct (ends_with_crlf (line_buf d ++ [b])) eqn:Ee.
  - apply ends_with_crlf_snoc in Ee as (x & Ex & ->). rewrite Ex in Hbuf |- *.
    change (LF :: s) with ([LF] ++ s).
    assert ((x ++ [CR]) ++ [LF] ++ s = x ++ CRLF ++ s) as -> by (by rewrite <- !app_assoc).
    rewrite (split_crlf_app x s) by (by eapply no_crlf_app_l).
    assert (take (length ((x ++ [CR]) ++ [LF]) - 2) ((x ++ [CR]) ++ [LF]) = x) as ->.
    { rewrite <- app_assoc, length_app. cbn. by rewrite Nat.add_sub, take_app_length. }
    intros r Hr. exists (u64_add (total_raw d) 1).
    destruct (header_next d x _) as [d1 | |]; [| done..]. cbn [mbind outcome_bind] in *.
    by destruct (run d1 s) as [[] | |].
  - pose proof (no_crlf_snoc _ _ Hbuf Ee) as Hbuf'.
    replace (line_buf d ++ b :: s) with ((line_buf d ++ [b]) ++ s) by (by rewrite <- app_assoc).
    destruct (_ <? _); [by repeat case_match |].
    specialize (IH (with_line d (line_buf d ++ [b]) 1) Hst Hbuf'). cbn [line_buf with_line] in IH.
    cbn [mbind outcome_bind].
    destruct (split_crlf ((line_buf d ++ [b]) ++ s)) as [[line rest] |].
    + intros r Hr. destruct (run _ s) as [[d2 o2] | |] eqn:Er; [| done..].
      cbn in Hr. injection Hr as <-. destruct (IH _ eq_refl) as [raw Hraw]. exists raw. exact Hraw.
    + intros d' o Hr. destruct (run _ s) as [[d2 o2] | |] eqn:Er; [| done..].
      cbn in Hr. injection Hr as <- _. by eapply IH.
Qed.

(** Data bytes: all of them, or the body ended early. *)
Lemma data_run d n s d' o :
  state d = Data n -> 0 < n -> run d s = Ok (d', o) ->
  (zlen s < n /\ exists m, state d' = Data m) \/
  (n <= zlen s /\ exists o2 raw, o = sub_list s 0 n ++ o2 /\
     run (mkDecoder (DataCrlf false) (line_buf d) (u64_add (decoded_len d) n) (dec_trailers d) raw)
       (drop (Z.to_nat n) s) = Ok (d', o2)).
Proof.
  intros Hst Hn Hr. destruct s as [|b s].
  { injection Hr as <- <-. left. rewrite zlen_nil. split; [done | eauto]. }
  rewrite <- (data_turn (b :: s) d n ltac:(done) Hst Hn) in Hr. unfold turn_then_run, push_turn in Hr.
  rewrite Hst in Hr. cbn [mbind outcome_bind] in Hr.
  destruct (Z.lt_ge_cases (zlen (b :: s)) n) as [Hlt | Hge].
  - left. split; [done |]. rewrite Z.min_r in Hr by lia. rewrite (proj2 (Z.eqb_neq _ _)) in Hr by lia.
    rewrite drop_ge in Hr by (unfold zlen; lia). cbn in Hr. injection Hr as <- _. cbn. eauto.
  - right. split; [done |]. rewrite Z.min_l, Z.sub_diag in Hr by lia. cbn [Z.eqb] in Hr.
    apply bind_Ok_inv in Hr as ([d2 o2] & Hr & E). okinv. eauto.
Qed.

Lemma data_crlf_run d s d' o :
  state d = DataCrlf false -> run d s = Ok (d', o) -> state d' = Done ->
  exists rest raw, s = CRLF ++ rest /\
    run (mkDecoder Header (line_buf d) (decoded_len d) (dec_trailers d) raw) rest = Ok (d', o).
Proof.
  intros Hst Hr Hd. destruct s as [|b s]; cbn [run] in Hr; [injection Hr as <- _; congruence |].
  apply bind_Ok_inv in Hr as ([d1 o1] & H1 & Hr). unfold byte_step, push_turn in H1.
  rewrite Hst in H1. destruct (decide (b = CR)) as [-> |]; [| by rewrite bool_decide_false in H1].
  rewrite bool_decide_true in H1 by done. cbn in H1. injection H1 as <- <-.
  apply bind_Ok_inv in Hr as ([d2 o2] & Hr & E). okinv. cbn [app].
  destruct s as [|b s]; cbn [run] in Hr; [injection Hr as <- _; discriminate |].
  apply bind_Ok_inv in Hr as ([d1 o1] & H1 & Hr). unfold byte_step, push_turn in H1. cbn [state] in H1.
  destruct (decide (b = LF)) as [-> |]; [| by rewrite bool_decide_false in H1].
  rewrite bool_decide_true in H1 by done. cbn in H1. injection H1 as <- <-.
  apply bind_Ok_inv in Hr as ([d2 o3] & Hr & E). okinv. cbn [app]. eauto.
Qed.

Lemma trailers_run s : forall d d' o,
  state d = Trailers -> run d s = Ok (d', o) -> state d' = Done ->
  exists r, parse_trailers (line_buf d ++ s) = Ok (dec_trailers d', r) /\
    decoded_len d' = decoded_len d /\ o = [] /\
    forall p q, s = p ++ q -> p <> [] -> q <> [] -> ends_section (line_buf d ++ p) = false.
Proof.
  induction s as [|b s IH]; intros d d' o Hst Hr Hd; cbn [run] in Hr; [injection Hr as <- _; congruence |].
  apply bind_Ok_inv in Hr as ([d1 o1] & H1 & Hr). unfold byte_step, push_turn in H1.
  rewrite Hst in H1. cbn [feed_trailers] in H1.
  destruct (ends_section (line_buf d ++ [b])) eqn:Ee.
  - cbn [mbind outcome_bind with_line line_buf] in H1.
    destruct (parse_trailers (line_buf d ++ [b])) as [[ts r] | |] eqn:Ep; [| done..].
    cbn in H1. injection H1 as <- <-.
    apply bind_Ok_inv in Hr as ([d2 o2] & Hr & E). okinv.
    destruct s as [|b' s]; [| by cbn in Hr]. cbn in Hr. injection Hr as <- <-. cbn.
    exists r. split; [done |]. split; [done |]. split; [done |].
    intros p q E Hp Hq. destruct p as [|c [|c' p]]; [done | injection E as _ E; by destruct q | discriminate].
  - destruct (_ <? _); [done |]. cbn in H1. injection H1 as <- <-.
    apply bind_Ok_inv in Hr as ([d2 o2] & Hr & E). okinv.
    destruct (IH (with_line d (line_buf d ++ [b]) 1) d' o Hst Hr Hd) as (r & Hp & Hdl & -> & Hpre).
    cbn [line_buf with_line decoded_len] in *. rewrite <- app_assoc in Hp. exists r.
    split; [done |]. split; [done |]. split; [done |].
    intros p q E Hpn Hq. destruct p as [|c p]; [done |]. injection E as -> ->.
    destruct p as [|c' p]; [done |]. specialize (Hpre (c' :: p) q eq_refl ltac:(done) Hq).
    by rewrite <- app_assoc in Hpre.
Qed.

Lemma ends_section_extend line sec :
  ends_section sec = true -> ends_section (line ++ CRLF ++ sec) = true.
Proof.
  unfold ends_section. rewrite !orb_true_iff, !bool_decide_eq_true. intros [-> | [k ->]]; right.
  - by exists line.
  - exists (line ++ CRLF ++ k). by rewrite <- !app_assoc.
Qed.

Lemma parse_trailers_loop_prefix fuel : forall c s ts r,
  parse_trailers_loop fuel c s = Ok (ts, r) -> exists sec, s = sec ++ r /\ ends_section sec = true.
Proof.
  induction fuel as [|f IH]; intros c s ts r; cbn [parse_trailers_loop]; [done |].
  destruct s as [|b [|b' s]]; [done.. |].
  destruct (bool_decide (b = CR) && bool_decide (b' = LF)) eqn:Eh.
  - apply crlf_head_spec in Eh as [-> ->]. intros [= <- <-]. by exists CRLF.
  - destruct (split_crlf (b :: b' :: s)) as [[line after] |] eqn:Es; [| done].
    apply split_crlf_Some in Es as [-> _]. destruct (_ <? _); [done |]. intros H.
    apply bind_Ok_inv in H as (t & _ & H). apply bind_Ok_inv in H as ([ts' r'] & H & E). okinv.
    apply IH in H as (sec & -> & Hsec). exists (line ++ CRLF ++ sec).
    split; [by rewrite <- !app_assoc | by apply ends_section_extend].
Qed.

Lemma u64_add_assoc x a b : u64_add (u64_add x a) b = u64_add x (a + b).
Proof. unfold u64_add, wrap64. rewrite Zplus_mod_idemp_l. f_equal. lia. Qed.

(** From a chunk boundary to the end of a body the incremental decoder accepts. *)
Lemma decode_loop_sound body_len fuel : forall rest result d d' o,
  (length rest < fuel)%nat -> zlen rest <= body_len -> body_len < 2 ^ 63 ->
  state d = Header -> line_buf d = [] -> is_u64 (decoded_len d) ->
  run d rest = Ok (d', o) -> state d' = Done ->
  decode_loop fuel body_len rest result = Ok (mkDecoded (result ++ o) (dec_trailers d')) /\
  decoded_len d' = u64_add (decoded_len d) (zlen o) /\ zlen o <= zlen rest.
Proof.
  induction fuel as [|f IH]; intros rest result d d' o Hlen Hbl Hbm Hst Hlb Hdl Hr Hd; [lia |].
  cbn [decode_loop]. pose proof (header_run rest d Hst ltac:(by rewrite Hlb)) as Hh.
  rewrite Hlb in Hh. cbn [app] in Hh.
  destruct (split_crlf rest) as [[line rest1] |] eqn:Es; [| specialize (Hh _ _ Hr); congruence].
  destruct (Hh _ Hr) as [raw Hh']. clear Hh Hr. apply bind_Ok_inv in Hh' as (d1 & Hn & Hr).
  unfold header_next in Hn. apply bind_Ok_inv in Hn as (h & -> & Hn).
  apply bind_Ok_inv in Hn as (n & Hps & Hn). cbn [mbind outcome_bind]. rewrite Hps.
  cbn [mbind outcome_bind].
  apply parse_chunk_size_nonneg in Hps. injection Hn as <-.
  apply split_crlf_Some in Es as [-> _]. rewrite !length_app in Hlen. rewrite !zlen_app in Hbl.
  pose proof (zlen_nonneg line). change (length CRLF) with 2%nat in Hlen. change (zlen CRLF) with 2 in Hbl.
  destruct (Z.eqb_spec n 0) as [-> | Hn0].
  - apply trailers_run in Hr as (r & Hp & Hdl' & -> & Hpre); [| done..]. cbn [line_buf app decoded_len] in *.
    rewrite Hp. cbn [mbind outcome_bind]. pose proof Hp as Hsec. apply parse_trailers_loop_prefix in Hsec
      as (sec & Esec & Hsec).
    assert (r = []) as ->.
    { destruct r as [|c r]; [done |]. rewrite (Hpre sec (c :: r)) in Hsec; [done | done | | done].
      intros ->. done. }
    rewrite app_nil_r. split; [done |]. rewrite Hdl', zlen_nil. unfold is_u64 in Hdl. u64.
    split; [lia | apply zlen_nonneg].
  - apply data_run with (n := n) in Hr; [| done | lia].
    destruct Hr as [[_ [m Hm]] | (Hge & o2 & raw' & -> & Hr)]; [congruence |].
    cbn [line_buf decoded_len dec_trailers] in Hr.
    apply data_crlf_run in Hr as (rest2 & raw2 & Ed & Hr); [| done..].
    cbn [line_buf decoded_len dec_trailers] in Hr.
    assert (zlen (drop (Z.to_nat n) rest1) = zlen rest1 - n) as Hdrop
      by (unfold zlen in *; rewrite length_drop; lia).
    assert (zlen rest2 = zlen rest1 - n - 2) as Hr2.
    { rewrite Ed, zlen_app in Hdrop. change (zlen CRLF) with 2 in Hdrop. lia. }
    pose proof (zlen_nonneg rest2). unfold checked_add, U64_MAX.
    rewrite (proj2 (Z.leb_le _ _)) by lia. rewrite (proj2 (Z.ltb_ge _ _)) by lia.
    rewrite (proj2 (Z.leb_le _ _)) by lia. rewrite (proj2 (Z.ltb_ge _ _)) by lia.
    rewrite Ed. change (sub_list (CRLF ++ rest2) 0 2) with CRLF. rewrite bool_decide_true by done.
    cbn [negb]. change (drop 2 (CRLF ++ rest2)) with rest2.
    edestruct (IH rest2 (result ++ sub_list rest1 0 n)) as (-> & Hdec & Ho2); [| | done | | | | exact Hr | done |];
      [unfold zlen in *; lia | lia | done | done | apply wrap64_range |].
    cbn [decoded_len] in Hdec. rewrite u64_add_assoc in Hdec. split; [by rewrite app_assoc |].
    rewrite Hdec, !zlen_app, zlen_sub_list by lia. change (zlen CRLF) with 2.
    split; [f_equal |]; lia.
Qed.

(** What the streaming path caches is what the buffered decoder would have
    decoded.  If a body, cut into any slices, is accepted by the incremental
    decoder and [finish], then the whole-buffer decoder accepts it, with the same
    object bytes and the same trailers, and the length [finish] reports is the
    number of those bytes. *)
Theorem incremental_agrees_with_whole slices d out t :
  zlen (concat slices) < 2 ^ 63 ->
  push_all new slices = Ok (d, out) -> finish d = Ok t ->
  decode_aws_chunked (concat slices) = Ok (mkDecoded out (at_trailers t)) /\
  at_decoded_len t = zlen out.
Proof.
  intros Hlen Hp Hf. unfold finish in Hf. destruct (state d) eqn:Hd; try done. injection Hf as <-.
  pose proof (push_all_run slices new I) as Hrun. rewrite Hp in Hrun.
  destruct (run new (concat slices)) as [[d1 o1] | |] eqn:Er; [| done..]. injection Hrun as <- <-.
  unfold decode_aws_chunked.
  edestruct (decode_loop_sound (zlen (concat slices)) (S (length (concat slices))) (concat slices) [])
    as (-> & Hdec & Ho); [lia | lia | done | | | | exact Er | done |]; [done | done | done |].
  split; [done |]. cbn [at_decoded_len]. rewrite Hdec. cbn [decoded_len new]. pose proof (zlen_nonneg out).
  u64. lia.
Qed.

Lemma incremental_agrees_with_whole_witness :
  let slices := [str_bytes "3;chunk-sig"; str_bytes "nature=x"; CRLF ++ str_bytes "ab";
                 str_bytes "c" ++ CRLF ++ str_bytes "0"; CRLF; str_bytes "x-sum: 1" ++ CRLF ++ CRLF] in
  exists d, push_all new slices = Ok (d, str_bytes "abc") /\
    decode_aws_chunked (concat slices) = Ok (mkDecoded (str_bytes "abc") [("x-sum", "1")]).
Proof.
  eexists. split; [vm_compute; reflexivity |].
  destruct (incremental_agrees_with_whole
    [str_bytes "3;chunk-sig"; str_bytes "nature=x"; CRLF ++ str_bytes "ab";
     str_bytes "c" ++ CRLF ++ str_bytes "0"; CRLF; str_bytes "x-sum: 1" ++ CRLF ++ CRLF]
    (mkDecoder Done [] 3 [("x-sum", "1")] 41) (str_bytes "abc") (mkTrailers [("x-sum", "1")] 3))
    as [Hd _]; [vm_compute; reflexivity.. | exact Hd].
Defined.

(** ** Round trip *)

Definition is_ascii (a : ascii) : bool := (Ascii.nat_of_ascii a <? 128)%nat.

(** A trailer that the format can carry unchanged: ASCII, no white space and, in
    the key, no colon. *)
Definition token_char (a : ascii) : bool := is_ascii a && negb (is_whitespace a).

Definition trailer_ok (t : string * string) : Prop :=
  all_chars (fun a => token_char a && negb (ascii_eqb a ":"%char)) t.1 = true /\
  all_chars token_char t.2 = true.

Lemma str_bytes_cons a s : str_bytes (String a s) = Ascii.byte_of_ascii a :: str_bytes s.
Proof. done. Qed.

Lemma ascii_all (P : ascii -> Prop) :
  (forall b0 b1 b2 b3 b4 b5 b6 b7, P (Ascii.Ascii b0 b1 b2 b3 b4 b5 b6 b7)) -> forall a, P a.
Proof. intros H [b0 b1 b2 b3 b4 b5 b6 b7]. apply H. Qed.

Lemma byte_of_ascii_facts a :
  (is_ascii a = true -> in_range 0 127 (Ascii.byte_of_ascii a) = true) /\
  (Ascii.byte_of_ascii a = CR -> is_whitespace a = true).
Proof.
  revert a. apply ascii_all. intros [] [] [] [] [] [] [] []; split; intros H; try reflexivity; discriminate H.
Qed.

Lemma str_bytes_utf8 s : all_chars is_ascii s = true -> from_utf8 (str_bytes s) = Ok s.
Proof.
  intros Hs. unfold from_utf8, str_bytes at 3. rewrite String.string_of_list_byte_of_string.
  assert (utf8_valid (length (str_bytes s)) (str_bytes s) = true) as ->; [| done].
  induction s as [|a s IH]; [done |]. cbn [all_chars] in Hs. apply andb_true_iff in Hs as [Ha Hs].
  rewrite str_bytes_cons. cbn [length utf8_valid]. by rewrite (proj1 (byte_of_ascii_facts a)), IH.
Qed.

Lemma no_cr_no_crlf s : all_chars (fun a => negb (is_whitespace a)) s = true -> split_crlf (str_bytes s) = None.
Proof.
  intros Hs. apply split_crlf_None. intros x y E.
  assert (CR ∈ str_bytes s) as Hin.
  { rewrite E. apply elem_of_app. right. left. }
  clear E. induction s as [|a s IH]; [by apply elem_of_nil in Hin |].
  cbn [all_chars] in Hs. apply andb_true_iff in Hs as [Ha Hs]. rewrite str_bytes_cons in Hin.
  apply elem_of_cons in Hin as [Hin | Hin]; [| by apply IH].
  symmetry in Hin. apply (proj2 (byte_of_ascii_facts a)) in Hin. by rewrite Hin in Ha.
Qed.

Lemma plain_ascii s : all_chars is_plain_char s = true -> all_chars is_ascii s = true.
Proof. apply all_chars_impl. intros a. unfold is_plain_char. rewrite !andb_true_iff. tauto. Qed.

(** A header line the encoder writes: its text, and what the decoder reads. *)
Definition header_text (n : Z) : string := u64_to_hex n +:+ ";chunk-signature=" +:+ placeholder_sig.

Lemma header_text_facts n :
  is_u64 n ->
  split_crlf (str_bytes (header_text n)) = None /\ from_utf8 (str_bytes (header_text n)) = Ok (header_text n) /\
  parse_chunk_size (header_text n) = Ok n.
Proof.
  intros Hn. assert (all_chars is_plain_char (u64_to_hex n) = true) as Hp.
  { apply fmt_radix_plain; [lia | unfold is_u64 in Hn; lia | done]. }
  unfold header_text. split; [| split].
  - apply no_cr_no_crlf. by rewrite all_chars_app, (plain_no_space _ Hp).
  - apply str_bytes_utf8. by rewrite all_chars_app, (plain_ascii _ Hp).
  - unfold parse_chunk_size.
    change (u64_to_hex n +:+ ";chunk-signature=" +:+ placeholder_sig) with
      (u64_to_hex n +:+ String ";" ("chunk-signature=" +:+ placeholder_sig)).
    rewrite split_char_app by (by apply plain_no_sep). cbn [head from_option id].
    rewrite trim_id by (by apply plain_no_space).
    destruct (fmt_radix_cons 64 16 n "" ltac:(lia) ltac:(lia) ltac:(unfold is_u64 in Hn; lia))
      as (a & t & Ht & _).
    unfold u64_to_hex. rewrite (u64_roundtrip 16 n) by auto. by rewrite Ht.
Qed.

(** One data chunk of the encoder is one turn of the decoder. *)
Lemma decode_chunk f body_len n chunk rest result :
  is_u64 n -> 0 < n -> zlen chunk = n -> body_len < 2 ^ 63 ->
  zlen (chunk ++ CRLF ++ rest) <= body_len ->
  decode_loop (S f) body_len (str_bytes (header_text n) ++ CRLF ++ chunk ++ CRLF ++ rest) result
  = decode_loop f body_len rest (result ++ chunk).
Proof.
  intros Hn Hn0 Hc Hb Hl. destruct (header_text_facts n Hn) as (Hs & Hu & Hp).
  cbn [decode_loop]. rewrite (split_crlf_app _ _ Hs), Hu. cbn [mbind outcome_bind]. rewrite Hp.
  cbn [mbind outcome_bind]. rewrite (proj2 (Z.eqb_neq n 0)) by lia.
  rewrite !zlen_app in *. pose proof (zlen_nonneg rest). change (zlen CRLF) with 2 in *.
  unfold checked_add, U64_MAX.
  rewrite (proj2 (Z.leb_le _ _)) by lia. rewrite (proj2 (Z.ltb_ge _ _)) by lia.
  rewrite (proj2 (Z.leb_le _ _)) by lia. rewrite (proj2 (Z.ltb_ge _ _)) by lia.
  assert (sub_list (chunk ++ CRLF ++ rest) 0 n = chunk) as ->.
  { unfold sub_list. rewrite drop_0, <- Hc. unfold zlen. rewrite Z.sub_0_r, Nat2Z.id. apply take_app_length. }
  assert (drop (Z.to_nat n) (chunk ++ CRLF ++ rest) = CRLF ++ rest) as ->.
  { rewrite <- Hc. unfold zlen. rewrite Nat2Z.id. apply drop_app_length. }
  change (sub_list (CRLF ++ rest) 0 2) with CRLF. by rewrite bool_decide_true.
Qed.

(** One turn of the encoder's loop: the next chunk and the data after it. *)
Lemma encode_chunks_step fe data cs :
  data <> [] -> 0 < cs ->
  exists n chunk rest, data = chunk ++ rest /\ zlen chunk = n /\ 0 < n /\
    encode_chunks (S fe) data cs
    = str_bytes (header_text n) ++ CRLF ++ chunk ++ CRLF ++ encode_chunks fe rest cs.
Proof.
  intros Hne Hcs. set (n := Z.min (zlen data) cs).
  assert (0 < zlen data) by (unfold zlen; destruct data; cbn [length]; [done | lia]).
  exists n, (sub_list data 0 n), (drop (Z.to_nat n) data). split; [| split; [| split]].
  - unfold sub_list. rewrite drop_0, Z.sub_0_r. by rewrite take_drop.
  - rewrite zlen_sub_list; lia.
  - lia.
  - destruct data; [done |]. cbn [encode_chunks]. fold n. unfold chunk_header. by rewrite <- !app_assoc.
Qed.

Lemma encode_chunks_length cs : forall fe data,
  0 < cs -> (length data <= fe)%nat -> (length data <= length (encode_chunks fe data cs))%nat.
Proof.
  induction fe as [|fe IH]; intros data Hcs Hfe; [destruct data; cbn in *; lia |].
  destruct (decide (data = [])) as [-> | Hne]; [cbn; lia |].
  destruct (encode_chunks_step fe data cs Hne Hcs) as (n & chunk & rest & -> & Hc & Hn & ->).
  rewrite !length_app in *. unfold zlen in Hc. specialize (IH rest Hcs ltac:(lia)). lia.
Qed.

Lemma decode_encoded_chunks cs tail body_len : forall fe data f result,
  0 < cs -> (length data <= fe)%nat -> (length data <= f)%nat -> body_len < 2 ^ 63 ->
  zlen (encode_chunks fe data cs ++ tail) <= body_len ->
  exists f', (f <= f' + length data)%nat /\
    decode_loop f body_len (encode_chunks fe data cs ++ tail) result
    = decode_loop f' body_len tail (result ++ data).
Proof.
  induction fe as [|fe IH]; intros data f result Hcs Hfe Hf Hb Hl.
  { destruct data; [| cbn in Hfe; lia]. exists f. rewrite app_nil_r. split; [lia | done]. }
  destruct (decide (data = [])) as [-> | Hne]; [exists f; rewrite app_nil_r; split; [lia | done] |].
  destruct (encode_chunks_step fe data cs Hne Hcs) as (n & chunk & rest & -> & Hc & Hn & Hen).
  rewrite Hen in Hl |- *. rewrite <- !app_assoc in *. rewrite !length_app in *.
  rewrite !zlen_app in Hl. pose proof (zlen_nonneg (str_bytes (header_text n))).
  change (zlen CRLF) with 2 in Hl. pose proof (zlen_nonneg tail).
  pose proof (zlen_nonneg (encode_chunks fe rest cs)).
  assert (0 < length chunk)%nat by (unfold zlen in Hc; lia). destruct f as [|f]; [lia |].
  rewrite decode_chunk; [| unfold is_u64; lia | lia | done | done |
    rewrite !zlen_app; change (zlen CRLF) with 2; lia].
  destruct (IH rest f (result ++ chunk)) as (f' & Hf' & ->); [done | lia | lia | done | rewrite zlen_app; lia |].
  exists f'. split; [lia |]. by rewrite <- app_assoc.
Qed.

Lemma trailer_line_facts t :
  trailer_ok t ->
  let line := str_bytes (t.1 +:+ ":" +:+ t.2) in
  split_crlf line = None /\ line <> [] /\ parse_trailer_line line = Ok t.
Proof.
  intros [Hk Hv] line. destruct t as [k v]. cbn [fst snd] in *.
  assert (forall P : ascii -> bool, (forall a, token_char a = true -> P a = true) -> P ":"%char = true ->
    all_chars P (k +:+ ":" +:+ v) = true) as Hall.
  { intros P HP Hc. rewrite all_chars_app. change (":" +:+ v) with (String ":" v). cbn [all_chars].
    assert (all_chars P k = true) as ->.
    { revert Hk. apply all_chars_impl. intros a [Ha _]%andb_true_iff. by apply HP. }
    by rewrite Hc, (all_chars_impl token_char P v HP Hv). }
  assert (forall s (Q : ascii -> bool), all_chars Q s = true -> (forall a, Q a = true -> token_char a = true) ->
    trim s = s) as Htrim.
  { intros s Q Hs HQ. apply trim_id. revert Hs. apply all_chars_impl. intros a [_ Ha]%HQ%andb_true_iff. done. }
  split; [| split].
  - apply no_cr_no_crlf, Hall; [| done]. by intros a [_ Ha]%andb_true_iff.
  - unfold line. destruct k; by cbn.
  - unfold parse_trailer_line, line. rewrite str_bytes_utf8; [| apply Hall; [| done]; by intros a [Ha _]%andb_true_iff].
    cbn [mbind outcome_bind]. change (k +:+ ":" +:+ v) with (k +:+ "" +:+ String ":" v).
    change ":" with ("" +:+ String ":" "") at 1.
    rewrite (find_str_ends_at ":" "" k v eq_refl); [| revert Hk; apply all_chars_impl; by intros a [_ Ha]%andb_true_iff].
    rewrite string_take_app, string_drop_app. change (string_drop 1 ("" +:+ String ":" v)) with v.
    rewrite (Htrim k _ Hk), (Htrim v _ Hv); [done | done |]. by intros a [Ha _]%andb_true_iff.
Qed.

Lemma parse_encoded_trailers ts : forall f c,
  Forall trailer_ok ts -> (length ts < f)%nat ->
  c + zlen (concat (trailer_line <$> ts)) <= MAX_TRAILER_SECTION_BYTES ->
  parse_trailers_loop f c (concat (trailer_line <$> ts) ++ CRLF) = Ok (ts, []).
Proof.
  induction ts as [|t ts IH]; intros f c Hok Hf Hl; (destruct f as [|f]; [lia |]); [done |].
  apply Forall_cons_1 in Hok as [Ht Hok]. rewrite fmap_cons in *. cbn [concat] in *.
  destruct (trailer_line_facts t Ht) as (Hs & Hne & Hp).
  change (trailer_line t) with (str_bytes (t.1 +:+ ":" +:+ t.2) ++ CRLF) in *.
  set (line := str_bytes (t.1 +:+ ":" +:+ t.2)) in *. rewrite <- !app_assoc in *.
  rewrite !zlen_app in Hl. change (zlen CRLF) with 2 in Hl.
  pose proof (zlen_nonneg (concat (trailer_line <$> ts))).
  set (rest := concat (trailer_line <$> ts) ++ CRLF). cbn [parse_trailers_loop].
  pose proof (split_crlf_app line rest Hs) as Hsplit.
  destruct (line ++ CRLF ++ rest) as [|b [|b' r]] eqn:Er; [by destruct line | by destruct line as [|? []] |].
  assert (bool_decide (b = CR) && bool_decide (b' = LF) = false) as ->.
  { destruct (bool_decide (b = CR) && bool_decide (b' = LF)) eqn:Eh; [| done].
    apply crlf_head_spec in Eh as [-> ->]. change (CR :: LF :: r) with ([] ++ CRLF ++ r) in Hsplit.
    rewrite (split_crlf_app [] r eq_refl) in Hsplit. injection Hsplit as <- _. done. }
  rewrite Hsplit. rewrite (proj2 (Z.ltb_ge _ _)) by lia. rewrite Hp. cbn [mbind outcome_bind].
  unfold rest. rewrite IH; [done | done | cbn in Hf; lia | lia].
Qed.

Lemma decode_encoded data chunk_size ts body :
  0 < chunk_size -> Forall trailer_ok ts ->
  zlen (concat (trailer_line <$> ts)) <= MAX_TRAILER_SECTION_BYTES ->
  encode_aws_chunked_with_trailers data chunk_size ts = Ok body -> zlen body < 2 ^ 63 ->
  decode_aws_chunked body = Ok (mkDecoded data ts).
Proof.
  intros Hcs Hts Hlen He Hb. unfold encode_aws_chunked_with_trailers, rust_assert in He.
  rewrite (proj2 (Z.ltb_lt 0 chunk_size)) in He by lia.
  assert (body = encode_chunks (length data) data chunk_size
    ++ str_bytes ("0;chunk-signature=" +:+ placeholder_sig) ++ CRLF
    ++ concat (trailer_line <$> ts) ++ CRLF) as ->.
  { apply (f_equal ok_of) in He. by apply (inj Some) in He. }
  clear He. unfold decode_aws_chunked.
  set (tail := str_bytes ("0;chunk-signature=" +:+ placeholder_sig) ++ CRLF
    ++ concat (trailer_line <$> ts) ++ CRLF) in *.
  pose proof (encode_chunks_length chunk_size (length data) data Hcs ltac:(lia)) as Hel.
  destruct (decode_encoded_chunks chunk_size tail (zlen (encode_chunks (length data) data chunk_size ++ tail))
    (length data) data (S (length (encode_chunks (length data) data chunk_size ++ tail))) [])
    as (f' & Hf' & ->); [done | lia | rewrite length_app; lia | done | lia |].
  rewrite length_app in Hf'. destruct f' as [|f']; [lia |]. cbn [app decode_loop].
  change (str_bytes ("0;chunk-signature=" +:+ placeholder_sig)) with (str_bytes (header_text 0)) in tail.
  destruct (header_text_facts 0 ltac:(unfold is_u64; lia)) as (Hs & Hu & Hp).
  unfold tail at 1. rewrite (split_crlf_app _ _ Hs), Hu. cbn [mbind outcome_bind]. rewrite Hp.
  cbn [mbind outcome_bind Z.eqb]. unfold parse_trailers. rewrite parse_encoded_trailers; [done | done | | lia].
  rewrite length_app. clear. induction ts as [|t ts IH]; [cbn; lia |].
  rewrite fmap_cons. cbn [concat length]. rewrite length_app. unfold trailer_line at 1.
  rewrite length_app. change (length CRLF) with 2%nat in *. lia.
Qed.

(** C32: decoding undoes encoding.  For any object bytes, any positive chunk size and
    trailers the format can carry within the section limit, the encoder's output
    decodes to the same bytes and the same trailers. *)
Theorem chunked_roundtrip data chunk_size ts body :
  0 < chunk_size -> Forall trailer_ok ts ->
  zlen (concat (trailer_line <$> ts)) <= MAX_TRAILER_SECTION_BYTES ->
  encode_aws_chunked_with_trailers data chunk_size ts = Ok body -> zlen body < 2 ^ 63 ->
  decode_aws_chunked body = Ok (mkDecoded data ts).
Proof. apply decode_encoded. Qed.

Lemma chunked_roundtrip_witness :
  exists body, encode_aws_chunked_with_trailers (str_bytes "hello world") 4 [("x-amz-checksum-crc32", "AAAA")]
      = Ok body /\
    decode_aws_chunked body = Ok (mkDecoded (str_bytes "hello world") [("x-amz-checksum-crc32", "AAAA")]).
Proof.
  eexists. split; [reflexivity |].
  apply (chunked_roundtrip (str_bytes "hello world") 4 [("x-amz-checksum-crc32", "AAAA")]).
  - lia.
  - repeat constructor.
  - vm_compute. discriminate.
  - reflexivity.
  - vm_compute. reflexivity.
Defined.

(** ** The limit on trailers *)

Lemma trailers_run_bound s : forall d r,
  state d = Trailers -> zlen (line_buf d) <= MAX_TRAILER_SECTION_BYTES -> run d s = Ok r ->
  zlen (line_buf d) + zlen s <= MAX_TRAILER_SECTION_BYTES + 1.
Proof.
  induction s as [|b s IH]; intros d r Hst Hl Hr; [rewrite zlen_nil; lia |].
  cbn [run] in Hr. apply bind_Ok_inv in Hr as ([d1 o1] & H1 & Hr). unfold byte_step, push_turn in H1.
  rewrite Hst in H1. cbn [feed_trailers] in H1. rewrite zlen_cons.
  assert (zlen (line_buf d ++ [b]) = zlen (line_buf d) + 1) as Hlb by (by rewrite zlen_app).
  destruct (ends_section (line_buf d ++ [b])).
  - cbn [mbind outcome_bind with_line line_buf] in H1.
    destruct (parse_trailers _) as [[ts' r'] | |]; [| done..]. cbn in H1. injection H1 as <- <-.
    destruct s as [|b' s]; [rewrite zlen_nil; lia | by cbn in Hr].
  - destruct (Z.ltb_spec MAX_TRAILER_SECTION_BYTES (zlen (line_buf d ++ [b]))); [done |].
    cbn in H1. injection H1 as <- <-. apply bind_Ok_inv in Hr as ([d2 o2] & Hr & _).
    apply (IH (with_line d (line_buf d ++ [b]) 1)) in Hr; [| done | cbn; lia].
    cbn [line_buf with_line] in Hr. lia.
Qed.

(** The two decoders disagree on a trailer section at its limit.  Trailer lines
    of exactly 8192 bytes are within the whole-buffer decoder's limit, which does
    not count the terminal CRLF; the incremental decoder counts it and rejects the
    same body. *)
Theorem trailer_limit_disagreement ts body :
  Forall trailer_ok ts -> zlen (concat (trailer_line <$> ts)) = MAX_TRAILER_SECTION_BYTES ->
  encode_aws_chunked_with_trailers [] 1 ts = Ok body ->
  decode_aws_chunked body = Ok (mkDecoded [] ts) /\ ok_of (push new body) = None.
Proof.
  intros Hts Hlen He.
  assert (body = str_bytes (header_text 0) ++ CRLF ++ concat (trailer_line <$> ts) ++ CRLF) as Eb.
  { apply (f_equal ok_of) in He. by apply (inj Some) in He. }
  assert (zlen body < 2 ^ 63) as Hb.
  { rewrite Eb, !zlen_app, Hlen. change (zlen (str_bytes (header_text 0))) with 82. done. }
  split; [eapply decode_encoded; [.. | exact He | done]; [lia | done | lia] |].
  rewrite push_run by done. destruct (run new body) as [r | |] eqn:Er; [| done..].
  exfalso. pose proof (header_run body new eq_refl eq_refl) as Hh. cbn [line_buf new app] in Hh.
  destruct (header_text_facts 0 ltac:(unfold is_u64; lia)) as (Hs & Hu & Hp).
  rewrite Eb, (split_crlf_app _ _ Hs), <- Eb in Hh. destruct (Hh _ Er) as [raw Hraw].
  unfold header_next in Hraw. rewrite Hu in Hraw. cbn [mbind outcome_bind] in Hraw.
  rewrite Hp in Hraw. cbn [mbind outcome_bind Z.eqb] in Hraw.
  apply trailers_run_bound in Hraw; [| done | done]. cbn [line_buf] in Hraw.
  rewrite zlen_app, Hlen, zlen_nil in Hraw. change (zlen CRLF) with 2 in Hraw. lia.
Qed.

Fixpoint repeat_char (n : nat) (a : ascii) : string :=
  match n with O => EmptyString | S n' => String a (repeat_char n' a) end.

Lemma trailer_limit_disagreement_witness :
  exists body, encode_aws_chunked_with_trailers [] 1 [("k", repeat_char (Z.to_nat 8188) "a"%char)] = Ok body /\
    ok_of (push new body) = None.
Proof.
  eexists. split; [reflexivity |].
  eapply (trailer_limit_disagreement [("k", repeat_char (Z.to_nat 8188) "a"%char)]).
  - apply Forall_singleton. split; vm_compute; reflexivity.
  - vm_compute. reflexivity.
  - reflexivity.
Defined.

End Chunked.
