(* ===== verification/Maps.v ===== *)
(** * Hash maps: iteration order and sums

    A [HashMap] is a [gmap]; the order its iterators visit it in is not
    determined by its contents, so code that iterates takes the order from the
    [HashIter] interface, whose only law is that every entry is visited once. *)

From S2P Require Import Prelude.
From stdpp Require Export gmap strings.

#[local] Open Scope Z_scope.

Class HashIter := {
  hash_iter {A} : gmap string A -> list (string * A);
  hash_iter_perm {A} (m : gmap string A) : hash_iter m ≡ₚ map_to_list m;
}.

(** One possible order. *)
Definition map_order : HashIter :=
  {| hash_iter A m := map_to_list m; hash_iter_perm A m := Permutation_refl _ |}.

Lemma hash_iter_lookup `{HashIter} {A} (m : gmap string A) k x :
  (k, x) ∈ hash_iter m <-> m !! k = Some x.
Proof. by rewrite hash_iter_perm, elem_of_map_to_list. Qed.

Lemma hash_iter_nil `{HashIter} {A} (m : gmap string A) : hash_iter m = [] <-> m = ∅.
Proof.
  split.
  - intros E. apply map_to_list_empty_iff, Permutation_nil. by rewrite <- hash_iter_perm, E.
  - intros ->. apply Permutation_nil. by rewrite hash_iter_perm, map_to_list_empty.
Qed.

(** ** The sum of a measure over a map *)

Definition map_total {A} (f : A -> Z) (m : gmap string A) : Z :=
  sum_by (fun kx => f kx.2) (map_to_list m).

Lemma map_total_empty {A} (f : A -> Z) : map_total f ∅ = 0.
Proof. unfold map_total. by rewrite map_to_list_empty. Qed.

Lemma map_total_insert {A} (f : A -> Z) m k x :
  m !! k = None -> map_total f (<[k:=x]> m) = f x + map_total f m.
Proof. intros Hk. unfold map_total. by rewrite map_to_list_insert. Qed.

Lemma map_total_delete {A} (f : A -> Z) m k x :
  m !! k = Some x -> map_total f (delete k m) = map_total f m - f x.
Proof.
  intros Hk. unfold map_total. rewrite <- (map_to_list_delete m k x Hk). simpl. lia.
Qed.

Lemma map_total_nonneg {A} (f : A -> Z) m : (forall x, 0 <= f x) -> 0 <= map_total f m.
Proof. intros Hf. apply sum_by_nonneg. intros. apply Hf. Qed.

Lemma map_total_alter {A} (f : A -> Z) m k x y :
  m !! k = Some x -> f y = f x -> map_total f (<[k:=y]> m) = map_total f m.
Proof.
  intros Hk Hf. rewrite <- insert_delete_eq, map_total_insert by apply lookup_delete_eq.
  rewrite (map_total_delete f m k x Hk). lia.
Qed.

Lemma map_total_lookup_le {A} (f : A -> Z) m k x :
  (forall y, 0 <= f y) -> m !! k = Some x -> f x <= map_total f m.
Proof.
  intros Hf Hk. pose proof (map_total_delete f m k x Hk).
  pose proof (map_total_nonneg f (delete k m) Hf). lia.
Qed.
