(* ===== verification/RamCache.v ===== *)
(** * The RAM tier ([ram_cache.rs])

    The sharded in-memory cache: admission, the deferred LRU reordering, LRU and
    TinyLFU victim selection, the eviction loop, invalidation and statistics.
    The BLAKE3 hash that routes a key to its shard, the sizes of the Rust structs
    and the clock are parameters. *)

From S2P Require Import Prelude CacheTypes Maps RustStr.

#[local] Open Scope Z_scope.

Module Ram.

Definition RAM_CACHE_ADMISSION_CEILING : Z := 64 * 1024 * 1024.

Inductive CacheEvictionAlgorithm := LRU | TinyLFU.

#[export] Instance CacheEvictionAlgorithm_eq_dec : EqDecision CacheEvictionAlgorithm.
Proof. solve_decision. Defined.

Record CacheMetadata := mkCacheMetadata {
  md_etag : string;
  md_last_modified : string;
  md_content_length : Z;
  md_part_number : option Z;
  md_cache_control : option string;
  md_access_count : Z;
  md_last_accessed : Z;
}.

Record RamCacheEntry := mkRamEntry {
  cache_key : string;
  data : bytes;
  metadata : CacheMetadata;
  created_at : Z;
  last_accessed : Z;
  access_count : Z;
  compressed : bool;
  compression_algorithm : CompressionAlgorithm;
}.

Record RamCacheRead := mkRamRead {
  rd_data : bytes;
  rd_metadata : CacheMetadata;
  rd_compressed : bool;
  rd_compression_algorithm : CompressionAlgorithm;
}.

Record EvictionState := mkEviction {
  eviction_algorithm : CacheEvictionAlgorithm;
  lru_order : list string;
}.

Record RamCacheShard := mkShard {
  shard_data : gmap string RamCacheEntry;
  eviction : EvictionState;
  current_size : Z;
  capacity : Z;
  pending_accesses : list string;
  eviction_count : Z;
  last_eviction_ms : Z;
}.

Definition shard_new (capacity : Z) (alg : CacheEvictionAlgorithm) : RamCacheShard :=
  mkShard ∅ (mkEviction alg []) 0 capacity [] 0 0.

Record ShardedRamCache := mkCache {
  shards : list RamCacheShard;
  shard_count : Z;
  hit_count : Z;
  miss_count : Z;
}.

(** [size_of::<RamCacheEntry>()] and [size_of::<CacheMetadata>()], and the first
    eight bytes of the BLAKE3 hash of a key. *)
Class Platform := {
  size_of_entry : Z;
  size_of_metadata : Z;
  blake3_u64 : string -> Z;
}.

Section Ram.
Context `{Platform} `{HashIter}.

Definition shard_index (key : string) (count : Z) : Z := blake3_u64 key mod count.

(** ** Construction *)

Definition new (total_capacity shard_count : Z) (alg : CacheEvictionAlgorithm) : ShardedRamCache :=
  let shard_count := Z.max shard_count 1 in
  let effective_shard_count :=
    Z.min shard_count (Z.max (total_capacity / RAM_CACHE_ADMISSION_CEILING) 1) in
  let per_shard_capacity := Z.max (total_capacity / effective_shard_count) 1 in
  mkCache (replicate (Z.to_nat effective_shard_count) (shard_new per_shard_capacity alg))
    effective_shard_count 0 0.

Definition max_size (c : ShardedRamCache) : Z :=
  if shard_count c =? 0 then 0 else
  match shards c with
  | s :: _ => u64_mul (capacity s) (shard_count c)
  | [] => 0
  end.

(** ** Tracking *)

Definition shard_calculate_entry_size (e : RamCacheEntry) : Z :=
  u64_add (u64_add (u64_add size_of_entry (Z.of_nat (String.length (cache_key e)))) (zlen (data e)))
    size_of_metadata.

Definition set_order (s : RamCacheShard) (order : list string) : RamCacheShard :=
  mkShard (shard_data s) (mkEviction (eviction_algorithm (eviction s)) order) (current_size s)
    (capacity s) (pending_accesses s) (eviction_count s) (last_eviction_ms s).

(** [position] of the key, then [remove] at it: the first occurrence goes. *)
Fixpoint remove_first (key : string) (order : list string) : list string :=
  match order with
  | [] => []
  | k :: order' => if bool_decide (k = key) then order' else k :: remove_first key order'
  end.

Definition shard_add_to_tracking (s : RamCacheShard) (key : string) : RamCacheShard :=
  match eviction_algorithm (eviction s) with
  | LRU => set_order s (lru_order (eviction s) ++ [key])
  | TinyLFU => s
  end.

Definition shard_remove_from_tracking (s : RamCacheShard) (key : string) : RamCacheShard :=
  match eviction_algorithm (eviction s) with
  | LRU => set_order s (remove_first key (lru_order (eviction s)))
  | TinyLFU => s
  end.

Definition shard_update_access_tracking (s : RamCacheShard) (key : string) : RamCacheShard :=
  match eviction_algorithm (eviction s) with
  | LRU => set_order s (remove_first key (lru_order (eviction s)) ++ [key])
  | TinyLFU => s
  end.

(** ** Victims *)

Definition shard_find_lru_victim (s : RamCacheShard) : option string :=
  head (lru_order (eviction s)).

(** The key [min_by_key] compares: decayed frequency, then last access. *)
Definition tinylfu_key (now_ms : Z) (e : RamCacheEntry) : Z * Z :=
  let idle_secs := saturating_sub now_ms (last_accessed e) / 1000 in
  (decayed_frequency (access_count e) idle_secs, last_accessed e).

Definition pair_le (a b : Z * Z) : bool :=
  (a.1 <? b.1) || ((a.1 =? b.1) && (a.2 <=? b.2)).

(** [Iterator::min_by_key]: the first of the least elements. *)
Fixpoint min_by_key {A} (key : A -> Z * Z) (l : list A) : option A :=
  match l with
  | [] => None
  | x :: l' =>
      match min_by_key key l' with
      | None => Some x
      | Some y => if pair_le (key x) (key y) then Some x else Some y
      end
  end.

Definition shard_find_tinylfu_victim (now_ms : Z) (s : RamCacheShard) : option string :=
  fst <$> min_by_key (fun kx => tinylfu_key now_ms kx.2) (hash_iter (shard_data s)).

Definition find_victim (now_ms : Z) (s : RamCacheShard) : option string :=
  match eviction_algorithm (eviction s) with
  | LRU => shard_find_lru_victim s
  | TinyLFU => shard_find_tinylfu_victim now_ms s
  end.

(** ** [get] *)

Definition read_view (e : RamCacheEntry) : RamCacheRead :=
  mkRamRead (data e) (metadata e) (compressed e) (compression_algorithm e).

Definition touch (now_ms : Z) (e : RamCacheEntry) : RamCacheEntry :=
  mkRamEntry (cache_key e) (data e) (metadata e) (created_at e) now_ms
    (u64_add (access_count e) 1) (compressed e) (compression_algorithm e).

(** A hit stores the access into the entry's atomics; every eighth access of an
    LRU shard is queued for reordering unless the lock is contended. *)
Definition shard_touch (now_ms : Z) (contended : bool) (key : string) (e : RamCacheEntry)
    (s : RamCacheShard) : RamCacheShard :=
  let e' := touch now_ms e in
  let pending :=
    if (access_count e' mod 8 =? 0) && bool_decide (eviction_algorithm (eviction s) = LRU)
       && negb contended
    then pending_accesses s ++ [key] else pending_accesses s in
  mkShard (<[key:=e']> (shard_data s)) (eviction s) (current_size s) (capacity s) pending
    (eviction_count s) (last_eviction_ms s).

Definition get_shard (c : ShardedRamCache) (key : string) : option (nat * RamCacheShard) :=
  let idx := Z.to_nat (shard_index key (shard_count c)) in
  s ← shards c !! idx;
  Some (idx, s).

Definition set_shard (c : ShardedRamCache) (idx : nat) (s : RamCacheShard) : ShardedRamCache :=
  mkCache (<[idx:=s]> (shards c)) (shard_count c) (hit_count c) (miss_count c).

Definition count_hit (c : ShardedRamCache) : ShardedRamCache :=
  mkCache (shards c) (shard_count c) (u64_add (hit_count c) 1) (miss_count c).

Definition count_miss (c : ShardedRamCache) : ShardedRamCache :=
  mkCache (shards c) (shard_count c) (hit_count c) (u64_add (miss_count c) 1).

(** [None] in the first component would be the panic of [self.shards[idx]]. *)
Definition get (now_ms : Z) (contended : bool) (c : ShardedRamCache) (key : string)
    : option (ShardedRamCache * option RamCacheRead) :=
  '(idx, s) ← get_shard c key;
  match shard_data s !! key with
  | None => Some (count_miss c, None)
  | Some e =>
      Some (count_hit (set_shard c idx (shard_touch now_ms contended key e s)), Some (read_view e))
  end.

(** ** [put] *)

Definition drain_pending (s : RamCacheShard) : RamCacheShard :=
  let s0 := mkShard (shard_data s) (eviction s) (current_size s) (capacity s) []
              (eviction_count s) (last_eviction_ms s) in
  foldl (fun s key => if bool_decide (is_Some (shard_data s !! key))
                      then shard_update_access_tracking s key else s)
    s0 (pending_accesses s).

(** [data.remove(key)] with its size subtracted and its tracking removed. *)
Definition remove_entry (s : RamCacheShard) (key : string) (e : RamCacheEntry) : RamCacheShard :=
  shard_remove_from_tracking
    (mkShard (delete key (shard_data s)) (eviction s)
       (saturating_sub (current_size s) (shard_calculate_entry_size e)) (capacity s)
       (pending_accesses s) (eviction_count s) (last_eviction_ms s)) key.

Definition count_eviction (now_ms : Z) (s : RamCacheShard) : RamCacheShard :=
  mkShard (shard_data s) (eviction s) (current_size s) (capacity s) (pending_accesses s)
    (u64_add (eviction_count s) 1) now_ms.

(** The [while] loop; [clock i] is the clock at its [i]-th turn. *)
Fixpoint evict_loop (fuel : nat) (clock : nat -> Z) (entry_size : Z) (s : RamCacheShard)
    : RamCacheShard :=
  match fuel with
  | O => s
  | S f =>
      if (capacity s <? u64_add (current_size s) entry_size)
         && negb (bool_decide (shard_data s = ∅))
      then
        match find_victim (clock 0%nat) s with
        | Some victim_key =>
            match shard_data s !! victim_key with
            | Some evicted =>
                evict_loop f (fun i => clock (S i)) entry_size
                  (count_eviction (clock 0%nat) (remove_entry s victim_key evicted))
            | None => shard_remove_from_tracking s victim_key
            end
        | None => s
        end
      else s
  end.

Definition remove_existing (s : RamCacheShard) (key : string) : RamCacheShard :=
  match shard_data s !! key with
  | Some existing => remove_entry s key existing
  | None => s
  end.

Definition insert_entry (s : RamCacheShard) (key : string) (e : RamCacheEntry) : RamCacheShard :=
  shard_add_to_tracking
    (mkShard (<[key:=e]> (shard_data s)) (eviction s)
       (u64_add (current_size s) (shard_calculate_entry_size e)) (capacity s)
       (pending_accesses s) (eviction_count s) (last_eviction_ms s)) key.

(** Each turn of the loop removes an entry, so the number of entries is enough
    fuel. *)
Definition shard_put (clock : nat -> Z) (s : RamCacheShard) (e : RamCacheEntry) : RamCacheShard :=
  let key := cache_key e in
  let s := drain_pending s in
  let entry_size := shard_calculate_entry_size e in
  if capacity s <? entry_size then s else
  let s := evict_loop (size (shard_data s)) clock entry_size s in
  insert_entry (remove_existing s key) key e.

Definition put (clock : nat -> Z) (c : ShardedRamCache) (e : RamCacheEntry) : option ShardedRamCache :=
  '(idx, s) ← get_shard c (cache_key e);
  Some (set_shard c idx (shard_put clock s e)).

(** ** Invalidation *)

Definition invalidate (c : ShardedRamCache) (key : string) : option ShardedRamCache :=
  '(idx, s) ← get_shard c key;
  Some (set_shard c idx (remove_existing s key)).

Definition shard_invalidate_prefix (prefix : string) (s : RamCacheShard) : RamCacheShard * Z :=
  let keys_to_remove := List.filter (starts_with prefix) (hash_iter (shard_data s)).*1 in
  (foldl remove_existing s keys_to_remove, zlen keys_to_remove).

Definition invalidate_by_prefix (c : ShardedRamCache) (prefix : string) : ShardedRamCache * Z :=
  let results := shard_invalidate_prefix prefix <$> shards c in
  (mkCache results.*1 (shard_count c) (hit_count c) (miss_count c), sum_by id results.*2).

(** ** Statistics *)

Record RamCacheStats := mkStats {
  st_current_size : Z;
  st_max_size : Z;
  st_entries_count : Z;
  st_hit_count : Z;
  st_miss_count : Z;
  st_eviction_count : Z;
  st_last_eviction_ms : Z;
}.

(** The hit rate, a quotient of floats, is left out. *)
Definition stats (c : ShardedRamCache) : RamCacheStats :=
  mkStats (sum_by current_size (shards c)) (max_size c)
    (sum_by (fun s => Z.of_nat (size (shard_data s))) (shards c)) (hit_count c) (miss_count c)
    (sum_by eviction_count (shards c)) (foldr (fun s m => Z.max (last_eviction_ms s) m) 0 (shards c)).

(** ** The shard invariant *)

Abbreviation esize := shard_calculate_entry_size.

Record shard_ok (s : RamCacheShard) : Prop := {
  sk_keys k e : shard_data s !! k = Some e -> cache_key e = k;
  sk_size : current_size s = map_total esize (shard_data s);
  sk_bound : current_size s <= capacity s;
  sk_cap : 0 < capacity s < 2 ^ 63;
  sk_order : match eviction_algorithm (eviction s) with
             | LRU => NoDup (lru_order (eviction s)) /\
                      forall k, k ∈ lru_order (eviction s) <-> is_Some (shard_data s !! k)
             | TinyLFU => lru_order (eviction s) = []
             end;
}.

Lemma esize_range e : 0 <= esize e < 2 ^ 64.
Proof. unfold shard_calculate_entry_size, u64_add. apply wrap64_range. Qed.

Lemma esize_nonneg e : 0 <= esize e.
Proof. apply esize_range. Qed.

Lemma elem_of_remove_first k x l : NoDup l -> x ∈ remove_first k l <-> x ∈ l /\ x <> k.
Proof.
  induction 1 as [|y l Hy Hnd IH]; cbn [remove_first]; [rewrite elem_of_nil; tauto |].
  case_bool_decide as E; rewrite ?elem_of_cons, ?IH; [subst; split | ].
  - intros Hx. split; [by right |]. intros ->. done.
  - intros [[-> | ?] ?]; done.
  - split; [intros [-> | [? ?]] | intros [[-> | ?] ?]]; auto.
Qed.

Lemma remove_first_NoDup k l : NoDup l -> NoDup (remove_first k l).
Proof.
  induction 1 as [|y l Hy Hnd IH]; cbn [remove_first]; [constructor |].
  case_bool_decide; [done |]. constructor; [| done]. rewrite elem_of_remove_first by done. tauto.
Qed.

Lemma touch_order_ok l k : NoDup l -> k ∈ l ->
  NoDup (remove_first k l ++ [k]) /\ forall x, x ∈ remove_first k l ++ [k] <-> x ∈ l.
Proof.
  intros Hnd Hk. split.
  - apply NoDup_app. split; [by apply remove_first_NoDup |]. split; [| apply NoDup_singleton].
    intros x [_ Hx]%elem_of_remove_first ->%list_elem_of_singleton; done.
  - intros x. rewrite elem_of_app, elem_of_remove_first, list_elem_of_singleton by done.
    destruct (decide (x = k)) as [-> |]; tauto.
Qed.

Lemma update_access_ok s k :
  shard_ok s -> is_Some (shard_data s !! k) -> shard_ok (shard_update_access_tracking s k).
Proof.
  intros [] Hk. unfold shard_update_access_tracking.
  destruct (eviction_algorithm (eviction s)) eqn:Ea; [| by constructor; rewrite ?Ea].
  destruct sk_order0 as [Hnd Hin].
  destruct (touch_order_ok (lru_order (eviction s)) k Hnd ltac:(by apply Hin)) as [Hnd' Hin'].
  constructor; try done. cbn. rewrite Ea. split; [done |]. intros x. rewrite Hin'. apply Hin.
Qed.

(** Draining the deferred accesses only reorders. *)
Lemma drain_pending_ok s :
  shard_ok s -> shard_ok (drain_pending s) /\ shard_data (drain_pending s) = shard_data s /\
  capacity (drain_pending s) = capacity s /\
  eviction_algorithm (eviction (drain_pending s)) = eviction_algorithm (eviction s).
Proof.
  intros Hok. unfold drain_pending.
  assert (forall k' x, shard_data (shard_update_access_tracking x k') = shard_data x /\
     capacity (shard_update_access_tracking x k') = capacity x /\
     eviction_algorithm (eviction (shard_update_access_tracking x k'))
       = eviction_algorithm (eviction x)) as Hsame.
  { intros k' x. unfold shard_update_access_tracking. by destruct (eviction_algorithm _) eqn:?; cbn. }
  assert (forall ks x, shard_ok x ->
    let r := foldl (fun s key => if bool_decide (is_Some (shard_data s !! key))
                      then shard_update_access_tracking s key else s) x ks in
    shard_ok r /\ shard_data r = shard_data x /\ capacity r = capacity x /\
    eviction_algorithm (eviction r) = eviction_algorithm (eviction x)) as Hfold.
  { induction ks as [|k ks IH]; intros x Hx; cbn [foldl]; [done |].
    case_bool_decide as Hk; [| by apply IH].
    destruct (IH _ (update_access_ok x k Hx Hk)) as (? & -> & -> & ->). split; [done | apply Hsame]. }
  apply (Hfold _ (mkShard (shard_data s) (eviction s) (current_size s) (capacity s) []
              (eviction_count s) (last_eviction_ms s))).
  destruct Hok; by constructor.
Qed.

Lemma remove_entry_ok s k e :
  shard_ok s -> shard_data s !! k = Some e ->
  shard_ok (remove_entry s k e) /\ shard_data (remove_entry s k e) = delete k (shard_data s) /\
  current_size (remove_entry s k e) = current_size s - esize e /\
  capacity (remove_entry s k e) = capacity s /\
  eviction_algorithm (eviction (remove_entry s k e)) = eviction_algorithm (eviction s) /\
  lru_order (eviction (remove_entry s k e)) = remove_first k (lru_order (eviction s)).
Proof.
  intros [] Hk.
  pose proof (map_total_lookup_le esize _ _ _ esize_nonneg Hk) as Hle. pose proof (esize_range e).
  assert (saturating_sub (current_size s) (esize e) = current_size s - esize e) as Hsub
    by (unfold saturating_sub; lia).
  assert (shard_data (remove_entry s k e) = delete k (shard_data s) /\
    current_size (remove_entry s k e) = current_size s - esize e /\
    capacity (remove_entry s k e) = capacity s /\
    eviction_algorithm (eviction (remove_entry s k e)) = eviction_algorithm (eviction s) /\
    lru_order (eviction (remove_entry s k e)) = remove_first k (lru_order (eviction s)))
    as (Hd & Hs & Hc & Ha & Ho).
  { unfold remove_entry, shard_remove_from_tracking. cbn. destruct (eviction_algorithm (eviction s)) eqn:Ea;
      cbn; rewrite ?Ea; split_and!; try done. by rewrite sk_order0. }
  split; [| done]. constructor.
  - intros k' e'. rewrite Hd. intros [_ ?]%lookup_delete_Some. eauto.
  - rewrite Hs, Hd, (map_total_delete _ _ _ _ Hk). lia.
  - rewrite Hs, Hc. lia.
  - by rewrite Hc.
  - rewrite Ha, Ho, Hd. destruct (eviction_algorithm (eviction s)).
    + destruct sk_order0 as [Hnd Hin]. split; [by apply remove_first_NoDup |].
      intros x. rewrite elem_of_remove_first by done. rewrite Hin, lookup_delete_is_Some.
      split; intros [? ?]; auto.
    + by rewrite sk_order0.
Qed.

(** ** Victims *)

Lemma pair_le_total a b : pair_le a b = true \/ pair_le b a = true.
Proof.
  unfold pair_le. rewrite !orb_true_iff, !andb_true_iff, !Z.ltb_lt, !Z.eqb_eq, !Z.leb_le. lia.
Qed.

Lemma pair_le_trans a b c : pair_le a b = true -> pair_le b c = true -> pair_le a c = true.
Proof.
  unfold pair_le. rewrite !orb_true_iff, !andb_true_iff, !Z.ltb_lt, !Z.eqb_eq, !Z.leb_le. lia.
Qed.

Lemma min_by_key_spec {A} (key : A -> Z * Z) l x :
  min_by_key key l = Some x -> x ∈ l /\ forall y, y ∈ l -> pair_le (key x) (key y) = true.
Proof.
  revert x. induction l as [|a l IH]; intros x; cbn [min_by_key]; [done |].
  destruct (min_by_key key l) as [m |] eqn:Em.
  - destruct (IH m eq_refl) as [Hin Hmin]. destruct (pair_le (key a) (key m)) eqn:Ep; intros [= <-].
    + split; [left |]. intros y [-> | Hy]%elem_of_cons; [by destruct (pair_le_total (key a) (key a)) |].
      by eapply pair_le_trans, Hmin.
    + split; [by right |]. intros y [-> | Hy]%elem_of_cons; [| by apply Hmin].
      destruct (pair_le_total (key a) (key m)); congruence.
  - intros [= <-]. destruct l as [|b l]; [| cbn in Em; by repeat case_match].
    split; [left |]. intros y ->%list_elem_of_singleton. by destruct (pair_le_total (key a) (key a)).
Qed.

Lemma min_by_key_None {A} (key : A -> Z * Z) l : min_by_key key l = None -> l = [].
Proof. destruct l; [done |]. cbn. by repeat case_match. Qed.

(** A non-empty shard has a victim, and the victim is one of its entries. *)
Lemma find_victim_Some now s :
  shard_ok s -> shard_data s <> ∅ ->
  exists k e, find_victim now s = Some k /\ shard_data s !! k = Some e.
Proof.
  intros [] Hne. unfold find_victim. destruct (eviction_algorithm (eviction s)).
  - destruct sk_order0 as [_ Hin]. unfold shard_find_lru_victim.
    destruct (lru_order (eviction s)) as [|k l] eqn:El.
    + exfalso. apply Hne. apply map_empty. intros k. apply eq_None_not_Some. intros Hk.
      by apply Hin, elem_of_nil in Hk.
    + destruct (proj1 (Hin k) ltac:(left)) as [e He]. by exists k, e.
  - unfold shard_find_tinylfu_victim. destruct (min_by_key _ _) as [[k e] |] eqn:Em.
    + apply min_by_key_spec in Em as [Hin%hash_iter_lookup _]. by exists k, e.
    + apply min_by_key_None, hash_iter_nil in Em. done.
Qed.

(** ** The eviction loop *)

Definition fits (s : RamCacheShard) (n : Z) : Prop := current_size s + n <= capacity s.

Lemma count_eviction_ok now s : shard_ok s -> shard_ok (count_eviction now s).
Proof. intros []; by constructor. Qed.

Lemma evict_loop_ok fuel : forall clock n s,
  shard_ok s -> 0 <= n <= capacity s -> (size (shard_data s) <= fuel)%nat ->
  let s' := evict_loop fuel clock n s in
  shard_ok s' /\ fits s' n /\ capacity s' = capacity s /\
  eviction_algorithm (eviction s') = eviction_algorithm (eviction s) /\
  shard_data s' ⊆ shard_data s.
Proof.
  induction fuel as [|f IH]; intros clock n s Hok Hn Hf; cbn [evict_loop].
  - assert (shard_data s = ∅) as E by (apply map_size_empty_inv; lia).
    split_and!; try done. destruct Hok as [_ Hsz _ _ _]. unfold fits.
    rewrite Hsz, E, map_total_empty. lia.
  - pose proof Hok as [_ Hsz Hb Hcap _].
    pose proof (map_total_nonneg esize (shard_data s) esize_nonneg).
    assert (u64_add (current_size s) n = current_size s + n) as -> by (apply u64_add_small; lia).
    destruct (Z.ltb_spec (capacity s) (current_size s + n)); cbn [andb].
    2:{ by split_and!. }
    case_bool_decide as E; cbn [negb].
    { split_and!; try done. unfold fits. rewrite Hsz, E, map_total_empty. lia. }
    destruct (find_victim_Some (clock 0%nat) s Hok E) as (k & e & -> & Hk). rewrite Hk.
    destruct (remove_entry_ok s k e Hok Hk) as (Hok' & Hd & _ & Hc & Ha & _).
    destruct (IH (fun i => clock (S i)) n (count_eviction (clock 0%nat) (remove_entry s k e)))
      as (He1 & He2 & He3 & He4 & He5).
    + by apply count_eviction_ok.
    + cbn. rewrite Hc. lia.
    + cbn. rewrite Hd. pose proof (map_size_delete_Some k (shard_data s) ltac:(eauto)) as Hs. lia.
    + cbn in *. rewrite Hc in He3. rewrite Ha in He4. rewrite Hd in He5. split_and!; try done.
      etrans; [exact He5 | apply delete_subseteq].
Qed.

Lemma remove_existing_ok s k :
  shard_ok s ->
  shard_ok (remove_existing s k) /\ shard_data (remove_existing s k) = delete k (shard_data s) /\
  current_size (remove_existing s k) <= current_size s /\
  capacity (remove_existing s k) = capacity s /\
  eviction_algorithm (eviction (remove_existing s k)) = eviction_algorithm (eviction s).
Proof.
  intros Hok. unfold remove_existing. destruct (shard_data s !! k) as [e |] eqn:Hk.
  - destruct (remove_entry_ok s k e Hok Hk) as (? & ? & -> & ? & ? & _).
    pose proof (esize_nonneg e). split_and!; try done. lia.
  - split_and!; try done. by rewrite delete_id.
Qed.

Lemma insert_entry_ok s e :
  shard_ok s -> shard_data s !! cache_key e = None -> fits s (esize e) ->
  shard_ok (insert_entry s (cache_key e) e) /\
  shard_data (insert_entry s (cache_key e) e) = <[cache_key e := e]> (shard_data s) /\
  capacity (insert_entry s (cache_key e) e) = capacity s.
Proof.
  intros [] Hk Hfit. unfold fits in Hfit. pose proof (esize_range e).
  pose proof (map_total_nonneg esize (shard_data s) esize_nonneg).
  assert (u64_add (current_size s) (esize e) = current_size s + esize e) as Hadd
    by (apply u64_add_small; lia).
  unfold insert_entry, shard_add_to_tracking. cbn.
  destruct (eviction_algorithm (eviction s)) eqn:Ea; (split; [| done]); constructor; cbn;
    rewrite ?Hadd, ?Ea; try done; try lia.
  all: try (intros k e' [[<- <-] | [? ?]]%lookup_insert_Some; [done | by apply sk_keys0]).
  all: try (rewrite map_total_insert by done; lia).
  destruct sk_order0 as [Hnd Hin]. split.
  - apply NoDup_app. split; [done |]. split; [| apply NoDup_singleton].
    intros x Hx ->%list_elem_of_singleton. apply Hin in Hx as [? Hx]. congruence.
  - intros x. rewrite elem_of_app, list_elem_of_singleton, Hin, lookup_insert_is_Some.
    destruct (decide (cache_key e = x)); split; auto; intros [? | ?]; auto; try congruence; tauto.
Qed.

(** ** [put] on a shard *)

Lemma shard_put_spec clock s e :
  shard_ok s ->
  let s' := shard_put clock s e in
  shard_ok s' /\ capacity s' = capacity s /\
  (esize e <= capacity s -> shard_data s' !! cache_key e = Some e) /\
  (capacity s < esize e -> shard_data s' = shard_data s) /\
  (forall k, k <> cache_key e -> shard_data s' !! k = shard_data s !! k \/ shard_data s' !! k = None).
Proof.
  intros Hok. unfold shard_put. destruct (drain_pending_ok s Hok) as (Hok1 & Hd1 & Hc1 & _).
  rewrite Hc1. pose proof (esize_nonneg e). destruct (Z.ltb_spec (capacity s) (esize e)).
  { rewrite Hd1. split_and!; try done; [lia | auto]. }
  destruct (evict_loop_ok (size (shard_data (drain_pending s))) clock (esize e) (drain_pending s))
    as (Hok2 & Hfit & Hc2 & _ & Hsub); [done | lia | done |].
  set (s2 := evict_loop _ _ _ _) in *.
  destruct (remove_existing_ok s2 (cache_key e) Hok2) as (Hok3 & Hd3 & Hs3 & Hc3 & _).
  destruct (insert_entry_ok (remove_existing s2 (cache_key e)) e) as (Hok4 & Hd4 & Hc4);
    [done | by rewrite Hd3, lookup_delete_eq | unfold fits in *; lia |].
  split_and!; [done | lia | | lia |].
  - intros _. by rewrite Hd4, lookup_insert_eq.
  - intros k Hk. rewrite Hd4, lookup_insert_ne, Hd3, lookup_delete_ne by done.
    destruct (shard_data s2 !! k) as [x |] eqn:Ex; [| auto]. left. rewrite <- Hd1.
    symmetry. by eapply lookup_weaken.
Qed.

Lemma shard_touch_ok now contended k e s :
  shard_ok s -> shard_data s !! k = Some e ->
  shard_ok (shard_touch now contended k e s) /\ capacity (shard_touch now contended k e s) = capacity s.
Proof.
  intros [] Hk. split; [| done]. unfold shard_touch. constructor; cbn; try done.
  - intros k' e' [[<- <-] | [? ?]]%lookup_insert_Some; [exact (sk_keys0 _ _ Hk) | eauto].
  - rewrite (map_total_alter _ _ _ e); done.
  - destruct (eviction_algorithm (eviction s)); [| done]. destruct sk_order0 as [Hnd Hin].
    split; [done |]. intros x. rewrite Hin, lookup_insert_is_Some.
    destruct (decide (k = x)) as [-> |]; [| tauto]. split; [auto | by eexists].
Qed.

Lemma remove_all_ok ks : forall s,
  shard_ok s ->
  let s' := foldl remove_existing s ks in
  shard_ok s' /\ capacity s' = capacity s /\
  forall k, shard_data s' !! k = if bool_decide (k ∈ ks) then None else shard_data s !! k.
Proof.
  induction ks as [|k0 ks IH]; intros s Hok; cbn [foldl]; [done |].
  destruct (remove_existing_ok s k0 Hok) as (Hok1 & Hd1 & _ & Hc1 & _).
  destruct (IH _ Hok1) as (? & ? & Hl). split_and!; [done | congruence |]. intros k. rewrite Hl, Hd1.
  destruct (decide (k = k0)) as [-> | Hne].
  - rewrite lookup_delete_eq. rewrite (bool_decide_true (k0 ∈ k0 :: ks)) by left. by case_bool_decide.
  - rewrite lookup_delete_ne by done. assert (bool_decide (k ∈ k0 :: ks) = bool_decide (k ∈ ks)) as ->; [| done].
    apply bool_decide_ext. rewrite elem_of_cons. tauto.
Qed.

(** ** The whole cache *)

Record cache_ok (c : ShardedRamCache) : Prop := {
  co_count : 0 < shard_count c;
  co_len : length (shards c) = Z.to_nat (shard_count c);
  co_shards : Forall shard_ok (shards c);
}.

(** What the cache holds for a key. *)
Definition peek (c : ShardedRamCache) (key : string) : option RamCacheEntry :=
  '(_, s) ← get_shard c key;
  shard_data s !! key.

Lemma get_shard_Some c k :
  cache_ok c -> exists idx s, get_shard c k = Some (idx, s) /\ shards c !! idx = Some s /\ shard_ok s.
Proof.
  intros []. unfold get_shard, shard_index.
  pose proof (Z.mod_pos_bound (blake3_u64 k) (shard_count c) co_count0).
  destruct (lookup_lt_is_Some_2 (shards c) (Z.to_nat (blake3_u64 k mod shard_count c))) as [s Hs]; [lia |].
  exists (Z.to_nat (blake3_u64 k mod shard_count c)), s. rewrite Hs. split_and!; [done | done |].
  by eapply Forall_lookup_1.
Qed.

Lemma set_shard_ok c idx s : cache_ok c -> shard_ok s -> cache_ok (set_shard c idx s).
Proof.
  intros [] Hs. constructor; cbn; [done | by rewrite length_insert |]. by apply Forall_insert.
Qed.

(** The key's own shard after an update of shard [idx]. *)
Lemma get_shard_set c idx s s0 k :
  shards c !! idx = Some s0 ->
  get_shard (set_shard c idx s) k =
  ('(i, x) ← get_shard c k; Some (i, if bool_decide (i = idx) then s else x)).
Proof.
  intros Hidx. unfold get_shard, set_shard. cbn. set (i := Z.to_nat _).
  destruct (decide (i = idx)) as [<- | Hne].
  - rewrite list_lookup_insert_eq by (by eapply lookup_lt_Some). rewrite Hidx. cbn.
    by rewrite bool_decide_true.
  - rewrite list_lookup_insert_ne by done. destruct (shards c !! i); [| done]. cbn.
    by rewrite bool_decide_false.
Qed.

Lemma peek_set c idx s s0 k :
  shards c !! idx = Some s0 ->
  (forall k, shard_data s !! k = shard_data s0 !! k \/ shard_data s !! k = None) ->
  peek (set_shard c idx s) k = peek c k \/ peek (set_shard c idx s) k = None.
Proof.
  intros Hidx Hs. unfold peek. rewrite (get_shard_set _ _ _ _ _ Hidx).
  destruct (get_shard c k) as [[i x] |] eqn:Eg; [| auto]. cbn.
  case_bool_decide as E; [subst i | auto]. unfold get_shard in Eg.
  apply bind_Some in Eg as (y & Hy & [= Ei ->]). rewrite Ei in Hy. rewrite Hidx in Hy.
  injection Hy as ->. apply Hs.
Qed.

(** ** Sequences of operations *)

Inductive op :=
  | OpGet (now_ms : Z) (contended : bool) (key : string)
  | OpPut (clock : nat -> Z) (e : RamCacheEntry)
  | OpInvalidate (key : string)
  | OpInvalidatePrefix (prefix : string).

Definition exec (c : ShardedRamCache) (o : op) : option ShardedRamCache :=
  match o with
  | OpGet now contended key => fst <$> get now contended c key
  | OpPut clock e => put clock c e
  | OpInvalidate key => invalidate c key
  | OpInvalidatePrefix prefix => Some (invalidate_by_prefix c prefix).1
  end.

Fixpoint exec_all (c : ShardedRamCache) (ops : list op) : option ShardedRamCache :=
  match ops with
  | [] => Some c
  | o :: ops' => c' ← exec c o; exec_all c' ops'
  end.

(** The capacities of the shards never change. *)
Definition capacities (c : ShardedRamCache) : list Z := capacity <$> shards c.

Lemma set_shard_capacities c idx s s0 :
  shards c !! idx = Some s0 -> capacity s = capacity s0 ->
  capacities (set_shard c idx s) = capacities c.
Proof.
  intros Hidx Hc. unfold capacities, set_shard. cbn. rewrite list_fmap_insert, Hc.
  apply list_insert_id. by rewrite list_lookup_fmap, Hidx.
Qed.

Lemma shard_invalidate_prefix_ok prefix s :
  shard_ok s ->
  let r := shard_invalidate_prefix prefix s in
  shard_ok r.1 /\ capacity r.1 = capacity s /\
  (forall k, shard_data r.1 !! k = if starts_with prefix k then None else shard_data s !! k) /\
  r.2 = zlen (List.filter (starts_with prefix) (map_to_list (shard_data s)).*1).
Proof.
  intros Hok. unfold shard_invalidate_prefix.
  destruct (remove_all_ok (List.filter (starts_with prefix) (hash_iter (shard_data s)).*1) s Hok)
    as (Hok' & Hc & Hl).
  cbv zeta. cbn [fst snd]. split_and!; [done | done | |].
  - intros k. rewrite Hl. destruct (shard_data s !! k) as [e |] eqn:Ek.
    + assert (k ∈ (hash_iter (shard_data s)).*1) as Hin.
      { apply list_elem_of_fmap. exists (k, e). split; [done |]. by apply hash_iter_lookup. }
      assert (bool_decide (k ∈ List.filter (starts_with prefix) (hash_iter (shard_data s)).*1)
              = starts_with prefix k) as ->; [| done].
      apply eq_true_iff_eq. rewrite bool_decide_eq_true, list_elem_of_In, filter_In.
      rewrite <- list_elem_of_In. tauto.
    + by destruct (bool_decide _), (starts_with prefix k).
  - unfold zlen. f_equal. pose proof (hash_iter_perm (shard_data s)) as Hp.
    apply (fmap_Permutation fst) in Hp. revert Hp. generalize (hash_iter (shard_data s)).*1 as l.
    generalize (map_to_list (shard_data s)).*1 as l'. intros l' l Hp.
    induction Hp as [| x a b _ IH | x y a | a b d _ IH1 _ IH2]; cbn; [done | | | congruence].
    + destruct (starts_with prefix x); cbn; congruence.
    + by destruct (starts_with prefix x), (starts_with prefix y).
Qed.

Lemma exec_ok c o :
  cache_ok c -> exists c', exec c o = Some c' /\ cache_ok c' /\ capacities c' = capacities c.
Proof.
  intros Hok. destruct o as [now cont key | clock e | key | prefix]; cbn [exec].
  - destruct (get_shard_Some c key Hok) as (idx & s & Hg & Hidx & Hs). unfold get. rewrite Hg. cbn.
    destruct (shard_data s !! key) as [e |] eqn:Ek; cbn.
    + destruct (shard_touch_ok now cont key e s Hs Ek) as [Ht Hc]. eexists. split; [done |].
      pose proof (set_shard_ok c idx _ Hok Ht) as [].
      split; [by constructor |]. by apply (set_shard_capacities _ _ _ s).
    + eexists. split; [done |]. destruct Hok. split; [by constructor | done].
  - destruct (get_shard_Some c (cache_key e) Hok) as (idx & s & Hg & Hidx & Hs). unfold put. rewrite Hg.
    cbn. destruct (shard_put_spec clock s e Hs) as (Hs' & Hc & _). eexists. split; [done |].
    split; [by apply set_shard_ok | by apply (set_shard_capacities _ _ _ s)].
  - destruct (get_shard_Some c key Hok) as (idx & s & Hg & Hidx & Hs). unfold invalidate. rewrite Hg.
    cbn. destruct (remove_existing_ok s key Hs) as (Hs' & _ & _ & Hc & _). eexists. split; [done |].
    split; [by apply set_shard_ok | by apply (set_shard_capacities _ _ _ s)].
  - eexists. split; [done |]. unfold invalidate_by_prefix, capacities; cbn. destruct Hok.
    assert (forall s, s ∈ shards c -> shard_ok (shard_invalidate_prefix prefix s).1 /\
              capacity (shard_invalidate_prefix prefix s).1 = capacity s) as Hall.
    { intros s Hs. rewrite Forall_forall in co_shards0.
      by destruct (shard_invalidate_prefix_ok prefix s (co_shards0 s Hs)) as (? & ? & _). }
    split.
    + constructor; cbn; [done | by rewrite !length_fmap |]. rewrite <- list_fmap_compose.
      apply Forall_fmap, Forall_forall. intros s Hs. by apply Hall.
    + rewrite <- !list_fmap_compose. apply list_fmap_ext. intros j s Hs. apply Hall.
      by eapply list_elem_of_lookup_2.
Qed.

Lemma exec_all_ok ops : forall c,
  cache_ok c -> exists c', exec_all c ops = Some c' /\ cache_ok c' /\ capacities c' = capacities c.
Proof.
  induction ops as [|o ops IH]; intros c Hok; cbn [exec_all]; [by exists c |].
  destruct (exec_ok c o Hok) as (c1 & -> & Hok1 & Hc1). cbn.
  destruct (IH c1 Hok1) as (c2 & ? & ? & ?). exists c2. split_and!; [done | done | congruence].
Qed.

Lemma new_ok total n alg :
  0 <= total < 2 ^ 63 ->
  cache_ok (new total n alg) /\
  (RAM_CACHE_ADMISSION_CEILING <= total ->
   Forall (fun cap => RAM_CACHE_ADMISSION_CEILING <= cap) (capacities (new total n alg))) /\
  (0 < total -> sum_by id (capacities (new total n alg)) <= total) /\
  shard_count (new total n alg) <= Z.max n 1.
Proof.
  intros Ht. unfold new, capacities, RAM_CACHE_ADMISSION_CEILING. cbn [shards shard_count].
  set (m := Z.min (Z.max n 1) (Z.max (total / (64 * 1024 * 1024)) 1)).
  assert (1 <= m) as Hm by lia. set (cap := Z.max (total / m) 1).
  pose proof (Z.div_le_upper_bound total m total ltac:(lia) ltac:(nia)) as Hdiv.
  pose proof (Z.mul_div_le total m ltac:(lia)) as Hmul.
  assert (forall k, capacity <$> replicate k (shard_new cap alg) = replicate k cap) as Hrep.
  { induction k as [|k IH]; [done |]. cbn. by f_equal. }
  rewrite Hrep. split_and!.
  - constructor; cbn; [lia | by rewrite length_replicate |].
    apply Forall_replicate. constructor; cbn.
    + by intros k e ?%lookup_empty_Some.
    + by rewrite map_total_empty.
    + lia.
    + lia.
    + destruct alg; [| done]. split; [constructor |]. intros k. rewrite elem_of_nil, lookup_empty.
      split; [done | by intros []].
  - intros Hc. apply Forall_replicate.
    assert (m <= total / (64 * 1024 * 1024)).
    { pose proof (Z.div_le_lower_bound total (64 * 1024 * 1024) 1 ltac:(lia) ltac:(lia)). lia. }
    pose proof (Z.mul_div_le total (64 * 1024 * 1024) ltac:(lia)).
    assert (64 * 1024 * 1024 <= total / m); [apply Z.div_le_lower_bound; nia | lia].
  - intros H0t. assert (m <= total).
    { pose proof (Z.div_le_upper_bound total (64 * 1024 * 1024) total ltac:(lia) ltac:(nia)). lia. }
    assert (forall k, sum_by id (replicate k cap) = Z.of_nat k * cap) as ->.
    { induction k as [|k IH]; [done |]. cbn [replicate sum_by foldr]. unfold sum_by in IH. rewrite IH.
      unfold id. lia. }
    assert (1 <= total / m) by (apply Z.div_le_lower_bound; lia).
    unfold cap. rewrite Z.max_l by lia. rewrite Z2Nat.id by lia. lia.
  - lia.
Qed.

(** ** Theorems *)

Lemma cache_size_le c : cache_ok c -> sum_by current_size (shards c) <= sum_by id (capacities c).
Proof.
  intros [_ _ Hs]. unfold capacities. induction Hs as [|s l Hs _ IH]; [done |].
  destruct Hs. unfold sum_by, id in *. cbn in *. lia.
Qed.

(** C33: the RAM tier never outgrows its budget.  Whatever sequence of reads,
    writes and invalidations runs against a fresh cache, no operation panics,
    every shard's recorded size is exactly the sum of the sizes of its entries,
    its recency queue lists each entry once, and the sizes of all shards together
    stay within the configured capacity. *)
Theorem ram_cache_bounded total n alg ops :
  0 < total < 2 ^ 63 ->
  exists c, exec_all (new total n alg) ops = Some c /\
    Forall shard_ok (shards c) /\ st_current_size (stats c) <= total.
Proof.
  intros Ht. destruct (new_ok total n alg ltac:(lia)) as (Hok & _ & Hsum & _).
  destruct (exec_all_ok ops _ Hok) as (c & Hc & Hok' & Hcap). exists c. split; [done |].
  split; [by destruct Hok' |]. cbn. pose proof (cache_size_le c Hok'). rewrite Hcap in *.
  specialize (Hsum ltac:(lia)). lia.
Qed.

(** An entry of up to 64 MiB is admitted, and read back.  In a cache of at least
    64 MiB, after any history, writing such an entry makes the next read of its
    key return its data; every other key keeps its entry or loses it to eviction,
    and none ever changes value. *)
Theorem ram_put_then_get total n alg ops c clock e :
  RAM_CACHE_ADMISSION_CEILING <= total < 2 ^ 63 ->
  exec_all (new total n alg) ops = Some c ->
  shard_calculate_entry_size e <= RAM_CACHE_ADMISSION_CEILING ->
  exists c', put clock c e = Some c' /\
    (forall now contended, exists c'', get now contended c' (cache_key e) = Some (c'', Some (read_view e))) /\
    (forall k, k <> cache_key e -> peek c' k = peek c k \/ peek c' k = None).
Proof.
  intros Ht Hops He.
  destruct (new_ok total n alg ltac:(unfold RAM_CACHE_ADMISSION_CEILING in *; lia)) as (Hok & Hadm & _).
  destruct (exec_all_ok ops _ Hok) as (c0 & Hc & Hok' & Hcap). rewrite Hops in Hc. injection Hc as <-.
  specialize (Hadm ltac:(lia)). rewrite <- Hcap in Hadm.
  destruct (get_shard_Some c (cache_key e) Hok') as (idx & s & Hg & Hidx & Hs).
  destruct (shard_put_spec clock s e Hs) as (Hs' & Hc' & Hin & _ & Hother).
  assert (RAM_CACHE_ADMISSION_CEILING <= capacity s) as Hcs.
  { unfold capacities in Hadm. rewrite Forall_fmap in Hadm. by eapply Forall_lookup_1 in Hadm. }
  unfold put. rewrite Hg. cbn. eexists. split; [done |]. split.
  - intros now contended. unfold get. rewrite (get_shard_set _ _ _ _ _ Hidx), Hg. cbn.
    rewrite bool_decide_true, Hin by (done || lia). by eexists.
  - intros k Hk. unfold peek. rewrite (get_shard_set _ _ _ _ _ Hidx).
    destruct (get_shard c k) as [[j x] |] eqn:Ek; [| auto]. cbn. case_bool_decide as E; [subst j | auto].
    unfold get_shard in Ek. apply bind_Some in Ek as (y & Hy & [= Ei ->]). rewrite Ei, Hidx in Hy.
    injection Hy as ->. by apply Hother.
Qed.

Lemma evict_loop_lru fuel : forall clock n s,
  shard_ok s -> eviction_algorithm (eviction s) = LRU -> 0 <= n <= capacity s ->
  (size (shard_data s) <= fuel)%nat ->
  let s' := evict_loop fuel clock n s in
  exists evicted,
    lru_order (eviction s) = evicted ++ lru_order (eviction s') /\
    (forall key, shard_data s' !! key = if bool_decide (key ∈ evicted) then None else shard_data s !! key) /\
    (forall before x e, evicted = before ++ [x] -> shard_data s !! x = Some e ->
       capacity s < current_size s' + esize e + n).
Proof.
  induction fuel as [|f IH]; intros clock n s Hok Ha Hn Hf; cbn [evict_loop].
  { exists []. split_and!; [done | done |]. intros [|??] ? ? ?; discriminate. }
  pose proof Hok as [_ Hsz Hb Hcap Ho]. rewrite Ha in Ho. destruct Ho as [Hnd Hin].
  pose proof (map_total_nonneg esize (shard_data s) esize_nonneg).
  assert (u64_add (current_size s) n = current_size s + n) as -> by (apply u64_add_small; lia).
  assert (exists evicted, lru_order (eviction s) = evicted ++ lru_order (eviction s) /\
    (forall key, shard_data s !! key = if bool_decide (key ∈ evicted) then None else shard_data s !! key) /\
    (forall before x e, evicted = before ++ [x] -> shard_data s !! x = Some e ->
       capacity s < current_size s + esize e + n)) as Hstop.
  { exists []. split_and!; [done | done |]. intros [|??] ? ? ?; discriminate. }
  destruct (Z.ltb_spec (capacity s) (current_size s + n)) as [Hlt | _]; cbn [andb]; [| done].
  case_bool_decide as E; cbn [negb]; [done |]. clear Hstop.
  unfold find_victim. rewrite Ha. unfold shard_find_lru_victim.
  destruct (find_victim_Some 0 s Hok E) as (k & e & Hv & Hk). unfold find_victim in Hv. rewrite Ha in Hv.
  unfold shard_find_lru_victim in Hv. rewrite Hv, Hk.
  destruct (lru_order (eviction s)) as [|k' l] eqn:El; [done |]. injection Hv as ->.
  destruct (remove_entry_ok s k e Hok Hk) as (Hok' & Hd & Hcs & Hc & Ha' & Ho').
  rewrite El in Ho'. cbn [remove_first] in Ho'. rewrite bool_decide_true in Ho' by done.
  destruct (IH (fun i => clock (S i)) n (count_eviction (clock 0%nat) (remove_entry s k e)))
    as (ev & Hev & Hdat & Hmin).
  - by apply count_eviction_ok.
  - cbn. congruence.
  - cbn. lia.
  - cbn. rewrite Hd. pose proof (map_size_delete_Some k (shard_data s) ltac:(eauto)) as Hs. lia.
  - cbn in Hev, Hdat, Hmin. rewrite Ho' in Hev. rewrite Hd in Hdat, Hmin. rewrite Hc in Hmin.
    assert (k ∉ l) as Hkl by (by apply NoDup_cons in Hnd as [? _]).
    exists (k :: ev). split_and!; [by rewrite Hev | |].
    + intros key. rewrite Hdat. destruct (decide (key = k)) as [-> | Hne].
      * rewrite lookup_delete_eq, (bool_decide_true (k ∈ k :: ev)) by left. by case_bool_decide.
      * rewrite lookup_delete_ne by done.
        assert (bool_decide (key ∈ k :: ev) = bool_decide (key ∈ ev)) as ->; [| done].
        apply bool_decide_ext. rewrite elem_of_cons. tauto.
    + intros before x ex Eb Hx. destruct before as [|b before]; cbn in Eb; injection Eb as <- Eb.
      * subst ev. rewrite Hk in Hx. injection Hx as <-.
        destruct (evict_loop_ok f (fun i => clock (S i)) n
          (count_eviction (clock 0%nat) (remove_entry s k e))) as (Hfin & _);
          [by apply count_eviction_ok | cbn; lia |
           cbn; rewrite Hd; pose proof (map_size_delete_Some k (shard_data s) ltac:(eauto)); lia |].
        rewrite (sk_size _ Hfin). rewrite (map_eq _ (delete k (shard_data s)) Hdat).
        rewrite (map_total_delete _ _ _ _ Hk). lia.
      * apply (Hmin before x ex Eb). rewrite lookup_delete_ne; [done |]. intros <-.
        apply Hkl. rewrite Hev, Eb, !elem_of_app. left. right. left.
Qed.

(** LRU eviction drops the least recently used entries and no more than it must.
    To make room for [n] bytes the loop removes exactly a prefix of the recency
    queue: the entry fits afterwards, every key outside the prefix keeps its entry,
    and without the last removal it would not have fit. *)
Theorem lru_evicts_shortest_prefix clock n s :
  shard_ok s -> eviction_algorithm (eviction s) = LRU -> 0 <= n <= capacity s ->
  let s' := evict_loop (size (shard_data s)) clock n s in
  current_size s' + n <= capacity s /\
  exists evicted,
    lru_order (eviction s) = evicted ++ lru_order (eviction s') /\
    (forall key, shard_data s' !! key = if bool_decide (key ∈ evicted) then None else shard_data s !! key) /\
    (forall before x e, evicted = before ++ [x] -> shard_data s !! x = Some e ->
       capacity s < current_size s' + shard_calculate_entry_size e + n).
Proof.
  intros Hok Ha Hn s'. destruct (evict_loop_ok (size (shard_data s)) clock n s Hok Hn) as (_ & Hfit & Hc & _);
    [done |]. fold s' in Hfit, Hc. unfold fits in Hfit. rewrite Hc in Hfit.
  split; [done | by apply evict_loop_lru].
Qed.

(** TinyLFU evicts the coldest entry: the victim is an entry of the shard whose
    decayed access frequency is the least, and among those the one accessed
    longest ago; a non-empty shard always has one. *)
Theorem tinylfu_evicts_coldest now s :
  shard_ok s -> eviction_algorithm (eviction s) = TinyLFU -> shard_data s <> ∅ ->
  exists k e, find_victim now s = Some k /\ shard_data s !! k = Some e /\
    forall k' e', shard_data s !! k' = Some e' ->
      let freq x := decayed_frequency (access_count x) (saturating_sub now (last_accessed x) / 1000) in
      freq e < freq e' \/ (freq e = freq e' /\ last_accessed e <= last_accessed e').
Proof.
  intros Hok Ha Hne. unfold find_victim. rewrite Ha. unfold shard_find_tinylfu_victim.
  destruct (min_by_key _ _) as [[k e] |] eqn:Em.
  - apply min_by_key_spec in Em as [Hin%hash_iter_lookup Hmin]. exists k, e. split; [done |].
    split; [done |]. intros k' e' Hk'. specialize (Hmin (k', e') ltac:(by apply hash_iter_lookup)).
    unfold pair_le, tinylfu_key in Hmin. cbn in *.
    rewrite orb_true_iff, andb_true_iff, Z.ltb_lt, Z.eqb_eq, Z.leb_le in Hmin. lia.
  - apply min_by_key_None, hash_iter_nil in Em. done.
Qed.

Lemma invalidate_by_prefix_spec c prefix :
  cache_ok c ->
  let '(c', removed) := invalidate_by_prefix c prefix in
  cache_ok c' /\
  (forall k, peek c' k = if starts_with prefix k then None else peek c k) /\
  removed = sum_by (fun s => zlen (List.filter (starts_with prefix) (map_to_list (shard_data s)).*1)) (shards c).
Proof.
  intros Hok. pose proof (exec_ok c (OpInvalidatePrefix prefix) Hok) as (c' & E & Hok' & _).
  cbn [exec] in E. apply (inj Some) in E. rewrite <- E in Hok'. clear c' E.
  unfold invalidate_by_prefix in *. cbn [fst] in Hok'. split; [done |].
  pose proof (co_shards c Hok) as Hs. split.
  - intros k. unfold peek, get_shard. cbn [shards shard_count]. rewrite !list_lookup_fmap.
    destruct (shards c !! _) as [s |] eqn:Es; cbn; [| by destruct (starts_with prefix k)].
    by apply (shard_invalidate_prefix_ok prefix s ltac:(by eapply Forall_lookup_1)).
  - clear Hok'. induction Hs as [|s l Hs _ IH]; [done |]. cbn [fmap list_fmap sum_by foldr].
    unfold sum_by in IH. rewrite IH. f_equal.
    by apply (shard_invalidate_prefix_ok prefix s Hs).
Qed.

(** Overwriting an object purges its ranges.  After [invalidate_by_prefix] no
    shard holds a key with the prefix, every other entry is untouched, and the
    number returned is the number of entries removed. *)
Theorem invalidate_by_prefix_exact c prefix :
  cache_ok c ->
  let '(c', removed) := invalidate_by_prefix c prefix in
  cache_ok c' /\
  (forall k, peek c' k = if starts_with prefix k then None else peek c k) /\
  removed = sum_by (fun s => zlen (List.filter (starts_with prefix) (map_to_list (shard_data s)).*1)) (shards c).
Proof. apply invalidate_by_prefix_spec. Qed.

(** ** What readers see *)

(** The view a read of a key would return. *)
Definition view (c : ShardedRamCache) (key : string) : option RamCacheRead := read_view <$> peek c key.

Lemma view_new total n alg key : view (new total n alg) key = None.
Proof.
  unfold view, peek, get_shard, new. cbn [shards].
  destruct (replicate _ _ !! _) as [s |] eqn:E; [| done]. by apply lookup_replicate in E as [-> _].
Qed.

Lemma read_view_touch now e : read_view (touch now e) = read_view e.
Proof. done. Qed.

Lemma get_view now contended c key :
  cache_ok c ->
  exists c', get now contended c key = Some (c', view c key) /\ cache_ok c' /\
    forall k, view c' k = view c k.
Proof.
  intros Hok. destruct (get_shard_Some c key Hok) as (idx & s & Hg & Hidx & Hs).
  unfold get, view, peek. rewrite Hg. cbn.
  destruct (shard_data s !! key) as [e |] eqn:Ek; cbn.
  - destruct (shard_touch_ok now contended key e s Hs Ek) as [Ht _].
    eexists. split; [done |]. pose proof (set_shard_ok c idx _ Hok Ht) as [].
    split; [by constructor |]. intros k.
    change (get_shard (count_hit ?x) k) with (get_shard x k).
    rewrite (get_shard_set _ _ _ _ _ Hidx). destruct (get_shard c k) as [[i x] |] eqn:Ei; [| done]. cbn.
    case_bool_decide as E; [subst i | done]. unfold get_shard in Ei.
    apply bind_Some in Ei as (y & Hy & [= Ei ->]). rewrite Ei, Hidx in Hy. injection Hy as ->.
    unfold shard_touch. cbn. destruct (decide (k = key)) as [-> | Hne].
    + by rewrite lookup_insert_eq, Ek.
    + by rewrite lookup_insert_ne.
  - eexists. split; [done |]. destruct Hok. split; [by constructor | done].
Qed.

Lemma put_view clock c e :
  cache_ok c ->
  exists c', put clock c e = Some c' /\ cache_ok c' /\
    forall k, view c' k = view c k \/ view c' k = None \/ (k = cache_key e /\ view c' k = Some (read_view e)).
Proof.
  intros Hok. destruct (get_shard_Some c (cache_key e) Hok) as (idx & s & Hg & Hidx & Hs).
  destruct (shard_put_spec clock s e Hs) as (Hs' & _ & Hin & Hbig & Hother).
  unfold put. rewrite Hg. cbn. eexists. split; [done |]. split; [by apply set_shard_ok |].
  intros k. unfold view, peek. rewrite (get_shard_set _ _ _ _ _ Hidx).
  destruct (get_shard c k) as [[i x] |] eqn:Ei; [| auto]. cbn.
  case_bool_decide as E; [subst i | auto]. unfold get_shard in Ei.
  apply bind_Some in Ei as (y & Hy & [= Ei ->]). rewrite Ei, Hidx in Hy. injection Hy as <-.
  destruct (decide (k = cache_key e)) as [-> | Hne].
  - destruct (Z.le_gt_cases (shard_calculate_entry_size e) (capacity s)).
    + rewrite Hin by done. auto.
    + rewrite Hbig by lia. auto.
  - destruct (Hother k Hne) as [-> | ->]; auto.
Qed.

Lemma invalidate_view c key :
  cache_ok c ->
  exists c', invalidate c key = Some c' /\ cache_ok c' /\
    forall k, view c' k = if bool_decide (k = key) then None else view c k.
Proof.
  intros Hok. destruct (get_shard_Some c key Hok) as (idx & s & Hg & Hidx & Hs).
  destruct (remove_existing_ok s key Hs) as (Hs' & Hd & _). unfold invalidate. rewrite Hg. cbn.
  eexists. split; [done |]. split; [by apply set_shard_ok |].
  intros k. unfold view, peek. rewrite (get_shard_set _ _ _ _ _ Hidx).
  destruct (get_shard c k) as [[i x] |] eqn:Ei; [| by destruct (bool_decide (k = key))]. cbn.
  destruct (bool_decide_reflect (i = idx)) as [-> | Hne].
  - unfold get_shard in Ei. apply bind_Some in Ei as (y & Hy & [= Ei ->]). rewrite Ei, Hidx in Hy.
    injection Hy as <-. rewrite Hd. case_bool_decide as E; [subst; by rewrite lookup_delete_eq |].
    by rewrite lookup_delete_ne.
  - rewrite bool_decide_false; [done |]. intros ->. rewrite Hg in Ei. congruence.
Qed.
End Ram.

(** ** A concrete platform *)

#[local] Instance sample_platform : Platform :=
  {| size_of_entry := 200; size_of_metadata := 100; blake3_u64 k := Z.of_nat (String.length k) |}.

#[local] Instance sample_iter : HashIter := map_order.

Definition sample_metadata : CacheMetadata := mkCacheMetadata "v1" "" 3 None None 0 0.

Definition sample_entry (key : string) (d : bytes) (accessed count : Z) : RamCacheEntry :=
  mkRamEntry key d sample_metadata 0 accessed count false NoCompression.

(** Two entries of 303 bytes in a shard of 700, the oldest first. *)
Definition sample_shard (alg : CacheEvictionAlgorithm) : RamCacheShard :=
  shard_put (fun _ => 0)
    (shard_put (fun _ => 0) (shard_new 700 alg) (sample_entry "a" [Byte.x00; Byte.x01] 10 1))
    (sample_entry "b" [Byte.x00; Byte.x01] 20 8).

Lemma sample_shard_ok alg : shard_ok (sample_shard alg).
Proof.
  assert (shard_ok (shard_new 700 alg)) as H0.
  { constructor; cbn; [by intros k e ?%lookup_empty_Some | by rewrite map_total_empty | lia | lia |].
    destruct alg; [| done]. split; [constructor |]. intros k. rewrite elem_of_nil, lookup_empty.
    split; [done | by intros []]. }
  unfold sample_shard. by apply shard_put_spec, shard_put_spec.
Qed.

Lemma ram_cache_bounded_witness :
  exists c, exec_all (new 1000 4 LRU)
      [OpPut (fun _ => 0) (sample_entry "a" [Byte.x00] 0 1); OpGet 5 false "a";
       OpPut (fun _ => 0) (sample_entry "b" (replicate 500 Byte.x00) 0 1)] = Some c /\
    st_current_size (stats c) <= 1000.
Proof.
  destruct (ram_cache_bounded 1000 4 LRU
    [OpPut (fun _ => 0) (sample_entry "a" [Byte.x00] 0 1); OpGet 5 false "a";
     OpPut (fun _ => 0) (sample_entry "b" (replicate 500 Byte.x00) 0 1)]) as (c & Hc & _ & Hs); [lia |].
  exists c. split; [exact Hc | exact Hs].
Defined.

Lemma ram_put_then_get_witness :
  exists c', put (fun _ => 0) (new RAM_CACHE_ADMISSION_CEILING 1 LRU) (sample_entry "a" [Byte.x07] 0 1) = Some c' /\
    exists c'', get 1 false c' "a" = Some (c'', Some (mkRamRead [Byte.x07] sample_metadata false NoCompression)).
Proof.
  destruct (ram_put_then_get RAM_CACHE_ADMISSION_CEILING 1 LRU [] (new RAM_CACHE_ADMISSION_CEILING 1 LRU)
    (fun _ => 0) (sample_entry "a" [Byte.x07] 0 1)) as (c' & Hp & Hg & _).
  - unfold RAM_CACHE_ADMISSION_CEILING. lia.
  - reflexivity.
  - vm_compute. discriminate.
  - exists c'. split; [exact Hp | exact (Hg 1 false)].
Defined.

Lemma lru_evicts_shortest_prefix_witness :
  current_size (evict_loop (size (shard_data (sample_shard LRU))) (fun _ => 0) 300 (sample_shard LRU)) + 300
    <= 700.
Proof.
  apply (lru_evicts_shortest_prefix (fun _ => 0) 300 (sample_shard LRU)).
  - apply sample_shard_ok.
  - vm_compute. reflexivity.
  - vm_compute. split; discriminate.
Defined.

Lemma tinylfu_evicts_coldest_witness :
  exists k e, find_victim 1000 (sample_shard TinyLFU) = Some k /\ shard_data (sample_shard TinyLFU) !! k = Some e.
Proof.
  destruct (tinylfu_evicts_coldest 1000 (sample_shard TinyLFU)) as (k & e & Hv & Hk & _).
  - apply sample_shard_ok.
  - vm_compute. reflexivity.
  - intros E. apply (f_equal size) in E. vm_compute in E. discriminate.
  - exists k, e. split; [exact Hv | exact Hk].
Defined.

Lemma invalidate_by_prefix_exact_witness :
  (invalidate_by_prefix (mkCache [sample_shard LRU] 1 0 0) "a").2 = 1.
Proof.
  pose proof (invalidate_by_prefix_exact (mkCache [sample_shard LRU] 1 0 0) "a") as H.
  destruct (invalidate_by_prefix (mkCache [sample_shard LRU] 1 0 0) "a") as [c' n] eqn:E.
  destruct H as (_ & _ & Hn).
  - constructor; [cbn; lia | reflexivity | apply Forall_singleton, sample_shard_ok].
  - cbn [snd]. rewrite Hn. vm_compute. reflexivity.
Defined.

End Ram.
