(* ===== verification/MetadataCache.v ===== *)
(** * The metadata cache ([metadata_cache.rs])

    The RAM cache of per-object metadata files: entries with a refresh
    interval, a recency queue, the eviction loop, and [get_or_load] with its
    per-key locks.  Every method is the sequence of its lock sections; [step]
    interleaves the sections of any number of concurrent calls.  [Instant]s are
    integers in nanoseconds, and the loader's disk read is its result. *)

From S2P Require Import Prelude CacheTypes Maps RustStr.

#[local] Open Scope Z_scope.

Module MetaCache.

Record MetadataCacheConfig := mkConfig {
  enabled : bool;
  refresh_interval : Z;
  max_entries : Z;
  stale_handle_max_retries : Z;
}.

Definition default_config : MetadataCacheConfig := mkConfig true (5 * NANOS_PER_SEC) 100000 3.

Record MetadataCacheEntry := mkEntry {
  metadata : NewCacheMetadata;
  loaded_at : Z;
  disk_mtime : option Z;
  last_accessed : Z;
}.

Definition entry_new (now : Z) (m : NewCacheMetadata) (mtime : option Z) : MetadataCacheEntry :=
  mkEntry m now mtime now.

(** [loaded_at.elapsed()] saturates at zero. *)
Definition entry_is_stale (now : Z) (e : MetadataCacheEntry) (interval : Z) : bool :=
  interval <=? duration_since_or_zero now (loaded_at e).

Definition touch (now : Z) (e : MetadataCacheEntry) : MetadataCacheEntry :=
  mkEntry (metadata e) (loaded_at e) (disk_mtime e) now.

Record MetadataCacheMetrics := mkMetrics {
  hits : Z;
  misses : Z;
  stale_refreshes : Z;
  evictions : Z;
  stale_handle_errors : Z;
  disk_hits : Z;
  head_hits : Z;
  head_misses : Z;
  head_disk_hits : Z;
}.

(** [pending_reads] maps a key to its lock; a lock is the number of locks created
    before it. *)
Record MetadataCache := mkCache {
  entries : gmap string MetadataCacheEntry;
  lru_order : list string;
  pending_reads : gmap string nat;
  config : MetadataCacheConfig;
  metrics : MetadataCacheMetrics;
  locks_created : nat;
}.

Definition new (cfg : MetadataCacheConfig) : MetadataCache :=
  mkCache ∅ [] ∅ cfg (mkMetrics 0 0 0 0 0 0 0 0 0) 0.

Definition set_entries (c : MetadataCache) es : MetadataCache :=
  mkCache es (lru_order c) (pending_reads c) (config c) (metrics c) (locks_created c).

Definition set_lru (c : MetadataCache) lru : MetadataCache :=
  mkCache (entries c) lru (pending_reads c) (config c) (metrics c) (locks_created c).

Definition set_pending (c : MetadataCache) p n : MetadataCache :=
  mkCache (entries c) (lru_order c) p (config c) (metrics c) n.

Definition set_metrics (c : MetadataCache) m : MetadataCache :=
  mkCache (entries c) (lru_order c) (pending_reads c) (config c) m (locks_created c).

Definition add_counts (hit miss stale evicted handle : Z) (c : MetadataCache) : MetadataCache :=
  let m := metrics c in
  set_metrics c
    (mkMetrics (u64_add (hits m) hit) (u64_add (misses m) miss) (u64_add (stale_refreshes m) stale)
       (u64_add (evictions m) evicted) (u64_add (stale_handle_errors m) handle)
       (disk_hits m) (head_hits m) (head_misses m) (head_disk_hits m)).

(** [record_disk_hit], [record_head_hit], [record_head_miss] and
    [record_head_disk_hit], by which counter they raise. *)
Definition record_counts (disk head_hit head_miss head_disk : Z) (c : MetadataCache) : MetadataCache :=
  let m := metrics c in
  set_metrics c
    (mkMetrics (hits m) (misses m) (stale_refreshes m) (evictions m) (stale_handle_errors m)
       (u64_add (disk_hits m) disk) (u64_add (head_hits m) head_hit)
       (u64_add (head_misses m) head_miss) (u64_add (head_disk_hits m) head_disk)).

Definition record_disk_hit := record_counts 1 0 0 0.
Definition record_head_hit := record_counts 0 1 0 0.
Definition record_head_miss := record_counts 0 0 1 0.
Definition record_head_disk_hit := record_counts 0 0 0 1.

(** ** [get]: the section under the entries lock, the one under the queue's lock,
    and the final read *)

Definition get_check (now : Z) (key : string) (c : MetadataCache) : MetadataCache * bool :=
  match entries c !! key with
  | Some e =>
      if entry_is_stale now e (refresh_interval (config c))
      then (add_counts 0 0 1 0 0 c, false)
      else (add_counts 1 0 0 0 0 (set_entries c (<[key := touch now e]> (entries c))), true)
  | None => (add_counts 0 1 0 0 0 c, false)
  end.

(** [retain(|k| k != cache_key)]. *)
Definition without (key : string) (lru : list string) : list string :=
  base.filter (fun k => k <> key) lru.

Definition update_lru_order (key : string) (c : MetadataCache) : MetadataCache :=
  set_lru c (without key (lru_order c) ++ [key]).

Definition peek (key : string) (c : MetadataCache) : option NewCacheMetadata :=
  metadata <$> entries c !! key.

Definition contains_entry (key : string) (c : MetadataCache) : bool :=
  bool_decide (is_Some (entries c !! key)).

Definition get (now : Z) (key : string) (c : MetadataCache) : MetadataCache * option NewCacheMetadata :=
  if negb (enabled (config c)) then (c, None) else
  let '(c, found) := get_check now key c in
  if found then let c := update_lru_order key c in (c, peek key c) else (c, None).

(** ** [put_with_mtime] *)

Fixpoint evict_loop (max : Z) (lru : list string) (es : gmap string MetadataCacheEntry) (n : Z)
    : list string * gmap string MetadataCacheEntry * Z :=
  if max <=? Z.of_nat (size es) then
    match lru with
    | victim :: rest =>
        if bool_decide (is_Some (es !! victim)) then evict_loop max rest (delete victim es) (n + 1)
        else evict_loop max rest es n
    | [] => (lru, es, n)
    end
  else (lru, es, n).

Definition put_with_mtime (now : Z) (key : string) (m : NewCacheMetadata) (mtime : option Z)
    (c : MetadataCache) : MetadataCache :=
  if negb (enabled (config c)) then c else
  let '(lru, es, n) := evict_loop (max_entries (config c)) (lru_order c) (entries c) 0 in
  let lru := if bool_decide (is_Some (es !! key)) then without key lru else lru in
  add_counts 0 0 0 n 0 (set_lru (set_entries c (<[key := entry_new now m mtime]> es)) (lru ++ [key])).

Definition put (now : Z) (key : string) (m : NewCacheMetadata) (c : MetadataCache) : MetadataCache :=
  put_with_mtime now key m None c.

Definition invalidate (key : string) (c : MetadataCache) : MetadataCache :=
  match entries c !! key with
  | Some _ => set_lru (set_entries c (delete key (entries c))) (without key (lru_order c))
  | None => c
  end.

Definition is_stale (now : Z) (key : string) (c : MetadataCache) : bool :=
  match entries c !! key with
  | Some e => entry_is_stale now e (refresh_interval (config c))
  | None => true
  end.

Definition clear (c : MetadataCache) : MetadataCache :=
  mkCache ∅ [] ∅ (config c) (metrics c) (locks_created c).

Definition cache_len (c : MetadataCache) : Z := Z.of_nat (size (entries c)).

(** ** In-place updates of a cached entry *)

Definition update_head_access (sys1 sys2 now : Z) (key : string) (head_ttl : Z) (c : MetadataCache)
    : MetadataCache :=
  match entries c !! key with
  | Some e =>
      let m := record_head_access sys2 (refresh_head_ttl sys1 head_ttl (metadata e)) in
      set_entries c (<[key := touch now (mkEntry m (loaded_at e) (disk_mtime e) (last_accessed e))]> (entries c))
  | None => c
  end.

(** The [for] loop over the ranges stops at the first match. *)
Fixpoint record_range_access (sys start_ end_ : Z) (ranges : list NewRangeSpec) : list NewRangeSpec :=
  match ranges with
  | [] => []
  | r :: rest =>
      if (nr_start r =? start_) && (nr_end r =? end_) then record_access sys r :: rest
      else r :: record_range_access sys start_ end_ rest
  end.

Definition with_ranges (m : NewCacheMetadata) (ranges : list NewRangeSpec) : NewCacheMetadata :=
  mkNewCacheMetadata (cm_cache_key m) (cm_object_metadata m) ranges (cm_created_at m)
    (cm_expires_at m) (cm_compression_info m) (cm_head_expires_at m) (cm_head_last_accessed m)
    (cm_head_access_count m) (cm_head_cached_at m).

Definition update_range_access (sys now : Z) (key : string) (start_ end_ : Z) (c : MetadataCache)
    : MetadataCache :=
  match entries c !! key with
  | Some e =>
      let m := with_ranges (metadata e) (record_range_access sys start_ end_ (cm_ranges (metadata e))) in
      set_entries c (<[key := touch now (mkEntry m (loaded_at e) (disk_mtime e) (last_accessed e))]> (entries c))
  | None => c
  end.

(** ** [get_or_load] *)

Definition is_stale_file_handle (e : ProxyError) : bool :=
  match e with
  | IoError msg =>
      contains "stale file handle" msg || contains "ESTALE" msg || contains "os error 116" msg
  | CacheError msg => contains "stale file handle" msg || contains "ESTALE" msg
  | _ => false
  end.

Definition get_or_create_pending_lock (key : string) (c : MetadataCache) : MetadataCache * nat :=
  match pending_reads c !! key with
  | Some l => (c, l)
  | None =>
      let l := locks_created c in
      (set_pending c (<[key := l]> (pending_reads c)) (S l), l)
  end.

Definition remove_pending_lock (key : string) (c : MetadataCache) : MetadataCache :=
  set_pending c (delete key (pending_reads c)) (locks_created c).

Definition load_with_retry (now : Z) (key : string)
    (loader : Result (NewCacheMetadata * option Z)) (c : MetadataCache)
    : MetadataCache * Result NewCacheMetadata :=
  match loader with
  | Ok (m, mtime) => (put_with_mtime now key m mtime c, Ok m)
  | Err e => (if is_stale_file_handle e then add_counts 0 0 0 0 1 c else c, Err e)
  | Panic => (c, Panic)
  end.

(** The clock is read by each [get] and by the [put]. *)
Definition get_or_load (now1 now2 now3 : Z) (key : string)
    (loader : Result (NewCacheMetadata * option Z)) (c : MetadataCache)
    : MetadataCache * Result NewCacheMetadata :=
  if negb (enabled (config c)) then (c, x ← loader; Ok x.1) else
  let '(c, found) := get now1 key c in
  match found with
  | Some m => (c, Ok m)
  | None =>
      let '(c, _) := get_or_create_pending_lock key c in
      let '(c, found) := get now2 key c in
      match found with
      | Some m => (c, Ok m)
      | None =>
          let '(c, r) := load_with_retry now3 key loader c in
          match r with
          | Ok m => (remove_pending_lock key c, Ok m)
          | Err e => (c, Err e)
          | Panic => (c, Panic)
          end
      end
  end.

(** ** Concurrent calls

    A [get] in progress has found its entry and is about to move its key in the
    queue, or has moved it and is about to read the entry again.  [put],
    [invalidate], [clear] and the updates hold every lock they use throughout. *)
Inductive task := MovingKey (key : string) | Reading (key : string).

Inductive step : MetadataCache * list task -> MetadataCache * list task -> Prop :=
  | step_get_miss now key c c' ts :
      enabled (config c) = true -> get_check now key c = (c', false) -> step (c, ts) (c', ts)
  | step_get_found now key c c' ts :
      enabled (config c) = true -> get_check now key c = (c', true) ->
      step (c, ts) (c', MovingKey key :: ts)
  | step_get_move key c ts1 ts2 :
      step (c, ts1 ++ MovingKey key :: ts2) (update_lru_order key c, ts1 ++ Reading key :: ts2)
  | step_get_read key c ts1 ts2 : step (c, ts1 ++ Reading key :: ts2) (c, ts1 ++ ts2)
  | step_put now key m mtime c ts : step (c, ts) (put_with_mtime now key m mtime c, ts)
  | step_invalidate key c ts : step (c, ts) (invalidate key c, ts)
  | step_head sys1 sys2 now key ttl c ts : step (c, ts) (update_head_access sys1 sys2 now key ttl c, ts)
  | step_range sys now key s e c ts : step (c, ts) (update_range_access sys now key s e c, ts)
  | step_clear c ts : step (c, ts) (clear c, ts)
  | step_lock key c ts : step (c, ts) ((get_or_create_pending_lock key c).1, ts)
  | step_unlock key c ts : step (c, ts) (remove_pending_lock key c, ts).

(** ** Invariants *)

(** Every cached key can be found by eviction. *)
Definition tracked (lru : list string) (es : gmap string MetadataCacheEntry) : Prop :=
  forall k, is_Some (es !! k) -> k ∈ lru.

(** The queue lists exactly the cached keys, each once. *)
Definition exact (lru : list string) (es : gmap string MetadataCacheEntry) : Prop :=
  NoDup lru /\ forall k, k ∈ lru <-> is_Some (es !! k).

Record bounded (c : MetadataCache) : Prop := {
  bounded_tracked : tracked (lru_order c) (entries c);
  bounded_size : cache_len c <= Z.max 1 (max_entries (config c));
}.

Lemma elem_of_without k key lru : k ∈ without key lru <-> k ∈ lru /\ k <> key.
Proof. unfold without. rewrite list_elem_of_filter. tauto. Qed.

Lemma NoDup_without key lru : NoDup lru -> NoDup (without key lru).
Proof. apply NoDup_filter. Qed.

Lemma without_absent key lru : key ∉ lru -> without key lru = lru.
Proof.
  induction lru as [| k lru IH]; [done |]. rewrite elem_of_cons. intros H. unfold without.
  rewrite filter_cons_True by (intros ->; tauto). f_equal. apply IH. tauto.
Qed.

Lemma NoDup_move key lru : NoDup lru -> NoDup (without key lru ++ [key]).
Proof.
  intros Hl. apply NoDup_app. split; [by apply NoDup_without |]. split; [| apply NoDup_singleton].
  intros k Hk ->%list_elem_of_singleton. by apply elem_of_without in Hk as [_ ?].
Qed.

Lemma size_update (es : gmap string MetadataCacheEntry) k e :
  is_Some (es !! k) -> size (<[k := e]> es) = size es.
Proof. intros Hk. by rewrite map_size_insert_Some. Qed.

Lemma size_insert_le (es : gmap string MetadataCacheEntry) k e : (size (<[k := e]> es) <= S (size es))%nat.
Proof. rewrite map_size_insert. destruct (es !! k); simpl; lia. Qed.

(** The eviction loop pops a prefix of the queue and deletes exactly its keys. *)
Lemma evict_loop_spec max lru es n lru' es' n' :
  evict_loop max lru es n = (lru', es', n') -> tracked lru es ->
  tracked lru' es' /\ (Z.of_nat (size es') < max \/ es' = ∅) /\
  exists dropped, lru = dropped ++ lru' /\
    forall k, es' !! k = if bool_decide (k ∈ dropped) then None else es !! k.
Proof.
  revert es n. induction lru as [| v lru IH]; intros es n; simpl; bsplit_goal; intros Hev Ht.
  - simplify_eq. split; [done |]. split; [right | by exists []].
    apply map_empty. intros k. apply eq_None_not_Some. intros Hk%Ht. by apply elem_of_nil in Hk.
  - simplify_eq. split; [done |]. split; [left; lia | by exists []].
  - assert (Hv : tracked lru (if bool_decide (is_Some (es !! v)) then delete v es else es)).
    { intros k Hk. assert (k <> v /\ is_Some (es !! k)) as [Hne Hk'].
      { case_bool_decide as Hv; [| split; [by intros -> | done]].
        apply lookup_delete_is_Some in Hk as [??]. split; [by intros -> | done]. }
      apply Ht in Hk'. apply elem_of_cons in Hk' as [-> | ?]; [done | done]. }
    assert (exists m, evict_loop max lru (if bool_decide (is_Some (es !! v)) then delete v es else es) m
                      = (lru', es', n')) as [m Hm] by (case_bool_decide; eauto).
    destruct (IH _ _ Hm Hv) as (Ht' & Hs & dropped & -> & Hl).
    split; [done |]. split; [done |]. exists (v :: dropped). split; [done |].
    intros k. rewrite Hl. destruct (decide (k = v)) as [-> | Hne].
    + rewrite (bool_decide_true (v ∈ v :: dropped)) by apply elem_of_cons, or_introl, eq_refl.
      destruct (bool_decide (v ∈ dropped)); [done |]. case_bool_decide as Hv'; [apply lookup_delete_eq |].
      by apply eq_None_not_Some.
    + rewrite (bool_decide_ext (k ∈ v :: dropped) (k ∈ dropped)) by (rewrite elem_of_cons; tauto).
      destruct (bool_decide (k ∈ dropped)); [done |]. case_bool_decide; [by rewrite lookup_delete_ne |done].
  - simplify_eq. split; [done |]. split; [left; lia | by exists []].
Qed.

(** ** Every interleaving keeps the cache bounded *)

Lemma get_check_keys now key c c' b :
  get_check now key c = (c', b) ->
  lru_order c' = lru_order c /\ config c' = config c /\ size (entries c') = size (entries c) /\
  forall k, is_Some (entries c' !! k) <-> is_Some (entries c !! k).
Proof.
  unfold get_check. destruct (entries c !! key) as [e |] eqn:He;
    [destruct (entry_is_stale _ _ _) |]; intros; simplify_eq; simpl.
  - done.
  - split_and!; [done | done | by apply size_update; exists e |].
    intros k. destruct (decide (k = key)) as [-> |].
    + rewrite lookup_insert_eq, He. split; eauto.
    + by rewrite lookup_insert_ne.
  - done.
Qed.

Lemma put_bounded now key m mtime c : bounded c -> bounded (put_with_mtime now key m mtime c).
Proof.
  intros [Ht Hs]. unfold put_with_mtime. destruct (enabled (config c)); [simpl | done].
  destruct (evict_loop _ _ _ _) as [[lru es] n] eqn:E.
  destruct (evict_loop_spec _ _ _ _ _ _ _ E Ht) as (Ht' & Hsz & _).
  constructor; simpl.
  - intros k Hk. apply elem_of_app.
    destruct (decide (k = key)) as [-> | Hne]; [right; by apply list_elem_of_singleton |].
    rewrite lookup_insert_ne in Hk by done. left. case_bool_decide; [apply elem_of_without |]; auto.
  - unfold cache_len in *. simpl. pose proof (size_insert_le es key (entry_new now m mtime)).
    destruct Hsz as [? | ->]; [lia |]. rewrite map_size_empty in *. lia.
Qed.

Lemma update_entry_bounded c key e e' :
  entries c !! key = Some e -> bounded c -> bounded (set_entries c (<[key := e']> (entries c))).
Proof.
  intros He [Ht Hs]. constructor; simpl; [| unfold cache_len in *; simpl; rewrite size_update; eauto].
  intros k Hk. apply Ht. destruct (decide (k = key)) as [-> |]; [by exists e |].
  by rewrite lookup_insert_ne in Hk.
Qed.

Lemma invalidate_bounded key c : bounded c -> bounded (invalidate key c).
Proof.
  intros [Ht Hs]. unfold invalidate. destruct (entries c !! key) as [e |] eqn:He; [| done].
  constructor; simpl.
  - intros k [Hne Hk]%lookup_delete_is_Some. apply elem_of_without. auto.
  - unfold cache_len in *; simpl. rewrite map_size_delete_Some by eauto. lia.
Qed.

Lemma step_bounded s s' : step s s' -> bounded s.1 -> bounded s'.1 /\ config s'.1 = config s.1.
Proof.
  intros Hst Hb. destruct Hst; simpl in *; try (split; [| reflexivity]).
  - destruct (get_check_keys _ _ _ _ _ H0) as (Hl & Hc & Hz & Hk). destruct Hb as [Ht Hs].
    split; [| done]. constructor; [intros k; rewrite Hk, Hl; apply Ht | unfold cache_len in *; congruence].
  - destruct (get_check_keys _ _ _ _ _ H0) as (Hl & Hc & Hz & Hk). destruct Hb as [Ht Hs].
    split; [| done]. constructor; [intros k; rewrite Hk, Hl; apply Ht | unfold cache_len in *; congruence].
  - destruct Hb as [Ht Hs]. constructor; [| done]. simpl. intros k Hk. apply elem_of_app.
    destruct (decide (k = key)) as [-> |]; [right; by apply list_elem_of_singleton |].
    left. apply elem_of_without. auto.
  - done.
  - split; [by apply put_bounded |]. unfold put_with_mtime. destruct (enabled (config c)); [| done].
    by destruct (evict_loop _ _ _ _) as [[??]?].
  - split; [by apply invalidate_bounded |]. unfold invalidate. by destruct (entries c !! key).
  - unfold update_head_access. destruct (entries c !! key) eqn:E; [| done].
    split; [by eapply update_entry_bounded | done].
  - unfold update_range_access. destruct (entries c !! key) eqn:E; [| done].
    split; [by eapply update_entry_bounded | done].
  - constructor; simpl; [intros k [? Hk]; by rewrite lookup_empty in Hk |].
    unfold cache_len; simpl. rewrite map_size_empty. lia.
  - unfold get_or_create_pending_lock. destruct (pending_reads c !! key); (split; [| done]); [done |].
    by destruct Hb.
  - by destruct Hb.
Qed.

(** The metadata cache is bounded under concurrency.  However the lock sections
    of concurrent reads, writes, invalidations and updates interleave, the cache
    holds at most [max_entries] entries (one when that is zero), and each of them
    is in the recency queue, so that eviction can always find a victim. *)
Theorem metadata_cache_bounded cfg c ts :
  rtc step (new cfg, []) (c, ts) ->
  cache_len c <= Z.max 1 (max_entries cfg) /\ tracked (lru_order c) (entries c).
Proof.
  intros Hr. assert (bounded c /\ config c = cfg) as [[Ht Hs] <-]; [| done].
  cut (bounded (new cfg, @nil task).1 /\ config (new cfg, @nil task).1 = cfg).
  - revert Hr. generalize (new cfg, @nil task). intros s Hr [Hb Hc].
    change (bounded (c, ts).1 /\ config (c, ts).1 = cfg).
    induction Hr as [| s1 s2 s3 Hst _ IH]; [done |].
    destruct (step_bounded _ _ Hst Hb). apply IH; congruence.
  - simpl. split; [| done]. constructor; simpl; [intros k [? Hk]; by rewrite lookup_empty in Hk |].
    unfold cache_len; simpl. rewrite map_size_empty. lia.
Qed.

(** ** Calls that do not overlap keep the queue exact *)

Inductive op :=
  | OpGet (now : Z) (key : string)
  | OpPut (now : Z) (key : string) (m : NewCacheMetadata) (mtime : option Z)
  | OpInvalidate (key : string)
  | OpHead (sys1 sys2 now : Z) (key : string) (ttl : Z)
  | OpRange (sys now : Z) (key : string) (start_ end_ : Z)
  | OpClear.

Definition exec (c : MetadataCache) (o : op) : MetadataCache :=
  match o with
  | OpGet now key => (get now key c).1
  | OpPut now key m mtime => put_with_mtime now key m mtime c
  | OpInvalidate key => invalidate key c
  | OpHead sys1 sys2 now key ttl => update_head_access sys1 sys2 now key ttl c
  | OpRange sys now key s e => update_range_access sys now key s e c
  | OpClear => clear c
  end.

Record kept (c : MetadataCache) : Prop := {
  kept_exact : exact (lru_order c) (entries c);
  kept_size : cache_len c <= Z.max 1 (max_entries (config c));
}.

Lemma exact_tracked lru es : exact lru es -> tracked lru es.
Proof. intros [_ H] k. apply H. Qed.

Lemma exact_move lru es key :
  exact lru es -> is_Some (es !! key) -> exact (without key lru ++ [key]) es.
Proof.
  intros [Hn Hk] Hkey. split; [by apply NoDup_move |]. intros k.
  rewrite elem_of_app, elem_of_without, list_elem_of_singleton.
  destruct (decide (k = key)) as [-> |]; [tauto | rewrite <- Hk; tauto].
Qed.

Lemma exact_keys lru es es' :
  (forall k, is_Some (es' !! k) <-> is_Some (es !! k)) -> exact lru es -> exact lru es'.
Proof. intros H [Hn Hk]. split; [done |]. intros k. by rewrite H. Qed.

Lemma exact_insert lru es key e :
  exact lru es -> key ∉ lru -> exact (lru ++ [key]) (<[key := e]> es).
Proof.
  intros [Hn Hk] Hkey. split.
  - apply NoDup_app. split; [done |]. split; [| apply NoDup_singleton].
    by intros k ? ->%list_elem_of_singleton.
  - intros k. rewrite elem_of_app, list_elem_of_singleton, lookup_insert_is_Some, Hk.
    destruct (decide (k = key)) as [-> |]; [tauto |]. intuition congruence.
Qed.

Lemma exact_delete lru es key : exact lru es -> exact (without key lru) (delete key es).
Proof.
  intros [Hn Hk]. split; [by apply NoDup_without |]. intros k.
  rewrite elem_of_without, lookup_delete_is_Some, Hk. intuition congruence.
Qed.

(** At capacity the eviction loop drops the head of an exact queue, and only it. *)
Lemma evict_loop_exact max lru es n :
  exact lru es -> 1 <= max -> Z.of_nat (size es) <= max ->
  evict_loop max lru es n =
    match lru with
    | v :: rest =>
        if Z.of_nat (size es) =? max then (rest, delete v es, n + 1) else (lru, es, n)
    | [] => ([], es, n)
    end.
Proof.
  intros [Hn Hk] H1 Hm. destruct lru as [| v lru]; simpl; [by bsplit_goal |].
  bsplit_goal; bsplit_goal; try lia; [| done].
  assert (Hv : is_Some (es !! v)) by (apply Hk, elem_of_cons; by left).
  rewrite bool_decide_true by done.
  assert (Z.of_nat (size (delete v es)) < max) by (rewrite map_size_delete_Some by done; lia).
  destruct lru; simpl; by bsplit_goal; [lia |].
Qed.

Lemma evict_loop_kept max lru es n lru' es' n' :
  exact lru es -> evict_loop max lru es n = (lru', es', n') -> exact lru' es'.
Proof.
  revert es n. induction lru as [| v lru IH]; intros es n Hx; simpl; bsplit_goal; intros E; simplify_eq; try done.
  assert (Hv : is_Some (es !! v)) by (apply Hx, elem_of_cons; by left).
  rewrite bool_decide_true in E by done. refine (IH _ _ _ E).
  pose proof (exact_delete _ _ v Hx) as Hd. unfold without in Hd.
  rewrite filter_cons_False in Hd by tauto. fold (without v lru) in Hd.
  rewrite without_absent in Hd; [done |]. destruct Hx as [[Hv' _]%NoDup_cons _]. done.
Qed.

Lemma put_exact now key m mtime c :
  exact (lru_order c) (entries c) ->
  exact (lru_order (put_with_mtime now key m mtime c)) (entries (put_with_mtime now key m mtime c)).
Proof.
  intros Hx. unfold put_with_mtime. destruct (enabled (config c)); [simpl | done].
  destruct (evict_loop _ _ _ _) as [[lru es] n] eqn:E. apply evict_loop_kept in E; [| done]. simpl.
  case_bool_decide as Hk; [| by apply exact_insert; [| intros ?%E]].
  rewrite <- insert_delete_eq. apply exact_insert; [by apply exact_delete |].
  by intros [_ ?]%elem_of_without.
Qed.

Lemma get_kept now key c : kept c -> kept (get now key c).1 /\ config (get now key c).1 = config c.
Proof.
  intros [Hx Hs]. unfold get. destruct (enabled (config c)); [simpl | done].
  destruct (get_check now key c) as [c1 found] eqn:E.
  destruct (get_check_keys _ _ _ _ _ E) as (Hl & Hc & Hz & Hk).
  assert (Hx1 : exact (lru_order c1) (entries c1)) by (rewrite Hl; by eapply exact_keys).
  assert (Hs1 : cache_len c1 <= Z.max 1 (max_entries (config c1))) by (unfold cache_len in *; congruence).
  destruct found; [| done]. simpl. split; [| done]. constructor; [| done]. simpl.
  apply exact_move; [done |]. apply Hk. revert E. unfold get_check.
  destruct (entries c !! key); [done |]. by intros [= ? ?].
Qed.

Lemma update_entry_kept c key e e' :
  entries c !! key = Some e -> kept c -> kept (set_entries c (<[key := e']> (entries c))).
Proof.
  intros He [Hx Hs]. constructor; simpl; [| unfold cache_len in *; simpl; rewrite size_update; eauto].
  eapply exact_keys, Hx. intros k. destruct (decide (k = key)) as [-> |];
    [rewrite lookup_insert_eq, He; split; eauto | by rewrite lookup_insert_ne].
Qed.

Lemma exec_kept c o : kept c -> kept (exec c o) /\ config (exec c o) = config c.
Proof.
  intros Hc. destruct o; simpl.
  - by apply get_kept.
  - split; [constructor; [by apply put_exact, Hc |] |].
    + apply put_bounded. constructor; [apply exact_tracked |]; apply Hc.
    + unfold put_with_mtime. destruct (enabled (config c)); [| done]. by destruct (evict_loop _ _ _ _) as [[??]?].
  - destruct (invalidate_bounded key c) as [_ Hs]; [constructor; [apply exact_tracked |]; apply Hc |].
    unfold invalidate in *. destruct (entries c !! key); [| done].
    split; [| done]. constructor; [by apply exact_delete, Hc | done].
  - unfold update_head_access. destruct (entries c !! key) eqn:E; [| done].
    split; [by eapply update_entry_kept | done].
  - unfold update_range_access. destruct (entries c !! key) eqn:E; [| done].
    split; [by eapply update_entry_kept | done].
  - split; [| done]. constructor; simpl; [split; [constructor |] | unfold cache_len; simpl; rewrite map_size_empty; lia].
    intros k. rewrite elem_of_nil, lookup_empty. split; [done | by intros []].
Qed.

Lemma exec_all_kept cfg ops :
  kept (fold_left exec ops (new cfg)) /\ config (fold_left exec ops (new cfg)) = cfg.
Proof.
  cut (kept (new cfg) /\ config (new cfg) = cfg).
  - generalize (new cfg). induction ops as [| o ops IH]; intros c [Hk Hc]; simpl; [done |].
    destruct (exec_kept c o Hk). apply IH. split; congruence.
  - split; [| done]. constructor; simpl; [split; [constructor |] | unfold cache_len; simpl; rewrite map_size_empty; lia].
    intros k. rewrite elem_of_nil, lookup_empty. split; [done | by intros []].
Qed.

(** A read of a stored entry, by its age. *)
Lemma get_of_entry now key c e :
  enabled (config c) = true -> entries c !! key = Some e ->
  (get now key c).2 =
    if entry_is_stale now e (refresh_interval (config c)) then None else Some (metadata e).
Proof.
  intros He Hk. unfold get, get_check. rewrite He, Hk. simpl.
  destruct (entry_is_stale _ _ _); [done |]. unfold peek. simpl. by rewrite lookup_insert_eq.
Qed.

Lemma put_entries now key m mtime c :
  enabled (config c) = true -> exact (lru_order c) (entries c) ->
  1 <= max_entries (config c) -> cache_len c <= max_entries (config c) ->
  let c' := put_with_mtime now key m mtime c in
  config c' = config c /\ entries c' !! key = Some (entry_new now m mtime) /\
  last (lru_order c') = Some key /\
  forall k, k <> key ->
    entries c' !! k =
      if bool_decide (cache_len c = max_entries (config c) /\ head (lru_order c) = Some k) then None
      else entries c !! k.
Proof.
  intros He Hx H1 Hm. unfold put_with_mtime. rewrite He. simpl.
  rewrite evict_loop_exact by (try apply Hx; done). unfold cache_len in *.
  destruct (lru_order c) as [| v rest] eqn:El; [| bsplit_goal]; simpl;
    (split; [done |]; split; [by rewrite lookup_insert_eq |];
     split; [case_bool_decide; apply last_snoc |];
     intros k Hk; rewrite lookup_insert_ne by done).
  - rewrite bool_decide_false by (by intros [_ ?]). done.
  - destruct (decide (k = v)) as [-> | Hne].
    + rewrite bool_decide_true by done. apply lookup_delete_eq.
    + rewrite bool_decide_false by (intros [_ [=]]; done). by apply lookup_delete_ne.
  - by rewrite bool_decide_false by tauto.
Qed.

(** A stored entry is served until the refresh interval has passed, and eviction
    takes the least recently used entry.  After any sequence of calls that do not
    overlap, the recency queue lists exactly the cached keys; storing a key makes
    it the most recent one, a read returns it exactly while it is younger than the
    refresh interval, and every other entry is kept, except that a full cache
    loses the head of the queue. *)
Theorem metadata_put_get_evict cfg ops now key m mtime :
  enabled cfg = true -> 1 <= max_entries cfg -> 0 < refresh_interval cfg ->
  let c := fold_left exec ops (new cfg) in
  let c' := put_with_mtime now key m mtime c in
  exact (lru_order c) (entries c) /\ exact (lru_order c') (entries c') /\
  last (lru_order c') = Some key /\
  (forall t, (get t key c').2 = if t <? now + refresh_interval cfg then Some m else None) /\
  (forall k, k <> key ->
     entries c' !! k =
       if bool_decide (cache_len c = max_entries cfg /\ head (lru_order c) = Some k) then None
       else entries c !! k).
Proof.
  intros He Hm Hr c c'. destruct (exec_all_kept cfg ops) as [[Hx Hs] Hc]. fold c in Hx, Hs, Hc.
  split; [done |]. split; [by apply put_exact |].
  destruct (put_entries now key m mtime c) as (Hc' & Hk & Hlast & Hother);
    [by rewrite Hc | done | by rewrite Hc | rewrite Hc in *; lia |].
  fold c' in Hc', Hk, Hlast, Hother. rewrite Hc in *. split; [done |]. split; [| done].
  intros t. rewrite (get_of_entry t key c' (entry_new now m mtime)) by (rewrite ?Hc'; done).
  rewrite Hc'. unfold entry_is_stale, duration_since_or_zero. simpl.
  bsplit_goal; bsplit_goal; try done; lia.
Qed.

(** ** [get_or_load] *)

(** A key with no entry younger than the refresh interval is not served. *)
Lemma get_not_served now key c :
  enabled (config c) = true -> is_stale now key c = true ->
  (get now key c).2 = None /\ entries (get now key c).1 = entries c /\
  lru_order (get now key c).1 = lru_order c /\ pending_reads (get now key c).1 = pending_reads c /\
  config (get now key c).1 = config c.
Proof.
  intros He. unfold get, get_check, is_stale. rewrite He. simpl.
  destruct (entries c !! key) as [e |]; [intros -> |]; done.
Qed.

Lemma is_stale_mono now now' key c :
  now <= now' -> is_stale now key c = true -> is_stale now' key c = true.
Proof.
  unfold is_stale, entry_is_stale, duration_since_or_zero. destruct (entries c !! key); [| done].
  rewrite !Z.leb_le. lia.
Qed.

Lemma pending_lock_spec key c :
  let c' := (get_or_create_pending_lock key c).1 in
  entries c' = entries c /\ lru_order c' = lru_order c /\ config c' = config c /\
  is_Some (pending_reads c' !! key).
Proof.
  unfold get_or_create_pending_lock. destruct (pending_reads c !! key) eqn:E; simpl;
    [rewrite E | rewrite lookup_insert_eq]; eauto.
Qed.

Lemma put_caches now key m mtime c :
  enabled (config c) = true -> peek key (put_with_mtime now key m mtime c) = Some m.
Proof.
  intros He. unfold put_with_mtime, peek. rewrite He. simpl.
  destruct (evict_loop _ _ _ _) as [[??]?]. simpl. by rewrite lookup_insert_eq.
Qed.

(** [get_or_load] reads the disk only when it must.  A key with an entry
    younger than the refresh interval is served from RAM, whatever the loader
    would do; otherwise the loader's metadata is returned and cached, and its
    error is passed on with the cache unchanged.  The key's lock is removed after
    a successful load only: an error leaves it in [pending_reads]. *)
Theorem get_or_load_branches now1 now2 now3 key loader c :
  enabled (config c) = true -> now1 <= now2 ->
  let '(c', r) := get_or_load now1 now2 now3 key loader c in
  match entries c !! key with
  | Some e =>
      if is_stale now1 key c then True
      else r = Ok (metadata e) /\ entries c' = <[key := touch now1 e]> (entries c) /\
           pending_reads c' = pending_reads c
  | None => is_stale now1 key c = true
  end /\
  (is_stale now1 key c = true ->
   match loader with
   | Ok (m, _) => r = Ok m /\ peek key c' = Some m /\ pending_reads c' !! key = None
   | Err e => r = Err e /\ entries c' = entries c /\ lru_order c' = lru_order c /\
              is_Some (pending_reads c' !! key)
   | Panic => r = Panic
   end).
Proof.
  intros He Hn. unfold get_or_load. rewrite He. simpl.
  destruct (is_stale now1 key c) eqn:Hst.
  - destruct (get_not_served now1 key c He Hst) as (H1 & He1 & Hl1 & Hp1 & Hc1).
    destruct (get now1 key c) as [c1 f1]. simpl in *. subst f1.
    destruct (pending_lock_spec key c1) as (He2 & Hl2 & Hc2 & Hp2).
    destruct (get_or_create_pending_lock key c1) as [c2 l]. simpl in *.
    assert (Hst2 : is_stale now2 key c2 = true).
    { apply (is_stale_mono now1); [done |]. unfold is_stale in *. by rewrite He2, He1, Hc2, Hc1. }
    assert (Hen : enabled (config c2) = true) by congruence.
    destruct (get_not_served now2 key c2 Hen Hst2) as (H3 & He3 & Hl3 & Hp3 & Hc3).
    destruct (get now2 key c2) as [c3 f3]. simpl in *. subst f3.
    unfold load_with_retry. destruct loader as [[m mtime] | e |].
    + split; [by destruct (entries c !! key) |]. intros _. split_and!; [done | | apply lookup_delete_eq].
      apply (put_caches now3 key m mtime c3). congruence.
    + split; [by destruct (entries c !! key) |]. intros _.
      destruct (is_stale_file_handle e); simpl; rewrite Hp3; split_and!; congruence || done.
    + by split; [destruct (entries c !! key) |].
  - pose proof Hst as Hst'. unfold is_stale in Hst'.
    destruct (entries c !! key) as [e |] eqn:Hk; [| done]. unfold get, get_check.
    rewrite He, Hk. simpl. rewrite Hst'. simpl. unfold peek. simpl. rewrite lookup_insert_eq. simpl.
    split; [done |]. done.
Qed.

(** A lookup that goes to the disk counts two misses: both calls of [get] count. *)
Lemma miss_counted_twice now1 now2 now3 key e c :
  enabled (config c) = true -> entries c !! key = None -> is_stale_file_handle e = false ->
  misses (metrics (get_or_load now1 now2 now3 key (Err e) c).1)
    = u64_add (u64_add (misses (metrics c)) 1) 1.
Proof.
  intros He Hk Hh. unfold get_or_load, get, get_check, get_or_create_pending_lock, load_with_retry.
  rewrite He, Hk. simpl. destruct (pending_reads c !! key); simpl; rewrite He, Hk; simpl; by rewrite Hh.
Qed.

(** ** Concrete runs *)

Definition sample_metadata (key : string) : NewCacheMetadata :=
  mkNewCacheMetadata key (ObjectMetadata_new "v1" "" 3 None) [] 0 0
    (mkCompressionInfo NoCompression None None None) None None 0 None.

(** A read that found its entry just before an invalidation puts the key back in the
    queue; a later write then lists it twice. *)
Lemma interleaved_get_duplicates_key :
  exists c, rtc step (new default_config, []) (c, [Reading "k"]) /\ lru_order c = ["k"; "k"].
Proof.
  eexists. split.
  - eapply rtc_l; [apply (step_put 0 "k" (sample_metadata "k") None) |].
    eapply rtc_l; [apply (step_get_found 1 "k"); vm_compute; reflexivity |].
    eapply rtc_l; [apply (step_invalidate "k") |].
    eapply rtc_l; [apply (step_get_move "k" _ [] []) |].
    eapply rtc_l; [apply (step_put 2 "k" (sample_metadata "k") None) |]. apply rtc_refl.
  - vm_compute. reflexivity.
Qed.

Lemma metadata_cache_bounded_witness :
  exists c ts, rtc step (new (mkConfig true 5 0 3), []) (c, ts) /\ cache_len c = 1 /\ cache_len c <= 1.
Proof.
  exists (put_with_mtime 1 "b" (sample_metadata "b") None
           (put_with_mtime 0 "a" (sample_metadata "a") None (new (mkConfig true 5 0 3)))), [].
  assert (Hr : rtc step (new (mkConfig true 5 0 3), [])
    (put_with_mtime 1 "b" (sample_metadata "b") None
       (put_with_mtime 0 "a" (sample_metadata "a") None (new (mkConfig true 5 0 3))), [])).
  { eapply rtc_l; [apply step_put |]. apply rtc_once, step_put. }
  split; [exact Hr |]. split; [vm_compute; reflexivity |].
  exact (proj1 (metadata_cache_bounded _ _ _ Hr)).
Defined.

Lemma metadata_put_get_evict_witness :
  let c := fold_left exec [OpPut 0 "a" (sample_metadata "a") None] (new (mkConfig true 5 1 3)) in
  let c' := put_with_mtime 1 "b" (sample_metadata "b") None c in
  (get 3 "b" c').2 = Some (sample_metadata "b") /\ entries c' !! "a" = None.
Proof.
  destruct (metadata_put_get_evict (mkConfig true 5 1 3) [OpPut 0 "a" (sample_metadata "a") None]
    1 "b" (sample_metadata "b") None) as (_ & _ & _ & Hg & Ho); [reflexivity | simpl; lia | simpl; lia |].
  split; [exact (Hg 3) |]. rewrite Ho by done. vm_compute. reflexivity.
Defined.

Lemma get_or_load_branches_witness :
  let '(c', r) := get_or_load 0 1 2 "k" (Err (IoError "missing")) (new default_config) in
  r = Err (IoError "missing") /\ is_Some (pending_reads c' !! "k").
Proof.
  pose proof (get_or_load_branches 0 1 2 "k" (Err (IoError "missing")) (new default_config)
                eq_refl ltac:(lia)) as Hw.
  destruct (get_or_load 0 1 2 "k" (Err (IoError "missing")) (new default_config)) as [c' r].
  destruct Hw as [_ Hw]. destruct (Hw eq_refl) as (Hr & _ & _ & Hp). exact (conj Hr Hp).
Defined.

End MetaCache.
