(* ===== verification/InflightTracker.v ===== *)
(** * Download coalescing ([inflight_tracker.rs])

    The tracker that makes one request fetch an object while the others wait for
    it.  A [broadcast] channel of the async runtime is the list of results sent on
    it and the number of its live [Sender]s; a [Receiver] sees the results sent
    after it subscribed.
    [step] interleaves the atomic actions of any number of requests: completion
    is a send followed, later, by the removal of the map entry and the release of
    the guard's sender. *)

From S2P Require Import Prelude CacheTypes Maps RustStr.

#[local] Open Scope Z_scope.

Module Tracker.

(** [Result<(), String>]. *)
Abbreviation FetchResult := (unit + string)%type.

Definition BROADCAST_CHANNEL_CAPACITY : nat := 1.

Record Channel := mkChannel { senders : nat; sent : list FetchResult }.

Record InFlightTracker := mkTracker {
  pending : gmap string nat;
  channels : list Channel;
}.

Record Receiver := mkReceiver { rx_chan : nat; rx_pos : nat }.

Record FetchGuard := mkGuard { flight_key : string; sender : nat; completed : bool }.

Inductive FetchRole := Fetcher (g : FetchGuard) | Waiter (r : Receiver).

Definition new : InFlightTracker := mkTracker ∅ [].

(** ** Channel operations *)

Definition on_channel (i : nat) (f : Channel -> Channel) (t : InFlightTracker) : InFlightTracker :=
  mkTracker (pending t) (alter f i (channels t)).

Definition send (i : nat) (r : FetchResult) : InFlightTracker -> InFlightTracker :=
  on_channel i (fun ch => mkChannel (senders ch) (sent ch ++ [r])).

Definition drop_sender (i : nat) : InFlightTracker -> InFlightTracker :=
  on_channel i (fun ch => mkChannel (pred (senders ch)) (sent ch)).

Definition subscribe (i : nat) (t : InFlightTracker) : Receiver :=
  mkReceiver i (match channels t !! i with Some ch => length (sent ch) | None => 0%nat end).

Inductive Received := Message (r : FetchResult) | Closed | Lagged | Blocked.

Definition recv (t : InFlightTracker) (rx : Receiver) : Received :=
  match channels t !! rx_chan rx with
  | None => Closed
  | Some ch =>
      match List.skipn (rx_pos rx) (sent ch) with
      | [] => if (senders ch =? 0)%nat then Closed else Blocked
      | r :: more => if (BROADCAST_CHANNEL_CAPACITY <=? length more)%nat then Lagged else Message r
      end
  end.

(** ** The tracker *)

Definition try_register (key : string) (t : InFlightTracker) : InFlightTracker * FetchRole :=
  match pending t !! key with
  | None =>
      let i := length (channels t) in
      (mkTracker (<[key := i]> (pending t)) (channels t ++ [mkChannel 2 []]),
       Fetcher (mkGuard key i false))
  | Some i => (t, Waiter (subscribe i t))
  end.

Definition try_resubscribe (key : string) (t : InFlightTracker) : option Receiver :=
  (fun i => subscribe i t) <$> pending t !! key.

Definition in_flight_count (t : InFlightTracker) : nat := size (pending t).

(** [pending.remove]: the entry's sender goes with it. *)
Definition remove_entry (key : string) (t : InFlightTracker) : InFlightTracker :=
  match pending t !! key with
  | Some i => drop_sender i (mkTracker (delete key (pending t)) (channels t))
  | None => t
  end.

(** Dropping the guard: its [Drop] removes the entry unless it has completed, then
    its sender is released. *)
Definition drop_guard (g : FetchGuard) (t : InFlightTracker) : InFlightTracker :=
  drop_sender (sender g) (if completed g then t else remove_entry (flight_key g) t).

Definition complete (r : FetchResult) (g : FetchGuard) (t : InFlightTracker) : InFlightTracker :=
  let g := mkGuard (flight_key g) (sender g) true in
  drop_guard g (remove_entry (flight_key g) (send (sender g) r t)).

Definition complete_success (g : FetchGuard) : InFlightTracker -> InFlightTracker := complete (inl tt) g.

Definition complete_error (g : FetchGuard) (error : string) : InFlightTracker -> InFlightTracker :=
  complete (inr error) g.

(** ** Flight keys *)

Definition make_full_key (cache_key : string) : string := cache_key.

Definition make_range_key (cache_key : string) (start_ end_ : Z) : string :=
  cache_key +:+ ":" +:+ u64_to_string start_ +:+ "-" +:+ u64_to_string end_.

Definition make_part_key (cache_key : string) (part_number : Z) : string :=
  cache_key +:+ ":part" +:+ u64_to_string part_number.

(** ** Interleaved requests

    A fetching request is named by the channel it created.  It is fetching, or
    has sent its result, or has removed its map entry and not yet released its
    sender. *)
Inductive phase := Fetching | Sent | Removed.

Record World := mkWorld {
  tracker : InFlightTracker;
  guards : gmap nat (FetchGuard * phase);
  waiters : list (string * Receiver);
}.

Inductive step : World -> World -> Prop :=
  | step_fetch key t t' g gs ws :
      try_register key t = (t', Fetcher g) ->
      step (mkWorld t gs ws) (mkWorld t' (<[sender g := (g, Fetching)]> gs) ws)
  | step_wait key t t' rx gs ws :
      try_register key t = (t', Waiter rx) ->
      step (mkWorld t gs ws) (mkWorld t' gs ((key, rx) :: ws))
  | step_resubscribe key t rx gs ws :
      try_resubscribe key t = Some rx -> step (mkWorld t gs ws) (mkWorld t gs ((key, rx) :: ws))
  | step_send i g r t gs ws :
      gs !! i = Some (g, Fetching) ->
      step (mkWorld t gs ws)
        (mkWorld (send (sender g) r t) (<[i := (mkGuard (flight_key g) (sender g) true, Sent)]> gs) ws)
  | step_remove i g t gs ws :
      gs !! i = Some (g, Sent) ->
      step (mkWorld t gs ws) (mkWorld (remove_entry (flight_key g) t) (<[i := (g, Removed)]> gs) ws)
  | step_abandon i g t gs ws :
      gs !! i = Some (g, Fetching) ->
      step (mkWorld t gs ws) (mkWorld (remove_entry (flight_key g) t) (<[i := (g, Removed)]> gs) ws)
  | step_release i g t gs ws :
      gs !! i = Some (g, Removed) ->
      step (mkWorld t gs ws) (mkWorld (drop_sender (sender g) t) (delete i gs) ws)
  | step_leave w t gs ws1 ws2 :
      step (mkWorld t gs (ws1 ++ w :: ws2)) (mkWorld t gs (ws1 ++ ws2)).

Definition start : World := mkWorld new ∅ [].

(** ** The invariant *)

(** What a channel looks like in each phase of the request that created it. *)
Definition chan_ok (ch : Channel) (ph : option phase) : Prop :=
  match ph with
  | Some Fetching => senders ch = 2%nat /\ sent ch = []
  | Some Sent => senders ch = 2%nat /\ length (sent ch) = 1%nat
  | Some Removed => senders ch = 1%nat /\ (length (sent ch) <= 1)%nat
  | None => senders ch = 0%nat /\ (length (sent ch) <= 1)%nat
  end.

Definition live (gs : gmap nat (FetchGuard * phase)) (key : string) (i : nat) : Prop :=
  exists g ph, gs !! i = Some (g, ph) /\ ph <> Removed /\ flight_key g = key.

Record consistent (w : World) : Prop := {
  guard_sender i g ph : guards w !! i = Some (g, ph) -> sender g = i;
  guard_running i g : guards w !! i = Some (g, Fetching) -> completed g = false;
  pending_live k i : pending (tracker w) !! k = Some i <-> live (guards w) k i;
  channel_phase i :
    match channels (tracker w) !! i with
    | Some ch => chan_ok ch (snd <$> guards w !! i)
    | None => guards w !! i = None
    end;
  channel_owner : exists owner : nat -> string,
    (forall i g ph, guards w !! i = Some (g, ph) -> owner i = flight_key g) /\
    forall k rx, (k, rx) ∈ waiters w -> owner (rx_chan rx) = k /\
      exists ch, channels (tracker w) !! rx_chan rx = Some ch /\ (rx_pos rx <= length (sent ch))%nat;
}.

Lemma lookup_alter_channel (f : Channel -> Channel) i j (l : list Channel) :
  alter f i l !! j = if decide (i = j) then f <$> l !! j else l !! j.
Proof. case_decide as E; [subst; apply list_lookup_alter_eq | by apply list_lookup_alter_ne]. Qed.

Lemma live_update gs i o k j :
  live (partial_alter (fun _ => o) i gs) k j <->
  if decide (i = j) then exists g ph, o = Some (g, ph) /\ ph <> Removed /\ flight_key g = k
  else live gs k j.
Proof.
  unfold live. case_decide as E; [subst j |].
  - by rewrite lookup_partial_alter_eq.
  - by rewrite lookup_partial_alter_ne.
Qed.

(** One request [i] moves to its next phase, or is gone ([o = None]). *)
Lemma advance_consistent t gs ws i g ph o p' f :
  consistent (mkWorld t gs ws) -> gs !! i = Some (g, ph) ->
  (forall g' ph', o = Some (g', ph') ->
     sender g' = i /\ flight_key g' = flight_key g /\ ph' <> Fetching) ->
  (forall ch, (length (sent ch) <= length (sent (f ch)))%nat) ->
  (forall ch, chan_ok ch (Some ph) -> chan_ok (f ch) (snd <$> o)) ->
  (forall k j, p' !! k = Some j <-> live (partial_alter (fun _ => o) i gs) k j) ->
  consistent (mkWorld (mkTracker p' (alter f i (channels t))) (partial_alter (fun _ => o) i gs) ws).
Proof.
  intros [Hs Hr Hp Hc (owner & Ho & Hw)] Hi Hg Hf Hch Hp'. simpl in *. constructor; simpl.
  - intros j g' ph'. destruct (decide (i = j)) as [<- | Hne].
    + rewrite lookup_partial_alter_eq. intros E. by apply (Hg g' ph').
    + rewrite lookup_partial_alter_ne by done. apply Hs.
  - intros j g'. destruct (decide (i = j)) as [<- | Hne].
    + rewrite lookup_partial_alter_eq. intros E. by destruct (Hg g' Fetching E) as (_ & _ & ?).
    + rewrite lookup_partial_alter_ne by done. apply Hr.
  - done.
  - intros j. rewrite lookup_alter_channel. specialize (Hc j). case_decide as E; [subst j |].
    + rewrite lookup_partial_alter_eq, Hi in *. destruct (channels t !! i); simpl in *; [by apply Hch | done].
    + by rewrite lookup_partial_alter_ne.
  - exists owner. split.
    + intros j g' ph'. destruct (decide (i = j)) as [<- | Hne].
      * rewrite lookup_partial_alter_eq. intros E. destruct (Hg g' ph' E) as (_ & -> & _). by apply (Ho i g ph).
      * rewrite lookup_partial_alter_ne by done. apply Ho.
    + intros k rx Hk. destruct (Hw k rx Hk) as (? & ch & Hch' & Hpos). split; [done |].
      rewrite lookup_alter_channel. case_decide; [| eauto]. rewrite Hch'. simpl.
      eexists. split; [done |]. specialize (Hf ch). lia.
Qed.

Lemma subscribe_consistent key i t gs ws :
  consistent (mkWorld t gs ws) -> pending t !! key = Some i ->
  consistent (mkWorld t gs ((key, subscribe i t) :: ws)).
Proof.
  intros [Hs Hr Hp Hc (owner & Ho & Hw)] Hi. simpl in *. constructor; simpl; try done.
  exists owner. split; [done |]. intros k rx [[= -> ->] | Hk]%elem_of_cons; [| by apply Hw].
  apply Hp in Hi as (g & ph & Hg & _ & <-). simpl. split; [by apply (Ho i g ph) |].
  specialize (Hc i). rewrite Hg in Hc. destruct (channels t !! i) as [ch |] eqn:E; [| done].
  by exists ch.
Qed.

Lemma fetch_consistent key t gs ws :
  consistent (mkWorld t gs ws) -> pending t !! key = None ->
  consistent (mkWorld (try_register key t).1 (<[length (channels t) := (mkGuard key (length (channels t)) false, Fetching)]> gs) ws).
Proof.
  intros [Hs Hr Hp Hc (owner & Ho & Hw)] Hi. unfold try_register. simpl in *. rewrite Hi. simpl.
  set (n := length (channels t)).
  assert (Hn : gs !! n = None) by (specialize (Hc n); by rewrite lookup_ge_None_2 in Hc).
  assert (Hlt : forall j, is_Some (gs !! j) -> j <> n) by (intros j [? Hj] ->; congruence).
  constructor; simpl.
  - intros j g ph. destruct (decide (n = j)) as [<- |]; [rewrite lookup_insert_eq; by intros [= <- <-] |].
    rewrite lookup_insert_ne by done. apply Hs.
  - intros j g. destruct (decide (n = j)) as [<- |]; [rewrite lookup_insert_eq; by intros [= <-] |].
    rewrite lookup_insert_ne by done. apply Hr.
  - intros k j. change (<[n := ?x]> gs) with (partial_alter (fun _ => Some x) n gs). rewrite live_update.
    case_decide as E; [subst j |].
    + destruct (decide (k = key)) as [-> | Hne].
      * rewrite lookup_insert_eq. split; [| done]. intros _. by eexists _, Fetching.
      * rewrite lookup_insert_ne by done. rewrite Hp. split; [by intros (? & ? & ? & ?); congruence |].
        intros (? & ? & [= <- <-] & _ & <-). done.
    + destruct (decide (k = key)) as [-> | Hne]; [| by rewrite lookup_insert_ne].
      rewrite lookup_insert_eq. split; [by intros [= ?] |]. rewrite <- Hp, Hi. done.
  - intros j. specialize (Hc j). destruct (decide (n = j)) as [<- | Hne].
    + rewrite lookup_insert_eq, list_lookup_middle by done. done.
    + rewrite lookup_insert_ne by done. destruct (channels t !! j) as [ch |] eqn:E.
      * by rewrite (lookup_app_l_Some _ _ _ _ E).
      * rewrite lookup_app_r by (by apply lookup_ge_None_1). apply lookup_ge_None in E. fold n in E.
        rewrite lookup_ge_None_2 by (simpl; lia). done.
  - exists (fun j => if decide (j = n) then key else owner j). split.
    + intros j g ph. case_decide as E; [subst j; rewrite lookup_insert_eq; by intros [= <- <-] |].
      rewrite lookup_insert_ne by done. apply Ho.
    + intros k rx Hk. destruct (Hw k rx Hk) as (Hk' & ch & Hch & Hpos).
      rewrite decide_False by (intros E; rewrite E in Hch; unfold n in Hch; by rewrite lookup_ge_None_2 in Hch).
      split; [done |]. exists ch. by rewrite (lookup_app_l_Some _ _ _ _ Hch).
Qed.

Lemma remove_entry_live key i t gs ws :
  consistent (mkWorld t gs ws) -> live gs key i ->
  remove_entry key t = mkTracker (delete key (pending t))
    (alter (fun ch => mkChannel (pred (senders ch)) (sent ch)) i (channels t)).
Proof. intros Hc Hl. unfold remove_entry. apply (pending_live _ Hc) in Hl. simpl in Hl. by rewrite Hl. Qed.

Lemma removed_consistent i g ph t gs ws :
  consistent (mkWorld t gs ws) -> gs !! i = Some (g, ph) -> ph <> Removed ->
  consistent (mkWorld (remove_entry (flight_key g) t) (<[i := (g, Removed)]> gs) ws).
Proof.
  intros Hc Hi Hph. assert (Hl : live gs (flight_key g) i) by (exists g, ph; done).
  rewrite (remove_entry_live _ i _ _ _ Hc Hl).
  apply (advance_consistent t gs ws i g ph (Some (g, Removed))); try done.
  - intros g' ph' [= <- <-]. split; [by apply (guard_sender _ Hc) in Hi | done].
  - intros ch. destruct ph; simpl; [intros [-> ->] | intros [-> ->] | done]; simpl; lia.
  - intros k j. rewrite live_update. pose proof (pending_live _ Hc k j) as Hp. simpl in Hp.
    apply (pending_live _ Hc) in Hl. simpl in Hl.
    destruct (decide (k = flight_key g)) as [-> | Hne].
    + rewrite lookup_delete_eq. rewrite Hl in Hp. split; [done |].
      case_decide as E; [by intros (? & ? & [= <- <-] & ? & _) |]. intros [= ->]%Hp. done.
    + rewrite lookup_delete_ne by done. rewrite Hp. case_decide as E; [subst j | done].
      split; [intros (g' & ph' & Hg' & _ & Hk); congruence | by intros (? & ? & [= <- <-] & ? & _)].
Qed.

Lemma tracker_step_consistent w w' : step w w' -> consistent w -> consistent w'.
Proof.
  intros Hst Hc. destruct Hst.
  - unfold try_register in H. destruct (pending t !! key) eqn:E; [done |]. injection H as <- <-.
    pose proof (fetch_consistent key t gs ws Hc E) as Hf. unfold try_register in Hf. by rewrite E in Hf.
  - unfold try_register in H. destruct (pending t !! key) as [i |] eqn:E; [| done]. injection H as <- <-.
    by apply subscribe_consistent.
  - unfold try_resubscribe in H. destruct (pending t !! key) as [i |] eqn:E; [| done]. injection H as <-.
    by apply subscribe_consistent.
  - pose proof (guard_sender _ Hc _ _ _ H) as Hs. rewrite Hs.
    apply (advance_consistent t gs ws i g Fetching (Some (mkGuard (flight_key g) i true, Sent))); try done.
    + by intros g' ph' [= <- <-].
    + intros ch. simpl. rewrite length_app. lia.
    + intros ch [Hs2 Hnil]. simpl. by rewrite Hnil.
    + intros k j. rewrite live_update, (pending_live _ Hc). simpl. case_decide as E; [subst j | done].
      split; [intros (g' & ph' & Hg' & _ & Hk) | intros (g' & ph' & [= <- <-] & _ & Hk)].
      * eexists _, Sent. split; [done |]. split; [done |]. simpl. congruence.
      * by exists g, Fetching.
  - by apply (removed_consistent i g Sent).
  - by apply (removed_consistent i g Fetching).
  - pose proof (guard_sender _ Hc _ _ _ H) as Hs. rewrite Hs.
    apply (advance_consistent t gs ws i g Removed None); try done.
    + intros ch [-> ?]. simpl. done.
    + intros k j. rewrite live_update, (pending_live _ Hc). simpl. case_decide as E; [subst j | done].
      split; [intros (g' & ph' & Hg' & Hr & Hk); congruence | by intros (? & ? & ? & _)].
  - destruct Hc as [Hs Hr Hp Hc (owner & Ho & Hw)]. constructor; try done. exists owner. split; [done |].
    intros k rx Hk. apply Hw. simpl in *. apply elem_of_app in Hk as [? | ?]; apply elem_of_app; [by left |].
    right. apply elem_of_cons. by right.
Qed.

Lemma reachable_consistent w : rtc step start w -> consistent w.
Proof.
  assert (Hs : consistent start).
  { constructor; simpl; try done.
    - intros k i. rewrite lookup_empty. split; [done |]. intros (? & ? & Hg & _). by rewrite lookup_empty in Hg.
    - exists (fun _ => ""). split; [intros i g ph H; by rewrite lookup_empty in H |].
      intros k rx H. by apply elem_of_nil in H. }
  intros Hr. induction Hr as [| w1 w2 w3 H12 _ IH]; [done |]. by eapply IH, tracker_step_consistent.
Qed.

(** C39: one fetch per object at a time.  However requests interleave, at most one
    live request holds a flight key, the tracker has an entry for exactly the keys
    being fetched, and a new request becomes the fetcher if and only if no live
    request holds its key; otherwise it waits on that request's channel. *)
Theorem single_fetcher_per_key w :
  rtc step start w ->
  (forall k i j, live (guards w) k i -> live (guards w) k j -> i = j) /\
  (forall k, is_Some (pending (tracker w) !! k) <-> exists i, live (guards w) k i) /\
  (forall k, match (try_register k (tracker w)).2 with
             | Fetcher g => flight_key g = k /\ forall i, ~ live (guards w) k i
             | Waiter rx => live (guards w) k (rx_chan rx)
             end).
Proof.
  intros Hc%reachable_consistent. pose proof (pending_live _ Hc) as Hp. split_and!.
  - intros k i j Hi%Hp Hj%Hp. congruence.
  - intros k. split; [intros [i Hi]; exists i; by apply Hp | intros [i Hi]; exists i; by apply Hp].
  - intros k. unfold try_register. destruct (pending (tracker w) !! k) as [i |] eqn:E; simpl.
    + by apply Hp.
    + split; [done |]. intros i Hi%Hp. congruence.
Qed.

(** What a waiter sees, by the phase of the request that owns its channel. *)
Lemma recv_phase w k rx :
  consistent w -> (k, rx) ∈ waiters w ->
  match recv (tracker w) rx with
  | Lagged => False
  | Blocked => exists g ph, guards w !! rx_chan rx = Some (g, ph) /\ flight_key g = k
  | _ => True
  end.
Proof.
  intros [_ _ _ Hc (owner & Ho & Hw)] Hk. destruct (Hw k rx Hk) as (Hown & ch & Hch & Hpos).
  unfold recv. rewrite Hch. specialize (Hc (rx_chan rx)). rewrite Hch in Hc.
  assert (Hlen : (length (sent ch) <= 1)%nat)
    by (destruct (guards w !! rx_chan rx) as [[g []] |]; simpl in Hc; destruct Hc as [_ Hc]; [rewrite Hc | lia..]; simpl; lia).
  destruct (List.skipn (rx_pos rx) (sent ch)) as [| r more] eqn:Es.
  - destruct (guards w !! rx_chan rx) as [[g ph] |] eqn:Eg.
    + destruct (Nat.eqb_spec (senders ch) 0); [done |]. exists g, ph. split; [done |].
      rewrite <- Hown. symmetry. by apply (Ho (rx_chan rx) g ph).
    + destruct Hc as [-> _]. done.
  - apply (f_equal length) in Es. rewrite length_skipn in Es. simpl in Es.
    destruct (Nat.leb_spec BROADCAST_CHANNEL_CAPACITY (length more)) as [Hb |]; [| done].
    unfold BROADCAST_CHANNEL_CAPACITY in Hb. lia.
Qed.

(** The channel of a request that is still fetching, and what ending it leaves. *)
Lemma fetching_channel w i g :
  consistent w -> guards w !! i = Some (g, Fetching) ->
  sender g = i /\ completed g = false /\ channels (tracker w) !! i = Some (mkChannel 2 []) /\
  pending (tracker w) !! flight_key g = Some i.
Proof.
  intros Hc Hi. pose proof (channel_phase _ Hc i) as Hph. rewrite Hi in Hph.
  split; [by apply (guard_sender _ Hc) in Hi |]. split; [by apply (guard_running _ Hc) in Hi |].
  split; [| by apply (pending_live _ Hc); exists g, Fetching].
  destruct (channels (tracker w) !! i) as [[n l] |]; [| done]. destruct Hph as [Hn Hl]. simpl in *. congruence.
Qed.

(** No waiter is stranded.  A waiter that is still blocked has a request of its
    own key that has not let go of the channel, it never loses a message to lag,
    and when the fetching request ends the waiter is released: with the result if
    the fetch completed, with a closed channel if it was abandoned. *)
Theorem waiters_never_stranded w k rx :
  rtc step start w -> (k, rx) ∈ waiters w ->
  match recv (tracker w) rx with
  | Lagged => False
  | Blocked => exists g ph, guards w !! rx_chan rx = Some (g, ph) /\ flight_key g = k
  | _ => True
  end /\
  forall g r, guards w !! rx_chan rx = Some (g, Fetching) ->
    flight_key g = k /\ recv (complete r g (tracker w)) rx = Message r /\
    recv (drop_guard g (tracker w)) rx = Closed.
Proof.
  intros Hc%reachable_consistent Hk. split; [by apply recv_phase |]. intros g r Hg.
  destruct (fetching_channel _ _ _ Hc Hg) as (Hs & Hf & Hch & Hp).
  destruct (channel_owner _ Hc) as (owner & Ho & Hw).
  destruct (Hw k rx Hk) as (Hown & ch & Hch' & Hpos). rewrite Hch in Hch'. injection Hch' as <-.
  assert (rx_pos rx = 0%nat) as Hp0 by (simpl in Hpos; lia).
  split; [by rewrite <- Hown, (Ho _ _ _ Hg) |].
  unfold recv, complete, drop_guard, drop_sender, remove_entry, send, on_channel. simpl. rewrite Hf, Hp, Hs. simpl.
  rewrite !list_lookup_alter_eq, Hch, Hp0. done.
Qed.

(** ** Flight keys *)

Inductive flight :=
  | FullObject (cache_key : string)
  | ByteRange (cache_key : string) (start_ end_ : Z)
  | PartNumber (cache_key : string) (part_number : Z).

Definition key_of (f : flight) : string :=
  match f with
  | FullObject k => make_full_key k
  | ByteRange k s e => make_range_key k s e
  | PartNumber k n => make_part_key k n
  end.

Definition colon_free (s : string) : Prop := all_chars (fun a => negb (ascii_eqb a ":")) s = true.

Definition flight_ok (f : flight) : Prop :=
  match f with
  | FullObject k => colon_free k
  | ByteRange k s e => colon_free k /\ is_u64 s /\ is_u64 e
  | PartNumber k n => colon_free k /\ is_u64 n
  end.

#[local] Arguments u64_to_string : simpl never.

Lemma flight_range_inj s e s' e' :
  is_u64 s -> is_u64 e -> is_u64 s' -> is_u64 e' ->
  (u64_to_string s +:+ "-" +:+ u64_to_string e = u64_to_string s' +:+ "-" +:+ u64_to_string e')%string ->
  s = s' /\ e = e'.
Proof.
  intros Hs He Hs' He' E. apply app_sep_inj in E as [E1 E2].
  - split; by apply u64_to_string_inj.
  - apply plain_no_sep; [done |]. apply u64_to_string_plain. unfold is_u64 in *. lia.
  - apply plain_no_sep; [done |]. apply u64_to_string_plain. unfold is_u64 in *. lia.
Qed.

Lemma number_not_part s t n :
  is_u64 n -> (u64_to_string n +:+ s)%string <> ("part" +:+ t)%string.
Proof.
  intros Hn. pose proof (parse_u64_chars _ _ (parse_u64_to_string n Hn)) as Hc.
  pose proof (u64_to_string_nonempty n ltac:(unfold is_u64 in *; lia)) as Hne.
  destruct (u64_to_string n) as [| a u]; [done |]. intros [= -> _]. done.
Qed.

(** Requests for different data never share a flight.  For cache keys without a
    colon, two requests have the same flight key only if they ask for the same
    object and the same range or part of it. *)
Theorem flight_keys_injective f1 f2 :
  flight_ok f1 -> flight_ok f2 -> key_of f1 = key_of f2 -> f1 = f2.
Proof.
  assert (Hfree : forall k t, colon_free k -> k <> (t +:+ ":")%string /\ forall u, k <> (t +:+ String ":" u)%string).
  { intros k t Hk. split; [intros -> | intros u ->]; unfold colon_free in Hk; rewrite all_chars_app in Hk;
      apply andb_true_iff in Hk as [_ Hk]; done. }
  destruct f1 as [k1 | k1 s1 e1 | k1 n1], f2 as [k2 | k2 s2 e2 | k2 n2]; cbn [flight_ok key_of];
    unfold make_full_key, make_range_key, make_part_key; intros H1 H2 E.
  - congruence.
  - by destruct (proj2 (Hfree k1 k2 H1) _ E).
  - by destruct (proj2 (Hfree k1 k2 H1) _ E).
  - by destruct (proj2 (Hfree k2 k1 H2) _ (eq_sym E)).
  - destruct H1 as (? & ? & ?), H2 as (? & ? & ?). apply app_sep_inj in E as [-> E]; [| done | done].
    apply flight_range_inj in E as [-> ->]; done.
  - destruct H1 as (? & ? & ?), H2 as (? & ?). apply app_sep_inj in E as [-> E]; [| done | done].
    by apply number_not_part in E.
  - by destruct (proj2 (Hfree k2 k1 H2) _ (eq_sym E)).
  - destruct H1 as (? & ?), H2 as (? & ? & ?). apply app_sep_inj in E as [-> E]; [| done | done].
    symmetry in E. by apply number_not_part in E.
  - destruct H1 as (? & ?), H2 as (? & ?). apply app_sep_inj in E as [-> E]; [| done | done].
    injection E as E. f_equal. by apply u64_to_string_inj.
Qed.

(** An object whose name ends like a range shares a flight with another object's range. *)
Lemma flight_key_collision : key_of (FullObject "b/k:0-5") = key_of (ByteRange "b/k" 0 5).
Proof. vm_compute. reflexivity. Qed.

(** ** Concrete runs *)

Definition sample_world : World :=
  let '(t, _) := try_register "k" new in
  mkWorld t {[0%nat := (mkGuard "k" 0 false, Fetching)]} [("k", mkReceiver 0 0)].

Lemma sample_reachable : rtc step start sample_world.
Proof.
  eapply rtc_l; [by apply (step_fetch "k") |].
  eapply rtc_l; [by apply (step_wait "k") |]. apply rtc_refl.
Qed.

Lemma single_fetcher_per_key_witness : live (guards sample_world) "k" 0.
Proof.
  destruct (single_fetcher_per_key sample_world sample_reachable) as (_ & _ & Hr).
  exact (Hr "k").
Defined.

Lemma waiters_never_stranded_witness :
  recv (complete_success (mkGuard "k" 0 false) (tracker sample_world)) (mkReceiver 0 0) = Message (inl tt).
Proof.
  destruct (waiters_never_stranded sample_world "k" (mkReceiver 0 0) sample_reachable) as [_ Hw].
  - apply elem_of_cons. by left.
  - exact (proj1 (proj2 (Hw (mkGuard "k" 0 false) (inl tt) eq_refl))).
Defined.

Lemma flight_keys_injective_witness :
  key_of (ByteRange "b/k" 0 5) = key_of (ByteRange "b/k" 0 5) /\ ByteRange "b/k" 0 5 = ByteRange "b/k" 0 5.
Proof.
  split; [reflexivity |].
  apply (flight_keys_injective (ByteRange "b/k" 0 5) (ByteRange "b/k" 0 5)).
  - split; [reflexivity |]. unfold is_u64. lia.
  - split; [reflexivity |]. unfold is_u64. lia.
  - reflexivity.
Defined.

End Tracker.
