(* ===== verification/DiskPaths.v ===== *)
(** * Cache file paths ([path_safety.rs], the path functions of [disk_cache.rs])

    Cache keys, the validation of their bucket segment, the sharded directory
    layout and the file names of object versions.  The BLAKE3 hash and the
    percent encoder are third-party code: [PathCodec] names them and
    [PathCodecSpec] states their documented behaviour. *)

From S2P Require Import Prelude CacheTypes RustStr.

#[local] Open Scope Z_scope.
#[local] Arguments String.append : simpl nomatch.

(** ** Path safety *)

Definition is_control_byte (a : ascii) : bool :=
  let n := Ascii.nat_of_ascii a in (n <? 32)%nat || (n =? 127)%nat.

Definition is_safe_path_component (component : string) : bool :=
  if is_empty_str component then false else
  if contains ".." component then false else
  all_chars (fun a => negb (ascii_eqb a "/" || ascii_eqb a "\") && negb (is_control_byte a)) component.

Definition is_safe_relative_file_path (relative_path : string) : bool :=
  if is_empty_str relative_path then false else
  if starts_with "/" relative_path || starts_with "\" relative_path then false else
  if contains_char "\" relative_path then false else
  if negb (all_chars (fun a => negb (is_control_byte a)) relative_path) then false else
  forallb (fun c => negb (bool_decide (c = ".."))) (split_char "/" relative_path).

(** ** Cache keys *)

Definition validate_bucket_segment (bucket : string) : Result unit :=
  if is_empty_str bucket then Err (CacheError "Invalid cache key: empty bucket segment") else
  if bool_decide (bucket = ".") || bool_decide (bucket = "..")
  then Err (CacheError "Invalid cache key: bucket segment is not allowed") else
  if all_chars (fun a => negb (ascii_eqb a "/" || ascii_eqb a "\" || is_control_byte a)) bucket
  then Ok tt
  else Err (CacheError "Invalid cache key: bucket segment contains an invalid byte").

Definition normalize_cache_key (cache_key : string) : string :=
  default cache_key (strip_prefix "/" cache_key).

Definition parse_cache_key (cache_key : string) : Result (string * string) :=
  let key := default cache_key (strip_prefix "/" cache_key) in
  match split_once "/" key with
  | None => Err (CacheError "Invalid cache key format")
  | Some (bucket, object_key) =>
      _ ← validate_bucket_segment bucket;
      if is_empty_str object_key
      then Err (CacheError "Object key must be non-empty")
      else Ok (bucket, object_key)
  end.

(** ** File names *)

Class PathCodec := {
  blake3_hex : string -> string;
  percent_encode : (ascii -> bool) -> string -> string;
}.

(** The set [FRAGMENT] of bytes to encode: control bytes and the characters unsafe
    in a file name. *)
Definition FRAGMENT (a : ascii) : bool :=
  is_control_byte a
  || existsb (ascii_eqb a) [" "; "/"; "\"; ":"; "*"; "?"; "034"; "<"; ">"; "|"; "%"]%char.

(** What the encoder documents: every byte of the set, and every byte outside
    ASCII, is written as [%] and two upper-case hexadecimal digits. *)
Definition upper_hex (d : nat) : ascii :=
  Ascii.ascii_of_nat (if (d <? 10)%nat then 48 + d else 55 + d).

Fixpoint percent_bytes (set : ascii -> bool) (s : string) : string :=
  match s with
  | EmptyString => EmptyString
  | String a s' =>
      let n := Ascii.nat_of_ascii a in
      if set a || (128 <=? n)%nat
      then String "%" (String (upper_hex (n / 16)) (String (upper_hex (n mod 16)) (percent_bytes set s')))
      else String a (percent_bytes set s')
  end.

Definition is_lower_hex (a : ascii) : bool :=
  let n := Ascii.nat_of_ascii a in
  ((48 <=? n)%nat && (n <=? 57)%nat) || ((97 <=? n)%nat && (n <=? 102)%nat).

Class PathCodecSpec `{PathCodec} : Prop := {
  blake3_hex_length s : String.length (blake3_hex s) = 64%nat;
  blake3_hex_digits s : all_chars is_lower_hex (blake3_hex s) = true;
  percent_encode_documented set s : percent_encode set s = percent_bytes set s;
}.

(** [Path::join] with a string that is one or more components. *)
Definition path_join (base seg : string) : string :=
  if starts_with "/" seg then seg
  else if is_empty_str base || ends_with "/" base then base +:+ seg
  else base +:+ "/" +:+ seg.

(** [Path::extension] of a path. *)
Definition extension_is (ext path : string) : bool :=
  let name := match rsplit_once "/" path with Some (_, name) => name | None => path end in
  match rsplit_once "." name with Some (stem, e) => negb (is_empty_str stem) && bool_decide (e = ext) | None => false end.

Section Paths.
Context `{PathCodec}.

Definition sanitize_object_key_for_filename (object_key suffix : string) : string :=
  let sanitized := percent_encode FRAGMENT object_key in
  if (200 <? String.length sanitized)%nat
  then blake3_hex object_key +:+ suffix
  else sanitized +:+ suffix.

Definition get_sharded_path (base_dir cache_key suffix : string) : Result string :=
  '(bucket, object_key) ← parse_cache_key cache_key;
  let hash_hex := blake3_hex object_key in
  let level1 := string_take 2 hash_hex in
  let level2 := string_take 3 (string_drop 2 hash_hex) in
  let filename := sanitize_object_key_for_filename object_key suffix in
  Ok (path_join (path_join (path_join (path_join base_dir bucket) level1) level2) filename).

(** ** Metadata files, relative to the cache directory *)

Definition sanitize_cache_key_new (cache_key : string) : string :=
  let sanitized := percent_encode FRAGMENT cache_key in
  if (200 <? String.length sanitized)%nat
  then "long_key_" +:+ blake3_hex cache_key
  else sanitized.

Definition get_new_metadata_file_path (cache_key : string) : string :=
  match get_sharded_path "metadata" cache_key ".meta" with
  | Ok path => path
  | _ => path_join "metadata" (sanitize_cache_key_new cache_key +:+ ".meta")
  end.

Definition determine_cache_type (cache_key : string) : string :=
  if contains ":part:" cache_key then "parts"
  else if contains ":range:" cache_key then "ranges"
  else "metadata".

(** The flat layout of earlier releases. *)
Definition get_metadata_file_path (cache_key : string) : string :=
  path_join (determine_cache_type cache_key) (sanitize_cache_key_new cache_key +:+ ".meta").

(** ** Object versions *)

Definition object_version_id (etag : string) : string := blake3_hex etag.

Definition range_suffix (start end_ : Z) : string :=
  "_" +:+ u64_to_string start +:+ "-" +:+ u64_to_string end_.

Definition range_file_belongs_to (range : NewRangeSpec) (version_id : string) : bool :=
  match (stem ← strip_suffix ".bin" (nr_file_path range);
         stem ← strip_suffix version_id stem;
         strip_suffix "." stem) with
  | Some stem => ends_with (range_suffix (nr_start range) (nr_end range)) stem
  | None => false
  end.

(** [Path::with_extension] on a file name: what precedes the last dot, unless the
    name starts with its only dot. *)
Definition with_extension (name ext : string) : string :=
  match rsplit_once "." name with
  | Some (stem, _) => if is_empty_str stem then name +:+ "." +:+ ext else stem +:+ "." +:+ ext
  | None => name +:+ "." +:+ ext
  end.

(** The file name [versioned_range_file_path] gives a path; the directory stays. *)
Definition versioned_range_file_name (name cache_key : string) (start end_ : Z) (etag : string) : string :=
  let version := object_version_id etag in
  let name := with_extension name (version +:+ ".bin") in
  if (255 <? String.length name)%nat
  then blake3_hex cache_key +:+ range_suffix start end_ +:+ "." +:+ version +:+ ".bin"
  else name.

(** The file name of [get_new_range_file_path] for a valid cache key. *)
Definition new_range_file_name (object_key : string) (start end_ : Z) : string :=
  sanitize_object_key_for_filename object_key (range_suffix start end_ +:+ ".bin").

(** The paths of range files, relative to the directory [ranges]. *)
Definition get_new_range_file_path (cache_key : string) (start end_ : Z) : string :=
  let suffix := range_suffix start end_ +:+ ".bin" in
  match get_sharded_path "" cache_key suffix with
  | Ok path => path
  | _ => sanitize_cache_key_new cache_key +:+ suffix
  end.

(** The directory of a path, with its separator, and the file name. *)
Definition split_file_name (path : string) : string * string :=
  match rsplit_once "/" path with
  | Some (dir, name) => (dir +:+ "/", name)
  | None => ("", path)
  end.

Definition versioned_range_file_path (path cache_key : string) (start end_ : Z) (etag : string) : string :=
  let '(dir, name) := split_file_name path in
  dir +:+ versioned_range_file_name name cache_key start end_ etag.

Definition get_versioned_range_file_path (cache_key : string) (start end_ : Z) (etag : string) : string :=
  versioned_range_file_path (get_new_range_file_path cache_key start end_) cache_key start end_ etag.

(** ** Facts *)

#[local] Arguments u64_to_string : simpl never.
#[local] Arguments range_suffix : simpl never.

Lemma range_suffix_numbers start end_ :
  is_u64 start -> is_u64 end_ ->
  range_suffix start end_ = String "_" (u64_to_string start +:+ String "-" (u64_to_string end_)) /\
  all_chars (fun a => negb (ascii_eqb a "_")) (u64_to_string start +:+ String "-" (u64_to_string end_)) = true.
Proof.
  intros Hs He. split; [done |].
  change (String "-" (u64_to_string end_)) with ("-" +:+ u64_to_string end_)%string.
  rewrite !all_chars_app, !andb_true_iff. unfold is_u64 in *. split_and!; [| done |];
    (apply plain_no_sep; [done |]; apply u64_to_string_plain; lia).
Qed.

Lemma range_suffix_inj x y s e s' e' :
  is_u64 s -> is_u64 e -> is_u64 s' -> is_u64 e' ->
  (x +:+ range_suffix s e = y +:+ range_suffix s' e')%string -> s = s' /\ e = e'.
Proof.
  intros Hs He Hs' He' E.
  destruct (range_suffix_numbers s e) as [E1 F1]; [done | done |].
  destruct (range_suffix_numbers s' e') as [E2 F2]; [done | done |].
  rewrite E1, E2 in E. apply app_sep_inj_r in E as [_ E]; [| done | done].
  apply app_sep_inj in E as [Ea Eb]; [split; by apply u64_to_string_inj | |];
    (apply plain_no_sep; [done |]; apply u64_to_string_plain; unfold is_u64 in *; lia).
Qed.

Lemma with_extension_bin x ext :
  is_empty_str x = false -> with_extension (x +:+ ".bin") ext = (x +:+ "." +:+ ext)%string.
Proof.
  intros Hx. unfold with_extension, rsplit_once. rewrite string_rev_distr.
  change (string_rev ".bin" +:+ string_rev x)%string with ("nib" +:+ String "." (string_rev x))%string.
  rewrite split_once_app by done. cbn [mbind option_bind]. by rewrite string_rev_involutive, Hx.
Qed.

Lemma versioned_shape x cache_key start end_ etag :
  exists y, versioned_range_file_name (x +:+ range_suffix start end_ +:+ ".bin") cache_key start end_ etag
    = (y +:+ range_suffix start end_ +:+ "." +:+ object_version_id etag +:+ ".bin")%string.
Proof.
  unfold versioned_range_file_name. destruct (_ <? _)%nat; [by eexists |].
  exists x. rewrite string_app_assoc, with_extension_bin, <- !string_app_assoc; [done |].
  unfold range_suffix. by destruct x.
Qed.

(** Whatever the length of the key, a versioned name ends in the range and the version. *)
Lemma versioned_name_shape object_key cache_key start end_ etag :
  exists y, versioned_range_file_name (new_range_file_name object_key start end_) cache_key start end_ etag
    = (y +:+ range_suffix start end_ +:+ "." +:+ object_version_id etag +:+ ".bin")%string.
Proof.
  assert (exists x, new_range_file_name object_key start end_ = (x +:+ range_suffix start end_ +:+ ".bin")%string)
    as [x ->] by (unfold new_range_file_name, sanitize_object_key_for_filename; destruct (_ <? _)%nat; by eexists).
  apply versioned_shape.
Qed.

End Paths.

(** A name that ends in a range and a version belongs to them only. *)
Lemma versioned_path_belongs `{PathCodecSpec} x start end_ etag etag' r :
  is_u64 start -> is_u64 end_ -> is_u64 (nr_start r) -> is_u64 (nr_end r) ->
  nr_file_path r = (x +:+ range_suffix start end_ +:+ "." +:+ object_version_id etag +:+ ".bin")%string ->
  range_file_belongs_to r (object_version_id etag')
    = bool_decide (nr_start r = start /\ nr_end r = end_ /\ blake3_hex etag' = blake3_hex etag).
Proof.
  intros Hs He Hs' He' Hp. unfold range_file_belongs_to. rewrite Hp. unfold object_version_id.
  rewrite (proj2 (strip_suffix_Some ".bin" _ (x +:+ range_suffix start end_ +:+ "." +:+ blake3_hex etag)%string))
    by (by rewrite !string_app_assoc).
  cbn [mbind option_bind].
  destruct (decide (blake3_hex etag' = blake3_hex etag)) as [E | Hne].
  - rewrite E, (proj2 (strip_suffix_Some _ _ (x +:+ range_suffix start end_ +:+ ".")%string))
      by (by rewrite !string_app_assoc). cbn [mbind option_bind].
    rewrite (proj2 (strip_suffix_Some _ _ (x +:+ range_suffix start end_)%string)) by (by rewrite !string_app_assoc).
    apply eq_bool_prop_intro. rewrite !Is_true_true, ends_with_spec, bool_decide_eq_true. split.
    + intros [t Et]. apply range_suffix_inj in Et as [-> ->]; done.
    + intros (-> & -> & _). by exists x.
  - rewrite bool_decide_false by tauto. destruct (strip_suffix (blake3_hex etag') _) as [z |] eqn:E; [| done].
    apply strip_suffix_Some in E. rewrite !string_app_assoc in E.
    apply string_app_inj_len in E as [_ E]; [by destruct Hne |]. by rewrite !blake3_hex_length.
Qed.

(** A range file can only be read as the range and the object version it was
    written for.  The name given to bytes [start..=end] of version [etag], in any
    directory, is accepted by [range_file_belongs_to] for a range and a version if
    and only if they are that range and a version with the same hash. *)
Theorem range_file_identity `{PathCodecSpec} dir object_key cache_key start end_ etag etag' r :
  is_u64 start -> is_u64 end_ -> is_u64 (nr_start r) -> is_u64 (nr_end r) ->
  nr_file_path r = (dir +:+ versioned_range_file_name (new_range_file_name object_key start end_)
                              cache_key start end_ etag)%string ->
  range_file_belongs_to r (object_version_id etag')
    = bool_decide (nr_start r = start /\ nr_end r = end_ /\ blake3_hex etag' = blake3_hex etag).
Proof.
  intros Hs He Hs' He' Hp. destruct (versioned_name_shape object_key cache_key start end_ etag) as [y E].
  rewrite E, string_app_assoc in Hp. by apply (versioned_path_belongs (dir +:+ y)).
Qed.

(** ** Containment *)

(** A character that may stand in a file name: no separator, no control byte. *)
Definition is_name_char (a : ascii) : bool :=
  negb (ascii_eqb a "/" || ascii_eqb a "\" || is_control_byte a).

Definition suffix_ok (suffix : string) : Prop :=
  all_chars is_name_char suffix = true /\ (3 <= String.length suffix)%nat.

Lemma encoded_chars a :
  if FRAGMENT a || (128 <=? Ascii.nat_of_ascii a)%nat
  then is_name_char (upper_hex (Ascii.nat_of_ascii a / 16)) = true /\
       is_name_char (upper_hex (Ascii.nat_of_ascii a mod 16)) = true
  else is_name_char a = true /\ a <> "%"%char.
Proof. destruct a as [[] [] [] [] [] [] [] []]; vm_compute; by split. Qed.

Lemma lower_hex_name a : is_lower_hex a = true -> is_name_char a = true /\ a <> "."%char.
Proof. destruct a as [[] [] [] [] [] [] [] []]; vm_compute; by split. Qed.

Lemma lower_hex_plain a : is_lower_hex a = true -> FRAGMENT a || (128 <=? Ascii.nat_of_ascii a)%nat = false.
Proof. destruct a as [[] [] [] [] [] [] [] []]; vm_compute; congruence. Qed.

Lemma name_char_no_slash s :
  all_chars is_name_char s = true -> all_chars (fun a => negb (ascii_eqb a "/")) s = true.
Proof. apply all_chars_impl. intros a. unfold is_name_char. rewrite !negb_orb, !andb_true_iff. tauto. Qed.

Lemma percent_bytes_name s : all_chars is_name_char (percent_bytes FRAGMENT s) = true.
Proof.
  induction s as [| a s IH]; [done |]. cbn [percent_bytes]. pose proof (encoded_chars a) as Ha.
  destruct (FRAGMENT a || _); cbn [all_chars]; rewrite IH.
  - destruct Ha as [-> ->]. done.
  - by destruct Ha as [-> _].
Qed.

Lemma all_chars_take P n s : all_chars P s = true -> all_chars P (string_take n s) = true.
Proof.
  revert n. induction s as [| a s IH]; intros [| n]; cbn; try done.
  rewrite !andb_true_iff. intros [-> ?]. split; [done |]. by apply IH.
Qed.

Lemma all_chars_drop P n s : all_chars P s = true -> all_chars P (string_drop n s) = true.
Proof.
  revert n. induction s as [| a s IH]; intros [| n]; cbn; try done.
  rewrite andb_true_iff. intros [_ ?]. by apply IH.
Qed.

Lemma percent_digit_inj a b :
  upper_hex (Ascii.nat_of_ascii a / 16) = upper_hex (Ascii.nat_of_ascii b / 16) ->
  upper_hex (Ascii.nat_of_ascii a mod 16) = upper_hex (Ascii.nat_of_ascii b mod 16) -> a = b.
Proof.
  assert (Hinj : forall m n, (m < 16)%nat -> (n < 16)%nat -> upper_hex m = upper_hex n -> m = n).
  { intros m n Hm Hn E. apply (f_equal Ascii.nat_of_ascii) in E. unfold upper_hex in E.
    destruct (Nat.ltb_spec m 10), (Nat.ltb_spec n 10); rewrite !Ascii.nat_ascii_embedding in E; lia. }
  pose proof (Ascii.nat_ascii_bounded a). pose proof (Ascii.nat_ascii_bounded b).
  intros Eh El. apply Hinj in Eh; [| apply Nat.Div0.div_lt_upper_bound; lia..].
  apply Hinj in El; [| apply Nat.mod_upper_bound; lia..].
  rewrite <- (Ascii.ascii_nat_embedding a), <- (Ascii.ascii_nat_embedding b). f_equal.
  rewrite (Nat.div_mod_eq (Ascii.nat_of_ascii a) 16), (Nat.div_mod_eq (Ascii.nat_of_ascii b) 16). lia.
Qed.

Lemma percent_bytes_inj s t : percent_bytes FRAGMENT s = percent_bytes FRAGMENT t -> s = t.
Proof.
  revert t. induction s as [| a s IH]; intros [| b t]; cbn [percent_bytes]; try done.
  - by destruct (FRAGMENT b || _).
  - by destruct (FRAGMENT a || _).
  - pose proof (encoded_chars a) as Ha. pose proof (encoded_chars b) as Hb.
    destruct (FRAGMENT a || _), (FRAGMENT b || _).
    + intros [= E1 E2 E3]. f_equal; [by apply percent_digit_inj | by apply IH].
    + intros [= E _]. by destruct Hb.
    + intros [= E _]. by destruct Ha.
    + intros [= -> E]. f_equal. by apply IH.
Qed.

Section Contained.
Context `{PathCodecSpec}.

Lemma hash_name s : all_chars is_name_char (blake3_hex s) = true.
Proof. eapply all_chars_impl, blake3_hex_digits. intros a Ha. by apply lower_hex_name. Qed.

Lemma sanitized_name object_key suffix :
  all_chars is_name_char suffix = true ->
  all_chars is_name_char (sanitize_object_key_for_filename object_key suffix) = true.
Proof.
  intros Hs. unfold sanitize_object_key_for_filename. rewrite percent_encode_documented.
  destruct (_ <? _)%nat; rewrite all_chars_app, Hs, andb_true_r; [apply hash_name | apply percent_bytes_name].
Qed.

Lemma validated_bucket bucket :
  validate_bucket_segment bucket = Ok tt ->
  is_empty_str bucket = false /\ bucket <> ".." /\ all_chars is_name_char bucket = true.
Proof.
  unfold validate_bucket_segment, is_name_char. destruct (is_empty_str bucket); [done |].
  destruct (bool_decide (bucket = ".")); [done |]. cbn [orb].
  destruct (bool_decide_reflect (bucket = "..")); [done |]. by destruct (all_chars _ bucket).
Qed.

Lemma parse_cache_key_Ok key bucket object_key :
  parse_cache_key key = Ok (bucket, object_key) -> validate_bucket_segment bucket = Ok tt.
Proof.
  unfold parse_cache_key. destruct (split_once "/" _) as [[b k] |]; [| done].
  destruct (validate_bucket_segment b) as [[] | |] eqn:E; cbn; [| done | done].
  destruct (is_empty_str k); [done |]. by intros [= <- <-].
Qed.

Lemma path_join_seg base seg :
  is_empty_str base = false -> ends_with "/" base = false ->
  is_empty_str seg = false -> all_chars is_name_char seg = true ->
  path_join base seg = (base +:+ "/" +:+ seg)%string /\
  is_empty_str (base +:+ "/" +:+ seg) = false /\ ends_with "/" (base +:+ "/" +:+ seg) = false.
Proof.
  intros Hb He Hs Hn. unfold path_join. rewrite Hb, He.
  assert (starts_with "/" seg = false) as ->.
  { destruct (starts_with "/" seg) eqn:E; [| done]. apply starts_with_spec in E as [t ->].
    rewrite all_chars_app in Hn. done. }
  split; [done |]. split; [by destruct base |].
  apply not_true_iff_false. rewrite ends_with_spec. intros [t E].
  apply (app_sep_inj_r "/" base seg t "") in E as [_ ->]; [done | by apply name_char_no_slash | done].
Qed.

(** The directories of an object and a file in them. *)
Definition sharded (bucket object_key name : string) : string :=
  let h := blake3_hex object_key in
  bucket +:+ String "/" (string_take 2 h +:+ String "/" (string_take 3 (string_drop 2 h) +:+ String "/" name)).

Definition relative_path (bucket object_key suffix : string) : string :=
  sharded bucket object_key (sanitize_object_key_for_filename object_key suffix).

Lemma hash_levels object_key :
  let h := blake3_hex object_key in
  is_empty_str (string_take 2 h) = false /\ is_empty_str (string_take 3 (string_drop 2 h)) = false /\
  all_chars is_lower_hex (string_take 2 h) = true /\
  all_chars is_lower_hex (string_take 3 (string_drop 2 h)) = true.
Proof.
  intros h. pose proof (blake3_hex_length object_key) as Hl. pose proof (blake3_hex_digits object_key) as Hd.
  fold h in Hl, Hd. split_and!; try (by apply all_chars_take; try apply all_chars_drop).
  - by destruct h.
  - by destruct h as [| ? [| ? [| ? ?]]].
Qed.

Lemma get_sharded_path_Ok base key suffix p :
  is_empty_str base = false -> ends_with "/" base = false -> suffix_ok suffix ->
  get_sharded_path base key suffix = Ok p ->
  exists bucket object_key,
    parse_cache_key key = Ok (bucket, object_key) /\
    p = (base +:+ "/" +:+ relative_path bucket object_key suffix)%string.
Proof.
  intros Hb He [Hs Hl]. unfold get_sharded_path.
  destruct (parse_cache_key key) as [[bucket object_key] | |] eqn:Ek; [| done | done].
  cbn [mbind outcome_bind]. intros E. exists bucket, object_key. split; [done |].
  enough (Ok p = Ok (E := ProxyError) (base +:+ "/" +:+ relative_path bucket object_key suffix)) by congruence.
  rewrite <- E. clear E. f_equal.
  destruct (validated_bucket bucket) as (Hbe & _ & Hbn); [by eapply parse_cache_key_Ok |].
  destruct (hash_levels object_key) as (H1 & H2 & H3 & H4).
  assert (Hx : forall s, all_chars is_lower_hex s = true -> all_chars is_name_char s = true)
    by (intros s; apply all_chars_impl; intros a Ha; by apply lower_hex_name).
  assert (Hf : is_empty_str (sanitize_object_key_for_filename object_key suffix) = false).
  { unfold sanitize_object_key_for_filename. destruct (_ <? _)%nat, suffix; try (cbn in Hl; lia);
      [by destruct (blake3_hex object_key) | by destruct (percent_encode FRAGMENT object_key)]. }
  destruct (path_join_seg base bucket) as (-> & A1 & B1); [done.. |].
  destruct (path_join_seg _ _ A1 B1 H1 (Hx _ H3)) as (-> & A2 & B2).
  destruct (path_join_seg _ _ A2 B2 H2 (Hx _ H4)) as (-> & A3 & B3).
  destruct (path_join_seg _ _ A3 B3 Hf (sanitized_name object_key suffix Hs)) as (-> & _ & _).
  unfold relative_path, sharded. rewrite <- !string_app_assoc. done.
Qed.

Lemma sharded_split bucket object_key name :
  validate_bucket_segment bucket = Ok tt -> all_chars is_name_char name = true ->
  split_char "/" (sharded bucket object_key name) =
    [bucket; string_take 2 (blake3_hex object_key); string_take 3 (string_drop 2 (blake3_hex object_key)); name].
Proof.
  intros (_ & _ & Hb)%validated_bucket Hs. destruct (hash_levels object_key) as (_ & _ & H3 & H4).
  assert (Hx : forall s, all_chars is_lower_hex s = true -> all_chars (fun a => negb (ascii_eqb a "/")) s = true)
    by (intros s Hh; apply name_char_no_slash; revert Hh; apply all_chars_impl; intros a Ha; by apply lower_hex_name).
  unfold sharded. rewrite !split_char_app, split_char_free; auto using name_char_no_slash.
Qed.

Lemma relative_path_split bucket object_key suffix :
  validate_bucket_segment bucket = Ok tt -> suffix_ok suffix ->
  split_char "/" (relative_path bucket object_key suffix) =
    [bucket; string_take 2 (blake3_hex object_key); string_take 3 (string_drop 2 (blake3_hex object_key));
     sanitize_object_key_for_filename object_key suffix].
Proof. intros Hv [Hs _]. apply sharded_split; [done | by apply sanitized_name]. Qed.

Lemma sharded_safe bucket object_key name :
  validate_bucket_segment bucket = Ok tt -> all_chars is_name_char name = true -> (3 <= String.length name)%nat ->
  is_safe_relative_file_path (sharded bucket object_key name) = true.
Proof.
  intros Hv Hsn Hsl. pose proof (sharded_split bucket object_key name Hv Hsn) as Hsplit.
  destruct (validated_bucket bucket Hv) as (Hbe & Hdd & Hbn).
  destruct (hash_levels object_key) as (_ & _ & H3 & H4).
  assert (Hsep : forall a, negb (is_control_byte a) && negb (ascii_eqb a "\") = true ->
    negb (is_control_byte a) = true /\ negb (ascii_eqb a "\") = true) by (intros; by apply andb_true_iff).
  assert (Hall : all_chars (fun a => negb (is_control_byte a) && negb (ascii_eqb a "\"))
            (sharded bucket object_key name) = true).
  { assert (Hn : forall s, all_chars is_name_char s = true ->
      all_chars (fun a => negb (is_control_byte a) && negb (ascii_eqb a "\")) s = true)
      by (intros s; apply all_chars_impl; intros a; unfold is_name_char; rewrite !negb_orb, !andb_true_iff; tauto).
    assert (Hx : forall s, all_chars is_lower_hex s = true -> all_chars is_name_char s = true)
      by (intros s; apply all_chars_impl; intros a Ha; by apply lower_hex_name).
    unfold sharded.
    assert (Hc : forall x y, all_chars (fun a => negb (is_control_byte a) && negb (ascii_eqb a "\")) x = true ->
      all_chars (fun a => negb (is_control_byte a) && negb (ascii_eqb a "\")) y = true ->
      all_chars (fun a => negb (is_control_byte a) && negb (ascii_eqb a "\")) (x +:+ String "/" y) = true)
      by (intros x y Ex Ey; rewrite all_chars_app, Ex; cbn; exact Ey).
    auto 10. }
  unfold is_safe_relative_file_path. rewrite Hsplit.
  assert (is_empty_str (sharded bucket object_key name) = false) as -> by (by destruct bucket).
  assert (starts_with "/" (sharded bucket object_key name) = false) as ->.
  { destruct bucket as [| a b]; [done |]. apply not_true_iff_false. rewrite starts_with_spec. intros [t E].
    cbn in E. injection E as -> _. done. }
  assert (starts_with "\" (sharded bucket object_key name) = false) as ->.
  { destruct bucket as [| a b]; [done |]. apply not_true_iff_false. rewrite starts_with_spec. intros [t E].
    cbn in E. injection E as -> _. done. }
  unfold contains_char.
  rewrite (all_chars_impl _ (fun a => negb (ascii_eqb a "\")) _ (fun a Ha => proj2 (Hsep a Ha)) Hall).
  rewrite (all_chars_impl _ (fun a => negb (is_control_byte a)) _ (fun a Ha => proj1 (Hsep a Ha)) Hall).
  cbn [negb orb forallb]. rewrite !andb_true_r, !andb_true_iff, !negb_true_iff, !bool_decide_eq_false.
  split; [done |]. split; [intros E; by rewrite E in H3 |]. split; [intros E; by rewrite E in H4 |].
  intros ->. cbn in Hsl. lia.
Qed.

Lemma relative_path_safe bucket object_key suffix :
  validate_bucket_segment bucket = Ok tt -> suffix_ok suffix ->
  is_safe_relative_file_path (relative_path bucket object_key suffix) = true.
Proof.
  intros Hv [Hsn Hsl]. apply sharded_safe; [done | by apply sanitized_name |].
  unfold sanitize_object_key_for_filename. destruct (_ <? _)%nat; rewrite string_length_app; lia.
Qed.

Lemma sanitized_key_name cache_key :
  is_empty_str (sanitize_cache_key_new cache_key +:+ ".meta") = false /\
  all_chars is_name_char (sanitize_cache_key_new cache_key +:+ ".meta") = true.
Proof.
  unfold sanitize_cache_key_new. rewrite percent_encode_documented. destruct (_ <? _)%nat.
  - split; [done |]. by rewrite !all_chars_app, hash_name.
  - split; [by destruct (percent_bytes FRAGMENT cache_key) |]. by rewrite all_chars_app, percent_bytes_name.
Qed.

(** The sharded and the flat layout never agree on a file. *)
Lemma metadata_paths_differ cache_key cache_key' bucket object_key :
  parse_cache_key cache_key = Ok (bucket, object_key) ->
  get_new_metadata_file_path cache_key <> get_metadata_file_path cache_key'.
Proof.
  intros Hk E. unfold get_new_metadata_file_path, get_metadata_file_path in E.
  assert (suffix_ok ".meta") as Hs by (split; [done | cbn; lia]).
  destruct (get_sharded_path "metadata" cache_key ".meta") as [p | |] eqn:Ep;
    [| unfold get_sharded_path in Ep; by rewrite Hk in Ep..].
  apply get_sharded_path_Ok in Ep as (b & k & Hbk & ->); [| done..].
  destruct (sanitized_key_name cache_key') as [He Hn].
  assert (path_join (determine_cache_type cache_key') (sanitize_cache_key_new cache_key' +:+ ".meta")
    = (determine_cache_type cache_key' +:+ "/" +:+ (sanitize_cache_key_new cache_key' +:+ ".meta"))%string) as Ej.
  { apply path_join_seg; [| | done | done]; unfold determine_cache_type;
      by repeat destruct (contains _ _). }
  rewrite Ej in E. apply (f_equal (fun x => length (split_char "/" x))) in E. cbn beta in E.
  assert (Hsl : forall x y, (x +:+ "/" +:+ y)%string = (x +:+ String "/" y)%string) by done.
  rewrite !Hsl in E.
  assert (Hd : all_chars (fun a => negb (ascii_eqb a "/")) (determine_cache_type cache_key') = true)
    by (unfold determine_cache_type; by repeat destruct (contains _ _)).
  rewrite !split_char_app, relative_path_split, split_char_free in E;
    auto using name_char_no_slash; [done |]. by eapply parse_cache_key_Ok.
Qed.

End Contained.

Lemma relative_path_inj `{PathCodecSpec} b1 k1 b2 k2 suffix :
  validate_bucket_segment b1 = Ok tt -> validate_bucket_segment b2 = Ok tt -> suffix_ok suffix ->
  (String.length (percent_bytes FRAGMENT k1) <= 200)%nat ->
  (String.length (percent_bytes FRAGMENT k2) <= 200)%nat ->
  relative_path b1 k1 suffix = relative_path b2 k2 suffix -> b1 = b2 /\ k1 = k2.
Proof.
  intros V1 V2 Hs L1 L2 E. apply (f_equal (split_char "/")) in E.
  rewrite !relative_path_split in E by done.
  pose proof (f_equal (fun l => nth 0 l "") E) as Eb. pose proof (f_equal (fun l => nth 3 l "") E) as Ef.
  cbn [nth] in Eb, Ef. split; [done |]. unfold sanitize_object_key_for_filename in Ef.
  rewrite !percent_encode_documented in Ef.
  rewrite !(proj2 (Nat.ltb_ge _ _)) in Ef by done.
  by apply percent_bytes_inj, (string_app_inj_r _ _ suffix).
Qed.

(** C37: no cache key escapes the cache directory, and short keys do not collide.  A
    key that [get_sharded_path] accepts names a file four components below the
    base directory (bucket, two levels of the hash, file name) by a relative path
    that [is_safe_relative_file_path] accepts; keys of at most 200 encoded bytes
    that share a path are the same bucket and object. *)
Theorem sharded_path_contained `{PathCodecSpec} base key suffix p :
  is_empty_str base = false -> ends_with "/" base = false -> suffix_ok suffix ->
  get_sharded_path base key suffix = Ok p ->
  exists bucket object_key rel,
    parse_cache_key key = Ok (bucket, object_key) /\ p = (base +:+ "/" +:+ rel)%string /\
    is_safe_relative_file_path rel = true /\ length (split_char "/" rel) = 4%nat /\
    forall key' bucket' object_key',
      parse_cache_key key' = Ok (bucket', object_key') ->
      (String.length (percent_bytes FRAGMENT object_key) <= 200)%nat ->
      (String.length (percent_bytes FRAGMENT object_key') <= 200)%nat ->
      get_sharded_path base key' suffix = Ok p -> bucket' = bucket /\ object_key' = object_key.
Proof.
  intros Hb He Hs Hp. destruct (get_sharded_path_Ok base key suffix p) as (b & k & Hk & ->); [done.. |].
  pose proof (parse_cache_key_Ok _ _ _ Hk) as Hv.
  exists b, k, (relative_path b k suffix). split; [done |]. split; [done |].
  split; [by apply relative_path_safe |]. split; [by rewrite relative_path_split |].
  intros key' b' k' Hk' L L' Hp'.
  destruct (get_sharded_path_Ok base key' suffix _ Hb He Hs Hp') as (b2 & k2 & Hk2 & E).
  rewrite Hk' in Hk2. injection Hk2 as <- <-. apply string_app_inj_l, (string_app_inj_l "/") in E.
  apply (relative_path_inj b' k' b k suffix); try done. by eapply parse_cache_key_Ok.
Qed.

(** The file name of a long key is its hash, which is also the file name of the
    short key spelled like that hash: only the five digits of the directory
    levels keep the two apart. *)
Lemma long_key_path_collision `{PathCodecSpec} long suffix :
  (200 < String.length (percent_bytes FRAGMENT long))%nat ->
  sanitize_object_key_for_filename (blake3_hex long) suffix = sanitize_object_key_for_filename long suffix.
Proof.
  intros Hl. unfold sanitize_object_key_for_filename. rewrite !percent_encode_documented.
  assert (percent_bytes FRAGMENT (blake3_hex long) = blake3_hex long) as ->.
  { assert (Hh : forall s, all_chars is_lower_hex s = true -> percent_bytes FRAGMENT s = s).
    { induction s as [| a s IH]; [done |]. cbn [all_chars percent_bytes]. rewrite andb_true_iff.
      intros [Ha Hs]. rewrite IH by done. by rewrite lower_hex_plain. }
    apply Hh, blake3_hex_digits. }
  rewrite blake3_hex_length.
  destruct (Nat.ltb_spec 200 (String.length (percent_bytes FRAGMENT long))); [done | lia].
Qed.

(** ** Range paths *)

Lemma range_suffix_name start end_ :
  is_u64 start -> is_u64 end_ -> all_chars is_name_char (range_suffix start end_ +:+ ".bin") = true.
Proof.
  intros Hs He. unfold range_suffix.
  assert (Hp : forall n, is_u64 n -> all_chars is_name_char (u64_to_string n) = true).
  { intros n Hn. eapply all_chars_impl; [| by eapply parse_u64_chars, parse_u64_to_string].
    intros a. destruct a as [[] [] [] [] [] [] [] []]; vm_compute; congruence. }
  by rewrite !all_chars_app, !Hp by done.
Qed.

Lemma split_once_free c s : all_chars (fun a => negb (ascii_eqb a c)) s = true -> split_once c s = None.
Proof.
  induction s as [| a s IH]; [done |]. cbn [all_chars split_once]. rewrite andb_true_iff, negb_true_iff.
  intros [-> Hs]. by rewrite (IH Hs).
Qed.

Lemma path_join_empty seg :
  all_chars is_name_char seg = true -> path_join "" seg = seg.
Proof.
  intros Hn. unfold path_join. destruct (starts_with "/" seg) eqn:E; [done |]. done.
Qed.

Section RangePaths.
Context `{PathCodecSpec}.

Lemma get_new_range_file_path_parsed key bucket object_key start end_ :
  parse_cache_key key = Ok (bucket, object_key) -> is_u64 start -> is_u64 end_ ->
  get_new_range_file_path key start end_ = sharded bucket object_key (new_range_file_name object_key start end_).
Proof.
  intros Hk Hs He. unfold get_new_range_file_path, get_sharded_path. rewrite Hk. cbn [mbind outcome_bind].
  destruct (validated_bucket bucket) as (Hbe & _ & Hbn); [by eapply parse_cache_key_Ok |].
  destruct (hash_levels object_key) as (H1 & H2 & H3 & H4).
  assert (Hx : forall s, all_chars is_lower_hex s = true -> all_chars is_name_char s = true)
    by (intros s; apply all_chars_impl; intros a Ha; by apply lower_hex_name).
  pose proof (range_suffix_name start end_ Hs He) as Hn.
  pose proof (sanitized_name object_key _ Hn) as Hf.
  assert (He' : is_empty_str (sanitize_object_key_for_filename object_key (range_suffix start end_ +:+ ".bin")) = false).
  { unfold sanitize_object_key_for_filename. destruct (_ <? _)%nat;
      [by destruct (blake3_hex object_key) | by destruct (percent_encode FRAGMENT object_key)]. }
  rewrite path_join_empty by done.
  assert (ends_with "/" bucket = false) as Hb.
  { apply not_true_iff_false. rewrite ends_with_spec. intros [t ->]. by rewrite all_chars_app, andb_comm in Hbn. }
  destruct (path_join_seg bucket _ Hbe Hb H1 (Hx _ H3)) as (-> & A2 & B2).
  destruct (path_join_seg _ _ A2 B2 H2 (Hx _ H4)) as (-> & A3 & B3).
  destruct (path_join_seg _ _ A3 B3 He' Hf) as (-> & _ & _).
  unfold sharded. rewrite <- !string_app_assoc. done.
Qed.

Lemma get_new_range_file_path_flat key start end_ :
  (forall p, parse_cache_key key <> Ok p) ->
  get_new_range_file_path key start end_ = (sanitize_cache_key_new key +:+ range_suffix start end_ +:+ ".bin")%string.
Proof.
  intros Hk. unfold get_new_range_file_path, get_sharded_path.
  destruct (parse_cache_key key) as [p | |]; [by destruct (Hk p) | done | done].
Qed.

Lemma split_file_name_dir dir name :
  all_chars is_name_char name = true -> split_file_name (dir +:+ String "/" name) = ((dir +:+ "/")%string, name).
Proof. intros Hn. unfold split_file_name. by rewrite rsplit_once_app by (by apply name_char_no_slash). Qed.

Lemma split_file_name_flat name : all_chars is_name_char name = true -> split_file_name name = ("", name).
Proof.
  intros Hn. unfold split_file_name, rsplit_once.
  by rewrite split_once_free by (rewrite all_chars_rev; by apply name_char_no_slash).
Qed.

Lemma sanitized_key_chars key : all_chars is_name_char (sanitize_cache_key_new key) = true.
Proof.
  unfold sanitize_cache_key_new. rewrite percent_encode_documented.
  destruct (_ <? _)%nat; [by rewrite all_chars_app, hash_name | apply percent_bytes_name].
Qed.

(** The path of a range: where the object's directories are, and a versioned name. *)
Lemma range_path_parsed key bucket object_key start end_ etag :
  parse_cache_key key = Ok (bucket, object_key) -> is_u64 start -> is_u64 end_ ->
  get_versioned_range_file_path key start end_ etag =
    sharded bucket object_key
      (versioned_range_file_name (new_range_file_name object_key start end_) key start end_ etag).
Proof.
  intros Hk Hs He. unfold get_versioned_range_file_path, versioned_range_file_path.
  rewrite (get_new_range_file_path_parsed key bucket object_key) by done. unfold sharded.
  set (l1 := string_take 2 _). set (l2 := string_take 3 _).
  match goal with |- context [split_file_name ?p] =>
    replace p with ((bucket +:+ String "/" (l1 +:+ String "/" l2)) +:+ String "/" (new_range_file_name object_key start end_))%string
      by (by rewrite <- !string_app_assoc; cbn; rewrite <- !string_app_assoc) end.
  rewrite split_file_name_dir by (by apply sanitized_name, range_suffix_name).
  by rewrite <- !string_app_assoc; cbn; rewrite <- !string_app_assoc.
Qed.

Lemma range_path_flat key start end_ etag :
  (forall p, parse_cache_key key <> Ok p) -> is_u64 start -> is_u64 end_ ->
  get_versioned_range_file_path key start end_ etag =
    versioned_range_file_name (sanitize_cache_key_new key +:+ range_suffix start end_ +:+ ".bin") key start end_ etag.
Proof.
  intros Hk Hs He. unfold get_versioned_range_file_path, versioned_range_file_path.
  rewrite get_new_range_file_path_flat by done.
  rewrite split_file_name_flat; [done |]. by rewrite all_chars_app, sanitized_key_chars, range_suffix_name.
Qed.

Lemma sharded_app bucket object_key x t :
  sharded bucket object_key (x +:+ t) = (sharded bucket object_key x +:+ t)%string.
Proof.
  unfold sharded. rewrite <- string_app_assoc. f_equal. cbn. f_equal.
  rewrite <- string_app_assoc. f_equal. cbn. f_equal. by rewrite <- string_app_assoc.
Qed.

Lemma range_path_shape key start end_ etag :
  is_u64 start -> is_u64 end_ ->
  exists y, get_versioned_range_file_path key start end_ etag
    = (y +:+ range_suffix start end_ +:+ "." +:+ object_version_id etag +:+ ".bin")%string.
Proof.
  intros Hs He. destruct (parse_cache_key key) as [[b k] | |] eqn:Hk.
  - rewrite (range_path_parsed key b k) by done. destruct (versioned_name_shape k key start end_ etag) as [y ->].
    exists (sharded b k y). by rewrite sharded_app.
  - rewrite range_path_flat by (done || by intros p; rewrite Hk). apply versioned_shape.
  - rewrite range_path_flat by (done || by intros p; rewrite Hk). apply versioned_shape.
Qed.

(** A path determines its range and the hash of its version. *)
Lemma range_path_extent key start end_ etag key' start' end' etag' :
  is_u64 start -> is_u64 end_ -> is_u64 start' -> is_u64 end' ->
  get_versioned_range_file_path key start end_ etag = get_versioned_range_file_path key' start' end' etag' ->
  start = start' /\ end_ = end' /\ blake3_hex etag = blake3_hex etag'.
Proof.
  intros Hs He Hs' He' E. destruct (range_path_shape key start end_ etag) as [y Ey]; [done | done |].
  destruct (range_path_shape key' start' end' etag') as [y' Ey']; [done | done |].
  rewrite Ey, Ey', !string_app_assoc in E. apply string_app_inj_r in E. unfold object_version_id in E.
  apply string_app_inj_len in E as [E Ev]; [| by rewrite !blake3_hex_length].
  apply string_app_inj_r, range_suffix_inj in E as [-> ->]; done.
Qed.

Lemma range_path_belongs key start end_ etag etag' r :
  is_u64 start -> is_u64 end_ -> nr_start r = start -> nr_end r = end_ ->
  nr_file_path r = get_versioned_range_file_path key start end_ etag ->
  range_file_belongs_to r (object_version_id etag') = bool_decide (blake3_hex etag' = blake3_hex etag).
Proof.
  intros Hs He <- <- Hp. destruct (range_path_shape key (nr_start r) (nr_end r) etag) as [y Ey]; [done | done |].
  rewrite Ey in Hp. rewrite (versioned_path_belongs y (nr_start r) (nr_end r) etag) by done.
  apply bool_decide_ext. tauto.
Qed.

Lemma versioned_name_chars name key start end_ etag :
  all_chars is_name_char (name +:+ ".bin") = true -> is_empty_str name = false -> is_u64 start -> is_u64 end_ ->
  all_chars is_name_char (versioned_range_file_name (name +:+ ".bin") key start end_ etag) = true /\
  (3 <= String.length (versioned_range_file_name (name +:+ ".bin") key start end_ etag))%nat.
Proof.
  intros Hn Hne Hs He. unfold versioned_range_file_name. rewrite with_extension_bin by done.
  rewrite all_chars_app, andb_true_iff in Hn. destruct Hn as [Hn _].
  pose proof (range_suffix_name start end_ Hs He) as Hr. rewrite all_chars_app, andb_true_iff in Hr. destruct Hr as [Hr _].
  destruct (_ <? _)%nat; rewrite !all_chars_app, ?Hn, ?Hr, !hash_name, !string_length_app; (split; [done |]); cbn; lia.
Qed.

Lemma range_path_safe key bucket object_key start end_ etag :
  parse_cache_key key = Ok (bucket, object_key) -> is_u64 start -> is_u64 end_ ->
  is_safe_relative_file_path (get_versioned_range_file_path key start end_ etag) = true.
Proof.
  intros Hk Hs He. rewrite (range_path_parsed key bucket object_key) by done.
  pose proof (sanitized_name object_key _ (range_suffix_name start end_ Hs He)) as Hn.
  assert (exists x, sanitize_object_key_for_filename object_key (range_suffix start end_ +:+ ".bin") = (x +:+ ".bin")%string
    /\ is_empty_str x = false) as (x & E & Hx).
  { unfold sanitize_object_key_for_filename. destruct (_ <? _)%nat; rewrite string_app_assoc; eexists; (split; [done |]);
      [by destruct (blake3_hex object_key) | by destruct (percent_encode FRAGMENT object_key)]. }
  unfold new_range_file_name. rewrite E in Hn |- *.
  destruct (versioned_name_chars x key start end_ etag) as [H1 H2]; try done.
  apply sharded_safe; [by eapply parse_cache_key_Ok | done | done].
Qed.

End RangePaths.

(** ** Concrete paths *)

Definition hex64 (a : ascii) : string :=
  (fix go n := match n with O => EmptyString | S n => String a (go n) end) 64%nat.

#[local] Instance sample_codec : PathCodec :=
  {| blake3_hex s := if bool_decide (s = "v1") then hex64 "a" else hex64 "0";
     percent_encode := percent_bytes |}.

#[local] Instance sample_codec_spec : PathCodecSpec.
Proof. constructor; cbn; [intros; by case_bool_decide | intros; by case_bool_decide | done]. Qed.

Definition sample_stored_range : NewRangeSpec :=
  NewRangeSpec_new 0 0 5 ("b/00/000/" +:+
    versioned_range_file_name (new_range_file_name "k/x" 0 5) "b/k/x" 0 5 "v1") NoCompression 6 6.

Lemma range_file_identity_witness :
  range_file_belongs_to sample_stored_range (object_version_id "v1") = true /\
  range_file_belongs_to sample_stored_range (object_version_id "v2") = false.
Proof.
  split.
  - rewrite (range_file_identity "b/00/000/" "k/x" "b/k/x" 0 5 "v1" "v1");
      [vm_compute; reflexivity | unfold is_u64; cbn; lia.. | reflexivity].
  - rewrite (range_file_identity "b/00/000/" "k/x" "b/k/x" 0 5 "v1" "v2");
      [vm_compute; reflexivity | unfold is_u64; cbn; lia.. | reflexivity].
Defined.

Lemma sharded_path_contained_witness :
  exists rel, get_sharded_path "/cache/metadata" "/b/k/x" ".meta" = Ok ("/cache/metadata" +:+ "/" +:+ rel)%string /\
    is_safe_relative_file_path rel = true.
Proof.
  destruct (sharded_path_contained "/cache/metadata" "/b/k/x" ".meta"
    ("/cache/metadata" +:+ "/" +:+ "b/00/000/k%2Fx.meta")) as (b & k & rel & _ & E & Hs & _).
  - vm_compute; reflexivity.
  - vm_compute; reflexivity.
  - split; [vm_compute; reflexivity | cbn; lia].
  - vm_compute; reflexivity.
  - exists rel. rewrite <- E. split; [vm_compute; reflexivity | exact Hs].
Defined.
