(* ===== verification/DiskRanges.v ===== *)
(** * Stored ranges: lookup and load

    The disk side of the range path: [DiskCacheManager::find_cached_ranges] and
    the journal scan, [RangeHandler::find_cached_ranges] on top of it, and the
    loading of a stored range's bytes or frame for one object version
    ([disk_cache.rs], [journal_manager.rs], [range_handler.rs]).  The file system
    is a value: the metadata files that parse, by path below the cache directory,
    the journal lines that parse in scan order, and the range files by path below
    [ranges].  The decoder of one LZ4 frame is a parameter, and so is whether the file
    system lets a file be removed. *)

From S2P Require Import Prelude CacheTypes Ranges RangeMerge Maps DiskPaths RustStr.

#[local] Open Scope Z_scope.

(** ** Frames *)

(** [FrameDecoder::read_to_end] of the LZ4 library: the output of the first frame
    and the input it leaves, or an error message. *)
Class FrameCodec := decode_frame : bytes -> string + bytes * bytes.

(** A frame takes up input. *)
Class FrameCodecSpec `{FrameCodec} : Prop :=
  decode_frame_progress data out rest : decode_frame data = inr (out, rest) -> (length rest < length data)%nat.

(** The loop over concatenated frames; a frame without output ends it.  Each frame
    takes up input, so the length of the input is fuel enough. *)
Fixpoint decompress_loop `{FrameCodec} (fuel : nat) (decompressed data : bytes) : Result bytes :=
  match data, fuel with
  | [], _ => Ok decompressed
  | _, O => Panic
  | _, S fuel =>
      match decode_frame data with
      | inr ([], _) => Ok decompressed
      | inr (out, rest) => decompress_loop fuel (decompressed ++ out) rest
      | inl error => Err (CompressionError ("Failed to decompress cached data: " +:+ error))
      end
  end.

Definition decompress_data `{FrameCodec} (compressed_data : bytes) : Result bytes :=
  decompress_loop (length compressed_data) [] compressed_data.

Definition decompress_with_algorithm `{FrameCodec} (data : bytes) (algorithm : CompressionAlgorithm)
    : Result bytes :=
  match algorithm with
  | Lz4 => decompress_data data
  | NoCompression => Ok data
  end.

Lemma decompress_loop_app `{FrameCodecSpec} fuel acc data :
  decompress_loop fuel acc data = (d ← decompress_loop fuel [] data; Ok (acc ++ d)).
Proof.
  revert acc data. induction fuel as [| fuel IH]; intros acc [| b data]; cbn; rewrite ?app_nil_r; try done.
  destruct (decode_frame (b :: data)) as [e | [[| o out] rest]]; cbn; rewrite ?app_nil_r; try done.
  rewrite IH, (IH (o :: out)). destruct (decompress_loop fuel [] rest); cbn; [| done | done]. by rewrite <- app_assoc.
Qed.

Lemma decompress_loop_fuel `{FrameCodecSpec} fuel fuel' acc data :
  (length data <= fuel)%nat -> (length data <= fuel')%nat ->
  decompress_loop fuel acc data = decompress_loop fuel' acc data /\ decompress_loop fuel acc data <> Panic.
Proof.
  revert fuel' acc data. induction fuel as [| fuel IH]; intros [| fuel'] acc [| b data]; cbn; intros; try lia; try done.
  destruct (decode_frame (b :: data)) as [e | [[| o out] rest]] eqn:E; [done | done |].
  apply decode_frame_progress in E. cbn in E. apply IH; lia.
Qed.

(** Decoding is total, and the frames of an incremental write decode to the
    concatenation of their contents. *)
Lemma decompress_frames `{FrameCodecSpec} frame out data :
  decode_frame (frame ++ data) = inr (out, data) -> out <> [] ->
  decompress_data (frame ++ data) = (d ← decompress_data data; Ok (out ++ d)) /\
  decompress_data data <> Panic.
Proof.
  intros E Ho. pose proof (decode_frame_progress _ _ _ E) as Hp. 
  split; [| exact (proj2 (decompress_loop_fuel _ (length data) [] data (le_n _) (le_n _)))].
  unfold decompress_data. destruct (frame ++ data) as [| b l]; [cbn in Hp; lia |].
  cbn [length decompress_loop]. rewrite E. destruct out as [| o out]; [done |].
  rewrite decompress_loop_app. cbn [app length] in *.
  by rewrite (proj1 (decompress_loop_fuel (length l) (length data) [] data ltac:(lia) ltac:(lia))).
Qed.

(** The fuel is enough: for a decoder whose frames take up input, more turns than there are bytes change nothing. *)
Lemma decompression_terminates `{FrameCodecSpec} data fuel :
  (length data <= fuel)%nat ->
  decompress_data data <> Panic /\ decompress_loop fuel [] data = decompress_data data.
Proof.
  intros Hf. destruct (decompress_loop_fuel (length data) fuel [] data (le_n _) Hf) as [E Hp].
  by split; [| rewrite <- E].
Qed.

Module Disk.

Inductive JournalOperation := Add | Update | Remove | TtlRefresh | AccessUpdate | Graduation.

#[export] Instance JournalOperation_eq_dec : EqDecision JournalOperation.
Proof. solve_decision. Defined.

Record PendingRangeView := mkView {
  pv_cache_key : string;
  pv_operation : JournalOperation;
  pv_range_spec : NewRangeSpec;
  pv_etag : option string;
}.

(** A file reads as bytes or fails with an I/O error. *)
Inductive file := Readable (data : bytes) | Unreadable (error : string).

Record Disk := mkDisk {
  shared_storage_mode : bool;
  journals_dir_exists : bool;
  metadata_files : gmap string NewCacheMetadata;
  journals : list PendingRangeView;
  range_files : gmap string file;
}.

Record RangeLookupResult := mkLookup {
  ranges : list NewRangeSpec;
  lookup_freshness : StoredFreshness;
}.

Definition empty_lookup : RangeLookupResult := mkLookup [] CacheTypes.Fresh.

Definition fresh (rs : list NewRangeSpec) : RangeLookupResult := mkLookup rs CacheTypes.Fresh.

Section Lookup.
Context `{PathCodec} `{FrameCodec}.

(** A metadata file that is missing, torn or corrupt is no entry. *)
Definition get_metadata (now : Z) (d : Disk) (key : string) : option NewCacheMetadata :=
  m ← metadata_files d !! get_new_metadata_file_path key;
  if om_is_write_cached (cm_object_metadata m) && is_write_cache_expired now (cm_object_metadata m)
  then None else Some m.

(** ** Journals *)

Definition is_ascii_hexdigit (a : ascii) : bool :=
  let n := Ascii.nat_of_ascii a in
  ((48 <=? n)%nat && (n <=? 57)%nat) || ((65 <=? n)%nat && (n <=? 70)%nat) || ((97 <=? n)%nat && (n <=? 102)%nat).

Definition range_file_version (file_path : string) : option string :=
  let name := match rsplit_once "/" file_path with Some (_, name) => name | None => file_path end in
  stem ← strip_suffix ".bin" name;
  version ← snd <$> rsplit_once "." stem;
  if (String.length version =? 64)%nat && all_chars is_ascii_hexdigit version then Some version else None.

Definition entry_matches_object_version (op : JournalOperation) (r : NewRangeSpec)
    (entry_etag : option string) (etag : string) : bool :=
  let version_id := object_version_id etag in
  match op with
  | Remove => match range_file_version (nr_file_path r) with
              | Some version => bool_decide (version = version_id)
              | None => true
              end
  | Add | Update =>
      range_file_belongs_to r version_id
      && match entry_etag with Some entry_etag => bool_decide (entry_etag = etag) | None => true end
  | _ => true
  end.

(** The loop both lookups run over candidate ranges: a range that holds the whole
    request is returned alone, otherwise the overlapping ones are collected and
    sorted. *)
Fixpoint scan_overlaps (s e : Z) (acc candidates : list NewRangeSpec) : list NewRangeSpec :=
  match candidates with
  | [] => sort_by_key nr_start acc
  | r :: rest =>
      if (s <=? nr_end r) && (nr_start r <=? e) then
        if (nr_start r =? s) && (nr_end r =? e) then [r]
        else if (nr_start r <=? s) && (e <=? nr_end r) then [r]
        else scan_overlaps s e (acc ++ [r]) rest
      else scan_overlaps s e acc rest
  end.

Definition pending_candidates (d : Disk) (key etag : string) : list NewRangeSpec :=
  pv_range_spec <$> base.filter (fun v =>
    pv_cache_key v = key /\ pv_operation v = Add /\
    entry_matches_object_version (pv_operation v) (pv_range_spec v) (pv_etag v) etag = true) (journals d).

Definition find_pending_journal_ranges (d : Disk) (key : string) (s e : Z) (object_etag : option string)
    : list NewRangeSpec :=
  if negb (shared_storage_mode d) then [] else
  if negb (journals_dir_exists d) then [] else
  match object_etag with
  | None => []
  | Some etag => scan_overlaps s e [] (pending_candidates d key etag)
  end.

(** ** [DiskCacheManager::find_cached_ranges] *)

Definition version_candidates (m : NewCacheMetadata) : list NewRangeSpec :=
  base.filter (fun r => range_file_belongs_to r (object_version_id (om_etag (cm_object_metadata m))) = true)
    (cm_ranges m).

Definition disk_find_cached_ranges (now_meta now : Z) (d : Disk) (key : string) (s e : Z)
    (preloaded : option NewCacheMetadata) (purpose : RangeLookupPurpose) : Result RangeLookupResult :=
  if e <? s then Err (CacheError "Invalid requested range") else
  match (match preloaded with Some m => Some m | None => get_metadata now_meta d key end) with
  | None => Ok empty_lookup
  | Some m =>
      let expired := cm_expires_at m <? now in
      match expired, purpose with
      | true, FreshServe => Ok empty_lookup
      | _, _ =>
          let freshness := if expired then CacheTypes.Expired else CacheTypes.Fresh in
          match scan_overlaps s e [] (version_candidates m) with
          | [] =>
              match find_pending_journal_ranges d key s e (Some (om_etag (cm_object_metadata m))) with
              | [] => Ok (mkLookup [] freshness)
              | journal_ranges => Ok (fresh journal_ranges)
              end
          | overlapping => Ok (mkLookup overlapping freshness)
          end
      end
  end.

(** ** [RangeHandler::find_cached_ranges]

    The lookup answers with the coverage and whether the stale copies of the key
    are to be invalidated (an ETag mismatch). *)

Definition to_cached_range (m : NewCacheMetadata) (r : NewRangeSpec) : Range :=
  mkCachedRange (nr_start r) (nr_end r) [] (om_etag (cm_object_metadata m))
    (om_last_modified (cm_object_metadata m)) (nr_compression_algorithm r).

Definition find_cached_ranges (now1 now2 now3 : Z) (d : Disk) (key : string) (requested : RangeSpec)
    (current_etag : option string) (preloaded : option NewCacheMetadata) (purpose : RangeLookupPurpose)
    : Result (RangeOverlap * bool) :=
  match (match preloaded with Some m => Some m | None => get_metadata now1 d key end) with
  | None => Ok (all_missing requested, false)
  | Some m =>
      if match current_etag with
         | Some etag => negb (bool_decide (etag = om_etag (cm_object_metadata m)))
         | None => false
         end
      then Ok (all_missing requested, true)
      else
        lookup ← disk_find_cached_ranges now2 now3 d key (start requested) (end_ requested) preloaded purpose;
        match ranges lookup with
        | [] => Ok (all_missing requested, false)
        | specs => Ok (overlap_of requested (to_cached_range m <$> specs) (lookup_freshness lookup), false)
        end
  end.

(** ** Loading one stored range *)

Definition range_file_error (r : NewRangeSpec) (f : option string) : ProxyError :=
  match f with
  | None => CacheError ("Range file not found: " +:+ nr_file_path r +:+ " (cache miss - will fetch from S3)")
  | Some error => CacheError ("Failed to read range file " +:+ nr_file_path r +:+ ": " +:+ error)
  end.

Definition servable_range_path (r : NewRangeSpec) (key etag : string) : Result string :=
  if negb (is_safe_relative_file_path (nr_file_path r))
  then Err (CacheError "Range file path rejected (unsafe)")
  else if negb (range_file_belongs_to r (object_version_id etag))
  then Err (CacheVersionMismatch key (default "" (range_file_version (nr_file_path r))) etag)
  else Ok (nr_file_path r).

Definition read_range_frame (d : Disk) (r : NewRangeSpec) (key etag : string)
    : Result (bytes * CompressionAlgorithm) :=
  path ← servable_range_path r key etag;
  match range_files d !! path with
  | Some (Readable frame) => Ok (frame, nr_compression_algorithm r)
  | Some (Unreadable error) => Err (range_file_error r (Some error))
  | None => Err (range_file_error r None)
  end.

Definition read_range_data (d : Disk) (r : NewRangeSpec) (key etag : string) : Result bytes :=
  path ← servable_range_path r key etag;
  compressed ← match range_files d !! path with
               | Some (Readable data) => Ok data
               | Some (Unreadable error) => Err (range_file_error r (Some error))
               | None => Err (range_file_error r None)
               end;
  data ← match decompress_with_algorithm compressed (nr_compression_algorithm r) with
         | Ok data => Ok data
         | Err _ => Err (CacheError "Failed to decompress range data")
         | Panic => Panic
         end;
  if negb (zlen data =? nr_uncompressed_size r)
  then Err (CacheError "Decompressed data size mismatch")
  else if negb (zlen data =? u64_add (u64_sub (nr_end r) (nr_start r)) 1)
  then Err (CacheError "Range data size mismatch")
  else Ok data.

(** The stored range a load reads: from the metadata, else from the journals. *)
Definition find_range_spec (now : Z) (d : Disk) (key : string) (range : Range) : Result NewRangeSpec :=
  let metadata := get_metadata now d key in
  match metadata with
  | Some m =>
      if negb (bool_decide (om_etag (cm_object_metadata m) = r_etag range))
      then Err (CacheVersionMismatch key (om_etag (cm_object_metadata m)) (r_etag range))
      else Ok tt
  | None => Ok tt
  end ≫= fun _ =>
  let version_id := object_version_id (r_etag range) in
  let matches r := (nr_start r =? r_start range) && (nr_end r =? r_end range) in
  match (m ← metadata; List.find (fun r => matches r && range_file_belongs_to r version_id) (cm_ranges m)) with
  | Some spec => Ok spec
  | None =>
      match List.find matches
              (find_pending_journal_ranges d key (r_start range) (r_end range) (Some (r_etag range))) with
      | Some spec => Ok spec
      | None => Err (CacheError "Range spec not found (checked metadata and journals)")
      end
  end.

Definition load_range_data_from_new_storage (now : Z) (d : Disk) (key : string) (range : Range) : Result bytes :=
  spec ← find_range_spec now d key range;
  read_range_data d spec key (r_etag range).

Definition load_range_frame_from_new_storage (now : Z) (d : Disk) (key : string) (range : Range)
    : Result (bytes * CompressionAlgorithm) :=
  spec ← find_range_spec now d key range;
  read_range_frame d spec key (r_etag range).

(** ** Removal *)

(** The loop of [remove_all_ranges]: an unsafe path is skipped, a file already gone
    counts as removed, a file that cannot be removed stays. *)
Fixpoint remove_range_files (removable : string -> bool) (files : gmap string file) (count freed : Z)
    (rs : list NewRangeSpec) : gmap string file * (Z * Z) :=
  match rs with
  | [] => (files, (count, freed))
  | r :: rest =>
      let path := nr_file_path r in
      if negb (is_safe_relative_file_path path) then remove_range_files removable files count freed rest
      else match files !! path with
           | Some _ =>
               if removable path
               then remove_range_files removable (base.delete path files) (count + 1)
                      (u64_add freed (nr_compressed_size r)) rest
               else remove_range_files removable files count freed rest
           | None => remove_range_files removable files (count + 1) freed rest
           end
  end.

Definition remove_all_ranges (removable : string -> bool) (now : Z) (d : Disk) (key : string) : Disk * (Z * Z) :=
  match get_metadata now d key with
  | None => (d, (0, 0))
  | Some m =>
      let '(files, result) := remove_range_files removable (range_files d) 0 0 (cm_ranges m) in
      (mkDisk (shared_storage_mode d) (journals_dir_exists d) (metadata_files d) (journals d) files, result)
  end.

Definition invalidate_all_ranges (removable : string -> bool) (now : Z) (d : Disk) (key : string) : Disk :=
  let d := (remove_all_ranges removable now d key).1 in
  let path := get_metadata_file_path key in
  match metadata_files d !! path with
  | Some _ =>
      if removable path
      then mkDisk (shared_storage_mode d) (journals_dir_exists d) (base.delete path (metadata_files d)) (journals d)
             (range_files d)
      else d
  | None => d
  end.

(** ** Facts *)

Lemma remove_range_files_spec removable files count freed rs :
  let files' := (remove_range_files removable files count freed rs).1 in
  files' ⊆ files /\
  (forall p, (forall r, r ∈ rs -> nr_file_path r <> p) -> files' !! p = files !! p) /\
  (forall r, r ∈ rs -> is_safe_relative_file_path (nr_file_path r) = true -> removable (nr_file_path r) = true ->
     files' !! nr_file_path r = None).
Proof.
  revert files count freed. induction rs as [| r rs IH]; intros files count freed; cbn zeta.
  { cbn. split_and!; [done | done | by intros r Hr%elem_of_nil]. }
  cbn [remove_range_files]. destruct (is_safe_relative_file_path (nr_file_path r)) eqn:Esafe; cbn [negb].
  2: { destruct (IH files count freed) as (H1 & H2 & H3). split; [done |]. split.
       - intros p Hp. apply H2. intros r' Hr'. apply Hp, elem_of_cons. by right.
       - intros r' [-> | Hr']%elem_of_cons; [congruence | by apply H3]. }
  destruct (files !! nr_file_path r) as [f |] eqn:Ef; [destruct (removable (nr_file_path r)) eqn:Erm |].
  1: specialize (IH (base.delete (nr_file_path r) files) (count + 1) (u64_add freed (nr_compressed_size r))).
  2: specialize (IH files count freed).
  3: specialize (IH files (count + 1) freed).
  all: destruct IH as (H1 & H2 & H3).
  - split; [by etrans; [| apply delete_subseteq] |]. split.
    + intros p Hp. rewrite H2 by (intros r' Hr'; apply Hp, elem_of_cons; by right).
      rewrite lookup_delete_ne; [done |]. apply Hp, elem_of_cons. by left.
    + intros r' [-> | Hr']%elem_of_cons ? ?; [| by apply H3].
      apply eq_None_not_Some. intros [g E].
      apply (lookup_weaken _ _ _ _ E) in H1. by rewrite lookup_delete_eq in H1.
  - split; [done |]. split.
    + intros p Hp. apply H2. intros r' Hr'. apply Hp, elem_of_cons. by right.
    + intros r' [-> | Hr']%elem_of_cons; [congruence | by apply H3].
  - split; [done |]. split.
    + intros p Hp. apply H2. intros r' Hr'. apply Hp, elem_of_cons. by right.
    + intros r' [-> | Hr']%elem_of_cons ? ?; [| by apply H3].
      apply eq_None_not_Some. intros [g E]. apply (lookup_weaken _ _ _ _ E) in H1. congruence.
Qed.

(** Invalidation only removes, and removes the files the metadata lists. *)
Lemma invalidate_all_ranges_spec removable now d key :
  let d' := invalidate_all_ranges removable now d key in
  journals d' = journals d /\ metadata_files d' ⊆ metadata_files d /\ range_files d' ⊆ range_files d /\
  (forall p, p <> get_metadata_file_path key -> metadata_files d' !! p = metadata_files d !! p) /\
  (forall m r, get_metadata now d key = Some m -> r ∈ cm_ranges m ->
     is_safe_relative_file_path (nr_file_path r) = true -> removable (nr_file_path r) = true ->
     range_files d' !! nr_file_path r = None).
Proof.
  cbn zeta. unfold invalidate_all_ranges, remove_all_ranges.
  destruct (get_metadata now d key) as [m |].
  - destruct (remove_range_files_spec removable (range_files d) 0 0 (cm_ranges m)) as (H1 & _ & H3).
    destruct (remove_range_files _ _ _ _ _) as [files res]. cbn [fst snd] in *. cbn [metadata_files].
    assert (Hr : forall m0 r, Some m = Some m0 -> r ∈ cm_ranges m0 ->
      is_safe_relative_file_path (nr_file_path r) = true -> removable (nr_file_path r) = true ->
      files !! nr_file_path r = None) by (intros m0 r [= <-]; apply H3).
    destruct (metadata_files d !! _); [destruct (removable _) |]; cbn; split_and!;
      first [ done | apply delete_subseteq | by auto | intros p Hp; by rewrite lookup_delete_ne ].
  - cbn [fst]. destruct (metadata_files d !! _); [destruct (removable _) |]; cbn; split_and!;
      first [ done | apply delete_subseteq | by auto | intros p Hp; by rewrite lookup_delete_ne ].
Qed.

Definition contains_request (s e : Z) (r : NewRangeSpec) : Prop := nr_start r <= s /\ e <= nr_end r.

Definition overlaps_request (s e : Z) (r : NewRangeSpec) : Prop := s <= nr_end r /\ nr_start r <= e.

(** The scan finds a containing range if there is one, and otherwise exactly the
    overlapping ones, in order of their start. *)
Lemma scan_overlaps_spec s e acc l :
  s <= e ->
  (exists r, r ∈ l /\ contains_request s e r /\ scan_overlaps s e acc l = [r]) \/
  (Forall (fun r => ~ contains_request s e r) l /\
   forall r, r ∈ scan_overlaps s e acc l <-> r ∈ acc \/ (r ∈ l /\ overlaps_request s e r)).
Proof.
  intros Hse. revert acc. induction l as [| r l IH]; intros acc; simpl.
  - right. split; [constructor |]. intros r. rewrite sort_by_key_perm, elem_of_nil. tauto.
  - destruct (Z.leb_spec s (nr_end r)), (Z.leb_spec (nr_start r) e); simpl.
    2-4: destruct (IH acc) as [(r' & Hr' & Hc & E) | [Hn E]];
      [left; exists r'; rewrite elem_of_cons; auto |];
      right; split; [constructor; [unfold contains_request; lia | done] |];
      intros r'; rewrite E, elem_of_cons;
      (assert (r' = r -> ~ overlaps_request s e r') by (intros ->; unfold overlaps_request; lia)); tauto.
    destruct (decide (contains_request s e r)) as [Hc | Hc].
    + left. exists r. rewrite elem_of_cons. split; [auto |]. split; [done |]. unfold contains_request in Hc.
      destruct (Z.eqb_spec (nr_start r) s), (Z.eqb_spec (nr_end r) e); simpl; try done;
        by destruct (Z.leb_spec (nr_start r) s), (Z.leb_spec e (nr_end r)); simpl; try lia.
    + replace ((nr_start r =? s) && (nr_end r =? e)) with false by
        (symmetry; apply andb_false_iff; rewrite !Z.eqb_neq; unfold contains_request in Hc; lia).
      replace ((nr_start r <=? s) && (e <=? nr_end r)) with false by
        (symmetry; apply andb_false_iff; rewrite !Z.leb_gt; unfold contains_request in Hc; lia).
      destruct (IH (acc ++ [r])) as [(r' & Hr' & Hc' & E) | [Hn E]];
        [left; exists r'; rewrite elem_of_cons; auto |].
      right. split; [by constructor |]. intros r'.
      rewrite E, elem_of_cons, elem_of_app, list_elem_of_singleton.
      assert (r' = r -> overlaps_request s e r') by (intros ->; done). tauto.
Qed.

Lemma scan_overlaps_elem s e l r :
  s <= e -> r ∈ scan_overlaps s e [] l -> r ∈ l /\ overlaps_request s e r.
Proof.
  intros Hse. destruct (scan_overlaps_spec s e [] l Hse) as [(r' & Hr' & Hc & ->) | [_ E]].
  - intros ->%list_elem_of_singleton. split; [done |]. unfold contains_request, overlaps_request in *. lia.
  - rewrite E, elem_of_nil. tauto.
Qed.

(** Where the version [etag] of [key] has its stored ranges. *)
Definition stored (d : Disk) (m : NewCacheMetadata) (key : string) (r : NewRangeSpec) : Prop :=
  (r ∈ cm_ranges m \/ exists v, v ∈ journals d /\ pv_cache_key v = key /\ pv_operation v = Add /\ pv_range_spec v = r) /\
  range_file_belongs_to r (object_version_id (om_etag (cm_object_metadata m))) = true.

Lemma version_candidates_stored d m key r : r ∈ version_candidates m -> stored d m key r.
Proof. unfold version_candidates, stored. rewrite list_elem_of_filter. tauto. Qed.

Lemma pending_candidates_elem d key etag r :
  r ∈ pending_candidates d key etag ->
  (exists v, v ∈ journals d /\ pv_cache_key v = key /\ pv_operation v = Add /\ pv_range_spec v = r) /\
  range_file_belongs_to r (object_version_id etag) = true.
Proof.
  unfold pending_candidates. rewrite list_elem_of_fmap. intros (v & -> & Hv).
  apply list_elem_of_filter in Hv as [(Hk & Ho & Hm) Hv]. split; [eauto |].
  rewrite Ho in Hm. simpl in Hm. by apply andb_true_iff in Hm as [? _].
Qed.

Lemma journal_ranges_elem d key s e etag r :
  s <= e -> r ∈ find_pending_journal_ranges d key s e (Some etag) ->
  overlaps_request s e r /\ r ∈ pending_candidates d key etag.
Proof.
  intros Hse. unfold find_pending_journal_ranges.
  destruct (shared_storage_mode d), (journals_dir_exists d); simpl; rewrite ?elem_of_nil; try done.
  intros [? ?]%scan_overlaps_elem; done.
Qed.

(** What the disk lookup returns, on every branch. *)
Lemma disk_lookup_sound now_meta now d key s e preloaded purpose l :
  disk_find_cached_ranges now_meta now d key s e preloaded purpose = Ok l ->
  s <= e /\
  match (match preloaded with Some m => Some m | None => get_metadata now_meta d key end) with
  | None => ranges l = []
  | Some m =>
      (cm_expires_at m < now -> purpose = FreshServe -> ranges l = []) /\
      (lookup_freshness l = CacheTypes.Expired -> cm_expires_at m < now) /\
      Forall (fun r => stored d m key r /\ overlaps_request s e r) (ranges l) /\
      ((cm_expires_at m < now -> purpose = RevalidationCandidate) ->
       forall r, r ∈ version_candidates m -> contains_request s e r ->
         exists r', ranges l = [r'] /\ contains_request s e r')
  end.
Proof.
  unfold disk_find_cached_ranges. bsplit_goal; [done |]. intros Hl. split; [done |].
  destruct (match preloaded with Some m => Some m | None => get_metadata now_meta d key end) as [m |];
    [| by injection Hl as <-].
  destruct (Z.ltb_spec (cm_expires_at m) now), purpose.
  1: { injection Hl as <-. simpl. split_and!; [done | done | constructor |].
       intros Hp. by specialize (Hp ltac:(lia)). }
  all: destruct (scan_overlaps s e [] (version_candidates m)) as [| r0 rs] eqn:Es;
    [destruct (find_pending_journal_ranges d key s e (Some (om_etag (cm_object_metadata m)))) as [| j js] eqn:Ej |];
    injection Hl as <-; simpl.
  all: (split; [try (intros; lia); try done |]; split; [try (intros; lia); try done |]; split).
  all: try (apply Forall_forall; intros r Hr;
    first [ by apply elem_of_nil in Hr
          | rewrite <- Es in Hr; apply scan_overlaps_elem in Hr as [Hr Ho]; [| done];
            split; [by apply version_candidates_stored | done]
          | rewrite <- Ej in Hr; apply journal_ranges_elem in Hr as [Ho Hr]; [| done];
            apply pending_candidates_elem in Hr as [Hj Hb]; split; [split; [by right | done] | done] ]).
  all: intros _ r Hr Hc; destruct (scan_overlaps_spec s e [] (version_candidates m)) as [(r' & _ & Hc' & E) | [Hn _]];
    [done | rewrite Es in E; try done; injection E as -> ->; eauto
    | rewrite Forall_forall in Hn; by destruct (Hn r Hr)].
Qed.

Definition holds_byte (x : Z) (r : NewRangeSpec) : Prop := nr_start r <= x <= nr_end r.

(** No byte of the request is lost: one that a candidate holds is in a range of the result. *)
Lemma scan_overlaps_complete s e l r x :
  s <= x <= e -> r ∈ l -> holds_byte x r -> exists r', r' ∈ scan_overlaps s e [] l /\ holds_byte x r'.
Proof.
  intros Hx Hr Hh. destruct (scan_overlaps_spec s e [] l) as [(r' & Hr' & Hc & ->) | [_ E]]; [lia | |].
  - exists r'. split; [by left |]. unfold contains_request, holds_byte in *. lia.
  - exists r. split; [| done]. apply E. right. split; [done |]. unfold overlaps_request, holds_byte in *. lia.
Qed.

(** A disk lookup that may show the metadata misses no byte its ranges hold and, if none of them overlaps, no byte the
    pending ranges hold. *)
Lemma disk_lookup_complete now_meta now d key s e preloaded purpose l m :
  disk_find_cached_ranges now_meta now d key s e preloaded purpose = Ok l ->
  match preloaded with Some m => Some m | None => get_metadata now_meta d key end = Some m ->
  (cm_expires_at m < now -> purpose = RevalidationCandidate) ->
  let held r := r ∈ version_candidates m \/
    (Forall (fun r' => ~ overlaps_request s e r') (version_candidates m) /\ shared_storage_mode d = true /\ journals_dir_exists d = true /\
     r ∈ pending_candidates d key (om_etag (cm_object_metadata m))) in
  forall r x, held r -> s <= x <= e -> holds_byte x r -> exists r', r' ∈ ranges l /\ holds_byte x r'.
Proof.
  intros Hl Hm He held r x Hr Hx Hh. unfold disk_find_cached_ranges in Hl. destruct (e <? s); [done |]. rewrite Hm in Hl.
  assert (Hl' : match scan_overlaps s e [] (version_candidates m) with
    | [] => ranges l = find_pending_journal_ranges d key s e (Some (om_etag (cm_object_metadata m)))
    | rs => ranges l = rs end).
  { destruct (Z.ltb_spec (cm_expires_at m) now) as [Hlt |], purpose; try (by specialize (He Hlt));
      destruct (scan_overlaps s e [] (version_candidates m)); try (by injection Hl as <-);
      destruct (find_pending_journal_ranges _ _ _ _ _); by injection Hl as <-. }
  destruct Hr as [Hr | (Hno & Hs & Hd & Hr)].
  - destruct (scan_overlaps_complete s e _ r x Hx Hr Hh) as (r' & Hr' & Hh'). exists r'. split; [| done].
    destruct (scan_overlaps _ _ _ (version_candidates m)); [by apply elem_of_nil in Hr' | by rewrite Hl'].
  - destruct (scan_overlaps _ _ _ (version_candidates m)) as [| r0 rs] eqn:Es.
    + rewrite Hl'. unfold find_pending_journal_ranges. rewrite Hs, Hd. cbn [negb]. by eapply scan_overlaps_complete.
    + rewrite Forall_forall in Hno. destruct (scan_overlaps_elem s e (version_candidates m) r0) as [Hin Ho]; [lia | rewrite Es; left |].
      by destruct (Hno _ Hin).
Qed.

(** Byte [x] lies in a range of the coverage. *)
Definition cached_at (o : RangeOverlap) (x : Z) : Prop :=
  Exists (fun c => r_start c <= x <= r_end c) (cached_ranges o).

(** The coverage of overlapping ranges: what is missing is what no range holds, and
    the request can be served exactly when nothing is missing. *)
Definition exact_coverage (requested : RangeSpec) (o : RangeOverlap) : Prop :=
  (forall x, covered (missing_ranges o) x <-> covers requested x /\ ~ cached_at o x) /\
  (can_serve_from_cache o = true <-> forall x, covers requested x -> cached_at o x).

Lemma all_missing_coverage requested : range_wf requested -> exact_coverage requested (all_missing requested).
Proof.
  intros Hw. split.
  - intros x. unfold cached_at. simpl. rewrite covered_cons, covered_nil, Exists_nil. tauto.
  - simpl. split; [done |]. intros Hx. unfold cached_at in Hx. simpl in Hx.
    setoid_rewrite Exists_nil in Hx. destruct (Hx (start requested)). unfold covers, range_wf in *. lia.
Qed.

Lemma overlap_of_coverage requested cs freshness :
  range_wf requested -> end_ requested < U64_MAX ->
  Forall (fun c => (0 <= r_start c <= r_end c /\ r_end c < 2 ^ 64) /\
                   start requested <= r_end c /\ r_start c <= end_ requested) cs ->
  exact_coverage requested (overlap_of requested cs freshness).
Proof.
  intros Hreq Hmax Hc.
  assert (Forall range_wf (covered_part requested <$> cs) /\
          Forall (within requested) (covered_part requested <$> cs)) as [Hw Hin].
  { rewrite !Forall_fmap, !Forall_forall. rewrite Forall_forall in Hc.
    split; intros c Hcs; specialize (Hc c Hcs); unfold compose, range_wf, within, covered_part in *; simpl; lia. }
  destruct (calculate_missing_ranges_spec requested _ Hreq Hmax Hw Hin) as [Hcov [Hn _]].
  assert (Hat : forall x, covers requested x ->
    covered (covered_part requested <$> cs) x <-> cached_at (overlap_of requested cs freshness) x).
  { intros x Hx. unfold covered, cached_at. rewrite Exists_fmap. simpl.
    rewrite !Exists_exists. unfold compose, covers, covered_part in *. simpl.
    split; intros (c & ? & ?); exists c; (split; [done | lia]). }
  assert (Hm : forall x, covered (missing_ranges (overlap_of requested cs freshness)) x <->
    covers requested x /\ ~ cached_at (overlap_of requested cs freshness) x).
  { intros x. unfold overlap_of at 1. cbn [missing_ranges]. rewrite Hcov.
    split; intros [Hx Hno]; (split; [done |]); intros Hc'; apply Hno, (Hat x Hx), Hc'. }
  split; [done |]. simpl. rewrite bool_decide_eq_true.
  destruct (calculate_missing_ranges _ _) as [| m ms] eqn:Em.
  - split; [| done]. intros _ x Hx. destruct (decide (cached_at (overlap_of requested cs freshness) x)); [done |].
    exfalso. assert (covered [] x) as F by (rewrite <- Em; by apply Hm). by apply covered_nil in F.
  - split; [done |]. intros Hx. exfalso. apply Forall_cons_1 in Hn as [Hmw _].
    assert (covered (missing_ranges (overlap_of requested cs freshness)) (start m)) as F.
    { simpl. rewrite Em, covered_cons. left. unfold covers, range_wf in *. lia. }
    apply Hm in F as [F1 F2]. by apply F2, Hx.
Qed.

End Lookup.

(** The lookup reports nothing, or the stored ranges of one version that overlap. *)
Lemma lookup_shape `{PathCodec} now1 now2 now3 d key requested current_etag preloaded purpose o stale :
  find_cached_ranges now1 now2 now3 d key requested current_etag preloaded purpose = Ok (o, stale) ->
  o = all_missing requested \/
  exists m specs freshness,
    match preloaded with Some m => Some m | None => metadata_files d !! get_new_metadata_file_path key end = Some m /\
    o = overlap_of requested (to_cached_range m <$> specs) freshness /\
    Forall (fun r => stored d m key r /\ overlaps_request (start requested) (end_ requested) r) specs.
Proof.
  assert (Hfile : forall now m, match preloaded with Some m => Some m | None => get_metadata now d key end = Some m ->
    match preloaded with Some m => Some m | None => metadata_files d !! get_new_metadata_file_path key end = Some m).
  { intros now m E. destruct preloaded; [done |]. unfold get_metadata in E. destruct (metadata_files d !! _); [| done].
    simpl in E. by destruct (_ && _); simplify_eq. }
  unfold find_cached_ranges.
  destruct (match preloaded with Some m => Some m | None => get_metadata now1 d key end) as [m |] eqn:E1;
    [| intros [= <- <-]; by left].
  destruct (match current_etag with Some e => _ | None => _ end); [intros [= <- <-]; by left |].
  destruct (disk_find_cached_ranges now2 now3 d key _ _ preloaded purpose) as [l | |] eqn:Ed; [| done | done].
  apply disk_lookup_sound in Ed as [_ Hl]. simpl.
  destruct (ranges l) as [| r0 rs] eqn:El; intros [= <- <-]; [by left |]. right.
  destruct (match preloaded with Some m => Some m | None => get_metadata now2 d key end) as [m2 |] eqn:E2; [| done].
  apply Hfile in E1, E2. rewrite E1 in E2. injection E2 as <-. destruct Hl as (_ & _ & Hrs & _).
  by exists m, (r0 :: rs), (lookup_freshness l).
Qed.

(** Every range the lookup returns is stored for the version the metadata names. *)
Lemma lookup_cached_stored `{PathCodec} now1 now2 now3 d key requested current_etag preloaded purpose m o stale :
  match preloaded with Some m => Some m | None => metadata_files d !! get_new_metadata_file_path key end = Some m ->
  find_cached_ranges now1 now2 now3 d key requested current_etag preloaded purpose = Ok (o, stale) ->
  Forall (fun c => exists r, stored d m key r /\ c = to_cached_range m r) (cached_ranges o) /\
  (stale = true -> o = all_missing requested /\ exists e, current_etag = Some e /\ e <> om_etag (cm_object_metadata m)).
Proof.
  intros Hm Hf. unfold find_cached_ranges in Hf.
  assert (Hmeta : forall now m', match preloaded with Some m => Some m | None => get_metadata now d key end = Some m' ->
    m' = m).
  { intros now m' E. destruct preloaded; [congruence |]. unfold get_metadata in E. rewrite Hm in E. simpl in E.
    by destruct (_ && _); simplify_eq. }
  destruct (match preloaded with Some m => Some m | None => get_metadata now1 d key end) as [m1 |] eqn:E1.
  2: { injection Hf as <- <-. by split; [constructor |]. }
  apply Hmeta in E1 as ->. destruct (match current_etag with Some e => _ | None => _ end) eqn:Eetag.
  { injection Hf as <- <-. destruct current_etag as [e |]; [| done].
    apply negb_true_iff, bool_decide_eq_false in Eetag. split; [constructor | eauto]. }
  destruct (disk_find_cached_ranges now2 now3 d key _ _ preloaded purpose) as [l | |] eqn:Ed; [| done | done].
  simpl in Hf. apply disk_lookup_sound in Ed as [Hse Hl].
  destruct (ranges l) as [| r0 rs] eqn:El; injection Hf as <- <-; [by split; [constructor |] |].
  split; [| done].
  destruct (match preloaded with Some m => Some m | None => get_metadata now2 d key end) as [m2 |] eqn:E2; [| done].
  apply Hmeta in E2 as ->. destruct Hl as (_ & _ & Hrs & _).
  change (Forall (fun c => exists r, stored d m key r /\ c = to_cached_range m r) (to_cached_range m <$> r0 :: rs)).
  rewrite Forall_fmap. eapply Forall_impl; [exact Hrs |]. intros r [Hr _]. exists r. done.
Qed.

(** The metadata a lookup sees: what the caller gives it, or the file's unless the write it stages has expired. *)
Definition shown (now : Z) (preloaded : option NewCacheMetadata) (m : NewCacheMetadata) : Prop :=
  preloaded = Some m \/ om_is_write_cached (cm_object_metadata m) = false \/ is_write_cache_expired now (cm_object_metadata m) = false.

(** What the cache holds of the object's version: the ranges of its metadata whose file is named for the version and, when none of them
    overlaps the request, the ranges the journals of a shared cache add for it. *)
Definition holds_range `{PathCodec} (d : Disk) (m : NewCacheMetadata) (key : string) (requested : RangeSpec) (r : NewRangeSpec) : Prop :=
  let etag := om_etag (cm_object_metadata m) in
  let named r := range_file_belongs_to r (object_version_id etag) = true in
  named r /\
  (r ∈ cm_ranges m \/
   (shared_storage_mode d = true /\ journals_dir_exists d = true /\
    (forall r', r' ∈ cm_ranges m -> named r' -> ~ overlaps_request (start requested) (end_ requested) r') /\
    exists v, v ∈ journals d /\ pv_cache_key v = key /\ pv_operation v = Add /\ pv_range_spec v = r /\
      (pv_etag v = None \/ pv_etag v = Some etag))).

Lemma holds_range_candidate `{PathCodec} d m key requested r : holds_range d m key requested r ->
  r ∈ version_candidates m \/
  (Forall (fun r' => ~ overlaps_request (start requested) (end_ requested) r') (version_candidates m) /\
   shared_storage_mode d = true /\ journals_dir_exists d = true /\ r ∈ pending_candidates d key (om_etag (cm_object_metadata m))).
Proof.
  intros [Hn [Hr | (Hs & Hd & Hno & v & Hv & Hk & Ho & <- & He)]]; [left; by apply list_elem_of_filter |]. right. split_and!; [| done | done |].
  - apply Forall_forall. intros r' [Hb Hr']%list_elem_of_filter. by apply Hno.
  - unfold pending_candidates. apply list_elem_of_fmap_2, list_elem_of_filter. split_and!; [done | done | | done].
    rewrite Ho. cbn. rewrite Hn. cbn. destruct He as [-> | ->]; [done | by apply bool_decide_eq_true].
Qed.

Lemma metadata_seen `{PathCodec} now d key preloaded m :
  match preloaded with Some m => Some m | None => metadata_files d !! get_new_metadata_file_path key end = Some m ->
  (match preloaded with Some m => Some m | None => get_metadata now d key end = Some m <-> shown now preloaded m) /\
  forall m', match preloaded with Some m => Some m | None => get_metadata now d key end = Some m' -> m' = m.
Proof.
  intros Hm. unfold shown. destruct preloaded as [m' |]; [split; [naive_solver | congruence] |]. unfold get_metadata. rewrite Hm. cbn [mbind option_bind].
  destruct (om_is_write_cached _), (is_write_cache_expired _ _); cbn [andb]; split; naive_solver.
Qed.

(** The bytes a result may not miss. *)
Lemma lookup_complete `{PathCodec} now1 now2 now3 d key requested current_etag preloaded purpose m o stale :
  match preloaded with Some m => Some m | None => metadata_files d !! get_new_metadata_file_path key end = Some m ->
  find_cached_ranges now1 now2 now3 d key requested current_etag preloaded purpose = Ok (o, stale) ->
  shown now1 preloaded m -> shown now2 preloaded m -> (cm_expires_at m < now3 -> purpose = RevalidationCandidate) ->
  (forall e, current_etag = Some e -> e = om_etag (cm_object_metadata m)) ->
  forall r x, holds_range d m key requested r -> covers requested x -> holds_byte x r -> cached_at o x.
Proof.
  intros Hm Hf H1 H2 He Htag r x Hr%holds_range_candidate Hx Hh. unfold find_cached_ranges in Hf.
  rewrite (proj2 (proj1 (metadata_seen now1 d key preloaded m Hm)) H1) in Hf.
  replace (match current_etag with Some e => _ | None => _ end) with false in Hf
    by (destruct current_etag as [e |]; [rewrite (Htag e eq_refl), bool_decide_true by done |]; done).
  destruct (disk_find_cached_ranges now2 now3 d key _ _ preloaded purpose) as [l | |] eqn:Ed; [| done | done]. cbn in Hf.
  destruct (disk_lookup_complete _ _ _ _ _ _ _ _ _ m Ed (proj2 (proj1 (metadata_seen now2 d key preloaded m Hm)) H2) He r x Hr Hx Hh) as (r' & Hr' & Hh').
  destruct (ranges l) as [| r0 rs]; [by apply elem_of_nil in Hr' |]. injection Hf as <- _. unfold cached_at. apply Exists_exists.
  exists (to_cached_range m r'). split; [change (to_cached_range m r' ∈ (to_cached_range m <$> r0 :: rs)); apply (list_elem_of_fmap_2 (to_cached_range m)), Hr' | exact Hh'].
Qed.

(** On an ETag mismatch nothing is returned, and metadata that is shown is reported as stale. *)
Lemma lookup_mismatch `{PathCodec} now1 now2 now3 d key requested current_etag preloaded purpose m o stale :
  match preloaded with Some m => Some m | None => metadata_files d !! get_new_metadata_file_path key end = Some m ->
  find_cached_ranges now1 now2 now3 d key requested current_etag preloaded purpose = Ok (o, stale) ->
  ~ (forall e, current_etag = Some e -> e = om_etag (cm_object_metadata m)) ->
  cached_ranges o = [] /\ (shown now1 preloaded m -> stale = true).
Proof.
  intros Hm Hf Hno. unfold find_cached_ranges in Hf. destruct (metadata_seen now1 d key preloaded m Hm) as [Hs Hu].
  destruct (match preloaded with Some m => Some m | None => get_metadata now1 d key end) as [m1 |].
  - rewrite (Hu m1 eq_refl) in Hf. destruct current_etag as [e |]; [| by destruct Hno].
    rewrite bool_decide_false in Hf by (intros ->; apply Hno; by intros ? [= ->]). by injection Hf as <- <-.
  - injection Hf as <- <-. split; [done |]. by intros [=]%Hs.
Qed.

Lemma lookup_expired `{PathCodec} now1 now2 now3 d key requested current_etag preloaded m o stale :
  match preloaded with Some m => Some m | None => metadata_files d !! get_new_metadata_file_path key end = Some m ->
  find_cached_ranges now1 now2 now3 d key requested current_etag preloaded FreshServe = Ok (o, stale) ->
  cm_expires_at m < now3 -> cached_ranges o = [].
Proof.
  intros Hm Hf He. unfold find_cached_ranges in Hf.
  destruct (match preloaded with Some m => Some m | None => get_metadata now1 d key end) as [m1 |]; [| by injection Hf as <- _].
  destruct (match current_etag with Some e => _ | None => _ end); [by injection Hf as <- _ |].
  destruct (disk_find_cached_ranges now2 now3 d key _ _ preloaded FreshServe) as [l | |] eqn:Ed; [| done | done].
  apply disk_lookup_sound in Ed as [_ Hl]. cbn in Hf. destruct (metadata_seen now2 d key preloaded m Hm) as [_ Hu].
  destruct (match preloaded with Some m => Some m | None => get_metadata now2 d key end) as [m2 |].
  - rewrite (Hu m2 eq_refl) in Hl. destruct Hl as (Hex & _). rewrite (Hex He eq_refl) in Hf. by injection Hf as <- _.
  - rewrite Hl in Hf. by injection Hf as <- _.
Qed.

(** C30: a range lookup reports exactly what is cached, of the current version only.  For well-formed stored ranges and a request that ends
    before the last [u64], the missing ranges are the requested bytes no returned range holds, and the request is servable if and only
    if the returned ranges hold it; every returned range is stored for this key, in the metadata or as a pending addition, and its file is
    named for the version of the object's metadata.  A caller whose ETag is not the metadata's gets nothing, and learns that the copies are
    stale if the metadata is shown (a staged write past its expiry is not); a caller that would serve directly gets nothing of an entry past its
    expiry.  Otherwise no byte is missed: every requested byte that a range of the metadata holds, or, if none of these overlaps
    the request, that a pending range holds, is in a returned range. *)
Theorem range_lookup_correct `{PathCodec} now1 now2 now3 d key requested current_etag
    preloaded purpose m o stale :
  range_wf requested -> end_ requested < U64_MAX ->
  match preloaded with Some m => Some m | None => metadata_files d !! get_new_metadata_file_path key end = Some m ->
  (forall r, stored d m key r -> 0 <= nr_start r <= nr_end r /\ nr_end r < 2 ^ 64) ->
  find_cached_ranges now1 now2 now3 d key requested current_etag preloaded purpose = Ok (o, stale) ->
  let matches := forall e, current_etag = Some e -> e = om_etag (cm_object_metadata m) in
  exact_coverage requested o /\
  Forall (fun c => exists r, stored d m key r /\ c = to_cached_range m r) (cached_ranges o) /\
  (~ matches -> cached_ranges o = []) /\ (shown now1 preloaded m -> stale = true <-> ~ matches) /\
  (purpose = FreshServe -> cm_expires_at m < now3 -> cached_ranges o = []) /\
  (matches -> shown now1 preloaded m -> shown now2 preloaded m -> (cm_expires_at m < now3 -> purpose = RevalidationCandidate) ->
   forall r x, holds_range d m key requested r -> covers requested x -> holds_byte x r -> cached_at o x).
Proof.
  intros Hreq Hmax Hm Hst Hf matches.
  destruct (lookup_cached_stored _ _ _ _ _ _ _ _ _ _ _ _ Hm Hf) as [Hstored Hstale].
  assert (exact_coverage requested o) as Hcov.
  { destruct (lookup_shape _ _ _ _ _ _ _ _ _ _ _ Hf) as [-> | (m' & specs & f & Hm' & -> & Hs)]; [by apply all_missing_coverage |].
    apply overlap_of_coverage; [done | done |]. rewrite Hm in Hm'. injection Hm' as <-. rewrite Forall_fmap. eapply Forall_impl; [exact Hs |].
    intros r [Hr Ho]. split; [by apply Hst | exact Ho]. }
  split_and!; [done | done | | | | intros ????; by eapply lookup_complete].
  - intros Hno. by eapply lookup_mismatch.
  - intros H1. split; [intros (_ & e & -> & Hne)%Hstale Hall; by apply Hne, Hall |]. intros Hno. by eapply lookup_mismatch.
  - intros -> He. by eapply lookup_expired.
Qed.

(** ** Concrete lookups *)

#[local] Existing Instance sample_codec.
#[local] Instance stored_frames : FrameCodec := fun data => inr (data, []).

Definition sample_object_metadata (expires_at : Z) (rs : list NewRangeSpec) : NewCacheMetadata :=
  mkNewCacheMetadata "b/k/x" (ObjectMetadata_new "v1" "" 6 None) rs 0 expires_at
    (mkCompressionInfo NoCompression None None None) None None 0 None.

Definition sample_bytes : bytes := [Byte.x00; Byte.x01; Byte.x02; Byte.x03; Byte.x04; Byte.x05].

Definition sample_disk : Disk :=
  mkDisk true true {[ get_new_metadata_file_path "b/k/x" := sample_object_metadata 100 [sample_stored_range] ]} []
    {[ nr_file_path sample_stored_range := Readable sample_bytes ]}.

(** Expired metadata without a matching range, and the range in a journal: the
    lookup calls the journal's range fresh, and it is offered for serving. *)
Definition journal_only_disk : Disk :=
  mkDisk true true {[ get_new_metadata_file_path "b/k/x" := sample_object_metadata 0 [] ]}
    [mkView "b/k/x" Add sample_stored_range (Some "v1")]
    {[ nr_file_path sample_stored_range := Readable sample_bytes ]}.

Lemma journal_fallback_reports_fresh :
  is_object_expired 10 (sample_object_metadata 0 []) = true /\
  exists o, find_cached_ranges 10 10 10 journal_only_disk "b/k/x" (mkRange 0 5) None None RevalidationCandidate
              = Ok (o, false) /\ is_serveable_unvalidated o = true.
Proof. split; [reflexivity |]. eexists. split; vm_compute; reflexivity. Qed.

Lemma range_lookup_correct_witness :
  exists o, find_cached_ranges 10 10 10 sample_disk "b/k/x" (mkRange 1 4) (Some "v1") None FreshServe
              = Ok (o, false) /\ exact_coverage (mkRange 1 4) o /\ length (cached_ranges o) = 1%nat /\ cached_at o 2.
Proof.
  exists (overlap_of (mkRange 1 4) [to_cached_range (sample_object_metadata 100 [sample_stored_range]) sample_stored_range] CacheTypes.Fresh).
  split; [vm_compute; reflexivity |].
  edestruct (range_lookup_correct 10 10 10 sample_disk "b/k/x" (mkRange 1 4) (Some "v1") None FreshServe
           (sample_object_metadata 100 [sample_stored_range])) as (Hcov & _ & _ & _ & _ & Hall).
  - unfold range_wf. cbn. lia.
  - unfold U64_MAX. cbn. lia.
  - reflexivity.
  - intros r [[->%list_elem_of_singleton | (v & Hv%elem_of_nil & _)] _]; [cbn; lia | done].
  - vm_compute. reflexivity.
  - split; [exact Hcov |]. split; [reflexivity |]. apply (Hall ltac:(by intros e [= <-]) ltac:(right; left; reflexivity)
      ltac:(right; left; reflexivity) ltac:(cbn; lia) sample_stored_range).
    + split; [vm_compute; reflexivity | left; left].
    + unfold covers. cbn. lia.
    + unfold holds_byte. cbn. lia.
Defined.

End Disk.
