(* ===== verification/Frames.v ===== *)
(** * Frames on disk ([compression.rs])

    Every range is written as an LZ4 frame: compressed by the LZ4 library, or in
    store mode by [encode_store_mode_frame], which builds the frame itself.  The
    hash, the library's encoder and its decoder are parameters; [stored_frame] is
    the layout the frame format documents for a frame of stored blocks, and
    [FrameCodecLaws] says the decoder reads such frames and those of the encoder. *)

From S2P Require Import Prelude CacheTypes DiskRanges RustStr.

#[local] Open Scope Z_scope.

(** ** Little-endian words *)

Definition byte_of_Z (n : Z) : Byte.byte := default Byte.x00 (Byte.of_N (Z.to_N (n mod 256))).

Definition Z_of_byte (b : Byte.byte) : Z := Z.of_N (Byte.to_N b).

(** [u32::to_le_bytes]. *)
Definition to_le_bytes (n : Z) : bytes :=
  [byte_of_Z n; byte_of_Z (n / 256); byte_of_Z (n / 65536); byte_of_Z (n / 16777216)].

Definition from_le_bytes (a b c d : Byte.byte) : Z :=
  Z_of_byte a + 256 * Z_of_byte b + 65536 * Z_of_byte c + 16777216 * Z_of_byte d.

(** The first [n] elements and the rest; counting is in [Z] so that block sizes of
    millions stay small terms. *)
Fixpoint split_at {A} (n : Z) (l : list A) : list A * list A :=
  match l with
  | x :: l' => if 0 <? n then let '(a, b) := split_at (n - 1) l' in (x :: a, b) else ([], l)
  | [] => ([], [])
  end.

(** [slice::chunks]: the length of the slice is fuel enough. *)
Fixpoint chunks_loop {A} (fuel : nat) (n : Z) (l : list A) : list (list A) :=
  match l, fuel with
  | [], _ | _, O => []
  | _, S fuel => let '(a, b) := split_at n l in a :: chunks_loop fuel n b
  end.

Definition chunks {A} (n : Z) (l : list A) : list (list A) := chunks_loop (length l) n l.

(** ** Constants *)

Definition STORE_MODE_MAX_BLOCK_SIZE : Z := 4 * 1024 * 1024.
Definition BLOCK_UNCOMPRESSED_SIZE_BIT : Z := 0x80000000.
Definition LZ4F_MAGIC_NUMBER : Z := 0x184D2204.

(** [XxHash32] with seed 0, and the LZ4 library's frame encoder with independent
    blocks and a content checksum: a frame or an error message. *)
Class FrameEncoder := {
  xxh32 : bytes -> Z;
  lz4_frame : bytes -> string + bytes;
}.

Module Comp.

Section Encode.
Context `{FrameEncoder}.

Definition stored_block (chunk : bytes) : bytes :=
  to_le_bytes (Z.lor (zlen chunk mod 2 ^ 32) BLOCK_UNCOMPRESSED_SIZE_BIT) ++ chunk.

Definition frame_header : bytes :=
  let flg := byte_of_Z (Z.lor (Z.lor 64 32) 4) in
  let bd := byte_of_Z (Z.shiftl 7 4) in
  let header_checksum := byte_of_Z (Z.shiftr (xxh32 [flg; bd]) 8) in
  to_le_bytes LZ4F_MAGIC_NUMBER ++ [flg; bd; header_checksum].

Definition encode_store_mode_frame (data : bytes) : Result bytes :=
  Ok (frame_header
      ++ concat (stored_block <$> chunks (Z.max STORE_MODE_MAX_BLOCK_SIZE 1) data)
      ++ to_le_bytes 0 ++ to_le_bytes (xxh32 data)).

(** ** The handler *)

Record CompressionStats := mkStats {
  total_objects_compressed : Z;
  total_objects_uncompressed : Z;
  total_bytes_before : Z;
  total_bytes_after : Z;
  compression_failures : Z;
}.

Record CompressionResult := mkResult {
  data : bytes;
  algorithm : CompressionAlgorithm;
  original_size : Z;
  compressed_size : Z;
  was_compressed : bool;
}.

Definition count_uncompressed (s : CompressionStats) : CompressionStats :=
  mkStats (total_objects_compressed s) (u64_add (total_objects_uncompressed s) 1)
    (total_bytes_before s) (total_bytes_after s) (compression_failures s).

Definition count_failure (s : CompressionStats) : CompressionStats :=
  mkStats (total_objects_compressed s) (total_objects_uncompressed s)
    (total_bytes_before s) (total_bytes_after s) (u64_add (compression_failures s) 1).

Definition count_compressed (before after : Z) (s : CompressionStats) : CompressionStats :=
  mkStats (u64_add (total_objects_compressed s) 1) (total_objects_uncompressed s)
    (u64_add (total_bytes_before s) before) (u64_add (total_bytes_after s) after) (compression_failures s).

Definition compress_with_algorithm (d : bytes) (alg : CompressionAlgorithm) (s : CompressionStats)
    : CompressionStats * Result CompressionResult :=
  match alg with
  | Lz4 =>
      match lz4_frame d with
      | inl error => (s, Err (CompressionError error))
      | inr frame => (count_compressed (zlen d) (zlen frame) s,
                      Ok (mkResult frame Lz4 (zlen d) (zlen frame) true))
      end
  | NoCompression => (s, Ok (mkResult d NoCompression (zlen d) (zlen d) false))
  end.

Definition compress_with_metadata (d : bytes) (should_compress : bool) (s : CompressionStats)
    : CompressionStats * CompressionResult :=
  if negb should_compress then
    match encode_store_mode_frame d with
    | Ok frame => (count_uncompressed s, mkResult frame Lz4 (zlen d) (zlen frame) false)
    | _ => (count_uncompressed (count_failure s), mkResult d NoCompression (zlen d) (zlen d) false)
    end
  else
    match compress_with_algorithm d Lz4 s with
    | (s, Ok result) => (s, result)
    | (s, _) =>
        let s := count_failure s in
        match encode_store_mode_frame d with
        | Ok frame => (s, mkResult frame Lz4 (zlen d) (zlen frame) false)
        | _ => (count_uncompressed s, mkResult d Lz4 (zlen d) (zlen d) false)
        end
    end.

(** ** The extension denylist *)

Definition extract_file_extension (path : string) : string :=
  match last (split_char "/" path) with
  | Some segment => match rsplit_once "." segment with
                    | Some (_, ext) => to_lowercase ext
                    | None => ""
                    end
  | None => ""
  end.

Definition is_already_compressed_format (extension : string) : bool :=
  existsb (fun e => bool_decide (e = extension))
    ["jpg"; "jpeg"; "png"; "gif"; "webp"; "avif"; "heic"; "heif";
     "mp4"; "avi"; "mkv"; "mov"; "wmv"; "flv"; "webm"; "m4v";
     "mp3"; "aac"; "ogg"; "flac"; "m4a"; "wma"; "opus";
     "zip"; "rar"; "7z"; "gz"; "bz2"; "xz"; "lz4"; "zst"; "tgz";
     "pdf"; "docx"; "xlsx"; "pptx"; "odt"; "ods"; "odp";
     "apk"; "ipa"; "jar"; "war"; "ear"; "woff"; "woff2"; "sqlite"; "db";
     "exe"; "msi"; "dmg"; "pkg"]%string.

Definition is_denylisted_extension (path : string) : bool :=
  is_already_compressed_format (extract_file_extension path).

(** ** The frame format *)

(** A frame of stored blocks for [d] as the format documents it: the magic number,
    the descriptor and its checksum, blocks of at most the declared size, none of
    them empty, each after its size with the high bit set, the end mark, and the
    checksum of the content. *)
Definition stored_frame (d frame : bytes) : Prop :=
  exists blocks,
    Forall (fun b => 0 < zlen b <= STORE_MODE_MAX_BLOCK_SIZE) blocks /\ concat blocks = d /\
    frame = frame_header
            ++ concat ((fun b => to_le_bytes (2 ^ 31 + zlen b) ++ b) <$> blocks)
            ++ to_le_bytes 0 ++ to_le_bytes (xxh32 d).

End Encode.

(** What the decoder documents: it reads a frame of stored blocks, and what the
    library's own encoder wrote, and stops after it. *)
Class FrameCodecLaws `{FrameEncoder} `{FrameCodec} : Prop := {
  decode_stored d frame rest : stored_frame d frame -> decode_frame (frame ++ rest) = inr (d, rest);
  decode_lz4 d frame rest : lz4_frame d = inr frame -> decode_frame (frame ++ rest) = inr (d, rest);
  lz4_frame_nonempty d frame : lz4_frame d = inr frame -> frame <> [];
}.

(** ** Facts *)

Lemma split_at_spec {A} n (l : list A) :
  let '(a, b) := split_at n l in
  l = a ++ b /\ zlen a <= Z.max n 0 /\ (0 < n -> l <> [] -> 0 < zlen a /\ (length b < length l)%nat).
Proof.
  revert n. induction l as [| x l IH]; intros n; cbn [split_at].
  { rewrite zlen_nil. split_and!; [done | lia | done]. }
  bsplit_goal.
  - specialize (IH (n - 1)). destruct (split_at (n - 1) l) as [a b]. destruct IH as (-> & Hl & _).
    rewrite zlen_cons. split_and!; [done | lia |]. intros _ _. split; [pose proof (zlen_nonneg a); lia |].
    cbn. rewrite length_app. lia.
  - rewrite zlen_nil. split_and!; [done | lia | lia].
Qed.

Lemma chunks_loop_spec {A} fuel n (l : list A) :
  0 < n -> (length l <= fuel)%nat ->
  concat (chunks_loop fuel n l) = l /\ Forall (fun c => 0 < zlen c <= n) (chunks_loop fuel n l).
Proof.
  intros Hn. revert l. induction fuel as [| fuel IH]; intros [| x l] Hl; cbn [chunks_loop]; try (by split).
  { cbn in Hl. lia. }
  pose proof (split_at_spec n (x :: l)) as Hs. destruct (split_at n (x :: l)) as [a b].
  destruct Hs as (E & Ha & Hb). destruct (Hb Hn ltac:(done)) as [H0 Hlt].
  destruct (IH b) as [Ec Hf]; [cbn in *; lia |]. split; [cbn; by rewrite Ec |]. constructor; [lia | done].
Qed.

Lemma chunks_spec {A} n (l : list A) :
  0 < n -> concat (chunks n l) = l /\ Forall (fun c => 0 < zlen c <= n) (chunks n l).
Proof. intros Hn. by apply chunks_loop_spec. Qed.

Section Roundtrip.
Context `{FrameEncoder}.

Lemma block_word len :
  0 <= len <= STORE_MODE_MAX_BLOCK_SIZE -> Z.lor (len mod 2 ^ 32) BLOCK_UNCOMPRESSED_SIZE_BIT = 2 ^ 31 + len.
Proof.
  unfold STORE_MODE_MAX_BLOCK_SIZE, BLOCK_UNCOMPRESSED_SIZE_BIT. intros Hl. rewrite Z.mod_small by lia.
  rewrite Z.lor_comm. symmetry. rewrite Z.add_nocarry_lxor; [apply Z.lxor_lor |];
    (apply Z.bits_inj'; intros i Hi; rewrite Z.land_spec, Z.bits_0;
     change 0x80000000 with (2 ^ 31); rewrite Z.pow2_bits_eqb by lia;
     destruct (Z.eqb_spec 31 i) as [<- |]; [| done];
     rewrite Z.bits_above_log2; [done | lia | destruct (decide (len = 0)) as [-> |]; [done |];
       apply Z.log2_lt_pow2; lia]).
Qed.

(** Store mode writes the frame the format documents. *)
Lemma encode_store_mode_frame_format d :
  exists frame, encode_store_mode_frame d = Ok frame /\ stored_frame d frame.
Proof.
  eexists. split; [done |]. change (Z.max STORE_MODE_MAX_BLOCK_SIZE 1) with STORE_MODE_MAX_BLOCK_SIZE.
  destruct (chunks_spec STORE_MODE_MAX_BLOCK_SIZE d ltac:(done)) as [Ec Hf].
  exists (chunks STORE_MODE_MAX_BLOCK_SIZE d). split_and!; [done | done |]. do 3 f_equal.
  apply list_fmap_ext. intros i c Hc. rewrite Forall_lookup in Hf. specialize (Hf i c Hc).
  unfold stored_block. by rewrite block_word by lia.
Qed.

Context `{FrameCodec} `{!FrameCodecLaws}.

Lemma decode_single frame d : d <> [] -> frame <> [] -> (forall rest, decode_frame (frame ++ rest) = inr (d, rest)) ->
  decompress_data frame = Ok d.
Proof.
  intros Hd Hf Hr. specialize (Hr []). rewrite app_nil_r in Hr. unfold decompress_data.
  destruct frame as [| b frame]; [done |]. cbn [length decompress_loop]. rewrite Hr.
  destruct d as [| x d]; [done |]. by destruct (length frame).
Qed.

Lemma stored_frame_nonempty d frame : stored_frame d frame -> frame <> [].
Proof. by intros (blocks & _ & _ & ->). Qed.

(** The frame of a compression: one frame that decodes to the data. *)
Lemma compress_with_metadata_frame d b s :
  let '(_, r) := compress_with_metadata d b s in
  algorithm r = Lz4 /\ original_size r = zlen d /\ compressed_size r = zlen (data r) /\ data r <> [] /\
  forall rest, decode_frame (data r ++ rest) = inr (d, rest).
Proof.
  destruct (encode_store_mode_frame_format d) as (frame & E & Hf).
  pose proof (stored_frame_nonempty d frame Hf). pose proof (fun rest => decode_stored d frame rest Hf).
  unfold compress_with_metadata. destruct b; cbn [negb]; [| by rewrite E].
  unfold compress_with_algorithm. destruct (lz4_frame d) as [e | frame'] eqn:El; [by rewrite E |].
  cbn. split_and!; try done; [by eapply lz4_frame_nonempty |]. intros rest. by apply decode_lz4.
Qed.

End Roundtrip.

(** What the compressor writes, the decompressor reads back.  Whether the bytes
    are compressed, stored because compression is off or stored because the
    compressor failed, the result is tagged with the algorithm that decodes it, its
    sizes are right, and decoding returns the bytes. *)
Theorem compression_roundtrip `{FrameEncoder} `{FrameCodec} `{!FrameCodecLaws} d should_compress s :
  d <> [] ->
  let '(_, r) := compress_with_metadata d should_compress s in
  decompress_with_algorithm (data r) (algorithm r) = Ok d /\
  algorithm r = Lz4 /\ original_size r = zlen d /\ compressed_size r = zlen (data r).
Proof.
  intros Hd. pose proof (compress_with_metadata_frame d should_compress s) as Hr.
  destruct (compress_with_metadata d should_compress s) as [s' r]. destruct Hr as (Ha & Ho & Hc & Hn & Hdec).
  split_and!; try done. rewrite Ha. cbn. by apply decode_single.
Qed.

(** ** A decoder for frames of stored blocks *)

Fixpoint read_blocks (fuel : nat) (acc data : bytes) : string + bytes * bytes :=
  match fuel, data with
  | S fuel, a :: b :: c :: d :: rest =>
      let word := from_le_bytes a b c d in
      if word =? 0 then
        match rest with
        | _ :: _ :: _ :: _ :: rest => inr (acc, rest)
        | _ => inl "truncated checksum"%string
        end
      else let '(block, rest) := split_at (word - 2 ^ 31) rest in
           read_blocks fuel (acc ++ block) rest
  | _, _ => inl "truncated frame"%string
  end.

Definition read_stored_frame (data : bytes) : string + bytes * bytes :=
  read_blocks (length data) [] (drop 7 data).

Lemma Z_of_byte_of_Z n : Z_of_byte (byte_of_Z n) = n mod 256.
Proof.
  unfold Z_of_byte, byte_of_Z. pose proof (Z.mod_pos_bound n 256 ltac:(lia)) as Hb.
  set (m := n mod 256) in *. clearbody m.
  destruct (Byte.of_N (Z.to_N m)) as [b |] eqn:E.
  - apply Byte.to_of_N in E. cbn. rewrite E. lia.
  - exfalso. apply Byte.of_N_None_iff in E. lia.
Qed.

Lemma le_bytes_roundtrip n :
  0 <= n < 2 ^ 32 ->
  from_le_bytes (byte_of_Z n) (byte_of_Z (n / 256)) (byte_of_Z (n / 65536)) (byte_of_Z (n / 16777216)) = n.
Proof.
  intros Hn. unfold from_le_bytes. rewrite !Z_of_byte_of_Z.
  replace (n / 65536) with (n / 256 / 256) by (rewrite Z.div_div by lia; done).
  replace (n / 16777216) with (n / 256 / 256 / 256) by (rewrite !Z.div_div by lia; done).
  pose proof (Z.div_mod n 256 ltac:(lia)). pose proof (Z.div_mod (n / 256) 256 ltac:(lia)).
  pose proof (Z.div_mod (n / 256 / 256) 256 ltac:(lia)).
  rewrite (Z.mod_small (n / 256 / 256 / 256) 256); [lia |].
  rewrite !Z.div_div by lia. split; [apply Z.div_pos; lia | apply Z.div_lt_upper_bound; lia].
Qed.

Lemma split_at_app {A} (a b : list A) : split_at (zlen a) (a ++ b) = (a, b).
Proof.
  induction a as [| x a IH]; cbn [split_at app].
  - by destruct b.
  - rewrite zlen_cons. pose proof (zlen_nonneg a). bsplit_goal; [| lia].
    replace (zlen a + 1 - 1) with (zlen a) by lia. by rewrite IH.
Qed.

Lemma read_blocks_spec fuel acc blocks tail rest :
  Forall (fun b => 0 < zlen b <= STORE_MODE_MAX_BLOCK_SIZE) blocks -> length tail = 4%nat ->
  (length blocks < fuel)%nat ->
  read_blocks fuel acc
    (concat ((fun b => to_le_bytes (2 ^ 31 + zlen b) ++ b) <$> blocks) ++ to_le_bytes 0 ++ tail ++ rest)
    = inr (acc ++ concat blocks, rest).
Proof.
  intros Hb Ht. revert fuel acc. induction Hb as [| b blocks Hlen Hb IH]; intros [| fuel] acc Hf; try (cbn in Hf; lia).
  - cbn [fmap list_fmap concat app read_blocks to_le_bytes]. rewrite le_bytes_roundtrip by lia.
    destruct tail as [| t1 [| t2 [| t3 [| t4 [|]]]]]; try done. cbn. by rewrite app_nil_r.
  - cbn [fmap list_fmap concat app read_blocks to_le_bytes].
    unfold STORE_MODE_MAX_BLOCK_SIZE in Hlen. rewrite le_bytes_roundtrip by lia.
    bsplit_goal; [lia |]. replace (2 ^ 31 + zlen b - 2 ^ 31) with (zlen b) by lia.
    rewrite <- app_assoc, split_at_app. setoid_rewrite IH; [| cbn in Hf; lia]. by rewrite <- app_assoc.
Qed.

#[local] Instance stored_only : FrameEncoder := {| xxh32 _ := 0; lz4_frame _ := inl "compressor disabled"%string |}.

Definition stored_reader : FrameCodec := read_stored_frame.

Lemma stored_reader_laws : @FrameCodecLaws stored_only stored_reader.
Proof.
  split; [| done | done]. intros d frame rest (blocks & Hb & <- & ->).
  unfold decode_frame, stored_reader, read_stored_frame.
  rewrite <- !app_assoc. change (drop 7 (frame_header ++ ?l)) with l.
  apply (read_blocks_spec _ [] blocks); [done | done |].
  rewrite !length_app. assert (length blocks <= length (concat ((fun b => to_le_bytes (2 ^ 31 + zlen b) ++ b) <$> blocks)))%nat.
  { clear. induction blocks as [| b blocks IH]; cbn [fmap list_fmap concat length]; [done |].
    rewrite !length_app. cbn [to_le_bytes length]. lia. }
  cbn [to_le_bytes length]. lia.
Qed.

Lemma compression_roundtrip_witness :
  let '(_, r) := compress_with_metadata [Byte.x01; Byte.x02] true (mkStats 0 0 0 0 0) in
  @decompress_with_algorithm stored_reader (data r) (algorithm r) = Ok [Byte.x01; Byte.x02] /\
  compressed_size r = 21.
Proof.
  destruct (@compression_roundtrip stored_only stored_reader stored_reader_laws [Byte.x01; Byte.x02] true
    (mkStats 0 0 0 0 0) ltac:(done)) as (Hd & _). split; [exact Hd | reflexivity].
Defined.

End Comp.
