(* ===== verification/CacheTier.v ===== *)
(** * The two cache tiers ([CacheManager] in [cache.rs])

    [load_range_data_with_cache]: RAM first, then disk with promotion of the
    stored frame to RAM; the invalidation of a key's RAM entries; and the range
    lookup with the invalidation an ETag mismatch triggers.  The tier implements
    the interface the range merge is proved against.  The per-bucket setting that
    makes an object eligible for RAM, the clock, lock contention and whether the
    file system lets a file be removed are parameters. *)

From S2P Require Import Prelude CacheTypes Ranges RangeMerge Maps RamCache MetadataCache InflightTracker.
From S2P Require Import DiskPaths DiskRanges RustStr.

#[local] Open Scope Z_scope.
#[local] Arguments String.append : simpl nomatch.

Definition generate_ram_range_key (cache_key : string) (start_ end_ : Z) (etag : string) : string :=
  cache_key +:+ ":range:" +:+ u64_to_string start_ +:+ ":" +:+ u64_to_string end_ +:+ ":" +:+ etag.

Record CacheManager := mkManager {
  ram_cache_enabled : bool;
  ram_cache : option Ram.ShardedRamCache;
  disk : Disk.Disk;
  metadata_cache : MetaCache.MetadataCache;
  stat_ram_cache_size : Z;
  ticks : nat;
}.

(** The [n]-th reading of the clock in nanoseconds, whether the [n]-th optional
    lock is contended, the resolved bucket setting, and whether a file can be
    removed. *)
Class TierEnv := {
  clock : nat -> Z;
  contended : nat -> bool;
  ram_cache_eligible : string -> bool;
  removable : string -> bool;
}.

Section Tier.
Context `{Ram.Platform} `{HashIter} `{PathCodec} `{FrameCodec} `{TierEnv}.

Definition set_ram (st : CacheManager) (c : Ram.ShardedRamCache) : CacheManager :=
  mkManager (ram_cache_enabled st) (Some c) (disk st) (metadata_cache st) (stat_ram_cache_size st) (ticks st).

Definition tick (st : CacheManager) : CacheManager :=
  mkManager (ram_cache_enabled st) (ram_cache st) (disk st) (metadata_cache st) (stat_ram_cache_size st)
    (S (ticks st)).

Definition now_ns (st : CacheManager) : Z := clock (ticks st).

Definition now_ms (st : CacheManager) : Z := clock (ticks st) / 1000000.

(** [None] is an out-of-range shard index. *)
Definition ram_get (k : string) (st : CacheManager) : option (CacheManager * option Ram.RamCacheRead) :=
  if ram_cache_enabled st then
    match ram_cache st with
    | Some c =>
        '(c', r) ← Ram.get (now_ms st) (contended (ticks st)) c k;
        Some (tick (set_ram st c'), r)
    | None => Some (st, None)
    end
  else Some (st, None).

(** The bytes of a RAM entry: frames are decoded, raw entries returned as they are. *)
Definition ram_read_data (rd : Ram.RamCacheRead) : Result bytes :=
  if Ram.rd_compressed rd
  then decompress_with_algorithm (Ram.rd_data rd) (Ram.rd_compression_algorithm rd)
  else Ok (Ram.rd_data rd).

Definition update_ram_cache_hit_statistics (st : CacheManager) : CacheManager :=
  match ram_cache st with
  | Some c => mkManager (ram_cache_enabled st) (ram_cache st) (disk st) (metadata_cache st)
                (Ram.st_current_size (Ram.stats c)) (ticks st)
  | None => st
  end.

(** The entry a promotion stores: the frame as it is on disk. *)
Definition promoted_entry (st : CacheManager) (k : string) (range : Range) (len : Z) (frame : bytes)
    (algorithm : CompressionAlgorithm) : Ram.RamCacheEntry :=
  Ram.mkRamEntry k frame
    (Ram.mkCacheMetadata (r_etag range) (r_last_modified range) len None None 0 (clock (S (ticks st))))
    (clock (S (S (ticks st)))) (now_ms st) 1 true algorithm.

Definition promote (key : string) (range : Range) (len : Z) (st : CacheManager) : option CacheManager :=
  let k := generate_ram_range_key key (r_start range) (r_end range) (r_etag range) in
  if ram_cache_enabled st && ram_cache_eligible key then
    match Disk.load_range_frame_from_new_storage (now_ns st) (disk st) key range with
    | Ok (frame, algorithm) =>
        let st := tick st in
        match ram_cache st with
        | Some c =>
            c' ← Ram.put (fun i => clock (ticks st + 3 + i) / 1000000)
                   c (promoted_entry st k range len frame algorithm);
            Some (tick (tick (tick (set_ram st c'))))
        | None => Some st
        end
    | Err _ => Some (tick st)
    | Panic => None
    end
  else Some st.

#[export] Instance two_tier : RangeTier CacheManager := fun key range st =>
  let k := generate_ram_range_key key (r_start range) (r_end range) (r_etag range) in
  match ram_get k st with
  | None => (st, Panic)
  | Some (st, Some rd) =>
      match ram_read_data rd with
      | Ok data => (update_ram_cache_hit_statistics st, Ok (data, true))
      | Err e => (st, Err e)
      | Panic => (st, Panic)
      end
  | Some (st, None) =>
      match Disk.load_range_data_from_new_storage (now_ns st) (disk st) key range with
      | Ok data =>
          match promote key range (zlen data) (tick st) with
          | Some st => (st, Ok (data, false))
          | None => (st, Panic)
          end
      | Err e => (tick st, Err e)
      | Panic => (tick st, Panic)
      end
  end.

(** ** Invalidation *)

Definition invalidate_ram_ranges (key : string) (st : CacheManager) : option CacheManager :=
  if negb (ram_cache_enabled st) then Some st else
  match ram_cache st with
  | None => Some st
  | Some c =>
      c ← Ram.invalidate c key;
      Some (set_ram st (Ram.invalidate_by_prefix c (key +:+ ":range:")).1)
  end.

(** What an ETag mismatch does: the disk copy, the RAM ranges and the metadata
    snapshot go. *)
Definition invalidate_stale (key : string) (st : CacheManager) : option CacheManager :=
  let st := mkManager (ram_cache_enabled st) (ram_cache st)
              (Disk.invalidate_all_ranges removable (now_ns (tick st)) (disk st) key)
              (metadata_cache st) (stat_ram_cache_size st) (S (S (ticks st))) in
  st ← invalidate_ram_ranges key st;
  Some (mkManager (ram_cache_enabled st) (ram_cache st) (disk st)
          (MetaCache.invalidate key (metadata_cache st)) (stat_ram_cache_size st) (ticks st)).

(** [RangeHandler::find_cached_ranges] with its effects. *)
Definition find_cached_ranges (key : string) (requested : RangeSpec) (current_etag : option string)
    (preloaded : option NewCacheMetadata) (purpose : RangeLookupPurpose)
    : stM CacheManager ProxyError RangeOverlap := fun st =>
  match Disk.find_cached_ranges (now_ns st) (now_ns (tick st)) (now_ns (tick (tick st))) (disk st) key
          requested current_etag preloaded purpose with
  | Ok (o, true) =>
      match invalidate_stale key st with Some st => (st, Ok o) | None => (st, Panic) end
  | Ok (o, false) => (tick (tick (tick st)), Ok o)
  | Err e => (tick (tick (tick st)), Err e)
  | Panic => (st, Panic)
  end.

(** ** RAM keys *)

Definition ram_key (key : string) (r : Range) : string :=
  generate_ram_range_key key (r_start r) (r_end r) (r_etag r).

(** The ranges a RAM key identifies: the ETag has no colon. *)
Definition range_ok (r : Range) : Prop :=
  Tracker.colon_free (r_etag r) /\ 0 <= r_start r <= r_end r /\ r_end r < U64_MAX.

Lemma ram_key_inj key r key' r' :
  range_ok r -> range_ok r' -> ram_key key r = ram_key key' r' ->
  key = key' /\ r_start r = r_start r' /\ r_end r = r_end r' /\ r_etag r = r_etag r'.
Proof.
  intros (He & Hr & Hm) (He' & Hr' & Hm') E. unfold U64_MAX in *.
  assert (Hn : forall n, 0 <= n -> all_chars (fun a => negb (ascii_eqb a ":")) (u64_to_string n) = true)
    by (intros n Hn; apply plain_no_sep; [done | by apply u64_to_string_plain]).
  assert (Hk : forall key s e t, generate_ram_range_key key s e t =
    (((key +:+ ":range") +:+ String ":" (u64_to_string s)) +:+ String ":" (u64_to_string e)) +:+ String ":" t)
    by (intros; unfold generate_ram_range_key; rewrite <- !string_app_assoc; done).
  unfold ram_key in E. rewrite !Hk in E.
  apply app_sep_inj_r in E as [E Et]; [| done | done].
  apply app_sep_inj_r in E as [E Ee]; [| apply Hn; lia | apply Hn; lia].
  apply app_sep_inj_r in E as [E Es]; [| apply Hn; lia | apply Hn; lia].
  apply string_app_inj_r in E. apply u64_to_string_inj in Ee, Es; unfold is_u64; try lia. done.
Qed.

Lemma ram_key_prefix key r : starts_with (key +:+ ":range:") (ram_key key r) = true.
Proof.
  apply starts_with_spec. unfold ram_key, generate_ram_range_key. eexists. by rewrite <- !string_app_assoc.
Qed.

(** ** The disk side *)

Definition listed (d : Disk.Disk) (key : string) (r : NewRangeSpec) : Prop :=
  (exists m, Disk.metadata_files d !! get_new_metadata_file_path key = Some m /\ r ∈ cm_ranges m) \/
  (exists v, v ∈ Disk.journals d /\ Disk.pv_cache_key v = key /\ Disk.pv_operation v = Disk.Add /\ Disk.pv_range_spec v = r).

Lemma find_range_spec_Ok now d key range spec :
  r_start range <= r_end range -> Disk.find_range_spec now d key range = Ok spec ->
  nr_start spec = r_start range /\ nr_end spec = r_end range /\ listed d key spec /\
  range_file_belongs_to spec (object_version_id (r_etag range)) = true.
Proof.
  intros Hr. unfold Disk.find_range_spec.
  destruct (Disk.get_metadata now d key) as [m |] eqn:Em.
  - assert (Hm : Disk.metadata_files d !! get_new_metadata_file_path key = Some m).
    { unfold Disk.get_metadata in Em. destruct (Disk.metadata_files d !! _); [| done]. simpl in Em.
      by destruct (_ && _); simplify_eq. }
    destruct (negb _); [done |]. simpl.
    destruct (List.find _ (cm_ranges m)) as [s |] eqn:Ef.
    + intros [= <-]. apply List.find_some in Ef as [Hin Ef]. apply list_elem_of_In in Hin.
      rewrite !andb_true_iff, !Z.eqb_eq in Ef. destruct Ef as [[? ?] ?]. split_and!; try done. left. eauto.
    + destruct (List.find _ (Disk.find_pending_journal_ranges _ _ _ _ _)) as [s |] eqn:Ej; [| done].
      intros [= <-]. apply List.find_some in Ej as [Hin Ej]. apply list_elem_of_In in Hin.
      rewrite !andb_true_iff, !Z.eqb_eq in Ej. apply Disk.journal_ranges_elem in Hin as [_ Hin]; [| done].
      apply Disk.pending_candidates_elem in Hin as [Hl Hb]. split_and!; try tauto. by right.
  - simpl. destruct (List.find _ (Disk.find_pending_journal_ranges _ _ _ _ _)) as [s |] eqn:Ej; [| done].
    intros [= <-]. apply List.find_some in Ej as [Hin Ej]. apply list_elem_of_In in Hin.
    rewrite !andb_true_iff, !Z.eqb_eq in Ej. apply Disk.journal_ranges_elem in Hin as [_ Hin]; [| done].
    apply Disk.pending_candidates_elem in Hin as [Hl Hb]. split_and!; try tauto. by right.
Qed.

Lemma load_frame_Ok now d key range frame algorithm :
  Disk.load_range_frame_from_new_storage now d key range = Ok (frame, algorithm) ->
  exists spec, Disk.find_range_spec now d key range = Ok spec /\
    Disk.range_files d !! nr_file_path spec = Some (Disk.Readable frame) /\
    algorithm = nr_compression_algorithm spec.
Proof.
  unfold Disk.load_range_frame_from_new_storage. destruct (Disk.find_range_spec now d key range) as [spec | |]; try done.
  unfold mbind, outcome_bind, Disk.read_range_frame, Disk.servable_range_path.
  destruct (negb (is_safe_relative_file_path _)); [done |]. destruct (negb (range_file_belongs_to _ _)); [done |].
  simpl. destruct (Disk.range_files d !! nr_file_path spec) as [[f |] |] eqn:Ef; [| done | done].
  intros [= <- <-]. eauto.
Qed.

Lemma load_frame_no_panic now d key range :
  Disk.load_range_frame_from_new_storage now d key range <> Panic.
Proof.
  unfold Disk.load_range_frame_from_new_storage, Disk.find_range_spec, Disk.read_range_frame, Disk.servable_range_path.
  repeat (case_match || simpl); try done; simplify_eq.
Qed.

Lemma load_data_Ok now d key range data :
  Disk.load_range_data_from_new_storage now d key range = Ok data ->
  exists spec frame, Disk.find_range_spec now d key range = Ok spec /\
    Disk.range_files d !! nr_file_path spec = Some (Disk.Readable frame) /\
    decompress_with_algorithm frame (nr_compression_algorithm spec) = Ok data /\
    Disk.load_range_frame_from_new_storage now d key range = Ok (frame, nr_compression_algorithm spec).
Proof.
  unfold Disk.load_range_data_from_new_storage, Disk.load_range_frame_from_new_storage.
  destruct (Disk.find_range_spec now d key range) as [spec | |]; try done.
  unfold mbind, outcome_bind, Disk.read_range_data, Disk.read_range_frame, Disk.servable_range_path.
  destruct (negb (is_safe_relative_file_path _)); [done |]. destruct (negb (range_file_belongs_to _ _)); [done |].
  simpl. destruct (Disk.range_files d !! nr_file_path spec) as [[f |] |] eqn:Ef; [| done | done]. simpl.
  destruct (decompress_with_algorithm f _) as [x | |] eqn:Ed; [| done | done]. simpl.
  destruct (negb _); [done |]. destruct (negb _); [done |]. intros [= <-]. exists spec, f. done.
Qed.

(** ** What one load does *)

Definition ram_view (st : CacheManager) (k : string) : option Ram.RamCacheRead :=
  c ← ram_cache st; Ram.view c k.

Definition ram_sound (st : CacheManager) : Prop := forall c, ram_cache st = Some c -> Ram.cache_ok c.

(** A frame of the range at one of its places on disk, as a RAM entry shows it. *)
Definition frame_view (d : Disk.Disk) (key : string) (r : Range) (rd : Ram.RamCacheRead) : Prop :=
  exists now frame algorithm,
    Disk.load_range_frame_from_new_storage now d key r = Ok (frame, algorithm) /\
    Ram.rd_data rd = frame /\ Ram.rd_compressed rd = true /\ Ram.rd_compression_algorithm rd = algorithm.

(** From [st] to [st'] the RAM tier only lost entries, or gained the frame of [r]. *)
Definition ram_step (key : string) (r : Range) (st st' : CacheManager) : Prop :=
  ram_cache_enabled st' = ram_cache_enabled st /\ disk st' = disk st /\ ram_sound st' /\
  forall k, ram_view st' k = ram_view st k \/ ram_view st' k = None \/
    (k = ram_key key r /\ exists rd, ram_view st' k = Some rd /\ frame_view (disk st) key r rd).

Lemma ram_get_spec k st :
  ram_sound st ->
  exists st', ram_get k st = Some (st', if ram_cache_enabled st then ram_view st k else None) /\
    ram_cache_enabled st' = ram_cache_enabled st /\ disk st' = disk st /\ ram_sound st' /\
    forall k', ram_view st' k' = ram_view st k'.
Proof.
  intros Hs. unfold ram_get, ram_view, ram_sound in *. destruct (ram_cache_enabled st) eqn:Ee; [| by exists st].
  destruct (ram_cache st) as [c |] eqn:Ec; simpl; [| exists st; rewrite Ec; done].
  destruct (Ram.get_view (now_ms st) (contended (ticks st)) c k (Hs c eq_refl)) as (c' & -> & Hok & Hv). simpl.
  eexists. split; [done |]. simpl. split_and!; [done | done | | done]. by intros c'' [= <-].
Qed.

Lemma promote_spec key r len st :
  ram_sound st -> exists st', promote key r len st = Some st' /\ ram_step key r st st'.
Proof.
  intros Hs. unfold promote, ram_step.
  destruct (ram_cache_enabled st && ram_cache_eligible key) eqn:Eb; [| exists st; eauto 10].
  destruct (Disk.load_range_frame_from_new_storage (now_ns st) (disk st) key r) as [[frame alg] | e |] eqn:Ef.
  - simpl. unfold ram_sound, ram_view in *. destruct (ram_cache st) as [c |] eqn:Ec; simpl.
    2: { eexists. split; [done |]. simpl. rewrite Ec. split_and!; try done. auto. }
    match goal with |- context [Ram.put ?cl c ?en] =>
      destruct (Ram.put_view cl c en (Hs c eq_refl)) as (c' & -> & Hok & Hv) end.
    simpl. eexists. split; [done |]. simpl.
    split_and!; [done | done | by intros c'' [= <-] |].
    intros k. destruct (Hv k) as [-> | [-> | [-> ->]]]; [by left | by right; left |]. right. right.
    split; [done |]. eexists. split; [done |]. by exists (now_ns st), frame, alg.
  - eexists. split; [done |]. simpl. split_and!; try done. auto.
  - by apply load_frame_no_panic in Ef.
Qed.

(** Either the RAM entry is decoded, or the disk answers. *)
Lemma load_spec key r st st' res :
  ram_sound st -> load_range_data_with_cache key r st = (st', res) ->
  ram_step key r st st' /\
  match (if ram_cache_enabled st then ram_view st (ram_key key r) else None) with
  | Some rd => res = (d ← ram_read_data rd; Ok (d, true))
  | None => exists now, res = (d ← Disk.load_range_data_from_new_storage now (disk st) key r; Ok (d, false))
  end.
Proof.
  intros Hs. unfold load_range_data_with_cache, two_tier.
  destruct (ram_get_spec (ram_key key r) st Hs) as (st1 & Hg & He & Hd & Hs1 & Hv).
  unfold ram_key in Hg at 1. rewrite Hg.
  assert (Hstep : ram_step key r st st1) by (split_and!; try done; auto).
  destruct (if ram_cache_enabled st then ram_view st (ram_key key r) else None) as [rd |].
  - destruct (ram_read_data rd) as [d | e |]; intros [= <- <-]; (split; [| done]); [| done | done].
    unfold update_ram_cache_hit_statistics. destruct (ram_cache st1) as [c |] eqn:Ec; [| done].
    unfold ram_step, ram_sound, ram_view in *. simpl in *. by rewrite Ec in *.
  - destruct (Disk.load_range_data_from_new_storage (now_ns st1) (disk st1) key r) as [d | e |] eqn:El.
    + destruct (promote_spec key r (zlen d) (tick st1)) as (st2 & -> & He2 & Hd2 & Hs2 & Hv2); [done |].
      intros [= <- <-]. split; [| exists (now_ns st1); by rewrite <- Hd, El].
      simpl in *. split_and!; [congruence | congruence | done |]. intros k.
      change (ram_view (tick st1) k) with (ram_view st1 k) in Hv2. rewrite <- Hv, <- Hd. apply Hv2.
    + intros [= <- <-]. split; [done | exists (now_ns st1); by rewrite <- Hd, El].
    + intros [= <- <-]. split; [done | exists (now_ns st1); by rewrite <- Hd, El].
Qed.

End Tier.

(** ** The interface of the range merge *)

Section TierSpec.
Context `{Ram.Platform} `{HashIter} `{PathCodec} `{FrameCodec} `{TierEnv}.
Context (object : string -> string -> bytes).

(** Every file named for a version and listed for a key either fails to decode or
    holds the bytes of that version (the frame's checksum). *)
Definition disk_faithful (d : Disk.Disk) : Prop :=
  forall key etag r frame data,
    listed d key r -> range_file_belongs_to r (object_version_id etag) = true ->
    Disk.range_files d !! nr_file_path r = Some (Disk.Readable frame) ->
    decompress_with_algorithm frame (nr_compression_algorithm r) = Ok data ->
    data = sub_list (object key etag) (nr_start r) (nr_end r + 1).

Definition ram_faithful (st : CacheManager) : Prop :=
  forall key r rd data, range_ok r -> ram_view st (ram_key key r) = Some rd ->
    ram_read_data rd = Ok data -> data = sub_list (object key (r_etag r)) (r_start r) (r_end r + 1).

Record manager_ok (st : CacheManager) : Prop := {
  mo_sound : ram_sound st;
  mo_ram : ram_faithful st;
  mo_disk : disk_faithful (disk st);
}.

(** The range is on disk at all times, and its RAM entry, if any, decodes. *)
Definition manager_holds (st : CacheManager) (key : string) (r : Range) : Prop :=
  range_ok r /\
  (forall now, exists data, Disk.load_range_data_from_new_storage now (disk st) key r = Ok data) /\
  (forall rd, ram_view st (ram_key key r) = Some rd -> exists data, ram_read_data rd = Ok data).

Lemma frame_faithful d key r rd data :
  disk_faithful d -> range_ok r -> frame_view d key r rd -> ram_read_data rd = Ok data ->
  data = sub_list (object key (r_etag r)) (r_start r) (r_end r + 1).
Proof.
  intros Hd (_ & Hr & _) (now & frame & alg & Hf & Hdata & Hc & Ha) Hrd.
  apply load_frame_Ok in Hf as (spec & Hspec & Hfile & ->).
  apply find_range_spec_Ok in Hspec as (<- & <- & Hl & Hb); [| lia].
  unfold ram_read_data in Hrd. rewrite Hc, Hdata, Ha in Hrd. by apply (Hd key (r_etag r) spec frame).
Qed.

Lemma disk_load_faithful now d key r data :
  disk_faithful d -> range_ok r -> Disk.load_range_data_from_new_storage now d key r = Ok data ->
  data = sub_list (object key (r_etag r)) (r_start r) (r_end r + 1).
Proof.
  intros Hd (_ & Hr & _) Hl. apply load_data_Ok in Hl as (spec & frame & Hspec & Hfile & Hdec & _).
  apply find_range_spec_Ok in Hspec as (<- & <- & Hli & Hb); [| lia]. by apply (Hd key (r_etag r) spec frame).
Qed.

Lemma ram_step_ok key r st st' : range_ok r -> manager_ok st -> ram_step key r st st' -> manager_ok st'.
Proof.
  intros Hr [Hs Hram Hd] (He & Hd' & Hs' & Hv). constructor; [done | | by rewrite Hd'].
  intros key' r' rd data Hr' Hview Hdata.
  destruct (Hv (ram_key key' r')) as [E | [E | (Ek & rd' & E & Hf)]].
  - rewrite E in Hview. by apply (Hram key' r' rd).
  - congruence.
  - rewrite E in Hview. injection Hview as ->.
    apply ram_key_inj in Ek as (-> & E1 & E2 & E3); [| done | done]. rewrite E1, E2, E3.
    by apply (frame_faithful (disk st) key r rd data).
Qed.

(** A range whose load succeeds at any time has decodable frames. *)
Lemma held_frame_decodes d key r r' rd :
  (forall now, exists data, Disk.load_range_data_from_new_storage now d key r' = Ok data) ->
  r_start r = r_start r' -> r_end r = r_end r' -> r_etag r = r_etag r' ->
  frame_view d key r rd -> exists data, ram_read_data rd = Ok data.
Proof.
  intros Hl E1 E2 E3 (now & frame & alg & Hf & Hdata & Hc & Ha).
  destruct (Hl now) as [data Hok]. apply load_data_Ok in Hok as (spec & frame' & _ & _ & Hdec & Hf').
  assert (Disk.load_range_frame_from_new_storage now d key r = Disk.load_range_frame_from_new_storage now d key r')
    as Heq by (unfold Disk.load_range_frame_from_new_storage, Disk.find_range_spec; by rewrite E1, E2, E3).
  rewrite Heq, Hf' in Hf. injection Hf as <- <-. exists data. unfold ram_read_data. by rewrite Hc, Hdata, Ha.
Qed.

Lemma ram_step_holds key r st st' key' r' :
  range_ok r -> ram_step key r st st' -> manager_holds st key' r' -> manager_holds st' key' r'.
Proof.
  intros Hr (He & Hd & Hs & Hv) (Hr' & Hl & Hram). split; [done |]. rewrite Hd. split; [done |].
  intros rd Hview. destruct (Hv (ram_key key' r')) as [E | [E | (Ek & rd' & E & Hf)]].
  - apply Hram. congruence.
  - congruence.
  - rewrite E in Hview. injection Hview as ->.
    apply ram_key_inj in Ek as (-> & E1 & E2 & E3); [| done | done].
    by apply (held_frame_decodes (disk st) key r r').
Qed.

#[export] Instance two_tier_spec : RangeTierSpec CacheManager object.
Proof.
  refine {| tier_inv := manager_ok; tier_valid := range_ok; tier_holds := manager_holds |}.
  - intros key r Hr st st' res Hok Hl. apply load_spec in Hl as [Hst _]; [| apply Hok].
    by eapply ram_step_ok.
  - intros key r st st' d hit [Hs Hram Hd] Hr Hl. apply load_spec in Hl as [_ Hl]; [| done].
    destruct (if ram_cache_enabled st then _ else None) as [rd |] eqn:Erd.
    + destruct (ram_cache_enabled st); [| done].
      destruct (ram_read_data rd) as [x | |] eqn:Ex; [| done | done]. injection Hl as -> _.
      by apply (Hram key r rd).
    + destruct Hl as [now Hl]. destruct (Disk.load_range_data_from_new_storage _ _ _ _) as [x | |] eqn:Ex;
        [| done | done]. injection Hl as -> _. by apply (disk_load_faithful now (disk st) key r).
  - intros key r st [Hs _ _] Hr (_ & Hl & Hram).
    destruct (load_range_data_with_cache key r st) as [st' res] eqn:E.
    apply load_spec in E as [_ E]; [| done].
    destruct (if ram_cache_enabled st then _ else None) as [rd |] eqn:Erd.
    + destruct (ram_cache_enabled st); [| done]. destruct (Hram rd Erd) as [d Hd].
      rewrite Hd in E. subst res. by eexists _, _, _.
    + destruct E as [now E]. destruct (Hl now) as [d Hd]. rewrite Hd in E. subst res. by eexists _, _, _.
  - intros key r st st' res key' r' [Hs _ _] Hr Hl. apply load_spec in Hl as [Hst _]; [| done].
    by eapply ram_step_holds.
Defined.

End TierSpec.

(** The two tiers answer with the object's bytes, again and again.  Whatever a
    load of a valid range does, the tiers stay consistent, the disk is unchanged
    and a success is exactly the bytes of the version the range names; a range
    held on disk loads, from RAM exactly when RAM has its entry, and the next load
    returns the same bytes from the frame the first one may have promoted. *)
Theorem two_tier_load_faithful `{Ram.Platform} `{HashIter} `{PathCodec} `{FrameCodec} `{TierEnv} object st key r :
  manager_ok object st -> range_ok r ->
  let hits st := ram_cache_enabled st && bool_decide (is_Some (ram_view st (ram_key key r))) in
  let '(st1, res) := load_range_data_with_cache key r st in
  manager_ok object st1 /\ disk st1 = disk st /\
  (forall d hit, res = Ok (d, hit) ->
     d = sub_list (object key (r_etag r)) (r_start r) (r_end r + 1) /\ hit = hits st) /\
  (manager_holds st key r ->
   exists d st2, res = Ok (d, hits st) /\ load_range_data_with_cache key r st1 = (st2, Ok (d, hits st1))).
Proof.
  intros Hok Hr hits. destruct (load_range_data_with_cache key r st) as [st1 res] eqn:E1.
  assert (Hhit : forall st st' res d hit, ram_sound st -> load_range_data_with_cache key r st = (st', res) ->
    res = Ok (d, hit) -> hit = hits st).
  { clear. intros st st' res d hit Hs [_ Hl]%load_spec Hres; [| done]. unfold hits.
    destruct (ram_cache_enabled st); simpl in *; [destruct (ram_view st (ram_key key r)) as [rd |] |].
    - rewrite Hres in Hl. destruct (ram_read_data rd); [| done | done]. injection Hl as _ ->.
      by rewrite bool_decide_true by done.
    - destruct Hl as [now Hl]. rewrite Hres in Hl.
      destruct (Disk.load_range_data_from_new_storage _ _ _ _); [| done | done]. injection Hl as _ ->.
      by rewrite bool_decide_false by (by intros []).
    - destruct Hl as [now Hl]. rewrite Hres in Hl.
      destruct (Disk.load_range_data_from_new_storage _ _ _ _); [| done | done]. by injection Hl as _ ->. }
  pose proof (@tier_load_inv _ _ _ (two_tier_spec object) key r Hr st st1 res Hok E1) as Hok1.
  pose proof E1 as Hst. apply load_spec in Hst as [(_ & Hd & _) _]; [| apply Hok].
  split; [done |]. split; [done |].
  assert (Hfaith : forall st st' d hit, manager_ok object st -> load_range_data_with_cache key r st = (st', Ok (d, hit)) ->
    d = sub_list (object key (r_etag r)) (r_start r) (r_end r + 1)).
  { intros. by eapply (@tier_load_faithful _ _ _ (two_tier_spec object) key r). }
  split; [intros d hit ->; split; [exact (Hfaith _ _ _ _ Hok E1) | exact (Hhit _ _ _ _ _ (mo_sound _ _ Hok) E1 eq_refl)] |].
  intros Hh. destruct (@tier_load_total _ _ _ (two_tier_spec object) key r st Hok Hr Hh) as (st1' & d & hit & E1').
  rewrite E1 in E1'. injection E1' as <- ->.
  pose proof (@tier_holds_stable _ _ _ (two_tier_spec object) key r st st1 _ key r Hok Hr E1 Hh) as Hh1.
  destruct (@tier_load_total _ _ _ (two_tier_spec object) key r st1 Hok1 Hr Hh1) as (st2 & d2 & hit2 & E2). exists d, st2.
  rewrite (Hhit _ _ _ _ _ (mo_sound _ _ Hok) E1 eq_refl) in *. split; [done |].
  rewrite E2. f_equal. f_equal. f_equal.
  - by rewrite (Hfaith st st1 d _ Hok E1), (Hfaith st1 st2 d2 _ Hok1 E2).
  - exact (Hhit _ _ _ _ _ (mo_sound _ _ Hok1) E2 eq_refl).
Qed.

(** ** Lookup, then merge *)

Section EndToEnd.
Context `{Ram.Platform} `{HashIter} `{PathCodec} `{FrameCodec} `{TierEnv}.
Context (object : string -> string -> bytes).

Lemma ram_prefix_view c prefix :
  Ram.cache_ok c ->
  Ram.cache_ok (Ram.invalidate_by_prefix c prefix).1 /\
  forall k, Ram.view (Ram.invalidate_by_prefix c prefix).1 k = if starts_with prefix k then None else Ram.view c k.
Proof.
  intros Hok. pose proof (Ram.invalidate_by_prefix_spec c prefix Hok) as Hp.
  destruct (Ram.invalidate_by_prefix c prefix) as [c' n]. destruct Hp as (Hok' & Hv & _). split; [done |].
  intros k. unfold Ram.view. simpl. rewrite Hv. by destruct (starts_with prefix k).
Qed.

Lemma invalidate_stale_spec key st :
  ram_sound st ->
  exists st', invalidate_stale key st = Some st' /\ ram_sound st' /\
    disk st' = Disk.invalidate_all_ranges removable (now_ns (tick st)) (disk st) key /\
    metadata_cache st' = MetaCache.invalidate key (metadata_cache st) /\
    ram_cache_enabled st' = ram_cache_enabled st /\
    forall k, ram_view st' k =
      if ram_cache_enabled st && (bool_decide (k = key) || starts_with (key +:+ ":range:") k) then None
      else ram_view st k.
Proof.
  intros Hs. unfold invalidate_stale, invalidate_ram_ranges. simpl.
  destruct (ram_cache_enabled st) eqn:Ee; simpl.
  2: { eexists. split; [done |]. simpl. done. }
  unfold ram_sound, ram_view in *. destruct (ram_cache st) as [c |] eqn:Ec; simpl.
  2: { eexists. split; [done |]. simpl. split_and!; try done. intros k. by destruct (_ || _). }
  destruct (Ram.invalidate_view c key (Hs c eq_refl)) as (c1 & -> & Hok1 & Hv1). simpl.
  destruct (ram_prefix_view c1 (key +:+ ":range:") Hok1) as [Hok2 Hv2].
  eexists. split; [done |]. simpl. split_and!; try done; [by intros c' [= <-] |].
  intros k. rewrite Hv2, Hv1. case_bool_decide; simpl; by destruct (starts_with _ k).
Qed.

(** Removing files keeps a disk faithful. *)
Lemma invalidate_disk_faithful rm now d key :
  disk_faithful object d -> disk_faithful object (Disk.invalidate_all_ranges rm now d key).
Proof.
  intros Hd key' etag r frame data Hl Hb Hf Hdec.
  destruct (Disk.invalidate_all_ranges_spec rm now d key) as (Hj & Hm & Hr & _).
  apply (Hd key' etag r frame data); [| done | by eapply lookup_weaken | done].
  destruct Hl as [(m & Hk & Hin) | Hl]; [left; exists m; split; [by eapply lookup_weaken | done] |].
  right. by rewrite Hj in Hl.
Qed.

Lemma invalidate_stale_ok key st st' :
  manager_ok object st -> invalidate_stale key st = Some st' -> manager_ok object st'.
Proof.
  intros [Hs Hram Hd] E. destruct (invalidate_stale_spec key st Hs) as (st1 & E1 & Hs1 & Hd1 & _ & _ & Hv).
  rewrite E in E1. injection E1 as <-. constructor; [done | | rewrite Hd1; by apply invalidate_disk_faithful].
  intros key' r rd data Hr Hview. rewrite Hv in Hview.
  destruct (_ && _); [done |]. by apply (Hram key' r rd data).
Qed.

Lemma find_cached_ranges_Ok key requested current_etag preloaded purpose st st' o :
  find_cached_ranges key requested current_etag preloaded purpose st = (st', Ok o) ->
  exists stale,
    Disk.find_cached_ranges (now_ns st) (now_ns (tick st)) (now_ns (tick (tick st))) (disk st) key
      requested current_etag preloaded purpose = Ok (o, stale) /\
    if stale then invalidate_stale key st = Some st' else st' = tick (tick (tick st)).
Proof.
  unfold find_cached_ranges. destruct (Disk.find_cached_ranges _ _ _ _ _ _ _ _ _) as [[o' []] | |].
  - destruct (invalidate_stale key st); [| done]. intros [= <- <-]. by exists true.
  - intros [= <- <-]. by exists false.
  - done.
  - done.
Qed.

(** The metadata a lookup goes by: the preloaded copy, else the file. *)
Definition lookup_metadata (preloaded : option NewCacheMetadata) (st : CacheManager) (key : string)
    : option NewCacheMetadata :=
  match preloaded with
  | Some m => Some m
  | None => Disk.metadata_files (disk st) !! get_new_metadata_file_path key
  end.

(** A lookup keeps the tiers consistent and returns ranges of the metadata's version. *)
Lemma find_cached_ranges_sound key requested current_etag preloaded purpose m st st' o :
  manager_ok object st -> lookup_metadata preloaded st key = Some m ->
  Tracker.colon_free (om_etag (cm_object_metadata m)) ->
  (forall r, Disk.stored (disk st) m key r -> 0 <= nr_start r <= nr_end r /\ nr_end r < U64_MAX) ->
  find_cached_ranges key requested current_etag preloaded purpose st = (st', Ok o) ->
  manager_ok object st' /\
  Forall (cached_faithful (Spec := two_tier_spec object) (om_etag (cm_object_metadata m))) (cached_ranges o).
Proof.
  intros Hok Hm Hc Hst Hf. apply find_cached_ranges_Ok in Hf as (stale & Hf & Hst').
  split.
  - destruct stale; [by eapply invalidate_stale_ok |]. subst st'. by destruct Hok.
  - apply (Disk.lookup_cached_stored _ _ _ _ _ _ _ _ _ m) in Hf as [Hf _]; [| done].
    eapply Forall_impl; [exact Hf |]. intros c (r & Hr & ->). specialize (Hst r Hr).
    split; [done |]. cbn. split; [tauto |]. split; [tauto |]. done.
Qed.

Lemma mismatch_lookup key requested etag preloaded purpose m st' st :
  match preloaded with Some m => Some m | None => Disk.get_metadata (now_ns st) (disk st) key end = Some m ->
  etag <> om_etag (cm_object_metadata m) -> invalidate_stale key st = Some st' ->
  find_cached_ranges key requested (Some etag) preloaded purpose st = (st', Ok (all_missing requested)).
Proof.
  intros Hm Hne E. unfold find_cached_ranges, Disk.find_cached_ranges.
  rewrite Hm, bool_decide_false by done. cbn [negb]. by rewrite E.
Qed.

(** C4: a range request through both tiers returns the object.  Look the range up,
    then merge whatever was found with ranges fetched from S3: the tiers stay
    consistent whether or not the merge succeeds, and if it does the body is
    exactly the requested bytes of the version the metadata names, each counted
    once as cached or fetched, even when the lookup found a stale version and
    purged it, and whatever the loads promote and evict in between. *)
Theorem range_request_end_to_end key requested current_etag preloaded purpose fetched m st st1 o :
  manager_ok object st -> range_wf requested -> end_ requested < U64_MAX ->
  lookup_metadata preloaded st key = Some m ->
  Tracker.colon_free (om_etag (cm_object_metadata m)) ->
  (forall r, Disk.stored (disk st) m key r -> 0 <= nr_start r <= nr_end r /\ nr_end r < U64_MAX) ->
  Forall (fetched_faithful (object := object) key (om_etag (cm_object_metadata m))) fetched ->
  find_cached_ranges key requested current_etag preloaded purpose st = (st1, Ok o) ->
  let '(st2, res) := merge_range_segments key requested (cached_ranges o) fetched st1 in
  manager_ok object st2 /\
  forall merged, res = Ok merged ->
    data merged = sub_list (object key (om_etag (cm_object_metadata m))) (start requested) (end_ requested + 1) /\
    bytes_from_cache merged + bytes_from_s3 merged = end_ requested - start requested + 1.
Proof.
  intros Hok Hw Hmax Hm Hc Hst Hfet Hf.
  destruct (find_cached_ranges_sound _ _ _ _ _ m _ _ _ Hok Hm Hc Hst Hf) as [Hok1 Hcached].
  destruct (merge_range_segments key requested (cached_ranges o) fetched st1) as [st2 res] eqn:E. split.
  - exact (merge_range_segments_tier (Spec := two_tier_spec object) key _ _ _ _ Hw Hcached Hfet _ _ _ Hok1 E).
  - intros merged ->. destruct (merge_sound (Spec := two_tier_spec object) key _ _ _ _ _ _ _ Hok1 Hw Hmax Hcached Hfet E)
      as (Hd & Hl & Hb & _). split; [done | lia].
Qed.

(** An ETag mismatch purges the key and nothing else.  The lookup reports the
    whole request missing; afterwards RAM holds no range of the key, the metadata
    cache has no entry of it, every range file its metadata lists is gone where
    the path is safe and the file system allows it, and every other RAM key shows
    what it showed before. *)
Theorem etag_mismatch_purges key requested etag preloaded purpose m st :
  manager_ok object st ->
  match preloaded with Some m => Some m | None => Disk.get_metadata (now_ns st) (disk st) key end = Some m ->
  etag <> om_etag (cm_object_metadata m) ->
  exists st', find_cached_ranges key requested (Some etag) preloaded purpose st = (st', Ok (all_missing requested)) /\
    manager_ok object st' /\
    (ram_cache_enabled st = true -> forall r, ram_view st' (ram_key key r) = None) /\
    (forall k, k <> key -> starts_with (key +:+ ":range:") k = false -> ram_view st' k = ram_view st k) /\
    MetaCache.entries (metadata_cache st') = delete key (MetaCache.entries (metadata_cache st)) /\
    (forall m' r, Disk.get_metadata (now_ns (tick st)) (disk st) key = Some m' -> r ∈ cm_ranges m' ->
       is_safe_relative_file_path (nr_file_path r) = true -> removable (nr_file_path r) = true ->
       Disk.range_files (disk st') !! nr_file_path r = None).
Proof.
  intros Hok Hm Hne. destruct (invalidate_stale_spec key st (mo_sound _ _ Hok)) as (st' & E & _ & Hd & Hmc & He & Hv).
  exists st'. rewrite (mismatch_lookup _ _ _ _ _ m st' _ Hm Hne E). split_and!.
  - done.
  - by eapply invalidate_stale_ok.
  - intros Hen r. by rewrite Hv, Hen, ram_key_prefix, orb_true_r.
  - intros k Hk Hp. by rewrite Hv, Hp, bool_decide_false, andb_false_r.
  - rewrite Hmc. unfold MetaCache.invalidate. destruct (MetaCache.entries _ !! key) eqn:Ek; [done |].
    by rewrite delete_id.
  - rewrite Hd. apply Disk.invalidate_all_ranges_spec.
Qed.

(** The same mismatch leaves the metadata file itself in place.  Invalidation
    removes the file of the flat layout while lookups read the sharded one, so for
    every valid cache key the next lookup still finds the stale version. *)
Theorem stale_metadata_survives `{!PathCodecSpec} key requested etag preloaded purpose m st bucket object_key :
  manager_ok object st -> parse_cache_key key = Ok (bucket, object_key) ->
  match preloaded with Some m => Some m | None => Disk.get_metadata (now_ns st) (disk st) key end = Some m ->
  etag <> om_etag (cm_object_metadata m) ->
  exists st', find_cached_ranges key requested (Some etag) preloaded purpose st = (st', Ok (all_missing requested)) /\
    forall now, Disk.get_metadata now (disk st') key = Disk.get_metadata now (disk st) key.
Proof.
  intros Hok Hk Hm Hne. destruct (invalidate_stale_spec key st (mo_sound _ _ Hok)) as (st' & E & _ & Hd & _).
  exists st'. rewrite (mismatch_lookup _ _ _ _ _ m st' _ Hm Hne E). split; [done |]. intros now. rewrite Hd.
  destruct (Disk.invalidate_all_ranges_spec removable (now_ns (tick st)) (disk st) key) as (_ & _ & _ & Hmf & _).
  unfold Disk.get_metadata. rewrite Hmf; [done |]. by eapply metadata_paths_differ.
Qed.

End EndToEnd.

(** ** A concrete manager *)

#[local] Existing Instance sample_codec.
#[local] Existing Instance sample_codec_spec.
#[local] Existing Instance Ram.sample_platform.
#[local] Existing Instance Ram.sample_iter.
#[local] Existing Instance Disk.stored_frames.
#[local] Instance sample_env : TierEnv :=
  {| clock n := Z.of_nat n; contended _ := false; ram_cache_eligible _ := true; removable _ := true |}.

Definition sample_manager : CacheManager :=
  mkManager true (Some (Ram.new 1000 1 Ram.LRU)) Disk.sample_disk
    (MetaCache.new MetaCache.default_config) 0 0.

Definition sample_object_bytes (key etag : string) : bytes := Disk.sample_bytes.

Definition sample_metadata_v1 : NewCacheMetadata := Disk.sample_object_metadata 100 [sample_stored_range].

Definition stored_v1 : Range := Disk.to_cached_range sample_metadata_v1 sample_stored_range.

Lemma sample_listed key r : listed Disk.sample_disk key r -> r = sample_stored_range.
Proof.
  intros [(m & Hm & Hr) | (v & Hv%elem_of_nil & _)]; [| done].
  unfold Disk.sample_disk in Hm. cbn [Disk.metadata_files] in Hm. apply lookup_singleton_Some in Hm as [_ <-]. by apply list_elem_of_singleton in Hr.
Qed.

Lemma sample_manager_ok : manager_ok sample_object_bytes sample_manager.
Proof.
  constructor.
  - intros c [= <-]. apply Ram.new_ok. lia.
  - intros key r rd data _ Hv. exfalso. unfold ram_view in Hv. cbn [ram_cache sample_manager mbind option_bind] in Hv. by rewrite Ram.view_new in Hv.
  - intros key etag r frame data ->%sample_listed _ Hf Hd. vm_compute in Hf. injection Hf as <-.
    injection Hd as <-. reflexivity.
Qed.

Lemma stored_v1_ok : range_ok stored_v1.
Proof. split; [done |]. unfold U64_MAX. cbn. lia. Qed.

Lemma sample_holds : manager_holds sample_manager "b/k/x" stored_v1.
Proof.
  split; [apply stored_v1_ok |]. split.
  - intros now. exists Disk.sample_bytes. vm_compute. reflexivity.
  - intros rd Hv. exfalso. unfold ram_view in Hv. cbn [ram_cache sample_manager mbind option_bind] in Hv. by rewrite Ram.view_new in Hv.
Qed.

(** The first load reads the disk, the second the promoted frame. *)
Lemma two_tier_load_faithful_witness :
  exists st1 st2,
    load_range_data_with_cache "b/k/x" stored_v1 sample_manager = (st1, Ok (Disk.sample_bytes, false)) /\
    load_range_data_with_cache "b/k/x" stored_v1 st1 = (st2, Ok (Disk.sample_bytes, true)).
Proof.
  pose proof (two_tier_load_faithful sample_object_bytes sample_manager "b/k/x" stored_v1
    sample_manager_ok stored_v1_ok) as H.
  destruct (load_range_data_with_cache "b/k/x" stored_v1 sample_manager) as [st1 res] eqn:E.
  destruct H as (_ & _ & Hf & Hh). destruct (Hh sample_holds) as (d & st2 & Hr & E2).
  exists st1, st2. destruct (Hf d _ Hr) as [Hd _]. rewrite Hr, Hd, E2, Hd.
  replace st1 with (load_range_data_with_cache "b/k/x" stored_v1 sample_manager).1 by (by rewrite E).
  split; vm_compute; reflexivity.
Defined.

Lemma range_request_end_to_end_witness :
  exists st1 o st2 merged,
    find_cached_ranges "b/k/x" (mkRange 1 4) (Some "v1") None FreshServe sample_manager = (st1, Ok o) /\
    merge_range_segments "b/k/x" (mkRange 1 4) (cached_ranges o) [] st1 = (st2, Ok merged) /\
    data merged = [Byte.x01; Byte.x02; Byte.x03; Byte.x04].
Proof.
  pose proof (range_request_end_to_end sample_object_bytes "b/k/x" (mkRange 1 4) (Some "v1") None FreshServe []
    sample_metadata_v1 sample_manager
    (find_cached_ranges "b/k/x" (mkRange 1 4) (Some "v1") None FreshServe sample_manager).1
    (overlap_of (mkRange 1 4) [stored_v1] CacheTypes.Fresh)) as H.
  destruct (merge_range_segments "b/k/x" (mkRange 1 4) (cached_ranges (overlap_of (mkRange 1 4) [stored_v1] CacheTypes.Fresh))
    [] (find_cached_ranges "b/k/x" (mkRange 1 4) (Some "v1") None FreshServe sample_manager).1) as [st2 res] eqn:E.
  assert (exists merged, res = Ok merged) as [merged ->].
  { apply (f_equal snd) in E. vm_compute in E. cbn in E. rewrite <- E. eauto. }
  eexists _, _, st2, merged. split; [vm_compute; reflexivity |]. split; [exact E |].
  destruct H as (_ & Hm).
  - apply sample_manager_ok.
  - unfold range_wf. cbn. lia.
  - unfold U64_MAX. cbn. lia.
  - reflexivity.
  - reflexivity.
  - intros r [[->%list_elem_of_singleton | (v & Hv%elem_of_nil & _)] _]; [unfold U64_MAX; cbn; lia | done].
  - constructor.
  - vm_compute. reflexivity.
  - destruct (Hm merged eq_refl) as [-> _]. reflexivity.
Defined.

Lemma etag_mismatch_purges_witness :
  exists st', find_cached_ranges "b/k/x" (mkRange 1 4) (Some "v2") None FreshServe sample_manager
      = (st', Ok (all_missing (mkRange 1 4))) /\
    Disk.range_files (disk st') !! nr_file_path sample_stored_range = None.
Proof.
  destruct (etag_mismatch_purges sample_object_bytes "b/k/x" (mkRange 1 4) "v2" None FreshServe sample_metadata_v1
    sample_manager) as (st' & E & _ & _ & _ & _ & Hf).
  - apply sample_manager_ok.
  - vm_compute. reflexivity.
  - discriminate.
  - exists st'. split; [exact E |].
    apply (Hf sample_metadata_v1); [vm_compute; reflexivity | left | vm_compute; reflexivity | reflexivity].
Defined.

Lemma stale_metadata_survives_witness :
  exists st', find_cached_ranges "b/k/x" (mkRange 1 4) (Some "v2") None FreshServe sample_manager
      = (st', Ok (all_missing (mkRange 1 4))) /\
    Disk.get_metadata 0 (disk st') "b/k/x" = Some sample_metadata_v1.
Proof.
  destruct (stale_metadata_survives sample_object_bytes "b/k/x" (mkRange 1 4) "v2" None FreshServe sample_metadata_v1
    sample_manager "b" "k/x") as (st' & E & Hm).
  - apply sample_manager_ok.
  - vm_compute. reflexivity.
  - vm_compute. reflexivity.
  - discriminate.
  - exists st'. split; [exact E |]. rewrite Hm. vm_compute. reflexivity.
Defined.
