(* ===== verification/SizeAccounting.v ===== *)
(** * Cache size accounting ([SizeAccumulator] and the size state of
    [journal_consolidator.rs])

    Every instance counts the bytes it stores and removes in two [i64] counters,
    with a set of the ranges already counted; a flush moves the counters into a
    delta file of the shared directory, and the consolidator folds the delta files
    of all instances into the size state.  The directory is a value: its entries by
    name, in the order its iterator lists them.  What the file system and the lock
    answer is an argument.  The counters are shared by the threads of an instance:
    [step] is the relation of their atomic accesses, and the theorems are about
    every interleaving. *)

From S2P Require Import Prelude CacheTypes Maps DiskPaths DiskRanges RustStr.
From stdpp Require Import gmap strings.

#[local] Open Scope Z_scope.
#[local] Arguments String.append : simpl nomatch.

(** ** [i64] *)

(** The value of an [i64] that holds [x] modulo [2^64]: what [as i64] and the
    wrapping arithmetic of the release profile give. *)
Definition wrap_i64 (x : Z) : Z := (x + 2 ^ 63) mod 2 ^ 64 - 2 ^ 63.

Definition is_i64 (x : Z) : Prop := - 2 ^ 63 <= x < 2 ^ 63.

(** Equality modulo [2^64]. *)
Definition cong64 (a b : Z) : Prop := exists k, a = b + k * 2 ^ 64.

#[export] Instance cong64_equiv : Equivalence cong64.
Proof.
  split.
  - intros a. exists 0. lia.
  - intros a b [k ->]. exists (- k). lia.
  - intros a b c [k ->] [k' ->]. exists (k + k'). lia.
Qed.

#[export] Instance cong64_add : Proper (cong64 ==> cong64 ==> cong64) Z.add.
Proof. intros a a' [k ->] b b' [k' ->]. exists (k + k'). lia. Qed.

#[export] Instance cong64_sub : Proper (cong64 ==> cong64 ==> cong64) Z.sub.
Proof. intros a a' [k ->] b b' [k' ->]. exists (k - k'). lia. Qed.

#[export] Instance cong64_opp : Proper (cong64 ==> cong64) Z.opp.
Proof. intros a a' [k ->]. exists (- k). lia. Qed.

Lemma cong64_eq a b : a = b -> cong64 a b.
Proof. by intros ->. Qed.

Lemma wrap_i64_cong x : cong64 (wrap_i64 x) x.
Proof.
  unfold wrap_i64. exists (- ((x + 2 ^ 63) / 2 ^ 64)).
  pose proof (Z.div_mod (x + 2 ^ 63) (2 ^ 64) ltac:(lia)). lia.
Qed.

Lemma wrap_i64_small x : is_i64 x -> wrap_i64 x = x.
Proof. unfold is_i64, wrap_i64. intros. rewrite Z.mod_small; lia. Qed.

Lemma wrap_i64_range x : is_i64 (wrap_i64 x).
Proof. unfold is_i64, wrap_i64. pose proof (Z.mod_pos_bound (x + 2 ^ 63) (2 ^ 64)). lia. Qed.

(** Congruent values in the range of an [i64] are equal. *)
Lemma cong64_i64 a b : is_i64 a -> is_i64 b -> cong64 a b -> a = b.
Proof. intros Ha Hb [k ->]. unfold is_i64 in *. assert (k = 0) by lia. lia. Qed.

Module Size.

(** ** The accumulator *)

Definition range_id : Type := Z * Z * Z.

Record SizeAccumulator := mkAccumulator {
  delta : Z;
  write_cache_delta : Z;
  instance_id : string;
  flush_sequence : Z;
  recent_ranges : gset range_id;
}.

Definition new (instance : string) : SizeAccumulator :=
  {| delta := 0; write_cache_delta := 0; instance_id := instance; flush_sequence := 0;
     recent_ranges := ∅ |}.

(** The atomic accesses the methods are made of. *)

Definition fetch_add_delta (n : Z) (a : SizeAccumulator) : SizeAccumulator :=
  mkAccumulator (wrap_i64 (delta a + n)) (write_cache_delta a) (instance_id a) (flush_sequence a)
    (recent_ranges a).

Definition fetch_add_wc (n : Z) (a : SizeAccumulator) : SizeAccumulator :=
  mkAccumulator (delta a) (wrap_i64 (write_cache_delta a + n)) (instance_id a) (flush_sequence a)
    (recent_ranges a).

Definition swap_delta (a : SizeAccumulator) : SizeAccumulator * Z :=
  (mkAccumulator 0 (write_cache_delta a) (instance_id a) (flush_sequence a) (recent_ranges a), delta a).

Definition swap_wc (a : SizeAccumulator) : SizeAccumulator * Z :=
  (mkAccumulator (delta a) 0 (instance_id a) (flush_sequence a) (recent_ranges a), write_cache_delta a).

Definition next_sequence (a : SizeAccumulator) : SizeAccumulator * Z :=
  (mkAccumulator (delta a) (write_cache_delta a) (instance_id a) (u64_add (flush_sequence a) 1)
     (recent_ranges a), flush_sequence a).

Definition set_recent (s : gset range_id) (a : SizeAccumulator) : SizeAccumulator :=
  mkAccumulator (delta a) (write_cache_delta a) (instance_id a) (flush_sequence a) s.

Definition add (compressed_size : Z) (a : SizeAccumulator) : SizeAccumulator :=
  fetch_add_delta (wrap_i64 compressed_size) a.

Definition subtract (compressed_size : Z) (a : SizeAccumulator) : SizeAccumulator :=
  fetch_add_delta (- wrap_i64 compressed_size) a.

Definition add_write_cache (compressed_size : Z) (a : SizeAccumulator) : SizeAccumulator :=
  fetch_add_wc (wrap_i64 compressed_size) a.

Definition subtract_write_cache (compressed_size : Z) (a : SizeAccumulator) : SizeAccumulator :=
  fetch_add_wc (- wrap_i64 compressed_size) a.

(** [HashSet::insert] under the lock: whether the range was not counted yet. *)
Definition track (id : range_id) (a : SizeAccumulator) : SizeAccumulator * bool :=
  if bool_decide (id ∈ recent_ranges a) then (a, false)
  else (set_recent ({[ id ]} ∪ recent_ranges a) a, true).

(** [HashSet::remove] under the lock: whether the range was counted. *)
Definition untrack (id : range_id) (a : SizeAccumulator) : SizeAccumulator * bool :=
  (set_recent (recent_ranges a ∖ {[ id ]}) a, bool_decide (id ∈ recent_ranges a)).

Definition add_range_id (id : range_id) (compressed_size : Z) (a : SizeAccumulator)
    : SizeAccumulator * bool :=
  let '(a, inserted) := track id a in
  if inserted then (fetch_add_delta (wrap_i64 compressed_size) a, true) else (a, false).

Definition subtract_range_id (id : range_id) (compressed_size : Z) (a : SizeAccumulator)
    : SizeAccumulator * bool :=
  let '(a, was_tracked) := untrack id a in
  (fetch_add_delta (- wrap_i64 compressed_size) a, was_tracked).

Section Identity.
Context `{PathCodec}.

(** The little-endian [u64] of the first eight bytes of a digest, from its
    hexadecimal form. *)
Fixpoint le_bytes_of_hex (n : nat) (s : string) : Z :=
  match n, s with
  | S n, String a (String b s) =>
      default 0 (to_digit 16 a) * 16 + default 0 (to_digit 16 b) + 256 * le_bytes_of_hex n s
  | _, _ => 0
  end.

Definition hash_u64 (s : string) : Z := le_bytes_of_hex 8 (blake3_hex s).

Definition range_file_id (cache_key : string) (range : NewRangeSpec) : range_id :=
  let hashed := match Disk.range_file_version (nr_file_path range) with
                | Some version => (cache_key +:+ String "000" version)%string
                | None => cache_key
                end in
  (hash_u64 hashed, nr_start range, nr_end range).

Definition add_range (cache_key : string) (start end_ compressed_size : Z) (a : SizeAccumulator) :=
  add_range_id (hash_u64 cache_key, start, end_) compressed_size a.

Definition subtract_range (cache_key : string) (start end_ compressed_size : Z) (a : SizeAccumulator) :=
  subtract_range_id (hash_u64 cache_key, start, end_) compressed_size a.

Definition add_range_file (cache_key : string) (range : NewRangeSpec) (a : SizeAccumulator) :=
  add_range_id (range_file_id cache_key range) (nr_compressed_size range) a.

Definition subtract_range_file (cache_key : string) (range : NewRangeSpec) (a : SizeAccumulator) :=
  subtract_range_id (range_file_id cache_key range) (nr_compressed_size range) a.

End Identity.

Definition has_pending_delta (a : SizeAccumulator) : bool :=
  negb (delta a =? 0) || negb (write_cache_delta a =? 0).

Definition reset (a : SizeAccumulator) : SizeAccumulator :=
  mkAccumulator 0 0 (instance_id a) (flush_sequence a) ∅.

(** ** The shared directory *)

(** The content of a delta file: the fields that are present as integers. *)
Inductive delta_file :=
  | DeltaUnreadable
  | DeltaInvalid
  | DeltaJson (d w : option Z).

Abbreviation Dir := (gmap string delta_file).

Definition file_delta (f : delta_file) : Z :=
  match f with DeltaJson d _ => default 0 d | _ => 0 end.

Definition file_wc_delta (f : delta_file) : Z :=
  match f with DeltaJson _ w => default 0 w | _ => 0 end.

Definition delta_file_name (instance : string) (seq : Z) : string :=
  "delta_" +:+ instance +:+ "_" +:+ u64_to_string seq +:+ ".json".

Definition is_delta_name (name : string) : bool :=
  starts_with "delta_" name && ends_with ".json" name.

(** What the file system does with a write: which step fails, and what a failed
    write of the temporary file leaves of it. *)
Inductive write_outcome := Written | CreateDirFails | WriteTmpFails (remains : option delta_file) | RenameFails.

Definition write_delta_file (io : write_outcome) (d w : Z) (dir : Dir) (a : SizeAccumulator)
    : SizeAccumulator * Dir * outcome ProxyError unit :=
  match io with
  | CreateDirFails => (a, dir, Err (CacheError "Failed to create size_tracking directory"))
  | _ =>
      let '(a, seq) := next_sequence a in
      let path := delta_file_name (instance_id a) seq in
      let tmp := with_extension path "json.tmp" in
      let content := DeltaJson (Some d) (Some w) in
      match io with
      | WriteTmpFails remains =>
          (a, match remains with Some f => <[tmp:=f]> dir | None => dir end,
           Err (CacheError "Failed to write delta temp file"))
      | RenameFails => (a, <[tmp:=content]> dir, Err (CacheError "Failed to rename delta file"))
      | _ => (a, <[path:=content]> (delete tmp dir), Ok tt)
      end
  end.

Definition flush (io : write_outcome) (dir : Dir) (a : SizeAccumulator)
    : SizeAccumulator * Dir * outcome ProxyError unit :=
  let '(a, d) := swap_delta a in
  let '(a, w) := swap_wc a in
  if (d =? 0) && (w =? 0) then (a, dir, Ok tt) else
  match write_delta_file io d w dir a with
  | (a, dir, Err e) => (fetch_add_wc w (fetch_add_delta d a), dir, Err e)
  | r => r
  end.

(** The loop of [collect_and_apply_deltas] over the listed entries. *)
Fixpoint collect_loop (deletable : string -> bool) (dir : Dir) (td tw : Z)
    (entries : list (string * delta_file)) : Dir * (Z * Z) :=
  match entries with
  | [] => (dir, (td, tw))
  | (name, f) :: rest =>
      if negb (is_delta_name name) || ends_with ".json.tmp" name
      then collect_loop deletable dir td tw rest
      else match f with
           | DeltaUnreadable | DeltaInvalid => collect_loop deletable dir td tw rest
           | DeltaJson _ _ =>
               if (file_delta f =? 0) && (file_wc_delta f =? 0)
               then collect_loop deletable dir td tw rest
               else collect_loop deletable (if deletable name then delete name dir else dir)
                      (wrap_i64 (td + file_delta f)) (wrap_i64 (tw + file_wc_delta f)) rest
           end
  end.

Definition collect_and_apply_deltas `{HashIter} (deletable : string -> bool) (dir : Dir) : Dir * (Z * Z) :=
  collect_loop deletable dir 0 0 (hash_iter dir).

Fixpoint reset_loop (deletable : string -> bool) (dir : Dir) (entries : list (string * delta_file)) : Dir :=
  match entries with
  | [] => dir
  | (name, _) :: rest =>
      if negb (is_delta_name name) then reset_loop deletable dir rest
      else if ends_with ".json.tmp" name
           then reset_loop deletable (if deletable name then delete name dir else dir) rest
           else reset_loop deletable (if deletable name then delete name dir else dir) rest
  end.

Definition reset_all_delta_files `{HashIter} (deletable : string -> bool) (dir : Dir) : Dir :=
  reset_loop deletable dir (hash_iter dir).

(** ** The size state *)

Record SizeState := mkSizeState {
  total_size : Z;
  write_cache_size : Z;
  cached_objects : Z;
  last_consolidation : Z;
  consolidation_count : Z;
  last_updated_by : string;
}.

Definition SizeState_default : SizeState := mkSizeState 0 0 0 0 0 "".

(** [size_state.json]: absent, a state, or a file that cannot be read or parsed. *)
Definition state_file : Type := option (ProxyError + SizeState).

Definition load_size_state (f : state_file) : Result SizeState :=
  match f with
  | None => Ok SizeState_default
  | Some (inl e) => Err e
  | Some (inr s) => Ok s
  end.

Definition get_current_size (f : state_file) : Z :=
  match load_size_state f with Ok s => total_size s | _ => 0 end.

Definition get_write_cache_size (f : state_file) : Z :=
  match load_size_state f with Ok s => write_cache_size s | _ => 0 end.

Definition get_size_state (f : state_file) : SizeState :=
  match load_size_state f with Ok s => s | _ => SizeState_default end.

(** [persist_size_state_internal]: the new state is written to a temporary file and
    renamed, so a failure leaves the old file. *)
Definition persist_size_state_internal (io : option ProxyError) (s : SizeState) (f : state_file)
    : state_file * outcome ProxyError unit :=
  match io with
  | None => (Some (inr s), Ok tt)
  | Some e => (f, Err e)
  end.

(** What one locked update meets: the clock, the error of the directory or the
    lock, and the error of writing the state. *)
Record locked_env := mkLockedEnv {
  env_now : Z;
  env_instance : string;
  env_lock : option ProxyError;
  env_persist : option ProxyError;
}.

(** Read, change and write the state file under its lock; the total is returned. *)
Definition locked_update (env : locked_env) (change : SizeState -> SizeState) (f : state_file)
    : state_file * outcome ProxyError Z :=
  match env_lock env with
  | Some e => (f, Err e)
  | None =>
      match load_size_state f with
      | Ok s =>
          let s := change s in
          match persist_size_state_internal (env_persist env) s f with
          | (f, Ok _) => (f, Ok (total_size s))
          | (f, Err e) => (f, Err e)
          | (f, Panic) => (f, Panic)
          end
      | Err e => (f, Err e)
      | Panic => (f, Panic)
      end
  end.

(** [(-d) as u64] for a negative [i64]. *)
Definition neg_as_u64 (d : Z) : Z := wrap64 (wrap_i64 (- d)).

Definition apply_delta (size d : Z) : Z :=
  if 0 <=? d then saturating_add size d else saturating_sub size (neg_as_u64 d).

Definition atomic_update_size_delta (env : locked_env) (size_delta wc_delta : Z) (f : state_file)
    : state_file * outcome ProxyError Z :=
  if (size_delta =? 0) && (wc_delta =? 0) then (f, Ok (get_current_size f)) else
  locked_update env (fun s =>
    mkSizeState (apply_delta (total_size s) size_delta) (apply_delta (write_cache_size s) wc_delta)
      (cached_objects s) (env_now env) (u64_add (consolidation_count s) 1) (env_instance env)) f.

Definition with_total (s : SizeState) (n : Z) (instance : string) : SizeState :=
  mkSizeState n (write_cache_size s) (cached_objects s) (last_consolidation s) (consolidation_count s)
    instance.

Definition with_objects (s : SizeState) (n : Z) (instance : string) : SizeState :=
  mkSizeState (total_size s) (write_cache_size s) n (last_consolidation s) (consolidation_count s)
    instance.

Definition atomic_subtract_size (env : locked_env) (bytes_freed : Z) (f : state_file) :=
  if bytes_freed =? 0 then (f, Ok (get_current_size f)) else
  locked_update env (fun s => with_total s (saturating_sub (total_size s) bytes_freed) (env_instance env)) f.

Definition atomic_add_size (env : locked_env) (bytes_added : Z) (f : state_file) :=
  if bytes_added =? 0 then (f, Ok (get_current_size f)) else
  locked_update env (fun s => with_total s (saturating_add (total_size s) bytes_added) (env_instance env)) f.

(** The object counts report no error: a failure leaves the file as it is. *)
Definition decrement_cached_objects (env : locked_env) (objects_removed : Z) (f : state_file) : state_file :=
  if objects_removed =? 0 then f else
  (locked_update env (fun s =>
     with_objects s (saturating_sub (cached_objects s) objects_removed) (env_instance env)) f).1.

Definition increment_cached_objects (env : locked_env) (objects_added : Z) (f : state_file) : state_file :=
  if objects_added =? 0 then f else
  (locked_update env (fun s =>
     with_objects s (saturating_add (cached_objects s) objects_added) (env_instance env)) f).1.

Definition validated_state (s : SizeState) (scanned_size : Z) (wc_size objects : option Z)
    (instance : string) : SizeState :=
  mkSizeState scanned_size
    (match wc_size with
     | Some n => if scanned_size <? n then scanned_size else n
     | None => write_cache_size s
     end)
    (default (cached_objects s) objects) (last_consolidation s) (consolidation_count s) instance.

Definition update_size_from_validation `{HashIter} (deletable : string -> bool) (instance : string)
    (persist : option ProxyError) (scanned_size : Z) (wc_size objects : option Z)
    (f : state_file) (dir : Dir) (a : SizeAccumulator) : state_file * Dir * SizeAccumulator :=
  let s := validated_state (get_size_state f) scanned_size wc_size objects instance in
  ((persist_size_state_internal persist s f).1, reset_all_delta_files deletable dir, reset a).

(** The accounting half of [run_consolidation_cycle]: flush, and under the global
    lock collect the delta files and fold their sum into the state.  The idle test
    that precedes it is [has_pending_delta] or a journal file with content. *)
Definition accounting_cycle `{HashIter} (deletable : string -> bool) (io : write_outcome)
    (global_lock : bool) (env : locked_env) (journals_pending : bool)
    (f : state_file) (dir : Dir) (a : SizeAccumulator) : state_file * Dir * SizeAccumulator :=
  if negb (has_pending_delta a) && negb journals_pending then (f, dir, a) else
  let '(a, dir, _) := flush io dir a in
  if negb global_lock then (f, dir, a) else
  let '(dir, (td, tw)) := collect_and_apply_deltas deletable dir in
  if negb (td =? 0) || negb (tw =? 0)
  then ((atomic_update_size_delta env td tw f).1, dir, a)
  else (f, dir, a).

(** ** Interleavings

    The threads of one instance share its accumulator, and all instances and the
    consolidator share the directory.  A thread between two accesses is what it
    still has to do. *)

Inductive thread :=
  | Crediting (n : Z)
  | Debiting (n : Z)
  | Swapped (d : Z)
  | Flushing (d w : Z)
  | Writing (d w seq : Z)
  | Restoring (d w : Z)
  | RestoringWc (w : Z).

Record machine := mkMachine {
  acc : SizeAccumulator;
  dir : Dir;
  threads : list thread;
  (** The sums of the collection under way; the global lock allows one at a time. *)
  collected : Z;
  collected_wc : Z;
  size_file : state_file;
}.

Inductive event :=
  | EvAdd (n : Z)
  | EvSubtract (n : Z)
  | EvAddWc (n : Z)
  | EvSubtractWc (n : Z)
  | EvAddRange (id : range_id) (n : Z) (added : bool)
  | EvSubtractRange (id : range_id) (n : Z) (was_tracked : bool)
  | EvForeign (f : delta_file)
  (** A delta file was summed; whether it could be unlinked. *)
  | EvCollected (f : delta_file) (unlinked : bool)
  (** The sums were folded into the state, which held these sizes. *)
  | EvApplied (d w total wc : Z)
  (** The sums were not: the update failed, or the listing did. *)
  | EvLost (d w : Z)
  (** A graduation took its bytes out of the staged size of the state, which held [wc]. *)
  | EvGraduated (w wc : Z)
  | EvInternal.

(** The bytes an event adds to the account. *)
Definition ev_delta (e : event) : Z :=
  match e with
  | EvAdd n => n
  | EvSubtract n => - n
  | EvAddRange _ n added => if added then n else 0
  | EvSubtractRange _ n _ => - n
  | EvForeign f => file_delta f
  | _ => 0
  end.

Definition ev_wc (e : event) : Z :=
  match e with
  | EvAddWc n => n
  | EvSubtractWc n => - n
  | EvForeign f => file_wc_delta f
  | EvGraduated w _ => w
  | _ => 0
  end.

(** What the saturating update of a size makes of the sum. *)
Definition clamped (size d : Z) : Z := Z.max 0 (Z.min U64_MAX (size + d)) - (size + d).

(** What goes wrong: a file that is summed and stays is summed again, a sum that is not applied is
    lost, and a size is held between zero and the largest [u64]. *)
Definition ev_drift (e : event) : Z :=
  match e with
  | EvCollected f unlinked => if unlinked then 0 else file_delta f
  | EvApplied d _ total _ => clamped total d
  | EvLost d _ => - d
  | _ => 0
  end.

Definition ev_drift_wc (e : event) : Z :=
  match e with
  | EvCollected f unlinked => if unlinked then 0 else file_wc_delta f
  | EvApplied _ w _ wc => clamped wc w
  | EvLost _ w => - w
  | EvGraduated w wc => clamped wc w
  | _ => 0
  end.

(** A name this instance gives to no delta file. *)
Definition foreign_name (instance name : string) : Prop :=
  forall seq, is_u64 seq -> name <> delta_file_name instance seq.

Definition tmp_name (instance : string) (seq : Z) : string :=
  with_extension (delta_file_name instance seq) "json.tmp".

Inductive step : event -> machine -> machine -> Prop :=
  | step_add n a dr ts c cw sf :
      step (EvAdd n) (mkMachine a dr ts c cw sf) (mkMachine (add n a) dr ts c cw sf)
  | step_subtract n a dr ts c cw sf :
      step (EvSubtract n) (mkMachine a dr ts c cw sf) (mkMachine (subtract n a) dr ts c cw sf)
  | step_add_wc n a dr ts c cw sf :
      step (EvAddWc n) (mkMachine a dr ts c cw sf) (mkMachine (add_write_cache n a) dr ts c cw sf)
  | step_subtract_wc n a dr ts c cw sf :
      step (EvSubtractWc n) (mkMachine a dr ts c cw sf) (mkMachine (subtract_write_cache n a) dr ts c cw sf)
  | step_add_range id n a dr ts c cw sf a' added :
      track id a = (a', added) ->
      step (EvAddRange id n added) (mkMachine a dr ts c cw sf)
        (mkMachine a' dr (if added then Crediting n :: ts else ts) c cw sf)
  | step_subtract_range id n a dr ts c cw sf a' was_tracked :
      untrack id a = (a', was_tracked) ->
      step (EvSubtractRange id n was_tracked) (mkMachine a dr ts c cw sf)
        (mkMachine a' dr (Debiting n :: ts) c cw sf)
  | step_credit n a dr l l' c cw sf :
      step EvInternal (mkMachine a dr (l ++ Crediting n :: l') c cw sf)
        (mkMachine (fetch_add_delta (wrap_i64 n) a) dr (l ++ l') c cw sf)
  | step_debit n a dr l l' c cw sf :
      step EvInternal (mkMachine a dr (l ++ Debiting n :: l') c cw sf)
        (mkMachine (fetch_add_delta (- wrap_i64 n) a) dr (l ++ l') c cw sf)
  | step_flush a dr ts c cw sf a' d :
      swap_delta a = (a', d) ->
      step EvInternal (mkMachine a dr ts c cw sf) (mkMachine a' dr (Swapped d :: ts) c cw sf)
  | step_swap_wc d a dr l l' c cw sf a' w :
      swap_wc a = (a', w) ->
      step EvInternal (mkMachine a dr (l ++ Swapped d :: l') c cw sf)
        (mkMachine a' dr (if (d =? 0) && (w =? 0) then l ++ l' else l ++ Flushing d w :: l') c cw sf)
  | step_create_dir_fails d w a dr l l' c cw sf :
      step EvInternal (mkMachine a dr (l ++ Flushing d w :: l') c cw sf)
        (mkMachine a dr (l ++ Restoring d w :: l') c cw sf)
  | step_next_sequence d w a dr l l' c cw sf a' seq :
      flush_sequence a < U64_MAX -> next_sequence a = (a', seq) ->
      step EvInternal (mkMachine a dr (l ++ Flushing d w :: l') c cw sf)
        (mkMachine a' dr (l ++ Writing d w seq :: l') c cw sf)
  | step_write_fails d w seq f a dr l l' c cw sf :
      step EvInternal (mkMachine a dr (l ++ Writing d w seq :: l') c cw sf)
        (mkMachine a (match f with Some f => <[tmp_name (instance_id a) seq:=f]> dr | None => dr end)
           (l ++ Restoring d w :: l') c cw sf)
  | step_renamed d w seq a dr l l' c cw sf :
      step EvInternal (mkMachine a dr (l ++ Writing d w seq :: l') c cw sf)
        (mkMachine a (<[delta_file_name (instance_id a) seq:=DeltaJson (Some d) (Some w)]>
                        (delete (tmp_name (instance_id a) seq) dr)) (l ++ l') c cw sf)
  | step_restore d w a dr l l' c cw sf :
      step EvInternal (mkMachine a dr (l ++ Restoring d w :: l') c cw sf)
        (mkMachine (fetch_add_delta d a) dr (l ++ RestoringWc w :: l') c cw sf)
  | step_restore_wc w a dr l l' c cw sf :
      step EvInternal (mkMachine a dr (l ++ RestoringWc w :: l') c cw sf)
        (mkMachine (fetch_add_wc w a) dr (l ++ l') c cw sf)
  | step_foreign name f a dr ts c cw sf :
      is_delta_name name = true -> foreign_name (instance_id a) name -> dr !! name = None ->
      step (EvForeign f) (mkMachine a dr ts c cw sf) (mkMachine a (<[name:=f]> dr) ts c cw sf)
  | step_collect name f unlinked a dr ts c cw sf :
      is_delta_name name = true -> dr !! name = Some f -> file_delta f <> 0 \/ file_wc_delta f <> 0 ->
      step (EvCollected f unlinked) (mkMachine a dr ts c cw sf)
        (mkMachine a (if unlinked then delete name dr else dr) ts (wrap_i64 (c + file_delta f)) (wrap_i64 (cw + file_wc_delta f)) sf)
  | step_abandon a dr ts c cw sf :
      step (EvLost c cw) (mkMachine a dr ts c cw sf) (mkMachine a dr ts 0 0 sf)
  | step_apply env a dr ts c cw sf sf' r :
      c <> 0 \/ cw <> 0 -> atomic_update_size_delta env c cw sf = (sf', r) ->
      step (match r with Ok _ => EvApplied c cw (get_current_size sf) (get_write_cache_size sf) | _ => EvLost c cw end)
        (mkMachine a dr ts c cw sf) (mkMachine a dr ts 0 0 sf')
  | step_graduate env w a dr ts c cw sf sf' r :
      is_i64 w -> w <> 0 -> atomic_update_size_delta env 0 w sf = (sf', r) ->
      step (match r with Ok _ => EvGraduated w (get_write_cache_size sf) | _ => EvInternal end)
        (mkMachine a dr ts c cw sf) (mkMachine a dr ts c cw sf').

Inductive run : list event -> machine -> machine -> Prop :=
  | run_nil m : run [] m m
  | run_snoc es e m m1 m2 : run es m m1 -> step e m1 m2 -> run (es ++ [e]) m m2.

(** What the threads hold between a swap and the write that follows it. *)
Definition held (t : thread) : Z :=
  match t with
  | Crediting n => n
  | Debiting n => - n
  | Swapped d | Flushing d _ | Writing d _ _ | Restoring d _ => d
  | RestoringWc _ => 0
  end.

Definition held_wc (t : thread) : Z :=
  match t with
  | Flushing _ w | Writing _ w _ | Restoring _ w | RestoringWc w => w
  | _ => 0
  end.

(** The sum of a field over the delta files of the directory. *)
Definition dir_total (g : delta_file -> Z) (dr : Dir) : Z :=
  map_total g (base.filter (fun kx => is_delta_name kx.1 = true) dr).

Definition account (m : machine) : Z :=
  get_current_size (size_file m) + delta (acc m) + sum_by held (threads m) + dir_total file_delta (dir m) + collected m.

Definition account_wc (m : machine) : Z :=
  get_write_cache_size (size_file m) + write_cache_delta (acc m) + sum_by held_wc (threads m) + dir_total file_wc_delta (dir m)
    + collected_wc m.

(** The sizes and the sums keep their types. *)
Definition widths_ok (m : machine) : Prop :=
  is_i64 (collected m) /\ is_i64 (collected_wc m) /\
  forall s, size_file m = Some (inr s) -> is_u64 (total_size s) /\ is_u64 (write_cache_size s).

(** ** Facts *)

Lemma dir_total_insert g dr k f :
  dr !! k = None -> dir_total g (<[k:=f]> dr) = (if is_delta_name k then g f else 0) + dir_total g dr.
Proof.
  intros Hk. unfold dir_total. destruct (is_delta_name k) eqn:E.
  - rewrite map_filter_insert_True by done. apply map_total_insert. apply map_lookup_filter_None. by left.
  - rewrite map_filter_insert_False by (simpl; congruence). by rewrite delete_id.
Qed.

Lemma dir_total_delete g dr k f :
  dr !! k = Some f -> dir_total g (delete k dr) = dir_total g dr - (if is_delta_name k then g f else 0).
Proof.
  intros Hk. rewrite <- (insert_delete_id dr k f Hk) at 2.
  rewrite dir_total_insert by apply lookup_delete_eq. lia.
Qed.

(** Entries that are not delta files do not count. *)
Lemma dir_total_other g dr dr' :
  (forall k, is_delta_name k = true -> dr' !! k = dr !! k) -> dir_total g dr' = dir_total g dr.
Proof.
  intros Hk. unfold dir_total. f_equal. apply map_eq. intros k. apply option_eq. intros f.
  rewrite !map_lookup_filter_Some. simpl. split; intros [Hf Hn]; (split; [| done]).
  - by rewrite <- Hk.
  - by rewrite Hk.
Qed.

Lemma tmp_name_eq instance seq : tmp_name instance seq = (delta_file_name instance seq +:+ ".tmp")%string.
Proof.
  unfold tmp_name, delta_file_name. set (x := ("_" +:+ u64_to_string seq)%string).
  rewrite (string_app_assoc "_"). fold x. rewrite !(string_app_assoc _ _ ".json").
  unfold with_extension, rsplit_once. rewrite string_rev_distr.
  change (string_rev ".json" +:+ ?y)%string with ("nosj" +:+ String "." y)%string.
  rewrite split_once_app by done. cbn [mbind option_bind]. rewrite string_rev_involutive.
  simpl. by rewrite <- !string_app_assoc.
Qed.

Lemma tmp_not_delta instance seq : is_delta_name (tmp_name instance seq) = false.
Proof.
  unfold is_delta_name. rewrite tmp_name_eq. apply andb_false_iff. right. apply not_true_iff_false.
  intros [t E]%ends_with_spec. apply (f_equal string_rev) in E. by rewrite !string_rev_distr in E.
Qed.

Lemma dir_total_tmp g instance seq f dr : dir_total g (<[tmp_name instance seq:=f]> dr) = dir_total g dr.
Proof.
  apply dir_total_other. intros k Hk. rewrite lookup_insert_ne; [done |].
  intros E. by rewrite <- E, tmp_not_delta in Hk.
Qed.

Lemma dir_total_delete_tmp g instance seq dr :
  dir_total g (delete (tmp_name instance seq) dr) = dir_total g dr.
Proof.
  apply dir_total_other. intros k Hk. rewrite lookup_delete_ne; [done |].
  intros E. by rewrite <- E, tmp_not_delta in Hk.
Qed.

Lemma delta_name_is_delta instance seq : is_delta_name (delta_file_name instance seq) = true.
Proof.
  unfold is_delta_name, delta_file_name. apply andb_true_iff. split.
  - apply starts_with_spec. by eexists.
  - apply ends_with_spec. eexists. by rewrite !string_app_assoc.
Qed.

Lemma delta_file_name_inj instance seq seq' :
  is_u64 seq -> is_u64 seq' -> delta_file_name instance seq = delta_file_name instance seq' -> seq = seq'.
Proof.
  unfold delta_file_name. intros Hs Hs' E. apply string_app_inj_l, string_app_inj_l, string_app_inj_l in E.
  apply string_app_inj_r in E. by apply u64_to_string_inj.
Qed.

(** The sequence numbers of the writes under way are distinct, below the counter,
    and their files are not there yet. *)
Definition seq_of (t : thread) : option Z := match t with Writing _ _ seq => Some seq | _ => None end.

Definition seqs (ts : list thread) : list Z := omap seq_of ts.

Definition names_ok (m : machine) : Prop :=
  is_u64 (flush_sequence (acc m)) /\
  NoDup (seqs (threads m)) /\
  Forall (fun seq => 0 <= seq < flush_sequence (acc m) /\
                     dir m !! delta_file_name (instance_id (acc m)) seq = None) (seqs (threads m)) /\
  (forall seq, is_u64 seq -> is_Some (dir m !! delta_file_name (instance_id (acc m)) seq) ->
     seq < flush_sequence (acc m)).

Lemma seqs_app l l' : seqs (l ++ l') = seqs l ++ seqs l'.
Proof. apply omap_app. Qed.

Lemma seqs_silent l t l' : seq_of t = None -> seqs (l ++ t :: l') = seqs (l ++ l').
Proof. intros Ht. rewrite !seqs_app. cbn. by rewrite Ht. Qed.

Lemma seqs_writing l d w seq l' : seqs (l ++ Writing d w seq :: l') ≡ₚ seq :: seqs (l ++ l').
Proof. rewrite !seqs_app. cbn. by rewrite <- Permutation_middle. Qed.

(** The invariant only looks at the sequence counter, the files and the writes. *)
Lemma names_ok_same m m' :
  names_ok m -> flush_sequence (acc m') = flush_sequence (acc m) ->
  instance_id (acc m') = instance_id (acc m) -> seqs (threads m') ≡ₚ seqs (threads m) ->
  (forall seq, is_u64 seq -> is_Some (dir m' !! delta_file_name (instance_id (acc m)) seq) ->
     is_Some (dir m !! delta_file_name (instance_id (acc m)) seq)) -> names_ok m'.
Proof.
  intros (Hu & Hnd & Hw & Hd) Ef Ei Es Hf. unfold names_ok. rewrite Ef, Ei, Es. split_and!; try done.
  - eapply Forall_impl; [exact Hw |]. intros seq [? Hn]. split; [done |]. apply eq_None_not_Some. intros Hs.
    apply Hf in Hs; [by rewrite Hn in Hs; destruct Hs | unfold is_u64 in *; lia].
  - intros seq Hq Hs. by apply Hd, Hf.
Qed.

Lemma track_fields id a a' b :
  track id a = (a', b) ->
  delta a' = delta a /\ write_cache_delta a' = write_cache_delta a /\ instance_id a' = instance_id a /\
  flush_sequence a' = flush_sequence a /\
  (if b then (id ∉ recent_ranges a) /\ recent_ranges a' = {[ id ]} ∪ recent_ranges a
   else (id ∈ recent_ranges a) /\ a' = a).
Proof. unfold track. case_bool_decide; intros [= <- <-]; done. Qed.

Lemma lookup_delta_tmp instance instance' seq seq' (dr : Dir) f :
  (<[tmp_name instance seq:=f]> dr) !! delta_file_name instance' seq' = dr !! delta_file_name instance' seq'.
Proof.
  apply lookup_insert_ne. intros E. pose proof (tmp_not_delta instance seq) as H.
  rewrite E, delta_name_is_delta in H. done.
Qed.

Lemma lookup_delta_delete_tmp instance instance' seq seq' (dr : Dir) :
  delete (tmp_name instance seq) dr !! delta_file_name instance' seq' = dr !! delta_file_name instance' seq'.
Proof.
  apply lookup_delete_ne. intros E. pose proof (tmp_not_delta instance seq) as H.
  rewrite E, delta_name_is_delta in H. done.
Qed.

Lemma step_names_ok e m m' : step e m m' -> names_ok m -> names_ok m'.
Proof.
  intros Hs Hn. destruct Hs.
  all: try (apply (names_ok_same _ _ Hn); simpl; try done; by rewrite ?seqs_silent).
  - destruct (track_fields _ _ _ _ H) as (_ & _ & Ei & Ef & _).
    apply (names_ok_same _ _ Hn); simpl; try done. by destruct added.
  - injection H as <- _. apply (names_ok_same _ _ Hn); done.
  - injection H as <- _. apply (names_ok_same _ _ Hn); done.
  - injection H as <- _. apply (names_ok_same _ _ Hn); simpl; try done.
    destruct (_ && _); by rewrite !seqs_silent.
  - injection H0 as <- <-. destruct Hn as (Hu & Hnd & Hw & Hd). cbn [acc dir threads] in *.
    unfold names_ok, next_sequence. cbn [acc dir threads flush_sequence instance_id].
    rewrite seqs_silent in Hnd, Hw by done. rewrite seqs_writing.
    assert (E : u64_add (flush_sequence a) 1 = flush_sequence a + 1)
      by (apply u64_add_small; unfold is_u64, U64_MAX in *; lia). rewrite E.
    split_and!.
    + unfold is_u64, U64_MAX in *. lia.
    + constructor; [| done]. intros Hin. rewrite Forall_forall in Hw. destruct (Hw _ Hin). lia.
    + constructor.
      * split; [unfold is_u64 in *; lia |]. apply eq_None_not_Some. intros Hs. apply Hd in Hs; [lia | done].
      * eapply Forall_impl; [exact Hw |]. intros seq [? ?]. split; [lia | done].
    + intros seq Hq Hs. specialize (Hd seq Hq Hs). lia.
  - destruct Hn as (Hu & Hnd & Hw & Hd). cbn [acc dir threads] in *. rewrite seqs_writing in Hnd, Hw.
    apply NoDup_cons in Hnd as [_ Hnd]. apply Forall_cons in Hw as [_ Hw].
    split_and!; cbn [acc dir threads]; rewrite ?seqs_silent by done; try done.
    + eapply Forall_impl; [exact Hw |]. intros seq' [? ?]. destruct f; by rewrite ?lookup_delta_tmp.
    + intros seq'. destruct f; by rewrite ?lookup_delta_tmp; apply Hd.
  - destruct Hn as (Hu & Hnd & Hw & Hd). cbn [acc dir threads] in *. rewrite seqs_writing in Hnd, Hw.
    apply NoDup_cons in Hnd as [Hni Hnd]. apply Forall_cons in Hw as [[Hq _] Hw].
    split_and!; cbn [acc dir threads]; try done.
    + apply Forall_forall. intros seq' Hin. rewrite Forall_forall in Hw. destruct (Hw seq' Hin) as [? ?].
      split; [done |]. rewrite lookup_insert_ne, lookup_delta_delete_tmp; [done |].
      intros E. apply delta_file_name_inj in E; [congruence | unfold is_u64 in *; lia..].
    + intros seq' Hq' Hs. destruct (decide (seq' = seq)) as [-> | Hne]; [lia |].
      rewrite lookup_insert_ne, lookup_delta_delete_tmp in Hs; [by apply Hd |].
      intros E. apply delta_file_name_inj in E; [congruence | unfold is_u64 in *; lia..].
  - apply (names_ok_same _ _ Hn); simpl; try done. intros seq Hq. by rewrite lookup_insert_ne by (by apply H0).
  - apply (names_ok_same _ _ Hn); simpl; try done. intros seq Hq Hs. destruct unlinked; [| done].
    rewrite lookup_delete_is_Some in Hs. tauto.
Qed.

Lemma neg_as_u64_ok d : is_i64 d -> d < 0 -> neg_as_u64 d = - d.
Proof.
  unfold is_i64, neg_as_u64, wrap64, wrap_i64. intros Hd Hn. destruct (decide (d = - 2 ^ 63)) as [-> | Hne].
  - vm_compute. done.
  - rewrite (Z.mod_small (- d + 2 ^ 63)) by lia. rewrite Z.mod_small; lia.
Qed.

(** An update holds the size within a [u64]. *)
Lemma apply_delta_clamped size d : is_u64 size -> is_i64 d -> apply_delta size d = size + d + clamped size d.
Proof.
  unfold is_u64, is_i64. intros Hs Hd. unfold apply_delta, clamped, saturating_add, saturating_sub, U64_MAX in *. bsplit_goal; [lia |].
  rewrite neg_as_u64_ok by (unfold is_i64; lia). lia.
Qed.

Lemma atomic_update_sizes env d w sf sf' r :
  d <> 0 \/ w <> 0 -> is_i64 d -> is_i64 w ->
  (forall s, sf = Some (inr s) -> is_u64 (total_size s) /\ is_u64 (write_cache_size s)) ->
  atomic_update_size_delta env d w sf = (sf', r) ->
  (forall s, sf' = Some (inr s) -> is_u64 (total_size s) /\ is_u64 (write_cache_size s)) /\
  match r with
  | Ok _ => get_current_size sf' = get_current_size sf + d + clamped (get_current_size sf) d /\
            get_write_cache_size sf' = get_write_cache_size sf + w + clamped (get_write_cache_size sf) w
  | _ => sf' = sf
  end.
Proof.
  intros Hne Hd Hw Hsf. unfold atomic_update_size_delta.
  destruct ((d =? 0) && (w =? 0)) eqn:Ez; [rewrite andb_true_iff, !Z.eqb_eq in Ez; lia |]. unfold locked_update.
  destruct (env_lock env); [by intros [= <- <-] |]. destruct (load_size_state sf) as [s | e |] eqn:El; [| by intros [= <- <-]..].
  unfold persist_size_state_internal. destruct (env_persist env); [by intros [= <- <-] |]. intros [= <- <-].
  assert (is_u64 (total_size s) /\ is_u64 (write_cache_size s)) as [Ht Hwc].
  { destruct sf as [[e | s0] |]; cbn in El; [done | injection El as <-; by apply Hsf | injection El as <-; unfold is_u64; cbn; lia]. }
  unfold get_current_size, get_write_cache_size. rewrite El. cbn [load_size_state total_size write_cache_size].
  rewrite !apply_delta_clamped by done. split; [| done]. intros s' [= <-]. cbn.
  unfold is_u64, clamped, U64_MAX in *. lia.
Qed.

(** [cong] closes a congruence up to the wrap-around of the counters. *)
Ltac cong := rewrite ?sum_by_cons, ?wrap_i64_cong; cbn [held held_wc]; apply cong64_eq; lia.

#[local] Arguments sum_by : simpl never.

Lemma step_account e m m' :
  step e m m' -> names_ok m -> widths_ok m ->
  widths_ok m' /\ cong64 (account m') (account m + (ev_delta e + ev_drift e)) /\
  cong64 (account_wc m') (account_wc m + (ev_wc e + ev_drift_wc e)).
Proof.
  intros Hs Hn Hwd. split.
  { assert (is_i64 0) as H0 by (unfold is_i64; lia). destruct Hwd as (H1 & H2 & H3). destruct Hs; unfold widths_ok in *;
      cbn [collected collected_wc size_file] in *; try done.
    - split; [apply wrap_i64_range |]. split; [apply wrap_i64_range | done].
    - destruct (atomic_update_sizes _ _ _ _ _ _ H H1 H2 H3 H4). done.
    - destruct (atomic_update_sizes env 0 w sf sf' r) as [Hsf _]; try done. by right. }
  unfold account, account_wc. destruct Hs; cbn [acc dir threads collected collected_wc size_file ev_delta ev_wc ev_drift ev_drift_wc];
    rewrite ?sum_by_app, ?sum_by_cons; cbn [held held_wc].
  all: try (split; unfold add, subtract, add_write_cache, subtract_write_cache, fetch_add_delta, fetch_add_wc;
            cbn [delta write_cache_delta]; cong).
  - destruct (track_fields _ _ _ _ H) as (-> & -> & _). destruct added; cbn. all: split; cong.
  - injection H as <- _. cbn. split; cong.
  - injection H as <- <-. cbn. split; cong.
  - injection H as <- <-. cbn. destruct ((d =? 0) && _) eqn:E.
    + apply andb_true_iff in E as [->%Z.eqb_eq ->%Z.eqb_eq]. rewrite !sum_by_app. split; cong.
    + rewrite !sum_by_app. cbn. split; cong.
  - injection H0 as <- <-. cbn. split; cong.
  - destruct f; rewrite ?dir_total_tmp; split; cong.
  - destruct Hn as (_ & _ & Hw & _). cbn [acc dir threads] in Hw. rewrite seqs_writing in Hw.
    apply Forall_cons in Hw as [[_ Hnone] _].
    rewrite !dir_total_insert, delta_name_is_delta by (by rewrite lookup_delta_delete_tmp).
    rewrite !dir_total_delete_tmp.
    cbn. split; cong.
  - rewrite !dir_total_insert, H by done. split; cong.
  - destruct unlinked; [rewrite !(dir_total_delete _ dr name f), H by done |]; split; cong.
  - destruct Hwd as (H1 & H2 & H3). cbn in H1, H2, H3. destruct (atomic_update_sizes _ _ _ _ _ _ H H1 H2 H3 H0) as [_ Hr].
    destruct r; cbn; [destruct Hr as [-> ->] | rewrite Hr | rewrite Hr]; split; cong.
  - assert (is_i64 0) as Hzero by (unfold is_i64; lia). destruct Hwd as (_ & _ & H3). cbn in H3.
    destruct (atomic_update_sizes env 0 w sf sf' r) as [_ Hr]; try done; [by right |].
    assert (clamped (get_current_size sf) 0 = 0) as Hz.
    { unfold clamped, get_current_size. destruct sf as [[e | s0] |]; cbn in *; [unfold U64_MAX; lia | | unfold U64_MAX; lia].
      destruct (H3 s0 eq_refl) as [[? ?] _]. unfold U64_MAX in *. lia. }
    destruct r; cbn; [destruct Hr as [-> ->] | rewrite Hr | rewrite Hr]; split; cong.
Qed.

(** ** Counted ranges *)

Definition counted (size_of : range_id -> Z) (s : gset range_id) : Z := sum_by size_of (elements s).

Lemma counted_insert size_of s id :
  id ∉ s -> counted size_of ({[ id ]} ∪ s) = size_of id + counted size_of s.
Proof. intros Hid. unfold counted. by rewrite elements_union_singleton. Qed.

Lemma counted_delete size_of s id :
  id ∈ s -> counted size_of (s ∖ {[ id ]}) = counted size_of s - size_of id.
Proof.
  intros Hid. assert (E : s = {[ id ]} ∪ s ∖ {[ id ]}) by (by apply union_difference_singleton_L).
  rewrite E at 2. rewrite counted_insert; [lia |].
  rewrite not_elem_of_difference, elem_of_singleton. by right.
Qed.

(** Every byte is credited and debited as a range of its recorded size, and no range
    is debited that is not counted. *)
Definition by_range (size_of : range_id -> Z) (e : event) : Prop :=
  match e with
  | EvAdd n | EvSubtract n => n = 0
  | EvAddRange id n _ => n = size_of id
  | EvSubtractRange id n was_tracked => n = size_of id /\ was_tracked = true
  | EvForeign f => file_delta f = 0
  | _ => True
  end.

Lemma step_counted size_of e m m' :
  step e m m' -> by_range size_of e ->
  counted size_of (recent_ranges (acc m')) = counted size_of (recent_ranges (acc m)) + ev_delta e.
Proof.
  intros Hs He. destruct Hs; cbn in He |- *; subst; try lia.
  - destruct (track_fields _ _ _ _ H) as (_ & _ & _ & _ & Hb). destruct added.
    + destruct Hb as [Hid ->]. rewrite counted_insert by done. lia.
    + destruct Hb as [_ ->]. lia.
  - destruct He as [-> ->]. injection H as <- Hid. apply bool_decide_eq_true in Hid. cbn.
    rewrite counted_delete by done. lia.
  - injection H as <- _. cbn. lia.
  - injection H as <- _. cbn. lia.
  - injection H0 as <- _. cbn. lia.
  - destruct r; cbn; lia.
  - destruct r; cbn; lia.
Qed.

Lemma machine_run_ok es m m' :
  run es m m' -> names_ok m -> widths_ok m ->
  names_ok m' /\ widths_ok m' /\ cong64 (account m') (account m + (sum_by ev_delta es + sum_by ev_drift es)) /\
  cong64 (account_wc m') (account_wc m + (sum_by ev_wc es + sum_by ev_drift_wc es)) /\
  forall size_of, Forall (by_range size_of) es ->
    counted size_of (recent_ranges (acc m')) = counted size_of (recent_ranges (acc m)) + sum_by ev_delta es.
Proof.
  induction 1 as [m | es e m m1 m2 Hr IH Hs]; intros Hn Hwd.
  { rewrite !sum_by_nil, !Z.add_0_r. split_and!; try done. intros. by rewrite Z.add_0_r. }
  destruct (IH Hn Hwd) as (Hn1 & Hwd1 & Ha & Hw & Hc). destruct (step_account e m1 m2 Hs Hn1 Hwd1) as (Hwd2 & Ha2 & Hw2).
  rewrite !sum_by_app, !sum_by_cons, !sum_by_nil. split_and!.
  - by eapply step_names_ok.
  - done.
  - rewrite Ha2, Ha. apply cong64_eq. lia.
  - rewrite Hw2, Hw. apply cong64_eq. lia.
  - intros size_of [Hf He]%Forall_app. apply Forall_cons in He as [He _].
    rewrite (step_counted size_of e m1 m2 Hs He), (Hc size_of Hf). lia.
Qed.

(** A process that starts with an instance name no delta file carries. *)
Definition start (instance : string) (dr : Dir) (sf : state_file) : machine := mkMachine (new instance) dr [] 0 0 sf.

Lemma start_names_ok instance dr sf :
  (forall name, is_Some (dr !! name) -> foreign_name instance name) -> names_ok (start instance dr sf).
Proof.
  intros Hd. split_and!; cbn.
  - unfold is_u64. lia.
  - constructor.
  - constructor.
  - intros seq Hq Hs. by destruct (Hd _ Hs seq Hq).
Qed.

(** Nothing went wrong: the file was unlinked, the sum was applied, and the size stayed within a [u64]. *)
Definition untroubled (e : event) : Prop :=
  match e with
  | EvCollected _ unlinked => unlinked = true
  | EvApplied d w total wc => 0 <= total + d <= U64_MAX /\ 0 <= wc + w <= U64_MAX
  | EvLost d w => d = 0 /\ w = 0
  | EvGraduated w wc => 0 <= wc + w <= U64_MAX
  | _ => True
  end.

Lemma untroubled_drift es : Forall untroubled es -> sum_by ev_drift es = 0 /\ sum_by ev_drift_wc es = 0.
Proof.
  induction 1 as [| e es He _ [IH IHw]]; [done |]. rewrite !sum_by_cons, IH, IHw.
  destruct e as [| | | | | | | f [] | | | |]; cbn in *; unfold clamped; try done; lia.
Qed.

(** C20: the bytes on record and on their way to it add up, under every interleaving, between the start of a process (under a name no delta file
    carries) and a validation scan.  However the threads of an instance interleave their credits, debits and flushes, whichever writes of
    delta files fail, and whatever other instances write and a consolidator collects and applies meanwhile: the size
    in the state, the counter, what the threads hold, the delta files and the sum being collected add up, modulo [2^64], to the bytes on record and in
    files at the start, plus the bytes credited, minus the bytes debited, plus three corrections: a file that was
    summed and could not be unlinked counts again, a sum that was not applied is missing, and the saturation of an update adds what it
    cut off; none of them without such a failure.  The same holds for the staged size.  And when bytes are credited and debited as ranges
    and only counted ranges are debited, the credits minus the debits are the sizes of the ranges in the set, so that a stampede that
    stores one range many times counts it once. *)
Theorem size_account_conserved instance dr sf es m :
  (forall name, is_Some (dr !! name) -> foreign_name instance name) ->
  (forall s, sf = Some (inr s) -> is_u64 (total_size s) /\ is_u64 (write_cache_size s)) ->
  run es (start instance dr sf) m ->
  cong64 (get_current_size (size_file m) + delta (acc m) + sum_by held (threads m) + dir_total file_delta (dir m) + collected m)
    (get_current_size sf + dir_total file_delta dr + sum_by ev_delta es + sum_by ev_drift es) /\
  cong64 (get_write_cache_size (size_file m) + write_cache_delta (acc m) + sum_by held_wc (threads m)
          + dir_total file_wc_delta (dir m) + collected_wc m)
    (get_write_cache_size sf + dir_total file_wc_delta dr + sum_by ev_wc es + sum_by ev_drift_wc es) /\
  (Forall untroubled es -> sum_by ev_drift es = 0 /\ sum_by ev_drift_wc es = 0) /\
  (forall size_of, Forall (by_range size_of) es ->
     sum_by ev_delta es = sum_by size_of (elements (recent_ranges (acc m)))).
Proof.
  intros Hd Hsf Hr. destruct (machine_run_ok es _ m Hr (start_names_ok instance dr sf Hd)) as (_ & _ & Ha & Hw & Hc).
  { split_and!; [cbn; unfold is_i64; lia.. | done]. }
  unfold account, account_wc in Ha, Hw. cbn in Ha, Hw. rewrite !sum_by_nil, !Z.add_0_r in Ha, Hw.
  split_and!; [by rewrite Ha; apply cong64_eq; lia | by rewrite Hw; apply cong64_eq; lia | apply untroubled_drift |].
  intros size_of Hes. specialize (Hc size_of Hes). unfold counted in Hc. by rewrite Hc.
Qed.

(** ** The methods run the steps *)

Lemma machine_run_app es es' m m1 m2 : run es m m1 -> run es' m1 m2 -> run (es ++ es') m m2.
Proof.
  intros H H'. revert m H. induction H' as [m0 | es' e m1 m2 m3 H' IH Hs]; intros m H; [by rewrite app_nil_r |].
  rewrite app_assoc. eapply run_snoc; [by apply IH | done].
Qed.

Lemma run_one e m m' : step e m m' -> run [e] m m'.
Proof. intros Hs. exact (run_snoc [] e m m m' (run_nil m) Hs). Qed.

Lemma add_range_id_runs id n a a' b dr ts c cw sf :
  add_range_id id n a = (a', b) ->
  exists es, run (EvAddRange id n b :: es) (mkMachine a dr ts c cw sf) (mkMachine a' dr ts c cw sf) /\
    sum_by ev_delta es = 0.
Proof.
  unfold add_range_id. destruct (track id a) as [a1 [|]] eqn:E; intros [= <- <-].
  - exists [EvInternal]. split; [| done]. apply (machine_run_app [_] [_] _ (mkMachine a1 dr (Crediting n :: ts) c cw sf)); apply run_one.
    + by apply (step_add_range _ _ _ _ _ _ _ _ _ true).
    + apply (step_credit n a1 dr [] ts).
  - exists []. split; [| done]. apply run_one. by apply (step_add_range _ _ _ _ _ _ _ _ _ false).
Qed.

Lemma subtract_range_id_runs id n a a' b dr ts c cw sf :
  subtract_range_id id n a = (a', b) ->
  run [EvSubtractRange id n b; EvInternal] (mkMachine a dr ts c cw sf) (mkMachine a' dr ts c cw sf).
Proof.
  unfold subtract_range_id. destruct (untrack id a) as [a1 b1] eqn:E. intros [= <- <-].
  apply (machine_run_app [_] [_] _ (mkMachine a1 dr (Debiting n :: ts) c cw sf)); apply run_one.
  - by apply step_subtract_range.
  - apply (step_debit n a1 dr [] ts).
Qed.

(** The accumulator after both swaps. *)
Definition drained (a : SizeAccumulator) : SizeAccumulator :=
  mkAccumulator 0 0 (instance_id a) (flush_sequence a) (recent_ranges a).

Lemma flush_unfold io dr a :
  flush io dr a =
    if (delta a =? 0) && (write_cache_delta a =? 0) then (drained a, dr, Ok tt) else
    match write_delta_file io (delta a) (write_cache_delta a) dr (drained a) with
    | (a', dr', Err e) => (fetch_add_wc (write_cache_delta a) (fetch_add_delta (delta a) a'), dr', Err e)
    | r => r
    end.
Proof. done. Qed.

Lemma flush_runs io a a' dr dr' r ts c cw sf :
  flush_sequence a < U64_MAX -> flush io dr a = (a', dr', r) ->
  exists es, run es (mkMachine a dr ts c cw sf) (mkMachine a' dr' ts c cw sf) /\ Forall (eq EvInternal) es.
Proof.
  intros Hseq. rewrite flush_unfold. set (a1 := (swap_delta a).1). set (a2 := drained a).
  assert (H1 : run [EvInternal] (mkMachine a dr ts c cw sf) (mkMachine a1 dr (Swapped (delta a) :: ts) c cw sf))
    by (apply run_one, step_flush; done).
  assert (H2 : step EvInternal (mkMachine a1 dr (Swapped (delta a) :: ts) c cw sf)
    (mkMachine a2 dr (if (delta a =? 0) && (write_cache_delta a =? 0) then ts
                      else Flushing (delta a) (write_cache_delta a) :: ts) c cw sf))
    by (apply (step_swap_wc (delta a) a1 dr [] ts c cw sf a2 (write_cache_delta a)); done).
  pose proof (machine_run_app _ _ _ _ _ H1 (run_one _ _ _ H2)) as H3. clear H1 H2.
  destruct ((delta a =? 0) && _).
  { intros [= <- <- _]. eexists. split; [exact H3 | by repeat constructor]. }
  assert (Hrest : forall b d w dr0, run [EvInternal; EvInternal] (mkMachine b dr0 (Restoring d w :: ts) c cw sf)
    (mkMachine (fetch_add_wc w (fetch_add_delta d b)) dr0 ts c cw sf)).
  { intros b d w dr0. eapply (machine_run_app [_] [_]); apply run_one.
    - apply (step_restore d w b dr0 [] ts).
    - apply (step_restore_wc w _ dr0 [] ts). }
  set (a3 := (next_sequence a2).1).
  assert (H4 : step EvInternal (mkMachine a2 dr (Flushing (delta a) (write_cache_delta a) :: ts) c cw sf)
    (mkMachine a3 dr (Writing (delta a) (write_cache_delta a) (flush_sequence a) :: ts) c cw sf))
    by exact (step_next_sequence (delta a) (write_cache_delta a) a2 dr [] ts c cw sf a3 (flush_sequence a) Hseq eq_refl).
  unfold write_delta_file. destruct io as [| | f |]; cbn beta iota zeta; intros [= <- <- _].
  - eexists. split; [eapply (machine_run_app _ [_; _]); [exact H3 | eapply (machine_run_app [_] [_]); [by apply run_one |]] |].
    + apply run_one. apply (step_renamed (delta a) (write_cache_delta a) (flush_sequence a) a3 dr [] ts).
    + by repeat constructor.
  - eexists. split; [eapply (machine_run_app _ [_; _; _]); [exact H3 | eapply (machine_run_app [_] [_; _]); [apply run_one |]] |].
    + apply (step_create_dir_fails (delta a) (write_cache_delta a) a2 dr [] ts).
    + apply Hrest.
    + by repeat constructor.
  - eexists. split; [eapply (machine_run_app _ [_; _; _; _]); [exact H3 | eapply (machine_run_app [_] [_; _; _]); [by apply run_one |]] |].
    + eapply (machine_run_app [_] [_; _]); [apply run_one |].
      * apply (step_write_fails (delta a) (write_cache_delta a) (flush_sequence a) f a3 dr [] ts).
      * apply Hrest.
    + by repeat constructor.
  - eexists. split; [eapply (machine_run_app _ [_; _; _; _]); [exact H3 | eapply (machine_run_app [_] [_; _; _]); [by apply run_one |]] |].
    + eapply (machine_run_app [_] [_; _]); [apply run_one |].
      * apply (step_write_fails (delta a) (write_cache_delta a) (flush_sequence a)
                 (Some (DeltaJson (Some (delta a)) (Some (write_cache_delta a)))) a3 dr [] ts).
      * apply Hrest.
    + by repeat constructor.
Qed.

(** ** Collecting the delta files *)

Lemma delta_not_tmp name : is_delta_name name = true -> ends_with ".json.tmp" name = false.
Proof.
  unfold is_delta_name. rewrite andb_true_iff, ends_with_spec. intros [_ [x ->]]. apply not_true_iff_false.
  intros [y E]%ends_with_spec. apply (f_equal string_rev) in E. by rewrite !string_rev_distr in E.
Qed.

Definition entry_total (g : delta_file -> Z) (kx : string * delta_file) : Z :=
  if is_delta_name kx.1 then g kx.2 else 0.

Lemma entries_total g dr : sum_by (entry_total g) (map_to_list dr) = dir_total g dr.
Proof.
  induction dr as [| k f dr Hk IH] using map_ind; [done |].
  rewrite map_to_list_insert, sum_by_cons, IH, dir_total_insert by done. done.
Qed.

Lemma collect_loop_spec deletable entries dr td tw :
  let '(dr', (td', tw')) := collect_loop deletable dr td tw entries in
  cong64 td' (td + sum_by (entry_total file_delta) entries) /\
  cong64 tw' (tw + sum_by (entry_total file_wc_delta) entries) /\
  (is_i64 td -> is_i64 td') /\ (is_i64 tw -> is_i64 tw') /\
  dr' ⊆ dr /\ (forall k, is_delta_name k = false -> dr' !! k = dr !! k) /\
  (forall k f, (k, f) ∈ entries -> is_delta_name k = true -> deletable k = true ->
     file_delta f <> 0 \/ file_wc_delta f <> 0 -> dr' !! k = None).
Proof.
  revert dr td tw. induction entries as [| [k f] es IH]; intros dr td tw; cbn [collect_loop].
  { rewrite !sum_by_nil, !Z.add_0_r. split_and!; try done. by intros k f Hk%elem_of_nil. }
  assert (Hskip : entry_total file_delta (k, f) = 0 -> entry_total file_wc_delta (k, f) = 0 ->
    (is_delta_name k = true -> ~ (file_delta f <> 0 \/ file_wc_delta f <> 0)) ->
    let '(dr', (td', tw')) := collect_loop deletable dr td tw es in
    cong64 td' (td + sum_by (entry_total file_delta) ((k, f) :: es)) /\
    cong64 tw' (tw + sum_by (entry_total file_wc_delta) ((k, f) :: es)) /\
    (is_i64 td -> is_i64 td') /\ (is_i64 tw -> is_i64 tw') /\
    dr' ⊆ dr /\ (forall k, is_delta_name k = false -> dr' !! k = dr !! k) /\
    (forall k' f', (k', f') ∈ (k, f) :: es -> is_delta_name k' = true -> deletable k' = true ->
       file_delta f' <> 0 \/ file_wc_delta f' <> 0 -> dr' !! k' = None)).
  { intros E1 E2 E3. specialize (IH dr td tw). destruct (collect_loop deletable dr td tw es) as [dr' [td' tw']].
    rewrite !sum_by_cons, E1, E2. destruct IH as (Ha & Hb & Hc & Hd & He & Hf & Hg). split_and!; try done.
    intros k' f' [[= -> ->] | Hin]%elem_of_cons Hn ? ?; [by destruct (E3 Hn) | by eapply Hg]. }
  unfold entry_total in Hskip. cbn [fst snd] in Hskip.
  destruct (is_delta_name k) eqn:Ek; cbn [negb orb]; [| apply Hskip; done].
  rewrite (delta_not_tmp k Ek). destruct f as [| | d w]; [apply Hskip; cbn; lia.. |].
  destruct (Z.eqb_spec (file_delta (DeltaJson d w)) 0), (Z.eqb_spec (file_wc_delta (DeltaJson d w)) 0);
    cbn [andb]; [by apply Hskip; lia | | |].
  all: clear Hskip.
  all: match goal with |- context [collect_loop ?df ?dr1 ?td1 ?tw1 ?l] =>
    specialize (IH dr1 td1 tw1); destruct (collect_loop df dr1 td1 tw1 l) as [dr' [td' tw']] end.
  all: destruct IH as (Ha & Hb & Hc & Hd & He & Hf & Hg);
    rewrite !sum_by_cons; unfold entry_total at 1 3; cbn [fst snd]; rewrite !Ek; split_and!.
  all: try (rewrite Ha || rewrite Hb; cong).
  all: try (intros _; first [apply Hc | apply Hd]; apply wrap_i64_range).
  all: try (etrans; [exact He |]; destruct (deletable k); [apply delete_subseteq | done]).
  all: try (intros k' Hk'; rewrite Hf by done; destruct (deletable k); [| done];
            rewrite lookup_delete_ne; [done | congruence]).
  all: intros k' f' [[= -> ->] | Hin]%elem_of_cons ? Hdel ?; [| by eapply Hg].
  all: rewrite Hdel in He; apply eq_None_not_Some; intros [x Hx];
    apply (lookup_weaken _ _ _ _ Hx) in He; by rewrite lookup_delete_eq in He.
Qed.

(** Collecting takes every byte the delta files carry, and leaves none behind. *)
Lemma collect_spec `{HashIter} deletable dr :
  (forall k, deletable k = true) ->
  let '(dr', (td, tw)) := collect_and_apply_deltas deletable dr in
  cong64 td (dir_total file_delta dr) /\ cong64 tw (dir_total file_wc_delta dr) /\
  is_i64 td /\ is_i64 tw /\
  dir_total file_delta dr' = 0 /\ dir_total file_wc_delta dr' = 0 /\
  (forall k, is_delta_name k = false -> dr' !! k = dr !! k).
Proof.
  intros Hdel. unfold collect_and_apply_deltas. pose proof (collect_loop_spec deletable (hash_iter dr) dr 0 0) as Hl.
  destruct (collect_loop _ _ _ _ _) as [dr' [td tw]].
  destruct Hl as (Ha & Hb & Hc & Hd & Hsub & Hf & Hg). rewrite !hash_iter_perm, !entries_total in *.
  assert (Hz : forall g, (g = file_delta \/ g = file_wc_delta) -> dir_total g dr' = 0).
  { intros g Hgg. rewrite <- entries_total. clear Ha Hb Hc Hd.
    assert (Hall : Forall (fun kx => entry_total g kx = 0) (map_to_list dr')).
    { apply Forall_forall. intros [k f] Hk%elem_of_map_to_list. unfold entry_total. cbn [fst snd].
      destruct (is_delta_name k) eqn:Ek; [| done]. destruct (decide (file_delta f = 0 /\ file_wc_delta f = 0))
        as [[? ?] | Hn]; [by destruct Hgg as [-> | ->] |].
      exfalso. rewrite (Hg k f) in Hk; [done | | done | by apply Hdel | lia].
      apply hash_iter_lookup. by apply (lookup_weaken _ _ _ _ Hk). }
    induction Hall as [| kx l Hx _ IH]; [done |]. rewrite sum_by_cons. lia. }
  split_and!; [by rewrite Ha; apply cong64_eq; lia | by rewrite Hb; apply cong64_eq; lia | | | | |].
  - apply Hc. unfold is_i64. lia.
  - apply Hd. unfold is_i64. lia.
  - apply Hz. by left.
  - apply Hz. by right.
  - done.
Qed.

(** A delta that keeps the size in range is applied exactly. *)
Lemma apply_delta_exact size d : is_i64 d -> 0 <= size + d <= U64_MAX -> apply_delta size d = size + d.
Proof.
  intros Hd Hr. unfold apply_delta, saturating_add, saturating_sub, U64_MAX in *. bsplit_goal; [lia |].
  rewrite neg_as_u64_ok by (done || lia). lia.
Qed.

(** Whatever step of a flush fails, what is pending in memory and in the directory adds
    up to the same, when no file has the name the flush would write. *)
Lemma flush_conserves io dr a a' dr' r :
  dr !! delta_file_name (instance_id a) (flush_sequence a) = None -> flush io dr a = (a', dr', r) ->
  cong64 (delta a' + dir_total file_delta dr') (delta a + dir_total file_delta dr) /\
  cong64 (write_cache_delta a' + dir_total file_wc_delta dr') (write_cache_delta a + dir_total file_wc_delta dr).
Proof.
  intros Hfresh. rewrite flush_unfold. destruct (_ && _) eqn:Ez.
  { intros [= <- <- _]. cbn. apply andb_true_iff in Ez as [Ed%Z.eqb_eq Ew%Z.eqb_eq]. rewrite Ed, Ew. by split. }
  assert (Hback : forall b dr0 seq, (dir_total file_delta dr0 = dir_total file_delta dr /\ dir_total file_wc_delta dr0 = dir_total file_wc_delta dr) ->
    b = mkAccumulator 0 0 (instance_id a) seq (recent_ranges a) ->
    cong64 (delta (fetch_add_wc (write_cache_delta a) (fetch_add_delta (delta a) b)) + dir_total file_delta dr0) (delta a + dir_total file_delta dr) /\
    cong64 (write_cache_delta (fetch_add_wc (write_cache_delta a) (fetch_add_delta (delta a) b)) + dir_total file_wc_delta dr0)
      (write_cache_delta a + dir_total file_wc_delta dr)).
  { intros b dr0 seq [-> ->] ->. cbn. by rewrite !wrap_i64_cong, !Z.add_0_l. }
  unfold write_delta_file. destruct io as [| | remains |]; cbn [next_sequence drained instance_id flush_sequence].
  - intros [= <- <- _]. cbn [delta write_cache_delta]. rewrite !dir_total_insert, delta_name_is_delta by
      (fold (tmp_name (instance_id a) (flush_sequence a)); by rewrite lookup_delta_delete_tmp).
    fold (tmp_name (instance_id a) (flush_sequence a)). rewrite !dir_total_delete_tmp. cbn. split; apply cong64_eq; lia.
  - intros [= <- <- _]. by eapply Hback.
  - intros [= <- <- _]. eapply Hback; [| done]. destruct remains; [| done].
    fold (tmp_name (instance_id a) (flush_sequence a)). by rewrite !dir_total_tmp.
  - intros [= <- <- _]. eapply Hback; [| done]. fold (tmp_name (instance_id a) (flush_sequence a)). by rewrite !dir_total_tmp.
Qed.

Lemma flush_written a dr :
  dr !! delta_file_name (instance_id a) (flush_sequence a) = None ->
  let '(a', dr', r) := flush Written dr a in
  r = Ok tt /\ delta a' = 0 /\ write_cache_delta a' = 0 /\ recent_ranges a' = recent_ranges a /\
  dir_total file_delta dr' = delta a + dir_total file_delta dr /\
  dir_total file_wc_delta dr' = write_cache_delta a + dir_total file_wc_delta dr.
Proof.
  intros Hn. rewrite flush_unfold.
  destruct (Z.eqb_spec (delta a) 0), (Z.eqb_spec (write_cache_delta a) 0); cbn [andb];
    [cbn; split_and!; try done; lia | ..];
    change (write_delta_file Written (delta a) (write_cache_delta a) dr (drained a)) with
      ((next_sequence (drained a)).1,
       <[delta_file_name (instance_id a) (flush_sequence a):=DeltaJson (Some (delta a)) (Some (write_cache_delta a))]>
         (delete (tmp_name (instance_id a) (flush_sequence a)) dr), @Ok ProxyError unit tt);
    split_and!; try done; by rewrite dir_total_insert, delta_name_is_delta, dir_total_delete_tmp by (by rewrite lookup_delta_delete_tmp).
Qed.

Lemma atomic_update_exact env td tw f s :
  env_lock env = None -> env_persist env = None -> load_size_state f = Ok s ->
  is_i64 td -> is_i64 tw ->
  0 <= total_size s + td <= U64_MAX -> 0 <= write_cache_size s + tw <= U64_MAX ->
  let f' := (atomic_update_size_delta env td tw f).1 in
  get_current_size f' = total_size s + td /\ get_write_cache_size f' = write_cache_size s + tw.
Proof.
  intros Hl Hp Hs Htd Htw Ht Hw. unfold atomic_update_size_delta.
  destruct (Z.eqb_spec td 0), (Z.eqb_spec tw 0); cbn [andb];
    [unfold get_current_size, get_write_cache_size; cbn; rewrite Hs; lia | ..];
    unfold locked_update; rewrite Hl, Hs, Hp; unfold get_current_size, get_write_cache_size; cbn;
    by rewrite !apply_delta_exact.
Qed.

(** A consolidation cycle folds every pending byte into the size state, once.  When
    there is work and nothing fails, the cycle leaves a state whose two sizes are
    the old ones plus this instance's counters plus all the delta files of the
    directory, and leaves the counters and the files empty. *)
Theorem accounting_cycle_exact `{HashIter} env journals f dr a s :
  has_pending_delta a || journals = true ->
  env_lock env = None -> env_persist env = None -> load_size_state f = Ok s ->
  dr !! delta_file_name (instance_id a) (flush_sequence a) = None ->
  let d := delta a + dir_total file_delta dr in
  let w := write_cache_delta a + dir_total file_wc_delta dr in
  is_i64 d -> is_i64 w ->
  0 <= total_size s + d <= U64_MAX -> 0 <= write_cache_size s + w <= U64_MAX ->
  let '(f', dr', a') := accounting_cycle (fun _ => true) Written true env journals f dr a in
  get_current_size f' = total_size s + d /\ get_write_cache_size f' = write_cache_size s + w /\
  delta a' = 0 /\ write_cache_delta a' = 0 /\ recent_ranges a' = recent_ranges a /\
  dir_total file_delta dr' = 0 /\ dir_total file_wc_delta dr' = 0.
Proof.
  intros Hwork Hl Hp Hs Hn d w Hd Hw Ht Hwc. unfold accounting_cycle.
  rewrite <- negb_orb, Hwork. cbn [negb]. pose proof (flush_written a dr Hn) as Hf.
  destruct (flush Written dr a) as [[a1 dr1] r]. destruct Hf as (_ & Hz & Hzw & Hrec & E1 & E2).
  pose proof (collect_spec (fun _ => true) dr1 (fun _ => eq_refl)) as Hc.
  destruct (collect_and_apply_deltas _ dr1) as [dr2 [td tw]].
  destruct Hc as (Ctd & Ctw & Itd & Itw & Z1 & Z2 & _). rewrite E1 in Ctd. rewrite E2 in Ctw.
  apply (cong64_i64 td d Itd Hd) in Ctd as ->. apply (cong64_i64 tw w Itw Hw) in Ctw as ->.
  destruct (atomic_update_exact env d w f s Hl Hp Hs Hd Hw Ht Hwc) as [Es Ew].
  destruct (negb (d =? 0) || negb (w =? 0)) eqn:E; [done |].
  rewrite <- Es, <- Ew. unfold atomic_update_size_delta. rewrite <- (negb_involutive (_ && _)), negb_andb, E. done.
Qed.

(** ** Re-grounding *)

Lemma reset_loop_spec deletable entries dr :
  let dr' := reset_loop deletable dr entries in
  dr' ⊆ dr /\ (forall k, is_delta_name k = false -> dr' !! k = dr !! k) /\
  (forall k f, (k, f) ∈ entries -> is_delta_name k = true -> deletable k = true -> dr' !! k = None).
Proof.
  revert dr. induction entries as [| [k f] es IH]; intros dr; cbn [reset_loop]; cbn zeta.
  { split_and!; try done. by intros k f Hk%elem_of_nil. }
  destruct (is_delta_name k) eqn:Ek; cbn [negb].
  2: { destruct (IH dr) as (H1 & H2 & H3). split_and!; try done.
       intros k' f' [[= -> ->] | Hin]%elem_of_cons; [congruence | by apply (H3 k' f')]. }
  rewrite (delta_not_tmp k Ek). destruct (IH (if deletable k then delete k dr else dr)) as (H1 & H2 & H3).
  split_and!.
  - etrans; [exact H1 |]. destruct (deletable k); [apply delete_subseteq | done].
  - intros k' Hk'. rewrite H2 by done. destruct (deletable k); [| done]. rewrite lookup_delete_ne; [done | congruence].
  - intros k' f' [[= -> ->] | Hin]%elem_of_cons Hd Hdel; [| by apply (H3 k' f')].
    rewrite Hdel in H1 |- *. apply eq_None_not_Some. intros [x Hx].
    apply (lookup_weaken _ _ _ _ Hx) in H1. by rewrite lookup_delete_eq in H1.
Qed.

(** A validation scan re-grounds the account.  The state becomes the scanned
    size, the staged size it is given cut down to it, so that it stays a part of
    the total, and the scanned object count; no delta file and no counter is left
    to be applied on top, and every range can be counted again. *)
Theorem validation_regrounds `{HashIter} instance scanned wc objects f dr a :
  let '(f', dr', a') :=
    update_size_from_validation (fun _ => true) instance None scanned (Some wc) objects f dr a in
  get_current_size f' = scanned /\
  get_write_cache_size f' = Z.min wc scanned /\
  (forall n, objects = Some n -> cached_objects (get_size_state f') = n) /\
  dir_total file_delta dr' = 0 /\ dir_total file_wc_delta dr' = 0 /\
  has_pending_delta a' = false /\ (forall id n, (add_range_id id n a').2 = true).
Proof.
  unfold update_size_from_validation. cbn [persist_size_state_internal fst].
  assert (Hz : forall g, dir_total g (reset_all_delta_files (fun _ => true) dr) = 0).
  { intros g. unfold dir_total. replace (base.filter _ _) with (∅ : Dir); [apply map_total_empty |].
    symmetry. apply map_empty. intros k. apply map_lookup_filter_None. right. intros f0 Hf Hk. cbn in Hk.
    destruct (reset_loop_spec (fun _ => true) (hash_iter dr) dr) as (Hsub & _ & Hgone).
    pose proof (lookup_weaken _ _ _ _ Hf Hsub) as Hin.
    unfold reset_all_delta_files in Hf. rewrite (Hgone k f0) in Hf; [done | | done | done].
    by apply hash_iter_lookup. }
  unfold get_current_size, get_write_cache_size, get_size_state. cbn. split_and!; try done.
  - bsplit_goal; lia.
  - by intros n ->.
Qed.

(** ** Divergences *)

(** The scan means to remove the temporary files of interrupted writes too, but the
    test before it has already skipped every name that does not end in [.json]. *)
Lemma reset_keeps_temporary_files `{HashIter} deletable instance seq (dr : Dir) :
  reset_all_delta_files deletable dr !! tmp_name instance seq = dr !! tmp_name instance seq.
Proof. apply reset_loop_spec, tmp_not_delta. Qed.

(** Collecting deletes the files before their sum is safe: when the lock of the size
    state cannot be had, the bytes of all instances are gone from the account. *)
Lemma collected_deltas_lost `{HashIter} env e f dr a :
  env_lock env = Some e -> has_pending_delta a = true ->
  dr !! delta_file_name (instance_id a) (flush_sequence a) = None ->
  let '(f', dr', a') := accounting_cycle (fun _ => true) Written true env true f dr a in
  f' = f /\ dir_total file_delta dr' = 0 /\ delta a' = 0.
Proof.
  intros Hl Hp Hn. unfold accounting_cycle. rewrite Hp. cbn [negb andb]. pose proof (flush_written a dr Hn) as Hf.
  destruct (flush Written dr a) as [[a1 dr1] r]. destruct Hf as (_ & Hz & _).
  pose proof (collect_spec (fun _ => true) dr1 (fun _ => eq_refl)) as Hc.
  destruct (collect_and_apply_deltas _ dr1) as [dr2 [td tw]]. destruct Hc as (_ & _ & _ & _ & Z1 & _).
  destruct (negb (td =? 0) || negb (tw =? 0)); [| done].
  unfold atomic_update_size_delta, locked_update. rewrite Hl. by destruct (_ && _).
Qed.

(** Sequence numbers start over with the process, and the instance name is the host
    and the process number: a restart that gets the same number (process 1 of a
    container) writes over the delta file its predecessor left. *)
Lemma restart_overwrites_delta :
  let '(_, dr1, _) := flush Written ∅ (add 100 (new "host:1")) in
  let '(_, dr2, _) := flush Written dr1 (add 7 (new "host:1")) in
  dir_total file_delta dr1 = 100 /\ dir_total file_delta dr2 = 7.
Proof. vm_compute. done. Qed.

(** A scan that gives no staged size keeps the old one, even above the new total. *)
Lemma validation_without_staged_size :
  let s := validated_state (mkSizeState 100 60 1 0 0 "") 40 None None "" in
  total_size s < write_cache_size s.
Proof. done. Qed.

(** ** Concrete runs *)

Lemma size_account_conserved_witness :
  exists m, run [EvAddRange (1, 0, 9) 10 true; EvAddRange (1, 0, 9) 10 false; EvInternal] (start "h:1" ∅ None) m /\
    cong64 (get_current_size (size_file m) + delta (acc m) + sum_by held (threads m) + dir_total file_delta (dir m) + collected m) 10.
Proof.
  set (a := set_recent ({[ (1, 0, 9) ]} ∪ ∅) (new "h:1")).
  exists (mkMachine (fetch_add_delta (wrap_i64 10) a) ∅ [] 0 0 None).
  assert (Hr : run [EvAddRange (1, 0, 9) 10 true; EvAddRange (1, 0, 9) 10 false; EvInternal] (start "h:1" ∅ None)
    (mkMachine (fetch_add_delta (wrap_i64 10) a) ∅ [] 0 0 None)).
  { apply (machine_run_app [_] [_; _] _ (mkMachine a ∅ [Crediting 10] 0 0 None)); [apply run_one |].
    { apply (step_add_range (1, 0, 9) 10 (new "h:1") ∅ [] 0 0 None a true). reflexivity. }
    apply (machine_run_app [_] [_] _ (mkMachine a ∅ [Crediting 10] 0 0 None)); apply run_one.
    { apply (step_add_range (1, 0, 9) 10 a ∅ [Crediting 10] 0 0 None a false). reflexivity. }
    apply (step_credit 10 a ∅ [] []). }
  split; [exact Hr |].
  destruct (size_account_conserved "h:1" ∅ None _ _ ltac:(intros name [x Hx]; by rewrite lookup_empty in Hx) ltac:(done) Hr)
    as [Hc _]. exact Hc.
Defined.

Lemma accounting_cycle_exact_witness :
  let '(f', dr', a') := @accounting_cycle map_order (fun _ => true) Written true (mkLockedEnv 5 "h:1" None None) false
    None {[ "delta_h:2_0.json" := DeltaJson (Some (-3)) None ]} (add 10 (new "h:1")) in
  get_current_size f' = 7 /\ delta a' = 0.
Proof.
  pose proof (@accounting_cycle_exact map_order (mkLockedEnv 5 "h:1" None None) false None
    {[ "delta_h:2_0.json" := DeltaJson (Some (-3)) None ]} (add 10 (new "h:1")) SizeState_default
    eq_refl eq_refl eq_refl eq_refl eq_refl) as Hc.
  cbn zeta in Hc.
  specialize (Hc ltac:(vm_compute; split; congruence) ltac:(vm_compute; split; congruence)
    ltac:(vm_compute; split; congruence) ltac:(vm_compute; split; congruence)).
  destruct (accounting_cycle _ _ _ _ _ _ _ _) as [[f' dr'] a']. destruct Hc as (-> & _ & -> & _).
  split; [vm_compute |]; reflexivity.
Defined.

End Size.
