(* ===== verification/Storage.v ===== *)
(** * Shared storage: journal files and what the disk cache keeps

    The state the writing side of the disk cache works on, and the journal
    ([journal_manager.rs]): metadata files by path, range files by path below
    [ranges], journal files by name with their lines, the size accumulator, the
    versions the process has confirmed, the evicted ranges the consolidator was
    told of, the RAM copy of metadata and the compressor's counters.  [disk_of] is the view the reading side
    has of it.  What the file system and the locks answer is an argument of each
    operation. *)

From S2P Require Import Prelude CacheTypes Ranges RangeMerge Maps MetadataCache DiskPaths DiskRanges Frames.
From S2P Require Import SizeAccounting RustStr.
From stdpp Require Import gmap strings.

#[local] Open Scope Z_scope.
#[local] Arguments String.append : simpl nomatch.

Module Store.

(** ** Journal entries *)

Record JournalEntry := mkEntry {
  je_timestamp : Z;
  je_instance_id : string;
  je_cache_key : string;
  je_range_spec : NewRangeSpec;
  je_operation : Disk.JournalOperation;
  je_range_file_path : string;
  je_metadata_version : Z;
  je_new_ttl_secs : option Z;
  je_object_ttl_secs : option Z;
  je_access_increment : option Z;
  je_object_metadata : option ObjectMetadata;
}.

(** The fields of the entry a lookup reads. *)
Definition view_of (e : JournalEntry) : Disk.PendingRangeView :=
  Disk.mkView (je_cache_key e) (je_operation e) (je_range_spec e) (om_etag <$> je_object_metadata e).

Definition matches_object_version `{PathCodec} (e : JournalEntry) (etag : string) : bool :=
  Disk.entry_matches_object_version (je_operation e) (je_range_spec e) (om_etag <$> je_object_metadata e) etag.

(** A line of a journal file that is not blank. *)
Inductive line := Parsed (e : JournalEntry) | Garbage (text : string).

Definition parsed_lines (ls : list line) : list JournalEntry :=
  omap (fun l => match l with Parsed e => Some e | Garbage _ => None end) ls.

(** A metadata file that is there. *)
Inductive meta_file := MetaParsed (m : NewCacheMetadata) | MetaCorrupt | MetaUnreadable (error : string).

Record Storage := mkStorage {
  journals_dir_exists : bool;
  metadata_files : gmap string meta_file;
  range_files : gmap string Disk.file;
  journal_files : gmap string (list line);
  accumulator : Size.SizeAccumulator;
  evicted_ranges : gmap string (list (Z * Z));
  confirmed_versions : gmap string string;
  metadata_cache : MetaCache.MetadataCache;
  compression_stats : Comp.CompressionStats;
}.

Definition set_metadata_files (f : gmap string meta_file) (st : Storage) : Storage :=
  mkStorage (journals_dir_exists st) f (range_files st) (journal_files st) (accumulator st)
    (evicted_ranges st) (confirmed_versions st) (metadata_cache st) (compression_stats st).

Definition set_range_files (f : gmap string Disk.file) (st : Storage) : Storage :=
  mkStorage (journals_dir_exists st) (metadata_files st) f (journal_files st) (accumulator st)
    (evicted_ranges st) (confirmed_versions st) (metadata_cache st) (compression_stats st).

Definition set_journal_files (f : gmap string (list line)) (st : Storage) : Storage :=
  mkStorage (journals_dir_exists st) (metadata_files st) (range_files st) f (accumulator st)
    (evicted_ranges st) (confirmed_versions st) (metadata_cache st) (compression_stats st).

Definition set_journals_dir (st : Storage) : Storage :=
  mkStorage true (metadata_files st) (range_files st) (journal_files st) (accumulator st)
    (evicted_ranges st) (confirmed_versions st) (metadata_cache st) (compression_stats st).

Definition set_accumulator (a : Size.SizeAccumulator) (st : Storage) : Storage :=
  mkStorage (journals_dir_exists st) (metadata_files st) (range_files st) (journal_files st) a
    (evicted_ranges st) (confirmed_versions st) (metadata_cache st) (compression_stats st).

Definition set_evicted (e : gmap string (list (Z * Z))) (st : Storage) : Storage :=
  mkStorage (journals_dir_exists st) (metadata_files st) (range_files st) (journal_files st) (accumulator st)
    e (confirmed_versions st) (metadata_cache st) (compression_stats st).

Definition set_confirmed (c : gmap string string) (st : Storage) : Storage :=
  mkStorage (journals_dir_exists st) (metadata_files st) (range_files st) (journal_files st) (accumulator st)
    (evicted_ranges st) c (metadata_cache st) (compression_stats st).

Definition set_metadata_cache (c : MetaCache.MetadataCache) (st : Storage) : Storage :=
  mkStorage (journals_dir_exists st) (metadata_files st) (range_files st) (journal_files st) (accumulator st)
    (evicted_ranges st) (confirmed_versions st) c (compression_stats st).

Definition set_compression_stats (s : Comp.CompressionStats) (st : Storage) : Storage :=
  mkStorage (journals_dir_exists st) (metadata_files st) (range_files st) (journal_files st) (accumulator st)
    (evicted_ranges st) (confirmed_versions st) (metadata_cache st) s.

(** ** The reading side's view *)

Definition is_journal_name (name : string) : bool := ends_with ".journal" name.

Definition journal_entries `{HashIter} (st : Storage) : list JournalEntry :=
  flat_map (fun kf => if is_journal_name kf.1 then parsed_lines kf.2 else []) (hash_iter (journal_files st)).

Definition parsed_metadata (f : meta_file) : option NewCacheMetadata :=
  match f with MetaParsed m => Some m | _ => None end.

Definition disk_of `{HashIter} (st : Storage) : Disk.Disk :=
  Disk.mkDisk true (journals_dir_exists st) (omap parsed_metadata (metadata_files st))
    (view_of <$> journal_entries st) (range_files st).

(** ** Appending to the journal *)

(** What an append meets: the directory cannot be made, the lock file cannot be
    opened, the lock is had (the journal may fail to be read, and the rewrite may
    fail), or the lock is busy and a fresh file is named by the clock. *)
Inductive journal_io :=
  | JournalDirFails
  | LockFileFails
  | Locked (read_fails : bool) (write_error : option string)
  | Busy (timestamp : Z) (write_error : option string).

Definition primary_journal (instance : string) : string := instance +:+ ".journal".

Definition fresh_journal (instance : string) (timestamp : Z) : string :=
  instance +:+ ":" +:+ u64_to_string timestamp +:+ ".journal".

Definition append_lines (io : journal_io) (instance : string) (new : list line) (st : Storage)
    : Storage * Result unit :=
  match io with
  | JournalDirFails => (st, Err (CacheError "Failed to create journal directory"))
  | LockFileFails => (set_journals_dir st, Err (CacheError "Failed to open journal lock file"))
  | Locked read_fails write_error =>
      let st := set_journals_dir st in
      let path := primary_journal instance in
      let existing := if read_fails then [] else default [] (journal_files st !! path) in
      match write_error with
      | Some error => (st, Err (CacheError error))
      | None => (set_journal_files (<[path:=existing ++ new]> (journal_files st)) st, Ok tt)
      end
  | Busy timestamp write_error =>
      let st := set_journals_dir st in
      match write_error with
      | Some error => (st, Err (CacheError error))
      | None => (set_journal_files (<[fresh_journal instance timestamp:=new]> (journal_files st)) st, Ok tt)
      end
  end.

Definition append_range_entry (io : journal_io) (instance : string) (e : JournalEntry) (st : Storage) :=
  append_lines io instance [Parsed e] st.

Definition append_range_entries_batch (io : journal_io) (instance : string) (es : list JournalEntry)
    (st : Storage) : Storage * Result unit :=
  match es with
  | [] => (st, Ok tt)
  | _ => append_lines io instance (Parsed <$> es) st
  end.

(** ** Reading entries of a key *)

(** The entries of the key in the files that can be read, by timestamp. *)
Definition entries_in (readable : string -> bool) (key : string) (files : list (string * list line))
    : list JournalEntry :=
  sort_by_key je_timestamp
    (flat_map (fun kf => if readable kf.1 then base.filter (fun e => je_cache_key e = key) (parsed_lines kf.2) else [])
       files).

Definition get_entries_from_files (readable : string -> bool) (key : string) (files : list string)
    (st : Storage) : list JournalEntry :=
  entries_in readable key (omap (fun p => (fun ls => (p, ls)) <$> journal_files st !! p) files).

Definition get_all_entries_for_cache_key `{HashIter} (readable : string -> bool) (key : string) (st : Storage)
    : list JournalEntry :=
  entries_in readable key (base.filter (fun kf => is_journal_name kf.1 = true) (hash_iter (journal_files st))).

(** ** Removing entries *)

(** [MultipartCleanupIntegration]: drop the entries of a key from every journal;
    lines that do not parse are dropped with the rewrite. *)
Definition remove_entries_from_journal_file (readable : string -> bool) (write_ok : bool) (path key : string)
    (st : Storage) : Storage * Z :=
  match journal_files st !! path with
  | None => (st, 0)
  | Some ls =>
      if negb (readable path) then (st, 0) else
      let existing := parsed_lines ls in
      let kept := base.filter (fun e => je_cache_key e <> key) existing in
      let removed := zlen existing - zlen kept in
      if (0 <? removed) && write_ok
      then (set_journal_files (match kept with
                               | [] => base.delete path (journal_files st)
                               | _ => <[path:=Parsed <$> kept]> (journal_files st)
                               end) st, removed)
      else (st, removed)
  end.

Fixpoint cleanup_loop (readable write_ok : string -> bool) (key : string) (paths : list string) (count : Z)
    (st : Storage) : Storage * Z :=
  match paths with
  | [] => (st, count)
  | p :: ps =>
      if is_journal_name p
      then let '(st, n) := remove_entries_from_journal_file readable (write_ok p) p key st in
           cleanup_loop readable write_ok key ps (count + n) st
      else cleanup_loop readable write_ok key ps count st
  end.

Definition cleanup_journal_entries_for_cache_key `{HashIter} (readable write_ok : string -> bool) (key : string)
    (st : Storage) : Storage * Z :=
  if negb (journals_dir_exists st) then (st, 0)
  else cleanup_loop readable write_ok key (hash_iter (journal_files st)).*1 0 st.

(** ** Removing range files, and the entries that record it *)

Definition eviction_entry (now : Z) (instance key : string) (start end_ size : Z) (path : string) : JournalEntry :=
  mkEntry now instance key (mkNewRangeSpec start end_ path Lz4 size size now now 0 None) Disk.Remove path 0
    None None None None.

Definition evicted : Type := string * Z * Z * Z * string.

(** Entries by key, in the order they come. *)
Fixpoint group_evicted (now : nat -> Z) (n : nat) (instance : string) (es : list evicted)
    (grouped : gmap string (list JournalEntry)) : gmap string (list JournalEntry) :=
  match es with
  | [] => grouped
  | (key, start, end_, size, path) :: rest =>
      let e := eviction_entry (now n) instance key start end_ size path in
      group_evicted now (S n) instance rest
        (<[key:=default [] (grouped !! key) ++ [e]]> grouped)
  end.

Definition write_eviction_journal_entries `{HashIter} (io : string -> journal_io) (now : nat -> Z)
    (instance : string) (es : list evicted) (st : Storage) : Storage :=
  match es with
  | [] => st
  | _ => foldl (fun st kes => (append_range_entries_batch (io kes.1) instance kes.2 st).1) st
           (hash_iter (group_evicted now 0 instance es ∅))
  end.

Definition mark_ranges_evicted (rs : list (string * Z * Z)) (st : Storage) : Storage :=
  set_evicted (foldl (fun (m : gmap string (list (Z * Z))) '(key, s, e) =>
                        <[key:=default [] (m !! key) ++ [(s, e)]]> m) (evicted_ranges st) rs) st.

(** Remove the first occurrence. *)
Fixpoint remove_first (x : Z * Z) (l : list (Z * Z)) : option (list (Z * Z)) :=
  match l with
  | [] => None
  | y :: l => if bool_decide (y = x) then Some l else (cons y) <$> remove_first x l
  end.

Definition check_and_clear_evicted_range (key : string) (start end_ : Z) (st : Storage) : Storage * bool :=
  match (rs ← evicted_ranges st !! key; remove_first (start, end_) rs) with
  | Some [] => (set_evicted (base.delete key (evicted_ranges st)) st, true)
  | Some rs => (set_evicted (<[key:=rs]> (evicted_ranges st)) st, true)
  | None => (st, false)
  end.

(** Debit a removed range file. *)
Definition debit_range `{PathCodec} (key : string) (r : NewRangeSpec) (object_is_write_cached : bool)
    (st : Storage) : Storage :=
  let a := (Size.subtract_range_file key r (accumulator st)).1 in
  set_accumulator (if is_staged_range_spec r object_is_write_cached
                   then Size.subtract_write_cache (nr_compressed_size r) a else a) st.

End Store.
