(* ===== verification/DiskStore.v ===== *)
(** * Storing a range ([DiskCacheManager::store_range] in [disk_cache.rs])

    Validation of the body against the range, the refusal of bodies without an
    ETag, compression, and the two ways to publish: with the journal, after the
    metadata file has been made to name the version ([claim_object_version] and
    what it calls), or directly, under the lock of the metadata file.  Every step
    of the file system and of the locks may fail; which do is an argument. *)

From S2P Require Import Prelude CacheTypes Ranges RangeMerge Maps MetadataCache DiskPaths DiskRanges Frames.
From S2P Require Import CacheTier SizeAccounting Storage RustStr.
From stdpp Require Import gmap strings.

#[local] Open Scope Z_scope.
#[local] Arguments String.append : simpl nomatch.

(** [httpdate::parse_http_date]: the instant a date header names. *)
Class HttpDate := parse_http_date : string -> option Z.

Module DStore.
Import Store.

Definition ObjectMetadata_default : ObjectMetadata :=
  mkObjectMetadata "" "" 0 None ∅ Complete 0 [] Lz4 0 None ∅ None false None None None false.

Definition CompressionInfo_default : CompressionInfo := mkCompressionInfo Lz4 None None None.

(** New metadata without ranges; the fields of the default stay. *)
Definition new_metadata (key : string) (om : ObjectMetadata) (created_at expires_at : Z) : NewCacheMetadata :=
  mkNewCacheMetadata key om [] created_at expires_at CompressionInfo_default None None 0 None.

(** [SystemTime + Duration] panics past the last instant. *)
Definition add_ttl (now ttl : Z) : Result Z :=
  match system_time_checked_add now ttl with Some t => Ok t | None => Panic end.

Definition set_om (om : ObjectMetadata) (m : NewCacheMetadata) : NewCacheMetadata :=
  mkNewCacheMetadata (cm_cache_key m) om (cm_ranges m) (cm_created_at m) (cm_expires_at m)
    (cm_compression_info m) (cm_head_expires_at m) (cm_head_last_accessed m) (cm_head_access_count m)
    (cm_head_cached_at m).

Definition set_ranges (rs : list NewRangeSpec) (m : NewCacheMetadata) : NewCacheMetadata :=
  mkNewCacheMetadata (cm_cache_key m) (cm_object_metadata m) rs (cm_created_at m) (cm_expires_at m)
    (cm_compression_info m) (cm_head_expires_at m) (cm_head_last_accessed m) (cm_head_access_count m)
    (cm_head_cached_at m).

Definition set_response_headers (h : gmap string string) (om : ObjectMetadata) : ObjectMetadata :=
  mkObjectMetadata (om_etag om) (om_last_modified om) (om_content_length om) (om_content_type om) h
    (om_upload_state om) (om_cumulative_size om) (om_parts om) (om_compression_algorithm om)
    (om_compressed_size om) (om_parts_count om) (om_part_ranges om) (om_upload_id om)
    (om_is_write_cached om) (om_write_cache_expires_at om) (om_write_cache_created_at om)
    (om_write_cache_last_accessed om) (om_graduation_accounted om).

(** Headers that describe one response, not the object. *)
Definition is_response_scoped (name : string) : bool :=
  let k := to_lowercase name in
  bool_decide (k = "content-length") || bool_decide (k = "content-range")
  || bool_decide (k = "x-amz-mp-parts-count").

Definition strip_response_scoped_headers (h : gmap string string) : gmap string string :=
  base.filter (fun kv => is_response_scoped kv.1 = false) h.

Definition content_range_end `{HashIter} (h : gmap string string) : option Z :=
  '(_, v) ← List.find (fun kv => eq_ignore_ascii_case kv.1 "content-range") (hash_iter h);
  spec ← RustStr.strip_prefix "bytes " (trim v);
  '(range, _) ← split_once "/" spec;
  '(_, e) ← split_once "-" range;
  parse_u64 (trim e).

(** ** What a store meets *)

Inductive write_error := NoSpace | WriteFails (error : string).

Record store_env := mkStoreEnv {
  se_clock : nat -> Z;
  se_cache_dir : string;
  se_instance : string;
  se_tmp : string;
  se_create_dir : option string;
  se_write_tmp : option write_error;
  se_lock : option ProxyError;
  se_write_meta : option ProxyError;
  se_rename : option string;
  se_removable : string -> bool;
  se_journal : journal_io;
  se_evict_journal : string -> journal_io;
  se_consolidator : bool;
  se_hybrid : bool;
}.

(** ** Confirmed versions *)

Definition CAPACITY : nat := Z.to_nat 65536.

Definition confirmed_contains (key etag : string) (st : Storage) : bool :=
  match confirmed_versions st !! key with Some c => bool_decide (c = etag) | None => false end.

Definition confirm (key etag : string) (st : Storage) : Storage :=
  let versions := confirmed_versions st in
  let versions := if (CAPACITY <=? size versions)%nat && bool_decide (versions !! key = None)
                  then ∅ else versions in
  set_confirmed (<[key:=etag]> versions) st.

Section Store.
Context `{HashIter} `{PathCodec} `{FrameEncoder} `{HttpDate}.

Definition read_disk_metadata (key : string) (st : Storage) : Result (option NewCacheMetadata) :=
  match metadata_files st !! get_new_metadata_file_path key with
  | None => Ok None
  | Some (MetaParsed m) => Ok (Some m)
  | Some _ => Err (CacheError "Cannot establish cached object version from unreadable metadata")
  end.

(** The metadata writer of [HybridMetadataWriter]: a temporary file and a rename. *)
Definition write_metadata_to_disk (env : store_env) (m : NewCacheMetadata) (st : Storage)
    : Storage * Result unit :=
  match get_sharded_path "metadata" (cm_cache_key m) ".meta" with
  | Ok path =>
      match se_write_meta env with
      | None => (set_metadata_files (<[path:=MetaParsed m]> (metadata_files st)) st, Ok tt)
      | Some e => (st, Err e)
      end
  | Err e => (st, Err e)
  | Panic => (st, Panic)
  end.

(** The loop of [retire_object_version]: it stops at a file that cannot be removed. *)
Fixpoint retire_loop (removable : string -> bool) (files : gmap string Disk.file)
    (removed : list NewRangeSpec) (rs : list NewRangeSpec)
    : gmap string Disk.file * list NewRangeSpec * option ProxyError :=
  match rs with
  | [] => (files, removed, None)
  | r :: rest =>
      let path := nr_file_path r in
      if negb (is_safe_relative_file_path path) then retire_loop removable files removed rest else
      match files !! path with
      | None => retire_loop removable files removed rest
      | Some _ =>
          if removable path then retire_loop removable (base.delete path files) (removed ++ [r]) rest
          else (files, removed, Some (CacheError "Could not remove superseded range file"))
      end
  end.

Definition absolute_range_path (env : store_env) (path : string) : string :=
  path_join (path_join (se_cache_dir env) "ranges") path.

Definition retire_object_version (env : store_env) (key : string) (cached : NewCacheMetadata) (st : Storage)
    : Storage * Result unit :=
  let '(files, removed, failure) := retire_loop (se_removable env) (range_files st) [] (cm_ranges cached) in
  let st := set_range_files files st in
  let st :=
    if se_consolidator env then
      write_eviction_journal_entries (se_evict_journal env) (fun n => se_clock env (n + 10)) (se_instance env)
        ((fun r => (key, nr_start r, nr_end r, nr_compressed_size r, absolute_range_path env (nr_file_path r))) <$> removed)
        (foldl (fun st r => debit_range key r (om_is_write_cached (cm_object_metadata cached)) st) st removed)
    else st in
  (st, match failure with Some e => Err e | None => Ok tt end).

Definition refuse (key : string) (om : ObjectMetadata) (cached_etag : string) : ProxyError :=
  CacheVersionMismatch key cached_etag (om_etag om).

(** The response is of a version strictly newer than the cached one. *)
Definition strictly_newer (cached response : ObjectMetadata) : bool :=
  match parse_http_date (om_last_modified cached), parse_http_date (om_last_modified response) with
  | Some c, Some r => c <? r
  | _, _ => false
  end.

Definition write_new_identity (env : store_env) (key : string) (om : ObjectMetadata) (ttl : Z) (st : Storage)
    : Storage * Result unit :=
  let om := set_response_headers (strip_response_scoped_headers (om_response_headers om)) om in
  let now := se_clock env 1 in
  match add_ttl now ttl with
  | Ok expires_at =>
      match write_metadata_to_disk env (new_metadata key om now expires_at) st with
      | (st, Ok _) => (set_metadata_cache (MetaCache.invalidate key (metadata_cache st)) st, Ok tt)
      | r => r
      end
  | Err e => (st, Err e)
  | Panic => (st, Panic)
  end.

Definition prepare_object_version (env : store_env) (key : string) (om : ObjectMetadata) (ttl : Z) (st : Storage)
    : Storage * Result unit :=
  if is_empty_str (om_etag om) then (st, Err (refuse key om "")) else
  match read_disk_metadata key st with
  | Err e => (st, Err e)
  | Panic => (st, Panic)
  | Ok None => write_new_identity env key om ttl st
  | Ok (Some cached) =>
      let c := cm_object_metadata cached in
      if bool_decide (om_etag c = om_etag om) then (st, Ok tt)
      else if negb (is_empty_str (om_etag c)) && negb (strictly_newer c om)
           then (st, Err (refuse key om (om_etag c)))
           else match retire_object_version env key cached st with
                | (st, Ok _) => write_new_identity env key om ttl st
                | r => r
                end
  end.

(** The in-process gate of the key only orders claims; one claim is this. *)
Definition claim_object_version (env : store_env) (key : string) (om : ObjectMetadata) (ttl : Z) (st : Storage)
    : Storage * Result unit :=
  if confirmed_contains key (om_etag om) st then (st, Ok tt) else
  match se_lock env with
  | Some e => (st, Err e)
  | None =>
      match prepare_object_version env key om ttl st with
      | (st, Ok _) => (confirm key (om_etag om) st, Ok tt)
      | r => r
      end
  end.

Definition write_journal_only (env : store_env) (key : string) (r : NewRangeSpec) (om : option ObjectMetadata)
    (ttl : Z) (st : Storage) : Storage * Result unit :=
  let e := mkEntry (se_clock env 2) (se_instance env) key r Disk.Add "" 1 None
             (Some (ttl / NANOS_PER_SEC)) None om in
  match append_range_entry (se_journal env) (se_instance env) e st with
  | (st, Ok _) => (st, Ok tt)
  | (st, Err _) => (st, Err (CacheError "Journal write failed in journal-only mode"))
  | (st, Panic) => (st, Panic)
  end.

(** ** [store_range] *)

(** The end of the range the body fills: the one asked for, or the one S3 says the
    object ends at. *)
Definition checked_end (start end_ : Z) (data : bytes) (om : ObjectMetadata) : Result Z :=
  let n := zlen data in
  let range_size := u64_add (u64_sub end_ start) 1 in
  if end_ <? start then Err (CacheError "Invalid range: start > end") else
  if (n <? range_size) && (0 <? n) then
    let clamped_end := u64_sub (u64_add start n) 1 in
    if bool_decide (content_range_end (om_response_headers om) = Some clamped_end)
    then Ok clamped_end
    else Err (CacheError "Data size is shorter than range size and Content-Range does not confirm it")
  else if negb (n =? range_size) then Err (CacheError "Data size doesn't match range size")
  else Ok end_.

(** A body without an ETag is not published over metadata that has one. *)
Definition etagless_refused (key : string) (om : ObjectMetadata) (st : Storage) : bool :=
  is_empty_str (om_etag om)
  && match metadata_files st !! get_new_metadata_file_path key with
     | Some (MetaParsed m) => negb (is_empty_str (om_etag (cm_object_metadata m)))
     | _ => false
     end.

Definition etagless_error : ProxyError := CacheError "Refusing to cache range without an ETag".

Definition tmp_path (env : store_env) (path : string) : string :=
  (split_file_name path).1 +:+ se_tmp env +:+ ".bin.tmp".

Definition drop_tmp (env : store_env) (path : string) (st : Storage) : Storage :=
  if se_removable env (tmp_path env path)
  then set_range_files (base.delete (tmp_path env path) (range_files st)) st else st.

(** Rename the temporary file over the final one. *)
Definition publish (env : store_env) (path : string) (compressed : bytes) (st : Storage) : Storage :=
  set_range_files (<[path:=Disk.Readable compressed]> (base.delete (tmp_path env path) (range_files st))) st.

Definition rename_error (error : string) : ProxyError := CacheError ("Failed to make range file visible: " +:+ error).

Definition credit_range (env : store_env) (key : string) (r : NewRangeSpec) (staged already_existed : bool)
    (st : Storage) : Storage :=
  if se_consolidator env && negb already_existed then
    let a := (Size.add_range_file key r (accumulator st)).1 in
    set_accumulator (if staged then Size.add_write_cache (nr_compressed_size r) a else a) st
  else st.

(** Publication through the journal: the version is claimed, the file made visible,
    then the entry is appended. *)
Definition publish_hybrid (env : store_env) (key : string) (r : NewRangeSpec) (om : ObjectMetadata) (ttl : Z)
    (staged : bool) (compressed : bytes) (st : Storage) : Storage * Result unit :=
  let path := nr_file_path r in
  match claim_object_version env key om ttl st with
  | (st, Ok _) =>
      let already_existed := bool_decide (is_Some (range_files st !! path)) in
      match se_rename env with
      | Some error => (drop_tmp env path st, Err (rename_error error))
      | None =>
          match write_journal_only env key r (Some om) ttl (publish env path compressed st) with
          | (st, Ok _) => (credit_range env key r staged already_existed st, Ok tt)
          | res => res
          end
      end
  | (st, Err e) => (drop_tmp env path st, Err e)
  | (st, Panic) => (st, Panic)
  end.

(** Remove the files of ranges of another version; a failure is only logged. *)
Definition remove_listed (removable : string -> bool) (rs : list NewRangeSpec) (files : gmap string Disk.file)
    : gmap string Disk.file :=
  foldl (fun files r => match files !! nr_file_path r with
                        | Some _ => if removable (nr_file_path r) then base.delete (nr_file_path r) files else files
                        | None => files
                        end) files rs.

(** The metadata a direct store starts from, read under the lock. *)
Definition direct_metadata (env : store_env) (key : string) (om : ObjectMetadata) (ttl : Z) (st : Storage)
    : Storage * Result NewCacheMetadata :=
  let now := se_clock env 1 in
  let fresh st := (st, t ← add_ttl now ttl; Ok (new_metadata key om now t)) in
  match metadata_files st !! get_new_metadata_file_path key with
  | None | Some MetaCorrupt => fresh st
  | Some (MetaUnreadable error) => (st, Err (CacheError ("Failed to read metadata file: " +:+ error)))
  | Some (MetaParsed m) =>
      let c := cm_object_metadata m in
      if is_empty_str (om_etag om) && negb (is_empty_str (om_etag c)) then (st, Err etagless_error)
      else if bool_decide (om_etag c = om_etag om) then (st, Ok m)
      else fresh (set_range_files (remove_listed (se_removable env) (cm_ranges m) (range_files st)) st)
  end.

(** The first range with this extent is replaced, or the range is added. *)
Fixpoint replace_range (r : NewRangeSpec) (rs : list NewRangeSpec) : option (list NewRangeSpec) :=
  match rs with
  | [] => None
  | x :: rs =>
      if (nr_start x =? nr_start r) && (nr_end x =? nr_end r) then Some (r :: rs)
      else (cons x) <$> replace_range r rs
  end.

Definition add_or_replace (r : NewRangeSpec) (rs : list NewRangeSpec) : list NewRangeSpec :=
  default (rs ++ [r]) (replace_range r rs).

Definition publish_direct (env : store_env) (key : string) (r : NewRangeSpec) (om : ObjectMetadata) (ttl : Z)
    (compressed : bytes) (st : Storage) : Storage * Result unit :=
  let path := nr_file_path r in
  match se_lock env with
  | Some e => (drop_tmp env path st, Err e)
  | None =>
      match direct_metadata env key om ttl st with
      | (st, Ok m) =>
          let m := refresh_object_ttl (se_clock env 3) ttl m in
          let m := set_ranges (add_or_replace r (cm_ranges m)) m in
          match se_write_meta env with
          | Some e => (drop_tmp env path st, Err e)
          | None =>
              let st := set_metadata_files
                          (<[get_new_metadata_file_path key:=MetaParsed m]> (metadata_files st)) st in
              match se_rename env with
              | Some error => (drop_tmp env path st, Err (rename_error error))
              | None => (publish env path compressed st, Ok tt)
              end
          end
      | (st, Err e) => (drop_tmp env path st, Err e)
      | (st, Panic) => (st, Panic)
      end
  end.

Definition store_range (env : store_env) (key : string) (start end_ : Z) (data : bytes) (om : ObjectMetadata)
    (ttl : Z) (compression_enabled : bool) (st : Storage) : Storage * Result unit :=
  match checked_end start end_ data om with
  | Err e => (st, Err e)
  | Panic => (st, Panic)
  | Ok end_ =>
      if etagless_refused key om st then (st, Err etagless_error) else
      let '(stats, c) := Comp.compress_with_metadata data compression_enabled (compression_stats st) in
      let st := set_compression_stats stats st in
      let path := get_versioned_range_file_path key start end_ (om_etag om) in
      match se_create_dir env with
      | Some error => (st, Err (CacheError ("Failed to create ranges directory: " +:+ error)))
      | None =>
          match se_write_tmp env with
          | Some e =>
              let st := set_range_files (<[tmp_path env path:=Disk.Unreadable "partial"]> (range_files st)) st in
              (drop_tmp env path st,
               Err (CacheError match e with
                               | NoSpace => "Disk space exhausted"
                               | WriteFails error => "Failed to write range tmp file: " +:+ error
                               end))
          | None =>
              let st := set_range_files
                          (<[tmp_path env path:=Disk.Readable (Comp.data c)]> (range_files st)) st in
              let staged := classify_new_range_as_staged path (om_is_write_cached om) in
              let r := NewRangeSpec_new_staged (se_clock env 0) start end_ path (Comp.algorithm c)
                         (Comp.compressed_size c) (zlen data) staged in
              if se_hybrid env then publish_hybrid env key r om ttl staged (Comp.data c) st
              else publish_direct env key r om ttl (Comp.data c) st
          end
      end
  end.

End Store.

(** ** What is kept on disk

    [object] gives the bytes of each version of each key.  Paths separate objects:
    two keys that share a range path or a metadata path are the same object, which
    is what the collision freedom of the hash gives for the keys it shortens. *)

Section Invariant.
Context `{HashIter} `{PathCodec} `{FrameEncoder} `{FrameCodec} `{HttpDate}.
Context (object : string -> string -> bytes).

Class LayoutSeparates : Prop := {
  range_paths_separate key etag key' etag' s e :
    is_u64 s -> is_u64 e ->
    get_versioned_range_file_path key s e etag = get_versioned_range_file_path key' s e etag' ->
    object key etag = object key' etag';
  metadata_paths_separate key key' etag :
    get_new_metadata_file_path key = get_new_metadata_file_path key' -> object key etag = object key' etag;
}.

(** A stored range that can be read as a version is the range file of that version,
    and no other range's. *)
Definition named (key : string) (r : NewRangeSpec) : Prop :=
  is_u64 (nr_start r) /\ is_u64 (nr_end r) /\ nr_start r <= nr_end r /\
  (forall key' s e etag, is_u64 s -> is_u64 e -> nr_file_path r = get_versioned_range_file_path key' s e etag ->
     nr_start r = s /\ nr_end r = e) /\
  forall etag, range_file_belongs_to r (object_version_id etag) = true ->
    nr_file_path r = get_versioned_range_file_path key (nr_start r) (nr_end r) etag /\
    nr_compression_algorithm r = Lz4 /\ nr_uncompressed_size r = nr_end r - nr_start r + 1.

Definition is_publication (op : Disk.JournalOperation) : bool :=
  match op with Disk.Add | Disk.Update => true | _ => false end.

Definition files_ok (files : gmap string Disk.file) : Prop :=
  forall key etag s e frame data,
    is_u64 s -> is_u64 e -> s <= e ->
    files !! get_versioned_range_file_path key s e etag = Some (Disk.Readable frame) ->
    decompress_data frame = Ok data -> data = sub_list (object key etag) s (e + 1).

(** A range of the metadata file at [path]: named for a key with that metadata. *)
Definition named_at (path : string) (r : NewRangeSpec) : Prop :=
  exists key, get_new_metadata_file_path key = path /\ named key r.

Definition metadata_ok (path : string) (m : NewCacheMetadata) : Prop :=
  get_new_metadata_file_path (cm_cache_key m) = path /\ Forall (named_at path) (cm_ranges m).

Definition entry_ok (e : JournalEntry) : Prop :=
  is_publication (je_operation e) = true -> named (je_cache_key e) (je_range_spec e).

(** A property of every entry in the journals. *)
Definition journals_all (P : JournalEntry -> Prop) (st : Storage) : Prop :=
  forall name ls e, journal_files st !! name = Some ls -> Parsed e ∈ ls -> P e.

Record storage_ok (st : Storage) : Prop := {
  so_files : files_ok (range_files st);
  so_meta path m : metadata_files st !! path = Some (MetaParsed m) -> metadata_ok path m;
  so_journals : journals_all entry_ok st;
}.

(** ** Facts *)

Lemma parsed_lines_elem e ls : e ∈ parsed_lines ls <-> Parsed e ∈ ls.
Proof.
  unfold parsed_lines. rewrite list_elem_of_omap. split.
  - intros ([e' | t] & Hin & Heq); [by injection Heq as -> | done].
  - intros Hin. by exists (Parsed e).
Qed.

Lemma journal_entries_elem e st :
  e ∈ journal_entries st -> exists name ls, journal_files st !! name = Some ls /\ Parsed e ∈ ls.
Proof.
  unfold journal_entries. rewrite list_elem_of_In, in_flat_map. intros ([name ls] & Hin & He). cbn in He.
  destruct (is_journal_name name); [| done]. exists name, ls. apply list_elem_of_In in Hin, He.
  apply hash_iter_lookup in Hin. split; [done |]. by apply parsed_lines_elem.
Qed.

(** A sound storage is a faithful disk for the reading side. *)
Lemma storage_ok_faithful `{!PathCodecSpec} `{!LayoutSeparates} st :
  storage_ok st -> disk_faithful object (disk_of st).
Proof.
  intros [Hf Hm Hj] key etag r frame data Hl Hb Hfile Hdec. cbn in Hfile.
  assert (exists key', named key' r /\ object key' etag = object key etag) as (key' & (Hs & He & Hle & _ & Hn) & <-).
  { destruct Hl as [(m & Hk & Hin) | (v & Hv & Hk & Ho & Hr)]; cbn in *.
    - apply lookup_omap_Some in Hk as ([m' | |] & Hk & Hm'); try done. cbn in Hk. injection Hk as ->.
      destruct (Hm _ m Hm') as [_ Hall]. rewrite Forall_forall in Hall.
      destruct (Hall r Hin) as (key' & Hp & Hn). exists key'. split; [done | by apply metadata_paths_separate].
    - apply list_elem_of_fmap in Hv as (e & -> & He). apply journal_entries_elem in He as (name & ls & Hls & He).
      exists key. cbn in *. subst. split; [| done]. apply (Hj name ls e Hls He). by rewrite Ho. }
  destruct (Hn etag Hb) as (Hp & Ha & _). rewrite Ha in Hdec. cbn in Hdec. rewrite Hp in Hfile.
  by eapply Hf.
Qed.

Lemma files_ok_subseteq files files' : files' ⊆ files -> files_ok files -> files_ok files'.
Proof. intros Hs Hf key etag s e frame data ? ? ? Hl. apply Hf; try done. by eapply lookup_weaken. Qed.

(** Files that are no range files do not matter. *)
Lemma files_ok_other files p f :
  (forall key s e etag, is_u64 s -> is_u64 e -> p <> get_versioned_range_file_path key s e etag) ->
  files_ok files -> files_ok (<[p:=f]> files).
Proof.
  intros Hp Hf key etag s e frame data Hs He Hle Hl. rewrite lookup_insert_ne in Hl by (by apply Hp). by apply Hf.
Qed.

Lemma range_path_version key s e etag etag' :
  blake3_hex etag = blake3_hex etag' ->
  get_versioned_range_file_path key s e etag = get_versioned_range_file_path key s e etag'.
Proof.
  intros E. unfold get_versioned_range_file_path, versioned_range_file_path, versioned_range_file_name, object_version_id.
  by rewrite E.
Qed.

Section Preserve.
Context `{!PathCodecSpec} `{!LayoutSeparates} `{!Comp.FrameCodecLaws}.

Lemma files_ok_publish files key s e etag frame :
  is_u64 s -> is_u64 e -> decompress_data frame = Ok (sub_list (object key etag) s (e + 1)) ->
  files_ok files -> files_ok (<[get_versioned_range_file_path key s e etag:=Disk.Readable frame]> files).
Proof.
  intros Hs He Hd Hf key' etag' s' e' frame' data' Hs' He' Hle Hl Hdec.
  destruct (decide (get_versioned_range_file_path key s e etag = get_versioned_range_file_path key' s' e' etag')) as [E | Hne].
  - rewrite E, lookup_insert_eq in Hl. injection Hl as <-.
    destruct (range_path_extent key s e etag key' s' e' etag' Hs He Hs' He' E) as (<- & <- & _).
    rewrite Hd in Hdec. injection Hdec as <-. by rewrite (range_paths_separate key etag key' etag' s e Hs He E).
  - rewrite lookup_insert_ne in Hl by done. by apply (Hf key' etag' s' e' frame').
Qed.

Lemma tmp_not_range env p key s e etag :
  is_u64 s -> is_u64 e -> tmp_path env p <> get_versioned_range_file_path key s e etag.
Proof.
  intros Hs He E. destruct (range_path_shape key s e etag Hs He) as [y Ey]. rewrite Ey in E. unfold tmp_path in E.
  apply (f_equal string_rev) in E. rewrite !string_rev_distr in E. by cbn in E.
Qed.

Lemma storage_ok_range_files st files : storage_ok st -> files_ok files -> storage_ok (set_range_files files st).
Proof. intros [Hf Hm Hj] Hf'. by constructor. Qed.

Lemma storage_ok_drop_tmp env p st : storage_ok st -> storage_ok (drop_tmp env p st).
Proof.
  intros Hok. unfold drop_tmp. destruct (se_removable _ _); [| done]. apply storage_ok_range_files; [done |].
  eapply files_ok_subseteq; [apply delete_subseteq | apply Hok].
Qed.

Lemma storage_ok_tmp env p f st : storage_ok st -> storage_ok (set_range_files (<[tmp_path env p:=f]> (range_files st)) st).
Proof.
  intros Hok. apply storage_ok_range_files; [done |]. apply files_ok_other; [| apply Hok].
  intros. by apply tmp_not_range.
Qed.

Lemma storage_ok_metadata st path m :
  storage_ok st -> metadata_ok path m -> storage_ok (set_metadata_files (<[path:=MetaParsed m]> (metadata_files st)) st).
Proof.
  intros [Hf Hm Hj] Hok. constructor; [done | | done]. intros path' m' Hl. cbn in Hl.
  destruct (decide (path' = path)) as [-> | Hne].
  - rewrite lookup_insert_eq in Hl. by injection Hl as <-.
  - rewrite lookup_insert_ne in Hl by done. by apply Hm.
Qed.

Lemma append_lines_fields io instance new st :
  range_files (append_lines io instance new st).1 = range_files st /\
  metadata_files (append_lines io instance new st).1 = metadata_files st.
Proof. by destruct io as [| | [] [] | t []]. Qed.

Lemma append_lines_all P io instance new st :
  journals_all P st -> (forall e, Parsed e ∈ new -> P e) -> journals_all P (append_lines io instance new st).1.
Proof.
  intros Hj Hn.
  assert (Hins : forall name old name' ls e, (forall e, Parsed e ∈ old -> P e) ->
    (<[name:=old ++ new]> (journal_files st)) !! name' = Some ls -> Parsed e ∈ ls -> P e).
  { intros name old name' ls e Ho Hl Hin. destruct (decide (name' = name)) as [-> | Hne].
    - rewrite lookup_insert_eq in Hl. injection Hl as <-. apply elem_of_app in Hin as [Hin | Hin]; auto.
    - rewrite lookup_insert_ne in Hl by done. by eapply Hj. }
  destruct io as [| | [] [] | t []]; try done; intros name' ls e Hl Hin; cbn in Hl.
  - eapply (Hins _ [] name' ls); [| exact Hl | done]. by intros e' Hin'%elem_of_nil.
  - eapply (Hins _ _ name' ls); [| exact Hl | done]. intros e' Hin'.
    destruct (journal_files st !! _) as [ls' |] eqn:El; [by eapply Hj | by apply elem_of_nil in Hin'].
  - eapply (Hins _ [] name' ls); [| exact Hl | done]. by intros e' Hin'%elem_of_nil.
Qed.

Lemma append_lines_ok io instance new st :
  storage_ok st -> (forall e, Parsed e ∈ new -> entry_ok e) -> storage_ok (append_lines io instance new st).1.
Proof.
  intros [Hf Hm Hj] Hn. destruct (append_lines_fields io instance new st) as [E1 E2].
  constructor; rewrite ?E1, ?E2; try done. by apply append_lines_all.
Qed.

Lemma group_evicted_remove now n instance es grouped :
  (forall k l e, grouped !! k = Some l -> e ∈ l -> je_operation e = Disk.Remove) ->
  forall k l e, group_evicted now n instance es grouped !! k = Some l -> e ∈ l -> je_operation e = Disk.Remove.
Proof.
  revert n grouped. induction es as [| [[[[key s] e0] size] path] es IH]; intros n grouped Hg; cbn; [done |].
  apply IH. intros k l e. destruct (decide (k = key)) as [-> | Hne].
  - rewrite lookup_insert_eq. intros [= <-]. rewrite elem_of_app, list_elem_of_singleton. intros [Hin | ->]; [| done].
    destruct (grouped !! key) as [l |] eqn:El; [by eapply Hg | by apply elem_of_nil in Hin].
  - rewrite lookup_insert_ne by done. apply Hg.
Qed.

Lemma eviction_entries_fields io now instance es st :
  range_files (write_eviction_journal_entries io now instance es st) = range_files st /\
  metadata_files (write_eviction_journal_entries io now instance es st) = metadata_files st /\
  forall P, (forall e, je_operation e = Disk.Remove -> P e) -> journals_all P st ->
    journals_all P (write_eviction_journal_entries io now instance es st).
Proof.
  unfold write_eviction_journal_entries. destruct es as [| e0 es]; [done |].
  set (es' := e0 :: es). clearbody es'.
  assert (Hrm : forall kl, kl ∈ hash_iter (group_evicted now 0 instance es' ∅) ->
    forall e, e ∈ kl.2 -> je_operation e = Disk.Remove).
  { intros [k l] Hin e He. apply hash_iter_lookup in Hin. cbn in He. eapply group_evicted_remove; [| done | done].
    intros k' l' e'. by rewrite lookup_empty. }
  revert st Hrm. generalize (hash_iter (group_evicted now 0 instance es' ∅)). intros kls.
  induction kls as [| [k l] kls IH]; intros st Hrm; cbn; [done |].
  destruct (IH (append_range_entries_batch (io k) instance l st).1) as (E1 & E2 & E3);
    [intros kl Hin; apply Hrm; by right |]. rewrite E1, E2. clear IH E1 E2.
  unfold append_range_entries_batch in *. destruct l as [| e l]; [done |].
  destruct (append_lines_fields (io k) instance (Parsed <$> e :: l) st) as [-> ->]. split_and!; try done.
  intros P HP Hst. apply E3; [done |]. apply append_lines_all; [done |].
  intros e' Hin. apply list_elem_of_fmap in Hin as (e2 & [= ->] & Hin).
  apply HP. by apply (Hrm (k, e :: l) ltac:(left) e2 Hin).
Qed.

Lemma eviction_entries_ok io now instance es st :
  storage_ok st -> storage_ok (write_eviction_journal_entries io now instance es st).
Proof.
  intros [Hf Hm Hj]. destruct (eviction_entries_fields io now instance es st) as (E1 & E2 & E3).
  constructor; rewrite ?E1, ?E2; try done. apply E3; [| done]. intros e He Hp. by rewrite He in Hp.
Qed.

Lemma debit_range_ok key r b st : storage_ok st -> storage_ok (debit_range key r b st).
Proof. intros [Hf Hm Hj]. by constructor. Qed.

Lemma retire_loop_sub removable files removed rs : (retire_loop removable files removed rs).1.1 ⊆ files.
Proof.
  revert files removed. induction rs as [| r rs IH]; intros files removed; cbn; [done |].
  destruct (negb _); [done |]. destruct (files !! _); [| done]. destruct (removable _); [| done].
  etrans; [apply IH | apply delete_subseteq].
Qed.

Lemma retire_ok env key cached st : storage_ok st -> storage_ok (retire_object_version env key cached st).1.
Proof.
  intros Hok. unfold retire_object_version.
  pose proof (retire_loop_sub (se_removable env) (range_files st) [] (cm_ranges cached)) as Hsub.
  destruct (retire_loop _ _ _ _) as [[files removed] failure]. cbn [fst] in *.
  assert (Hok1 : storage_ok (set_range_files files st))
    by (apply storage_ok_range_files; [done |]; eapply files_ok_subseteq; [done | apply Hok]).
  destruct (se_consolidator env); [| done]. apply eviction_entries_ok.
  revert Hok1. generalize (set_range_files files st). clear. induction removed as [| r rs IH]; intros st Hok; cbn; [done |].
  apply IH. by apply debit_range_ok.
Qed.

Lemma write_metadata_ok env m st :
  storage_ok st -> Forall (named_at (get_new_metadata_file_path (cm_cache_key m))) (cm_ranges m) ->
  storage_ok (write_metadata_to_disk env m st).1.
Proof.
  intros Hok Hn. unfold write_metadata_to_disk.
  destruct (get_sharded_path "metadata" (cm_cache_key m) ".meta") as [path | |] eqn:Ep; [| done | done].
  destruct (se_write_meta env); [done |]. apply storage_ok_metadata; [done |].
  assert (get_new_metadata_file_path (cm_cache_key m) = path) as E by (unfold get_new_metadata_file_path; by rewrite Ep).
  split; [done | by rewrite <- E].
Qed.

Lemma write_new_identity_ok env key om ttl st : storage_ok st -> storage_ok (write_new_identity env key om ttl st).1.
Proof.
  intros Hok. unfold write_new_identity. destruct (add_ttl _ _) as [t | |]; [| done | done].
  set (m := new_metadata _ _ _ _).
  pose proof (write_metadata_ok env m st Hok ltac:(constructor)) as Hw.
  destruct (write_metadata_to_disk env m st) as [st1 [[] | |]]; [| done | done]. destruct Hw as [Hf Hm Hj]. by constructor.
Qed.

Lemma claim_ok env key om ttl st : storage_ok st -> storage_ok (claim_object_version env key om ttl st).1.
Proof.
  intros Hok. unfold claim_object_version. destruct (confirmed_contains _ _ _); [done |].
  destruct (se_lock env); [done |].
  assert (Hp : storage_ok (prepare_object_version env key om ttl st).1).
  { unfold prepare_object_version. destruct (is_empty_str _); [done |].
    destruct (read_disk_metadata key st) as [[c |] | |]; [| by apply write_new_identity_ok | done | done].
    destruct (bool_decide _); [done |]. destruct (_ && _); [done |].
    pose proof (retire_ok env key c st Hok) as Hr.
    destruct (retire_object_version env key c st) as [st1 [[] | |]]; [| done | done]. by apply write_new_identity_ok. }
  destruct (prepare_object_version env key om ttl st) as [st1 [[] | |]]; [| done | done].
  destruct Hp as [Hf Hm Hj]. by constructor.
Qed.

Lemma checked_end_Ok start end_ data om e :
  is_u64 start -> is_u64 end_ -> end_ < U64_MAX -> checked_end start end_ data om = Ok e ->
  start <= e <= end_ /\ zlen data = e - start + 1.
Proof.
  unfold is_u64, U64_MAX. intros Hs He Hm. unfold checked_end. bsplit_goal; [done |]. u64.
  destruct (Z.ltb_spec (zlen data) (end_ - start + 1)), (Z.ltb_spec 0 (zlen data)); cbn [andb];
    try (destruct (Z.eqb_spec (zlen data) (end_ - start + 1)); cbn [negb]; [intros [= <-]; lia | done]).
  u64. destruct (bool_decide _); [| done]. intros [= <-]. lia.
Qed.

Lemma new_range_named key r etag :
  is_u64 (nr_start r) -> is_u64 (nr_end r) -> nr_start r <= nr_end r ->
  nr_file_path r = get_versioned_range_file_path key (nr_start r) (nr_end r) etag ->
  nr_compression_algorithm r = Lz4 -> nr_uncompressed_size r = nr_end r - nr_start r + 1 -> named key r.
Proof.
  intros Hs He Hle Hp Ha Hu. split_and!; try apply Hs; try apply He; [done | |].
  { intros key' s e etag' Hs' He' E. rewrite Hp in E.
    by destruct (range_path_extent key _ _ etag key' s e etag' Hs He Hs' He' E) as (-> & -> & _). }
  intros etag' Hb.
  rewrite (range_path_belongs key (nr_start r) (nr_end r) etag) in Hb by done. apply bool_decide_eq_true in Hb.
  split_and!; [| done | done]. by rewrite Hp, (range_path_version key _ _ etag' etag).
Qed.

Lemma storage_ok_publish env key r om compressed st :
  storage_ok st -> is_u64 (nr_start r) -> is_u64 (nr_end r) ->
  nr_file_path r = get_versioned_range_file_path key (nr_start r) (nr_end r) (om_etag om) ->
  decompress_data compressed = Ok (sub_list (object key (om_etag om)) (nr_start r) (nr_end r + 1)) ->
  storage_ok (publish env (nr_file_path r) compressed st).
Proof.
  intros Hok Hs He Hp Hd. apply storage_ok_range_files; [done |]. rewrite Hp. apply files_ok_publish; try done.
  eapply files_ok_subseteq; [apply delete_subseteq | apply Hok].
Qed.

Lemma publish_hybrid_ok env key r om ttl staged compressed st :
  storage_ok st -> named key r ->
  nr_file_path r = get_versioned_range_file_path key (nr_start r) (nr_end r) (om_etag om) ->
  decompress_data compressed = Ok (sub_list (object key (om_etag om)) (nr_start r) (nr_end r + 1)) ->
  storage_ok (publish_hybrid env key r om ttl staged compressed st).1.
Proof.
  intros Hok Hn Hp Hd. unfold publish_hybrid. pose proof (claim_ok env key om ttl st Hok) as Hc.
  destruct (claim_object_version env key om ttl st) as [st1 [[] | |]]; [| by apply storage_ok_drop_tmp | done].
  cbn [fst] in Hc. destruct (se_rename env); [by apply storage_ok_drop_tmp |].
  pose proof Hn as (Hs & He & _).
  pose proof (storage_ok_publish env key r om compressed st1 Hc Hs He Hp Hd) as Hpub.
  unfold write_journal_only. set (e := mkEntry _ _ _ _ _ _ _ _ _ _ _).
  pose proof (append_lines_ok (se_journal env) (se_instance env) [Parsed e] _ Hpub) as Ha.
  unfold append_range_entry. destruct (append_lines _ _ _ _) as [st2 [[] | |]]; cbn [fst] in *;
    (assert (storage_ok st2) as [Hf Hm Hj] by (apply Ha; intros e' [= ->]%list_elem_of_singleton _; done));
    [| by constructor..].
  unfold credit_range. destruct (_ && _); by constructor.
Qed.

Lemma remove_listed_sub removable rs files : remove_listed removable rs files ⊆ files.
Proof.
  unfold remove_listed. revert files. induction rs as [| r rs IH]; intros files; cbn; [done |].
  etrans; [apply IH |]. destruct (files !! _); [| done]. destruct (removable _); [apply delete_subseteq | done].
Qed.

Lemma direct_metadata_ok env key om ttl st :
  storage_ok st ->
  let '(st', res) := direct_metadata env key om ttl st in
  storage_ok st' /\ forall m, res = Ok m -> metadata_ok (get_new_metadata_file_path key) m.
Proof.
  intros Hok. unfold direct_metadata.
  assert (Hfresh : forall st', storage_ok st' -> storage_ok st' /\
    forall m, (t ← add_ttl (se_clock env 1) ttl; Ok (new_metadata key om (se_clock env 1) t)) = Ok m ->
      metadata_ok (get_new_metadata_file_path key) m).
  { intros st' Hst'. split; [done |]. intros m E. okinv. by repeat constructor. }
  destruct (metadata_files st !! get_new_metadata_file_path key) as [[m | | error] |] eqn:Em; try (by apply Hfresh).
  - destruct (_ && _); [by split |]. destruct (bool_decide _).
    + split; [done |]. intros m' [= <-]. by apply Hok.
    + apply Hfresh, storage_ok_range_files; [done |].
      eapply files_ok_subseteq; [apply remove_listed_sub | apply Hok].
  - by split.
Qed.

Lemma replace_range_Forall (P : NewRangeSpec -> Prop) r rs rs' :
  P r -> Forall P rs -> replace_range r rs = Some rs' -> Forall P rs'.
Proof.
  intros Hr. revert rs'. induction rs as [| x rs IH]; intros rs' Hrs; cbn; [done |].
  apply Forall_cons in Hrs as [Hx Hrs]. destruct (_ && _); [intros [= <-]; by constructor |].
  destruct (replace_range r rs) as [rs1 |]; [| done]. intros [= <-]. constructor; [done | by apply IH].
Qed.

Lemma add_or_replace_Forall (P : NewRangeSpec -> Prop) r rs :
  P r -> Forall P rs -> Forall P (add_or_replace r rs).
Proof.
  intros Hr Hrs. unfold add_or_replace. destruct (replace_range r rs) as [rs' |] eqn:E.
  - by eapply replace_range_Forall.
  - cbn. apply Forall_app. by split; [| constructor].
Qed.

Lemma publish_direct_ok env key r om ttl compressed st :
  storage_ok st -> named key r ->
  nr_file_path r = get_versioned_range_file_path key (nr_start r) (nr_end r) (om_etag om) ->
  decompress_data compressed = Ok (sub_list (object key (om_etag om)) (nr_start r) (nr_end r + 1)) ->
  storage_ok (publish_direct env key r om ttl compressed st).1.
Proof.
  intros Hok Hn Hp Hd. unfold publish_direct. destruct (se_lock env); [by apply storage_ok_drop_tmp |].
  pose proof (direct_metadata_ok env key om ttl st Hok) as Hm.
  destruct (direct_metadata env key om ttl st) as [st1 res]. destruct Hm as [Hok1 Hm].
  destruct res as [m | |]; [| by apply storage_ok_drop_tmp | done].
  destruct (se_write_meta env); [by apply storage_ok_drop_tmp |].
  set (m' := set_ranges _ _).
  assert (Hm' : metadata_ok (get_new_metadata_file_path key) m')
    by (destruct (Hm m eq_refl) as [Hp' Hn']; split; [exact Hp' |]; apply add_or_replace_Forall; [by exists key | exact Hn']).
  pose proof (storage_ok_metadata st1 _ m' Hok1 Hm') as Hok2.
  destruct (se_rename env); [by apply storage_ok_drop_tmp |].
  pose proof Hn as (Hs & He & _). by apply (storage_ok_publish env key r om).
Qed.

Lemma store_range_ok env key start end_ data om ttl b st :
  storage_ok st -> is_u64 start -> is_u64 end_ -> end_ < U64_MAX ->
  data = sub_list (object key (om_etag om)) start (start + zlen data) ->
  storage_ok (store_range env key start end_ data om ttl b st).1.
Proof.
  intros Hok Hs He Hmax Hdata. unfold store_range.
  destruct (checked_end start end_ data om) as [e | |] eqn:Ee; [| done | done].
  apply checked_end_Ok in Ee as [Hle Hlen]; [| done..].
  destruct (etagless_refused _ _ _); [done |].
  pose proof (Comp.compress_with_metadata_frame data b (compression_stats st)) as Hc.
  destruct (Comp.compress_with_metadata data b (compression_stats st)) as [stats c].
  destruct Hc as (Ha & _ & _ & Hne & Hdec).
  assert (data <> []) as Hd by (intros ->; rewrite zlen_nil in Hlen; lia).
  assert (Hok1 : storage_ok (set_compression_stats stats st)) by (destruct Hok as [Hf Hm Hj]; by constructor).
  revert Hok1. generalize (set_compression_stats stats st). intros st1 Hok1.
  destruct (se_create_dir env); [done |]. destruct (se_write_tmp env); [by apply storage_ok_drop_tmp, storage_ok_tmp |].
  assert (is_u64 e) by (unfold is_u64 in *; lia).
  assert (Hb : decompress_data (Comp.data c) = Ok (sub_list (object key (om_etag om)) start (e + 1))).
  { rewrite (Comp.decode_single (Comp.data c) data Hd Hne Hdec). f_equal. rewrite Hdata at 1. f_equal. lia. }
  set (r := NewRangeSpec_new_staged _ _ _ _ _ _ _ _).
  assert (Hn : named key r) by (apply (new_range_named key r (om_etag om)); cbn; done || lia).
  destruct (se_hybrid env).
  - apply publish_hybrid_ok; [by apply storage_ok_tmp | done | done | done].
  - apply publish_direct_ok; [by apply storage_ok_tmp | done | done | done].
Qed.

(** ** Claiming a version *)

Lemma retire_fields env key cached st :
  metadata_files (retire_object_version env key cached st).1 = metadata_files st /\
  forall P, (forall e, je_operation e = Disk.Remove -> P e) -> journals_all P st ->
    journals_all P (retire_object_version env key cached st).1.
Proof.
  unfold retire_object_version. destruct (retire_loop _ _ _ _) as [[files removed] failure]. cbn [fst].
  destruct (se_consolidator env); [| done].
  match goal with |- context [write_eviction_journal_entries ?io ?now ?i ?es ?s] =>
    destruct (eviction_entries_fields io now i es s) as (_ & -> & E) end.
  set (w := om_is_write_cached (cm_object_metadata cached)) in *.
  assert (forall st0, metadata_files (foldl (fun st r => debit_range key r w st) st0 removed) = metadata_files st0 /\
    journal_files (foldl (fun st r => debit_range key r w st) st0 removed) = journal_files st0) as Hd.
  { clear. induction removed as [| r rs IH]; intros st0; cbn; [done |].
    by destruct (IH (debit_range key r w st0)) as [-> ->]. }
  destruct (Hd (set_range_files files st)) as [E1 E2]. split; [by rewrite E1 |].
  intros P HP Hj. apply E; [done |]. unfold journals_all. by rewrite E2.
Qed.

(** The claimed version is the one the metadata file names, unless it was confirmed
    before; only entries that remove are appended, and a new file has no ranges. *)
Lemma claim_spec env key om ttl st st1 :
  claim_object_version env key om ttl st = (st1, Ok tt) ->
  (if confirmed_contains key (om_etag om) st then st1 = st else
   exists m, metadata_files st1 !! get_new_metadata_file_path key = Some (MetaParsed m) /\
     om_etag (cm_object_metadata m) = om_etag om) /\
  (forall P, (forall e, je_operation e = Disk.Remove -> P e) -> journals_all P st -> journals_all P st1) /\
  (forall m, metadata_files st1 !! get_new_metadata_file_path key = Some (MetaParsed m) ->
     cm_ranges m = [] \/ metadata_files st !! get_new_metadata_file_path key = Some (MetaParsed m)).
Proof.
  unfold claim_object_version. destruct (confirmed_contains _ _ _); [intros [= <-]; auto |].
  destruct (se_lock env); [done |]. unfold prepare_object_version.
  destruct (is_empty_str (om_etag om)); [done |].
  assert (Hnew : forall st0 st2, write_new_identity env key om ttl st0 = (st2, Ok tt) ->
    exists m, metadata_files st2 = <[get_new_metadata_file_path key:=MetaParsed m]> (metadata_files st0) /\
      journal_files st2 = journal_files st0 /\ cm_ranges m = [] /\ om_etag (cm_object_metadata m) = om_etag om).
  { intros st0 st2. unfold write_new_identity. destruct (add_ttl _ _) as [t | |]; [| done | done].
    unfold write_metadata_to_disk. cbn [cm_cache_key new_metadata].
    destruct (get_sharded_path "metadata" key ".meta") as [path | |] eqn:Ep; [| done | done].
    destruct (se_write_meta env); [done |]. intros [= <-]. eexists. cbn.
    unfold get_new_metadata_file_path. rewrite Ep. done. }
  unfold read_disk_metadata. destruct (metadata_files st !! get_new_metadata_file_path key) as [[m | | err] |] eqn:Em; try done.
  - case_bool_decide as Heq; [intros [= <-]; cbn; split_and!; [exists m; by rewrite Em | done | intros m2 Hm2; right; congruence] |].
    destruct (_ && _); [done |]. destruct (retire_fields env key m st) as [E1 E2].
    destruct (retire_object_version env key m st) as [st2 [[] | |]]; [| done | done]. cbn [fst] in *.
    destruct (write_new_identity env key om ttl st2) as [st3 [[] | |]] eqn:Ew; [| done | done]. intros [= <-].
    destruct (Hnew _ _ Ew) as (m' & Hm & Hj & Hr & Het). unfold confirm, journals_all. cbn. rewrite Hm, Hj, lookup_insert_eq.
    split_and!; [by exists m' | done |]. intros m2 [= <-]. by left.
  - destruct (write_new_identity env key om ttl st) as [st3 [[] | |]] eqn:Ew; [| done | done]. intros [= <-].
    destruct (Hnew _ _ Ew) as (m' & Hm & Hj & Hr & Het). unfold confirm, journals_all. cbn. rewrite Hm, Hj, lookup_insert_eq.
    split_and!; [by exists m' | done |]. intros m2 [= <-]. by left.
Qed.

(** ** Loading what was stored *)

Lemma read_named st key bucket object_key r etag frame data :
  parse_cache_key key = Ok (bucket, object_key) -> named key r ->
  range_file_belongs_to r (object_version_id etag) = true ->
  range_files st !! get_versioned_range_file_path key (nr_start r) (nr_end r) etag = Some (Disk.Readable frame) ->
  decompress_data frame = Ok data -> zlen data = nr_end r - nr_start r + 1 -> nr_end r < U64_MAX ->
  Disk.read_range_data (disk_of st) r key etag = Ok data.
Proof.
  intros Hk (Hs & He & Hle & _ & Hn) Hb Hf Hd Hlen Hmax. destruct (Hn etag Hb) as (Hp & Ha & Hu).
  unfold Disk.read_range_data, Disk.servable_range_path.
  rewrite Hb, Hp, (range_path_safe key bucket object_key) by done. cbn [negb mbind outcome_bind].
  cbn [disk_of Disk.range_files]. rewrite Hf, Ha. cbn [decompress_with_algorithm mbind outcome_bind].
  rewrite Hd. cbn [mbind outcome_bind]. rewrite Hu, Hlen, Z.eqb_refl. cbn [negb].
  unfold is_u64, U64_MAX in *. u64. by rewrite Z.eqb_refl.
Qed.

Lemma append_lines_new io instance e st st' :
  append_lines io instance [Parsed e] st = (st', Ok tt) ->
  e ∈ journal_entries st' /\ journals_dir_exists st' = true.
Proof.
  intros Ha.
  assert (exists name ls, is_journal_name name = true /\ journal_files st' !! name = Some ls /\ Parsed e ∈ ls /\
    journals_dir_exists st' = true) as (name & ls & Hn & Hl & Hin & Hd).
  { destruct io as [| | b [] | t []]; try done; injection Ha as <-; eexists _, _; cbn; split_and!;
      try (by apply lookup_insert_eq); try done.
    - apply ends_with_spec. by exists instance.
    - apply elem_of_app. right. left.
    - apply ends_with_spec. unfold fresh_journal. eexists. by rewrite !string_app_assoc.
    - left. }
  split; [| done]. unfold journal_entries. apply list_elem_of_In, in_flat_map. exists (name, ls). cbn. rewrite Hn.
  split; [by apply list_elem_of_In, hash_iter_lookup | by apply list_elem_of_In, parsed_lines_elem].
Qed.

Lemma pending_in_journals st key etag r :
  r ∈ Disk.pending_candidates (disk_of st) key etag ->
  exists e name ls, journal_files st !! name = Some ls /\ Parsed e ∈ ls /\ je_cache_key e = key /\
    je_operation e = Disk.Add /\ je_range_spec e = r /\ range_file_belongs_to r (object_version_id etag) = true.
Proof.
  intros Hr. apply Disk.pending_candidates_elem in Hr as [(v & Hv & Hk & Ho & Hr) Hb].
  cbn in Hv. apply list_elem_of_fmap in Hv as (e & -> & He). apply journal_entries_elem in He as (name & ls & Hl & He).
  exists e, name, ls. by cbn in *.
Qed.

(** The range a load asks for. *)
Definition stored_range (start end_ : Z) (om : ObjectMetadata) : Range :=
  mkCachedRange start end_ [] (om_etag om) (om_last_modified om) Lz4.

(** Where the file is visible, the metadata names the version and lists its ranges
    by their paths, and the entry is in the journal, the range loads: from the
    metadata, or from the journal when no pending range is larger. *)
Lemma published_loads now st key bucket object_key om r frame data :
  storage_ok st -> parse_cache_key key = Ok (bucket, object_key) ->
  named key r -> nr_end r < U64_MAX ->
  range_file_belongs_to r (object_version_id (om_etag om)) = true ->
  range_files st !! get_versioned_range_file_path key (nr_start r) (nr_end r) (om_etag om) = Some (Disk.Readable frame) ->
  decompress_data frame = Ok data -> zlen data = nr_end r - nr_start r + 1 ->
  (forall m, metadata_files st !! get_new_metadata_file_path key = Some (MetaParsed m) ->
     om_etag (cm_object_metadata m) = om_etag om /\ Forall (named key) (cm_ranges m)) ->
  r ∈ Disk.pending_candidates (disk_of st) key (om_etag om) -> journals_dir_exists st = true ->
  journals_all (fun e => je_cache_key e = key -> je_operation e = Disk.Add ->
    range_file_belongs_to (je_range_spec e) (object_version_id (om_etag om)) = true ->
    Disk.contains_request (nr_start r) (nr_end r) (je_range_spec e) ->
    nr_start (je_range_spec e) = nr_start r /\ nr_end (je_range_spec e) = nr_end r) st ->
  Disk.load_range_data_from_new_storage now (disk_of st) key (stored_range (nr_start r) (nr_end r) om) = Ok data.
Proof.
  intros Hok Hk Hn Hmax Hb Hf Hd Hlen Hm Hr Hdir Hsmall. unfold Disk.load_range_data_from_new_storage.
  assert (Hread : forall spec, named key spec -> nr_start spec = nr_start r -> nr_end spec = nr_end r ->
    range_file_belongs_to spec (object_version_id (om_etag om)) = true ->
    Disk.read_range_data (disk_of st) spec key (om_etag om) = Ok data).
  { intros spec Hspec Es Ee Hbs. apply (read_named st key bucket object_key spec (om_etag om) frame);
      rewrite ?Es, ?Ee; try done. }
  set (journal := List.find (fun x => (nr_start x =? nr_start r) && (nr_end x =? nr_end r))
    (Disk.find_pending_journal_ranges (disk_of st) key (nr_start r) (nr_end r) (Some (om_etag om)))).
  assert (exists spec, journal = Some spec /\ Disk.read_range_data (disk_of st) spec key (om_etag om) = Ok data)
    as (spec & Ej & Hspec).
  { unfold journal, Disk.find_pending_journal_ranges. cbn [disk_of Disk.shared_storage_mode Disk.journals_dir_exists].
    rewrite Hdir. cbn [negb].
    destruct (Disk.scan_overlaps_spec (nr_start r) (nr_end r) [] (Disk.pending_candidates (disk_of st) key (om_etag om)))
      as [(r' & Hr' & Hc & ->) | [Hnone _]]; [apply Hn | |].
    - destruct (pending_in_journals st key (om_etag om) r' Hr') as (e & name & ls & Hl & He & Hke & Ho & <- & Hb').
      destruct (Hsmall name ls e Hl He Hke Ho Hb' Hc) as [Es Ee].
      exists (je_range_spec e). cbn. rewrite Es, Ee, !Z.eqb_refl. split; [done |].
      apply Hread; try done. rewrite <- Hke. apply (so_journals st Hok name ls e Hl He). by rewrite Ho.
    - rewrite Forall_forall in Hnone. destruct (Hnone r Hr). by split. }
  unfold Disk.find_range_spec. cbn [stored_range r_etag r_start r_end]. fold journal.
  destruct (Disk.get_metadata now (disk_of st) key) as [m |] eqn:Em.
  - assert (metadata_files st !! get_new_metadata_file_path key = Some (MetaParsed m)) as Hmeta.
    { unfold Disk.get_metadata in Em. cbn in Em. apply bind_Some in Em as (m' & Em & Eb).
      apply lookup_omap_Some in Em as ([m2 | |] & E2 & Em); try done. cbn in E2. injection E2 as ->.
      destruct (_ && _) in Eb; [done |]. by injection Eb as ->. }
    destruct (Hm m Hmeta) as [He Hnm]. rewrite He, bool_decide_true by done. cbn [negb mbind outcome_bind option_bind].
    destruct (List.find _ (cm_ranges m)) as [spec' |] eqn:Ef; [| by rewrite Ej].
    apply List.find_some in Ef as [Hin Ef]. rewrite !andb_true_iff, !Z.eqb_eq in Ef. destruct Ef as [[Es Ee] Hbs].
    cbn [mbind outcome_bind]. apply Hread; try done. rewrite Forall_forall in Hnm. apply Hnm. by apply list_elem_of_In.
  - cbn [mbind outcome_bind option_bind]. by rewrite Ej.
Qed.

End Preserve.

End Invariant.

(** Storing keeps the disk faithful.  From a sound storage, and with a body that
    is what the version holds at the range, [store_range] leaves a sound storage
    whatever fails on the way and in both write modes: every readable range file
    still holds its version's bytes, every listed range is the file of its version,
    and so the disk is one the range merge can be proved against. *)
Theorem store_range_keeps_faithful `{HashIter} `{PathCodecSpec} `{FrameEncoder} `{FrameCodec} `{HttpDate}
    `{!Comp.FrameCodecLaws} object `{!LayoutSeparates object} env key start end_ data om ttl compression st :
  storage_ok object st -> is_u64 start -> is_u64 end_ -> end_ < U64_MAX ->
  data = sub_list (object key (om_etag om)) start (start + zlen data) ->
  let st' := (store_range env key start end_ data om ttl compression st).1 in
  storage_ok object st' /\ disk_faithful object (disk_of st').
Proof.
  intros Hok Hs He Hm Hd st'. assert (Hok' : storage_ok object st') by (by apply store_range_ok).
  split; [done | by apply storage_ok_faithful].
Qed.

(** No pending range of the version is larger than the one stored. *)
Definition no_larger_pending `{PathCodec} (key etag : string) (s e : Z) : JournalEntry -> Prop := fun j =>
  je_cache_key j = key -> je_operation j = Disk.Add ->
  range_file_belongs_to (je_range_spec j) (object_version_id etag) = true ->
  Disk.contains_request s e (je_range_spec j) ->
  nr_start (je_range_spec j) = s /\ nr_end (je_range_spec j) = e.

(** The metadata file of the key lists ranges by the key's own paths, and names the
    version if that version is confirmed. *)
Definition metadata_current `{PathCodec} (key etag : string) (st : Storage) : Prop :=
  forall m, metadata_files st !! get_new_metadata_file_path key = Some (MetaParsed m) ->
    Forall (named key) (cm_ranges m) /\
    (confirmed_contains key etag st = true -> om_etag (cm_object_metadata m) = etag).

(** Between a claim and a load: when a version is claimed, the range's file is put in
    place and its entry is appended, the range loads. *)
Lemma journalled_loads `{HashIter} `{PathCodecSpec} `{FrameEncoder} `{FrameCodec} `{HttpDate}
    `{!Comp.FrameCodecLaws} object `{!LayoutSeparates object} env key bucket object_key r om ttl frame data
    st0 st1 st1' st2 st' now :
  storage_ok object st' -> parse_cache_key key = Ok (bucket, object_key) -> named key r -> nr_end r < U64_MAX ->
  nr_file_path r = get_versioned_range_file_path key (nr_start r) (nr_end r) (om_etag om) ->
  metadata_current key (om_etag om) st0 ->
  journals_all (no_larger_pending key (om_etag om) (nr_start r) (nr_end r)) st0 ->
  claim_object_version env key om ttl st0 = (st1, Ok tt) ->
  metadata_files st1' = metadata_files st1 -> journal_files st1' = journal_files st1 ->
  range_files st1' !! nr_file_path r = Some (Disk.Readable frame) ->
  decompress_data frame = Ok data -> zlen data = nr_end r - nr_start r + 1 ->
  write_journal_only env key r (Some om) ttl st1' = (st2, Ok tt) ->
  range_files st' = range_files st2 -> metadata_files st' = metadata_files st2 ->
  journal_files st' = journal_files st2 -> journals_dir_exists st' = journals_dir_exists st2 ->
  Disk.load_range_data_from_new_storage now (disk_of st') key (stored_range (nr_start r) (nr_end r) om) = Ok data.
Proof.
  intros Hok Hk Hn Hmax Hp Hcur Hsmall Ec Em1 Ej1 Hf Hdec Hlen Hw E1 E2 E3 E4.
  destruct (claim_spec env key om ttl st0 st1 Ec) as (Hmeta & Hj & Hranges).
  unfold write_journal_only, append_range_entry in Hw. set (entry := mkEntry _ _ _ _ _ _ _ _ _ _ _) in Hw.
  destruct (append_lines _ _ _ _) as [st3 [[] | |]] eqn:Ea; [| done | done]. injection Hw as ->.
  destruct (append_lines_new _ _ _ _ _ Ea) as [Hin Hdir].
  pose proof (append_lines_fields (se_journal env) (se_instance env) [Parsed entry] st1') as [Ef Em].
  rewrite Ea in Ef, Em. cbn [fst] in Ef, Em.
  assert (Hb : range_file_belongs_to r (object_version_id (om_etag om)) = true).
  { pose proof Hn as (Hs & He & _). rewrite (range_path_belongs key (nr_start r) (nr_end r) (om_etag om)) by done.
    by apply bool_decide_eq_true. }
  assert (Hall : journals_all (no_larger_pending key (om_etag om) (nr_start r) (nr_end r)) st2).
  { change st2 with (st2, @Ok ProxyError unit tt).1. rewrite <- Ea. apply append_lines_all.
    - unfold journals_all. rewrite Ej1. apply Hj; [| done]. intros j Ho _ Hadd. congruence.
    - intros j [= ->]%list_elem_of_singleton. done. }
  apply (published_loads object now st' key bucket object_key om r frame); try done.
  - by rewrite <- Hp, E1, Ef.
  - intros m Hm. rewrite E2, Em, Em1 in Hm. split.
    + destruct (confirmed_contains key (om_etag om) st0) eqn:Econf.
      * subst st1. by apply (Hcur m Hm).
      * destruct Hmeta as (m' & Hm' & He'). congruence.
    + destruct (Hranges m Hm) as [-> | Hm0]; [constructor | by apply (Hcur m Hm0)].
  - assert (entry ∈ journal_entries st') as Hin' by (unfold journal_entries in *; by rewrite E3).
    unfold Disk.pending_candidates. apply list_elem_of_fmap. exists (view_of entry). split; [done |].
    apply list_elem_of_filter. split; [| cbn; apply list_elem_of_fmap; by exists entry].
    split_and!; [done | done |]. cbn. rewrite Hb. by apply bool_decide_eq_true.
  - by rewrite E4.
  - unfold journals_all. rewrite E3. exact Hall.
Qed.

(** What is behind a store that succeeded: the range, its frame, and the publication. *)
Lemma store_range_Ok `{HashIter} `{PathCodecSpec} `{FrameEncoder} `{FrameCodec} `{HttpDate} `{!Comp.FrameCodecLaws}
    env key start end_ e data om ttl compression st st' :
  is_u64 start -> is_u64 end_ -> end_ < U64_MAX -> checked_end start end_ data om = Ok e ->
  store_range env key start end_ data om ttl compression st = (st', Ok tt) ->
  exists r frame staged st0,
    named key r /\ nr_start r = start /\ nr_end r = e /\ e < U64_MAX /\ zlen data = e - start + 1 /\
    nr_file_path r = get_versioned_range_file_path key start e (om_etag om) /\
    range_file_belongs_to r (object_version_id (om_etag om)) = true /\ decompress_data frame = Ok data /\
    metadata_files st0 = metadata_files st /\ journal_files st0 = journal_files st /\
    confirmed_contains key (om_etag om) st0 = confirmed_contains key (om_etag om) st /\
    (if se_hybrid env then publish_hybrid env key r om ttl staged frame st0
     else publish_direct env key r om ttl frame st0) = (st', Ok tt).
Proof.
  intros Hs He Hmax Hce Hst. destruct (checked_end_Ok start end_ data om e) as [Hle Hlen]; [done.. |].
  assert (is_u64 e) by (unfold is_u64 in *; lia).
  assert (data <> []) as Hd by (intros ->; rewrite zlen_nil in Hlen; lia).
  unfold store_range in Hst. rewrite Hce in Hst. destruct (etagless_refused _ _ _); [done |].
  pose proof (Comp.compress_with_metadata_frame data compression (compression_stats st)) as Hc.
  destruct (Comp.compress_with_metadata data compression (compression_stats st)) as [stats c].
  destruct Hc as (Ha & _ & _ & Hne & Hdec). pose proof (Comp.decode_single _ _ Hd Hne Hdec) as Hframe.
  destruct (se_create_dir env); [done |]. destruct (se_write_tmp env); [done |].
  set (r := NewRangeSpec_new_staged _ _ _ _ _ _ _ _) in Hst. set (st0 := set_range_files _ _) in Hst.
  assert (Hn : named key r) by (apply (new_range_named key r (om_etag om)); cbn; done || lia).
  exists r, (Comp.data c), (classify_new_range_as_staged (nr_file_path r) (om_is_write_cached om)), st0.
  split_and!; try done; [lia |]. pose proof Hn as (Hs' & He' & _).
  rewrite (range_path_belongs key start e (om_etag om)) by done. by apply bool_decide_eq_true.
Qed.

(** An entry that was appended is pending. *)
Lemma journal_only_pending `{HashIter} `{PathCodecSpec} env key r om ttl st st' :
  range_file_belongs_to r (object_version_id (om_etag om)) = true ->
  write_journal_only env key r (Some om) ttl st = (st', Ok tt) ->
  r ∈ Disk.pending_candidates (disk_of st') key (om_etag om) /\ range_files st' = range_files st.
Proof.
  intros Hb Hw. unfold write_journal_only, append_range_entry in Hw. set (entry := mkEntry _ _ _ _ _ _ _ _ _ _ _) in Hw.
  destruct (append_lines _ _ _ _) as [st3 [[] | |]] eqn:Ea; [| done | done]. injection Hw as ->.
  destruct (append_lines_new _ _ _ _ _ Ea) as [Hin _].
  pose proof (append_lines_fields (se_journal env) (se_instance env) [Parsed entry] st) as [Ef _].
  rewrite Ea in Ef. split; [| done].
  unfold Disk.pending_candidates. apply list_elem_of_fmap. exists (view_of entry). split; [done |].
  apply list_elem_of_filter. split; [| cbn; apply list_elem_of_fmap; by exists entry].
  split_and!; [done | done |]. cbn. rewrite Hb. by apply bool_decide_eq_true.
Qed.

Lemma write_journal_only_fields env key r om ttl st st' res :
  write_journal_only env key r (Some om) ttl st = (st', res) ->
  range_files st' = range_files st /\ metadata_files st' = metadata_files st.
Proof.
  unfold write_journal_only, append_range_entry. set (entry := mkEntry _ _ _ _ _ _ _ _ _ _ _).
  pose proof (append_lines_fields (se_journal env) (se_instance env) [Parsed entry] st) as [Ef Em].
  destruct (append_lines _ _ _ _) as [st3 [[] | |]]; by intros [= <- _].
Qed.

(** The range added is the first of its extent. *)
Lemma add_or_replace_found P r rs :
  P r = true -> (forall x, P x = true -> nr_start x = nr_start r /\ nr_end x = nr_end r) ->
  List.find P (add_or_replace r rs) = Some r.
Proof.
  intros Hr HP. unfold add_or_replace. induction rs as [| x rs IH]; cbn; [by rewrite Hr |].
  destruct ((nr_start x =? nr_start r) && (nr_end x =? nr_end r)) eqn:Ex; cbn; [by rewrite Hr |].
  destruct (P x) eqn:Hx.
  - destruct (HP x Hx) as [Es Ee]. by rewrite Es, Ee, !Z.eqb_refl in Ex.
  - destruct (replace_range r rs) as [rs' |]; cbn; by rewrite Hx.
Qed.

(** A direct store leaves metadata of the version that lists the range before any other of
    its extent, and the file. *)
Lemma publish_direct_Ok `{PathCodec} `{HttpDate} env key r om ttl frame st st' :
  publish_direct env key r om ttl frame st = (st', Ok tt) ->
  range_files st' !! nr_file_path r = Some (Disk.Readable frame) /\
  exists m rs, metadata_files st' !! get_new_metadata_file_path key = Some (MetaParsed m) /\
    om_etag (cm_object_metadata m) = om_etag om /\ cm_ranges m = add_or_replace r rs.
Proof.
  unfold publish_direct. destruct (se_lock env); [done |].
  destruct (direct_metadata env key om ttl st) as [st1 [m | |]] eqn:Ed; [| done..].
  assert (om_etag (cm_object_metadata m) = om_etag om) as He.
  { unfold direct_metadata in Ed. destruct (metadata_files st !! _) as [[m0 | |] |]; try done.
    - destruct (is_empty_str _ && _); [done |]. case_bool_decide; [by injection Ed as _ <- |].
      injection Ed as _ Ed. destruct (add_ttl _ _); [| done..]. by injection Ed as <-.
    - injection Ed as _ Ed. destruct (add_ttl _ _); [| done..]. by injection Ed as <-.
    - injection Ed as _ Ed. destruct (add_ttl _ _); [| done..]. by injection Ed as <-. }
  destruct (se_write_meta env); [done |]. destruct (se_rename env); [done |]. intros [= <-]. cbn.
  split; [apply lookup_insert_eq |]. eexists _, _. split; [apply lookup_insert_eq |]. done.
Qed.

(** C19: what a store publishes is there and loads.  After a store that succeeded the file
    of the range holds its bytes, and the range is pending in a journal (in the mode that
    publishes through journals) or listed in the metadata.  In the direct mode it loads with
    exactly the bytes given to it for as long as the key's metadata is not an expired
    entry of the write cache.  In the journal mode it loads before any consolidation has
    run, if the metadata lists the key's own files, is of the version where the
    process has confirmed the version before ([metadata_current]), and no larger pending
    range of the version contains the range ([no_larger_pending]); such a range hides it from
    a load by its extent ([larger_pending_hides]). *)
Theorem store_then_load `{HashIter} `{PathCodecSpec} `{FrameEncoder} `{FrameCodec} `{HttpDate}
    `{!Comp.FrameCodecLaws} object `{!LayoutSeparates object} env key bucket object_key start end_ e data om ttl
    compression st st' :
  storage_ok object st -> is_u64 start -> is_u64 end_ -> end_ < U64_MAX ->
  data = sub_list (object key (om_etag om)) start (start + zlen data) ->
  parse_cache_key key = Ok (bucket, object_key) -> checked_end start end_ data om = Ok e ->
  store_range env key start end_ data om ttl compression st = (st', Ok tt) ->
  (exists r frame, nr_start r = start /\ nr_end r = e /\
     nr_file_path r = get_versioned_range_file_path key start e (om_etag om) /\
     range_files st' !! nr_file_path r = Some (Disk.Readable frame) /\ decompress_data frame = Ok data /\
     if se_hybrid env then r ∈ Disk.pending_candidates (disk_of st') key (om_etag om)
     else exists m, metadata_files st' !! get_new_metadata_file_path key = Some (MetaParsed m) /\
            om_etag (cm_object_metadata m) = om_etag om /\ r ∈ cm_ranges m) /\
  forall now,
    (if se_hybrid env
     then metadata_current key (om_etag om) st /\ journals_all (no_larger_pending key (om_etag om) start e) st
     else is_Some (Disk.get_metadata now (disk_of st') key)) ->
    Disk.load_range_data_from_new_storage now (disk_of st') key (stored_range start e om) = Ok data.
Proof.
  intros Hok Hs He Hmax Hdata Hk Hce Hst.
  assert (Hok' : storage_ok object st') by (change st' with (st', @Ok ProxyError unit tt).1; rewrite <- Hst;
    by apply store_range_ok).
  destruct (store_range_Ok env key start end_ e data om ttl compression st st' Hs He Hmax Hce Hst)
    as (r & frame & staged & st0 & Hn & <- & <- & Hmax' & Hlen & Hp & Hb & Hframe & Em0 & Ej0 & Ec0 & Hpub).
  destruct (se_hybrid env).
  - unfold publish_hybrid in Hpub.
    destruct (claim_object_version env key om ttl st0) as [st1 [[] | |]] eqn:Ec; [| done | done].
    destruct (se_rename env); [done |].
    destruct (write_journal_only _ _ _ _ _ _) as [st2 [[] | |]] eqn:Ew; [| done | done].
    assert (range_files st' = range_files st2 /\ metadata_files st' = metadata_files st2 /\
      journal_files st' = journal_files st2 /\ journals_dir_exists st' = journals_dir_exists st2) as (E1 & E2 & E3 & E4).
    { injection Hpub as <-. unfold credit_range. by destruct (_ && _). }
    assert (range_files (publish env (nr_file_path r) frame st1) !! nr_file_path r = Some (Disk.Readable frame)) as Hf
      by (cbn; apply lookup_insert_eq).
    destruct (journal_only_pending env key r om ttl _ st2 Hb Ew) as [Hpend Ef]. split.
    + exists r, frame. split_and!; try done; [by rewrite E1, Ef |].
      unfold disk_of, journal_entries in *. by rewrite E1, E2, E3, E4.
    + intros now [Hcur Hsmall].
      eapply (journalled_loads object env key bucket object_key r om ttl frame data st0 st1
        (publish env (nr_file_path r) frame st1)); try done.
      * unfold metadata_current. by rewrite Em0, Ec0.
      * unfold journals_all. by rewrite Ej0.
  - destruct (publish_direct_Ok _ _ _ _ _ _ _ _ Hpub) as (Hf & m & rs & Hm & Het & Hrs). split.
    + exists r, frame. split_and!; try done. exists m. split_and!; try done. rewrite Hrs.
      apply list_elem_of_In, (List.find_some (fun x => bool_decide (x = r))), add_or_replace_found;
        [by apply bool_decide_eq_true | by intros x ->%bool_decide_eq_true].
    + intros now [m' Hget].
      assert (m' = m) as ->.
      { unfold Disk.get_metadata in Hget. cbn [disk_of Disk.metadata_files] in Hget. rewrite lookup_omap, Hm in Hget.
        cbn [mbind option_bind parsed_metadata] in Hget. destruct (_ && _); [done |]. by injection Hget. }
      unfold Disk.load_range_data_from_new_storage, Disk.find_range_spec. rewrite Hget.
      cbn [stored_range r_etag r_start r_end]. rewrite Het, bool_decide_true by done.
      cbn [negb mbind outcome_bind option_bind].
      rewrite Hrs, add_or_replace_found; [| by rewrite !Z.eqb_refl, Hb |].
      * cbn [mbind outcome_bind]. eapply (read_named st' key bucket object_key); try done. by rewrite <- Hp.
      * intros x. rewrite !andb_true_iff, !Z.eqb_eq. tauto.
Qed.

(** The range files are the same but for [except]; temporary files do not count. *)
Definition ranges_agree `{PathCodec} (except : string -> Prop) (files files' : gmap string Disk.file) : Prop :=
  forall key s e etag, is_u64 s -> is_u64 e -> ~ except (get_versioned_range_file_path key s e etag) ->
    files' !! get_versioned_range_file_path key s e etag = files !! get_versioned_range_file_path key s e etag.

Lemma ranges_agree_refl `{PathCodec} except files : ranges_agree except files files.
Proof. done. Qed.

Lemma ranges_agree_trans `{PathCodec} except files1 files2 files3 :
  ranges_agree except files1 files2 -> ranges_agree except files2 files3 -> ranges_agree except files1 files3.
Proof. intros H1 H2 key s e etag Hs He Hx. by rewrite H2, H1. Qed.

Lemma ranges_agree_insert `{PathCodec} (except : string -> Prop) p f files :
  except p -> ranges_agree except files (<[p:=f]> files).
Proof. intros Hp key s e etag Hs He Hx. rewrite lookup_insert_ne; [done | by intros ->]. Qed.

Lemma ranges_agree_tmp `{PathCodecSpec} except env p f files :
  ranges_agree except files (<[tmp_path env p:=f]> files) /\ ranges_agree except files (base.delete (tmp_path env p) files).
Proof.
  split; intros key s e etag Hs He _; assert (tmp_path env p <> get_versioned_range_file_path key s e etag) by
    (by apply tmp_not_range); by rewrite ?lookup_insert_ne, ?lookup_delete_ne by done.
Qed.

Lemma ranges_agree_drop `{PathCodecSpec} except env p st files :
  ranges_agree except files (range_files st) -> ranges_agree except files (range_files (drop_tmp env p st)).
Proof.
  intros Ha. unfold drop_tmp. destruct (se_removable _ _); [| done]. eapply ranges_agree_trans; [exact Ha |].
  by apply (ranges_agree_tmp except env p (Disk.Unreadable "")).
Qed.

Lemma drop_tmp_fields env p st :
  metadata_files (drop_tmp env p st) = metadata_files st /\ journal_files (drop_tmp env p st) = journal_files st.
Proof. unfold drop_tmp. by destruct (se_removable _ _). Qed.

(** A response of another version that is not newer is not prepared. *)
Lemma older_not_prepared `{HashIter} `{PathCodec} `{HttpDate} env key om ttl st m :
  metadata_files st !! get_new_metadata_file_path key = Some (MetaParsed m) ->
  is_empty_str (om_etag (cm_object_metadata m)) = false -> om_etag (cm_object_metadata m) <> om_etag om ->
  strictly_newer (cm_object_metadata m) om = false ->
  exists err, prepare_object_version env key om ttl st = (st, Err err).
Proof.
  intros Hm Hne Hdiff Hnew. unfold prepare_object_version, read_disk_metadata. rewrite Hm.
  destruct (is_empty_str (om_etag om)); [eauto |]. rewrite bool_decide_false by done. rewrite Hne, Hnew. cbn. eauto.
Qed.

(** C34: what a store refuses leaves no trace.  A body that does not fill its range, unless
    it ends where S3's [Content-Range] says the data ends, and a body without an ETag where
    the metadata has one, change nothing.  In the mode that publishes through journals, a
    response of another version that is not strictly newer than the one the metadata names
    changes neither the metadata nor the file of any range but its own; and unless the process has
    confirmed its version before, it is refused, and journals and range files are as they
    were.  (A confirmed version is not compared again: [stale_confirmation_accepted].) *)
Theorem store_range_refusals `{HashIter} `{PathCodecSpec} `{FrameEncoder} `{HttpDate}
    env key start end_ data om ttl compression st :
  is_u64 start -> is_u64 end_ -> end_ < U64_MAX ->
  let '(st', res) := store_range env key start end_ data om ttl compression st in
  (start <= end_ -> zlen data <> end_ - start + 1 ->
   (zlen data < end_ - start + 1 -> content_range_end (om_response_headers om) <> Some (start + zlen data - 1)) ->
   st' = st /\ exists e, res = Err (CacheError e)) /\
  (forall m e, checked_end start end_ data om = Ok e ->
   metadata_files st !! get_new_metadata_file_path key = Some (MetaParsed m) ->
   is_empty_str (om_etag (cm_object_metadata m)) = false -> is_empty_str (om_etag om) = true ->
   st' = st /\ res = Err etagless_error) /\
  (forall m e, checked_end start end_ data om = Ok e -> se_hybrid env = true ->
   metadata_files st !! get_new_metadata_file_path key = Some (MetaParsed m) ->
   is_empty_str (om_etag (cm_object_metadata m)) = false -> om_etag (cm_object_metadata m) <> om_etag om ->
   strictly_newer (cm_object_metadata m) om = false ->
   metadata_files st' = metadata_files st /\
   ranges_agree (fun p => p = get_versioned_range_file_path key start e (om_etag om)) (range_files st) (range_files st') /\
   (confirmed_contains key (om_etag om) st = false ->
    (exists err, res = Err err) /\ journal_files st' = journal_files st /\
    ranges_agree (fun _ => False) (range_files st) (range_files st'))).
Proof.
  intros Hs He Hmax. destruct (store_range env key start end_ data om ttl compression st) as [st' res] eqn:E.
  unfold store_range in E. split_and!.
  - intros Hle Hne Hcr. unfold checked_end in E. destruct (Z.ltb_spec end_ start); [lia |].
    unfold is_u64, U64_MAX in *. u64_in E.
    destruct (Z.ltb_spec (zlen data) (end_ - start + 1)), (Z.ltb_spec 0 (zlen data)); cbn [andb] in E;
      try (destruct (Z.eqb_spec (zlen data) (end_ - start + 1)); cbn [negb] in E; [done |]; injection E as <- <-; eauto).
    u64_in E. rewrite bool_decide_false in E by (by apply Hcr). injection E as <- <-. eauto.
  - intros m e Hce Hm Hne Hem. rewrite Hce in E. unfold etagless_refused in E. rewrite Hem, Hm, Hne in E. cbn in E.
    by injection E as <- <-.
  - intros m e Hce Hh Hm Hne Hdiff Hnew. rewrite Hce, Hh in E.
    assert (Hdrop : forall p st1 err, metadata_files st1 = metadata_files st -> journal_files st1 = journal_files st ->
      (forall except, ranges_agree except (range_files st) (range_files st1)) -> (drop_tmp env p st1, Err err) = (st', res) ->
      metadata_files st' = metadata_files st /\
      ranges_agree (fun p => p = get_versioned_range_file_path key start e (om_etag om)) (range_files st) (range_files st') /\
      (confirmed_contains key (om_etag om) st = false -> (exists err, res = Err err) /\
        journal_files st' = journal_files st /\ ranges_agree (fun _ => False) (range_files st) (range_files st'))).
    { intros p st1 err Em Ej Ha [= <- <-]. destruct (drop_tmp_fields env p st1) as [-> ->].
      split_and!; eauto using ranges_agree_drop. }
    destruct (etagless_refused key om st); [injection E as <- <-; split_and!; eauto using ranges_agree_refl |].
    destruct (Comp.compress_with_metadata _ _ _) as [stats c].
    destruct (se_create_dir env); [injection E as <- <-; split_and!; eauto using ranges_agree_refl |].
    set (path := get_versioned_range_file_path key start e (om_etag om)) in *.
    assert (forall f except, ranges_agree except (range_files st) (<[tmp_path env path:=f]> (range_files st))) as Htmp
      by (intros; by apply ranges_agree_tmp).
    destruct (se_write_tmp env) as [w |]; [eapply Hdrop, E; [done.. | intros except; apply Htmp] |].
    set (r := NewRangeSpec_new_staged _ _ _ _ _ _ _ _) in E. set (st0 := set_range_files _ _) in E.
    unfold publish_hybrid, claim_object_version in E. change (nr_file_path r) with path in E.
    change (confirmed_contains key (om_etag om) st0) with (confirmed_contains key (om_etag om) st) in E.
    destruct (confirmed_contains key (om_etag om) st) eqn:Econf.
    + destruct (se_rename env); [eapply Hdrop, E; [done.. | intros except; apply Htmp] |].
      destruct (write_journal_only _ _ _ _ _ _) as [st2 r2] eqn:Ew.
      assert (metadata_files st' = metadata_files st2 /\ range_files st' = range_files st2) as [-> ->].
      { destruct r2 as [[] | |]; injection E as <- _; [| done..]. unfold credit_range. by destruct (_ && _). }
      destruct (write_journal_only_fields env key r om ttl _ _ _ Ew) as [-> ->]. split_and!; [done | | done].
      cbn. eapply ranges_agree_trans; [apply (Htmp (Disk.Readable (Comp.data c))) |].
      eapply ranges_agree_trans; [by eapply (ranges_agree_tmp _ env path (Disk.Unreadable "")) |].
      by apply ranges_agree_insert.
    + destruct (older_not_prepared env key om ttl st0 m Hm Hne Hdiff Hnew) as [err Hp]. rewrite Hp in E. destruct (se_lock env); (eapply Hdrop, E; [done.. | intros except; apply Htmp]).
Qed.

(** ** Divergences *)

(** An append that cannot read the journal starts it afresh: what was pending in the
    file is gone. *)
Lemma append_read_failure_drops instance e st :
  let st' := (append_range_entry (Locked true None) instance e st).1 in
  journal_files st' !! primary_journal instance = Some [Parsed e].
Proof. apply lookup_insert_eq. Qed.

(** The size of the range of every [u64] wraps to zero: an empty body fills it. *)
Lemma empty_body_fills_everything `{HashIter} om : checked_end 0 U64_MAX [] om = Ok U64_MAX.
Proof. done. Qed.

(** ** Concrete stores *)

#[local] Existing Instance map_order.
#[local] Existing Instance sample_codec.
#[local] Existing Instance sample_codec_spec.
#[local] Existing Instance Comp.stored_only.
#[local] Existing Instance Comp.stored_reader.
#[local] Existing Instance Comp.stored_reader_laws.
#[local] Instance no_dates : HttpDate := fun _ => None.

Definition sample_object : string -> string -> bytes := fun _ _ => Disk.sample_bytes.

#[local] Instance sample_layout : LayoutSeparates sample_object.
Proof. by split. Qed.

Definition sample_env : store_env :=
  mkStoreEnv (fun n => 1000 + Z.of_nat n) "/cache" "h:1" "uuid" None None None None None (fun _ => true)
    (Locked false None) (fun _ => Locked false None) true true.

Definition empty_storage : Storage :=
  mkStorage false ∅ ∅ ∅ (Size.new "h:1") ∅ ∅ (MetaCache.new MetaCache.default_config) (Comp.mkStats 0 0 0 0 0).

Definition sample_om : ObjectMetadata := ObjectMetadata_new "v1" "" 6 None.

Definition sample_stored : Storage :=
  (store_range sample_env "b/k/x" 0 5 Disk.sample_bytes sample_om 60 true empty_storage).1.

Lemma empty_storage_ok : storage_ok sample_object empty_storage.
Proof.
  split.
  - intros key etag s e frame data _ _ _ Hl. cbn in Hl. by rewrite lookup_empty in Hl.
  - intros path m Hl. cbn in Hl. by rewrite lookup_empty in Hl.
  - intros name ls e Hl. cbn in Hl. by rewrite lookup_empty in Hl.
Qed.

Lemma store_range_keeps_faithful_witness :
  storage_ok sample_object sample_stored /\ disk_faithful sample_object (disk_of sample_stored).
Proof.
  apply (store_range_keeps_faithful sample_object sample_env "b/k/x" 0 5 Disk.sample_bytes sample_om 60 true empty_storage).
  - exact empty_storage_ok.
  - unfold is_u64. lia.
  - unfold is_u64. lia.
  - unfold U64_MAX. lia.
  - reflexivity.
Defined.

Lemma store_then_load_witness :
  Disk.load_range_data_from_new_storage 5 (disk_of sample_stored) "b/k/x" (stored_range 0 5 sample_om)
    = Ok Disk.sample_bytes.
Proof.
  destruct (store_then_load sample_object sample_env "b/k/x" "b" "k/x" 0 5 5 Disk.sample_bytes sample_om 60 true
           empty_storage sample_stored) as [_ Hload].
  - exact empty_storage_ok.
  - unfold is_u64. lia.
  - unfold is_u64. lia.
  - unfold U64_MAX. lia.
  - reflexivity.
  - reflexivity.
  - reflexivity.
  - vm_compute. reflexivity.
  - apply Hload. split.
    + intros m Hm. cbn in Hm. by rewrite lookup_empty in Hm.
    + intros name ls e Hl. cbn in Hl. by rewrite lookup_empty in Hl.
Defined.

(** With the range 0-5 pending, a store of 1-2 succeeds, but a load of 1-2 by its extent does
    not find it until a consolidation has listed it: the search of the journals returns only
    the range that contains the request. *)
Lemma larger_pending_hides :
  let '(st', res) := store_range sample_env "b/k/x" 1 2 (take 2 (drop 1 Disk.sample_bytes)) sample_om 60 true sample_stored in
  res = Ok tt /\
  Disk.load_range_data_from_new_storage 5 (disk_of st') "b/k/x" (stored_range 1 2 sample_om)
    = Err (CacheError "Range spec not found (checked metadata and journals)").
Proof. vm_compute. by split. Qed.

Lemma store_range_refusals_witness :
  store_range sample_env "b/k/x" 0 9 Disk.sample_bytes sample_om 60 true empty_storage =
    (empty_storage, Err (CacheError "Data size is shorter than range size and Content-Range does not confirm it")).
Proof.
  pose proof (store_range_refusals sample_env "b/k/x" 0 9 Disk.sample_bytes sample_om 60 true empty_storage
    ltac:(unfold is_u64; lia) ltac:(unfold is_u64; lia) ltac:(unfold U64_MAX; lia)) as Hr.
  destruct (store_range _ _ _ _ _ _ _ _ _) as [st' res] eqn:E. destruct Hr as (Hr & _).
  destruct Hr as [-> _]; [lia | vm_compute; congruence | vm_compute; congruence |].
  f_equal. change res with (empty_storage, res).2. rewrite <- E. vm_compute. reflexivity.
Defined.

(** A version this process confirmed before is not compared with the metadata again: here
    the metadata names v2, and a store for v1, confirmed earlier, succeeds. *)
Lemma stale_confirmation_accepted :
  let st := set_confirmed {[ "b/k/x" := "v1" ]}
    (store_range sample_env "b/k/x" 0 5 Disk.sample_bytes (ObjectMetadata_new "v2" "" 6 None) 60 true empty_storage).1 in
  (store_range sample_env "b/k/x" 0 5 Disk.sample_bytes sample_om 60 true st).2 = Ok tt /\
  (exists m, metadata_files st !! get_new_metadata_file_path "b/k/x" = Some (MetaParsed m) /\
     om_etag (cm_object_metadata m) = "v2").
Proof. vm_compute. split; [done |]. eexists. by split. Qed.

End DStore.
