(* ===== verification/RangeWriter.v ===== *)
(** * Writing a range as it arrives ([disk_cache.rs], [cache.rs])

    [IncrementalRangeWriter]: chunks are gathered into batches, each batch is written as
    one LZ4 frame to a temporary file, and the file is published under the name of its
    range and version when the write is finalized: as a cached range
    ([finalize_incremental_range], [commit_incremental_range]) or as a part of an upload
    ([finalize_incremental_part]).  The two sinks of the write path are this writer.
    While the temporary file is open its content is [w_file]; the directory holds its
    name. *)

From S2P Require Import Prelude CacheTypes Floats Ranges RangeMerge Maps MetadataCache DiskPaths DiskRanges Frames.
From S2P Require Import CacheTier SizeAccounting Storage DiskStore RustStr.
From stdpp Require Import gmap strings.
From Stdlib Require Import SpecFloat.

#[local] Open Scope Z_scope.
#[local] Arguments String.append : simpl nomatch.

Module RWriter.
Import Store DStore.

Record IncrementalRangeWriter := mkWriter {
  w_tmp_path : string;
  w_file : bytes;
  w_bytes_written : Z;
  w_compressed_bytes_written : Z;
  w_cache_key : string;
  w_start : Z;
  w_end : Z;
  w_compression_enabled : bool;
  w_batch_buf : bytes;
  w_batch_size : Z;
}.

(** What the writes meet besides what a store meets: the temporary file cannot be made,
    the batch that ends at a byte of the range cannot be written (only so many bytes of it
    are), the file cannot be flushed. *)
Record writer_env := mkWriterEnv {
  we_store : store_env;
  we_uuid : string;
  we_create : option string;
  we_write : Z -> option (nat * string);
  we_flush : option string;
  we_batch_size : Z;
  we_partial_range_commit_ratio : spec_float;
}.

Definition record_batch_bytes (before after : Z) (s : Comp.CompressionStats) : Comp.CompressionStats :=
  Comp.mkStats (Comp.total_objects_compressed s) (Comp.total_objects_uncompressed s)
    (u64_add (Comp.total_bytes_before s) before) (u64_add (Comp.total_bytes_after s) after)
    (Comp.compression_failures s).

Definition record_object (compressed : bool) (s : Comp.CompressionStats) : Comp.CompressionStats :=
  if compressed
  then Comp.mkStats (u64_add (Comp.total_objects_compressed s) 1) (Comp.total_objects_uncompressed s)
         (Comp.total_bytes_before s) (Comp.total_bytes_after s) (Comp.compression_failures s)
  else Comp.count_uncompressed s.

Definition with_staged (staged : bool) (r : NewRangeSpec) : NewRangeSpec :=
  {| nr_start := nr_start r; nr_end := nr_end r; nr_file_path := nr_file_path r;
     nr_compression_algorithm := nr_compression_algorithm r; nr_compressed_size := nr_compressed_size r;
     nr_uncompressed_size := nr_uncompressed_size r; nr_created_at := nr_created_at r;
     nr_last_accessed := nr_last_accessed r; nr_access_count := nr_access_count r; nr_staged := Some staged |}.

(** The writer's own memory and the shared counters. *)
Definition wM := stM (Comp.CompressionStats * IncrementalRangeWriter) ProxyError.

Section Writer.
Context `{HashIter} `{PathCodec} `{FrameEncoder} `{HttpDate}.

Definition remove_file (env : writer_env) (path : string) (st : Storage) : Storage :=
  if se_removable (we_store env) path then set_range_files (base.delete path (range_files st)) st else st.

Definition writer_tmp_path (env : writer_env) (path : string) : string :=
  (split_file_name path).1 +:+ we_uuid env +:+ ".tmp".

Definition begin_incremental_range_write (env : writer_env) (key : string) (start end_ : Z)
    (compression_enabled : bool) (st : Storage) : Storage * Result IncrementalRangeWriter :=
  if end_ <? start then (st, Err (CacheError "Invalid range: start > end")) else
  match se_create_dir (we_store env) with
  | Some error => (st, Err (CacheError ("Failed to create ranges directory: " +:+ error)))
  | None =>
      let tmp := writer_tmp_path env (get_new_range_file_path key start end_) in
      match we_create env, range_files st !! tmp with
      | None, None =>
          (set_range_files (<[tmp := Disk.Readable []]> (range_files st)) st,
           Ok (mkWriter tmp [] 0 0 key start end_ compression_enabled [] (we_batch_size env)))
      | _, _ => (st, Err (CacheError "Failed to create incremental tmp file"))
      end
  end.

Definition encode_batch (compression_enabled : bool) (batch : bytes) : Result bytes :=
  if compression_enabled then
    match lz4_frame batch with
    | inr frame => Ok frame
    | inl error => Err (CacheError ("Failed to compress batch in incremental write: " +:+ error))
    end
  else Comp.encode_store_mode_frame batch.

Definition with_file (file : bytes) (compressed_bytes_written : Z) (batch : bytes) (w : IncrementalRangeWriter)
    : IncrementalRangeWriter :=
  mkWriter (w_tmp_path w) file (w_bytes_written w) compressed_bytes_written (w_cache_key w) (w_start w) (w_end w)
    (w_compression_enabled w) batch (w_batch_size w).

Definition flush_batch (env : writer_env) : wM unit := fun s =>
  let '(stats, w) := s in
  match w_batch_buf w with
  | [] => (s, Ok tt)
  | batch =>
      match encode_batch (w_compression_enabled w) batch with
      | Ok frame =>
          match we_write env (w_bytes_written w) with
          | Some (n, error) =>
              ((stats, with_file (w_file w ++ take n frame) (w_compressed_bytes_written w) batch w),
               Err (CacheError ("Failed to write batch to tmp file: " +:+ error)))
          | None =>
              ((record_batch_bytes (zlen batch) (zlen frame) stats,
                with_file (w_file w ++ frame) (u64_add (w_compressed_bytes_written w) (zlen frame)) [] w), Ok tt)
          end
      | Err e => (s, Err e)
      | Panic => (s, Panic)
      end
  end.

Definition append_chunk (chunk : bytes) (w : IncrementalRangeWriter) : IncrementalRangeWriter :=
  mkWriter (w_tmp_path w) (w_file w) (u64_add (w_bytes_written w) (zlen chunk)) (w_compressed_bytes_written w)
    (w_cache_key w) (w_start w) (w_end w) (w_compression_enabled w) (w_batch_buf w ++ chunk) (w_batch_size w).

Definition write_range_chunk (env : writer_env) (chunk : bytes) : wM unit := fun '(stats, w) =>
  match chunk with
  | [] => ((stats, w), Ok tt)
  | _ =>
      let w := append_chunk chunk w in
      if w_batch_size w <=? zlen (w_batch_buf w) then flush_batch env (stats, w) else ((stats, w), Ok tt)
  end.

(** A caller's loop: the first failure ends it. *)
Fixpoint write_chunks (env : writer_env) (chunks : list bytes) : wM unit :=
  match chunks with
  | [] => mret tt
  | chunk :: rest => _ ← write_range_chunk env chunk; write_chunks env rest
  end.

Definition abort_incremental_range (env : writer_env) (w : IncrementalRangeWriter) (st : Storage) : Storage :=
  remove_file env (w_tmp_path w) st.

(** Whether the prefix received is enough of the range to keep. *)
Definition salvage_prefix (ratio : option spec_float) (bytes_written expected_size : Z) : bool :=
  match ratio with
  | Some ratio =>
      (0 <? bytes_written) && (bytes_written <? expected_size)
      && SFleb (f64_mul ratio (u64_to_f64 expected_size)) (u64_to_f64 bytes_written)
  | None => false
  end.

(** The end of the range that is published. *)
Definition final_end (ratio : option spec_float) (w : IncrementalRangeWriter) : option Z :=
  let expected_size := u64_add (u64_sub (w_end w) (w_start w)) 1 in
  if w_bytes_written w =? expected_size then Some (w_end w)
  else if salvage_prefix ratio (w_bytes_written w) expected_size
       then Some (u64_sub (u64_add (w_start w) (w_bytes_written w)) 1)
       else None.

Definition finalize_incremental_range (env : writer_env) (w : IncrementalRangeWriter) (ratio : option spec_float)
    (etag : string) (st : Storage) : Storage * Result (NewRangeSpec * bool) :=
  match flush_batch env (compression_stats st, w) with
  | (_, Err e) => (remove_file env (w_tmp_path w) st, Err e)
  | (_, Panic) => (st, Panic)
  | ((stats, w), Ok _) =>
      let st := set_compression_stats stats st in
      match final_end ratio w with
      | None => (remove_file env (w_tmp_path w) st, Err (CacheError "Incremental write size mismatch"))
      | Some end_ =>
          let path := get_versioned_range_file_path (w_cache_key w) (w_start w) end_ etag in
          match we_flush env with
          | Some error =>
              (remove_file env (w_tmp_path w) st, Err (CacheError ("Failed to flush incremental tmp file: " +:+ error)))
          | None =>
              let st := set_compression_stats (record_object (w_compression_enabled w) (compression_stats st)) st in
              let range_already_existed := bool_decide (is_Some (range_files st !! path)) in
              match se_rename (we_store env) with
              | Some error =>
                  (remove_file env (w_tmp_path w) st,
                   Err (CacheError ("Failed to rename incremental tmp file to final: " +:+ error)))
              | None =>
                  (set_range_files
                     (<[path := Disk.Readable (w_file w)]> (base.delete (w_tmp_path w) (range_files st))) st,
                   Ok (NewRangeSpec_new (se_clock (we_store env) 0) (w_start w) end_ path Lz4
                         (w_compressed_bytes_written w) (w_bytes_written w), range_already_existed))
              end
          end
      end
  end.

Definition commit_incremental_range (env : writer_env) (w : IncrementalRangeWriter) (om : ObjectMetadata) (ttl : Z)
    (st : Storage) : Storage * Result unit :=
  let key := w_cache_key w in
  match (if se_hybrid (we_store env) then claim_object_version (we_store env) key om ttl st else (st, Ok tt)) with
  | (st, Err e) => (abort_incremental_range env w st, Err e)
  | (st, Panic) => (st, Panic)
  | (st, Ok _) =>
      match finalize_incremental_range env w (Some (we_partial_range_commit_ratio env)) (om_etag om) st with
      | (st, Err e) => (st, Err e)
      | (st, Panic) => (st, Panic)
      | (st, Ok (r, range_already_existed)) =>
          let counts_as_staged := classify_new_range_as_staged (nr_file_path r) (om_is_write_cached om) in
          let r := with_staged counts_as_staged r in
          if se_hybrid (we_store env) then
            match write_journal_only (we_store env) key r (Some om) ttl st with
            | (st, Ok _) => (credit_range (we_store env) key r counts_as_staged range_already_existed st, Ok tt)
            | res => res
            end
          else (st, Ok tt)
      end
  end.

(** ** A response cached while it streams

    The task a cache miss spawns ([convert_s3_response_to_http_with_caching]): the chunks
    are those the tee handed over before it closed. *)
Definition cache_streamed_range (env : writer_env) (key : string) (start end_ : Z) (compression_enabled : bool)
    (chunks : list bytes) (om : ObjectMetadata) (ttl : Z) (st : Storage) : Storage * Result unit :=
  match begin_incremental_range_write env key start end_ compression_enabled st with
  | (st, Err e) => (st, Err e)
  | (st, Panic) => (st, Panic)
  | (st, Ok w) =>
      match write_chunks env chunks (compression_stats st, w) with
      | ((stats, w), Ok _) => commit_incremental_range env w om ttl (set_compression_stats stats st)
      | ((stats, w), Err e) => (abort_incremental_range env w (set_compression_stats stats st), Err e)
      | ((stats, w), Panic) => (set_compression_stats stats st, Panic)
      end
  end.

(** ** A part of an upload *)

Record PartFinalizeInfo := mkPartInfo { pf_algorithm : CompressionAlgorithm; pf_uncompressed_size : Z }.

Definition begin_incremental_part_write (env : writer_env) (key : string) (compression_enabled : bool)
    : Result IncrementalRangeWriter :=
  match se_create_dir (we_store env), we_create env with
  | None, None => Ok (mkWriter (we_uuid env +:+ ".tmp") [] 0 0 key 0 0 compression_enabled [] (we_batch_size env))
  | Some error, _ => Err (CacheError ("Failed to create multipart part directory: " +:+ error))
  | _, Some error => Err (CacheError ("Failed to create incremental part tmp file: " +:+ error))
  end.

(** The part's file and what is recorded of it. *)
Definition finalize_incremental_part (env : writer_env) (w : IncrementalRangeWriter) (stats : Comp.CompressionStats)
    : Comp.CompressionStats * Result (bytes * PartFinalizeInfo) :=
  match flush_batch env (stats, w) with
  | (_, Err e) => (stats, Err e)
  | (_, Panic) => (stats, Panic)
  | ((stats, w), Ok _) =>
      match we_flush env with
      | Some error => (stats, Err (CacheError ("Failed to flush incremental part tmp file: " +:+ error)))
      | None =>
          let stats := record_object (w_compression_enabled w) stats in
          match se_rename (we_store env) with
          | Some error => (stats, Err (CacheError ("Failed to rename incremental part tmp file to final: " +:+ error)))
          | None => (stats, Ok (w_file w, mkPartInfo Lz4 (w_bytes_written w)))
          end
      end
  end.

(** ** The sinks of the write path: a writer until it is finalized or discarded *)

Definition sink := option IncrementalRangeWriter.

Definition WriteCacheRangeSink_open (env : writer_env) (key : string) (content_length : Z) (compression_enabled : bool)
    (st : Storage) : Storage * Result sink :=
  if content_length =? 0 then (st, Err (CacheError "WriteCacheRangeSink::open requires content_length > 0"))
  else
    match begin_incremental_range_write env key 0 (content_length - 1) compression_enabled st with
    | (st, Ok w) => (st, Ok (Some w))
    | (st, Err e) => (st, Err e)
    | (st, Panic) => (st, Panic)
    end.

Definition sink_write (env : writer_env) (chunk : bytes) : stM (Comp.CompressionStats * sink) ProxyError unit := fun s =>
  match s with
  | (stats, Some w) => let '((stats, w), r) := write_range_chunk env chunk (stats, w) in ((stats, Some w), r)
  | (stats, None) => (s, Err (CacheError "write called after finalize/discard"))
  end.

(** [WriteCacheRangeSink::finalize]: the length must be exact. *)
Definition WriteCacheRangeSink_finalize (env : writer_env) (s : sink) (etag : string) (st : Storage)
    : Storage * Result (NewRangeSpec * bool) :=
  match s with
  | Some w => finalize_incremental_range env w None etag st
  | None => (st, Err (CacheError "WriteCacheRangeSink::finalize called after commit/discard/finalize"))
  end.

(** [discard], and what dropping a sink does. *)
Definition sink_discard (env : writer_env) (s : sink) (st : Storage) : Storage :=
  match s with Some w => abort_incremental_range env w st | None => st end.

Definition MultipartPartSink_finalize (env : writer_env) (s : sink) (stats : Comp.CompressionStats)
    : Comp.CompressionStats * Result (bytes * PartFinalizeInfo) :=
  match s with
  | Some w => finalize_incremental_part env w stats
  | None => (stats, Err (CacheError "MultipartPartSink::finalize called after finalize/discard"))
  end.

End Writer.

(** ** The frames of a file *)

Section Frames.
Context `{FrameEncoder} `{FrameCodec}.

(** A file of frames and the bytes they hold. *)
Inductive frames : bytes -> bytes -> Prop :=
  | frames_nil : frames [] []
  | frames_cons frame chunk file data :
      chunk <> [] -> frame <> [] -> (forall rest, decode_frame (frame ++ rest) = inr (chunk, rest)) ->
      frames file data -> frames (frame ++ file) (chunk ++ data).

Lemma frames_snoc file data frame chunk :
  frames file data -> chunk <> [] -> frame <> [] -> (forall rest, decode_frame (frame ++ rest) = inr (chunk, rest)) ->
  frames (file ++ frame) (data ++ chunk).
Proof.
  intros Hf Hc Hfr Hd. induction Hf as [| frame' chunk' file data Hc' Hfr' Hd' Hf IH].
  - rewrite !app_nil_l, <- (app_nil_r frame), <- (app_nil_r chunk). apply frames_cons; [done.. | constructor].
  - rewrite <- !app_assoc. by apply frames_cons.
Qed.

Lemma frames_loop file data :
  frames file data -> forall fuel acc, (length file <= fuel)%nat -> decompress_loop fuel acc file = Ok (acc ++ data).
Proof.
  induction 1 as [| frame chunk file data Hc Hfr Hd Hf IH]; intros fuel acc Hl.
  - rewrite app_nil_r. by destruct fuel.
  - rewrite length_app in Hl. specialize (Hd file). destruct frame as [| b frame]; [done |]. cbn [length app] in Hl, Hd |- *.
    destruct fuel as [| fuel]; [lia |]. cbn [decompress_loop]. rewrite Hd. destruct chunk as [| c chunk]; [done |].
    rewrite IH by lia. by rewrite <- app_assoc.
Qed.

Lemma frames_decompress file data : frames file data -> decompress_data file = Ok data.
Proof. intros Hf. unfold decompress_data. by rewrite (frames_loop _ _ Hf). Qed.

Context `{!Comp.FrameCodecLaws}.

Lemma encode_batch_frame b batch frame :
  encode_batch b batch = Ok frame -> frame <> [] /\ forall rest, decode_frame (frame ++ rest) = inr (batch, rest).
Proof.
  unfold encode_batch. destruct b.
  - destruct (lz4_frame batch) as [| f] eqn:E; [done |]. intros [= <-].
    split; [by eapply Comp.lz4_frame_nonempty | intros rest; by apply Comp.decode_lz4].
  - destruct (Comp.encode_store_mode_frame_format batch) as (f & E & Hf). rewrite E. intros [= <-].
    split; [by eapply Comp.stored_frame_nonempty | intros rest; by apply Comp.decode_stored].
Qed.

(** ** The writer

    The frames in the file, then the batch in memory, are the bytes written so far. *)

Definition writer_ok (w : IncrementalRangeWriter) (data : bytes) : Prop :=
  exists flushed, frames (w_file w) flushed /\ flushed ++ w_batch_buf w = data /\ w_bytes_written w = zlen data /\
    (zlen (w_file w) < 2 ^ 64 -> w_compressed_bytes_written w = zlen (w_file w)).

(** What a write leaves as it was. *)
Definition same_range (w w' : IncrementalRangeWriter) : Prop :=
  w_tmp_path w' = w_tmp_path w /\ w_cache_key w' = w_cache_key w /\ w_start w' = w_start w /\ w_end w' = w_end w /\
  w_compression_enabled w' = w_compression_enabled w /\ w_batch_size w' = w_batch_size w.

Lemma flush_batch_ok env stats w stats' w' data :
  writer_ok w data -> flush_batch env (stats, w) = ((stats', w'), Ok tt) ->
  writer_ok w' data /\ same_range w w' /\ w_batch_buf w' = [] /\ w_bytes_written w' = w_bytes_written w.
Proof.
  intros (flushed & Hf & Hd & Hw & Hc). unfold flush_batch. destruct (w_batch_buf w) as [| b batch] eqn:Eb.
  { intros [= <- <-]. split_and!; [exists flushed; by rewrite Eb | done | done | done]. }
  destruct (encode_batch _ (b :: batch)) as [frame | |] eqn:Ee; [| done | done].
  destruct (we_write env _) as [[n e] |]; [done |]. intros [= <- <-].
  apply encode_batch_frame in Ee as [Hne Hdec]. split_and!; try done.
  exists data. cbn. rewrite app_nil_r. split_and!; [rewrite <- Hd; by apply frames_snoc | done | done |].
  rewrite zlen_app. intros Hl. pose proof (zlen_nonneg (w_file w)). pose proof (zlen_nonneg frame).
  rewrite Hc by lia. by u64.
Qed.

Lemma write_range_chunk_ok env chunk stats w stats' w' data :
  writer_ok w data -> zlen (data ++ chunk) < 2 ^ 64 -> write_range_chunk env chunk (stats, w) = ((stats', w'), Ok tt) ->
  writer_ok w' (data ++ chunk) /\ same_range w w' /\ (0 < w_batch_size w -> zlen (w_batch_buf w) < w_batch_size w ->
    zlen (w_batch_buf w') < w_batch_size w').
Proof.
  intros Hw Hmax. unfold write_range_chunk. destruct chunk as [| c chunk]; [intros [= <- <-]; by rewrite app_nil_r |].
  assert (writer_ok (append_chunk (c :: chunk) w) (data ++ c :: chunk)) as Hw'.
  { destruct Hw as (flushed & Hf & Hd & Hb & Hc). exists flushed. cbn [append_chunk w_file w_batch_buf w_bytes_written w_compressed_bytes_written].
    split_and!; [done | by rewrite app_assoc, Hd | | done]. rewrite Hb. rewrite zlen_app in Hmax |- *.
    pose proof (zlen_nonneg data). pose proof (zlen_nonneg (c :: chunk)). by u64. }
  bsplit_goal.
  - intros E. apply (flush_batch_ok _ _ _ _ _ _ Hw') in E as (Hok & Hs & Hbuf & _). split_and!; [done | exact Hs |].
    intros Hpos _. rewrite Hbuf, zlen_nil. destruct Hs as (_ & _ & _ & _ & _ & ->). exact Hpos.
  - intros [= <- <-]. split_and!; [done | done | lia].
Qed.

Lemma same_range_trans w1 w2 w3 : same_range w1 w2 -> same_range w2 w3 -> same_range w1 w3.
Proof. unfold same_range. intros (? & ? & ? & ? & ? & ?) (? & ? & ? & ? & ? & ?). split_and!; congruence. Qed.

(** However the bytes are cut into chunks, they are in the writer, and less than a batch
    of them is in memory. *)
Lemma write_chunks_ok env chunks : forall stats w stats' w' data,
  writer_ok w data -> zlen (data ++ concat chunks) < 2 ^ 64 -> write_chunks env chunks (stats, w) = ((stats', w'), Ok tt) ->
  writer_ok w' (data ++ concat chunks) /\ same_range w w' /\ (0 < w_batch_size w -> zlen (w_batch_buf w) < w_batch_size w ->
    zlen (w_batch_buf w') < w_batch_size w').
Proof.
  induction chunks as [| chunk chunks IH]; intros stats w stats' w' data Hw Hmax; cbn [write_chunks concat].
  { intros [= <- <-]. rewrite app_nil_r. split_and!; [done | done | done]. }
  intros ([stats1 w1] & [] & E1 & E2)%stM_bind_Ok. cbn [concat] in Hmax. rewrite app_assoc in Hmax |- *.
  apply (write_range_chunk_ok _ _ _ _ _ _ _ Hw) in E1 as (Hw1 & Hs1 & Hb1).
  2: { rewrite zlen_app in Hmax. pose proof (zlen_nonneg (concat chunks)). lia. }
  destruct (IH _ _ _ _ _ Hw1 Hmax E2) as (Hw2 & Hs2 & Hb2). split_and!; [done | by eapply same_range_trans |].
  intros Hpos Hlt. apply Hb2; [| auto]. destruct Hs1 as (_ & _ & _ & _ & _ & ->). done.
Qed.

End Frames.

(** ** Publishing *)

Section Publish.
Context `{HashIter} `{PathCodecSpec} `{FrameEncoder} `{FrameCodec} `{HttpDate} `{!Comp.FrameCodecLaws}.

(** A range that holds [data] from [start] on. *)
Definition published (env : writer_env) (w : IncrementalRangeWriter) (etag : string) (data : bytes)
    (st : Storage) (r : NewRangeSpec) : Prop :=
  nr_start r = w_start w /\ zlen data = nr_end r - w_start w + 1 /\ w_start w <= nr_end r <= w_end w /\
  nr_file_path r = get_versioned_range_file_path (w_cache_key w) (w_start w) (nr_end r) etag /\
  nr_compression_algorithm r = Lz4 /\ nr_uncompressed_size r = zlen data /\
  exists file, range_files st !! nr_file_path r = Some (Disk.Readable file) /\ decompress_data file = Ok data /\
    (zlen file < 2 ^ 64 -> nr_compressed_size r = zlen file).

Lemma final_end_Some ratio w e :
  is_u64 (w_start w) -> w_start w <= w_end w -> w_end w < U64_MAX -> 0 <= w_bytes_written w -> final_end ratio w = Some e ->
  w_start w <= e <= w_end w /\ w_bytes_written w = e - w_start w + 1 /\ (ratio = None -> e = w_end w).
Proof.
  unfold is_u64, U64_MAX. intros Hs Hle Hmax Hb. unfold final_end. u64.
  destruct (Z.eqb_spec (w_bytes_written w) (w_end w - w_start w + 1)) as [E |]; [intros [= <-]; lia |].
  unfold salvage_prefix. destruct ratio as [ratio |]; [| done].
  destruct (Z.ltb_spec 0 (w_bytes_written w)); [| done].
  destruct (Z.ltb_spec (w_bytes_written w) (w_end w - w_start w + 1)); [| done]. cbn [andb].
  destruct (SFleb _ _); [| done]. u64. intros [= <-]. split_and!; try lia. done.
Qed.

Lemma finalize_Ok env w ratio etag st st' r existed data :
  writer_ok w data -> is_u64 (w_start w) -> w_start w <= w_end w -> w_end w < U64_MAX ->
  finalize_incremental_range env w ratio etag st = (st', Ok (r, existed)) ->
  published env w etag data st' r /\ (ratio = None -> nr_end r = w_end w) /\
  metadata_files st' = metadata_files st /\ journal_files st' = journal_files st /\
  exists file tmp, range_files st' = <[nr_file_path r := file]> (base.delete tmp (range_files st)).
Proof.
  intros Hw Hs Hle Hmax. unfold finalize_incremental_range.
  destruct (flush_batch env (compression_stats st, w)) as [[stats w'] [[] | |]] eqn:Ef; [| done | done].
  destruct (flush_batch_ok _ _ _ _ _ _ Hw Ef) as (Hw' & (Et & Ek & Es & Ee & Ec & _) & Hbuf & Hb).
  destruct (final_end ratio w') as [e |] eqn:Efin; [| done]. destruct (we_flush env); [done |].
  destruct (se_rename (we_store env)); [done |]. intros E. injection E as <- <- <-.
  destruct Hw' as (flushed & Hfr & Hd & Hlen & Hc). rewrite Hbuf, app_nil_r in Hd. subst flushed.
  apply final_end_Some in Efin as (He & Hsize & Hexact); try (rewrite ?Es, ?Ee, ?Hlen; done || apply zlen_nonneg).
  cbn [nr_start nr_end NewRangeSpec_new metadata_files journal_files set_range_files]. split_and!; [| by rewrite <- Ee | done | done | by eexists _, _].
  unfold published. cbn [nr_start nr_end nr_file_path nr_compression_algorithm nr_uncompressed_size nr_compressed_size NewRangeSpec_new].
  rewrite <- Es, <- Ee, <- Ek. split_and!; try done; try lia.
  exists (w_file w'). split_and!; [cbn; apply lookup_insert_eq | by apply frames_decompress | done].
Qed.

Context (object : string -> string -> bytes) `{!LayoutSeparates object}.

Lemma storage_ok_stats stats st : storage_ok object st -> storage_ok object (set_compression_stats stats st).
Proof. intros [Hf Hm Hj]. by constructor. Qed.

Lemma remove_file_ok env path st : storage_ok object st -> storage_ok object (remove_file env path st).
Proof.
  intros Hok. unfold remove_file. destruct (se_removable _ _); [| done]. apply storage_ok_range_files; [done |].
  eapply files_ok_subseteq; [apply delete_subseteq | apply Hok].
Qed.

Lemma writer_tmp_not_range env p key s e etag :
  is_u64 s -> is_u64 e -> writer_tmp_path env p <> get_versioned_range_file_path key s e etag.
Proof.
  intros Hs He E. destruct (range_path_shape key s e etag Hs He) as [y Ey]. rewrite Ey in E. unfold writer_tmp_path in E.
  apply (f_equal string_rev) in E. rewrite !string_rev_distr in E. by cbn in E.
Qed.

Lemma begin_Ok env key start end_ b st st' w :
  begin_incremental_range_write env key start end_ b st = (st', Ok w) ->
  writer_ok w [] /\ w_cache_key w = key /\ w_start w = start /\ w_end w = end_ /\ start <= end_ /\
  w_batch_buf w = [] /\ w_batch_size w = we_batch_size env /\
  exists path, w_tmp_path w = writer_tmp_path env path /\
    st' = set_range_files (<[w_tmp_path w := Disk.Readable []]> (range_files st)) st.
Proof.
  unfold begin_incremental_range_write. bsplit_goal; [done |]. destruct (se_create_dir _); [done |].
  destruct (we_create env); [done |]. destruct (range_files st !! _); [done |]. intros E. injection E as <- <-.
  split_and!; try done; [exists []; split_and!; [constructor | done..] | by eexists].
Qed.

Lemma finalize_ok env w ratio etag st data :
  storage_ok object st -> writer_ok w data -> is_u64 (w_start w) -> w_start w <= w_end w -> w_end w < U64_MAX ->
  data = sub_list (object (w_cache_key w) etag) (w_start w) (w_start w + zlen data) ->
  storage_ok object (finalize_incremental_range env w ratio etag st).1.
Proof.
  intros Hok Hw Hs Hle Hmax Hdata.
  destruct (finalize_incremental_range env w ratio etag st) as [st' [[r existed] | |]] eqn:E; cbn [fst].
  - destruct (finalize_Ok _ _ _ _ _ _ _ _ _ Hw Hs Hle Hmax E) as (Hp & _ & Hm & Hj & file & tmp & Hfiles).
    destruct Hp as (Es & Hlen & He & Hpath & _ & _ & file' & Hf & Hdec & _).
    rewrite Hfiles, lookup_insert_eq in Hf. injection Hf as ->.
    destruct Hok as [Hfo Hmo Hjo]. constructor.
    + rewrite Hfiles, Hpath. apply files_ok_publish; try done; [unfold is_u64, U64_MAX in *; lia | |].
      * rewrite Hdec, Hdata. do 2 f_equal. lia.
      * eapply files_ok_subseteq; [apply delete_subseteq | exact Hfo].
    + intros path m. rewrite Hm. apply Hmo.
    + intros name ls e. rewrite Hj. apply Hjo.
  - revert E. unfold finalize_incremental_range. destruct (flush_batch _ _) as [[stats w'] [[] | |]];
      [| intros [= <- <-]; by apply remove_file_ok | done].
    destruct (final_end ratio w'); [| intros [= <- <-]; by apply remove_file_ok, storage_ok_stats].
    destruct (we_flush env); [intros [= <- <-]; by apply remove_file_ok, storage_ok_stats |].
    destruct (se_rename _); [intros [= <- <-]; by apply remove_file_ok, storage_ok_stats, storage_ok_stats | done].
  - revert E. unfold finalize_incremental_range. destruct (flush_batch _ _) as [[stats w'] [[] | |]]; [| done | by intros [= <-]].
    destruct (final_end ratio w'); [| done]. destruct (we_flush env); [done |]. by destruct (se_rename _).
Qed.

Lemma journal_only_ok env key r om ttl st :
  storage_ok object st -> named key r -> storage_ok object (write_journal_only env key r om ttl st).1.
Proof.
  intros Hok Hn. unfold write_journal_only, append_range_entry. set (e := mkEntry _ _ _ _ _ _ _ _ _ _ _).
  pose proof (append_lines_ok object (se_journal env) (se_instance env) [Parsed e] st Hok) as Ha.
  destruct (append_lines _ _ _ _) as [st' [[] | |]]; apply Ha; intros e' [= ->]%list_elem_of_singleton _; exact Hn.
Qed.

Lemma credit_range_ok env key r b c st : storage_ok object st -> storage_ok object (credit_range env key r b c st).
Proof. intros [Hf Hm Hj]. unfold credit_range. destruct (_ && _); by constructor. Qed.

(** The range of a finalized write, and its entry in the journal, are named for the key. *)
Lemma published_named env w etag data st r b :
  is_u64 (w_start w) -> w_end w < U64_MAX -> published env w etag data st r -> named (w_cache_key w) (with_staged b r).
Proof.
  intros Hs Hmax (Es & Hlen & He & Hpath & Ha & Hu & _). unfold is_u64, U64_MAX in *.
  apply (new_range_named _ _ etag); cbn; rewrite ?Es; unfold is_u64; try lia; done.
Qed.

Lemma commit_ok env w om ttl st data :
  storage_ok object st -> writer_ok w data -> is_u64 (w_start w) -> w_start w <= w_end w -> w_end w < U64_MAX ->
  data = sub_list (object (w_cache_key w) (om_etag om)) (w_start w) (w_start w + zlen data) ->
  storage_ok object (commit_incremental_range env w om ttl st).1.
Proof.
  intros Hok Hw Hs Hle Hmax Hdata. unfold commit_incremental_range.
  assert (storage_ok object (if se_hybrid (we_store env) then claim_object_version (we_store env) (w_cache_key w) om ttl st
    else (st, Ok tt)).1) as Hc by (destruct (se_hybrid _); [by apply claim_ok | done]).
  destruct (if se_hybrid (we_store env) then _ else _) as [st1 [[] | |]]; [| by apply remove_file_ok | done]. cbn [fst] in Hc.
  pose proof (finalize_ok env w (Some (we_partial_range_commit_ratio env)) (om_etag om) st1 data Hc Hw Hs Hle Hmax Hdata) as Hf.
  destruct (finalize_incremental_range _ _ _ _ _) as [st2 [[r existed] | |]] eqn:Ef; [| done | done]. cbn [fst] in Hf.
  destruct (se_hybrid _); [| done].
  destruct (finalize_Ok _ _ _ _ _ _ _ _ _ Hw Hs Hle Hmax Ef) as (Hp & _).
  pose proof (journal_only_ok (we_store env) (w_cache_key w) _ (Some om) ttl st2 Hf
    (published_named _ _ _ _ _ _ (classify_new_range_as_staged (nr_file_path r) (om_is_write_cached om)) Hs Hmax Hp)) as Hj.
  destruct (write_journal_only _ _ _ _ _ _) as [st3 [[] | |]]; [by apply credit_range_ok | done | done].
Qed.

(** A committed write leaves the bytes in the file of the range they fill, and, where ranges
    are published through journals, the range pending. *)
Definition committed (env : writer_env) (key : string) (start : Z) (om : ObjectMetadata) (data : bytes) (st' : Storage) : Prop :=
  exists r file, nr_start r = start /\ nr_end r = start + zlen data - 1 /\
    nr_file_path r = get_versioned_range_file_path key start (nr_end r) (om_etag om) /\
    range_files st' !! nr_file_path r = Some (Disk.Readable file) /\ decompress_data file = Ok data /\
    (se_hybrid (we_store env) = true -> r ∈ Disk.pending_candidates (disk_of st') key (om_etag om)).

(** What a load of the range needs: publication through the journals, and nothing that
    hides the range from the search. *)
Definition findable (env : writer_env) (key : string) (start : Z) (om : ObjectMetadata) (data : bytes) (st : Storage) : Prop :=
  se_hybrid (we_store env) = true /\ metadata_current key (om_etag om) st /\
  journals_all (no_larger_pending key (om_etag om) start (start + zlen data - 1)) st.

Lemma commit_committed env w om ttl st st' data :
  writer_ok w data -> is_u64 (w_start w) -> w_start w <= w_end w -> w_end w < U64_MAX ->
  commit_incremental_range env w om ttl st = (st', Ok tt) ->
  0 < zlen data <= w_end w - w_start w + 1 /\ committed env (w_cache_key w) (w_start w) om data st'.
Proof.
  intros Hw Hs Hle Hmax Hcommit. unfold commit_incremental_range in Hcommit.
  destruct (if se_hybrid (we_store env) then _ else _) as [st1 [[] | |]]; [| done | done].
  destruct (finalize_incremental_range _ _ _ _ st1) as [st2 [[r existed] | |]] eqn:Ef; [| done | done].
  destruct (finalize_Ok _ _ _ _ _ _ _ _ _ Hw Hs Hle Hmax Ef) as (Hp & _).
  set (staged := classify_new_range_as_staged _ _) in Hcommit.
  pose proof (published_named _ _ _ _ _ _ staged Hs Hmax Hp) as Hn.
  destruct Hp as (Es & Hlen & He & Hpath & Ha & Hu & file & Hf & Hdec & _). split; [lia |].
  exists (with_staged staged r), file.
  assert (range_file_belongs_to (with_staged staged r) (object_version_id (om_etag om)) = true) as Hb.
  { destruct Hn as (Hs' & He' & _). cbn in Hs', He'. rewrite (range_path_belongs (w_cache_key w) (w_start w) (nr_end r) (om_etag om)) by done.
    by apply bool_decide_eq_true. }
  destruct (se_hybrid (we_store env)).
  - destruct (write_journal_only _ _ _ _ _ _) as [st3 [[] | |]] eqn:Ew; [| done | done].
    destruct (journal_only_pending _ _ _ _ _ _ _ Hb Ew) as [Hpend Efiles].
    assert (range_files st' = range_files st3 /\ disk_of st' = disk_of st3) as [-> ->].
    { injection Hcommit as <-. unfold credit_range. by destruct (_ && _). }
    split_and!; cbn; try done; [lia | by rewrite Efiles].
  - injection Hcommit as <-. split_and!; cbn; try done. lia.
Qed.

Lemma commit_loads env w om ttl st st' data bucket object_key now :
  storage_ok object st -> writer_ok w data -> is_u64 (w_start w) -> w_start w <= w_end w -> w_end w < U64_MAX ->
  data = sub_list (object (w_cache_key w) (om_etag om)) (w_start w) (w_start w + zlen data) ->
  parse_cache_key (w_cache_key w) = Ok (bucket, object_key) -> findable env (w_cache_key w) (w_start w) om data st ->
  commit_incremental_range env w om ttl st = (st', Ok tt) ->
  Disk.load_range_data_from_new_storage now (disk_of st') (w_cache_key w)
    (stored_range (w_start w) (w_start w + zlen data - 1) om) = Ok data.
Proof.
  intros Hok Hw Hs Hle Hmax Hdata Hk (Hh & Hcur & Hsmall) Hcommit.
  assert (storage_ok object st') as Hok'.
  { change st' with (st', @Ok ProxyError unit tt).1. rewrite <- Hcommit. by apply (commit_ok _ _ _ _ _ data). }
  unfold commit_incremental_range in Hcommit. rewrite Hh in Hcommit.
  destruct (claim_object_version _ _ _ _ st) as [st1 [[] | |]] eqn:Ec; [| done | done].
  destruct (finalize_incremental_range _ _ _ _ st1) as [st2 [[r existed] | |]] eqn:Ef; [| done | done].
  destruct (finalize_Ok _ _ _ _ _ _ _ _ _ Hw Hs Hle Hmax Ef) as (Hp & _ & Em & Ej & _).
  set (staged := classify_new_range_as_staged _ _) in Hcommit.
  pose proof (published_named _ _ _ _ _ _ staged Hs Hmax Hp) as Hn.
  destruct Hp as (Es & Hlen & He & Hpath & Ha & Hu & file & Hf & Hdec & _).
  destruct (write_journal_only _ _ _ _ _ _) as [st3 [[] | |]] eqn:Ew; [| done | done].
  assert (range_files st' = range_files st3 /\ metadata_files st' = metadata_files st3 /\
    journal_files st' = journal_files st3 /\ journals_dir_exists st' = journals_dir_exists st3) as (E1 & E2 & E3 & E4).
  { injection Hcommit as <-. unfold credit_range. by destruct (_ && _). }
  replace (w_start w + zlen data - 1) with (nr_end r) in * by lia. rewrite <- Es in *.
  eapply (journalled_loads object (we_store env) (w_cache_key w) bucket object_key (with_staged staged r) om ttl
    file data st st1 st2 st3); try done; cbn; lia.
Qed.

End Publish.

(** A response cached while it streams is cached exactly.  Let the chunks the tee handed
    over be the bytes of the object version from the range's first byte on, cut anywhere
    and possibly fewer than the range.  Whatever fails, the storage stays sound and the
    disk faithful.  When the task succeeds, the file of the range the bytes fill holds them,
    whatever the batch size and the compression, and loading the range gives them unless
    something hides it from the search ([findable]). *)
Lemma streamed_range_exact `{HashIter} `{PathCodecSpec} `{FrameEncoder} `{FrameCodec} `{HttpDate}
    `{!Comp.FrameCodecLaws} object `{!LayoutSeparates object} env key bucket object_key start end_ compression chunks
    om ttl st :
  storage_ok object st -> is_u64 start -> end_ < U64_MAX -> zlen (concat chunks) < 2 ^ 64 ->
  concat chunks = sub_list (object key (om_etag om)) start (start + zlen (concat chunks)) ->
  parse_cache_key key = Ok (bucket, object_key) ->
  let '(st', result) := cache_streamed_range env key start end_ compression chunks om ttl st in
  storage_ok object st' /\ disk_faithful object (disk_of st') /\
  (result = Ok tt ->
   0 < zlen (concat chunks) <= end_ - start + 1 /\ committed env key start om (concat chunks) st' /\
   (findable env key start om (concat chunks) st ->
    forall now, Disk.load_range_data_from_new_storage now (disk_of st') key
      (stored_range start (start + zlen (concat chunks) - 1) om) = Ok (concat chunks))).
Proof.
  intros Hok Hs Hmax Hlen Hdata Hk.
  destruct (cache_streamed_range env key start end_ compression chunks om ttl st) as [st' result] eqn:E.
  match goal with |- _ /\ _ /\ ?P => enough (storage_ok object st' /\ P) as [Hok' Hl] end.
  { split_and!; [done | by apply storage_ok_faithful | done]. }
  revert E. unfold cache_streamed_range.
  destruct (begin_incremental_range_write _ _ _ _ _ st) as [st1 [w | |]] eqn:Eb.
  - destruct (begin_Ok _ _ _ _ _ _ _ _ Eb) as (Hw & <- & <- & <- & Hle & _ & _ & path & Ht & ->).
    assert (forall stats, storage_ok object (set_compression_stats stats
      (set_range_files (<[w_tmp_path w := Disk.Readable []]> (range_files st)) st))) as Hok1.
    { intros stats. apply storage_ok_stats, storage_ok_range_files; [done |]. apply files_ok_other; [| apply Hok].
      intros. rewrite Ht. by apply writer_tmp_not_range. }
    destruct (write_chunks _ _ _) as [[stats w'] [[] | |]] eqn:Ew.
    + destruct (write_chunks_ok _ _ _ _ _ _ _ Hw Hlen Ew) as (Hw' & (_ & Ek & Es & Ee & _) & _). cbn [app] in Hw'.
      rewrite <- Ek, <- Es, <- Ee in *. intros E. split.
      * change st' with (st', result).1. rewrite <- E. by apply (commit_ok _ _ _ _ _ _ (concat chunks)).
      * intros ->. destruct (commit_committed env w' om ttl _ st' (concat chunks) Hw' Hs Hle Hmax E) as [Hsz Hc].
        split_and!; try done; try lia. intros Hfind now.
        by eapply (commit_loads object env w' om ttl _ st' (concat chunks) bucket object_key now (Hok1 stats)).
    + intros [= <- <-]. split; [by apply remove_file_ok | done].
    + intros [= <- <-]. done.
  - intros [= <- <-]. revert Eb. unfold begin_incremental_range_write. bsplit_goal; [by intros [= <- _] |].
    destruct (se_create_dir _); [by intros [= <- _] |].
    destruct (we_create env); [by intros [= <- _] |]. destruct (range_files st !! _); [by intros [= <- _] | done].
  - revert Eb. unfold begin_incremental_range_write. bsplit_goal; [done |]. destruct (se_create_dir _); [done |].
    destruct (we_create env); [done |]. by destruct (range_files st !! _).
Qed.

(** A part's file decodes to the bytes written to it, and its size is theirs. *)
Lemma finalize_part_Ok `{FrameEncoder} `{FrameCodec} `{!Comp.FrameCodecLaws} env w stats stats' file info data :
  writer_ok w data -> finalize_incremental_part env w stats = (stats', Ok (file, info)) ->
  decompress_with_algorithm file (pf_algorithm info) = Ok data /\ pf_uncompressed_size info = zlen data.
Proof.
  intros Hw. unfold finalize_incremental_part.
  destruct (flush_batch env (stats, w)) as [[stats1 w'] [[] | |]] eqn:Ef; [| done | done].
  destruct (flush_batch_ok _ _ _ _ _ _ Hw Ef) as ((flushed & Hfr & Hd & Hlen & _) & _ & Hbuf & _).
  rewrite Hbuf, app_nil_r in Hd. subst flushed. destruct (we_flush env); [done |].
  destruct (se_rename _); [done |]. intros [= _ <- <-]. cbn. split; [by apply frames_decompress | done].
Qed.

(** ** Samples *)

#[local] Existing Instance map_order.
#[local] Existing Instance sample_codec.
#[local] Existing Instance sample_codec_spec.
#[local] Existing Instance Comp.stored_only.
#[local] Existing Instance Comp.stored_reader.
#[local] Existing Instance Comp.stored_reader_laws.
#[local] Existing Instance no_dates.
#[local] Existing Instance sample_layout.

Definition nine_tenths : spec_float := f64_div (u64_to_f64 9) (u64_to_f64 10).

Definition sample_writer_env : writer_env := mkWriterEnv sample_env "u" None (fun _ => None) None 3 nine_tenths.

Definition sample_chunks : list bytes := [take 2 Disk.sample_bytes; []; drop 2 Disk.sample_bytes].

Lemma streamed_range_exact_witness :
  let st' := (cache_streamed_range sample_writer_env "b/k/x" 0 5 false sample_chunks sample_om 60 empty_storage).1 in
  Disk.load_range_data_from_new_storage 5 (disk_of st') "b/k/x" (stored_range 0 5 sample_om) = Ok Disk.sample_bytes.
Proof.
  pose proof (streamed_range_exact sample_object sample_writer_env "b/k/x" "b" "k/x" 0 5 false sample_chunks sample_om 60
    empty_storage empty_storage_ok) as Hw.
  destruct (cache_streamed_range sample_writer_env "b/k/x" 0 5 false sample_chunks sample_om 60 empty_storage)
    as [st' result] eqn:E.
  destruct Hw as (_ & _ & Hl).
  - unfold is_u64. lia.
  - unfold U64_MAX. lia.
  - reflexivity.
  - reflexivity.
  - reflexivity.
  - apply Hl.
    + change result with (st', result).2. rewrite <- E. vm_compute. reflexivity.
    + split; [reflexivity |]. split.
      * intros m Hm. cbn in Hm. by rewrite lookup_empty in Hm.
      * intros name ls e Hl'. cbn in Hl'. by rewrite lookup_empty in Hl'.
Defined.

(** Nine tenths of a range are kept as the range they fill; less is not. *)
Lemma prefix_kept :
  salvage_prefix (Some nine_tenths) 9 10 = true /\ salvage_prefix (Some nine_tenths) 8 10 = false /\
  salvage_prefix None 9 10 = false.
Proof. vm_compute. done. Qed.

(** Chunks wait for a batch whether or not they will be compressed. *)
Lemma stored_chunks_wait :
  let '((_, w), _) := write_range_chunk sample_writer_env [Byte.x01] (compression_stats empty_storage,
    mkWriter "t" [] 0 0 "b/k/x" 0 5 false [] 3) in w_batch_buf w = [Byte.x01].
Proof. reflexivity. Qed.

End RWriter.
