(* ===== verification/Consolidate.v ===== *)
(** * Journal consolidation ([journal_consolidator.rs])

    What a consolidation cycle does with the journal: it validates the entries of a
    key against the files they name, loads or creates the metadata, discards
    entries and ranges of other versions with their files, resolves conflicts,
    applies the entries, writes the metadata, and drops the handled entries from
    the journal files. *)

From S2P Require Import Prelude CacheTypes Ranges RangeMerge Maps MetadataCache DiskPaths DiskRanges Frames.
From S2P Require Import CacheTier SizeAccounting Storage DiskStore RustStr.
From stdpp Require Import gmap strings.

#[local] Open Scope Z_scope.
#[local] Arguments String.append : simpl nomatch.

Module Cons.
Import Store DStore.

(** What a consolidation meets. *)
Record cons_env := mkConsEnv {
  ce_clock : nat -> Z;
  ce_stale_timeout : Z;
  ce_lock : bool;
  ce_readable : string -> bool;
  ce_removable : string -> bool;
  ce_write_meta : option ProxyError;
}.

Definition same_extent (r r' : NewRangeSpec) : bool :=
  (nr_start r =? nr_start r') && (nr_end r =? nr_end r').

Section Consolidate.
Context `{HashIter} `{PathCodec}.

(** ** Validation *)

Definition get_range_file_path (key : string) (r : NewRangeSpec) : Result string :=
  _ ← parse_cache_key key;
  if negb (is_safe_relative_file_path (nr_file_path r)) then Err (CacheError "Unsafe range file path")
  else Ok (nr_file_path r).

Inductive verdict := Valid | Stale | Pending.

Definition too_old (env : cons_env) (e : JournalEntry) : bool :=
  ce_stale_timeout env <? duration_since_or_zero (ce_clock env 0) (je_timestamp e).

Definition is_removal (op : Disk.JournalOperation) : bool :=
  match op with Disk.Remove => true | _ => false end.

Definition is_object_level (op : Disk.JournalOperation) : bool :=
  match op with Disk.TtlRefresh | Disk.AccessUpdate | Disk.Graduation => true | _ => false end.

Definition validate_entry (env : cons_env) (e : JournalEntry) (st : Storage) : Storage * verdict :=
  if is_removal (je_operation e) then (st, Valid) else
  let '(st, evicted) := check_and_clear_evicted_range (je_cache_key e) (nr_start (je_range_spec e))
                          (nr_end (je_range_spec e)) st in
  if evicted then (st, Stale) else
  if is_object_level (je_operation e) then
    let metadata_exists := match get_sharded_path "metadata" (je_cache_key e) ".meta" with
                           | Ok p => bool_decide (is_Some (metadata_files st !! p))
                           | _ => false
                           end in
    (st, if metadata_exists then Valid else if too_old env e then Stale else Pending)
  else
    match get_range_file_path (je_cache_key e) (je_range_spec e) with
    | Ok p => (st, if bool_decide (is_Some (range_files st !! p)) then Valid
                   else if too_old env e then Stale else Pending)
    | _ => (st, Pending)
    end.

Fixpoint validate_journal_entries_with_staleness (env : cons_env) (es : list JournalEntry) (st : Storage)
    : Storage * (list JournalEntry * list JournalEntry) :=
  match es with
  | [] => (st, ([], []))
  | e :: es =>
      let '(st, v) := validate_entry env e st in
      let '(st, (valid, stale)) := validate_journal_entries_with_staleness env es st in
      (st, match v with
           | Valid => (e :: valid, stale)
           | Stale => (valid, e :: stale)
           | Pending => (valid, stale)
           end)
  end.

(** ** The metadata to consolidate into *)

(** [Iterator::max_by_key]: the last of the greatest. *)
Fixpoint max_by_timestamp (best : option JournalEntry) (es : list JournalEntry) : option JournalEntry :=
  match es with
  | [] => best
  | e :: es =>
      max_by_timestamp (match best with
                        | Some b => if je_timestamp b <=? je_timestamp e then Some e else Some b
                        | None => Some e
                        end) es
  end.

Definition has_etag (e : JournalEntry) : bool :=
  match je_object_metadata e with Some om => negb (is_empty_str (om_etag om)) | None => false end.

Definition object_entry (es : list JournalEntry) : option JournalEntry :=
  match max_by_timestamp None (List.filter (fun e => is_publication (je_operation e) && has_etag e) es) with
  | Some e => Some e
  | None => List.find (fun e => bool_decide (is_Some (je_object_metadata e))) es
  end.

Definition load_or_create_metadata_with_journal_entries (env : cons_env) (key : string)
    (es : list JournalEntry) (st : Storage) : Result NewCacheMetadata :=
  path ← get_sharded_path "metadata" key ".meta";
  match metadata_files st !! path with
  | Some (MetaParsed m) => Ok m
  | Some MetaCorrupt => Err (CacheError "Failed to parse metadata file")
  | Some (MetaUnreadable error) => Err (CacheError ("Failed to read metadata file: " +:+ error))
  | None =>
      let oe := object_entry es in
      let om := default ObjectMetadata_default (oe ≫= je_object_metadata) in
      let ttl := default 0 (oe ≫= je_object_ttl_secs) * NANOS_PER_SEC in
      t ← add_ttl (ce_clock env 1) ttl;
      Ok (new_metadata key om (ce_clock env 1) t)
  end.

(** ** Bytes of other versions *)

(** The cleanup of rejected publications.  [attempted] and [failed] are the two sets
    of file names the loop keeps; an unsafe path ends the consolidation. *)
Fixpoint cleanup_rejected (env : cons_env) (key etag : string) (retained : list string)
    (attempted failed : list string) (es : list JournalEntry) (st : Storage)
    : Storage * Result (list string) :=
  match es with
  | [] => (st, Ok failed)
  | e :: es =>
      let r := je_range_spec e in
      let path := nr_file_path r in
      if negb (is_publication (je_operation e)) then cleanup_rejected env key etag retained attempted failed es st else
      if matches_object_version e etag || bool_decide (path ∈ retained) || bool_decide (path ∈ attempted)
      then cleanup_rejected env key etag retained attempted failed es st
      else
        let attempted := path :: attempted in
        match get_range_file_path key r with
        | Err err => (st, Err err)
        | Panic => (st, Panic)
        | Ok p =>
            match range_files st !! p with
            | None => cleanup_rejected env key etag retained attempted failed es st
            | Some _ =>
                if ce_removable env p
                then let st := debit_range key r (match je_object_metadata e with
                                                  | Some om => om_is_write_cached om
                                                  | None => false
                                                  end)
                                 (set_range_files (base.delete p (range_files st)) st) in
                     cleanup_rejected env key etag retained attempted failed es st
                else cleanup_rejected env key etag retained attempted (path :: failed) es st
            end
        end
  end.

(** Ranges whose files are not named for the version: their files are removed and
    the ranges retired; a file that cannot be removed keeps its range. *)
Fixpoint retire_foreign (env : cons_env) (key : string) (write_cached : bool) (rs : list NewRangeSpec)
    (st : Storage) : Storage * list string :=
  match rs with
  | [] => (st, [])
  | r :: rs =>
      match get_range_file_path key r with
      | Ok p =>
          match range_files st !! p with
          | None => let '(st, retired) := retire_foreign env key write_cached rs st in (st, nr_file_path r :: retired)
          | Some _ =>
              if ce_removable env p
              then let st := debit_range key r write_cached
                               (set_range_files (base.delete p (range_files st)) st) in
                   let '(st, retired) := retire_foreign env key write_cached rs st in (st, nr_file_path r :: retired)
              else retire_foreign env key write_cached rs st
          end
      | _ => let '(st, retired) := retire_foreign env key write_cached rs st in (st, nr_file_path r :: retired)
      end
  end.

Definition foreign_ranges (m : NewCacheMetadata) : list NewRangeSpec :=
  List.filter (fun r => negb (range_file_belongs_to r (object_version_id (om_etag (cm_object_metadata m)))))
    (cm_ranges m).

Definition drop_retired (retired : list string) (m : NewCacheMetadata) : NewCacheMetadata :=
  set_ranges (List.filter (fun r => negb (bool_decide (nr_file_path r ∈ retired))) (cm_ranges m)) m.

(** ** Conflicts *)

(** The latest publication of each extent. *)
Fixpoint latest_publications (acc : gmap (Z * Z) JournalEntry) (es : list JournalEntry) : gmap (Z * Z) JournalEntry :=
  match es with
  | [] => acc
  | e :: es =>
      let k := (nr_start (je_range_spec e), nr_end (je_range_spec e)) in
      latest_publications
        (if negb (is_publication (je_operation e)) then acc else
         match acc !! k with
         | Some x => if je_timestamp x <? je_timestamp e then <[k:=e]> acc else acc
         | None => <[k:=e]> acc
         end) es
  end.

(** Change the first range of an extent. *)
Fixpoint update_extent (r : NewRangeSpec) (f : NewRangeSpec -> NewRangeSpec) (rs : list NewRangeSpec)
    : option (list NewRangeSpec) :=
  match rs with
  | [] => None
  | x :: rs => if same_extent x r then Some (f x :: rs) else (cons x) <$> update_extent r f rs
  end.

Definition resolve_one (e : JournalEntry) (rs : list NewRangeSpec) : list NewRangeSpec :=
  default rs (update_extent (je_range_spec e)
    (fun x => if nr_created_at x <? je_timestamp e then je_range_spec e else x) rs).

(** The publications have distinct extents, so the order they are visited in does
    not matter; the map's own order stands for the iterator's. *)
Definition resolve_conflicts (es : list JournalEntry) (m : NewCacheMetadata) : NewCacheMetadata :=
  set_ranges (foldl (fun rs ke => resolve_one ke.2 rs) (cm_ranges m)
                (map_to_list (latest_publications ∅ es))) m.

(** ** Applying entries *)

Definition touch_range (now : Z) (r : NewRangeSpec) : NewRangeSpec :=
  mkNewRangeSpec (nr_start r) (nr_end r) (nr_file_path r) (nr_compression_algorithm r) (nr_compressed_size r)
    (nr_uncompressed_size r) (nr_created_at r) now (nr_access_count r) (nr_staged r).

Definition count_accesses (n now : Z) (r : NewRangeSpec) : NewRangeSpec :=
  mkNewRangeSpec (nr_start r) (nr_end r) (nr_file_path r) (nr_compression_algorithm r) (nr_compressed_size r)
    (nr_uncompressed_size r) (nr_created_at r) now (u64_add (nr_access_count r) n) (nr_staged r).

Definition set_graduated (m : NewCacheMetadata) : NewCacheMetadata :=
  let om := cm_object_metadata m in
  set_om (mkObjectMetadata (om_etag om) (om_last_modified om) (om_content_length om) (om_content_type om)
    (om_response_headers om) (om_upload_state om) (om_cumulative_size om) (om_parts om)
    (om_compression_algorithm om) (om_compressed_size om) (om_parts_count om) (om_part_ranges om)
    (om_upload_id om) (om_is_write_cached om) (om_write_cache_expires_at om) (om_write_cache_created_at om)
    (om_write_cache_last_accessed om) true) m.

Definition set_content_length (n : Z) (m : NewCacheMetadata) : NewCacheMetadata :=
  let om := cm_object_metadata m in
  set_om (mkObjectMetadata (om_etag om) (om_last_modified om) n (om_content_type om)
    (om_response_headers om) (om_upload_state om) (om_cumulative_size om) (om_parts om)
    (om_compression_algorithm om) (om_compressed_size om) (om_parts_count om) (om_part_ranges om)
    (om_upload_id om) (om_is_write_cached om) (om_write_cache_expires_at om) (om_write_cache_created_at om)
    (om_write_cache_last_accessed om) (om_graduation_accounted om)) m.

(** A removal strips the range with its extent and file name, unless it was
    published after the removal was recorded. *)
Definition removed_by (e : JournalEntry) (r : NewRangeSpec) : bool :=
  same_extent r (je_range_spec e)
  && bool_decide ((split_file_name (nr_file_path r)).2 = (split_file_name (nr_file_path (je_range_spec e))).2)
  && negb (je_timestamp e <? nr_created_at r).

(** The metadata, the entries applied, and the staged bytes that graduated. *)
Record applied := mkApplied {
  ap_metadata : NewCacheMetadata;
  ap_count : Z;
  ap_graduated : Z;
}.

Definition apply_entry (env : cons_env) (e : JournalEntry) (a : applied) : applied :=
  let m := ap_metadata a in
  match je_operation e with
  | Disk.Add =>
      if existsb (fun r => same_extent r (je_range_spec e)) (cm_ranges m) then a
      else mkApplied (set_ranges (cm_ranges m ++ [je_range_spec e]) m) (ap_count a + 1) (ap_graduated a)
  | Disk.Update =>
      match update_extent (je_range_spec e) (fun _ => je_range_spec e) (cm_ranges m) with
      | Some rs => mkApplied (set_ranges rs m) (ap_count a + 1) (ap_graduated a)
      | None => a
      end
  | Disk.Remove =>
      if negb (matches_object_version e (om_etag (cm_object_metadata m))) then a
      else mkApplied (set_ranges (List.filter (fun r => negb (removed_by e r)) (cm_ranges m)) m)
             (ap_count a + 1) (ap_graduated a)
  | Disk.TtlRefresh =>
      match je_new_ttl_secs e with
      | Some secs =>
          let m := refresh_object_ttl (ce_clock env 2) (secs * NANOS_PER_SEC) m in
          mkApplied (set_ranges (default (cm_ranges m)
                       (update_extent (je_range_spec e) (touch_range (je_timestamp e)) (cm_ranges m))) m)
            (ap_count a + 1) (ap_graduated a)
      | None => a
      end
  | Disk.Graduation =>
      if om_graduation_accounted (cm_object_metadata m) then a
      else mkApplied (set_graduated m) (ap_count a + 1)
             (saturating_add (ap_graduated a) (nr_compressed_size (je_range_spec e)))
  | Disk.AccessUpdate =>
      match je_access_increment e with
      | Some n =>
          match update_extent (je_range_spec e) (count_accesses n (je_timestamp e)) (cm_ranges m) with
          | Some rs => mkApplied (set_ranges rs m) (ap_count a + 1) (ap_graduated a)
          | None => a
          end
      | None => a
      end
  end.

Definition guess_content_length (m : NewCacheMetadata) : NewCacheMetadata :=
  match cm_ranges m with
  | [r] => if (nr_start r =? 0) && (om_content_length (cm_object_metadata m) =? 0)
           then set_content_length (u64_add (nr_end r) 1) m else m
  | _ => m
  end.

Definition apply_journal_entries (env : cons_env) (m : NewCacheMetadata) (es : list JournalEntry) : applied :=
  let a := foldl (fun a e => apply_entry env e a) (mkApplied m 0 0) es in
  mkApplied (guess_content_length (ap_metadata a)) (ap_count a) (ap_graduated a).

(** ** One object *)

Record ConsolidationResult := mkConsResult {
  cr_entries_processed : Z;
  cr_entries_consolidated : Z;
  cr_conflicts_resolved : Z;
  cr_invalid_entries_removed : Z;
  cr_success : bool;
  cr_consolidated_entries : list JournalEntry;
  cr_write_cache_delta : Z;
  cr_is_new_object : bool;
}.

Definition cons_success : ConsolidationResult := mkConsResult 0 0 0 0 true [] 0 false.

Definition cons_failure : ConsolidationResult := mkConsResult 0 0 0 0 false [] 0 false.

(** The consolidator's metadata writer also drops the RAM copy. *)
Definition cons_write_metadata (env : cons_env) (m : NewCacheMetadata) (st : Storage) : Storage * Result unit :=
  match get_sharded_path "metadata" (cm_cache_key m) ".meta" with
  | Ok path =>
      match ce_write_meta env with
      | None =>
          let st := set_metadata_files (<[path:=MetaParsed m]> (metadata_files st)) st in
          (set_metadata_cache (MetaCache.invalidate (cm_cache_key m) (metadata_cache st)) st, Ok tt)
      | Some e => (st, Err e)
      end
  | Err e => (st, Err e)
  | Panic => (st, Panic)
  end.

(** From valid entries to the written metadata. *)
Definition consolidate_valid (env : cons_env) (key : string) (all valid stale : list JournalEntry) (st : Storage)
    : Storage * Result ConsolidationResult :=
  match load_or_create_metadata_with_journal_entries env key valid st with
  | Err _ => (st, Ok cons_failure)
  | Panic => (st, Panic)
  | Ok m =>
      let had_no_ranges_before := match cm_ranges m with [] => true | _ => false end in
      let etag := om_etag (cm_object_metadata m) in
      let matching := List.filter (fun e => matches_object_version e etag) valid in
      let retained := (nr_file_path <$> cm_ranges m) ++ ((fun e => nr_file_path (je_range_spec e)) <$> matching) in
      match cleanup_rejected env key etag retained [] [] valid st with
      | (st, Err e) => (st, Err e)
      | (st, Panic) => (st, Panic)
      | (st, Ok failed) =>
          let '(st, retired) := retire_foreign env key (om_is_write_cached (cm_object_metadata m))
                                  (foreign_ranges m) st in
          let a := apply_journal_entries env (resolve_conflicts matching (drop_retired retired m)) matching in
          match cons_write_metadata env (ap_metadata a) st with
          | (st, Ok _) =>
              let to_remove := List.filter (fun e => matches_object_version e etag
                                 || negb (bool_decide (nr_file_path (je_range_spec e) ∈ failed))) valid in
              (st, Ok (mkConsResult (zlen all) (ap_count a) (zlen valid - ap_count a) (zlen stale) true
                        (to_remove ++ stale) (wrap_i64 (- wrap_i64 (ap_graduated a)))
                        (had_no_ranges_before && (0 <? ap_count a))))
          | (st, Err _) => (st, Ok cons_failure)
          | (st, Panic) => (st, Panic)
          end
      end
  end.

(** The entries the lock lets it read: from the files the discovery indexed, or
    from all. *)
Definition entries_read (env : cons_env) (key : string) (files : list string) (st : Storage) : list JournalEntry :=
  match files with
  | [] => get_all_entries_for_cache_key (ce_readable env) key st
  | _ => get_entries_from_files (ce_readable env) key files st
  end.

Definition consolidate_object_with_files (env : cons_env) (key : string) (files : list string) (st : Storage)
    : Storage * Result ConsolidationResult :=
  if negb (ce_lock env) then (st, Ok cons_success) else
  match entries_read env key files st with
  | [] => (st, Ok cons_success)
  | all =>
      let '(st, (valid, stale)) := validate_journal_entries_with_staleness env all st in
      match valid with
      | [] => (st, Ok (mkConsResult (zlen all) 0 0 (zlen stale) true stale 0 false))
      | _ => consolidate_valid env key all valid stale st
      end
  end.

(** A consolidation that its time limit stops, by the loop it is stopped in and the
    turns that loop has done. *)
Inductive cut := InValidation (n : nat) | InCleanup (n : nat) | InRetirement (n : nat).

Definition consolidate_cut (c : cut) (env : cons_env) (key : string) (files : list string) (st : Storage) : Storage :=
  if negb (ce_lock env) then st else
  let all := entries_read env key files st in
  match c with
  | InValidation n => (validate_journal_entries_with_staleness env (take n all) st).1
  | _ =>
      let '(st, (valid, _)) := validate_journal_entries_with_staleness env all st in
      match load_or_create_metadata_with_journal_entries env key valid st with
      | Ok m =>
          let etag := om_etag (cm_object_metadata m) in
          let matching := List.filter (fun e => matches_object_version e etag) valid in
          let retained := (nr_file_path <$> cm_ranges m) ++ ((fun e => nr_file_path (je_range_spec e)) <$> matching) in
          let turns := match c with InCleanup n => n | _ => length valid end in
          match cleanup_rejected env key etag retained [] [] (take turns valid) st, c with
          | (st, Ok _), InRetirement n =>
              (retire_foreign env key (om_is_write_cached (cm_object_metadata m)) (take n (foreign_ranges m)) st).1
          | (st, _), _ => st
          end
      | _ => st
      end
  end.

(** ** Cleaning the journals *)

Definition entry_id (e : JournalEntry) : string * Z * Z * Z * string :=
  (je_cache_key e, nr_start (je_range_spec e), nr_end (je_range_spec e), je_timestamp e, je_instance_id e).

Definition was_consolidated (done : list JournalEntry) (e : JournalEntry) : bool :=
  bool_decide (entry_id e ∈ entry_id <$> done).

(** What becomes of one journal file; [None] is deletion. *)
Definition cleaned_file (done : list JournalEntry) (name : string) (ls : list line) : option (list line) :=
  let entries := parsed_lines ls in
  let remaining := List.filter (fun e => negb (was_consolidated done e)) entries in
  if zlen remaining =? zlen entries then Some ls else
  match remaining with
  | [] => if contains_char ":" name then None else Some []
  | _ => Some (Parsed <$> remaining)
  end.

Definition clean_one (env : cons_env) (done : list JournalEntry) (seen : list string) (js : gmap string (list line))
    (name : string) : gmap string (list line) :=
  if negb (is_journal_name name) then js else
  if negb (bool_decide (seen = [])) && negb (bool_decide (name ∈ seen)) then js else
  if negb (ce_readable env name) then js else
  match js !! name with
  | None => js
  | Some ls =>
      if ce_removable env name
      then match cleaned_file done name ls with
           | Some ls' => <[name:=ls']> js
           | None => base.delete name js
           end
      else js
  end.

(** [seen] are the files the discovery read, with at least one entry. *)
Definition cleanup_consolidated_entries (env : cons_env) (done : list JournalEntry) (seen : list string)
    (st : Storage) : Storage :=
  match done with
  | [] => st
  | _ =>
      if negb (journals_dir_exists st) then st else
      set_journal_files (foldl (clean_one env done seen) (journal_files st) (hash_iter (journal_files st)).*1) st
  end.

(** ** Discovery *)

Record discovery := mkDiscovery {
  key_index : gmap string (list string);
  file_entry_counts : list (string * Z);
}.

(** The lines of one file, until the cap on keys is reached. *)
Fixpoint index_lines (max_keys : nat) (path : string) (in_file : list string) (count : Z) (ls : list line)
    (index : gmap string (list string)) : gmap string (list string) * Z :=
  match ls with
  | [] => (index, count)
  | l :: ls =>
      if (0 <? max_keys)%nat && (max_keys <=? size index)%nat then (index, count) else
      match l with
      | Garbage _ => index_lines max_keys path in_file count ls index
      | Parsed e =>
          if bool_decide (je_cache_key e ∈ in_file)
          then index_lines max_keys path in_file (count + 1) ls index
          else index_lines max_keys path (je_cache_key e :: in_file) (count + 1) ls
                 (<[je_cache_key e:=default [] (index !! je_cache_key e) ++ [path]]> index)
      end
  end.

Fixpoint discover_loop (env : cons_env) (max_keys : nat) (files : list (string * list line)) (d : discovery) : discovery :=
  match files with
  | [] => d
  | (path, ls) :: files =>
      if (0 <? max_keys)%nat && (max_keys <=? size (key_index d))%nat then d else
      if negb (is_journal_name path) then discover_loop env max_keys files d else
      if negb (ce_readable env path) then discover_loop env max_keys files d else
      let '(index, count) := index_lines max_keys path [] 0 ls (key_index d) in
      discover_loop env max_keys files
        (mkDiscovery index (if 0 <? count then file_entry_counts d ++ [(path, count)] else file_entry_counts d))
  end.

Definition discover_pending_cache_keys_indexed_capped (env : cons_env) (max_keys : nat) (st : Storage) : discovery :=
  if negb (journals_dir_exists st) then mkDiscovery ∅ []
  else discover_loop env max_keys (hash_iter (journal_files st)) (mkDiscovery ∅ []).

(** ** The journal half of a cycle

    The keys are handled in some order, several at a time, each under its own lock;
    they share only the accumulator, whose updates commute.  A key may not be
    started before the deadline, be stopped by its own limit, or be done too late
    for its result to be counted: its entries stay for the next cycle.  What
    succeeded is cleaned up and the graduations are summed. *)

Inductive fate := NotStarted | CutOff (c : cut) | TooLate | InTime.

Fixpoint consolidate_keys (env : string -> cons_env) (fates : string -> fate) (keys : list (string * list string))
    (done : list JournalEntry) (wc new_objects : Z) (st : Storage) : Storage * (list JournalEntry * Z * Z) :=
  match keys with
  | [] => (st, (done, wc, new_objects))
  | (key, files) :: keys =>
      match fates key with
      | NotStarted => consolidate_keys env fates keys done wc new_objects st
      | CutOff c => consolidate_keys env fates keys done wc new_objects (consolidate_cut c (env key) key files st)
      | TooLate => consolidate_keys env fates keys done wc new_objects
                     (consolidate_object_with_files (env key) key files st).1
      | InTime =>
          match consolidate_object_with_files (env key) key files st with
          | (st, Ok r) =>
              consolidate_keys env fates keys (done ++ cr_consolidated_entries r)
                (wrap_i64 (wc + cr_write_cache_delta r)) (if cr_is_new_object r then new_objects + 1 else new_objects) st
          | (st, _) => consolidate_keys env fates keys done wc new_objects st
          end
      end
  end.

Definition journal_cycle (env : string -> cons_env) (cycle_env : cons_env) (fates : string -> fate) (max_keys : nat)
    (size_env objects_env : Size.locked_env) (st : Storage) (f : Size.state_file) : Storage * Size.state_file :=
  let d := discover_pending_cache_keys_indexed_capped cycle_env max_keys st in
  match hash_iter (key_index d) with
  | [] => (st, f)
  | keys =>
      let '(st, (done, wc, new_objects)) := consolidate_keys env fates keys [] 0 0 st in
      let f := if negb (wc =? 0) then (Size.atomic_update_size_delta size_env 0 wc f).1 else f in
      let st := cleanup_consolidated_entries cycle_env done (file_entry_counts d).*1 st in
      let f := if 0 <? new_objects then Size.increment_cached_objects objects_env new_objects f else f in
      (st, f)
  end.

End Consolidate.

(** ** What a sweep may touch *)

(** Range files with paths in [P] may be gone; metadata, journals and the other
    range files are as they were. *)
Record sweeps (P : string -> Prop) (st st' : Storage) : Prop := {
  sw_dir : journals_dir_exists st' = journals_dir_exists st;
  sw_meta : metadata_files st' = metadata_files st;
  sw_journals : journal_files st' = journal_files st;
  sw_files p : range_files st' !! p = range_files st !! p \/ range_files st' !! p = None /\ P p;
}.

#[global] Instance sweeps_preorder P : PreOrder (sweeps P).
Proof.
  split.
  - intros st. constructor; auto.
  - intros st1 st2 st3 [D1 M1 J1 F1] [D2 M2 J2 F2]. constructor; [congruence.. |].
    intros p. destruct (F2 p) as [-> | H2]; [apply F1 | by right].
Qed.

Lemma sweeps_weaken (P Q : string -> Prop) st st' : (forall p, P p -> Q p) -> sweeps P st st' -> sweeps Q st st'.
Proof. intros HPQ [D M J F]. constructor; try done. intros p. destruct (F p) as [? | [? ?]]; auto. Qed.

Section Facts.
Context `{HashIter} `{PathCodec}.

Lemma check_evicted_sweeps P key s e st : sweeps P st (check_and_clear_evicted_range key s e st).1.
Proof.
  unfold check_and_clear_evicted_range.
  destruct (_ ← _; _) as [[] |]; constructor; auto.
Qed.

Lemma validate_sweeps P env es st : sweeps P st (validate_journal_entries_with_staleness env es st).1.
Proof.
  revert st. induction es as [| e es IH]; intros st; cbn; [done |].
  assert (He : sweeps P st (validate_entry env e st).1).
  { unfold validate_entry. destruct (is_removal _); [done |].
    pose proof (check_evicted_sweeps P (je_cache_key e) (nr_start (je_range_spec e)) (nr_end (je_range_spec e)) st) as Hc.
    destruct (check_and_clear_evicted_range _ _ _ _) as [st1 []]; [done |].
    destruct (is_object_level _); [done |]. by destruct (get_range_file_path _ _). }
  destruct (validate_entry env e st) as [st1 v]. specialize (IH st1).
  destruct (validate_journal_entries_with_staleness env es st1) as [st2 [valid stale]].
  etrans; [exact He | exact IH].
Qed.

Lemma remove_sweeps (P : string -> Prop) key r b p st :
  P p -> sweeps P st (debit_range key r b (set_range_files (base.delete p (range_files st)) st)).
Proof.
  intros HP. constructor; try done. intros q. cbn. destruct (decide (q = p)) as [-> | Hne].
  - right. by rewrite lookup_delete_eq.
  - left. by apply lookup_delete_ne.
Qed.

Lemma get_range_file_path_Ok key r p : get_range_file_path key r = Ok p -> p = nr_file_path r.
Proof. unfold get_range_file_path. destruct (parse_cache_key key) as [bo | |]; [cbn | done | done]. by destruct (negb _); [| intros [= <-]]. Qed.

Lemma cleanup_sweeps env key etag retained attempted failed es st :
  sweeps (fun p => p ∉ retained) st (cleanup_rejected env key etag retained attempted failed es st).1.
Proof.
  revert attempted failed st. induction es as [| e es IH]; intros attempted failed st; cbn; [done |].
  destruct (negb _); [apply IH |].
  destruct (matches_object_version e etag); [apply IH |].
  case_bool_decide as Hret; [apply IH |]. case_bool_decide; [apply IH |]. cbn [orb].
  destruct (get_range_file_path key (je_range_spec e)) as [p | |] eqn:Ep; [| done | done].
  apply get_range_file_path_Ok in Ep as ->.
  destruct (range_files st !! _); [| apply IH]. destruct (ce_removable env _); [| apply IH].
  etrans; [by apply remove_sweeps | apply IH].
Qed.

Lemma retire_sweeps env key b rs st :
  sweeps (fun p => p ∈ nr_file_path <$> rs) st (retire_foreign env key b rs st).1.
Proof.
  revert st. induction rs as [| r rs IH]; intros st; [done |].
  assert (IH' : forall st, sweeps (fun p => p ∈ nr_file_path <$> r :: rs) st (retire_foreign env key b rs st).1)
    by (intros st'; eapply sweeps_weaken; [| apply IH]; intros p Hp; by right).
  cbn [retire_foreign]. destruct (get_range_file_path key r) as [p | |] eqn:Ep.
  - apply get_range_file_path_Ok in Ep as ->. destruct (range_files st !! _).
    + destruct (ce_removable env _); [| apply IH'].
      pose proof (IH' (debit_range key r b (set_range_files (base.delete (nr_file_path r) (range_files st)) st))) as Hs.
      destruct (retire_foreign env key b rs _) as [st1 retired]. etrans; [| exact Hs]. apply remove_sweeps. left.
    + pose proof (IH' st) as Hs. by destruct (retire_foreign env key b rs st).
  - pose proof (IH' st) as Hs. by destruct (retire_foreign env key b rs st).
  - pose proof (IH' st) as Hs. by destruct (retire_foreign env key b rs st).
Qed.

(** *** Entries *)

Lemma entries_in_elem readable key files e :
  e ∈ entries_in readable key files -> je_cache_key e = key /\ exists name ls, (name, ls) ∈ files /\ Parsed e ∈ ls.
Proof.
  unfold entries_in. rewrite sort_by_key_perm, list_elem_of_In, in_flat_map.
  intros ([name ls] & Hin & He). cbn in He. apply list_elem_of_In in He, Hin.
  destruct (readable name); [| by apply elem_of_nil in He]. apply list_elem_of_filter in He as [Hk He].
  apply parsed_lines_elem in He. eauto.
Qed.

Lemma entries_read_elem env key files st e :
  e ∈ entries_read env key files st ->
  je_cache_key e = key /\ exists name ls, journal_files st !! name = Some ls /\ Parsed e ∈ ls.
Proof.
  unfold entries_read, get_all_entries_for_cache_key, get_entries_from_files. destruct files as [| f fs].
  - intros (Hk & name & ls & Hin & He)%entries_in_elem. apply list_elem_of_filter in Hin as [_ Hin].
    apply hash_iter_lookup in Hin. eauto.
  - intros (Hk & name & ls & Hin & He)%entries_in_elem. apply list_elem_of_omap in Hin as (x & _ & Hx).
    destruct (journal_files st !! x) as [ls' |] eqn:El; [| done]. injection Hx as -> ->. eauto.
Qed.

(** Validation splits the entries it is given. *)
Lemma validate_elem env es st e :
  let '(_, (valid, stale)) := validate_journal_entries_with_staleness env es st in
  (e ∈ valid -> e ∈ es) /\ (e ∈ stale -> e ∈ es).
Proof.
  revert st. induction es as [| e' es IH]; intros st; cbn; [done |].
  destruct (validate_entry env e' st) as [st1 v]. specialize (IH st1).
  destruct (validate_journal_entries_with_staleness env es st1) as [st2 [valid stale]]. destruct IH as [IH1 IH2].
  destruct v; split; rewrite ?elem_of_cons; tauto.
Qed.

(** *** Ranges *)

Lemma same_extent_spec x y : same_extent x y = true <-> nr_start x = nr_start y /\ nr_end x = nr_end y.
Proof. unfold same_extent. by rewrite andb_true_iff, !Z.eqb_eq. Qed.

Lemma update_extent_rel r f rs rs' :
  update_extent r f rs = Some rs' ->
  Forall2 (fun x y => y = x \/ same_extent x r = true /\ y = f x) rs rs'.
Proof.
  revert rs'. induction rs as [| x rs IH]; intros rs'; cbn; [done |].
  destruct (same_extent x r) eqn:Ex.
  - intros [= <-]. constructor; [auto |]. apply Forall_Forall2_diag, Forall_true. auto.
  - destruct (update_extent r f rs) as [rs1 |]; [| done]. intros [= <-]. constructor; [auto | by apply IH].
Qed.

(** A property of ranges the bookkeeping of accesses does not change. *)
Class Untouched (P : NewRangeSpec -> Prop) : Prop := {
  untouched_touch now r : P r -> P (touch_range now r);
  untouched_count n now r : P r -> P (count_accesses n now r);
}.

Lemma update_extent_Forall (P : NewRangeSpec -> Prop) r f rs rs' :
  (forall x, same_extent x r = true -> P x -> P (f x)) -> Forall P rs ->
  update_extent r f rs = Some rs' -> Forall P rs'.
Proof.
  intros Hf Hrs Hu. apply update_extent_rel in Hu. revert Hrs. induction Hu as [| x y rs rs' Hy Hu IH]; [done |].
  rewrite !Forall_cons. intros [Hx Hrs]. split; [| auto]. destruct Hy as [-> | [Hs ->]]; auto.
Qed.

Lemma update_extent_Exists (P : NewRangeSpec -> Prop) r f rs rs' :
  (forall x, same_extent x r = true -> P x -> P (f x)) -> Exists P rs ->
  update_extent r f rs = Some rs' -> Exists P rs'.
Proof.
  intros Hf Hrs Hu. apply update_extent_rel in Hu. revert Hrs. induction Hu as [| x y rs rs' Hy Hu IH].
  - by intros ?%Exists_nil.
  - rewrite !Exists_cons. intros [Hx | Hrs]; [left | auto]. destruct Hy as [-> | [Hs ->]]; auto.
Qed.

(** What identifies the object in its metadata. *)
Definition identity (m : NewCacheMetadata) : string * string * bool * option Z :=
  (cm_cache_key m, om_etag (cm_object_metadata m), om_is_write_cached (cm_object_metadata m),
   om_write_cache_expires_at (cm_object_metadata m)).

Lemma apply_entry_identity env e a : identity (ap_metadata (apply_entry env e a)) = identity (ap_metadata a).
Proof.
  unfold apply_entry. destruct (je_operation e).
  - by destruct (existsb _ _).
  - by destruct (update_extent _ _ _).
  - by destruct (negb _).
  - by destruct (je_new_ttl_secs e).
  - destruct (je_access_increment e); [| done]. by destruct (update_extent _ _ _).
  - by destruct (om_graduation_accounted _).
Qed.

Lemma apply_entry_Forall (P : NewRangeSpec -> Prop) `{!Untouched P} env e a :
  (is_publication (je_operation e) = true -> P (je_range_spec e)) ->
  Forall P (cm_ranges (ap_metadata a)) -> Forall P (cm_ranges (ap_metadata (apply_entry env e a))).
Proof.
  intros Hp Ha. unfold apply_entry. destruct (je_operation e).
  - destruct (existsb _ _); [done |]. cbn. apply Forall_app. split; [done | constructor; [auto | constructor]].
  - destruct (update_extent _ _ _) eqn:Eu; [| done]. eapply update_extent_Forall; [| done | done]. auto.
  - destruct (negb _); [done |]. cbn. apply Forall_forall. intros r Hr. apply list_elem_of_In, filter_In in Hr as [Hr _].
    rewrite Forall_forall in Ha. by apply Ha, list_elem_of_In.
  - destruct (je_new_ttl_secs e); [| done]. cbn. destruct (update_extent _ _ _) eqn:Eu; [| done].
    eapply update_extent_Forall; [| done | done]. intros x _. apply untouched_touch.
  - destruct (je_access_increment e); [| done]. destruct (update_extent _ _ _) eqn:Eu; [| done].
    eapply update_extent_Forall; [| done | done]. intros x _. apply untouched_count.
  - by destruct (om_graduation_accounted _).
Qed.

Lemma apply_entries_ind (Q : applied -> Prop) env es a :
  (forall e a, e ∈ es -> Q a -> Q (apply_entry env e a)) -> Q a -> Q (foldl (fun a e => apply_entry env e a) a es).
Proof.
  revert a. induction es as [| e es IH]; intros a Hstep Ha; cbn; [done |].
  apply IH; [intros e' a' Hin; apply Hstep; by right |]. apply Hstep; [left | done].
Qed.

Lemma guess_content_length_keeps m :
  cm_ranges (guess_content_length m) = cm_ranges m /\ identity (guess_content_length m) = identity m.
Proof. unfold guess_content_length. destruct (cm_ranges m) as [| r []] eqn:E; try done. by destruct (_ && _). Qed.

Lemma apply_entries_keep env m es :
  identity (ap_metadata (apply_journal_entries env m es)) = identity m /\
  forall P : NewRangeSpec -> Prop, Untouched P ->
    (forall e, e ∈ es -> is_publication (je_operation e) = true -> P (je_range_spec e)) ->
    Forall P (cm_ranges m) -> Forall P (cm_ranges (ap_metadata (apply_journal_entries env m es))).
Proof.
  unfold apply_journal_entries. cbn. split.
  - rewrite (proj2 (guess_content_length_keeps _)).
    apply (apply_entries_ind (fun a => identity (ap_metadata a) = identity m)); [| done].
    intros e a _ <-. apply apply_entry_identity.
  - intros P HP Hes Hm. rewrite (proj1 (guess_content_length_keeps _)).
    apply (apply_entries_ind (fun a => Forall P (cm_ranges (ap_metadata a)))); [| done].
    intros e a He Ha. apply apply_entry_Forall; auto.
Qed.

(** *** Conflicts *)

Lemma latest_publications_elem es acc k e :
  latest_publications acc es !! k = Some e ->
  acc !! k = Some e \/ e ∈ es /\ is_publication (je_operation e) = true.
Proof.
  revert acc. induction es as [| x es IH]; intros acc; cbn; [auto |]. intros [Hl | [Hin Hp]]%IH.
  - destruct (is_publication (je_operation x)) eqn:Ep; cbn [negb] in Hl; [| auto].
    set (kx := (nr_start (je_range_spec x), nr_end (je_range_spec x))) in *.
    assert ((<[kx:=x]> acc) !! k = Some e -> acc !! k = Some e \/ e ∈ x :: es /\ is_publication (je_operation e) = true) as Hi.
    { destruct (decide (k = kx)) as [-> | Hne].
      - rewrite lookup_insert_eq. intros [= <-]. right. split; [left | done].
      - rewrite lookup_insert_ne by done. auto. }
    destruct (acc !! kx); [destruct (_ <? _) |]; auto.
  - right. split; [by right | done].
Qed.

Lemma resolve_ind (Q : list NewRangeSpec -> Prop) es m :
  (forall e rs, e ∈ es -> is_publication (je_operation e) = true -> Q rs -> Q (resolve_one e rs)) ->
  Q (cm_ranges m) -> Q (cm_ranges (resolve_conflicts es m)).
Proof.
  intros Hstep Hm. cbn.
  assert (Hall : forall ke, ke ∈ map_to_list (latest_publications ∅ es) ->
    ke.2 ∈ es /\ is_publication (je_operation ke.2) = true).
  { intros [k e] Hin%elem_of_map_to_list. apply latest_publications_elem in Hin as [Hin | Hin]; [| done].
    by rewrite lookup_empty in Hin. }
  revert Hall Hm. generalize (cm_ranges m). induction (map_to_list _) as [| ke kes IH]; intros rs Hall Hrs; cbn; [done |].
  apply IH; [intros ke' Hin; apply Hall; by right |]. destruct (Hall ke ltac:(left)). by apply Hstep.
Qed.

Lemma resolve_one_Forall (P : NewRangeSpec -> Prop) e rs :
  P (je_range_spec e) -> Forall P rs -> Forall P (resolve_one e rs).
Proof.
  intros He Hrs. unfold resolve_one. destruct (update_extent _ _ _) eqn:Eu; [| done].
  eapply update_extent_Forall; [| exact Hrs | exact Eu]. intros x _ Hx. cbn. by destruct (nr_created_at x <? je_timestamp e).
Qed.

Lemma metadata_path key p : get_sharded_path "metadata" key ".meta" = Ok p -> get_new_metadata_file_path key = p.
Proof. unfold get_new_metadata_file_path. by intros ->. Qed.

End Facts.

(** ** The invariant of the disk *)

Section Invariant.
Context `{HashIter} `{PathCodec} `{FrameCodec}.
Context (object : string -> string -> bytes).

#[local] Instance named_at_untouched path : Untouched (named_at path).
Proof. split; intros; done. Qed.

Lemma sweeps_ok P st st' : sweeps P st st' -> storage_ok object st -> storage_ok object st'.
Proof.
  intros [D M J F] [Hf Hm Hj]. constructor.
  - eapply files_ok_subseteq; [| exact Hf]. apply map_subseteq_spec. intros p f Hp.
    destruct (F p) as [<- | [E _]]; [done | congruence].
  - by rewrite M.
  - unfold journals_all. by rewrite J.
Qed.

(** The metadata a consolidation starts from is that of the key's path. *)
Lemma load_or_create_ok env key es st m :
  storage_ok object st -> load_or_create_metadata_with_journal_entries env key es st = Ok m ->
  metadata_ok (get_new_metadata_file_path key) m.
Proof.
  intros Hok. unfold load_or_create_metadata_with_journal_entries.
  destruct (get_sharded_path "metadata" key ".meta") as [p | |] eqn:Ep; [| done | done]. cbn [mbind outcome_bind].
  apply metadata_path in Ep as Hp. rewrite Hp.
  destruct (metadata_files st !! p) as [[m' | | err] |] eqn:Em; try done.
  - intros [= <-]. by apply Hok.
  - destruct (add_ttl _ _); [| done | done]. intros [= <-]. split; [exact Hp | constructor].
Qed.

Lemma cons_write_ok env m st :
  storage_ok object st -> metadata_ok (get_new_metadata_file_path (cm_cache_key m)) m ->
  storage_ok object (cons_write_metadata env m st).1.
Proof.
  intros Hok Hm. unfold cons_write_metadata.
  destruct (get_sharded_path "metadata" (cm_cache_key m) ".meta") as [p | |] eqn:Ep; [| done | done].
  apply metadata_path in Ep. destruct (ce_write_meta env); [done |]. rewrite Ep in Hm.
  destruct (storage_ok_metadata object st p m Hok Hm) as [Hf Hm' Hj]. by constructor.
Qed.

Lemma consolidate_valid_ok env key all valid stale st :
  storage_ok object st ->
  (forall e, e ∈ valid -> is_publication (je_operation e) = true -> named key (je_range_spec e)) ->
  storage_ok object (consolidate_valid env key all valid stale st).1.
Proof.
  intros Hok Hv. unfold consolidate_valid.
  destruct (load_or_create_metadata_with_journal_entries env key valid st) as [m | |] eqn:El; [| done | done].
  apply load_or_create_ok in El as [Hp Hr]; [| done].
  set (etag := om_etag (cm_object_metadata m)).
  set (matching := List.filter (fun e => matches_object_version e etag) valid).
  set (retained := _ ++ _).
  pose proof (cleanup_sweeps env key etag retained [] [] valid st) as Hc.
  destruct (cleanup_rejected _ _ _ _ _ _ _ _) as [st1 res]. cbn [fst] in Hc.
  apply sweeps_ok in Hc; [| done]. destruct res as [failed | |]; [| done | done].
  pose proof (retire_sweeps env key (om_is_write_cached (cm_object_metadata m)) (foreign_ranges m) st1) as Hs.
  destruct (retire_foreign _ _ _ _ _) as [st2 retired]. cbn [fst] in Hs. apply sweeps_ok in Hs; [| done].
  set (m1 := resolve_conflicts matching (drop_retired retired m)).
  destruct (apply_entries_keep env m1 matching) as [Hi Ha].
  pose proof (f_equal (fun i => i.1.1.1) Hi : cm_cache_key (ap_metadata (apply_journal_entries env m1 matching)) = cm_cache_key m) as Hk.
  assert (Hmat : forall e, e ∈ matching -> is_publication (je_operation e) = true ->
    named_at (get_new_metadata_file_path key) (je_range_spec e)).
  { intros e He Hpub. apply list_elem_of_In, filter_In in He as [He _]. exists key. split; [done |].
    apply Hv; [by apply list_elem_of_In | done]. }
  assert (Hm1 : Forall (named_at (get_new_metadata_file_path key)) (cm_ranges m1)).
  { apply (resolve_ind (Forall (named_at (get_new_metadata_file_path key)))).
    - intros e rs He Hpub. by apply resolve_one_Forall, Hmat.
    - apply Forall_forall. intros r Hin. apply list_elem_of_In, filter_In in Hin as [Hin _].
      rewrite Forall_forall in Hr. by apply Hr, list_elem_of_In. }
  pose proof (cons_write_ok env (ap_metadata (apply_journal_entries env m1 matching)) st2 Hs) as Hw.
  rewrite Hk, Hp in Hw. specialize (Hw (conj (eq_trans (f_equal _ Hk) Hp) (Ha _ _ Hmat Hm1))).
  by destruct (cons_write_metadata _ _ _) as [st3 [[] | |]].
Qed.

Lemma consolidate_object_ok env key files st :
  storage_ok object st -> storage_ok object (consolidate_object_with_files env key files st).1.
Proof.
  intros Hok. unfold consolidate_object_with_files. destruct (negb _); [done |].
  pose proof (entries_read_elem env key files st) as Hread.
  destruct (entries_read env key files st) as [| e0 es]; [done |]. set (all := e0 :: es) in *.
  pose proof (validate_sweeps (fun _ => False) env all st) as Hv.
  pose proof (fun e => validate_elem env all st e) as Hve.
  destruct (validate_journal_entries_with_staleness env all st) as [st1 [valid stale]]. cbn [fst] in Hv.
  assert (Hok1 : storage_ok object st1) by (by eapply sweeps_ok).
  destruct valid as [| v vs]; [done |]. apply consolidate_valid_ok; [done |].
  intros e He Hp. destruct (Hve e) as [Hve' _].
  destruct (Hread e (Hve' He)) as (<- & name & ls & Hl & Hin).
  by apply (so_journals object st Hok name ls e Hl Hin).
Qed.

Lemma consolidate_cut_ok c env key files st :
  storage_ok object st -> storage_ok object (consolidate_cut c env key files st).
Proof.
  intros Hok. unfold consolidate_cut. destruct (negb _); [done |].
  assert (Hv : forall es, storage_ok object (validate_journal_entries_with_staleness env es st).1)
    by (intros es; eapply sweeps_ok; [apply (validate_sweeps (fun _ => False)) | done]).
  destruct c as [n | n | n]; [apply Hv | |].
  all: specialize (Hv (entries_read env key files st)).
  all: destruct (validate_journal_entries_with_staleness _ _ _) as [st1 [valid stale]]; cbn [fst] in Hv.
  all: destruct (load_or_create_metadata_with_journal_entries _ _ _ _) as [m | |]; [| done | done].
  all: match goal with |- context [cleanup_rejected ?a ?b ?c ?d ?e ?f ?g ?h] =>
    pose proof (cleanup_sweeps a b c d e f g h) as Hc; destruct (cleanup_rejected a b c d e f g h) as [st2 res] end.
  all: apply sweeps_ok in Hc; [| done]; destruct res; try done.
  eapply sweeps_ok; [apply retire_sweeps | done].
Qed.

(** Cleaning keeps only lines that were there. *)
Lemma cleanup_journals_all P env done seen st :
  journals_all P st -> journals_all P (cleanup_consolidated_entries env done seen st).
Proof.
  intros Hj. unfold cleanup_consolidated_entries. destruct done as [| d ds]; [done |].
  destruct (negb _); [done |]. set (es := d :: ds). clearbody es.
  assert (Hone : forall js name, (forall n ls e, js !! n = Some ls -> Parsed e ∈ ls -> P e) ->
    forall n ls e, clean_one env es seen js name !! n = Some ls -> Parsed e ∈ ls -> P e).
  { intros js name Hjs n ls e. unfold clean_one.
    destruct (negb _); [eauto |]. destruct (_ && _); [eauto |]. destruct (negb _); [eauto |].
    destruct (js !! name) as [ls0 |] eqn:El; [| eauto]. destruct (ce_removable env name); [| eauto].
    destruct (cleaned_file es name ls0) as [ls' |] eqn:Ec.
    - destruct (decide (n = name)) as [-> | Hne]; [| rewrite lookup_insert_ne by done; eauto].
      rewrite lookup_insert_eq. intros [= <-] Hin. apply (Hjs name ls0 e El). revert Ec. unfold cleaned_file.
      destruct (_ =? _); [by intros [= ->] |].
      destruct (List.filter _ _) as [| r rs] eqn:Ef; [by destruct (contains_char _ _); intros [= <-]; apply elem_of_nil in Hin |].
      rewrite <- Ef. intros [= <-]. apply list_elem_of_fmap in Hin as (e' & [= <-] & Hin).
      apply list_elem_of_In, filter_In in Hin as [Hin _]. by apply parsed_lines_elem, list_elem_of_In.
    - intros Hn. destruct (decide (n = name)) as [-> | Hne]; [by rewrite lookup_delete_eq in Hn |].
      rewrite lookup_delete_ne in Hn by done. eauto. }
  unfold journals_all in *. cbn [set_journal_files journal_files].
  generalize (hash_iter (journal_files st)).*1. revert Hj. generalize (journal_files st). intros js Hjs names. revert js Hjs.
  induction names as [| name names IH]; intros js Hjs; cbn [foldl]; [exact Hjs |]. apply IH, Hone, Hjs.
Qed.

Lemma cleanup_consolidated_fields env done seen st :
  metadata_files (cleanup_consolidated_entries env done seen st) = metadata_files st /\
  range_files (cleanup_consolidated_entries env done seen st) = range_files st.
Proof. unfold cleanup_consolidated_entries. destruct done; [done |]. by destruct (negb _). Qed.

Lemma cleanup_consolidated_ok env done seen st :
  storage_ok object st -> storage_ok object (cleanup_consolidated_entries env done seen st).
Proof.
  intros [Hf Hm Hj]. destruct (cleanup_consolidated_fields env done seen st) as [E1 E2].
  constructor; rewrite ?E1, ?E2; try done. by apply cleanup_journals_all.
Qed.

Lemma consolidate_keys_ok env fates keys acc wc n st :
  storage_ok object st -> storage_ok object (consolidate_keys env fates keys acc wc n st).1.
Proof.
  revert acc wc n st. induction keys as [| [key files] keys IH]; intros acc wc n st Hok; cbn; [done |].
  pose proof (consolidate_object_ok (env key) key files st Hok) as Ho.
  destruct (fates key); [by apply IH | by apply IH, consolidate_cut_ok | by apply IH |].
  destruct (consolidate_object_with_files (env key) key files st) as [st1 [r | |]]; by apply IH.
Qed.

End Invariant.

(** ** Consolidation keeps what can be loaded *)

Section Loads.
Context `{HashIter} `{PathCodec} `{FrameCodec}.

#[local] Instance named_untouched key : Untouched (named key).
Proof. split; intros; done. Qed.

(** The extent and the version of the range that is loaded. *)
Context (s e : Z) (etag : string).

Definition good (r : NewRangeSpec) : Prop :=
  nr_start r = s /\ nr_end r = e /\ range_file_belongs_to r (object_version_id etag) = true.

(** No range of the extent is of another version. *)
Definition unshadowed (r : NewRangeSpec) : Prop := nr_start r = s -> nr_end r = e -> good r.

(** No removal among the entries strips a range of the extent. *)
Definition unremoved (es : list JournalEntry) (r : NewRangeSpec) : Prop :=
  nr_start r = s -> nr_end r = e ->
  forall x, x ∈ es -> je_operation x = Disk.Remove -> removed_by x r = false.

#[local] Instance good_untouched : Untouched good.
Proof. split; intros; done. Qed.

#[local] Instance unshadowed_untouched : Untouched unshadowed.
Proof. split; intros; done. Qed.

#[local] Instance unremoved_untouched es : Untouched (unremoved es).
Proof. split; intros; done. Qed.

(** A publication of the version is of the version wherever it has the extent. *)
Lemma matching_good x : is_publication (je_operation x) = true -> matches_object_version x etag = true ->
  unshadowed (je_range_spec x).
Proof.
  unfold matches_object_version. destruct (je_operation x); try done; cbn; intros _ [Hb _]%andb_true_iff Hs He; done.
Qed.

Lemma same_extent_good x r :
  same_extent x r = true -> good x -> unshadowed r -> good r.
Proof. intros [Es Ee]%same_extent_spec (Hs & He & _) Hr. apply Hr; congruence. Qed.

Lemma resolve_one_good x rs : unshadowed (je_range_spec x) -> Exists good rs -> Exists good (resolve_one x rs).
Proof.
  intros Hx Hrs. unfold resolve_one. destruct (update_extent _ _ _) eqn:Eu; [| done].
  eapply update_extent_Exists; [| exact Hrs | exact Eu]. intros y Hy Hg. cbn.
  destruct (nr_created_at y <? je_timestamp x); [| done]. by eapply same_extent_good.
Qed.

Lemma apply_entry_good env x a :
  (is_publication (je_operation x) = true -> unshadowed (je_range_spec x)) ->
  Forall (unremoved [x]) (cm_ranges (ap_metadata a)) ->
  Exists good (cm_ranges (ap_metadata a)) -> Exists good (cm_ranges (ap_metadata (apply_entry env x a))).
Proof.
  intros Hp Hu Ha. unfold apply_entry. destruct (je_operation x) eqn:Eo.
  - destruct (existsb _ _); [done |]. apply Exists_app. by left.
  - destruct (update_extent _ _ _) eqn:Eu; [| done]. eapply update_extent_Exists; [| exact Ha | exact Eu].
    intros y Hy Hg. by eapply same_extent_good; [| | apply Hp].
  - destruct (negb _); [done |]. apply Exists_exists in Ha as (r & Hr & Hg). apply Exists_exists. exists r. split; [| done].
    apply list_elem_of_In, filter_In. split; [by apply list_elem_of_In |].
    rewrite Forall_forall in Hu. rewrite (Hu r Hr); [done | apply Hg | apply Hg | left | done].
  - destruct (je_new_ttl_secs x); [| done]. cbn. destruct (update_extent _ _ _) eqn:Eu; [| done].
    eapply update_extent_Exists; [| exact Ha | exact Eu]. intros y _. apply untouched_touch.
  - destruct (je_access_increment x); [| done]. destruct (update_extent _ _ _) eqn:Eu; [| done].
    eapply update_extent_Exists; [| exact Ha | exact Eu]. intros y _. apply untouched_count.
  - by destruct (om_graduation_accounted _).
Qed.

Lemma apply_add_good env x a :
  je_operation x = Disk.Add -> good (je_range_spec x) -> Forall unshadowed (cm_ranges (ap_metadata a)) ->
  Exists good (cm_ranges (ap_metadata (apply_entry env x a))).
Proof.
  intros Ho Hg Ha. unfold apply_entry. rewrite Ho. destruct (existsb _ _) eqn:Ex.
  - apply existsb_exists in Ex as (r & Hr & Hs). apply Exists_exists. exists r. apply list_elem_of_In in Hr.
    split; [done |]. rewrite Forall_forall in Ha. apply same_extent_spec in Hs as [Es Ee].
    destruct Hg as (Hs & He & _). apply (Ha r Hr); congruence.
  - apply Exists_app. right. by constructor.
Qed.

(** What the entries of the version leave in the metadata. *)
Lemma consolidated_good env m es :
  (forall x, x ∈ es -> matches_object_version x etag = true) ->
  (forall x, x ∈ es -> is_publication (je_operation x) = true -> unremoved es (je_range_spec x)) ->
  Forall unshadowed (cm_ranges m) -> Forall (unremoved es) (cm_ranges m) ->
  Exists good (cm_ranges m) \/ (exists x, x ∈ es /\ je_operation x = Disk.Add /\ good (je_range_spec x)) ->
  Exists good (cm_ranges (ap_metadata (apply_journal_entries env (resolve_conflicts es m) es))).
Proof.
  intros Hmat Hrem Hm1 Hm2 Hex.
  assert (Hpub : forall x, x ∈ es -> is_publication (je_operation x) = true -> unshadowed (je_range_spec x))
    by (intros x Hx Hp; apply matching_good; auto).
  set (m1 := resolve_conflicts es m).
  assert (Forall unshadowed (cm_ranges m1)) as Hu1
    by (apply (resolve_ind (Forall unshadowed)); [| done]; intros x rs Hx Hp; apply resolve_one_Forall; auto).
  assert (Forall (unremoved es) (cm_ranges m1)) as Hu2
    by (apply (resolve_ind (Forall (unremoved es))); [| done]; intros x rs Hx Hp; apply resolve_one_Forall; auto).
  assert (Exists good (cm_ranges m1) \/ (exists x, x ∈ es /\ je_operation x = Disk.Add /\ good (je_range_spec x))) as Hex1.
  { destruct Hex as [Hex | Hex]; [left | by right]. apply (resolve_ind (Exists good)); [| done].
    intros x rs Hx Hp. apply resolve_one_good; auto. }
  unfold apply_journal_entries. cbn [ap_metadata]. rewrite (proj1 (guess_content_length_keeps _)).
  pose (inv a := Forall unshadowed (cm_ranges (ap_metadata a)) /\ Forall (unremoved es) (cm_ranges (ap_metadata a))).
  assert (Hinv : forall x a, x ∈ es -> inv a -> inv (apply_entry env x a)).
  { intros x a Hx [Ha1 Ha2]. split; apply apply_entry_Forall; auto; apply _. }
  assert (Hkeep : forall x a, x ∈ es -> inv a /\ Exists good (cm_ranges (ap_metadata a)) ->
    inv (apply_entry env x a) /\ Exists good (cm_ranges (ap_metadata (apply_entry env x a)))).
  { intros x a Hx [Ha He]. split; [auto |]. apply apply_entry_good; auto. destruct Ha as [_ Ha].
    eapply Forall_impl; [exact Ha |]. intros r Hr Hs' He' y ->%list_elem_of_singleton. auto. }
  destruct Hex1 as [Hex1 | (x & Hx & Ho & Hg)].
  - apply (apply_entries_ind (fun a => inv a /\ Exists good (cm_ranges (ap_metadata a))) env es (mkApplied m1 0 0)); done.
  - apply list_elem_of_split in Hx as (l1 & l2 & E). rewrite E, foldl_app. cbn [foldl].
    set (a1 := foldl _ _ l1).
    assert (inv a1) as Ha1.
    { apply (apply_entries_ind inv); [| done]. intros y a Hy. apply Hinv. rewrite E. apply elem_of_app. by left. }
    apply (apply_entries_ind (fun a => inv a /\ Exists good (cm_ranges (ap_metadata a)))).
    + intros y a Hy. apply Hkeep. rewrite E. apply elem_of_app. right. by right.
    + split; [| by apply apply_add_good, Ha1]. apply Hinv; [| done]. rewrite E. apply elem_of_app. right. left.
Qed.

(** An entry whose file is there, and whose range is not marked evicted, is valid. *)
Definition marked (key : string) (st : Storage) : Prop :=
  exists rs, evicted_ranges st !! key = Some rs /\ (s, e) ∈ rs.

Lemma remove_first_elem x l l' : remove_first x l = Some l' -> x ∈ l /\ l' ⊆ l.
Proof.
  revert l'. induction l as [| y l IH]; intros l'; cbn; [done |]. case_bool_decide as Hy.
  - subst y. intros [= <-]. split; [left | intros z Hz; by right].
  - destruct (remove_first x l) as [l1 |] eqn:El; [| done]. intros [= <-]. destruct (IH l1 eq_refl) as [Hx Hl].
    split; [by right |]. intros z [-> | Hz]%elem_of_cons; [left | right; auto].
Qed.

Lemma check_evicted_marked key key' s' e' st :
  (marked key (check_and_clear_evicted_range key' s' e' st).1 -> marked key st) /\
  ((check_and_clear_evicted_range key' s' e' st).2 = true -> key' = key -> s' = s -> e' = e -> marked key st).
Proof.
  unfold check_and_clear_evicted_range, marked.
  destruct (evicted_ranges st !! key') as [rs |] eqn:Er; cbn; [| done].
  destruct (remove_first (s', e') rs) as [l |] eqn:Ef; cbn; [| done].
  apply remove_first_elem in Ef as [Hin Hsub]. split.
  - intros (rs' & Hl & Hm). destruct (decide (key = key')) as [-> | Hne].
    + exists rs. split; [done |]. destruct l as [| x l]; cbn in Hl.
      * by rewrite lookup_delete_eq in Hl.
      * rewrite lookup_insert_eq in Hl. injection Hl as <-. by apply Hsub.
    + exists rs'. split; [| done]. destruct l; cbn in Hl; [by rewrite lookup_delete_ne in Hl | by rewrite lookup_insert_ne in Hl].
  - intros _ -> -> ->. eauto.
Qed.

Lemma validate_entry_marked env key x st : marked key (validate_entry env x st).1 -> marked key st.
Proof.
  unfold validate_entry. destruct (is_removal _); [done |].
  destruct (check_evicted_marked key (je_cache_key x) (nr_start (je_range_spec x)) (nr_end (je_range_spec x)) st) as [Hc _].
  destruct (check_and_clear_evicted_range _ _ _ _) as [st1 []]; [exact Hc |].
  destruct (is_object_level _); [exact Hc |]. destruct (get_range_file_path _ _); exact Hc.
Qed.

Lemma validate_keeps env es st x f :
  x ∈ es -> je_operation x = Disk.Add -> good (je_range_spec x) -> ~ marked (je_cache_key x) st ->
  get_range_file_path (je_cache_key x) (je_range_spec x) = Ok (nr_file_path (je_range_spec x)) ->
  range_files st !! nr_file_path (je_range_spec x) = Some f ->
  x ∈ (validate_journal_entries_with_staleness env es st).2.1.
Proof.
  intros Hin Ho Hg Hm Hp Hf. revert st Hm Hf. induction es as [| y es IH]; intros st Hm Hf; [by apply elem_of_nil in Hin |].
  cbn [validate_journal_entries_with_staleness].
  pose proof (validate_entry_marked env (je_cache_key x) y st) as Hmy.
  assert (Hfy : range_files (validate_entry env y st).1 !! nr_file_path (je_range_spec x) = Some f).
  { pose proof (validate_sweeps (fun _ => False) env [y] st) as [_ _ _ F]. cbn in F.
    destruct (validate_entry env y st) as [st1 v]. cbn in *. destruct (F (nr_file_path (je_range_spec x))) as [-> | [_ []]]. done. }
  assert (Hv : y = x -> (validate_entry env y st).2 = Valid).
  { intros ->. unfold validate_entry. rewrite Ho. cbn [is_removal].
    destruct (check_evicted_marked (je_cache_key x) (je_cache_key x) (nr_start (je_range_spec x)) (nr_end (je_range_spec x)) st)
      as [_ Hc]. pose proof (check_evicted_sweeps (fun _ => False) (je_cache_key x) (nr_start (je_range_spec x))
        (nr_end (je_range_spec x)) st) as [_ _ _ F].
    destruct (check_and_clear_evicted_range _ _ _ _) as [st1 []].
    - destruct Hg as (Hs & He & _). by destruct Hm; apply Hc.
    - cbn [is_object_level]. rewrite Hp. destruct (F (nr_file_path (je_range_spec x))) as [E | [_ []]]. cbn in E.
      by rewrite E, Hf. }
  destruct (validate_entry env y st) as [st1 v]. cbn in Hmy, Hfy, Hv.
  assert (Hrest : x ∈ es -> x ∈ (validate_journal_entries_with_staleness env es st1).2.1) by (intros; apply IH; auto).
  destruct (validate_journal_entries_with_staleness env es st1) as [st2 [valid stale]]. cbn in *.
  apply elem_of_cons in Hin as [<- | Hin].
  - rewrite Hv by done. cbn. left.
  - specialize (Hrest Hin). destruct v; cbn; [by right | done | done].
Qed.

(** Two names of one file read alike. *)
Lemma read_alike key st st' r r' :
  named key r -> named key r' -> good r -> good r' ->
  range_files st' !! nr_file_path r = range_files st !! nr_file_path r ->
  Disk.read_range_data (disk_of st') r' key etag = Disk.read_range_data (disk_of st) r key etag.
Proof.
  intros (_ & _ & _ & _ & Hn) (_ & _ & _ & _ & Hn') (Hs & He & Hb) (Hs' & He' & Hb') Hf.
  destruct (Hn etag Hb) as (Hp & Ha & Hu). destruct (Hn' etag Hb') as (Hp' & Ha' & Hu').
  assert (nr_file_path r' = nr_file_path r) as E by (rewrite Hp, Hp'; congruence).
  unfold Disk.read_range_data, Disk.servable_range_path, Disk.range_file_error. cbn [disk_of Disk.range_files].
  rewrite Hb, Hb', E, Ha, Ha', Hu, Hu', Hs, Hs', He, He'. destruct (negb _); [done |].
  cbn [negb mbind outcome_bind]. by rewrite Hf.
Qed.

(** The object's metadata, seen through its write-cache expiry. *)
Lemma get_metadata_identity now st st' key m m' :
  metadata_files st !! get_new_metadata_file_path key = Some (MetaParsed m) ->
  Disk.get_metadata now (disk_of st) key = Some m ->
  metadata_files st' !! get_new_metadata_file_path key = Some (MetaParsed m') -> identity m' = identity m ->
  Disk.get_metadata now (disk_of st') key = Some m'.
Proof.
  intros Hm Hg Hm' [= Hk He Hw Hx]. unfold Disk.get_metadata in *. cbn [disk_of Disk.metadata_files] in *.
  rewrite lookup_omap, Hm in Hg. rewrite lookup_omap, Hm'. cbn in *. unfold is_write_cache_expired in *.
  rewrite Hw, Hx. destruct (_ && _); [done |]. done.
Qed.

(** A listed range of the version loads as it reads. *)
Lemma load_listed now st key m rng :
  Disk.get_metadata now (disk_of st) key = Some m -> om_etag (cm_object_metadata m) = etag ->
  r_start rng = s -> r_end rng = e -> r_etag rng = etag -> Exists good (cm_ranges m) ->
  exists r, r ∈ cm_ranges m /\ good r /\
    Disk.load_range_data_from_new_storage now (disk_of st) key rng = Disk.read_range_data (disk_of st) r key etag.
Proof.
  intros Hg Het Hs He Hre Hex. unfold Disk.load_range_data_from_new_storage, Disk.find_range_spec.
  rewrite Hg, Hs, He, Hre, Het, bool_decide_true by done. cbn [negb mbind outcome_bind option_bind].
  destruct (List.find _ (cm_ranges m)) as [r |] eqn:Ef.
  - apply List.find_some in Ef as [Hin Ef]. rewrite !andb_true_iff, !Z.eqb_eq in Ef. destruct Ef as [[Es Ee] Hb].
    exists r. split_and!; [by apply list_elem_of_In | done |]. done.
  - apply Exists_exists in Hex as (r & Hr & Es & Ee & Hb). apply list_elem_of_In in Hr.
    pose proof (List.find_none _ _ Ef r Hr) as Hn. cbn in Hn. by rewrite Es, Ee, !Z.eqb_refl, Hb in Hn.
Qed.

(** Where a load finds its range. *)
Lemma load_found now st key m rng data :
  Disk.get_metadata now (disk_of st) key = Some m -> s <= e ->
  r_start rng = s -> r_end rng = e -> r_etag rng = etag ->
  Disk.load_range_data_from_new_storage now (disk_of st) key rng = Ok data ->
  om_etag (cm_object_metadata m) = etag /\
  exists r, good r /\ Disk.find_range_spec now (disk_of st) key rng = Ok r /\
    Disk.read_range_data (disk_of st) r key etag = Ok data /\
    (r ∈ cm_ranges m \/
     exists x, x ∈ journal_entries st /\ je_cache_key x = key /\ je_operation x = Disk.Add /\ je_range_spec x = r /\
       matches_object_version x etag = true).
Proof.
  intros Hg Hle Hs He Hre. unfold Disk.load_range_data_from_new_storage.
  destruct (Disk.find_range_spec now (disk_of st) key rng) as [r | |] eqn:Ef; [| done | done].
  cbn [mbind outcome_bind]. rewrite Hre. intros Hr. unfold Disk.find_range_spec in Ef. rewrite Hg, Hs, He, Hre in Ef.
  case_bool_decide as Het; [| done]. split; [done |]. cbn [negb mbind outcome_bind option_bind] in Ef.
  destruct (List.find _ (cm_ranges m)) as [r' |] eqn:Em.
  - injection Ef as ->. apply List.find_some in Em as [Hin Em]. rewrite !andb_true_iff, !Z.eqb_eq in Em.
    destruct Em as [[Es Ee] Hb]. exists r. split_and!; try done. left. by apply list_elem_of_In.
  - destruct (List.find _ (Disk.find_pending_journal_ranges _ _ _ _ _)) as [r' |] eqn:Ej; [| done]. injection Ef as ->.
    apply List.find_some in Ej as [Hin Ej]. rewrite !andb_true_iff, !Z.eqb_eq in Ej. destruct Ej as [Es Ee].
    apply list_elem_of_In, Disk.journal_ranges_elem in Hin as [_ Hin]; [| done].
    unfold Disk.pending_candidates in Hin. apply list_elem_of_fmap in Hin as (v & -> & Hv).
    apply list_elem_of_filter in Hv as [(Hk & Ho & Hm) Hv]. cbn in Hv.
    apply list_elem_of_fmap in Hv as (x & -> & Hx). cbn in *.
    exists (je_range_spec x). split_and!; try done.
    + rewrite Ho in Hm. by apply andb_true_iff in Hm as [Hm _].
    + right. exists x. split_and!; try done.
Qed.

(** The lookup reads no range file. *)
Lemma find_swept P now st st' key rng :
  sweeps P st st' -> Disk.find_range_spec now (disk_of st') key rng = Disk.find_range_spec now (disk_of st) key rng.
Proof.
  intros [D M J F]. unfold Disk.find_range_spec, Disk.get_metadata, Disk.find_pending_journal_ranges,
    Disk.pending_candidates, disk_of, journal_entries. cbn. by rewrite D, M, J.
Qed.

(** *** One key *)

Lemma retire_retired env key b rs st r :
  r ∈ rs -> ce_removable env (nr_file_path r) = true -> nr_file_path r ∈ (retire_foreign env key b rs st).2.
Proof.
  intros Hin Hrm. revert st. induction rs as [| x rs IH]; intros st; [by apply elem_of_nil in Hin |].
  apply elem_of_cons in Hin as [<- | Hin]; cbn.
  - destruct (get_range_file_path key r) as [p | |] eqn:Ep.
    + apply get_range_file_path_Ok in Ep as ->. destruct (range_files st !! _).
      * rewrite Hrm. destruct (retire_foreign _ _ _ _ _). left.
      * destruct (retire_foreign _ _ _ _ _). left.
    + destruct (retire_foreign _ _ _ _ _). left.
    + destruct (retire_foreign _ _ _ _ _). left.
  - specialize (IH Hin). destruct (get_range_file_path key x) as [p | |].
    + destruct (range_files st !! p).
      * destruct (ce_removable env p); [| apply IH].
        match goal with |- context [retire_foreign env key b rs ?st'] => specialize (IH st') end.
        destruct (retire_foreign env key b rs _). by right.
      * specialize (IH st). destruct (retire_foreign env key b rs st). by right.
    + specialize (IH st). destruct (retire_foreign env key b rs st). by right.
    + specialize (IH st). destruct (retire_foreign env key b rs st). by right.
Qed.

Lemma retired_listed env key b rs st p :
  p ∈ (retire_foreign env key b rs st).2 -> p ∈ nr_file_path <$> rs.
Proof.
  revert st. induction rs as [| x rs IH]; intros st; cbn; [by rewrite elem_of_nil |].
  assert (Hc : forall st, p ∈ (let '(st, retired) := retire_foreign env key b rs st in (st, nr_file_path x :: retired)).2 ->
    p ∈ nr_file_path x :: (nr_file_path <$> rs)).
  { intros st'. specialize (IH st'). destruct (retire_foreign env key b rs st'). cbn. rewrite !elem_of_cons. tauto. }
  destruct (get_range_file_path key x) as [q | |]; [| apply Hc..]. destruct (range_files st !! q); [| apply Hc].
  destruct (ce_removable env q); [apply Hc |]. intros Hp. right. by apply (IH st).
Qed.

(** No range that is foreign has the file of a range of the version. *)
Lemma foreign_other_file key m r f :
  om_etag (cm_object_metadata m) = etag -> Forall (named key) (cm_ranges m) -> named key r -> good r ->
  f ∈ foreign_ranges m -> nr_file_path f <> nr_file_path r.
Proof.
  intros Het Hnm (Hu1 & Hu2 & _ & _ & Hn) (Hs & He & Hb) Hf E.
  assert (named key f) as (_ & _ & _ & Hx & _).
  { apply list_elem_of_In, filter_In in Hf as [Hf _]. rewrite Forall_forall in Hnm. by apply Hnm, list_elem_of_In. }
  destruct (Hn etag Hb) as (Hp & _). rewrite Hp in E. destruct (Hx key (nr_start r) (nr_end r) etag Hu1 Hu2 E) as [Es Ee].
  apply list_elem_of_In, filter_In in Hf as [_ Hf]. rewrite Het in Hf. unfold range_file_belongs_to in *.
  rewrite E, <- Hp, Es, Ee, Hb in Hf. done.
Qed.

(** The extent is retired wherever it is of another version. *)
Definition shadows_removable (env : cons_env) (m : NewCacheMetadata) : Prop :=
  forall f, f ∈ foreign_ranges m -> nr_start f = s -> nr_end f = e -> ce_removable env (nr_file_path f) = true.

Definition handled (res : Result ConsolidationResult) : list JournalEntry :=
  match res with Ok r => cr_consolidated_entries r | _ => [] end.

(** The key's metadata lists a range of the version. *)
Definition lists_good (key : string) (m : NewCacheMetadata) (st : Storage) : Prop :=
  exists m', metadata_files st !! get_new_metadata_file_path key = Some (MetaParsed m') /\ identity m' = identity m /\
    Forall (named key) (cm_ranges m') /\ Exists good (cm_ranges m').

Lemma drop_retired_listed key m retired r :
  om_etag (cm_object_metadata m) = etag -> Forall (named key) (cm_ranges m) ->
  (forall p, p ∈ retired -> p ∈ nr_file_path <$> foreign_ranges m) ->
  named key r -> good r -> r ∈ cm_ranges m -> r ∈ cm_ranges (drop_retired retired m).
Proof.
  intros Het Hnm Hret Hn Hg Hr. apply list_elem_of_In, filter_In. split; [by apply list_elem_of_In |].
  rewrite bool_decide_false; [done |]. intros (f & E & Hf)%Hret%list_elem_of_fmap.
  by apply (foreign_other_file key m r f).
Qed.

Lemma drop_retired_unshadowed env key b m st :
  om_etag (cm_object_metadata m) = etag -> shadows_removable env m ->
  Forall unshadowed (cm_ranges (drop_retired (retire_foreign env key b (foreign_ranges m) st).2 m)).
Proof.
  intros Het Hsh. apply Forall_forall. intros x Hx Hs He. apply list_elem_of_In, filter_In in Hx as [Hx Hk].
  destruct (range_file_belongs_to x (object_version_id etag)) eqn:Hb; [done |]. exfalso.
  assert (x ∈ foreign_ranges m) as Hf by (apply list_elem_of_In, filter_In; split; [done |]; by rewrite Het, Hb).
  rewrite bool_decide_true in Hk; [done |]. by apply retire_retired, Hsh.
Qed.

Lemma consolidate_valid_loads env key all valid stale st m r :
  get_sharded_path "metadata" key ".meta" = Ok (get_new_metadata_file_path key) ->
  metadata_files st !! get_new_metadata_file_path key = Some (MetaParsed m) -> cm_cache_key m = key ->
  om_etag (cm_object_metadata m) = etag -> Forall (named key) (cm_ranges m) ->
  (forall x, x ∈ valid -> is_publication (je_operation x) = true -> named key (je_range_spec x)) ->
  (forall x, x ∈ valid -> is_publication (je_operation x) = true -> unremoved valid (je_range_spec x)) ->
  Forall (unremoved valid) (cm_ranges m) -> shadows_removable env m -> named key r -> good r ->
  r ∈ cm_ranges m \/
    (exists x, x ∈ valid /\ je_operation x = Disk.Add /\ je_range_spec x = r /\ matches_object_version x etag = true) ->
  let '(st', res) := consolidate_valid env key all valid stale st in
  range_files st' !! nr_file_path r = range_files st !! nr_file_path r /\
  (sweeps (fun _ => True) st st' /\ handled res = [] \/ lists_good key m st').
Proof.
  intros Hpath Hm Hk Het Hnm Hnv Hrv Hrm Hsh Hn Hg Hr. unfold consolidate_valid, load_or_create_metadata_with_journal_entries.
  rewrite Hpath. cbn [mbind outcome_bind]. rewrite Hm, Het. 
  set (matching := List.filter (fun x => matches_object_version x etag) valid). set (retained := _ ++ _).
  assert (Hmat : forall x, x ∈ matching <-> x ∈ valid /\ matches_object_version x etag = true)
    by (intros x; unfold matching; rewrite !list_elem_of_In, filter_In; done).
  assert (Hret : nr_file_path r ∈ retained).
  { apply elem_of_app. destruct Hr as [Hr | (x & Hx & _ & <- & Hx')]; [left | right].
    - apply list_elem_of_fmap. eauto.
    - apply (list_elem_of_fmap_2 (fun y => nr_file_path (je_range_spec y))). by apply Hmat. }
  pose proof (cleanup_sweeps env key etag retained [] [] valid st) as Hc.
  destruct (cleanup_rejected env key etag retained [] [] valid st) as [st1 res1]. cbn [fst] in Hc.
  assert (Hf1 : range_files st1 !! nr_file_path r = range_files st !! nr_file_path r)
    by (destruct (sw_files _ _ _ Hc (nr_file_path r)) as [? | [_ []]]; done).
  assert (Hc1 : sweeps (fun _ => True) st st1) by (by eapply sweeps_weaken; [| exact Hc]).
  destruct res1 as [failed | |]; [| by split; [| left] ..].
  set (b := om_is_write_cached (cm_object_metadata m)).
  pose proof (retire_sweeps env key b (foreign_ranges m) st1) as Hs2.
  pose proof (fun p => retired_listed env key b (foreign_ranges m) st1 p) as Hl2.
  pose proof (drop_retired_unshadowed env key b m st1 Het Hsh) as Hu2.
  destruct (retire_foreign env key b (foreign_ranges m) st1) as [st2 retired]. cbn [fst snd] in *.
  assert (Hf2 : range_files st2 !! nr_file_path r = range_files st !! nr_file_path r).
  { rewrite <- Hf1. destruct (sw_files _ _ _ Hs2 (nr_file_path r)) as [? | [_ Hp]]; [done | exfalso].
    apply list_elem_of_fmap in Hp as (f & E & Hf). by apply (foreign_other_file key m r f). }
  assert (Hc2 : sweeps (fun _ => True) st st2) by (etrans; [exact Hc1 |]; by eapply sweeps_weaken; [| exact Hs2]).
  set (m1 := drop_retired retired m).
  assert (Hsub : forall P, Forall P (cm_ranges m) -> Forall P (cm_ranges m1)).
  { intros P HP. rewrite Forall_forall in HP. apply Forall_forall. intros x Hx.
    apply list_elem_of_In, filter_In in Hx as [Hx _]. by apply HP, list_elem_of_In. }
  assert (Hwk : forall x, unremoved valid x -> unremoved matching x)
    by (intros x Hx E1 E2 y Hy; apply Hx; try done; by apply Hmat).
  set (a := apply_journal_entries env (resolve_conflicts matching m1) matching).
  destruct (apply_entries_keep env (resolve_conflicts matching m1) matching) as [Hid Hall]. fold a in Hid, Hall.
  change (identity (resolve_conflicts matching m1)) with (identity m) in Hid.
  assert (Hgood : Exists good (cm_ranges (ap_metadata a))).
  { apply consolidated_good.
    - intros x Hx. by apply Hmat.
    - intros x Hx Hp. apply Hwk, Hrv; [by apply Hmat | done].
    - done.
    - apply Hsub. eapply Forall_impl; [exact Hrm | exact Hwk].
    - destruct Hr as [Hr | (x & Hx & Ho & <- & Hx')]; [left | right].
      + apply Exists_exists. exists r. split; [| done]. by apply (drop_retired_listed key).
      + exists x. split_and!; [by apply Hmat | done | apply Hg..]. }
  assert (Hnamed : Forall (named key) (cm_ranges (ap_metadata a))).
  { apply Hall; [apply _ | intros x Hx Hp; apply Hnv; [by apply Hmat | done] |].
    apply (resolve_ind (Forall (named key))); [| by apply Hsub].
    intros x rs Hx Hp. apply resolve_one_Forall, Hnv; [by apply Hmat | done]. }
  assert (cm_cache_key (ap_metadata a) = key) as Hka by (rewrite <- Hk; exact (f_equal (fun i => i.1.1.1) Hid)).
  unfold cons_write_metadata. rewrite Hka, Hpath.
  destruct (ce_write_meta env); [by split; [| left] |]. split; [done |]. right. exists (ap_metadata a).
  split_and!; [by apply lookup_insert_eq | done..].
Qed.

(** What must not happen to the loaded range: its entries are read, no removal is
    recorded for it, it is not marked evicted, and no file of another version at its
    extent resists removal. *)
Record undisturbed (env : cons_env) (key : string) (files : list string) (m : NewCacheMetadata) (st : Storage) : Prop := {
  ud_read x : x ∈ journal_entries st -> je_cache_key x = key -> x ∈ entries_read env key files st;
  ud_listed : Forall (unremoved (entries_read env key files st)) (cm_ranges m);
  ud_published x : x ∈ entries_read env key files st -> is_publication (je_operation x) = true ->
    unremoved (entries_read env key files st) (je_range_spec x);
  ud_marked : ~ marked key st;
  ud_shadows : shadows_removable env m;
}.

Lemma read_Ok_file key st r data :
  Disk.read_range_data (disk_of st) r key etag = Ok data -> exists f, range_files st !! nr_file_path r = Some f.
Proof.
  unfold Disk.read_range_data, Disk.servable_range_path. destruct (negb _); [done |]. destruct (negb _); [done |].
  cbn. destruct (range_files st !! _); [eauto | done].
Qed.

Lemma consolidate_object_loads `{!PathCodecSpec} env key bucket object_key files st m r data :
  parse_cache_key key = Ok (bucket, object_key) -> journals_all entry_ok st ->
  metadata_files st !! get_new_metadata_file_path key = Some (MetaParsed m) -> cm_cache_key m = key ->
  om_etag (cm_object_metadata m) = etag -> Forall (named key) (cm_ranges m) ->
  undisturbed env key files m st -> named key r -> good r -> Disk.read_range_data (disk_of st) r key etag = Ok data ->
  r ∈ cm_ranges m \/
    (exists x, x ∈ journal_entries st /\ je_cache_key x = key /\ je_operation x = Disk.Add /\ je_range_spec x = r /\
       matches_object_version x etag = true) ->
  let '(st', res) := consolidate_object_with_files env key files st in
  range_files st' !! nr_file_path r = range_files st !! nr_file_path r /\
  (sweeps (fun _ => True) st st' /\ handled res = [] \/ lists_good key m st').
Proof.
  intros Hkey Hj Hm Hk Het Hnm [Uread Ulist Upub Umark Ush] Hn Hg Hread Hr.
  assert (Hpath : get_sharded_path "metadata" key ".meta" = Ok (get_new_metadata_file_path key))
    by (unfold get_new_metadata_file_path, get_sharded_path; by rewrite Hkey).
  unfold consolidate_object_with_files. destruct (negb _); [by split; [| left] |].
  pose proof (entries_read_elem env key files st) as Hel.
  set (all := entries_read env key files st) in *.
  assert (Hnil : lists_good key m st \/ exists x, x ∈ all /\ je_cache_key x = key /\ je_operation x = Disk.Add /\
    je_range_spec x = r /\ matches_object_version x etag = true).
  { destruct Hr as [Hr | (x & Hx & Hkx & Hx')]; [left | right; exists x; by split; [apply Uread |]].
    exists m. split_and!; [done | done | done |]. apply Exists_exists. eauto. }
  destruct all as [| e0 es] eqn:Eall; [by split; [| left] |]. rewrite <- Eall in *.
  pose proof (validate_sweeps (fun _ => False) env all st) as Hv.
  pose proof (fun x => validate_elem env all st x) as Hve.
  pose proof (validate_keeps env all st) as Hvk.
  destruct (validate_journal_entries_with_staleness env all st) as [st1 [valid stale]]. cbn [fst snd] in Hv, Hvk.
  assert (Hf1 : range_files st1 !! nr_file_path r = range_files st !! nr_file_path r)
    by (destruct (sw_files _ _ _ Hv (nr_file_path r)) as [? | [_ []]]; done).
  destruct (read_Ok_file key st r data Hread) as [f Hf].
  assert (Hvalid : r ∈ cm_ranges m \/ exists x, x ∈ valid /\ je_operation x = Disk.Add /\ je_range_spec x = r /\
    matches_object_version x etag = true).
  { destruct Hr as [Hr | (x & Hx & Hkx & Ho & <- & Hx')]; [by left | right; exists x]. split_and!; try done.
    apply (Hvk x f); rewrite ?Hkx; try done; [by apply Uread |].
    destruct Hn as (Hu1 & Hu2 & _ & _ & Hn). destruct (Hn etag (proj2 (proj2 Hg))) as [Hp _].
    unfold get_range_file_path. rewrite Hkey, Hp. cbn [mbind outcome_bind].
    by rewrite (range_path_safe key bucket object_key). }
  destruct valid as [| v vs] eqn:Evalid.
  { split; [done |]. right. destruct Hvalid as [Hr1 | (x & Hx & _)]; [| by apply elem_of_nil in Hx].
    exists m. rewrite (sw_meta _ _ _ Hv). split_and!; [done | done | done |]. apply Exists_exists. eauto. }
  rewrite <- Evalid in *.
  assert (Hval : forall x, x ∈ valid -> x ∈ all) by (intros x; by apply (Hve x)).
  assert (Hwk : forall x, unremoved all x -> unremoved valid x) by (intros x Hx E1 E2 y Hy; apply Hx; auto).
  pose proof (consolidate_valid_loads env key all valid stale st1 m r) as Hc.
  destruct (consolidate_valid env key all valid stale st1) as [st2 res].
  rewrite (sw_meta _ _ _ Hv), Hf1 in Hc. destruct Hc as [Hc1 Hc2]; try done.
  - intros x Hx Hp. destruct (Hel x (Hval x Hx)) as (<- & name & ls & Hl & Hin). by apply (Hj name ls x Hl Hin).
  - intros x Hx Hp. auto.
  - eapply Forall_impl; [exact Ulist | exact Hwk].
  - split; [done |]. destruct Hc2 as [[Hs Hh] | Hc2]; [left | by right]. split; [| done].
    etrans; [| exact Hs]. by eapply sweeps_weaken; [| exact Hv].
Qed.

End Loads.

(** C13: consolidation loses nothing that could be loaded.  For an object whose metadata
    can be read, is not an expired staged entry and lists its own files, a range of the
    current version that loads, from the metadata or from a journal, loads with the same
    bytes after its key has been consolidated and the handled entries have been
    dropped from the journals, whether the consolidation got its lock, failed on
    the way or wrote the metadata; provided the key's entries are read, none of
    them records a removal of the range, the range is not marked evicted, and no
    file of another version at its extent resists removal. *)
Theorem consolidation_keeps_loads `{HashIter} `{PathCodecSpec} `{FrameCodec} env clean_env key bucket object_key files
    seen st m now rng data :
  parse_cache_key key = Ok (bucket, object_key) -> journals_all entry_ok st ->
  metadata_files st !! get_new_metadata_file_path key = Some (MetaParsed m) -> cm_cache_key m = key ->
  Forall (named key) (cm_ranges m) -> Disk.get_metadata now (disk_of st) key = Some m ->
  r_start rng <= r_end rng -> undisturbed (r_start rng) (r_end rng) env key files m st ->
  Disk.load_range_data_from_new_storage now (disk_of st) key rng = Ok data ->
  let '(st', res) := consolidate_object_with_files env key files st in
  Disk.load_range_data_from_new_storage now
    (disk_of (cleanup_consolidated_entries clean_env (handled res) seen st')) key rng = Ok data.
Proof.
  intros Hkey Hj Hm Hk Hnm Hgm Hle Hun Hload.
  set (s := r_start rng) in *. set (e := r_end rng) in *. set (etag := r_etag rng) in *.
  destruct (load_found s e etag now st key m rng data) as (Het & r & Hg & Hfind & Hread & Hr); try done.
  assert (Hn : named key r).
  { destruct Hr as [Hr | (x & Hx & <- & Ho & <- & _)]; [by rewrite Forall_forall in Hnm; apply Hnm |].
    apply journal_entries_elem in Hx as (name & ls & Hl & Hx). apply (Hj name ls x Hl Hx). by rewrite Ho. }
  pose proof (consolidate_object_loads s e etag env key bucket object_key files st m r data) as Hc.
  destruct (consolidate_object_with_files env key files st) as [st' res].
  destruct Hc as [Hf Hc]; try done.
  destruct (cleanup_consolidated_fields clean_env (handled res) seen st') as [Em Ef].
  destruct Hc as [[Hs Hh] | (m' & Hm' & Hid & Hnm' & Hex)].
  - rewrite Hh. unfold Disk.load_range_data_from_new_storage. cbn [cleanup_consolidated_entries].
    rewrite (find_swept _ now st st' key rng Hs), Hfind. cbn [mbind outcome_bind]. fold etag. rewrite <- Hread.
    by apply (read_alike s e etag key).
  - destruct (load_listed s e etag now (cleanup_consolidated_entries clean_env (handled res) seen st') key m' rng)
      as (r' & Hr' & Hg' & ->); try done.
    + apply (get_metadata_identity now st _ key m m'); try done. by rewrite Em.
    + rewrite <- Het. exact (f_equal (fun i => i.1.1.2) Hid).
    + rewrite <- Hread. rewrite Forall_forall in Hnm'. apply (read_alike s e etag key); try done; [by apply Hnm' |].
      by rewrite Ef.
Qed.

(** ** Graduation *)

Section Graduation.
Context `{HashIter} `{PathCodec}.

Definition is_graduation (e : JournalEntry) : bool :=
  match je_operation e with Disk.Graduation => true | _ => false end.

Definition accounted (m : NewCacheMetadata) : bool := om_graduation_accounted (cm_object_metadata m).

(** What the first graduation of a batch is charged. *)
Definition first_charge (es : list JournalEntry) : Z :=
  match List.find is_graduation es with
  | Some e => saturating_add 0 (nr_compressed_size (je_range_spec e))
  | None => 0
  end.

(** Consolidations of one key, one after the other as its lock orders them: the
    files each has retired and the entries of the version it applies. *)
Fixpoint consolidations (env : cons_env) (m : NewCacheMetadata) (batches : list (list string * list JournalEntry))
    : NewCacheMetadata * Z :=
  match batches with
  | [] => (m, 0)
  | (retired, es) :: batches =>
      let a := apply_journal_entries env (resolve_conflicts es (drop_retired retired m)) es in
      let '(m, charged) := consolidations env (ap_metadata a) batches in
      (m, ap_graduated a + charged)
  end.

Lemma apply_graduation env es a :
  let a' := foldl (fun a e => apply_entry env e a) a es in
  accounted (ap_metadata a') = accounted (ap_metadata a) || existsb is_graduation es /\
  ap_graduated a' = if accounted (ap_metadata a) then ap_graduated a else
    match List.find is_graduation es with
    | Some e => saturating_add (ap_graduated a) (nr_compressed_size (je_range_spec e))
    | None => ap_graduated a
    end.
Proof.
  revert a. induction es as [| e es IH]; intros a; cbn.
  - rewrite orb_false_r. by destruct (accounted _).
  - destruct (IH (apply_entry env e a)) as [-> ->]. clear IH.
    assert (He : accounted (ap_metadata (apply_entry env e a)) = accounted (ap_metadata a) || is_graduation e /\
      ap_graduated (apply_entry env e a) = if is_graduation e && negb (accounted (ap_metadata a))
        then saturating_add (ap_graduated a) (nr_compressed_size (je_range_spec e)) else ap_graduated a).
    { unfold apply_entry, is_graduation, accounted. destruct (je_operation e); rewrite ?orb_false_r; cbn [andb].
      - by destruct (existsb _ _).
      - by destruct (update_extent _ _ _).
      - by destruct (negb _).
      - by destruct (je_new_ttl_secs e).
      - destruct (je_access_increment e); [| done]. by destruct (update_extent _ _ _).
      - destruct (om_graduation_accounted (cm_object_metadata (ap_metadata a))) eqn:Eg; [by rewrite Eg | done]. }
    destruct He as [-> ->]. destruct (accounted (ap_metadata a)), (is_graduation e); cbn; try done; by split.
Qed.

Lemma accounted_guess m : accounted (guess_content_length m) = accounted m.
Proof. unfold guess_content_length. destruct (cm_ranges m) as [| r []]; try done. by destruct (_ && _). Qed.

End Graduation.

(** A graduation is charged once.  However many proxies append a graduation for
    a key, and however the entries fall into consolidations, what is taken off the
    write cache in all is the size the first of them records, and nothing when the
    metadata's token was already set. *)
Theorem graduation_charged_once `{HashIter} `{PathCodec} env m batches :
  let '(m', charged) := consolidations env m batches in
  let entries := concat (batches.*2) in
  charged = (if accounted m then 0 else first_charge entries) /\
  accounted m' = accounted m || existsb is_graduation entries.
Proof.
  revert m. induction batches as [| [retired es] batches IH]; intros m; cbn.
  { rewrite orb_false_r. by destruct (accounted m). }
  set (m1 := resolve_conflicts es (drop_retired retired m)).
  destruct (apply_graduation env es (mkApplied m1 0 0)) as [Ht Hc]. cbn [ap_metadata ap_graduated] in Ht, Hc.
  change (accounted m1) with (accounted m) in Ht, Hc.
  match goal with |- context [consolidations env ?m2 batches] => specialize (IH m2); set (m2' := m2) in * end.
  assert (accounted m2' = accounted m || existsb is_graduation es) as Hm2 by (unfold m2'; by rewrite accounted_guess).
  destruct (consolidations env m2' batches) as [m' charged]. destruct IH as [IH1 IH2].
  rewrite IH1, IH2, Hm2, Hc. unfold first_charge. rewrite existsb_app. clear.
  destruct (accounted m); cbn; [done |].
  assert (E : existsb is_graduation es = bool_decide (is_Some (List.find is_graduation es)) /\
    List.find is_graduation (es ++ concat batches.*2) =
      match List.find is_graduation es with Some e => Some e | None => List.find is_graduation (concat batches.*2) end).
  { induction es as [| e es IH]; cbn; [done |]. by destruct (is_graduation e). }
  destruct E as [-> ->]. destruct (List.find is_graduation es); cbn; (split; [lia | done]).
Qed.

(** ** Divergences *)

(** A range published at the very instant of the removal is stripped. *)
Lemma removal_at_publication_strips e r :
  same_extent r (je_range_spec e) = true ->
  (split_file_name (nr_file_path r)).2 = (split_file_name (nr_file_path (je_range_spec e))).2 ->
  nr_created_at r = je_timestamp e -> removed_by e r = true.
Proof.
  intros Hs Hf Ht. unfold removed_by. rewrite Hs, bool_decide_true, Ht by done. by rewrite Z.ltb_irrefl.
Qed.

(** Lines that do not parse are gone once the file is rewritten. *)
Lemma cleanup_drops_garbage fin name ls ls' :
  (exists e, Parsed e ∈ ls /\ was_consolidated fin e = true) -> cleaned_file fin name ls = Some ls' ->
  forall text, Garbage text ∉ ls'.
Proof.
  intros (e & He & Hw). unfold cleaned_file. destruct (Z.eqb_spec
    (zlen (List.filter (fun e => negb (was_consolidated fin e)) (parsed_lines ls))) (zlen (parsed_lines ls))) as [E | _].
  - exfalso. apply parsed_lines_elem in He. revert E He. generalize (parsed_lines ls). intros es.
    assert (Hle : forall l : list JournalEntry, zlen (List.filter (fun e => negb (was_consolidated fin e)) l) <= zlen l)
      by (unfold zlen; intros l; pose proof (List.filter_length_le (fun e => negb (was_consolidated fin e)) l); lia).
    induction es as [| x es IH]; [intros _ Hin; by apply elem_of_nil in Hin |].
    intros E [<- | Hin]%elem_of_cons; cbn [List.filter] in E.
    + rewrite Hw in E. cbn [negb] in E. specialize (Hle es). rewrite zlen_cons in E. lia.
    + specialize (Hle es). destruct (negb _); rewrite ?zlen_cons in E; [apply IH; [lia | done] | lia].
  - destruct (List.filter _ _) as [| x xs].
    + destruct (contains_char ":" name); [done |]. intros [= <-] text Hin. by apply elem_of_nil in Hin.
    + intros [= <-] text Hin. change (Garbage text ∈ Parsed <$> (x :: xs)) in Hin.
      by apply list_elem_of_fmap in Hin as (y & Hy & _).
Qed.

(** The primary journal is named for an instance, and an instance id has a colon:
    a primary journal is deleted like a fresh one, never truncated. *)
Lemma primary_journal_deleted fin host pid ls :
  parsed_lines ls <> [] -> Forall (fun e => was_consolidated fin e = true) (parsed_lines ls) ->
  cleaned_file fin (primary_journal (host +:+ ":" +:+ pid)) ls = None.
Proof.
  intros Hne Hall. unfold cleaned_file.
  assert (List.filter (fun e => negb (was_consolidated fin e)) (parsed_lines ls) = []) as ->.
  { clear Hne. induction Hall as [| e es He Hall IH]; cbn; [done |]. by rewrite He. }
  rewrite zlen_nil. destruct (parsed_lines ls) as [| e es]; [done |]. rewrite zlen_cons.
  destruct (Z.eqb_spec 0 (zlen es + 1)) as [E | _]; [pose proof (zlen_nonneg es); lia |].
  unfold contains_char, primary_journal. rewrite !all_chars_app. cbn. by rewrite andb_false_r.
Qed.

#[local] Existing Instance map_order.
#[local] Existing Instance sample_codec.
#[local] Existing Instance sample_codec_spec.
#[local] Existing Instance Comp.stored_only.
#[local] Existing Instance Comp.stored_reader.
#[local] Existing Instance Comp.stored_reader_laws.
#[local] Existing Instance no_dates.
#[local] Existing Instance sample_layout.

Definition sample_cons (removable : string -> bool) : cons_env :=
  mkConsEnv (fun n => 2000 + Z.of_nat n) 300000000000 true (fun _ => true) removable None.

Definition everything : string -> bool := fun _ => true.

Definition consolidated (env : cons_env) (st : Storage) : Storage :=
  let '(st, res) := consolidate_object_with_files env "b/k/x" [] st in
  cleanup_consolidated_entries env (handled res) [] st.

Definition sample_range : Range := stored_range 0 5 sample_om.

Definition load_sample (st : Storage) : Result bytes :=
  Disk.load_range_data_from_new_storage 5 (disk_of st) "b/k/x" sample_range.

(** Metadata that lists a file from before versioned names at the stored extent. *)
Definition legacy_range : NewRangeSpec := NewRangeSpec_new 5000 0 5 (get_new_range_file_path "b/k/x" 0 5) Lz4 6 6.

Definition with_legacy (st : Storage) : Storage :=
  set_range_files (<[nr_file_path legacy_range:=Disk.Readable []]> (range_files st))
    (set_metadata_files
       ((fun f => match f with MetaParsed m => MetaParsed (set_ranges [legacy_range] m) | f => f end) <$> metadata_files st)
       st).

(** Where that file cannot be removed it shadows the stored range: the entry is
    dropped as handled, and the range no longer loads. *)
Lemma shadowed_entry_dropped :
  load_sample (with_legacy sample_stored) = Ok Disk.sample_bytes /\
  load_sample (consolidated (sample_cons everything) (with_legacy sample_stored)) = Ok Disk.sample_bytes /\
  (exists e, load_sample (consolidated (sample_cons (fun p => is_journal_name p)) (with_legacy sample_stored)) = Err e).
Proof. split_and!; [vm_compute; reflexivity.. |]. eexists. vm_compute. reflexivity. Qed.

(** A stale mark of an eviction takes the entry of the republished range with it. *)
Lemma evicted_mark_drops_republished :
  let st := mark_ranges_evicted [("b/k/x", 0, 5)] sample_stored in
  load_sample st = Ok Disk.sample_bytes /\
  exists e, load_sample (consolidated (sample_cons everything) st) = Err e.
Proof. split; [vm_compute; reflexivity |]. eexists. vm_compute. reflexivity. Qed.

(** Metadata made from an entry keeps the headers of the response it came with. *)
Lemma created_metadata_keeps_response_headers env key p e st om :
  get_sharded_path "metadata" key ".meta" = Ok p -> metadata_files st !! p = None ->
  je_object_metadata e = Some om -> je_object_ttl_secs e = None ->
  add_ttl (ce_clock env 1) 0 = Ok (ce_clock env 1) ->
  exists m, load_or_create_metadata_with_journal_entries env key [e] st = Ok m /\
    om_response_headers (cm_object_metadata m) = om_response_headers om.
Proof.
  intros Hp Hm Ho Ht Ha. unfold load_or_create_metadata_with_journal_entries. rewrite Hp. cbn [mbind outcome_bind]. rewrite Hm.
  assert (object_entry [e] = Some e) as ->.
  { unfold object_entry. cbn [List.filter List.find]. rewrite Ho. rewrite bool_decide_true by eauto.
    by destruct (_ && _). }
  cbn [mbind option_bind]. rewrite Ho, Ht. cbn [default]. rewrite Z.mul_0_l, Ha. cbn [mbind outcome_bind]. eauto.
Qed.

(** ** A consolidation *)

Definition sample_metadata : NewCacheMetadata :=
  match metadata_files sample_stored !! get_new_metadata_file_path "b/k/x" with
  | Some (MetaParsed m) => m
  | _ => new_metadata "" sample_om 0 0
  end.

Lemma consolidation_keeps_loads_witness :
  load_sample (consolidated (sample_cons everything) sample_stored) = Ok Disk.sample_bytes.
Proof.
  pose proof (consolidation_keeps_loads (sample_cons everything) (sample_cons everything) "b/k/x" "b" "k/x" [] []
    sample_stored sample_metadata 5 sample_range Disk.sample_bytes) as Hc.
  unfold consolidated. destruct (consolidate_object_with_files _ _ _ _) as [st' res]. apply Hc; clear Hc.
  - reflexivity.
  - apply (so_journals sample_object).
    apply (store_range_ok sample_object sample_env "b/k/x" 0 5 Disk.sample_bytes sample_om 60 true empty_storage);
      [exact empty_storage_ok | unfold is_u64, U64_MAX; lia .. | reflexivity].
  - vm_compute. reflexivity.
  - vm_compute. reflexivity.
  - assert (cm_ranges sample_metadata = []) as -> by (vm_compute; reflexivity). constructor.
  - vm_compute. reflexivity.
  - cbn. lia.
  - assert (Hnr : forallb (fun x => negb (is_removal (je_operation x)))
      (entries_read (sample_cons everything) "b/k/x" [] sample_stored) = true) by (vm_compute; reflexivity).
    assert (Hun : forall r, unremoved 0 5 (entries_read (sample_cons everything) "b/k/x" [] sample_stored) r).
    { intros r _ _ x Hx Ho. apply list_elem_of_In in Hx. rewrite forallb_forall in Hnr. specialize (Hnr x Hx).
      rewrite Ho in Hnr. discriminate Hnr. }
    split.
    + intros x Hx _. assert (entries_read (sample_cons everything) "b/k/x" [] sample_stored = journal_entries sample_stored)
        as -> by (vm_compute; reflexivity). exact Hx.
    + apply Forall_forall. intros r _. apply Hun.
    + intros x _ _. apply Hun.
    + intros (rs & Hl & _). vm_compute in Hl. discriminate.
    + intros f Hf. assert (foreign_ranges sample_metadata = []) as E by (vm_compute; reflexivity).
      rewrite E in Hf. apply elem_of_nil in Hf. destruct Hf.
  - vm_compute. reflexivity.
Defined.

End Cons.
