(* ===== verification/Eviction.v ===== *)
(** * Disk eviction ([cache.rs], [disk_cache.rs])

    Choosing the ranges to evict, removing them object by object, and accounting for
    what left the disk: the candidates of every metadata file, the two orders they are
    evicted in, the grouping by object, the batch deletion with its per-file outcomes,
    and the pass that runs it all under the global eviction lock.  What the file
    system, the locks and the clock answer is the environment of a pass; objects, and
    the files of an object, are removed concurrently, so the order in which results
    arrive is part of it too. *)

From S2P Require Import Prelude CacheTypes Ranges RangeMerge Maps MetadataCache DiskPaths DiskRanges Frames.
From S2P Require Import CacheTier SizeAccounting Storage DiskStore Consolidate RustStr Floats.
From stdpp Require Import gmap strings sorting.

#[local] Open Scope Z_scope.

Module Evict.
Import Store DStore.

(** ** Candidates *)

Record RangeEvictionCandidate := mkCandidate {
  ec_cache_key : string;
  ec_range_start : Z;
  ec_range_end : Z;
  ec_last_accessed : Z;
  ec_size : Z;
  ec_compressed_size : Z;
  ec_access_count : Z;
  ec_bin_file_path : string;
  ec_meta_file_path : string;
  ec_is_write_cached : bool;
  ec_staged : option bool;
}.

Inductive CacheEvictionAlgorithm := LRU | TinyLFU.

(** What a pass meets. *)
Record evict_env := mkEvictEnv {
  ee_algorithm : CacheEvictionAlgorithm;
  ee_target_percent : Z;
  ee_cache_dir : string;
  ee_instance : string;
  ee_consolidator : bool;
  ee_now : NewRangeSpec -> Z;
  ee_sort_now : Z;
  ee_stat_fails : string -> bool;
  ee_len_of : string -> Z;
  ee_outside : string -> option Z;
  ee_removable : string -> bool;
  ee_file_order : list NewRangeSpec -> list NewRangeSpec;
  ee_object_order : list (string * list RangeEvictionCandidate) -> list (string * list RangeEvictionCandidate);
  ee_fence : string -> bool;
  ee_fence_later : string -> bool;
  ee_locked : string -> bool;
  ee_cutoff : string -> Z;
  ee_readable : string -> bool;
  ee_write_lock : string -> Result bool;
  ee_meta_lock : string -> option ProxyError;
  ee_remove_meta : string -> bool;
  ee_write_meta : string -> option ProxyError;
  ee_journal : string -> journal_io;
  ee_clock : nat -> Z;
}.

Definition admission_window : Z := 60 * NANOS_PER_SEC.

Definition within_admission (now last_accessed : Z) : bool :=
  (last_accessed <=? now) && (now - last_accessed <? admission_window).

(** [fs::metadata] of a range file: its length, where it is a file of the cache that
    can be looked at. *)
Definition file_len (env : evict_env) (files : gmap string Disk.file) (p : string) : option Z :=
  if ee_stat_fails env p then None else
  match files !! p with
  | Some (Disk.Readable data) => Some (zlen data)
  | Some (Disk.Unreadable _) => Some (ee_len_of env p)
  | None => if is_safe_relative_file_path p then None else ee_outside env p
  end.

Definition bin_path (env : evict_env) (file_path : string) : string :=
  path_join (path_join (ee_cache_dir env) "ranges") file_path.

Definition candidate_of (env : evict_env) (files : gmap string Disk.file) (meta_path : string) (m : NewCacheMetadata)
    (r : NewRangeSpec) : RangeEvictionCandidate :=
  mkCandidate (cm_cache_key m) (nr_start r) (nr_end r) (nr_last_accessed r)
    (default (nr_compressed_size r) (file_len env files (nr_file_path r))) (nr_compressed_size r) (nr_access_count r)
    (bin_path env (nr_file_path r)) meta_path (om_is_write_cached (cm_object_metadata m)) (nr_staged r).

Definition collect_candidates_from_metadata_file (env : evict_env) (files : gmap string Disk.file)
    (meta_path : string) (f : meta_file) : list RangeEvictionCandidate :=
  match f with
  | MetaParsed m =>
      candidate_of env files meta_path m <$>
        base.filter (fun r => within_admission (ee_now env r) (nr_last_accessed r) = false) (cm_ranges m)
  | _ => []
  end.

Section Evict.
Context `{HashIter} `{PathCodec}.

Definition collect_range_candidates_for_eviction (env : evict_env) (st : Storage) : list RangeEvictionCandidate :=
  flat_map (fun pf => if extension_is "meta" pf.1
                      then collect_candidates_from_metadata_file env (range_files st) pf.1 pf.2 else [])
    (hash_iter (metadata_files st)).

(** ** The order of eviction *)

Definition idle_secs (now last_accessed : Z) : Z := Z.max (now - last_accessed) 0 / NANOS_PER_SEC.

Definition lfu_key (now : Z) (c : RangeEvictionCandidate) : Z * Z :=
  (decayed_frequency (ec_access_count c) (idle_secs now (ec_last_accessed c)), ec_last_accessed c).

Definition lex_le (a b : Z * Z) : bool := (a.1 <? b.1) || ((a.1 =? b.1) && (a.2 <=? b.2)).

Definition sort_range_candidates_for_tinylfu (now : Z) (l : list RangeEvictionCandidate) :=
  sort_by (fun c d => lex_le (lfu_key now c) (lfu_key now d)) l.

Definition sort_range_candidates (algorithm : CacheEvictionAlgorithm) (now : Z) (l : list RangeEvictionCandidate)
    : list RangeEvictionCandidate :=
  match algorithm with
  | LRU => sort_by_key ec_last_accessed l
  | TinyLFU => sort_range_candidates_for_tinylfu now l
  end.

(** ** Grouping by object *)

Fixpoint group_loop (target accumulated : Z) (grouped : gmap string (list RangeEvictionCandidate)) (order : list string)
    (l : list RangeEvictionCandidate) : gmap string (list RangeEvictionCandidate) * list string :=
  match l with
  | [] => (grouped, order)
  | c :: l =>
      if target <=? accumulated then (grouped, order) else
      let key := ec_cache_key c in
      group_loop target (u64_add accumulated (ec_size c))
        (<[key:=default [] (grouped !! key) ++ [c]]> grouped)
        (if decide (is_Some (grouped !! key)) then order else order ++ [key]) l
  end.

Fixpoint take_groups (grouped : gmap string (list RangeEvictionCandidate)) (order : list string)
    : list (string * list RangeEvictionCandidate) :=
  match order with
  | [] => []
  | key :: order =>
      match grouped !! key with
      | Some ranges => (key, ranges) :: take_groups (base.delete key grouped) order
      | None => take_groups grouped order
      end
  end.

Definition group_candidates_by_object (l : list RangeEvictionCandidate) (target_bytes : Z)
    : list (string * list RangeEvictionCandidate) :=
  let '(grouped, order) := group_loop target_bytes 0 ∅ [] l in take_groups grouped order.

(** ** Removing the ranges of an object *)

Inductive RangeUnlinkOutcome := Unlinked | AlreadyAbsent | Failed.

Record BatchRangeDeletion := mkDeletion {
  bd_bytes_freed : Z;
  bd_all_ranges_evicted : bool;
  bd_deleted_paths : list string;
  bd_unlinked_extents : list (Z * Z);
  bd_unlinked_ranges : list NewRangeSpec;
  bd_retained_extents : list (Z * Z);
}.

Definition BatchRangeDeletion_default : BatchRangeDeletion := mkDeletion 0 false [] [] [] [].

Definition extent (r : NewRangeSpec) : Z * Z := (nr_start r, nr_end r).

(** The range as it left: its size on disk and its tier. *)
Definition removed_range (r : NewRangeSpec) (file_size : Z) (object_is_write_cached : bool) : NewRangeSpec :=
  mkNewRangeSpec (nr_start r) (nr_end r) (nr_file_path r) (nr_compression_algorithm r) file_size
    (nr_uncompressed_size r) (nr_created_at r) (nr_last_accessed r) (nr_access_count r)
    (Some (is_staged_range_spec r object_is_write_cached)).

Definition unlink_range (env : evict_env) (wc : bool) (files : gmap string Disk.file) (r : NewRangeSpec)
    : gmap string Disk.file * (NewRangeSpec * RangeUnlinkOutcome) :=
  let p := nr_file_path r in
  let removed := removed_range r (default 0 (file_len env files p)) wc in
  if ee_removable env p then
    match files !! p with
    | Some _ => (base.delete p files, (removed, Unlinked))
    | None => (files, (removed, AlreadyAbsent))
    end
  else (files, (removed, Failed)).

Fixpoint unlink_all (env : evict_env) (wc : bool) (files : gmap string Disk.file) (rs : list NewRangeSpec)
    : gmap string Disk.file * list (NewRangeSpec * RangeUnlinkOutcome) :=
  match rs with
  | [] => (files, [])
  | r :: rs =>
      let '(files, result) := unlink_range env wc files r in
      let '(files, results) := unlink_all env wc files rs in
      (files, result :: results)
  end.

Definition collect_result (env : evict_env) (d : BatchRangeDeletion) (result : NewRangeSpec * RangeUnlinkOutcome)
    : BatchRangeDeletion :=
  let '(r, outcome) := result in
  match outcome with
  | Unlinked =>
      mkDeletion (u64_add (bd_bytes_freed d) (nr_compressed_size r)) (bd_all_ranges_evicted d)
        (bd_deleted_paths d ++ [bin_path env (nr_file_path r)]) (bd_unlinked_extents d ++ [extent r])
        (bd_unlinked_ranges d ++ [r]) (bd_retained_extents d)
  | AlreadyAbsent => d
  | Failed =>
      mkDeletion (bd_bytes_freed d) (bd_all_ranges_evicted d) (bd_deleted_paths d) (bd_unlinked_extents d)
        (bd_unlinked_ranges d) (bd_retained_extents d ++ [extent r])
  end.

(** The extents whose entries go from the metadata. *)
Definition ranges_deleted (results : list (NewRangeSpec * RangeUnlinkOutcome)) : list (Z * Z) :=
  omap (fun ro => match ro.2 with Failed => None | _ => Some (extent ro.1) end) results.

Definition batch_delete_ranges (env : evict_env) (key : string) (ranges_to_delete : list (Z * Z)) (st : Storage)
    : Storage * Result BatchRangeDeletion :=
  match ranges_to_delete with
  | [] => (st, Ok BatchRangeDeletion_default)
  | _ =>
      let path := get_new_metadata_file_path key in
      match metadata_files st !! path with
      | None => (st, Ok BatchRangeDeletion_default)
      | Some f =>
          match ee_meta_lock env key, f with
          | Some e, _ => (st, Err e)
          | None, MetaUnreadable e => (st, Err (CacheError ("Failed to read metadata: " +:+ e)))
          | None, MetaCorrupt => (st, Err (CacheError "Failed to parse metadata"))
          | None, MetaParsed m =>
              let tasks := base.filter (fun r => extent r ∈ ranges_to_delete /\ is_safe_relative_file_path (nr_file_path r) = true)
                             (cm_ranges m) in
              let '(files, results) :=
                unlink_all env (om_is_write_cached (cm_object_metadata m)) (range_files st) (ee_file_order env tasks) in
              let st := set_range_files files st in
              let d := foldl (collect_result env) BatchRangeDeletion_default results in
              let kept := base.filter (fun r => extent r ∉ ranges_deleted results) (cm_ranges m) in
              let all_evicted := bool_decide (kept = []) && bool_decide (bd_retained_extents d = []) in
              if all_evicted then
                if ee_remove_meta env key
                then (set_metadata_files (base.delete path (metadata_files st)) st,
                      Ok (mkDeletion (bd_bytes_freed d) true (bd_deleted_paths d ++ [path]) (bd_unlinked_extents d)
                            (bd_unlinked_ranges d) (bd_retained_extents d)))
                else (st, Ok (mkDeletion (bd_bytes_freed d) true (bd_deleted_paths d) (bd_unlinked_extents d)
                                (bd_unlinked_ranges d) (bd_retained_extents d)))
              else
                match ee_write_meta env key with
                | Some e => (st, Err e)
                | None => (set_metadata_files (<[path:=MetaParsed (set_ranges kept m)]> (metadata_files st)) st, Ok d)
                end
          end
      end
  end.

(** ** The pass *)

(** What eviction works on: the storage, the size state file, the delta files and the
    count of evicted entries. *)
Record evict_state := mkEvictState {
  es_storage : Storage;
  es_size : Size.state_file;
  es_deltas : Size.Dir;
  es_evicted_entries : Z;
}.

Definition on_storage (st : Storage) (es : evict_state) : evict_state :=
  mkEvictState st (es_size es) (es_deltas es) (es_evicted_entries es).

Definition batch_evict_range_files (env : evict_env) (key : string) (ranges : list RangeEvictionCandidate) (es : evict_state)
    : evict_state * Result (Z * list string * list NewRangeSpec) :=
  match ranges with
  | [] => (es, Ok (0, [], []))
  | _ =>
      match ee_write_lock env key with
      | Err e => (es, Err e)
      | Panic => (es, Panic)
      | Ok false => (es, Err (LockError ("Could not acquire lock for batch range eviction: " +:+ key)))
      | Ok true =>
          match batch_delete_ranges env key ((fun c => (ec_range_start c, ec_range_end c)) <$> ranges) (es_storage es) with
          | (st, Ok d) =>
              (mkEvictState st (es_size es) (es_deltas es) (u64_add (es_evicted_entries es) (zlen ranges)),
               Ok (bd_bytes_freed d, bd_deleted_paths d, bd_unlinked_ranges d))
          | (st, Err e) => (on_storage st es, Err e)
          | (st, Panic) => (on_storage st es, Panic)
          end
      end
  end.

(** Another instance reads the object: its lock is held, or a journal has a recent
    access. *)
Definition is_cache_entry_active (env : evict_env) (key : string) (st : Storage) : bool :=
  ee_locked env key ||
  (journals_dir_exists st &&
   existsb (fun kf => is_journal_name kf.1 && ee_readable env kf.1 &&
     existsb (fun e => bool_decide (je_cache_key e = key) && match je_operation e with Disk.AccessUpdate => true | _ => false end &&
                       (ee_cutoff env key <=? je_timestamp e)) (parsed_lines kf.2))
     (hash_iter (journal_files st))).

(** What the removal of one object brought. *)
Record object_result := mkObjectResult {
  or_key : string;
  or_ranges : list RangeEvictionCandidate;
  or_bytes_freed : Z;
  or_deleted_paths : list string;
  or_unlinked : list NewRangeSpec;
}.

Definition evict_object (env : evict_env) (group : string * list RangeEvictionCandidate) (es : evict_state)
    : evict_state * option object_result :=
  let '(key, ranges) := group in
  if negb (ee_fence env key) then (es, None) else
  if is_cache_entry_active env key (es_storage es) then (es, None) else
  match batch_evict_range_files env key ranges es with
  | (es, Ok (freed, paths, unlinked)) => (es, Some (mkObjectResult key ranges freed paths unlinked))
  | (es, _) => (es, None)
  end.

Fixpoint evict_objects (env : evict_env) (groups : list (string * list RangeEvictionCandidate)) (es : evict_state)
    : evict_state * list object_result :=
  match groups with
  | [] => (es, [])
  | g :: groups =>
      let '(es, result) := evict_object env g es in
      let '(es, results) := evict_objects env groups es in
      (es, match result with Some r => r :: results | None => results end)
  end.

Record EvictedRange := mkEvicted {
  ev_cache_key : string;
  ev_start : Z;
  ev_end : Z;
  ev_size : Z;
  ev_bin_path : string;
  ev_compressed_size : Z;
  ev_is_write_cached : bool;
  ev_staged : option bool;
}.

Definition evicted_of (env : evict_env) (key : string) (r : NewRangeSpec) : EvictedRange :=
  mkEvicted key (nr_start r) (nr_end r) (nr_compressed_size r) (bin_path env (nr_file_path r)) (nr_compressed_size r)
    false (nr_staged r).

(** The totals of the results that are counted: bytes, objects gone, and the ranges. *)
Fixpoint aggregate (env : evict_env) (bytes_to_free total keys : Z) (evicted : list EvictedRange)
    (results : list object_result) : Z * Z * list EvictedRange :=
  match results with
  | [] => (total, keys, evicted)
  | r :: results =>
      if bytes_to_free <=? total then (total, keys, evicted) else
      if negb (ee_fence_later env (or_key r)) then (total, keys, evicted) else
      aggregate env bytes_to_free (u64_add total (or_bytes_freed r))
        (if existsb (extension_is "meta") (or_deleted_paths r) then keys + 1 else keys)
        (evicted ++ (evicted_of env (or_key r) <$> or_unlinked r)) results
  end.

Definition debit_evicted (e : EvictedRange) (a : Size.SizeAccumulator) : Size.SizeAccumulator :=
  let spec := mkNewRangeSpec (ev_start e) (ev_end e) (ev_bin_path e) NoCompression (ev_compressed_size e)
                (u64_add (ev_end e - ev_start e) 1) 0 0 0 None in
  let a := (Size.subtract_range_file (ev_cache_key e) spec a).1 in
  if is_staged_range_parts (ev_staged e) (ev_bin_path e) (ev_is_write_cached e)
  then Size.subtract_write_cache (ev_compressed_size e) a else a.

Definition account_evicted (env : evict_env) (evicted : list EvictedRange) (st : Storage) : Storage :=
  match evicted with
  | [] => st
  | _ =>
      if negb (ee_consolidator env) then st else
      let st := set_accumulator (foldl (fun a e => debit_evicted e a) (accumulator st) evicted) st in
      write_eviction_journal_entries (ee_journal env) (ee_clock env) (ee_instance env)
        ((fun e => (ev_cache_key e, ev_start e, ev_end e, ev_size e, ev_bin_path e)) <$> evicted) st
  end.

Definition target_size (env : evict_env) (max_size : Z) : Z :=
  f64_to_u64 (f64_mul (u64_to_f64 max_size) (f64_div (u64_to_f64 (ee_target_percent env)) (u64_to_f64 100))).

(** Consolidating every key with pending entries first. *)
Definition pre_consolidate (cons : string -> Cons.cons_env) (cycle_env : Cons.cons_env) (st : Storage) : Storage :=
  foldl (fun st kf => (Cons.consolidate_object_with_files (cons kf.1) kf.1 [] st).1) st
    (hash_iter (Cons.key_index (Cons.discover_pending_cache_keys_indexed_capped cycle_env 0 st))).

Definition perform_eviction_with_lock (env : evict_env) (cons : string -> Cons.cons_env) (cycle_env : Cons.cons_env)
    (objects_env : Size.locked_env) (current_size max_size : Z) (skip_pre_eviction_consolidation : bool) (es : evict_state)
    : evict_state * Result Z :=
  let bytes_to_free := saturating_sub current_size (target_size env max_size) in
  if bytes_to_free =? 0 then (es, Ok 0) else
  let es := if negb skip_pre_eviction_consolidation && ee_consolidator env
            then on_storage (pre_consolidate cons cycle_env (es_storage es)) es else es in
  match collect_range_candidates_for_eviction env (es_storage es) with
  | [] => (es, Ok 0)
  | candidates =>
      match group_candidates_by_object (sort_range_candidates (ee_algorithm env) (ee_sort_now env) candidates) bytes_to_free with
      | [] => (es, Ok 0)
      | groups =>
          let '(es, results) := evict_objects env (ee_object_order env groups) es in
          let '(total, keys, evicted) := aggregate env bytes_to_free 0 0 [] results in
          let es := on_storage (account_evicted env evicted (es_storage es)) es in
          let es := if negb (bool_decide (evicted = [])) && (0 <? keys) && ee_consolidator env
                    then mkEvictState (es_storage es) (Size.decrement_cached_objects objects_env keys (es_size es))
                           (es_deltas es) (es_evicted_entries es)
                    else es in
          (es, Ok total)
      end
  end.

(** The check of the limit: the size, read again under the lock, after what other
    instances did meanwhile; the deltas are flushed before the lock is let go. *)
Definition enforce_disk_cache_limits_internal (env : evict_env) (cons : string -> Cons.cons_env) (cycle_env : Cons.cons_env)
    (objects_env : Size.locked_env) (flush_io : Size.write_outcome) (walk : Result Z) (lock : Result bool)
    (others : evict_state -> evict_state) (max_size : Z) (skip : bool) (es : evict_state) : evict_state * Result Z :=
  let size_now es := if ee_consolidator env then Ok (Size.get_current_size (es_size es)) else walk in
  match size_now es with
  | Ok current_size =>
      if (max_size =? 0) || (current_size <=? max_size) then (es, Ok 0) else
      match lock with
      | Ok true =>
          let es := others es in
          let current_size := if ee_consolidator env then Size.get_current_size (es_size es) else current_size in
          if current_size <=? max_size then (es, Ok 0) else
          match perform_eviction_with_lock env cons cycle_env objects_env current_size max_size skip es with
          | (es, Ok freed) =>
              if (0 <? freed) && ee_consolidator env then
                let '(a, dir, _) := Size.flush flush_io (es_deltas es) (accumulator (es_storage es)) in
                (mkEvictState (set_accumulator a (es_storage es)) (es_size es) dir (es_evicted_entries es), Ok freed)
              else (es, Ok freed)
          | r => r
          end
      | _ => (es, Ok 0)
      end
  | Err e => (es, Err e)
  | Panic => (es, Panic)
  end.

End Evict.

(** ** Eviction keeps the storage sound *)

Lemma unlink_range_files env wc files r p :
  (unlink_range env wc files r).1 !! p = if decide (p = nr_file_path r /\ ee_removable env p = true) then None else files !! p.
Proof.
  unfold unlink_range. destruct (ee_removable env (nr_file_path r)) eqn:Er.
  - destruct (files !! nr_file_path r) eqn:Ef; cbn [fst]; case_decide as Hd.
    + destruct Hd as [-> _]. apply lookup_delete_eq.
    + rewrite lookup_delete_ne by (intros <-; by apply Hd). done.
    + by destruct Hd as [-> _].
    + done.
  - cbn [fst]. rewrite decide_False; [done |]. intros [-> ?]. congruence.
Qed.

Lemma unlink_all_files env wc rs files p :
  (unlink_all env wc files rs).1 !! p =
  if decide (p ∈ nr_file_path <$> rs /\ ee_removable env p = true) then None else files !! p.
Proof.
  revert files. induction rs as [| r rs IH]; intros files; cbn [unlink_all].
  { rewrite decide_False; [done |]. by intros [?%elem_of_nil _]. }
  pose proof (unlink_range_files env wc files r p) as Hfiles.
  destruct (unlink_range env wc files r) as [files1 ro]. cbn [fst] in Hfiles. specialize (IH files1).
  destruct (unlink_all env wc files1 rs) as [files2 ros]. cbn [fst] in IH |- *. rewrite IH, Hfiles, fmap_cons.
  assert (Hc : p ∈ nr_file_path r :: (nr_file_path <$> rs) <-> p = nr_file_path r \/ p ∈ nr_file_path <$> rs) by apply elem_of_cons.
  repeat case_decide; tauto.
Qed.

Lemma unlink_all_sub env wc rs files : (unlink_all env wc files rs).1 ⊆ files.
Proof.
  apply map_subseteq_spec. intros p f. rewrite unlink_all_files. by case_decide.
Qed.

Section Sound.
Context `{HashIter} `{PathCodec} `{FrameCodec}.
Context (object : string -> string -> bytes).

Lemma set_ranges_ok path m rs : metadata_ok path m -> (forall r, r ∈ rs -> r ∈ cm_ranges m) -> metadata_ok path (set_ranges rs m).
Proof.
  intros [Hp Hall] Hsub. split; [done |]. cbn. rewrite Forall_forall in *. auto.
Qed.

Lemma batch_delete_ok env key extents st :
  storage_ok object st -> storage_ok object (batch_delete_ranges env key extents st).1.
Proof.
  intros Hok. unfold batch_delete_ranges. destruct extents as [| x xs]; [done |]. set (extents := x :: xs).
  destruct (metadata_files st !! get_new_metadata_file_path key) as [f |] eqn:Ef; [| done].
  destruct (ee_meta_lock env key); [by destruct f |]. destruct f as [m | |]; [| done | done].
  match goal with |- context [unlink_all env ?wc ?files ?tasks] => pose proof (unlink_all_sub env wc tasks files) as Hsub;
    destruct (unlink_all env wc files tasks) as [files' results] end.
  cbn [fst] in Hsub. assert (Hok1 : storage_ok object (set_range_files files' st))
    by (apply storage_ok_range_files; [done | eapply files_ok_subseteq; [done | apply Hok]]).
  destruct (_ && _).
  - destruct (ee_remove_meta env key); [| done]. destruct Hok1 as [Hf Hm Hj]. constructor; [done | | done].
    intros path' m' Hl. apply Hm. cbn in Hl. by apply lookup_delete_Some in Hl as [_ Hl].
  - destruct (ee_write_meta env key); [done |]. apply storage_ok_metadata; [done |].
    apply set_ranges_ok; [by apply (so_meta _ _ Hok) |]. intros r Hr. by apply list_elem_of_filter in Hr as [_ Hr].
Qed.

Lemma evict_object_ok env g es :
  storage_ok object (es_storage es) -> storage_ok object (es_storage (evict_object env g es).1).
Proof.
  intros Hok. destruct g as [key ranges]. unfold evict_object. destruct (negb _); [done |]. destruct (is_cache_entry_active _ _ _); [done |].
  unfold batch_evict_range_files. destruct ranges as [| c cs]; [done |]. destruct (ee_write_lock env key) as [[] | |]; try done.
  pose proof (batch_delete_ok env key ((fun c => (ec_range_start c, ec_range_end c)) <$> c :: cs) (es_storage es) Hok) as Hd.
  destruct (batch_delete_ranges _ _ _ _) as [st' [d | |]]; exact Hd.
Qed.

Lemma evict_objects_ok env groups es :
  storage_ok object (es_storage es) -> storage_ok object (es_storage (evict_objects env groups es).1).
Proof.
  revert es. induction groups as [| g groups IH]; intros es Hok; cbn [evict_objects]; [done |].
  pose proof (evict_object_ok env g es Hok) as Hok1. destruct (evict_object env g es) as [es1 r]. specialize (IH es1 Hok1).
  destruct (evict_objects env groups es1) as [es2 rs]. exact IH.
Qed.

Lemma storage_ok_accumulator a st : storage_ok object st -> storage_ok object (set_accumulator a st).
Proof. intros [Hf Hm Hj]. by constructor. Qed.

Lemma account_evicted_ok env evicted st : storage_ok object st -> storage_ok object (account_evicted env evicted st).
Proof.
  intros Hok. unfold account_evicted. destruct evicted; [done |]. destruct (negb _); [done |].
  by apply eviction_entries_ok, storage_ok_accumulator.
Qed.

Lemma pre_consolidate_ok cons cycle_env st : storage_ok object st -> storage_ok object (pre_consolidate cons cycle_env st).
Proof.
  unfold pre_consolidate. generalize (hash_iter (Cons.key_index (Cons.discover_pending_cache_keys_indexed_capped cycle_env 0 st))).
  intros keys. revert st. induction keys as [| kf keys IH]; intros st Hok; cbn; [done |]. by apply IH, Cons.consolidate_object_ok.
Qed.

Lemma perform_eviction_ok env cons cycle_env objects_env current max skip es :
  storage_ok object (es_storage es) ->
  storage_ok object (es_storage (perform_eviction_with_lock env cons cycle_env objects_env current max skip es).1).
Proof.
  intros Hok. unfold perform_eviction_with_lock. destruct (_ =? 0); [done |].
  set (es1 := if _ && _ then _ else _).
  assert (Hok1 : storage_ok object (es_storage es1)) by (unfold es1; destruct (_ && _); [by apply pre_consolidate_ok | done]).
  clearbody es1.
  destruct (collect_range_candidates_for_eviction env (es_storage es1)); [done |].
  destruct (group_candidates_by_object _ _) as [| g gs]; [done |].
  pose proof (evict_objects_ok env (ee_object_order env (g :: gs)) es1 Hok1) as Hok2.
  destruct (evict_objects _ _ _) as [es2 results]. destruct (aggregate _ _ _ _ _ _) as [[total keys] evicted].
  destruct (_ && _); cbn; by apply account_evicted_ok.
Qed.

End Sound.

(** ** What a batch removes, and what it reports *)

Definition len_of (env : evict_env) (p : string) (f : Disk.file) : Z :=
  match f with Disk.Readable data => zlen data | Disk.Unreadable _ => ee_len_of env p end.

Definition disk_bytes (env : evict_env) (files : gmap string Disk.file) : Z :=
  sum_by (fun pf => len_of env pf.1 pf.2) (map_to_list files).

Lemma disk_bytes_delete env files p f :
  files !! p = Some f -> disk_bytes env files = disk_bytes env (base.delete p files) + len_of env p f.
Proof. intros Hp. unfold disk_bytes. rewrite <- (map_to_list_delete files p f Hp), sum_by_cons. cbn [fst snd]. lia. Qed.

(** Results that can be believed: every file can be looked at. *)
Record sizes_seen (env : evict_env) : Prop := {
  ss_stat p : ee_stat_fails env p = false;
  ss_len p : 0 <= ee_len_of env p;
}.

Lemma len_of_nonneg env p f : sizes_seen env -> 0 <= len_of env p f.
Proof. intros [_ Hl]. destruct f; [apply zlen_nonneg | apply Hl]. Qed.

Lemma disk_bytes_nonneg env files : sizes_seen env -> 0 <= disk_bytes env files.
Proof. intros Hs. apply sum_by_nonneg. intros. by apply len_of_nonneg. Qed.

Lemma file_len_present env files p f : sizes_seen env -> files !! p = Some f -> file_len env files p = Some (len_of env p f).
Proof. intros [Hs _] Hp. unfold file_len. rewrite Hs, Hp. by destruct f. Qed.

Definition unlinked (results : list (NewRangeSpec * RangeUnlinkOutcome)) : list NewRangeSpec :=
  omap (fun ro => match ro.2 with Unlinked => Some ro.1 | _ => None end) results.

Definition retained (results : list (NewRangeSpec * RangeUnlinkOutcome)) : list (Z * Z) :=
  omap (fun ro => match ro.2 with Failed => Some (extent ro.1) | _ => None end) results.

(** The outcome of each range, and the bytes that left the disk. *)
Lemma unlink_all_spec env wc rs : forall files files' results,
  sizes_seen env -> unlink_all env wc files rs = (files', results) ->
  disk_bytes env files = disk_bytes env files' + sum_by nr_compressed_size (unlinked results) /\
  Forall (fun r => 0 <= nr_compressed_size r) (unlinked results) /\
  Forall2 (fun r ro => extent ro.1 = extent r /\ nr_file_path ro.1 = nr_file_path r /\
    (ro.2 = Failed <-> ee_removable env (nr_file_path r) = false)) rs results.
Proof.
  induction rs as [| r rs IH]; intros files files' results Hs E.
  { injection E as <- <-. split_and!; [cbn; lia | constructor | constructor]. }
  cbn [unlink_all] in E. destruct (unlink_range env wc files r) as [files1 ro] eqn:E1.
  destruct (unlink_all env wc files1 rs) as [files2 ros] eqn:E2. injection E as <- <-.
  destruct (IH _ _ _ Hs E2) as (Hb & Hn & Hf). unfold unlink_range in E1.
  destruct (ee_removable env (nr_file_path r)) eqn:Er; [destruct (files !! nr_file_path r) as [f |] eqn:Ef |];
    injection E1 as <- <-; unfold unlinked in *; cbn [omap list_omap fst snd].
  - rewrite sum_by_cons, (file_len_present _ _ _ _ Hs Ef). cbn [removed_range nr_compressed_size default from_option].
    rewrite (disk_bytes_delete env files _ f Ef), Hb. split_and!; [unfold id; lia | | constructor; [| done]].
    + constructor; [by apply len_of_nonneg | done].
    + by rewrite Er.
  - split_and!; [done | done | constructor; [by rewrite Er | done]].
  - split_and!; [done | done | constructor; [by rewrite Er | done]].
Qed.

Lemma collect_results_spec env results : forall d,
  0 <= bd_bytes_freed d -> Forall (fun r => 0 <= nr_compressed_size r) (unlinked results) ->
  bd_bytes_freed d + sum_by nr_compressed_size (unlinked results) <= U64_MAX ->
  let d' := foldl (collect_result env) d results in
  bd_bytes_freed d' = bd_bytes_freed d + sum_by nr_compressed_size (unlinked results) /\
  bd_unlinked_ranges d' = bd_unlinked_ranges d ++ unlinked results /\
  bd_unlinked_extents d' = bd_unlinked_extents d ++ (extent <$> unlinked results) /\
  bd_retained_extents d' = bd_retained_extents d ++ retained results.
Proof.
  induction results as [| [r o] results IH]; intros d Hd Hn Hmax; cbn [foldl].
  { cbn. rewrite !app_nil_r. split_and!; try done. lia. }
  destruct o; unfold unlinked, retained in *; cbn [omap list_omap fst snd] in *.
  - apply Forall_cons in Hn as [Hr Hn]. rewrite sum_by_cons in *.
    assert (0 <= sum_by nr_compressed_size (omap (fun ro : NewRangeSpec * RangeUnlinkOutcome => match ro.2 with Unlinked => Some ro.1 | _ => None end) results))
      by (apply sum_by_nonneg; intros x Hx; rewrite Forall_forall in Hn; by apply Hn).
    assert (Ha : u64_add (bd_bytes_freed d) (nr_compressed_size r) = bd_bytes_freed d + nr_compressed_size r)
      by (apply u64_add_small; unfold U64_MAX in *; lia).
    destruct (IH (collect_result env d (r, Unlinked))) as (H1 & H2 & H3 & H4); [cbn; lia | done | cbn; lia |].
    rewrite H1, H2, H3, H4. cbn [collect_result bd_bytes_freed bd_unlinked_ranges bd_unlinked_extents bd_retained_extents].
    rewrite Ha, fmap_cons, <- !app_assoc. split_and!; try done. lia.
  - by apply IH.
  - destruct (IH (collect_result env d (r, Failed))) as (H1 & H2 & H3 & H4); [done | done | done |].
    rewrite H1, H2, H3, H4. cbn. by rewrite <- app_assoc.
Qed.

Lemma ranges_deleted_elem env rs results x :
  Forall2 (fun r ro => extent ro.1 = extent r /\ nr_file_path ro.1 = nr_file_path r /\
    (ro.2 = Failed <-> ee_removable env (nr_file_path r) = false)) rs results ->
  x ∈ ranges_deleted results <-> exists r, r ∈ rs /\ extent r = x /\ ee_removable env (nr_file_path r) = true.
Proof.
  induction 1 as [| r [r' o] rs results (H1 & H2 & H3) Hf IH]; unfold ranges_deleted in *; cbn [omap list_omap fst snd] in *.
  { split; [by intros ?%elem_of_nil | by intros (? & ?%elem_of_nil & _)]. }
  assert (Hr : o <> Failed <-> ee_removable env (nr_file_path r) = true)
    by (destruct (ee_removable env (nr_file_path r)); split; [done | intros _ Ho; discriminate (proj1 H3 Ho) | intros Ho; exfalso; by apply Ho, H3 | done]).
  assert (Hhd : forall l, (x ∈ match o with Failed => l | _ => extent r' :: l end) <-> (o <> Failed /\ extent r = x) \/ x ∈ l).
  { intros l. rewrite <- H1. destruct o; rewrite ?elem_of_cons; intuition congruence. }
  transitivity ((o <> Failed /\ extent r = x) \/ x ∈ omap (fun ro : NewRangeSpec * RangeUnlinkOutcome => match ro.2 with Failed => None | _ => Some (extent ro.1) end) results).
  { rewrite <- Hhd. by destruct o. }
  rewrite IH, Hr. split.
  - intros [[Ho Hx] | (r0 & Hin & ?)]; [exists r; split_and!; [left | done | done] | exists r0; split; [by right | done]].
  - intros (r0 & Hin & Hx & Ho). apply elem_of_cons in Hin as [-> | Hin]; [by left | right; by exists r0].
Qed.

(** A range the batch removes the file of. *)
Definition gone (env : evict_env) (extents : list (Z * Z)) (m : NewCacheMetadata) (r : NewRangeSpec) : Prop :=
  r ∈ cm_ranges m /\ (extent r ∈ extents /\ is_safe_relative_file_path (nr_file_path r) = true) /\
  ee_removable env (nr_file_path r) = true.

(** The bytes a batch reports left the disk, range by range. *)
Definition freed (env : evict_env) (st st' : Storage) (d : BatchRangeDeletion) : Prop :=
  disk_bytes env (range_files st) = disk_bytes env (range_files st') + bd_bytes_freed d /\
  bd_bytes_freed d = sum_by nr_compressed_size (bd_unlinked_ranges d) /\ 0 <= bd_bytes_freed d.

Lemma freed_none env st : freed env st st BatchRangeDeletion_default.
Proof. unfold freed. cbn. split_and!; [lia | done | done]. Qed.

(** A batch does nothing, or removes those files; the ranges whose files are gone are
    dropped from the metadata, or, where it could not be written, none is. *)
Lemma batch_delete_cases `{PathCodec} env key extents st st' res m :
  sizes_seen env -> (forall l, ee_file_order env l ≡ₚ l) -> disk_bytes env (range_files st) <= U64_MAX ->
  metadata_files st !! get_new_metadata_file_path key = Some (MetaParsed m) ->
  batch_delete_ranges env key extents st = (st', res) ->
  (st' = st /\ (res = Ok BatchRangeDeletion_default /\ extents = [] \/ exists e, res = Err e /\ ee_meta_lock env key = Some e)) \/
  (forall r, gone env extents m r -> range_files st' !! nr_file_path r = None) /\
  (forall p, (forall r, gone env extents m r -> nr_file_path r <> p) -> range_files st' !! p = range_files st !! p) /\
  (forall d, res = Ok d -> freed env st st' d) /\
  (metadata_files st' = metadata_files st \/
   exists kept, (forall r, r ∈ kept <-> r ∈ cm_ranges m /\ forall r', gone env extents m r' -> extent r' <> extent r) /\
     (metadata_files st' = <[get_new_metadata_file_path key:=MetaParsed (set_ranges kept m)]> (metadata_files st) \/
      kept = [] /\ metadata_files st' = base.delete (get_new_metadata_file_path key) (metadata_files st))).
Proof.
  intros Hs Hperm Hmax Hm E. unfold batch_delete_ranges in E.
  destruct extents as [| x xs]; [injection E as <- <-; left; split; [done | by left] |]. set (extents := x :: xs) in *.
  rewrite Hm in E. destruct (ee_meta_lock env key) as [e |]; [injection E as <- <-; left; split; [done | right; by exists e] |].
  set (tasks := base.filter _ (cm_ranges m)) in E. set (wc := om_is_write_cached _) in E. right.
  pose proof (unlink_all_files env wc (ee_file_order env tasks) (range_files st)) as Hfiles.
  destruct (unlink_all env wc (range_files st) (ee_file_order env tasks)) as [files results] eqn:Eu. cbn [fst] in Hfiles.
  destruct (unlink_all_spec _ _ _ _ _ _ Hs Eu) as (Hb & Hn & Hf).
  pose proof (disk_bytes_nonneg env files Hs) as Hnn.
  destruct (collect_results_spec env results BatchRangeDeletion_default) as (Hfr & Hun & _ & Hret); [done | done | cbn; lia |].
  set (d0 := foldl (collect_result env) BatchRangeDeletion_default results) in *.
  assert (Hgone : forall r, gone env extents m r <-> r ∈ tasks /\ ee_removable env (nr_file_path r) = true).
  { intros r. unfold gone, tasks. rewrite list_elem_of_filter. tauto. }
  assert (Htask : forall p, p ∈ nr_file_path <$> ee_file_order env tasks <-> exists r, r ∈ tasks /\ nr_file_path r = p).
  { intros p. rewrite list_elem_of_fmap. split; intros (r & H1 & H2); exists r; [rewrite (Hperm tasks) in H2 | rewrite (Hperm tasks)]; done. }
  assert (Hkept : forall r, r ∈ base.filter (fun r => extent r ∉ ranges_deleted results) (cm_ranges m) <->
    r ∈ cm_ranges m /\ forall r', gone env extents m r' -> extent r' <> extent r).
  { intros r. rewrite list_elem_of_filter, (ranges_deleted_elem env _ _ _ Hf). split.
    - intros [Hno Hr]. split; [done |]. intros r' Hg Hx. apply Hgone in Hg as [Ht Hrm]. apply Hno. exists r'.
      by rewrite (Hperm tasks).
    - intros [Hr Hno]. split; [| done]. intros (r' & Hin & Hx & Hrm). rewrite (Hperm tasks) in Hin.
      apply (Hno r'); [by apply Hgone | done]. }
  set (kept := base.filter (fun r => extent r ∉ ranges_deleted results) (cm_ranges m)) in *.
  assert (Hst : range_files st' = files /\
    (forall d, res = Ok d -> bd_bytes_freed d = bd_bytes_freed d0 /\ bd_unlinked_ranges d = bd_unlinked_ranges d0) /\
    (metadata_files st' = metadata_files st \/
     metadata_files st' = <[get_new_metadata_file_path key:=MetaParsed (set_ranges kept m)]> (metadata_files st) \/
     kept = [] /\ metadata_files st' = base.delete (get_new_metadata_file_path key) (metadata_files st))).
  { destruct (bool_decide_reflect (kept = [])) as [Hnil |]; cbn [andb] in E; [destruct (bool_decide (bd_retained_extents d0 = [])) |];
      [destruct (ee_remove_meta env key) | destruct (ee_write_meta env key) ..]; injection E as <- <-;
      (split; [done |]); (split; [intros d [= <-]; done |]); cbn; auto. }
  destruct Hst as (Ef & Hd & Hmeta). rewrite Ef. split_and!.
  - intros r Hg. apply Hgone in Hg as [Ht Hr]. rewrite Hfiles, decide_True; [done |]. split; [apply Htask; by exists r | done].
  - intros p Hno. rewrite Hfiles, decide_False; [done |]. intros [Hin Hr]. apply Htask in Hin as (r & Hin & <-).
    apply (Hno r); [by apply Hgone | done].
  - intros d Hres. destruct (Hd d Hres) as [Hdf Hdu]. unfold freed. rewrite Hdf, Hdu, Hfr, Hun, Hb, Ef.
    split_and!; [cbn; lia | done |]. apply sum_by_nonneg. by apply Forall_forall.
  - destruct Hmeta as [-> | Hmeta]; [by left | right]. exists kept. by split.
Qed.

Lemma NoDup_fmap_eq {A B} (f : A -> B) l x y : NoDup (f <$> l) -> x ∈ l -> y ∈ l -> f x = f y -> x = y.
Proof.
  intros Hnd Hx Hy E. apply list_elem_of_lookup in Hx as [i Hi]. apply list_elem_of_lookup in Hy as [j Hj].
  assert (i = j) as ->; [| congruence]. eapply (NoDup_lookup (f <$> l) i j (f x)); [done | |].
  - by rewrite list_lookup_fmap, Hi.
  - by rewrite list_lookup_fmap, Hj, E.
Qed.

(** A batch deletion is exact and leaves no orphan.  Where every file can be
    looked at, the bytes it reports are those that left the disk, and the sum over the
    ranges it reports.  Whatever fails, a file of the object that is still there is
    still listed, and a range that was not asked for keeps its entry, and its file
    when no range asked for shares it. *)
Theorem batch_deletion_exact `{PathCodec} env key extents st st' res m :
  sizes_seen env -> (forall l, ee_file_order env l ≡ₚ l) -> disk_bytes env (range_files st) <= U64_MAX ->
  metadata_files st !! get_new_metadata_file_path key = Some (MetaParsed m) -> NoDup (extent <$> cm_ranges m) ->
  batch_delete_ranges env key extents st = (st', res) ->
  (forall d, res = Ok d -> freed env st st' d) /\
  forall r, r ∈ cm_ranges m ->
    (is_Some (range_files st' !! nr_file_path r) \/ extent r ∉ extents ->
     exists m', metadata_files st' !! get_new_metadata_file_path key = Some (MetaParsed m') /\ r ∈ cm_ranges m') /\
    ((forall r', r' ∈ cm_ranges m -> extent r' ∈ extents -> nr_file_path r' <> nr_file_path r) ->
     range_files st' !! nr_file_path r = range_files st !! nr_file_path r).
Proof.
  intros Hs Hperm Hmax Hm Hnd E.
  destruct (batch_delete_cases env key extents st st' res m Hs Hperm Hmax Hm E) as [[-> Hres] | (Hg & Hother & Hd & Hmeta)].
  { split; [| intros r Hr; split; [intros _; by exists m | done]]. intros d ->. destruct Hres as [[[= ->] _] | [? [[=] _]]].
    apply freed_none. }
  split; [done |]. intros r Hr. split.
  - intros Hwhy. destruct Hmeta as [-> | (kept & Hk & Hmeta)]; [by exists m |].
    assert (Hin : r ∈ kept).
    { apply Hk. split; [done |]. intros r' Hg' Hx. destruct Hg' as (Hr' & (Hin' & Hsafe) & Hrm).
      assert (r' = r) as -> by (eapply NoDup_fmap_eq; done). destruct Hwhy as [[f Hf] | Hno]; [| by apply Hno].
      by rewrite Hg in Hf. }
    destruct Hmeta as [-> | [-> _]]; [| by apply elem_of_nil in Hin]. exists (set_ranges kept m). split; [apply lookup_insert_eq | done].
  - intros Hno. apply Hother. intros r' (Hr' & (Hin' & _) & _). by apply Hno.
Qed.

(** ** Accounting for a pass *)

(** Whatever fails, a batch that reports bytes reports those that left the disk; one that fails after files were
    removed, when it could not write the metadata, reports none. *)
Lemma batch_delete_bytes `{PathCodec} env key extents st st' res :
  sizes_seen env -> (forall l, ee_file_order env l ≡ₚ l) -> disk_bytes env (range_files st) <= U64_MAX ->
  batch_delete_ranges env key extents st = (st', res) ->
  accumulator st' = accumulator st /\
  match res with
  | Ok d => freed env st st' d
  | _ => disk_bytes env (range_files st') <= disk_bytes env (range_files st) /\
         (range_files st' = range_files st \/ is_Some (ee_write_meta env key))
  end.
Proof.
  intros Hs Hperm Hmax E. pose proof E as E'. unfold batch_delete_ranges in E.
  destruct extents as [| x xs]; [injection E as <- <-; split; [done | apply freed_none] |].
  destruct (metadata_files st !! get_new_metadata_file_path key) as [f |] eqn:Em; [| injection E as <- <-; split; [done | apply freed_none]].
  destruct (ee_meta_lock env key); [injection E as <- <-; split_and!; by auto |].
  destruct f as [m | |]; [| injection E as <- <-; split_and!; by auto ..].
  destruct (unlink_all _ _ _ _) as [files results] eqn:Eu.
  assert (Hres : accumulator st' = accumulator st /\ range_files st' = files /\
    ((exists d, res = Ok d) \/ (exists e, res = Err e) /\ is_Some (ee_write_meta env key))).
  { destruct (_ && _); [destruct (ee_remove_meta env key) | destruct (ee_write_meta env key)]; injection E as <- <-; split_and!; eauto. }
  destruct Hres as (Ha & Hf & [[d ->] | [[e ->] Hw]]); (split; [done |]).
  - destruct (batch_delete_cases env key (x :: xs) st st' (Ok d) m Hs Hperm Hmax Em E') as [[-> [[[= ->] _] | [? [[=] _]]]] | (_ & _ & Hd & _)];
      [apply freed_none | by apply Hd].
  - split; [| by right]. destruct (unlink_all_spec _ _ _ _ _ _ Hs Eu) as (Hb & Hn & _). rewrite Hf, Hb.
    enough (0 <= sum_by nr_compressed_size (unlinked results)) by lia. apply sum_by_nonneg. by apply Forall_forall.
Qed.

(** A pass in which every file can be looked at. *)
Record looked_at (env : evict_env) : Prop := {
  la_sizes : sizes_seen env;
  la_order l : ee_file_order env l ≡ₚ l;
}.

(** A pass in which every metadata file can be written too. *)
Record clean (env : evict_env) : Prop := {
  cl_sizes : sizes_seen env;
  cl_order l : ee_file_order env l ≡ₚ l;
  cl_write key : ee_write_meta env key = None;
}.

Definition es_bytes (env : evict_env) (es : evict_state) : Z := disk_bytes env (range_files (es_storage es)).

Definition result_ok (r : object_result) : Prop :=
  or_bytes_freed r = sum_by nr_compressed_size (or_unlinked r) /\ 0 <= or_bytes_freed r.

(** Bytes that left the disk without a result, because some metadata could not be written. *)
Definition unwritten (env : evict_env) (lost : Z) : Prop := 0 <= lost /\ (lost = 0 \/ exists key, is_Some (ee_write_meta env key)).

Lemma unwritten_none env : unwritten env 0.
Proof. split; [done | by left]. Qed.

Section Accounting.
Context `{HashIter} `{PathCodec}.

Lemma evict_object_bytes env g es es' r :
  looked_at env -> es_bytes env es <= U64_MAX -> evict_object env g es = (es', r) ->
  accumulator (es_storage es') = accumulator (es_storage es) /\
  (exists lost, es_bytes env es = es_bytes env es' + match r with Some r => or_bytes_freed r | None => 0 end + lost /\ unwritten env lost) /\
  match r with Some r => result_ok r | None => True end.
Proof.
  intros [Hs Hperm] Hmax E. destruct g as [key ranges]. unfold evict_object in E.
  assert (Hsame : (es, None) = (es', r) -> accumulator (es_storage es') = accumulator (es_storage es) /\
    (exists lost, es_bytes env es = es_bytes env es' + match r with Some r => or_bytes_freed r | None => 0 end + lost /\ unwritten env lost) /\
    match r with Some r => result_ok r | None => True end)
    by (intros [= <- <-]; split_and!; [done | exists 0; split; [lia | apply unwritten_none] | done]).
  destruct (negb _); [by apply Hsame |]. destruct (is_cache_entry_active _ _ _); [by apply Hsame |].
  unfold batch_evict_range_files in E. destruct ranges as [| c cs].
  { injection E as <- <-. unfold result_ok. cbn. split_and!; [done | exists 0; split; [lia | apply unwritten_none] | done | done]. }
  destruct (ee_write_lock env key) as [[] | |]; try by apply Hsame.
  destruct (batch_delete_ranges _ _ _ _) as [st' res] eqn:Ed.
  destruct (batch_delete_bytes _ _ _ _ _ _ Hs Hperm Hmax Ed) as [Ha Hb].
  assert (forall Q : Prop, (disk_bytes env (range_files st') <= disk_bytes env (range_files (es_storage es)) /\
      (range_files st' = range_files (es_storage es) \/ is_Some (ee_write_meta env key))) -> exists lost,
    disk_bytes env (range_files (es_storage es)) = disk_bytes env (range_files st') + 0 + lost /\ unwritten env lost) as Hlost.
  { intros _ [Hle Hwhy]. exists (disk_bytes env (range_files (es_storage es)) - disk_bytes env (range_files st')). split; [lia |].
    split; [lia |]. destruct Hwhy as [-> | ?]; [left; lia | right; by exists key]. }
  unfold es_bytes, on_storage in *. destruct res as [d | e |]; injection E as <- <-; cbn [es_storage or_bytes_freed or_unlinked].
  - destruct Hb as (Hb1 & Hb2 & Hb3). split_and!; try done; exists 0; split; [lia | apply unwritten_none].
  - split_and!; [done | by apply (Hlost True) | done].
  - split_and!; [done | by apply (Hlost True) | done].
Qed.

Lemma evict_objects_lost env groups : forall es es' results,
  looked_at env -> es_bytes env es <= U64_MAX -> evict_objects env groups es = (es', results) ->
  accumulator (es_storage es') = accumulator (es_storage es) /\
  (exists lost, es_bytes env es = es_bytes env es' + sum_by or_bytes_freed results + lost /\ unwritten env lost) /\ Forall result_ok results.
Proof.
  induction groups as [| g groups IH]; intros es es' results Hc Hmax E.
  { injection E as <- <-. rewrite sum_by_nil. split_and!; [done | exists 0; split; [lia | apply unwritten_none] | constructor]. }
  cbn [evict_objects] in E. destruct (evict_object env g es) as [es1 r] eqn:E1. destruct (evict_objects env groups es1) as [es2 rs] eqn:E2.
  injection E as <- <-. destruct (evict_object_bytes _ _ _ _ _ Hc Hmax E1) as (Ha1 & (lost1 & Hb1 & Hl1 & Hw1) & Hr).
  assert (Hle : es_bytes env es1 <= U64_MAX) by (destruct r as [r |]; [destruct Hr |]; lia).
  destruct (IH _ _ _ Hc Hle E2) as (Ha2 & (lost2 & Hb2 & Hl2 & Hw2) & Hrs). split; [congruence |]. split.
  - exists (lost1 + lost2). split; [destruct r as [r |]; [rewrite sum_by_cons |]; lia |]. split; [lia |].
    destruct Hw1 as [-> | ?]; [| by right]. destruct Hw2 as [-> | ?]; [by left | by right].
  - destruct r as [r |]; [by constructor | done].
Qed.

Lemma evict_objects_bytes env groups es es' results :
  clean env -> es_bytes env es <= U64_MAX -> evict_objects env groups es = (es', results) ->
  accumulator (es_storage es') = accumulator (es_storage es) /\
  es_bytes env es = es_bytes env es' + sum_by or_bytes_freed results /\ Forall result_ok results.
Proof.
  intros [Hs Ho Hw] Hmax E. destruct (evict_objects_lost env groups es es' results) as (Ha & (lost & Hb & _ & Hl) & Hr); [by split | done | done |].
  split_and!; [done | | done]. destruct Hl as [-> | [key Hk]]; [lia | by rewrite Hw in Hk; destruct Hk].
Qed.

(** The results that are counted: a prefix, cut where enough was freed or the fence
    was lost. *)
Lemma aggregate_spec env target results : forall total keys evicted total' keys' evicted',
  Forall result_ok results -> 0 <= total -> total + sum_by or_bytes_freed results <= U64_MAX ->
  aggregate env target total keys evicted results = (total', keys', evicted') ->
  exists counted uncounted, results = counted ++ uncounted /\ total' = total + sum_by or_bytes_freed counted /\
    evicted' = evicted ++ flat_map (fun r => evicted_of env (or_key r) <$> or_unlinked r) counted /\
    (uncounted = [] \/ target <= total' \/ exists key, ee_fence_later env key = false).
Proof.
  induction results as [| r results IH]; intros total keys evicted total' keys' evicted' Hok Ht Hmax E; cbn [aggregate] in E.
  { injection E as <- <- <-. exists [], []. rewrite sum_by_nil. split_and!; [done | lia | by rewrite app_nil_r | by left]. }
  assert (Hcut : (total, keys, evicted) = (total', keys', evicted') -> target <= total \/ (exists key, ee_fence_later env key = false) ->
    exists counted uncounted, r :: results = counted ++ uncounted /\ total' = total + sum_by or_bytes_freed counted /\
      evicted' = evicted ++ flat_map (fun r => evicted_of env (or_key r) <$> or_unlinked r) counted /\
      (uncounted = [] \/ target <= total' \/ exists key, ee_fence_later env key = false)).
  { intros [= <- <- <-] Hwhy. exists [], (r :: results). rewrite sum_by_nil. split_and!; [done | lia | by rewrite app_nil_r | by right]. }
  destruct (Z.leb_spec target total); [by apply Hcut; [| left] |].
  destruct (ee_fence_later env (or_key r)) eqn:Ef; cbn [negb] in E; [| apply Hcut; [done |]; right; by exists (or_key r)].
  apply Forall_cons in Hok as [[Hr0 Hr] Hok]. rewrite sum_by_cons in Hmax.
  assert (0 <= sum_by or_bytes_freed results) by (apply sum_by_nonneg; intros x Hx; rewrite Forall_forall in Hok; apply (Hok x Hx)).
  rewrite u64_add_small in E by (unfold U64_MAX in *; lia).
  destruct (IH (total + or_bytes_freed r) _ _ _ _ _ Hok ltac:(lia) ltac:(lia) E) as (cs & us & -> & -> & -> & Hwhy).
  exists (r :: cs), us. rewrite sum_by_cons. cbn [app flat_map]. rewrite <- app_assoc. split_and!; [done | lia | done | done].
Qed.

Lemma append_lines_accumulator io instance new st : accumulator (append_lines io instance new st).1 = accumulator st.
Proof. by destruct io as [| | [] [] | t []]. Qed.

Lemma eviction_entries_accumulator io now instance es st :
  accumulator (write_eviction_journal_entries io now instance es st) = accumulator st.
Proof.
  unfold write_eviction_journal_entries. destruct es as [| e0 es]; [done |].
  generalize (hash_iter (group_evicted now 0 instance (e0 :: es) ∅)). intros kls. revert st.
  induction kls as [| [k l] kls IH]; intros st; cbn [foldl]; [done |]. rewrite IH. unfold append_range_entries_batch. cbn [fst snd].
  destruct l; [done | apply append_lines_accumulator].
Qed.

Lemma debit_evicted_delta e a :
  cong64 (Size.delta (debit_evicted e a)) (Size.delta a - ev_compressed_size e).
Proof.
  unfold debit_evicted. set (a1 := (Size.subtract_range_file _ _ _).1).
  assert (Ha : cong64 (Size.delta a1) (Size.delta a - ev_compressed_size e)).
  { unfold a1, Size.subtract_range_file, Size.subtract_range_id. cbn. rewrite !wrap_i64_cong. apply cong64_eq. lia. }
  destruct (is_staged_range_parts _ _ _); [| done]. exact Ha.
Qed.

Lemma debits_delta evicted a :
  cong64 (Size.delta (foldl (fun a e => debit_evicted e a) a evicted)) (Size.delta a - sum_by ev_compressed_size evicted).
Proof.
  revert a. induction evicted as [| e evicted IH]; intros a; cbn [foldl]; [rewrite sum_by_nil; apply cong64_eq; lia |].
  rewrite IH, debit_evicted_delta, sum_by_cons. apply cong64_eq. lia.
Qed.

Lemma evicted_sizes env rs : Forall result_ok rs ->
  sum_by ev_compressed_size (flat_map (fun r => evicted_of env (or_key r) <$> or_unlinked r) rs) = sum_by or_bytes_freed rs.
Proof.
  induction 1 as [| r rs [Hr _] Hrs IH]; [done |]. cbn [flat_map]. rewrite sum_by_app, sum_by_cons, IH, Hr. f_equal.
  clear. induction (or_unlinked r) as [| x xs IHx]; [done |]. cbn [fmap list_fmap]. by rewrite !sum_by_cons, <- IHx.
Qed.

Lemma account_evicted_files env evicted st : range_files (account_evicted env evicted st) = range_files st.
Proof.
  unfold account_evicted. destruct evicted as [| e es]; [done |]. destruct (negb _); [done |].
  match goal with |- range_files (write_eviction_journal_entries ?a ?b ?c ?d ?e) = _ => exact (proj1 (eviction_entries_fields a b c d e)) end.
Qed.

Lemma account_evicted_spec env evicted st : ee_consolidator env = true ->
  cong64 (Size.delta (accumulator (account_evicted env evicted st)))
    (Size.delta (accumulator st) - sum_by ev_compressed_size evicted).
Proof.
  intros Hc. unfold account_evicted. destruct evicted as [| e es]; [rewrite sum_by_nil; apply cong64_eq; lia |].
  rewrite Hc. cbn [negb].
  rewrite eviction_entries_accumulator. exact (debits_delta (e :: es) (accumulator st)).
Qed.

(** The disk shrank by what is reported, by what uncounted objects gave up and by what was removed without metadata
    being written, and the counter fell by what is reported. *)
Definition accounted (env : evict_env) (target : Z) (es es' : evict_state) (total : Z) : Prop :=
  exists (uncounted : list object_result) (lost : Z),
    es_bytes env es = es_bytes env es' + total + sum_by or_bytes_freed uncounted + lost /\ 0 <= total /\
    Forall (fun r => 0 <= or_bytes_freed r) uncounted /\ unwritten env lost /\
    cong64 (Size.delta (accumulator (es_storage es'))) (Size.delta (accumulator (es_storage es)) - total) /\
    (uncounted = [] \/ target <= total \/ exists key, ee_fence_later env key = false).

Lemma accounted_none env target es : accounted env target es es 0.
Proof. exists [], 0. rewrite sum_by_nil. split_and!; [lia | lia | constructor | apply unwritten_none | apply cong64_eq; lia | by left]. Qed.

(** Where the removal starts: after the pending journals were consolidated, unless that is skipped. *)
Definition eviction_start (env : evict_env) (cons : string -> Cons.cons_env) (cycle_env : Cons.cons_env) (skip : bool)
    (es : evict_state) : evict_state :=
  if negb skip && ee_consolidator env then on_storage (pre_consolidate cons cycle_env (es_storage es)) es else es.

(** C22: an eviction pass accounts for what left the disk, where the length of every file can be looked up.  Nothing is done when nothing
    is to be freed.  Otherwise, counted from the consolidation of the pending journals that precedes the pass (unless it is skipped), the size
    counter falls by exactly the bytes the pass reports, modulo [2^64], and the disk shrinks by those bytes and by bytes that are not counted: those of
    objects whose results were not looked at, because enough was freed before or the eviction fence was lost, and those of objects whose
    metadata could not be written after their files were removed ([uncounted_objects_not_debited], [unwritten_metadata_not_debited]). *)
Theorem eviction_accounted env cons cycle_env objects_env current max skip es es' total :
  looked_at env -> ee_consolidator env = true -> es_bytes env (eviction_start env cons cycle_env skip es) <= U64_MAX ->
  perform_eviction_with_lock env cons cycle_env objects_env current max skip es = (es', Ok total) ->
  let target := saturating_sub current (target_size env max) in
  (target = 0 /\ es' = es /\ total = 0) \/ accounted env target (eviction_start env cons cycle_env skip es) es' total.
Proof.
  intros Hcl Hc Hmax E target. unfold perform_eviction_with_lock in E. fold target in E.
  destruct (Z.eqb_spec target 0); [injection E as <- <-; by left | right].
  change (if negb skip && ee_consolidator env then _ else es) with (eviction_start env cons cycle_env skip es) in E.
  set (es0 := eviction_start env cons cycle_env skip es) in *. clearbody es0.
  destruct (collect_range_candidates_for_eviction env (es_storage es0)); [injection E as <- <-; apply accounted_none |].
  destruct (group_candidates_by_object _ _) as [| g gs]; [injection E as <- <-; apply accounted_none |].
  destruct (evict_objects env (ee_object_order env (g :: gs)) es0) as [es2 results] eqn:Eo.
  destruct (evict_objects_lost _ _ _ _ _ Hcl Hmax Eo) as (Ha & (lost & Hb & Hl) & Hok). pose proof (proj1 Hl) as Hl0.
  assert (Hnn : 0 <= es_bytes env es2) by (apply disk_bytes_nonneg, Hcl).
  destruct (aggregate _ _ _ _ _ _) as [[total' keys] evicted] eqn:Eg.
  destruct (aggregate_spec _ _ _ _ _ _ _ _ _ Hok (Z.le_refl 0) ltac:(lia) Eg) as (cs & us & -> & -> & -> & Hwhy).
  rewrite sum_by_app in Hb. apply Forall_app in Hok as [Hcs Hus]. rewrite !Z.add_0_l in *.
  pose proof (account_evicted_spec env ([] ++ flat_map (fun r => evicted_of env (or_key r) <$> or_unlinked r) cs) (es_storage es2) Hc) as Hd.
  cbn [app] in *. rewrite Ha, (evicted_sizes env cs Hcs) in Hd. exists us, lost. injection E as <- <-.
  assert (Hnt : 0 <= sum_by or_bytes_freed cs) by (apply sum_by_nonneg; intros x Hx; rewrite Forall_forall in Hcs; apply (Hcs x Hx)).
  assert (Forall (fun r => 0 <= or_bytes_freed r) us) by (eapply Forall_impl; [exact Hus | by intros ? []]).
  destruct (_ && _ && _); unfold es_bytes in *; cbn [es_storage on_storage]; rewrite account_evicted_files; split_and!; (done || lia).
Qed.

End Accounting.

(** ** Which ranges are chosen *)

(** [c] is evicted no later than [d]. *)
Definition colder (algorithm : CacheEvictionAlgorithm) (now : Z) (c d : RangeEvictionCandidate) : Prop :=
  match algorithm with
  | LRU => ec_last_accessed c <= ec_last_accessed d
  | TinyLFU =>
      let frequency c := decayed_frequency (ec_access_count c) (idle_secs now (ec_last_accessed c)) in
      frequency c < frequency d \/ (frequency c = frequency d /\ ec_last_accessed c <= ec_last_accessed d)
  end.

Lemma lfu_colder now c d : lex_le (lfu_key now c) (lfu_key now d) = true -> colder TinyLFU now c d.
Proof. unfold lex_le, lfu_key, colder. cbn [fst snd]. rewrite orb_true_iff, andb_true_iff, Z.ltb_lt, Z.eqb_eq, Z.leb_le. done. Qed.

Lemma lex_le_total a b : lex_le a b = false -> lex_le b a = true.
Proof. unfold lex_le. destruct a, b; cbn. lia. Qed.

Lemma lex_le_trans a b c : lex_le a b = true -> lex_le b c = true -> lex_le a c = true.
Proof. unfold lex_le. destruct a, b, c; cbn. lia. Qed.

Lemma sort_candidates_perm algorithm now l : sort_range_candidates algorithm now l ≡ₚ l.
Proof. destruct algorithm; [apply sort_by_key_perm | apply sort_by_perm]. Qed.

Lemma sort_candidates_sorted algorithm now l : StronglySorted (colder algorithm now) (sort_range_candidates algorithm now l).
Proof.
  destruct algorithm; [apply sort_by_key_sorted |]. cbn [sort_range_candidates].
  assert (Hs : StronglySorted (fun c d => lex_le (lfu_key now c) (lfu_key now d) = true) (sort_range_candidates_for_tinylfu now l))
    by (apply sort_by_sorted; eauto using lex_le_total, lex_le_trans).
  induction Hs as [| c rest _ IH Hc]; constructor; [done |]. eapply Forall_impl; [exact Hc | apply lfu_colder].
Qed.

(** The prefix that is taken. *)
Fixpoint select (target accumulated : Z) (l : list RangeEvictionCandidate) : list RangeEvictionCandidate :=
  match l with
  | [] => []
  | c :: l => if target <=? accumulated then [] else c :: select target (accumulated + ec_size c) l
  end.

Definition with_key (key : string) (l : list RangeEvictionCandidate) : list RangeEvictionCandidate :=
  base.filter (fun c => ec_cache_key c = key) l.

Lemma select_prefix target l : forall acc, exists spared, l = select target acc l ++ spared /\
  (spared = [] \/ target <= acc + sum_by ec_size (select target acc l)).
Proof.
  induction l as [| c l IH]; intros acc; cbn [select]; [exists []; split; [done | by left] |].
  destruct (Z.leb_spec target acc); [exists (c :: l); rewrite sum_by_nil; split; [done | right; lia] |].
  destruct (IH (acc + ec_size c)) as (sp & E & Hs). exists sp. rewrite sum_by_cons. split; [cbn; by rewrite <- E |].
  destruct Hs as [? | ?]; [by left | right; lia].
Qed.

(** Nothing is taken beyond the target. *)
Lemma select_minimal target l : forall acc ini last,
  select target acc l = ini ++ [last] -> acc + sum_by ec_size ini < target.
Proof.
  induction l as [| c l IH]; intros acc ini last E; cbn [select] in E; [by destruct ini |].
  destruct (Z.leb_spec target acc); [by destruct ini |]. destruct ini as [| d ini]; [rewrite sum_by_nil; lia |].
  injection E as <- E. specialize (IH _ _ _ E). rewrite sum_by_cons. lia.
Qed.

(** The groups kept so far, and the order of their keys. *)
Record grouping (grouped : gmap string (list RangeEvictionCandidate)) (order : list string) : Prop := {
  gr_nodup : NoDup order;
  gr_keys k : k ∈ order <-> is_Some (grouped !! k);
  gr_some k rs : grouped !! k = Some rs -> rs <> [];
}.

Lemma grouping_add grouped order c : grouping grouped order ->
  grouping (<[ec_cache_key c:=default [] (grouped !! ec_cache_key c) ++ [c]]> grouped)
    (if decide (is_Some (grouped !! ec_cache_key c)) then order else order ++ [ec_cache_key c]).
Proof.
  set (key := ec_cache_key c). intros [Hnd Hkeys Hsome]. split.
  - case_decide as Hd; [done |]. apply NoDup_app. split_and!; [done | | apply NoDup_singleton].
    intros k Hk ->%list_elem_of_singleton. by apply Hd, Hkeys.
  - intros k. destruct (decide (k = key)) as [-> | Hne].
    + rewrite lookup_insert_eq. split; [done |]. intros _. case_decide as Hd; [by apply Hkeys | apply elem_of_app; right; left].
    + rewrite lookup_insert_ne by done. specialize (Hkeys k). case_decide; [done |]. rewrite elem_of_app, list_elem_of_singleton. tauto.
  - intros k rs. destruct (decide (k = key)) as [-> | Hne]; [rewrite lookup_insert_eq | rewrite lookup_insert_ne by done; apply Hsome].
    intros [= <-]. by destruct (default [] (grouped !! key)).
Qed.

Lemma group_loop_spec target l : forall acc grouped order grouped' order',
  grouping grouped order -> 0 <= acc -> Forall (fun c => 0 <= ec_size c) l -> acc + sum_by ec_size l <= U64_MAX ->
  group_loop target acc grouped order l = (grouped', order') ->
  grouping grouped' order' /\ forall k, default [] (grouped' !! k) = default [] (grouped !! k) ++ with_key k (select target acc l).
Proof.
  induction l as [| c l IH]; intros acc grouped order grouped' order' Hg Ha Hs Hmax E; cbn [group_loop select] in *.
  { injection E as <- <-. split; [done |]. intros k. by rewrite app_nil_r. }
  destruct (target <=? acc); [injection E as <- <-; split; [done |]; intros k; by rewrite app_nil_r |].
  apply Forall_cons in Hs as [Hc Hs]. rewrite sum_by_cons in Hmax.
  assert (0 <= sum_by ec_size l) by (apply sum_by_nonneg; by apply Forall_forall).
  rewrite u64_add_small in E by (unfold U64_MAX in *; lia). set (key := ec_cache_key c) in *.
  destruct (IH (acc + ec_size c) _ _ _ _ (grouping_add _ _ c Hg) ltac:(lia) Hs ltac:(lia) E) as [Hg' Hk].
  split; [done |]. intros k. rewrite Hk. unfold with_key. destruct (decide (k = key)) as [-> | Hne].
  - rewrite lookup_insert_eq, filter_cons_True by done. cbn [default from_option id]. by rewrite <- app_assoc.
  - by rewrite lookup_insert_ne, filter_cons_False by done.
Qed.

Lemma take_groups_spec order : forall grouped, NoDup order -> (forall k, k ∈ order -> is_Some (grouped !! k)) ->
  take_groups grouped order = (fun k => (k, default [] (grouped !! k))) <$> order.
Proof.
  induction order as [| k order IH]; intros grouped Hnd Hs; cbn [take_groups fmap list_fmap]; [done |].
  apply NoDup_cons in Hnd as [Hk Hnd]. destruct (Hs k ltac:(left)) as [rs Hrs]. rewrite Hrs. cbn [default from_option]. f_equal.
  rewrite IH; [| done |].
  - apply list_fmap_ext. intros i k' Hk'. rewrite lookup_delete_ne; [done |]. intros <-. apply Hk. by eapply list_elem_of_lookup_2.
  - intros k' Hk'. rewrite lookup_delete_ne by (intros <-; done). apply Hs. by right.
Qed.

Lemma group_candidates_spec l target :
  Forall (fun c => 0 <= ec_size c) l -> sum_by ec_size l <= U64_MAX ->
  exists keys, group_candidates_by_object l target = (fun k => (k, with_key k (select target 0 l))) <$> keys /\ NoDup keys /\
    forall k, k ∈ keys <-> exists c, c ∈ select target 0 l /\ ec_cache_key c = k.
Proof.
  intros Hs Hmax. unfold group_candidates_by_object. destruct (group_loop target 0 ∅ [] l) as [grouped order] eqn:E.
  destruct (group_loop_spec target l 0 ∅ [] grouped order) as [[Hnd Hkeys Hsome] Hk]; try done.
  { split; [constructor | |]; intros k; [| intros rs]; rewrite lookup_empty; [| done]. split; [by intros ?%elem_of_nil | by intros [? ?]]. }
  exists order. rewrite take_groups_spec; [| done | intros k; by apply Hkeys]. split_and!; [| done |].
  - apply list_fmap_ext. intros i k _. by rewrite Hk, lookup_empty.
  - intros k. rewrite Hkeys. specialize (Hk k). rewrite lookup_empty in Hk. cbn [default from_option app] in Hk. split.
    + intros [rs Hrs]. rewrite Hrs in Hk. cbn in Hk. specialize (Hsome k rs Hrs). destruct rs as [| c rs]; [done |].
      assert (Hc : c ∈ with_key k (select target 0 l)) by (rewrite <- Hk; left).
      apply list_elem_of_filter in Hc as [Hc1 Hc2]. by exists c.
    + intros (c & Hc & Hck). destruct (grouped !! k); [done |]. cbn in Hk.
      assert (Hin : c ∈ with_key k (select target 0 l)) by (by apply list_elem_of_filter). rewrite <- Hk in Hin. by apply elem_of_nil in Hin.
Qed.

(** C35: the coldest ranges are selected, and no more than needed.  Whatever order the candidates come in, if their sizes add up to at most
    [u64::MAX], they split into those chosen and those spared: the groups hold the chosen ones, by object, each object once; every chosen
    one was accessed no later than every spared one (LRU), or has a lower decayed frequency, or the same and an access no
    later (TinyLFU); the chosen ones are large enough to free the target, or are all there are; and without the last one chosen
    they would not be. *)
Theorem eviction_selects_coldest algorithm now l target :
  Forall (fun c => 0 <= ec_size c) l -> sum_by ec_size l <= U64_MAX ->
  exists chosen spared keys,
    l ≡ₚ chosen ++ spared /\
    group_candidates_by_object (sort_range_candidates algorithm now l) target = (fun k => (k, with_key k chosen)) <$> keys /\
    NoDup keys /\ (forall k, k ∈ keys <-> exists c, c ∈ chosen /\ ec_cache_key c = k) /\
    (forall c d, c ∈ chosen -> d ∈ spared -> colder algorithm now c d) /\
    (spared = [] \/ target <= sum_by ec_size chosen) /\
    (forall ini last, chosen = ini ++ [last] -> sum_by ec_size ini < target).
Proof.
  intros Hs Hmax. set (sorted := sort_range_candidates algorithm now l).
  pose proof (sort_candidates_perm algorithm now l) as Hperm. pose proof (sort_candidates_sorted algorithm now l) as Hsort.
  fold sorted in Hperm, Hsort. destruct (group_candidates_spec sorted target) as (keys & Hg & Hnd & Hk); [by rewrite Hperm | by rewrite Hperm |].
  destruct (select_prefix target sorted 0) as (spared & E & Hsp). exists (select target 0 sorted), spared, keys.
  split_and!; [by rewrite <- E, Hperm | done | done | done | | done |].
  - intros c d Hc Hd. rewrite E in Hsort. exact (StronglySorted_app_1_elem_of _ _ _ _ _ Hsort Hc Hd).
  - intros ini last Hl. pose proof (select_minimal target sorted 0 ini last Hl). lia.
Qed.

(** ** A pass frees its target *)

Lemma disk_bytes_sub env files files' : sizes_seen env -> files' ⊆ files -> disk_bytes env files' <= disk_bytes env files.
Proof.
  intros Hs Hsub. apply map_to_list_submseteq in Hsub. apply submseteq_Permutation in Hsub as [k Hk].
  unfold disk_bytes. rewrite Hk, sum_by_app. enough (0 <= sum_by (fun pf => len_of env pf.1 pf.2) k) by lia.
  apply sum_by_nonneg. intros. by apply len_of_nonneg.
Qed.

(** Distinct files that are gone account for as many bytes. *)
Lemma disk_bytes_gone env ps : forall files files',
  sizes_seen env -> NoDup ps -> files' ⊆ files -> (forall p, p ∈ ps -> is_Some (files !! p) /\ files' !! p = None) ->
  sum_by (fun p => default 0 (file_len env files p)) ps <= disk_bytes env files - disk_bytes env files'.
Proof.
  induction ps as [| p ps IH]; intros files files' Hs Hnd Hsub Hp.
  { rewrite sum_by_nil. pose proof (disk_bytes_sub env files files' Hs Hsub). lia. }
  apply NoDup_cons in Hnd as [Hnp Hnd]. destruct (Hp p ltac:(left)) as [[f Hf] Hnone].
  rewrite sum_by_cons, (file_len_present _ _ _ _ Hs Hf), (disk_bytes_delete env files p f Hf). cbn [default from_option id].
  assert (Hrest : forall q, q ∈ ps -> base.delete p files !! q = files !! q)
    by (intros q Hq; rewrite lookup_delete_ne; [done | intros <-; done]).
  specialize (IH (base.delete p files) files' Hs Hnd).
  replace (sum_by (fun p => default 0 (file_len env files p)) ps)
    with (sum_by (fun q => default 0 (file_len env (base.delete p files) q)) ps).
  - enough (sum_by (fun q => default 0 (file_len env (base.delete p files) q)) ps <= disk_bytes env (base.delete p files) - disk_bytes env files') by lia.
    apply IH.
    + apply map_subseteq_spec. intros q g Hq. destruct (decide (q = p)) as [-> | Hne]; [congruence |].
      rewrite lookup_delete_ne by done. eapply lookup_weaken; done.
    + intros q Hq. rewrite (Hrest q Hq). apply Hp. by right.
  - clear -Hrest. induction ps as [| q ps IHq]; [done |]. rewrite !sum_by_cons. f_equal.
    + unfold file_len. by rewrite Hrest by left.
    + apply IHq. intros x Hx. apply Hrest. by right.
Qed.

(** Nothing holds the pass up. *)
Record unhindered (env : evict_env) : Prop := {
  uh_fence key : ee_fence env key = true;
  uh_fence_later key : ee_fence_later env key = true;
  uh_write_lock key : ee_write_lock env key = Ok true;
  uh_meta_lock key : ee_meta_lock env key = None;
  uh_removable p : ee_removable env p = true;
  uh_objects l : ee_object_order env l ≡ₚ l;
}.

Section Target.
Context `{HashIter} `{PathCodec}.

(** What the removal of one object leaves alone. *)
Lemma batch_delete_frame env key extents st :
  let st' := (batch_delete_ranges env key extents st).1 in
  journals_dir_exists st' = journals_dir_exists st /\ journal_files st' = journal_files st /\ range_files st' ⊆ range_files st /\
  forall p, p <> get_new_metadata_file_path key -> metadata_files st' !! p = metadata_files st !! p.
Proof.
  unfold batch_delete_ranges. destruct extents; [done |]. destruct (metadata_files st !! get_new_metadata_file_path key) as [f |]; [| done].
  destruct (ee_meta_lock env key); [by destruct f |]. destruct f as [m | |]; [| done | done].
  match goal with |- context [unlink_all env ?wc ?files ?tasks] => pose proof (unlink_all_sub env wc tasks files) as Hsub;
    destruct (unlink_all env wc files tasks) as [files' results] end. cbn [fst] in Hsub.
  destruct (_ && _); [destruct (ee_remove_meta env key) | destruct (ee_write_meta env key)]; cbn; (split_and!; [done | done | done |]); intros q Hq;
    [by rewrite lookup_delete_ne | done | done | by rewrite lookup_insert_ne].
Qed.

Definition extents_of (rs : list RangeEvictionCandidate) : list (Z * Z) := (fun c => (ec_range_start c, ec_range_end c)) <$> rs.

(** One object, unhindered: its chosen files are gone, and nothing else is touched. *)
Lemma evict_object_removes env key rs es es' res m :
  clean env -> unhindered env -> es_bytes env es <= U64_MAX -> is_cache_entry_active env key (es_storage es) = false -> rs <> [] ->
  metadata_files (es_storage es) !! get_new_metadata_file_path key = Some (MetaParsed m) ->
  evict_object env (key, rs) es = (es', res) ->
  journals_dir_exists (es_storage es') = journals_dir_exists (es_storage es) /\
  journal_files (es_storage es') = journal_files (es_storage es) /\ range_files (es_storage es') ⊆ range_files (es_storage es) /\
  (forall p, p <> get_new_metadata_file_path key -> metadata_files (es_storage es') !! p = metadata_files (es_storage es) !! p) /\
  (forall r, r ∈ cm_ranges m -> extent r ∈ extents_of rs -> is_safe_relative_file_path (nr_file_path r) = true ->
     range_files (es_storage es') !! nr_file_path r = None).
Proof.
  intros [Hs Hord Hw] Hu Hmax Hact Hne Hm E. unfold evict_object in E. rewrite (uh_fence env Hu key), Hact in E. cbn [negb] in E.
  unfold batch_evict_range_files in E. destruct rs as [| c cs]; [done |]. rewrite (uh_write_lock env Hu key) in E.
  fold (extents_of (c :: cs)) in E. set (extents := extents_of (c :: cs)) in *.
  pose proof (batch_delete_frame env key extents (es_storage es)) as Hframe.
  destruct (batch_delete_ranges env key extents (es_storage es)) as [st' r] eqn:Ed. cbn [fst] in Hframe.
  assert (es_storage es' = st') as -> by (destruct r; injection E as <- <-; done). destruct Hframe as (H1 & H2 & H3 & H4).
  split_and!; [done | done | done | done |]. intros r0 Hr Hx Hsafe.
  destruct (batch_delete_cases env key extents (es_storage es) st' r m Hs Hord Hmax Hm Ed) as [[_ [[_ Hnil] | (e & _ & Hl)]] | [Hg _]].
  - discriminate Hnil.
  - by rewrite (uh_meta_lock env Hu key) in Hl.
  - apply Hg. split_and!; [done | done | done | apply (uh_removable env Hu)].
Qed.

Lemma is_active_same env key st st' :
  journals_dir_exists st' = journals_dir_exists st -> journal_files st' = journal_files st ->
  is_cache_entry_active env key st' = is_cache_entry_active env key st.
Proof. unfold is_cache_entry_active. by intros -> ->. Qed.

Lemma evict_objects_removes env groups : forall es es' results,
  clean env -> unhindered env -> es_bytes env es <= U64_MAX -> (forall key, is_cache_entry_active env key (es_storage es) = false) ->
  NoDup (get_new_metadata_file_path <$> groups.*1) ->
  (forall g, g ∈ groups -> g.2 <> [] /\ exists m, metadata_files (es_storage es) !! get_new_metadata_file_path g.1 = Some (MetaParsed m)) ->
  evict_objects env groups es = (es', results) ->
  range_files (es_storage es') ⊆ range_files (es_storage es) /\
  forall g m r, g ∈ groups -> metadata_files (es_storage es) !! get_new_metadata_file_path g.1 = Some (MetaParsed m) ->
    r ∈ cm_ranges m -> extent r ∈ extents_of g.2 -> is_safe_relative_file_path (nr_file_path r) = true ->
    range_files (es_storage es') !! nr_file_path r = None.
Proof.
  induction groups as [| [key rs] groups IH]; intros es es' results Hcl Hu Hmax Hact Hnd Hg E.
  { injection E as <- <-. split; [done |]. by intros g m r ?%elem_of_nil. }
  cbn [evict_objects] in E. destruct (evict_object env (key, rs) es) as [es1 r1] eqn:E1.
  destruct (evict_objects env groups es1) as [es2 rs2] eqn:E2. injection E as <- <-.
  destruct (Hg (key, rs) ltac:(left)) as [Hne [m Hm]]. cbn [fst snd] in *.
  destruct (evict_object_removes env key rs es es1 r1 m Hcl Hu Hmax (Hact key) Hne Hm E1) as (Hj & Hjf & Hsub & Hmeta & Hgone).
  assert (Hmax1 : es_bytes env es1 <= U64_MAX) by (pose proof (disk_bytes_sub env _ _ (cl_sizes env Hcl) Hsub); unfold es_bytes in *; lia).
  rewrite !fmap_cons in Hnd. cbn [fst] in Hnd. apply NoDup_cons in Hnd as [Hnk Hnd].
  assert (Hother : forall g, g ∈ groups -> metadata_files (es_storage es1) !! get_new_metadata_file_path g.1 =
    metadata_files (es_storage es) !! get_new_metadata_file_path g.1).
  { intros g Hin. apply Hmeta. intros Heq. apply Hnk. rewrite <- Heq. apply list_elem_of_fmap. exists g.1. split; [done |].
    apply list_elem_of_fmap. by exists g. }
  destruct (IH es1 es2 rs2 Hcl Hu Hmax1) as [Hsub2 Hgone2]; [| done | | done |].
  - intros k. rewrite (is_active_same env k (es_storage es)) by done. apply Hact.
  - intros g Hin. rewrite (Hother g Hin). apply Hg. by right.
  - split; [by etrans |]. intros g m' r Hin Hm' Hr Hx Hsafe. apply elem_of_cons in Hin as [-> | Hin].
    + cbn [fst snd] in *. rewrite Hm in Hm'. injection Hm' as <-. specialize (Hgone r Hr Hx Hsafe).
      destruct (range_files (es_storage es2) !! nr_file_path r) eqn:Er; [| done]. eapply lookup_weaken in Er; [| exact Hsub2]. congruence.
    + eapply (Hgone2 g m' r); [done | by rewrite (Hother g Hin) | done | done | done].
Qed.

(** The ranges that may be evicted, with the metadata that lists them. *)
Definition listed (env : evict_env) (st : Storage) : list (string * NewCacheMetadata * NewRangeSpec) :=
  flat_map (fun pf => if extension_is "meta" pf.1 then
                        match pf.2 with
                        | MetaParsed m => (fun r => (pf.1, m, r)) <$>
                            base.filter (fun r => within_admission (ee_now env r) (nr_last_accessed r) = false) (cm_ranges m)
                        | _ => []
                        end
                      else []) (hash_iter (metadata_files st)).

Definition candidate_at (env : evict_env) (st : Storage) (x : string * NewCacheMetadata * NewRangeSpec) : RangeEvictionCandidate :=
  candidate_of env (range_files st) x.1.1 x.1.2 x.2.

Lemma collect_listed env st : collect_range_candidates_for_eviction env st = candidate_at env st <$> listed env st.
Proof.
  unfold collect_range_candidates_for_eviction, listed. induction (hash_iter (metadata_files st)) as [| [p f] l IH]; [done |].
  cbn [flat_map fst snd]. rewrite fmap_app, <- IH. f_equal. destruct (extension_is "meta" p); [| done]. destruct f; [| done | done].
  cbn [collect_candidates_from_metadata_file]. rewrite <- list_fmap_compose. done.
Qed.

Lemma listed_elem env st x : x ∈ listed env st -> metadata_files st !! x.1.1 = Some (MetaParsed x.1.2) /\ x.2 ∈ cm_ranges x.1.2.
Proof.
  unfold listed. rewrite list_elem_of_In, in_flat_map. intros ([p f] & Hin & Hx). cbn [fst snd] in Hx.
  destruct (extension_is "meta" p); [| done]. destruct f as [m | |]; [| done | done]. apply list_elem_of_In, list_elem_of_fmap in Hx as (r & -> & Hr).
  apply list_elem_of_filter in Hr as [_ Hr]. split; [| done]. by apply hash_iter_lookup, list_elem_of_In.
Qed.

(** Every metadata file is its key's, and every range that may be evicted has a file
    of its own. *)
Record filed (env : evict_env) (st : Storage) : Prop := {
  fl_path p m : metadata_files st !! p = Some (MetaParsed m) -> p = get_new_metadata_file_path (cm_cache_key m);
  fl_file x : x ∈ listed env st -> is_safe_relative_file_path (nr_file_path x.2) = true /\ is_Some (range_files st !! nr_file_path x.2);
  fl_distinct : NoDup ((fun x => nr_file_path x.2) <$> listed env st);
}.

Lemma candidate_size env st x : sizes_seen env -> filed env st -> x ∈ listed env st ->
  ec_size (candidate_at env st x) = default 0 (file_len env (range_files st) (nr_file_path x.2)).
Proof.
  intros Hs Hfl Hx. destruct (fl_file env st Hfl x Hx) as [_ [f Hf]]. unfold candidate_at, candidate_of. cbn [ec_size].
  by rewrite (file_len_present _ _ _ _ Hs Hf).
Qed.

(** The groups of a prefix of the candidates name distinct metadata files. *)
Lemma groups_distinct env st lc keys :
  filed env st -> (forall x, x ∈ lc -> x ∈ listed env st) -> NoDup keys ->
  (forall k, k ∈ keys <-> exists c, c ∈ candidate_at env st <$> lc /\ ec_cache_key c = k) ->
  NoDup (get_new_metadata_file_path <$> keys) /\
  forall k, k ∈ keys -> with_key k (candidate_at env st <$> lc) <> [] /\
    exists m, metadata_files st !! get_new_metadata_file_path k = Some (MetaParsed m) /\ cm_cache_key m = k.
Proof.
  intros Hfl Hlc Hnd Hk.
  assert (Hm : forall k, k ∈ keys -> exists m, metadata_files st !! get_new_metadata_file_path k = Some (MetaParsed m) /\ cm_cache_key m = k).
  { intros k Hin. apply Hk in Hin as (c & Hc & <-). apply list_elem_of_fmap in Hc as (x & -> & Hx).
    destruct (listed_elem env st x (Hlc x Hx)) as [Hmx _]. exists x.1.2. cbn. by rewrite <- (fl_path env st Hfl _ _ Hmx). }
  split.
  - apply NoDup_fmap_2_strong; [| done]. intros k k' H1 H2 Heq. destruct (Hm k H1) as (m & E1 & <-), (Hm k' H2) as (m' & E2 & <-).
    rewrite Heq, E2 in E1. by injection E1 as <-.
  - intros k Hin. split; [| by apply Hm]. apply Hk in Hin as (c & Hc & Hck). intros Hnil.
    assert (Hw : c ∈ with_key k (candidate_at env st <$> lc)) by (by apply list_elem_of_filter). rewrite Hnil in Hw. by apply elem_of_nil in Hw.
Qed.

(** The chosen files are gone, and the disk is smaller by their sizes. *)
Lemma chosen_gone env es es' results lc keys order :
  clean env -> unhindered env -> es_bytes env es <= U64_MAX -> (forall key, is_cache_entry_active env key (es_storage es) = false) ->
  filed env (es_storage es) -> (forall x, x ∈ lc -> x ∈ listed env (es_storage es)) -> NoDup ((fun x => nr_file_path x.2) <$> lc) ->
  NoDup keys -> (forall k, k ∈ keys <-> exists c, c ∈ candidate_at env (es_storage es) <$> lc /\ ec_cache_key c = k) ->
  order ≡ₚ (fun k => (k, with_key k (candidate_at env (es_storage es) <$> lc))) <$> keys ->
  evict_objects env order es = (es', results) ->
  sum_by ec_size (candidate_at env (es_storage es) <$> lc) <= es_bytes env es - es_bytes env es'.
Proof.
  intros Hcl Hu Hmax Hact Hfl Hlc Hndf Hnd Hk Hord E. destruct (groups_distinct env (es_storage es) lc keys Hfl Hlc Hnd Hk) as [Hpaths Hg].
  assert (Hfst : order.*1 ≡ₚ keys).
  { rewrite Hord, <- list_fmap_compose. by rewrite (list_fmap_ext (fst ∘ _) id) , list_fmap_id by done. }
  destruct (evict_objects_removes env order es es' results Hcl Hu Hmax Hact) as [Hsub Hgone]; [by rewrite Hfst | | done |].
  { intros g Hin. rewrite Hord in Hin. apply list_elem_of_fmap in Hin as (k & -> & Hin). cbn [fst snd]. destruct (Hg k Hin) as (? & m & ? & _).
    split; [done | by exists m]. }
  etrans; [| apply (disk_bytes_gone env ((fun x => nr_file_path x.2) <$> lc) _ _ (cl_sizes env Hcl) Hndf Hsub)].
  - clear -Hcl Hfl Hlc. induction lc as [| x lc IH]; [done |]. rewrite !fmap_cons, !sum_by_cons.
    rewrite (candidate_size env (es_storage es) x (cl_sizes env Hcl) Hfl (Hlc x ltac:(left))). apply Z.add_le_mono_l, IH.
    intros y Hy. apply Hlc. by right.
  - intros p Hp. apply list_elem_of_fmap in Hp as (x & -> & Hx). destruct (fl_file env _ Hfl x (Hlc x Hx)) as [Hsafe Hsome].
    split; [done |]. destruct (listed_elem env _ x (Hlc x Hx)) as [Hmx Hrx].
    set (k := cm_cache_key x.1.2). assert (Hin : k ∈ keys) by (apply Hk; exists (candidate_at env (es_storage es) x); split; [| done]; apply list_elem_of_fmap; by exists x).
    apply (Hgone (k, with_key k (candidate_at env (es_storage es) <$> lc)) x.1.2 x.2); [| | done | | done].
    + rewrite Hord. apply list_elem_of_fmap. by exists k.
    + cbn [fst]. unfold k. by rewrite <- (fl_path env _ Hfl _ _ Hmx).
    + cbn [snd]. apply list_elem_of_fmap. exists (candidate_at env (es_storage es) x). split; [done |].
      apply list_elem_of_filter. split; [done |]. apply list_elem_of_fmap. by exists x.
Qed.

Lemma candidates_bounded env st : sizes_seen env -> filed env st ->
  Forall (fun c => 0 <= ec_size c) (candidate_at env st <$> listed env st) /\
  sum_by ec_size (candidate_at env st <$> listed env st) <= disk_bytes env (range_files st).
Proof.
  intros Hs Hfl. split.
  - apply Forall_forall. intros c Hc. apply list_elem_of_fmap in Hc as (x & -> & Hx). rewrite (candidate_size env st x Hs Hfl Hx).
    destruct (fl_file env st Hfl x Hx) as [_ [f Hf]]. rewrite (file_len_present _ _ _ _ Hs Hf). by apply len_of_nonneg.
  - pose proof (disk_bytes_gone env ((fun x => nr_file_path x.2) <$> listed env st) (range_files st) ∅ Hs (fl_distinct env st Hfl)) as Hle.
    assert (Hz : disk_bytes env ∅ = 0) by done. rewrite Hz in Hle. etrans; [| etrans; [apply Hle |]; [apply map_empty_subseteq | | lia]].
    + assert (Hall : forall x, x ∈ listed env st -> x ∈ listed env st) by done. revert Hall. generalize (listed env st) at 1 3 4.
      intros l Hall. induction l as [| x l IH]; [done |]. rewrite !fmap_cons, !sum_by_cons.
      rewrite (candidate_size env st x Hs Hfl (Hall x ltac:(left))). apply Z.add_le_mono_l, IH. intros y Hy. apply Hall. by right.
    + intros p Hp. apply list_elem_of_fmap in Hp as (x & -> & Hx). split; [by apply (fl_file env st Hfl x Hx) | apply lookup_empty].
Qed.

(** What a pass chooses: enough, of the ranges that are listed. *)
Lemma chosen_listed env st algorithm now target :
  sizes_seen env -> filed env st -> disk_bytes env (range_files st) <= U64_MAX ->
  target <= sum_by ec_size (candidate_at env st <$> listed env st) ->
  exists lc keys,
    group_candidates_by_object (sort_range_candidates algorithm now (candidate_at env st <$> listed env st)) target =
      (fun k => (k, with_key k (candidate_at env st <$> lc))) <$> keys /\
    NoDup keys /\ (forall k, k ∈ keys <-> exists c, c ∈ candidate_at env st <$> lc /\ ec_cache_key c = k) /\
    (forall x, x ∈ lc -> x ∈ listed env st) /\ NoDup ((fun x => nr_file_path x.2) <$> lc) /\
    target <= sum_by ec_size (candidate_at env st <$> lc).
Proof.
  intros Hs Hfl Hmax Hsum. destruct (candidates_bounded env st Hs Hfl) as [Hnn Hle].
  set (sorted := sort_range_candidates algorithm now (candidate_at env st <$> listed env st)).
  assert (Hperm : sorted ≡ₚ candidate_at env st <$> listed env st) by apply sort_candidates_perm.
  destruct (group_candidates_spec sorted target) as (keys & Hg & Hnd & Hk); [by rewrite Hperm | rewrite Hperm; lia |].
  destruct (select_prefix target sorted 0) as (spared & E & Hsp).
  apply Permutation_map_inv in Hperm as (ls & Els & Hls).
  assert (E' : candidate_at env st <$> ls = select target 0 sorted ++ spared) by (etrans; [symmetry; exact Els | exact E]).
  apply fmap_app_inv in E' as (lc & lsp & Hlc & Hlsp & ->). exists lc, keys. rewrite <- Hlc. split_and!; [done | done | done | | |].
  - intros x Hx. rewrite Hls. apply elem_of_app. by left.
  - pose proof (fl_distinct env st Hfl) as Hd. rewrite Hls, fmap_app in Hd. by apply NoDup_app in Hd as [Hd _].
  - destruct Hsp as [-> | Ht]; [| lia]. symmetry in Hlsp. apply fmap_nil_inv in Hlsp as ->. rewrite app_nil_r in Hls. rewrite Hlc, <- Hls. exact Hsum.
Qed.

(** C21: eviction frees its target.  When nothing holds the pass up, every metadata file
    is its key's and every range that may be evicted has a file of its own, a pass
    whose candidates hold the bytes to free reports at least as many freed, and the
    disk is smaller by at least what it reports: a cache whose size is on record
    exactly ends at or below the target size. *)
Theorem eviction_reaches_target env cons cycle_env objects_env current max es es' total :
  clean env -> unhindered env -> es_bytes env es <= U64_MAX -> (forall key, is_cache_entry_active env key (es_storage es) = false) ->
  filed env (es_storage es) ->
  saturating_sub current (target_size env max) <= sum_by ec_size (collect_range_candidates_for_eviction env (es_storage es)) ->
  perform_eviction_with_lock env cons cycle_env objects_env current max true es = (es', Ok total) ->
  saturating_sub current (target_size env max) <= total /\ es_bytes env es' + total <= es_bytes env es /\
  (current = es_bytes env es -> es_bytes env es' <= target_size env max).
Proof.
  intros Hcl Hu Hmax Hact Hfl Hsum E. set (target := saturating_sub current (target_size env max)) in *.
  enough (Hgoal : target <= total /\ es_bytes env es' + total <= es_bytes env es)
    by (destruct Hgoal; split_and!; [done | done |]; unfold target, saturating_sub in *; lia).
  unfold perform_eviction_with_lock in E. fold target in E.
  destruct (Z.eqb_spec target 0) as [E0 | Hne]; [injection E as <- <-; lia |]. cbn [negb andb] in E.
  assert (Hpos : 0 < target) by (unfold target, saturating_sub in *; lia). rewrite (collect_listed env (es_storage es)) in *.
  destruct (chosen_listed env (es_storage es) (ee_algorithm env) (ee_sort_now env) target (cl_sizes env Hcl) Hfl Hmax Hsum)
    as (lc & keys & Hg & Hnd & Hk & Hlc & Hndf & Hlsum).
  destruct (candidate_at env (es_storage es) <$> listed env (es_storage es)) as [| c0 cs0]; [rewrite sum_by_nil in Hsum; lia |].
  rewrite Hg in E. destruct keys as [| k0 ks0].
  { assert (lc = []) as -> by (destruct lc as [| x lc]; [done |]; exfalso; eapply elem_of_nil, (proj2 (Hk _)); eexists; split; [left | done]).
    change (target <= 0) in Hlsum. lia. }
  set (groups := _ <$> k0 :: ks0) in *.
  assert (Hgne : exists g gs, groups = g :: gs) by (by do 2 eexists). destruct Hgne as (g0 & gs0 & Hgs). rewrite Hgs in E. rewrite <- Hgs in E.
  destruct (evict_objects env (ee_object_order env groups) es) as [es2 results] eqn:Eo.
  destruct (evict_objects_bytes _ _ _ _ _ Hcl Hmax Eo) as (_ & Hb & Hok).
  pose proof (chosen_gone env es es2 results lc (k0 :: ks0) _ Hcl Hu Hmax Hact Hfl Hlc Hndf Hnd Hk (uh_objects env Hu groups) Eo) as Hgone.
  assert (Hnn : 0 <= es_bytes env es2) by (apply disk_bytes_nonneg, Hcl).
  destruct (aggregate _ _ _ _ _ _) as [[total' nkeys] evicted] eqn:Eg.
  destruct (aggregate_spec _ _ _ _ _ _ _ _ _ Hok (Z.le_refl 0) ltac:(lia) Eg) as (cs & us & -> & -> & -> & Hwhy).
  rewrite sum_by_app in Hb. apply Forall_app in Hok as [_ Hus].
  assert (0 <= sum_by or_bytes_freed us) by (apply sum_by_nonneg; intros x Hx; rewrite Forall_forall in Hus; apply (Hus x Hx)).
  assert (Hes : es_bytes env es' = es_bytes env es2 /\ total = 0 + sum_by or_bytes_freed cs).
  { injection E as <- <-. split; [| done]. unfold es_bytes. f_equal.
    destruct (_ && _ && _); cbn [es_storage on_storage]; apply account_evicted_files. }
  destruct Hes as [-> ->]. destruct Hwhy as [-> | [Ht | [key Hkey]]]; [rewrite sum_by_nil in *; lia | lia |].
  by rewrite (uh_fence_later env Hu key) in Hkey.
Qed.

End Target.

(** ** Passes *)

#[local] Existing Instance map_order.
#[local] Existing Instance sample_codec.

Definition sample_spec (s : Z) (path : string) (size last : Z) : NewRangeSpec :=
  mkNewRangeSpec s (s + size - 1) path Lz4 size size 0 last 0 None.

Definition sample_meta (key : string) (rs : list NewRangeSpec) : meta_file :=
  MetaParsed (mkNewCacheMetadata key (ObjectMetadata_new "v1" "" 200 None) rs 0 100
    (mkCompressionInfo Lz4 None None None) None None 0 None).

Definition sample_a1 : NewRangeSpec := sample_spec 0 "a1.bin" 1 1.
Definition sample_a2 : NewRangeSpec := sample_spec 1 "a2.bin" 100 3.
Definition sample_b : NewRangeSpec := sample_spec 0 "b.bin" 1 2.

(** Two objects: a byte and a hundred of one, a byte of the other. *)
Definition sample_evict_storage : Storage :=
  set_metadata_files {[ get_new_metadata_file_path "b/k/x" := sample_meta "b/k/x" [sample_a1; sample_a2];
                        get_new_metadata_file_path "b/k/y" := sample_meta "b/k/y" [sample_b] ]}
    (set_range_files {[ "a1.bin"%string := Disk.Readable [Byte.x00]; "a2.bin"%string := Disk.Readable (replicate 100 Byte.x00);
                        "b.bin"%string := Disk.Readable [Byte.x00] ]} empty_storage).

Definition sample_evict_state : evict_state := mkEvictState sample_evict_storage None ∅ 0.

Definition sample_evict_env (write_meta : string -> option ProxyError) : evict_env :=
  mkEvictEnv LRU 80 "/cache" "i" true (fun _ => 1000 * NANOS_PER_SEC) (1000 * NANOS_PER_SEC) (fun _ => false) (fun _ => 0)
    (fun _ => None) (fun _ => true) id id (fun _ => true) (fun _ => true) (fun _ => false) (fun _ => 0) (fun _ => true)
    (fun _ => Ok true) (fun _ => None) (fun _ => true) write_meta (fun _ => Locked false None) (fun _ => 0).

Definition no_failure : string -> option ProxyError := fun _ => None.

Definition sample_cons_env : Cons.cons_env := Cons.mkConsEnv (fun _ => 0) 0 true (fun _ => true) (fun _ => true) None.

Definition sample_pass (env : evict_env) (current max : Z) : evict_state * Result Z :=
  perform_eviction_with_lock env (fun _ => sample_cons_env) sample_cons_env (Size.mkLockedEnv 0 "i" None None) current max true
    sample_evict_state.

Lemma sample_clean : clean (sample_evict_env no_failure).
Proof. by repeat split. Qed.

Lemma sample_looked_at : looked_at (sample_evict_env no_failure).
Proof. by repeat split. Qed.

Lemma sample_unhindered : unhindered (sample_evict_env no_failure).
Proof. by repeat split. Qed.

Lemma batch_deletion_exact_witness :
  let r := batch_delete_ranges (sample_evict_env no_failure) "b/k/x" [(0, 0)] sample_evict_storage in
  exists d, r.2 = Ok d /\ bd_bytes_freed d = 1 /\ bd_all_ranges_evicted d = false /\
    freed (sample_evict_env no_failure) sample_evict_storage r.1 d.
Proof.
  destruct (batch_delete_ranges (sample_evict_env no_failure) "b/k/x" [(0, 0)] sample_evict_storage) as [st' res] eqn:E. cbn [fst snd].
  assert (Hr : (batch_delete_ranges (sample_evict_env no_failure) "b/k/x" [(0, 0)] sample_evict_storage).2 =
    Ok (mkDeletion 1 false ["/cache/ranges/a1.bin"%string] [(0, 0)] [removed_range sample_a1 1 false] [])) by (by vm_compute).
  rewrite E in Hr. cbn [snd] in Hr. eexists. split; [exact Hr |]. split; [done |]. split; [done |].
  destruct (batch_deletion_exact (sample_evict_env no_failure) "b/k/x" [(0, 0)] sample_evict_storage st' res
    (mkNewCacheMetadata "b/k/x" (ObjectMetadata_new "v1" "" 200 None) [sample_a1; sample_a2] 0 100
      (mkCompressionInfo Lz4 None None None) None None 0 None)) as [Hf _].
  - exact (cl_sizes _ sample_clean).
  - exact (cl_order _ sample_clean).
  - by vm_compute.
  - by vm_compute.
  - vm_compute. repeat (constructor; [rewrite ?elem_of_cons, elem_of_nil; intuition discriminate |]). constructor.
  - exact E.
  - by apply Hf.
Defined.

Lemma eviction_accounted_witness :
  exists es' total, sample_pass (sample_evict_env no_failure) 102 101 = (es', Ok total) /\ total = 101 /\
    accounted (sample_evict_env no_failure) 22 sample_evict_state es' total.
Proof.
  destruct (sample_pass (sample_evict_env no_failure) 102 101) as [es' res] eqn:E.
  assert (Hr : (sample_pass (sample_evict_env no_failure) 102 101).2 = Ok 101) by (by vm_compute). rewrite E in Hr. cbn [snd] in Hr. subst res.
  exists es', 101. split; [done |]. split; [done |].
  assert (Ht : saturating_sub 102 (target_size (sample_evict_env no_failure) 101) = 22) by (by vm_compute).
  destruct (eviction_accounted (sample_evict_env no_failure) (fun _ => sample_cons_env) sample_cons_env (Size.mkLockedEnv 0 "i" None None)
    102 101 true sample_evict_state es' 101 sample_looked_at eq_refl ltac:(by vm_compute) E) as [[Hz _] | Ha].
  - by rewrite Ht in Hz.
  - rewrite Ht in Ha. exact Ha.
Defined.

Lemma eviction_selects_coldest_witness :
  let l := collect_range_candidates_for_eviction (sample_evict_env no_failure) sample_evict_storage in
  length l = 3%nat /\
  exists chosen spared keys, l ≡ₚ chosen ++ spared /\
    group_candidates_by_object (sort_range_candidates LRU 0 l) 2 = (fun k => (k, with_key k chosen)) <$> keys /\
    2 <= sum_by ec_size chosen.
Proof.
  split; [by vm_compute |].
  destruct (eviction_selects_coldest LRU 0 (collect_range_candidates_for_eviction (sample_evict_env no_failure) sample_evict_storage) 2)
    as (chosen & spared & keys & H1 & H2 & _ & _ & _ & H3 & _).
  - vm_compute. repeat constructor; done.
  - by vm_compute.
  - exists chosen, spared, keys. split_and!; [done | done |]. destruct H3 as [-> | ?]; [| done].
    rewrite app_nil_r in H1. rewrite <- H1. by vm_compute.
Defined.

Lemma sample_filed : filed (sample_evict_env no_failure) sample_evict_storage.
Proof.
  split.
  - intros p m Hm. unfold sample_evict_storage in Hm. cbn [metadata_files set_metadata_files] in Hm.
    apply lookup_insert_Some in Hm as [[<- Hm] | [_ Hm]]; [by injection Hm as <- |].
    apply lookup_singleton_Some in Hm as [<- Hm]. by injection Hm as <-.
  - assert (Hall : Forall (fun x => is_safe_relative_file_path (nr_file_path x.2) = true /\ is_Some (range_files sample_evict_storage !! nr_file_path x.2))
      (listed (sample_evict_env no_failure) sample_evict_storage)) by (vm_compute; repeat constructor; by eexists).
    by apply Forall_forall.
  - vm_compute. repeat (constructor; [rewrite ?elem_of_cons, elem_of_nil; intuition discriminate |]). constructor.
Qed.

Lemma eviction_reaches_target_witness :
  exists es' total, sample_pass (sample_evict_env no_failure) 102 101 = (es', Ok total) /\ 22 <= total /\
    es_bytes (sample_evict_env no_failure) es' <= 80.
Proof.
  destruct (sample_pass (sample_evict_env no_failure) 102 101) as [es' res] eqn:E.
  assert (Hr : (sample_pass (sample_evict_env no_failure) 102 101).2 = Ok 101) by (by vm_compute). rewrite E in Hr. cbn [snd] in Hr. subst res.
  destruct (eviction_reaches_target (sample_evict_env no_failure) (fun _ => sample_cons_env) sample_cons_env (Size.mkLockedEnv 0 "i" None None)
    102 101 sample_evict_state es' 101) as (H1 & _ & H3).
  - exact sample_clean.
  - exact sample_unhindered.
  - by vm_compute.
  - intros key. done.
  - exact sample_filed.
  - by vm_compute.
  - exact E.
  - exists es', 101. split; [done |]. split; [lia |].
    assert (Ht : target_size (sample_evict_env no_failure) 101 = 80) by (by vm_compute). rewrite Ht in H3. apply H3. by vm_compute.
Defined.

(** ** Where the code departs from its comments *)

(** The files of every chosen object are removed before the results are looked at.
    With the first object's hundred and one bytes the target is reached, and the byte
    of the second is gone from the disk but neither debited nor journalled. *)
Example uncounted_objects_not_debited :
  let '(es', res) := sample_pass (sample_evict_env no_failure) 102 65 in
  res = Ok 101 /\ range_files (es_storage es') = ∅ /\ Size.delta (accumulator (es_storage es')) = -101 /\
  Forall (fun e => je_cache_key e = "b/k/x"%string) (journal_entries (es_storage es')).
Proof. vm_compute. split_and!; [done | done | done |]. repeat constructor. Qed.

(** When the metadata cannot be rewritten after the files were removed, nothing is
    debited and the metadata still lists them. *)
Example unwritten_metadata_not_debited :
  let env := sample_evict_env (fun _ => Some (CacheError "full")) in
  let '(st', res) := batch_delete_ranges env "b/k/x" [(0, 0)] sample_evict_storage in
  res = Err (CacheError "full") /\ range_files st' !! "a1.bin"%string = None /\
  metadata_files st' = metadata_files sample_evict_storage /\ accumulator st' = accumulator sample_evict_storage.
Proof. by vm_compute. Qed.

End Evict.
