(* ===== verification/WriteLedger.v ===== *)
(** * The ledger of staged ranges ([write_ledger.rs])

    Every instance appends the ranges it stages to a file of its own; staging eviction
    reads them all, oldest first, and checks each candidate against its metadata before
    it acts.  A file is its lines, of which the last may lack its end after a failed
    write; JSON is the correspondence between an entry and its line.  An append holds
    the lock of the file for its whole write, and compaction only while it puts the
    rewritten file in place: the steps of both, interleaved between instances, are a
    relation at the end. *)

From S2P Require Import Prelude CacheTypes Ranges RangeMerge Maps DiskPaths DiskRanges Storage RustStr.
From stdpp Require Import gmap strings sorting.

#[local] Open Scope Z_scope.

Module Ledger.
Import Store.

(** ** Entries *)

Record WriteLedgerEntry := mkLedgerEntry {
  le_timestamp : Z;
  le_cache_key : string;
  le_range_start : Z;
  le_range_end : Z;
  le_compressed_size : Z;
  le_instance_id : string;
}.

#[export] Instance WriteLedgerEntry_eq_dec : EqDecision WriteLedgerEntry.
Proof. solve_decision. Defined.

Definition entry_identity : Type := string * Z * Z * Z * string.

Definition identity (e : WriteLedgerEntry) : entry_identity :=
  (le_cache_key e, le_range_start e, le_range_end e, le_timestamp e, le_instance_id e).

Definition is_superseded (entry_timestamp newest_range_created_at : Z) : bool := entry_timestamp <? newest_range_created_at.

(** [ledger_time]: nanoseconds since the epoch in 64 bits; a time before the epoch is
    not written. *)
Definition ledger_time_serialize (t : Z) : option Z := if t <? 0 then None else Some (wrap64 t).

Definition with_timestamp (e : WriteLedgerEntry) (t : Z) : WriteLedgerEntry :=
  mkLedgerEntry t (le_cache_key e) (le_range_start e) (le_range_end e) (le_compressed_size e) (le_instance_id e).

(** The entry as it reads back from its line. *)
Definition written (e : WriteLedgerEntry) : option WriteLedgerEntry := with_timestamp e <$> ledger_time_serialize (le_timestamp e).

(** ** Files *)

(** A line that is not blank: an entry, text that does not parse, or the end of the
    file without a line break, which may parse all the same. *)
Inductive ledger_line := Entry (e : WriteLedgerEntry) | Noise | Torn (e : option WriteLedgerEntry).

Definition entry_of (l : ledger_line) : option WriteLedgerEntry :=
  match l with Entry e => Some e | Noise => None | Torn e => e end.

Definition entries_of (ls : list ledger_line) : list WriteLedgerEntry := omap entry_of ls.

(** Ledger files by name. *)
Abbreviation ledger := (gmap string (list ledger_line)).

Definition primary_path (instance : string) : string := instance +:+ ".ledger".

(** What is written at the end of a file continues a torn line. *)
Fixpoint append_line (ls : list ledger_line) (l : ledger_line) : list ledger_line :=
  match ls with
  | [] => [l]
  | [Torn _] => [match l with Torn _ => Torn None | _ => Noise end]
  | l' :: ls => l' :: append_line ls l
  end.

(** What an append meets: an error before it writes, a write that stops part of the
    way, or none. *)
Inductive append_io := NotOpened (error : string) | WriteStops (torn : option (option WriteLedgerEntry)) (error : string) | Appended.

Definition append (io : append_io) (instance : string) (e : WriteLedgerEntry) (l : ledger) : ledger * Result unit :=
  match written e with
  | None => (l, Err (CacheError "Failed to serialize write-ledger entry"))
  | Some e =>
      let path := primary_path instance in
      let ls := default [] (l !! path) in
      match io with
      | NotOpened error => (l, Err (CacheError error))
      | WriteStops torn error =>
          (<[path:=match torn with Some t => append_line ls (Torn t) | None => ls end]> l,
           Err (CacheError ("Failed to append write-ledger entry: " +:+ error)))
      | Appended => (<[path:=append_line ls (Entry e)]> l, Ok tt)
      end
  end.

Definition append_staged_range (io : append_io) (now : Z) (instance cache_key : string) (range_start range_end size : Z)
    (l : ledger) : ledger * Result unit :=
  append io instance (mkLedgerEntry now cache_key range_start range_end size instance) l.

(** [JournalConsolidator::record_staged_range]: a failure is only logged. *)
Definition record_staged_range (io : append_io) (now : Z) (instance cache_key : string) (range_start range_end size : Z)
    (l : ledger) : ledger :=
  (append_staged_range io now instance cache_key range_start range_end size l).1.

Section Files.
Context `{HashIter}.

Definition ledger_files (list_error : option string) (l : ledger) : Result (list string) :=
  match list_error with
  | Some error => Err (CacheError error)
  | None => Ok (base.filter (fun p => extension_is "ledger" p = true) (hash_iter l).*1)
  end.

Definition read_file (readable : string -> bool) (l : ledger) (path : string) : list WriteLedgerEntry :=
  if readable path then entries_of (default [] (l !! path)) else [].

(** The order of eviction: by time, then by key, then by start. *)
Definition older (a b : WriteLedgerEntry) : bool :=
  match Z.compare (le_timestamp a) (le_timestamp b) with
  | Lt => true
  | Gt => false
  | Eq => match String.compare (le_cache_key a) (le_cache_key b) with
          | Lt => true
          | Gt => false
          | Eq => le_range_start a <=? le_range_start b
          end
  end.

Definition read_merged_oldest_first (list_error : option string) (readable : string -> bool) (cap : nat) (l : ledger)
    : Result (list WriteLedgerEntry) :=
  files ← ledger_files list_error l;
  let all := sort_by older (flat_map (read_file readable l) files) in
  Ok (if (0 <? cap)%nat && (cap <? length all)%nat then take cap all else all).

Definition count_entries (list_error : option string) (readable : string -> bool) (l : ledger) : Z :=
  match ledger_files list_error l with
  | Ok files => foldl (fun total f => u64_add total (zlen (read_file readable l f))) 0 files
  | _ => 0
  end.

Definition staged_keys (list_error : option string) (readable : string -> bool) (l : ledger) : Result (gset string) :=
  files ← ledger_files list_error l;
  Ok (list_to_set (flat_map (fun f => le_cache_key <$> read_file readable l f) files)).

(** ** Retiring entries *)

Record LedgerCompactionStats := mkCompaction {
  entries_before : Z;
  entries_after : Z;
  files_rewritten : Z;
  files_removed : Z;
}.

Definition entries_dropped (s : LedgerCompactionStats) : Z := saturating_sub (entries_before s) (entries_after s).

(** What is kept of a file, decided on what is read of it. *)
Definition kept (retire : gset entry_identity) (es : list WriteLedgerEntry) : list WriteLedgerEntry :=
  base.filter (fun e => identity e ∉ retire) es.

(** Putting the kept entries in place of the file, whatever it holds by then. *)
Definition rewrite_file (path : string) (es : list WriteLedgerEntry) (l : ledger) : ledger :=
  match es with
  | [] => base.delete path l
  | _ => <[path:=omap (fun e => Entry <$> written e) es]> l
  end.

Definition retire_file (readable rewrites : string -> bool) (retire : gset entry_identity)
    (acc : ledger * LedgerCompactionStats) (path : string) : ledger * LedgerCompactionStats :=
  let '(l, s) := acc in
  let entries := read_file readable l path in
  let es := kept retire entries in
  let s := mkCompaction (u64_add (entries_before s) (zlen entries)) (u64_add (entries_after s) (zlen es))
             (files_rewritten s) (files_removed s) in
  if rewrites path then
    (rewrite_file path es l,
     match es with
     | [] => mkCompaction (entries_before s) (entries_after s) (files_rewritten s) (u64_add (files_removed s) 1)
     | _ => mkCompaction (entries_before s) (entries_after s) (u64_add (files_rewritten s) 1) (files_removed s)
     end)
  else (l, s).

Definition retire_identities (list_error : option string) (readable rewrites : string -> bool) (retire : gset entry_identity)
    (l : ledger) : ledger * Result LedgerCompactionStats :=
  match ledger_files list_error l with
  | Ok files => let '(l, s) := foldl (retire_file readable rewrites retire) (l, mkCompaction 0 0 0 0) files in (l, Ok s)
  | Err e => (l, Err e)
  | Panic => (l, Panic)
  end.
End Files.

(** ** Candidates *)

Record StagedCandidate := mkStaged {
  sc_cache_key : string;
  sc_oldest_entry_at : Z;
  sc_newest_entry_at : Z;
  sc_hinted_bytes : Z;
  sc_identities : list entry_identity;
}.

Definition candidate_new (e : WriteLedgerEntry) : StagedCandidate :=
  mkStaged (le_cache_key e) (le_timestamp e) (le_timestamp e) (le_compressed_size e) [identity e].

Definition candidate_add (c : StagedCandidate) (e : WriteLedgerEntry) : StagedCandidate :=
  mkStaged (sc_cache_key c)
    (if le_timestamp e <? sc_oldest_entry_at c then le_timestamp e else sc_oldest_entry_at c)
    (if sc_newest_entry_at c <? le_timestamp e then le_timestamp e else sc_newest_entry_at c)
    (saturating_add (sc_hinted_bytes c) (le_compressed_size e)) (sc_identities c ++ [identity e]).

Fixpoint group_loop (grouped : gmap string StagedCandidate) (order : list string) (es : list WriteLedgerEntry)
    : gmap string StagedCandidate * list string :=
  match es with
  | [] => (grouped, order)
  | e :: es =>
      match grouped !! le_cache_key e with
      | Some c => group_loop (<[le_cache_key e:=candidate_add c e]> grouped) order es
      | None => group_loop (<[le_cache_key e:=candidate_new e]> grouped) (order ++ [le_cache_key e]) es
      end
  end.

Fixpoint take_candidates (grouped : gmap string StagedCandidate) (order : list string) : list StagedCandidate :=
  match order with
  | [] => []
  | k :: order =>
      match grouped !! k with
      | Some c => c :: take_candidates (base.delete k grouped) order
      | None => take_candidates grouped order
      end
  end.

Definition group_by_key (es : list WriteLedgerEntry) : list StagedCandidate :=
  let '(grouped, order) := group_loop ∅ [] es in take_candidates grouped order.

Definition order_staging_candidates (cs : list StagedCandidate) (watermark : Z) : list StagedCandidate :=
  let cs := sort_by_key sc_oldest_entry_at cs in
  base.filter (fun c => sc_oldest_entry_at c < watermark) cs ++ base.filter (fun c => ~ sc_oldest_entry_at c < watermark) cs.

(** ** Verification against the metadata *)

Inductive StagedCandidateVerdict := Evictable | MetadataAbsent | Graduated | Superseded | Unreadable.

#[export] Instance StagedCandidateVerdict_eq_dec : EqDecision StagedCandidateVerdict.
Proof. solve_decision. Defined.

Definition newest_range_created_at (m : NewCacheMetadata) : Z :=
  match cm_ranges m with
  | [] => cm_created_at m
  | r :: rs => foldl Z.max (nr_created_at r) (nr_created_at <$> rs)
  end.

Definition verify_staged_candidate `{PathCodec} (st : Storage) (c : StagedCandidate) : StagedCandidateVerdict :=
  match get_sharded_path "metadata" (sc_cache_key c) ".meta" with
  | Ok path =>
      match metadata_files st !! path with
      | None => MetadataAbsent
      | Some (MetaParsed m) =>
          if negb (om_is_write_cached (cm_object_metadata m)) then Graduated
          else if is_superseded (sc_newest_entry_at c) (newest_range_created_at m) then Superseded
          else if bool_decide (cm_ranges m = []) then MetadataAbsent
          else Evictable
      | Some _ => Unreadable
      end
  | _ => Unreadable
  end.

(** ** Passes over the ledger *)

(** [JournalConsolidator::maybe_compact_write_ledger]. *)
Definition LEDGER_COMPACTION_INTERVAL_SECS : Z := 300.

Definition terminal (v : StagedCandidateVerdict) : bool := match v with Evictable | Unreadable => false | _ => true end.

Definition retired_by_compaction `{PathCodec} (st : Storage) (cs : list StagedCandidate) : gset entry_identity :=
  list_to_set (flat_map (fun c => if terminal (verify_staged_candidate st c) then sc_identities c else []) cs).

Definition maybe_compact_write_ledger `{HashIter} `{PathCodec} (now_secs : Z) (exchanged : bool)
    (list_error list_error' : option string) (readable rewrites : string -> bool) (st : Storage) (last : Z) (l : ledger)
    : ledger * Z :=
  if saturating_sub now_secs last <? LEDGER_COMPACTION_INTERVAL_SECS then (l, last) else
  if negb exchanged then (l, last) else
  match read_merged_oldest_first list_error readable 0 l with
  | Ok [] => (l, now_secs)
  | Ok entries =>
      ((retire_identities list_error' readable rewrites (retired_by_compaction st (group_by_key entries)) l).1, now_secs)
  | _ => (l, now_secs)
  end.

(** [CacheSizeTracker::reappend_missing_ledger_entries]: the staged ranges of the
    objects a full scan found staged, where no ledger file has the object. *)
Definition reappend_range (env : NewRangeSpec -> append_io * Z) (instance key : string) (write_cached : bool) (l : ledger)
    (r : NewRangeSpec) : ledger :=
  if is_staged_range_spec r write_cached
  then record_staged_range (env r).1 (env r).2 instance key (nr_start r) (nr_end r) (nr_compressed_size r) l
  else l.

Definition reappend_object `{PathCodec} (env : string -> NewRangeSpec -> append_io * Z) (instance : string) (st : Storage)
    (known : gset string) (l : ledger) (path : string) : ledger :=
  match metadata_files st !! path with
  | Some (MetaParsed m) =>
      if bool_decide (cm_cache_key m ∈ known) then l
      else if negb (om_is_write_cached (cm_object_metadata m)) then l
      else foldl (reappend_range (env path) instance (cm_cache_key m) (om_is_write_cached (cm_object_metadata m))) l (cm_ranges m)
  | _ => l
  end.

Definition reappend_missing_ledger_entries `{HashIter} `{PathCodec} (env : string -> NewRangeSpec -> append_io * Z)
    (instance : string) (list_error : option string) (readable : string -> bool) (st : Storage)
    (staged_paths : list string) (l : ledger) : ledger :=
  match staged_paths with
  | [] => l
  | _ =>
      match staged_keys list_error readable l with
      | Ok known => foldl (reappend_object env instance st known) l staged_paths
      | _ => l
      end
  end.

(** ** The order of candidates *)

Lemma older_total a b : older a b = false -> older b a = true.
Proof.
  unfold older. rewrite (Z.compare_antisym (le_timestamp a) (le_timestamp b)), (String.compare_antisym (le_cache_key b)).
  destruct (le_timestamp a ?= le_timestamp b); try done. cbn [CompOpp].
  destruct (le_cache_key a ?= le_cache_key b)%string; try done. cbn [CompOpp]. lia.
Qed.

Lemma older_time a b : older a b = true -> le_timestamp a <= le_timestamp b.
Proof. unfold older. destruct (Z.compare_spec (le_timestamp a) (le_timestamp b)); try done; lia. Qed.

Lemma string_compare_trans a b c :
  (a ?= b)%string <> Gt -> (b ?= c)%string <> Gt -> (a ?= c)%string <> Gt /\ ((a ?= c)%string = Eq -> (a ?= b)%string = Eq /\ (b ?= c)%string = Eq).
Proof.
  intros Hab Hbc. assert (Hle : forall x y, (x ?= y)%string <> Gt <-> String.leb x y = true)
    by (intros x y; unfold String.leb; destruct (x ?= y)%string; naive_solver).
  rewrite !Hle in *. split.
  - assert (String.le a c) as Hac by (transitivity b; by apply Is_true_true_2). by apply Is_true_true_1 in Hac.
  - intros Hac%String.compare_eq_iff. subst c. assert (a = b) as -> by (by apply String.leb_antisym).
    assert ((b ?= b)%string = Eq) as Hr; [| done]. destruct (b ?= b)%string eqn:E; [done | |];
      pose proof (String.compare_antisym b b) as Hs; rewrite E in Hs; discriminate.
Qed.

Lemma older_trans a b c : older a b = true -> older b c = true -> older a c = true.
Proof.
  unfold older. destruct (Z.compare_spec (le_timestamp a) (le_timestamp b)) as [Hab | Hab | Hab]; try done;
    destruct (Z.compare_spec (le_timestamp b) (le_timestamp c)) as [Hbc | Hbc | Hbc]; try done.
  - rewrite Hab, Hbc, Z.compare_refl.
    destruct (String.compare (le_cache_key a) (le_cache_key b)) eqn:E1; try done;
      destruct (String.compare (le_cache_key b) (le_cache_key c)) eqn:E2; try done; intros H1 H2;
      destruct (string_compare_trans (le_cache_key a) (le_cache_key b) (le_cache_key c)) as [Hn He]; try congruence;
      destruct (String.compare (le_cache_key a) (le_cache_key c)) eqn:E3; try done; try lia; destruct (He eq_refl); congruence.
  - rewrite Hab. by rewrite (proj2 (Z.compare_lt_iff _ _) Hbc).
  - rewrite <- Hbc. by rewrite (proj2 (Z.compare_lt_iff _ _) Hab).
  - by rewrite (proj2 (Z.compare_lt_iff (le_timestamp a) (le_timestamp c)) ltac:(lia)).
Qed.

(** What a pass reads: the [cap] first of all entries, in the order of eviction. *)
Lemma read_merged_spec `{HashIter} readable cap l es :
  read_merged_oldest_first None readable cap l = Ok es ->
  exists all, all ≡ₚ flat_map (read_file readable l) (base.filter (fun p => extension_is "ledger" p = true) (hash_iter l).*1) /\
    StronglySorted (fun a b => older a b = true) all /\ es = if (0 <? cap)%nat then take cap all else all.
Proof.
  intros [= <-]. eexists. split; [apply sort_by_perm |]. split; [apply sort_by_sorted; eauto using older_total, older_trans |].
  destruct (Nat.ltb_spec 0 cap) as [_ | _]; [| done]. cbn [andb].
  match goal with |- context [(cap <? length ?all)%nat] => destruct (Nat.ltb_spec cap (length all)) as [_ | Hle]; [done |] end.
  by rewrite take_ge.
Qed.

Lemma filter_every {A} (P : A -> Prop) `{!forall x, Decision (P x)} (l : list A) : Forall P l -> base.filter P l = l.
Proof. induction 1 as [| x l Hx _ IH]; [done |]. rewrite filter_cons_True by done. by rewrite IH. Qed.

Lemma filter_none {A} (P : A -> Prop) `{!forall x, Decision (P x)} (l : list A) : Forall (fun x => ~ P x) l -> base.filter P l = [].
Proof. induction 1 as [| x l Hx _ IH]; [done |]. by rewrite filter_cons_False. Qed.

(** The partition by the watermark leaves the order by age as it is: the watermark is
    the same for all candidates. *)
Lemma sorted_partition {A} (key : A -> Z) (w : Z) (cs : list A) :
  StronglySorted (key_le key) cs ->
  base.filter (fun c => key c < w) cs ++ base.filter (fun c => ~ key c < w) cs = cs.
Proof.
  induction 1 as [| c cs Hs IH Hc]; [done |]. destruct (decide (key c < w)) as [Hlt | Hge].
  - rewrite filter_cons_True, (filter_cons_False (fun c => ~ key c < w)) by tauto. cbn. by rewrite IH.
  - rewrite filter_cons_False, (filter_cons_True (fun c => ~ key c < w)) by done.
    rewrite filter_none, filter_every; [done | |]; (eapply Forall_impl; [exact Hc |]); unfold key_le; intros; lia.
Qed.

Lemma order_staging_by_age cs w : order_staging_candidates cs w = sort_by_key sc_oldest_entry_at cs.
Proof. apply sorted_partition, sort_by_key_sorted. Qed.

(** ** One candidate per object *)

Definition of_key (k : string) (es : list WriteLedgerEntry) : list WriteLedgerEntry :=
  base.filter (fun e => le_cache_key e = k) es.

Definition summary (es : list WriteLedgerEntry) : option StagedCandidate :=
  match es with [] => None | e :: es => Some (foldl candidate_add (candidate_new e) es) end.

(** Keys in the order they first appear. *)
Definition note_key (ks : list string) (e : WriteLedgerEntry) : list string :=
  if decide (le_cache_key e ∈ ks) then ks else ks ++ [le_cache_key e].

Definition keys_in_order (es : list WriteLedgerEntry) : list string := foldl note_key [] es.

Lemma entries_of_key_app k es es' : of_key k (es ++ es') = of_key k es ++ of_key k es'.
Proof. apply filter_app. Qed.

Lemma of_key_one k e : of_key k [e] = if decide (le_cache_key e = k) then [e] else [].
Proof. unfold of_key. rewrite filter_cons. by case_decide. Qed.

Lemma summary_snoc es e :
  summary (es ++ [e]) = Some (match summary es with Some c => candidate_add c e | None => candidate_new e end).
Proof. destruct es as [| e' es]; [done |]. cbn. by rewrite foldl_app. Qed.

Lemma summary_None es : summary es = None <-> es = [].
Proof. by destruct es. Qed.

Lemma keys_in_order_elem es k : k ∈ keys_in_order es <-> of_key k es <> [].
Proof.
  induction es as [| e es IH] using rev_ind; [by rewrite elem_of_nil |].
  unfold keys_in_order in *. rewrite foldl_app, entries_of_key_app. cbn [foldl]. unfold note_key at 1.
  rewrite of_key_one.
  rewrite (app_nil (of_key k es)). case_decide as Hin; [| rewrite elem_of_app, list_elem_of_singleton]; case_decide as He; subst.
  - split; [by intros _ [_ ?] | done].
  - rewrite IH. tauto.
  - split; [by intros _ [_ ?] | by right].
  - rewrite IH. split; [intros [? | ->] [? _]; done |]. intros Hn. left. tauto.
Qed.

Lemma keys_in_order_NoDup es : NoDup (keys_in_order es).
Proof.
  induction es as [| e es IH] using rev_ind; [constructor |]. unfold keys_in_order in *. rewrite foldl_app. cbn [foldl].
  unfold note_key at 1. case_decide; [done |]. apply NoDup_app. split_and!; [done | | apply NoDup_singleton].
  intros k Hk ->%list_elem_of_singleton. done.
Qed.

Lemma group_entries_spec es pre grouped :
  (forall k, grouped !! k = summary (of_key k pre)) ->
  let r := group_loop grouped (keys_in_order pre) es in
  (forall k, r.1 !! k = summary (of_key k (pre ++ es))) /\ r.2 = keys_in_order (pre ++ es).
Proof.
  revert pre grouped. induction es as [| e es IH]; intros pre grouped Hg; cbn [group_loop]; [by rewrite app_nil_r |].
  assert (pre ++ e :: es = (pre ++ [e]) ++ es) as -> by (by rewrite <- app_assoc). rewrite Hg.
  assert (Hstep : forall x, x = match summary (of_key (le_cache_key e) pre) with Some c => candidate_add c e | None => candidate_new e end ->
    forall k, <[le_cache_key e:=x]> grouped !! k = summary (of_key k (pre ++ [e]))).
  { intros x -> k. rewrite entries_of_key_app, of_key_one.
    destruct (decide (le_cache_key e = k)) as [<- | Hne]; [by rewrite lookup_insert_eq, summary_snoc |].
    by rewrite lookup_insert_ne, app_nil_r. }
  assert (Hkeys : keys_in_order (pre ++ [e]) = note_key (keys_in_order pre) e) by (unfold keys_in_order; by rewrite foldl_app).
  unfold note_key in Hkeys. destruct (summary (of_key (le_cache_key e) pre)) as [c |] eqn:Es.
  - rewrite decide_True in Hkeys by (apply keys_in_order_elem; intros Hx; rewrite Hx in Es; done).
    rewrite <- Hkeys. apply IH. by apply Hstep.
  - rewrite decide_False in Hkeys by (rewrite keys_in_order_elem; apply summary_None in Es; tauto).
    rewrite <- Hkeys. apply IH. by apply Hstep.
Qed.

Lemma take_candidates_spec order grouped : NoDup order -> take_candidates grouped order = omap (fun k => grouped !! k) order.
Proof.
  intros Hnd. revert grouped. induction Hnd as [| k order Hk Hnd IH]; intros grouped; [done |]. cbn.
  assert (forall x, omap (fun k' => base.delete k grouped !! k') order = x -> omap (fun k' => grouped !! k') order = x) as Hd.
  { intros x <-. clear IH Hnd. induction order as [| k' order IH']; [done |]. apply not_elem_of_cons in Hk as [? ?].
    cbn. rewrite lookup_delete_ne by done. by rewrite IH'. }
  destruct (grouped !! k); [| apply IH]. f_equal. rewrite IH. symmetry. by apply Hd.
Qed.

Lemma group_by_key_spec es : group_by_key es = omap (fun k => summary (of_key k es)) (keys_in_order es).
Proof.
  unfold group_by_key. pose proof (group_entries_spec es [] ∅ (fun k => lookup_empty k)) as [Hg Ho].
  change (keys_in_order []) with (@nil string) in Hg, Ho. destruct (group_loop ∅ [] es) as [grouped order]. cbn [fst snd app] in Hg, Ho.
  subst order. rewrite take_candidates_spec by apply keys_in_order_NoDup. generalize (keys_in_order es). intros ks.
  induction ks as [| k ks IH]; [reflexivity |]. cbn. by rewrite Hg, IH.
Qed.

(** What a candidate says of the entries it stands for. *)
Record summarizes (es : list WriteLedgerEntry) (c : StagedCandidate) : Prop := {
  sum_key : Forall (fun e => le_cache_key e = sc_cache_key c) es;
  sum_nonempty : es <> [];
  sum_identities : sc_identities c = identity <$> es;
  sum_oldest : Forall (fun e => sc_oldest_entry_at c <= le_timestamp e) es /\ sc_oldest_entry_at c ∈ le_timestamp <$> es;
  sum_newest : Forall (fun e => le_timestamp e <= sc_newest_entry_at c) es /\ sc_newest_entry_at c ∈ le_timestamp <$> es;
  sum_hinted : Forall (fun e => is_u64 (le_compressed_size e)) es ->
    sc_hinted_bytes c = Z.min (sum_by le_compressed_size es) U64_MAX;
}.

Lemma candidate_new_summarizes e : summarizes [e] (candidate_new e).
Proof.
  split; cbn; try done; try (split; [by repeat constructor | by left]).
  - by repeat constructor.
  - intros [Hu _]%Forall_cons. unfold is_u64 in Hu. unfold U64_MAX. lia.
Qed.

Lemma candidate_add_summarizes es c e :
  summarizes es c -> le_cache_key e = sc_cache_key c -> summarizes (es ++ [e]) (candidate_add c e).
Proof.
  intros [Hk Hne Hi [Ho Ho'] [Hn Hn'] Hh] He. split; cbn [candidate_add sc_cache_key sc_oldest_entry_at sc_newest_entry_at sc_hinted_bytes sc_identities].
  - apply Forall_app_2; [done | by apply Forall_singleton].
  - by destruct es.
  - by rewrite Hi, fmap_app.
  - rewrite fmap_app. destruct (Z.ltb_spec (le_timestamp e) (sc_oldest_entry_at c)); split.
    + apply Forall_app_2; [| by apply Forall_singleton]. eapply Forall_impl; [exact Ho |]. cbn. intros. lia.
    + apply elem_of_app. right. by left.
    + apply Forall_app_2; [done | by apply Forall_singleton].
    + apply elem_of_app. by left.
  - rewrite fmap_app. destruct (Z.ltb_spec (sc_newest_entry_at c) (le_timestamp e)); split.
    + apply Forall_app_2; [| by apply Forall_singleton]. eapply Forall_impl; [exact Hn |]. cbn. intros. lia.
    + apply elem_of_app. right. by left.
    + apply Forall_app_2; [done | by apply Forall_singleton].
    + apply elem_of_app. by left.
  - intros [Hu He']%Forall_app. apply Forall_inv in He'. unfold is_u64 in He'.
    rewrite Hh, sum_by_app, sum_by_cons, sum_by_nil by done. unfold saturating_add.
    assert (0 <= sum_by le_compressed_size es); [| unfold U64_MAX in *; lia].
    apply sum_by_nonneg. intros x Hx. rewrite Forall_forall in Hu. by apply Hu.
Qed.

Lemma summary_summarizes k es c : summary (of_key k es) = Some c -> summarizes (of_key k es) c /\ sc_cache_key c = k.
Proof.
  assert (Hf : Forall (fun e => le_cache_key e = k) (of_key k es)) by (apply Forall_forall; intros e [? _]%list_elem_of_filter; done).
  destruct (of_key k es) as [| e rest] eqn:E; [done |]. intros [= <-]. clear E.
  apply Forall_cons in Hf as [He Hf].
  assert (summarizes (e :: rest) (foldl candidate_add (candidate_new e) rest) /\
          sc_cache_key (foldl candidate_add (candidate_new e) rest) = k) as Hboth; [| done].
  induction rest as [| x rest IH] using rev_ind; [split; [apply candidate_new_summarizes | done] |].
  apply Forall_app in Hf as [Hf Hx%Forall_inv]. destruct (IH Hf) as [IH1 IH2]. rewrite foldl_app. cbn [foldl]. split; [| done].
  rewrite app_comm_cons. apply candidate_add_summarizes; congruence.
Qed.

Lemma group_by_key_elem es c :
  c ∈ group_by_key es <-> sc_cache_key c ∈ keys_in_order es /\ summary (of_key (sc_cache_key c) es) = Some c.
Proof.
  rewrite group_by_key_spec, list_elem_of_omap. split.
  - intros (k & Hk & Hc). by destruct (summary_summarizes _ _ _ Hc) as [_ ->].
  - intros [Hk Hc]. by exists (sc_cache_key c).
Qed.

Lemma group_by_key_NoDup es : NoDup (sc_cache_key <$> group_by_key es).
Proof.
  rewrite group_by_key_spec. pose proof (keys_in_order_NoDup es) as Hnd. induction Hnd as [| k ks Hk _ IH]; [constructor |].
  cbn. destruct (summary (of_key k es)) as [c |] eqn:Es; [| done]. cbn. constructor; [| done].
  rewrite (proj2 (summary_summarizes _ _ _ Es)), list_elem_of_fmap. intros (c' & -> & (k' & Hk' & Hc')%list_elem_of_omap).
  by rewrite (proj2 (summary_summarizes _ _ _ Hc')) in Hk.
Qed.

(** The candidates of a staging eviction: one per object named in the entries
    read, standing for exactly the entries of that object, with the oldest and the
    newest of their times and the saturated sum of their sizes; the order they are
    tried in is a permutation of them, oldest first, whatever the watermark. *)
Theorem staging_candidates_exact es watermark :
  let cs := order_staging_candidates (group_by_key es) watermark in
  cs ≡ₚ group_by_key es /\
  StronglySorted (fun c d => sc_oldest_entry_at c <= sc_oldest_entry_at d) cs /\
  NoDup (sc_cache_key <$> cs) /\
  (forall c, c ∈ cs -> summarizes (of_key (sc_cache_key c) es) c) /\
  (forall e, e ∈ es -> exists c, c ∈ cs /\ sc_cache_key c = le_cache_key e /\ identity e ∈ sc_identities c).
Proof.
  cbn zeta. rewrite order_staging_by_age. pose proof (sort_by_key_perm sc_oldest_entry_at (group_by_key es)) as Hp.
  assert (Hsum : forall c, c ∈ group_by_key es -> summarizes (of_key (sc_cache_key c) es) c)
    by (intros c [_ Hc]%group_by_key_elem; by destruct (summary_summarizes _ _ _ Hc)).
  split_and!; [done | apply sort_by_key_sorted | rewrite Hp; apply group_by_key_NoDup | intros c; rewrite Hp; apply Hsum |].
  intros e He. assert (Hin : e ∈ of_key (le_cache_key e) es) by (by apply list_elem_of_filter).
  destruct (summary (of_key (le_cache_key e) es)) as [c |] eqn:Es; [| apply summary_None in Es; rewrite Es in Hin; by apply elem_of_nil in Hin].
  destruct (summary_summarizes _ _ _ Es) as [[_ _ Hi _ _ _] Hk]. exists c. split; [| split; [done |]].
  - rewrite Hp, group_by_key_elem, Hk. split; [| done]. apply keys_in_order_elem. intros E. rewrite E in Hin. by apply elem_of_nil in Hin.
  - rewrite Hi. by apply list_elem_of_fmap_2.
Qed.

(** ** Retiring entries *)

(** Times read from a file have 64 bits. *)
Definition ledger_wf (l : ledger) : Prop :=
  forall path ls e, l !! path = Some ls -> e ∈ entries_of ls -> is_u64 (le_timestamp e).

Lemma written_again e : is_u64 (le_timestamp e) -> written e = Some e.
Proof.
  intros Hu. unfold written, ledger_time_serialize. unfold is_u64 in Hu. destruct (Z.ltb_spec (le_timestamp e) 0); [lia |].
  cbn. unfold wrap64. rewrite Z.mod_small by done. by destruct e.
Qed.

Lemma written_u64 e e' : written e = Some e' -> is_u64 (le_timestamp e').
Proof.
  unfold written, ledger_time_serialize. destruct (_ <? _); [done |]. intros [= <-]. apply wrap64_range.
Qed.

Lemma entries_rewritten es :
  Forall (fun e => is_u64 (le_timestamp e)) es -> omap (fun e => Entry <$> written e) es = Entry <$> es.
Proof. induction 1 as [| e es He _ IH]; [done |]. cbn. rewrite (written_again e He). cbn. by rewrite IH. Qed.

Lemma entries_of_entry es : entries_of (Entry <$> es) = es.
Proof. unfold entries_of. induction es as [| e es IH]; [done |]. cbn. by rewrite IH. Qed.

Lemma kept_elem retire es e : e ∈ kept retire es <-> (identity e ∉ retire) /\ e ∈ es.
Proof. unfold kept. by rewrite list_elem_of_filter. Qed.

Lemma retire_file_lookup `{HashIter} readable rewrites retire l s path p :
  (retire_file readable rewrites retire (l, s) path).1 !! p =
  if decide (p = path /\ rewrites path = true) then rewrite_file path (kept retire (read_file readable l path)) l !! p else l !! p.
Proof.
  unfold retire_file. destruct (rewrites path) eqn:E; cbn [fst]; case_decide as Hd; try done.
  - destruct (kept _ _) as [| e es]; cbn; [apply lookup_delete_ne | apply lookup_insert_ne]; intros ->; by apply Hd.
  - by destruct Hd as [_ ?].
Qed.

Lemma rewrite_file_at p es l l' : rewrite_file p es l !! p = rewrite_file p es l' !! p.
Proof. destruct es; cbn [rewrite_file]; [by rewrite !lookup_delete_eq | by rewrite !lookup_insert_eq]. Qed.

Lemma retire_files_lookup `{HashIter} readable rewrites retire files l s p :
  NoDup files ->
  (foldl (retire_file readable rewrites retire) (l, s) files).1 !! p =
  if decide (p ∈ files /\ rewrites p = true) then rewrite_file p (kept retire (read_file readable l p)) l !! p else l !! p.
Proof.
  intros Hnd. revert l s. induction Hnd as [| path files Hp Hnd IH]; intros l s; cbn [foldl].
  { rewrite decide_False; [done |]. by intros [?%elem_of_nil _]. }
  pose proof (retire_file_lookup readable rewrites retire l s path) as Hl. destruct (retire_file _ _ _ (l, s) path) as [l' s'].
  cbn [fst] in Hl. rewrite IH. assert (read_file readable l' p = read_file readable l p \/ p = path) as Hr.
  { destruct (decide (p = path)) as [-> | Hne]; [by right | left]. unfold read_file. rewrite Hl, decide_False; [done |]. by intros [? _]. }
  case_decide as H1; [rewrite (decide_True (P := p ∈ path :: files /\ _)) by (split; [right |]; tauto) |].
  - destruct Hr as [-> | ->]; [| tauto]. apply rewrite_file_at.
  - rewrite Hl. destruct (decide (p = path)) as [-> | Hne].
    + destruct (rewrites path) eqn:E.
      * rewrite !decide_True by (split; [| done]; try done; by left). done.
      * rewrite !decide_False; [done | by intros [_ ?]..].
    + rewrite !decide_False; [done | rewrite elem_of_cons; tauto | tauto].
Qed.

Lemma hash_iter_keys_NoDup `{HashIter} {A} (m : gmap string A) : NoDup (hash_iter m).*1.
Proof. rewrite hash_iter_perm. apply NoDup_fst_map_to_list. Qed.

(** Nothing but what is named goes, from the files that are read and rewritten. *)
Lemma retire_exact `{HashIter} readable rewrites retire l l' stats p :
  ledger_wf l -> (forall path, readable path = true) ->
  retire_identities None readable rewrites retire l = (l', Ok stats) ->
  entries_of (default [] (l' !! p)) =
  if extension_is "ledger" p && rewrites p then kept retire (entries_of (default [] (l !! p))) else entries_of (default [] (l !! p)).
Proof.
  intros Hwf Hr. unfold retire_identities, ledger_files.
  pose proof (retire_files_lookup readable rewrites retire (base.filter (fun q => extension_is "ledger" q = true) (hash_iter l).*1) l
    (mkCompaction 0 0 0 0) p) as Hl.
  destruct (foldl _ _ _) as [l1 s1]. intros [= <- _]. cbn [fst] in Hl. rewrite Hl by (apply NoDup_filter, hash_iter_keys_NoDup).
  assert (Hin : p ∈ base.filter (fun q => extension_is "ledger" q = true) (hash_iter l).*1 <->
    extension_is "ledger" p = true /\ is_Some (l !! p)).
  { rewrite list_elem_of_filter. split; intros [He Hx]; (split; [done |]).
    - apply list_elem_of_fmap in Hx as ([k x] & -> & Hx%hash_iter_lookup). by exists x.
    - destruct Hx as [x Hx]. apply list_elem_of_fmap. exists (p, x). split; [done |]. by apply hash_iter_lookup. }
  unfold read_file. rewrite Hr. destruct (l !! p) as [ls |] eqn:Ep; cbn [default from_option id].
  - case_decide as Hd.
    + destruct Hd as [[-> _]%Hin ->]. cbn [andb]. destruct (kept retire (entries_of ls)) as [| e es] eqn:Ek; cbn [rewrite_file].
      * by rewrite lookup_delete_eq.
      * rewrite lookup_insert_eq. cbn [default from_option id]. rewrite entries_rewritten, entries_of_entry; [done |].
        apply Forall_forall. intros x Hx. rewrite <- Ek in Hx. apply kept_elem in Hx as [_ Hx]. by eapply Hwf.
    + destruct (extension_is "ledger" p) eqn:He, (rewrites p) eqn:Hw; try done.
      exfalso. apply Hd. split; [| done]. apply Hin. by split; [| exists ls].
  - rewrite decide_False by (rewrite Hin; intros [[_ [? ?]] _]; congruence). by destruct (_ && _).
Qed.

(** ** Appends and compactions, interleaved *)

(** The files, and the rewrites that are decided and not yet done. *)
Record ledger_state := mkLedgerState { files : ledger; pending : list (string * list WriteLedgerEntry) }.

Inductive event :=
  | Append (io : append_io) (instance : string) (e : WriteLedgerEntry)
  | ReadFile (readable : bool) (retire : gset entry_identity) (path : string)
  | Rewrite (path : string)
  | RewriteFails (path : string).

Inductive step : event -> ledger_state -> ledger_state -> Prop :=
  | step_append io instance e l ps : step (Append io instance e) (mkLedgerState l ps) (mkLedgerState (append io instance e l).1 ps)
  | step_read readable retire path l ps :
      step (ReadFile readable retire path) (mkLedgerState l ps)
        (mkLedgerState l (ps ++ [(path, kept retire (read_file (fun _ => readable) l path))]))
  | step_rewrite path es l ps1 ps2 :
      step (Rewrite path) (mkLedgerState l (ps1 ++ (path, es) :: ps2)) (mkLedgerState (rewrite_file path es l) (ps1 ++ ps2))
  | step_rewrite_fails path es l ps1 ps2 :
      step (RewriteFails path) (mkLedgerState l (ps1 ++ (path, es) :: ps2)) (mkLedgerState l (ps1 ++ ps2)).

Inductive run : list event -> ledger_state -> ledger_state -> Prop :=
  | run_nil s : run [] s s
  | run_cons ev evs s s' s'' : step ev s s' -> run evs s' s'' -> run (ev :: evs) s s''.

(** No pass that reads the file names the entry, or fails to read it. *)
Definition spares (path : string) (e : WriteLedgerEntry) (ev : event) : Prop :=
  match ev with
  | ReadFile readable retire p => p = path -> readable = true /\ (identity e ∉ retire)
  | _ => True
  end.

Definition holds (path : string) (e : WriteLedgerEntry) (s : ledger_state) : Prop :=
  Entry e ∈ default [] (files s !! path) /\ (forall es, (path, es) ∈ pending s -> e ∈ es).

Lemma append_line_keeps ls l e : Entry e ∈ ls -> Entry e ∈ append_line ls l.
Proof.
  induction ls as [| x ls IH]; [by intros ?%elem_of_nil |]. intros [He | Hin]%elem_of_cons; cbn.
  - subst x. left.
  - destruct x as [e' | | t]; [by right; apply IH | by right; apply IH |].
    destruct ls; [by apply elem_of_nil in Hin | right; by apply IH].
Qed.

Lemma append_keeps io instance e' l path e :
  Entry e ∈ default [] (l !! path) -> Entry e ∈ default [] ((append io instance e' l).1 !! path).
Proof.
  intros Hin. unfold append. destruct (written e') as [w |]; [| done]. destruct io as [| torn error |]; [done | |]; cbn [fst];
    (destruct (decide (primary_path instance = path)) as [<- | Hne]; [rewrite lookup_insert_eq | by rewrite lookup_insert_ne]).
  - destruct torn; [by apply append_line_keeps | done].
  - by apply append_line_keeps.
Qed.

Lemma entries_of_Entry e ls : Entry e ∈ ls -> e ∈ entries_of ls.
Proof. intros Hin. apply list_elem_of_omap. by exists (Entry e). Qed.

Lemma step_holds ev s s' path e :
  is_u64 (le_timestamp e) -> step ev s s' -> spares path e ev -> holds path e s -> holds path e s'.
Proof.
  intros Hu Hstep Hsp [Hf Hp]. destruct Hstep as [io instance e' l ps | readable retire p l ps | p es l ps1 ps2 | p es l ps1 ps2]; cbn in *.
  - split; [by apply append_keeps | done].
  - split; [done |]. intros es [Hin | Heq%list_elem_of_singleton]%elem_of_app; [by apply Hp |]. simplify_eq.
    destruct (Hsp eq_refl) as [-> Hn]. apply kept_elem. split; [done |]. by apply entries_of_Entry.
  - assert (Hrest : forall es', (path, es') ∈ ps1 ++ ps2 -> e ∈ es')
      by (intros es' Hin; apply Hp; apply elem_of_app in Hin; rewrite elem_of_app, elem_of_cons; tauto).
    split; [| done]. cbn. destruct (decide (p = path)) as [-> | Hne].
    + specialize (Hp es ltac:(rewrite elem_of_app; right; left)). destruct es as [| e0 es]; [by apply elem_of_nil in Hp |].
      cbn [rewrite_file]. rewrite lookup_insert_eq. cbn [default from_option id]. apply list_elem_of_omap. exists e. split; [done |]. by rewrite written_again.
    + destruct es; cbn [rewrite_file]; [by rewrite lookup_delete_ne | by rewrite lookup_insert_ne].
  - split; [done |]. intros es' Hin. apply Hp. apply elem_of_app in Hin. rewrite elem_of_app, elem_of_cons. tauto.
Qed.

Lemma run_holds evs s s' path e :
  is_u64 (le_timestamp e) -> run evs s s' -> Forall (spares path e) evs -> holds path e s -> holds path e s'.
Proof.
  intros Hu Hrun. induction Hrun as [| ev evs s s' s'' Hst _ IH]; [done |]. intros [Hev Hevs]%Forall_cons Hh.
  apply IH; [done |]. by eapply step_holds.
Qed.

Definition ends_torn (ls : list ledger_line) : bool := match last ls with Some (Torn _) => true | _ => false end.

Lemma append_line_adds ls l : ends_torn ls = false -> append_line ls l = ls ++ [l].
Proof.
  unfold ends_torn. induction ls as [| x ls IH]; [done |]. intros Ht. destruct x, ls as [| y ls]; try done; cbn in *; by rewrite IH.
Qed.

(** An entry whose append succeeded stays in its file, whatever else is appended,
    retired and rewritten by any instance, under three conditions: its file did not end
    in a torn line, no rewrite of the file was already decided when it was appended,
    and no later pass names it or fails to read the file. *)
Theorem ledger_entry_survives instance e w l ps evs s :
  written e = Some w -> ends_torn (default [] (l !! primary_path instance)) = false ->
  (forall es, (primary_path instance, es) ∉ ps) ->
  run evs (mkLedgerState (append Appended instance e l).1 ps) s -> Forall (spares (primary_path instance) w) evs ->
  w ∈ entries_of (default [] (files s !! primary_path instance)).
Proof.
  intros Hw Ht Hps Hrun Hsp. apply entries_of_Entry.
  apply (run_holds evs (mkLedgerState (append Appended instance e l).1 ps) s); [by eapply written_u64 | done | done |].
  split; [| intros es Hin; by apply Hps in Hin]. cbn [files]. unfold append. rewrite Hw. cbn [fst]. rewrite lookup_insert_eq.
  cbn [default from_option id]. rewrite append_line_adds by done. rewrite elem_of_app. right. left.
Qed.

(** ** The entries a full scan puts back *)

(** The file of an instance, with nothing torn at its end. *)
Definition whole (instance : string) (l : ledger) : Prop := ends_torn (default [] (l !! primary_path instance)) = false.

Lemma appended_lookup instance e w l :
  written e = Some w -> whole instance l ->
  (append Appended instance e l).1 !! primary_path instance = Some (default [] (l !! primary_path instance) ++ [Entry w]).
Proof. intros Hw Ht. unfold append. rewrite Hw. cbn [fst]. by rewrite lookup_insert_eq, append_line_adds. Qed.

Lemma appended_whole instance e l : whole instance l -> whole instance (append Appended instance e l).1.
Proof.
  intros Ht. destruct (written e) as [w |] eqn:Ew; [| unfold append; by rewrite Ew].
  unfold whole. rewrite (appended_lookup _ _ _ _ Ew Ht). cbn [default from_option id]. unfold ends_torn. by rewrite last_snoc.
Qed.

Section Reappend.
Context `{HashIter} `{PathCodec}.
Context (env : string -> NewRangeSpec -> append_io * Z) (instance : string) (st : Storage) (known : gset string).
Hypothesis appends : forall path r, (env path r).1 = Appended.
Hypothesis times : forall path r, 0 <= (env path r).2.

Lemma reappend_range_keeps path key b l r :
  whole instance l -> whole instance (reappend_range (env path) instance key b l r) /\
  forall e, Entry e ∈ default [] (l !! primary_path instance) ->
    Entry e ∈ default [] (reappend_range (env path) instance key b l r !! primary_path instance).
Proof.
  intros Ht. unfold reappend_range, record_staged_range, append_staged_range. rewrite appends.
  destruct (is_staged_range_spec r b); [| done]. split; [by apply appended_whole | intros e; apply append_keeps].
Qed.

Lemma reappend_ranges_keeps path key b rs l :
  whole instance l -> whole instance (foldl (reappend_range (env path) instance key b) l rs) /\
  forall e, Entry e ∈ default [] (l !! primary_path instance) ->
    Entry e ∈ default [] (foldl (reappend_range (env path) instance key b) l rs !! primary_path instance).
Proof.
  revert l. induction rs as [| r rs IH]; intros l Ht; [done |]. cbn [foldl].
  destruct (reappend_range_keeps path key b l r Ht) as [Ht1 Hk1]. destruct (IH _ Ht1) as [Ht2 Hk2]. split; [done |]. intros e He. by apply Hk2, Hk1.
Qed.

Lemma reappend_ranges_adds path key b rs l r :
  whole instance l -> r ∈ rs -> is_staged_range_spec r b = true ->
  exists e, le_cache_key e = key /\ le_range_start e = nr_start r /\ le_range_end e = nr_end r /\
    Entry e ∈ default [] (foldl (reappend_range (env path) instance key b) l rs !! primary_path instance).
Proof.
  revert l. induction rs as [| x rs IH]; intros l Ht; [by intros ?%elem_of_nil |]. cbn [foldl].
  destruct (reappend_range_keeps path key b l x Ht) as [Ht1 _]. intros [-> | Hin]%elem_of_cons Hs; [| by apply IH].
  set (e := mkLedgerEntry (env path x).2 key (nr_start x) (nr_end x) (nr_compressed_size x) instance).
  assert (Hw : exists w, written e = Some w /\ le_cache_key w = key /\ le_range_start w = nr_start x /\ le_range_end w = nr_end x).
  { unfold written, ledger_time_serialize. cbn [e le_timestamp]. destruct (Z.ltb_spec (env path x).2 0); [pose proof (times path x); lia |].
    eexists. split; [reflexivity | done]. }
  destruct Hw as (w & Hw & Hk & Hst & He). exists w. split_and!; [done.. |]. apply (reappend_ranges_keeps path key b rs _ Ht1).
  unfold reappend_range, record_staged_range, append_staged_range. rewrite Hs, appends. fold e. rewrite (appended_lookup _ _ _ _ Hw Ht).
  cbn [default from_option id]. rewrite elem_of_app. right. left.
Qed.

Lemma reappend_object_keeps l path :
  whole instance l -> whole instance (reappend_object env instance st known l path) /\
  forall e, Entry e ∈ default [] (l !! primary_path instance) ->
    Entry e ∈ default [] (reappend_object env instance st known l path !! primary_path instance).
Proof.
  intros Ht. unfold reappend_object. destruct (metadata_files st !! path) as [[m | |] |]; try done.
  case_bool_decide; [done |]. destruct (negb _); [done |]. by apply reappend_ranges_keeps.
Qed.

Lemma reappend_objects_keeps paths l :
  whole instance l -> whole instance (foldl (reappend_object env instance st known) l paths) /\
  forall e, Entry e ∈ default [] (l !! primary_path instance) ->
    Entry e ∈ default [] (foldl (reappend_object env instance st known) l paths !! primary_path instance).
Proof.
  revert l. induction paths as [| p paths IH]; intros l Ht; [done |]. cbn [foldl].
  destruct (reappend_object_keeps l p Ht) as [Ht1 Hk1]. destruct (IH _ Ht1) as [Ht2 Hk2]. split; [done |]. intros e He. by apply Hk2, Hk1.
Qed.

(** After a full scan every staged range of the objects it found staged has an entry,
    unless the ledger already knew the object. *)
Lemma reappend_covers paths l path m r :
  whole instance l -> path ∈ paths -> metadata_files st !! path = Some (MetaParsed m) ->
  om_is_write_cached (cm_object_metadata m) = true -> r ∈ cm_ranges m -> is_staged_range_spec r true = true ->
  (cm_cache_key m ∈ known) \/
  exists e, le_cache_key e = cm_cache_key m /\ le_range_start e = nr_start r /\ le_range_end e = nr_end r /\
    Entry e ∈ default [] (foldl (reappend_object env instance st known) l paths !! primary_path instance).
Proof.
  intros Ht Hin Hm Hw Hr Hs. destruct (decide (cm_cache_key m ∈ known)) as [Hk | Hk]; [by left | right].
  revert l Ht. induction paths as [| p paths IH]; intros l Ht; [by apply elem_of_nil in Hin |]. cbn [foldl].
  destruct (reappend_object_keeps l p Ht) as [Ht1 _]. apply elem_of_cons in Hin as [<- | Hin]; [| by apply IH].
  assert (reappend_object env instance st known l path = foldl (reappend_range (env path) instance (cm_cache_key m) true) l (cm_ranges m)) as E
    by (unfold reappend_object; rewrite Hm, bool_decide_false, Hw by done; done).
  rewrite E in *. destruct (reappend_ranges_adds path (cm_cache_key m) true (cm_ranges m) l r Ht Hr Hs) as (e & ? & ? & ? & He).
  exists e. split_and!; [done.. |]. by apply (reappend_objects_keeps paths _ Ht1).
Qed.
End Reappend.

(** ** Runs *)

Definition sample_entry (t : Z) (key : string) : WriteLedgerEntry := mkLedgerEntry t key 0 99 100 "host:1".

Definition sample_ledger : ledger := {["host:1.ledger" := [Entry (sample_entry 1000 "b/one")]]}.

(** Another instance retires the older entry of the file after the new one came. *)
Lemma ledger_entry_survives_witness :
  exists s, run [ReadFile true {[identity (sample_entry 1000 "b/one")]} "host:1.ledger"; Rewrite "host:1.ledger"]
              (mkLedgerState (append Appended "host:1" (sample_entry 2000 "b/two") sample_ledger).1 []) s /\
    sample_entry 2000 "b/two" ∈ entries_of (default [] (files s !! "host:1.ledger")).
Proof.
  eexists. split.
  - eapply run_cons; [apply step_read |]. eapply run_cons; [apply (step_rewrite _ _ _ [] []) |]. apply run_nil.
  - eapply (ledger_entry_survives "host:1" (sample_entry 2000 "b/two") (sample_entry 2000 "b/two") sample_ledger []);
      [reflexivity | reflexivity | intros es; apply not_elem_of_nil | |].
    + eapply run_cons; [apply step_read |]. eapply run_cons; [apply (step_rewrite _ _ _ [] []) |]. apply run_nil.
    + constructor; [| constructor; [done | constructor]]. intros _. split; [reflexivity |].
      apply (bool_decide_unpack _). vm_compute. exact I.
Defined.

(** An append between a pass's read of the file and its rewrite is lost, though it
    succeeded and no pass names it. *)
Example append_lost_by_compaction :
  exists s, run [ReadFile true ∅ "host:1.ledger"; Append Appended "host:1" (sample_entry 2000 "b/two"); Rewrite "host:1.ledger"]
              (mkLedgerState sample_ledger []) s /\
    (append Appended "host:1" (sample_entry 2000 "b/two") sample_ledger).2 = Ok tt /\
    le_cache_key <$> entries_of (default [] (files s !! "host:1.ledger")) = ["b/one"].
Proof.
  eexists. split; [| split].
  - eapply run_cons; [apply step_read |]. eapply run_cons; [apply step_append |].
    eapply run_cons; [apply (step_rewrite _ _ _ [] []) |]. apply run_nil.
  - done.
  - by vm_compute.
Qed.

(** A pass that retires nothing removes a file it cannot read. *)
Example unreadable_ledger_removed `{HashIter} :
  (retire_identities None (fun _ => false) (fun _ => true) ∅ sample_ledger).1 !! "host:1.ledger" = None.
Proof.
  unfold retire_identities, ledger_files.
  pose proof (retire_files_lookup (fun _ => false) (fun _ => true) ∅
    (base.filter (fun q => extension_is "ledger" q = true) (hash_iter sample_ledger).*1) sample_ledger (mkCompaction 0 0 0 0) "host:1.ledger") as Hl.
  destruct (foldl _ _ _) as [l s]. cbn [fst] in *. rewrite Hl by (apply NoDup_filter, hash_iter_keys_NoDup).
  rewrite decide_True; [apply lookup_delete_eq |]. split; [| done]. apply list_elem_of_filter. split; [by vm_compute |].
  apply list_elem_of_fmap. eexists (_, _). split; [done |]. apply hash_iter_lookup. apply lookup_singleton_eq.
Qed.

(** After a write that stopped part of the way, the next append is lost with it. *)
Example torn_append_loses_next :
  let l := (append (WriteStops (Some None) "disk full") "host:1" (sample_entry 2000 "b/two") sample_ledger).1 in
  let '(l, result) := append Appended "host:1" (sample_entry 3000 "b/three") l in
  result = Ok tt /\ le_cache_key <$> entries_of (default [] (l !! "host:1.ledger")) = ["b/one"].
Proof. by vm_compute. Qed.

End Ledger.
