(* ===== verification/WriteCache.v ===== *)
(** * The write cache: reservations and the eviction of staged objects
      ([write_cache_manager.rs], [capacity_manager.rs])

    The counter of bytes in flight with its reservations, the removal of one staged
    object with what it tells the shared accounting, and the removal of multipart
    uploads that were never completed.  Counter updates are compare-and-exchange loops
    around one atomic update each, so every method here is one step of the counter.
    What the file system, the locks and the clock answer is an argument. *)

From S2P Require Import Prelude CacheTypes Ranges RangeMerge Maps MetadataCache DiskPaths DiskRanges Frames.
From S2P Require Import CacheTier SizeAccounting Storage DiskStore Eviction RustStr Floats.
From stdpp Require Import gmap strings.
From Stdlib Require Import SpecFloat.

#[local] Open Scope Z_scope.

(** ** Admission by capacity ([capacity_manager.rs]) *)

Module Capacity.

Inductive BypassReason :=
  | ContentLengthExceedsCapacity (content_length available_capacity : Z)
  | NoContentLength
  | CacheDisabled.

Inductive CacheDecision := Cache | Bypass (reason : BypassReason) | StreamWithCapacityCheck.

Definition check_cache_capacity (content_length : option Z) (current_usage max_capacity : Z) : CacheDecision :=
  let available_capacity := saturating_sub max_capacity current_usage in
  match content_length with
  | Some len => if len <=? available_capacity then Cache else Bypass (ContentLengthExceedsCapacity len available_capacity)
  | None => StreamWithCapacityCheck
  end.

Definition check_streaming_capacity (bytes_written current_usage max_capacity : Z) : Result unit :=
  let total_usage := saturating_add current_usage bytes_written in
  if max_capacity <? total_usage then
    Err (CacheError ("Streaming capacity exceeded: " +:+ u64_to_string bytes_written +:+ " bytes written, total usage " +:+
      u64_to_string total_usage +:+ " exceeds capacity " +:+ u64_to_string max_capacity))
  else Ok tt.

End Capacity.

Module WCache.
Import Store DStore Evict.

(** ** The manager *)

Record WriteCacheManager := mkWcm {
  max_size : Z;
  current_size : Z;
  staged_entries : Z;
  staging_evictions_total : Z;
  staging_eviction_bytes_total : Z;
  graduations_total : Z;
  incomplete_upload_ttl : Z;
  max_object_size : Z;
}.

(** [f32::clamp] on the value of the percentage; not a number stays one. *)
Definition f_clamp (x lo hi : spec_float) : spec_float := if SFltb x lo then lo else if SFltb hi x then hi else x.

Definition new (total_cache_size : Z) (write_cache_percent : spec_float) (ttl max_object : Z) : WriteCacheManager :=
  let clamped_percent := f_clamp write_cache_percent (u64_to_f64 1) (u64_to_f64 50) in
  mkWcm (f64_to_u64 (f64_mul (u64_to_f64 total_cache_size) (f64_div clamped_percent (u64_to_f64 100)))) 0 0 0 0 0 ttl max_object.

Definition set_current (n : Z) (m : WriteCacheManager) : WriteCacheManager :=
  mkWcm (max_size m) n (staged_entries m) (staging_evictions_total m) (staging_eviction_bytes_total m) (graduations_total m)
    (incomplete_upload_ttl m) (max_object_size m).

Definition set_staged (n : Z) (m : WriteCacheManager) : WriteCacheManager :=
  mkWcm (max_size m) (current_size m) n (staging_evictions_total m) (staging_eviction_bytes_total m) (graduations_total m)
    (incomplete_upload_ttl m) (max_object_size m).

Definition increment_staged_entries (m : WriteCacheManager) : WriteCacheManager := set_staged (u64_add (staged_entries m) 1) m.

Definition decrement_staged_entries (m : WriteCacheManager) : WriteCacheManager := set_staged (saturating_sub (staged_entries m) 1) m.

Definition increment_graduations (m : WriteCacheManager) : WriteCacheManager :=
  mkWcm (max_size m) (current_size m) (staged_entries m) (staging_evictions_total m) (staging_eviction_bytes_total m)
    (u64_add (graduations_total m) 1) (incomplete_upload_ttl m) (max_object_size m).

Definition count_staging_eviction (freed : Z) (m : WriteCacheManager) : WriteCacheManager :=
  mkWcm (max_size m) (current_size m) (staged_entries m) (u64_add (staging_evictions_total m) 1)
    (if 0 <? freed then u64_add (staging_eviction_bytes_total m) freed else staging_eviction_bytes_total m)
    (graduations_total m) (incomplete_upload_ttl m) (max_object_size m).

(** ** Reservations *)

(** A reservation is the size it holds. *)
Definition reserve_for_sizing (size : Z) (m : WriteCacheManager) : option (WriteCacheManager * Z) :=
  new ← checked_add (current_size m) size; Some (set_current new m, size).

Definition try_reserve (size : Z) (m : WriteCacheManager) : option (WriteCacheManager * Z) :=
  if max_object_size m <? size then None else reserve_for_sizing size m.

Definition drop_reservation (size : Z) (m : WriteCacheManager) : WriteCacheManager :=
  if size =? 0 then m else set_current (if current_size m <? size then 0 else current_size m - size) m.

Definition release_capacity_internal (compressed_size : Z) (m : WriteCacheManager) : WriteCacheManager :=
  if compressed_size =? 0 then m
  else set_current (if current_size m <? compressed_size then 0 else current_size m - compressed_size) m.

(** The manager and the reservations that are held; a release is of evicted bytes. *)
Inductive reservation_step : Z -> WriteCacheManager * list Z -> WriteCacheManager * list Z -> Prop :=
  | step_reserve m held size m' : try_reserve size m = Some (m', size) -> 0 <= size -> reservation_step 0 (m, held) (m', size :: held)
  | step_drop m held1 size held2 : reservation_step 0 (m, held1 ++ size :: held2) (drop_reservation size m, held1 ++ held2)
  | step_release m held freed : 0 <= freed -> reservation_step freed (m, held) (release_capacity_internal freed m, held).

Inductive reservation_run : Z -> WriteCacheManager * list Z -> WriteCacheManager * list Z -> Prop :=
  | reservation_nil s : reservation_run 0 s s
  | reservation_cons n n' s s' s'' : reservation_step n s s' -> reservation_run n' s' s'' -> reservation_run (n + n') s s''.

(** ** Removing a staged object *)

(** What the removal meets. *)
Record staged_env := mkStagedEnv {
  sg_cache_dir : string;
  sg_instance : string;
  sg_consolidator : bool;
  sg_removable : string -> bool;
  sg_remove_meta : bool;
  sg_journal : string -> journal_io;
  sg_clock : nat -> Z;
  sg_objects : Size.locked_env;
  sg_flush : Size.write_outcome;
}.

(** The shared state, this instance's counters, and the files a path that leaves the
    cache directory would name. *)
Record staged_state := mkStagedState {
  sg_evict : evict_state;
  sg_manager : WriteCacheManager;
  sg_outside : gset string;
}.

Definition sg_storage (s : staged_state) : Storage := es_storage (sg_evict s).

(** [range_path.exists()], then [remove_file]: the file system follows the path as it
    is in the metadata. *)
Definition remove_range (env : staged_env) (files : gmap string Disk.file) (outside : gset string) (p : string)
    : gmap string Disk.file * gset string * bool :=
  if is_safe_relative_file_path p then
    match files !! p with
    | Some _ => if sg_removable env p then (base.delete p files, outside, true) else (files, outside, false)
    | None => (files, outside, false)
    end
  else if bool_decide (p ∈ outside) && sg_removable env p then (files, outside ∖ {[p]}, true)
  else (files, outside, false).

(** The files left, and the ranges whose files were there and went. *)
Fixpoint remove_ranges (env : staged_env) (files : gmap string Disk.file) (outside : gset string) (rs : list NewRangeSpec)
    : gmap string Disk.file * gset string * list NewRangeSpec :=
  match rs with
  | [] => (files, outside, [])
  | r :: rs =>
      let '(files, outside, removed) := remove_range env files outside (nr_file_path r) in
      let '(files, outside, deleted) := remove_ranges env files outside rs in
      (files, outside, if removed : bool then r :: deleted else deleted)
  end.

Section Removal.
Context `{HashIter} `{PathCodec}.

Definition staged_bin_path (env : staged_env) (file_path : string) : string :=
  path_join (path_join (sg_cache_dir env) "ranges") file_path.

(** The debits, the journal entries, the object count and the flush. *)
Definition account_staged (env : staged_env) (key : string) (wc : bool) (deleted : list NewRangeSpec) (metadata_deleted : bool)
    (es : evict_state) : evict_state :=
  if bool_decide (deleted = []) && negb metadata_deleted then es else
  if negb (sg_consolidator env) then es else
  let st := foldl (fun st r => debit_range key r wc st) (es_storage es) deleted in
  let st := write_eviction_journal_entries (sg_journal env) (sg_clock env) (sg_instance env)
              ((fun r => (key, nr_start r, nr_end r, nr_compressed_size r, staged_bin_path env (nr_file_path r))) <$> deleted) st in
  let size := if metadata_deleted then Size.decrement_cached_objects (sg_objects env) 1 (es_size es) else es_size es in
  let '(a, dir, _) := Size.flush (sg_flush env) (es_deltas es) (accumulator st) in
  mkEvictState (set_accumulator a st) size dir (es_evicted_entries es).

Definition evict_write_cached_object (env : staged_env) (key : string) (s : staged_state) : staged_state * Result Z :=
  match get_sharded_path "metadata" key ".meta" with
  | Ok path =>
      match metadata_files (sg_storage s) !! path with
      | None => (s, Err (CacheError ("Metadata file not found for eviction: " +:+ key)))
      | Some (MetaUnreadable e) => (s, Err (CacheError ("Failed to read metadata: " +:+ e)))
      | Some MetaCorrupt => (s, Err (CacheError "Failed to parse metadata"))
      | Some (MetaParsed m) =>
          let wc := om_is_write_cached (cm_object_metadata m) in
          let st := sg_storage s in
          let '(files, outside, deleted) := remove_ranges env (range_files st) (sg_outside s) (cm_ranges m) in
          let total_freed := foldl (fun n r => u64_add n (nr_compressed_size r)) 0 deleted in
          let st := set_range_files files st in
          let st := if sg_remove_meta env then set_metadata_files (base.delete path (metadata_files st)) st else st in
          let es := account_staged env key wc deleted (sg_remove_meta env) (on_storage st (sg_evict s)) in
          let mgr := release_capacity_internal total_freed (sg_manager s) in
          let mgr := if wc then decrement_staged_entries mgr else mgr in
          (mkStagedState es (count_staging_eviction total_freed mgr) outside, Ok total_freed)
      end
  | _ => (s, Err (CacheError ("Malformed cache key '" +:+ key +:+ "'")))
  end.

End Removal.

(** ** Incomplete multipart uploads *)

(** [upload.meta]: absent, not a tracker, or a tracker with its parts. *)
Inductive upload_meta := NoMeta | BadMeta | Tracker (started_at : Z) (parts : list Z).

(** A directory below [mpus_in_progress]: what is in it, by name and length, and the
    times the file system gives for it and for [upload.meta]. *)
Record upload_dir := mkUpload {
  up_meta : upload_meta;
  up_modified : option Z;
  up_meta_modified : option Z;
  up_files : gmap string Z;
}.

(** What the removal of an upload meets. *)
Record upload_env := mkUploadEnv {
  ue_now : Z;
  ue_listed : string -> option string;
  ue_stat_fails : string -> string -> bool;
  ue_removable : string -> string -> bool;
  ue_dir_removable : string -> bool;
  ue_lock : string -> option (Result bool);
}.

Abbreviation uploads := (gmap string upload_dir).

Section Uploads.
Context `{HashIter}.

Definition remove_upload_file (env : upload_env) (id : string) (acc : Z * gmap string Z) (entry : string * Z) : Z * gmap string Z :=
  (if ue_stat_fails env id entry.1 then acc.1 else u64_add acc.1 entry.2,
   if ue_removable env id entry.1 then base.delete entry.1 acc.2 else acc.2).

Definition set_files (fs : gmap string Z) (u : upload_dir) : upload_dir := mkUpload (up_meta u) (up_modified u) (up_meta_modified u) fs.

Definition evict_incomplete_upload (env : upload_env) (id : string) (u : upload_dir) (s : uploads * WriteCacheManager)
    : uploads * WriteCacheManager * Result Z :=
  match ue_listed env id with
  | Some error => (s, Err (CacheError ("Failed to read upload dir: " +:+ error)))
  | None =>
      let '(total_freed, remaining) := foldl (remove_upload_file env id) (0, up_files u) (hash_iter (up_files u)) in
      let us := if bool_decide (remaining = ∅) && ue_dir_removable env id then base.delete id s.1 else <[id:=set_files remaining u]> s.1 in
      (us, release_capacity_internal total_freed s.2, Ok total_freed)
  end.

(** The part files the tracker lists. *)
Definition tracked_bytes (env : upload_env) (id : string) (u : upload_dir) (parts : list Z) : Z :=
  foldl (fun n part => let name := "part" +:+ u64_to_string part +:+ ".bin" in
                       match up_files u !! name with
                       | Some len => if ue_stat_fails env id name then n else u64_add n len
                       | None => n
                       end) 0 parts.

(** [None]: the lock file cannot be opened; [Some (Ok false)]: another instance holds
    it; [Some (Err _)]: the removal goes on without it. *)
Definition evict_incomplete_upload_with_tracker (env : upload_env) (id : string) (u : upload_dir) (parts : list Z)
    (s : uploads * WriteCacheManager) : uploads * WriteCacheManager * Result Z :=
  match ue_lock env id with
  | None => evict_incomplete_upload env id u s
  | Some (Ok false) => (<[id:=set_files (<["upload.lock":=default 0 (up_files u !! "upload.lock")]> (up_files u)) u]> s.1, s.2, Ok 0)
  | Some _ =>
      let u := set_files (<["upload.lock":=default 0 (up_files u !! "upload.lock")]> (up_files u)) u in
      let total_freed := tracked_bytes env id u parts in
      let '(s, freed_from_dir) := evict_incomplete_upload env id u (<[id:=u]> s.1, s.2) in
      (s, Ok (u64_add total_freed (match freed_from_dir with Ok n => n | _ => 0 end)))
  end.

(** The latest sign of activity. *)
Definition newest_mtime (u : upload_dir) : option Z :=
  match up_modified u, up_meta_modified u with
  | Some a, Some b => Some (if a <? b then b else a)
  | Some a, None => Some a
  | None, b => b
  end.

Definition evict_upload (env : upload_env) (acc : uploads * WriteCacheManager * Z) (entry : string * upload_dir)
    : uploads * WriteCacheManager * Z :=
  let '(s, total_freed) := acc in
  let '(id, u) := entry in
  let count := fun r : uploads * WriteCacheManager * Result Z =>
                 (r.1, match r.2 with Ok freed => u64_add total_freed freed | _ => total_freed end) in
  match up_meta u with
  | NoMeta =>
      match up_modified u with
      | Some modified =>
          if (modified <=? ue_now env) && (incomplete_upload_ttl s.2 <? ue_now env - modified)
          then count (evict_incomplete_upload env id u s) else acc
      | None => acc
      end
  | BadMeta => acc
  | Tracker started_at parts =>
      let age := duration_since_or_zero (ue_now env) (default started_at (newest_mtime u)) in
      if incomplete_upload_ttl s.2 <? age then count (evict_incomplete_upload_with_tracker env id u parts s) else acc
  end.

Definition evict_incomplete_uploads (env : upload_env) (list_fails : bool) (s : uploads * WriteCacheManager)
    : uploads * WriteCacheManager * Result Z :=
  if list_fails then (s, Ok 0) else
  let '(s, freed) := foldl (evict_upload env) (s, 0) (hash_iter s.1) in (s, Ok freed).

Definition cleanup_incomplete_uploads_on_startup (env : upload_env) (list_fails : bool) (s : uploads * WriteCacheManager)
    : uploads * WriteCacheManager * Result unit :=
  let '(s, r) := evict_incomplete_uploads env list_fails s in
  (s, match r with Ok _ => Ok tt | Err e => Err e | Panic => Panic end).

End Uploads.

(** ** The counter of bytes in flight *)

(** The counter is within the reservations held, and short of them by at most what
    eviction released. *)
Definition counted (released : Z) (s : WriteCacheManager * list Z) : Prop :=
  Forall (fun n => 0 <= n) s.2 /\ 0 <= current_size s.1 <= U64_MAX /\
  current_size s.1 <= sum_by id s.2 <= current_size s.1 + released.

Lemma held_nonneg (held : list Z) : Forall (fun n => 0 <= n) held -> 0 <= sum_by id held.
Proof. intros Hf. apply sum_by_nonneg. intros x Hx. rewrite Forall_forall in Hf. by apply Hf. Qed.

Lemma reservation_step_counted n r s s' : reservation_step n s s' -> 0 <= r -> counted r s -> counted (r + n) s'.
Proof.
  intros Hstep Hr (Hf & Hc & Hs). destruct Hstep as [m held size m' Ht Hsz | m held1 size held2 | m held freed Hfr]; cbn [fst snd] in *.
  - unfold try_reserve, reserve_for_sizing, checked_add in Ht. destruct (_ <? _); [done |].
    destruct (Z.leb_spec (current_size m + size) U64_MAX); cbn in Ht; [| done]. injection Ht as <-.
    unfold counted. cbn [fst snd set_current current_size]. rewrite sum_by_cons. unfold id at 1 3. split; [by constructor | lia].
  - rewrite Forall_app, Forall_cons in Hf. destruct Hf as (H1 & Hsz & H2). pose proof (held_nonneg _ H1). pose proof (held_nonneg _ H2).
    rewrite sum_by_app, sum_by_cons in Hs. unfold id at 2 in Hs. unfold id at 4 in Hs.
    unfold counted, drop_reservation. cbn [fst snd]. rewrite sum_by_app. split; [by apply Forall_app_2 |].
    destruct (Z.eqb_spec size 0); [lia |]. cbn [set_current current_size]. destruct (Z.ltb_spec (current_size m) size); lia.
  - pose proof (held_nonneg _ Hf). unfold counted, release_capacity_internal. cbn [fst snd]. split; [done |].
    destruct (Z.eqb_spec freed 0); [lia |]. cbn [set_current current_size]. destruct (Z.ltb_spec (current_size m) freed); lia.
Qed.

Lemma reservation_step_nonneg n s s' : reservation_step n s s' -> 0 <= n.
Proof. by destruct 1. Qed.

Lemma reservation_run_counted n s s' : reservation_run n s s' -> forall r, 0 <= r -> counted r s -> counted (r + n) s'.
Proof.
  induction 1 as [s | n n' s s' s'' Hstep _ IH]; intros r Hr Hc; [by rewrite Z.add_0_r |].
  rewrite Z.add_assoc. pose proof (reservation_step_nonneg _ _ _ Hstep). apply IH; [lia |]. by eapply reservation_step_counted.
Qed.

(** Under every interleaving of reservations, drops and evictions the counter of
    bytes in flight never exceeds the reservations held and never wraps; it is exactly
    their sum while nothing was evicted, and falls short of it by at most the bytes
    that eviction released. *)
Theorem inflight_bytes_bounded n m s :
  current_size m = 0 -> reservation_run n (m, []) s -> counted n s.
Proof.
  intros Hm Hrun. apply (reservation_run_counted _ _ _ Hrun 0 (Z.le_refl 0)).
  unfold counted. cbn. rewrite Hm. split; [constructor |]. unfold U64_MAX. lia.
Qed.

(** ** What the removal of a staged object does *)

Lemma remove_range_spec env files outside p files' outside' removed :
  remove_range env files outside p = (files', outside', removed) ->
  (forall q, files' !! q = if decide (q = p /\ is_safe_relative_file_path p = true /\ sg_removable env p = true) then None else files !! q) /\
  (is_safe_relative_file_path p = true -> outside' = outside /\
     (removed = true <-> sg_removable env p = true /\ is_Some (files !! p))).
Proof.
  unfold remove_range. destruct (is_safe_relative_file_path p) eqn:Es.
  - destruct (files !! p) as [f |] eqn:Ef; [destruct (sg_removable env p) eqn:Er |]; intros [= <- <- <-]; split;
      try (intros _; split; [done |]; split; [done |]; intros [? [? ?]]; congruence);
      try (intros _; split; [done |]; split; [intros _; split; [done | by exists f] | done]); intros q; case_decide as Hd; try done.
    + destruct Hd as [-> _]. apply lookup_delete_eq.
    + apply lookup_delete_ne. intros ->. by apply Hd.
    + destruct Hd as (_ & _ & ?). done.
    + destruct Hd as (-> & _). done.
  - destruct (_ && _); intros [= <- <- <-]; (split; [| done]); intros q; rewrite decide_False; try done; by intros (_ & ? & _).
Qed.

Lemma remove_ranges_spec env rs files outside files' outside' deleted :
  remove_ranges env files outside rs = (files', outside', deleted) ->
  (forall q, files' !! q =
     if decide (q ∈ nr_file_path <$> rs /\ is_safe_relative_file_path q = true /\ sg_removable env q = true) then None else files !! q) /\
  deleted ⊆ rs /\
  (Forall (fun r => is_safe_relative_file_path (nr_file_path r) = true) rs -> NoDup (nr_file_path <$> rs) ->
     outside' = outside /\
     deleted = base.filter (fun r => sg_removable env (nr_file_path r) = true /\ is_Some (files !! nr_file_path r)) rs).
Proof.
  revert files outside files' outside' deleted.
  induction rs as [| r rs IH]; intros files outside files' outside' deleted; cbn [remove_ranges].
  { intros [= <- <- <-]. split_and!; [| done | done]. intros q. rewrite decide_False; [done |]. by intros [?%elem_of_nil _]. }
  destruct (remove_range env files outside (nr_file_path r)) as [[files1 outside1] removed] eqn:E1.
  destruct (remove_ranges env files1 outside1 rs) as [[files2 outside2] deleted1] eqn:E2. intros [= <- <- <-].
  destruct (remove_range_spec _ _ _ _ _ _ _ E1) as [Hf1 Ho1]. destruct (IH _ _ _ _ _ E2) as (Hf2 & Hd2 & Ho2). split_and!.
  - intros q. rewrite Hf2, Hf1. cbn [fmap list_fmap].
    assert (Hc : q ∈ nr_file_path r :: (nr_file_path <$> rs) <-> q = nr_file_path r \/ q ∈ nr_file_path <$> rs) by apply elem_of_cons.
    destruct (decide (q = nr_file_path r)) as [-> | Hne]; repeat case_decide; try done; exfalso; tauto.
  - destruct removed; intros x; [rewrite elem_of_cons; intros [-> | Hx]; [left | right; by apply Hd2] | right; by apply Hd2].
  - intros [Hs Hss]%Forall_cons [Hn Hnd]%NoDup_cons. destruct (Ho1 Hs) as [-> Hr]. destruct (Ho2 Hss Hnd) as [-> ->]. split; [done |].
    assert (Hsame : base.filter (fun r0 => sg_removable env (nr_file_path r0) = true /\ is_Some (files1 !! nr_file_path r0)) rs =
      base.filter (fun r0 => sg_removable env (nr_file_path r0) = true /\ is_Some (files !! nr_file_path r0)) rs).
    { clear -Hn Hf1. induction rs as [| x rs IHx]; [done |]. cbn [fmap list_fmap] in Hn. apply not_elem_of_cons in Hn as [Hne Hn].
      assert (files1 !! nr_file_path x = files !! nr_file_path x) as Hx by (rewrite Hf1, decide_False; [done | intros [? _]; congruence]).
      rewrite !filter_cons, (IHx Hn). destruct (decide _) as [Ha | Ha], (decide _) as [Hb | Hb]; try done; exfalso; rewrite Hx in Ha; done. }
    rewrite Hsame. destruct removed.
    + rewrite filter_cons_True; [done |]. by apply Hr.
    + rewrite filter_cons_False; [done |]. by rewrite <- Hr.
Qed.

(** What is still to be added to the sizes on record: in memory, and in delta files. *)
Definition pending_delta (es : evict_state) : Z :=
  Size.delta (accumulator (es_storage es)) + Size.dir_total Size.file_delta (es_deltas es).

Definition pending_write_cache (es : evict_state) : Z :=
  Size.write_cache_delta (accumulator (es_storage es)) + Size.dir_total Size.file_wc_delta (es_deltas es).

(** The next flush does not overwrite a delta file. *)
Definition next_delta_fresh (es : evict_state) : Prop :=
  let a := accumulator (es_storage es) in
  es_deltas es !! Size.delta_file_name (Size.instance_id a) (Size.flush_sequence a) = None.

Definition staged_bytes (wc : bool) (rs : list NewRangeSpec) : Z :=
  sum_by (fun r => if is_staged_range_spec r wc then nr_compressed_size r else 0) rs.

Section Exact.
Context `{HashIter} `{PathCodec}.

Lemma debit_range_acc key r wc st :
  let a := accumulator (debit_range key r wc st) in
  Size.instance_id a = Size.instance_id (accumulator st) /\ Size.flush_sequence a = Size.flush_sequence (accumulator st) /\
  cong64 (Size.delta a) (Size.delta (accumulator st) - nr_compressed_size r) /\
  cong64 (Size.write_cache_delta a) (Size.write_cache_delta (accumulator st) - staged_bytes wc [r]).
Proof.
  unfold debit_range, staged_bytes. rewrite sum_by_cons, sum_by_nil. destruct (is_staged_range_spec r wc); cbn; split_and!; try done;
    rewrite ?wrap_i64_cong; apply cong64_eq; lia.
Qed.

Lemma debits_acc key wc rs st :
  let a := accumulator (foldl (fun st r => debit_range key r wc st) st rs) in
  Size.instance_id a = Size.instance_id (accumulator st) /\ Size.flush_sequence a = Size.flush_sequence (accumulator st) /\
  cong64 (Size.delta a) (Size.delta (accumulator st) - sum_by nr_compressed_size rs) /\
  cong64 (Size.write_cache_delta a) (Size.write_cache_delta (accumulator st) - staged_bytes wc rs).
Proof.
  revert st. induction rs as [| r rs IH]; intros st; cbn [foldl].
  { split_and!; try done; apply cong64_eq; rewrite ?sum_by_nil; unfold staged_bytes; rewrite ?sum_by_nil; lia. }
  destruct (debit_range_acc key r wc st) as (Hi & Hs & Hd & Hw). destruct (IH (debit_range key r wc st)) as (Hi' & Hs' & Hd' & Hw').
  unfold staged_bytes in *. rewrite Hi', Hs', Hi, Hs, Hd', Hd, Hw', Hw. split_and!; try done; rewrite !sum_by_cons, ?sum_by_nil; apply cong64_eq; lia.
Qed.

Lemma debits_fields key wc rs st :
  range_files (foldl (fun st r => debit_range key r wc st) st rs) = range_files st /\
  metadata_files (foldl (fun st r => debit_range key r wc st) st rs) = metadata_files st.
Proof. revert st. induction rs as [| r rs IH]; intros st; cbn [foldl]; [done |]. destruct (IH (debit_range key r wc st)) as [-> ->]. done. Qed.

Lemma account_staged_spec env key wc deleted gone es :
  sg_consolidator env = true -> next_delta_fresh es ->
  let es' := account_staged env key wc deleted gone es in
  range_files (es_storage es') = range_files (es_storage es) /\ metadata_files (es_storage es') = metadata_files (es_storage es) /\
  cong64 (pending_delta es') (pending_delta es - sum_by nr_compressed_size deleted) /\
  cong64 (pending_write_cache es') (pending_write_cache es - staged_bytes wc deleted).
Proof.
  intros Hc Hfresh. unfold account_staged. destruct (bool_decide (deleted = []) && negb gone) eqn:Ez.
  { apply andb_true_iff in Ez as [->%bool_decide_eq_true _]. split_and!; try done; apply cong64_eq; unfold staged_bytes; rewrite sum_by_nil; lia. }
  rewrite Hc. cbn [negb]. set (st1 := foldl _ (es_storage es) deleted). set (st2 := write_eviction_journal_entries _ _ _ _ st1).
  destruct (debits_acc key wc deleted (es_storage es)) as (Hi & Hs & Hd & Hw). fold st1 in Hi, Hs, Hd, Hw.
  assert (Ha : accumulator st2 = accumulator st1) by apply eviction_entries_accumulator.
  destruct (Size.flush _ _ _) as [[a dir] r] eqn:Ef. cbn [es_storage es_deltas].
  destruct (Size.flush_conserves (sg_flush env) (es_deltas es) (accumulator st2) a dir r) as [Cd Cw];
    [rewrite Ha, Hi, Hs; exact Hfresh | exact Ef |].
  destruct (debits_fields key wc deleted (es_storage es)) as [Hrf Hmf]. fold st1 in Hrf, Hmf.
  destruct (eviction_entries_fields (sg_journal env) (sg_clock env) (sg_instance env)
    ((fun r => (key, nr_start r, nr_end r, nr_compressed_size r, staged_bin_path env (nr_file_path r))) <$> deleted) st1) as (Hrf2 & Hmf2 & _).
  fold st2 in Hrf2, Hmf2.
  unfold pending_delta, pending_write_cache. cbn [es_storage es_deltas set_accumulator accumulator range_files metadata_files].
  rewrite Cd, Cw, Ha, Hd, Hw. split_and!; [by rewrite Hrf2 | by rewrite Hmf2 | apply cong64_eq; lia | apply cong64_eq; lia].
Qed.

Lemma freed_sum rs n :
  Forall (fun r => 0 <= nr_compressed_size r) rs -> 0 <= n -> n + sum_by nr_compressed_size rs <= U64_MAX ->
  foldl (fun n r => u64_add n (nr_compressed_size r)) n rs = n + sum_by nr_compressed_size rs.
Proof.
  intros Hf. revert n. induction Hf as [| r rs Hr Hrs IH]; intros n Hn Hle; cbn [foldl]; [rewrite sum_by_nil; lia |].
  rewrite sum_by_cons in *. assert (0 <= sum_by nr_compressed_size rs).
  { apply sum_by_nonneg. intros x Hx. rewrite Forall_forall in Hrs. by apply Hrs. }
  rewrite u64_add_small by (unfold U64_MAX in Hle; lia). rewrite IH; lia.
Qed.

(** The ranges of an object whose files are there and can be removed. *)
Definition removable_ranges (env : staged_env) (files : gmap string Disk.file) (m : NewCacheMetadata) : list NewRangeSpec :=
  base.filter (fun r => sg_removable env (nr_file_path r) = true /\ is_Some (files !! nr_file_path r)) (cm_ranges m).

Lemma sum_filter_le (P : NewRangeSpec -> Prop) `{!forall x, Decision (P x)} rs :
  Forall (fun r => 0 <= nr_compressed_size r) rs -> sum_by nr_compressed_size (base.filter P rs) <= sum_by nr_compressed_size rs.
Proof.
  induction 1 as [| r rs Hr _ IH]; [done |]. rewrite filter_cons. case_decide; rewrite ?sum_by_cons; lia.
Qed.

(** The eviction of a staged object removes exactly the range files its metadata
    lists that are there and can be removed, and touches no other file; it reports the
    bytes of those ranges, the size still to be recorded falls by the same bytes, and
    the write-cache size by those of them that still count as staged, so that a range
    that graduated, or whose file was gone or could not be removed, is debited nowhere
    it was not credited. *)
Theorem staged_eviction_exact env key path m s s' freed :
  sg_consolidator env = true ->
  get_sharded_path "metadata" key ".meta" = Ok path -> metadata_files (sg_storage s) !! path = Some (MetaParsed m) ->
  Forall (fun r => is_safe_relative_file_path (nr_file_path r) = true /\ 0 <= nr_compressed_size r) (cm_ranges m) ->
  NoDup (nr_file_path <$> cm_ranges m) -> sum_by nr_compressed_size (cm_ranges m) <= U64_MAX ->
  next_delta_fresh (sg_evict s) ->
  evict_write_cached_object env key s = (s', Ok freed) ->
  let removed := removable_ranges env (range_files (sg_storage s)) m in
  freed = sum_by nr_compressed_size removed /\
  (forall q, range_files (sg_storage s') !! q =
     if decide (q ∈ nr_file_path <$> cm_ranges m /\ is_safe_relative_file_path q = true /\ sg_removable env q = true)
     then None else range_files (sg_storage s) !! q) /\
  metadata_files (sg_storage s') = (if sg_remove_meta env then base.delete path (metadata_files (sg_storage s)) else metadata_files (sg_storage s)) /\
  sg_outside s' = sg_outside s /\
  cong64 (pending_delta (sg_evict s')) (pending_delta (sg_evict s) - freed) /\
  cong64 (pending_write_cache (sg_evict s'))
    (pending_write_cache (sg_evict s) - staged_bytes (om_is_write_cached (cm_object_metadata m)) removed).
Proof.
  intros Hc Hp Hm Hall Hnd Hle Hfresh E removed. unfold evict_write_cached_object in E. rewrite Hp, Hm in E.
  assert (Hsafe : Forall (fun r => is_safe_relative_file_path (nr_file_path r) = true) (cm_ranges m)) by (eapply Forall_impl; [exact Hall | by intros r [? ?]]).
  assert (Hnn : Forall (fun r => 0 <= nr_compressed_size r) (cm_ranges m)) by (eapply Forall_impl; [exact Hall | by intros r [? ?]]).
  destruct (remove_ranges _ _ _ _) as [[files outside] deleted] eqn:Er.
  destruct (remove_ranges_spec _ _ _ _ _ _ _ Er) as (Hf & _ & Hd). destruct (Hd Hsafe Hnd) as [-> Hdel].
  assert (deleted = removed) as -> by exact Hdel. clear Hdel.
  injection E as <- Hfr. unfold sg_storage. cbn [sg_evict sg_outside].
  set (st := if sg_remove_meta env then _ else _) in *.
  assert (Hacc : accumulator st = accumulator (sg_storage s)) by (unfold st; by destruct (sg_remove_meta env)).
  destruct (account_staged_spec env key (om_is_write_cached (cm_object_metadata m)) removed (sg_remove_meta env) (on_storage st (sg_evict s)))
    as (Hrf & Hmf & Hdl & Hwc); [done | unfold next_delta_fresh; cbn; by rewrite Hacc |].
  assert (Hsum : freed = sum_by nr_compressed_size removed).
  { rewrite <- Hfr, freed_sum; [by rewrite Z.add_0_l | apply Forall_forall; intros r [_ Hin]%list_elem_of_filter; rewrite Forall_forall in Hnn; by apply Hnn | lia |]. pose proof (sum_filter_le
      (fun r => sg_removable env (nr_file_path r) = true /\ is_Some (range_files (sg_storage s) !! nr_file_path r)) _ Hnn) as Hs.
    unfold removed, removable_ranges. lia. }
  rewrite Hsum, Hrf, Hmf, Hdl, Hwc. unfold pending_delta, pending_write_cache. cbn [on_storage es_storage es_deltas]. rewrite Hacc.
  split_and!; try done; unfold st; by destruct (sg_remove_meta env).
Qed.

End Exact.

(** ** The removal keeps the storage sound *)

Section Sound.
Context `{HashIter} `{PathCodec} `{FrameEncoder} `{FrameCodec} `{HttpDate}.
Context (object : string -> string -> bytes).

Lemma debits_ok key wc rs st : storage_ok object st -> storage_ok object (foldl (fun st r => debit_range key r wc st) st rs).
Proof. revert st. induction rs as [| r rs IH]; intros st Hok; [done |]. apply IH. by apply debit_range_ok. Qed.

Lemma account_staged_ok env key wc deleted gone es :
  storage_ok object (es_storage es) -> storage_ok object (es_storage (account_staged env key wc deleted gone es)).
Proof.
  intros Hok. unfold account_staged. destruct (_ && _); [done |]. destruct (negb _); [done |].
  destruct (Size.flush _ _ _) as [[a dir] r]. cbn [es_storage]. by apply storage_ok_accumulator, eviction_entries_ok, debits_ok.
Qed.

Lemma evict_write_cached_object_ok env key s :
  storage_ok object (sg_storage s) -> storage_ok object (sg_storage (evict_write_cached_object env key s).1).
Proof.
  intros Hok. unfold evict_write_cached_object. destruct (get_sharded_path _ _ _) as [path | |]; [| done | done].
  destruct (metadata_files (sg_storage s) !! path) as [[m | | e] |]; try done.
  destruct (remove_ranges _ _ _ _) as [[files outside] deleted] eqn:Er. destruct (remove_ranges_spec _ _ _ _ _ _ _ Er) as (Hf & _ & _).
  unfold sg_storage. cbn [fst sg_evict]. apply account_staged_ok. cbn [on_storage es_storage].
  assert (Hfiles : storage_ok object (set_range_files files (sg_storage s))).
  { apply storage_ok_range_files; [done |]. eapply files_ok_subseteq; [| apply Hok]. apply map_subseteq_spec. intros q f.
    rewrite Hf. by case_decide. }
  destruct (sg_remove_meta env); [| done]. destruct Hfiles as [Hfo Hmo Hjo]. constructor; [done | | done].
  intros p m'. cbn [set_metadata_files metadata_files]. rewrite lookup_delete_Some. intros [_ Hm]. by apply Hmo.
Qed.

End Sound.

(** ** A staged object *)

#[local] Existing Instance map_order.
#[local] Existing Instance sample_codec.

Definition staged_om : ObjectMetadata :=
  mkObjectMetadata "v1" "" 6 None ∅ Complete 0 [] Lz4 0 None ∅ None true None None None false.

Definition staged_range (s e created : Z) (path : string) (size : Z) (staged : option bool) : NewRangeSpec :=
  mkNewRangeSpec s e path Lz4 size size created created 1 staged.

Definition staged_meta (rs : list NewRangeSpec) : NewCacheMetadata :=
  mkNewCacheMetadata "b/k" staged_om rs 1000 2000 (mkCompressionInfo Lz4 None None None) None None 0 None.

Definition staged_sample (rs : list NewRangeSpec) (files : gmap string Disk.file) (outside : gset string) : staged_state :=
  mkStagedState
    (mkEvictState (set_metadata_files {[get_new_metadata_file_path "b/k" := MetaParsed (staged_meta rs)]} (set_range_files files empty_storage))
       None ∅ 0)
    (new 1000 (u64_to_f64 10) 3600 100) outside.

Definition staged_sample_env : staged_env :=
  mkStagedEnv "/cache" "h:1" true (fun _ => true) true (fun _ => Locked false None) (fun _ => 1000) (Size.mkLockedEnv 0 "h:1" None None) Size.Written.

(** A staged range, a range of the read tier, and one whose file is gone. *)
Definition mixed_ranges : list NewRangeSpec :=
  [staged_range 0 5 1000 "one.bin" 6 None; staged_range 6 9 1000 "two.bin" 4 (Some false); staged_range 10 19 1000 "gone.bin" 10 None].

Definition mixed_files : gmap string Disk.file :=
  {["one.bin" := Disk.Readable (replicate 6 Byte.x00); "two.bin" := Disk.Readable (replicate 4 Byte.x00); "other.bin" := Disk.Readable []]}.

Lemma staged_eviction_exact_witness :
  let '(s', r) := evict_write_cached_object staged_sample_env "b/k" (staged_sample mixed_ranges mixed_files ∅) in
  r = Ok 10 /\ cong64 (pending_delta (sg_evict s')) (-10) /\ cong64 (pending_write_cache (sg_evict s')) (-6) /\
  range_files (sg_storage s') !! "one.bin" = None.
Proof.
  destruct (evict_write_cached_object _ _ _) as [s' r] eqn:E.
  assert (r = Ok 10) as -> by (change r with (s', r).2; rewrite <- E; by vm_compute).
  destruct (staged_eviction_exact staged_sample_env "b/k" (get_new_metadata_file_path "b/k") (staged_meta mixed_ranges)
    (staged_sample mixed_ranges mixed_files ∅) s' 10) as (_ & Hf & _ & _ & Hd & Hw).
  - reflexivity.
  - by vm_compute.
  - by vm_compute.
  - repeat constructor; by vm_compute.
  - vm_compute. repeat (constructor; [rewrite ?elem_of_cons, elem_of_nil; intuition discriminate |]). constructor.
  - by vm_compute.
  - reflexivity.
  - exact E.
  - split; [reflexivity |]. split; [exact Hd |]. split; [exact Hw |]. rewrite Hf, decide_True; [done |]. split; [left | split; reflexivity].
Defined.

(** ** Where the code departs from its comments *)

(** Unlike the eviction of read ranges, the removal of a staged object follows a path
    of the metadata that leaves the cache directory. *)
Example path_outside_cache_removed :
  let '(s', r) := evict_write_cached_object staged_sample_env "b/k"
                    (staged_sample [staged_range 0 5 1000 "../../etc/hosts" 6 None] ∅ {["../../etc/hosts"]}) in
  is_safe_relative_file_path "../../etc/hosts" = false /\ r = Ok 6 /\ sg_outside s' = ∅.
Proof. by vm_compute. Qed.

(** The bytes of a part are counted once from the tracker and once from the directory. *)
Example part_bytes_counted_twice :
  let u := mkUpload (Tracker 0 [1]) (Some 0) (Some 0) {["part1.bin" := 100]} in
  (evict_incomplete_uploads (mkUploadEnv (7200 * NANOS_PER_SEC) (fun _ => None) (fun _ _ => false) (fun _ _ => true) (fun _ => true) (fun _ => Some (Ok true)))
     false ({["up" := u]}, new 1000 (u64_to_f64 10) (3600 * NANOS_PER_SEC) 100)).2 = Ok 200.
Proof. by vm_compute. Qed.

(** Evicting bytes that were never reserved lowers the count of bytes in flight. *)
Example eviction_lowers_inflight :
  let m := set_current 90 (new 1000 (u64_to_f64 10) 3600 100) in current_size (release_capacity_internal 60 m) = 30.
Proof. by vm_compute. Qed.

Lemma inflight_bytes_bounded_witness :
  let m := new 1000 (u64_to_f64 10) 3600 100 in
  exists m', try_reserve 90 m = Some (m', 90) /\ counted 60 (release_capacity_internal 60 m', [90]).
Proof.
  eexists. split; [reflexivity |]. apply (inflight_bytes_bounded 60 (new 1000 (u64_to_f64 10) 3600 100)); [reflexivity |].
  change 60 with (0 + (60 + 0)) at 1. eapply reservation_cons; [apply (step_reserve _ [] 90); [reflexivity | lia] |].
  eapply reservation_cons; [apply step_release; lia | apply reservation_nil].
Defined.

End WCache.
