(* ===== verification/StagingEviction.v ===== *)
(** * Eviction from the staging tier ([cache.rs])

    The pass that keeps staged objects within their share of the cache: its trigger and
    target, the size it reads before and after it has the lock, the candidates of the
    ledger in the order of their age, each verified against its metadata and removed
    until enough is freed, and the entries it retires; and the bound that may decline
    to cache an upload at all.  What other instances do while the pass waits for the
    lock, and between the verification of an object and its removal, is an argument. *)

From S2P Require Import Prelude CacheTypes Ranges RangeMerge Maps MetadataCache DiskPaths DiskRanges Frames.
From S2P Require Import CacheTier SizeAccounting Storage DiskStore Eviction WriteLedger WriteCache RustStr Floats.
From stdpp Require Import gmap strings.
From Stdlib Require Import SpecFloat.

#[local] Open Scope Z_scope.

Module Staging.
Import Store DStore Evict Ledger WCache.

(** ** Bounds *)

(** [get_write_cache_capacity], in [f32]. *)
Definition get_write_cache_capacity (max_cache_size_limit : Z) (write_cache_percent : spec_float) : Z :=
  let max_cache_size := if max_cache_size_limit =? 0 then 1024 * 1024 * 1024 else max_cache_size_limit in
  f64_to_u64 (f32_div (f32_mul (u64_to_f32 max_cache_size) write_cache_percent) (u64_to_f32 100)).

Definition get_staging_bound_bytes (max_cache_size_limit : Z) (write_cache_percent : spec_float) : Z :=
  get_write_cache_capacity max_cache_size_limit write_cache_percent.

Definition percent_of (bound percent : Z) : Z := f64_to_u64 (f64_div (f64_mul (u64_to_f64 bound) (u64_to_f64 percent)) (u64_to_f64 100)).

Definition get_staging_eviction_thresholds (bound trigger_percent target_percent : Z) : Z * Z :=
  if bound =? 0 then (0, 0) else (percent_of bound trigger_percent, percent_of bound target_percent).

(** [None] when the consolidator is not there yet. *)
Definition get_staging_resident_bytes (wired : bool) (f : Size.state_file) : option Z :=
  if wired then Some (Size.get_write_cache_size f) else None.

Definition DISK_SAFETY_FREE_SPACE_FLOOR_BYTES : Z := 1024 * 1024 * 1024.

(** Whether caching the bytes is declined; free space that cannot be read does not
    decline it. *)
Definition disk_safety_refusal (wired : bool) (max_cache_size : Z) (available_space : option Z) (f : Size.state_file)
    (incoming_bytes : Z) : bool :=
  if (0 <? max_cache_size) && wired && (max_cache_size <? saturating_add (Size.get_current_size f) incoming_bytes) then true
  else match available_space with
       | Some available => available <? saturating_add incoming_bytes DISK_SAFETY_FREE_SPACE_FLOOR_BYTES
       | None => false
       end.

Lemma disk_safety_admits wired max available f incoming :
  0 <= incoming -> disk_safety_refusal wired max (Some available) f incoming = false -> available < U64_MAX ->
  incoming + DISK_SAFETY_FREE_SPACE_FLOOR_BYTES <= available /\
  (wired = true -> 0 < max < U64_MAX -> Size.get_current_size f + incoming <= max).
Proof.
  intros Hi Hr Ha. unfold disk_safety_refusal, saturating_add, DISK_SAFETY_FREE_SPACE_FLOOR_BYTES in *.
  destruct wired; [rewrite andb_true_r in Hr | rewrite andb_false_r in Hr; cbn [andb] in Hr]; [| split; [lia | done]].
  destruct (Z.ltb_spec 0 max); cbn [andb] in Hr; [| split; lia].
  destruct (Z.ltb_spec max (Z.min (Size.get_current_size f + incoming) U64_MAX)); [done |]. split; lia.
Qed.

(** ** The pass *)

Definition STAGING_EVICTION_CANDIDATE_CAP : nat := N.to_nat 10000.

Record pass_env := mkPassEnv {
  pe_wired : bool;
  pe_manager : bool;
  pe_object : string -> staged_env;
  pe_between : string -> staged_state -> staged_state;
  pe_now : Z;
  pe_put_ttl : Z;
  pe_cap : nat;
  pe_list_error : option string;
  pe_retire_error : option string;
  pe_readable : string -> bool;
  pe_rewrites : string -> bool;
}.

Record pass_state := mkPassState { ps_staged : staged_state; ps_ledger : gmap string (list ledger_line) }.

Section Pass.
Context `{HashIter} `{PathCodec}.

Definition evict_staged_object (env : pass_env) (key : string) (s : staged_state) : staged_state * Result Z :=
  if pe_manager env then evict_write_cached_object (pe_object env key) key s
  else (s, Err (CacheError "WriteCacheManager not initialized; cannot evict staged object")).

(** The candidates in turn, until enough is freed: the bytes freed and the entries to
    retire. *)
Fixpoint evict_candidates (env : pass_env) (bytes_to_free : Z) (cs : list StagedCandidate) (total : Z)
    (retired : gset entry_identity) (s : staged_state) : staged_state * Z * gset entry_identity :=
  match cs with
  | [] => (s, total, retired)
  | c :: cs =>
      if bytes_to_free <=? total then (s, total, retired) else
      match verify_staged_candidate (sg_storage s) c with
      | Evictable =>
          match evict_staged_object env (sc_cache_key c) (pe_between env (sc_cache_key c) s) with
          | (s, Ok freed) =>
              evict_candidates env bytes_to_free cs (saturating_add total freed) (retired ∪ list_to_set (sc_identities c)) s
          | (s, _) => evict_candidates env bytes_to_free cs total retired s
          end
      | Unreadable => evict_candidates env bytes_to_free cs total retired s
      | _ => evict_candidates env bytes_to_free cs total (retired ∪ list_to_set (sc_identities c)) s
      end
  end.

(** [checked_sub], or the epoch. *)
Definition watermark (env : pass_env) : Z :=
  if - SYSTEM_TIME_MAX - 1 <=? pe_now env - pe_put_ttl env then pe_now env - pe_put_ttl env else 0.

Definition evict_staging_tier_locked (env : pass_env) (trigger target : Z) (s : pass_state) : pass_state * Z :=
  match get_staging_resident_bytes (pe_wired env) (es_size (sg_evict (ps_staged s))) with
  | None => (s, 0)
  | Some resident =>
      if resident <=? trigger then (s, 0) else
      let bytes_to_free := saturating_sub resident target in
      match read_merged_oldest_first (pe_list_error env) (pe_readable env) (pe_cap env) (ps_ledger s) with
      | Ok [] => (s, 0)
      | Ok entries =>
          let ordered := order_staging_candidates (group_by_key entries) (watermark env) in
          let '(staged, total_freed, retired) := evict_candidates env bytes_to_free ordered 0 ∅ (ps_staged s) in
          let l := if bool_decide (retired = ∅) then ps_ledger s
                   else (retire_identities (pe_retire_error env) (pe_readable env) (pe_rewrites env) retired (ps_ledger s)).1 in
          (mkPassState staged l, total_freed)
      | _ => (s, 0)
      end
  end.

(** The whole pass: [lock] is the answer of the global eviction lock, and [others]
    what other instances do while it is waited for. *)
Definition evict_staging_tier (env : pass_env) (bound trigger_percent target_percent : Z) (lock : Result bool)
    (others : pass_state -> pass_state) (s : pass_state) : pass_state * Z :=
  let '(trigger, target) := get_staging_eviction_thresholds bound trigger_percent target_percent in
  if trigger =? 0 then (s, 0) else
  match get_staging_resident_bytes (pe_wired env) (es_size (sg_evict (ps_staged s))) with
  | None => (s, 0)
  | Some resident =>
      if resident <=? trigger then (s, 0) else
      match lock with
      | Ok true => evict_staging_tier_locked env trigger target (others s)
      | _ => (s, 0)
      end
  end.

End Pass.

(** ** What a pass leaves alone *)

(** No staged object lists the file. *)
Definition unstaged_file (st : Storage) (q : string) : Prop :=
  forall path m, metadata_files st !! path = Some (MetaParsed m) -> om_is_write_cached (cm_object_metadata m) = true ->
    q ∉ nr_file_path <$> cm_ranges m.

Definition staged_file (f : meta_file) : bool :=
  match f with MetaParsed m => om_is_write_cached (cm_object_metadata m) | _ => false end.

(** Metadata only goes, and only of staged objects; files go only of those too. *)
Record spares_read_tier (st st' : Storage) : Prop := {
  sp_subset : metadata_files st' ⊆ metadata_files st;
  sp_metadata path f : metadata_files st !! path = Some f -> staged_file f = false -> metadata_files st' !! path = Some f;
  sp_files q : unstaged_file st q -> range_files st' !! q = range_files st !! q;
}.

Lemma spares_refl st : spares_read_tier st st.
Proof. by split. Qed.

Lemma spares_trans st1 st2 st3 : spares_read_tier st1 st2 -> spares_read_tier st2 st3 -> spares_read_tier st1 st3.
Proof.
  intros [Hs1 Hm1 Hf1] [Hs2 Hm2 Hf2]. split.
  - by transitivity (metadata_files st2).
  - intros path f Hp Hu. apply Hm2; [by apply Hm1 | done].
  - intros q Hq. rewrite Hf2; [by apply Hf1 |]. intros path m Hp. apply (Hq path). by eapply lookup_weaken.
Qed.

Section Pass.
Context `{HashIter} `{PathCodec}.

Lemma account_staged_fields env key wc deleted gone es :
  range_files (es_storage (account_staged env key wc deleted gone es)) = range_files (es_storage es) /\
  metadata_files (es_storage (account_staged env key wc deleted gone es)) = metadata_files (es_storage es).
Proof.
  unfold account_staged. destruct (_ && _); [done |]. destruct (negb _); [done |]. destruct (Size.flush _ _ _) as [[a dir] r].
  cbn [es_storage set_accumulator range_files metadata_files].
  match goal with |- context [write_eviction_journal_entries ?io ?now ?i ?es ?st] =>
    destruct (eviction_entries_fields io now i es st) as (-> & -> & _) end.
  apply debits_fields.
Qed.

(** The removal of an object whose metadata reads as staged. *)
Lemma evict_effect env key path m s s' r :
  get_sharded_path "metadata" key ".meta" = Ok path -> metadata_files (sg_storage s) !! path = Some (MetaParsed m) ->
  om_is_write_cached (cm_object_metadata m) = true -> evict_write_cached_object env key s = (s', r) ->
  spares_read_tier (sg_storage s) (sg_storage s') /\ (exists freed, r = Ok freed) /\
  (sg_remove_meta env = true -> metadata_files (sg_storage s') !! path = None).
Proof.
  intros Hp Hm Hwc E. unfold evict_write_cached_object in E. rewrite Hp, Hm in E.
  destruct (remove_ranges _ _ _ _) as [[files outside] deleted] eqn:Er.
  destruct (remove_ranges_spec _ _ _ _ _ _ _ Er) as (Hf & _ & _). injection E as <- <-. unfold sg_storage. cbn [sg_evict].
  match goal with |- context [account_staged ?a ?b ?c ?d ?e ?f] => destruct (account_staged_fields a b c d e f) as [Hrf Hmf] end.
  cbn [on_storage es_storage] in Hrf, Hmf. split; [| split; [by eexists |]].
  - split; [rewrite Hmf | intros p f Hpf Hu; rewrite Hmf | intros q Hq; rewrite Hrf].
    + destruct (sg_remove_meta env); cbn; [apply delete_subseteq | done].
    + destruct (sg_remove_meta env); cbn; [| done]. rewrite lookup_delete_ne; [done |]. intros <-.
      fold (sg_storage s) in Hpf. rewrite Hm in Hpf. injection Hpf as <-. cbn in Hu. congruence.
    + assert (files !! q = range_files (sg_storage s) !! q) as Hfq by (rewrite Hf, decide_False; [done |]; intros [? _]; by apply (Hq path m)).
      destruct (sg_remove_meta env); exact Hfq.
  - intros Hrm. rewrite Hmf, Hrm. cbn. apply lookup_delete_eq.
Qed.

(** A verdict that is not to be acted on stays one. *)
Lemma verify_later st st' c :
  metadata_files st' ⊆ metadata_files st -> terminal (verify_staged_candidate st c) = true -> terminal (verify_staged_candidate st' c) = true.
Proof.
  intros Hsub. unfold verify_staged_candidate. destruct (get_sharded_path _ _ _) as [path | |]; [| done | done].
  destruct (metadata_files st' !! path) as [f |] eqn:E; [| done]. by rewrite (lookup_weaken _ _ _ _ E Hsub).
Qed.

Lemma verify_evictable st c :
  verify_staged_candidate st c = Evictable ->
  exists path m, get_sharded_path "metadata" (sc_cache_key c) ".meta" = Ok path /\ metadata_files st !! path = Some (MetaParsed m) /\
    om_is_write_cached (cm_object_metadata m) = true /\ newest_range_created_at m <= sc_newest_entry_at c /\ cm_ranges m <> [].
Proof.
  unfold verify_staged_candidate. destruct (get_sharded_path _ _ _) as [path | |]; [| done | done].
  destruct (metadata_files st !! path) as [[m | |] |] eqn:E; try done.
  destruct (om_is_write_cached (cm_object_metadata m)) eqn:Ew; cbn [negb]; [| done]. unfold is_superseded.
  destruct (Z.ltb_spec (sc_newest_entry_at c) (newest_range_created_at m)); [done |]. case_bool_decide; [done |]. intros _. by exists path, m.
Qed.

(** What a pass over candidates leaves, when nothing interferes. *)
Definition dropped (st : Storage) (cs : list StagedCandidate) (i : entry_identity) : Prop :=
  exists c, c ∈ cs /\ i ∈ sc_identities c /\ terminal (verify_staged_candidate st c) = true.

Lemma evict_candidates_spec env target cs total retired s s' total' retired' :
  (forall key st, pe_between env key st = st) -> pe_manager env = true -> (forall key, sg_remove_meta (pe_object env key) = true) ->
  evict_candidates env target cs total retired s = (s', total', retired') ->
  spares_read_tier (sg_storage s) (sg_storage s') /\
  (forall i, i ∈ retired' -> i ∈ retired \/ dropped (sg_storage s') cs i) /\
  (target <= total' \/ forall c, c ∈ cs -> verify_staged_candidate (sg_storage s') c <> Evictable).
Proof.
  intros Hb Hm Hrm. revert total retired s. induction cs as [| c cs IH]; intros total retired s; cbn [evict_candidates].
  { intros [= <- <- <-]. split_and!; [apply spares_refl | by left | right; by intros c ?%elem_of_nil]. }
  destruct (Z.leb_spec target total) as [Ht | Ht]; [intros [= <- <- <-]; split_and!; [apply spares_refl | by left | by left] |].
  assert (Hcons : forall st i, dropped st cs i -> dropped st (c :: cs) i) by (intros st i (d & Hd & ?); exists d; split; [by right | done]).
  (* The candidate ends in a terminal verdict, or is left for another pass. *)
  assert (Hnext : forall total1 retired1 s1, evict_candidates env target cs total1 retired1 s1 = (s', total', retired') ->
    spares_read_tier (sg_storage s) (sg_storage s1) ->
    (retired1 = retired \/ retired1 = retired ∪ list_to_set (sc_identities c) /\ terminal (verify_staged_candidate (sg_storage s1) c) = true) ->
    verify_staged_candidate (sg_storage s1) c <> Evictable ->
    spares_read_tier (sg_storage s) (sg_storage s') /\
    (forall i, i ∈ retired' -> i ∈ retired \/ dropped (sg_storage s') (c :: cs) i) /\
    (target <= total' \/ forall d, d ∈ c :: cs -> verify_staged_candidate (sg_storage s') d <> Evictable)).
  { intros total1 retired1 s1 E Hsp Hret Hne. destruct (IH _ _ _ E) as (Hs & Hr & Hl).
    assert (Hlater : verify_staged_candidate (sg_storage s') c <> Evictable).
    { intros Hev. destruct (verify_evictable _ _ Hev) as (path & m & Hp & Hmf & Hw & Ha & Hrs). apply Hne. unfold verify_staged_candidate.
      rewrite Hp, (lookup_weaken _ _ _ _ Hmf (sp_subset _ _ Hs)), Hw. cbn [negb]. unfold is_superseded.
      rewrite (proj2 (Z.ltb_ge _ _) Ha), bool_decide_false by done. done. }
    split_and!; [by eapply spares_trans | |].
    - intros i Hi. destruct (Hr i Hi) as [Hi1 | Hd]; [| right; by apply Hcons].
      destruct Hret as [-> | [-> Hterm]]; [by left |]. apply elem_of_union in Hi1 as [Hi1 | Hi1%elem_of_list_to_set]; [by left | right].
      exists c. split; [left | split; [done |]]. eapply verify_later; [apply Hs | done].
    - destruct Hl as [Hl | Hl]; [by left | right]. intros d [-> | Hd]%elem_of_cons; [done | by apply Hl]. }
  destruct (verify_staged_candidate (sg_storage s) c) eqn:Ev; intros E.
  - rewrite Hb in E. unfold evict_staged_object in E. rewrite Hm in E.
    destruct (verify_evictable _ _ Ev) as (path & m & Hp & Hmf & Hw & _ & _).
    destruct (evict_write_cached_object _ _ _) as [s1 r] eqn:E1.
    destruct (evict_effect _ _ _ _ _ _ _ Hp Hmf Hw E1) as (Hsp & [freed ->] & Hgone). specialize (Hgone (Hrm _)).
    assert (Hab : verify_staged_candidate (sg_storage s1) c = MetadataAbsent) by (unfold verify_staged_candidate; by rewrite Hp, Hgone).
    eapply Hnext; [exact E | done | right; by rewrite Hab | by rewrite Hab].
  - eapply Hnext; [exact E | apply spares_refl | right; by rewrite Ev | by rewrite Ev].
  - eapply Hnext; [exact E | apply spares_refl | right; by rewrite Ev | by rewrite Ev].
  - eapply Hnext; [exact E | apply spares_refl | right; by rewrite Ev | by rewrite Ev].
  - eapply Hnext; [exact E | apply spares_refl | by left | by rewrite Ev].
Qed.

Lemma ledger_retired_keeps env l l' r retired p e :
  ledger_wf l -> (forall q, pe_readable env q = true) ->
  retire_identities (pe_retire_error env) (pe_readable env) (pe_rewrites env) retired l = (l', r) ->
  e ∈ entries_of (default [] (l !! p)) -> (identity e ∉ retired) -> e ∈ entries_of (default [] (l' !! p)).
Proof.
  intros Hwf Hr E He Hn. destruct (pe_retire_error env) as [error |] eqn:Ee; [by injection E as <- _ |].
  destruct r as [stats | err |]; [| unfold retire_identities in E; cbn in E; by destruct (foldl _ _ _)..].
  rewrite (retire_exact _ _ _ _ _ _ p Hwf Hr E). destruct (_ && _); [by apply kept_elem | done].
Qed.

Lemma evict_candidates_spares env target cs total retired s s' total' retired' :
  (forall key st, pe_between env key st = st) -> evict_candidates env target cs total retired s = (s', total', retired') ->
  spares_read_tier (sg_storage s) (sg_storage s').
Proof.
  intros Hb. revert total retired s. induction cs as [| c cs IH]; intros total retired s; cbn [evict_candidates]; [intros [= <- _ _]; apply spares_refl |].
  destruct (_ <=? _); [intros [= <- _ _]; apply spares_refl |]. destruct (verify_staged_candidate (sg_storage s) c) eqn:Ev; try by apply IH.
  rewrite Hb. unfold evict_staged_object. destruct (pe_manager env); [| by apply IH].
  destruct (verify_evictable _ _ Ev) as (path & m & Hp & Hmf & Hw & _ & _).
  destruct (evict_write_cached_object _ _ _) as [s1 r] eqn:E1.
  destruct (evict_effect _ _ _ _ _ _ _ Hp Hmf Hw E1) as (Hsp & [freed ->] & _). intros E. eapply spares_trans; [exact Hsp | by eapply IH].
Qed.

(** There is nothing left to evict for the entry: the object has no metadata, is no longer staged, lists no range, or lists
    a range that is newer than the entry. *)
Definition finished (st : Storage) (e : WriteLedgerEntry) : Prop :=
  exists path, get_sharded_path "metadata" (le_cache_key e) ".meta" = Ok path /\
    (metadata_files st !! path = None \/
     exists m, metadata_files st !! path = Some (MetaParsed m) /\
       (om_is_write_cached (cm_object_metadata m) = false \/ cm_ranges m = [] \/
        exists r, r ∈ cm_ranges m /\ le_timestamp e < nr_created_at r)).

Lemma newest_created_elem m : cm_ranges m <> [] -> exists r, r ∈ cm_ranges m /\ newest_range_created_at m = nr_created_at r.
Proof.
  unfold newest_range_created_at. destruct (cm_ranges m) as [| r rs]; [done |]. intros _.
  assert (forall x, foldl Z.max x (nr_created_at <$> rs) = x \/ exists r', r' ∈ rs /\ foldl Z.max x (nr_created_at <$> rs) = nr_created_at r') as Hf.
  { induction rs as [| y rs IH]; intros x; cbn; [by left |]. destruct (IH (Z.max x (nr_created_at y))) as [-> | (r' & Hr' & ->)].
    - destruct (Z.max_spec x (nr_created_at y)) as [[_ ->] | [_ ->]]; [right; exists y; split; [left | done] | by left].
    - right. exists r'. split; [by right | done]. }
  destruct (Hf (nr_created_at r)) as [-> | (r' & Hr' & ->)]; [exists r | exists r']; (split; [| done]); [left | by right].
Qed.

Lemma terminal_finished st c e :
  sc_cache_key c = le_cache_key e -> le_timestamp e <= sc_newest_entry_at c -> terminal (verify_staged_candidate st c) = true -> finished st e.
Proof.
  intros Hk Ht. unfold verify_staged_candidate, finished. rewrite Hk. destruct (get_sharded_path _ _ _) as [path | |]; [| done | done].
  intros Hv. exists path. split; [done |]. destruct (metadata_files st !! path) as [[m | |] |]; [right | done | done | by left].
  exists m. split; [done |]. destruct (om_is_write_cached (cm_object_metadata m)); cbn [negb] in Hv; [right | by left]. unfold is_superseded in Hv.
  destruct (decide (cm_ranges m = [])); [by left | right]. destruct (newest_created_elem m) as (r & Hr & Hn); [done |].
  destruct (Z.ltb_spec (sc_newest_entry_at c) (newest_range_created_at m)); [exists r; split; [done | lia] |]. by rewrite bool_decide_false in Hv.
Qed.

(** C23: a staging eviction pass during which nothing else changes the storage never touches the read tier: metadata that does not
    read as staged, or cannot be read, stays, and so does every file no staged object lists.  If moreover every ledger file
    can be read and metadata can be removed, an entry of the ledger is dropped only when, at the end of the pass, its object has no metadata, is not
    staged any more, lists no range, or lists a range newer than the entry (which need not be a staged one:
    [read_range_hides_staged]); entries the pass did not reach, or whose metadata it could not read, stay. *)
Theorem staging_pass_safe env trigger target s s' freed :
  (forall key st, pe_between env key st = st) -> evict_staging_tier_locked env trigger target s = (s', freed) ->
  spares_read_tier (sg_storage (ps_staged s)) (sg_storage (ps_staged s')) /\
  (pe_manager env = true -> (forall key, sg_remove_meta (pe_object env key) = true) -> (forall q, pe_readable env q = true) ->
   ledger_wf (ps_ledger s) -> forall p e, e ∈ entries_of (default [] (ps_ledger s !! p)) ->
     e ∈ entries_of (default [] (ps_ledger s' !! p)) \/ finished (sg_storage (ps_staged s')) e).
Proof.
  intros Hb E. unfold evict_staging_tier_locked in E.
  assert (Hsame : (s, 0) = (s', freed) -> spares_read_tier (sg_storage (ps_staged s)) (sg_storage (ps_staged s')) /\
    (pe_manager env = true -> (forall key, sg_remove_meta (pe_object env key) = true) -> (forall q, pe_readable env q = true) ->
     ledger_wf (ps_ledger s) -> forall p e, e ∈ entries_of (default [] (ps_ledger s !! p)) ->
       e ∈ entries_of (default [] (ps_ledger s' !! p)) \/ finished (sg_storage (ps_staged s')) e))
    by (intros [= <- _]; split; [apply spares_refl | by left]).
  destruct (get_staging_resident_bytes _ _) as [resident |]; [| by apply Hsame]. destruct (_ <=? _); [by apply Hsame |].
  destruct (read_merged_oldest_first _ _ _ _) as [[| e0 es] | |]; try (by apply Hsame). clear Hsame.
  destruct (evict_candidates _ _ _ _ _ _) as [[staged total] retired] eqn:Ee. injection E as <- <-. cbn [ps_staged ps_ledger].
  split; [by eapply evict_candidates_spares |]. intros Hm Hrm Hr Hwf p e He.
  destruct (evict_candidates_spec _ _ _ _ _ _ _ _ _ Hb Hm Hrm Ee) as (_ & Hret & _).
  destruct (decide (identity e ∈ retired)) as [Hin | Hout].
  - right. destruct (Hret _ Hin) as [Hx | (c & Hc & Hi & Ht)]; [by apply elem_of_empty in Hx |].
    destruct (staging_candidates_exact (e0 :: es) (watermark env)) as (_ & _ & _ & Hsum & _). destruct (Hsum c Hc) as [Hk _ Hid _ [Hn _] _].
    rewrite Hid in Hi. apply list_elem_of_fmap in Hi as (e' & Hi' & He'). rewrite Forall_forall in Hk, Hn.
    unfold identity in Hi'. injection Hi' as H1 _ _ H2 _. apply (terminal_finished _ c); rewrite ?H1, ?H2; [symmetry; by apply Hk | by apply Hn | done].
  - left. case_bool_decide; [done |]. destruct (retire_identities _ _ _ _ _) as [l' r] eqn:El. by eapply ledger_retired_keeps.
Qed.

(** A pass that finds the tier over its trigger frees what it set out to free, or
    leaves no candidate it read that could still be evicted. *)
Theorem staging_pass_reaches env trigger target s s' freed resident entries :
  (forall key st, pe_between env key st = st) -> pe_manager env = true -> (forall key, sg_remove_meta (pe_object env key) = true) ->
  get_staging_resident_bytes (pe_wired env) (es_size (sg_evict (ps_staged s))) = Some resident -> trigger < resident ->
  read_merged_oldest_first (pe_list_error env) (pe_readable env) (pe_cap env) (ps_ledger s) = Ok entries ->
  evict_staging_tier_locked env trigger target s = (s', freed) ->
  saturating_sub resident target <= freed \/
  forall c, c ∈ group_by_key entries -> verify_staged_candidate (sg_storage (ps_staged s')) c <> Evictable.
Proof.
  intros Hb Hm Hrm Hres Hlt Hread E. unfold evict_staging_tier_locked in E. rewrite Hres in E.
  destruct (Z.leb_spec resident trigger); [lia |]. rewrite Hread in E. destruct entries as [| e0 es].
  { right. intros c Hc. vm_compute in Hc. by apply elem_of_nil in Hc. }
  destruct (evict_candidates _ _ _ _ _ _) as [[staged total] retired] eqn:Ee.
  destruct (evict_candidates_spec _ _ _ _ _ _ _ _ _ Hb Hm Hrm Ee) as (_ & _ & Hl). injection E as <- <-. cbn [ps_staged].
  destruct Hl as [Hl | Hl]; [by left | right]. intros c Hc. apply Hl.
  destruct (staging_candidates_exact (e0 :: es) (watermark env)) as (Hp & _). by rewrite Hp.
Qed.

End Pass.

(** ** A pass *)

#[local] Existing Instance map_order.
#[local] Existing Instance sample_codec.

Definition pass_sample_env : pass_env :=
  mkPassEnv true true (fun _ => staged_sample_env) (fun _ st => st) 5000 1000 STAGING_EVICTION_CANDIDATE_CAP None None (fun _ => true) (fun _ => true).

(** One staged object of six bytes, and an entry of an object that is gone. *)
Definition pass_sample (rs : list NewRangeSpec) : pass_state :=
  let s := staged_sample rs mixed_files ∅ in
  mkPassState (mkStagedState (mkEvictState (sg_storage s) (Some (inr (Size.mkSizeState 16 16 0 0 1 "h:1"))) ∅ 0) (sg_manager s) ∅)
    {["host:1.ledger" := [Entry (mkLedgerEntry 900 "b/gone" 0 9 10 "host:1"); Entry (mkLedgerEntry 1500 "b/k" 0 5 6 "host:1")]]}.

Definition one_range : list NewRangeSpec := [staged_range 0 5 1000 "one.bin" 6 None].

Lemma staging_pass_safe_witness :
  let '(s', freed) := evict_staging_tier_locked pass_sample_env 12 10 (pass_sample one_range) in
  freed = 6 /\ spares_read_tier (sg_storage (ps_staged (pass_sample one_range))) (sg_storage (ps_staged s')) /\
  (forall p e, e ∈ entries_of (default [] (ps_ledger (pass_sample one_range) !! p)) ->
     e ∈ entries_of (default [] (ps_ledger s' !! p)) \/ finished (sg_storage (ps_staged s')) e).
Proof.
  destruct (evict_staging_tier_locked _ _ _ _) as [s' freed] eqn:E. split.
  - change freed with (s', freed).2. rewrite <- E. by vm_compute.
  - destruct (staging_pass_safe pass_sample_env 12 10 (pass_sample one_range) s' freed) as [Hs Hl]; [reflexivity | exact E |].
    split; [exact Hs |]. apply Hl; [reflexivity | reflexivity | reflexivity |].
    intros path ls e Hp. cbn in Hp. apply lookup_singleton_Some in Hp as [_ <-]. revert e. apply Forall_forall.
    apply Forall_cons. split; [unfold is_u64; cbn [le_timestamp]; lia |]. apply Forall_cons. split; [unfold is_u64; cbn [le_timestamp]; lia |]. constructor.
Defined.

Lemma staging_pass_reaches_witness :
  let '(s', freed) := evict_staging_tier_locked pass_sample_env 12 10 (pass_sample one_range) in
  6 <= freed \/ forall c, c ∈ group_by_key [mkLedgerEntry 900 "b/gone" 0 9 10 "host:1"; mkLedgerEntry 1500 "b/k" 0 5 6 "host:1"] ->
    verify_staged_candidate (sg_storage (ps_staged s')) c <> Evictable.
Proof.
  destruct (evict_staging_tier_locked _ _ _ _) as [s' freed] eqn:E.
  apply (staging_pass_reaches pass_sample_env 12 10 (pass_sample one_range) s' freed 16);
    [reflexivity | reflexivity | reflexivity | reflexivity | lia | by vm_compute | exact E].
Defined.

(** ** Where the code departs from its comments *)

(** A range of the read tier that came after the write makes the staged object read as
    superseded: its entry is retired, though the staged bytes are still there. *)
Example read_range_hides_staged :
  let s := pass_sample [staged_range 0 5 1000 "one.bin" 6 None; staged_range 6 9 2000 "two.bin" 4 (Some false)] in
  let '(s', freed) := evict_staging_tier_locked pass_sample_env 12 10 s in
  freed = 0 /\ ps_ledger s' = ∅ /\ sg_storage (ps_staged s') = sg_storage (ps_staged s).
Proof. by vm_compute. Qed.

(** The bound in [f32] is not the share the manager was built with, in [f64]. *)
Example bound_drifts_from_manager :
  let max := 123456789012 in
  get_staging_bound_bytes max (u64_to_f32 10) <> max_size (new max (u64_to_f64 10) 3600 100).
Proof. by vm_compute. Qed.

End Staging.
