(* ===== verification/OrphanRecovery.v ===== *)
(** * Recovery of orphaned range files ([orphaned_range_recovery.rs], [background_recovery.rs])

    A range file whose publication was cut short is in no metadata file.  A background task scans the shards of
    the cache for such files, finds the key each belongs to from its name, checks its version and size, and
    lists it in the metadata again or removes it.  Paths are relative to the directory [ranges].  What the file
    system answers for a file that cannot be read, and when the scan runs out of time, are arguments. *)

From S2P Require Import Prelude CacheTypes Ranges RangeMerge Maps MetadataCache DiskPaths DiskRanges Frames.
From S2P Require Import CacheTier SizeAccounting Storage DiskStore RustStr.
From stdpp Require Import gmap strings.

#[local] Open Scope Z_scope.
#[local] Arguments String.append : simpl nomatch.

Module Orphans.
Import Store DStore.

Inductive ValidationStatus := Valid | Invalid | Corrupted | Unknown.

#[export] Instance ValidationStatus_eq_dec : EqDecision ValidationStatus.
Proof. solve_decision. Defined.

Record OrphanedRange := mkOrphan {
  or_cache_key : string;
  or_range_file_path : string;
  or_range_spec : option NewRangeSpec;
  or_validation_status : ValidationStatus;
  or_access_frequency : Z;
  or_last_accessed : option Z;
  or_file_size : Z;
}.

Inductive RecoveryResult := Recovered (r : NewRangeSpec) | Cleaned (bytes_freed : Z) | Failed (error : ProxyError).

Record RecoveryMetrics := mkRecoveryMetrics {
  rm_orphans_detected : Z;
  rm_orphans_recovered : Z;
  rm_orphans_cleaned : Z;
  rm_bytes_recovered : Z;
  rm_bytes_cleaned : Z;
  rm_recovery_failures : Z;
}.

Definition count_recovered (size : Z) (m : RecoveryMetrics) : RecoveryMetrics :=
  mkRecoveryMetrics (rm_orphans_detected m) (u64_add (rm_orphans_recovered m) 1) (rm_orphans_cleaned m)
    (u64_add (rm_bytes_recovered m) size) (rm_bytes_cleaned m) (rm_recovery_failures m).

Definition count_cleaned (size : Z) (m : RecoveryMetrics) : RecoveryMetrics :=
  mkRecoveryMetrics (rm_orphans_detected m) (rm_orphans_recovered m) (u64_add (rm_orphans_cleaned m) 1)
    (rm_bytes_recovered m) (u64_add (rm_bytes_cleaned m) size) (rm_recovery_failures m).

Definition count_failure (m : RecoveryMetrics) : RecoveryMetrics :=
  mkRecoveryMetrics (rm_orphans_detected m) (rm_orphans_recovered m) (rm_orphans_cleaned m)
    (rm_bytes_recovered m) (rm_bytes_cleaned m) (u64_add (rm_recovery_failures m) 1).

(** [re_length]: the length of a file that cannot be read; [re_opens]: whether it can be opened. *)
Record recovery_env := mkRecoveryEnv {
  re_store : store_env;
  re_journal_readable : string -> bool;
  re_length : string -> option Z;
  re_opens : string -> bool;
  re_accessed : string -> option Z;
  re_now : Z;
  re_expired : nat -> bool;
}.

Inductive WriteMode := Immediate | JournalOnly | Hybrid.

Section Recovery.
Context `{HashIter} `{PathCodec}.

(** ** Publishing metadata ([HybridMetadataWriter]) *)

Definition load_or_create_metadata (env : store_env) (key : string) (ttl : Z) (st : Storage) : Result NewCacheMetadata :=
  path ← get_sharded_path "metadata" key ".meta";
  match metadata_files st !! path with
  | Some (MetaParsed m) => Ok m
  | Some MetaCorrupt => Err (CacheError "Failed to parse metadata file")
  | Some (MetaUnreadable error) => Err (CacheError ("Failed to read metadata file: " +:+ error))
  | None => t ← add_ttl (se_clock env 1) ttl; Ok (new_metadata key ObjectMetadata_default (se_clock env 1) t)
  end.

Definition set_content_length (n : Z) (om : ObjectMetadata) : ObjectMetadata :=
  mkObjectMetadata (om_etag om) (om_last_modified om) n (om_content_type om) (om_response_headers om)
    (om_upload_state om) (om_cumulative_size om) (om_parts om) (om_compression_algorithm om)
    (om_compressed_size om) (om_parts_count om) (om_part_ranges om) (om_upload_id om)
    (om_is_write_cached om) (om_write_cache_expires_at om) (om_write_cache_created_at om)
    (om_write_cache_last_accessed om) (om_graduation_accounted om).

Definition add_or_update_range (r : NewRangeSpec) (m : NewCacheMetadata) : NewCacheMetadata :=
  let m := set_ranges (add_or_replace r (cm_ranges m)) m in
  match cm_ranges m with
  | [only] =>
      if (nr_start only =? 0) && (om_content_length (cm_object_metadata m) =? 0)
      then set_om (set_content_length (u64_add (nr_end only) 1) (cm_object_metadata m)) m else m
  | _ => m
  end.

(** The object the range comes from gives metadata without an identity its own. *)
Definition adopt_identity (om : option ObjectMetadata) (m : NewCacheMetadata) : NewCacheMetadata :=
  match om with
  | Some object =>
      if is_empty_str (om_etag (cm_object_metadata m)) && negb (is_empty_str (om_etag object))
      then set_om object (set_ranges [] m) else m
  | None => m
  end.

Definition write_immediate_only (env : store_env) (key : string) (r : NewRangeSpec) (om : option ObjectMetadata) (ttl : Z)
    (st : Storage) : Storage * Result unit :=
  match se_lock env with
  | Some e => (st, Err e)
  | None =>
      match load_or_create_metadata env key ttl st with
      | Ok m =>
          let cached_etag := om_etag (cm_object_metadata m) in
          let response_etag := default "" (om_etag <$> om) in
          if negb (is_empty_str cached_etag) && negb (bool_decide (cached_etag = response_etag))
          then (st, Err (CacheVersionMismatch key cached_etag response_etag))
          else write_metadata_to_disk env (add_or_update_range r (adopt_identity om m)) st
      | Err e => (st, Err e)
      | Panic => (st, Panic)
      end
  end.

(** Metadata first, then the journal, which only has to succeed when the metadata could not be written. *)
Definition write_hybrid (env : store_env) (key : string) (r : NewRangeSpec) (om : option ObjectMetadata) (ttl : Z)
    (st : Storage) : Storage * Result unit :=
  match write_immediate_only env key r om ttl st with
  | (st, Ok _) => ((write_journal_only env key r om ttl st).1, Ok tt)
  | (st, Err (CacheVersionMismatch key c e)) => (st, Err (CacheVersionMismatch key c e))
  | (st, Err _) =>
      match write_journal_only env key r om ttl st with
      | (st, Ok _) => (st, Ok tt)
      | (st, Err _) => (st, Err (CacheError "Hybrid write failed"))
      | (st, Panic) => (st, Panic)
      end
  | (st, Panic) => (st, Panic)
  end.

Definition write_range_metadata (env : store_env) (key : string) (r : NewRangeSpec) (mode : WriteMode)
    (om : option ObjectMetadata) (ttl : Z) (st : Storage) : Storage * Result unit :=
  match mode with
  | Immediate => write_immediate_only env key r om ttl st
  | JournalOnly => write_journal_only env key r om ttl st
  | Hybrid => write_hybrid env key r om ttl st
  end.

Definition has_pending_range_file (readable : string -> bool) (key relative_path : string) (st : Storage) : bool :=
  existsb (fun e => is_publication (je_operation e) && bool_decide (nr_file_path (je_range_spec e) = relative_path))
    (get_all_entries_for_cache_key readable key st).

(** ** Names of range files *)

Definition file_name (path : string) : string := (split_file_name path).2.

(** This module's own split of a cache key. *)
Definition split_cache_key (key : string) : Result (string * string) :=
  match split_once "/" key with Some p => Ok p | None => Err (CacheError "Invalid cache key format") end.

Definition range_filename_stem (filename : string) : Result string :=
  match RustStr.strip_suffix ".bin" filename with
  | None => Err (CacheError "Invalid range filename")
  | Some stem =>
      Ok match Disk.range_file_version filename with
         | Some version => string_take (String.length stem - String.length version - 1) stem
         | None => stem
         end
  end.

Definition parse_range_from_filename (now : Z) (filename object_key : string) : Result NewRangeSpec :=
  let prefix := sanitize_object_key_for_filename object_key "" +:+ "_" in
  stem ← range_filename_stem filename;
  match RustStr.strip_prefix prefix stem with
  | None => Err (CacheError "Invalid range filename format")
  | Some range_part =>
      match split_char "-" range_part with
      | [a; b] =>
          match parse_u64 a, parse_u64 b with
          | Some start, Some end_ =>
              if end_ <? start then Err (CacheError "Invalid range: start > end")
              else Ok (mkNewRangeSpec start end_ filename Lz4 0 (u64_add (u64_sub end_ start) 1) now now 1 None)
          | None, _ => Err (CacheError "Invalid start range")
          | _, None => Err (CacheError "Invalid end range")
          end
      | _ => Err (CacheError "Invalid range format in filename")
      end
  end.

Definition relative_range_path (path : string) : Result string :=
  if is_safe_relative_file_path path then Ok path else Err (CacheError "Unsafe range file path").

Definition set_file_path (path : string) (r : NewRangeSpec) : NewRangeSpec :=
  mkNewRangeSpec (nr_start r) (nr_end r) path (nr_compression_algorithm r) (nr_compressed_size r)
    (nr_uncompressed_size r) (nr_created_at r) (nr_last_accessed r) (nr_access_count r) (nr_staged r).

Definition set_compressed_size (size : Z) (r : NewRangeSpec) : NewRangeSpec :=
  mkNewRangeSpec (nr_start r) (nr_end r) (nr_file_path r) (nr_compression_algorithm r) size
    (nr_uncompressed_size r) (nr_created_at r) (nr_last_accessed r) (nr_access_count r) (nr_staged r).

Definition parse_range_file (now : Z) (path key : string) : Result NewRangeSpec :=
  '(_, object_key) ← split_cache_key key;
  let hashed_key := blake3_hex key in
  stem ← range_filename_stem (file_name path);
  let object_name := if starts_with (hashed_key +:+ "_") stem then hashed_key else object_key in
  r ← parse_range_from_filename now (file_name path) object_name;
  p ← relative_range_path path;
  Ok (set_file_path p r).

(** ** Validation *)

Definition load_metadata_for_cache_key (key : string) (st : Storage) : option NewCacheMetadata :=
  match get_sharded_path "metadata" key ".meta" with
  | Ok path => metadata_files st !! path ≫= parsed_metadata
  | _ => None
  end.

Definition file_length (env : recovery_env) (path : string) (st : Storage) : option Z :=
  match range_files st !! path with
  | Some (Disk.Readable data) => Some (zlen data)
  | Some (Disk.Unreadable _) => re_length env path
  | None => None
  end.

Definition validate_range_file (env : recovery_env) (path : string) (r : NewRangeSpec) (st : Storage) : ValidationStatus :=
  match file_length env path st with
  | None => Invalid
  | Some file_size =>
      let span := u64_add (u64_sub (nr_end r) (nr_start r)) 1 in
      if file_size =? 0 then Invalid
      else if (file_size <? span / 10) || (u64_mul span 2 <? file_size) then Invalid
      else match range_files st !! path with
           | Some (Disk.Readable _) => Valid
           | _ => if re_opens env path then Corrupted else Invalid
           end
  end.

Definition validate_orphan_version (env : recovery_env) (path : string) (r : NewRangeSpec) (metadata : option NewCacheMetadata)
    (st : Storage) : ValidationStatus :=
  match Disk.range_file_version (file_name path) with
  | None => Invalid
  | Some version =>
      match cm_object_metadata <$> metadata with
      | None => Unknown
      | Some object =>
          if is_empty_str (om_etag object) then Unknown
          else if negb (eq_ignore_ascii_case version (object_version_id (om_etag object))) then Invalid
          else validate_range_file env path r st
      end
  end.

Definition lists_path (path : string) (metadata : option NewCacheMetadata) : bool :=
  match metadata with Some m => existsb (fun r => bool_decide (nr_file_path r = path)) (cm_ranges m) | None => false end.

Definition estimate_access_frequency (env : recovery_env) (path : string) : Z :=
  match re_accessed env path with
  | Some accessed =>
      if accessed <=? re_now env
      then saturating_sub 100 ((re_now env - accessed) / NANOS_PER_SEC / 86400) else 1
  | None => 1
  end.

(** ** Recovery and cleanup *)

Definition is_orphan_status (status : ValidationStatus) : bool :=
  match status with Valid | Unknown => true | _ => false end.

(** The whole cleanup runs under the metadata lock of the key. *)
Definition cleanup_invalid_orphan (env : recovery_env) (o : OrphanedRange) (st : Storage) (m : RecoveryMetrics)
    : Storage * RecoveryMetrics * Result Z :=
  match relative_range_path (or_range_file_path o) with
  | Ok path =>
      match se_lock (re_store env) with
      | Some e => (st, m, Err e)
      | None =>
          let key := or_cache_key o in
          let metadata := load_metadata_for_cache_key key st in
          if has_pending_range_file (re_journal_readable env) key path st then (st, m, Ok 0)
          else if lists_path path metadata then (st, m, Ok 0)
          else if match or_range_spec o with
                  | Some r => bool_decide (is_Some (Disk.range_file_version path))
                              && is_orphan_status (validate_orphan_version env path r metadata st)
                  | None => false
                  end
          then (st, m, Ok 0)
          else if bool_decide (is_Some (range_files st !! path)) && se_removable (re_store env) path
          then (set_range_files (base.delete path (range_files st)) st, count_cleaned (or_file_size o) m, Ok (or_file_size o))
          else (st, count_failure m, Err (CacheError "Failed to clean up orphaned range"))
      end
  | Err e => (st, m, Err e)
  | Panic => (st, m, Panic)
  end.

(** The object of the key in a storage, where the version in the file's name is the object's. *)
Definition matching_object (key path : string) (st : Storage) : option ObjectMetadata :=
  metadata ← load_metadata_for_cache_key key st;
  let object := cm_object_metadata metadata in
  version ← Disk.range_file_version path;
  if negb (is_empty_str (om_etag object)) && eq_ignore_ascii_case version (blake3_hex (om_etag object))
  then Some object else None.

(** [seen] is the storage when the metadata is read, before the lock is taken to write it. *)
Definition add_range_to_metadata (env : recovery_env) (o : OrphanedRange) (seen st : Storage)
    : Storage * Result NewRangeSpec :=
  match or_range_spec o, relative_range_path (or_range_file_path o) with
  | Some r, Ok path =>
      let r := set_file_path path (set_compressed_size (or_file_size o) r) in
      match write_range_metadata (re_store env) (or_cache_key o) r Hybrid (matching_object (or_cache_key o) path seen) 0 st with
      | (st, Ok _) => (st, Ok r)
      | (st, Err e) => (st, Err e)
      | (st, Panic) => (st, Panic)
      end
  | None, _ => (st, Err (CacheError "No range spec for orphan"))
  | _, Err e => (st, Err e)
  | _, Panic => (st, Panic)
  end.

Definition recover_orphan (env : recovery_env) (o : OrphanedRange) (seen st : Storage) (m : RecoveryMetrics)
    : Storage * RecoveryMetrics * Result RecoveryResult :=
  match or_validation_status o with
  | Valid =>
      match add_range_to_metadata env o seen st with
      | (st, Ok r) => (st, count_recovered (or_file_size o) m, Ok (Recovered r))
      | (st, Err e) => (st, count_failure m, Ok (Failed e))
      | (st, Panic) => (st, m, Panic)
      end
  | Invalid | Corrupted =>
      match cleanup_invalid_orphan env o st m with
      | (st, m, Ok bytes_freed) => (st, m, Ok (Cleaned bytes_freed))
      | (st, m, Err e) => (st, m, Ok (Failed e))
      | (st, m, Panic) => (st, m, Panic)
      end
  | Unknown => (st, m, Ok (Failed (CacheError "Unknown validation status")))
  end.

(** ** Scanning a shard

    [percent_decode] is [percent_decode_str] followed by [decode_utf8].  The files below [ranges] are the keys of
    [range_files]; a directory is there when it holds a file, and is listed in the order of the map's iterator. *)

Context (percent_decode : string -> option string).

Definition is_ascii_digit (a : ascii) : bool := let n := Ascii.nat_of_ascii a in (48 <=? n)%nat && (n <=? 57)%nat.

Definition extract_object_key_from_filename (filename : string) : Result string :=
  stem ← range_filename_stem filename;
  match rsplit_once "_" stem with
  | Some (sanitized, range_part) =>
      if contains_char "-" range_part && all_chars (fun a => is_ascii_digit a || ascii_eqb a "-") range_part
      then match percent_decode sanitized with
           | Some object_key => Ok object_key
           | None => Err (CacheError "Invalid encoded object key")
           end
      else Err (CacheError "Cannot extract object key from filename")
  | None => Err (CacheError "Cannot extract object key from filename")
  end.

Definition extract_cache_key_from_path (path : string) : Result string :=
  match split_char "/" path with
  | bucket :: _ :: _ :: _ :: _ =>
      object_key ← extract_object_key_from_filename (file_name path);
      Ok (bucket +:+ "/" +:+ object_key)
  | _ => Err (CacheError "Invalid range file path structure")
  end.

(** The keys of the metadata files in a shard, by the hashes their range files may be named by. *)
Definition hashed_keys (dir : string) (st : Storage) : gmap string string :=
  foldl (fun acc (entry : string * meta_file) =>
           if bool_decide ((split_file_name entry.1).1 = "metadata/" +:+ dir) && extension_is "meta" entry.1 then
             match entry.2 with
             | MetaParsed m =>
                 match split_cache_key (cm_cache_key m) with
                 | Ok (_, object_key) => <[blake3_hex (cm_cache_key m) := cm_cache_key m]> (<[blake3_hex object_key := cm_cache_key m]> acc)
                 | _ => acc
                 end
             | _ => acc
             end
           else acc) ∅ (hash_iter (metadata_files st)).

(** The key a range file is taken to belong to. *)
Definition key_of_file (hashed : gmap string string) (path : string) : option string :=
  if negb (ends_with ".bin" (file_name path)) then None else
  match extract_object_key_from_filename (file_name path) with
  | Ok object_name =>
      match hashed !! object_name with
      | Some key => Some key
      | None => match extract_cache_key_from_path path with Ok key => Some key | _ => None end
      end
  | _ => None
  end.

Definition files_of_dir (dir : string) (st : Storage) : list string :=
  base.filter (fun path => (split_file_name path).1 = dir) (hash_iter (range_files st)).*1.

Definition files_by_cache_key (dir : string) (st : Storage) : gmap string (list string) :=
  foldl (fun acc path =>
           match key_of_file (hashed_keys dir st) path with
           | Some key => <[key := default [] (acc !! key) ++ [path]]> acc
           | None => acc
           end) ∅ (files_of_dir dir st).

(** A file of the key as an orphan, unless the metadata lists it. *)
Definition scan_file (env : recovery_env) (key : string) (metadata : option NewCacheMetadata) (path : string) (st : Storage)
    : option OrphanedRange :=
  match parse_range_file (re_now env) path key with
  | Ok r =>
      if lists_path (nr_file_path r) metadata then None
      else Some (mkOrphan key path (Some r) (validate_orphan_version env path r metadata st)
                   (estimate_access_frequency env path) (re_accessed env path) (default 0 (file_length env path st)))
  | _ => None
  end.

(** The orphans found so far, and how many they are. *)
Definition found : Type := gmap string (list OrphanedRange) * Z.

Definition add_found (o : OrphanedRange) (acc : found) : found :=
  (<[or_cache_key o := default [] (acc.1 !! or_cache_key o) ++ [o]]> acc.1, acc.2 + 1).

Definition scan_key (env : recovery_env) (max_orphans : Z) (st : Storage) (acc : found) (group : string * list string) : found :=
  if max_orphans <=? acc.2 then acc else
  let metadata := load_metadata_for_cache_key group.1 st in
  foldl (fun acc path =>
           if max_orphans <=? acc.2 then acc else
           match scan_file env group.1 metadata path st with Some o => add_found o acc | None => acc end) acc group.2.

(** The directories below [bucket/shard_prefix]. *)
Definition sub_shards (bucket shard_prefix : string) (st : Storage) : list string :=
  remove_dups (omap (fun path => match split_char "/" path with
                                 | [b; x; y; _] => if bool_decide (b = bucket) && bool_decide (x = shard_prefix)
                                                   then Some (bucket +:+ "/" +:+ shard_prefix +:+ "/" +:+ y +:+ "/") else None
                                 | _ => None
                                 end) (hash_iter (range_files st)).*1).

(** [n]: how many directories were scanned; the time and the number found are checked before each. *)
Fixpoint scan_dirs (env : recovery_env) (max_orphans : Z) (st : Storage) (n : nat) (acc : found) (dirs : list string) : found :=
  match dirs with
  | [] => acc
  | dir :: dirs =>
      if re_expired env n || (max_orphans <=? acc.2) then acc
      else scan_dirs env max_orphans st (S n) (foldl (scan_key env max_orphans st) acc (hash_iter (files_by_cache_key dir st))) dirs
  end.

Definition scan_shard_for_orphans (env : recovery_env) (bucket shard_prefix : string) (max_orphans : Z) (st : Storage)
    : gmap string (list OrphanedRange) :=
  (scan_dirs env max_orphans st 0 (∅, 0) (sub_shards bucket shard_prefix st)).1.

(** ** The queue ([BackgroundRecoverySystem]) *)

Record BackgroundRecoveryConfig := mkRecoveryConfig {
  rc_scan_interval_secs : Z;
  rc_min_access_frequency_threshold : Z;
  rc_max_orphans_per_cycle : Z;
  rc_enable_priority_recovery : bool;
}.

Definition calculate_priority_score (now : Z) (config : BackgroundRecoveryConfig) (o : OrphanedRange) : Z :=
  let frequency_score := Z.min (u64_mul (or_access_frequency o) 40 / 100) 40 in
  let size_score :=
    if 100 * 1024 * 1024 <? or_file_size o then 20
    else if 10 * 1024 * 1024 <? or_file_size o then 15
    else if 1024 * 1024 <? or_file_size o then 10 else 5 in
  let recency_score :=
    match or_last_accessed o with
    | Some last_accessed =>
        if last_accessed <=? now then
          let days := (now - last_accessed) / NANOS_PER_SEC / 86400 in
          if days =? 0 then 20 else if days <=? 7 then 15 else if days <=? 30 then 10 else 5
        else 5
    | None => 5
    end in
  let validation_score :=
    match or_validation_status o with Valid => 20 | Unknown => 10 | Invalid => 5 | Corrupted => 0 end in
  let score := frequency_score + size_score + recency_score + validation_score in
  if or_access_frequency o <? rc_min_access_frequency_threshold config then score / 2 else score.

(** The shard of a bucket a cycle scans; [interval.as_secs()] is 0 for an interval below a second. *)
Definition cycle_number (config : BackgroundRecoveryConfig) (now : Z) : Result Z :=
  if rc_scan_interval_secs config =? 0 then Panic else Ok (now / NANOS_PER_SEC / rc_scan_interval_secs config).

Definition select_shard (cycle : Z) (shards : list string) : option string :=
  shards !! Z.to_nat (cycle mod zlen shards).

Record PrioritizedOrphan := mkPrioritized { po_orphan : OrphanedRange; po_priority_score : Z }.

Record RecoveryQueue := mkQueue {
  rq_high : list PrioritizedOrphan;
  rq_medium : list PrioritizedOrphan;
  rq_low : list PrioritizedOrphan;
  rq_processing : gmap string Z;
}.

Definition push_orphan (p : PrioritizedOrphan) (q : RecoveryQueue) : RecoveryQueue :=
  if 80 <=? po_priority_score p then mkQueue (rq_high q ++ [p]) (rq_medium q) (rq_low q) (rq_processing q)
  else if 40 <=? po_priority_score p then mkQueue (rq_high q) (rq_medium q ++ [p]) (rq_low q) (rq_processing q)
  else mkQueue (rq_high q) (rq_medium q) (rq_low q ++ [p]) (rq_processing q).

Definition queue_orphan (now : Z) (config : BackgroundRecoveryConfig) (q : RecoveryQueue) (o : OrphanedRange) : RecoveryQueue :=
  if bool_decide (or_validation_status o = Unknown) then q
  else push_orphan (mkPrioritized o (calculate_priority_score now config o)) q.

Definition queue_group (now : Z) (config : BackgroundRecoveryConfig) (q : RecoveryQueue) (group : string * list OrphanedRange)
    : RecoveryQueue :=
  if bool_decide (is_Some (rq_processing q !! group.1)) then q else foldl (queue_orphan now config) q group.2.

Definition by_score : list PrioritizedOrphan -> list PrioritizedOrphan := sort_by_key (fun p => - po_priority_score p).

Definition queue_orphans_for_recovery (now : Z) (config : BackgroundRecoveryConfig) (orphans : gmap string (list OrphanedRange))
    (q : RecoveryQueue) : RecoveryQueue :=
  let q := foldl (queue_group now config) q (hash_iter orphans) in
  if rc_enable_priority_recovery config
  then mkQueue (by_score (rq_high q)) (by_score (rq_medium q)) (by_score (rq_low q)) (rq_processing q) else q.

Definition get_next_orphan_from_queue (q : RecoveryQueue) : option (PrioritizedOrphan * RecoveryQueue) :=
  match rq_high q, rq_medium q, rq_low q with
  | p :: high, medium, low => Some (p, mkQueue high medium low (rq_processing q))
  | [], p :: medium, low => Some (p, mkQueue [] medium low (rq_processing q))
  | [], [], p :: low => Some (p, mkQueue [] [] low (rq_processing q))
  | [], [], [] => None
  end.

End Recovery.

(** ** Names *)

Section Names.
Context `{PathCodecSpec}.

#[local] Arguments range_suffix : simpl never.

(** A file name with a version reads as its stem and the version. *)
Lemma versioned_name_read y version :
  String.length version = 64%nat -> all_chars is_lower_hex version = true -> all_chars is_name_char y = true ->
  Disk.range_file_version (y +:+ "." +:+ version +:+ ".bin") = Some version /\
  range_filename_stem (y +:+ "." +:+ version +:+ ".bin") = Ok y.
Proof.
  intros Hl Hx Hy.
  assert (all_chars is_name_char version = true) as Hv by (revert Hx; apply all_chars_impl; intros a Ha; by apply lower_hex_name).
  assert (all_chars (fun a => negb (ascii_eqb a ".")) version = true) as Hd.
  { revert Hx. apply all_chars_impl. intros a Ha. apply lower_hex_name in Ha as [_ Hne]. by rewrite ascii_eqb_neq. }
  assert (Disk.range_file_version (y +:+ "." +:+ version +:+ ".bin") = Some version) as E.
  { unfold Disk.range_file_version.
    assert (rsplit_once "/" (y +:+ "." +:+ version +:+ ".bin") = None) as ->.
    { unfold rsplit_once. rewrite split_once_free; [done |]. rewrite all_chars_rev. apply name_char_no_slash.
      by rewrite !all_chars_app, Hy, Hv. }
    rewrite (proj2 (strip_suffix_Some ".bin" _ (y +:+ "." +:+ version)%string)) by (by rewrite !string_app_assoc).
    cbn [mbind option_bind]. change (y +:+ "." +:+ version)%string with (y +:+ String "." version)%string.
    rewrite rsplit_once_app by done. cbn [mbind option_bind fmap option_fmap option_map snd]. rewrite Hl. cbn [Nat.eqb andb].
    assert (all_chars Disk.is_ascii_hexdigit version = true) as ->; [| done].
    revert Hx. apply all_chars_impl. intros a. destruct a as [[] [] [] [] [] [] [] []]; vm_compute; congruence. }
  split; [done |]. unfold range_filename_stem. rewrite E.
  rewrite (proj2 (strip_suffix_Some ".bin" _ (y +:+ "." +:+ version)%string)) by (by rewrite !string_app_assoc).
  f_equal. rewrite !string_length_app, Hl. cbn [String.length].
  replace (String.length y + (1 + 64) - 64 - 1)%nat with (String.length y) by lia. apply string_take_app.
Qed.

(** What the file of a range is named by: the encoded object key, or a hash. *)
Lemma own_name key object_key start end_ etag :
  exists x, versioned_range_file_name (new_range_file_name object_key start end_) key start end_ etag
    = ((x +:+ range_suffix start end_) +:+ "." +:+ object_version_id etag +:+ ".bin")%string /\
    (x = sanitize_object_key_for_filename object_key "" \/ x = blake3_hex key) /\ all_chars is_name_char x = true.
Proof.
  assert (exists x, new_range_file_name object_key start end_ = (x +:+ range_suffix start end_ +:+ ".bin")%string
    /\ x = sanitize_object_key_for_filename object_key "") as (x & Ex & Hx).
  { unfold new_range_file_name, sanitize_object_key_for_filename.
    destruct (_ <? _)%nat; eexists; (split; [done |]); by rewrite string_app_nil_r. }
  rewrite Ex. unfold versioned_range_file_name. destruct (_ <? _)%nat.
  - exists (blake3_hex key). split; [by rewrite !string_app_assoc |]. split; [by right | apply hash_name].
  - exists x. split; [| split; [by left | rewrite Hx; by apply sanitized_name]].
    rewrite string_app_assoc, with_extension_bin, <- !string_app_assoc; [done |]. unfold range_suffix. by destruct x.
Qed.

Lemma suffix_name start end_ : is_u64 start -> is_u64 end_ -> all_chars is_name_char (range_suffix start end_) = true.
Proof.
  intros Hs He. pose proof (range_suffix_name start end_ Hs He) as Hn. rewrite all_chars_app, andb_true_iff in Hn. by destruct Hn.
Qed.

Lemma sharded_file_name bucket object_key name : all_chars is_name_char name = true -> file_name (sharded bucket object_key name) = name.
Proof.
  intros Hc. unfold file_name, sharded. set (l1 := string_take 2 _). set (l2 := string_take 3 _).
  match goal with |- context [split_file_name ?p] =>
    replace p with ((bucket +:+ String "/" (l1 +:+ String "/" l2)) +:+ String "/" name)%string
      by (by rewrite <- !string_app_assoc; cbn; rewrite <- !string_app_assoc) end.
  by rewrite split_file_name_dir.
Qed.

Lemma string_app_inj_len_l s t s' t' : String.length s = String.length s' -> (s +:+ t = s' +:+ t')%string -> s = s' /\ t = t'.
Proof.
  revert s'. induction s as [| a s IH]; intros [| b s']; cbn; try done. intros [= Hl] [= -> E]. by destruct (IH s' Hl E) as [-> ->].
Qed.

(** The name of a range file, and what its stem is. *)
Lemma own_file key bucket object_key start end_ etag :
  parse_cache_key key = Ok (bucket, object_key) -> is_u64 start -> is_u64 end_ ->
  let path := get_versioned_range_file_path key start end_ etag in
  exists x, (x = sanitize_object_key_for_filename object_key "" \/ x = blake3_hex key) /\
    range_filename_stem (file_name path) = Ok (x +:+ range_suffix start end_)%string /\
    Disk.range_file_version (file_name path) = Some (object_version_id etag) /\
    path = sharded bucket object_key (file_name path).
Proof.
  intros Hk Hs He path. unfold path. rewrite (range_path_parsed key bucket object_key) by done.
  destruct (own_name key object_key start end_ etag) as (x & -> & Hx & Hn). exists x. split; [done |].
  destruct (versioned_name_read (x +:+ range_suffix start end_) (object_version_id etag)) as [Hv Hst];
    [apply blake3_hex_length | apply blake3_hex_digits | by rewrite all_chars_app, Hn, suffix_name |].
  set (name := ((x +:+ range_suffix start end_) +:+ "." +:+ object_version_id etag +:+ ".bin")%string) in *.
  assert (all_chars is_name_char name = true) as Hc.
  { unfold name, object_version_id. by rewrite !all_chars_app, Hn, suffix_name, hash_name. }
  assert (file_name (sharded bucket object_key name) = name) as Hf by (by apply sharded_file_name).
  by rewrite !Hf.
Qed.

Lemma split_char_single c s a : split_char c s = [a] -> s = a.
Proof.
  revert a. induction s as [| x s IH]; intros a; cbn; [by intros [= <-] |].
  destruct (ascii_eqb x c); [intros [= _ E]; by destruct (split_char_nonempty c s) |].
  destruct (split_char c s) as [| y ys] eqn:Es; [by destruct (split_char_nonempty c s) |].
  intros [= <- ->]. f_equal. by apply IH.
Qed.

Lemma split_char_pair c s a b : split_char c s = [a; b] -> s = (a +:+ String c b)%string.
Proof.
  revert a. induction s as [| x s IH]; intros a; cbn; [done |].
  destruct (ascii_eqb x c) eqn:Ex.
  - apply ascii_eqb_eq in Ex as ->. intros [= <- E]. cbn. f_equal. by eapply split_char_single.
  - destruct (split_char c s) as [| y ys] eqn:Es; [done |]. intros [= <- ->]. cbn. f_equal. by apply IH.
Qed.

(** Parsing a name gives the numbers at its end. *)
Lemma parse_range_file_Ok now path key r :
  parse_range_file now path key = Ok r ->
  is_u64 (nr_start r) /\ is_u64 (nr_end r) /\ nr_start r <= nr_end r /\ nr_file_path r = path /\ nr_compression_algorithm r = Lz4 /\
  nr_uncompressed_size r = u64_add (u64_sub (nr_end r) (nr_start r)) 1 /\
  exists x a b, range_filename_stem (file_name path) = Ok (x +:+ String "_" (a +:+ String "-" b))%string /\
    parse_u64 a = Some (nr_start r) /\ parse_u64 b = Some (nr_end r).
Proof.
  unfold parse_range_file. destruct (split_cache_key key) as [[b0 k0] | |]; [| done | done]. cbn [mbind outcome_bind].
  destruct (range_filename_stem (file_name path)) as [stem | |] eqn:Es; [| done | done]. cbn [mbind outcome_bind].
  unfold parse_range_from_filename. rewrite Es. cbn [mbind outcome_bind].
  set (prefix := sanitize_object_key_for_filename _ ""). destruct (RustStr.strip_prefix _ stem) as [rest |] eqn:Ep; [| done].
  apply strip_prefix_Some in Ep. destruct (split_char "-" rest) as [| a [| b [|]]] eqn:Er; try done.
  destruct (parse_u64 a) as [start |] eqn:Ea; [| done]. destruct (parse_u64 b) as [end_ |] eqn:Eb; [| done].
  destruct (Z.ltb_spec end_ start) as [| Hle]; [done |]. cbn [mbind outcome_bind].
  unfold relative_range_path. destruct (is_safe_relative_file_path path); [| done]. cbn [mbind outcome_bind]. intros [= <-]. cbn.
  split_and!; [by eapply parse_u64_range | by eapply parse_u64_range | done.. |].
  exists prefix, a, b. split_and!; [| done | done]. f_equal. rewrite Ep, <- string_app_assoc. f_equal. cbn. f_equal.
  by apply split_char_pair.
Qed.

(** The file is a range file of the key, of whatever version. *)
Definition attributed (key path : string) : Prop :=
  exists bucket object_key start end_ etag,
    parse_cache_key key = Ok (bucket, object_key) /\ is_u64 start /\ is_u64 end_ /\ end_ < U64_MAX /\
    path = get_versioned_range_file_path key start end_ etag.

Lemma number_no_sep a n c : parse_u64 a = Some n -> is_number_char c = false -> all_chars (fun x => negb (ascii_eqb x c)) a = true.
Proof.
  intros Ha Hc. apply parse_u64_chars in Ha. revert Ha. apply all_chars_impl. intros x Hx.
  rewrite ascii_eqb_neq; [done |]. intros ->. congruence.
Qed.

(** A parsed name of a key's file has the range the file was stored for. *)
Lemma parsed_own now key bucket object_key start end_ etag r :
  parse_cache_key key = Ok (bucket, object_key) -> is_u64 start -> is_u64 end_ ->
  parse_range_file now (get_versioned_range_file_path key start end_ etag) key = Ok r -> nr_start r = start /\ nr_end r = end_.
Proof.
  intros Hk Hs He Hr. apply parse_range_file_Ok in Hr as (_ & _ & _ & _ & _ & _ & x & a & b & Hstem & Ha & Hb).
  destruct (own_file key bucket object_key start end_ etag Hk Hs He) as (y & _ & Hstem' & _).
  rewrite Hstem' in Hstem. injection Hstem as E. destruct (range_suffix_numbers start end_ Hs He) as [E1 F1]. rewrite E1 in E.
  apply app_sep_inj_r in E as [_ E]; [| done |].
  - apply app_sep_inj in E as [<- <-].
    + rewrite parse_u64_to_string in Ha, Hb by done. by injection Ha; injection Hb.
    + apply plain_no_sep; [done |]. apply u64_to_string_plain. unfold is_u64 in *. lia.
    + by eapply number_no_sep.
  - change (String "-" b) with ("-" +:+ b)%string. rewrite !all_chars_app.
    by rewrite (number_no_sep a _ "_" Ha), (number_no_sep b _ "_" Hb).
Qed.

Lemma parsed_named now key path size r :
  attributed key path -> parse_range_file now path key = Ok r ->
  named key (set_file_path path (set_compressed_size size r)).
Proof.
  intros (bucket & object_key & start & end_ & etag & Hk & Hs & He & Hmax & ->) Hr.
  destruct (parsed_own now key bucket object_key start end_ etag r Hk Hs He Hr) as [<- <-].
  apply parse_range_file_Ok in Hr as (_ & _ & Hle & _ & Ha & Hu & _).
  apply (new_range_named key _ etag); cbn; try done. rewrite Hu. unfold is_u64, U64_MAX in *. by u64.
Qed.

Lemma sanitized_hash s : sanitize_object_key_for_filename (blake3_hex s) "" = blake3_hex s.
Proof.
  unfold sanitize_object_key_for_filename. rewrite percent_encode_documented.
  assert (forall t, all_chars is_lower_hex t = true -> percent_bytes FRAGMENT t = t) as Hh.
  { induction t as [| a t IH]; [done |]. cbn [all_chars percent_bytes]. rewrite andb_true_iff. intros [Ha Ht].
    rewrite IH by done. by rewrite lower_hex_plain. }
  rewrite Hh by apply blake3_hex_digits. rewrite blake3_hex_length. cbn. by rewrite string_app_nil_r.
Qed.

Lemma numbers_split start end_ : is_u64 start -> is_u64 end_ ->
  split_char "-" (u64_to_string start +:+ String "-" (u64_to_string end_)) = [u64_to_string start; u64_to_string end_].
Proof.
  intros Hs He. unfold is_u64 in *.
  rewrite split_char_app by (apply plain_no_sep; [done |]; apply u64_to_string_plain; lia).
  by rewrite split_char_free by (apply plain_no_sep; [done |]; apply u64_to_string_plain; lia).
Qed.

(** The key's own files parse, unless the key is spelled like a file name of its hash. *)
Lemma parse_own_file now key bucket object_key start end_ etag :
  split_once "/" key = Some (bucket, object_key) -> parse_cache_key key = Ok (bucket, object_key) ->
  is_u64 start -> is_u64 end_ -> start <= end_ ->
  starts_with (blake3_hex key +:+ "_") (percent_encode FRAGMENT object_key +:+ range_suffix start end_) = false ->
  let path := get_versioned_range_file_path key start end_ etag in
  parse_range_file now path key = Ok (mkNewRangeSpec start end_ path Lz4 0 (u64_add (u64_sub end_ start) 1) now now 1 None).
Proof.
  intros Hsplit Hk Hs He Hle Hfree path. destruct (own_file key bucket object_key start end_ etag Hk Hs He) as (x & Hx & Hstem & _ & _).
  fold path in Hstem. unfold parse_range_file, split_cache_key. rewrite Hsplit. cbn [mbind outcome_bind]. rewrite Hstem. cbn [mbind outcome_bind].
  assert (sanitize_object_key_for_filename
    (if starts_with (blake3_hex key +:+ "_") (x +:+ range_suffix start end_) then blake3_hex key else object_key) "" = x) as Hname.
  { destruct (starts_with (blake3_hex key +:+ "_") (x +:+ range_suffix start end_)) eqn:Est.
     - rewrite sanitized_hash. destruct Hx as [-> | ->]; [| done]. apply starts_with_spec in Est as [t Et].
      unfold sanitize_object_key_for_filename in Et |- *. destruct (200 <? _)%nat.
      + rewrite string_app_nil_r in Et |- *. rewrite <- string_app_assoc in Et.
        apply string_app_inj_len_l in Et as [-> _]; [done |]. by rewrite !blake3_hex_length.
      + rewrite string_app_nil_r in Et. apply not_true_iff_false in Hfree. destruct Hfree. apply starts_with_spec. by exists t.
    - destruct Hx as [-> | ->]; [done |]. apply not_true_iff_false in Est. destruct Est. apply starts_with_spec.
      unfold range_suffix. eexists. by rewrite <- string_app_assoc. }
  unfold parse_range_from_filename. rewrite Hname, Hstem. cbn [mbind outcome_bind].
  destruct (range_suffix_numbers start end_ Hs He) as [-> _].
  rewrite (proj2 (strip_prefix_Some (x +:+ "_") _ (u64_to_string start +:+ String "-" (u64_to_string end_))))
    by (by rewrite <- string_app_assoc).
  rewrite numbers_split, !parse_u64_to_string by done. destruct (Z.ltb_spec end_ start); [lia |]. cbn [mbind outcome_bind].
  unfold relative_range_path, path. by rewrite (range_path_safe key bucket object_key).
Qed.

Lemma printed_digits n : is_u64 n -> all_chars (fun a => is_ascii_digit a || ascii_eqb a "-") (u64_to_string n) = true.
Proof.
  intros Hn. pose proof (parse_u64_chars _ _ (parse_u64_to_string n Hn)) as Hc.
  pose proof (u64_to_string_plain n ltac:(unfold is_u64 in Hn; lia)) as Hp. revert Hc Hp.
  induction (u64_to_string n) as [| a t IH]; [done |]. cbn [all_chars]. rewrite !andb_true_iff. intros [Ha Ht] [Hp Hpt].
  split; [| by apply IH]. revert Ha Hp. destruct a as [[] [] [] [] [] [] [] []]; vm_compute; congruence.
Qed.

(** A file named by its encoded key is taken for that key's, unless a metadata file of the directory is of a key with that hash. *)
Lemma encoded_name_attributed percent_decode hashed bucket object_key start end_ etag :
  validate_bucket_segment bucket = Ok tt -> is_u64 start -> is_u64 end_ ->
  percent_decode (percent_encode FRAGMENT object_key) = Some object_key -> hashed !! object_key = None ->
  let name := ((percent_encode FRAGMENT object_key +:+ range_suffix start end_) +:+ "." +:+ object_version_id etag +:+ ".bin")%string in
  key_of_file percent_decode hashed (sharded bucket object_key name) = Some (bucket +:+ "/" +:+ object_key)%string.
Proof.
  intros Hb Hs He Hdec Hno name.
  assert (all_chars is_name_char (percent_encode FRAGMENT object_key) = true) as Hn
    by (rewrite percent_encode_documented; apply percent_bytes_name).
  assert (all_chars is_name_char name = true) as Hc.
  { unfold name, object_version_id. by rewrite !all_chars_app, Hn, suffix_name, hash_name. }
  assert (file_name (sharded bucket object_key name) = name) as Hf by (by apply sharded_file_name).
  destruct (versioned_name_read (percent_encode FRAGMENT object_key +:+ range_suffix start end_) (object_version_id etag)) as [_ Hst];
    [apply blake3_hex_length | apply blake3_hex_digits | by rewrite all_chars_app, Hn, suffix_name |]. fold name in Hst.
  assert (extract_object_key_from_filename percent_decode name = Ok object_key) as Hx.
  { unfold extract_object_key_from_filename. rewrite Hst. cbn [mbind outcome_bind].
    destruct (range_suffix_numbers start end_ Hs He) as [-> Hfree]. rewrite rsplit_once_app by done.
    change (String "-" (u64_to_string end_)) with ("-" +:+ u64_to_string end_)%string.
    unfold contains_char. rewrite !all_chars_app, !printed_digits, Hdec by done. cbn. by rewrite andb_false_r. }
  unfold key_of_file. rewrite Hf.
  assert (ends_with ".bin" name = true) as ->
    by (apply ends_with_spec; unfold name; eexists; by rewrite !string_app_assoc). cbn [negb].
  rewrite Hx, Hno. unfold extract_cache_key_from_path. rewrite sharded_split by done. rewrite Hf, Hx. done.
Qed.

End Names.

(** ** What a scan reports *)

Section Scan.
Context `{HashIter} `{PathCodecSpec} (percent_decode : string -> option string).

(** An orphan of a scan: a file of a directory, taken for a file of the key, that the key's metadata does not list. *)
Definition scanned (env : recovery_env) (st : Storage) (key : string) (o : OrphanedRange) : Prop :=
  exists dir, or_range_file_path o ∈ files_of_dir dir st /\
    key_of_file percent_decode (hashed_keys dir st) (or_range_file_path o) = Some key /\
    scan_file env key (load_metadata_for_cache_key key st) (or_range_file_path o) st = Some o.

Definition all_scanned (env : recovery_env) (st : Storage) (found : gmap string (list OrphanedRange)) : Prop :=
  forall key os o, found !! key = Some os -> o ∈ os -> scanned env st key o.

Lemma files_by_cache_key_elem dir st key paths path :
  files_by_cache_key percent_decode dir st !! key = Some paths -> path ∈ paths ->
  path ∈ files_of_dir dir st /\ key_of_file percent_decode (hashed_keys dir st) path = Some key.
Proof.
  unfold files_by_cache_key. generalize (hashed_keys dir st). intros hashed.
  set (good := fun (all : list string) (acc : gmap string (list string)) => forall key paths path, acc !! key = Some paths -> path ∈ paths ->
    path ∈ all /\ key_of_file percent_decode hashed path = Some key).
  enough (forall rest acc, rest ⊆ files_of_dir dir st -> good (files_of_dir dir st) acc ->
    good (files_of_dir dir st) (foldl (fun acc path => match key_of_file percent_decode hashed path with
      | Some key => <[key := default [] (acc !! key) ++ [path]]> acc | None => acc end) acc rest)) as Hfold.
  { intros Hl Hin. eapply (Hfold (files_of_dir dir st) ∅); [done | | exact Hl | done]. intros k ps q. by rewrite lookup_empty. }
  induction rest as [| p rest IH]; intros acc Hsub Hacc; cbn [foldl]; [done |]. apply IH; [set_solver |].
  destruct (key_of_file percent_decode hashed p) as [k |] eqn:Ek; [| done].
  intros k' ps q [[<- <-] | [_ Hl]]%lookup_insert_Some Hin; [| by eapply Hacc].
  apply elem_of_app in Hin as [Hin | ->%list_elem_of_singleton]; [| split; [set_solver | done]].
  destruct (acc !! k) as [l |] eqn:El; [by eapply Hacc | by apply elem_of_nil in Hin].
Qed.

Lemma add_found_scanned env st o acc : scanned env st (or_cache_key o) o -> all_scanned env st acc.1 -> all_scanned env st (add_found o acc).1.
Proof.
  intros Ho Hacc key os o'. unfold add_found. cbn [fst]. intros [[<- <-] | [_ Hl]]%lookup_insert_Some Hin; [| by eapply Hacc].
  apply elem_of_app in Hin as [Hin | ->%list_elem_of_singleton]; [| done].
  destruct (acc.1 !! or_cache_key o) as [l |] eqn:El; [by eapply Hacc | by apply elem_of_nil in Hin].
Qed.

Lemma scan_file_fields env key metadata path st o :
  scan_file env key metadata path st = Some o -> or_cache_key o = key /\ or_range_file_path o = path /\
  exists r, or_range_spec o = Some r /\ parse_range_file (re_now env) path key = Ok r /\ lists_path path metadata = false /\
    or_validation_status o = validate_orphan_version env path r metadata st.
Proof.
  unfold scan_file. destruct (parse_range_file _ _ _) as [r | |] eqn:Er; [| done | done].
  assert (nr_file_path r = path) as -> by (by apply parse_range_file_Ok in Er as (_ & _ & _ & ? & _)).
  destruct (lists_path path metadata); [done |]. intros [= <-]. split_and!; [done | done |]. by exists r.
Qed.

Lemma scan_key_scanned env max st dir acc group :
  group ∈ hash_iter (files_by_cache_key percent_decode dir st) -> all_scanned env st acc.1 -> all_scanned env st (scan_key env max st acc group).1.
Proof.
  destruct group as [key paths]. intros Hg Hacc. apply hash_iter_lookup in Hg. unfold scan_key. destruct (max <=? acc.2); [done |]. cbn [fst snd].
  assert (forall path, path ∈ paths -> path ∈ files_of_dir dir st /\ key_of_file percent_decode (hashed_keys dir st) path = Some key) as Hpaths
    by (intros path; by apply files_by_cache_key_elem).
  clear Hg. revert acc Hacc. induction paths as [| path paths IH]; intros acc Hacc; cbn [foldl]; [done |].
  apply IH; [intros; apply Hpaths; by right |]. destruct (max <=? acc.2); [done |].
  destruct (scan_file _ _ _ _ _) as [o |] eqn:Eo; [| done]. destruct (Hpaths path ltac:(left)) as [Hin Hk].
  destruct (scan_file_fields _ _ _ _ _ _ Eo) as (Hkey & Hpath & _). apply add_found_scanned; [| done].
  rewrite Hkey. exists dir. by rewrite Hpath.
Qed.

Lemma scan_shard_scanned env bucket prefix max st : all_scanned env st (scan_shard_for_orphans percent_decode env bucket prefix max st).
Proof.
  unfold scan_shard_for_orphans. generalize (sub_shards bucket prefix st). intros dirs.
  enough (forall n acc, all_scanned env st acc.1 -> all_scanned env st (scan_dirs percent_decode env max st n acc dirs).1) as Hd
    by (apply Hd; intros key os o; cbn; by rewrite lookup_empty).
  induction dirs as [| dir dirs IH]; intros n acc Hacc; cbn [scan_dirs]; [done |]. destruct (_ || _); [done |]. apply IH. clear IH.
  assert (forall group, group ∈ hash_iter (files_by_cache_key percent_decode dir st) -> group ∈ hash_iter (files_by_cache_key percent_decode dir st))
    as Hsub by done.
  revert Hsub. generalize (hash_iter (files_by_cache_key percent_decode dir st)) at 1 3. intros groups Hsub. revert acc Hacc.
  induction groups as [| g gs IH]; intros acc Hacc; cbn [foldl]; [done |]. apply IH; [set_solver |].
  eapply scan_key_scanned; [apply Hsub; left | done].
Qed.

End Scan.

(** ** What recovery keeps *)

Section Sound.
Context `{HashIter} `{PathCodecSpec} `{FrameEncoder} `{FrameCodec} `{HttpDate} `{!Comp.FrameCodecLaws}.
Context (object : string -> string -> bytes) `{!LayoutSeparates object}.

Lemma add_or_update_ranges r m : cm_ranges (add_or_update_range r m) = add_or_replace r (cm_ranges m) /\
  cm_cache_key (add_or_update_range r m) = cm_cache_key m /\
  om_etag (cm_object_metadata (add_or_update_range r m)) = om_etag (cm_object_metadata m).
Proof. unfold add_or_update_range. cbn. destruct (add_or_replace r (cm_ranges m)) as [| x [|]]; [done | | done]. by destruct (_ && _). Qed.

Lemma adopt_identity_fields om m : cm_cache_key (adopt_identity om m) = cm_cache_key m /\
  (cm_ranges (adopt_identity om m) = [] \/ cm_ranges (adopt_identity om m) = cm_ranges m).
Proof. unfold adopt_identity. destruct om as [om |]; [| by auto]. destruct (is_empty_str _ && _); by auto. Qed.

Lemma loaded_metadata_ok env key ttl st m :
  storage_ok object st -> load_or_create_metadata env key ttl st = Ok m -> metadata_ok (get_new_metadata_file_path key) m.
Proof.
  intros Hok. unfold load_or_create_metadata, get_new_metadata_file_path.
  destruct (get_sharded_path _ key _) as [path | |] eqn:Ep; [| done | done].
  cbn [mbind outcome_bind]. destruct (metadata_files st !! path) as [[m' | |] |] eqn:El; try done.
  - intros [= ->]. by apply Hok in El.
  - destruct (add_ttl _ _); [| done | done]. intros [= <-]. split; [| constructor]. unfold get_new_metadata_file_path. cbn. by rewrite Ep.
Qed.

Lemma write_immediate_only_ok env key r om ttl st :
  storage_ok object st -> named key r -> storage_ok object (write_immediate_only env key r om ttl st).1.
Proof.
  intros Hok Hn. unfold write_immediate_only. destruct (se_lock env); [done |].
  destruct (load_or_create_metadata env key ttl st) as [m | |] eqn:Em; [| done | done]. destruct (_ && _); [done |].
  destruct (loaded_metadata_ok env key ttl st m Hok Em) as [Hkey Hall].
  destruct (add_or_update_ranges r (adopt_identity om m)) as (Hranges & Hck & _).
  destruct (adopt_identity_fields om m) as [Hadopt Hkept].
  apply write_metadata_ok; [done |]. rewrite Hranges, Hck, Hadopt, Hkey. apply add_or_replace_Forall; [by exists key |].
  by destruct Hkept as [-> | ->].
Qed.

Lemma write_journal_only_ok env key r om ttl st :
  storage_ok object st -> named key r -> storage_ok object (write_journal_only env key r om ttl st).1.
Proof.
  intros Hok Hn. unfold write_journal_only, append_range_entry. set (e := mkEntry _ _ _ _ _ _ _ _ _ _ _).
  pose proof (append_lines_ok object (se_journal env) (se_instance env) [Parsed e] st Hok) as Ha.
  destruct (append_lines _ _ _ _) as [st1 [[] | |]]; apply Ha; intros e' [= ->]%list_elem_of_singleton _; done.
Qed.

Lemma write_hybrid_ok env key r om ttl st :
  storage_ok object st -> named key r -> storage_ok object (write_hybrid env key r om ttl st).1.
Proof.
  intros Hok Hn. unfold write_hybrid. pose proof (write_immediate_only_ok env key r om ttl st Hok Hn) as Hi.
  destruct (write_immediate_only env key r om ttl st) as [st1 [[] | e |]]; cbn [fst] in *; [by apply write_journal_only_ok | | done].
  pose proof (write_journal_only_ok env key r om ttl st1 Hi Hn) as Hj.
  destruct e; try done; by destruct (write_journal_only env key r om ttl st1) as [st2 [[] | |]].
Qed.

Lemma no_pending_file readable key path st :
  has_pending_range_file readable key path st = false ->
  forall name ls e, journal_files st !! name = Some ls -> is_journal_name name = true -> readable name = true -> Parsed e ∈ ls ->
    je_cache_key e = key -> is_publication (je_operation e) = true -> nr_file_path (je_range_spec e) <> path.
Proof.
  intros Hp name ls e Hl Hn Hr He Hk Ho E. apply not_true_iff_false in Hp. destruct Hp. apply existsb_exists. exists e.
  split; [| rewrite Ho; by apply bool_decide_eq_true]. apply list_elem_of_In. unfold get_all_entries_for_cache_key, entries_in.
  rewrite sort_by_key_perm. apply list_elem_of_In, in_flat_map. exists (name, ls). split.
  - apply list_elem_of_In, list_elem_of_filter. split; [done | by apply hash_iter_lookup].
  - cbn. rewrite Hr. apply list_elem_of_In, list_elem_of_filter. split; [done | by apply parsed_lines_elem].
Qed.

Lemma split_once_prefix c s l r : split_once c s = Some (l, r) -> all_chars (fun a => negb (ascii_eqb a c)) l = true.
Proof.
  revert l r. induction s as [| a s IH]; intros l r; cbn; [done |]. destruct (ascii_eqb a c) eqn:Ea; [by intros [= <- _] |].
  intros ([l' r'] & E & [= <- <-])%bind_Some. cbn. rewrite Ea. by eapply IH.
Qed.

(** Neither the metadata of the key nor a readable journal refers to the file. *)
Definition unreferenced (env : recovery_env) (key path : string) (st : Storage) : Prop :=
  lists_path path (load_metadata_for_cache_key key st) = false /\
  (forall name ls e, journal_files st !! name = Some ls -> is_journal_name name = true -> re_journal_readable env name = true ->
     Parsed e ∈ ls -> je_cache_key e = key -> is_publication (je_operation e) = true -> nr_file_path (je_range_spec e) <> path).

(** The metadata of the key names a version, and the range file of version [etag] is of another, cannot be read, is empty, or is smaller than a
    tenth or larger than twice its range (a range of 2^63 bytes and more is not judged). *)
Definition of_no_use (key : string) (start end_ : Z) (etag : string) (st : Storage) : Prop :=
  exists m, load_metadata_for_cache_key key st = Some m /\ is_empty_str (om_etag (cm_object_metadata m)) = false /\
    (object_version_id etag <> object_version_id (om_etag (cm_object_metadata m)) \/
     forall frame, range_files st !! get_versioned_range_file_path key start end_ etag = Some (Disk.Readable frame) ->
       let span := end_ - start + 1 in
       frame = [] \/ zlen frame < span / 10 \/ 2 * span < zlen frame \/ 2 ^ 63 <= span).

Lemma cleanup_spec env o st m :
  let '(st', _, res) := cleanup_invalid_orphan env o st m in
  st' = st \/
  (st' = set_range_files (base.delete (or_range_file_path o) (range_files st)) st /\ res = Ok (or_file_size o) /\
   unreferenced env (or_cache_key o) (or_range_file_path o) st /\
   (forall r, or_range_spec o = Some r -> is_Some (Disk.range_file_version (or_range_file_path o)) ->
     is_orphan_status (validate_orphan_version env (or_range_file_path o) r (load_metadata_for_cache_key (or_cache_key o) st) st) = false)).
Proof.
  unfold cleanup_invalid_orphan, relative_range_path. destruct (is_safe_relative_file_path _); [| by left].
  destruct (se_lock _); [by left |]. destruct (has_pending_range_file _ _ _ _) eqn:Hp; [by left |].
  destruct (lists_path _ _) eqn:Hl; [by left |]. destruct (match or_range_spec o with Some _ => _ | None => _ end) eqn:Hv; [by left |].
  destruct (bool_decide _ && _); [right | by left]. split; [done |]. split; [done |]. split; [split; [done | by apply no_pending_file] |].
  intros r' Hr Hver. rewrite Hr, bool_decide_true in Hv by done. exact Hv.
Qed.

Lemma version_of_name path : Disk.range_file_version path = Disk.range_file_version (file_name path).
Proof.
  unfold Disk.range_file_version, file_name, split_file_name. destruct (rsplit_once "/" path) as [[dir name] |] eqn:E; cbn [snd]; [| by rewrite E].
  assert (rsplit_once "/" name = None) as ->; [| done]. unfold rsplit_once in *. apply bind_None. left.
  apply bind_Some in E as ([l r] & E & [= <- <-]). apply split_once_free. rewrite all_chars_rev, all_chars_rev. by eapply split_once_prefix.
Qed.

(** What the validation refuses is of no use. *)
Lemma refused_of_no_use env key bucket object_key start end_ etag r st :
  parse_cache_key key = Ok (bucket, object_key) -> is_u64 start -> is_u64 end_ -> start <= end_ -> nr_start r = start -> nr_end r = end_ ->
  let path := get_versioned_range_file_path key start end_ etag in
  (is_Some (Disk.range_file_version path) ->
   is_orphan_status (validate_orphan_version env path r (load_metadata_for_cache_key key st) st) = false) ->
  of_no_use key start end_ etag st.
Proof.
  intros Hk Hs He Hle Es Ee path Hv. destruct (own_file key bucket object_key start end_ etag Hk Hs He) as (_ & _ & _ & Hversion & _).
  fold path in Hversion. rewrite version_of_name, Hversion in Hv. specialize (Hv ltac:(by eexists)).
  unfold validate_orphan_version in Hv. rewrite Hversion in Hv. unfold of_no_use. fold path.
  destruct (load_metadata_for_cache_key key st) as [m |]; [| done]. cbn [fmap option_fmap option_map] in Hv.
  destruct (is_empty_str _) eqn:Hne; [done |]. exists m. split; [done |]. split; [done |].
  destruct (decide (object_version_id etag = object_version_id (om_etag (cm_object_metadata m)))) as [Heq | ?]; [right | by left].
  intros frame Hf. set (span := end_ - start + 1). rewrite <- Heq in Hv. unfold eq_ignore_ascii_case in Hv. rewrite bool_decide_true in Hv by done. cbn [negb] in Hv.
  unfold validate_range_file, file_length in Hv. rewrite Hf, Es, Ee in Hv.
  destruct (decide (2 ^ 63 <= span)); [by auto |]. unfold is_u64 in *. u64_in Hv. fold span in Hv.
  destruct (Z.eqb_spec (zlen frame) 0) as [Hz |]; [left; destruct frame; [done |]; rewrite zlen_cons in Hz; pose proof (zlen_nonneg frame); lia |].
  destruct (Z.ltb_spec (zlen frame) (span / 10)); [by auto |]. destruct (Z.ltb_spec (span * 2) (zlen frame)); [right; right; left; lia | done].
Qed.

Lemma write_immediate_files env key r om ttl st :
  range_files (write_immediate_only env key r om ttl st).1 = range_files st /\
  journal_files (write_immediate_only env key r om ttl st).1 = journal_files st /\
  accumulator (write_immediate_only env key r om ttl st).1 = accumulator st.
Proof.
  unfold write_immediate_only. destruct (se_lock env); [done |].
  destruct (load_or_create_metadata _ _ _ _); [| done | done]. destruct (_ && _); [done |].
  unfold write_metadata_to_disk. destruct (get_sharded_path _ _ _); [| done | done]. by destruct (se_write_meta env).
Qed.

Lemma write_journal_files env key r om ttl st :
  range_files (write_journal_only env key r om ttl st).1 = range_files st /\
  metadata_files (write_journal_only env key r om ttl st).1 = metadata_files st /\
  accumulator (write_journal_only env key r om ttl st).1 = accumulator st.
Proof.
  unfold write_journal_only, append_range_entry. set (e := mkEntry _ _ _ _ _ _ _ _ _ _ _).
  destruct (append_lines_fields (se_journal env) (se_instance env) [Parsed e] st) as [E1 E2].
  assert (accumulator (append_lines (se_journal env) (se_instance env) [Parsed e] st).1 = accumulator st) as E3
    by (by destruct (se_journal env) as [| | [] [] | t []]).
  by destruct (append_lines _ _ _ _) as [st1 [[] | |]].
Qed.

(** A hybrid write leaves the range files and the size account. *)
Lemma write_hybrid_files env key r om ttl st :
  range_files (write_hybrid env key r om ttl st).1 = range_files st /\ accumulator (write_hybrid env key r om ttl st).1 = accumulator st.
Proof.
  unfold write_hybrid. destruct (write_immediate_files env key r om ttl st) as (E1 & _ & E2).
  destruct (write_immediate_only env key r om ttl st) as [st1 [[] | e |]]; cbn [fst] in *; [| | done];
    destruct (write_journal_files env key r om ttl st1) as (E3 & _ & E4); [by rewrite E3, E4 |].
  destruct (write_journal_only env key r om ttl st1) as [st2 [[] | |]]; cbn [fst] in *; rewrite <- ?E1, <- ?E2; by destruct e.
Qed.

(** Where a hybrid write that succeeded put the range. *)
Definition listed_or_journalled (key : string) (r : NewRangeSpec) (st : Storage) : Prop :=
  (exists m, metadata_files st !! get_new_metadata_file_path key = Some (MetaParsed m) /\ r ∈ cm_ranges m) \/
  (exists name ls e, journal_files st !! name = Some ls /\ Parsed e ∈ ls /\ je_cache_key e = key /\ je_operation e = Disk.Add /\
     je_range_spec e = r).

Lemma add_or_replace_elem r rs : r ∈ add_or_replace r rs.
Proof.
  unfold add_or_replace. destruct (replace_range r rs) as [rs' |] eqn:E; cbn; [| set_solver].
  revert rs' E. induction rs as [| x rs IH]; intros rs'; cbn; [done |]. destruct (_ && _); [intros [= <-]; left |].
  destruct (replace_range r rs); [| done]. intros [= <-]. right. by apply IH.
Qed.

Lemma write_journal_lists env key r om ttl st : (write_journal_only env key r om ttl st).2 = Ok tt ->
  listed_or_journalled key r (write_journal_only env key r om ttl st).1.
Proof.
  unfold write_journal_only, append_range_entry. set (e := mkEntry _ _ _ _ _ _ _ _ _ _ _).
  destruct (append_lines _ _ _ _) as [st1 [[] | |]] eqn:Ea; [| done | done]. intros _.
  apply append_lines_new in Ea as [He _]. apply journal_entries_elem in He as (name & ls & Hl & Hin). right. by exists name, ls, e.
Qed.

Lemma write_immediate_lists env key r om ttl st :
  storage_ok object st -> (write_immediate_only env key r om ttl st).2 = Ok tt ->
  exists m m', load_or_create_metadata env key ttl st = Ok m /\ m' = add_or_update_range r (adopt_identity om m) /\
    (om_etag (cm_object_metadata m) = "" \/ om_etag (cm_object_metadata m) = default "" (om_etag <$> om)) /\
    (write_immediate_only env key r om ttl st).1
      = set_metadata_files (<[get_new_metadata_file_path key := MetaParsed m']> (metadata_files st)) st.
Proof.
  intros Hok. unfold write_immediate_only. destruct (se_lock env); [done |].
  destruct (load_or_create_metadata env key ttl st) as [m | |] eqn:Em; [| done | done].
  destruct (loaded_metadata_ok env key ttl st m Hok Em) as [Hp _].
  destruct (negb (is_empty_str _) && _) eqn:He; [done |]. intros Hw.
  exists m, (add_or_update_range r (adopt_identity om m)). split_and!; [done | done | |].
  - apply andb_false_iff in He as [He%negb_false_iff | He%negb_false_iff]; [left; by destruct (om_etag _) |].
    right. by apply bool_decide_eq_true in He.
  - revert Hw. unfold write_metadata_to_disk. destruct (add_or_update_ranges r (adopt_identity om m)) as (_ & -> & _).
    rewrite (proj1 (adopt_identity_fields om m)), <- Hp. unfold get_new_metadata_file_path.
    destruct (get_sharded_path "metadata" (cm_cache_key m) ".meta"); [| done | done]. by destruct (se_write_meta env).
Qed.

Lemma write_hybrid_lists env key r om ttl st :
  storage_ok object st -> (write_hybrid env key r om ttl st).2 = Ok tt -> listed_or_journalled key r (write_hybrid env key r om ttl st).1.
Proof.
  intros Hok. unfold write_hybrid. pose proof (write_immediate_lists env key r om ttl st Hok) as Hi.
  destruct (write_immediate_only env key r om ttl st) as [st1 [[] | e |]]; cbn [fst snd] in *; [| | done].
  - intros _. destruct (Hi eq_refl) as (m & m' & _ & -> & _ & ->). destruct (write_journal_files env key r om ttl
      (set_metadata_files (<[get_new_metadata_file_path key := MetaParsed (add_or_update_range r (adopt_identity om m))]> (metadata_files st)) st))
      as (_ & E & _). left. rewrite E. eexists. split; [apply lookup_insert_eq |].
    rewrite (proj1 (add_or_update_ranges r (adopt_identity om m))). apply add_or_replace_elem.
  - pose proof (write_journal_lists env key r om ttl st1) as Hj.
    destruct (write_journal_only env key r om ttl st1) as [st2 [[] | |]]; destruct e; by (done || intros _; apply Hj).
Qed.

(** *** Recovering *)

Lemma add_range_ok env o seen st now r :
  storage_ok object st -> attributed (or_cache_key o) (or_range_file_path o) -> or_range_spec o = Some r ->
  parse_range_file now (or_range_file_path o) (or_cache_key o) = Ok r ->
  let '(st', res) := add_range_to_metadata env o seen st in
  storage_ok object st' /\ range_files st' = range_files st /\ accumulator st' = accumulator st /\
  forall r', res = Ok r' -> r' = set_file_path (or_range_file_path o) (set_compressed_size (or_file_size o) r) /\
    listed_or_journalled (or_cache_key o) r' st'.
Proof.
  intros Hok Hat Hr Hparse. unfold add_range_to_metadata. rewrite Hr. unfold relative_range_path.
  destruct (is_safe_relative_file_path _); [| done]. set (r' := set_file_path _ _).
  assert (named (or_cache_key o) r') as Hn by (by eapply parsed_named).
  unfold write_range_metadata. set (om := matching_object _ _ _).
  pose proof (write_hybrid_ok (re_store env) (or_cache_key o) r' om 0 st Hok Hn) as Hok'.
  destruct (write_hybrid_files (re_store env) (or_cache_key o) r' om 0 st) as [Hf Ha].
  pose proof (write_hybrid_lists (re_store env) (or_cache_key o) r' om 0 st Hok) as Hl.
  destruct (write_hybrid _ _ _ _ _ _) as [st' [[] | |]]; cbn [fst snd] in *; [| done | done].
  split_and!; [done.. |]. intros r2 [= <-]. split; [done | by apply Hl].
Qed.

Lemma metadata_path_sharded key bucket object_key :
  parse_cache_key key = Ok (bucket, object_key) -> get_sharded_path "metadata" key ".meta" = Ok (get_new_metadata_file_path key).
Proof. intros Hk. unfold get_new_metadata_file_path, get_sharded_path. by rewrite Hk. Qed.

(** Metadata at a sharded path is of a key that parses. *)
Lemma sharded_metadata_parses key bucket object_key key' :
  parse_cache_key key = Ok (bucket, object_key) -> get_new_metadata_file_path key' = get_new_metadata_file_path key ->
  exists p, parse_cache_key key' = Ok p.
Proof.
  intros Hk E. assert (suffix_ok ".meta") as Hs by (split; [done | cbn; lia]).
  assert ((exists q, parse_cache_key key' = Ok q) \/
    get_new_metadata_file_path key' = path_join "metadata" (sanitize_cache_key_new key' +:+ ".meta")) as [Hq | Eflat]; [| done | exfalso].
  { unfold get_new_metadata_file_path, get_sharded_path. destruct (parse_cache_key key') as [q | |]; [left; by exists q | by right..]. }
  pose proof (metadata_path_sharded key bucket object_key Hk) as Hp.
  apply get_sharded_path_Ok in Hp as (b & k & Hbk & Hp); [| done..].
  destruct (sanitized_key_name key') as [He Hn].
  rewrite Eflat, Hp, (proj1 (path_join_seg "metadata" _ eq_refl eq_refl He Hn)) in E.
  apply (f_equal (fun x => length (split_char "/" x))) in E. cbn beta in E.
  assert (forall x, ("metadata" +:+ "/" +:+ x)%string = ("metadata" +:+ String "/" x)%string) as Hsl by done.
  rewrite !Hsl, !(split_char_app "/" "metadata"), relative_path_split, split_char_free in E; try done; [by apply name_char_no_slash |].
  by eapply parse_cache_key_Ok.
Qed.

(** Writing the range of a key whose metadata names the version lists it there. *)
Lemma write_hybrid_succeeds env key bucket object_key r m ttl st :
  parse_cache_key key = Ok (bucket, object_key) -> storage_ok object st -> se_lock env = None -> se_write_meta env = None ->
  metadata_files st !! get_new_metadata_file_path key = Some (MetaParsed m) -> is_empty_str (om_etag (cm_object_metadata m)) = false ->
  let '(st', res) := write_hybrid env key r (Some (cm_object_metadata m)) ttl st in
  res = Ok tt /\ range_files st' = range_files st /\
  metadata_files st' !! get_new_metadata_file_path key = Some (MetaParsed (add_or_update_range r m)).
Proof.
  intros Hk Hok Hlock Hwrite Hm Hne. unfold write_hybrid.
  assert (write_immediate_only env key r (Some (cm_object_metadata m)) ttl st
    = (set_metadata_files (<[get_new_metadata_file_path key := MetaParsed (add_or_update_range r m)]> (metadata_files st)) st, Ok tt)) as ->.
  { unfold write_immediate_only, load_or_create_metadata. rewrite Hlock, (metadata_path_sharded key bucket object_key Hk). cbn [mbind outcome_bind].
    rewrite Hm, Hne. cbn [fmap option_fmap option_map default negb andb]. rewrite bool_decide_true by done. cbn [negb].
    unfold adopt_identity. rewrite Hne. cbn [andb]. destruct (add_or_update_ranges r m) as (_ & Hck & _).
    destruct (so_meta object st Hok _ m Hm) as [Hpath _]. unfold write_metadata_to_disk. rewrite Hck, <- Hpath.
    assert (exists p, parse_cache_key (cm_cache_key m) = Ok p) as [[b' k'] Hk'].
    { by eapply sharded_metadata_parses. }
    rewrite (metadata_path_sharded _ b' k' Hk'), Hwrite. done. }
  match goal with |- context [write_journal_only env key r ?om ttl ?st1] => destruct (write_journal_files env key r om ttl st1) as (E1 & E2 & _) end.
  split; [done |]. rewrite E1, E2. split; [done | apply lookup_insert_eq].
Qed.

Lemma recover_orphan_ok env o seen st m now r :
  storage_ok object st -> attributed (or_cache_key o) (or_range_file_path o) -> or_range_spec o = Some r ->
  parse_range_file now (or_range_file_path o) (or_cache_key o) = Ok r -> storage_ok object (recover_orphan env o seen st m).1.1.
Proof.
  intros Hok Hat Hr Hparse. pose proof (add_range_ok env o seen st now r Hok Hat Hr Hparse) as Hadd. pose proof (cleanup_spec env o st m) as Hclean.
  assert (storage_ok object (cleanup_invalid_orphan env o st m).1.1) as Hc.
  { destruct (cleanup_invalid_orphan env o st m) as [[st' m'] res]. destruct Hclean as [-> | (-> & _)]; [done |].
    apply storage_ok_range_files; [done |]. eapply files_ok_subseteq; [apply delete_subseteq | apply Hok]. }
  unfold recover_orphan. destruct (or_validation_status o);
    [by destruct (add_range_to_metadata env o seen st) as [st' [r' | |]], Hadd | | | done];
    by destruct (cleanup_invalid_orphan env o st m) as [[st' m'] [n | |]].
Qed.

(** What a recovery does to the files. *)
Lemma recover_orphan_files env o seen st m now bucket object_key start end_ etag r :
  storage_ok object st -> parse_cache_key (or_cache_key o) = Ok (bucket, object_key) -> is_u64 start -> is_u64 end_ -> end_ < U64_MAX ->
  or_range_file_path o = get_versioned_range_file_path (or_cache_key o) start end_ etag -> or_range_spec o = Some r ->
  parse_range_file now (or_range_file_path o) (or_cache_key o) = Ok r ->
  let '(st', _, res) := recover_orphan env o seen st m in
  (range_files st' = range_files st \/
   range_files st' = base.delete (or_range_file_path o) (range_files st) /\ metadata_files st' = metadata_files st /\
   unreferenced env (or_cache_key o) (or_range_file_path o) st /\ of_no_use (or_cache_key o) start end_ etag st) /\
  forall r', res = Ok (Recovered r') -> range_files st' = range_files st /\ listed_or_journalled (or_cache_key o) r' st' /\
    nr_file_path r' = or_range_file_path o /\ nr_start r' = start /\ nr_end r' = end_.
Proof.
  intros Hok Hk Hs He Hmax Hpath Hr Hparse.
  assert (attributed (or_cache_key o) (or_range_file_path o)) as Hat by (by exists bucket, object_key, start, end_, etag).
  pose proof (add_range_ok env o seen st now r Hok Hat Hr Hparse) as Hadd. pose proof (cleanup_spec env o st m) as Hclean.
  assert (nr_start r = start /\ nr_end r = end_) as [Es Ee] by (rewrite Hpath in Hparse; by eapply parsed_own).
  pose proof (parse_range_file_Ok _ _ _ _ Hparse) as (_ & _ & Hle & _). rewrite Es, Ee in Hle.
  assert (forall st' : Storage, st' = st \/ (st' = set_range_files (base.delete (or_range_file_path o) (range_files st)) st /\
      unreferenced env (or_cache_key o) (or_range_file_path o) st /\
      (forall r, or_range_spec o = Some r -> is_Some (Disk.range_file_version (or_range_file_path o)) ->
        is_orphan_status (validate_orphan_version env (or_range_file_path o) r (load_metadata_for_cache_key (or_cache_key o) st) st) = false)) ->
    range_files st' = range_files st \/
    range_files st' = base.delete (or_range_file_path o) (range_files st) /\ metadata_files st' = metadata_files st /\
    unreferenced env (or_cache_key o) (or_range_file_path o) st /\ of_no_use (or_cache_key o) start end_ etag st) as Hrm.
  { intros st' [-> | (-> & Hun & Hv)]; [by left | right]. split_and!; try done.
    eapply (refused_of_no_use env (or_cache_key o) bucket object_key); try done. rewrite <- Hpath. by apply Hv. }
  unfold recover_orphan. destruct (or_validation_status o).
  - destruct (add_range_to_metadata env o seen st) as [st' [r' | |]]; destruct Hadd as (_ & Hf & _ & Hres);
      (split; [by left |]); intros r2 Hr2; try done. injection Hr2 as ->. destruct (Hres r2 eq_refl) as [-> Hlist]. by split_and!.
  - destruct (cleanup_invalid_orphan env o st m) as [[st' m'] [n | |]]; (split; [apply Hrm | done]); destruct Hclean as [? | (? & _ & ?)]; auto.
  - destruct (cleanup_invalid_orphan env o st m) as [[st' m'] [n | |]]; (split; [apply Hrm | done]); destruct Hclean as [? | (? & _ & ?)]; auto.
  - by split; [left |].
Qed.

End Sound.

(** C17: recovering what a scan reported as orphaned, at any later time and whatever other tasks did in between, keeps the storage sound
    when the file is the range file of the key it was taken for (keys whose paths were hashed are not told apart by a scan): every
    listed range of a version that can be read still holds that version's bytes.  At most the orphan's own file is removed, and only when neither the
    key's metadata nor a readable journal refers to it, the metadata names a version, and the file is of another version, cannot be read, is
    empty, or is smaller than a tenth or larger than twice its range ([of_no_use]; the bounds do reject intact files: [small_orphan_deleted]).  A file
    that was recovered is listed for its key again, with the range it was stored for, and no file is touched. *)
Theorem orphan_recovery_safe `{HashIter} `{PathCodecSpec} `{FrameEncoder} `{FrameCodec} `{HttpDate} `{!Comp.FrameCodecLaws}
    object `{!LayoutSeparates object} percent_decode scan_env bucket prefix max scanned_st os o env seen st m b object_key start end_ etag :
  scan_shard_for_orphans percent_decode scan_env bucket prefix max scanned_st !! or_cache_key o = Some os -> o ∈ os ->
  parse_cache_key (or_cache_key o) = Ok (b, object_key) -> is_u64 start -> is_u64 end_ -> end_ < U64_MAX ->
  or_range_file_path o = get_versioned_range_file_path (or_cache_key o) start end_ etag -> storage_ok object st ->
  let '(st', _, res) := recover_orphan env o seen st m in
  (storage_ok object st' /\ disk_faithful object (disk_of st')) /\
  (range_files st' = range_files st \/
   range_files st' = base.delete (or_range_file_path o) (range_files st) /\ metadata_files st' = metadata_files st /\
   unreferenced env (or_cache_key o) (or_range_file_path o) st /\ of_no_use (or_cache_key o) start end_ etag st) /\
  (forall r, res = Ok (Recovered r) ->
     range_files st' = range_files st /\ listed_or_journalled (or_cache_key o) r st' /\
     nr_file_path r = or_range_file_path o /\ nr_start r = start /\ nr_end r = end_).
Proof.
  intros Hscan Hin Hk Hs He Hmax Hpath Hok.
  destruct (scan_shard_scanned percent_decode scan_env bucket prefix max scanned_st _ _ _ Hscan Hin) as (dir & _ & _ & Hfile).
  apply scan_file_fields in Hfile as (_ & _ & r & Hr & Hparse & _ & _).
  pose proof (recover_orphan_ok object env o seen st m _ r Hok ltac:(by exists b, object_key, start, end_, etag) Hr Hparse) as Hok'.
  pose proof (recover_orphan_files object env o seen st m _ b object_key start end_ etag r Hok Hk Hs He Hmax Hpath Hr Hparse) as Hfiles.
  destruct (recover_orphan env o seen st m) as [[st' m'] res]. cbn [fst] in Hok'.
  split; [split; [done | by apply storage_ok_faithful] | exact Hfiles].
Qed.

Section Recoverable.
Context `{HashIter} `{PathCodecSpec} `{FrameEncoder} `{FrameCodec} `{HttpDate} `{!Comp.FrameCodecLaws}.
Context (object : string -> string -> bytes) `{!LayoutSeparates object}.

(** Where the metadata lists the range as the first of its extent, it loads. *)
Lemma listed_loads now st key bucket object_key m r frame data :
  parse_cache_key key = Ok (bucket, object_key) -> named key r -> nr_end r < U64_MAX ->
  metadata_files st !! get_new_metadata_file_path key = Some (MetaParsed (add_or_update_range r m)) ->
  om_is_write_cached (cm_object_metadata m) = false ->
  range_file_belongs_to r (object_version_id (om_etag (cm_object_metadata m))) = true ->
  range_files st !! nr_file_path r = Some (Disk.Readable frame) -> decompress_data frame = Ok data -> zlen data = nr_end r - nr_start r + 1 ->
  Disk.load_range_data_from_new_storage now (disk_of st) key (stored_range (nr_start r) (nr_end r) (cm_object_metadata m)) = Ok data.
Proof.
  intros Hk Hn Hmax Hm Hw Hb Hf Hd Hlen. unfold Disk.load_range_data_from_new_storage, Disk.find_range_spec, Disk.get_metadata.
  cbn [disk_of Disk.metadata_files stored_range r_etag r_start r_end]. rewrite lookup_omap, Hm. cbn [mbind option_bind parsed_metadata].
  assert (om_is_write_cached (cm_object_metadata (add_or_update_range r m)) = false) as Hw'.
  { unfold add_or_update_range. cbn. destruct (add_or_replace r (cm_ranges m)) as [| x [|]]; [done | | done]. by destruct (_ && _). }
  rewrite Hw'. cbn [andb]. destruct (add_or_update_ranges r m) as (Hranges & _ & Hetag).
  rewrite Hetag, bool_decide_true by done. cbn [negb mbind outcome_bind option_bind].
  rewrite Hranges, add_or_replace_found; [| by rewrite !Z.eqb_refl, Hb |].
  - cbn [mbind outcome_bind]. pose proof Hn as (_ & _ & _ & _ & Hname). destruct (Hname _ Hb) as (Hp & _).
    eapply (read_named st key bucket object_key); try done. by rewrite <- Hp.
  - intros x. rewrite !andb_true_iff, !Z.eqb_eq. tauto.
Qed.

End Recoverable.

(** C18: the file of a range of the object's version that no metadata lists, of a plausible size, is found and recovered: the scan
    reports it as valid, and when the lock and the metadata can be had, recovery lists it again and the range loads with exactly the bytes of the
    file. *)
Theorem orphan_recovered `{HashIter} `{PathCodecSpec} `{FrameEncoder} `{FrameCodec} `{HttpDate} `{!Comp.FrameCodecLaws}
    object `{!LayoutSeparates object} env key bucket object_key start end_ m frame data st metrics :
  storage_ok object st -> split_once "/" key = Some (bucket, object_key) -> parse_cache_key key = Ok (bucket, object_key) ->
  is_u64 start -> start <= end_ < 2 ^ 62 ->
  starts_with (blake3_hex key +:+ "_") (percent_encode FRAGMENT object_key +:+ range_suffix start end_) = false ->
  let om := cm_object_metadata m in
  let path := get_versioned_range_file_path key start end_ (om_etag om) in
  metadata_files st !! get_new_metadata_file_path key = Some (MetaParsed m) -> is_empty_str (om_etag om) = false ->
  om_is_write_cached om = false -> lists_path path (Some m) = false ->
  range_files st !! path = Some (Disk.Readable frame) -> decompress_data frame = Ok data -> zlen data = end_ - start + 1 ->
  (end_ - start + 1) / 10 <= zlen frame <= (end_ - start + 1) * 2 -> frame <> [] ->
  se_lock (re_store env) = None -> se_write_meta (re_store env) = None ->
  exists o, scan_file env key (load_metadata_for_cache_key key st) path st = Some o /\ or_validation_status o = Valid /\
    let '(st', _, res) := recover_orphan env o st st metrics in
    exists r, res = Ok (Recovered r) /\ nr_file_path r = path /\
      forall now, Disk.load_range_data_from_new_storage now (disk_of st') key (stored_range start end_ om) = Ok data.
Proof.
  intros Hok Hsplit Hk Hs [Hle Hmax] Hfree om path Hm Hne Hw Hlists Hf Hd Hlen Hsize Hframe Hlock Hwrite.
  assert (is_u64 end_ /\ end_ < U64_MAX) as [He Hmax'] by (unfold is_u64, U64_MAX in *; lia).
  assert (load_metadata_for_cache_key key st = Some m) as Hload
    by (unfold load_metadata_for_cache_key; rewrite (metadata_path_sharded key bucket object_key Hk); by rewrite Hm).
  pose proof (parse_own_file (re_now env) key bucket object_key start end_ (om_etag om) Hsplit Hk Hs He Hle Hfree) as Hparse. cbv zeta in Hparse. fold path in Hparse.
  destruct (own_file key bucket object_key start end_ (om_etag om) Hk Hs He) as (_ & _ & _ & Hversion & _). fold path in Hversion.
  set (r0 := mkNewRangeSpec _ _ _ _ _ _ _ _ _ _) in Hparse.
  assert (validate_orphan_version env path r0 (Some m) st = Valid) as Hvalid.
  { unfold validate_orphan_version. rewrite Hversion. cbn [fmap option_fmap option_map]. fold om. rewrite Hne.
    assert (eq_ignore_ascii_case (object_version_id (om_etag om)) (object_version_id (om_etag om)) = true) as ->
      by (unfold eq_ignore_ascii_case; by apply bool_decide_eq_true). cbn [negb].
    unfold validate_range_file, file_length. rewrite Hf. cbn [nr_start nr_end r0]. unfold is_u64 in *. u64.
    assert (zlen frame <> 0) by (destruct frame; [done | unfold zlen; cbn; lia]).
    destruct (Z.eqb_spec (zlen frame) 0); [done |]. destruct (Z.ltb_spec (zlen frame) ((end_ - start + 1) / 10)); [lia |].
    destruct (Z.ltb_spec ((end_ - start + 1) * 2) (zlen frame)); [lia | done]. }
  unfold scan_file. rewrite Hload, Hparse. cbn [nr_file_path r0]. rewrite Hlists, Hvalid. eexists. split; [done |]. split; [done |].
  unfold recover_orphan, add_range_to_metadata. cbn [or_validation_status or_range_spec or_range_file_path or_cache_key or_file_size].
  unfold relative_range_path, path. rewrite (range_path_safe key bucket object_key) by done. fold path.
  assert (matching_object key path st = Some om) as ->.
  { unfold matching_object. rewrite Hload, version_of_name, Hversion. cbn [mbind option_bind]. fold om. rewrite Hne. unfold object_version_id.
    unfold eq_ignore_ascii_case. by rewrite bool_decide_true. }
  set (r := set_file_path _ _). unfold write_range_metadata.
  assert (named key r) as Hn by (eapply (parsed_named (re_now env)); [exists bucket, object_key, start, end_, (om_etag om); done | done]).
  pose proof (write_hybrid_succeeds object (re_store env) key bucket object_key r m 0 st Hk Hok Hlock Hwrite Hm Hne) as Hh. fold om in Hh.
  destruct (write_hybrid _ _ _ _ _ _) as [st' res]. destruct Hh as (-> & Hf' & Hm').
  exists r. split; [done |]. split; [done |]. intros now.
  apply (listed_loads now st' key bucket object_key m r frame data); try done; [| by rewrite Hf'].
  rewrite (range_path_belongs key start end_ (om_etag om)) by done. by apply bool_decide_eq_true.
Qed.

(** ** The order of the queue *)

(** Each orphan is in the list of its score. *)
Definition tiers_ok (q : RecoveryQueue) : Prop :=
  Forall (fun p => 80 <= po_priority_score p) (rq_high q) /\ Forall (fun p => 40 <= po_priority_score p < 80) (rq_medium q) /\
  Forall (fun p => po_priority_score p < 40) (rq_low q).

Definition queued (q : RecoveryQueue) : list PrioritizedOrphan := rq_high q ++ rq_medium q ++ rq_low q.

Lemma push_tiers p q : tiers_ok q -> tiers_ok (push_orphan p q).
Proof.
  intros (Hh & Hm & Hl). unfold push_orphan.
  destruct (Z.leb_spec 80 (po_priority_score p)) as [H80 | H80]; [| destruct (Z.leb_spec 40 (po_priority_score p)) as [H40 | H40]];
    split_and!; cbn; try done; apply Forall_app_2; try done; by constructor; [lia |].
Qed.

Lemma queue_tiers `{HashIter} now config orphans q : tiers_ok q -> tiers_ok (queue_orphans_for_recovery now config orphans q).
Proof.
  intros Hq. unfold queue_orphans_for_recovery. generalize (hash_iter orphans). intros groups.
  assert (forall os q, tiers_ok q -> tiers_ok (foldl (queue_orphan now config) q os)) as Hos.
  { induction os as [| o os IH]; intros q' Hq'; cbn; [done |]. apply IH. unfold queue_orphan.
    destruct (bool_decide _); [done | by apply push_tiers]. }
  assert (tiers_ok (foldl (queue_group now config) q groups)) as (Hh & Hm & Hl).
  { revert q Hq. induction groups as [| g gs IH]; intros q Hq; cbn; [done |]. apply IH. unfold queue_group.
    destruct (bool_decide _); [done | by apply Hos]. }
  destruct (rc_enable_priority_recovery config); [| done]. unfold tiers_ok, by_score. cbn. by rewrite !sort_by_key_perm.
Qed.

(** After queueing, the orphan taken next has the highest score of all that wait. *)
Lemma next_orphan_highest `{HashIter} now config orphans q p q' :
  rc_enable_priority_recovery config = true -> tiers_ok q ->
  get_next_orphan_from_queue (queue_orphans_for_recovery now config orphans q) = Some (p, q') ->
  Forall (fun p' => po_priority_score p' <= po_priority_score p) (queued q').
Proof.
  intros He Hq. pose proof (queue_tiers now config orphans q Hq) as Ht. revert Ht. unfold queue_orphans_for_recovery. rewrite He.
  set (q1 := foldl _ _ _). intros (Hh & Hm & Hl). unfold get_next_orphan_from_queue, queued. cbn in *.
  assert (forall l x rest, by_score l = x :: rest -> Forall (fun p' => po_priority_score p' <= po_priority_score x) rest) as Hs.
  { intros l x rest E. pose proof (sort_by_key_sorted (fun p => - po_priority_score p) l) as Hs. fold (by_score l) in Hs. rewrite E in Hs.
    apply StronglySorted_inv in Hs as [_ Hs]. eapply Forall_impl; [exact Hs |]. unfold key_le. intros y ?. lia. }
  destruct (by_score (rq_high q1)) as [| x high] eqn:Eh.
  - destruct (by_score (rq_medium q1)) as [| x medium] eqn:Em.
    + destruct (by_score (rq_low q1)) as [| x low] eqn:El; [done |]. intros [= <- <-]. cbn. by eapply Hs.
    + intros [= <- <-]. cbn. apply Forall_cons in Hm as [Hx Hm]. apply Forall_app. split; [by eapply Hs |].
      eapply Forall_impl; [exact Hl |]. cbn. lia.
  - intros [= <- <-]. cbn. apply Forall_cons in Hh as [Hx Hh]. apply Forall_app. split; [by eapply Hs |]. apply Forall_app.
    split; (eapply Forall_impl; [done |]; cbn; lia).
Qed.

(** Scores run from 0 to 100. *)
Lemma priority_score_bounds now config o : 0 <= or_access_frequency o <= 100 -> 0 <= calculate_priority_score now config o <= 100.
Proof.
  intros Hf. unfold calculate_priority_score. u64.
  assert (0 <= Z.min (or_access_frequency o * 40 / 100) 40 <= 40) by (pose proof (Z.div_pos (or_access_frequency o * 40) 100 ltac:(lia) ltac:(lia)); lia).
  set (f := Z.min _ 40) in *.
  set (a := if 100 * 1024 * 1024 <? _ then _ else _). assert (0 <= a <= 20) by (unfold a; repeat case_match; lia).
  set (b := match or_last_accessed o with Some _ => _ | None => _ end). assert (0 <= b <= 20) by (unfold b; repeat case_match; lia).
  set (c := match or_validation_status o with Valid => _ | _ => _ end). assert (0 <= c <= 20) by (unfold c; repeat case_match; lia).
  assert (0 <= (f + a + b + c) / 2 <= 50) by (split; [apply Z.div_pos; lia | apply Z.div_le_upper_bound; lia]).
  clearbody a b c f. destruct (or_access_frequency o <? _); lia.
Qed.

(** As long as the shards of a bucket stay the same, every one of them is scanned once in as many cycles as there are shards. *)
Lemma every_shard_scanned cycle shards shard : 0 <= cycle -> shard ∈ shards ->
  exists k, 0 <= k < zlen shards /\ select_shard (cycle + k) shards = Some shard.
Proof.
  intros Hc [i Hi]%list_elem_of_lookup. pose proof (lookup_lt_Some _ _ _ Hi) as Hlt.
  assert (0 < zlen shards) as Hpos by (unfold zlen; lia). pose proof (Z.mod_pos_bound cycle (zlen shards) Hpos) as Hm.
  exists ((Z.of_nat i - cycle) mod zlen shards). split; [by apply Z.mod_pos_bound |]. unfold select_shard.
  rewrite Zplus_mod_idemp_r. replace (cycle + (Z.of_nat i - cycle)) with (Z.of_nat i) by lia.
  rewrite Z.mod_small, Nat2Z.id by (unfold zlen; lia). done.
Qed.

Lemma subsecond_interval_panics config now : rc_scan_interval_secs config = 0 -> cycle_number config now = Panic.
Proof. unfold cycle_number. by intros ->. Qed.

(** ** Samples *)

#[local] Existing Instance map_order.
#[local] Existing Instance sample_codec.
#[local] Existing Instance sample_codec_spec.
#[local] Existing Instance Comp.stored_only.
#[local] Existing Instance Comp.stored_reader.
#[local] Existing Instance Comp.stored_reader_laws.
#[local] Existing Instance no_dates.

Definition page : bytes := repeat Byte.x07 40.

Definition page_object : string -> string -> bytes := fun _ _ => page.

#[local] Instance page_layout : LayoutSeparates page_object.
Proof. by split. Qed.

(** The file is published and the journal cannot be written. *)
Definition cut_short : store_env :=
  mkStoreEnv (fun n => 1000 + Z.of_nat n) "/cache" "h:1" "uuid" None None None None None (fun _ => true)
    JournalDirFails (fun _ => Locked false None) true true.

Definition page_om : ObjectMetadata := ObjectMetadata_new "v1" "" 40 None.

Definition with_orphan : Storage := (store_range cut_short "b/k" 0 39 page page_om 60 true empty_storage).1.

Definition recovery_sample : recovery_env :=
  mkRecoveryEnv sample_env (fun _ => true) (fun _ => None) (fun _ => true) (fun _ => None) 5000 (fun _ => false).

Definition no_metrics : RecoveryMetrics := mkRecoveryMetrics 0 0 0 0 0 0.

Definition page_path : string := get_versioned_range_file_path "b/k" 0 39 "v1".

Definition page_frame : bytes := match range_files with_orphan !! page_path with Some (Disk.Readable frame) => frame | _ => [] end.

Definition page_metadata : NewCacheMetadata :=
  match metadata_files with_orphan !! get_new_metadata_file_path "b/k" with
  | Some (MetaParsed m) => m
  | _ => new_metadata "" page_om 0 0
  end.

Lemma empty_page_storage_ok : storage_ok page_object empty_storage.
Proof.
  split.
  - intros key etag s e frame data _ _ _ Hl. cbn in Hl. by rewrite lookup_empty in Hl.
  - intros path m Hl. cbn in Hl. by rewrite lookup_empty in Hl.
  - intros name ls e Hl. cbn in Hl. by rewrite lookup_empty in Hl.
Qed.

Lemma with_orphan_ok : storage_ok page_object with_orphan.
Proof.
  apply (store_range_ok page_object cut_short "b/k" 0 39 page page_om 60 true empty_storage); [exact empty_page_storage_ok | unfold is_u64; lia | unfold is_u64; lia | unfold U64_MAX; lia | reflexivity].
Qed.

Definition sample_scan : gmap string (list OrphanedRange) :=
  scan_shard_for_orphans (fun s => Some s) recovery_sample "b" (string_take 2 (blake3_hex "k")) 100 with_orphan.

Definition sample_orphan : OrphanedRange :=
  match sample_scan !! "b/k" with Some (o :: _) => o | _ => mkOrphan "" "" None Unknown 0 None 0 end.

Lemma orphan_recovery_safe_witness :
  or_validation_status sample_orphan = Valid /\ or_range_file_path sample_orphan = page_path /\
  storage_ok page_object (recover_orphan recovery_sample sample_orphan with_orphan with_orphan no_metrics).1.1.
Proof.
  split; [vm_compute; reflexivity |]. split; [vm_compute; reflexivity |].
  pose proof (orphan_recovery_safe page_object (fun s => Some s) recovery_sample "b" (string_take 2 (blake3_hex "k")) 100 with_orphan
    [sample_orphan] sample_orphan recovery_sample with_orphan with_orphan no_metrics "b" "k" 0 39 "v1") as Hsafe.
  destruct (recover_orphan recovery_sample sample_orphan with_orphan with_orphan no_metrics) as [[st' m'] res].
  apply Hsafe; [vm_compute; reflexivity | left | vm_compute; reflexivity | unfold is_u64; lia | unfold is_u64; lia | unfold U64_MAX; lia | | exact with_orphan_ok].
  vm_compute. reflexivity.
Defined.

Lemma orphan_recovered_witness :
  exists o, scan_file recovery_sample "b/k" (load_metadata_for_cache_key "b/k" with_orphan) page_path with_orphan = Some o /\
    or_validation_status o = Valid.
Proof.
  destruct (orphan_recovered page_object recovery_sample "b/k" "b" "k" 0 39 page_metadata page_frame page with_orphan no_metrics)
    as (o & Ho & Hv & _); [exact with_orphan_ok | try (vm_compute; reflexivity).. |].
  - unfold is_u64. lia.
  - lia.
  - vm_compute. split; congruence.
  - vm_compute. congruence.
  - exists o. split; [exact Ho | exact Hv].
Defined.

(** ** Where the code and its purpose part *)

(** A file more than twice the size of its range counts as invalid; the frame around a few bytes is that large. *)
Lemma framed_range_invalid env path r frame st :
  range_files st !! path = Some (Disk.Readable frame) -> is_u64 (nr_start r) -> nr_start r <= nr_end r < 2 ^ 62 ->
  (nr_end r - nr_start r + 1) * 2 < zlen frame -> validate_range_file env path r st = Invalid.
Proof.
  intros Hf Hs He Hl. unfold validate_range_file, file_length. rewrite Hf. unfold is_u64 in *. u64. destruct (_ =? _); [done |].
  destruct (Z.ltb_spec ((nr_end r - nr_start r + 1) * 2) (zlen frame)); [| lia]. by rewrite orb_true_r.
Qed.

(** A stored object of six bytes, of the current version, whose journal entry was lost, is deleted instead of recovered. *)
Definition small_orphan : Storage := (store_range cut_short "b/k" 0 5 (take 6 page) page_om 60 true empty_storage).1.

Lemma small_orphan_deleted :
  exists o, scan_file recovery_sample "b/k" (load_metadata_for_cache_key "b/k" small_orphan) (get_versioned_range_file_path "b/k" 0 5 "v1") small_orphan = Some o /\
    Disk.range_file_version (or_range_file_path o) = Some (object_version_id "v1") /\
    or_validation_status o = Invalid /\
    range_files (recover_orphan recovery_sample o small_orphan small_orphan no_metrics).1.1 !! get_versioned_range_file_path "b/k" 0 5 "v1" = None.
Proof. eexists. split; [vm_compute; reflexivity |]. split_and!; vm_compute; reflexivity. Qed.

(** A recovered file is not added to the size of the cache, from which its eviction subtracts it: neither the store that was cut short nor
    the recovery counts it. *)
Lemma recovered_range_uncounted :
  or_validation_status sample_orphan = Valid /\ 0 < or_file_size sample_orphan /\
  accumulator (recover_orphan recovery_sample sample_orphan with_orphan with_orphan no_metrics).1.1 = accumulator empty_storage.
Proof. split_and!; vm_compute; reflexivity. Qed.

End Orphans.
