(* ===== verification/DiskRuns.v ===== *)
(** * Every writer of the disk, in any order

    Stores, consolidation cycles, the cleanup of a multipart upload, eviction from both tiers,
    the recovery of orphaned files and unlinked files as one step relation, with the invariant the reading side needs
    by induction on runs. *)

From S2P Require Import Prelude CacheTypes Ranges RangeMerge Maps MetadataCache DiskPaths DiskRanges Frames.
From S2P Require Import CacheTier SizeAccounting Storage DiskStore Consolidate Eviction WriteCache OrphanRecovery RustStr.
From stdpp Require Import gmap strings relations.

#[local] Open Scope Z_scope.

Module Runs.
Import Store DStore Cons.

Section Runs.
Context `{HashIter} `{PathCodec} `{FrameEncoder} `{FrameCodec} `{HttpDate}.
Context (object : string -> string -> bytes).

(** One operation on the shared storage.  A store is given what the version holds
    at the range; everything else it meets, and what fails, is open.  An orphan a scan of any earlier
    storage reported is a file of the key it is taken for. *)
Inductive disk_step : Storage -> Storage -> Prop :=
  | step_store env key start end_ data om ttl compression st :
      is_u64 start -> is_u64 end_ -> end_ < U64_MAX ->
      data = sub_list (object key (om_etag om)) start (start + zlen data) ->
      disk_step st (store_range env key start end_ data om ttl compression st).1
  | step_cycle env cycle_env fates max_keys size_env objects_env st f :
      disk_step st (journal_cycle env cycle_env fates max_keys size_env objects_env st f).1
  | step_multipart_cleanup readable write_ok key st :
      disk_step st (cleanup_journal_entries_for_cache_key readable write_ok key st).1
  | step_eviction_entries io now instance es st :
      disk_step st (write_eviction_journal_entries io now instance es st)
  | step_eviction env cons cycle_env objects_env current max skip f dir n st :
      disk_step st (Evict.es_storage (Evict.perform_eviction_with_lock env cons cycle_env objects_env current max skip
                                        (Evict.mkEvictState st f dir n)).1)
  | step_staged_eviction env key f dir n mgr outside st :
      disk_step st (WCache.sg_storage (WCache.evict_write_cached_object env key
                                         (WCache.mkStagedState (Evict.mkEvictState st f dir n) mgr outside)).1)
  | step_marked_evicted rs st : disk_step st (mark_ranges_evicted rs st)
  | step_evicted_mark_cleared key start end_ st :
      disk_step st (check_and_clear_evicted_range key start end_ st).1
  | step_recovery percent_decode scan_env bucket prefix max scanned_st os o env seen m st :
      Orphans.scan_shard_for_orphans percent_decode scan_env bucket prefix max scanned_st !! Orphans.or_cache_key o = Some os -> o ∈ os ->
      Orphans.attributed (Orphans.or_cache_key o) (Orphans.or_range_file_path o) ->
      disk_step st (Orphans.recover_orphan env o seen st m).1.1
  | step_unlinked p st : disk_step st (set_range_files (base.delete p (range_files st)) st).

Lemma remove_entries_ok readable write_ok path key st :
  storage_ok object st -> storage_ok object (remove_entries_from_journal_file readable write_ok path key st).1.
Proof.
  intros [Hf Hm Hj]. unfold remove_entries_from_journal_file.
  destruct (journal_files st !! path) as [ls |] eqn:El; [| by constructor]. destruct (negb _); [by constructor |].
  destruct (_ && _); [| by constructor]. constructor; [done | done |]. intros name ls' e Hl Hin.
  cbn [fst set_journal_files journal_files] in Hl.
  destruct (base.filter _ (parsed_lines ls)) as [| k ks] eqn:Ek.
  - apply lookup_delete_Some in Hl as [_ Hl]. by apply (Hj name ls' e).
  - destruct (decide (name = path)) as [-> | Hne]; [| rewrite lookup_insert_ne in Hl by done; by apply (Hj name ls' e)].
    rewrite lookup_insert_eq in Hl. injection Hl as <-. change (Parsed e ∈ Parsed <$> (k :: ks)) in Hin. rewrite <- Ek in Hin.
    apply list_elem_of_fmap in Hin as (e' & [= <-] & Hin). apply list_elem_of_filter in Hin as [_ Hin].
    by apply (Hj path ls e El), parsed_lines_elem.
Qed.

Lemma multipart_cleanup_ok readable write_ok key st :
  storage_ok object st -> storage_ok object (cleanup_journal_entries_for_cache_key readable write_ok key st).1.
Proof.
  unfold cleanup_journal_entries_for_cache_key. destruct (negb _); [done |].
  generalize (hash_iter (journal_files st)).*1 0. intros ps. revert st.
  induction ps as [| p ps IH]; intros st count Hok; cbn; [done |]. destruct (is_journal_name p); [| by apply IH].
  pose proof (remove_entries_ok readable (write_ok p) p key st Hok) as Hr.
  destruct (remove_entries_from_journal_file _ _ _ _ _) as [st1 n]. by apply IH.
Qed.

Lemma journal_cycle_ok env cycle_env fates max_keys size_env objects_env st f :
  storage_ok object st ->
  storage_ok object (journal_cycle env cycle_env fates max_keys size_env objects_env st f).1.
Proof.
  intros Hok. unfold journal_cycle. destruct (hash_iter (key_index _)) as [| k ks]; [done |].
  pose proof (consolidate_keys_ok object env fates (k :: ks) [] 0 0 st Hok) as Hk.
  destruct (consolidate_keys env fates (k :: ks) [] 0 0 st) as [st1 [[handled wc] n]]. cbn [fst].
  by apply cleanup_consolidated_ok.
Qed.

Lemma disk_step_ok `{!PathCodecSpec} `{!LayoutSeparates object} `{!Comp.FrameCodecLaws} st st' :
  disk_step st st' -> storage_ok object st -> storage_ok object st'.
Proof.
  intros Hstep Hok.
  destruct Hstep as [| | | | | | | | percent_decode scan_env bucket prefix max scanned_st os o env seen m st Hscan Hin Hat |].
  - by apply store_range_ok.
  - by apply journal_cycle_ok.
  - by apply multipart_cleanup_ok.
  - by apply eviction_entries_ok.
  - by apply Evict.perform_eviction_ok.
  - by apply WCache.evict_write_cached_object_ok.
  - destruct Hok as [Hf Hm Hj]. by constructor.
  - eapply sweeps_ok; [apply (check_evicted_sweeps (fun _ => False)) | done].
  - destruct (Orphans.scan_shard_scanned percent_decode scan_env bucket prefix max scanned_st _ _ _ Hscan Hin) as (dir & _ & _ & Hfile).
    apply Orphans.scan_file_fields in Hfile as (_ & _ & r & Hr & Hparse & _). by eapply Orphans.recover_orphan_ok.
  - apply storage_ok_range_files; [done |]. eapply files_ok_subseteq; [apply delete_subseteq | apply Hok].
Qed.

End Runs.

(** C12: no run corrupts the cache.  From a sound storage, whatever sequence of
    stores, consolidation cycles, cleanups, evictions from both tiers, recoveries and unlinked files follows,
    in whatever order and whatever fails in each, every listed range of a version
    that can be read holds exactly that version's bytes. *)
Theorem runs_keep_faithful `{HashIter} `{PathCodecSpec} `{FrameEncoder} `{FrameCodec} `{HttpDate}
    `{!Comp.FrameCodecLaws} object `{!LayoutSeparates object} st st' :
  storage_ok object st -> rtc (disk_step object) st st' ->
  storage_ok object st' /\ disk_faithful object (disk_of st').
Proof.
  intros Hok Hrun. assert (storage_ok object st') as Hok'
    by (induction Hrun as [st | st1 st2 st3 Hstep _ IH]; [done | by eapply IH, disk_step_ok]).
  split; [done | by apply storage_ok_faithful].
Qed.

(** ** A run *)

#[local] Existing Instance map_order.
#[local] Existing Instance sample_codec.
#[local] Existing Instance sample_codec_spec.
#[local] Existing Instance Comp.stored_only.
#[local] Existing Instance Comp.stored_reader.
#[local] Existing Instance Comp.stored_reader_laws.
#[local] Existing Instance no_dates.
#[local] Existing Instance sample_layout.

Lemma runs_keep_faithful_witness :
  let st := (cleanup_journal_entries_for_cache_key (fun _ => true) (fun _ => true) "b/k/x" sample_stored).1 in
  storage_ok sample_object st /\ disk_faithful sample_object (disk_of st).
Proof.
  apply (runs_keep_faithful sample_object empty_storage); [exact empty_storage_ok |].
  eapply rtc_l; [apply (step_store sample_object sample_env "b/k/x" 0 5 Disk.sample_bytes sample_om 60 true) |].
  - unfold is_u64. lia.
  - unfold is_u64. lia.
  - unfold U64_MAX. lia.
  - reflexivity.
  - eapply rtc_once. apply step_multipart_cleanup.
Defined.

End Runs.
