(* ===== verification/Bandwidth.v ===== *)
(** * Download bandwidth ([bandwidth_limiter.rs])

    The token bucket, the deficit round-robin scheduler of blocked requests, the
    bounded per-class byte counts, the fairness key of a request and the share of a
    fleet's ceiling.  The scheduler's task shares only the bucket with the streams:
    its functions take what other threads do to the bucket before each of its own
    accesses. *)

From S2P Require Import Prelude RustStr CacheTypes Maps Floats.
From stdpp Require Import gmap strings.

#[local] Open Scope Z_scope.

Module Bw.

Definition LEASE_QUANTUM : Z := Z.shiftl 1 20.

Definition BURST_WINDOW : Z := 100000000.

Definition burst_capacity (ceiling_bps : Z) : Z :=
  f64_to_u64 (f64_mul (u64_to_f64 ceiling_bps) (as_secs_f64 BURST_WINDOW)).

(** ** Fairness keys *)

Inductive FairnessKey := Caller (value : string) | Bucket (name : string) | Default.

#[global] Instance FairnessKey_eq_dec : EqDecision FairnessKey.
Proof. solve_decision. Defined.

#[global] Instance FairnessKey_countable : Countable FairnessKey.
Proof.
  refine (inj_countable'
    (fun k => match k with Caller v => inl v | Bucket b => inr (Some b) | Default => inr None end)
    (fun x : string + option string =>
       match x with inl v => Caller v | inr (Some b) => Bucket b | inr None => Default end) _).
  by intros [].
Defined.

Definition label (k : FairnessKey) : string :=
  match k with
  | Caller v => "ua:" +:+ v
  | Bucket b => "bkt:" +:+ b
  | Default => "default"
  end.

(** [logging.rs]: characters that would break a log line are escaped. *)
Definition log_char (a : ascii) : string :=
  if ascii_eqb a (Ascii.ascii_of_nat 13) then "\r"
  else if ascii_eqb a (Ascii.ascii_of_nat 10) then "\n"
  else if ascii_eqb a (Ascii.ascii_of_nat 34) then String "\" (String (Ascii.ascii_of_nat 34) EmptyString)
  else String a EmptyString.

Fixpoint sanitize_log_field (field : string) : string :=
  match field with
  | EmptyString => EmptyString
  | String a field => log_char a +:+ sanitize_log_field field
  end.

Definition extract_app_token (ua : string) : option string :=
  start ← find_str "app/" ua;
  let after_app := string_drop (start + 4) ua in
  let token := match split_once " " after_app with Some (token, _) => token | None => after_app end in
  if is_empty_str token then None else Some token.

Record CallerIdConfig := mkCallerId { caller_enabled : bool; max_len : Z }.

(** A compiled expression is the set of strings it matches in. *)
Definition resolve_fairness_key (headers : gmap string string) (resolved_bucket : option string)
    (cfg : CallerIdConfig) (compiled_regex : option (string -> bool)) : FairnessKey :=
  let fallback := match resolved_bucket with
                  | Some b => if is_empty_str b then Default else Bucket b
                  | None => Default
                  end in
  if negb (caller_enabled cfg) then fallback else
  let ua := match headers !! "user-agent" with
            | Some ua => ua
            | None => default "" (headers !! "User-Agent")
            end in
  match extract_app_token ua with
  | Some token =>
      if (Z.of_nat (String.length token) <=? max_len cfg)
         && match compiled_regex with Some is_match => is_match token | None => true end
      then Caller (sanitize_log_field token) else fallback
  | None => fallback
  end.

(** ** The token bucket

    One access of a thread to the bucket.  The compare-exchange loops only retry
    until one exchange succeeds on the value it read, so each is one access. *)

Inductive bucket_op :=
  | OpAcquire (min_bytes desired : Z)
  | OpRefund (bytes cap : Z)
  | OpRefill (to_add : Z) (cap : option Z)
  | OpTake (needed : Z)
  | OpStore (value : Z).

(** The tokens left and the tokens handed out. *)
Definition exec (op : bucket_op) (tokens : Z) : Z * Z :=
  match op with
  | OpAcquire min_bytes desired =>
      if tokens <? min_bytes then (tokens, 0)
      else let granted := Z.min tokens desired in (tokens - granted, granted)
  | OpRefund bytes cap => (Z.min (saturating_add tokens bytes) cap, 0)
  | OpRefill to_add cap =>
      (match cap with Some cap => Z.min (saturating_add tokens to_add) cap | None => saturating_add tokens to_add end, 0)
  | OpTake needed => if tokens <? needed then (tokens, 0) else (tokens - needed, needed)
  | OpStore value => (value, 0)
  end.

Record Limiter := mkLimiter { ceiling_bps : Z; available_tokens : Z }.

Definition is_disabled (l : Limiter) : bool := ceiling_bps l =? 0.

Definition set_tokens (t : Z) (l : Limiter) : Limiter := mkLimiter (ceiling_bps l) t.

Definition set_ceiling_bps (bps : Z) (l : Limiter) : Limiter := mkLimiter bps (available_tokens l).

Definition limiter_new (max_bytes_per_sec : Z) : Limiter :=
  if max_bytes_per_sec =? 0 then mkLimiter 0 0
  else mkLimiter max_bytes_per_sec (burst_capacity max_bytes_per_sec).

Definition limiter_disabled : Limiter := mkLimiter 0 0.

Definition try_acquire (min_bytes desired : Z) (l : Limiter) : Limiter * option Z :=
  if is_disabled l then (l, Some desired) else
  if available_tokens l <? min_bytes then (l, None) else
  let '(t, granted) := exec (OpAcquire min_bytes desired) (available_tokens l) in
  (set_tokens t l, Some granted).

Definition refund (bytes : Z) (l : Limiter) : Limiter :=
  if (bytes =? 0) || is_disabled l then l
  else set_tokens (exec (OpRefund bytes (burst_capacity (ceiling_bps l))) (available_tokens l)).1 l.

(** ** The scheduler *)

(** A blocked request; the channel it is granted on is its number. *)
Record DrrRequest := mkReq { req_key : FairnessKey; req_bytes : Z; grant_tx : nat }.

Record ClassState := mkClass { deficit : Z; queue : list DrrRequest }.

Record Drr := mkDrr { classes : gmap FairnessKey ClassState; rr_order : list FairnessKey; failopen_total : Z }.

(** The bucket as the task meets it: the accesses so far, its own and the others',
    and what the others do before its next ones. *)
Record cell := mkCell { tok : Z; history : list bucket_op; others : list (list bucket_op) }.

Definition run_ops (ops : list bucket_op) (t : Z) : Z := foldl (fun t op => (exec op t).1) t ops.

Definition interfere (c : cell) : cell :=
  match others c with
  | [] => c
  | ops :: rest => mkCell (run_ops ops (tok c)) (history c ++ ops) rest
  end.

Definition own (op : bucket_op) (c : cell) : cell :=
  mkCell (exec op (tok c)).1 (history c ++ [op]) (others c).

(** Taking tokens for the waiter at the head; nothing asked is nothing got. *)
Definition take_tokens (needed : Z) (c : cell) : cell * bool :=
  let c := interfere c in
  if tok c <? needed then (c, false) else (own (OpTake needed) c, negb (needed =? 0)).

(** The loop over the waiters of a class: the waiters woken, in order. *)
Fixpoint serve_queue (d : Z) (q : list DrrRequest) (c : cell) : cell * (Z * list DrrRequest * list DrrRequest) :=
  match q with
  | [] => (c, (d, [], []))
  | r :: q' =>
      if d <? req_bytes r then (c, (d, q, [])) else
      match take_tokens (req_bytes r) c with
      | (c, true) =>
          let '(c, (d, q, woken)) := serve_queue (d - req_bytes r) q' c in (c, (d, q, r :: woken))
      | (c, false) => (c, (d, q, []))
      end
  end.

(** The burst cap, once no class is left; a load and then a store. *)
Definition reapply_cap (ceiling : Z) (s : Drr) (c : cell) : cell :=
  if bool_decide (classes s = ∅) then
    let c := interfere c in
    if burst_capacity ceiling <? tok c then own (OpStore (burst_capacity ceiling)) (interfere c) else c
  else c.

Fixpoint serve_pass (n : nat) (ceiling : Z) (s : Drr) (c : cell) : Drr * cell * list DrrRequest :=
  match n with
  | O => (s, c, [])
  | S n =>
      match rr_order s with
      | [] => (s, c, [])
      | key :: order =>
          match classes s !! key with
          | Some (mkClass d ((_ :: _) as q)) =>
              let '(c, (d, q, woken)) := serve_queue (saturating_add d LEASE_QUANTUM) q c in
              let s := match q with
                       | [] => mkDrr (base.delete key (classes s)) order (failopen_total s)
                       | _ => mkDrr (<[key:=mkClass d q]> (classes s)) (order ++ [key]) (failopen_total s)
                       end in
              let c := reapply_cap ceiling s c in
              let '(s, c, rest) := serve_pass n ceiling s c in
              (s, c, woken ++ rest)
          | _ => serve_pass n ceiling (mkDrr (base.delete key (classes s)) order (failopen_total s)) c
          end
      end
  end.

Definition serve_waiters (ceiling : Z) (s : Drr) (c : cell) : Drr * cell * list DrrRequest :=
  serve_pass (length (rr_order s)) ceiling s c.

Definition has_pending (s : Drr) : bool :=
  existsb (fun kc => negb (bool_decide (queue kc.2 = []))) (map_to_list (classes s)).

Definition drain_all (s : Drr) : Drr * list DrrRequest :=
  let woken := flat_map (fun kc => queue kc.2) (map_to_list (classes s)) in
  (mkDrr ∅ [] (u64_add (failopen_total s) (zlen woken)), woken).

Definition enqueue (r : DrrRequest) (s : Drr) : Drr :=
  let c := default (mkClass 0 []) (classes s !! req_key r) in
  mkDrr (<[req_key r:=mkClass (deficit c) (queue c ++ [r])]> (classes s))
    (match queue c with [] => rr_order s ++ [req_key r] | _ => rr_order s end) (failopen_total s).

(** One turn of the task: the refill timer, or a new blocked request. *)
Inductive drr_event := Tick | Recv (r : DrrRequest).

Definition drr_turn (ceiling : Z) (ev : drr_event) (s : Drr) (c : cell) : Drr * cell * list DrrRequest :=
  match ev with
  | Tick =>
      if ceiling =? 0 then let '(s, woken) := drain_all s in (s, c, woken) else
      let c := own (OpRefill (burst_capacity ceiling)
                      (if has_pending s then None else Some (burst_capacity ceiling))) (interfere c) in
      serve_waiters ceiling s c
  | Recv r => if ceiling =? 0 then (s, c, [r]) else serve_waiters ceiling (enqueue r s) c
  end.

Definition drr_start : Drr := mkDrr ∅ [] 0.

(** The task over its events, with the ceiling each finds. *)
Fixpoint drr_task (evs : list (Z * drr_event)) (s : Drr) (c : cell) : Drr * cell * list DrrRequest :=
  match evs with
  | [] => (s, c, [])
  | (ceiling, ev) :: evs =>
      let '(s, c, woken) := drr_turn ceiling ev s c in
      let '(s, c, rest) := drr_task evs s c in
      (s, c, woken ++ rest)
  end.

(** ** Bytes by class *)

Record TopKTracker := mkTopK { cap : nat; counts : gmap string Z; residual : Z }.

Definition topk_new (n : nat) : TopKTracker := mkTopK (Nat.max n 1) ∅ 0.

(** The first entry of least count, in the order the iterator visits. *)
Definition min_entry (l : list (string * Z)) : option (string * Z) :=
  foldl (fun best e => match best with
                       | Some b => if e.2 <? b.2 then Some e else Some b
                       | None => Some e
                       end) None l.

Definition record `{HashIter} (lbl : string) (bytes : Z) (t : TopKTracker) : TopKTracker :=
  match counts t !! lbl with
  | Some n => mkTopK (cap t) (<[lbl:=u64_add n bytes]> (counts t)) (residual t)
  | None =>
      if (size (counts t) <? cap t)%nat then mkTopK (cap t) (<[lbl:=bytes]> (counts t)) (residual t)
      else match min_entry (hash_iter (counts t)) with
           | Some (min_key, min_count) =>
               mkTopK (cap t) (<[lbl:=u64_add min_count bytes]> (base.delete min_key (counts t)))
                 (u64_add (residual t) min_count)
           | None => mkTopK (cap t) (counts t) (u64_add (residual t) bytes)
           end
  end.

Definition record_bytes `{HashIter} (k : FairnessKey) (bytes : Z) (t : TopKTracker) : TopKTracker :=
  if 0 <? bytes then record (label k) bytes t else t.

(** ** The share of a fleet *)

Definition compute_local_ceiling (aggregate_bps instance_count : Z) : Z :=
  if aggregate_bps =? 0 then 0 else Z.max (aggregate_bps / Z.max instance_count 1) 1.

(** A directory entry of the heartbeats: its name, whether it is a file, and its
    modification time where it can be read. *)
Record heartbeat := mkHeartbeat { hb_name : string; hb_is_file : bool; hb_mtime : option Z }.

(** [Path::extension] of a file name. *)
Definition has_extension (ext name : string) : bool :=
  match rsplit_once "." name with Some (stem, e) => negb (is_empty_str stem) && bool_decide (e = ext) | None => false end.

(** [SystemTime::checked_sub], the epoch where it fails. *)
Definition time_checked_sub (now d : Z) : Z :=
  if now - d <? - 2 ^ 63 * NANOS_PER_SEC then 0 else now - d.

(** The live instances, and the heartbeats that are removed. *)
Definition count_live_instances (now staleness : Z) (entries : list heartbeat) : Z * list string :=
  let cutoff := time_checked_sub now staleness in
  let cleanup_cutoff := time_checked_sub now (Z.max (staleness * 10) (600 * NANOS_PER_SEC)) in
  let '(count, dead) := foldl (fun '(count, dead) h =>
    if negb (has_extension "qos" (hb_name h)) || negb (hb_is_file h) then (count, dead) else
    match hb_mtime h with
    | Some mtime => if cutoff <=? mtime then (count + 1, dead)
                    else if mtime <? cleanup_cutoff then (count, dead ++ [hb_name h]) else (count, dead)
    | None => (count, dead)
    end) (0, []) entries in
  (Z.max count 1, dead).

(** One refresh of the fleet task: the count it had, and the one it got or failed
    to get. *)
Definition fleet_refresh (aggregate_bps fallback last_n : Z) (counted : option Z) (l : Limiter) : Limiter * Z :=
  let n := default last_n counted in
  (set_ceiling_bps (compute_local_ceiling aggregate_bps (Z.max n fallback)) l, n).

(** ** The bucket never hands out what it was not given *)

Definition refilled (ops : list bucket_op) : Z :=
  sum_by (fun op => match op with OpRefill n _ => n | _ => 0 end) ops.

Definition refunded (ops : list bucket_op) : Z :=
  sum_by (fun op => match op with OpRefund n _ => n | _ => 0 end) ops.

Fixpoint handed_out (ops : list bucket_op) (t : Z) : Z :=
  match ops with [] => 0 | op :: ops => (exec op t).2 + handed_out ops (exec op t).1 end.

(** Tokens a store of the cap puts back after others took them. *)
Fixpoint minted (ops : list bucket_op) (t : Z) : Z :=
  match ops with
  | [] => 0
  | op :: ops => match op with OpStore v => Z.max (v - t) 0 | _ => 0 end + minted ops (exec op t).1
  end.

Definition op_ok (op : bucket_op) : Prop :=
  match op with
  | OpAcquire m d => 0 <= m /\ 0 <= d
  | OpRefund n cap => 0 <= n /\ 0 <= cap
  | OpRefill n cap => 0 <= n /\ match cap with Some cap => 0 <= cap | None => True end
  | OpTake n => 0 <= n
  | OpStore v => 0 <= v
  end.

Lemma exec_bound op t : op_ok op -> 0 <= t ->
  0 <= (exec op t).1 /\ 0 <= (exec op t).2 /\
  (exec op t).2 + (exec op t).1 <= t + refilled [op] + refunded [op] + minted [op] t.
Proof.
  intros Hop Ht. destruct op as [m d | n c | n [c |] | n | v]; cbn in *; unfold saturating_add, U64_MAX.
  - destruct (Z.ltb_spec t m); cbn; lia.
  - lia.
  - lia.
  - lia.
  - destruct (Z.ltb_spec t n); cbn; lia.
  - lia.
Qed.

Lemma run_ops_app ops ops' t : run_ops (ops ++ ops') t = run_ops ops' (run_ops ops t).
Proof. apply foldl_app. Qed.

Lemma handed_out_app ops ops' t : handed_out (ops ++ ops') t = handed_out ops t + handed_out ops' (run_ops ops t).
Proof. revert t. induction ops as [| op ops IH]; intros t; cbn; [done |]. rewrite IH. unfold run_ops. cbn. lia. Qed.

Lemma bucket_bound ops t :
  Forall op_ok ops -> 0 <= t ->
  0 <= run_ops ops t /\ handed_out ops t + run_ops ops t <= t + refilled ops + refunded ops + minted ops t.
Proof.
  intros Hops. revert t. induction Hops as [| op ops Hop Hops IH]; intros t Ht; [cbn; lia |].
  destruct (exec_bound op t Hop Ht) as (H1 & H2 & H3). destruct (IH (exec op t).1 H1) as [H4 H5].
  cbn [run_ops foldl handed_out minted]. fold (run_ops ops (exec op t).1). split; [done |].
  unfold refilled, refunded in *. rewrite !sum_by_cons in *. rewrite !sum_by_nil in H3. cbn [minted] in H3. lia.
Qed.

(** ** What the scheduler keeps *)

Definition bytes_of (rs : list DrrRequest) : Z := sum_by req_bytes rs.

Definition queue_of (k : FairnessKey) (s : Drr) : list DrrRequest :=
  match classes s !! k with Some c => queue c | None => [] end.

Definition of_key (k : FairnessKey) (rs : list DrrRequest) : list DrrRequest :=
  base.filter (fun r => req_key r = k) rs.

(** The rotation lists each class with waiters once, and no other. *)
Record drr_ok (s : Drr) : Prop := {
  do_nodup : NoDup (rr_order s);
  do_order k : k ∈ rr_order s <-> is_Some (classes s !! k);
  do_class k c : classes s !! k = Some c ->
    queue c <> [] /\ Forall (fun r => req_key r = k /\ 0 < req_bytes r) (queue c) /\ 0 <= deficit c;
}.

Lemma of_key_same k rs : Forall (fun r => req_key r = k) rs -> of_key k rs = rs.
Proof.
  induction 1 as [| r rs Hr Hrs IH]; [done |]. unfold of_key in *. rewrite filter_cons_True by done. by rewrite IH.
Qed.

Lemma of_key_other k k' rs : k <> k' -> Forall (fun r => req_key r = k') rs -> of_key k rs = [].
Proof.
  intros Hne. induction 1 as [| r rs Hr Hrs IH]; [done |]. unfold of_key in *. rewrite filter_cons_False by congruence.
  exact IH.
Qed.

Lemma of_key_app k rs rs' : of_key k (rs ++ rs') = of_key k rs ++ of_key k rs'.
Proof. apply filter_app. Qed.

Lemma bytes_of_app rs rs' : bytes_of (rs ++ rs') = bytes_of rs + bytes_of rs'.
Proof. apply sum_by_app. Qed.

Lemma serve_queue_spec d q c c' d' q' woken :
  serve_queue d q c = (c', (d', q', woken)) ->
  Forall (fun r => 0 < req_bytes r) q -> 0 <= d ->
  q = woken ++ q' /\ d' = d - bytes_of woken /\ 0 <= d' /\
  (others c = [] -> others c' = [] /\ tok c' = tok c - bytes_of woken /\
    match q' with [] => True | r :: _ => d' < req_bytes r \/ tok c' < req_bytes r end).
Proof.
  revert d c c' d' q' woken. induction q as [| r q IH]; intros d c c' d' q' woken E Hq Hd.
  { injection E as <- <- <- <-. unfold bytes_of, sum_by. cbn. split_and!; try done; try lia. intros Ho.
    split_and!; try done. lia. }
  apply Forall_cons in Hq as [Hr Hq]. cbn [serve_queue] in E.
  destruct (Z.ltb_spec d (req_bytes r)) as [Hlt | Hge].
  { injection E as <- <- <- <-. unfold bytes_of, sum_by. cbn. split_and!; try done; try lia. intros Ho.
    split_and!; try done; try lia. }
  unfold take_tokens in E. destruct (Z.ltb_spec (tok (interfere c)) (req_bytes r)) as [Ht | Ht].
  { injection E as <- <- <- <-. unfold bytes_of, sum_by. cbn. split_and!; try done; try lia. intros Ho.
    unfold interfere in *. rewrite Ho in *. split_and!; try done; try lia. }
  destruct (Z.eqb_spec (req_bytes r) 0) as [| _]; [lia |]. cbn [negb] in E.
  destruct (serve_queue (d - req_bytes r) q (own (OpTake (req_bytes r)) (interfere c))) as [c1 [[d1 q1] w1]] eqn:E1.
  injection E as <- <- <- <-. destruct (IH _ _ _ _ _ _ E1 Hq) as (-> & -> & H3 & H4); [lia |].
  unfold bytes_of in *. rewrite sum_by_cons. split_and!; [done | lia | lia |]. intros Ho.
  unfold interfere in *. rewrite Ho in *. destruct H4 as (H5 & H6 & H7); [done |]. split_and!; [done | | done].
  rewrite H6. cbn. destruct (Z.ltb_spec (tok c) (req_bytes r)); cbn; lia.
Qed.

(** One class served: the step of a pass. *)
Lemma serve_step_ok s key order d q d' q' (s' : Drr) :
  drr_ok s -> rr_order s = key :: order -> classes s !! key = Some (mkClass d q) -> 0 <= d' ->
  Forall (fun r => req_key r = key /\ 0 < req_bytes r) q' ->
  s' = match q' with
       | [] => mkDrr (base.delete key (classes s)) order (failopen_total s)
       | _ => mkDrr (<[key:=mkClass d' q']> (classes s)) (order ++ [key]) (failopen_total s)
       end ->
  drr_ok s' /\ (forall k, queue_of k s' = if decide (k = key) then q' else queue_of k s) /\
  (forall k, k <> key -> classes s' !! k = classes s !! k).
Proof.
  intros [Hnd Hord Hcl] Ho Hc Hd Hq' ->. rewrite Ho in Hnd. apply NoDup_cons in Hnd as [Hnk Hnd].
  assert (Hother : forall k, k <> key -> k ∈ order <-> is_Some (classes s !! k)).
  { intros k Hne. rewrite <- Hord, Ho, elem_of_cons. tauto. }
  destruct q' as [| r q']; (split; [split |]).
  - done.
  - intros k. cbn. destruct (decide (k = key)) as [-> | Hne].
    + rewrite lookup_delete_eq. split; [done | by intros [? ?]].
    + rewrite lookup_delete_ne by done. by apply Hother.
  - intros k c. cbn. intros Hl. apply lookup_delete_Some in Hl as [_ Hl]. by apply Hcl.
  - unfold queue_of. cbn. split; [| intros k Hne; by rewrite lookup_delete_ne].
    intros k. destruct (decide (k = key)) as [-> | Hne]; [by rewrite lookup_delete_eq | by rewrite lookup_delete_ne].
  - cbn. apply NoDup_app. split_and!; [done | | apply NoDup_singleton]. intros k Hk ->%list_elem_of_singleton. done.
  - intros k. cbn. rewrite elem_of_app, list_elem_of_singleton. destruct (decide (k = key)) as [-> | Hne].
    + rewrite lookup_insert_eq. split; [done | by right].
    + rewrite lookup_insert_ne by done. rewrite <- Hother by done. tauto.
  - intros k c. cbn. destruct (decide (k = key)) as [-> | Hne].
    + rewrite lookup_insert_eq. intros [= <-]. done.
    + rewrite lookup_insert_ne by done. apply Hcl.
  - unfold queue_of. cbn. split; [| intros k Hne; by rewrite lookup_insert_ne].
    intros k. destruct (decide (k = key)) as [-> | Hne]; [by rewrite lookup_insert_eq | by rewrite lookup_insert_ne].
Qed.

Lemma quantum_pos : 0 < LEASE_QUANTUM.
Proof. done. Qed.

Definition deficit_of (k : FairnessKey) (s : Drr) : Z :=
  match classes s !! k with Some c => deficit c | None => 0 end.

(** The first class of the rotation, served. *)
Lemma serve_pass_cons n ceiling s c key order s' c' woken :
  drr_ok s -> rr_order s = key :: order -> serve_pass (S n) ceiling s c = (s', c', woken) ->
  exists d q c1 d1 q1 w1 s1 w2,
    classes s !! key = Some (mkClass d q) /\
    serve_queue (saturating_add d LEASE_QUANTUM) q c = (c1, (d1, q1, w1)) /\
    q = w1 ++ q1 /\ Forall (fun r => req_key r = key /\ 0 < req_bytes r) q /\ 0 <= d /\
    d1 = saturating_add d LEASE_QUANTUM - bytes_of w1 /\ 0 <= d1 /\ drr_ok s1 /\
    rr_order s1 = order ++ match q1 with [] => [] | _ => [key] end /\
    (forall k, queue_of k s1 = if decide (k = key) then q1 else queue_of k s) /\
    (forall k, k <> key -> classes s1 !! k = classes s !! k) /\
    classes s1 !! key = match q1 with [] => None | _ => Some (mkClass d1 q1) end /\
    serve_pass n ceiling s1 (reapply_cap ceiling s1 c1) = (s', c', w2) /\ woken = w1 ++ w2.
Proof.
  intros Hok Ho E. cbn [serve_pass] in E. rewrite Ho in E.
  destruct (classes s !! key) as [[d q] |] eqn:Ec.
  2: { destruct (proj1 (do_order s Hok key)) as [? ?]; [rewrite Ho; left | congruence]. }
  destruct (do_class s Hok key _ Ec) as (Hne & Hq & Hd). cbn in Hne, Hq, Hd.
  destruct q as [| r q]; [done |]. set (q0 := r :: q) in *.
  destruct (serve_queue (saturating_add d LEASE_QUANTUM) q0 c) as [c1 [[d1 q1] w1]] eqn:Es.
  assert (Hs : 0 <= saturating_add d LEASE_QUANTUM) by (pose proof quantum_pos; unfold saturating_add, U64_MAX; lia).
  destruct (serve_queue_spec _ _ _ _ _ _ _ Es) as (Eq & Ed & Hd1 & _); [by eapply Forall_impl; [exact Hq |]; intros ? [_ ?] | done |].
  assert (Hq1 : Forall (fun r => req_key r = key /\ 0 < req_bytes r) q1) by (rewrite Eq in Hq; by apply Forall_app in Hq as [_ Hq]).
  cbv zeta in E. match type of E with context [reapply_cap ceiling ?s1 c1] => set (s1' := s1) in * end.
  destruct (serve_step_ok s key order d q0 d1 q1 s1' Hok Ho Ec Hd1 Hq1 eq_refl) as (Hok1 & Hqo & Hco).
  destruct (serve_pass n ceiling s1' (reapply_cap ceiling s1' c1)) as [[s2 c2] w2] eqn:Ep. injection E as <- <- <-.
  exists d, q0, c1, d1, q1, w1, s1', w2. split_and!; try done.
  - unfold s1'. destruct q1; cbn; [by rewrite app_nil_r | done].
  - unfold s1'. destruct q1; cbn; [apply lookup_delete_eq | apply lookup_insert_eq].
Qed.

Lemma of_key_woken k key w : Forall (fun r => req_key r = key /\ 0 < req_bytes r) w ->
  of_key k w = if decide (k = key) then w else [].
Proof.
  intros Hw. assert (Forall (fun r => req_key r = key) w) by (by eapply Forall_impl; [exact Hw |]; intros ? [? _]).
  destruct (decide (k = key)) as [-> | Hne]; [by apply of_key_same | by eapply of_key_other].
Qed.

Lemma serve_pass_spec ceiling todo : forall dn s c s' c' woken,
  drr_ok s -> rr_order s = todo ++ dn -> serve_pass (length todo) ceiling s c = (s', c', woken) ->
  drr_ok s' /\
  (forall k, queue_of k s = of_key k woken ++ queue_of k s') /\
  (forall k, k ∉ todo -> of_key k woken = [] /\ classes s' !! k = classes s !! k) /\
  (forall k, k ∈ todo -> bytes_of (of_key k woken) + deficit_of k s' <= deficit_of k s + LEASE_QUANTUM).
Proof.
  induction todo as [| key todo IH]; intros dn s c s' c' woken Hok Ho E.
  { injection E as <- <- <-. split_and!; try done. intros k Hk. by apply elem_of_nil in Hk. }
  destruct (serve_pass_cons _ _ _ _ _ _ _ _ _ Hok Ho E)
    as (d & q & c1 & d1 & q1 & w1 & s1 & w2 & Ec & _ & Eq & Hq & Hd & Ed & Hd1 & Hok1 & Ho1 & Hqo & Hco & Hck & Ep & ->).
  rewrite <- app_assoc in Ho1. destruct (IH _ _ _ _ _ _ Hok1 Ho1 Ep) as (Hok' & HQ & Hout & Hin).
  assert (Hw1 : Forall (fun r => req_key r = key /\ 0 < req_bytes r) w1) by (rewrite Eq in Hq; by apply Forall_app in Hq as [? _]).
  pose proof (do_nodup s Hok) as Hnd. rewrite Ho in Hnd. cbn in Hnd. apply NoDup_cons in Hnd as [Hnk Hnd].
  assert (Hkt : key ∉ todo) by (intros Hk; apply Hnk, elem_of_app; by left).
  split_and!; [done | | |].
  - intros k. rewrite of_key_app, <- app_assoc, <- HQ, Hqo, (of_key_woken k key w1 Hw1).
    destruct (decide (k = key)) as [-> | Hne]; [| done]. unfold queue_of. by rewrite Ec.
  - intros k Hk. apply not_elem_of_cons in Hk as [Hne Hk]. destruct (Hout k Hk) as [Hw Hc].
    rewrite of_key_app, (of_key_woken k key w1 Hw1), Hw, Hc, decide_False by done. split; [done | by apply Hco].
  - intros k Hk. rewrite of_key_app, bytes_of_app, (of_key_woken k key w1 Hw1).
    destruct (decide (k = key)) as [-> | Hne].
    + destruct (Hout key Hkt) as [-> Hc]. unfold deficit_of. rewrite Hc, Hck, Ec. unfold bytes_of at 2. rewrite sum_by_nil.
      unfold saturating_add, U64_MAX in Ed. destruct q1; cbn; lia.
    + apply elem_of_cons in Hk as [? | Hk]; [done |]. specialize (Hin k Hk). unfold deficit_of in *. rewrite (Hco k) in Hin by done.
      unfold bytes_of at 1. rewrite sum_by_nil. lia.
Qed.

Lemma serve_waiters_spec ceiling s c s' c' woken :
  drr_ok s -> serve_waiters ceiling s c = (s', c', woken) ->
  drr_ok s' /\
  (forall k, queue_of k s = of_key k woken ++ queue_of k s') /\
  (forall k, bytes_of (of_key k woken) + deficit_of k s' <= deficit_of k s + LEASE_QUANTUM).
Proof.
  intros Hok E. destruct (serve_pass_spec ceiling (rr_order s) [] s c s' c' woken Hok) as (Hok' & HQ & Hout & Hin);
    [by rewrite app_nil_r | done |]. split_and!; [done | done |]. intros k.
  destruct (decide (k ∈ rr_order s)) as [Hk | Hk]; [by apply Hin |]. destruct (Hout k Hk) as [-> Hc].
  unfold deficit_of. rewrite Hc. unfold bytes_of. rewrite sum_by_nil. pose proof quantum_pos. lia.
Qed.

Lemma enqueue_ok r s :
  drr_ok s -> 0 < req_bytes r ->
  drr_ok (enqueue r s) /\ (forall k, queue_of k (enqueue r s) = queue_of k s ++ of_key k [r]) /\
  (forall k, deficit_of k (enqueue r s) = deficit_of k s).
Proof.
  intros [Hnd Hord Hcl] Hr. unfold enqueue. set (key := req_key r).
  set (cl := default (mkClass 0 []) (classes s !! key)).
  assert (Hcl' : Forall (fun x => req_key x = key /\ 0 < req_bytes x) (queue cl) /\ 0 <= deficit cl /\
    (queue cl = [] <-> classes s !! key = None)).
  { unfold cl. destruct (classes s !! key) as [c |] eqn:Ec; cbn.
    - destruct (Hcl key c Ec) as (Hne & Hf & Hd). by split_and!.
    - by split_and!. }
  destruct Hcl' as (Hq & Hd & Hnone).
  assert (Hmem : forall k, k ∈ match queue cl with [] => rr_order s ++ [key] | _ => rr_order s end <-> k = key \/ k ∈ rr_order s).
  { intros k. destruct (queue cl) as [| x xs] eqn:Eq; [rewrite elem_of_app, list_elem_of_singleton; tauto |].
    split; [by right |]. intros [-> | Hk]; [| done]. apply Hord. destruct (classes s !! key); [by eexists |].
    discriminate (proj2 Hnone eq_refl). }
  split; [split | split].
  - cbn. destruct (queue cl) as [| x xs] eqn:Eq; [| done]. apply NoDup_app. split_and!; [done | | apply NoDup_singleton].
    intros k Hk ->%list_elem_of_singleton. apply Hord in Hk as [? ?]. rewrite (proj1 Hnone) in *; done.
  - intros k. cbn. rewrite Hmem. destruct (decide (k = key)) as [-> | Hne].
    + rewrite lookup_insert_eq. split; [done | by left].
    + rewrite lookup_insert_ne by done. rewrite <- Hord. tauto.
  - intros k c. cbn. destruct (decide (k = key)) as [-> | Hne].
    + rewrite lookup_insert_eq. intros [= <-]. cbn. split_and!; [by destruct (queue cl) | | done].
      apply Forall_app. split; [done |]. by constructor.
    + rewrite lookup_insert_ne by done. apply Hcl.
  - intros k. unfold queue_of, of_key. cbn [classes]. destruct (decide (k = key)) as [-> | Hne].
    + rewrite lookup_insert_eq, filter_cons_True by done. cbn. unfold cl. by destruct (classes s !! key).
    + rewrite lookup_insert_ne, filter_cons_False by done. cbn. by rewrite app_nil_r.
  - intros k. unfold deficit_of. cbn. destruct (decide (k = key)) as [-> | Hne].
    + rewrite lookup_insert_eq. cbn. unfold cl. by destruct (classes s !! key).
    + by rewrite lookup_insert_ne.
Qed.

Definition received (evs : list (Z * drr_event)) : list DrrRequest :=
  omap (fun ev => match ev.2 with Recv r => Some r | Tick => None end) evs.

(** Events under a ceiling, with requests that ask for something. *)
Definition event_ok (ev : Z * drr_event) : Prop :=
  ev.1 <> 0 /\ match ev.2 with Recv r => 0 < req_bytes r | Tick => True end.

Lemma drr_turn_spec ceiling ev s c s' c' woken :
  drr_ok s -> event_ok (ceiling, ev) -> drr_turn ceiling ev s c = (s', c', woken) ->
  drr_ok s' /\
  (forall k, queue_of k s ++ of_key k (received [(ceiling, ev)]) = of_key k woken ++ queue_of k s') /\
  (forall k, bytes_of (of_key k woken) + deficit_of k s' <= deficit_of k s + LEASE_QUANTUM).
Proof.
  intros Hok [Hne Hev] E. unfold drr_turn in E. cbn in Hne, Hev. destruct ev as [| r].
  - destruct (Z.eqb_spec ceiling 0); [done |]. destruct (serve_waiters_spec _ _ _ _ _ _ Hok E) as (H1 & H2 & H3).
    split_and!; [done | | done]. intros k. cbn. by rewrite app_nil_r, H2.
  - destruct (Z.eqb_spec ceiling 0); [done |]. destruct (enqueue_ok r s Hok Hev) as (Hok1 & Hq & Hd).
    destruct (serve_waiters_spec _ _ _ _ _ _ Hok1 E) as (H1 & H2 & H3).
    split_and!; [done | | intros k; by rewrite <- Hd]. intros k. cbn. by rewrite <- H2, Hq.
Qed.

Lemma drr_task_spec evs : forall s c s' c' woken,
  drr_ok s -> Forall event_ok evs -> drr_task evs s c = (s', c', woken) ->
  drr_ok s' /\
  (forall k, queue_of k s ++ of_key k (received evs) = of_key k woken ++ queue_of k s') /\
  (forall k, bytes_of (of_key k woken) + deficit_of k s' <= deficit_of k s + zlen evs * LEASE_QUANTUM).
Proof.
  induction evs as [| [ceiling ev] evs IH]; intros s c s' c' woken Hok Hev E.
  { injection E as <- <- <-. split_and!; [done | |]; intros k; cbn; [by rewrite app_nil_r |].
    change (bytes_of []) with 0. unfold zlen. cbn. lia. }
  apply Forall_cons in Hev as [He Hev]. cbn [drr_task] in E.
  destruct (drr_turn ceiling ev s c) as [[s1 c1] w1] eqn:Et. destruct (drr_task evs s1 c1) as [[s2 c2] w2] eqn:Er.
  injection E as <- <- <-. destruct (drr_turn_spec _ _ _ _ _ _ _ Hok He Et) as (Hok1 & Q1 & B1).
  destruct (IH _ _ _ _ _ Hok1 Hev Er) as (Hok2 & Q2 & B2). split_and!; [done | |]; intros k.
  - assert (received ((ceiling, ev) :: evs) = received [(ceiling, ev)] ++ received evs) as ->
      by (unfold received; cbn; by destruct ev).
    by rewrite !of_key_app, app_assoc, Q1, <- !app_assoc, Q2.
  - rewrite of_key_app, bytes_of_app, zlen_cons. specialize (B1 k). specialize (B2 k). lia.
Qed.

Lemma drr_start_ok : drr_ok drr_start.
Proof. split; cbn; [constructor | |]; intros k; [| intros c]; rewrite lookup_empty; [| done]. split; [by intros ?%elem_of_nil | by intros [? ?]]. Qed.

(** Blocked requests are granted in order and once.  Whatever streams do to the
    bucket meanwhile, after any sequence of refills and arrivals under a ceiling the
    requests of each fairness class are split, in the order they came, into those
    woken and those still queued; the rotation lists exactly the classes with
    waiters; and no class has been woken for more than one lease quantum per turn. *)
Theorem drr_grants_in_order evs c :
  Forall event_ok evs ->
  let '(s', _, woken) := drr_task evs drr_start c in
  drr_ok s' /\
  forall k, of_key k (received evs) = of_key k woken ++ queue_of k s' /\
    bytes_of (of_key k woken) <= zlen evs * LEASE_QUANTUM.
Proof.
  intros Hev. destruct (drr_task evs drr_start c) as [[s' c'] woken] eqn:E.
  destruct (drr_task_spec _ _ _ _ _ _ drr_start_ok Hev E) as (Hok & HQ & HB). split; [done |]. intros k.
  specialize (HQ k). specialize (HB k). unfold queue_of, deficit_of in *. cbn in *. rewrite lookup_empty in *. split; [done |].
  destruct (classes s' !! k) as [cl |] eqn:Ec; [destruct (do_class s' Hok k cl Ec) as (_ & _ & ?) |]; lia.
Qed.

(** ** The rate *)

Lemma burst_capacity_nonneg c : 0 <= burst_capacity c.
Proof. unfold burst_capacity. apply f64_to_u64_range. Qed.

(** What the scheduler took, and what the streams acquired. *)
Fixpoint taken (ops : list bucket_op) (t : Z) : Z :=
  match ops with
  | [] => 0
  | op :: ops => match op with OpTake _ => (exec op t).2 | _ => 0 end + taken ops (exec op t).1
  end.

Fixpoint acquired (ops : list bucket_op) (t : Z) : Z :=
  match ops with
  | [] => 0
  | op :: ops => match op with OpAcquire _ _ => (exec op t).2 | _ => 0 end + acquired ops (exec op t).1
  end.

Lemma handed_out_split ops t : handed_out ops t = taken ops t + acquired ops t.
Proof. revert t. induction ops as [| op ops IH]; intros t; cbn; [done |]. rewrite IH. destruct op; cbn; lia. Qed.

Lemma taken_app ops ops' t : taken (ops ++ ops') t = taken ops t + taken ops' (run_ops ops t).
Proof. revert t. induction ops as [| op ops IH]; intros t; cbn; [done |]. rewrite IH. unfold run_ops. cbn. lia. Qed.

Lemma refilled_app ops ops' : refilled (ops ++ ops') = refilled ops + refilled ops'.
Proof. apply sum_by_app. Qed.

(** What streams do to the bucket. *)
Definition stream_op (op : bucket_op) : Prop :=
  op_ok op /\ match op with OpAcquire _ _ | OpRefund _ _ => True | _ => False end.

Lemma stream_ops_free ops t : Forall stream_op ops -> taken ops t = 0 /\ refilled ops = 0 /\ Forall op_ok ops.
Proof.
  intros Hops. revert t. induction Hops as [| op ops [Hop Hs] Hops IH]; intros t; [done |].
  destruct (IH (exec op t).1) as (E1 & E2 & E3). unfold refilled in *. rewrite sum_by_cons, E2. cbn [taken]. rewrite E1.
  split_and!; [by destruct op | by destruct op | by constructor].
Qed.

Lemma minted_app ops ops' t : minted (ops ++ ops') t = minted ops t + minted ops' (run_ops ops t).
Proof. revert t. induction ops as [| op ops IH]; intros t; cbn; [done |]. rewrite IH. unfold run_ops. cbn. lia. Qed.

(** Accesses from one state of the bucket to another, of which the scheduler took
    [w] tokens and refilled [f]; alone, it mints none. *)
Definition advances (c c' : cell) (w f : Z) : Prop :=
  Forall (Forall stream_op) (others c) ->
  Forall (Forall stream_op) (others c') /\ (others c = [] -> others c' = []) /\
  exists ops, history c' = history c ++ ops /\ tok c' = run_ops ops (tok c) /\ Forall op_ok ops /\
    taken ops (tok c) = w /\ refilled ops = f /\ (others c = [] -> minted ops (tok c) = 0).

Lemma advances_refl c : advances c c 0 0.
Proof. intros Ho. split_and!; [done | done |]. exists []. rewrite app_nil_r. by split_and!. Qed.

Lemma advances_trans c1 c2 c3 w f w' f' : advances c1 c2 w f -> advances c2 c3 w' f' -> advances c1 c3 (w + w') (f + f').
Proof.
  intros A1 A2 Ho. destruct (A1 Ho) as (Ho2 & N1 & ops & H1 & T1 & K1 & <- & <- & M1).
  destruct (A2 Ho2) as (Ho3 & N2 & ops' & H2 & T2 & K2 & <- & <- & M2). split_and!; [done | by eauto |]. exists (ops ++ ops').
  rewrite H2, H1, app_assoc, run_ops_app, T2, T1, taken_app, refilled_app, minted_app. split_and!; try done.
  - by apply Forall_app.
  - intros E. rewrite (M1 E), <- T1, (M2 (N1 E)). lia.
Qed.

Lemma interfere_alone c : others c = [] -> interfere c = c.
Proof. intros E. unfold interfere. by rewrite E. Qed.

Lemma interfere_advances c : advances c (interfere c) 0 0.
Proof.
  unfold interfere. destruct (others c) as [| ops rest] eqn:Eo; [apply advances_refl |]. intros Ho.
  rewrite Eo in *. apply Forall_cons in Ho as [Hops Ho]. destruct (stream_ops_free ops (tok c) Hops) as (E1 & E2 & E3).
  split_and!; [done | done |]. exists ops. by split_and!.
Qed.

Lemma own_interfere_advances op c :
  op_ok op -> match op with OpStore v => others c = [] -> v <= tok c | _ => True end ->
  advances c (own op (interfere c)) (taken [op] (tok (interfere c))) (refilled [op]).
Proof.
  intros Hop Hst Ho. destruct (interfere_advances c Ho) as (Ho1 & N1 & ops & H1 & T1 & K1 & W1 & F1 & M1).
  split_and!; [done | done |]. exists (ops ++ [op]). cbn [own history tok].
  rewrite H1, app_assoc, run_ops_app, taken_app, refilled_app, minted_app, W1, F1, <- T1. split_and!; try done.
  - apply Forall_app. split; [done | by constructor].
  - intros E. rewrite (M1 E), (interfere_alone c E). destruct op; cbn; try done. specialize (Hst E). lia.
Qed.

Lemma serve_queue_advances q : forall d c c' d' q' woken,
  serve_queue d q c = (c', (d', q', woken)) -> Forall (fun r => 0 < req_bytes r) q -> advances c c' (bytes_of woken) 0.
Proof.
  induction q as [| r q IH]; intros d c c' d' q' woken E Hq; [injection E as <- <- <- <-; apply advances_refl |].
  apply Forall_cons in Hq as [Hr Hq]. cbn [serve_queue] in E.
  destruct (Z.ltb_spec d (req_bytes r)); [injection E as <- <- <- <-; apply advances_refl |].
  unfold take_tokens in E. destruct (Z.ltb_spec (tok (interfere c)) (req_bytes r)) as [Ht | Ht].
  { injection E as <- <- <- <-. apply interfere_advances. }
  destruct (Z.eqb_spec (req_bytes r) 0) as [| _]; [lia |]. cbn [negb] in E.
  destruct (serve_queue (d - req_bytes r) q _) as [c1 [[d1 q1] w1]] eqn:E1. injection E as <- <- <- <-.
  pose proof (own_interfere_advances (OpTake (req_bytes r)) c (Z.lt_le_incl _ _ Hr) I) as A.
  assert (Htaken : taken [OpTake (req_bytes r)] (tok (interfere c)) = req_bytes r).
  { cbn. destruct (Z.ltb_spec (tok (interfere c)) (req_bytes r)); cbn; lia. }
  rewrite Htaken in A. unfold bytes_of. rewrite sum_by_cons.
  exact (advances_trans _ _ _ _ _ _ _ A (IH _ _ _ _ _ _ E1 Hq)).
Qed.

Lemma reapply_cap_advances ceiling s c : advances c (reapply_cap ceiling s c) 0 0.
Proof.
  unfold reapply_cap. case_bool_decide; [| apply advances_refl].
  destruct (Z.ltb_spec (burst_capacity ceiling) (tok (interfere c))) as [Hlt | _]; [| apply interfere_advances].
  refine (advances_trans _ _ _ _ _ _ _ (interfere_advances c)
    (own_interfere_advances (OpStore (burst_capacity ceiling)) (interfere c) (burst_capacity_nonneg ceiling) _)).
  intros _. lia.
Qed.

Lemma serve_pass_advances ceiling n : forall s c s' c' woken,
  drr_ok s -> serve_pass n ceiling s c = (s', c', woken) -> advances c c' (bytes_of woken) 0.
Proof.
  induction n as [| n IH]; intros s c s' c' woken Hok E; [injection E as <- <- <-; apply advances_refl |].
  destruct (rr_order s) as [| key order] eqn:Ho;
    [cbn [serve_pass] in E; rewrite Ho in E; injection E as <- <- <-; apply advances_refl |].
  destruct (serve_pass_cons _ _ _ _ _ _ _ _ _ Hok Ho E)
    as (d & q & c1 & d1 & q1 & w1 & s1 & w2 & Ec & Es & Eq & Hq & Hd & Ed & Hd1 & Hok1 & Ho1 & Hqo & Hco & Hck & Ep & ->).
  assert (Hpos : Forall (fun r => 0 < req_bytes r) q) by (by eapply Forall_impl; [exact Hq |]; intros ? [_ ?]).
  rewrite bytes_of_app. exact (advances_trans _ _ _ _ _ _ _ (serve_queue_advances _ _ _ _ _ _ _ Es Hpos)
    (advances_trans _ _ _ _ _ _ _ (reapply_cap_advances ceiling s1 c1) (IH _ _ _ _ _ Hok1 Ep))).
Qed.

(** The tokens the refills of a run add. *)
Definition refills (evs : list (Z * drr_event)) : Z :=
  sum_by (fun ev => match ev.2 with Tick => burst_capacity ev.1 | Recv _ => 0 end) evs.

Lemma drr_task_advances evs : forall s c s' c' woken,
  drr_ok s -> Forall event_ok evs -> drr_task evs s c = (s', c', woken) -> advances c c' (bytes_of woken) (refills evs).
Proof.
  induction evs as [| [ceiling ev] evs IH]; intros s c s' c' woken Hok Hev E; [injection E as <- <- <-; apply advances_refl |].
  apply Forall_cons in Hev as [He Hev]. cbn [drr_task] in E.
  destruct (drr_turn ceiling ev s c) as [[s1 c1] w1] eqn:Et. destruct (drr_task evs s1 c1) as [[s2 c2] w2] eqn:Er.
  injection E as <- <- <-. destruct (drr_turn_spec _ _ _ _ _ _ _ Hok He Et) as (Hok1 & _ & _).
  rewrite bytes_of_app. unfold refills. rewrite sum_by_cons. eapply advances_trans; [| by eapply IH].
  destruct He as [Hne He]. cbn in Hne, He. unfold drr_turn in Et. cbn [fst snd].
  destruct ev as [| r]; (destruct (Z.eqb_spec ceiling 0); [done |]).
  - assert (Hop : op_ok (OpRefill (burst_capacity ceiling) (if has_pending s then None else Some (burst_capacity ceiling)))).
    { split; [apply burst_capacity_nonneg |]. destruct (has_pending s); [done | apply burst_capacity_nonneg]. }
    pose proof (advances_trans _ _ _ _ _ _ _ (own_interfere_advances _ c Hop I) (serve_pass_advances _ _ _ _ _ _ _ Hok Et)) as A.
    unfold refilled in A. rewrite sum_by_cons, sum_by_nil in A. cbn [taken] in A. by rewrite !Z.add_0_r, Z.add_0_l in A.
  - eapply serve_pass_advances; [| exact Et]. by apply enqueue_ok.
Qed.

(** C36: the bandwidth bound.  What the scheduler grants to blocked requests, what
    streams acquire meanwhile and what is left in the bucket never exceed what it
    held, the refills of one burst per tick, and what streams refunded; the only other
    source is the store of the burst cap, which puts back tokens taken since it read
    the bucket, and there is none when no stream runs in between. *)
Theorem bandwidth_bounded evs c s' c' woken :
  Forall event_ok evs -> 0 <= tok c -> Forall (Forall stream_op) (others c) ->
  drr_task evs drr_start c = (s', c', woken) ->
  exists ops, history c' = history c ++ ops /\ 0 <= tok c' /\
    bytes_of woken + acquired ops (tok c) + tok c' <= tok c + refills evs + refunded ops + minted ops (tok c) /\
    (others c = [] -> minted ops (tok c) = 0).
Proof.
  intros Hev Ht Ho E. destruct (drr_task_advances _ _ _ _ _ _ drr_start_ok Hev E Ho) as (_ & _ & ops & H1 & T1 & K1 & W1 & F1 & M1).
  exists ops. destruct (bucket_bound ops (tok c) K1 Ht) as [H2 H3]. rewrite handed_out_split in H3.
  rewrite T1, <- W1, <- F1. split_and!; [done | done | lia | done].
Qed.

(** ** Every waiter is served *)

Definition pending (s : Drr) : list DrrRequest := flat_map (fun k => queue_of k s) (rr_order s).

Lemma bytes_of_nonneg rs : Forall (fun r => 0 < req_bytes r) rs -> 0 <= bytes_of rs.
Proof. intros H. apply sum_by_nonneg. intros r Hr. rewrite Forall_forall in H. specialize (H r Hr). lia. Qed.

Lemma queue_pos k s : drr_ok s -> Forall (fun r => 0 < req_bytes r) (queue_of k s).
Proof.
  intros Hok. unfold queue_of. destruct (classes s !! k) as [c |] eqn:Ec; [| constructor].
  destruct (do_class s Hok k c Ec) as (_ & H & _). by eapply Forall_impl; [exact H |]; intros ? [_ ?].
Qed.

Lemma bytes_of_flat_map (f : FairnessKey -> list DrrRequest) l : bytes_of (flat_map f l) = sum_by (fun k => bytes_of (f k)) l.
Proof. induction l as [| k l IH]; [done |]. cbn [flat_map]. by rewrite bytes_of_app, sum_by_cons, IH. Qed.

Lemma pending_nonneg s : drr_ok s -> 0 <= bytes_of (pending s).
Proof. intros Hok. unfold pending. rewrite bytes_of_flat_map. apply sum_by_nonneg. intros. by apply bytes_of_nonneg, queue_pos. Qed.

Lemma queue_le_pending k s : drr_ok s -> bytes_of (queue_of k s) <= bytes_of (pending s).
Proof.
  intros Hok. assert (Hnn : forall l, 0 <= sum_by (fun k => bytes_of (queue_of k s)) l)
    by (intros l; apply sum_by_nonneg; intros; by apply bytes_of_nonneg, queue_pos).
  unfold pending. rewrite bytes_of_flat_map. destruct (decide (k ∈ rr_order s)) as [Hk | Hk].
  - apply list_elem_of_split in Hk as (l1 & l2 & ->). rewrite sum_by_app, sum_by_cons.
    pose proof (Hnn l1). pose proof (Hnn l2). lia.
  - rewrite (do_order s Hok) in Hk. unfold queue_of at 1. destruct (classes s !! k); [by contradict Hk |].
    unfold bytes_of at 1. rewrite sum_by_nil. apply Hnn.
Qed.

Lemma pending_none s : drr_ok s -> bytes_of (pending s) <= 0 -> rr_order s = [].
Proof.
  intros Hok H. destruct (rr_order s) as [| k l] eqn:Eo; [done |]. exfalso.
  pose proof (queue_le_pending k s Hok) as Hle. assert (is_Some (classes s !! k)) as [c Ec] by (apply (do_order s Hok); rewrite Eo; left).
  destruct (do_class s Hok k c Ec) as (Hne & Hq & _). unfold queue_of in Hle. rewrite Ec in Hle.
  destruct (queue c) as [| r q]; [done |]. apply Forall_cons in Hq as [[_ Hr] Hq]. unfold bytes_of in Hle at 1.
  rewrite sum_by_cons in Hle. enough (0 <= sum_by req_bytes q) by lia.
  apply bytes_of_nonneg. by eapply Forall_impl; [exact Hq |]; intros ? [_ ?].
Qed.

Lemma order_none s : drr_ok s -> rr_order s = [] <-> classes s = ∅.
Proof.
  intros Hok. split.
  - intros E. apply map_eq. intros k. rewrite lookup_empty. apply eq_None_not_Some. rewrite <- (do_order s Hok), E.
    by intros ?%elem_of_nil.
  - intros E. destruct (rr_order s) as [| k l] eqn:Eo; [done |]. assert (is_Some (classes s !! k)) as [c Ec]
      by (apply (do_order s Hok); rewrite Eo; left). by rewrite E, lookup_empty in Ec.
Qed.

Lemma has_pending_order s : drr_ok s -> has_pending s = negb (bool_decide (rr_order s = [])).
Proof.
  intros Hok. unfold has_pending. destruct (existsb _ _) eqn:Ex.
  - apply existsb_exists in Ex as ([k c] & Hin & _). apply list_elem_of_In, elem_of_map_to_list in Hin.
    rewrite bool_decide_eq_false_2; [done |]. intros E. apply (order_none s Hok) in E. by rewrite E, lookup_empty in Hin.
  - destruct (bool_decide_reflect (rr_order s = [])) as [| Hne]; [done |]. exfalso. destruct (rr_order s) as [| k l] eqn:Eo; [done |].
    assert (is_Some (classes s !! k)) as [c Ec] by (apply (do_order s Hok); rewrite Eo; left).
    enough (existsb (fun kc : FairnessKey * ClassState => negb (bool_decide (queue kc.2 = []))) (map_to_list (classes s)) = true) by congruence.
    apply existsb_exists. exists (k, c). split; [by apply list_elem_of_In, elem_of_map_to_list |]. cbn.
    destruct (do_class s Hok k c Ec) as (Hq & _ & _). by rewrite bool_decide_eq_false_2.
Qed.

Lemma serve_pass_none n ceiling s c : rr_order s = [] -> serve_pass n ceiling s c = (s, c, []).
Proof. intros E. destruct n; cbn; [done |]. by rewrite E. Qed.

Lemma reapply_alone ceiling s c : drr_ok s -> others c = [] -> 0 <= tok c ->
  others (reapply_cap ceiling s c) = [] /\ 0 <= tok (reapply_cap ceiling s c) <= tok c /\
  (rr_order s <> [] -> reapply_cap ceiling s c = c).
Proof.
  intros Hok Ho Ht. pose proof (burst_capacity_nonneg ceiling). unfold reapply_cap. rewrite (interfere_alone c Ho).
  case_bool_decide as He; [| by split_and!]. apply (order_none s Hok) in He.
  destruct (Z.ltb_spec (burst_capacity ceiling) (tok c)); [rewrite (interfere_alone c Ho) |]; cbn; split_and!; try done; lia.
Qed.

(** The waiters' bytes, where the first class of the rotation is set apart. *)
Lemma pending_cons s key order q1 s1 :
  drr_ok s -> rr_order s = key :: order -> rr_order s1 = order ++ match q1 with [] => [] | _ => [key] end ->
  (forall k, queue_of k s1 = if decide (k = key) then q1 else queue_of k s) ->
  bytes_of (pending s) - bytes_of (queue_of key s) = bytes_of (pending s1) - bytes_of q1.
Proof.
  intros Hok Ho Ho1 Hqo. unfold pending. rewrite !bytes_of_flat_map, Ho, Ho1, sum_by_cons, sum_by_app.
  pose proof (do_nodup s Hok) as Hnd. rewrite Ho in Hnd. apply NoDup_cons in Hnd as [Hnk _].
  assert (sum_by (fun k => bytes_of (queue_of k s1)) order = sum_by (fun k => bytes_of (queue_of k s)) order) as ->.
  { clear Ho Ho1. induction order as [| k order IH]; [done |]. apply not_elem_of_cons in Hnk as [Hne Hnk].
    by rewrite !sum_by_cons, (IH Hnk), Hqo, decide_False. }
  destruct q1; [rewrite sum_by_nil; change (bytes_of []) with 0; lia |].
  rewrite sum_by_cons, sum_by_nil, Hqo, decide_True by done. lia.
Qed.

(** A class left waiting by a pass that could pay for every waiter lacked deficit. *)
Lemma serve_queue_short d q c c1 d1 q1 w1 :
  serve_queue (saturating_add d LEASE_QUANTUM) q c = (c1, (d1, q1, w1)) -> Forall (fun r => 0 < req_bytes r) q ->
  0 <= d -> others c = [] -> bytes_of q1 <= tok c1 -> bytes_of q <= U64_MAX ->
  q1 = [] \/ 0 < bytes_of q1 - d1 <= bytes_of q - d - LEASE_QUANTUM.
Proof.
  intros Es Hq Hd Ho Ht Hb. pose proof quantum_pos.
  destruct (serve_queue_spec _ _ _ _ _ _ _ Es Hq) as (-> & -> & _ & H1); [unfold saturating_add, U64_MAX in *; lia |].
  destruct (H1 Ho) as (_ & _ & H2). destruct q1 as [| r q1]; [by left |]. right.
  apply Forall_app in Hq as [_ Hq]. apply Forall_cons in Hq as [_ Hq]. pose proof (bytes_of_nonneg q1 Hq).
  rewrite bytes_of_app in *. unfold bytes_of in * |- *. rewrite sum_by_cons in *. unfold saturating_add in *. lia.
Qed.

Lemma serve_queue_tok d q c c1 d1 q1 w1 :
  serve_queue d q c = (c1, (d1, q1, w1)) -> Forall (fun r => 0 < req_bytes r) q -> others c = [] -> 0 <= tok c -> 0 <= tok c1.
Proof.
  intros Es Hq Ho Ht. destruct (serve_queue_advances _ _ _ _ _ _ _ Es Hq) as (_ & _ & ops & _ & T & K & _).
  { rewrite Ho. constructor. }
  rewrite T. exact (proj1 (bucket_bound ops (tok c) K Ht)).
Qed.

(** A pass alone with the bucket: it spends what it grants, and where every waiter
    could be paid for, a class it leaves waiting is a quantum closer. *)
Definition shortfall (k : FairnessKey) (s : Drr) : Z := bytes_of (queue_of k s) - deficit_of k s.

Lemma serve_pass_alone ceiling todo : forall dn s c s' c' woken,
  drr_ok s -> rr_order s = todo ++ dn -> serve_pass (length todo) ceiling s c = (s', c', woken) ->
  others c = [] -> 0 <= tok c ->
  others c' = [] /\ 0 <= tok c' <= tok c /\ 0 <= bytes_of woken /\
  bytes_of (pending s) = bytes_of woken + bytes_of (pending s') /\
  (rr_order s' <> [] -> tok c' = tok c - bytes_of woken) /\
  (bytes_of (pending s) <= tok c <= U64_MAX -> forall k, k ∈ todo ->
    queue_of k s' = [] \/ 0 < shortfall k s' <= shortfall k s - LEASE_QUANTUM).
Proof.
  induction todo as [| key todo IH]; intros dn s c s' c' woken Hok Ho E Hal Ht.
  { injection E as <- <- <-. change (bytes_of []) with 0. split_and!; [done | lia | lia | lia | lia | intros _; lia |].
    intros _ k Hk. by apply elem_of_nil in Hk. }
  destruct (serve_pass_cons _ _ _ _ _ _ _ _ _ Hok Ho E)
    as (d & q & c1 & d1 & q1 & w1 & s1 & w2 & Ec & Es & Eq & Hq & Hd & Ed & Hd1 & Hok1 & Ho1 & Hqo & Hco & Hck & Ep & ->).
  assert (Hpos : Forall (fun r => 0 < req_bytes r) q) by (by eapply Forall_impl; [exact Hq |]; intros ? [_ ?]).
  pose proof quantum_pos. destruct (serve_queue_spec _ _ _ _ _ _ _ Es Hpos) as (_ & _ & _ & H1);
    [unfold saturating_add, U64_MAX; lia |].
  destruct (H1 Hal) as (Hal1 & Ht1 & _). clear H1.
  pose proof (pending_cons s key _ q1 s1 Hok Ho Ho1 Hqo) as Hp. unfold queue_of at 1 in Hp. rewrite Ec in Hp. cbn in Hp.
  rewrite Eq, bytes_of_app in Hp. pose proof (serve_queue_tok _ _ _ _ _ _ _ Es Hpos Hal Ht) as Hc1.
  destruct (reapply_alone ceiling s1 c1 Hok1 Hal1 Hc1) as (Hal2 & Ht2 & Hsame). set (c2 := reapply_cap ceiling s1 c1) in *.
  rewrite <- app_assoc in Ho1. destruct (IH _ _ _ _ _ _ Hok1 Ho1 Ep Hal2 (proj1 Ht2)) as (Hal' & Ht' & Hw' & Hp' & Htok & Hstep).
  assert (Hw1 : 0 <= bytes_of w1) by (apply bytes_of_nonneg; rewrite Eq in Hpos; by apply Forall_app in Hpos as [? _]).
  assert (Hne1 : rr_order s' <> [] -> rr_order s1 <> []).
  { intros Hne Hnil. apply Hne. rewrite (serve_pass_none _ _ _ _ Hnil) in Ep. injection Ep as <- _ _. exact Hnil. }
  rewrite bytes_of_app. split_and!; [done | lia | lia | lia | lia | |].
  - intros Hne. specialize (Htok Hne). rewrite (Hsame (Hne1 Hne)) in Htok. lia.
  - intros Ham k Hk. assert (Hkey : key ∉ todo).
    { pose proof (do_nodup s Hok) as Hnd. rewrite Ho in Hnd. apply NoDup_cons in Hnd as [Hnk _]. intros Hin. apply Hnk, elem_of_app. by left. }
    destruct (decide (k = key)) as [-> | Hne].
    + destruct (serve_pass_spec _ _ _ _ _ _ _ _ Hok1 Ho1 Ep) as (_ & _ & Hout & _). destruct (Hout key Hkey) as [_ Hcl].
      pose proof (queue_le_pending key s1 Hok1) as Hle. pose proof (queue_le_pending key s Hok) as Hle0.
      unfold shortfall, queue_of, deficit_of in *. rewrite Hcl, Hck, Ec in *. cbn [queue deficit] in *.
      destruct (serve_queue_short _ _ _ _ _ _ _ Es Hpos Hd Hal) as [-> | Hs]; [| lia | by left |].
      * destruct q1; cbn [queue] in *; [change (bytes_of []) with 0 |]; lia.
      * destruct q1; [by left |]. right. cbn [queue deficit]. lia.
    + apply elem_of_cons in Hk as [? | Hk]; [done |]. destruct (Hstep) with k as [Hq0 | Hs]; [| done | by left | right].
      * split; [| lia]. destruct (decide (rr_order s1 = [])) as [Hnil | Hn]; [| rewrite (Hsame Hn); lia].
        unfold pending. rewrite Hnil. change (bytes_of (flat_map _ [])) with 0. lia.
      * unfold shortfall in *. rewrite Hqo, decide_False in Hs by done. unfold deficit_of in *. by rewrite Hco in Hs.
Qed.

Lemma queue_none s : drr_ok s -> (forall k, queue_of k s = []) -> rr_order s = [].
Proof.
  intros Hok H. apply pending_none; [done |]. unfold pending. rewrite bytes_of_flat_map.
  induction (rr_order s) as [| k l IH]; [done |]. rewrite sum_by_cons, H. exact IH.
Qed.

Lemma tick_alone ceiling s c s' c' woken :
  ceiling <> 0 -> drr_ok s -> others c = [] -> 0 <= tok c -> drr_turn ceiling Tick s c = (s', c', woken) ->
  drr_ok s' /\ others c' = [] /\ 0 <= tok c' /\ 0 <= bytes_of woken /\
  bytes_of (pending s) = bytes_of woken + bytes_of (pending s') /\
  (rr_order s' <> [] -> tok c' = saturating_add (tok c) (burst_capacity ceiling) - bytes_of woken) /\
  (rr_order s <> [] -> bytes_of (pending s) <= saturating_add (tok c) (burst_capacity ceiling) -> forall k,
    queue_of k s' = [] \/ 0 < shortfall k s' <= shortfall k s - LEASE_QUANTUM).
Proof.
  intros Hne Hok Ho Ht E. assert (Hev : event_ok (ceiling, Tick)) by done.
  destruct (drr_turn_spec _ _ _ _ _ _ _ Hok Hev E) as (Hok' & _ & _). split; [done |].
  unfold drr_turn in E. destruct (Z.eqb_spec ceiling 0); [done |]. rewrite (has_pending_order s Hok), (interfere_alone c Ho) in E.
  pose proof (burst_capacity_nonneg ceiling) as Hb. unfold serve_waiters in E.
  assert (Hal : forall op, others (own op c) = []) by done.
  assert (Hsat : 0 <= saturating_add (tok c) (burst_capacity ceiling) <= U64_MAX) by (unfold saturating_add, U64_MAX in *; lia).
  case_bool_decide as Hnil; cbn [negb] in E.
  - rewrite (serve_pass_none _ _ _ _ Hnil) in E. injection E as <- <- <-. change (bytes_of []) with 0. cbn [own tok others exec fst].
    split_and!; [done | lia | done | lia | done | done].
  - destruct (serve_pass_alone ceiling (rr_order s) [] s _ s' c' woken Hok (eq_sym (app_nil_r _)) E (Hal _)) as (H1 & H2 & H0 & H3 & H4 & H5);
      [cbn; lia |]. cbn [own tok exec fst] in *. split_and!; [done | lia | done | done | done |].
    intros _ Ham k. destruct (decide (k ∈ rr_order s)) as [Hk | Hk]; [apply H5; [lia | done] |]. left.
    destruct (serve_pass_spec ceiling (rr_order s) [] _ _ _ _ _ Hok (eq_sym (app_nil_r _)) E) as (_ & _ & Hout & _).
    destruct (Hout k Hk) as [_ Hc]. unfold queue_of. rewrite Hc. rewrite (do_order s Hok) in Hk.
    destruct (classes s !! k); [by contradict Hk | done].
Qed.

(** Ticks alone with the bucket. *)
Definition ticks (n : nat) (ceiling : Z) : list (Z * drr_event) := replicate n (ceiling, Tick).

Lemma ticks_none n ceiling s c s' c' woken :
  ceiling <> 0 -> rr_order s = [] -> drr_task (ticks n ceiling) s c = (s', c', woken) -> rr_order s' = [].
Proof.
  intros Hne. revert s c s' c' woken. induction n as [| n IH]; intros s c s' c' woken Hnil E; [by injection (E : (s, c, []) = _) as <- _ _ |].
  change (ticks (S n) ceiling) with ((ceiling, Tick) :: ticks n ceiling) in E. cbn [drr_task] in E. destruct (drr_turn ceiling Tick s c) as [[s1 c1] w1] eqn:Et.
  destruct (drr_task (ticks n ceiling) s1 c1) as [[s2 c2] w2] eqn:Er. injection E as <- <- <-.
  refine (IH _ _ _ _ _ _ Er). unfold drr_turn in Et. destruct (Z.eqb_spec ceiling 0); [done |]. unfold serve_waiters in Et.
  rewrite (serve_pass_none _ _ _ _ Hnil) in Et. by injection Et as <- _ _.
Qed.

Lemma ticks_pay n ceiling s c s' c' woken :
  ceiling <> 0 -> drr_ok s -> others c = [] -> 0 <= tok c ->
  bytes_of (pending s) <= U64_MAX -> bytes_of (pending s) <= tok c + Z.of_nat n * burst_capacity ceiling ->
  drr_task (ticks n ceiling) s c = (s', c', woken) ->
  drr_ok s' /\ others c' = [] /\ 0 <= tok c' /\ bytes_of (pending s') <= bytes_of (pending s) /\
  (rr_order s' = [] \/ bytes_of (pending s') <= tok c').
Proof.
  intros Hne. revert s c s' c' woken. induction n as [| n IH]; intros s c s' c' woken Hok Ho Ht Hmax Hp E.
  { injection (E : (s, c, []) = _) as <- <- _. split_and!; [done | done | done | lia | right; lia]. }
  change (ticks (S n) ceiling) with ((ceiling, Tick) :: ticks n ceiling) in E. cbn [drr_task] in E. destruct (drr_turn ceiling Tick s c) as [[s1 c1] w1] eqn:Et.
  destruct (drr_task (ticks n ceiling) s1 c1) as [[s2 c2] w2] eqn:Er. injection E as <- <- <-.
  destruct (tick_alone _ _ _ _ _ _ Hne Hok Ho Ht Et) as (Hok1 & Ho1 & Ht1 & Hw & Hp1 & Htok & _).
  pose proof (burst_capacity_nonneg ceiling).
  assert (Hle : bytes_of (pending s1) <= tok c1 + Z.of_nat n * burst_capacity ceiling).
  { destruct (decide (rr_order s1 = [])) as [Hnil | Hn].
    - unfold pending. rewrite Hnil. change (bytes_of (flat_map _ [])) with 0. lia.
    - rewrite (Htok Hn). unfold saturating_add. lia. }
  destruct (IH _ _ _ _ _ Hok1 Ho1 Ht1 ltac:(lia) Hle Er) as (H1 & H2 & H3 & H4 & H5). split_and!; try done; lia.
Qed.

Lemma ticks_serve m : forall ceiling s c s' c' woken,
  ceiling <> 0 -> drr_ok s -> others c = [] -> 0 <= tok c ->
  bytes_of (pending s) <= U64_MAX -> bytes_of (pending s) <= tok c ->
  (forall k, shortfall k s <= Z.of_nat (S m) * LEASE_QUANTUM) ->
  drr_task (ticks (S m) ceiling) s c = (s', c', woken) -> rr_order s' = [].
Proof.
  induction m as [m IH] using lt_wf_ind. intros ceiling s c s' c' woken Hne Hok Ho Ht Hmax Hp Hs E.
  destruct (decide (rr_order s = [])) as [Hnil | Hn]; [by eapply ticks_none |].
  change (ticks (S m) ceiling) with ((ceiling, Tick) :: ticks m ceiling) in E. cbn [drr_task] in E.
  destruct (drr_turn ceiling Tick s c) as [[s1 c1] w1] eqn:Et.
  destruct (drr_task (ticks m ceiling) s1 c1) as [[s2 c2] w2] eqn:Er. injection E as <- <- <-.
  destruct (tick_alone _ _ _ _ _ _ Hne Hok Ho Ht Et) as (Hok1 & Ho1 & Ht1 & Hw & Hp1 & Htok & Hstep).
  pose proof (burst_capacity_nonneg ceiling). pose proof quantum_pos. specialize (Hstep Hn).
  assert (Hst : forall k, queue_of k s1 = [] \/ 0 < shortfall k s1 <= Z.of_nat m * LEASE_QUANTUM).
  { intros k. specialize (Hs k). destruct (Hstep ltac:(unfold saturating_add; lia) k) as [? | ?]; [by left | right; lia]. }
  destruct m as [| m].
  - injection (Er : (s1, c1, []) = _) as <- _ _. apply queue_none; [done |]. intros k. destruct (Hst k) as [? | ?]; [done | lia].
  - destruct (decide (rr_order s1 = [])) as [Hnil | Hn1]; [by eapply ticks_none |].
    refine (IH m (Nat.lt_succ_diag_r m) ceiling s1 c1 _ _ _ Hne Hok1 Ho1 Ht1 _ _ _ Er); [lia | rewrite (Htok Hn1); unfold saturating_add; lia |].
    intros k. destruct (Hst k) as [Hk | ?]; [| lia]. unfold shortfall. rewrite Hk. change (bytes_of []) with 0.
    unfold deficit_of. destruct (classes s1 !! k) as [cl |] eqn:Ec; [| lia]. destruct (do_class s1 Hok1 k cl Ec) as (_ & _ & ?). lia.
Qed.

Lemma drr_task_app evs evs' s c :
  drr_task (evs ++ evs') s c =
  (let '(s1, c1, w1) := drr_task evs s c in let '(s2, c2, w2) := drr_task evs' s1 c1 in (s2, c2, w1 ++ w2)).
Proof.
  revert s c. induction evs as [| [ceiling ev] evs IH]; intros s c; cbn [app drr_task]; [by destruct (drr_task evs' s c) as [[? ?] ?] |].
  destruct (drr_turn ceiling ev s c) as [[s1 c1] w1]. rewrite IH. destruct (drr_task evs s1 c1) as [[s2 c2] w2].
  destruct (drr_task evs' s2 c2) as [[s3 c3] w3]. by rewrite app_assoc.
Qed.

(** No waiter is left behind.  Alone with the bucket, after [n] refills that pay
    for every waiter and [m] more whose quanta cover the bytes waited for, every
    request that was queued has been woken, each class's in the order it came, and
    the scheduler is empty. *)
Theorem drr_drains n m ceiling s c :
  ceiling <> 0 -> drr_ok s -> others c = [] -> 0 <= tok c ->
  bytes_of (pending s) <= U64_MAX -> bytes_of (pending s) <= tok c + Z.of_nat n * burst_capacity ceiling ->
  bytes_of (pending s) <= Z.of_nat m * LEASE_QUANTUM ->
  let '(s', _, woken) := drr_task (ticks (n + m) ceiling) s c in
  classes s' = ∅ /\ rr_order s' = [] /\ forall k, of_key k woken = queue_of k s.
Proof.
  intros Hne Hok Ho Ht Hmax Hn Hm. destruct (drr_task (ticks (n + m) ceiling) s c) as [[s' c'] woken] eqn:E.
  assert (Hev : Forall event_ok (ticks (n + m) ceiling)) by (by apply Forall_replicate).
  destruct (drr_task_spec _ _ _ _ _ _ Hok Hev E) as (Hok' & HQ & _).
  assert (Hrec : received (ticks (n + m) ceiling) = []) by (unfold ticks; clear; induction (n + m)%nat; [done |]; assumption).
  enough (rr_order s' = []) as Hnil.
  { pose proof (proj1 (order_none s' Hok') Hnil) as Hc. split_and!; [done | done |]. intros k. specialize (HQ k).
    rewrite Hrec, app_nil_r in HQ. unfold queue_of at 2 in HQ. by rewrite Hc, lookup_empty, app_nil_r in HQ. }
  unfold ticks in E. rewrite replicate_add, drr_task_app in E. fold (ticks n ceiling) (ticks m ceiling) in E.
  destruct (drr_task (ticks n ceiling) s c) as [[s1 c1] w1] eqn:E1. destruct (drr_task (ticks m ceiling) s1 c1) as [[s2 c2] w2] eqn:E2.
  injection E as <- <- <-. destruct (ticks_pay _ _ _ _ _ _ _ Hne Hok Ho Ht Hmax Hn E1) as (Hok1 & Ho1 & Ht1 & Hle & [Hnil | Ham]);
    [by eapply ticks_none |].
  destruct m as [| m]; [injection (E2 : (s1, c1, []) = _) as <- _ _; apply pending_none; [done | lia] |].
  refine (ticks_serve m _ _ _ _ _ _ Hne Hok1 Ho1 Ht1 _ Ham _ E2); [lia |]. intros k. unfold shortfall, deficit_of.
  pose proof (queue_le_pending k s1 Hok1). destruct (classes s1 !! k) as [cl |] eqn:Ec; [| lia].
  destruct (do_class s1 Hok1 k cl Ec) as (_ & _ & ?). lia.
Qed.

(** ** The heaviest classes are tracked *)

Section TopK.
Context `{HashIter}.

Definition record_all (recs : list (string * Z)) (t : TopKTracker) : TopKTracker :=
  foldl (fun t r => record r.1 r.2 t) t recs.

Definition recorded (recs : list (string * Z)) : Z := sum_by snd recs.

Definition recorded_of (l : string) (recs : list (string * Z)) : Z :=
  sum_by (fun r => if bool_decide (r.1 = l) then r.2 else 0) recs.

Lemma recorded_of_snoc l recs lbl b :
  recorded_of l (recs ++ [(lbl, b)]) = recorded_of l recs + if bool_decide (lbl = l) then b else 0.
Proof. unfold recorded_of. rewrite sum_by_app, sum_by_cons, sum_by_nil. cbn. lia. Qed.

(** Each count bounds what its class recorded; a class that is not tracked recorded
    no more than any that is, and nothing while there is room. *)
Record topk_ok (recs : list (string * Z)) (t : TopKTracker) : Prop := {
  tk_cap : (0 < cap t)%nat /\ (size (counts t) <= cap t)%nat;
  tk_total : map_total id (counts t) = recorded recs;
  tk_over l n : counts t !! l = Some n -> 0 <= recorded_of l recs <= n;
  tk_under l : counts t !! l = None ->
    recorded_of l recs = 0 \/ size (counts t) = cap t /\ forall l' n, counts t !! l' = Some n -> 0 <= recorded_of l recs <= n;
}.

Lemma min_entry_from l b : exists e, foldl (fun best e => match best with
    | Some b => if e.2 <? b.2 then Some e else Some b | None => Some e end) (Some b) l = Some e /\
  e ∈ b :: l /\ Forall (fun x : string * Z => e.2 <= x.2) (b :: l).
Proof.
  revert b. induction l as [| x l IH]; intros b; cbn [foldl].
  { exists b. split_and!; [done | left |]. by repeat constructor. }
  destruct (Z.ltb_spec x.2 b.2) as [Hlt | Hge].
  - destruct (IH x) as (e & -> & Hin & Hall). exists e. split_and!; [done | by right |].
    constructor; [| done]. apply Forall_cons in Hall as [? _]. lia.
  - destruct (IH b) as (e & -> & Hin & Hall). exists e. apply Forall_cons in Hall as [Hb Hall]. split_and!; [done | |].
    + apply elem_of_cons in Hin as [-> | Hin]; [left | by do 2 right].
    + constructor; [done |]. constructor; [lia | done].
Qed.

Lemma min_entry_spec (m : gmap string Z) : m <> ∅ ->
  exists k n, min_entry (hash_iter m) = Some (k, n) /\ m !! k = Some n /\ forall l x, m !! l = Some x -> n <= x.
Proof.
  intros Hne. destruct (hash_iter m) as [| b l] eqn:El; [by apply hash_iter_nil in El |].
  destruct (min_entry_from l b) as ([k n] & E & Hin & Hall). exists k, n. rewrite <- El in Hin, Hall. split_and!; [done | |].
  - by apply hash_iter_lookup.
  - intros l' x Hl. apply hash_iter_lookup in Hl. rewrite Forall_forall in Hall. exact (Hall _ Hl).
Qed.

Lemma topk_new_ok n : topk_ok [] (topk_new n).
Proof.
  split; cbn [cap counts topk_new].
  - rewrite map_size_empty. lia.
  - apply map_total_empty.
  - intros l x. by rewrite lookup_empty.
  - intros l _. by left.
Qed.

Lemma map_total_insert_at (m : gmap string Z) k n b :
  m !! k = Some n -> map_total id (<[k:=n + b]> m) = map_total id m + b.
Proof.
  intros Hk. rewrite <- insert_delete_eq, map_total_insert by apply lookup_delete_eq.
  rewrite (map_total_delete id m k n Hk). unfold id. lia.
Qed.

Lemma map_total_bounds (m : gmap string Z) k n : (forall l x, m !! l = Some x -> 0 <= x) -> m !! k = Some n -> n <= map_total id m.
Proof.
  intros Hm Hk. pose proof (map_total_delete id m k n Hk) as Hd. change (id n) with n in Hd.
  enough (0 <= map_total id (base.delete k m)) by lia. apply sum_by_nonneg. intros [l x] Hin.
  apply elem_of_map_to_list, lookup_delete_Some in Hin as [_ Hin]. exact (Hm l x Hin).
Qed.

Lemma record_ok recs t lbl b :
  topk_ok recs t -> 0 <= b -> recorded recs + b <= U64_MAX -> topk_ok (recs ++ [(lbl, b)]) (record lbl b t).
Proof.
  intros [[Hc Hsz] Htot Hover Hunder] Hb Hmax.
  assert (Hnn : forall l x, counts t !! l = Some x -> 0 <= x) by (intros l x Hl; specialize (Hover l x Hl); lia).
  assert (Hsum : recorded (recs ++ [(lbl, b)]) = recorded recs + b) by (unfold recorded; rewrite sum_by_app, sum_by_cons, sum_by_nil; cbn; lia).
  assert (Hle : forall l x, counts t !! l = Some x -> u64_add x b = x + b).
  { intros l x Hl. apply u64_add_small. pose proof (map_total_bounds _ l x Hnn Hl). specialize (Hnn l x Hl). unfold U64_MAX in *. lia. }
  unfold record. destruct (counts t !! lbl) as [n |] eqn:El; [| destruct (Nat.ltb_spec (size (counts t)) (cap t)) as [Hlt | Hge]].
  - rewrite (Hle _ _ El). split; cbn [cap counts].
    + rewrite map_size_insert_Some by (by eexists). by split.
    + rewrite (map_total_insert_at _ _ _ _ El). lia.
    + intros l x Hl. rewrite recorded_of_snoc. destruct (decide (l = lbl)) as [-> | Hne].
      * rewrite lookup_insert_eq in Hl. injection Hl as <-. rewrite bool_decide_eq_true_2 by done. specialize (Hover _ _ El). lia.
      * rewrite lookup_insert_ne in Hl by done. rewrite bool_decide_eq_false_2 by done. specialize (Hover _ _ Hl). lia.
    + intros l Hl. destruct (decide (l = lbl)) as [-> | Hne]; [by rewrite lookup_insert_eq in Hl |].
      rewrite lookup_insert_ne in Hl by done. rewrite recorded_of_snoc, bool_decide_eq_false_2, Z.add_0_r by done.
      rewrite map_size_insert_Some by (by eexists). destruct (Hunder l Hl) as [? | [Hs Hm]]; [by left | right]. split; [done |].
      intros l' x. destruct (decide (l' = lbl)) as [-> | Hne']; [rewrite lookup_insert_eq | rewrite lookup_insert_ne by done; apply Hm].
      intros [= <-]. specialize (Hm _ _ El). lia.
  - split; cbn [cap counts].
    + rewrite map_size_insert_None by done. lia.
    + rewrite map_total_insert by done. change (id b) with b. lia.
    + intros l x Hl. rewrite recorded_of_snoc. destruct (decide (l = lbl)) as [-> | Hne].
      * rewrite lookup_insert_eq in Hl. injection Hl as <-. rewrite bool_decide_eq_true_2 by done.
        destruct (Hunder _ El) as [-> | [? _]]; lia.
      * rewrite lookup_insert_ne in Hl by done. rewrite bool_decide_eq_false_2 by done. specialize (Hover _ _ Hl). lia.
    + intros l Hl. destruct (decide (l = lbl)) as [-> | Hne]; [by rewrite lookup_insert_eq in Hl |].
      rewrite lookup_insert_ne in Hl by done. rewrite recorded_of_snoc, bool_decide_eq_false_2, Z.add_0_r by done.
      destruct (Hunder l Hl) as [? | [? _]]; [by left | lia].
  - assert (Hne : counts t <> ∅) by (intros E; rewrite E, map_size_empty in Hge; lia).
    destruct (min_entry_spec (counts t) Hne) as (k & n & -> & Hk & Hmin). rewrite (Hle _ _ Hk).
    assert (Hkl : k <> lbl) by congruence.
    assert (Hfresh : base.delete k (counts t) !! lbl = None) by (by rewrite lookup_delete_ne).
    assert (Hun : forall l, counts t !! l = None -> 0 <= recorded_of l recs <= n).
    { intros l Hl. destruct (Hunder l Hl) as [-> | [_ Hm]]; [specialize (Hnn _ _ Hk); lia | exact (Hm _ _ Hk)]. }
    assert (Hsize : size (<[lbl:=n + b]> (base.delete k (counts t))) = size (counts t)).
    { rewrite map_size_insert_None by done. rewrite map_size_delete_Some by (by eexists).
      assert (size (counts t) <> 0)%nat by (by rewrite map_size_ne_0_lookup; exists k; eexists). lia. }
    split; cbn [cap counts].
    + rewrite Hsize. by split.
    + rewrite map_total_insert by done. rewrite (map_total_delete id _ _ _ Hk). change (id (n + b)) with (n + b). change (id n) with n. lia.
    + intros l x Hl. rewrite recorded_of_snoc. destruct (decide (l = lbl)) as [-> | Hne'].
      * rewrite lookup_insert_eq in Hl. injection Hl as <-. rewrite bool_decide_eq_true_2 by done. specialize (Hun _ El). lia.
      * rewrite lookup_insert_ne in Hl by done. apply lookup_delete_Some in Hl as [_ Hl]. rewrite bool_decide_eq_false_2 by done.
        specialize (Hover _ _ Hl). lia.
    + intros l Hl. right. rewrite Hsize. split; [lia |]. destruct (decide (l = lbl)) as [-> | Hne']; [by rewrite lookup_insert_eq in Hl |].
      rewrite lookup_insert_ne in Hl by done. rewrite recorded_of_snoc, bool_decide_eq_false_2, Z.add_0_r by done.
      assert (Hln : 0 <= recorded_of l recs <= n).
      { destruct (decide (l = k)) as [-> | Hlk]; [by apply Hover | apply Hun; by rewrite lookup_delete_ne in Hl]. }
      intros l' x. destruct (decide (l' = lbl)) as [-> | Hne2]; [rewrite lookup_insert_eq; intros [= <-]; lia |].
      rewrite lookup_insert_ne by done. intros [_ Hx]%lookup_delete_Some. specialize (Hmin _ _ Hx). lia.
Qed.

Lemma record_all_ok recs recs' t :
  topk_ok recs t -> Forall (fun r => 0 <= r.2) recs' -> recorded recs + recorded recs' <= U64_MAX ->
  topk_ok (recs ++ recs') (record_all recs' t).
Proof.
  intros Hok Hr. revert recs t Hok. induction Hr as [| [lbl b] recs' Hb Hr IH]; intros recs t Hok Hmax.
  { by rewrite app_nil_r. }
  assert (0 <= recorded recs') by (apply sum_by_nonneg; by apply Forall_forall). unfold recorded in Hmax at 2.
  rewrite sum_by_cons in Hmax. cbn [fst snd] in *. fold (recorded recs') in Hmax. cbn [record_all foldl fst snd].
  change ((lbl, b) :: recs') with ([(lbl, b)] ++ recs'). rewrite app_assoc. apply IH.
  - apply record_ok; [done | done | lia].
  - unfold recorded at 1. rewrite sum_by_app, sum_by_cons, sum_by_nil. cbn [snd]. fold (recorded recs). lia.
Qed.

Lemma size_total (m : gmap string Z) v : (forall l x, m !! l = Some x -> v <= x) -> Z.of_nat (size m) * v <= map_total id m.
Proof.
  induction m as [| k x m Hk IH] using map_ind; intros Hm.
  { by rewrite map_size_empty, map_total_empty. }
  rewrite map_size_insert_None, map_total_insert by done. change (id x) with x.
  assert (v <= x) by (apply (Hm k); apply lookup_insert_eq).
  assert (Z.of_nat (size m) * v <= map_total id m); [| lia].
  apply IH. intros l y Hl. apply (Hm l). rewrite lookup_insert_ne; [done | congruence].
Qed.

(** The per-class byte counts.  However many classes there are, at most the
    configured number is tracked; the tracked counts add up to every byte recorded;
    each is at least what its class recorded; and a class that recorded more than
    its share of the total, one part in the number tracked, is among them. *)
Theorem heavy_classes_tracked n recs :
  Forall (fun r => 0 <= r.2) recs -> recorded recs <= U64_MAX ->
  let t := record_all recs (topk_new n) in
  (size (counts t) <= Nat.max n 1)%nat /\ map_total id (counts t) = recorded recs /\
  (forall l x, counts t !! l = Some x -> recorded_of l recs <= x) /\
  (forall l, recorded recs < Z.of_nat (Nat.max n 1) * recorded_of l recs -> is_Some (counts t !! l)).
Proof.
  intros Hr Hmax t. destruct (record_all_ok [] recs (topk_new n) (topk_new_ok n) Hr Hmax) as [[_ Hsz] Htot Hover Hunder].
  fold t in Hsz, Htot, Hover, Hunder. cbn [app] in *.
  assert (Hcap : cap t = Nat.max n 1).
  { unfold t. change (Nat.max n 1) with (cap (topk_new n)). generalize (topk_new n). clear. induction recs as [| r recs IH]; intros t; [done |].
    cbn [record_all foldl]. fold (record_all recs (record r.1 r.2 t)). rewrite IH. unfold record.
    destruct (counts t !! r.1); [done |]. destruct (_ <? _)%nat; [done |]. by destruct (min_entry _) as [[? ?] |]. }
  rewrite Hcap in *. split_and!; [done | done | intros l x Hl; specialize (Hover l x Hl); lia |].
  intros l Hl. destruct (counts t !! l) as [x |] eqn:El; [by eexists |]. exfalso.
  destruct (Hunder l El) as [E | [Hs Hm]].
  - rewrite E in Hl. assert (0 <= recorded recs) by (apply sum_by_nonneg; by apply Forall_forall). lia.
  - pose proof (size_total (counts t) (recorded_of l recs) (fun l' x Hx => proj2 (Hm l' x Hx))) as Hle. rewrite Hs, Htot in Hle. lia.
Qed.

End TopK.

(** ** The fairness key and the fleet's share *)

Lemma label_inj k k' : label k = label k' -> k = k'.
Proof. destruct k, k'; cbn; intros E; by simplify_eq. Qed.

Lemma chars_app u v : String.list_ascii_of_string (u +:+ v) = String.list_ascii_of_string u ++ String.list_ascii_of_string v.
Proof. induction u as [| x u IHu]; [done |]. exact (f_equal (cons x) IHu). Qed.

(** No character of a sanitised field ends a log line. *)
Definition ends_line (a : ascii) : bool := ascii_eqb a (Ascii.ascii_of_nat 10) || ascii_eqb a (Ascii.ascii_of_nat 13).

Lemma log_char_line b : Forall (fun a => ends_line a = false) (String.list_ascii_of_string (log_char b)).
Proof. destruct b as [[] [] [] [] [] [] [] []]; vm_compute; repeat constructor. Qed.

Lemma sanitize_one_line s : Forall (fun a => ends_line a = false) (String.list_ascii_of_string (sanitize_log_field s)).
Proof. induction s as [| b s IH]; [constructor |]. cbn [sanitize_log_field]. rewrite chars_app. apply Forall_app. split; [apply log_char_line | done]. Qed.

Lemma extract_app_token_nonempty ua token : extract_app_token ua = Some token -> token <> ""%string.
Proof.
  unfold extract_app_token. destruct (find_str "app/" ua) as [i |]; cbn; [| done].
  destruct (is_empty_str _) eqn:E; [done |]. intros [= <-] H. by rewrite H in E.
Qed.

(** A request's fairness class.  It is a caller only when callers are identified
    and the agent names one of allowed length that the expression accepts; otherwise
    the bucket, or the default class.  Classes never share a label, and no label of a
    caller can break a log line. *)
Theorem fairness_key_resolved headers bucket cfg re k :
  resolve_fairness_key headers bucket cfg re = k ->
  match k with
  | Caller v => caller_enabled cfg = true /\
      exists token, v = sanitize_log_field token /\ token <> ""%string /\ Z.of_nat (String.length token) <= max_len cfg /\
        match re with Some is_match => is_match token = true | None => True end /\
        Forall (fun a => ends_line a = false) (String.list_ascii_of_string (label k))
  | Bucket b => bucket = Some b /\ b <> ""%string
  | Default => match bucket with Some b => b = ""%string | None => True end
  end /\ forall k', label k' = label k -> k' = k.
Proof.
  intros <-. split; [| intros k'; apply label_inj]. unfold resolve_fairness_key.
  set (fallback := match bucket with Some b => if is_empty_str b then Default else Bucket b | None => Default end).
  assert (Hf : match fallback with Caller _ => False | Bucket b => bucket = Some b /\ b <> ""%string
    | Default => match bucket with Some b => b = ""%string | None => True end end).
  { unfold fallback. destruct bucket as [[|] |]; cbn; done. }
  destruct (caller_enabled cfg); cbn [negb]; [| by destruct fallback].
  destruct (extract_app_token _) as [token |] eqn:Et; [| by destruct fallback].
  destruct (Z.leb_spec (Z.of_nat (String.length token)) (max_len cfg)) as [Hlen |]; cbn [andb]; [| by destruct fallback].
  destruct (match re with Some is_match => is_match token | None => true end) eqn:Er; [| by destruct fallback].
  split; [done |]. exists token. split_and!; [done | by eapply extract_app_token_nonempty | done | by destruct re |].
  cbn [label]. rewrite chars_app. apply Forall_app. split; [by repeat constructor | apply sanitize_one_line].
Qed.

Lemma local_ceiling_bounds agg n : 0 <= agg ->
  (compute_local_ceiling agg n = 0 <-> agg = 0) /\ 0 <= compute_local_ceiling agg n /\
  forall k, 1 <= k <= Z.max n 1 -> k * compute_local_ceiling agg n <= Z.max agg k.
Proof.
  intros Ha. unfold compute_local_ceiling. destruct (Z.eqb_spec agg 0) as [-> | Hne]; [split_and!; [done | lia | intros; lia] |].
  assert (0 <= agg / Z.max n 1) by (apply Z.div_pos; lia). split_and!; [lia | lia |]. intros k Hk.
  pose proof (Z.mul_div_le agg (Z.max n 1) ltac:(lia)). destruct (Z.max_spec (agg / Z.max n 1) 1) as [[_ ->] | [_ ->]]; nia.
Qed.

(** A fleet keeps to its ceiling.  After a refresh, throttling is off exactly when
    the aggregate is unlimited, and as many instances as this one counted, or as the
    configured fallback, together stay within the aggregate, short of one byte per
    second each. *)
Theorem fleet_ceiling agg fallback last_n counted l k :
  0 <= agg -> 1 <= k <= Z.max (default last_n counted) fallback ->
  let '(l', n') := fleet_refresh agg fallback last_n counted l in
  n' = default last_n counted /\ (is_disabled l' = true <-> agg = 0) /\ k * ceiling_bps l' <= Z.max agg k /\
  available_tokens l' = available_tokens l.
Proof.
  intros Ha Hk. unfold fleet_refresh. cbn. destruct (local_ceiling_bounds agg (Z.max (default last_n counted) fallback) Ha) as (H1 & H2 & H3).
  split_and!; [done | | apply H3; lia | done]. unfold is_disabled. cbn. by rewrite Z.eqb_eq.
Qed.

(** The heartbeats counted are the fresh ones, and none of those is removed. *)
Definition fresh (now staleness : Z) (h : heartbeat) : bool :=
  has_extension "qos" (hb_name h) && hb_is_file h && match hb_mtime h with Some m => time_checked_sub now staleness <=? m | None => false end.

Lemma count_live_spec now staleness entries :
  0 <= staleness <= now ->
  let '(n, dead) := count_live_instances now staleness entries in
  n = Z.max (zlen (List.filter (fresh now staleness) entries)) 1 /\
  forall name, name ∈ dead -> exists h, h ∈ entries /\ hb_name h = name /\ fresh now staleness h = false.
Proof.
  intros Hs. unfold count_live_instances. set (cutoff := time_checked_sub now staleness). set (cleanup := time_checked_sub now _).
  match goal with |- context [foldl ?f (0, []) entries] => set (step := f) end.
  enough (Hgen : forall es n0 d0, let '(n, dead) := foldl step (n0, d0) es in
    n = n0 + zlen (List.filter (fresh now staleness) es) /\
    forall name, name ∈ dead -> name ∈ d0 \/ exists h, h ∈ es /\ hb_name h = name /\ fresh now staleness h = false).
  { specialize (Hgen entries 0 []). destruct (foldl step (0, []) entries) as [n dead]. destruct Hgen as [-> Hd]. split; [done |].
    intros name Hn. by destruct (Hd name Hn) as [?%elem_of_nil | ?]. }
  induction es as [| h es IH]; intros n0 d0; cbn [foldl List.filter].
  { split; [unfold zlen; cbn; lia | by left]. }
  assert (Hstep : step (n0, d0) h = (if fresh now staleness h then n0 + 1 else n0, (step (n0, d0) h).2) /\
    ((step (n0, d0) h).2 = d0 \/ fresh now staleness h = false /\ (step (n0, d0) h).2 = d0 ++ [hb_name h])).
  { unfold step, fresh. fold cutoff. destruct (has_extension "qos" (hb_name h)), (hb_is_file h); cbn [negb orb andb]; try (split; [done | by left]).
    destruct (hb_mtime h) as [m |]; [| split; [done | by left]]. destruct (cutoff <=? m); [split; [done | by left] |].
    destruct (m <? cleanup); split; try done; [right | left]; done. }
  destruct (step (n0, d0) h) as [n1 d1]. destruct Hstep as [E Hd]. cbn [snd] in *. injection E as ->.
  specialize (IH (if fresh now staleness h then n0 + 1 else n0) d1). destruct (foldl step _ es) as [n dead]. destruct IH as [-> IH].
  split; [destruct (fresh now staleness h); [rewrite zlen_cons |]; lia |]. intros name Hn.
  destruct (IH name Hn) as [Hin | (x & Hx & ?)]; [| right; exists x; split; [by right | done]].
  destruct Hd as [-> | [Hf ->]]; [by left |]. apply elem_of_app in Hin as [? | ->%list_elem_of_singleton]; [by left |].
  right. exists h. split_and!; [left | done | done].
Qed.

(** ** Runs *)

Definition class_a : FairnessKey := Caller "a".

Definition class_b : FairnessKey := Bucket "b".

(** A burst of one mebibyte. *)
Definition sample_ceiling : Z := 10485760.

(** Two classes wait, and two refills follow. *)
Definition sample_events : list (Z * drr_event) :=
  [(sample_ceiling, Recv (mkReq class_a 1048576 0)); (sample_ceiling, Recv (mkReq class_b 65536 1));
   (sample_ceiling, Tick); (sample_ceiling, Tick)].

(** A stream takes and returns tokens between the task's accesses. *)
Definition sample_cell : cell := mkCell 1000 [] [[OpAcquire 100 500]; []; [OpRefund 200 1048576]].

Lemma sample_events_ok : Forall event_ok sample_events.
Proof. repeat constructor; done. Qed.

Lemma sample_streams : Forall (Forall stream_op) (others sample_cell).
Proof. repeat constructor; cbn; done. Qed.

Lemma drr_grants_in_order_witness :
  Forall event_ok sample_events /\
  (let '(s', _, woken) := drr_task sample_events drr_start sample_cell in
   drr_ok s' /\
   forall k, of_key k (received sample_events) = of_key k woken ++ queue_of k s' /\
     bytes_of (of_key k woken) <= zlen sample_events * LEASE_QUANTUM).
Proof. split; [exact sample_events_ok | exact (drr_grants_in_order sample_events sample_cell sample_events_ok)]. Defined.

Lemma bandwidth_bounded_witness :
  exists s' c' woken, drr_task sample_events drr_start sample_cell = (s', c', woken) /\ map grant_tx woken = [0; 1]%nat /\
  exists ops, history c' = ops /\ 0 <= tok c' /\
    bytes_of woken + acquired ops 1000 + tok c' <= 1000 + refills sample_events + refunded ops + minted ops 1000.
Proof.
  destruct (drr_task sample_events drr_start sample_cell) as [[s' c'] woken] eqn:E.
  exists s', c', woken. split_and!; [done | |].
  - assert (Hw : map grant_tx (drr_task sample_events drr_start sample_cell).2 = [0; 1]%nat) by (by vm_compute). by rewrite E in Hw.
  - destruct (bandwidth_bounded sample_events sample_cell s' c' woken sample_events_ok ltac:(done) sample_streams E)
      as (ops & H1 & H2 & H3 & _). exists ops. by split_and!.
Defined.

(** Both classes waiting, before any refill. *)
Definition sample_waiting : Drr := enqueue (mkReq class_b 65536 1) (enqueue (mkReq class_a 3000000 0) drr_start).

Lemma sample_waiting_ok : drr_ok sample_waiting.
Proof.
  apply enqueue_ok; [| done]. apply enqueue_ok; [| done]. exact drr_start_ok.
Qed.

Lemma drr_drains_witness :
  bytes_of (pending sample_waiting) = 3065536 /\ burst_capacity sample_ceiling = 1048576 /\
  (let '(s', _, woken) := drr_task (ticks (3 + 3) sample_ceiling) sample_waiting (mkCell 0 [] []) in
   classes s' = ∅ /\ rr_order s' = [] /\ forall k, of_key k woken = queue_of k sample_waiting).
Proof.
  assert (Hb : bytes_of (pending sample_waiting) = 3065536) by (by vm_compute).
  assert (Hc : burst_capacity sample_ceiling = 1048576) by (by vm_compute).
  split_and!; [exact Hb | exact Hc |]. apply (drr_drains 3 3 sample_ceiling sample_waiting (mkCell 0 [] [])).
  - done.
  - exact sample_waiting_ok.
  - done.
  - done.
  - rewrite Hb. done.
  - rewrite Hb, Hc. cbn. lia.
  - rewrite Hb. by vm_compute.
Defined.

Definition sample_records : list (string * Z) := [("a", 5); ("b", 1); ("c", 2); ("a", 4); ("d", 1)]%string.

Lemma heavy_classes_tracked_witness :
  let t := record_all (H := map_order) sample_records (topk_new 2) in
  recorded sample_records = 13 /\ recorded_of "a" sample_records = 9 /\ counts t !! "d"%string = Some 4 /\
  map_total id (counts t) = 13 /\ is_Some (counts t !! "a"%string).
Proof.
  assert (Hr : Forall (fun r => 0 <= r.2) sample_records) by (by repeat constructor).
  destruct (heavy_classes_tracked (H := map_order) 2 sample_records Hr ltac:(by vm_compute)) as (_ & H2 & _ & H4).
  split_and!; [done | done | by vm_compute | by rewrite H2 | apply H4; by vm_compute].
Defined.

Definition sample_headers : gmap string string := {["user-agent"%string := "aws-cli/2.0 app/myapp"%string]}.

Lemma fairness_key_resolved_witness :
  resolve_fairness_key sample_headers (Some "bkt"%string) (mkCallerId true 64) None = Caller "myapp" /\
  forall k', label k' = "ua:myapp"%string -> k' = Caller "myapp".
Proof.
  assert (E : resolve_fairness_key sample_headers (Some "bkt"%string) (mkCallerId true 64) None = Caller "myapp") by (by vm_compute).
  split; [exact E |]. exact (proj2 (fairness_key_resolved _ _ _ _ _ E)).
Defined.

Lemma fleet_ceiling_witness :
  let '(l', n') := fleet_refresh 1000 2 2 (Some 3) (limiter_new 1000) in
  n' = 3 /\ (is_disabled l' = true <-> 1000 = 0) /\ 3 * ceiling_bps l' <= 1000 /\ available_tokens l' = 100.
Proof. exact (fleet_ceiling 1000 2 2 (Some 3) (limiter_new 1000) 3 ltac:(lia) ltac:(cbn; lia)). Defined.

(** ** Where the code departs from its comments *)

(** The store of the burst cap overwrites what a stream acquired since the load: the
    stream holds the whole bucket and the bucket holds the cap. *)
Example clamp_mints_tokens :
  let '(_, c, _) := drr_task [(5242880, Recv (mkReq class_a 1 0))] drr_start
                      (mkCell 1048576 [] [[]; []; [OpAcquire 1 1048576]]) in
  acquired (history c) 1048576 = 1048575 /\ tok c = 524288 /\ minted (history c) 1048576 = 524288.
Proof. by vm_compute. Qed.

(** The rotation starts every pass at the same class.  While the first class keeps a
    waiter queued that costs what a refill brings, the second gets nothing for as
    long as a blocked request waits before it fails open, its deficit growing. *)
Definition backlog : list (Z * drr_event) :=
  let arrival i := (sample_ceiling, Recv (mkReq class_a 1048576 i)) in
  [arrival 0%nat; (sample_ceiling, Recv (mkReq class_b 65536 100))] ++
  flat_map (fun i => [arrival (S i); (sample_ceiling, Tick)]) (seq 0 50).

Example second_class_starves :
  let '(s, _, woken) := drr_task backlog drr_start (mkCell 0 [] []) in
  length (of_key class_a woken) = 50%nat /\ of_key class_b woken = [] /\
  map grant_tx (queue_of class_b s) = [100%nat] /\ 100 * LEASE_QUANTUM <= deficit_of class_b s.
Proof. by vm_compute. Qed.

(** A ceiling under ten bytes per second, which the share of a fleet is floored to,
    refills nothing. *)
Lemma small_ceiling_never_refills ceiling : 1 <= ceiling < 10 -> burst_capacity ceiling = 0.
Proof. intros H. assert (ceiling ∈ [1; 2; 3; 4; 5; 6; 7; 8; 9]) as Hin by (rewrite !elem_of_cons; lia).
  repeat (apply elem_of_cons in Hin as [-> | Hin]; [by vm_compute |]). by apply elem_of_nil in Hin. Qed.

(** The mark of an application token is found inside a longer word. *)
Example app_inside_word : extract_app_token "webapp/2 x" = Some "2"%string.
Proof. by vm_compute. Qed.

(** The residual counts again the bytes the tracked classes already carry. *)
Example residual_counts_twice :
  let t := record_all (H := map_order) [("a", 1000); ("b", 2000); ("c", 3000)]%string (topk_new 2) in
  map_total id (counts t) = 6000 /\ residual t = 1000.
Proof. by vm_compute. Qed.

End Bw.
