(* ===== verification/Throttle.v ===== *)
(** * Throttled response streams ([throttle_stream.rs])

    The stream that holds each data frame of a response back until it has tokens for
    it: the lease it draws from, the slow path through the scheduler with its
    fail-open timeout, and the refund of what it did not spend.  What the stream
    meets at a poll (the timer, the grant, the frame offered, and what other threads
    did to the limiter) is an input of the poll. *)

From S2P Require Import Prelude RustStr CacheTypes Maps Bandwidth.
From stdpp Require Import gmap strings.

#[local] Open Scope Z_scope.

Module Thr.
Import Bw.

Inductive frame := Data (data : list Z) | Trailers (fields : list (string * string)).

(** What the inner stream answers to a poll. *)
Inductive inner_poll := InnerFrame (f : frame) | InnerErr (e : string) | InnerEnd | InnerPending.

(** What the receiver of the grant answers: the scheduler sent, dropped it, or neither. *)
Inductive grant_poll := Granted | Closed | Waiting.

Record ThrottleStream := mkThrottle {
  key : FairnessKey;
  local_balance : Z;
  known_len : option Z;
  bytes_consumed : Z;
  pending_grant : option nat;
  pending_lease : Z;
  pending_frame : option (list Z);
  pending_timeout : option unit;
}.

Definition throttle_new (k : FairnessKey) (len : option Z) : ThrottleStream :=
  mkThrottle k 0 len 0 None 0 None None.

(** The limiter as streams share it; the scheduler's channel is [None] once its task
    has exited. *)
Record world := mkWorld {
  limiter : Limiter;
  byte_tracker : TopKTracker;
  drr_tx : option (list DrrRequest);
  failopens : Z;
}.

Definition on_limiter (f : Limiter -> Limiter) (w : world) : world :=
  mkWorld (f (limiter w)) (byte_tracker w) (drr_tx w) (failopens w).

Definition enqueue_blocked (k : FairnessKey) (bytes : Z) (id : nat) (w : world) : world :=
  match drr_tx w with
  | Some sent => mkWorld (limiter w) (byte_tracker w) (Some (sent ++ [mkReq k bytes id])) (failopens w)
  | None => mkWorld (limiter w) (byte_tracker w) None (u64_add (failopens w) 1)
  end.

Definition desired_lease (n : Z) (known_len : option Z) (bytes_consumed : Z) : Z :=
  let based := match known_len with
               | Some total => Z.min LEASE_QUANTUM (saturating_sub total bytes_consumed)
               | None => if bytes_consumed <? LEASE_QUANTUM then n else LEASE_QUANTUM
               end in
  Z.max based n.

(** What other threads did to the limiter: the ceiling it has, and the accesses to
    the bucket. *)
Record meanwhile := mkMeanwhile { mw_ceiling : Z; mw_ops : list bucket_op }.

Definition pass (m : meanwhile) (w : world) : world :=
  on_limiter (fun l => mkLimiter (mw_ceiling m) (run_ops (mw_ops m) (available_tokens l))) w.

(** The inputs of one poll: what happened before it and, for a frame that needs a
    lease, between the test of the ceiling and the acquisition. *)
Record poll_input := mkInput {
  timeout_ready : bool;
  grant : grant_poll;
  inner : inner_poll;
  before : meanwhile;
  between : meanwhile;
  fresh_id : nat;
}.

Inductive poll :=
  | Ready (item : option (frame + string))
  | Pending
  | Panic.

Section Poll.
Context `{HashIter}.

Definition record (k : FairnessKey) (n : Z) (w : world) : world :=
  mkWorld (limiter w) (record_bytes k n (byte_tracker w)) (drr_tx w) (failopens w).

(** The fields that change as a frame of [n] bytes goes out. *)
Definition resolved (s : ThrottleStream) (balance n : Z) : ThrottleStream :=
  mkThrottle (key s) balance (known_len s) (u64_add (bytes_consumed s) n) None 0 None None.

Definition drawn (s : ThrottleStream) (balance n : Z) : ThrottleStream :=
  mkThrottle (key s) balance (known_len s) (u64_add (bytes_consumed s) n)
    (pending_grant s) (pending_lease s) (pending_frame s) (pending_timeout s).

Definition settled (s : ThrottleStream) : ThrottleStream :=
  mkThrottle (key s) 0 (known_len s) (bytes_consumed s) (pending_grant s) (pending_lease s) (pending_frame s) (pending_timeout s).

Definition drop (s : ThrottleStream) (w : world) : ThrottleStream * world :=
  (settled s, on_limiter (refund (local_balance s)) w).

(** A pending grant: the timer first, then the grant. *)
Definition poll_grant (i : poll_input) (s : ThrottleStream) (w : world) : ThrottleStream * world * poll :=
  if match pending_timeout s with Some _ => timeout_ready i | None => false end then
    match pending_frame s with
    | Some data => (resolved s (local_balance s) (zlen data), w, Ready (Some (inl (Data data))))
    | None => (s, w, Panic)
    end
  else
    match grant i with
    | Granted =>
        match pending_frame s with
        | Some data =>
            (resolved s (saturating_sub (pending_lease s) (zlen data)) (zlen data), record (key s) (zlen data) w,
             Ready (Some (inl (Data data))))
        | None => (s, w, Panic)
        end
    | Closed =>
        match pending_frame s with
        | Some data => (resolved s (local_balance s) (zlen data), w, Ready (Some (inl (Data data))))
        | None => (s, w, Panic)
        end
    | Waiting => (s, w, Pending)
    end.

(** A data frame offered. *)
Definition offer (i : poll_input) (data : list Z) (s : ThrottleStream) (w : world) : ThrottleStream * world * poll :=
  let n := zlen data in
  let out := Ready (Some (inl (Data data))) in
  if n =? 0 then (s, w, out) else
  if is_disabled (limiter w) then (drawn s (local_balance s) n, record (key s) n w, out) else
  if n <=? local_balance s then (drawn s (local_balance s - n) n, record (key s) n w, out) else
  let desired := desired_lease n (known_len s) (bytes_consumed s) in
  let w := pass (between i) w in
  match try_acquire n desired (limiter w) with
  | (l, Some granted) =>
      (drawn s (saturating_sub granted n) n, record (key s) n (on_limiter (fun _ => l) w), out)
  | (l, None) =>
      (mkThrottle (key s) (local_balance s) (known_len s) (bytes_consumed s) (Some (fresh_id i)) n (Some data) (Some tt),
       enqueue_blocked (key s) n (fresh_id i) (on_limiter (fun _ => l) w), Pending)
  end.

Definition poll_next (i : poll_input) (s : ThrottleStream) (w : world) : ThrottleStream * world * poll :=
  let w := pass (before i) w in
  match pending_grant s with
  | Some _ => poll_grant i s w
  | None =>
      match inner i with
      | InnerFrame (Data data) => offer i data s w
      | InnerFrame f => (s, w, Ready (Some (inl f)))
      | InnerErr e => (settled s, on_limiter (refund (local_balance s)) w, Ready (Some (inr e)))
      | InnerEnd => (settled s, on_limiter (refund (local_balance s)) w, Ready None)
      | InnerPending => (s, w, Pending)
      end
  end.

(** A run of polls: what came out, and what the inner stream gave. *)
Definition offered (i : poll_input) (s : ThrottleStream) : list inner_poll :=
  match pending_grant s with Some _ => [] | None => [inner i] end.

Fixpoint polls (ins : list poll_input) (s : ThrottleStream) (w : world) : ThrottleStream * world * list poll * list inner_poll :=
  match ins with
  | [] => (s, w, [], [])
  | i :: ins =>
      let given := offered i s in
      let '(s, w, p) := poll_next i s w in
      let '(s, w, ps, givens) := polls ins s w in
      (s, w, p :: ps, given ++ givens)
  end.

(** ** Frames come out in order and unchanged *)

(** A request waits exactly while a frame is held for it, under a timer. *)
Definition stream_ok (s : ThrottleStream) : Prop :=
  0 <= local_balance s /\
  match pending_grant s with
  | Some _ => exists data, pending_frame s = Some data /\ pending_lease s = zlen data /\ 0 < zlen data /\ pending_timeout s = Some tt
  | None => pending_frame s = None /\ pending_timeout s = None
  end.

Definition held (s : ThrottleStream) : list (option (frame + string)) :=
  match pending_frame s with Some data => [Some (inl (Data data))] | None => [] end.

Definition poll_items (p : poll) : list (option (frame + string)) :=
  match p with Ready x => [x] | _ => [] end.

Definition inner_items (r : inner_poll) : list (option (frame + string)) :=
  match r with
  | InnerFrame f => [Some (inl f)]
  | InnerErr e => [Some (inr e)]
  | InnerEnd => [None]
  | InnerPending => []
  end.

(** How a frame that goes out is paid for: from the lease, by a new lease from the
    bucket, by the scheduler, or not at all. *)
Inductive pay := FromLease | FromBucket (granted : Z) | FromScheduler | Free.

(** The balance before and after a frame of [n] bytes. *)
Inductive delivers (n : Z) : Z -> pay -> Z -> Prop :=
  | deliver_lease b : n <= b -> delivers n b FromLease (b - n)
  | deliver_bucket b g : 0 <= b -> n <= g -> delivers n b (FromBucket g) (g - n)
  | deliver_scheduler b : 0 <= b -> delivers n b FromScheduler 0
  | deliver_free b : delivers n b Free b.

(** When a frame goes out free: it is empty, the limiter is off, or its request timed
    out or was dropped. *)
Definition free_pass (i : poll_input) (s : ThrottleStream) (n : Z) : Prop :=
  match pending_grant s with
  | Some _ => timeout_ready i = true \/ grant i = Closed
  | None => n = 0 \/ mw_ceiling (before i) = 0
  end.

Lemma pass_tokens m w : available_tokens (limiter (pass m w)) = run_ops (mw_ops m) (available_tokens (limiter w)).
Proof. done. Qed.

Lemma desired_ge n len used : n <= desired_lease n len used.
Proof. unfold desired_lease. lia. Qed.

Lemma try_acquire_spec n d l l' r : 0 <= n <= d -> try_acquire n d l = (l', r) ->
  match r with
  | Some g => n <= g <= d /\ ceiling_bps l' = ceiling_bps l /\
      available_tokens l' = available_tokens l - (if is_disabled l then 0 else g)
  | None => l' = l /\ is_disabled l = false /\ available_tokens l < n
  end.
Proof.
  intros Hn. unfold try_acquire. destruct (is_disabled l) eqn:Ed; [intros [= <- <-]; split_and!; [lia | lia | done | lia] |].
  cbn [exec]. destruct (Z.ltb_spec (available_tokens l) n); intros [= <- <-]; [done |]. cbn. split_and!; try done; lia.
Qed.

(** What a poll does to the balance and the bucket. *)
Definition settles (i : poll_input) (s : ThrottleStream) (w : world) (s' : ThrottleStream) (w' : world) (p : poll) : Prop :=
  let t0 := run_ops (mw_ops (before i)) (available_tokens (limiter w)) in
  match p with
  | Ready (Some (inl (Data d))) => exists y, delivers (zlen d) (local_balance s) y (local_balance s') /\
      match y with
      | FromLease => available_tokens (limiter w') = t0
      | FromBucket g => g <= desired_lease (zlen d) (known_len s) (bytes_consumed s) /\
          available_tokens (limiter w') = run_ops (mw_ops (between i)) t0 - (if mw_ceiling (between i) =? 0 then 0 else g)
      | FromScheduler => is_Some (pending_grant s) /\ grant i = Granted /\ available_tokens (limiter w') = t0
      | Free => free_pass i s (zlen d) /\ available_tokens (limiter w') = t0
      end
  | Ready (Some (inl (Trailers _))) => s' = s /\ available_tokens (limiter w') = t0
  | Ready (Some (inr _)) | Ready None => local_balance s' = 0 /\ limiter w' = refund (local_balance s) (limiter (pass (before i) w))
  | Pending => local_balance s' = local_balance s
  | Panic => False
  end.

Lemma poll_grant_spec i s w s' w' p id :
  stream_ok s -> pending_grant s = Some id -> poll_grant i s (pass (before i) w) = (s', w', p) ->
  stream_ok s' /\ poll_items p ++ held s' = held s /\ settles i s w s' w' p.
Proof.
  intros [Hb Hok] Hg E. rewrite Hg in Hok. destruct Hok as (data & Hf & Hl & Hn & Ht).
  unfold poll_grant, held in *. rewrite Hf, Ht in *. unfold settles.
  destruct (timeout_ready i) eqn:Eto; [| destruct (grant i) eqn:Eg]; injection E as <- <- <-; cbn [poll_items app resolved pending_frame local_balance].
  - split_and!; [by split | done |]. exists Free. split; [constructor |]. split; [| done]. unfold free_pass. rewrite Hg. by left.
  - rewrite Hl. replace (saturating_sub (zlen data) (zlen data)) with 0 by (unfold saturating_sub; lia).
    split_and!; [by split | done |]. exists FromScheduler. split; [by constructor |]. rewrite Hg. by split_and!.
  - split_and!; [by split | done |]. exists Free. split; [constructor |]. split; [| done]. unfold free_pass. rewrite Hg. by right.
  - split_and!; [| by rewrite Hf | done]. split; [done |]. rewrite Hg. by exists data.
Qed.

Lemma offer_spec i data s w s' w' p :
  stream_ok s -> pending_grant s = None -> offer i data s (pass (before i) w) = (s', w', p) ->
  stream_ok s' /\ poll_items p ++ held s' = [Some (inl (Data data))] /\ settles i s w s' w' p.
Proof.
  intros Hs Hg E. pose proof Hs as [Hb Hok]. rewrite Hg in Hok. destruct Hok as [Hf Ht].
  pose proof (zlen_nonneg data) as Hn. unfold offer in E.
  assert (Hdr : forall b, 0 <= b -> stream_ok (drawn s b (zlen data))) by (intros b Hb'; split; [done | cbn; by rewrite Hg]).
  assert (Hh : held s = [] /\ forall b, held (drawn s b (zlen data)) = []) by (unfold held; cbn; by rewrite Hf).
  destruct Hh as [Hh Hh']. unfold settles.
  destruct (Z.eqb_spec (zlen data) 0) as [E0 |]; [injection E as <- <- <-; rewrite Hh; split_and!; [done | done |]; exists Free |].
  { split; [constructor |]. split; [| done]. unfold free_pass. rewrite Hg. by left. }
  destruct (is_disabled (limiter (pass (before i) w))) eqn:Ed; [injection E as <- <- <-; rewrite Hh'; split_and!; [by apply Hdr | done |]; exists Free |].
  { split; [constructor |]. split; [| done]. unfold free_pass. rewrite Hg. right. by apply Z.eqb_eq. }
  destruct (Z.leb_spec (zlen data) (local_balance s)); [injection E as <- <- <-; rewrite Hh'; split_and!; [apply Hdr; lia | done |]; exists FromLease |].
  { split; [by constructor | done]. }
  pose proof (desired_ge (zlen data) (known_len s) (bytes_consumed s)) as Hd.
  destruct (try_acquire _ _ _) as [l [g |]] eqn:Ea; destruct (try_acquire_spec _ _ _ _ _ (conj Hn Hd) Ea) as (H1 & H2 & H3); injection E as <- <- <-.
  - rewrite Hh'. unfold saturating_sub. rewrite Z.max_l by lia. split_and!; [apply Hdr; lia | done |]. exists (FromBucket g).
    split; [constructor; lia |]. split; [lia |]. cbn. rewrite H3. cbn. done.
  - split_and!; [| done | done]. split; [done |]. cbn. exists data. split_and!; [done | done | lia | done].
Qed.

Lemma poll_next_spec i s w s' w' p :
  stream_ok s -> poll_next i s w = (s', w', p) ->
  stream_ok s' /\ poll_items p ++ held s' = held s ++ flat_map inner_items (offered i s) /\ settles i s w s' w' p.
Proof.
  intros Hs E. unfold poll_next, offered in *. destruct (pending_grant s) as [id |] eqn:Hg.
  { cbn [flat_map]. rewrite app_nil_r. by eapply poll_grant_spec. }
  pose proof Hs as [Hb Hok]. rewrite Hg in Hok. destruct Hok as [Hf Ht].
  assert (Hh : held s = [] /\ held (settled s) = []) by (unfold held; cbn; by rewrite Hf). destruct Hh as [Hh Hh'].
  assert (Hst : stream_ok (settled s)) by (split; [done | cbn; by rewrite Hg]).
  destruct (inner i) as [[data | fs] | e | |] eqn:Ei; cbn [flat_map inner_items]; rewrite ?Hh, ?app_nil_r; cbn [app].
  - by eapply offer_spec.
  - injection E as <- <- <-. rewrite Hh. done.
  - injection E as <- <- <-. rewrite Hh'. done.
  - injection E as <- <- <-. rewrite Hh'. done.
  - injection E as <- <- <-. rewrite Hh. done.
Qed.

Lemma polls_spec ins : forall s w s' w' ps given,
  stream_ok s -> polls ins s w = (s', w', ps, given) ->
  stream_ok s' /\ (Panic ∉ ps) /\ flat_map poll_items ps ++ held s' = held s ++ flat_map inner_items given.
Proof.
  induction ins as [| i ins IH]; intros s w s' w' ps given Hs E.
  { injection E as <- <- <- <-. split_and!; [done | by intros ?%elem_of_nil |]. cbn. by rewrite app_nil_r. }
  cbn [polls] in E. destruct (poll_next i s w) as [[s1 w1] p] eqn:Ep. destruct (polls ins s1 w1) as [[[s2 w2] ps2] g2] eqn:Er.
  injection E as <- <- <- <-. destruct (poll_next_spec _ _ _ _ _ _ Hs Ep) as (Hs1 & H1 & H2).
  destruct (IH _ _ _ _ _ _ Hs1 Er) as (Hs2 & H3 & H4). split_and!; [done | |].
  - rewrite not_elem_of_cons. split; [| done]. intros <-. exact H2.
  - cbn [flat_map]. rewrite <- app_assoc, H4, flat_map_app, !app_assoc. by rewrite H1.
Qed.

(** Throttling changes when a response is delivered and nothing else.  From a new
    stream, whatever the timer, the grants and the other streams do, no poll panics,
    and what came out, with the frame held back, is what the inner stream gave: every
    frame, error and end once, unchanged and in order. *)
Theorem throttle_keeps_frames k len ins w :
  let '(s', _, ps, given) := polls ins (throttle_new k len) w in
  stream_ok s' /\ (Panic ∉ ps) /\ flat_map poll_items ps ++ held s' = flat_map inner_items given.
Proof.
  destruct (polls ins (throttle_new k len) w) as [[[s' w'] ps] given] eqn:E.
  assert (Hs : stream_ok (throttle_new k len)) by done. exact (polls_spec _ _ _ _ _ _ _ Hs E).
Qed.

(** ** What goes out is paid for *)

Definition data_bytes (p : poll) : Z := match p with Ready (Some (inl (Data d))) => zlen d | _ => 0 end.

(** What a payment brought: nothing new, the lease, or the frame's own bytes. *)
Definition credit (n : Z) (y : pay) : Z :=
  match y with FromLease => 0 | FromBucket g => g | FromScheduler | Free => n end.

(** The polls of a run, each with its payment where a frame went out. *)
Inductive paid_run : list poll_input -> ThrottleStream -> world -> list (Z * pay) -> ThrottleStream -> world -> Prop :=
  | paid_nil s w : paid_run [] s w [] s w
  | paid_frame i ins s w s1 w1 p y ys s' w' :
      poll_next i s w = (s1, w1, p) -> delivers (data_bytes p) (local_balance s) y (local_balance s1) ->
      (y = Free -> free_pass i s (data_bytes p)) -> paid_run ins s1 w1 ys s' w' ->
      paid_run (i :: ins) s w ((data_bytes p, y) :: ys) s' w'
  | paid_other i ins s w s1 w1 p ys s' w' :
      poll_next i s w = (s1, w1, p) -> data_bytes p = 0 -> local_balance s1 <= local_balance s ->
      paid_run ins s1 w1 ys s' w' -> paid_run (i :: ins) s w ys s' w'.

Lemma polls_paid ins : forall s w s' w' ps given,
  stream_ok s -> polls ins s w = (s', w', ps, given) ->
  exists ys, paid_run ins s w ys s' w' /\ sum_by data_bytes ps = sum_by fst ys.
Proof.
  induction ins as [| i ins IH]; intros s w s' w' ps given Hs E.
  { injection E as <- <- <- <-. exists []. split; [constructor | done]. }
  cbn [polls] in E. destruct (poll_next i s w) as [[s1 w1] p] eqn:Ep. destruct (polls ins s1 w1) as [[[s2 w2] ps2] g2] eqn:Er.
  injection E as <- <- <- <-. destruct (poll_next_spec _ _ _ _ _ _ Hs Ep) as (Hs1 & _ & H2).
  destruct (IH _ _ _ _ _ _ Hs1 Er) as (ys & Hr & Hsum). pose proof Hs as [Hb _]. rewrite sum_by_cons, Hsum.
  assert (Hother : data_bytes p = 0 -> local_balance s1 <= local_balance s ->
    exists ys', paid_run (i :: ins) s w ys' s2 w2 /\ data_bytes p + sum_by fst ys = sum_by fst ys').
  { intros H0 Hle. exists ys. split; [by eapply paid_other | lia]. }
  destruct p as [[[[d | f] | e] |] | |]; cbn [settles] in H2; [| apply Hother; [done |] .. | done].
  - destruct H2 as (y & Hy & Hc). exists ((zlen d, y) :: ys). rewrite sum_by_cons. split; [| done].
    refine (paid_frame i ins s w s1 w1 _ y ys s2 w2 Ep Hy _ Hr). intros ->. exact (proj1 Hc).
  - destruct H2 as [-> _]. lia.
  - destruct H2 as [-> _]. lia.
  - destruct H2 as [-> _]. lia.
  - lia.
Qed.

Lemma paid_run_bound ins s w ys s' w' :
  paid_run ins s w ys s' w' -> sum_by fst ys + local_balance s' <= local_balance s + sum_by (fun ny => credit ny.1 ny.2) ys.
Proof.
  induction 1 as [s w | i ins s w s1 w1 p y ys s' w' E Hd Hf Hr IH | i ins s w s1 w1 p ys s' w' E H0 Hle Hr IH]; [cbn; lia | | lia].
  rewrite !sum_by_cons. cbn [fst snd]. inversion Hd; subst; cbn [credit]; lia.
Qed.

(** A stream sends no more than it paid for.  The bytes that came out and the
    lease that is left are within the leases it took from the bucket, the grants of
    the scheduler and the frames let out free; and a frame goes out free only when it
    is empty, throttling is off, or its wait timed out or the scheduler is gone. *)
Theorem throttled_bytes_paid k len ins w :
  let '(s', w', ps, _) := polls ins (throttle_new k len) w in
  exists ys, paid_run ins (throttle_new k len) w ys s' w' /\
    sum_by data_bytes ps + local_balance s' <= sum_by (fun ny => credit ny.1 ny.2) ys.
Proof.
  destruct (polls ins (throttle_new k len) w) as [[[s' w'] ps] given] eqn:E.
  assert (Hs : stream_ok (throttle_new k len)) by done.
  destruct (polls_paid _ _ _ _ _ _ _ Hs E) as (ys & Hr & ->). exists ys. split; [done |].
  pose proof (paid_run_bound _ _ _ _ _ _ Hr) as Hb. exact Hb.
Qed.

(** A parked frame goes out at the first poll that finds its timer run out, its grant
    sent or the scheduler gone. *)
Lemma parked_frame_goes_out i s w id :
  stream_ok s -> pending_grant s = Some id -> timeout_ready i = true \/ grant i <> Waiting ->
  exists data s' w', pending_frame s = Some data /\ poll_next i s w = (s', w', Ready (Some (inl (Data data)))) /\ pending_grant s' = None.
Proof.
  intros [Hb Hok] Hg Hi. unfold poll_next, poll_grant. rewrite Hg in *. destruct Hok as (data & -> & Hl & Hn & ->). exists data.
  destruct (timeout_ready i); [by do 2 eexists |]. destruct Hi as [? | Hi]; [done |]. destruct (grant i); [by do 2 eexists .. | done].
Qed.

(** A lease covers the frame it is taken for, is at most a quantum beyond it, and is
    never more than what is left of a response of known length; a response of unknown
    length leases frame by frame until it has sent a quantum. *)
Lemma desired_lease_bounds n len used : 0 <= n -> 0 <= used ->
  n <= desired_lease n len used <= Z.max n LEASE_QUANTUM /\
  match len with
  | Some total => used + n <= total -> desired_lease n len used <= total - used
  | None => used < LEASE_QUANTUM -> desired_lease n len used = n
  end.
Proof.
  intros Hn Hu. unfold desired_lease, saturating_sub. pose proof quantum_pos. destruct len as [total |]; [lia |].
  destruct (Z.ltb_spec used LEASE_QUANTUM); lia.
Qed.

(** ** Where the code departs from its comments *)

Definition quiet (ceiling : Z) : meanwhile := mkMeanwhile ceiling [].

Definition sample_input (t : bool) (g : grant_poll) (r : inner_poll) : poll_input :=
  mkInput t g r (quiet sample_ceiling) (quiet sample_ceiling) 7.

Definition sample_world (tokens : Z) : world := mkWorld (mkLimiter sample_ceiling tokens) (topk_new 4) (Some []) 0.

End Poll.

(** The rest of a lease is lost when the next frame needs a new one: three bytes of a
    lease of eight are neither spent nor returned. *)
Example lease_rest_lost :
  let frame := InnerFrame (Data [1; 2; 3; 4; 5]) in
  let '(s, w, ps, _) := polls (H := map_order)
    [sample_input false Waiting frame; sample_input false Waiting frame; sample_input false Waiting InnerEnd]
    (mkThrottle class_a 3 None 0 None 0 None None) (sample_world 100) in
  sum_by data_bytes ps = 10 /\ local_balance s = 0 /\ available_tokens (limiter w) = 90.
Proof. by vm_compute. Qed.

(** A wait that times out is not counted, its bytes are not recorded, and its request
    stays with the scheduler, which takes tokens for the frame that is already out. *)
Example timeout_uncounted :
  let frame := InnerFrame (Data [1; 2; 3; 4; 5]) in
  let '(s, w, ps, _) := polls (H := map_order)
    [sample_input false Waiting frame; sample_input true Waiting frame] (throttle_new class_a None) (sample_world 0) in
  sum_by data_bytes ps = 5 /\ failopens w = 0 /\ counts (byte_tracker w) = ∅ /\ drr_tx w = Some [mkReq class_a 5 7] /\
  let '(_, c, woken) := drr_task [(sample_ceiling, Recv (mkReq class_a 5 7)); (sample_ceiling, Tick)] drr_start (mkCell 0 [] []) in
  length woken = 1%nat /\ tok c = 1048571.
Proof. by vm_compute. Qed.

End Thr.
