(* ===== verification/Hedge.v ===== *)
(** * Hedged upstream requests ([hedged_fetch.rs])

    The race of an upstream fetch against a second, identical one that is issued when
    the first is slow: its handlers, and the system of all races of a process, which
    share the governor's counters, the metrics and, within a request, a budget, as a
    step relation.  The two loads and the increment of an admission are separate steps,
    since races run on several threads; between two awaits of one race nothing else of
    that race happens. *)

From S2P Require Import Prelude CacheTypes Floats.
From stdpp Require Import base list strings.
From Stdlib Require Import SpecFloat.

#[local] Open Scope Z_scope.

Module Hedging.

Section Race.
Context {S3Response IpAddr : Type}.

(** ** The governor and the metrics *)

Record HedgeGovernor := mkGovernor { inflight_fetches : Z; inflight_hedges : Z }.

Definition governor_new : HedgeGovernor := mkGovernor 0 0.

Definition start_fetch (g : HedgeGovernor) : HedgeGovernor := mkGovernor (u64_add (inflight_fetches g) 1) (inflight_hedges g).

Definition drop_fetch (g : HedgeGovernor) : HedgeGovernor := mkGovernor (wrap64 (inflight_fetches g - 1)) (inflight_hedges g).

Definition add_hedge (g : HedgeGovernor) : HedgeGovernor := mkGovernor (inflight_fetches g) (u64_add (inflight_hedges g) 1).

Definition drop_hedge (g : HedgeGovernor) : HedgeGovernor := mkGovernor (inflight_fetches g) (wrap64 (inflight_hedges g - 1)).

(** Whether the counters loaded admit another hedge. *)
Definition admits (max_inflight_fraction : spec_float) (fetches hedges : Z) : bool :=
  (hedges =? 0) ||
  negb (SFltb max_inflight_fraction (f64_div (u64_to_f64 (u64_add hedges 1)) (u64_to_f64 (Z.max fetches 1)))).

Record HedgeMetrics := mkMetrics { issued : Z; won : Z; suppressed : Z }.

Definition metrics_new : HedgeMetrics := mkMetrics 0 0 0.

Definition record_issued (m : HedgeMetrics) : HedgeMetrics := mkMetrics (u64_add (issued m) 1) (won m) (suppressed m).

Definition record_won (m : HedgeMetrics) : HedgeMetrics := mkMetrics (issued m) (u64_add (won m) 1) (suppressed m).

Definition record_suppressed (m : HedgeMetrics) : HedgeMetrics := mkMetrics (issued m) (won m) (u64_add (suppressed m) 1).

(** ** A race *)

Inductive ArmResult := Response (resp : S3Response) | TimedOut | TransportError (e : ProxyError).

Inductive RaceOutcome := Winner (resp : S3Response) | AllTimedOut | RaceError (e : ProxyError).

(** [request] names the client request whose hedge budget a race shares, and [timed]
    says whether its arms have a first-byte timeout.  The second arm: asleep, with the budget claimed, with the counters loaded, in
    flight, or done, where [None] is a hedge that was never issued. *)
Inductive hedge_arm :=
  | Sleeping
  | Claimed
  | LoadedFetches (fetches : Z)
  | LoadedBoth (fetches hedges : Z)
  | InFlight
  | HedgeDone (result : option ArmResult).

Inductive status := Running | Returned (o : RaceOutcome) | Cancelled.

Record race := mkRace {
  request : nat;
  timed : bool;
  original : option ArmResult;
  hedge : hedge_arm;
  last_error : option ProxyError;
  all_timed_out : bool;
  state : status;
}.

Definition race_new (request : nat) (timed : bool) : race := mkRace request timed None Sleeping None true Running.

(** The flags after an arm finished without a status. *)
Definition note (result : option ArmResult) (r : race) : race :=
  match result with
  | Some (TransportError e) => mkRace (request r) (timed r) (original r) (hedge r) (Some e) false (state r)
  | _ => r
  end.

Definition no_status_error : ProxyError := ConnectionError "Both hedge arms failed without a status".

Definition hedge_is_done (h : hedge_arm) : bool := match h with HedgeDone _ => true | _ => false end.

Definition original_is_done (o : option ArmResult) : bool := match o with Some _ => true | None => false end.

Definition return_ (o : RaceOutcome) (r : race) : race :=
  mkRace (request r) (timed r) (original r) (hedge r) (last_error r) (all_timed_out r) (Returned o).

(** The end of a turn of the loop. *)
Definition settle (r : race) : race :=
  if original_is_done (original r) && hedge_is_done (hedge r) then
    return_ (if all_timed_out r then AllTimedOut else RaceError (default no_status_error (last_error r))) r
  else r.

Definition set_original (result : ArmResult) (r : race) : race :=
  mkRace (request r) (timed r) (Some result) (hedge r) (last_error r) (all_timed_out r) (state r).

Definition set_hedge (h : hedge_arm) (r : race) : race :=
  mkRace (request r) (timed r) (original r) h (last_error r) (all_timed_out r) (state r).

Definition original_finishes (result : ArmResult) (r : race) : race :=
  let r := set_original result r in
  match result with
  | Response resp => return_ (Winner resp) r
  | _ => settle (note (Some result) r)
  end.

Definition hedge_finishes (result : option ArmResult) (r : race) : race :=
  let r := set_hedge (HedgeDone result) r in
  match result with
  | Some (Response resp) => return_ (Winner resp) r
  | _ => settle (note result r)
  end.

(** ** Call sites *)

Definition select_ip_pair (ips : list IpAddr) : option IpAddr * option IpAddr :=
  match ips with
  | [] => (None, None)
  | [ip] => (Some ip, Some ip)
  | ip :: ip' :: _ => (Some ip, Some ip')
  end.

(** What the caller gets from a race without a first-byte timeout. *)
Definition fetch_result (o : RaceOutcome) : Result S3Response :=
  match o with
  | Winner resp => Ok resp
  | RaceError e => Err e
  | AllTimedOut => Err (ConnectionError "hedged fetch reported AllTimedOut with no first-byte timeout configured")
  end.

(** ** All races of a process *)

Record system := mkSystem {
  governor : HedgeGovernor;
  metrics : HedgeMetrics;
  budgets : nat -> Z;
  races : list race;
}.

Definition set_budget (i : nat) (b : Z) (budgets : nat -> Z) : nat -> Z := fun j => if decide (j = i) then b else budgets j.

(** The guards a race holds: its fetch, and its hedge while that is in flight. *)
Definition is_running (r : race) : bool := match state r with Running => true | _ => false end.

Definition holds_hedge (r : race) : bool := is_running r && match hedge r with InFlight => true | _ => false end.

(** Dropping what a race that ends still holds. *)
Definition release (before : race) (after : race) (g : HedgeGovernor) : HedgeGovernor :=
  let g := if holds_hedge before && negb (holds_hedge after) then drop_hedge g else g in
  if is_running before && negb (is_running after) then drop_fetch g else g.

(** A race can be polled for its arms between awaits only. *)
Definition at_await (r : race) : Prop :=
  state r = Running /\ match hedge r with Sleeping | InFlight | HedgeDone _ => True | _ => False end.

(** An arm times out only when the race has a first-byte timeout. *)
Definition may_finish (r : race) (result : ArmResult) : Prop := result = TimedOut -> timed r = true.

Inductive step (max_inflight_fraction : spec_float) : system -> system -> Prop :=
  | step_start g m b rs i timed : step max_inflight_fraction (mkSystem g m b rs) (mkSystem (start_fetch g) m b (rs ++ [race_new i timed]))
  | step_original g m b rs1 r rs2 result :
      at_await r -> original r = None -> may_finish r result ->
      step max_inflight_fraction (mkSystem g m b (rs1 ++ r :: rs2))
        (mkSystem (release r (original_finishes result r) g) m b (rs1 ++ original_finishes result r :: rs2))
  | step_trigger g m b rs1 r rs2 :
      state r = Running -> hedge r = Sleeping -> 0 < b (request r) ->
      step max_inflight_fraction (mkSystem g m b (rs1 ++ r :: rs2))
        (mkSystem g m (set_budget (request r) (b (request r) - 1) b) (rs1 ++ set_hedge Claimed r :: rs2))
  | step_no_budget g m b rs1 r rs2 :
      state r = Running -> hedge r = Sleeping -> b (request r) <= 0 ->
      step max_inflight_fraction (mkSystem g m b (rs1 ++ r :: rs2))
        (mkSystem (release r (hedge_finishes None r) g) (record_suppressed m) b (rs1 ++ hedge_finishes None r :: rs2))
  | step_load_fetches g m b rs1 r rs2 :
      state r = Running -> hedge r = Claimed ->
      step max_inflight_fraction (mkSystem g m b (rs1 ++ r :: rs2))
        (mkSystem g m b (rs1 ++ set_hedge (LoadedFetches (inflight_fetches g)) r :: rs2))
  | step_load_hedges g m b rs1 r rs2 fetches :
      state r = Running -> hedge r = LoadedFetches fetches ->
      step max_inflight_fraction (mkSystem g m b (rs1 ++ r :: rs2))
        (mkSystem g m b (rs1 ++ set_hedge (LoadedBoth fetches (inflight_hedges g)) r :: rs2))
  | step_admit g m b rs1 r rs2 fetches hedges :
      state r = Running -> hedge r = LoadedBoth fetches hedges -> admits max_inflight_fraction fetches hedges = true ->
      step max_inflight_fraction (mkSystem g m b (rs1 ++ r :: rs2))
        (mkSystem (add_hedge g) (record_issued m) b (rs1 ++ set_hedge InFlight r :: rs2))
  | step_refuse g m b rs1 r rs2 fetches hedges :
      state r = Running -> hedge r = LoadedBoth fetches hedges -> admits max_inflight_fraction fetches hedges = false ->
      step max_inflight_fraction (mkSystem g m b (rs1 ++ r :: rs2))
        (mkSystem (release r (hedge_finishes None r) g) (record_suppressed m)
           (set_budget (request r) (u64_add (b (request r)) 1) b) (rs1 ++ hedge_finishes None r :: rs2))
  | step_hedge g m b rs1 r rs2 result :
      state r = Running -> hedge r = InFlight -> may_finish r result ->
      step max_inflight_fraction (mkSystem g m b (rs1 ++ r :: rs2))
        (mkSystem (release r (hedge_finishes (Some result) r) g)
           (match result with Response _ => record_won m | _ => m end) b (rs1 ++ hedge_finishes (Some result) r :: rs2))
  | step_cancel g m b rs1 r rs2 :
      at_await r ->
      step max_inflight_fraction (mkSystem g m b (rs1 ++ r :: rs2))
        (let r' := mkRace (request r) (timed r) (original r) (hedge r) (last_error r) (all_timed_out r) Cancelled in
         mkSystem (release r r' g) m b (rs1 ++ r' :: rs2)).

(** ** What holds of every race *)

(** An error of a race is one of its arms'. *)
Definition arm_error (r : race) (e : ProxyError) : Prop :=
  original r = Some (TransportError e) \/ hedge r = HedgeDone (Some (TransportError e)).

Definition no_response (r : race) : Prop :=
  forall resp, original r <> Some (Response resp) /\ hedge r <> HedgeDone (Some (Response resp)).

(** The flags of the loop say what the arms did. *)
Definition flags_ok (r : race) : Prop :=
  (all_timed_out r = true -> last_error r = None /\ forall e, ~ arm_error r e) /\
  (all_timed_out r = false -> exists e, last_error r = Some e /\ arm_error r e).

Definition both_done (r : race) : Prop := original_is_done (original r) = true /\ hedge_is_done (hedge r) = true.

Definition race_ok (r : race) : Prop :=
  match state r with
  | Running => no_response r /\ flags_ok r /\ ~ both_done r
  | Returned (Winner resp) => original r = Some (Response resp) \/ hedge r = HedgeDone (Some (Response resp))
  | Returned AllTimedOut => original r = Some TimedOut /\ (hedge r = HedgeDone None \/ hedge r = HedgeDone (Some TimedOut))
  | Returned (RaceError e) => no_response r /\ both_done r /\ arm_error r e
  | Cancelled => True
  end.

Lemma race_new_ok i timed : race_ok (race_new i timed).
Proof.
  split_and!; [done | split; [| done] | by intros [? _]]. intros _. split; [done |]. by intros e [? | ?].
Qed.

Lemma settle_ok r : state r = Running -> no_response r -> flags_ok r -> race_ok (settle r).
Proof.
  intros Hs Hn Hf. unfold settle. destruct (original_is_done (original r)) eqn:Eo; [destruct (hedge_is_done (hedge r)) eqn:Eh |]; cbn [andb].
  - unfold race_ok. destruct Hf as [Ht Hfalse]. destruct (all_timed_out r) eqn:Ea; cbn [return_ state].
    + destruct (Ht eq_refl) as [_ He]. unfold arm_error in He.
      destruct r as [q tm [[| | e] |] [| | | | | [[| | e'] |]] le ta st]; cbn in *; try done; try (by destruct (Hn resp) as [? ?]);
        try (exfalso; by eapply He; eauto); split; try done; auto.
    + destruct (Hfalse eq_refl) as (e & -> & He). cbn. by split_and!.
  - unfold race_ok. rewrite Hs. split_and!; [done | done |]. intros [_ ?]. congruence.
  - unfold race_ok. rewrite Hs. split_and!; [done | done |]. intros [? _]. congruence.
Qed.

Lemma original_finishes_ok result r :
  race_ok r -> state r = Running -> original r = None -> race_ok (original_finishes result r).
Proof.
  intros Hok Hs Ho. unfold race_ok in Hok. rewrite Hs in Hok. destruct Hok as (Hn & [Hf1 Hf2] & _). unfold original_finishes.
  destruct result as [resp | | e]; [by left | |]; apply settle_ok; try done.
  - intros resp. destruct (Hn resp) as [_ ?]. done.
  - split; intros Ha; [destruct (Hf1 Ha) as [Hl He] | destruct (Hf2 Ha) as (e & Hl & He)].
    + split; [done |]. intros e [? | ?]; [done |]. apply (He e). by right.
    + exists e. split; [done |]. destruct He as [? | ?]; [congruence | by right].
  - intros resp. destruct (Hn resp) as [_ ?]. done.
  - split; [done |]. intros _. exists e. split; [done | by left].
Qed.

Lemma hedge_finishes_ok result r :
  race_ok r -> state r = Running -> hedge_is_done (hedge r) = false -> race_ok (hedge_finishes result r).
Proof.
  intros Hok Hs Hh. unfold race_ok in Hok. rewrite Hs in Hok. destruct Hok as (Hn & [Hf1 Hf2] & _). unfold hedge_finishes.
  assert (Hno : forall e, arm_error r e -> original r = Some (TransportError e)) by (intros e [? | Hx]; [done | by rewrite Hx in Hh]).
  destruct result as [[resp | | e] |]; [by right | | |]; apply settle_ok; try done.
  - intros resp. destruct (Hn resp) as [? _]. done.
  - split; intros Ha; [destruct (Hf1 Ha) as [Hl He] | destruct (Hf2 Ha) as (e & Hl & He)].
    + split; [done |]. intros e [? | ?]; [| done]. apply (He e). by left.
    + exists e. split; [done |]. left. by apply Hno.
  - intros resp. destruct (Hn resp) as [? _]. done.
  - split; [done |]. intros _. exists e. split; [done | by right].
  - intros resp. destruct (Hn resp) as [? _]. done.
  - split; intros Ha; [destruct (Hf1 Ha) as [Hl He] | destruct (Hf2 Ha) as (e & Hl & He)].
    + split; [done |]. intros e [? | ?]; [| done]. apply (He e). by left.
    + exists e. split; [done |]. left. by apply Hno.
Qed.

(** Moving the second arm on without finishing it. *)
Lemma set_hedge_ok h r :
  race_ok r -> state r = Running -> hedge_is_done (hedge r) = false -> hedge_is_done h = false -> race_ok (set_hedge h r).
Proof.
  intros Hok Hs Hh Hh'. unfold race_ok in *. cbn [state set_hedge]. rewrite Hs in *. destruct Hok as (Hn & [Hf1 Hf2] & Hb).
  assert (Hne : forall x, h <> HedgeDone x) by (intros x ->; done).
  split_and!.
  - intros resp. destruct (Hn resp) as [? _]. split; [done | apply Hne].
  - split; intros Ha; [destruct (Hf1 Ha) as [Hl He] | destruct (Hf2 Ha) as (e & Hl & He)].
    + split; [done |]. intros e [? | ?]; [apply (He e); by left | by apply (Hne (Some (TransportError e)))].
    + exists e. split; [done |]. destruct He as [? | Hx]; [by left | by rewrite Hx in Hh].
  - intros [_ Hx]. cbn in Hx. congruence.
Qed.

(** ** The invariant of the system *)

Definition was_issued (r : race) : bool := match hedge r with InFlight | HedgeDone (Some _) => true | _ => false end.

Definition hedge_won (r : race) : bool := match hedge r with HedgeDone (Some (Response _)) => true | _ => false end.

Definition hedge_suppressed (r : race) : bool := match hedge r with HedgeDone None => true | _ => false end.

(** The races of a request that hold a unit of its budget. *)
Definition charged (i : nat) (r : race) : bool :=
  Nat.eqb (request r) i &&
  match hedge r with Claimed | LoadedFetches _ | LoadedBoth _ _ | InFlight | HedgeDone (Some _) => true | _ => false end.

Definition count (p : race -> bool) (rs : list race) : Z := sum_by (fun r => if p r then 1 else 0) rs.

(** An original that timed out had a timeout. *)
Definition timeout_ok (r : race) : Prop := original r = Some TimedOut -> timed r = true.

Record sys_ok (init : nat -> Z) (s : system) : Prop := {
  ok_races : Forall race_ok (races s);
  ok_timeouts : Forall timeout_ok (races s);
  ok_fetches : inflight_fetches (governor s) = wrap64 (count is_running (races s));
  ok_hedges : inflight_hedges (governor s) = wrap64 (count holds_hedge (races s));
  ok_issued : issued (metrics s) = wrap64 (count was_issued (races s));
  ok_won : won (metrics s) = wrap64 (count hedge_won (races s));
  ok_suppressed : suppressed (metrics s) = wrap64 (count hedge_suppressed (races s));
  ok_budgets : forall i, 0 <= budgets s i /\ budgets s i + count (charged i) (races s) = init i;
}.

Definition ind (p : race -> bool) (r : race) : Z := if p r then 1 else 0.

Lemma count_replace p rs1 r r' rs2 : count p (rs1 ++ r' :: rs2) = count p (rs1 ++ r :: rs2) + (ind p r' - ind p r).
Proof. unfold count, ind. rewrite !sum_by_app, !sum_by_cons. lia. Qed.

Lemma wrap64_shift a b d : a = wrap64 b -> wrap64 (a + d) = wrap64 (b + d).
Proof. intros ->. unfold wrap64. by rewrite Z.add_mod_idemp_l. Qed.

Lemma wrap64_stays a b : a = wrap64 b -> a = wrap64 (a + 0).
Proof. intros ->. unfold wrap64. by rewrite Z.add_0_r, Zmod_mod. Qed.

(** One race moves, and the shared counters move with it. *)
Lemma replace_ok init g m b g' m' b' rs1 r r' rs2 :
  sys_ok init (mkSystem g m b (rs1 ++ r :: rs2)) ->
  race_ok r' -> timeout_ok r' ->
  inflight_fetches g' = wrap64 (inflight_fetches g + (ind is_running r' - ind is_running r)) ->
  inflight_hedges g' = wrap64 (inflight_hedges g + (ind holds_hedge r' - ind holds_hedge r)) ->
  issued m' = wrap64 (issued m + (ind was_issued r' - ind was_issued r)) ->
  won m' = wrap64 (won m + (ind hedge_won r' - ind hedge_won r)) ->
  suppressed m' = wrap64 (suppressed m + (ind hedge_suppressed r' - ind hedge_suppressed r)) ->
  (forall i, 0 <= b' i /\ b' i + ind (charged i) r' = b i + ind (charged i) r) ->
  sys_ok init (mkSystem g' m' b' (rs1 ++ r' :: rs2)).
Proof.
  intros [Hr Ht Hf Hh Hi Hw Hs Hb] Hok Hto Ef Eh Ei Ew Es Eb. cbn [races governor metrics budgets] in *. rewrite !Forall_app, !Forall_cons in *.
  split; cbn [races governor metrics budgets]; try (rewrite (count_replace _ rs1 r), ?Ef, ?Eh, ?Ei, ?Ew, ?Es; by apply wrap64_shift);
    try (rewrite Forall_app, Forall_cons; destruct Hr as (? & ? & ?), Ht as (? & ? & ?); by split_and!).
  intros i. destruct (Hb i) as [_ Hsum], (Eb i) as [? ?]. split; [done |]. rewrite (count_replace _ rs1 r). lia.
Qed.

Lemma release_fetches before after g :
  is_running before = true -> inflight_fetches g = wrap64 (inflight_fetches g) ->
  inflight_fetches (release before after g) = wrap64 (inflight_fetches g + (ind is_running after - ind is_running before)).
Proof.
  intros Hb Hg. unfold release, ind. rewrite Hb.
  assert (inflight_fetches (if holds_hedge before && negb (holds_hedge after) then drop_hedge g else g) = inflight_fetches g)
    as Hsame by (by destruct (_ && _)).
  destruct (is_running after); cbn [andb negb drop_fetch inflight_fetches]; rewrite Hsame.
  - by eapply wrap64_stays.
  - by f_equal.
Qed.

Lemma release_hedges before after g :
  (holds_hedge after = true -> holds_hedge before = true) -> inflight_hedges g = wrap64 (inflight_hedges g) ->
  inflight_hedges (release before after g) = wrap64 (inflight_hedges g + (ind holds_hedge after - ind holds_hedge before)).
Proof.
  intros Hb Hg. unfold release, ind.
  assert (forall b x, inflight_hedges (if b : bool then drop_fetch x else x) = inflight_hedges x) as -> by (by intros [] ?).
  destruct (holds_hedge after); [rewrite Hb by done | destruct (holds_hedge before)]; cbn [andb negb drop_hedge inflight_hedges];
    try (by eapply wrap64_stays); by f_equal.
Qed.

Lemma settle_frame r :
  hedge (settle r) = hedge r /\ request (settle r) = request r /\ timed (settle r) = timed r /\ original (settle r) = original r.
Proof. unfold settle. by destruct (_ && _). Qed.

Lemma note_frame result r :
  hedge (note result r) = hedge r /\ request (note result r) = request r /\ timed (note result r) = timed r /\
  original (note result r) = original r.
Proof. by destruct result as [[| |] |]. Qed.

Lemma original_finishes_frame result r :
  let r' := original_finishes result r in
  hedge r' = hedge r /\ request r' = request r /\ timed r' = timed r /\ original r' = Some result.
Proof.
  unfold original_finishes. destruct result; cbn zeta iota; [done | |];
    match goal with |- context [settle ?x] => destruct (settle_frame x) as (-> & -> & -> & ->) end;
    match goal with |- context [note ?x ?y] => by destruct (note_frame x y) as (-> & -> & -> & ->) end.
Qed.

Lemma hedge_finishes_frame result r :
  let r' := hedge_finishes result r in
  hedge r' = HedgeDone result /\ request r' = request r /\ timed r' = timed r /\ original r' = original r.
Proof.
  unfold hedge_finishes. destruct result as [[| |] |]; cbn zeta iota; [done | | |];
    match goal with |- context [settle ?x] => destruct (settle_frame x) as (-> & -> & -> & ->) end;
    match goal with |- context [note ?x ?y] => by destruct (note_frame x y) as (-> & -> & -> & ->) end.
Qed.

Lemma wrap64_wrapped a b : a = wrap64 b -> a = wrap64 a.
Proof. intros ->. unfold wrap64. by rewrite Zmod_mod. Qed.

Lemma counters_wrapped init s :
  sys_ok init s ->
  inflight_fetches (governor s) = wrap64 (inflight_fetches (governor s)) /\
  inflight_hedges (governor s) = wrap64 (inflight_hedges (governor s)) /\
  issued (metrics s) = wrap64 (issued (metrics s) + 0) /\
  won (metrics s) = wrap64 (won (metrics s) + 0) /\
  suppressed (metrics s) = wrap64 (suppressed (metrics s) + 0).
Proof. intros [_ _ Hf Hh Hi Hw Hs _]. split_and!; eauto using wrap64_wrapped, wrap64_stays. Qed.

(** The original finishing, or the race being cancelled, moves no hedge counter. *)
Lemma same_hedge_ok init g m b rs1 r r' rs2 :
  sys_ok init (mkSystem g m b (rs1 ++ r :: rs2)) ->
  state r = Running -> race_ok r' -> timeout_ok r' -> hedge r' = hedge r -> request r' = request r ->
  sys_ok init (mkSystem (release r r' g) m b (rs1 ++ r' :: rs2)).
Proof.
  intros Hok Hs Hr' Ht Hh Hq. destruct (counters_wrapped _ _ Hok) as (Wf & Wh & Wi & Ww & Ws).
  assert (Hrun : is_running r = true) by (unfold is_running; by rewrite Hs).
  assert (forall p : race -> bool, p r' = p r -> ind p r' - ind p r = 0) as Hz by (intros p Hp; unfold ind; rewrite Hp; lia).
  eapply replace_ok; [exact Hok | done | done | | | | | |].
  - by apply release_fetches.
  - apply release_hedges; [| done]. unfold holds_hedge. rewrite Hrun, Hh. by destruct (is_running r').
  - rewrite Hz; [done |]. unfold was_issued. by rewrite Hh.
  - rewrite Hz; [done |]. unfold hedge_won. by rewrite Hh.
  - rewrite Hz; [done |]. unfold hedge_suppressed. by rewrite Hh.
  - intros i. split; [apply (ok_budgets _ _ Hok i) |].
    assert (charged i r' = charged i r) as Hc by (unfold charged; by rewrite Hh, Hq). cbn [budgets]. unfold ind. by rewrite Hc.
Qed.

(** The hedge moving on, the race not at an end. *)
Lemma set_hedge_step_ok init g m b g' m' b' rs1 r rs2 h :
  sys_ok init (mkSystem g m b (rs1 ++ r :: rs2)) ->
  state r = Running -> hedge_is_done (hedge r) = false -> hedge_is_done h = false ->
  inflight_fetches g' = inflight_fetches g ->
  inflight_hedges g' = wrap64 (inflight_hedges g + (ind holds_hedge (set_hedge h r) - ind holds_hedge r)) ->
  issued m' = wrap64 (issued m + (ind was_issued (set_hedge h r) - ind was_issued r)) ->
  won m' = won m -> suppressed m' = suppressed m ->
  (forall i, 0 <= b' i /\ b' i + ind (charged i) (set_hedge h r) = b i + ind (charged i) r) ->
  sys_ok init (mkSystem g' m' b' (rs1 ++ set_hedge h r :: rs2)).
Proof.
  intros Hok Hs Hd Hd' Ef Eh Ei Ew Es Eb. destruct (counters_wrapped _ _ Hok) as (Wf & Wh & Wi & Ww & Ws).
  assert (Hin : r ∈ rs1 ++ r :: rs2) by (apply elem_of_app; right; left).
  assert (race_ok r) by (by apply (proj1 (Forall_forall _ _) (ok_races _ _ Hok) r)).
  assert (timeout_ok r) by (by apply (proj1 (Forall_forall _ _) (ok_timeouts _ _ Hok) r)).
  cbn [governor metrics budgets] in *.
  eapply replace_ok; [exact Hok | by apply set_hedge_ok | done | | done | done | | | done].
  - rewrite Ef. unfold ind, is_running. cbn [set_hedge state]. rewrite Z.sub_diag. by eapply wrap64_stays.
  - rewrite Ew. unfold ind, hedge_won. cbn [set_hedge hedge]. destruct (hedge r), h; done.
  - rewrite Es. unfold ind, hedge_suppressed. cbn [set_hedge hedge]. destruct (hedge r), h; done.
Qed.

(** The hedge finishing, the race then at an end or not. *)
Lemma hedge_finishes_step_ok init g m b m' b' rs1 r rs2 (result : option ArmResult) :
  sys_ok init (mkSystem g m b (rs1 ++ r :: rs2)) ->
  state r = Running -> hedge_is_done (hedge r) = false ->
  issued m' = wrap64 (issued m + (match result with Some _ => 1 | None => 0 end - ind was_issued r)) ->
  won m' = wrap64 (won m + match result with Some (Response _) => 1 | _ => 0 end) ->
  suppressed m' = wrap64 (suppressed m + match result with Some _ => 0 | None => 1 end) ->
  (forall i, 0 <= b' i /\ b' i + (if Nat.eqb (request r) i && bool_decide (is_Some result) then 1 else 0) = b i + ind (charged i) r) ->
  sys_ok init (mkSystem (release r (hedge_finishes result r) g) m' b' (rs1 ++ hedge_finishes result r :: rs2)).
Proof.
  intros Hok Hs Hd Ei Ew Es Eb. destruct (counters_wrapped _ _ Hok) as (Wf & Wh & _).
  assert (Hrun : is_running r = true) by (unfold is_running; by rewrite Hs).
  assert (Hin : r ∈ rs1 ++ r :: rs2) by (apply elem_of_app; right; left).
  assert (race_ok r) by (by apply (proj1 (Forall_forall _ _) (ok_races _ _ Hok) r)).
  assert (timeout_ok r) by (by apply (proj1 (Forall_forall _ _) (ok_timeouts _ _ Hok) r)).
  destruct (hedge_finishes_frame result r) as (Fh & Fq & Ft & Fo). cbn [governor metrics budgets] in *.
  eapply replace_ok; [exact Hok | by apply hedge_finishes_ok | | | | | | |].
  - unfold timeout_ok. by rewrite Fo, Ft.
  - by apply release_fetches.
  - apply release_hedges; [| done]. unfold holds_hedge. rewrite Fh, andb_false_r. discriminate.
  - rewrite Ei. unfold ind at 2, was_issued at 2. rewrite Fh. by destruct result.
  - rewrite Ew. unfold ind, hedge_won. rewrite Fh. destruct (hedge r), result as [[] |]; done.
  - rewrite Es. unfold ind, hedge_suppressed. rewrite Fh. destruct (hedge r), result as [[] |]; done.
  - intros i. destruct (Eb i) as [? Hb]. split; [done |]. rewrite <- Hb. unfold ind, charged. rewrite Fq, Fh. by destruct result.
Qed.

Lemma start_ok init g m b rs i timed :
  sys_ok init (mkSystem g m b rs) -> sys_ok init (mkSystem (start_fetch g) m b (rs ++ [race_new i timed])).
Proof.
  intros [Hr Ht Hf Hh Hi Hw Hs Hb]. cbn [races governor metrics budgets] in *.
  split; cbn [races governor metrics budgets start_fetch inflight_fetches inflight_hedges]; unfold count in *; rewrite ?sum_by_app, ?Z.add_0_r;
    try (rewrite sum_by_cons; cbn [is_running race_new state]); try done.
  - apply Forall_app_2; [done |]. apply Forall_singleton, race_new_ok.
  - apply Forall_app_2; [done |]. by apply Forall_singleton.
  - unfold u64_add. by apply wrap64_shift.
  - intros j. rewrite sum_by_app, sum_by_cons. unfold charged at 2. cbn [race_new hedge request]. rewrite andb_false_r. cbn. rewrite !Z.add_0_r. apply Hb.
Qed.

(** A unit of the budget of one request taken or given back with a race's charge. *)
Lemma budget_moves init s r d (c c' : bool) :
  sys_ok init s -> 0 <= budgets s (request r) + d -> (if c' then 1 else 0) + d = (if c then 1 else 0) ->
  forall i, 0 <= set_budget (request r) (budgets s (request r) + d) (budgets s) i /\
    set_budget (request r) (budgets s (request r) + d) (budgets s) i + (if Nat.eqb (request r) i && c' then 1 else 0)
    = budgets s i + (if Nat.eqb (request r) i && c then 1 else 0).
Proof.
  intros Hok Hd Hc i. unfold set_budget. destruct (decide (i = request r)) as [-> | Hne].
  - rewrite Nat.eqb_refl. cbn [andb]. lia.
  - destruct (Nat.eqb_spec (request r) i); [congruence |]. cbn [andb]. pose proof (ok_budgets _ _ Hok i). lia.
Qed.

(** A charged race leaves the budget of its request short of its initial value. *)
Lemma charged_budget init s r :
  sys_ok init s -> r ∈ races s -> charged (request r) r = true -> budgets s (request r) + 1 <= init (request r).
Proof.
  intros Hok Hin Hc. destruct (ok_budgets _ _ Hok (request r)) as [_ <-].
  assert (1 <= count (charged (request r)) (races s)); [| lia].
  apply list_elem_of_split in Hin as (rs1 & rs2 & ->). unfold count. rewrite sum_by_app, sum_by_cons, Hc.
  assert (forall rs, 0 <= sum_by (fun r' => if charged (request r) r' then 1 else 0) rs) as Hn
    by (intros rs; apply sum_by_nonneg; intros x _; by destruct (charged _ x)).
  pose proof (Hn rs1). pose proof (Hn rs2). lia.
Qed.

(** The second arm between its wake-up and its admission: only the budget may move. *)
Definition deciding (h : hedge_arm) : bool :=
  match h with Sleeping | Claimed | LoadedFetches _ | LoadedBoth _ _ => true | _ => false end.

Lemma deciding_step_ok init g m b b' rs1 r rs2 h :
  sys_ok init (mkSystem g m b (rs1 ++ r :: rs2)) -> state r = Running -> deciding (hedge r) = true -> deciding h = true ->
  (forall i, 0 <= b' i /\ b' i + ind (charged i) (set_hedge h r) = b i + ind (charged i) r) ->
  sys_ok init (mkSystem g m b' (rs1 ++ set_hedge h r :: rs2)).
Proof.
  intros Hok Hs Hd Hd' Hb. destruct (counters_wrapped _ _ Hok) as (Wf & Wh & Wi & Ww & Ws).
  eapply set_hedge_step_ok; try done; [by destruct (hedge r) | by destruct h | |].
  - unfold ind, holds_hedge. cbn [set_hedge hedge]. destruct (hedge r), h; try done; rewrite !andb_false_r; by eapply wrap64_stays.
  - unfold ind, was_issued. cbn [set_hedge hedge]. by destruct (hedge r), h.
Qed.

(** A hedge that is not issued. *)
Lemma suppressed_step_ok init g m b b' rs1 r rs2 :
  sys_ok init (mkSystem g m b (rs1 ++ r :: rs2)) -> state r = Running -> deciding (hedge r) = true ->
  (forall i, 0 <= b' i /\ b' i = b i + ind (charged i) r) ->
  sys_ok init (mkSystem (release r (hedge_finishes None r) g) (record_suppressed m) b' (rs1 ++ hedge_finishes None r :: rs2)).
Proof.
  intros Hok Hs Hd Hb. destruct (counters_wrapped _ _ Hok) as (Wf & Wh & Wi & Ww & Ws).
  eapply hedge_finishes_step_ok; try done; [by destruct (hedge r) | |].
  - unfold ind, was_issued. by destruct (hedge r).
  - intros i. rewrite andb_false_r, Z.add_0_r. apply Hb.
Qed.

Lemma step_ok frac init s s' : (forall i, is_u64 (init i)) -> step frac s s' -> sys_ok init s -> sys_ok init s'.
Proof.
  intros Hu Hstep Hok. destruct (counters_wrapped _ _ Hok) as (Wf & Wh & Wi & Ww & Ws).
  assert (Hin : forall r rs1 rs2, races s = rs1 ++ r :: rs2 -> race_ok r /\ timeout_ok r).
  { intros r rs1 rs2 E. pose proof (ok_races _ _ Hok) as H1. pose proof (ok_timeouts _ _ Hok) as H2. rewrite E in H1, H2.
    apply Forall_app in H1 as [_ [? _]%Forall_cons], H2 as [_ [? _]%Forall_cons]. done. }
  destruct Hstep as [g m b rs i tm | g m b rs1 r rs2 result [Hs Ha] Ho Hf | g m b rs1 r rs2 Hs Hh Hb | g m b rs1 r rs2 Hs Hh Hb
    | g m b rs1 r rs2 Hs Hh | g m b rs1 r rs2 n Hs Hh | g m b rs1 r rs2 n k Hs Hh Had | g m b rs1 r rs2 n k Hs Hh Had
    | g m b rs1 r rs2 result Hs Hh Hf | g m b rs1 r rs2 [Hs Ha]];
    try (destruct (Hin r rs1 rs2 eq_refl) as [Hr Ht]); cbn [governor metrics budgets races] in *.
  - by apply start_ok.
  - destruct (original_finishes_frame result r) as (Fh & Fq & Ft & Fo).
    apply same_hedge_ok; try done; [by apply original_finishes_ok |].
    unfold timeout_ok. rewrite Fo, Ft. intros [= ->]. by apply Hf.
  - eapply deciding_step_ok; try done; [by rewrite Hh |].
    unfold ind, charged. cbn [set_hedge request hedge]. rewrite Hh. apply (budget_moves init _ r (-1) false true Hok); cbn; lia.
  - eapply suppressed_step_ok; try done; [by rewrite Hh |].
    intros i. unfold ind, charged. rewrite Hh, andb_false_r. pose proof (ok_budgets _ _ Hok i). cbn in *. lia.
  - eapply deciding_step_ok; try done; [by rewrite Hh |].
    intros i. unfold ind, charged. cbn [set_hedge request hedge]. rewrite Hh. split; [apply (ok_budgets _ _ Hok i) | done].
  - eapply deciding_step_ok; try done; [by rewrite Hh |].
    intros i. unfold ind, charged. cbn [set_hedge request hedge]. rewrite Hh. split; [apply (ok_budgets _ _ Hok i) | done].
  - eapply set_hedge_step_ok; try done; [by rewrite Hh | | |].
    + unfold ind, holds_hedge, is_running. cbn [set_hedge state hedge]. by rewrite Hs, Hh.
    + unfold ind, was_issued. cbn [set_hedge hedge]. by rewrite Hh.
    + intros i. unfold ind, charged. cbn [set_hedge request hedge]. rewrite Hh. split; [apply (ok_budgets _ _ Hok i) | done].
  - assert (Hc : charged (request r) r = true) by (unfold charged; by rewrite Hh, Nat.eqb_refl).
    pose proof (charged_budget _ _ r Hok ltac:(apply elem_of_app; right; left) Hc) as Hle. pose proof (ok_budgets _ _ Hok (request r)) as [Hb0 _].
    cbn [budgets] in Hle, Hb0. specialize (Hu (request r)). unfold is_u64 in Hu. rewrite u64_add_small by lia.
    eapply suppressed_step_ok; try done; [by rewrite Hh |].
    intros i. unfold ind, charged. rewrite Hh. pose proof (budget_moves init _ r 1 true false Hok ltac:(cbn; lia) eq_refl i) as [? E].
    cbn [budgets] in *. split; [done |]. rewrite <- E. rewrite andb_false_r. lia.
  - eapply hedge_finishes_step_ok; try done; [by rewrite Hh | | | |].
    + unfold ind, was_issued. rewrite Hh. by destruct result.
    + by destruct result.
    + by destruct result.
    + intros i. unfold ind, charged. rewrite Hh. split; [apply (ok_budgets _ _ Hok i) | done].
  - by apply same_hedge_ok.
Qed.

Lemma init_ok init : (forall i, is_u64 (init i)) -> sys_ok init (mkSystem governor_new metrics_new init []).
Proof. intros Hu. split; cbn; try done. intros i. specialize (Hu i). unfold is_u64 in Hu. lia. Qed.

Lemma steps_ok frac init s s' : (forall i, is_u64 (init i)) -> rtc (step frac) s s' -> sys_ok init s -> sys_ok init s'.
Proof. intros Hu Hsteps. induction Hsteps; [done |]. eauto using step_ok. Qed.

Definition issued_for (i : nat) (r : race) : bool := Nat.eqb (request r) i && was_issued r.

Lemma count_le p q rs : (forall r, p r = true -> q r = true) -> count p rs <= count q rs.
Proof.
  intros Hpq. unfold count. induction rs as [| r rs IH]; [done |]. rewrite !sum_by_cons.
  specialize (Hpq r). destruct (p r); [rewrite Hpq by done | destruct (q r)]; lia.
Qed.

(** What a race that has returned hands to its caller. *)
Definition outcome_ok (r : race) (o : RaceOutcome) : Prop :=
  match o with
  | Winner resp => original r = Some (Response resp) \/ hedge r = HedgeDone (Some (Response resp))
  | RaceError e => no_response r /\ both_done r /\ arm_error r e
  | AllTimedOut => timed r = true /\ original r = Some TimedOut /\ (hedge r = HedgeDone None \/ hedge r = HedgeDone (Some TimedOut))
  end.

Lemma returned_outcome_ok r o : race_ok r -> timeout_ok r -> state r = Returned o -> outcome_ok r o.
Proof.
  intros Hok Ht Hs. unfold race_ok in Hok. rewrite Hs in Hok. destruct o; try done. destruct Hok as [? ?]. split_and!; try done.
  by apply Ht.
Qed.

(** C38: In every state the races of a process can reach, however their steps
    interleave: the governor's two counters are the fetches and the hedges in flight
    (no guard is lost or dropped twice, cancellation included); the metrics count the
    hedges issued, won and suppressed; a request never issues more hedges than its
    budget; and a race that has returned handed over the response of one of its arms,
    or, neither arm having one, an error of an arm, or the timeout of the original when
    it had one. *)
Theorem hedging_accounted frac init s :
  (forall i, is_u64 (init i)) -> rtc (step frac) (mkSystem governor_new metrics_new init []) s ->
  inflight_fetches (governor s) = wrap64 (count is_running (races s)) /\
  inflight_hedges (governor s) = wrap64 (count holds_hedge (races s)) /\
  issued (metrics s) = wrap64 (count was_issued (races s)) /\
  won (metrics s) = wrap64 (count hedge_won (races s)) /\
  suppressed (metrics s) = wrap64 (count hedge_suppressed (races s)) /\
  (forall i, count (issued_for i) (races s) <= init i) /\
  (forall r o, r ∈ races s -> state r = Returned o -> outcome_ok r o).
Proof.
  intros Hu Hsteps. destruct (steps_ok _ _ _ _ Hu Hsteps (init_ok _ Hu)) as [Hr Ht Hf Hh Hi Hw Hsup Hb].
  split_and!; try done.
  - intros i. destruct (Hb i) as [? <-]. assert (count (issued_for i) (races s) <= count (charged i) (races s)); [| lia].
    apply count_le. intros r [Hq Hi']%andb_true_iff. unfold charged. rewrite Hq. unfold was_issued in Hi'. by destruct (hedge r).
  - intros r o Hin Hst. rewrite Forall_forall in Hr, Ht. by apply returned_outcome_ok; [apply Hr | apply Ht |].
Qed.

(** A fetch without a first-byte timeout never reports one. *)
Lemma untimed_never_times_out frac init s r o :
  (forall i, is_u64 (init i)) -> rtc (step frac) (mkSystem governor_new metrics_new init []) s ->
  r ∈ races s -> timed r = false -> state r = Returned o ->
  match fetch_result o with
  | Ok resp => original r = Some (Response resp) \/ hedge r = HedgeDone (Some (Response resp))
  | Err e => no_response r /\ arm_error r e
  | Panic => False
  end.
Proof.
  intros Hu Hsteps Hin Htm Hst. destruct (steps_ok _ _ _ _ Hu Hsteps (init_ok _ Hu)) as [Hr Ht _ _ _ _ _ _].
  rewrite Forall_forall in Hr, Ht. pose proof (returned_outcome_ok r o (Hr _ Hin) (Ht _ Hin) Hst) as Ho.
  destruct o; cbn in *; [done | destruct Ho; congruence |]. by destruct Ho as (? & _ & ?).
Qed.

End Race.

(** ** Runs *)

Definition sample_budgets : nat -> Z := fun i => if decide (i = 0%nat) then 2 else 0.

Definition tenth : spec_float := f64_div (u64_to_f64 1) (u64_to_f64 10).

Definition sample_start : @system nat := mkSystem governor_new metrics_new sample_budgets [].

Lemma sample_budgets_u64 i : is_u64 (sample_budgets i).
Proof. unfold sample_budgets, is_u64. destruct (decide (i = 0%nat)); lia. Qed.

(** Two fetches whose hedges are admitted from the same loaded counters. *)
Lemma overlapping_admissions :
  exists s, rtc (step tenth) sample_start s /\
    inflight_fetches (governor s) = 2 /\ inflight_hedges (governor s) = 2 /\ issued (metrics s) = 2 /\
    hedge <$> races s = [InFlight; InFlight] /\ state <$> races s = [Running; Running].
Proof.
  eexists. split.
  - eapply rtc_l; [apply (step_start _ _ _ _ [] 0 false) |].
    eapply rtc_l; [apply (step_start _ _ _ _ [race_new 0 false] 0 false) |].
    eapply rtc_l; [by apply (step_trigger _ _ _ _ [] (race_new 0 false) [race_new 0 false]) |].
    eapply rtc_l; [by eapply (step_load_fetches _ _ _ _ [] _ [race_new 0 false]) |].
    eapply rtc_l; [by eapply (step_load_hedges _ _ _ _ [] _ [race_new 0 false]) |].
    eapply rtc_l; [by eapply (step_trigger _ _ _ _ [_] (race_new 0 false) []) |].
    eapply rtc_l; [by eapply (step_load_fetches _ _ _ _ [_] _ []) |].
    eapply rtc_l; [by eapply (step_load_hedges _ _ _ _ [_] _ []) |].
    eapply rtc_l; [by eapply (step_admit _ _ _ _ [] _ [_]) |].
    eapply rtc_l; [by eapply (step_admit _ _ _ _ [_] _ []) |]. apply rtc_refl.
  - by vm_compute.
Qed.

(** The fraction cap is exceeded: with one hedge in flight of two fetches a tenth admits
    no second one, and two are in flight. *)
Example fraction_cap_exceeded :
  admits tenth 2 1 = false /\
  exists s : @system nat, rtc (step tenth) sample_start s /\ inflight_fetches (governor s) = 2 /\ inflight_hedges (governor s) = 2.
Proof.
  split; [by vm_compute |]. destruct overlapping_admissions as (s & Hs & ? & ? & _). by exists s.
Qed.

(** The hedge of a single race answers. *)
Lemma hedge_answers :
  exists s, rtc (step tenth) sample_start s /\
    state <$> races s = [Returned (Winner 7%nat)] /\ governor s = governor_new /\ won (metrics s) = 1.
Proof.
  eexists. split.
  - eapply rtc_l; [apply (step_start _ _ _ _ [] 0 false) |].
    eapply rtc_l; [by apply (step_trigger _ _ _ _ [] (race_new 0 false) []) |].
    eapply rtc_l; [by eapply (step_load_fetches _ _ _ _ [] _ []) |].
    eapply rtc_l; [by eapply (step_load_hedges _ _ _ _ [] _ []) |].
    eapply rtc_l; [by eapply (step_admit _ _ _ _ [] _ []) |].
    eapply rtc_l; [by eapply (step_hedge _ _ _ _ [] _ [] (Response 7%nat)) |]. apply rtc_refl.
  - by vm_compute.
Qed.

Lemma hedging_accounted_witness :
  exists s : @system nat, rtc (step tenth) sample_start s /\ state <$> races s = [Returned (Winner 7%nat)] /\
    (forall r o, r ∈ races s -> state r = Returned o -> outcome_ok r o) /\
    count (issued_for 0) (races s) <= 2.
Proof.
  destruct hedge_answers as (s & Hs & Hst & _). exists s. split; [exact Hs |]. split; [exact Hst |].
  destruct (hedging_accounted tenth sample_budgets s sample_budgets_u64 Hs) as (_ & _ & _ & _ & _ & Hc & Ho).
  split; [exact Ho | exact (Hc 0%nat)].
Defined.

End Hedging.
