(* ===== verification/Globs.v ===== *)
(** * Glob patterns of the cache rules ([bucket_settings.rs])

    [glob_to_regex] and what its output matches.  A [&str] is the string of its
    UTF-8 bytes; the loop walks bytes, as the code does.  The regex crate is a
    parameter ([RegexEngine]) with the documented meaning of the few constructs the
    translation emits ([RegexLaws]). *)

From S2P Require Import Prelude RustStr.
From stdpp Require Import base list strings.

#[local] Open Scope Z_scope.
#[local] Arguments String.append : simpl nomatch.

(** ** UTF-8 *)

Definition byte_val (a : ascii) : Z := Z.of_nat (Ascii.nat_of_ascii a).

(** A continuation byte, [10xxxxxx]. *)
Definition is_continuation (a : ascii) : bool := (128 <=? byte_val a) && (byte_val a <? 192).

(** [str::is_char_boundary] at the start of a suffix. *)
Definition at_boundary (s : string) : bool :=
  match s with EmptyString => true | String a _ => negb (is_continuation a) end.

(** [str::chars], a character being the bytes that encode it: a new one starts at
    every byte that is not a continuation. *)
Fixpoint utf8_chars (s : string) : list string :=
  match s with
  | EmptyString => []
  | String a s' =>
      match utf8_chars s' with
      | c :: cs => if at_boundary s' then String a "" :: c :: cs else String a c :: cs
      | [] => [String a ""]
      end
  end.

Fixpoint concat_str (cs : list string) : string :=
  match cs with [] => "" | c :: cs' => c +:+ concat_str cs' end.

(** The bytes of one character; a [&str] is a sequence of such. *)
Definition valid_char (c : string) : bool :=
  match String.list_ascii_of_string c with
  | [a] => byte_val a <? 128
  | [a; b] => (194 <=? byte_val a) && (byte_val a <=? 223) && is_continuation b
  | [a; b; d] => (224 <=? byte_val a) && (byte_val a <=? 239) && is_continuation b && is_continuation d
  | [a; b; d; e] =>
      (240 <=? byte_val a) && (byte_val a <=? 244) && is_continuation b && is_continuation d && is_continuation e
  | _ => false
  end.

(** [char::is_whitespace]: the Unicode [White_Space] property. *)
Definition char_is_whitespace (c : string) : bool :=
  match map byte_val (String.list_ascii_of_string c) with
  | [b] => ((9 <=? b) && (b <=? 13)) || (b =? 32)
  | [b1; b2] => (b1 =? 194) && ((b2 =? 133) || (b2 =? 160))
  | [b1; b2; b3] =>
      ((b1 =? 225) && (b2 =? 154) && (b3 =? 128)) ||
      ((b1 =? 226) && (b2 =? 128) &&
        (((128 <=? b3) && (b3 <=? 138)) || (b3 =? 168) || (b3 =? 169) || (b3 =? 175))) ||
      ((b1 =? 226) && (b2 =? 129) && (b3 =? 159)) ||
      ((b1 =? 227) && (b2 =? 128) && (b3 =? 128))
  | _ => false
  end.

Fixpoint drop_whitespace (cs : list string) : list string :=
  match cs with
  | [] => []
  | c :: cs' => if char_is_whitespace c then drop_whitespace cs' else cs
  end.

(** [str::trim]. *)
Definition str_trim (s : string) : string :=
  concat_str (rev (drop_whitespace (rev (drop_whitespace (utf8_chars s))))).

(** ** The translation *)

Class RegexEngine := {
  regex_escape : string -> string;
  regex_new : string -> bool;
  regex_is_match : string -> string -> bool;
  RegexSet : Type;
  regexset_empty : RegexSet;
  regexset_new : list string -> option RegexSet;
  regexset_matches : RegexSet -> string -> list nat;
}.

Inductive GlobError := EmptyPattern.

Section Translate.
Context `{RegexEngine}.

(** The [while] loop from byte [i]: [s] is [pattern[i..]] and [out] what was
    pushed.  [bytes[i] as char] is the character U+0000 to U+00FF of that number,
    two bytes long from 0x80 on; slicing off a boundary panics. *)
Fixpoint glob_loop (s out : string) : outcome GlobError string :=
  match s with
  | EmptyString => Ok out
  | String a s' =>
      if ascii_eqb a "*" then
        match s' with
        | String b s'' =>
            if ascii_eqb b "*" then glob_loop s'' (out +:+ ".*") else glob_loop s' (out +:+ "[^/]*")
        | EmptyString => glob_loop s' (out +:+ "[^/]*")
        end
      else if ascii_eqb a "?" then glob_loop s' (out +:+ "[^/]")
      else if byte_val a <? 128 then
        if at_boundary s' then glob_loop s' (out +:+ regex_escape (String a "")) else Panic
      else
        match s' with
        | String b s'' =>
            if at_boundary s && at_boundary s''
            then glob_loop s'' (out +:+ regex_escape (String a (String b "")))
            else Panic
        | EmptyString => Panic
        end
  end.

Definition glob_to_regex (pattern : string) : outcome GlobError string :=
  if is_empty_str (str_trim pattern) then Err EmptyPattern else
  out ← glob_loop pattern "^";
  Ok (out +:+ "$")%string.

End Translate.

(** ** What the emitted constructs mean

    The part of the regex syntax the translation uses: a literal, [.] (any
    character but a line feed), [[^/]], and the repetition of one of them. *)

Inductive atom := ALit (c : string) | ADot | ANotSlash.

Inductive piece := One (a : atom) | Many (a : atom).

#[export] Instance atom_eq_dec : EqDecision atom.
Proof. solve_decision. Defined.

Definition slash : string := "/".

Definition newline : string := String (Ascii.ascii_of_nat 10) "".

Definition atom_accepts (a : atom) (c : string) : bool :=
  match a with
  | ALit d => bool_decide (c = d)
  | ADot => negb (bool_decide (c = newline))
  | ANotSlash => negb (bool_decide (c = slash))
  end.

(** The texts an anchored sequence of pieces matches. *)
Inductive pieces_lang : list piece -> list string -> Prop :=
  | lang_nil : pieces_lang [] []
  | lang_one a ps c cs :
      atom_accepts a c = true -> pieces_lang ps cs -> pieces_lang (One a :: ps) (c :: cs)
  | lang_stop a ps cs : pieces_lang ps cs -> pieces_lang (Many a :: ps) cs
  | lang_more a ps c cs :
      atom_accepts a c = true -> pieces_lang (Many a :: ps) cs ->
      pieces_lang (Many a :: ps) (c :: cs).

Definition literal_ok (p : piece) : Prop :=
  match p with One (ALit c) | Many (ALit c) => valid_char c = true | _ => True end.

Section Print.
Context `{RegexEngine}.

Definition print_atom (a : atom) : string :=
  match a with ALit c => regex_escape c | ADot => "." | ANotSlash => "[^/]" end.

Definition print_piece (p : piece) : string :=
  match p with One a => print_atom a | Many a => print_atom a +:+ "*" end.

Definition print_pieces (ps : list piece) : string := concat_str (map print_piece ps).

End Print.

(** What the regex crate documents: the meaning of the constructs above between
    anchors, with [regex::escape] giving a literal; a set reports, in increasing
    order, the indices of the patterns that match; the empty set matches nothing. *)
Class RegexLaws `{RegexEngine} : Prop := {
  is_match_pieces ps key :
    Forall literal_ok ps ->
    regex_is_match ("^" +:+ print_pieces ps +:+ "$") key = true <->
    pieces_lang ps (utf8_chars key);
  regexset_matches_spec pats rs key :
    regexset_new pats = Some rs ->
    regexset_matches rs key =
    filter (fun i => regex_is_match (default "" (pats !! i)) key = true) (seq 0 (length pats));
  regexset_empty_matches key : regexset_matches regexset_empty key = [];
}.

(** ** The documented glob language *)

Inductive glob_tok := TLit (c : string) | TStar | TStarStar | TQuestion.

Fixpoint glob_tokens (cs : list string) : list glob_tok :=
  match cs with
  | [] => []
  | c :: cs' =>
      if bool_decide (c = "*") then
        match cs' with
        | d :: cs'' => if bool_decide (d = "*") then TStarStar :: glob_tokens cs'' else TStar :: glob_tokens cs'
        | [] => [TStar]
        end
      else if bool_decide (c = "?") then TQuestion :: glob_tokens cs'
      else TLit c :: glob_tokens cs'
  end.

(** [*] is a run without [/], [**] any run, [?] one character but [/]. *)
Inductive glob_lang : list glob_tok -> list string -> Prop :=
  | glob_nil : glob_lang [] []
  | glob_lit c ts cs : glob_lang ts cs -> glob_lang (TLit c :: ts) (c :: cs)
  | glob_question c ts cs : c <> slash -> glob_lang ts cs -> glob_lang (TQuestion :: ts) (c :: cs)
  | glob_star run ts cs :
      Forall (fun c => c <> slash) run -> glob_lang ts cs -> glob_lang (TStar :: ts) (run ++ cs)
  | glob_starstar run ts cs : glob_lang ts cs -> glob_lang (TStarStar :: ts) (run ++ cs).

Definition glob_matches (pattern key : string) : Prop :=
  glob_lang (glob_tokens (utf8_chars pattern)) (utf8_chars key).

(** The language decided. *)
Fixpoint glob_match (ts : list glob_tok) (cs : list string) : bool :=
  match ts with
  | [] => match cs with [] => true | _ => false end
  | TLit d :: ts' => match cs with c :: cs' => bool_decide (c = d) && glob_match ts' cs' | [] => false end
  | TQuestion :: ts' => match cs with c :: cs' => bool_decide (c <> slash) && glob_match ts' cs' | [] => false end
  | TStar :: ts' =>
      (fix run (cs : list string) : bool :=
         glob_match ts' cs || match cs with c :: cs' => bool_decide (c <> slash) && run cs' | [] => false end) cs
  | TStarStar :: ts' =>
      (fix run (cs : list string) : bool :=
         glob_match ts' cs || match cs with _ :: cs' => run cs' | [] => false end) cs
  end.

Lemma glob_star_cons c ts cs : c <> slash -> glob_lang (TStar :: ts) cs -> glob_lang (TStar :: ts) (c :: cs).
Proof. intros Hc. inversion_clear 1 as [| | | run ? ? Hr Hg |]. apply (glob_star (c :: run)); auto. Qed.

Lemma glob_starstar_cons c ts cs : glob_lang (TStarStar :: ts) cs -> glob_lang (TStarStar :: ts) (c :: cs).
Proof. inversion_clear 1 as [| | | | run ? ? Hg]. by apply (glob_starstar (c :: run)). Qed.

Lemma glob_star_iff ts c cs :
  glob_lang (TStar :: ts) (c :: cs) <->
  glob_lang ts (c :: cs) \/ (c <> slash /\ glob_lang (TStar :: ts) cs).
Proof.
  split.
  - inversion 1 as [| | | [| d run] ? cs' Hr Hg E |]; simplify_eq/=; [by left |]. right.
    apply Forall_cons in Hr as [Hc Hr]. split; [done |]. by constructor.
  - intros [Hg | [Hc Hg]]; [by apply (glob_star []) | by apply glob_star_cons].
Qed.

Lemma glob_starstar_iff ts c cs :
  glob_lang (TStarStar :: ts) (c :: cs) <-> glob_lang ts (c :: cs) \/ glob_lang (TStarStar :: ts) cs.
Proof.
  split.
  - inversion 1 as [| | | | [| d run] ? cs' Hg E]; simplify_eq/=; [by left |]. right. by constructor.
  - intros [Hg | Hg]; [by apply (glob_starstar []) | by apply glob_starstar_cons].
Qed.

Lemma glob_run_nil t ts :
  t = TStar \/ t = TStarStar -> glob_lang (t :: ts) [] <-> glob_lang ts [].
Proof.
  intros [-> | ->]; split; try (by apply (glob_star [])); try (by apply (glob_starstar [])).
  - by inversion 1 as [| | | [| d run] ? cs' Hr Hg E |]; simplify_eq/=.
  - by inversion 1 as [| | | | [| d run] ? cs' Hg E]; simplify_eq/=.
Qed.

Lemma glob_match_spec ts : forall cs, glob_match ts cs = true <-> glob_lang ts cs.
Proof.
  induction ts as [| [d | | |] ts IH]; intros cs.
  - destruct cs; split; [constructor | done | done | inversion 1].
  - destruct cs as [| c cs]; [split; [done | inversion 1] |].
    cbn [glob_match]. rewrite andb_true_iff, bool_decide_eq_true, IH. split; [intros [-> ?]; by constructor | by inversion 1].
  - induction cs as [| c cs IHc]; cbn [glob_match].
    + rewrite orb_false_r, IH. symmetry. by apply glob_run_nil; left.
    + change ((fix run (cs0 : list string) : bool := _) cs) with (glob_match (TStar :: ts) cs).
      by rewrite orb_true_iff, andb_true_iff, bool_decide_eq_true, IHc, IH, glob_star_iff.
  - induction cs as [| c cs IHc]; cbn [glob_match].
    + rewrite orb_false_r, IH. symmetry. by apply glob_run_nil; right.
    + change ((fix run (cs0 : list string) : bool := _) cs) with (glob_match (TStarStar :: ts) cs).
      by rewrite orb_true_iff, IHc, IH, glob_starstar_iff.
  - destruct cs as [| c cs]; [split; [done | inversion 1] |].
    cbn [glob_match]. rewrite andb_true_iff, bool_decide_eq_true, IH. split; [intros [? ?]; by constructor | by inversion 1].
Qed.

#[export] Instance glob_matches_dec pattern key : Decision (glob_matches pattern key).
Proof.
  refine (cast_if (decide (glob_match (glob_tokens (utf8_chars pattern)) (utf8_chars key) = true)));
    unfold glob_matches; by rewrite <- glob_match_spec.
Defined.

(** ** Well-formed text *)

Definition valid_utf8 (s : string) : bool := forallb valid_char (utf8_chars s).

Definition short_char (c : string) : bool := Nat.leb (String.length c) 2.

Lemma valid_char_cases c :
  valid_char c = true ->
  (exists a, c = String a "" /\ byte_val a < 128) \/
  (exists a b, c = String a (String b "") /\ 194 <= byte_val a <= 223 /\ is_continuation b = true) \/
  (exists a b d t, c = String a (String b (String d t)) /\ 224 <= byte_val a <= 244 /\
     is_continuation b = true /\ is_continuation d = true /\ all_chars is_continuation t = true).
Proof.
  unfold valid_char.
  destruct c as [| a [| b [| d [| e [| f t]]]]]; cbn [String.list_ascii_of_string]; intros Hc;
    repeat (apply andb_prop in Hc as [Hc ?]); try discriminate;
    repeat match goal with
    | H : (_ <=? _) = true |- _ => apply Z.leb_le in H
    | H : (_ <? _) = true |- _ => apply Z.ltb_lt in H
    end.
  - left. eauto.
  - right; left. eauto 10.
  - right; right. exists a, b, d, "". repeat split; try done; lia.
  - right; right. exists a, b, d, (String e ""). cbn. repeat split; try done; try lia.
    by apply andb_true_intro.
Qed.

Lemma is_continuation_range a : is_continuation a = true <-> 128 <= byte_val a < 192.
Proof. unfold is_continuation. rewrite andb_true_iff, Z.leb_le, Z.ltb_lt. lia. Qed.

Lemma not_continuation a : byte_val a < 128 \/ 192 <= byte_val a -> is_continuation a = false.
Proof. intros. apply not_true_iff_false. rewrite is_continuation_range. lia. Qed.

(** A character starts at a boundary. *)
Lemma valid_char_boundary c s : valid_char c = true -> at_boundary (c +:+ s) = true.
Proof.
  intros [(a & -> & Ha) | [(a & b & -> & Ha & _) | (a & b & d & t & -> & Ha & _)]]%valid_char_cases;
    cbn; rewrite not_continuation by lia; done.
Qed.

Lemma concat_boundary cs : forallb valid_char cs = true -> at_boundary (concat_str cs) = true.
Proof.
  destruct cs as [| c cs]; [done |]. cbn [forallb concat_str]. intros [Hc _]%andb_prop.
  by apply valid_char_boundary.
Qed.

Lemma utf8_chars_cons a s :
  at_boundary s = true -> utf8_chars (String a s) = String a "" :: utf8_chars s.
Proof.
  intros Hs. cbn [utf8_chars]. rewrite Hs.
  destruct s as [| b s]; [done |]. cbn [utf8_chars]. destruct (utf8_chars s) as [| c cs]; [done |].
  by destruct (at_boundary s).
Qed.

Lemma utf8_chars_glue a s c cs :
  at_boundary s = false -> utf8_chars s = c :: cs -> utf8_chars (String a s) = String a c :: cs.
Proof. intros Hs Hc. cbn [utf8_chars]. by rewrite Hc, Hs. Qed.

(** A run of continuation bytes belongs to the character before it. *)
Lemma utf8_chars_tail t s a :
  all_chars is_continuation t = true -> at_boundary s = true ->
  utf8_chars (String a (t +:+ s)) = String a t :: utf8_chars s.
Proof.
  revert a. induction t as [| b t IH]; intros a Ht Hs.
  - by apply utf8_chars_cons.
  - cbn [all_chars] in Ht. apply andb_prop in Ht as [Hb Ht].
    apply utf8_chars_glue; [| by apply IH]. cbn. by rewrite Hb.
Qed.

Lemma valid_char_split c :
  valid_char c = true -> exists a t, c = String a t /\ all_chars is_continuation t = true.
Proof.
  intros [(a & -> & _) | [(a & b & -> & _ & Hb) | (a & b & d & t & -> & _ & Hb & Hd & Ht)]]%valid_char_cases.
  - by exists a, "".
  - exists a, (String b ""). cbn. by rewrite Hb.
  - exists a, (String b (String d t)). cbn. by rewrite Hb, Hd, Ht.
Qed.

Lemma utf8_chars_app c s :
  valid_char c = true -> at_boundary s = true -> utf8_chars (c +:+ s) = c :: utf8_chars s.
Proof.
  intros (a & t & -> & Ht)%valid_char_split Hs. by apply utf8_chars_tail.
Qed.

Lemma utf8_chars_concat cs : forallb valid_char cs = true -> utf8_chars (concat_str cs) = cs.
Proof.
  induction cs as [| c cs IH]; [done |]. cbn [forallb concat_str]. intros [Hc Hcs]%andb_prop.
  rewrite utf8_chars_app by auto using concat_boundary. by rewrite IH.
Qed.

Lemma concat_utf8_chars s : concat_str (utf8_chars s) = s.
Proof.
  induction s as [| a s IH]; [done |]. cbn [utf8_chars]. revert IH.
  destruct (utf8_chars s) as [| c cs]; cbn [concat_str]; intros IH.
  - by rewrite <- IH.
  - destruct (at_boundary s); cbn [concat_str]; by rewrite <- IH.
Qed.

(** ** The loop prints the pattern's tokens *)

Definition tok_piece (t : glob_tok) : piece :=
  match t with
  | TLit c => One (ALit c)
  | TStar => Many ANotSlash
  | TStarStar => Many ADot
  | TQuestion => One ANotSlash
  end.

(** Two-step induction, for [**]. *)
Lemma list_ind2 {A} (P : list A -> Prop) :
  P [] -> (forall x, P [x]) -> (forall x y l, P l -> P (y :: l) -> P (x :: y :: l)) -> forall l, P l.
Proof.
  intros H0 H1 H2 l. enough (P l /\ forall x, P (x :: l)) by tauto.
  induction l as [| y l [IH1 IH2]]; auto.
Qed.

Lemma glob_tokens_other c cs : c <> "*" -> c <> "?" -> glob_tokens (c :: cs) = TLit c :: glob_tokens cs.
Proof. intros H1 H2. cbn [glob_tokens]. by rewrite !bool_decide_false. Qed.

Lemma glob_tokens_star d cs :
  glob_tokens ("*" :: d :: cs) =
  if bool_decide (d = "*") then TStarStar :: glob_tokens cs else TStar :: glob_tokens (d :: cs).
Proof. done. Qed.

Section GlobLoop.
Context `{RegexEngine}.

Definition render (cs : list string) : string := print_pieces (map tok_piece (glob_tokens cs)).

Lemma print_pieces_cons p ps : print_pieces (p :: ps) = print_piece p +:+ print_pieces ps.
Proof. done. Qed.

(** A character that is not a wildcard: escaped when its first byte tells its length,
    a slice off a boundary otherwise. *)
Lemma glob_loop_literal c s out :
  valid_char c = true -> c <> "*" -> c <> "?" -> at_boundary s = true ->
  glob_loop (c +:+ s) out =
  if short_char c then glob_loop s (out +:+ regex_escape c) else Panic.
Proof.
  intros Hc Hstar Hq Hs.
  destruct (valid_char_cases c Hc) as
    [(a & -> & Ha) | [(a & b & -> & Ha & Hb) | (a & b & d & t & -> & Ha & Hb & Hd & Ht)]].
  - cbn -[byte_val at_boundary]. rewrite !ascii_eqb_neq by congruence.
    rewrite (proj2 (Z.ltb_lt _ _) Ha), Hs. done.
  - cbn -[byte_val at_boundary]. rewrite !ascii_eqb_neq by (intros ->; vm_compute in Ha; intuition lia).
    rewrite (proj2 (Z.ltb_ge _ _)) by lia. rewrite Hs.
    cbn [at_boundary]. rewrite not_continuation by lia. done.
  - cbn -[byte_val at_boundary]. rewrite !ascii_eqb_neq by (intros ->; vm_compute in Ha; intuition lia).
    rewrite (proj2 (Z.ltb_ge _ _)) by lia. cbn [at_boundary]. rewrite Hd, andb_false_r. done.
Qed.

Lemma glob_loop_question s out : glob_loop (String "?" s) out = glob_loop s (out +:+ "[^/]").
Proof. done. Qed.

Lemma glob_loop_star s out :
  (forall s', s <> String "*" s') -> glob_loop (String "*" s) out = glob_loop s (out +:+ "[^/]*").
Proof.
  intros Hs. cbn [glob_loop]. rewrite ascii_eqb_refl. destruct s as [| b s]; [done |].
  rewrite ascii_eqb_neq; [done |]. intros ->. by apply (Hs s).
Qed.

Lemma glob_loop_starstar s out :
  glob_loop (String "*" (String "*" s)) out = glob_loop s (out +:+ ".*").
Proof. done. Qed.

(** Valid text that starts with the byte [*] starts with the character. *)
Lemma star_first c cs s :
  valid_char c = true -> concat_str (c :: cs) = String "*" s -> c = "*".
Proof.
  intros Hc. cbn [concat_str].
  destruct (valid_char_cases c Hc) as
    [(a & -> & Ha) | [(a & b & -> & Ha & _) | (a & b & d & t & -> & Ha & _)]]; cbn; intros [= -> _].
  - done.
  - vm_compute in Ha. intuition lia.
  - vm_compute in Ha. intuition lia.
Qed.

Lemma glob_loop_spec cs : forall out,
  forallb valid_char cs = true ->
  glob_loop (concat_str cs) out =
  if forallb short_char cs then Ok (out +:+ render cs)%string else Panic.
Proof.
  induction cs as [| c | c d cs IH1 IH2] using list_ind2; intros out Hv.
  - cbn. by rewrite string_app_nil_r.
  - cbn [forallb] in *. rewrite andb_true_r in *. unfold render, print_pieces.
    destruct (decide (c = "*")) as [-> | Hs]; [cbn; by rewrite ?string_app_nil_r |].
    destruct (decide (c = "?")) as [-> | Hq]; [cbn; by rewrite ?string_app_nil_r |].
    cbn [concat_str]. rewrite glob_loop_literal, glob_tokens_other by done.
    destruct (short_char c); [| done]. cbn. by rewrite string_app_nil_r.
  - pose proof Hv as Hv'. cbn [forallb] in Hv'. apply andb_prop in Hv' as [Hc Hv'].
    pose proof Hv' as [Hd Hcs]%andb_prop.
    destruct (decide (c = "*")) as [-> | Hs].
    + destruct (decide (d = "*")) as [-> | Hd'].
      * change (concat_str _) with (String "*" (String "*" (concat_str cs))).
        rewrite glob_loop_starstar, IH1 by done. cbn [forallb andb short_char String.length Nat.leb].
        destruct (forallb short_char cs); [| done]. f_equal. rewrite <- string_app_assoc. done.
      * change (concat_str _) with (String "*" (concat_str (d :: cs))).
        rewrite glob_loop_star, IH2 by (done || intros s' Hs'; by apply Hd', (star_first _ cs s')).
        cbn [forallb short_char String.length Nat.leb]. rewrite andb_true_l.
        destruct (short_char d && forallb short_char cs); [| done]. f_equal.
        unfold render at 2. rewrite <- string_app_assoc. f_equal.
        by rewrite glob_tokens_star, bool_decide_false.
    + destruct (decide (c = "?")) as [-> | Hq].
      * change (concat_str _) with (String "?" (concat_str (d :: cs))).
        rewrite glob_loop_question, IH2 by done. cbn [forallb short_char String.length Nat.leb].
        rewrite andb_true_l. destruct (short_char d && forallb short_char cs); [| done].
        f_equal. rewrite <- string_app_assoc. done.
      * change (concat_str (c :: d :: cs)) with (c +:+ concat_str (d :: cs)).
        rewrite glob_loop_literal by auto using concat_boundary.
        change (forallb short_char (c :: d :: cs)) with (short_char c && forallb short_char (d :: cs)).
        destruct (short_char c); [| done]. rewrite andb_true_l, IH2 by done.
        destruct (forallb short_char (d :: cs)); [| done]. f_equal. rewrite <- string_app_assoc.
        unfold render at 2. rewrite glob_tokens_other by done. done.
Qed.

End GlobLoop.

(** ** Both languages agree on keys without a line feed *)

Lemma pieces_run a run ps cs :
  Forall (fun c => atom_accepts a c = true) run -> pieces_lang ps cs ->
  pieces_lang (Many a :: ps) (run ++ cs).
Proof. intros Hr Hc. induction Hr; cbn; eauto using pieces_lang. Qed.

Lemma pieces_run_inv a ps l :
  pieces_lang (Many a :: ps) l ->
  exists run cs, l = run ++ cs /\ Forall (fun c => atom_accepts a c = true) run /\ pieces_lang ps cs.
Proof.
  intros Hl. remember (Many a :: ps) as qs eqn:E. revert E.
  induction Hl as [| | | a' ps' c cs Hc _ IH]; intros E; simplify_eq.
  - by exists [], cs.
  - destruct IH as (run & cs' & -> & Hr & Hp); [done |]. exists (c :: run), cs'. eauto.
Qed.

Lemma not_slash_accepts c : atom_accepts ANotSlash c = true <-> c <> slash.
Proof. cbn. by rewrite negb_true_iff, bool_decide_eq_false. Qed.

Lemma dot_accepts c : atom_accepts ADot c = true <-> c <> newline.
Proof. cbn. by rewrite negb_true_iff, bool_decide_eq_false. Qed.

Lemma pieces_sound ts : forall cs, pieces_lang (map tok_piece ts) cs -> glob_lang ts cs.
Proof.
  induction ts as [| t ts IH]; intros cs; [by inversion 1; constructor |].
  destruct t; cbn [map tok_piece].
  - inversion 1 as [| ? ? ? ? Hc Hp | |]; subst. cbn in Hc. apply bool_decide_eq_true in Hc as ->.
    constructor. auto.
  - intros (run & cs' & -> & Hr & Hp)%pieces_run_inv. constructor; [| auto].
    eapply Forall_impl; [exact Hr |]. intros c. by rewrite not_slash_accepts.
  - intros (run & cs' & -> & _ & Hp)%pieces_run_inv. constructor. auto.
  - inversion 1 as [| ? ? ? ? Hc Hp | |]; subst. apply not_slash_accepts in Hc. constructor; auto.
Qed.

Lemma pieces_complete ts cs :
  (newline ∉ cs) -> glob_lang ts cs -> pieces_lang (map tok_piece ts) cs.
Proof.
  intros Hn Hg. induction Hg as [| c ts cs Hg IH | c ts cs Hc Hg IH | run ts cs Hr Hg IH | run ts cs Hg IH];
    cbn [map tok_piece].
  - constructor.
  - apply not_elem_of_cons in Hn as [_ Hn]. constructor; [| auto]. cbn. by apply bool_decide_eq_true.
  - apply not_elem_of_cons in Hn as [_ Hn]. constructor; [| auto]. by apply not_slash_accepts.
  - apply not_elem_of_app in Hn as [_ Hn]. apply pieces_run; [| auto].
    eapply Forall_impl; [exact Hr |]. intros d. by rewrite not_slash_accepts.
  - apply not_elem_of_app in Hn as [Hrun Hn]. apply pieces_run; [| auto].
    apply Forall_forall. intros d Hd. apply dot_accepts. by intros ->.
Qed.

Lemma Ok_inj {E A} (a b : A) : @Ok E A a = Ok b -> a = b.
Proof. congruence. Qed.

Section Meaning.
Context `{RegexLaws}.

Lemma tokens_literal cs :
  forallb valid_char cs = true -> Forall literal_ok (map tok_piece (glob_tokens cs)).
Proof.
  induction cs as [| c | c d cs IH1 IH2] using list_ind2; intros Hv; [constructor | |];
    cbn [forallb] in Hv; apply andb_prop in Hv as [Hc Hv].
  - cbn. repeat case_bool_decide; repeat constructor. done.
  - specialize (IH2 Hv). apply andb_prop in Hv as [_ Hv].
    destruct (decide (c = "*")) as [-> | Hs]; [rewrite glob_tokens_star; case_bool_decide |].
    + constructor; [done | by apply IH1].
    + by constructor.
    + destruct (decide (c = "?")) as [-> | Hq]; [by constructor |].
      rewrite glob_tokens_other by done. constructor; done.
Qed.

(** The translation of a pattern, and what it matches. *)
Lemma glob_to_regex_Ok pattern :
  valid_utf8 pattern = true -> forallb short_char (utf8_chars pattern) = true ->
  is_empty_str (str_trim pattern) = false ->
  glob_to_regex pattern = Ok ("^" +:+ render (utf8_chars pattern) +:+ "$")%string.
Proof.
  intros Hv Hs Ht. unfold glob_to_regex. rewrite Ht.
  rewrite <- (concat_utf8_chars pattern) at 1.
  rewrite glob_loop_spec, Hs by done. cbn [mbind outcome_bind]. by rewrite <- string_app_assoc.
Qed.

Lemma render_matches pattern key :
  valid_utf8 pattern = true ->
  regex_is_match ("^" +:+ render (utf8_chars pattern) +:+ "$") key = true <->
  pieces_lang (map tok_piece (glob_tokens (utf8_chars pattern))) (utf8_chars key).
Proof. intros Hv. apply is_match_pieces. by apply tokens_literal. Qed.

Lemma render_glob pattern key :
  valid_utf8 pattern = true -> (newline ∉ utf8_chars key) ->
  regex_is_match ("^" +:+ render (utf8_chars pattern) +:+ "$") key = true <-> glob_matches pattern key.
Proof.
  intros Hv Hn. rewrite render_matches by done. unfold glob_matches.
  split; auto using pieces_sound, pieces_complete.
Qed.

(** A rule's pattern matches the keys its glob documents.  For a pattern that is
    not blank and has no character of three or four bytes, [glob_to_regex] returns a
    regular expression, and it matches a key (without a line feed) exactly when the key
    is in the glob's language: [*] a run without [/], [**] any run, [?] one character
    that is not [/], every other character itself, and the whole key. *)
Theorem glob_language pattern key :
  valid_utf8 pattern = true -> forallb short_char (utf8_chars pattern) = true ->
  is_empty_str (str_trim pattern) = false -> (newline ∉ utf8_chars key) ->
  exists re, glob_to_regex pattern = Ok re /\
    (regex_is_match re key = true <-> glob_matches pattern key).
Proof.
  intros Hv Hs Ht Hn. eexists. split; [by apply glob_to_regex_Ok |].
  by apply render_glob.
Qed.

(** A pattern panics exactly when it has a character of three or four bytes. *)
Lemma glob_panics_iff pattern :
  valid_utf8 pattern = true -> is_empty_str (str_trim pattern) = false ->
  glob_to_regex pattern = Panic <-> forallb short_char (utf8_chars pattern) = false.
Proof.
  intros Hv Ht. unfold glob_to_regex. rewrite Ht, <- (concat_utf8_chars pattern) at 1.
  rewrite glob_loop_spec by done.
  destruct (forallb short_char (utf8_chars pattern)); by split.
Qed.

(** [**] is translated to [.*], which stops at a line feed, as [*] does not. *)
Lemma starstar_misses_newline :
  glob_matches "**" newline /\ glob_matches "*" newline /\
  (forall re, glob_to_regex "**" = Ok re -> regex_is_match re newline = false) /\
  (forall re, glob_to_regex "*" = Ok re -> regex_is_match re newline = true).
Proof.
  split_and!.
  - apply (glob_starstar [newline]). constructor.
  - apply (glob_star [newline]); [by constructor | constructor].
  - intros re. rewrite glob_to_regex_Ok by done. intros <-%Ok_inj.
    apply not_true_iff_false. rewrite render_matches by done.
    change (utf8_chars newline) with [newline]. change (map _ _) with [Many ADot].
    inversion 1 as [| | ? ? ? Hp | ? ? ? ? Hc]; subst; [inversion Hp | discriminate Hc].
  - intros re. rewrite glob_to_regex_Ok by done. intros <-%Ok_inj. rewrite render_matches by done.
    change (utf8_chars newline) with [newline]. change (map _ _) with [Many ANotSlash].
    apply (pieces_run ANotSlash [newline]); repeat constructor.
Qed.

End Meaning.

(** ** An engine

    A concrete engine for the constructs above, to run the definitions on: it reads
    the pieces back from the text of the expression and matches them. *)

Module Sample.

Definition meta_chars : list string :=
  ["\"; "."; "+"; "*"; "?"; "("; ")"; "|"; "["; "]"; "{"; "}"; "^"; "$"; "#"; "&"; "-"; "~"].

Definition escape (c : string) : string := if bool_decide (c ∈ meta_chars) then "\" +:+ c else c.

Fixpoint pieces_match (ps : list piece) (cs : list string) : bool :=
  match ps with
  | [] => match cs with [] => true | _ => false end
  | One a :: ps' => match cs with c :: cs' => atom_accepts a c && pieces_match ps' cs' | [] => false end
  | Many a :: ps' =>
      (fix run (cs : list string) : bool :=
         pieces_match ps' cs ||
         match cs with c :: cs' => atom_accepts a c && run cs' | [] => false end) cs
  end.

(** One atom at the head of the text. *)
Definition read_atom (cs : list string) : option (atom * list string) :=
  match cs with
  | [] => None
  | c :: r =>
      if bool_decide (c = "\") then
        match r with d :: r' => Some (ALit d, r') | [] => None end
      else if bool_decide (c = ".") then Some (ADot, r)
      else if bool_decide (c = "[") then
        match r with _ :: _ :: _ :: r' => Some (ANotSlash, r') | _ => None end
      else Some (ALit c, r)
  end.

Fixpoint read_pieces (fuel : nat) (cs : list string) : option (list piece) :=
  match fuel with
  | O => None
  | S fuel' =>
      if bool_decide (cs = ["$"]) then Some [] else
      '(a, r) ← read_atom cs;
      if bool_decide (head r = Some "*")
      then ps ← read_pieces fuel' (tail r); Some (Many a :: ps)
      else ps ← read_pieces fuel' r; Some (One a :: ps)
  end.

Definition is_match (re key : string) : bool :=
  match utf8_chars re with
  | _ :: cs =>
      match read_pieces (S (length cs)) cs with
      | Some ps => pieces_match ps (utf8_chars key)
      | None => false
      end
  | [] => false
  end.

#[export] Instance engine : RegexEngine := {|
  regex_escape := escape;
  regex_new := fun _ => true;
  regex_is_match := is_match;
  RegexSet := list string;
  regexset_empty := [];
  regexset_new := Some;
  regexset_matches := fun pats key =>
    filter (fun i => is_match (default "" (pats !! i)) key = true) (seq 0 (length pats));
|}.

Lemma pieces_match_spec ps : forall cs, pieces_match ps cs = true <-> pieces_lang ps cs.
Proof.
  induction ps as [| [a | a] ps IH]; intros cs.
  - cbn. destruct cs; split; [constructor | done | done | inversion 1].
  - cbn. destruct cs as [| c cs]; [split; [done | inversion 1] |].
    rewrite andb_true_iff, IH. split; [intros []; by constructor | by inversion 1].
  - induction cs as [| c cs IHc].
    + cbn. rewrite orb_false_r, IH. split; [by constructor | by inversion 1].
    + cbn [pieces_match]. rewrite orb_true_iff, andb_true_iff, IH.
      change ((fix run (cs0 : list string) : bool := _) cs) with (pieces_match (Many a :: ps) cs).
      rewrite IHc. split; [intros [| []]; by constructor |].
      inversion 1; subst; auto.
Qed.

(** The characters of what is printed. *)
Definition atom_chars (a : atom) : list string :=
  match a with
  | ALit c => if bool_decide (c ∈ meta_chars) then ["\"; c] else [c]
  | ADot => ["."]
  | ANotSlash => ["["; "^"; "/"; "]"]
  end.

Definition piece_chars (p : piece) : list string :=
  match p with One a => atom_chars a | Many a => atom_chars a ++ ["*"] end.

Definition regex_chars (ps : list piece) : list string :=
  concat (map piece_chars ps) ++ ["$"].

Lemma concat_str_app l k : concat_str (l ++ k) = concat_str l +:+ concat_str k.
Proof. induction l as [| c l IH]; [done |]. cbn. by rewrite IH, string_app_assoc. Qed.

Lemma atom_chars_print a : concat_str (atom_chars a) = print_atom a.
Proof.
  destruct a as [c | |]; [| done | done]. cbn. unfold escape. case_bool_decide; cbn; by rewrite string_app_nil_r.
Qed.

Lemma regex_chars_print ps : concat_str (regex_chars ps) = print_pieces ps +:+ "$".
Proof.
  unfold regex_chars. rewrite concat_str_app. f_equal.
  induction ps as [| p ps IH]; [done |]. cbn [map concat]. rewrite concat_str_app, IH, print_pieces_cons.
  f_equal. destruct p; cbn [piece_chars print_piece]; rewrite ?concat_str_app, atom_chars_print; done.
Qed.

Lemma piece_chars_valid p : literal_ok p -> forallb valid_char (piece_chars p) = true.
Proof.
  destruct p as [[c | |] | [c | |]]; cbn; intros Hc; try done; case_bool_decide; cbn; by rewrite Hc.
Qed.

Lemma regex_chars_valid ps : Forall literal_ok ps -> forallb valid_char (regex_chars ps) = true.
Proof.
  unfold regex_chars. intros Hps. rewrite forallb_app. cbn. rewrite andb_true_r.
  induction Hps as [| p ps Hp _ IH]; [done |]. cbn [map concat]. rewrite forallb_app, IH.
  by rewrite piece_chars_valid.
Qed.

Lemma read_atom_chars a r : read_atom (atom_chars a ++ r) = Some (a, r).
Proof.
  destruct a as [c | |]; [| done | done]. cbn. case_bool_decide as Hc; [done |]. cbn.
  rewrite !bool_decide_false; [done | intros ->; apply Hc; by repeat constructor..].
Qed.

(** No piece starts with an unescaped [*]. *)
Lemma regex_chars_head ps : head (regex_chars ps) <> Some "*".
Proof.
  unfold regex_chars. destruct ps as [| [[c | |] | [c | |]] ps]; cbn; try done;
    case_bool_decide as Hc; cbn; intros [= ->]; apply Hc; repeat constructor.
Qed.

Lemma regex_chars_cons p ps : regex_chars (p :: ps) = piece_chars p ++ regex_chars ps.
Proof. unfold regex_chars. cbn [map concat]. by rewrite app_assoc. Qed.

Lemma regex_chars_not_end p ps : regex_chars (p :: ps) <> ["$"].
Proof.
  intros E%(f_equal length). revert E. rewrite regex_chars_cons. unfold regex_chars. rewrite !length_app.
  destruct p as [[c | |] | [c | |]]; cbn; try case_bool_decide; cbn; lia.
Qed.

Lemma read_pieces_chars ps : forall fuel,
  (length (regex_chars ps) <= fuel)%nat -> read_pieces fuel (regex_chars ps) = Some ps.
Proof.
  induction ps as [| p ps IH]; intros fuel Hf.
  - destruct fuel; [cbn in Hf; lia | done].
  - pose proof (regex_chars_not_end p ps) as He. rewrite regex_chars_cons in *. rewrite length_app in Hf.
    assert (1 <= length (piece_chars p))%nat
      by (destruct p as [[c | |] | [c | |]]; cbn; try case_bool_decide; cbn; lia).
    destruct fuel as [| fuel]; [lia |]. cbn [read_pieces]. rewrite bool_decide_false by done.
    destruct p as [a | a]; cbn [piece_chars]; rewrite <- ?app_assoc, read_atom_chars; cbn [mbind option_bind app].
    + rewrite bool_decide_false by apply regex_chars_head. by rewrite IH by lia.
    + rewrite bool_decide_true by done. cbn [tail]. by rewrite IH by lia.
Qed.

Lemma is_match_spec ps key :
  Forall literal_ok ps ->
  is_match ("^" +:+ print_pieces ps +:+ "$") key = true <-> pieces_lang ps (utf8_chars key).
Proof.
  intros Hps. unfold is_match. rewrite <- regex_chars_print.
  change ("^" +:+ concat_str (regex_chars ps)) with (concat_str ("^" :: regex_chars ps)).
  rewrite utf8_chars_concat by (cbn; by rewrite regex_chars_valid).
  rewrite read_pieces_chars by lia. apply pieces_match_spec.
Qed.

#[export] Instance engine_laws : RegexLaws.
Proof.
  split; [apply is_match_spec | | done]. intros pats rs key. cbn. by intros [= <-].
Qed.

End Sample.

Lemma glob_language_witness :
  exists re, @glob_to_regex Sample.engine "logs/*.g?" = Ok re /\
    (@regex_is_match Sample.engine re "logs/a.gz" = true <-> glob_matches "logs/*.g?" "logs/a.gz").
Proof.
  apply (@glob_language Sample.engine Sample.engine_laws "logs/*.g?" "logs/a.gz"); [reflexivity | reflexivity | reflexivity |].
  apply (bool_decide_eq_true _). vm_compute. reflexivity.
Defined.

(** A pattern with one character of three bytes. *)
Definition snowman : string :=
  String (Ascii.ascii_of_nat 226) (String (Ascii.ascii_of_nat 152) (String (Ascii.ascii_of_nat 131) "")).

Lemma multibyte_pattern_panics `{RegexEngine} :
  valid_utf8 ("photos/" +:+ snowman +:+ "/*") = true /\
  glob_to_regex ("photos/" +:+ snowman +:+ "/*") = Panic.
Proof. by split. Qed.
