(* ===== verification/BucketSettings.v ===== *)
(** * Cache rules and their resolution ([bucket_settings.rs])

    The rules file's data, its validation, the compiled rule set with its
    first-match-per-field resolution, and the manager that reloads the file when it
    is stale and falls back on the last good rules.  A [Duration] is a number of
    nanoseconds.  The JSON parser and the regex crate are parameters. *)

From S2P Require Import Prelude RustStr CacheTypes RamCache Globs.
From stdpp Require Import base list strings.

#[local] Open Scope Z_scope.

Module Settings.

(** ** Rules *)

Definition DEFAULT_MAX_RULES : Z := 1024.

Definition DEFAULT_PAGE_SIZE : Z := 16 * 1024 * 1024.

Definition DEFAULT_HEDGE_TRIGGER_AFTER : Z := 250 * 1000000.

Definition DEFAULT_HEDGE_MAX_PER_REQUEST : Z := 1.

Record CacheRule := mkCacheRule {
  r_pattern : string;
  r_get_ttl : option Z;
  r_head_ttl : option Z;
  r_put_ttl : option Z;
  r_read_cache_enabled : option bool;
  r_write_cache_enabled : option bool;
  r_compression_enabled : option bool;
  r_ram_cache_eligible : option bool;
  r_evaluate_conditions_from_cache : option bool;
  r_page_widening : option bool;
  r_page_size : option Z;
  r_hedging_enabled : option bool;
  r_hedge_trigger_after : option Z;
  r_hedge_max_per_request : option Z;
}.

(** [CacheRules] without its [$schema], which nothing reads. *)
Abbreviation CacheRules := (list CacheRule).

(** The messages [validate] pushes. *)
Inductive RuleError :=
  | TooManyRules (count maximum : Z)
  | PatternEmpty (i : nat)
  | PatternNotCompiled (i : nat)
  | PageSizeZero (i : nat)
  | PageSizeTooLarge (i : nat) (page_size : Z)
  | TriggerZero (i : nat)
  | TriggerTooLate (i : nat) (trigger timeout : Z).

Inductive SettingsSource := Global | Rule (i : nat) (pattern : string).

Record ResolvedSettings := mkResolved {
  get_ttl : Z;
  head_ttl : Z;
  put_ttl : Z;
  read_cache_enabled : bool;
  write_cache_enabled : bool;
  compression_enabled : bool;
  compression_from_rule : bool;
  ram_cache_eligible : bool;
  evaluate_conditions_from_cache : bool;
  page_widening : bool;
  page_size : Z;
  hedging_enabled : bool;
  hedge_trigger_after : Z;
  hedge_max_per_request : Z;
  source : SettingsSource;
}.

Record GlobalDefaults := mkGlobal {
  g_get_ttl : Z;
  g_head_ttl : Z;
  g_put_ttl : Z;
  g_read_cache_enabled : bool;
  g_write_cache_enabled : bool;
  g_compression_enabled : bool;
  g_ram_cache_enabled : bool;
  g_evaluate_conditions_from_cache : bool;
  g_upstream_first_byte_timeout : Z;
}.

Section Rules.
Context `{RegexEngine}.

(** ** [CacheRules::validate] *)

Fixpoint validate_globs (i : nat) (rules : CacheRules) : outcome unit (list RuleError) :=
  match rules with
  | [] => Ok []
  | rule :: rest =>
      match glob_to_regex (r_pattern rule) with
      | Panic => Panic
      | Err EmptyPattern => errs ← validate_globs (S i) rest; Ok (PatternEmpty i :: errs)
      | Ok re =>
          errs ← validate_globs (S i) rest;
          Ok (if regex_new re then errs else PatternNotCompiled i :: errs)
      end
  end.

Definition page_size_errors (i : nat) (rule : CacheRule) : list RuleError :=
  if bool_decide (r_page_widening rule = Some true) then
    match r_page_size rule with
    | Some size =>
        if size =? 0 then [PageSizeZero i]
        else if Ram.RAM_CACHE_ADMISSION_CEILING <? size then [PageSizeTooLarge i size]
        else []
    | None => []
    end
  else [].

Definition hedge_errors (timeout : Z) (i : nat) (rule : CacheRule) : list RuleError :=
  if bool_decide (r_hedging_enabled rule = Some true) then
    match r_hedge_trigger_after rule with
    | Some trigger =>
        if trigger =? 0 then [TriggerZero i]
        else if timeout <=? trigger then [TriggerTooLate i trigger timeout]
        else []
    | None => []
    end
  else [].

Definition validate (max_rules upstream_first_byte_timeout : Z) (rules : CacheRules) :
    outcome unit (list RuleError) :=
  globs ← validate_globs 0 rules;
  Ok ((if max_rules <? zlen rules then [TooManyRules (zlen rules) max_rules] else []) ++ globs ++
      concat (imap page_size_errors rules) ++
      concat (imap (hedge_errors upstream_first_byte_timeout) rules)).

(** ** [RuleSet] *)

Record RuleSet := mkRuleSet { rs_rules : list CacheRule; regex_set : RegexSet }.

(** [collect] into a [Result]: the first error ends it. *)
Fixpoint translate_all (rules : CacheRules) : outcome GlobError (list string) :=
  match rules with
  | [] => Ok []
  | rule :: rest => re ← glob_to_regex (r_pattern rule); res ← translate_all rest; Ok (re :: res)
  end.

Inductive BuildError := BuildGlob (e : GlobError) | BuildSet.

Definition ruleset_build (rules : CacheRules) : outcome BuildError RuleSet :=
  match translate_all rules with
  | Panic => Panic
  | Err e => Err (BuildGlob e)
  | Ok patterns =>
      match regexset_new patterns with
      | Some set => Ok (mkRuleSet rules set)
      | None => Err BuildSet
      end
  end.

Definition ruleset_empty : RuleSet := mkRuleSet [] regexset_empty.

(** [matched.iter().find_map(|&i| pick(&self.rules[i].rule))]. *)
Fixpoint first {A} (rules : list CacheRule) (pick : CacheRule -> option A) (matched : list nat) :
    outcome unit (option A) :=
  match matched with
  | [] => Ok None
  | i :: rest =>
      match rules !! i with
      | None => Panic
      | Some rule => match pick rule with Some v => Ok (Some v) | None => first rules pick rest end
      end
  end.

Definition resolve (rs : RuleSet) (full_key : string) (g : GlobalDefaults) : outcome unit ResolvedSettings :=
  let matched := regexset_matches (regex_set rs) full_key in
  let first {A} (pick : CacheRule -> option A) := first (rs_rules rs) pick matched in
  source ← match matched with
           | idx :: _ =>
               match rs_rules rs !! idx with Some rule => Ok (Rule idx (r_pattern rule)) | None => Panic end
           | [] => Ok Global
           end;
  get_ttl ← first r_get_ttl;
  let get_ttl := default (g_get_ttl g) get_ttl in
  head_ttl ← first r_head_ttl;
  put_ttl ← first r_put_ttl;
  read_cache ← first r_read_cache_enabled;
  let read_cache_enabled := default (g_read_cache_enabled g) read_cache in
  write_cache ← first r_write_cache_enabled;
  compression ← first r_compression_enabled;
  ram ← first r_ram_cache_eligible;
  let ram_cache_eligible := default (g_ram_cache_enabled g) ram in
  evaluate ← first r_evaluate_conditions_from_cache;
  page_widening ← first r_page_widening;
  page_size ← first r_page_size;
  hedging ← first r_hedging_enabled;
  trigger ← first r_hedge_trigger_after;
  max_hedges ← first r_hedge_max_per_request;
  let ram_cache_eligible := if get_ttl =? 0 then false else ram_cache_eligible in
  let ram_cache_eligible := if negb read_cache_enabled then false else ram_cache_eligible in
  Ok (mkResolved get_ttl (default (g_head_ttl g) head_ttl) (default (g_put_ttl g) put_ttl)
        read_cache_enabled (default (g_write_cache_enabled g) write_cache)
        (default (g_compression_enabled g) compression) (bool_decide (is_Some compression))
        ram_cache_eligible (default (g_evaluate_conditions_from_cache g) evaluate)
        (default false page_widening) (default DEFAULT_PAGE_SIZE page_size)
        (default false hedging) (default DEFAULT_HEDGE_TRIGGER_AFTER trigger)
        (default DEFAULT_HEDGE_MAX_PER_REQUEST max_hedges) source).

End Rules.

(** ** The manager *)

(** What [read_to_string] of the rules file returns. *)
Inductive RulesFile := FileContents (text : string) | FileMissing | FileUnreadable.

(** What one call of [load_rules] finds: the clock at its re-check and at the store,
    the file, and the wall clock in seconds. *)
Record LoadEnv := mkLoadEnv { e_recheck : Z; e_file : RulesFile; e_stored : Z; e_unix : Z }.

Section Manager.
Context `{RegexEngine}.
Variable from_json : string -> outcome string CacheRules.
Variable staleness_threshold : Z.
Variable global_config : GlobalDefaults.
Variable max_rules : Z.

Record CachedRules := mkCached {
  c_ruleset : RuleSet;
  c_loaded_at : Z;
  c_rules : list CacheRule;
  c_previous_valid : option (RuleSet * list CacheRule);
  c_has_rules_file : bool;
}.

Record BucketSettingsManager := mkManager {
  cache : option CachedRules;
  resolve_calls : Z;
  reloads_total : Z;
  reload_failures_total : Z;
  on_fallback : bool;
  rules_loaded : Z;
  last_load_unix : Z;
}.

Definition manager_new : BucketSettingsManager := mkManager None 0 0 0 false 0 0.

Definition elapsed (now since : Z) : Z := Z.max (now - since) 0.

Definition is_fresh (now : Z) (m : BucketSettingsManager) : bool :=
  match cache m with
  | Some cached => elapsed now (c_loaded_at cached) <? staleness_threshold
  | None => false
  end.

Definition store_valid (env : LoadEnv) (ruleset : RuleSet) (rules : list CacheRule) (has_file : bool)
    (m : BucketSettingsManager) : BucketSettingsManager :=
  let previous_valid :=
    c ← cache m;
    if negb (bool_decide (c_rules c = [])) then Some (c_ruleset c, c_rules c) else c_previous_valid c in
  mkManager (Some (mkCached ruleset (e_stored env) rules previous_valid has_file))
    (resolve_calls m) (u64_add (reloads_total m) 1) (reload_failures_total m) false
    (zlen rules) (e_unix env).

Definition use_fallback (env : LoadEnv) (has_file : bool) (m : BucketSettingsManager) : BucketSettingsManager :=
  let '(ruleset, rules, previous_valid) :=
    match cache m with
    | Some c =>
        if negb (bool_decide (c_rules c = [])) then (c_ruleset c, c_rules c, c_previous_valid c)
        else match c_previous_valid c with
             | Some (rs, rules) => (rs, rules, None)
             | None => (ruleset_empty, [], None)
             end
    | None => (ruleset_empty, [], None)
    end in
  mkManager (Some (mkCached ruleset (e_stored env) rules previous_valid has_file))
    (resolve_calls m) (reloads_total m) (u64_add (reload_failures_total m) 1) true
    (rules_loaded m) (last_load_unix m).

Definition load_rules (env : LoadEnv) (m : BucketSettingsManager) : BucketSettingsManager * outcome unit unit :=
  if is_fresh (e_recheck env) m then (m, Ok tt) else
  match e_file env with
  | FileContents contents =>
      match from_json contents with
      | Panic => (m, Panic)
      | Err _ => (use_fallback env true m, Ok tt)
      | Ok parsed =>
          match validate max_rules (g_upstream_first_byte_timeout global_config) parsed with
          | Ok [] =>
              match ruleset_build parsed with
              | Ok ruleset => (store_valid env ruleset parsed true m, Ok tt)
              | Err _ => (use_fallback env true m, Ok tt)
              | Panic => (m, Panic)
              end
          | Ok _ => (use_fallback env true m, Ok tt)
          | Err _ | Panic => (m, Panic)
          end
      end
  | FileMissing => (store_valid env ruleset_empty [] false m, Ok tt)
  | FileUnreadable => (use_fallback env false m, Ok tt)
  end.

(** The cached rules after a load when they are stale: what [resolve], [rules] and
    [has_rules_file] start with. *)
Definition ensure_loaded (now : Z) (env : LoadEnv) (m : BucketSettingsManager) :
    BucketSettingsManager * outcome unit unit :=
  if is_fresh now m then (m, Ok tt) else load_rules env m.

Definition manager_resolve (now : Z) (env : LoadEnv) (full_key : string) (m : BucketSettingsManager) :
    BucketSettingsManager * outcome unit ResolvedSettings :=
  let m := mkManager (cache m) (u64_add (resolve_calls m) 1) (reloads_total m) (reload_failures_total m)
             (on_fallback m) (rules_loaded m) (last_load_unix m) in
  match ensure_loaded now env m with
  | (m, Ok _) =>
      (m, match cache m with
          | Some cached => resolve (c_ruleset cached) full_key global_config
          | None => resolve ruleset_empty full_key global_config
          end)
  | (m, Err _) | (m, Panic) => (m, Panic)
  end.

Definition manager_rules (now : Z) (env : LoadEnv) (m : BucketSettingsManager) :
    BucketSettingsManager * outcome unit (list CacheRule) :=
  match ensure_loaded now env m with
  | (m, Ok _) => (m, Ok (default [] (c_rules <$> cache m)))
  | (m, Err _) | (m, Panic) => (m, Panic)
  end.

Definition has_rules_file (now : Z) (env : LoadEnv) (m : BucketSettingsManager) :
    BucketSettingsManager * outcome unit bool :=
  match ensure_loaded now env m with
  | (m, Ok _) => (m, Ok (default false (c_has_rules_file <$> cache m)))
  | (m, Err _) | (m, Panic) => (m, Panic)
  end.

End Manager.

(** [extract_bucket]: the first segment of a cache key. *)
Definition extract_bucket (path : string) : option string :=
  let trimmed := default path (RustStr.strip_prefix "/" path) in
  let bucket := match find_str "/" trimmed with
                | Some pos => string_take pos trimmed
                | None => trimmed
                end in
  if is_empty_str bucket then None else Some bucket.

(** ** What resolution means *)

(** The rules that apply to a key, in the order of the file. *)
Definition applicable (rules : CacheRules) (key : string) : list CacheRule :=
  filter (fun rule => glob_matches (r_pattern rule) key) rules.

Definition first_set {A} (rules : CacheRules) (key : string) (pick : CacheRule -> option A) : option A :=
  head (omap pick (applicable rules key)).

Definition settings_of (rules : CacheRules) (g : GlobalDefaults) (key : string) : ResolvedSettings :=
  let pick {A} := @first_set A rules key in
  let ttl := default (g_get_ttl g) (pick r_get_ttl) in
  let read := default (g_read_cache_enabled g) (pick r_read_cache_enabled) in
  mkResolved ttl (default (g_head_ttl g) (pick r_head_ttl)) (default (g_put_ttl g) (pick r_put_ttl))
    read (default (g_write_cache_enabled g) (pick r_write_cache_enabled))
    (default (g_compression_enabled g) (pick r_compression_enabled))
    (bool_decide (is_Some (pick r_compression_enabled)))
    (default (g_ram_cache_enabled g) (pick r_ram_cache_eligible) && negb (ttl =? 0) && read)
    (default (g_evaluate_conditions_from_cache g) (pick r_evaluate_conditions_from_cache))
    (default false (pick r_page_widening)) (default DEFAULT_PAGE_SIZE (pick r_page_size))
    (default false (pick r_hedging_enabled))
    (default DEFAULT_HEDGE_TRIGGER_AFTER (pick r_hedge_trigger_after))
    (default DEFAULT_HEDGE_MAX_PER_REQUEST (pick r_hedge_max_per_request))
    (match list_find (fun rule => glob_matches (r_pattern rule) key) rules with
     | Some (i, rule) => Rule i (r_pattern rule)
     | None => Global
     end).

(** ** The compiled set finds the applicable rules *)

(** [first] over the increasing indices of the rules that satisfy [P]. *)
Lemma first_indices {A} (P : CacheRule -> Prop) `{!forall r, Decision (P r)} (pick : CacheRule -> option A)
    (Q : nat -> Prop) `{!forall i, Decision (Q i)} post : forall pre,
  (forall i r, (pre ++ post) !! i = Some r -> Q i <-> P r) ->
  first (pre ++ post) pick (filter Q (seq (length pre) (length post))) =
  Ok (head (omap pick (filter P post))).
Proof.
  induction post as [| r post IH]; intros pre HQ; [done |].
  specialize (IH (pre ++ [r])). rewrite length_app, <- app_assoc in IH. cbn [length app] in IH.
  rewrite Nat.add_1_r in IH. specialize (IH HQ).
  assert ((pre ++ r :: post) !! length pre = Some r) as Hr by by rewrite lookup_app_r, Nat.sub_diag by lia.
  cbn [length seq]. rewrite filter_cons. rewrite (filter_cons P).
  destruct (decide (Q (length pre))) as [Hq | Hq], (decide (P r)) as [Hp | Hp];
    [| by destruct Hp; apply (HQ _ _ Hr) | by destruct Hq; apply (HQ _ _ Hr) | done].
  cbn [first]. rewrite Hr. cbn. by destruct (pick r).
Qed.

Lemma source_indices (P : CacheRule -> Prop) `{!forall r, Decision (P r)}
    (Q : nat -> Prop) `{!forall i, Decision (Q i)} post : forall pre,
  (forall i r, (pre ++ post) !! i = Some r -> Q i <-> P r) ->
  match filter Q (seq (length pre) (length post)) with
  | idx :: _ => exists r, (pre ++ post) !! idx = Some r /\ list_find P post = Some ((idx - length pre)%nat, r) /\ (length pre <= idx)%nat
  | [] => list_find P post = None
  end.
Proof.
  induction post as [| r post IH]; intros pre HQ; [done |].
  specialize (IH (pre ++ [r])). rewrite length_app, <- app_assoc in IH. cbn [length app] in IH.
  rewrite Nat.add_1_r in IH. specialize (IH HQ).
  assert ((pre ++ r :: post) !! length pre = Some r) as Hr by by rewrite lookup_app_r, Nat.sub_diag by lia.
  cbn [length seq list_find]. rewrite filter_cons.
  destruct (decide (Q (length pre))) as [Hq | Hq], (decide (P r)) as [Hp | Hp];
    [| by destruct Hp; apply (HQ _ _ Hr) | by destruct Hq; apply (HQ _ _ Hr) |].
  - exists r. rewrite Nat.sub_diag. auto.
  - destruct (filter Q (seq (S (length pre)) (length post))) as [| idx rest]; [by rewrite IH |].
    destruct IH as (r' & Hl & Hf & Hle). exists r'. rewrite Hf. split_and!; [done | | lia].
    cbn. do 2 f_equal. lia.
Qed.

Section Resolution.
Context `{RegexLaws}.

Lemma translate_all_lookup rules : forall pats i rule,
  translate_all rules = Ok pats -> rules !! i = Some rule ->
  exists re, pats !! i = Some re /\ glob_to_regex (r_pattern rule) = Ok re.
Proof.
  induction rules as [| r rules IH]; intros pats i rule Ht Hi; [done |].
  cbn in Ht. okinv. destruct i as [| i]; simplify_eq/=; [eauto |]. by eapply IH.
Qed.

Lemma translate_all_length rules : forall pats, translate_all rules = Ok pats -> length pats = length rules.
Proof.
  induction rules as [| r rules IH]; intros pats Ht; cbn in Ht; okinv; [done |]. cbn. f_equal. auto.
Qed.

(** A pattern that was translated is one [glob_to_regex_Ok] covers. *)
Lemma translated_matches pattern key re :
  valid_utf8 pattern = true -> (newline ∉ utf8_chars key) -> glob_to_regex pattern = Ok re ->
  regex_is_match re key = true <-> glob_matches pattern key.
Proof.
  intros Hv Hn He.
  destruct (is_empty_str (str_trim pattern)) eqn:Ht; [unfold glob_to_regex in He; by rewrite Ht in He |].
  assert (forallb short_char (utf8_chars pattern) = true) as Hs.
  { apply not_false_iff_true. intros Hs%glob_panics_iff; [congruence | done | done]. }
  rewrite glob_to_regex_Ok in He by done. apply Ok_inj in He as <-. by apply render_glob.
Qed.

Lemma build_matches rules rs key i rule :
  Forall (fun r => valid_utf8 (r_pattern r) = true) rules -> (newline ∉ utf8_chars key) ->
  translate_all rules = Ok rs -> rules !! i = Some rule ->
  regex_is_match (default "" (rs !! i)) key = true <-> glob_matches (r_pattern rule) key.
Proof.
  intros Hv Hn Ht Hi. destruct (translate_all_lookup _ _ _ _ Ht Hi) as (re & -> & He).
  apply translated_matches; [| done | done]. by eapply Forall_lookup_1 in Hi; [| exact Hv].
Qed.

(** A rule set stands for a list of rules: the empty one, or the one built from it. *)
Definition stands_for (rs : RuleSet) (rules : CacheRules) : Prop :=
  (rules = [] /\ rs = ruleset_empty) \/ ruleset_build rules = Ok rs.

Lemma resolve_spec rs rules g key :
  Forall (fun r => valid_utf8 (r_pattern r) = true) rules -> (newline ∉ utf8_chars key) ->
  stands_for rs rules -> resolve rs key g = Ok (settings_of rules g key).
Proof.
  intros Hv Hn Hrs.
  assert (rs_rules rs = rules /\ exists Q : nat -> Prop, exists Hd : forall i, Decision (Q i),
            regexset_matches (regex_set rs) key = filter Q (seq 0 (length rules)) /\
            forall i r, rules !! i = Some r -> Q i <-> glob_matches (r_pattern r) key) as (Hr & Q & Hd & HQ & HP).
  { destruct Hrs as [[-> ->] | Hb].
    - split; [done |]. exists (fun _ => False), (fun _ => right (fun f => f)). cbn.
      by rewrite regexset_empty_matches.
    - unfold ruleset_build in Hb. destruct (translate_all rules) as [pats | |] eqn:Ht; [| done..].
      destruct (regexset_new pats) as [set |] eqn:Hset; [| done]. injection Hb as <-. split; [done |].
      exists (fun i => regex_is_match (default "" (pats !! i)) key = true), _. cbn [regex_set].
      rewrite <- (translate_all_length _ _ Ht). split; [by apply regexset_matches_spec |].
      intros i r Hi. by eapply build_matches. }
  pose proof (source_indices (fun rule => glob_matches (r_pattern rule) key) Q rules [] HP) as Hs.
  unfold resolve. rewrite Hr, HQ. cbn [length app] in Hs.
  assert (forall A (pick : CacheRule -> option A),
            first rules pick (filter Q (seq 0 (length rules))) = Ok (first_set rules key pick)) as Hf.
  { intros A pick. by apply (first_indices (fun rule => glob_matches (r_pattern rule) key) pick Q rules []). }
  rewrite !Hf. clear Hf.
  assert (match filter Q (seq 0 (length rules)) with
          | idx :: _ => match rules !! idx with Some rule => Ok (Rule idx (r_pattern rule)) | None => Panic end
          | [] => Ok Global end =
          @Ok unit _ (source (settings_of rules g key))) as ->.
  { cbn. destruct (filter Q (seq 0 (length rules))) as [| idx ?]; [by rewrite Hs |].
    destruct Hs as (r & -> & -> & _). by rewrite Nat.sub_0_r. }
  cbn. unfold settings_of. do 2 f_equal.
  destruct (_ =? 0), (default (g_read_cache_enabled g) _), (default (g_ram_cache_enabled g) _); done.
Qed.

End Resolution.

(** ** The manager serves the last good rules *)

Definition served `{RegexEngine} (m : BucketSettingsManager) : CacheRules := default [] (c_rules <$> cache m).

Section Reload.
Context `{RegexLaws}.
Variable from_json : string -> outcome string CacheRules.
Variable staleness_threshold : Z.
Variable global_config : GlobalDefaults.
Variable max_rules : Z.
(** The parser returns Rust strings. *)
Hypothesis json_utf8 : forall text rules,
  from_json text = Ok rules -> Forall (fun r => valid_utf8 (r_pattern r) = true) rules.

#[local] Abbreviation load := (load_rules from_json staleness_threshold global_config max_rules).
#[local] Abbreviation ensure := (ensure_loaded from_json staleness_threshold global_config max_rules).
#[local] Abbreviation mresolve := (manager_resolve from_json staleness_threshold global_config max_rules).
#[local] Abbreviation fresh := (is_fresh staleness_threshold).

(** Rules the validation lets through. *)
Definition accepted (rules : CacheRules) : Prop :=
  Forall (fun r => valid_utf8 (r_pattern r) = true) rules /\
  (rules = [] \/ validate max_rules (g_upstream_first_byte_timeout global_config) rules = Ok []).

(** The rules a read of the file gives: none when there is no file; [None] when it
    cannot be read, parsed, validated or compiled. *)
Definition file_rules (f : RulesFile) : option CacheRules :=
  match f with
  | FileMissing => Some []
  | FileUnreadable => None
  | FileContents text =>
      match from_json text with
      | Ok rules =>
          match validate max_rules (g_upstream_first_byte_timeout global_config) rules, ruleset_build rules with
          | Ok [], Ok _ => Some rules
          | _, _ => None
          end
      | _ => None
      end
  end.

Definition good (p : RuleSet * CacheRules) : Prop := stands_for p.1 p.2 /\ accepted p.2.

Record manager_ok (m : BucketSettingsManager) : Prop := {
  ok_cached : forall c, cache m = Some c -> good (c_ruleset c, c_rules c);
  ok_previous : forall c p, cache m = Some c -> c_previous_valid c = Some p -> good p /\ p.2 <> [];
}.

Lemma good_empty : good (ruleset_empty, []).
Proof. split; [by left | split; [constructor | by left]]. Qed.

Lemma file_rules_Some f rules :
  file_rules f = Some rules ->
  (f = FileMissing /\ rules = []) \/
  (exists text rs, f = FileContents text /\ from_json text = Ok rules /\
     validate max_rules (g_upstream_first_byte_timeout global_config) rules = Ok [] /\
     ruleset_build rules = Ok rs).
Proof.
  destruct f as [text | |]; cbn; [| naive_solver | done]. intros Hf. right.
  destruct (from_json text) as [parsed | |] eqn:Hj; [| done..].
  destruct (validate _ _ parsed) as [[| ? ?] | |] eqn:Hv; [| done..].
  destruct (ruleset_build parsed) as [rs | |] eqn:Hb; [| done..].
  injection Hf as ->. eauto 10.
Qed.

Lemma store_valid_ok env rs rules has m :
  manager_ok m -> good (rs, rules) -> manager_ok (store_valid env rs rules has m).
Proof.
  intros [Hc Hp] Hg. split.
  - intros c [= <-]. done.
  - intros c p [= <-]. cbn. destruct (cache m) as [c0 |]; cbn; [| done].
    case_bool_decide as He; cbn; [by apply Hp | intros [= <-]]. auto.
Qed.

Lemma use_fallback_ok env has m : manager_ok m -> manager_ok (use_fallback env has m).
Proof.
  intros [Hc Hp]. unfold use_fallback. destruct (cache m) as [c0 |];
    [| by split; [intros c [= <-]; apply good_empty | intros c p [= <-]]].
  specialize (Hc c0 eq_refl). specialize (Hp c0). case_bool_decide as He; cbn [negb].
  - destruct (c_previous_valid c0) as [[rs rules] |]; split; try (by intros c p [= <-]);
      intros c [= <-]; cbn; [by apply (Hp (rs, rules)) | apply good_empty].
  - split; [by intros c [= <-] | intros c p [= <-]; cbn; auto].
Qed.

(** Every outcome of a load: nothing on a fresh cache, a panic in the parser or in a
    pattern that leaves the state alone, a store or a fallback. *)
Lemma load_cases env m m' r :
  load env m = (m', r) ->
  (fresh (e_recheck env) m = true /\ m' = m /\ r = Ok tt) \/
  (m' = m /\ r = Panic /\ file_rules (e_file env) = None) \/
  (exists rs rules has, m' = store_valid env rs rules has m /\ file_rules (e_file env) = Some rules /\
     r = Ok tt /\ stands_for rs rules) \/
  (exists has, m' = use_fallback env has m /\ file_rules (e_file env) = None /\ r = Ok tt).
Proof.
  unfold load_rules. destruct (is_fresh _ _ m); [intros [= <- <-]; by left |]. intros Hl. right.
  destruct (e_file env) as [text | |]; cbn.
  - destruct (from_json text) as [parsed | |]; [| injection Hl as <- <-; by eauto 10 | injection Hl as <- <-; by left].
    destruct (validate _ _ parsed) as [[| e es] | |];
      [| injection Hl as <- <-; by eauto 10 | injection Hl as <- <-; by left..].
    destruct (ruleset_build parsed) as [rs | |] eqn:Hb;
      [| injection Hl as <- <-; by eauto 10 | injection Hl as <- <-; by left].
    injection Hl as <- <-. right; left. exists rs, parsed, true. split_and!; try done. by right.
  - injection Hl as <- <-. right; left. exists ruleset_empty, [], false. split_and!; try done. by left.
  - injection Hl as <- <-. by eauto 10.
Qed.

Lemma file_rules_accepted f rules : file_rules f = Some rules -> accepted rules.
Proof.
  intros [[_ ->] | (text & rs & _ & Hj & Hv & _)]%file_rules_Some.
  - split; [constructor | by left].
  - split; [by eapply json_utf8 | by right].
Qed.

Lemma ensure_ok now env m m' r : manager_ok m -> ensure now env m = (m', r) -> manager_ok m'.
Proof.
  intros Hm. unfold ensure_loaded. destruct (is_fresh _ now m); [by intros [= <- <-] |].
  intros [(_ & -> & _) | [(-> & _) | [(rs & rules & has & -> & Hf & _ & Hs) | (has & -> & _)]]]%load_cases;
    [done | done | | by apply use_fallback_ok].
  apply store_valid_ok; [done |]. split; [done | by eapply file_rules_accepted].
Qed.

(** The states of a running manager: any sequence of calls, each with its clock
    readings and the file it finds. *)
Inductive reachable : BucketSettingsManager -> Prop :=
  | reach_new : reachable manager_new
  | reach_resolve now env key m m' r :
      reachable m -> mresolve now env key m = (m', r) -> reachable m'
  | reach_rules now env m m' r :
      reachable m ->
      manager_rules from_json staleness_threshold global_config max_rules now env m = (m', r) -> reachable m'
  | reach_has_file now env m m' r :
      reachable m ->
      has_rules_file from_json staleness_threshold global_config max_rules now env m = (m', r) -> reachable m'.

Definition count_call (m : BucketSettingsManager) : BucketSettingsManager :=
  mkManager (cache m) (u64_add (resolve_calls m) 1) (reloads_total m) (reload_failures_total m)
    (on_fallback m) (rules_loaded m) (last_load_unix m).

Lemma count_call_ok m : manager_ok m -> manager_ok (count_call m).
Proof. intros [Hc Hp]. by split. Qed.

Lemma mresolve_ensure now env key m m' r :
  mresolve now env key m = (m', r) ->
  exists r0, ensure now env (count_call m) = (m', r0) /\
    r = match r0 with
        | Ok _ => resolve (default ruleset_empty (c_ruleset <$> cache m')) key global_config
        | _ => Panic
        end.
Proof.
  unfold manager_resolve. fold (count_call m).
  destruct (ensure now env (count_call m)) as [m1 [u | u |]]; intros [= <- <-]; eexists; split; try done.
  by destruct (cache m1).
Qed.

Lemma reachable_ok m : reachable m -> manager_ok m.
Proof.
  induction 1 as [| now env key m m' r _ IH Hr | now env m m' r _ IH Hr | now env m m' r _ IH Hr].
  - by split.
  - apply mresolve_ensure in Hr as (r0 & Hr & _). eapply ensure_ok; [| exact Hr]. by apply count_call_ok.
  - unfold manager_rules in Hr. destruct (ensure now env m) as [m1 [u | u |]] eqn:He;
      injection Hr as <- _; by eapply ensure_ok.
  - unfold has_rules_file in Hr. destruct (ensure now env m) as [m1 [u | u |]] eqn:He;
      injection Hr as <- _; by eapply ensure_ok.
Qed.

Lemma ok_resolves m key :
  manager_ok m -> (newline ∉ utf8_chars key) ->
  resolve (default ruleset_empty (c_ruleset <$> cache m)) key global_config =
  Ok (settings_of (served m) global_config key) /\ accepted (served m).
Proof.
  intros [Hc _] Hn. unfold served. destruct (cache m) as [c |]; cbn.
  - destruct (Hc c eq_refl) as [Hs Ha]. split; [| done]. by apply resolve_spec; [apply Ha | |].
  - destruct good_empty as [Hs Ha]. split; [| done]. by apply resolve_spec; [constructor | |].
Qed.

(** What a call serves afterwards. *)
Lemma ensure_served now env m m' u :
  ensure now env m = (m', Ok u) ->
  (served m' = served m /\ (fresh now m = true \/ fresh (e_recheck env) m = true)) \/
  match file_rules (e_file env) with
  | Some rules => served m' = rules
  | None => served m <> [] -> served m' = served m
  end.
Proof.
  unfold ensure_loaded. destruct (is_fresh _ now m) eqn:Hf; [intros [= <- <-]; auto |].
  intros [(Hf' & -> & _) | [(_ & [=] & _) | [(rs & rules & has & -> & -> & _ & _) | (has & -> & -> & _)]]]%load_cases.
  - auto.
  - by right.
  - right. unfold served, use_fallback. destruct (cache m) as [c |]; [| done]. cbn.
    intros Hne. by rewrite bool_decide_false.
Qed.

Lemma ensure_panics now env m m' r :
  ensure now env m = (m', r) -> r <> Ok tt -> r = Panic /\ m' = m /\ file_rules (e_file env) = None.
Proof.
  unfold ensure_loaded. destruct (is_fresh _ now m); [by intros [= <- <-] |].
  intros [(_ & _ & ->) | [(-> & -> & Hf) | [(? & ? & ? & _ & _ & -> & _) | (? & _ & _ & ->)]]]%load_cases; done.
Qed.

(** C28: settings always come from rules that passed validation.  In every state a
    running manager reaches, whatever the file held at each load, [resolve] either
    panics (and then only in the parser or in a pattern, on a file it was reading) or
    returns, for every field, what the first applicable rule that sets it says and the
    global default otherwise, with the RAM tier off for a zero TTL or a disabled read
    cache; the rules are the cached ones while they are fresh, those of the file when
    the load accepts it, none when there is no file, and on a file that cannot be read,
    parsed or validated the ones served before (when there were any). *)
Theorem settings_refine now env key m m' r :
  reachable m -> (newline ∉ utf8_chars key) -> mresolve now env key m = (m', r) ->
  (r = Panic /\ file_rules (e_file env) = None /\ served m' = served m) \/
  (r = Ok (settings_of (served m') global_config key) /\ accepted (served m') /\
   ((served m' = served m /\ (fresh now m = true \/ fresh (e_recheck env) m = true)) \/
    match file_rules (e_file env) with
    | Some rules => served m' = rules
    | None => served m <> [] -> served m' = served m
    end)).
Proof.
  intros Hm%reachable_ok Hn (r0 & He & ->)%mresolve_ensure.
  apply count_call_ok in Hm. pose proof (ensure_ok _ _ _ _ _ Hm He) as Hm'.
  destruct r0 as [u | u |].
  - right. destruct (ok_resolves m' key Hm' Hn) as [Hr Ha]. split_and!; [done | done |].
    by apply ensure_served in He.
  - apply ensure_panics in He as [[=] _]. done.
  - left. split; [done |]. by apply ensure_panics in He as (_ & -> & Hf); [| intros [=]].
Qed.

(** Single flight: the tasks that queued behind a load find the cache fresh and do not
    read the file again. *)
Lemma load_single_flight env env' m m' :
  load env m = (m', Ok tt) -> fresh (e_recheck env) m = false ->
  e_stored env <= e_recheck env' < e_stored env + staleness_threshold ->
  load env' m' = (m', Ok tt).
Proof.
  intros Hl Hf Ht.
  enough (fresh (e_recheck env') m' = true) as Hf' by (unfold load_rules; by rewrite Hf').
  assert (exists c, cache m' = Some c /\ c_loaded_at c = e_stored env) as (c & Hc & Ha).
  { apply load_cases in Hl as [(Hf' & _) | [(_ & [=] & _) | [(? & ? & ? & -> & _) | (has & -> & _)]]];
      [congruence | cbn; eauto |].
    unfold use_fallback. destruct (cache m) as [c |]; [| cbn; eauto].
    destruct (negb _); [cbn; eauto |]. destruct (c_previous_valid c) as [[? ?] |]; cbn; eauto. }
  unfold is_fresh. rewrite Hc, Ha. apply Z.ltb_lt. unfold elapsed. lia.
Qed.

End Reload.

(** ** Runs *)

Definition plain_rule (pattern : string) : CacheRule :=
  mkCacheRule pattern None None None None None None None None None None None None None.

Definition uncached_logs : CacheRule :=
  mkCacheRule "logs/**" (Some 0) None None (Some true) None None None None None None None None None.

Definition sample_defaults : GlobalDefaults :=
  mkGlobal 3600000000000 60000000000 3600000000000 true true true true true 5000000000.

(** A parser of three texts. *)
Definition sample_json (text : string) : outcome string CacheRules :=
  if bool_decide (text = "logs") then Ok [uncached_logs]
  else if bool_decide (text = "none") then Ok []
  else Err "expected value".

Lemma sample_json_utf8 text rules :
  sample_json text = Ok rules -> Forall (fun r => valid_utf8 (r_pattern r) = true) rules.
Proof. unfold sample_json. repeat case_bool_decide; intros [= <-]; repeat constructor. Qed.

Definition sample_env (t : Z) (f : RulesFile) : LoadEnv := mkLoadEnv t f t 0.

#[local] Abbreviation run_resolve := (@manager_resolve Sample.engine sample_json 30 sample_defaults DEFAULT_MAX_RULES).

(** Two loads, the second of a broken file, serve the rules of the first. *)
Definition after_good : BucketSettingsManager :=
  (run_resolve 0 (sample_env 0 (FileContents "logs")) "logs/a" manager_new).1.

Lemma settings_refine_witness :
  let r := run_resolve 100 (sample_env 100 (FileContents "{")) "logs/a" after_good in
  r.2 = Ok (settings_of [uncached_logs] sample_defaults "logs/a").
Proof.
  assert (newline ∉ utf8_chars "logs/a") as Hn by (apply (bool_decide_eq_true _); vm_compute; reflexivity).
  assert (served after_good = [uncached_logs]) as Hs by (vm_compute; reflexivity).
  cbv zeta.
  destruct (run_resolve 100 (sample_env 100 (FileContents "{")) "logs/a" after_good) as [m' r] eqn:E.
  destruct (@settings_refine Sample.engine Sample.engine_laws sample_json 30 sample_defaults DEFAULT_MAX_RULES
              sample_json_utf8 100 (sample_env 100 (FileContents "{")) "logs/a" after_good m' r) as
    [(-> & _) | (-> & _ & [[-> _] | Hm])].
  - eapply reach_resolve; [apply reach_new |]. apply surjective_pairing.
  - exact Hn.
  - exact E.
  - exfalso. revert E. vm_compute. discriminate.
  - cbn. by rewrite Hs.
  - cbn in Hm |- *. rewrite Hm; rewrite Hs; [reflexivity | discriminate].
Defined.

(** After the rules were emptied (the file removed, or valid without rules), a broken
    file brings back the rules that were removed: the fallback takes the last rule set
    that had rules for the last good one. *)
Lemma removed_rules_return :
  let m1 := (run_resolve 0 (sample_env 0 (FileContents "logs")) "logs/a" manager_new).1 in
  let m2 := (run_resolve 100 (sample_env 100 (FileContents "none")) "logs/a" m1).1 in
  let m3 := (run_resolve 200 (sample_env 200 (FileContents "{")) "logs/a" m2).1 in
  served m2 = [] /\ served m3 = [uncached_logs].
Proof. vm_compute. done. Qed.

(** Page widening from one rule and a page size from another: each rule passes, and the
    key resolves to a page of 1 TiB, past the admission ceiling. *)
Definition wide_rules : CacheRules :=
  [mkCacheRule "b/**" None None None None None None None None (Some true) None None None None;
   mkCacheRule "**" None None None None None None None None None (Some (2 ^ 40)) None None None].

Lemma page_size_check_evaded :
  @validate Sample.engine DEFAULT_MAX_RULES 5000000000 wide_rules = Ok [] /\
  page_widening (settings_of wide_rules sample_defaults "b/k") = true /\
  Ram.RAM_CACHE_ADMISSION_CEILING < page_size (settings_of wide_rules sample_defaults "b/k").
Proof. by vm_compute. Qed.

End Settings.
