(* ===== verification/Durations.v ===== *)
(** * Durations in the configuration ([config.rs], [duration_serde])

    [parse_duration]: a decimal number read as an [f64], a unit, and the conversion
    to a [Duration] of nanoseconds. *)

From S2P Require Import Prelude RustStr CacheTypes Floats Globs.
From stdpp Require Import base list strings.
From Stdlib Require Import SpecFloat.

#[local] Open Scope Z_scope.

(** ** The number *)

Definition is_number_part (a : ascii) : bool :=
  bool_decide (is_Some (to_digit 10 a)) || ascii_eqb a ".".

Fixpoint number_end (s : string) : nat :=
  match s with
  | String a s' => if is_number_part a then S (number_end s') else O
  | EmptyString => O
  end.

Fixpoint decimal_value (acc : Z) (s : string) : option Z :=
  match s with
  | EmptyString => Some acc
  | String a s' => d ← to_digit 10 a; decimal_value (10 * acc + d) s'
  end.

(** [f64::from_str] of a text of digits and points: at most one point, at least one
    digit, and the nearest double to the decimal. *)
Definition parse_f64 (s : string) : option spec_float :=
  let '(whole, frac) := match split_once "." s with Some (l, r) => (l, r) | None => (s, "") end in
  if is_empty_str whole && is_empty_str frac then None else
  w ← decimal_value 0 whole;
  n ← decimal_value w frac;
  Some match n with
       | Zpos p => SFdiv 53 1024 (S754_finite false p 0) (S754_finite false (Z.to_pos (10 ^ Z.of_nat (String.length frac))) 0)
       | _ => S754_zero false
       end.

(** ** The conversion *)

(** [a / 2^k] to the nearest integer, ties to even. *)
Definition round_half_even (a k : Z) : Z :=
  let q := Z.shiftr a k in
  let r := a - Z.shiftl q k in
  if (2 ^ k <? 2 * r) || ((2 ^ k =? 2 * r) && Z.odd q) then q + 1 else q.

(** [Duration::from_secs_f64]: it panics when the value is negative, not finite or
    past [u64] seconds. *)
Definition from_secs_f64 (x : spec_float) : outcome string Z :=
  match x with
  | S754_zero _ => Ok 0
  | S754_finite false m e =>
      if 2 ^ 64 <=? Z.shiftl (Zpos m) e then Panic
      else Ok (if 0 <=? e then Z.shiftl (Zpos m) e * NANOS_PER_SEC
               else round_half_even (Zpos m * NANOS_PER_SEC) (- e))
  | _ => Panic
  end.

Definition parse_duration (s : string) : outcome string Z :=
  let s := str_trim s in
  if is_empty_str s then Err "Empty duration string" else
  let num_end := number_end s in
  if (num_end =? 0)%nat then Err "No number found in duration string" else
  let num_str := string_take num_end s in
  let unit := str_trim (string_drop num_end s) in
  match parse_f64 num_str with
  | None => Err "Failed to parse number"
  | Some value =>
      if bool_decide (unit ∈ ["s"; "sec"; "secs"; "second"; "seconds"]) then from_secs_f64 value
      else if bool_decide (unit ∈ ["m"; "min"; "mins"; "minute"; "minutes"])
      then from_secs_f64 (f64_mul value (u64_to_f64 60))
      else if bool_decide (unit ∈ ["h"; "hr"; "hrs"; "hour"; "hours"])
      then from_secs_f64 (f64_mul value (u64_to_f64 3600))
      else if bool_decide (unit ∈ ["d"; "day"; "days"])
      then from_secs_f64 (f64_mul value (u64_to_f64 86400))
      else if bool_decide (unit ∈ ["ms"; "millis"; "millisecond"; "milliseconds"])
      then from_secs_f64 (f64_div value (u64_to_f64 1000))
      else if bool_decide (unit = "") then from_secs_f64 value
      else Err "Unknown duration unit"
  end.

(** ** What it returns *)

Lemma round_half_even_range a k : 0 <= a -> 0 <= k -> 0 <= round_half_even a k <= Z.shiftr a k + 1.
Proof.
  intros Ha Hk. unfold round_half_even. pose proof (proj2 (Z.shiftr_nonneg a k) Ha).
  destruct (_ || _); lia.
Qed.

(** A duration that is returned is one: not negative, less than [2^64] seconds and a
    rounding. *)
Lemma from_secs_f64_range x d : from_secs_f64 x = Ok d -> 0 <= d <= 2 ^ 64 * NANOS_PER_SEC.
Proof.
  unfold from_secs_f64, NANOS_PER_SEC. destruct x as [| | | [] m e]; try discriminate.
  - intros [= <-]. lia.
  - destruct (Z.leb_spec (2 ^ 64) (Z.shiftl (Zpos m) e)) as [| Hm]; [discriminate |].
    destruct (Z.leb_spec 0 e) as [He | He]; intros Hd%Ok_inj; subst d.
    + pose proof (proj2 (Z.shiftl_nonneg (Zpos m) e) ltac:(lia)). lia.
    + pose proof (round_half_even_range (Zpos m * 1000000000) (- e) ltac:(lia) ltac:(lia)) as [H1 H2].
      split; [lia |]. etransitivity; [exact H2 |].
      rewrite <- (Z.opp_involutive e), Z.shiftl_opp_r in Hm.
      rewrite Z.shiftr_div_pow2 in * by lia.
      assert (0 < 2 ^ (- e)) by (apply Z.pow_pos_nonneg; lia).
      assert (Zpos m < 2 ^ 64 * 2 ^ (- e)).
      { pose proof (Z.div_mod (Zpos m) (2 ^ (- e)) ltac:(lia)). pose proof (Z.mod_pos_bound (Zpos m) (2 ^ (- e)) ltac:(lia)). nia. }
      assert (Zpos m * 1000000000 / 2 ^ (- e) < 2 ^ 64 * 1000000000); [| lia].
      apply Z.div_lt_upper_bound; nia.
Qed.

(** Units and roundings, on values. *)
Example durations_read :
  parse_duration " 5m " = Ok (300 * NANOS_PER_SEC) /\ parse_duration "1.5h" = Ok (5400 * NANOS_PER_SEC) /\
  parse_duration "250 ms" = Ok 250000000 /\ parse_duration "0.1" = Ok 100000000 /\
  parse_duration "2 weeks" = Err "Unknown duration unit" /\ parse_duration "-1s" = Err "No number found in duration string" /\
  parse_duration "1.2.3s" = Err "Failed to parse number".
Proof. vm_compute. repeat split. Qed.

(** A number of seconds past [u64] is not an error but a panic of
    [Duration::from_secs_f64]. *)
Lemma huge_duration_panics :
  parse_duration "18446744073709551616s" = Panic /\ parse_duration "999999999999999999d" = Panic.
Proof. vm_compute. repeat split. Qed.
