(* ===== verification/HttpHeaders.v ===== *)
(** * Request and response headers ([http_proxy.rs])

    The header parsers of the proxy: cache bypass, [Content-Range], entity tags and
    their lists, the conditional headers, and the [Referer] the proxy adds.  Header
    values are visible ASCII ([HeaderValue::to_str]), so a byte is a character.  HTTP
    dates are parsed by a parameter ([HttpDate]). *)

From S2P Require Import Prelude CacheTypes Ranges RangeParse SignedRequest DiskStore RustStr.

#[local] Open Scope Z_scope.
#[local] Arguments String.append : simpl nomatch.

Module Http.

(** ** Cache bypass *)

Inductive CacheBypassMode := BypassNone | NoCache | NoStore.

#[export] Instance CacheBypassMode_eq_dec : EqDecision CacheBypassMode.
Proof. solve_decision. Defined.

(** [directive.split('=').next()]. *)
Definition directive_name (directive : string) : string :=
  match split_once "=" directive with Some (name, _) => name | None => directive end.

Definition parse_cache_control (value : string) : CacheBypassMode :=
  let names := map (fun d => directive_name (to_lowercase (trim d))) (split_char "," value) in
  if existsb (fun n => bool_decide (n = "no-store")) names then NoStore
  else if existsb (fun n => bool_decide (n = "no-cache")) names then NoCache
  else BypassNone.

Definition parse_pragma_no_cache (value : string) : bool := eq_ignore_ascii_case (trim value) "no-cache".

Definition parse_cache_bypass_headers (headers : Headers) (config_enabled : bool) : CacheBypassMode :=
  if negb config_enabled then BypassNone else
  let mode := match header_get headers "cache-control" with
              | Some cache_control => parse_cache_control cache_control
              | None => BypassNone
              end in
  if bool_decide (mode <> BypassNone) then mode else
  match header_get headers "pragma" with
  | Some pragma => if parse_pragma_no_cache pragma then NoCache else BypassNone
  | None => BypassNone
  end.

(** ** [Content-Range] *)

Definition parse_content_range (header : string) : option (Z * Z * Z) :=
  rest ← strip_prefix "bytes " (trim header);
  '(range_part, total_str) ← split_once "/" rest;
  if bool_decide (total_str = "*") then None else
  total ← parse_u64 total_str;
  '(start_str, end_str) ← split_once "-" range_part;
  s ← parse_u64 start_str;
  e ← parse_u64 end_str;
  if (e <? s) || (total <=? e) then None else Some (s, e, total).

Definition parse_content_range_length (headers : Headers) : option Z :=
  value ← match header_get headers "content-range" with
          | Some v => Some v
          | None => header_get headers "Content-Range"
          end;
  '(s, e, _) ← parse_content_range value;
  Some (u64_add (u64_sub e s) 1).

(** ** Entity tags *)

Definition quote : ascii := Ascii.ascii_of_nat 34.

Definition quote_str : string := String quote "".

Definition is_quoted (s : string) : bool :=
  Nat.leb 2 (String.length s) && starts_with quote_str s && ends_with quote_str s.

(** [&s[1..s.len() - 1]]. *)
Definition inner (s : string) : string := string_take (String.length s - 2) (string_drop 1 s).

Definition strip_etag_quotes (s : string) : string := if is_quoted s then inner s else s.

Definition strip_weak (s : string) : string := default s (strip_prefix "W/" s).

Definition etag_strong_match (client cached : string) : bool :=
  let client_trim := trim client in
  if bool_decide (client_trim = "*") then true
  else if starts_with "W/" client_trim || starts_with "W/" cached then false
  else bool_decide (strip_etag_quotes client_trim = strip_etag_quotes cached).

Definition etag_weak_match (client cached : string) : bool :=
  let client_trim := trim client in
  if bool_decide (client_trim = "*") then true
  else bool_decide (strip_etag_quotes (strip_weak client_trim) = strip_etag_quotes (strip_weak cached)).

Inductive ETagEntry := Strong (opaque : string) | Weak (opaque : string) | Invalid.

Definition strong_matches (entry : ETagEntry) (target : string) : bool :=
  match entry with
  | Strong opaque =>
      let target_trim := trim target in
      if starts_with "W/" target_trim then false
      else bool_decide (opaque = strip_etag_quotes target_trim)
  | Weak _ | Invalid => false
  end.

Definition weak_matches (entry : ETagEntry) (target : string) : bool :=
  match entry with
  | Strong opaque | Weak opaque => bool_decide (opaque = strip_etag_quotes (strip_weak (trim target)))
  | Invalid => false
  end.

Definition classify_etag_entry (entry : string) : ETagEntry :=
  if is_empty_str entry then Invalid else
  match strip_prefix "W/" entry with
  | Some rest =>
      if is_quoted rest then Weak (inner rest)
      else if is_empty_str rest then Invalid
      else Weak rest
  | None =>
      if is_quoted entry then Strong (inner entry)
      else if starts_with quote_str entry && negb (ends_with quote_str entry) then Invalid
      else Strong entry
  end.

(** The entry that ends at a comma or at the end: skipped when blank. *)
Definition push_entry (current : string) : list ETagEntry :=
  let trimmed := trim current in
  if is_empty_str trimmed then [] else [classify_etag_entry trimmed].

(** The scan: [current] is what was pushed since the last entry. *)
Fixpoint etag_scan (s current : string) (in_quotes : bool) : list ETagEntry :=
  match s with
  | EmptyString => push_entry current
  | String ch s' =>
      if ascii_eqb ch quote then etag_scan s' (current +:+ String ch "") (negb in_quotes)
      else if ascii_eqb ch "," && negb in_quotes then push_entry current ++ etag_scan s' "" in_quotes
      else etag_scan s' (current +:+ String ch "") in_quotes
  end.

Definition parse_etag_list (header_value : string) : list ETagEntry := etag_scan header_value "" false.

Definition etag_list_strong_match (header_value target : string) : bool :=
  if bool_decide (trim header_value = "*") then true
  else existsb (fun entry => strong_matches entry target) (parse_etag_list header_value).

Definition etag_list_weak_match (header_value target : string) : bool :=
  if bool_decide (trim header_value = "*") then true
  else existsb (fun entry => weak_matches entry target) (parse_etag_list header_value).

Definition if_range_strong_match (if_range_value cached_etag : string) : bool :=
  let value := trim if_range_value in
  if is_empty_str value || bool_decide (value = "*") || contains_char "," value then false
  else if negb (is_quoted value) then false
  else existsb (fun entry => strong_matches entry cached_etag) (parse_etag_list value).

(** ** Conditional requests *)

Definition has_header (headers : Headers) (name : string) : bool :=
  match header_get headers name with Some _ => true | None => false end.

Definition has_temporal_or_negative_conditional (headers : Headers) : bool :=
  has_header headers "if-none-match" || has_header headers "if-modified-since" ||
  has_header headers "if-unmodified-since".

Definition has_non_if_match_conditional (headers : Headers) : bool :=
  has_temporal_or_negative_conditional headers || has_header headers "if-range".

Definition has_conditional_headers (headers : Headers) : bool :=
  has_header headers "if-match" || has_header headers "if-none-match" ||
  has_header headers "if-modified-since" || has_header headers "if-unmodified-since".

Definition has_range_conditional_headers (headers : Headers) : bool :=
  has_header headers "if-range" || has_header headers "if-match" || has_header headers "if-none-match".

Definition pin_if_range_serve_to_cached_etag (headers : Headers) (cached_etag : string) : Headers * bool :=
  if is_empty_str cached_etag || is_header_signed headers "if-range" then (headers, false)
  else (header_insert (header_insert (header_remove headers "if-range") "if-match" cached_etag)
          "x-proxy-injected-if-match" "1", true).

Definition if_range_requires_forward (mode_b : bool) (if_range_value : string) (cached_etag : option string) : bool :=
  if negb mode_b then true else
  match cached_etag with
  | Some etag => if is_empty_str etag then true else negb (if_range_strong_match if_range_value etag)
  | None => true
  end.

Inductive ConditionalEvalResult := EvalFresh | NotModified | PreconditionFailed | FallbackToForward.

Inductive Method := GET | HEAD | PUT | POST | DELETE | OtherMethod.

#[export] Instance Method_eq_dec : EqDecision Method.
Proof. solve_decision. Defined.

Definition get_or_head (m : Method) : bool := bool_decide (m = GET) || bool_decide (m = HEAD).

Section Evaluate.
Context `{HttpDate}.

(** Steps 3 and 4: [If-None-Match], or [If-Modified-Since] when it is absent. *)
Definition evaluate_not_modified (method : Method) (headers : Headers) (etag last_modified : string) :
    ConditionalEvalResult :=
  match header_get headers "if-none-match" with
  | Some if_none_match =>
      if is_empty_str etag then FallbackToForward
      else if etag_list_weak_match if_none_match etag
      then (if get_or_head method then NotModified else PreconditionFailed)
      else EvalFresh
  | None =>
      match header_get headers "if-modified-since" with
      | Some ims =>
          if negb (get_or_head method) then EvalFresh
          else if is_empty_str last_modified then FallbackToForward
          else match parse_http_date last_modified, parse_http_date ims with
               | Some cache_time, Some request_time => if cache_time <=? request_time then NotModified else EvalFresh
               | _, _ => FallbackToForward
               end
      | None => EvalFresh
      end
  end.

Definition evaluate_client_conditions_against_cache (method : Method) (headers : Headers)
    (cached_etag cached_last_modified : option string) : ConditionalEvalResult :=
  let etag := default "" cached_etag in
  let last_modified := default "" cached_last_modified in
  match header_get headers "if-match" with
  | Some if_match =>
      if is_empty_str etag then FallbackToForward
      else if negb (etag_list_strong_match if_match etag) then PreconditionFailed
      else evaluate_not_modified method headers etag last_modified
  | None =>
      match header_get headers "if-unmodified-since" with
      | Some ius =>
          if is_empty_str last_modified then FallbackToForward
          else match parse_http_date last_modified, parse_http_date ius with
               | Some cache_time, Some request_time =>
                   if request_time <? cache_time then PreconditionFailed
                   else evaluate_not_modified method headers etag last_modified
               | _, _ => FallbackToForward
               end
      | None => evaluate_not_modified method headers etag last_modified
      end
  end.

End Evaluate.

(** ** The [Referer] of the proxy *)

Definition maybe_add_referer (headers : Headers) (proxy_referer auth_header : option string) : Headers :=
  match proxy_referer with
  | None => headers
  | Some referer_value =>
      if existsb (fun kv => eq_ignore_ascii_case kv.1 "referer") headers then headers else
      let signed :=
        match auth_header with
        | Some auth =>
            if is_sigv4_algorithm auth then
              match find_str "SignedHeaders=" auth with
              | Some pos =>
                  let after_param := string_drop (pos + 14) auth in
                  existsb (fun h => bool_decide (h = "referer")) (split_char ";" (signed_headers_value after_param))
              | None => false
              end
            else false
        | None => false
        end in
      if signed then headers else header_insert headers "Referer" referer_value
  end.

(** The call sites' [auth_header]. *)
Definition auth_header_of (headers : Headers) : option string :=
  match header_get headers "authorization" with
  | Some v => Some v
  | None => header_get headers "Authorization"
  end.

(** ** Trimming *)

Lemma trim_start_head a t : is_whitespace a = false -> trim_start (String a t) = String a t.
Proof. intros Ha. cbn. by rewrite Ha. Qed.

(** Nothing is trimmed off a text that starts and ends with visible characters. *)
Lemma trim_ends a t u b :
  is_whitespace a = false -> is_whitespace b = false ->
  String a t = u +:+ String b "" -> trim (String a t) = String a t.
Proof.
  intros Ha Hb E. unfold trim. rewrite trim_start_head by done. unfold trim_end.
  rewrite E, string_rev_distr. change (string_rev (String b "")) with (String b "").
  change (String b "" +:+ string_rev u) with (String b (string_rev u)).
  rewrite trim_start_head by done. rewrite <- (string_rev_involutive u) at 2.
  by rewrite <- string_rev_cons.
Qed.

Lemma trim_space s : trim (String " " s) = trim s.
Proof. done. Qed.

(** ** [Content-Range] reads back *)

Lemma u64_string_last n : 0 <= n -> exists u b, u64_to_string n = u +:+ String b "" /\ is_whitespace b = false.
Proof.
  intros Hn. pose proof (u64_to_string_nonempty n Hn) as Hne. pose proof (u64_to_string_plain n Hn) as Hp.
  rewrite <- (string_rev_involutive (u64_to_string n)) in *.
  destruct (string_rev (u64_to_string n)) as [| b u]; [done |].
  exists (string_rev u), b. rewrite string_rev_cons in *. split; [done |].
  rewrite all_chars_app in Hp. apply andb_prop in Hp as [_ Hp]. apply plain_no_space in Hp.
  cbn in Hp. rewrite andb_true_r in Hp. by apply negb_true_iff in Hp.
Qed.

Lemma parse_content_range_build r total :
  0 <= start r <= end_ r -> end_ r < total -> is_u64 total ->
  parse_content_range (build_content_range_header r total) = Some (start r, end_ r, total).
Proof.
  unfold is_u64. intros Hr He Ht. unfold parse_content_range, build_content_range_header.
  destruct (u64_string_last total) as (u & b & Hu & Hb); [lia |].
  assert (forall n c, 0 <= n -> In c ["-"%char; "/"%char] ->
            all_chars (fun a => negb (ascii_eqb a c)) (u64_to_string n) = true) as Hsep.
  { intros n c Hn Hc. apply plain_no_sep; [| by apply u64_to_string_plain].
    by destruct Hc as [<- | [<- | []]]. }
  set (range_part := u64_to_string (start r) +:+ "-" +:+ u64_to_string (end_ r)).
  replace (u64_to_string (start r) +:+ "-" +:+ u64_to_string (end_ r) +:+ "/" +:+ u64_to_string total)
    with (range_part +:+ "/" +:+ u64_to_string total) by (unfold range_part; by rewrite <- !string_app_assoc).
  assert (trim ("bytes " +:+ range_part +:+ "/" +:+ u64_to_string total) =
          "bytes " +:+ range_part +:+ "/" +:+ u64_to_string total) as ->.
  { apply (trim_ends "b" ("ytes " +:+ range_part +:+ "/" +:+ u64_to_string total)
             ("bytes " +:+ range_part +:+ "/" +:+ u) b); [done | done |].
    rewrite Hu, <- !string_app_assoc. done. }
  rewrite strip_prefix_app. cbn [mbind option_bind].
  assert (split_once "/" (range_part +:+ "/" +:+ u64_to_string total) = Some (range_part, u64_to_string total)) as ->.
  { apply split_once_app. unfold range_part. rewrite !all_chars_app, !(Hsep _ "/"%char) by (lia || (cbn; auto)). done. }
  cbn [mbind option_bind]. rewrite bool_decide_false.
  2: { intros E. pose proof (parse_u64_to_string total ltac:(unfold is_u64; lia)) as Hp. by rewrite E in Hp. }
  rewrite parse_u64_to_string by (unfold is_u64; lia). cbn [mbind option_bind].
  assert (split_once "-" range_part = Some (u64_to_string (start r), u64_to_string (end_ r))) as ->
    by (apply split_once_app; apply Hsep; [lia | cbn; auto]).
  cbn [mbind option_bind]. rewrite !parse_u64_to_string by (unfold is_u64; lia). cbn [mbind option_bind].
  rewrite (proj2 (Z.ltb_ge (end_ r) (start r))), (proj2 (Z.leb_gt total (end_ r))) by lia. done.
Qed.

Lemma parse_content_range_Some h s e t :
  parse_content_range h = Some (s, e, t) -> 0 <= s <= e /\ e < t /\ is_u64 t.
Proof.
  unfold parse_content_range. intros H.
  destruct (strip_prefix "bytes " (trim h)) as [rest |]; [| done]. cbn in H.
  destruct (split_once "/" rest) as [[rp ts] |]; [| done]. cbn in H.
  case_bool_decide; [done |]. destruct (parse_u64 ts) as [total |] eqn:Et; [| done]. cbn in H.
  destruct (split_once "-" rp) as [[ss es] |]; [| done]. cbn in H.
  destruct (parse_u64 ss) as [s' |] eqn:Es; [| done]. destruct (parse_u64 es) as [e' |] eqn:Ee; [| done]. cbn in H.
  destruct (Z.ltb_spec e' s'), (Z.leb_spec total e'); simplify_eq/=.
  apply parse_u64_range in Et, Es. unfold is_u64 in *. lia.
Qed.

(** ** Lists of entity tags *)

(** A tag as RFC 7232 writes it: weak or strong, the opaque part between quotes. *)
Definition tag_text (t : bool * string) : string :=
  (if t.1 then "W/" else "") +:+ quote_str +:+ t.2 +:+ quote_str.

Fixpoint tags_text (ts : list (bool * string)) : string :=
  match ts with
  | [] => ""
  | [t] => tag_text t
  | t :: ts' => tag_text t +:+ ", " +:+ tags_text ts'
  end.

Definition tag_entry (t : bool * string) : ETagEntry := if t.1 then Weak t.2 else Strong t.2.

Definition quote_free (s : string) : bool := all_chars (fun a => negb (ascii_eqb a quote)) s.

Lemma scan_opaque o : forall rest cur,
  quote_free o = true ->
  etag_scan (o +:+ String quote rest) cur true = etag_scan rest (cur +:+ o +:+ quote_str) false.
Proof.
  unfold quote_free. induction o as [| a o IH]; intros rest cur Ho; cbn in Ho.
  - done.
  - apply andb_prop in Ho as [Ha Ho]. apply negb_true_iff in Ha.
    change (String a o +:+ String quote rest) with (String a (o +:+ String quote rest)). cbn [etag_scan].
    rewrite Ha, andb_false_r, IH by done. f_equal. by rewrite <- string_app_assoc.
Qed.

Lemma scan_tag t rest cur :
  quote_free t.2 = true -> etag_scan (tag_text t +:+ rest) cur false = etag_scan rest (cur +:+ tag_text t) false.
Proof.
  intros Ht. destruct t as [w o]. unfold tag_text. cbn [fst snd] in *.
  assert (forall cur', etag_scan ((quote_str +:+ o +:+ quote_str) +:+ rest) cur' false =
            etag_scan rest (cur' +:+ quote_str +:+ o +:+ quote_str) false) as Hq.
  { intros cur'. replace ((quote_str +:+ o +:+ quote_str) +:+ rest) with (String quote (o +:+ String quote rest))
      by (unfold quote_str; by rewrite <- !string_app_assoc).
    cbn [etag_scan]. rewrite ascii_eqb_refl. cbn [negb]. rewrite scan_opaque by done. by rewrite <- string_app_assoc. }
  set (Q := quote_str +:+ o +:+ quote_str) in *. destruct w; [| exact (Hq cur)].
  change (("W/" +:+ Q) +:+ rest) with (String "W" (String "/" (Q +:+ rest))).
  change (etag_scan (String "W" (String "/" (Q +:+ rest))) cur false)
    with (etag_scan (Q +:+ rest) ((cur +:+ "W") +:+ "/") false).
  rewrite Hq, <- !string_app_assoc. done.
Qed.

Lemma tag_text_trim t : trim (tag_text t) = tag_text t.
Proof.
  destruct t as [[] o]; unfold tag_text; cbn [fst snd].
  - apply (trim_ends "W" ("/" +:+ quote_str +:+ o +:+ quote_str) ("W/" +:+ quote_str +:+ o) quote); [done | done |].
    by rewrite <- !string_app_assoc.
  - apply (trim_ends quote (o +:+ quote_str) (quote_str +:+ o) quote); [done | done |].
    by rewrite <- !string_app_assoc.
Qed.

Lemma quoted_ok o : is_quoted (quote_str +:+ o +:+ quote_str) = true /\ inner (quote_str +:+ o +:+ quote_str) = o.
Proof.
  unfold is_quoted, inner. split.
  - rewrite !andb_true_iff. split_and!.
    + apply Nat.leb_le. rewrite !string_length_app. cbn. lia.
    + apply starts_with_spec. eauto.
    + apply ends_with_spec. exists (quote_str +:+ o). by rewrite string_app_assoc.
  - rewrite !string_length_app. cbn [String.length quote_str].
    replace (1 + (String.length o + 1) - 2)%nat with (String.length o) by lia.
    change (string_drop 1 (quote_str +:+ o +:+ quote_str)) with (o +:+ quote_str). apply string_take_app.
Qed.

Lemma classify_tag t : classify_etag_entry (tag_text t) = tag_entry t.
Proof.
  destruct t as [w o]. unfold classify_etag_entry, tag_text, tag_entry. cbn [fst snd].
  destruct (quoted_ok o) as [Hq Hi]. destruct w.
  - change (is_empty_str ("W/" +:+ _)) with false. rewrite strip_prefix_app. cbn iota. by rewrite Hq, Hi.
  - change ("" +:+ ?x) with x. change (is_empty_str (quote_str +:+ _)) with false.
    change (strip_prefix "W/" (quote_str +:+ _)) with (@None string). cbn iota. by rewrite Hq, Hi.
Qed.

Lemma tag_text_nonempty t : is_empty_str (tag_text t) = false.
Proof. destruct t as [[] o]; done. Qed.

Lemma push_tag t : push_entry (tag_text t) = [tag_entry t] /\ push_entry (String " " (tag_text t)) = [tag_entry t].
Proof. unfold push_entry. by rewrite trim_space, tag_text_trim, tag_text_nonempty, classify_tag. Qed.

(** The parser reads back a list of tags, whatever their opaque parts hold, commas
    included. *)
Lemma parse_etag_list_tags ts :
  Forall (fun t => quote_free t.2 = true) ts -> parse_etag_list (tags_text ts) = map tag_entry ts.
Proof.
  intros Hts. unfold parse_etag_list.
  enough (forall sp, sp = "" \/ sp = " " -> etag_scan (tags_text ts) sp false = map tag_entry ts) by auto.
  induction Hts as [| t ts Ht Hts IH]; intros sp Hsp; [by destruct Hsp as [-> | ->] |].
  assert (push_entry (sp +:+ tag_text t) = [tag_entry t]) as Hp by (destruct Hsp as [-> | ->]; apply push_tag).
  destruct ts as [| t' ts].
  - change (tags_text [t]) with (tag_text t). rewrite <- (string_app_nil_r (tag_text t)), scan_tag by done. done.
  - change (tags_text (t :: t' :: ts)) with (tag_text t +:+ String "," (String " " (tags_text (t' :: ts)))).
    rewrite scan_tag by done. cbn [etag_scan]. change (ascii_eqb "," quote) with false.
    rewrite ascii_eqb_refl. cbn [andb negb]. rewrite Hp. cbn [app map]. f_equal. apply IH. by right.
Qed.

Lemma trim_start_last u a :
  is_whitespace a = false -> exists u', trim_start (u +:+ String a "") = u' +:+ String a "".
Proof.
  intros Ha. induction u as [| b u [u' IH]]; [exists ""; cbn; by rewrite Ha |].
  change (String b u +:+ String a "") with (String b (u +:+ String a "")). cbn [trim_start].
  destruct (is_whitespace b); [eauto | by exists (String b u)].
Qed.

Lemma trim_head a t : is_whitespace a = false -> exists t', trim (String a t) = String a t'.
Proof.
  intros Ha. unfold trim. rewrite trim_start_head by done. unfold trim_end. rewrite string_rev_cons.
  destruct (trim_start_last (string_rev t) a Ha) as [u ->]. rewrite string_rev_distr. by exists (string_rev u).
Qed.

Lemma tags_text_not_star ts : ts <> [] -> trim (tags_text ts) <> "*".
Proof.
  intros Hne E.
  assert (exists a r, tags_text ts = String a r /\ is_whitespace a = false /\ a <> "*"%char) as (a & r & Ht & Ha & Hn).
  { destruct ts as [| t ts]; [done |].
    assert (exists r, tags_text (t :: ts) = tag_text t +:+ r) as [r ->]
      by (destruct ts; [exists ""; by rewrite string_app_nil_r | eauto]).
    destruct t as [[] o]; unfold tag_text; cbn [fst snd].
    - by exists "W"%char, (("/" +:+ quote_str +:+ o +:+ quote_str) +:+ r).
    - by exists quote, ((o +:+ quote_str) +:+ r). }
  destruct (trim_head a r Ha) as [t' Hh]. congruence.
Qed.

Lemma strip_quoted o : strip_etag_quotes (trim (quote_str +:+ o +:+ quote_str)) = o.
Proof.
  change (quote_str +:+ o +:+ quote_str) with (tag_text (false, o)). rewrite tag_text_trim.
  unfold strip_etag_quotes, tag_text. cbn [fst snd]. change ("" +:+ ?x) with x.
  destruct (quoted_ok o) as [Hq Hi]. by rewrite Hq, Hi.
Qed.

Lemma existsb_elem {A} (f : A -> bool) l : existsb f l = true <-> exists x, x ∈ l /\ f x = true.
Proof.
  rewrite existsb_exists. split; intros (x & Hx & Hf); exists x; (split; [by apply list_elem_of_In | done]).
Qed.

Lemma strong_matches_tag t c :
  strong_matches (tag_entry t) (quote_str +:+ c +:+ quote_str) = true <-> t = (false, c).
Proof.
  destruct t as [[] o]; unfold tag_entry; cbn [fst snd strong_matches]; [split; [done | congruence] |].
  rewrite strip_quoted. change (quote_str +:+ c +:+ quote_str) with (tag_text (false, c)). rewrite tag_text_trim.
  change (starts_with "W/" (tag_text (false, c))) with false. cbn iota.
  rewrite bool_decide_eq_true. split; congruence.
Qed.

Lemma weak_matches_tag t c :
  weak_matches (tag_entry t) (quote_str +:+ c +:+ quote_str) = true <-> t.2 = c.
Proof.
  destruct t as [w o]. unfold tag_entry. cbn [fst snd].
  assert (strip_etag_quotes (strip_weak (trim (quote_str +:+ c +:+ quote_str))) = c) as Hc.
  { change (quote_str +:+ c +:+ quote_str) with (tag_text (false, c)). rewrite tag_text_trim.
    change (strip_weak (tag_text (false, c))) with (tag_text (false, c)). rewrite <- (tag_text_trim (false, c)).
    apply strip_quoted. }
  destruct w; cbn [weak_matches]; rewrite Hc; apply bool_decide_eq_true.
Qed.

(** Only a single strong tag is a quoted text without a comma. *)
Lemma tags_text_single ts :
  ts <> [] -> contains_char "," (tags_text ts) = false -> is_quoted (tags_text ts) = true ->
  exists o, ts = [(false, o)].
Proof.
  intros Hne Hc Hq. destruct ts as [| t [| t' ts]]; [done | |].
  - destruct t as [[] o]; [| eauto]. exfalso. unfold is_quoted in Hq.
    rewrite !andb_true_iff in Hq. destruct Hq as [[_ Hq] _]. by vm_compute in Hq.
  - exfalso. unfold contains_char in Hc. apply negb_false_iff in Hc.
    change (tags_text (t :: t' :: ts)) with (tag_text t +:+ ", " +:+ tags_text (t' :: ts)) in Hc.
    rewrite !all_chars_app in Hc. cbn in Hc. by rewrite andb_false_r in Hc.
Qed.

Lemma tag_text_comma o : contains_char "," (tag_text (false, o)) = contains_char "," o.
Proof.
  unfold contains_char, tag_text. cbn [fst snd]. change ("" +:+ ?x) with x. rewrite !all_chars_app.
  change (all_chars (fun a => negb (ascii_eqb a ",")) quote_str) with true. by rewrite andb_true_r.
Qed.

Lemma if_range_tags ts c :
  ts <> [] -> Forall (fun t => quote_free t.2 = true) ts -> trim (tags_text ts) = tags_text ts ->
  if_range_strong_match (tags_text ts) (quote_str +:+ c +:+ quote_str) = true <->
  ts = [(false, c)] /\ contains_char "," c = false.
Proof.
  intros Hne Hts Htrim. unfold if_range_strong_match. rewrite Htrim.
  rewrite (bool_decide_false (tags_text ts = "*")) by (intros E; apply (tags_text_not_star ts Hne); by rewrite Htrim).
  rewrite orb_false_r. split.
  - destruct (is_empty_str (tags_text ts)); [done |].
    destruct (contains_char "," (tags_text ts)) eqn:Hc; [done |].
    destruct (is_quoted (tags_text ts)) eqn:Hq; [| done]. cbn [orb negb].
    rewrite parse_etag_list_tags by done.
    destruct (tags_text_single ts Hne Hc Hq) as [o ->]. cbn [map existsb]. rewrite orb_false_r.
    rewrite strong_matches_tag. intros [= ->]. split; [done |]. by rewrite <- tag_text_comma.
  - intros [-> Hc]. change (tags_text [(false, c)]) with (tag_text (false, c)).
    rewrite tag_text_comma, Hc, tag_text_nonempty. cbn [orb].
    assert (is_quoted (tag_text (false, c)) = true) as -> by apply (quoted_ok c). cbn [negb].
    change (parse_etag_list (tag_text (false, c))) with (parse_etag_list (tags_text [(false, c)])).
    rewrite parse_etag_list_tags by done. cbn [map existsb]. rewrite orb_false_r. by apply strong_matches_tag.
Qed.

Lemma tags_text_trim ts : trim (tags_text ts) = tags_text ts.
Proof.
  assert (forall t ts, exists a r, tags_text (t :: ts) = String a r /\ is_whitespace a = false) as Hfirst.
  { intros t ts'. assert (exists r, tags_text (t :: ts') = tag_text t +:+ r) as [r ->]
      by (destruct ts'; [exists ""; by rewrite string_app_nil_r | eauto]).
    destruct t as [[] o]; [by eexists "W"%char, _ | by eexists quote, _]. }
  assert (forall ts t, exists u, tags_text (t :: ts) = u +:+ String quote "") as Hlast.
  { clear. intros ts. induction ts as [| t' ts IH]; intros [w o].
    - exists ((if w then "W/" else "") +:+ quote_str +:+ o). change (tags_text [(w, o)]) with (tag_text (w, o)).
      unfold tag_text. cbn [fst snd]. by rewrite <- !string_app_assoc.
    - destruct (IH t') as [u Hu]. exists (tag_text (w, o) +:+ ", " +:+ u).
      change (tags_text ((w, o) :: t' :: ts)) with (tag_text (w, o) +:+ ", " +:+ tags_text (t' :: ts)).
      by rewrite Hu, <- !string_app_assoc. }
  destruct ts as [| t ts]; [done |].
  destruct (Hfirst t ts) as (a & r & Ha & Hw), (Hlast ts t) as [u Hu]. rewrite Ha.
  apply (trim_ends a r u quote); [done | done |]. congruence.
Qed.

(** [If-Match], [If-None-Match] and [If-Range] compare tags as RFC 7232 and 7233 say.
    For a header that lists any non-empty sequence of quoted tags (whose opaque parts may
    hold commas and spaces, but no quote) and a stored tag [c], the strong comparison
    holds exactly when the strong tag [c] is listed, the weak one exactly when [c] is
    listed, weak or strong; and as [If-Range], which takes one validator, exactly when
    it is the strong tag [c] alone, without a comma. *)
Theorem etag_lists_exact ts c :
  ts <> [] -> Forall (fun t => quote_free t.2 = true) ts ->
  let cached := quote_str +:+ c +:+ quote_str in
  (etag_list_strong_match (tags_text ts) cached = true <-> (false, c) ∈ ts) /\
  (etag_list_weak_match (tags_text ts) cached = true <-> exists w, (w, c) ∈ ts) /\
  (if_range_strong_match (tags_text ts) cached = true <-> ts = [(false, c)] /\ contains_char "," c = false).
Proof.
  intros Hne Hts cached. unfold etag_list_strong_match, etag_list_weak_match, cached.
  rewrite bool_decide_false by by apply tags_text_not_star. rewrite parse_etag_list_tags by done.
  split_and!; [| | by apply if_range_tags, tags_text_trim].
  - rewrite existsb_elem. split.
    + intros (e & He & Hm). apply list_elem_of_fmap in He as (t & -> & Ht).
      by apply strong_matches_tag in Hm as ->.
    + intros Ht. exists (tag_entry (false, c)). split; [by apply list_elem_of_fmap_2 | by apply strong_matches_tag].
  - rewrite existsb_elem. split.
    + intros (e & He & Hm). apply list_elem_of_fmap in He as ([w o] & -> & Ht).
      apply weak_matches_tag in Hm. cbn in Hm. subst. eauto.
    + intros [w Ht]. exists (tag_entry (w, c)). split; [by apply list_elem_of_fmap_2 | by apply weak_matches_tag].
Qed.

Lemma etag_lists_exact_witness :
  let listed := tags_text [(true, "a"); (false, "b, c")] in
  etag_list_strong_match listed (quote_str +:+ "b, c" +:+ quote_str) = true /\
  etag_list_strong_match listed (quote_str +:+ "a" +:+ quote_str) <> true.
Proof.
  assert (Forall (fun t => quote_free t.2 = true) [(true, "a"); (false, "b, c")]) as Hq
    by (repeat apply Forall_cons_2; (reflexivity || constructor)).
  destruct (etag_lists_exact [(true, "a"); (false, "b, c")] "b, c" ltac:(done) Hq) as [[_ Hbc] _].
  destruct (etag_lists_exact [(true, "a"); (false, "b, c")] "a" ltac:(done) Hq) as [[Ha _] _].
  split; [apply Hbc; right; left |]. intros E%Ha. apply elem_of_cons in E as [E | E]; [discriminate E |].
  apply list_elem_of_singleton in E. discriminate E.
Defined.

(** ** The [Referer] is never a signed header *)

(** The header is added only when the client sent none and its signature does not cover
    it; nothing else changes. *)
Lemma referer_respects_signature headers referer :
  let headers' := maybe_add_referer headers (Some referer) (auth_header_of headers) in
  (headers' = headers /\
   (existsb (fun kv => eq_ignore_ascii_case kv.1 "referer") headers = true \/ is_header_signed headers "referer" = true)) \/
  (headers' = header_insert headers "Referer" referer /\ is_header_signed headers "referer" = false /\
   header_find headers "referer" = None).
Proof.
  cbv zeta. unfold maybe_add_referer, is_header_signed, auth_header_of.
  destruct (existsb (fun kv => eq_ignore_ascii_case kv.1 "referer") headers) eqn:He; [by left; auto |].
  assert (header_find headers "referer" = None) as Hf.
  { unfold header_find. destruct (List.find _ headers) as [kv |] eqn:Ek; [| done].
    apply List.find_some in Ek as [Hin Hk]. exfalso.
    assert (existsb (fun kv => eq_ignore_ascii_case kv.1 "referer") headers = true) as Ht
      by (apply existsb_exists; eauto). congruence. }
  set (auth := match header_get headers "authorization" with Some v => Some v | None => _ end).
  destruct auth as [a |]; [| by right]. destruct (is_sigv4_algorithm a); [| by right]. cbn [negb].
  destruct (find_str "SignedHeaders=" a) as [pos |]; [| by right].
  destruct (existsb _ (split_char ";" _)) eqn:Es; [left | right]; auto.
Qed.

End Http.
