(* ===== verification/CacheKeys.v ===== *)
(** * Cache keys of requests ([cache.rs], [http_proxy.rs])

    The key of an object is its bucket, or the access point that leads to it, and its
    path; the bucket is read off the [Host] header of virtual-hosted requests. *)

From S2P Require Import Prelude CacheTypes DiskPaths RustStr.

#[local] Open Scope Z_scope.
#[local] Arguments String.append : simpl nomatch.

(** ** Hosts *)

Definition extract_access_point_prefix (host : string) : option string :=
  if ends_with ".accesspoint.s3-global.amazonaws.com" host then
    prefix ← strip_suffix ".accesspoint.s3-global.amazonaws.com" host;
    if is_empty_str prefix then None
    else if ends_with ".mrap" prefix then Some prefix
    else Some (prefix +:+ ".mrap")
  else if contains ".s3-accesspoint." host && ends_with ".amazonaws.com" host then
    let prefix := match find_str ".s3-accesspoint." host with
                  | Some n => string_take n host
                  | None => host
                  end in
    if is_empty_str prefix then None
    else if ends_with "-s3alias" prefix then Some prefix
    else Some (prefix +:+ "-s3alias")
  else None.

Definition nonempty (s : string) : option string := if is_empty_str s then None else Some s.

(** The regional forms: [None] when the host is not one of them, [Some] of the answer
    otherwise. *)
Definition regional_bucket (without_tld : string) : option (option string) :=
  match rsplit_once "." without_tld with
  | Some (before_region, region) =>
      if is_empty_str region || contains_char "." region then None else
      match strip_suffix ".s3.dualstack" before_region with
      | Some bucket => Some (nonempty bucket)
      | None =>
          match strip_suffix ".s3" before_region with
          | Some bucket => Some (nonempty bucket)
          | None => None
          end
      end
  | None => None
  end.

Definition extract_virtual_hosted_bucket (host : string) : option string :=
  match strip_suffix ".s3-accelerate.dualstack.amazonaws.com" host with
  | Some bucket => if contains_char "." bucket then None else nonempty bucket
  | None =>
      match strip_suffix ".s3-accelerate.amazonaws.com" host with
      | Some bucket => if contains_char "." bucket then None else nonempty bucket
      | None =>
          match strip_suffix ".amazonaws.com" host with
          | Some without_tld =>
              match regional_bucket without_tld with
              | Some answer => answer
              | None =>
                  match strip_suffix ".s3" without_tld with
                  | Some bucket => nonempty bucket
                  | None => None
                  end
              end
          | None => None
          end
      end
  end.

(** ** Keys *)

Definition generate_cache_key (path : string) (host : option string) : string :=
  let normalized_path := normalize_cache_key path in
  match host with
  | Some h =>
      match extract_access_point_prefix h with
      | Some prefix => prefix +:+ "/" +:+ normalized_path
      | None =>
          match extract_virtual_hosted_bucket h with
          | Some bucket => bucket +:+ "/" +:+ normalized_path
          | None => normalized_path
          end
      end
  | None => normalized_path
  end.

Definition generate_part_cache_key (path : string) (part_number : Z) (host : option string) : string :=
  generate_cache_key path host +:+ ":part:" +:+ u64_to_string part_number.

Definition generate_range_cache_key (path : string) (start_ end_ : Z) (host : option string) : string :=
  generate_cache_key path host +:+ ":range:" +:+ u64_to_string start_ +:+ "-" +:+ u64_to_string end_.

Definition generate_cache_key_with_params (path : string) (part_number : option Z) (range : option (Z * Z))
    (host : option string) : string :=
  match part_number, range with
  | Some part, Some (s, e) => generate_range_cache_key (path +:+ ":part:" +:+ u64_to_string part) s e host
  | Some part, None => generate_part_cache_key path part host
  | None, Some (s, e) => generate_range_cache_key path s e host
  | None, None => generate_cache_key path host
  end.

(** ** Path-style aliases *)

Record PathStyleAlias := mkAlias {
  upstream_host : string;
  forwarded_path : string;
  cache_key_prefix : string;
}.

Definition slash_or (remaining : string) : string := if is_empty_str remaining then "/" else remaining.

Definition detect_path_style_alias (host path : string) : option PathStyleAlias :=
  trimmed ← RustStr.strip_prefix "/" path;
  let '(first_segment, remaining) :=
    match find_str "/" trimmed with
    | Some pos => (string_take pos trimmed, string_drop pos trimmed)
    | None => (trimmed, "")
    end in
  if is_empty_str first_segment then None
  else if starts_with "s3-accesspoint." host && ends_with ".amazonaws.com" host then
    if ends_with "-s3alias" first_segment then
      rest ← RustStr.strip_prefix "s3-accesspoint." host;
      region ← strip_suffix ".amazonaws.com" rest;
      if is_empty_str region then None
      else Some (mkAlias (first_segment +:+ ".s3-accesspoint." +:+ region +:+ ".amazonaws.com")
                   (slash_or remaining) first_segment)
    else None
  else if bool_decide (host = "accesspoint.s3-global.amazonaws.com") then
    if ends_with ".mrap" first_segment then
      alias_without_mrap ← strip_suffix ".mrap" first_segment;
      if is_empty_str alias_without_mrap then None
      else Some (mkAlias (alias_without_mrap +:+ ".accesspoint.s3-global.amazonaws.com")
                   (slash_or remaining) first_segment)
    else None
  else None.

(** ** Labels of a host *)

Abbreviation labels := (split_char ".").






(** ** All styles of a bucket give one key *)






Lemma labels_region r rest :
  all_chars (fun a => negb (ascii_eqb a ".")) r = true -> labels (r +:+ String "." rest) = r :: labels rest.
Proof. apply split_char_app. Qed.













(** The legacy host of the bucket [photos.s3] is read as the regional host of the bucket
    [photos] in a region [s3]: two buckets share the keys of one. *)
Lemma legacy_bucket_collision :
  generate_cache_key "/k" (Some "photos.s3.s3.amazonaws.com") = generate_cache_key "/k" (Some "photos.s3.us-east-1.amazonaws.com").
Proof. reflexivity. Qed.

(** The region of an access point is not part of the key, though access point names are
    unique in an account and a region only. *)
Lemma access_point_region_collision :
  generate_cache_key "/k" (Some "ap-123456789012.s3-accesspoint.us-east-1.amazonaws.com") =
  generate_cache_key "/k" (Some "ap-123456789012.s3-accesspoint.eu-west-1.amazonaws.com").
Proof. reflexivity. Qed.

(** A path-style request to an access point or multi-region alias is sent to the host
    of that alias, whose key prefix is the alias itself. *)
Example alias_keys :
  match detect_path_style_alias "s3-accesspoint.eu-west-1.amazonaws.com" "/ap-abc-s3alias/dir/f" with
  | Some al => generate_cache_key (forwarded_path al) (Some (upstream_host al)) = cache_key_prefix al +:+ "/dir/f" /\
               cache_key_prefix al = "ap-abc-s3alias"
  | None => False
  end /\
  match detect_path_style_alias "accesspoint.s3-global.amazonaws.com" "/m1.mrap" with
  | Some al => generate_cache_key (forwarded_path al) (Some (upstream_host al)) = cache_key_prefix al +:+ "/" /\
               cache_key_prefix al = "m1.mrap"
  | None => False
  end.
Proof. vm_compute. repeat split. Qed.
