(* ===== verification/Dispatch.v ===== *)
(** * From a request to the cache pipeline ([http_proxy.rs], [presigned_url.rs])

    What [handle_get_head_request] decides before any cache lookup: bypasses, refusals,
    and, for the requests that enter the pipeline, whether the cache may answer.  The
    cached metadata's ETag, the resolved settings and the clock are arguments; the RFC
    3339 parser of chrono is a parameter. *)

From S2P Require Import Prelude CacheTypes SignedRequest DiskStore Globs BucketSettings HttpHeaders RustStr.

#[local] Open Scope Z_scope.
#[local] Arguments String.append : simpl nomatch.

Import Http.

(** ** Integers of the query and of dates *)

Definition parse_bounded (max : Z) (s : string) : option Z :=
  n ← parse_u64 s; if n <=? max then Some n else None.

Definition parse_u16 : string -> option Z := parse_bounded (2 ^ 16 - 1).

Definition parse_u32 : string -> option Z := parse_bounded (2 ^ 32 - 1).

(** [i64::from_str], and [i32]'s with its bound. *)
Definition parse_signed (bound : Z) (s : string) : option Z :=
  match s with
  | String a r =>
      if ascii_eqb a "-" then
        if starts_with "+" r then None else n ← parse_u64 r; if n <=? bound then Some (- n) else None
      else n ← parse_u64 s; if n <? bound then Some n else None
  | EmptyString => None
  end.

Definition parse_i64 : string -> option Z := parse_signed (2 ^ 63).

Definition parse_i32 : string -> option Z := parse_signed (2 ^ 31).

(** ** Query parameters *)

(** [collect] into a map: a later pair replaces an earlier one. *)
Definition parse_query_params (query : option string) : Headers :=
  match query with
  | None => []
  | Some q =>
      fold_left (fun m pair =>
        let '(key, value) := match split_once "=" pair with Some kv => kv | None => (pair, "") end in
        header_insert m key value) (split_char "&" q) []
  end.

Definition is_get_object_part (method : Method) (params : Headers) : option Z :=
  if negb (bool_decide (method = GET)) then None
  else if has_header params "uploadId" then None
  else part_number_str ← header_get params "partNumber";
       part_number ← parse_u32 part_number_str;
       if 0 <? part_number then Some part_number else None.

Definition is_part_scoped_request (params : Headers) : bool :=
  negb (has_header params "uploadId") &&
  match header_get params "partNumber" ≫= parse_u32 with
  | Some n => 0 <? n
  | None => false
  end.

Definition has_sse_c_headers (headers : Headers) : bool :=
  existsb (fun kv =>
    let k := to_lowercase kv.1 in
    bool_decide (k = "x-amz-server-side-encryption-customer-algorithm") ||
    bool_decide (k = "x-amz-server-side-encryption-customer-key") ||
    bool_decide (k = "x-amz-server-side-encryption-customer-key-md5")) headers.

(** The operation a GET bypasses the cache for. *)
Definition should_bypass_cache (path : string) (params : Headers) : option string :=
  if bool_decide (path = "/") then Some "ListBuckets"
  else if has_header params "list-type" || has_header params "delimiter" then Some "ListObjects"
  else if has_header params "versions" then Some "ListObjectVersions"
  else if has_header params "uploads" then Some "ListMultipartUploads"
  else if has_header params "acl" then Some "GetObjectAcl"
  else if has_header params "attributes" then Some "GetObjectAttributes"
  else if has_header params "legal-hold" then Some "GetObjectLegalHold"
  else if has_header params "object-lock" then Some "GetObjectLockConfiguration"
  else if has_header params "retention" then Some "GetObjectRetention"
  else if has_header params "tagging" then Some "GetObjectTagging"
  else if has_header params "torrent" then Some "GetObjectTorrent"
  else None.

(** ** The [Host] header *)

Inductive HostError := EmptyHost | MissingBracket | EmptyBracketed | AfterBracket | InvalidPort | StrayBracket | UnbracketedIpv6.

Definition parse_host_header (value : string) : outcome HostError string :=
  let value := trim value in
  if is_empty_str value then Err EmptyHost else
  match strip_prefix "[" value with
  | Some rest =>
      match find_str "]" rest with
      | None => Err MissingBracket
      | Some n =>
          let host := string_take n rest in
          if is_empty_str host then Err EmptyBracketed else
          let after := string_drop (S n) rest in
          if negb (is_empty_str after) && negb (starts_with ":" after) then Err AfterBracket else
          match strip_prefix ":" after with
          | Some port_str => if bool_decide (parse_u16 port_str = None) then Err InvalidPort else Ok host
          | None => Ok host
          end
      end
  | None =>
      if contains_char "]" value then Err StrayBracket else
      match rsplit_once ":" value with
      | Some (host, port_str) =>
          if contains_char ":" host then Err UnbracketedIpv6
          else if bool_decide (parse_u16 port_str = None) then Err InvalidPort
          else Ok host
      | None => Ok value
      end
  end.

(** ** Presigned URLs *)

Definition MAX_PRESIGNED_EXPIRES_SECONDS : Z := 604800.

Definition SUPPORTED_ALGORITHM : string := "AWS4-HMAC-SHA256".

Inductive PresignedUrlError :=
  | UnsupportedAlgorithm (alg : string)
  | ExpiresExceedsCap (value max : Z)
  | ExpiresNotPositive (raw : string)
  | ExpiresInvalid (raw : string)
  | ExpiryOverflow (signed_at expires_seconds : Z)
  | InvalidDate (raw : string).

(** Times in nanoseconds since the epoch. *)
Record PresignedUrlInfo := mkPresigned {
  signed_at : Z;
  expires_in_seconds : Z;
  expires_at : Z;
  p_algorithm : option string;
  p_credential : option string;
}.

(** [DateTime::parse_from_rfc3339(..).timestamp()]. *)
Class Rfc3339 := parse_rfc3339 : string -> option Z.

(** [{:0w}] of an integer. *)
Fixpoint zeros (n : nat) : string := match n with O => "" | S n' => String "0" (zeros n') end.

Definition pad (w : nat) (n : Z) : string :=
  let digits := u64_to_string (Z.abs n) in
  let sign := if n <? 0 then "-" else "" in
  sign +:+ zeros (w - String.length sign - String.length digits) +:+ digits.

Section Presigned.
Context `{Rfc3339}.

(** [date_str[i..j]]: a panic off a character boundary. *)
Definition str_slice (s : string) (i j : nat) : outcome unit string :=
  if at_boundary (string_drop i s) && at_boundary (string_drop j s)
  then Ok (string_take (j - i) (string_drop i s)) else Panic.

(** [?] of [.ok()]: [None] ends the function. *)
Definition date_part {A} (parse : string -> option Z) (s : string) (i j : nat)
    (k : Z -> outcome unit (option A)) : outcome unit (option A) :=
  part ← str_slice s i j;
  match parse part with Some n => k n | None => Ok None end.

Definition parse_amz_date (date_str : string) : outcome unit (option Z) :=
  if negb (String.length date_str =? 16)%nat || negb (ends_with "Z" date_str) then Ok None else
  date_part parse_i32 date_str 0 4 (fun year =>
  date_part parse_u32 date_str 4 6 (fun month =>
  date_part parse_u32 date_str 6 8 (fun day =>
  date_part parse_u32 date_str 9 11 (fun hour =>
  date_part parse_u32 date_str 11 13 (fun minute =>
  date_part parse_u32 date_str 13 15 (fun second =>
    let rfc3339 := pad 4 year +:+ "-" +:+ pad 2 month +:+ "-" +:+ pad 2 day +:+ "T" +:+ pad 2 hour
                     +:+ ":" +:+ pad 2 minute +:+ ":" +:+ pad 2 second +:+ "Z" in
    match parse_rfc3339 rfc3339 with
    | Some timestamp => if timestamp <? 0 then Ok None else Ok (Some (timestamp * NANOS_PER_SEC))
    | None => Ok None
    end)))))).

Definition parse_presigned_url (params : Headers) : outcome PresignedUrlError (option PresignedUrlInfo) :=
  match header_get params "X-Amz-Algorithm" with
  | None => Ok None
  | Some alg =>
      if negb (bool_decide (alg = SUPPORTED_ALGORITHM)) then Err (UnsupportedAlgorithm alg) else
      match header_get params "X-Amz-Date" with
      | None => Ok None
      | Some amz_date =>
          match parse_amz_date amz_date with
          | Panic | Err _ => Panic
          | Ok None => Err (InvalidDate amz_date)
          | Ok (Some signed_at) =>
              match header_get params "X-Amz-Expires" with
              | None => Ok None
              | Some expires_str =>
                  match parse_i64 expires_str with
                  | None => Err (ExpiresInvalid expires_str)
                  | Some expires =>
                      if expires <=? 0 then Err (ExpiresNotPositive expires_str)
                      else if MAX_PRESIGNED_EXPIRES_SECONDS <? expires
                      then Err (ExpiresExceedsCap expires MAX_PRESIGNED_EXPIRES_SECONDS)
                      else match system_time_checked_add signed_at (expires * NANOS_PER_SEC) with
                           | None => Err (ExpiryOverflow signed_at expires)
                           | Some expires_at =>
                               Ok (Some (mkPresigned signed_at expires expires_at (Some alg)
                                           (header_get params "X-Amz-Credential")))
                           end
                  end
              end
          end
      end
  end.

Definition is_expired (now : Z) (info : PresignedUrlInfo) : bool := expires_at info <? now.

End Presigned.

(** ** The dispatch of GET and HEAD *)

Record Request := mkRequest {
  rq_method : Method;
  rq_path : string;
  rq_query : option string;
  rq_headers : Headers;
}.

Inductive Dispatched :=
  (** Sent to S3, the response not cached; the flag tells that a cached copy is removed first. *)
  | ForwardUncached (reason : string) (invalidate : bool) (headers : Headers)
  (** Sent to S3 without a lookup, the response cached under the key of the path. *)
  | ForwardAndCache (headers : Headers)
  | Reject (status : Z)
  (** The cache pipeline. *)
  | Pipeline (forward_to_s3 mode_b_if_match_serve : bool) (headers : Headers).

Section Dispatch.
Context `{Rfc3339}.
(** [cached_etag]: the ETag of the metadata [get_metadata_cached] finds. *)
Variable cache_bypass_headers_enabled : bool.
Variable resolved : Settings.ResolvedSettings.
Variable cached_etag : option string.
Variable now : Z.

(** A [Cache-Control] or [Pragma] that skips the lookup. *)
Definition dispatch_bypass (mode : CacheBypassMode) (rq : Request) : Dispatched :=
  let forwarded := header_remove (header_remove (rq_headers rq) "cache-control") "pragma" in
  let non_cacheable := bool_decide (is_Some (should_bypass_cache (rq_path rq) (parse_query_params (rq_query rq)))) in
  if bool_decide (mode = NoCache) && negb non_cacheable then ForwardAndCache forwarded
  else ForwardUncached "bypass" false forwarded.

(** The conditional headers: an early answer, or whether S3 must answer, whether the
    client's [If-Match] vouches for the cached copy, and the headers from here on. *)
Definition dispatch_conditional (rq : Request) : Dispatched + (bool * bool * Headers) :=
  let headers := rq_headers rq in
  let if_match := header_get headers "if-match" in
  let if_range := header_get headers "if-range" in
  let other_conditional := has_non_if_match_conditional headers in
  let pure_if_range := bool_decide (is_Some if_range) && negb (bool_decide (is_Some if_match))
                         && negb (has_temporal_or_negative_conditional headers) in
  let mode_b := Settings.evaluate_conditions_from_cache resolved in
  if bool_decide (is_Some if_match) || other_conditional then
    if mode_b && bool_decide (is_Some if_match) && negb other_conditional then
      if negb (Settings.read_cache_enabled resolved)
      then inl (ForwardUncached "read_cache_disabled" (bool_decide (is_Some cached_etag)) headers)
      else match cached_etag with
           | Some etag =>
               if negb (is_empty_str etag) && etag_list_strong_match (default "" if_match) etag
               then inr (false, true, headers)
               else inr (true, false, headers)
           | None => inr (true, false, headers)
           end
    else if mode_b && pure_if_range then
      let etag := if Settings.read_cache_enabled resolved then cached_etag else None in
      let forward := if_range_requires_forward true (default "" if_range) etag in
      let headers := if negb forward
                     then match etag with
                          | Some e => (pin_if_range_serve_to_cached_etag headers e).1
                          | None => headers
                          end
                     else headers in
      inr (forward, false, headers)
    else inr (true, false, headers)
  else inr (false, false, headers).

(** Operations that are never cached, old versions and keys with reads not cached; the
    rest is for the cache pipeline. *)
Definition dispatch_operation (rq : Request) (params : Headers) (forward serve : bool) (headers : Headers) : Dispatched :=
  let bypass := if bool_decide (rq_method rq = HEAD)
                then (if bool_decide (rq_path rq = "/") then Some "ListBuckets" else None)
                else should_bypass_cache (rq_path rq) params in
  match bypass with
  | Some op => ForwardUncached op false headers
  | None =>
      if has_header params "versionId" then ForwardUncached "GetObject (versioned)" false headers
      else if negb (Settings.read_cache_enabled resolved)
      then ForwardUncached "read_cache_disabled" (bool_decide (is_Some cached_etag)) headers
      else Pipeline forward serve headers
  end.

(** A presigned URL that is invalid or has expired is rejected before anything else. *)
Definition dispatch_presigned (params : Headers) : outcome unit (option Dispatched) :=
  match parse_presigned_url params with
  | Panic => Panic
  | Err _ => Ok (Some (Reject 400))
  | Ok (Some info) => Ok (if is_expired now info then Some (Reject 403) else None)
  | Ok None => Ok None
  end.

Definition dispatch (rq : Request) : outcome unit Dispatched :=
  let headers := rq_headers rq in
  if has_sse_c_headers headers then Ok (ForwardUncached "SSE-C" false headers)
  else if bool_decide (rq_method rq = HEAD) && is_part_scoped_request (parse_query_params (rq_query rq))
  then Ok (ForwardUncached "part-scoped-head" false headers)
  else
  let mode := parse_cache_bypass_headers headers cache_bypass_headers_enabled in
  if bool_decide (mode <> BypassNone) then Ok (dispatch_bypass mode rq) else
  match dispatch_conditional rq with
  | inl early => Ok early
  | inr (forward, serve, headers) =>
      let params := parse_query_params (rq_query rq) in
      rejected ← dispatch_presigned params;
      match rejected with
      | Some r => Ok r
      | None => Ok (dispatch_operation rq params forward serve headers)
      end
  end.

(** ** What reaches the cache *)

(** The cache may answer: there is no conditional header, or the one there is names the
    cached version by a strong comparison. *)
Definition condition_vouched (headers : Headers) : Prop :=
  (header_get headers "if-match" = None /\ has_non_if_match_conditional headers = false) \/
  (Settings.evaluate_conditions_from_cache resolved = true /\
   exists etag, cached_etag = Some etag /\ etag <> "" /\
     ((exists v, header_get headers "if-match" = Some v /\ has_non_if_match_conditional headers = false /\
        etag_list_strong_match v etag = true) \/
      (exists v, header_get headers "if-range" = Some v /\ header_get headers "if-match" = None /\
         has_temporal_or_negative_conditional headers = false /\ if_range_strong_match v etag = true))).

Lemma not_empty_str s : is_empty_str s = false -> s <> "".
Proof. by intros He ->. Qed.

Lemma conditional_vouched rq forward serve headers :
  dispatch_conditional rq = inr (forward, serve, headers) ->
  (forward = false -> condition_vouched (rq_headers rq)) /\
  (serve = true -> forward = false /\ is_Some (header_get (rq_headers rq) "if-match") /\ headers = rq_headers rq).
Proof.
  unfold dispatch_conditional, condition_vouched.
  destruct (header_get (rq_headers rq) "if-match") as [v |] eqn:Em; cbn [is_Some].
  - rewrite (bool_decide_true (is_Some (Some v))) by eauto. cbn [orb negb andb].
    rewrite andb_true_r, andb_false_r, andb_false_r. cbn [andb from_option id].
    destruct (Settings.evaluate_conditions_from_cache resolved) eqn:Eb, (has_non_if_match_conditional (rq_headers rq)) eqn:Eo;
      cbn [andb negb]; try (intros [= <- <- <-]; by split).
    destruct (Settings.read_cache_enabled resolved); [| done]. cbn [negb].
    destruct cached_etag as [etag |]; [| intros [= <- <- <-]; by split].
    destruct (is_empty_str etag) eqn:Ee; [intros [= <- <- <-]; by split |]. cbn [negb andb].
    destruct (etag_list_strong_match v etag) eqn:Es; intros [= <- <- <-]; (split; [| by eauto || done]); [| done].
    intros _. right. split; [done |]. exists etag. split_and!; [done | by apply not_empty_str |]. left. eauto.
  - rewrite (bool_decide_false (is_Some None)) by (intros [? [=]]). cbn [orb negb andb].
    destruct (has_non_if_match_conditional (rq_headers rq)) eqn:Eo; [| intros [= <- <- <-]; split; [by left | done]].
    rewrite andb_false_r. cbn [andb].
    destruct (Settings.evaluate_conditions_from_cache resolved) eqn:Eb; cbn [andb]; [| intros [= <- <- <-]; by split].
    destruct (header_get (rq_headers rq) "if-range") as [v |] eqn:Er;
      [| rewrite bool_decide_false by (intros [? [=]]); intros [= <- <- <-]; by split].
    rewrite bool_decide_true by eauto. cbn [andb from_option id].
    destruct (has_temporal_or_negative_conditional (rq_headers rq)) eqn:Et; cbn [negb]; [intros [= <- <- <-]; by split |].
    intros [= <- <- <-]. split; [| done]. intros Hf. right. split; [done |].
    unfold if_range_requires_forward in Hf. cbn [negb] in Hf.
    destruct (Settings.read_cache_enabled resolved); [| done]. destruct cached_etag as [etag |]; [| done].
    destruct (is_empty_str etag) eqn:Ee; [done |]. apply negb_false_iff in Hf.
    exists etag. split_and!; [done | by apply not_empty_str |]. right. eauto 10.
Qed.

(** The query parameters that mark a listing or a metadata operation of S3. *)
Definition operation_params : list string :=
  ["list-type"; "delimiter"; "versions"; "uploads"; "acl"; "attributes"; "legal-hold"; "object-lock";
   "retention"; "tagging"; "torrent"].

Lemma should_bypass_cache_none path params :
  should_bypass_cache path params = None <->
  path <> "/" /\ Forall (fun p => has_header params p = false) operation_params.
Proof.
  unfold should_bypass_cache, operation_params. rewrite !Forall_cons, Forall_nil.
  case_bool_decide; [split; [done | tauto] |].
  repeat (match goal with |- context [has_header params ?p] => destruct (has_header params p) end;
          [split; [done | by intros (_ & ?); destruct_and?] |]).
  cbn. tauto.
Qed.

(** C6: what may be answered from the cache.  A request enters the cache pipeline only if
    it carries no customer encryption key, no bypass header and no [versionId], is not for
    the root, its presigned URL, when it is one, is well-formed and has not expired, and
    read caching is on for its key; a HEAD moreover not for a part, a GET not with one of
    the query parameters of [operation_params], which mark listings and metadata
    operations (a version 1 listing without a delimiter has none of them).  And there the
    cache may answer instead of S3 only when the request has no condition, or (in the mode
    that evaluates conditions) when its one [If-Match] or [If-Range] names the cached
    version by a strong comparison. *)
Theorem pipeline_gate rq forward serve headers :
  dispatch rq = Ok (Pipeline forward serve headers) ->
  let params := parse_query_params (rq_query rq) in
  has_sse_c_headers (rq_headers rq) = false /\
  parse_cache_bypass_headers (rq_headers rq) cache_bypass_headers_enabled = BypassNone /\
  has_header params "versionId" = false /\ rq_path rq <> "/" /\
  (if bool_decide (rq_method rq = HEAD) then is_part_scoped_request params = false
   else Forall (fun p => has_header params p = false) operation_params) /\
  (exists info, parse_presigned_url params = Ok info /\ forall i, info = Some i -> is_expired now i = false) /\
  Settings.read_cache_enabled resolved = true /\
  (forward = false -> condition_vouched (rq_headers rq)).
Proof.
  intros Hd params. unfold dispatch in Hd. fold params in Hd.
  destruct (has_sse_c_headers (rq_headers rq)); [done |].
  destruct (bool_decide (rq_method rq = HEAD) && is_part_scoped_request params) eqn:Ep; [done |].
  case_bool_decide as Eb; [injection Hd as Hd; unfold dispatch_bypass in Hd; cbv zeta in Hd; case_match; discriminate Hd |].
  split; [done |]. split; [done |].
  destruct (dispatch_conditional rq) as [early | [[f sv] hs]] eqn:Ec.
  { injection Hd as ->. unfold dispatch_conditional in Ec. repeat case_match; discriminate. }
  unfold dispatch_presigned in Hd. destruct (parse_presigned_url params) as [info | |]; [| done..].
  assert ((forall i, info = Some i -> is_expired now i = false) /\
    dispatch_operation rq params f sv hs = Pipeline forward serve headers) as [Ee Hop].
  { destruct info as [i |]; cbn in Hd; [destruct (is_expired now i) eqn:E; [done |] |]; injection Hd as Hd;
      (split; [by intros ? [= <-] | done]). }
  unfold dispatch_operation in Hop.
  destruct (has_header params "versionId"); [by repeat case_match |].
  destruct (Settings.read_cache_enabled resolved) eqn:Er; [| by repeat case_match].
  destruct (if bool_decide (rq_method rq = HEAD) then _ else _) as [op |] eqn:Eo; [done |].
  cbn [negb] in Hop. injection Hop as -> -> ->. split; [done |].
  assert (rq_path rq <> "/" /\
    (if bool_decide (rq_method rq = HEAD) then is_part_scoped_request params = false
     else Forall (fun p => has_header params p = false) operation_params)) as [Hroot Hparams].
  { case_bool_decide; [| by apply should_bypass_cache_none].
    split; [by intros E; rewrite bool_decide_true in Eo | by apply andb_false_iff in Ep as [|]]. }
  split_and!; [done.. | | |].
  - by exists info.
  - done.
  - by eapply conditional_vouched.
Qed.

End Dispatch.

(** ** Runs *)

Definition no_dates : Rfc3339 := fun _ => None.

Definition cached_settings : Settings.ResolvedSettings :=
  Settings.settings_of [] Settings.sample_defaults "b/k".

Definition uncached_settings : Settings.ResolvedSettings :=
  Settings.settings_of
    [Settings.mkCacheRule "b/**" None None None (Some false) None None None None None None None None None]
    Settings.sample_defaults "b/k".

Lemma pipeline_gate_witness :
  let rq := mkRequest GET "/b/k" None [("host", "s3"); ("if-match", tags_text [(false, "v1")])] in
  condition_vouched cached_settings (Some (quote_str +:+ "v1" +:+ quote_str)) (rq_headers rq).
Proof.
  cbv zeta.
  destruct (@pipeline_gate no_dates true cached_settings (Some (quote_str +:+ "v1" +:+ quote_str)) 0
              (mkRequest GET "/b/k" None [("host", "s3"); ("if-match", tags_text [(false, "v1")])])
              false true [("host", "s3"); ("if-match", tags_text [(false, "v1")])]) as (_ & _ & _ & _ & _ & _ & _ & Hv).
  - vm_compute. reflexivity.
  - by apply Hv.
Defined.

(** With [Cache-Control: no-cache] a request for an old version is sent without a lookup
    and its response cached under the key of the current object: the version is checked
    only on the path without bypass headers. *)
Lemma no_cache_stores_old_version :
  dispatch true cached_settings None 0
    (mkRequest GET "/b/k" (Some "versionId=old") [("cache-control", "no-cache")]) (H := no_dates) =
  Ok (ForwardAndCache []).
Proof. reflexivity. Qed.

(** The same path caches a response although read caching is off for the key. *)
Lemma no_cache_ignores_disabled_reads :
  Settings.read_cache_enabled uncached_settings = false /\
  dispatch true uncached_settings None 0 (mkRequest GET "/b/k" None [("cache-control", "no-cache")]) (H := no_dates) =
  Ok (ForwardAndCache []).
Proof. vm_compute. by split. Qed.

(** A listing without [list-type] or [delimiter] is taken for an object. *)
Lemma plain_listing_cached :
  should_bypass_cache "/b" (parse_query_params (Some "prefix=a/&max-keys=10")) = None /\
  dispatch true cached_settings None 0 (mkRequest GET "/b" (Some "prefix=a/&max-keys=10") []) (H := no_dates) =
  Ok (Pipeline false false []).
Proof. vm_compute. by split. Qed.

Lemma date_part_inv {A} parse s i j (k : Z -> outcome unit (option A)) r :
  date_part parse s i j k = Ok (Some r) -> exists n, k n = Ok (Some r).
Proof. unfold date_part. destruct (str_slice s i j) as [p | |]; [| done..]. cbn. destruct (parse p); [eauto | done]. Qed.

Lemma parse_amz_date_nonneg `{Rfc3339} s t : parse_amz_date s = Ok (Some t) -> 0 <= t.
Proof.
  unfold parse_amz_date. destruct (negb _ || negb _); [done |]. intros E.
  repeat apply date_part_inv in E as [? E]. destruct (parse_rfc3339 _) as [ts |]; [| done].
  destruct (Z.ltb_spec ts 0); [done |]. injection E as <-. unfold NANOS_PER_SEC. lia.
Qed.

(** C40: a presigned URL that is accepted is well formed.  Its algorithm is SigV4's, its
    validity between one second and seven days, it was signed after the epoch and it
    expires exactly that many seconds after; it counts as expired from the first
    nanosecond after that, and not before. *)
Theorem presigned_info_wf `{Rfc3339} params info :
  parse_presigned_url params = Ok (Some info) ->
  p_algorithm info = Some "AWS4-HMAC-SHA256" /\ 0 < expires_in_seconds info <= 7 * 24 * 3600 /\ 0 <= signed_at info /\
  expires_at info = signed_at info + expires_in_seconds info * 1000000000 /\
  forall now, is_expired now info = true <-> signed_at info + expires_in_seconds info * 1000000000 < now.
Proof.
  unfold parse_presigned_url, system_time_checked_add. destruct (header_get params "X-Amz-Algorithm") as [alg |]; [| done].
  case_bool_decide as Ea; [| done]. cbn [negb]. destruct (header_get params "X-Amz-Date") as [date |]; [| done].
  destruct (parse_amz_date date) as [[t |] | |] eqn:Ed; try done.
  destruct (header_get params "X-Amz-Expires") as [x |]; [| done]. destruct (parse_i64 x) as [n |]; [| done].
  destruct (Z.leb_spec n 0); [done |]. destruct (Z.ltb_spec MAX_PRESIGNED_EXPIRES_SECONDS n) as [| Hn]; [done |].
  destruct (_ <=? _); [| done]. intros [= <-]. unfold is_expired, NANOS_PER_SEC, MAX_PRESIGNED_EXPIRES_SECONDS in *. cbn.
  split_and!; [by rewrite Ea | lia | lia | by eapply parse_amz_date_nonneg | done |]. intros now. apply Z.ltb_lt.
Qed.

Lemma presigned_info_wf_witness :
  let days : Rfc3339 := fun s => if bool_decide (s = "2024-01-15T12:00:00Z") then Some 1705320000 else None in
  exists info, parse_presigned_url [("X-Amz-Algorithm", "AWS4-HMAC-SHA256"); ("X-Amz-Date", "20240115T120000Z");
                                    ("X-Amz-Expires", "3600")] = Ok (Some info) /\
    is_expired 1705323600000000001 info = true.
Proof.
  intros days. eexists. split; [vm_compute; reflexivity |].
  eapply (@presigned_info_wf days [("X-Amz-Algorithm", "AWS4-HMAC-SHA256"); ("X-Amz-Date", "20240115T120000Z");
                                    ("X-Amz-Expires", "3600")]); [vm_compute; reflexivity | apply Z.ltb_lt; vm_compute; reflexivity].
Defined.

(** An [X-Amz-Date] of sixteen bytes with a two-byte character over the end of the year
    is sliced inside the character. *)
Definition split_date : string :=
  "202" +:+ String (Ascii.ascii_of_nat 195) (String (Ascii.ascii_of_nat 169) "115T120000Z").

Lemma presigned_date_panics :
  valid_utf8 split_date = true /\ String.length split_date = 16%nat /\
  parse_amz_date split_date (H := no_dates) = Panic.
Proof. vm_compute. by split. Qed.

(** The separator between date and time is not looked at. *)
Lemma date_separator_ignored d : parse_amz_date "20240115X120000Z" (H := d) = parse_amz_date "20240115T120000Z" (H := d).
Proof. reflexivity. Qed.

(** A bare port is a host with an empty name. *)
Lemma empty_host_accepted : parse_host_header ":80" = Ok "".
Proof. reflexivity. Qed.
