(* ===== verification/Widening.v ===== *)
(** * Page-aligned range widening ([http_proxy.rs])

    A small range read of a key with page widening is served from the one or two grid
    pages it touches.  The target of the widening, the filling of a page from RAM, from
    the cached ranges, from another request's flight or from S3, and the assembly of the
    response out of pages of one object version.  The store that caches a fetched range
    (with the eviction before it) is an action of the environment that keeps the tiers
    consistent; the answers of the in-flight tracker are a list of events. *)

From S2P Require Import Prelude CacheTypes Ranges RangeParse InflightLedger SignedRequest RangeMerge RangeFetch Maps RamCache.
From S2P Require Import MetadataCache InflightTracker DiskPaths DiskRanges Frames CacheTier DiskStore HttpHeaders RustStr.

#[local] Open Scope Z_scope.
#[local] Arguments String.append : simpl nomatch.

Module Widen.

(** ** The target *)

Inductive Target :=
  | TPages (pages : list (Z * Z)) (original : RangeSpec)
  | SizeUnknownSuffix (n : Z).

(** The eligibility gate of [try_widened_range_request]: [None] leaves the request to
    the ordinary range path. *)
Definition widening_target (page_size : Z) (content_length : option Z) (range_header : string)
    (client_headers : Headers) : Result (option Target) :=
  if is_range_signed client_headers then Ok None else
  let trimmed := trim range_header in
  match strip_prefix "bytes=-" trimmed with
  | Some n_str =>
      match parse_u64 n_str with
      | Some n =>
          if negb (0 <? n) then Ok None
          else if page_size <=? n then Ok None
          else match content_length with
               | Some size =>
                   target ← suffix_page_target n page_size (Some size);
                   match target with
                   | Pages pages => Ok (Some (TPages pages (mkRange (saturating_sub size n) (u64_sub size 1))))
                   | SizeUnknown => Panic
                   end
               | None => Ok (Some (SizeUnknownSuffix n))
               end
      | None => Ok None
      end
  | None =>
      match parse_range_header trimmed content_length with
      | SingleRange range_spec =>
          if page_size <=? Ranges.len range_spec then Ok None else
          pages ← overlapping_pages (start range_spec) (end_ range_spec) page_size (default U64_MAX content_length);
          Ok (Some (TPages pages range_spec))
      | _ => Ok None
      end
  end.

(** ** A suffix of an object of unknown size *)

Inductive Answer :=
  (** 206 with the bytes of a range of an object of the given total size. *)
  | Served (range : RangeSpec) (total : Z) (data : bytes)
  (** The upstream response as it is. *)
  | PassThrough (response : S3Response)
  (** One more request, with the client's own range. *)
  | FallBack
  | InternalError.

Definition handle_widened_suffix_response (n : Z) (response : S3Response) : outcome unit Answer :=
  if negb (status response =? 206) then Ok (PassThrough response) else
  let content_range := match header_get (headers response) "content-range" with
                       | Some v => Some v
                       | None => header_get (headers response) "Content-Range"
                       end in
  match content_range ≫= Http.parse_content_range with
  | None => Ok (PassThrough response)
  | Some (returned_start, returned_end, total_size) =>
      match body response with
      | Some (Err _) => Ok InternalError
      | Some Panic => Panic
      | b =>
          let body_bytes := match b with Some (Ok d) => d | _ => [] end in
          let requested_start := saturating_sub total_size n in
          let requested_end := saturating_sub total_size 1 in
          if (requested_start <? returned_start) || (returned_end <? requested_end) then Ok FallBack else
          let slice_start := u64_sub requested_start returned_start in
          let slice_end := u64_add slice_start (u64_add (u64_sub requested_end requested_start) 1) in
          if zlen body_bytes <? slice_end then Ok FallBack else
          sliced ← slice body_bytes slice_start slice_end;
          Ok (Served (mkRange requested_start requested_end) total_size sliced)
      end
  end.

(** ** Gaps of a page *)

(** The merge of [calculate_missing_ranges_for_page]: [last] is [merged.last_mut()]. *)
Fixpoint merge_covered (last : RangeSpec) (sorted : list RangeSpec) : list RangeSpec :=
  match sorted with
  | [] => [last]
  | r :: rest =>
      if start r <=? saturating_add (end_ last) 1
      then merge_covered (mkRange (start last) (Z.max (end_ last) (end_ r))) rest
      else last :: merge_covered r rest
  end.

Definition calculate_missing_ranges_for_page (page_range : RangeSpec) (covered : list RangeSpec) : list RangeSpec :=
  match covered with
  | [] => [page_range]
  | _ =>
      let merged := match sort_by_key start covered with [] => [] | r :: rest => merge_covered r rest end in
      let '(missing, cursor) := missing_loop (start page_range) merged in
      missing ++ (if cursor <=? end_ page_range then [mkRange cursor (end_ page_range)] else [])
  end.

(** ** Filling a page *)

Record FilledPage := mkFilled {
  fp_data : bytes;
  fp_etag : string;
  fp_object_size : option Z;
}.

(** What the in-flight tracker answers in one turn of the loop. *)
Inductive FlightEvent :=
  | BecomeFetcher
  (** The flight's result, at once or after one resubscription. *)
  | FlightDone
  | FlightFailed (e : string)
  (** A closed channel, or a timeout that finds no result. *)
  | FlightLost.

Section Fill.
Context `{Ram.Platform} `{HashIter} `{PathCodec} `{FrameCodec} `{FrameEncoder} `{TierEnv} `{S3Client}.
Variable max_ram_cache_size : Z.
(** [effective_compression] of the key. *)
Variable compress_page : string -> Z -> bool.
Variable ram_eligible : bool.
Variable comp_stats : Comp.CompressionStats.
Variable proxy_referer : option string.
(** Evict if needed and store a fetched range with the metadata of its response. *)
Variable store_fetched : string -> FetchedRange -> stM CacheManager ProxyError unit.

(** [get_range_from_ram_cache]: [None] also when the entry does not decode. *)
Definition get_range_from_ram_cache (key : string) (s e : Z) (etag : string) : stM CacheManager ProxyError (option bytes) :=
  fun st =>
  match ram_get (generate_ram_range_key key s e etag) st with
  | None => (st, Panic)
  | Some (st, Some rd) =>
      match ram_read_data rd with
      | Ok data => (update_ram_cache_hit_statistics st, Ok (Some data))
      | Err _ => (st, Ok None)
      | Panic => (st, Panic)
      end
  | Some (st, None) => (st, Ok None)
  end.

(** [promote_range_to_ram_cache_frame]. *)
Definition promote_range_to_ram_cache_frame (key : string) (page : RangeSpec) (frame : bytes)
    (algorithm : CompressionAlgorithm) (etag last_modified : string) (st : CacheManager) : option CacheManager :=
  if negb (ram_cache_enabled st) then Some st
  else if max_ram_cache_size <? zlen frame then Some st
  else match ram_cache st with
       | Some c =>
           let k := generate_ram_range_key key (start page) (end_ page) etag in
           let entry := Ram.mkRamEntry k frame
                          (Ram.mkCacheMetadata etag last_modified (u64_add (saturating_sub (end_ page) (start page)) 1)
                             None None 0 (clock (S (ticks st))))
                          (clock (S (S (ticks st)))) (now_ms st) 1 true algorithm in
           c' ← Ram.put (fun i => clock (ticks st + 3 + i) / 1000000) c entry;
           Some (tick (tick (tick (set_ram st c'))))
       | None => Some st
       end.

(** [promote_page_to_ram]: the spawned task, which ends at some later point. *)
Definition promote_page_to_ram (key : string) (page : RangeSpec) (data : bytes) (etag last_modified : string)
    (st : CacheManager) : option CacheManager :=
  if negb ram_eligible then Some st
  else if bool_decide (data = []) then Some st
  else let r := (Comp.compress_with_metadata data (compress_page key (zlen data)) comp_stats).2 in
       promote_range_to_ram_cache_frame key page (Comp.data r) (Comp.algorithm r) etag last_modified st.

(** [map_err] into one error. *)
Definition with_error {S A} (e : ProxyError) (m : stM S ProxyError A) : stM S ProxyError A := fun s =>
  match m s with
  | (s', Err _) => (s', Err e)
  | r => r
  end.

(** The page, promoted to RAM when its version is known. *)
Definition promote_filled (key : string) (page : RangeSpec) (last_modified : string) (p : FilledPage) :
    stM CacheManager ProxyError FilledPage := fun st =>
  match (if is_empty_str (fp_etag p) then Some st
         else promote_page_to_ram key page (fp_data p) (fp_etag p) last_modified st) with
  | Some st => (st, Ok p)
  | None => (st, Panic)
  end.

Definition load_page_from_cache (key : string) (page : RangeSpec) (overlap : RangeOverlap) :
    stM CacheManager ProxyError FilledPage :=
  merge_result ← with_error (CacheError "page load failed") (merge_range_segments key page (cached_ranges overlap) []);
  let etag := match cached_ranges overlap with r :: _ => r_etag r | [] => "" end in
  let last_modified := match cached_ranges overlap with r :: _ => r_last_modified r | [] => "" end in
  promote_filled key page last_modified (mkFilled (RangeMerge.data merge_result) etag None).

(** A journalled range as the fallback of [find_page_overlap] shows it. *)
Definition journal_range (etag : string) (r : NewRangeSpec) : Range :=
  mkCachedRange (nr_start r) (nr_end r) [] etag "" (nr_compression_algorithm r).

(** The not-yet-consolidated ranges of the page, when the metadata shows none. *)
Definition journal_overlap (key : string) (page : RangeSpec) (current_etag : option string) (overlap : RangeOverlap) :
    stM CacheManager ProxyError RangeOverlap := fun st =>
  match Disk.find_pending_journal_ranges (disk st) key (start page) (end_ page) current_etag with
  | [] => (st, Ok overlap)
  | journal_ranges =>
      let covered := map (fun r => mkRange (Z.max (start page) (nr_start r)) (Z.min (end_ page) (nr_end r))) journal_ranges in
      let missing := calculate_missing_ranges_for_page page covered in
      (st, Ok (mkOverlap (map (journal_range (default "" current_etag)) journal_ranges) missing
                 (bool_decide (missing = [])) CacheTypes.Fresh))
  end.

Definition find_page_overlap (key : string) (page : RangeSpec) (current_etag : option string) :
    stM CacheManager ProxyError RangeOverlap :=
  overlap ← find_cached_ranges key page current_etag None FreshServe;
  if can_serve_from_cache overlap || negb (bool_decide (cached_ranges overlap = [])) then mret overlap
  else journal_overlap key page current_etag overlap.

Fixpoint store_all (key : string) (fetched : list FetchedRange) : stM CacheManager ProxyError unit :=
  match fetched with
  | [] => mret tt
  | f :: rest =>
      _ ← with_error (CacheError "failed to store page range") (store_fetched key f);
      store_all key rest
  end.

Definition response_total (h : Headers) : option Z :=
  value ← header_find h "content-range";
  '(_, _, total) ← Http.parse_content_range value;
  Some total.

Definition fetch_and_cache_page_missing_ranges (key : string) (page : RangeSpec) (overlap : RangeOverlap)
    (client_headers : Headers) : stM CacheManager ProxyError FilledPage :=
  let headers := Http.maybe_add_referer client_headers proxy_referer (Http.auth_header_of client_headers) in
  fetched ← with_error (S3Error "page fetch failed") (lift (fetch_missing_ranges key (missing_ranges overlap) headers));
  _ ← store_all key fetched;
  let etags := segment_etags (cached_ranges overlap) fetched in
  let etag := default "" (head etags) in
  if negb (same_version etags) then lift (Err (CacheVersionMismatch key etag "")) else
  let object_size := match fetched with (_, _, h) :: _ => response_total h | [] => None end in
  merge_result ← with_error (CacheError "page assembly failed")
                   (merge_range_segments key page (cached_ranges overlap) fetched);
  mret (mkFilled (RangeMerge.data merge_result) etag object_size).

(** The registration loop; [None] when the events end before it does. *)
Fixpoint fill_loop (events : list FlightEvent) (key : string) (page : RangeSpec) (current_etag : option string)
    (overlap : RangeOverlap) (client_headers : Headers) : stM CacheManager ProxyError (option FilledPage) :=
  match events with
  | [] => mret None
  | BecomeFetcher :: _ =>
      p ← fetch_and_cache_page_missing_ranges key page overlap client_headers; mret (Some p)
  | FlightDone :: rest =>
      o ← find_page_overlap key page current_etag;
      if can_serve_from_cache o
      then p ← load_page_from_cache key page o; mret (Some p)
      else fill_loop rest key page current_etag overlap client_headers
  | FlightFailed e :: _ => lift (Err (S3Error e))
  | FlightLost :: rest => fill_loop rest key page current_etag overlap client_headers
  end.

Definition fill_page (events : list FlightEvent) (key : string) (page : RangeSpec) (current_etag : option string)
    (client_headers : Headers) : stM CacheManager ProxyError (option FilledPage) :=
  let has_range_conditional := Http.has_range_conditional_headers client_headers in
  ram ← match has_range_conditional, current_etag with
        | false, Some etag =>
            d ← get_range_from_ram_cache key (start page) (end_ page) etag;
            mret ((fun data => mkFilled data etag None) <$> d)
        | _, _ => mret None
        end;
  match ram with
  | Some p => mret (Some p)
  | None =>
      overlap ← (if has_range_conditional then mret (all_missing page) else find_page_overlap key page current_etag);
      if can_serve_from_cache overlap
      then p ← load_page_from_cache key page overlap; mret (Some p)
      else fill_loop events key page current_etag overlap client_headers
  end.

End Fill.

(** ** The response *)

Definition optional_agrees {A} `{EqDecision A} (expected : option A) (a : A) : bool :=
  match expected with Some e => bool_decide (e = a) | None => true end.

(** The pages when all were filled: the first failure leaves the loop. *)
Fixpoint filled_pages (results : list (ProxyError + FilledPage)) : option (list FilledPage) :=
  match results with
  | [] => Some []
  | inr p :: rest => ps ← filled_pages rest; Some (p :: ps)
  | inl _ :: _ => None
  end.

Definition one_version (current_etag : option string) (resolved_size : option Z) (etag : string)
    (page_bytes : list FilledPage) : bool :=
  negb (is_empty_str etag) && forallb (fun p => bool_decide (fp_etag p = etag)) page_bytes
    && optional_agrees current_etag etag
    && forallb (optional_agrees resolved_size) (omap fp_object_size page_bytes).

(** [serve_widened_pages] once the pages are joined; the last two arguments are of the
    cached metadata, read after the pages were filled. *)
Definition serve_widened_pages (original : RangeSpec) (pages : list (Z * Z)) (results : list (ProxyError + FilledPage))
    (current_etag : option string) (resolved_size : option Z) (cached_etag : string) (cached_content_length : Z)
    : outcome unit Answer :=
  match filled_pages results with
  | None => Ok FallBack
  | Some page_bytes =>
      match page_bytes, pages with
      | first :: _, (target_start, _) :: _ =>
          let etag := fp_etag first in
          if negb (one_version current_etag resolved_size etag page_bytes) || negb (bool_decide (cached_etag = etag))
          then Ok FallBack else
          let widened_data := concat (fp_data <$> page_bytes) in
          let slice_start := u64_sub (start original) target_start in
          let slice_len := u64_add (u64_sub (end_ original) (start original)) 1 in
          if zlen widened_data <? u64_add slice_start slice_len then Ok FallBack else
          sliced ← slice widened_data slice_start (u64_add slice_start slice_len);
          let total_object_size := if 0 <? cached_content_length then cached_content_length else u64_add (end_ original) 1 in
          Ok (Served original total_object_size sliced)
      | _, _ => Panic
      end
  end.

(** ** The target covers the request *)

(** One page around the request, or two adjacent ones with the boundary inside it. *)
Definition pages_around (pages : list (Z * Z)) (r : RangeSpec) : Prop :=
  match pages with
  | [(a, b)] => 0 <= a <= start r /\ end_ r <= b < U64_MAX
  | [(a, b); (c, d)] => 0 <= a <= start r /\ start r <= b < end_ r /\ c = b + 1 /\ end_ r <= d < U64_MAX
  | _ => False
  end.

Lemma overlapping_pages_around s e page_size size :
  0 < page_size -> 0 <= s <= e -> e < size -> is_u64 size -> e + page_size < 2 ^ 64 -> e - s < page_size ->
  exists pages, overlapping_pages s e page_size size = Ok pages /\ pages_around pages (mkRange s e).
Proof.
  intros Hp Hse He Hs Hep Hlen. unfold overlapping_pages, rust_assert.
  rewrite (proj2 (Z.leb_le s e)) by lia. simpl. rewrite !page_bounds_grid by (done || lia). simpl.
  eexists. split; [done |].
  pose proof (proj2 (grid_page_covers page_size size s _ Hp ltac:(lia)) eq_refl) as Hcs.
  pose proof (proj2 (grid_page_covers page_size size e _ Hp ltac:(lia)) eq_refl) as Hce.
  pose proof (Z.div_le_mono s e page_size Hp ltac:(lia)) as Hmono.
  assert (e / page_size <= s / page_size + 1) as Hnext.
  { replace (s / page_size + 1) with ((s + 1 * page_size) / page_size) by (apply Z.div_add; lia).
    apply Z.div_le_mono; lia. }
  pose proof (Z.div_pos s page_size ltac:(lia) Hp).
  unfold covers, as_range, grid_page, is_u64, U64_MAX in *. cbn [fst snd start end_] in *.
  case_bool_decide as E; cbn [pages_around start end_].
  - injection E as E1 E2. rewrite E2 in Hce. unfold U64_MAX. nia.
  - destruct (Z.eq_dec (e / page_size) (s / page_size)) as [Eq | Ne]; [by rewrite Eq in E |].
    assert (e / page_size = s / page_size + 1) as Eq by lia. rewrite Eq in *. unfold U64_MAX. nia.
Qed.

Lemma parse_single_range_spec_wf s r : parse_single_range_spec s None = Ok r -> 0 <= start r <= end_ r.
Proof.
  unfold parse_single_range_spec, parse_u64_or. destruct (contains_char "-" s); [| done].
  destruct (split_char "-" s) as [|p0 [|p1 [|]]]; try done.
  destruct (is_empty_str (trim p0)), (is_empty_str (trim p1)); try done; cbn.
  - by destruct (parse_u64 (trim p1)).
  - by destruct (parse_u64 (trim p0)).
  - destruct (parse_u64 (trim p0)) eqn:E0; [apply parse_u64_range in E0 | done]. cbn.
    destruct (parse_u64 (trim p1)); [| done]. cbn. bsplit_goal; [done |]. intros [= <-]. cbn. unfold is_u64 in *. lia.
Qed.

Lemma parse_single_range_spec_start s content_length r : parse_single_range_spec s content_length = Ok r -> 0 <= start r.
Proof.
  unfold parse_single_range_spec, parse_u64_or, saturating_sub. destruct (contains_char "-" s); [| done].
  destruct (split_char "-" s) as [|p0 [|p1 [|]]]; try done.
  destruct (is_empty_str (trim p0)), (is_empty_str (trim p1)); try done; cbn.
  all: repeat match goal with
       | |- context [parse_u64 ?t] =>
           let E := fresh "E" in destruct (parse_u64 t) eqn:E; cbn; [apply parse_u64_range in E | done]
       end; unfold is_u64 in *; destruct content_length; try done; repeat (bsplit_goal; try done); intros [= <-]; cbn; lia.
Qed.

(** A parsed single range is inside an object of known size, and in order anyway. *)
Lemma parse_range_header_inside header content_length r :
  (forall size, content_length = Some size -> 0 < size /\ is_u64 size) ->
  parse_range_header header content_length = SingleRange r ->
  0 <= start r <= end_ r /\ (forall size, content_length = Some size -> end_ r < size).
Proof.
  intros Hsz. unfold parse_range_header. destruct (negb _); [done |].
  destruct (split_char "," (string_drop 6 header)) as [|s specs]; [done |].
  destruct (parse_range_specs (s :: specs) content_length) as [[|r' [|]] | |] eqn:E; try done. intros [= ->].
  cbn [parse_range_specs] in E.
  destruct (parse_single_range_spec (trim s) content_length) as [r1 | [] |] eqn:E1; try done.
  okinv. destruct content_length as [size |].
  - destruct (Hsz size eq_refl) as [Hpos Hu]. pose proof (parse_single_range_spec_valid _ _ _ Hu Hpos E1) as Hv.
    pose proof (parse_single_range_spec_start _ _ _ E1). unfold validate_range_request in Hv.
    destruct (Z.leb_spec size (start r)), (Z.leb_spec size (end_ r)), (Z.ltb_spec (end_ r) (start r)); try done.
    split; [lia |]. by intros ? [= <-].
  - split; [by eapply parse_single_range_spec_wf | done].
Qed.

(** What the caller hands over: a known size is positive (zero counts as unknown). *)
Definition size_ok (page_size : Z) (content_length : option Z) : Prop :=
  forall size, content_length = Some size -> 0 < size /\ is_u64 size /\ size + page_size <= 2 ^ 64.

(** Only small reads with an unsigned range are widened, and to pages around the read. *)
Lemma widening_target_around page_size content_length range_header h pages original :
  0 < page_size -> size_ok page_size content_length ->
  (content_length = None -> end_ original + page_size < 2 ^ 64) ->
  widening_target page_size content_length range_header h = Ok (Some (TPages pages original)) ->
  is_range_signed h = false /\ 0 <= start original <= end_ original /\
  end_ original - start original + 1 < page_size /\ pages_around pages original /\
  (forall size, content_length = Some size -> end_ original < size).
Proof.
  intros Hp Hsz Hbig. unfold widening_target. destruct (is_range_signed h); [done |].
  destruct (strip_prefix "bytes=-" (trim range_header)) as [n_str |].
  - destruct (parse_u64 n_str) as [n |]; [| done]. destruct (Z.ltb_spec 0 n); cbn [negb]; [| done].
    destruct (Z.leb_spec page_size n); [done |]. destruct content_length as [size |]; [| done].
    destruct (Hsz size eq_refl) as (Hs0 & Hu & Hs). unfold suffix_page_target, rust_assert.
    rewrite (proj2 (Z.ltb_lt 0 n)), (proj2 (Z.ltb_lt 0 page_size)), (proj2 (Z.ltb_lt 0 size)) by lia. simpl.
    unfold is_u64 in Hu. u64.
    destruct (overlapping_pages_around (size - Z.min n size) (size - 1) page_size size) as (ps & -> & Hps);
      [unfold is_u64; lia.. |]. cbn. intros [= <- <-]. unfold saturating_sub in *.
    replace (Z.max (size - n) 0) with (size - Z.min n size) by lia.
    cbn [start end_]. split_and!; [done | lia | lia | lia | done |]. intros ? [= <-]. lia.
  - destruct (parse_range_header (trim range_header) content_length) as [r | | |] eqn:E; try done.
    apply parse_range_header_inside in E as [Hr Hin]; [| intros size Es; destruct (Hsz size Es); tauto].
    assert (content_length = None \/ exists size, content_length = Some size /\ end_ r < size) as Hcase.
    { destruct content_length as [size |]; [right; eauto | by left]. }
    destruct (Z.leb_spec page_size (Ranges.len r)) as [| Hlen]; [done |].
    destruct (overlapping_pages (start r) (end_ r) page_size (default U64_MAX content_length)) as [ps | |] eqn:Eo;
      [| done | done]. cbn. intros [= <- <-].
    assert (end_ r + page_size < 2 ^ 64 /\ end_ r < default U64_MAX content_length /\ is_u64 (default U64_MAX content_length))
      as (Hb & Hd & Hu).
    { unfold U64_MAX, is_u64. destruct Hcase as [-> | (size & -> & He)]; [specialize (Hbig eq_refl); cbn; lia |].
      destruct (Hsz size eq_refl) as (? & Hu & ?). unfold is_u64 in Hu. cbn. lia. }
    unfold Ranges.len in Hlen. unfold is_u64 in Hu. u64_in Hlen.
    destruct (overlapping_pages_around (start r) (end_ r) page_size (default U64_MAX content_length)) as (ps' & Eo' & Hps);
      [unfold is_u64; lia.. |]. rewrite Eo in Eo'. injection Eo' as <-. destruct r. cbn in *. split_and!; [done | lia | lia | lia | done |].
    by intros size ->.
Qed.

(** ** Gaps *)

(** The gap computation of a page is that of the range lookup. *)
Lemma page_gaps_eq page cov :
  calculate_missing_ranges_for_page page cov = calculate_missing_ranges page cov.
Proof.
  unfold calculate_missing_ranges_for_page, calculate_missing_ranges, merge_ranges.
  assert (forall rest last, merge_covered last rest = merge_loop last rest) as E
    by (induction rest as [|x rest IH]; intros last; cbn; [done | by rewrite !IH]).
  destruct cov as [|c0 cov0]; [done |]. by destruct (sort_by_key start _) as [|r rest]; [| rewrite E].
Qed.

(** ** The suffix of an object of unknown size *)

(** A response with a suffix of the object that holds the last [n] bytes answers with
    exactly those, whatever extra S3 returned before them. *)
Theorem widened_suffix_exact object n response v returned_start total d :
  status response = 206 ->
  header_get (headers response) "content-range" = Some v ->
  Http.parse_content_range v = Some (returned_start, total - 1, total) ->
  body response = Some (Ok d) -> d = sub_list object returned_start total -> zlen object = total ->
  0 < total < 2 ^ 64 -> 0 < n < 2 ^ 64 -> 0 <= returned_start <= Z.max 0 (total - n) ->
  handle_widened_suffix_response n response =
    Ok (Served (mkRange (Z.max 0 (total - n)) (total - 1)) total (sub_list object (Z.max 0 (total - n)) total)).
Proof.
  intros Hst Hh Hcr Hb -> Hlen Ht Hn Hrs. unfold handle_widened_suffix_response.
  rewrite Hst, Hh, Hb. change (negb (206 =? 206)) with false. cbv iota.
  change (Some v ≫= Http.parse_content_range) with (Http.parse_content_range v). rewrite Hcr. cbv beta iota zeta.
  unfold saturating_sub.
  rewrite (proj2 (Z.ltb_ge _ returned_start)), (proj2 (Z.ltb_ge (total - 1) _)) by lia. cbn [orb].
  u64. rewrite zlen_sub_list by lia.
  bsplit_goal; [lia |].
  rewrite slice_Ok by (rewrite ?zlen_sub_list by lia; lia). cbn.
  rewrite sub_list_sub_list by lia. do 2 f_equal; [f_equal |]; lia || f_equal; lia.
Qed.

(** ** What a filled page holds *)

(** Every run keeps [I], and a success satisfies [Q]. *)
Definition yields {S E A} (I : S -> Prop) (Q : A -> Prop) (m : stM S E A) : Prop :=
  forall s s' res, I s -> m s = (s', res) -> I s' /\ forall a, res = Ok a -> Q a.

Section Yields.
Context {S : Type} {I : S -> Prop}.

Lemma yields_bind {E A B} (P : A -> Prop) (Q : B -> Prop) (m : stM S E A) (k : A -> stM S E B) :
  yields I P m -> (forall a, P a -> yields I Q (k a)) -> yields I Q (m ≫= k).
Proof.
  intros Hm Hk s s' res Hs. unfold mbind, stM_bind. destruct (m s) as [s1 r] eqn:Em.
  destruct (Hm s s1 r Hs Em) as [H1 Hr]. destruct r as [a | |]; [| intros [= <- <-]; by split..].
  by apply (Hk a (Hr a eq_refl)).
Qed.

Lemma yields_ret {E A} (Q : A -> Prop) (a : A) : Q a -> yields I Q (mret a : stM S E A).
Proof. intros Ha s s' res Hs [= <- <-]. split; [done |]. by intros ? [= <-]. Qed.

Lemma yields_fail {E A} (Q : A -> Prop) (e : E) : yields I Q (lift (Err e) : stM S E A).
Proof. intros s s' res Hs [= <- <-]. done. Qed.

Lemma yields_lift {E A} (Q : A -> Prop) (r : outcome E A) : (forall a, r = Ok a -> Q a) -> yields I Q (lift r).
Proof. intros Hr s s' res Hs [= <- <-]. done. Qed.

Lemma yields_with_error {A} (Q : A -> Prop) e (m : stM S ProxyError A) : yields I Q m -> yields I Q (with_error e m).
Proof.
  intros Hm s s' res Hs. unfold with_error. destruct (m s) as [s1 r] eqn:Em. destruct (Hm _ _ _ Hs Em) as [H1 Hr].
  by destruct r; intros [= <- <-].
Qed.

Lemma yields_if {E A} (Q : A -> Prop) (b : bool) (m n : stM S E A) :
  yields I Q m -> yields I Q n -> yields I Q (if b then m else n).
Proof. by destruct b. Qed.

End Yields.

#[local] Hint Resolve yields_fail yields_with_error : core.

(** The ETag of the response a range was fetched with. *)
Definition version_of (f : FetchedRange) : string := default "" (header_find f.2 "etag").

(** S3 answers a range request with the named bytes of the version its ETag names. *)
Class S3Versions `{S3Client} (object : string -> string -> bytes) (key : string) : Prop :=
  s3_versions h resp d r :
    forward_request h = Ok resp -> status resp = 206 -> body resp = Some (Ok d) -> requested_by h = Some r ->
    d = sub_list (object key (default "" (header_find (headers resp) "etag"))) (start r) (end_ r + 1).

Section PageFill.
Context `{Ram.Platform} `{HashIter} `{PathCodec} `{FrameEncoder} `{FrameCodec} `{!Comp.FrameCodecLaws} `{TierEnv}.
Context (object : string -> string -> bytes) (key : string).

(** The merge over a disk that does not change. *)
Definition pinned_spec (d : Disk.Disk) : RangeTierSpec CacheManager object.
Proof.
  refine {| tier_inv st := manager_ok object st /\ disk st = d; tier_valid := range_ok; tier_holds := manager_holds |}.
  - intros k r Hr st st' res [Hok Hd] Hl. split; [exact (tier_load_inv (RangeTierSpec := two_tier_spec object) k r Hr _ _ _ Hok Hl) |].
    apply load_spec in Hl as [(_ & Hd' & _) _]; [congruence | apply Hok].
  - intros k r st st' dt hit [Hok _]. by apply (tier_load_faithful (RangeTierSpec := two_tier_spec object)).
  - intros k r st [Hok _]. by apply (tier_load_total (RangeTierSpec := two_tier_spec object)).
  - intros k r st st' res k' r' [Hok _]. by apply (tier_holds_stable (RangeTierSpec := two_tier_spec object)).
Defined.

(** The tiers are consistent and the key's listed ranges well formed. *)
Record widen_ok (st : CacheManager) : Prop := {
  wo_tiers : manager_ok object st;
  wo_etag : forall m, Disk.metadata_files (disk st) !! get_new_metadata_file_path key = Some m ->
    Tracker.colon_free (om_etag (cm_object_metadata m));
  wo_ranges : forall r, listed (disk st) key r -> 0 <= nr_start r <= nr_end r /\ nr_end r < U64_MAX;
}.

Lemma widen_ok_disk st st' : widen_ok st -> manager_ok object st' -> disk st' = disk st -> widen_ok st'.
Proof. intros [Ht He Hr] Ht' Hd. by constructor; rewrite ?Hd. Qed.

(** A range of the version [etag], as the lookup reports it. *)
Definition part_of (etag : string) (r : Range) : Prop :=
  r_etag r = etag /\ 0 <= r_start r <= r_end r /\ r_end r < U64_MAX /\ range_ok r.

(** What the lookup and the journal report for a page: parts of one version, and gaps. *)
Definition overlap_ok (page : RangeSpec) (o : RangeOverlap) : Prop :=
  (exists etag, Forall (part_of etag) (cached_ranges o)) /\
  Forall (fun r => range_wf r /\ within page r) (missing_ranges o).

Definition page_ok (page : RangeSpec) : Prop := range_wf page /\ end_ page < U64_MAX.

(** The bytes of the page in the version the page is labelled with. *)
Definition filled_ok (page : RangeSpec) (p : FilledPage) : Prop :=
  fp_data p = sub_list (object key (fp_etag p)) (start page) (end_ page + 1).

Lemma merge_page_ok page cached fetched etag :
  page_ok page -> Forall (part_of etag) cached -> Forall (fetched_faithful (object := object) key etag) fetched ->
  yields widen_ok (fun m => filled_ok page (mkFilled (RangeMerge.data m) etag None) /\
      zlen (RangeMerge.data m) = end_ page - start page + 1)
    (merge_range_segments key page cached fetched).
Proof.
  intros [Hw Hmax] Hc Hf st st' res Hok Hm.
  assert (manager_ok object st /\ disk st = disk st) as Hinv by (split; [apply Hok | done]).
  destruct (merge_range_segments_tier (Spec := pinned_spec (disk st)) key etag _ _ _ Hw Hc Hf _ _ _ Hinv Hm) as [Hm' Hd].
  split; [by apply (widen_ok_disk st) |]. intros m ->.
  destruct (merge_sound (Spec := pinned_spec (disk st)) key etag _ _ _ _ _ _ Hinv Hw Hmax Hc Hf Hm) as (Hdata & Hlen & _).
  done.
Qed.

Lemma all_missing_ok page : page_ok page -> overlap_ok page (all_missing page).
Proof.
  intros [Hw _]. split; [exists ""; constructor |]. apply Forall_cons. split; [| constructor].
  split; [done |]. unfold within. cbn. lia.
Qed.

Lemma gaps_ok page etag cached freshness :
  page_ok page -> Forall (fun r => part_of etag r /\ start page <= r_end r /\ r_start r <= end_ page) cached ->
  overlap_ok page (overlap_of page cached freshness).
Proof.
  intros [Hw Hmax] Hc. split; [exists etag; eapply Forall_impl; [exact Hc |]; by intros r [] |].
  cbn. apply calculate_missing_ranges_inside; [done | done | |]; rewrite Forall_fmap;
    (eapply Forall_impl; [exact Hc |]); intros r ((_ & ? & ? & _) & ? & ?);
    unfold compose, covered_part, range_wf, within, U64_MAX in *; cbn; lia.
Qed.

Lemma find_cached_ranges_page page current_etag :
  page_ok page -> yields widen_ok (overlap_ok page) (find_cached_ranges key page current_etag None FreshServe).
Proof.
  intros Hp st st' res Hok Hf.
  assert (widen_ok (tick (tick (tick st)))) as Hticks by (destruct Hok as [[]]; done).
  unfold find_cached_ranges in Hf.
  destruct (Disk.find_cached_ranges _ _ _ (disk st) key page current_etag None FreshServe) as [[o stale] | e |] eqn:Ed;
    [| injection Hf as <- <-; done..].
  assert (overlap_ok page o) as Ho.
  { apply Disk.lookup_shape in Ed as [-> | (m & specs & freshness & Hm & -> & Hs)]; [by apply all_missing_ok |].
    apply (gaps_ok _ (om_etag (cm_object_metadata m))); [done |]. rewrite Forall_fmap.
    eapply Forall_impl; [exact Hs |]. intros r [Hr Hov]. unfold compose. cbn.
    pose proof (wo_etag _ Hok m Hm) as Hc.
    destruct (wo_ranges _ Hok r) as [? ?].
    { destruct Hr as [[Hr | Hr] _]; [left; eauto | right; eauto]. }
    destruct Hov. unfold part_of, range_ok. cbn. split_and!; try done; lia. }
  destruct stale; [| injection Hf as <- <-; split; [done | by intros ? [= <-]]].
  destruct (invalidate_stale_spec key st (mo_sound _ _ (wo_tiers _ Hok))) as (st1 & E1 & _ & Hd & _).
  rewrite E1 in Hf. injection Hf as <- <-. split; [| by intros ? [= <-]].
  destruct (Disk.invalidate_all_ranges_spec removable (now_ns (tick st)) (disk st) key) as (Hj & Hm & _).
  constructor; [by eapply invalidate_stale_ok, E1; apply Hok | |]; rewrite Hd.
  - intros m Hl. apply (wo_etag _ Hok). by eapply lookup_weaken.
  - intros r [(m & Hl & Hr) | Hl]; apply (wo_ranges _ Hok); [left | right; by rewrite Hj in Hl].
    exists m. split; [by eapply lookup_weaken | done].
Qed.

(** The journal fallback reports coverage as the lookup does. *)
Lemma journal_overlap_of page etag o st :
  journal_overlap key page (Some etag) o st =
  (st, Ok (match Disk.find_pending_journal_ranges (disk st) key (start page) (end_ page) (Some etag) with
           | [] => o
           | l => overlap_of page (journal_range etag <$> l) CacheTypes.Fresh
           end)).
Proof.
  unfold journal_overlap. destruct (Disk.find_pending_journal_ranges _ _ _ _ _) as [| j js]; [done |].
  unfold overlap_of. by rewrite !page_gaps_eq, <- list_fmap_compose.
Qed.

Lemma journal_overlap_page page current_etag o :
  page_ok page -> (forall e, current_etag = Some e -> Tracker.colon_free e) -> overlap_ok page o ->
  yields widen_ok (overlap_ok page) (journal_overlap key page current_etag o).
Proof.
  intros Hp He Ho st st' res Hok. destruct current_etag as [etag |].
  2: { unfold journal_overlap, Disk.find_pending_journal_ranges.
       destruct (Disk.shared_storage_mode (disk st)), (Disk.journals_dir_exists (disk st)); intros [= <- <-];
         (split; [done | by intros ? [= <-]]). }
  rewrite journal_overlap_of.
  assert (Forall (fun r => part_of etag (journal_range etag r) /\ start page <= nr_end r /\ nr_start r <= end_ page)
    (Disk.find_pending_journal_ranges (disk st) key (start page) (end_ page) (Some etag))) as Hj.
  { apply Forall_forall. intros r Hr. destruct Hp as [Hw _]. unfold range_wf in Hw.
    apply Disk.journal_ranges_elem in Hr as [[? ?] Hr]; [| lia].
    apply Disk.pending_candidates_elem in Hr as [Hl _].
    destruct (wo_ranges _ Hok r) as [? ?]; [by right |].
    unfold part_of, range_ok, journal_range. cbn. split_and!; try done; try lia. by apply He. }
  match goal with |- (st, Ok ?x) = _ -> _ => assert (overlap_ok page x) as HQ; [| generalize dependent x] end.
  { destruct (Disk.find_pending_journal_ranges _ _ _ _ _) as [| j js]; [done |].
    apply (gaps_ok page etag); [done |]. by rewrite Forall_fmap. }
  intros x Hx [= <- <-]. split; [done |]. by intros ? [= <-].
Qed.

Lemma find_page_overlap_ok page current_etag :
  page_ok page -> (forall e, current_etag = Some e -> Tracker.colon_free e) ->
  yields widen_ok (overlap_ok page) (find_page_overlap key page current_etag).
Proof.
  intros Hp He. unfold find_page_overlap. eapply yields_bind; [by apply find_cached_ranges_page |]. intros o Ho.
  apply yields_if; [by apply yields_ret | by apply journal_overlap_page].
Qed.

(** The page as a range of the version [etag]. *)
Definition page_as_range (page : RangeSpec) (etag : string) : Range :=
  mkCachedRange (start page) (end_ page) [] etag "" NoCompression.

Lemma page_as_range_ok page etag : page_ok page -> Tracker.colon_free etag -> range_ok (page_as_range page etag).
Proof. intros [Hw Hm] Hc. unfold range_ok, range_wf in *. cbn. split; [done | lia]. Qed.

Lemma ram_page_ok page etag :
  page_ok page -> Tracker.colon_free etag ->
  yields widen_ok (fun d => forall data, d = Some data ->
      data = sub_list (object key etag) (start page) (end_ page + 1))
    (get_range_from_ram_cache key (start page) (end_ page) etag).
Proof.
  intros Hp Hc st st' res Hok. unfold get_range_from_ram_cache.
  change (generate_ram_range_key key (start page) (end_ page) etag) with (ram_key key (page_as_range page etag)).
  destruct (ram_get_spec (ram_key key (page_as_range page etag)) st (mo_sound _ _ (wo_tiers _ Hok)))
    as (st1 & -> & He & Hd & Hs & Hv).
  assert (widen_ok st1) as Hok1.
  { apply (widen_ok_disk st); [done | | done]. destruct (wo_tiers _ Hok) as [_ Hram Hdisk].
    constructor; [done | | by rewrite Hd]. intros k r rd data Hr Hview. rewrite Hv in Hview. by apply Hram. }
  destruct (if ram_cache_enabled st then _ else None) as [rd |] eqn:Erd.
  2: { intros [= <- <-]. split; [done |]. by intros ? [= <-]. }
  destruct (ram_cache_enabled st); [| done].
  destruct (ram_read_data rd) as [data | |] eqn:Edata; intros [= <- <-].
  - split.
    + unfold update_ram_cache_hit_statistics. destruct (ram_cache st1) as [c |] eqn:Ec; [| done].
      destruct Hok1 as [[Hs1 Hr1 Hd1] He1 Hl1]. constructor; [| done | done].
      unfold ram_sound, ram_faithful, ram_view in *. constructor; cbn; [by rewrite Ec in Hs1 | by rewrite Ec in Hr1 | done].
    + intros ? [= <-] ? [= <-].
      apply (mo_ram _ _ (wo_tiers _ Hok) key (page_as_range page etag) rd data); [by apply page_as_range_ok | done | done].
  - split; [done |]. by intros ? [= <-].
  - done.
Qed.

Section Ops.
Context `{S3Client}.
Context (max_ram_cache_size : Z) (compress_page : string -> Z -> bool) (ram_eligible : bool)
  (comp_stats : Comp.CompressionStats) (proxy_referer : option string)
  (store_fetched : string -> FetchedRange -> stM CacheManager ProxyError unit).

Lemma promote_page_ok page data etag last_modified st st' :
  page_ok page -> Tracker.colon_free etag -> data = sub_list (object key etag) (start page) (end_ page + 1) ->
  widen_ok st ->
  promote_page_to_ram max_ram_cache_size compress_page ram_eligible comp_stats key page data etag last_modified st
    = Some st' -> widen_ok st'.
Proof.
  intros Hp Hc Hdata Hok. unfold promote_page_to_ram. destruct ram_eligible; [| by intros [= <-]]. cbn [negb].
  case_bool_decide as Hne; [by intros [= <-] |].
  pose proof (Comp.compress_with_metadata_frame data (compress_page key (zlen data)) comp_stats) as Hf.
  destruct (Comp.compress_with_metadata data _ comp_stats) as [s r]. destruct Hf as (Ha & _ & _ & Hn & Hdec). cbn [snd].
  unfold promote_range_to_ram_cache_frame. destruct (negb _); [by intros [= <-] |].
  destruct (_ <? _); [by intros [= <-] |]. destruct (ram_cache st) as [c |] eqn:Ec; [| by intros [= <-]].
  destruct (wo_tiers _ Hok) as [Hs Hram Hdisk].
  match goal with |- context [Ram.put ?cl c ?en] =>
    destruct (Ram.put_view cl c en (Hs c Ec)) as (c' & -> & Hcok & Hv) end.
  cbn [mbind option_bind]. intros [= <-]. apply (widen_ok_disk st); [done | | done].
  constructor; [by intros ? [= <-] | | done].
  intros k rg rd d Hr Hview Hrd. unfold ram_view in Hview. cbn in Hview.
  destruct (Hv (ram_key k rg)) as [E | [E | [Ek E]]]; rewrite E in Hview.
  - apply (Hram k rg rd d); [done | unfold ram_view; by rewrite Ec | done].
  - done.
  - injection Hview as <-. cbn in Ek.
    change (generate_ram_range_key key (start page) (end_ page) etag) with (ram_key key (page_as_range page etag)) in Ek.
    apply ram_key_inj in Ek as (-> & E1 & E2 & E3); [| done | by apply page_as_range_ok]. cbn in E1, E2, E3.
    rewrite E1, E2, E3, <- Hdata. unfold ram_read_data in Hrd. cbn in Hrd. rewrite Ha in Hrd.
    unfold decompress_with_algorithm in Hrd. rewrite (Comp.decode_single _ data) in Hrd by done. by injection Hrd.
Qed.

Lemma promote_filled_ok page last_modified p :
  page_ok page -> Tracker.colon_free (fp_etag p) -> filled_ok page p ->
  yields widen_ok (filled_ok page)
    (promote_filled max_ram_cache_size compress_page ram_eligible comp_stats key page last_modified p).
Proof.
  intros Hp Hc Hf st st' res Hok. unfold promote_filled. destruct (is_empty_str (fp_etag p)).
  { intros [= <- <-]. split; [done |]. by intros ? [= <-]. }
  destruct (promote_page_to_ram _ _ _ _ _ _ _ _ _ _) as [st1 |] eqn:E; intros [= <- <-]; [| done].
  split; [| by intros ? [= <-]]. eapply promote_page_ok, E; [done | done | exact Hf | done].
Qed.

(** The version of the first cached part, which is that of all. *)
Lemma overlap_version o etag :
  Forall (part_of etag) (cached_ranges o) -> cached_ranges o <> [] ->
  match cached_ranges o with r :: _ => r_etag r | [] => "" end = etag /\ Tracker.colon_free etag.
Proof.
  destruct (cached_ranges o) as [| r rs]; [done |]. intros [Hr _]%Forall_cons_1 _.
  destruct Hr as (E & _ & _ & Hc & _). by rewrite <- E.
Qed.

Lemma load_page_ok page o :
  page_ok page -> overlap_ok page o ->
  yields widen_ok (filled_ok page)
    (load_page_from_cache max_ram_cache_size compress_page ram_eligible comp_stats key page o).
Proof.
  intros Hp [[etag Hc] _]. unfold load_page_from_cache.
  destruct (decide (cached_ranges o = [])) as [En | Hne].
  - rewrite En in *. eapply yields_bind; [apply yields_with_error, (merge_page_ok page [] [] ""); done || apply Forall_nil_2 |].
    intros m [Hm _]. by apply promote_filled_ok.
  - destruct (overlap_version o etag Hc Hne) as [-> Hcf].
    eapply yields_bind; [apply yields_with_error, (merge_page_ok page _ [] etag); done || apply Forall_nil_2 |].
    intros m [Hm _]. by apply promote_filled_ok.
Qed.

(** A fetched range holds the bytes of the version its response names. *)
Definition fetched_version (f : FetchedRange) : Prop := fetched_faithful (object := object) key (version_of f) f.

Lemma fetch_missing_versions `{!S3Versions object key} page missing h fetched :
  page_ok page -> Forall (fun r => range_wf r /\ within page r) missing ->
  fetch_missing_ranges key missing h = Ok fetched -> Forall fetched_version fetched.
Proof.
  intros [_ Hmax] Hm. unfold fetch_missing_ranges. case_bool_decide; [intros [= <-]; constructor |].
  destruct (is_range_signed h); [done |]. case_bool_decide; [done |]. intros [= <-].
  apply Forall_forall. intros f (r & Hr & Hok)%list_elem_of_omap. rewrite Forall_forall in Hm.
  destruct (Hm r Hr) as [Hw [_ Hle]]. destruct (fetch_range h r) as [f' | |] eqn:E; [| done..]. injection Hok as <-.
  unfold fetch_range in E. okinv. destruct (Z.eqb_spec (status v) 206) as [Es |]; [| done].
  destruct (body v) as [b |] eqn:Eb; [| done]. okinv.
  unfold fetched_version, fetched_faithful, version_of. cbn [fst snd]. unfold range_wf in Hw.
  split_and!; [lia.. |]. eapply s3_versions; [exact E0 | done | exact Eb | by apply fetch_range_names].
Qed.

(** Storing a fetched range, after making room for it, keeps the tiers consistent. *)
Context (store_keeps : forall f, fetched_version f -> preserves widen_ok (store_fetched key f)).

Lemma store_all_ok fetched :
  Forall fetched_version fetched -> yields widen_ok (fun _ => True) (store_all store_fetched key fetched).
Proof.
  induction 1 as [| f fetched Hf _ IH]; cbn [store_all]; [by apply yields_ret |].
  eapply (yields_bind (fun _ => True)); [| done]. apply yields_with_error.
  intros st st' res Hok Hst. split; [by eapply store_keeps | done].
Qed.

Lemma same_version_all etags e :
  same_version etags = true -> e ∈ etags -> e = default "" (head etags) /\ etags <> [].
Proof.
  destruct etags as [| e0 es]; [done |]. cbn. intros [_ Hall%bool_decide_eq_true]%andb_true_iff Hin.
  split; [| done]. apply elem_of_cons in Hin as [-> | Hin]; [done |]. by apply (proj1 (Forall_forall _ _) Hall).
Qed.

Lemma fetch_page_ok `{!S3Versions object key} page o h :
  page_ok page -> overlap_ok page o ->
  yields widen_ok (fun p => filled_ok page p /\ zlen (fp_data p) = end_ page - start page + 1)
    (fetch_and_cache_page_missing_ranges proxy_referer store_fetched key page o h).
Proof.
  intros Hp [[etag Hc] Hm]. unfold fetch_and_cache_page_missing_ranges.
  eapply (yields_bind (Forall fetched_version)).
  { apply yields_with_error, yields_lift. intros fetched. by apply fetch_missing_versions with page. }
  intros fetched Hf. eapply yields_bind; [by apply store_all_ok |]. intros _ _.
  destruct (same_version (segment_etags (cached_ranges o) fetched)) eqn:Ev; cbn [negb]; [| apply yields_fail].
  set (v := default "" (head (segment_etags (cached_ranges o) fetched))).
  assert (Forall (part_of v) (cached_ranges o) /\ Forall (fetched_faithful (object := object) key v) fetched) as [Hcv Hfv].
  { rewrite !Forall_forall in *. split; [intros r Hr | intros f Hr].
    - destruct (same_version_all _ (r_etag r) Ev) as [E _].
      { apply elem_of_app. left. by apply list_elem_of_fmap_2. }
      destruct (Hc r Hr) as (_ & ? & ? & ?). by split; [rewrite E |].
    - destruct (same_version_all _ (version_of f) Ev) as [E _].
      { apply elem_of_app. right. by apply (list_elem_of_fmap_2 version_of). }
      fold v in E. rewrite <- E. by apply Hf. }
  eapply yields_bind; [by apply yields_with_error, merge_page_ok |]. intros m Hd. by apply yields_ret.
Qed.

(** A page that reaches past the end of the object is never filled from S3: the response
    is shorter than the page, and the assembly refuses it. *)
Lemma page_past_end_not_filled `{!S3Versions object key} page o h st st' p :
  page_ok page -> overlap_ok page o -> widen_ok st -> (forall etag, zlen (object key etag) <= end_ page) ->
  fetch_and_cache_page_missing_ranges proxy_referer store_fetched key page o h st <> (st', Ok p).
Proof.
  intros Hp Ho Hok Hend E. destruct (fetch_page_ok page o h Hp Ho _ _ _ Hok E) as [_ Hq].
  destruct (Hq p eq_refl) as [Hd Hl]. destruct Hp as [Hw _]. unfold filled_ok, range_wf in *. specialize (Hend (fp_etag p)).
  rewrite Hd in Hl. unfold zlen, sub_list in *. rewrite length_take, length_drop in Hl. lia.
Qed.

(** A waiter whose page is not visible yet fetches what was missing before it waited. *)
Lemma waiter_refetches_old_gap events page current_etag o o' h st st1 :
  find_page_overlap key page current_etag st = (st1, Ok o') -> can_serve_from_cache o' = false ->
  fill_loop max_ram_cache_size compress_page ram_eligible comp_stats proxy_referer store_fetched
    (FlightDone :: BecomeFetcher :: events) key page current_etag o h st =
  fill_loop max_ram_cache_size compress_page ram_eligible comp_stats proxy_referer store_fetched
    [BecomeFetcher] key page current_etag o h st1.
Proof. intros E Ec. cbn [fill_loop]. unfold mbind at 1, stM_bind at 1. by rewrite E, Ec. Qed.

Lemma fill_loop_ok `{!S3Versions object key} events page current_etag o h :
  page_ok page -> (forall e, current_etag = Some e -> Tracker.colon_free e) -> overlap_ok page o ->
  yields widen_ok (fun p => forall q, p = Some q -> filled_ok page q)
    (fill_loop max_ram_cache_size compress_page ram_eligible comp_stats proxy_referer store_fetched
       events key page current_etag o h).
Proof.
  intros Hp He Ho. induction events as [| ev events IH]; cbn [fill_loop]; [by apply yields_ret |].
  destruct ev.
  - eapply yields_bind; [by apply fetch_page_ok |]. intros p [Hf _]. apply yields_ret. by intros q [= <-].
  - eapply yields_bind; [by apply find_page_overlap_ok |]. intros o' Ho'. apply yields_if; [| done].
    eapply yields_bind; [by apply load_page_ok |]. intros p Hf. apply yields_ret. by intros q [= <-].
  - apply yields_fail.
  - done.
Qed.

(** Whatever the path a page takes (RAM, cached ranges, journal, another request's
    flight or S3) it is filled with the bytes of the version it is labelled with, and
    the tiers stay consistent. *)
Lemma fill_page_ok `{!S3Versions object key} events page current_etag h :
  page_ok page -> (forall e, current_etag = Some e -> Tracker.colon_free e) ->
  yields widen_ok (fun p => forall q, p = Some q -> filled_ok page q)
    (fill_page max_ram_cache_size compress_page ram_eligible comp_stats proxy_referer store_fetched
       events key page current_etag h).
Proof.
  intros Hp He. unfold fill_page.
  eapply (yields_bind (fun p => forall q, p = Some q -> filled_ok page q)).
  { destruct (Http.has_range_conditional_headers h); [by apply yields_ret |].
    destruct current_etag as [etag |]; [| by apply yields_ret].
    eapply yields_bind; [apply ram_page_ok; auto |]. intros d Hd. apply yields_ret.
    intros q E. destruct d as [data |]; [| done]. injection E as <-. by apply Hd. }
  intros [p |] Hram; [by apply yields_ret |].
  eapply (yields_bind (overlap_ok page)).
  { apply yields_if; [by apply yields_ret, all_missing_ok | by apply find_page_overlap_ok]. }
  intros o Ho. apply yields_if; [| by apply fill_loop_ok].
  eapply yields_bind; [by apply load_page_ok |]. intros p Hf. apply yields_ret. by intros q [= <-].
Qed.

End Ops.
End PageFill.

(** ** The response *)

Section Response.
Context (object : bytes).

(** The pages hold consecutive bytes of the object. *)
Definition holds_pages (pages : list (Z * Z)) (data : list bytes) : Prop :=
  Forall2 (fun p d => d = sub_list object p.1 (p.2 + 1)) pages data.

Lemma pages_around_bytes pages r data :
  start r <= end_ r -> pages_around pages r -> holds_pages pages data ->
  exists a b rest d, pages = (a, d) :: rest /\ 0 <= a <= start r /\ end_ r <= b < U64_MAX /\
    concat data = sub_list object a (b + 1).
Proof.
  intros Hr Hp Hd. destruct pages as [| [a b] [| [c d] [|]]]; [done | | | done].
  - cbn in Hp. inversion_clear Hd as [| ? d0 ? ? E H0]. inversion_clear H0. cbn in E.
    exists a, b, [], b. rewrite E. cbn. rewrite app_nil_r. split_and!; (done || lia).
  - cbn in Hp. destruct Hp as (Ha & Hb & -> & Hd').
    inversion_clear Hd as [| ? d0 ? ? E H0]. inversion_clear H0 as [| ? d1 ? ? E1 H1]. inversion_clear H1. cbn in E, E1.
    exists a, d, [(b + 1, d)], b. rewrite E, E1. cbn. rewrite app_nil_r, sub_list_app by lia. split_and!; (done || lia).
Qed.

End Response.

Lemma filled_pages_Some results ps : filled_pages results = Some ps -> results = inr <$> ps.
Proof.
  revert ps. induction results as [| [e | p] results IH]; intros ps; cbn; [by intros [= <-] | done |].
  destruct (filled_pages results) as [ps' |]; [| done]. intros [= <-]. cbn. by rewrite (IH ps').
Qed.

Lemma filled_pages_all ps : filled_pages (inr <$> ps) = Some ps.
Proof. induction ps as [| p ps IH]; [done |]. cbn in *. by rewrite IH. Qed.

Lemma one_version_all current_etag resolved_size etag ps :
  one_version current_etag resolved_size etag ps = true <->
  etag <> "" /\ Forall (fun p => fp_etag p = etag) ps /\ (forall e, current_etag = Some e -> e = etag) /\
  (forall p size total, p ∈ ps -> fp_object_size p = Some size -> resolved_size = Some total -> total = size).
Proof.
  unfold one_version. rewrite !andb_true_iff, negb_true_iff, !List.forallb_forall, Forall_forall.
  setoid_rewrite <- list_elem_of_In. split.
  - intros [[[He Hv] Hc] Hs]. split_and!.
    + by intros ->.
    + intros p Hp. by apply Hv, bool_decide_eq_true in Hp.
    + intros e ->. by apply bool_decide_eq_true in Hc.
    + intros p size total Hp Ep ->. assert (size ∈ omap fp_object_size ps) as Hin by (apply list_elem_of_omap; eauto).
      by apply Hs, bool_decide_eq_true in Hin.
  - intros (He & Hv & Hc & Hs). split_and!.
    + by destruct etag.
    + intros p Hp. by apply bool_decide_eq_true, Hv.
    + destruct current_etag as [e |]; [| done]. by apply bool_decide_eq_true, Hc.
    + intros size (p & Hp & Ep)%list_elem_of_omap. destruct resolved_size as [total |]; [| done].
      apply bool_decide_eq_true. by eapply Hs.
Qed.

(** What a request served from pages answers with: the requested bytes of one version. *)
Lemma serve_pages_exact object original pages ps current_etag resolved_size cached_etag cached_len :
  0 <= start original <= end_ original -> pages_around pages original ->
  holds_pages (object cached_etag) pages (fp_data <$> ps) ->
  one_version current_etag resolved_size cached_etag ps = true ->
  serve_widened_pages original pages (inr <$> ps) current_etag resolved_size cached_etag cached_len =
  if end_ original <? zlen (object cached_etag)
  then Ok (Served original (if 0 <? cached_len then cached_len else end_ original + 1)
             (sub_list (object cached_etag) (start original) (end_ original + 1)))
  else Ok FallBack.
Proof.
  intros Hr Hp Hh Hv.
  destruct (pages_around_bytes _ _ _ _ (proj2 Hr) Hp Hh) as (a & b & rest & d & -> & Ha & Hb & Hcat).
  unfold serve_widened_pages. rewrite filled_pages_all. destruct ps as [| first ps]; [by inversion Hh |].
  pose proof Hv as (_ & [Ef _]%Forall_cons_1 & _)%one_version_all. rewrite Ef, Hv, bool_decide_true by done. cbn [negb orb].
  rewrite Hcat. unfold U64_MAX in *. u64.
  assert (forall n, 0 <= n <= b + 1 - a -> (zlen (sub_list (object cached_etag) a (b + 1)) <? n) = (zlen (object cached_etag) <? a + n)
    \/ n <= 0) as Hcmp.
  { intros n Hn. unfold zlen, sub_list. rewrite length_take, length_drop.
    destruct (Z.le_gt_cases n 0); [by right | left]. apply eq_true_iff_eq. rewrite !Z.ltb_lt. lia. }
  destruct (Hcmp (start original - a + (end_ original - start original + 1))) as [-> |]; [lia | | lia].
  destruct (Z.ltb_spec (zlen (object cached_etag)) (a + (start original - a + (end_ original - start original + 1)))) as [Hs | Hs].
  { destruct (Z.ltb_spec (end_ original) (zlen (object cached_etag))); [lia | done]. }
  destruct (Z.ltb_spec (end_ original) (zlen (object cached_etag))); [| lia].
  rewrite slice_Ok; [| lia | lia |].
  - cbn [mbind outcome_bind]. rewrite sub_list_sub_list by lia. do 2 f_equal. f_equal; lia.
  - unfold zlen, sub_list in *. rewrite length_take, length_drop. lia.
Qed.

Lemma pages_around_ok pages r :
  start r <= end_ r -> pages_around pages r -> Forall (fun pg => page_ok (as_range pg)) pages.
Proof.
  intros Hr Hp. unfold pages_around in Hp. destruct pages as [| [a b] [| [c d] [|]]]; try done;
    repeat (apply Forall_cons; split); try apply Forall_nil_2; unfold page_ok, range_wf, as_range, U64_MAX in *; cbn; lia.
Qed.

(** C5: a widened read answers with the client's bytes of one object version.  An unsigned
    small range is widened to one or two adjacent grid pages around it; whatever path
    each page takes (RAM, cached ranges, journal, another request's flight or S3) and in
    whatever consistent states the pages are filled, the response is either the forwarded
    request or the requested range with exactly its bytes, all of the version the cached
    metadata names; and when every page is of that version, the sizes agree and the range
    is inside the object, it is served from the pages. *)
Theorem widened_response_faithful `{Ram.Platform} `{HashIter} `{PathCodec} `{FrameEncoder} `{FrameCodec}
    `{!Comp.FrameCodecLaws} `{TierEnv} `{S3Client} object key `{!S3Versions object key}
    max_ram_cache_size compress_page ram_eligible comp_stats proxy_referer store_fetched
    page_size content_length range_header h current_etag cached_etag cached_len pages original results :
  (forall f, fetched_version object key f -> preserves (widen_ok object key) (store_fetched key f)) ->
  0 < page_size -> size_ok page_size content_length ->
  (content_length = None -> end_ original + page_size < 2 ^ 64) ->
  (forall e, current_etag = Some e -> Tracker.colon_free e) ->
  widening_target page_size content_length range_header h = Ok (Some (TPages pages original)) ->
  Forall2 (fun pg result => forall p, result = inr p -> exists events st st', widen_ok object key st /\
    fill_page max_ram_cache_size compress_page ram_eligible comp_stats proxy_referer store_fetched
      events key (as_range pg) current_etag h st = (st', Ok (Some p))) pages results ->
  let bytes_of etag := sub_list (object key etag) (start original) (end_ original + 1) in
  let total := if 0 <? cached_len then cached_len else end_ original + 1 in
  is_range_signed h = false /\ end_ original - start original + 1 < page_size /\
  exists answer, serve_widened_pages original pages results current_etag content_length cached_etag cached_len = Ok answer /\
    (answer = FallBack \/
     answer = Served original total (bytes_of cached_etag) /\ end_ original < zlen (object key cached_etag)) /\
    forall ps, results = inr <$> ps -> one_version current_etag content_length cached_etag ps = true ->
      end_ original < zlen (object key cached_etag) -> answer = Served original total (bytes_of cached_etag).
Proof.
  intros Hstore Hp Hsz Hbig He Ht Hres bytes_of total.
  destruct (widening_target_around _ _ _ _ _ _ Hp Hsz Hbig Ht) as (Hsig & Hr & Hlen & Haround & _).
  split; [done |]. split; [done |].
  assert (forall ps, results = inr <$> ps -> one_version current_etag content_length cached_etag ps = true ->
    holds_pages (object key cached_etag) pages (fp_data <$> ps)) as Hholds.
  { intros ps -> (_ & Hv & _)%one_version_all. unfold holds_pages.
    apply Forall2_fmap_r. apply Forall2_fmap_r in Hres. revert Hv.
    pose proof (pages_around_ok pages original (proj2 Hr) Haround) as Hpg. clear Haround Ht. induction Hres as [| pg p pages ps Hf _ IH]; [constructor |].
    apply Forall_cons_1 in Hpg as [Hpg1 Hpg]. intros [Ev Hv]%Forall_cons_1. constructor; [| by apply IH].
    destruct (Hf p eq_refl) as (events & st & st' & Hok & Hrun).
    destruct (fill_page_ok object key max_ram_cache_size compress_page ram_eligible comp_stats proxy_referer store_fetched
      Hstore events (as_range pg) current_etag h Hpg1 He _ _ _ Hok Hrun) as [_ Hq].
    specialize (Hq _ eq_refl p eq_refl). unfold filled_ok in Hq. rewrite Ev in Hq. exact Hq. }
  destruct (filled_pages results) as [ps |] eqn:Ef.
  2: { exists FallBack. unfold serve_widened_pages. rewrite Ef. split; [done |]. split; [by left |].
       intros ps ->. by rewrite filled_pages_all in Ef. }
  pose proof (filled_pages_Some _ _ Ef) as Eres.
  assert (forall qs, results = inr <$> qs -> qs = ps) as Huniq.
  { intros qs E. rewrite E, filled_pages_all in Ef. congruence. }
  destruct (one_version current_etag content_length cached_etag ps) eqn:Ev.
  - pose proof (serve_pages_exact (object key) original pages ps current_etag content_length cached_etag cached_len
      Hr Haround (Hholds ps Eres Ev) Ev) as Hs. rewrite Eres, Hs.
    destruct (Z.ltb_spec (end_ original) (zlen (object key cached_etag))); eexists; (split; [done |]); split; auto; lia.
  - exists FallBack. split; [| split; [by left |]].
    + unfold serve_widened_pages. rewrite Ef. destruct ps as [| p ps], pages as [| [a b] pages];
        try (by inversion Hres; simplify_eq); try done.
      destruct (negb (one_version _ _ _ _)) eqn:En; [done |]. cbn [orb]. rewrite bool_decide_false; [done |].
      intros ->. by rewrite Ev in En.
    + intros qs E%Huniq. subst. congruence.
Qed.

(** ** A concrete read *)

#[local] Existing Instance sample_codec.
#[local] Existing Instance Ram.sample_platform.
#[local] Existing Instance Ram.sample_iter.
#[local] Existing Instance Comp.stored_only.
#[local] Existing Instance Comp.stored_reader.
#[local] Existing Instance sample_env.
#[local] Existing Instance Comp.stored_reader_laws.

(** S3 with one version of the six bytes. *)
#[local] Instance sample_s3 : S3Client := fun h =>
  match requested_by h with
  | Some r => Ok (mkResponse 206 [("ETag", "v1")] (Some (Ok (sub_list Disk.sample_bytes (start r) (end_ r + 1)))))
  | None => Err (S3Error "not a range request")
  end.

#[local] Instance sample_s3_versions : S3Versions sample_object_bytes "b/k/x".
Proof.
  intros h resp d r Hf _ Hb Hr. unfold forward_request, sample_s3 in Hf. rewrite Hr in Hf.
  injection Hf as <-. simpl in Hb. by injection Hb.
Qed.

Lemma sample_widen_ok : widen_ok sample_object_bytes "b/k/x" sample_manager.
Proof.
  constructor.
  - constructor.
    + intros c [= <-]. apply Ram.new_ok. lia.
    + intros key r rd data _ Hv. exfalso. unfold ram_view in Hv.
      cbn [ram_cache sample_manager mbind option_bind] in Hv. by rewrite Ram.view_new in Hv.
    + intros key etag r frame data ->%sample_listed _ Hf Hd. vm_compute in Hf. injection Hf as <-.
      injection Hd as <-. reflexivity.
  - intros m Hm. cbn [disk sample_manager Disk.sample_disk Disk.metadata_files] in Hm.
    apply lookup_singleton_Some in Hm as [_ <-]. reflexivity.
  - intros r ->%sample_listed. unfold U64_MAX. cbn. lia.
Qed.

(** Bytes 2 to 4 with pages of 4 bytes: two pages, both in the cache. *)
Definition sample_fill (events : list FlightEvent) (page : RangeSpec) (h : Headers) :=
  fill_page 1000 (fun _ _ => false) true (Comp.mkStats 0 0 0 0 0) None (fun _ _ => mret tt)
    events "b/k/x" page (Some "v1") h sample_manager.

Lemma widened_response_faithful_witness :
  serve_widened_pages (mkRange 2 4) [(0, 3); (4, 5)]
    [inr (mkFilled [Byte.x00; Byte.x01; Byte.x02; Byte.x03] "v1" None); inr (mkFilled [Byte.x04; Byte.x05] "v1" None)]
    (Some "v1") (Some 6) "v1" 6 = Ok (Served (mkRange 2 4) 6 [Byte.x02; Byte.x03; Byte.x04]).
Proof.
  destruct (widened_response_faithful sample_object_bytes "b/k/x" 1000 (fun _ _ => false) true
    (Comp.mkStats 0 0 0 0 0) None (fun _ _ => mret tt) 4 (Some 6) "bytes=2-4" [] (Some "v1") "v1" 6 [(0, 3); (4, 5)]
    (mkRange 2 4)
    [inr (mkFilled [Byte.x00; Byte.x01; Byte.x02; Byte.x03] "v1" None); inr (mkFilled [Byte.x04; Byte.x05] "v1" None)])
    as (_ & _ & answer & E & _ & Hall).
  - by intros f _ st st' r Hok [= <- <-].
  - lia.
  - intros size [= <-]. unfold is_u64. lia.
  - done.
  - by intros e [= <-].
  - vm_compute. reflexivity.
  - repeat constructor; intros p [= <-].
    + exists [], sample_manager, (sample_fill [] (mkRange 0 3) []).1. split; [apply sample_widen_ok | vm_compute; reflexivity].
    + exists [], sample_manager, (sample_fill [] (mkRange 4 5) []).1. split; [apply sample_widen_ok | vm_compute; reflexivity].
  - rewrite E. f_equal.
    rewrite (Hall [mkFilled [Byte.x00; Byte.x01; Byte.x02; Byte.x03] "v1" None; mkFilled [Byte.x04; Byte.x05] "v1" None]);
      vm_compute; reflexivity.
Defined.

(** The same page from S3, when the client sends a precondition. *)
Example page_fetched :
  (sample_fill [FlightLost; BecomeFetcher] (mkRange 0 3) [("if-match", "v1")]).2 =
    Ok (Some (mkFilled [Byte.x00; Byte.x01; Byte.x02; Byte.x03] "v1" None)).
Proof. vm_compute. reflexivity. Qed.

(** The same bytes only in a journal, under expired metadata. *)
Definition journal_manager : CacheManager :=
  mkManager true (Some (Ram.new 1000 1 Ram.LRU)) Disk.journal_only_disk (MetaCache.new MetaCache.default_config) 0 50.

(** A page of the journal, whose [Last-Modified] is not known, is promoted to RAM. *)
Lemma page_promoted_without_last_modified :
  let '(st, res) := fill_page 1000 (fun _ _ => false) true (Comp.mkStats 0 0 0 0 0) None (fun _ _ => mret tt)
    [] "b/k/x" (mkRange 0 5) (Some "v1") [] journal_manager in
  res = Ok (Some (mkFilled Disk.sample_bytes "v1" None)) /\
  r_last_modified (journal_range "v1" sample_stored_range) = "" /\
  is_Some (ram_view st (ram_key "b/k/x" (page_as_range (mkRange 0 5) "v1"))).
Proof. vm_compute. split; [reflexivity |]. split; [reflexivity | eexists; reflexivity]. Qed.

End Widen.
