(* ===== verification/Multipart.v ===== *)
(** * Completing a multipart upload ([signed_put_handler.rs], [cache_types.rs])

    The text of the requests and responses, the per-part records and the tracker
    assembled from them, and [finalize_multipart_upload], which turns the parts of a
    completed upload into the ranges of the object: the guards, the offsets, the moves
    into the range directory and the publication of the metadata.  What other requests
    wrote before the lock was taken is the state the function starts from; the locks,
    the file system and the invalidation of the old object are answers of the
    environment. *)

From S2P Require Import Prelude CacheTypes Ranges RangeMerge Maps DiskPaths DiskRanges RangeWriter Globs HttpHeaders.
From S2P Require Import Dispatch RustStr.

#[local] Open Scope Z_scope.
#[local] Arguments String.append : simpl nomatch.

Module Multipart.

(** ** Text *)

(** [trim_matches] of the double quote. *)
Fixpoint drop_quotes (s : string) : string :=
  match s with
  | String a s' => if ascii_eqb a Http.quote then drop_quotes s' else s
  | EmptyString => ""
  end.

Definition trim_quotes (s : string) : string := string_rev (drop_quotes (string_rev (drop_quotes s))).

Definition normalize_etag (etag : string) : string := trim_quotes etag.

Definition s3_wire_etag (etag : string) : string :=
  Http.quote_str +:+ trim_quotes (str_trim etag) +:+ Http.quote_str.

(** [str::split] with a string: the fuel is the length of the text. *)
Fixpoint split_str (fuel : nat) (pat s : string) : list string :=
  match fuel, find_str pat s with
  | S fuel, Some i => string_take i s :: split_str fuel pat (string_drop (i + String.length pat) s)
  | _, _ => [s]
  end.

Record RequestedPart := mkRequested { rp_number : Z; rp_etag : string }.

(** The value between the first opening and the first closing tag. *)
Definition extract_xml_value (xml tag : string) : Result string :=
  let start_tag := "<" +:+ tag +:+ ">" in
  let end_tag := "</" +:+ tag +:+ ">" in
  match find_str start_tag xml, find_str end_tag xml with
  | None, _ => Err (InvalidRequest ("Missing <" +:+ tag +:+ "> tag"))
  | _, None => Err (InvalidRequest ("Missing </" +:+ tag +:+ "> tag"))
  | Some i, Some end_ =>
      let start := (i + String.length start_tag)%nat in
      if (end_ <? start)%nat then Panic
      else Ok (str_trim (string_take (end_ - start) (string_drop start xml)))
  end.

Fixpoint parse_parts (segments : list string) : Result (list RequestedPart) :=
  match segments with
  | [] => Ok []
  | part_match :: rest =>
      match find_str "</Part>" part_match with
      | Some end_idx =>
          let part_xml := string_take end_idx part_match in
          number ← extract_xml_value part_xml "PartNumber";
          match parse_u32 number with
          | None => Err (InvalidRequest "Invalid PartNumber value")
          | Some part_number =>
              etag ← extract_xml_value part_xml "ETag";
              parts ← parse_parts rest;
              Ok (mkRequested part_number etag :: parts)
          end
      | None => parse_parts rest
      end
  end.

Definition parse_complete_mpu_request (body : string) : Result (list RequestedPart) :=
  if is_empty_str body then Ok []
  else if negb (valid_utf8 body) then Err (InvalidRequest "Invalid UTF-8 in request body")
  else parse_parts (tail (split_str (String.length body) "<Part>" body)).

(** A byte position of a string slice: a panic past the end or inside a character. *)
Definition slice_at {E} (s : string) (i : nat) : outcome E (string * string) :=
  if (i <=? String.length s)%nat && at_boundary (string_drop i s)
  then Ok (string_take i s, string_drop i s) else Panic.

Section Response.
(** [str::to_lowercase]. *)
Variable lower : string -> string.

Definition extract_etag_from_xml (xml : string) : outcome unit string :=
  let not_found := if (500 <? String.length xml)%nat then _ ← slice_at xml 500; Ok "" else Ok "" in
  match find_str "<etag>" (lower xml) with
  | Some start_pos =>
      '(_, after_tag) ← slice_at xml (start_pos + 6);
      match find_str "</etag>" (lower after_tag) with
      | Some end_pos =>
          '(etag, _) ← slice_at after_tag end_pos;
          Ok (trim_quotes (str_trim etag))
      | None => not_found
      end
  | None => not_found
  end.

End Response.

(** ** The tracker *)

Record CachedPartInfo := mkPart {
  cp_number : Z;
  cp_size : Z;
  cp_etag : string;
  cp_algorithm : CompressionAlgorithm;
}.

Record MultipartUploadTracker := mkTracker {
  t_upload_id : string;
  t_cache_key : string;
  t_started_at : Z;
  t_parts : list CachedPartInfo;
  t_total_size : Z;
  t_content_type : option string;
}.

Definition tracker_new (now : Z) (upload_id cache_key : string) : MultipartUploadTracker :=
  mkTracker upload_id cache_key now [] 0 None.

(** [*existing = part_info], and the size it had. *)
Fixpoint replace_part (info : CachedPartInfo) (parts : list CachedPartInfo) : option (list CachedPartInfo * Z) :=
  match parts with
  | [] => None
  | p :: rest =>
      if cp_number p =? cp_number info then Some (info :: rest, cp_size p)
      else '(rest, size) ← replace_part info rest; Some (p :: rest, size)
  end.

Definition add_part (info : CachedPartInfo) (t : MultipartUploadTracker) : MultipartUploadTracker :=
  let total := u64_add (t_total_size t) (cp_size info) in
  let '(parts, total) := match replace_part info (t_parts t) with
                         | Some (parts, old) => (parts, u64_sub total old)
                         | None => (t_parts t ++ [info], total)
                         end in
  mkTracker (t_upload_id t) (t_cache_key t) (t_started_at t) parts total (t_content_type t).

Definition get_sorted_parts (t : MultipartUploadTracker) : list CachedPartInfo := sort_by_key cp_number (t_parts t).

(** The upload's directory: [upload.meta] when it parses, the part records (an unreadable
    one is [None]) and the part files. *)
Record Upload := mkUpload {
  u_meta : option MultipartUploadTracker;
  u_records : gmap Z (option CachedPartInfo);
  u_bins : gmap Z bytes;
}.

(** What the environment answers.  [e_order] is the order the part records are listed in,
    [e_rmdir] what [remove_dir_all] leaves of a directory. *)
Record Env := mkEnv {
  e_now : Z;
  e_order : list Z;
  e_upload_lock : bool;
  e_publication_lock : option bool;
  e_invalidate : Disk.Disk -> Disk.Disk;
  e_unlink_part : Z -> bool;
  e_mkdir : string -> bool;
  e_rename : string -> bool;
  e_stat : string -> bool;
  e_old_readable : bool;
  e_unlink_range : string -> bool;
  e_write_metadata : bool;
  e_rmdir : Upload -> option Upload;
}.

Definition load_records (u : Upload) (order : list Z) (t : MultipartUploadTracker) : MultipartUploadTracker :=
  foldl (fun t n => match u_records u !! n with Some (Some info) => add_part info t | _ => t end) t order.

Definition load_tracker_blocking (env : Env) (u : Upload) (upload_id cache_key : string) : MultipartUploadTracker :=
  let t := match u_meta u with Some t => t | None => tracker_new (e_now env) upload_id cache_key end in
  load_records u (e_order env)
    (mkTracker (t_upload_id t) (t_cache_key t) (t_started_at t) [] 0 (t_content_type t)).

(** ** Recording one part *)

(** [finalize_and_record_cached_part] under the part's lock: the file is published, then
    its record written; [published] and [recorded] tell which steps succeed. *)
Definition finalize_and_record_cached_part (published recorded : bool) (part_number : Z) (etag : string)
    (frame : bytes) (size : Z) (algorithm : CompressionAlgorithm) (u : Upload) : Upload * Result Z :=
  if negb published then (u, Err (CacheError "Failed to publish part file")) else
  let u := mkUpload (u_meta u) (u_records u) (<[part_number := frame]> (u_bins u)) in
  if negb recorded then (u, Err (CacheError "Failed to write part record")) else
  (mkUpload (u_meta u) (<[part_number := Some (mkPart part_number size etag algorithm)]> (u_records u)) (u_bins u),
   Ok size).

(** ** Finalization *)

Record State := mkState {
  upload : option Upload;
  disk : Disk.Disk;
  (** The ranges handed to [write_multipart_journal_entries]. *)
  journalled : list NewRangeSpec;
}.

Inductive Skip :=
  | NoDirectory | NoParts | PartsNotRecorded | PartsMissing | EtagMismatch | LockUnavailable | CountDisagrees.

Inductive Finalized := Skipped (why : Skip) | Cached.

(** [cleanup_incomplete_multipart_cache]. *)
Definition cleanup_incomplete_multipart_cache (env : Env) (st : State) : State :=
  mkState (upload st ≫= e_rmdir env) (disk st) (journalled st).

Fixpoint byte_offsets (current_offset : Z) (parts : list CachedPartInfo) : list (Z * Z * Z) :=
  match parts with
  | [] => []
  | part :: rest =>
      (cp_number part, current_offset, u64_sub (u64_add current_offset (cp_size part)) 1)
        :: byte_offsets (u64_add current_offset (cp_size part)) rest
  end.

Definition calculate_byte_offsets (t : MultipartUploadTracker) : list (Z * Z * Z) := byte_offsets 0 (get_sorted_parts t).

Section Finalize.
Context `{PathCodec}.

(** The path of a part's range file below [ranges]. *)
Definition part_range_path (key etag : string) (start end_ : Z) : Result string :=
  let suffix := "_" +:+ u64_to_string start +:+ "-" +:+ u64_to_string end_ +:+ "."
                  +:+ object_version_id etag +:+ ".bin" in
  path ← get_sharded_path "ranges" key suffix;
  match strip_prefix "ranges/" path with
  | Some relative => Ok relative
  | None => Err (CacheError "Failed to compute relative path for part")
  end.

Definition with_files (d : Disk.Disk) (files : gmap string Disk.file) : Disk.Disk :=
  Disk.mkDisk (Disk.shared_storage_mode d) (Disk.journals_dir_exists d) (Disk.metadata_files d) (Disk.journals d) files.

(** One turn of the loop that moves the parts. *)
Definition move_part (env : Env) (key etag : string) (sorted : list CachedPartInfo) (offset : Z * Z * Z)
    : stM (Upload * Disk.Disk) ProxyError NewRangeSpec := fun s =>
  let '(u, d) := s in
  let '(part_number, start, end_) := offset in
  match List.find (fun p => cp_number p =? part_number) sorted with
  | None => (s, Err (CacheError "Part not found in tracker"))
  | Some part_info =>
      match part_range_path key etag start end_ with
      | Err e => (s, Err e)
      | Panic => (s, Panic)
      | Ok path =>
          if negb (e_mkdir env path) then (s, Err (CacheError "Failed to create parent directories for range file")) else
          match (match u_bins u !! part_number with
                 | Some frame =>
                     if e_rename env path
                     then Some (mkUpload (u_meta u) (u_records u) (delete part_number (u_bins u)),
                                with_files d (<[path := Disk.Readable frame]> (Disk.range_files d)))
                     else None
                 | None => Some s
                 end) with
          | None => (s, Err (CacheError "Failed to move part file to range file"))
          | Some (u, d) =>
              let compressed_size :=
                match Disk.range_files d !! path with
                | Some (Disk.Readable frame) => if e_stat env path then zlen frame else cp_size part_info
                | _ => cp_size part_info
                end in
              ((u, d), Ok (NewRangeSpec_new (e_now env) start end_ path (cp_algorithm part_info) compressed_size
                             (cp_size part_info)))
          end
      end
  end.

Fixpoint move_parts (env : Env) (key etag : string) (sorted : list CachedPartInfo) (offsets : list (Z * Z * Z))
    : stM (Upload * Disk.Disk) ProxyError (list NewRangeSpec) :=
  match offsets with
  | [] => mret []
  | o :: rest =>
      spec ← move_part env key etag sorted o;
      specs ← move_parts env key etag sorted rest;
      mret (spec :: specs)
  end.

(** The part count S3 put into the ETag, when it has one. *)
Definition etag_part_count (etag : string) : option Z :=
  '(_, count) ← rsplit_once "-" (trim_quotes etag);
  parse_u64 count.

Definition WRITE_TTL : Z := 86400 * NANOS_PER_SEC.

Definition set_staged (is_write_cached : bool) (r : NewRangeSpec) : NewRangeSpec :=
  RWriter.with_staged (classify_new_range_as_staged (nr_file_path r) is_write_cached) r.

(** The metadata of the completed object. *)
Definition object_metadata_of (env : Env) (etag : string) (response_headers : gmap string string)
    (content_type : option string) (sorted : list CachedPartInfo) (offsets : list (Z * Z * Z))
    (specs : list NewRangeSpec) : ObjectMetadata :=
  let total_size := foldr (fun p acc => u64_add (cp_size p) acc) 0 sorted in
  {| om_etag := etag;
     om_last_modified :=
       default "" (match response_headers !! "last-modified" with
                   | Some v => Some v
                   | None => response_headers !! "Last-Modified"
                   end);
     om_content_length := total_size; om_content_type := content_type;
     om_response_headers :=
       filter (fun kv : string * string => to_lowercase kv.1 <> "content-type" /\ to_lowercase kv.1 <> "content-length")
         response_headers;
     om_upload_state := Complete; om_cumulative_size := total_size; om_parts := [];
     om_compression_algorithm := Lz4;
     om_compressed_size := foldr (fun r acc => u64_add (nr_compressed_size r) acc) 0 specs;
     om_parts_count := Some (zlen sorted mod 2 ^ 32);
     om_part_ranges := list_to_map (rev (map (fun '(n, s, e) => (n, (s, e))) offsets));
     om_upload_id := None; om_is_write_cached := true;
     om_write_cache_expires_at := Some (e_now env + WRITE_TTL);
     om_write_cache_created_at := Some (e_now env);
     om_write_cache_last_accessed := Some (e_now env);
     om_graduation_accounted := false |}.

(** The range files of the metadata that is about to be replaced. *)
Definition remove_old_ranges (env : Env) (path : string) (d : Disk.Disk) : Disk.Disk :=
  match Disk.metadata_files d !! path with
  | Some old =>
      if e_old_readable env
      then with_files d (foldl (fun files r => if e_unlink_range env (nr_file_path r) then delete (nr_file_path r) files
                                               else files) (Disk.range_files d) (cm_ranges old))
      else d
  | None => d
  end.

Definition set_metadata (d : Disk.Disk) (path : string) (m : NewCacheMetadata) : Disk.Disk :=
  Disk.mkDisk (Disk.shared_storage_mode d) (Disk.journals_dir_exists d) (<[path := m]> (Disk.metadata_files d))
    (Disk.journals d) (Disk.range_files d).

(** From the moved parts to the published object. *)
Definition publish (env : Env) (key etag : string) (response_headers : gmap string string) (content_type : option string)
    (sorted : list CachedPartInfo) (offsets : list (Z * Z * Z)) (specs : list NewRangeSpec) (st : State)
    : State * Result Finalized :=
  if match etag_part_count etag with Some n => negb (n =? zlen sorted) | None => false end
  then (st, Ok (Skipped CountDisagrees)) else
  let om := object_metadata_of env etag response_headers content_type sorted offsets specs in
  let specs := map (set_staged (om_is_write_cached om)) specs in
  match get_sharded_path "metadata" key ".meta" with
  | Err e => (st, Err e)
  | Panic => (st, Panic)
  | Ok path =>
      let d := remove_old_ranges env path (disk st) in
      if negb (e_write_metadata env) then (mkState (upload st) d (journalled st), Err (CacheError "Failed to write metadata file"))
      else
        let m := mkNewCacheMetadata key om specs (e_now env) (e_now env + WRITE_TTL)
                   (mkCompressionInfo Lz4 None None None) None None 0 None in
        (mkState (upload st ≫= e_rmdir env) (set_metadata d path m)
           (match e_publication_lock env with Some _ => journalled st ++ specs | None => journalled st end), Ok Cached)
  end.

Definition requested_numbers (requested : list RequestedPart) : list Z := rp_number <$> requested.

(** The requested part agrees with the cached one, when there is one. *)
Definition etag_agrees (sorted : list CachedPartInfo) (p : RequestedPart) : bool :=
  match List.find (fun c => cp_number c =? rp_number p) sorted with
  | Some c => bool_decide (normalize_etag (rp_etag p) = normalize_etag (cp_etag c))
  | None => true
  end.

(** The files of the parts the request does not name. *)
Definition remove_unreferenced (env : Env) (t : MultipartUploadTracker) (numbers : list Z) (u : Upload) : Upload :=
  mkUpload (u_meta u) (u_records u)
    (foldl (fun bins p => if bool_decide (cp_number p ∈ numbers) then bins
                          else if e_unlink_part env (cp_number p) then delete (cp_number p) bins else bins)
       (u_bins u) (t_parts t)).

Definition finalize_multipart_upload (env : Env) (key upload_id etag : string) (response_headers : gmap string string)
    (requested : list RequestedPart) (st : State) : State * Result Finalized :=
  let etag := s3_wire_etag etag in
  match upload st with
  | None => (st, Ok (Skipped NoDirectory))
  | Some u =>
      if negb (e_upload_lock env) then (st, Err (CacheError "Failed to acquire lock for upload.meta")) else
      let tracker := load_tracker_blocking env u upload_id key in
      if bool_decide (t_parts tracker = []) then (cleanup_incomplete_multipart_cache env st, Ok (Skipped NoParts)) else
      let numbers := requested_numbers requested in
      let sorted := base.filter (fun p => cp_number p ∈ numbers) (get_sorted_parts tracker) in
      if negb (forallb (fun n => bool_decide (n ∈ cp_number <$> t_parts tracker)) numbers)
      then (st, Ok (Skipped PartsNotRecorded))
      else if negb (forallb (fun p => bool_decide (is_Some (u_bins u !! cp_number p))) sorted)
      then (cleanup_incomplete_multipart_cache env st, Ok (Skipped PartsMissing))
      else if negb (forallb (etag_agrees sorted) requested)
      then (cleanup_incomplete_multipart_cache env st, Ok (Skipped EtagMismatch))
      else
      let u := remove_unreferenced env tracker numbers u in
      let offsets := byte_offsets 0 sorted in
      let st := mkState (Some u) (disk st) (journalled st) in
      match e_publication_lock env with
      | Some false => (cleanup_incomplete_multipart_cache env st, Ok (Skipped LockUnavailable))
      | lock =>
          let d := match lock with Some _ => e_invalidate env (disk st) | None => disk st end in
          match move_parts env key etag sorted offsets (u, d) with
          | ((u, d), Ok specs) =>
              publish env key etag response_headers (t_content_type tracker) sorted offsets specs
                (mkState (Some u) d (journalled st))
          | ((u, d), Err e) => (mkState (Some u) d (journalled st), Err e)
          | ((u, d), Panic) => (mkState (Some u) d (journalled st), Panic)
          end
      end
  end.

(** What follows an answer of S3: nothing is finalized unless the request's body parsed. *)
Definition after_complete (lower : string -> string) (env : Env) (key upload_id request_body response_body : string)
    (response_headers : gmap string string) (success : bool) (st : State) : State * Result (option Finalized) :=
  match parse_complete_mpu_request request_body with
  | Panic => (st, Panic)
  | parsed =>
      if negb success then (st, Ok None) else
      match extract_etag_from_xml lower response_body with
      | Ok etag =>
          match parsed with
          | Ok parts =>
              match finalize_multipart_upload env key upload_id etag response_headers parts st with
              | (st, Ok f) => (st, Ok (Some f))
              | (st, Err _) => (st, Ok None)
              | (st, Panic) => (st, Panic)
              end
          | _ => (st, Ok None)
          end
      | _ => (st, Panic)
      end
  end.

End Finalize.

(** ** The parts of an upload *)




Section Tracker.
Context (u : Upload) (own : forall n info, u_records u !! n = Some (Some info) -> cp_number info = n).





End Tracker.

(** ** Offsets *)

Definition total_size (parts : list CachedPartInfo) : Z := foldr (fun p acc => cp_size p + acc) 0 parts.

Fixpoint exact_offsets (off : Z) (parts : list CachedPartInfo) : list (Z * Z * Z) :=
  match parts with
  | [] => []
  | p :: rest => (cp_number p, off, off + cp_size p - 1) :: exact_offsets (off + cp_size p) rest
  end.




Lemma exact_offsets_start off parts o :
  Forall (fun p => 0 < cp_size p) parts -> o ∈ exact_offsets off parts -> off <= o.1.2 <= o.2.
Proof.
  intros Hp. revert off. induction Hp as [| p parts Hp Hps IH]; intros off; [by intros ?%elem_of_nil |]. cbn.
  intros [-> | Ho]%elem_of_cons; [cbn; lia |]. apply IH in Ho. lia.
Qed.

(** ** The files of the parts *)

Section Paths.
Context `{PathCodecSpec}.



(** ** The moves *)








(** ** The ranges of the object *)








End Paths.

(** ** The parts the request names *)




(** ** Publication *)

Section Publication.
Context `{PathCodecSpec} `{FrameCodec}.

(** The object's disk when the moves begin. *)
Definition disk_before (env : Env) (st : State) : Disk.Disk :=
  match e_publication_lock env with Some _ => e_invalidate env (disk st) | None => disk st end.













End Publication.

Lemma move_part_metadata `{PathCodec} env key etag sorted o u d u' d' r :
  move_part env key etag sorted o (u, d) = ((u', d'), r) -> Disk.metadata_files d' = Disk.metadata_files d.
Proof.
  destruct o as [[n s] e]. unfold move_part. destruct (List.find _ sorted); [| by intros [= <- <- <-]].
  destruct (part_range_path key etag s e); [| by intros [= <- <- <-].. ]. destruct (negb _); [by intros [= <- <- <-] |].
  destruct (u_bins u !! n); [destruct (e_rename _ _) |]; by intros [= <- <- <-].
Qed.

Lemma move_parts_metadata `{PathCodec} env key etag sorted os : forall u d u' d' r,
  move_parts env key etag sorted os (u, d) = ((u', d'), r) -> Disk.metadata_files d' = Disk.metadata_files d.
Proof.
  induction os as [| o os IH]; intros u d u' d' r; cbn [move_parts]; [by intros [= <- <- <-] |].
  unfold mbind, stM_bind. destruct (move_part env key etag sorted o (u, d)) as [[u1 d1] [spec | |]] eqn:E1;
    apply move_part_metadata in E1; [| by intros [= <- <- <-].. ].
  destruct (move_parts env key etag sorted os (u1, d1)) as [[u2 d2] [specs | |]] eqn:E2; apply IH in E2;
    intros [= <- <- <-]; congruence.
Qed.

(** Unless it publishes, a completion leaves every record as the invalidation left it. *)
Lemma unpublished_changes_no_record `{PathCodec} env key upload_id etag headers requested st st' result :
  finalize_multipart_upload env key upload_id etag headers requested st = (st', result) -> result <> Ok Cached ->
  Disk.metadata_files (disk st') = Disk.metadata_files (disk st) \/
  Disk.metadata_files (disk st') = Disk.metadata_files (disk_before env st).
Proof.
  unfold finalize_multipart_upload. intros E Hr. revert E.
  destruct (upload st) as [u |] eqn:Hu; [| intros [= <- <-]; by left]. cbn zeta. unfold disk_before.
  destruct (negb (e_upload_lock env)); [intros [= <- <-]; by left |].
  case_bool_decide; [intros [= <- <-]; by left |].
  do 3 (destruct (negb _); [intros [= <- <-]; by left |]).
  set (before := match e_publication_lock env with Some _ => e_invalidate env (disk st) | None => disk st end).
  assert (forall u sorted offsets (headers : gmap string string) ct, match move_parts env key (s3_wire_etag etag) sorted offsets (u, before) with
     | ((u, d), Ok specs) => publish env key (s3_wire_etag etag) headers ct sorted offsets specs (mkState (Some u) d (journalled st))
     | ((u, d), Err e) => (mkState (Some u) d (journalled st), Err e)
     | ((u, d), Panic) => (mkState (Some u) d (journalled st), Panic)
     end = (st', result) -> Disk.metadata_files (disk st') = Disk.metadata_files before) as Hmove.
  { intros u0 sorted offsets hs ct. destruct (move_parts _ _ _ _ _ _) as [[u1 d1] [specs | |]] eqn:Em;
      apply move_parts_metadata in Em; [| by intros [= <- <-].. ]. unfold publish.
    destruct (match etag_part_count _ with Some n => _ | None => _ end); [by intros [= <- <-] |]. cbn zeta.
    destruct (get_sharded_path _ _ _); [| by intros [= <- <-].. ].
    destruct (e_write_metadata env); cbn [negb]; [by intros [= <- <-] |]. intros [= <- <-]. rewrite <- Em.
    cbn. unfold remove_old_ranges. destruct (Disk.metadata_files d1 !! _); [| done]. by destruct (e_old_readable env). }
  destruct (e_publication_lock env) as [[] |]; [| by intros [= <- <-]; left |]; intros E; right; by eapply Hmove.
Qed.

(** ** Samples *)

#[local] Existing Instance sample_codec.
#[local] Existing Instance sample_codec_spec.
#[local] Existing Instance Disk.stored_frames.

Definition sample_data (n : Z) : bytes :=
  if n =? 1 then [Byte.x00; Byte.x01; Byte.x02] else if n =? 2 then [Byte.x03; Byte.x04] else [Byte.xff].

Definition sample_part (n : Z) (etag : string) : CachedPartInfo := mkPart n (zlen (sample_data n)) etag Lz4.

(** Three parts, of which the request names the first two. *)
Definition sample_upload : Upload :=
  mkUpload None
    (<[1 := Some (sample_part 1 "e1")]> (<[2 := Some (sample_part 2 "e2")]> {[3 := Some (sample_part 3 "e3")]}))
    (<[1 := sample_data 1]> (<[2 := sample_data 2]> {[3 := sample_data 3]})).

Definition sample_env : Env :=
  {| e_now := 100; e_order := [3; 1; 2]; e_upload_lock := true; e_publication_lock := Some true;
     e_invalidate d := d; e_unlink_part _ := true; e_mkdir _ := true; e_rename _ := true; e_stat _ := true;
     e_old_readable := true; e_unlink_range _ := true; e_write_metadata := true; e_rmdir _ := None |}.

Definition empty_disk : Disk.Disk := Disk.mkDisk true true ∅ [] ∅.

Definition sample_state : State := mkState (Some sample_upload) empty_disk [].

Definition sample_request : list RequestedPart :=
  [mkRequested 1 (Http.quote_str +:+ "e1" +:+ Http.quote_str); mkRequested 2 "e2"].

Definition sample_finalized : State * Result Finalized :=
  finalize_multipart_upload sample_env "b/k" "u" "abc-2" ∅ sample_request sample_state.


(** ** What the text functions miss *)

(** A closing tag before the opening one is a slice whose end precedes its start. *)
Lemma extract_xml_panics : parse_complete_mpu_request "<Part></PartNumber><PartNumber>1</Part>" = Panic.
Proof. vm_compute. reflexivity. Qed.

Definition bare_lower (s : string) : string := to_lowercase s.

(** An answer that is an error with status 200 has no ETag, and the parts are published
    under an empty one. *)
Lemma error_body_published :
  exists m, Disk.metadata_files (disk (after_complete bare_lower sample_env "b/k" "u"
      "<CompleteMultipartUpload><Part><PartNumber>1</PartNumber><ETag>e1</ETag></Part></CompleteMultipartUpload>"
      "<Error><Code>InternalError</Code></Error>" ∅ true sample_state).1) !! get_new_metadata_file_path "b/k" = Some m /\
    om_etag (cm_object_metadata m) = (Http.quote_str +:+ Http.quote_str)%string.
Proof. eexists. split; vm_compute; reflexivity. Qed.

(** Quotes written as entities stay in the ETag, which then has no part count. *)
Lemma entity_quotes_kept :
  extract_etag_from_xml bare_lower "<ETag>&quot;abc-3&quot;</ETag>" = Ok "&quot;abc-3&quot;" /\
  etag_part_count (s3_wire_etag "&quot;abc-3&quot;") = None /\
  (finalize_multipart_upload sample_env "b/k" "u" "&quot;abc-3&quot;" ∅ sample_request sample_state).2 = Ok Cached.
Proof. split_and!; vm_compute; reflexivity. Qed.

(** The count is compared after the moves: a disagreement leaves the files of the parts in the
    range directory, named by no record. *)
Lemma count_mismatch_orphans :
  let '(st', result) := finalize_multipart_upload sample_env "b/k" "u" "abc-3" ∅ sample_request sample_state in
  result = Ok (Skipped CountDisagrees) /\ Disk.metadata_files (disk st') = ∅ /\ size (Disk.range_files (disk st')) = 2%nat.
Proof. vm_compute. done. Qed.

(** An empty part's last byte is before its first one, and at the start of the object wraps. *)
Lemma empty_part_wraps : byte_offsets 0 [mkPart 1 0 "e" Lz4] = [(1, 0, 2 ^ 64 - 1)].
Proof. reflexivity. Qed.

(** A record of the same version that survived the invalidation names the files the moves
    have just written: they are deleted, and the object is published without them. *)
Lemma same_version_files_deleted :
  let st1 := sample_finalized.1 in
  let st := mkState (Some sample_upload) (disk st1) [] in
  let '(st2, result) := finalize_multipart_upload sample_env "b/k" "u" "abc-2" ∅ sample_request st in
  result = Ok Cached /\ Disk.range_files (disk st2) = ∅ /\
  is_Some (Disk.metadata_files (disk st2) !! get_new_metadata_file_path "b/k").
Proof. vm_compute. split_and!; [done | done | by eexists]. Qed.

(** A key whose encoding has 200 bytes is not hashed, though the range and the version then
    make a name no file system of 255 bytes accepts. *)
Lemma long_part_name :
  let key := String.concat "" (replicate 200 "k") in
  exists path dir name, part_range_path ("b/" +:+ key) "v1" 0 4 = Ok path /\ rsplit_once "/" path = Some (dir, name) /\
    String.length name = 273%nat.
Proof. eexists _, _, _. split_and!; vm_compute; reflexivity. Qed.

(** Lower-casing that shortens the text, as that of U+212A does, moves the place of the ETag. *)
Definition kelvin : string := String "226" (String "132" (String "170" "")).

Fixpoint kelvin_lower (s : string) : string :=
  match s with
  | String a (String b (String c s') as t) =>
      if bool_decide (String a (String b (String c "")) = kelvin) then String "k" (kelvin_lower s')
      else String (ascii_to_lower a) (kelvin_lower t)
  | String a t => String (ascii_to_lower a) (kelvin_lower t)
  | EmptyString => ""
  end.

Lemma lowercase_moves_etag :
  extract_etag_from_xml kelvin_lower ("<Key>" +:+ kelvin +:+ "</Key><ETag>abc-2</ETag>") = Ok "g>abc-2".
Proof. vm_compute. reflexivity. Qed.

(** A failure between the two writes leaves the new bytes under the record of the old ones. *)
Lemma record_failure_disagrees :
  let '(u, _) := finalize_and_record_cached_part true false 1 "e9" (sample_data 2) 2 Lz4 sample_upload in
  u_bins u !! 1 = Some (sample_data 2) /\ u_records u !! 1 = Some (Some (sample_part 1 "e1")).
Proof. vm_compute. done. Qed.


End Multipart.
