(* ===== verification/StreamMiss.v ===== *)
(** * A miss served and cached at once ([tee_stream.rs], [http_proxy.rs])

    [TeeStream] hands each data frame of the upstream body to the client and, through a
    bounded channel, to the task that caches it.  The channel, the task that receives from
    it and the client take steps of their own; the system of the three is a step relation.
    The task is [cache_streamed_range] of the range writer. *)

From S2P Require Import Prelude CacheTypes Ranges RangeMerge Maps MetadataCache DiskPaths DiskRanges Frames.
From S2P Require Import CacheTier SizeAccounting Storage DiskStore RangeWriter HttpHeaders RustStr.
From stdpp Require Import gmap strings.

#[local] Open Scope Z_scope.

Module Tee.

(** ** The channel ([tokio::sync::mpsc] of the tee) *)

Record Channel := mkChannel { queue : list bytes; capacity : nat; rx_open : bool }.

Inductive send_result := Sent | Full | Closed.

(** [try_send], and what a poll of [send] finds. *)
Definition try_send (b : bytes) (c : Channel) : Channel * send_result :=
  if negb (rx_open c) then (c, Closed)
  else if (capacity c <=? length (queue c))%nat then (c, Full)
  else (mkChannel (queue c ++ [b]) (capacity c) true, Sent).

(** ** The stream *)

Inductive frame := Data (b : bytes) | NonData.

(** What a poll of the upstream body answers. *)
Inductive upstream := UFrame (f : frame) | UError (error : string) | UEnd | UPending.

Inductive poll := Ready (item : option (string + frame)) | Pending.

(** [idle_sleep] is the instant it fires. *)
Record TeeStream := mkTee {
  bytes_sent : Z;
  pending_send : option bytes;
  backpressure_wait : Z;
  backpressure_start : option Z;
  backpressure_events : Z;
  channel_closed : bool;
  idle_timeout : option Z;
  idle_sleep : option Z;
  idle_aborted : bool;
}.

Definition with_idle_timeout (now timeout : Z) : TeeStream :=
  mkTee 0 None 0 None 0 false (Some timeout) (Some (now + timeout)) false.

Definition reset_idle (now : Z) (t : TeeStream) : TeeStream :=
  mkTee (bytes_sent t) (pending_send t) (backpressure_wait t) (backpressure_start t) (backpressure_events t)
    (channel_closed t) (idle_timeout t)
    (match idle_timeout t with Some timeout => Some (now + timeout) | None => idle_sleep t end) (idle_aborted t).

(** A send that is over: the wait is counted, and a closed channel is remembered. *)
Definition end_send (now : Z) (closed : bool) (t : TeeStream) : TeeStream :=
  mkTee (bytes_sent t) None
    (match backpressure_start t with Some start => backpressure_wait t + (now - start) | None => backpressure_wait t end)
    None (backpressure_events t) (channel_closed t || closed) (idle_timeout t) (idle_sleep t) (idle_aborted t).

Definition begin_send (now : Z) (b : bytes) (t : TeeStream) : TeeStream :=
  mkTee (bytes_sent t) (Some b) (backpressure_wait t) (Some now) (backpressure_events t + 1) (channel_closed t)
    (idle_timeout t) (idle_sleep t) (idle_aborted t).

Definition set_closed (t : TeeStream) : TeeStream :=
  mkTee (bytes_sent t) (pending_send t) (backpressure_wait t) (backpressure_start t) (backpressure_events t) true
    (idle_timeout t) (idle_sleep t) (idle_aborted t).

Definition set_aborted (t : TeeStream) : TeeStream :=
  mkTee (bytes_sent t) (pending_send t) (backpressure_wait t) (backpressure_start t) (backpressure_events t)
    (channel_closed t) (idle_timeout t) (idle_sleep t) true.

Definition count_bytes (n : Z) (t : TeeStream) : TeeStream :=
  mkTee (u64_add (bytes_sent t) n) (pending_send t) (backpressure_wait t) (backpressure_start t) (backpressure_events t)
    (channel_closed t) (idle_timeout t) (idle_sleep t) (idle_aborted t).

Definition deliver (b : bytes) : poll := Ready (Some (inr (Data b))).

(** A data frame from upstream. *)
Definition tee_data (now : Z) (b : bytes) (c : Channel) (t : TeeStream) : Channel * TeeStream * poll :=
  let t := count_bytes (zlen b) t in
  if channel_closed t then (c, t, deliver b) else
  match try_send b c with
  | (c, Sent) => (c, t, deliver b)
  | (c, Full) =>
      let t := begin_send now b t in
      match try_send b c with
      | (c, Sent) => (c, end_send now false t, deliver b)
      | (c, Closed) => (c, end_send now true t, deliver b)
      | (c, Full) => (c, t, Pending)
      end
  | (c, Closed) => (c, set_closed t, deliver b)
  end.

(** [poll_next]: the answers of upstream that are left, and the outcome. *)
Definition poll_next (now : Z) (us : list upstream) (c : Channel) (t : TeeStream)
    : list upstream * Channel * TeeStream * poll :=
  match pending_send t with
  | Some b =>
      match try_send b c with
      | (c, Sent) => (us, c, reset_idle now (end_send now false t), deliver b)
      | (c, Closed) => (us, c, reset_idle now (end_send now true t), deliver b)
      | (c, Full) => (us, c, t, Pending)
      end
  | None =>
      if match idle_sleep t with Some fires => fires <=? now | None => false end
      then (us, c, set_aborted t, Ready None)
      else
        match us with
        | UFrame f :: us =>
            let t := reset_idle now t in
            match f with
            | Data b => let '(c, t, p) := tee_data now b c t in (us, c, t, p)
            | NonData => (us, c, t, Ready (Some (inr NonData)))
            end
        | UError e :: us => (us, c, t, Ready (Some (inl e)))
        | UEnd :: us => (us, c, t, Ready None)
        | UPending :: us => (us, c, t, Pending)
        | [] => ([], c, t, Ready None)
        end
  end.

(** ** The system *)

Record System := mkSystem {
  s_upstream : list upstream;
  s_channel : Channel;
  s_tee : TeeStream;
  s_client : list (string + frame);
  s_received : list bytes;
  s_over : bool;
}.

Definition start_system (now timeout : Z) (cap : nat) (us : list upstream) : System :=
  mkSystem us (mkChannel [] cap true) (with_idle_timeout now timeout) [] [] false.

(** The client's connection polls the stream or goes away; the task receives a chunk, or
    gives up and drops the receiver. *)
Inductive step : System -> System -> Prop :=
  | StepPoll now us c t client received us' c' t' p :
      poll_next now us c t = (us', c', t', p) ->
      step (mkSystem us c t client received false)
           (mkSystem us' c' t' (match p with Ready (Some item) => client ++ [item] | _ => client end) received
              (match p with Ready None => true | _ => false end))
  | StepGone us c t client received over :
      step (mkSystem us c t client received over) (mkSystem us c t client received true)
  | StepRecv us b q cap t client received over :
      step (mkSystem us (mkChannel (b :: q) cap true) t client received over)
           (mkSystem us (mkChannel q cap true) t client (received ++ [b]) over)
  | StepGiveUp us q cap t client received over :
      step (mkSystem us (mkChannel q cap true) t client received over)
           (mkSystem us (mkChannel q cap false) t client received over).

Definition reachable (s0 s : System) : Prop := rtc step s0 s.

(** ** What the client and the task are given *)

Definition items_of (us : list upstream) : list (string + frame) :=
  omap (fun u => match u with UFrame f => Some (inr f) | UError e => Some (inl e) | _ => None end) us.

Definition data_of (items : list (string + frame)) : list bytes :=
  omap (fun i => match i with inr (Data b) => Some b | _ => None end) items.

(** What has been put into the channel. *)
Definition handed_over (s : System) : list bytes := s_received s ++ queue (s_channel s).

Record tee_inv (us0 : list upstream) (s : System) : Prop := {
  inv_items : exists consumed, us0 = consumed ++ s_upstream s /\
    items_of consumed = s_client s ++ option_list ((fun b => inr (Data b)) <$> pending_send (s_tee s));
  inv_pending : is_Some (pending_send (s_tee s)) -> channel_closed (s_tee s) = false;
  inv_open : channel_closed (s_tee s) = false -> handed_over s = data_of (s_client s);
  inv_prefix : handed_over s `prefix_of` data_of (s_client s);
  inv_closed : channel_closed (s_tee s) = true -> rx_open (s_channel s) = false;
  inv_bound : (length (queue (s_channel s)) <= capacity (s_channel s))%nat;
}.

Lemma try_send_spec b c c' r :
  try_send b c = (c', r) ->
  capacity c' = capacity c /\
  match r with
  | Sent => rx_open c' = true /\ queue c' = queue c ++ [b] /\ (length (queue c') <= capacity c)%nat
  | Full => c' = c
  | Closed => c' = c /\ rx_open c = false
  end.
Proof.
  unfold try_send. destruct (rx_open c) eqn:Er; cbn [negb]; [| by intros [= <- <-]].
  destruct (Nat.leb_spec (capacity c) (length (queue c))); intros [= <- <-]; [done |]. cbn. rewrite length_app. cbn. split_and!; [done.. | lia].
Qed.

Lemma items_of_snoc us u : items_of (us ++ [u]) = items_of us ++ items_of [u].
Proof. unfold items_of. by rewrite omap_app. Qed.

Lemma data_of_snoc items i : data_of (items ++ [i]) = data_of items ++ data_of [i].
Proof. unfold data_of. by rewrite omap_app. Qed.

(** A frame handed to the client and put into the channel, or only to the client when the
    channel is closed. *)
Lemma inv_deliver us0 us c t t' client received b c' r consumed :
  us0 = consumed ++ us -> items_of consumed = client ++ [inr (Data b)] -> pending_send t' = None ->
  (channel_closed t = false -> received ++ queue c = data_of client) ->
  received ++ queue c `prefix_of` data_of client -> (length (queue c) <= capacity c)%nat ->
  channel_closed t = false -> try_send b c = (c', r) -> r <> Full ->
  channel_closed t' = match r with Closed => true | _ => false end ->
  tee_inv us0 (mkSystem us c' t' (client ++ [inr (Data b)]) received false).
Proof.
  intros Hus Hi Hp Ho Hpre Hb Hc Hs Hr Hc'. apply try_send_spec in Hs as [Ecap Hs]. specialize (Ho Hc).
  constructor; cbn [s_upstream s_channel s_tee s_client s_received handed_over].
  - exists consumed. rewrite Hp. cbn. by rewrite app_nil_r.
  - rewrite Hp. by intros [].
  - unfold handed_over. cbn. rewrite data_of_snoc, <- Ho. destruct r; [| done | congruence]. destruct Hs as (_ & -> & _). by rewrite app_assoc.
  - unfold handed_over. cbn. rewrite data_of_snoc, <- Ho. destruct r; [| done |].
    + destruct Hs as (_ & -> & _). by rewrite app_assoc.
    + destruct Hs as [-> _]. by apply prefix_app_r.
  - rewrite Hc'. destruct r; [done | done |]. by destruct Hs as [-> ?].
  - rewrite Ecap. destruct r; [apply Hs | done | by destruct Hs as [-> _]].
Qed.

(** Something else handed to the client. *)
Lemma inv_pass us0 us c t t' client received items consumed over :
  us0 = consumed ++ us -> items_of consumed = client ++ items -> pending_send t' = None ->
  (channel_closed t = false -> received ++ queue c = data_of client) ->
  received ++ queue c `prefix_of` data_of client -> (length (queue c) <= capacity c)%nat ->
  (channel_closed t = true -> rx_open c = false) -> channel_closed t' = channel_closed t ->
  (channel_closed t = true \/ data_of items = []) ->
  tee_inv us0 (mkSystem us c t' (client ++ items) received over).
Proof.
  intros Hus Hi Hp Ho Hpre Hb Hcl Hc' Hdata.
  constructor; cbn [s_upstream s_channel s_tee s_client s_received]; unfold handed_over, data_of in *; cbn; rewrite ?Hp, ?Hc', ?omap_app;
    try done.
  - exists consumed. cbn. by rewrite app_nil_r.
  - intros Hc. destruct Hdata as [Hd | ->]; [congruence |]. rewrite app_nil_r. by apply Ho.
  - by apply prefix_app_r.
Qed.

Lemma poll_preserves us0 now us c t client received us' c' t' p :
  tee_inv us0 (mkSystem us c t client received false) -> poll_next now us c t = (us', c', t', p) ->
  tee_inv us0 (mkSystem us' c' t' (match p with Ready (Some item) => client ++ [item] | _ => client end) received
    (match p with Ready None => true | _ => false end)).
Proof.
  intros [(consumed & Hus & Hi) Hpend Ho Hpre Hcl Hb]. unfold poll_next, handed_over in *.
  cbn [s_upstream s_channel s_tee s_client s_received] in *.
  destruct (pending_send t) as [b |] eqn:Ep.
  { specialize (Hpend ltac:(by eexists)). cbn in Hi. destruct (try_send b c) as [c1 r] eqn:Es. destruct r; intros [= <- <- <- <-].
    - eapply inv_deliver; try done. cbn. by rewrite Hpend.
    - apply try_send_spec in Es as [_ ->]. constructor; cbn; try done. exists consumed. by rewrite Ep.
    - eapply inv_deliver; try done. cbn. by rewrite orb_true_r. }
  cbn in Hi. rewrite app_nil_r in Hi. destruct (match idle_sleep t with Some fires => _ | None => _ end).
  { intros [= <- <- <- <-]. constructor; cbn; rewrite ?Ep; try done. exists consumed. by rewrite app_nil_r. }
  destruct us as [| u us]; [intros [= <- <- <- <-]; constructor; cbn; rewrite ?Ep; try done;
    exists consumed; cbn; by rewrite (app_nil_r client) |].
  assert (us0 = (consumed ++ [u]) ++ us) as Hnext by (by rewrite <- app_assoc).
  assert (forall items t', items_of [u] = items -> pending_send t' = None -> channel_closed t' = channel_closed t ->
    channel_closed t = true \/ data_of items = [] -> forall over, tee_inv us0 (mkSystem us c t' (client ++ items) received over)) as Hpass.
  { intros items t2 Hu Hp Hc Hd over. eapply (inv_pass us0 us c t); try done. by rewrite items_of_snoc, Hi, Hu. }
  destruct u as [[b |] | e | |]; [| intros [= <- <- <- <-]..].
  - unfold tee_data. set (t1 := count_bytes _ _). assert (channel_closed t1 = channel_closed t) as Et1 by done.
    assert (items_of (consumed ++ [UFrame (Data b)]) = client ++ [inr (Data b)]) as Hi' by (by rewrite items_of_snoc, Hi).
    destruct (channel_closed t1) eqn:Ec; [intros [= <- <- <- <-]; apply Hpass; try done; by left |].
    destruct (try_send b c) as [c1 r] eqn:Es. destruct r.
    + intros [= <- <- <- <-]. by eapply (inv_deliver us0 us c t).
    + pose proof Es as Es'. apply try_send_spec in Es' as [_ ->]. rewrite Es. intros [= <- <- <- <-].
      constructor; cbn; unfold handed_over; cbn; try done. by eexists.
    + intros [= <- <- <- <-]. by eapply (inv_deliver us0 us c t).
  - apply Hpass; try done. by right.
  - apply Hpass; try done. by right.
  - rewrite <- (app_nil_r client). apply Hpass; try done. by right.
  - rewrite <- (app_nil_r client). apply Hpass; try done. by right.
Qed.

(** The client is given upstream's frames and errors in order, at most one of them held
    back while the channel is full; the task is given the client's data frames, or the
    first of them once it has given up; and the channel never holds more than its
    capacity. *)
Lemma tee_invariant now timeout cap us s : reachable (start_system now timeout cap us) s -> tee_inv us s.
Proof.
  unfold reachable. intros Hr. remember (start_system now timeout cap us) as s0 eqn:E0.
  assert (tee_inv us s0) as H0.
  { subst s0. constructor; cbn; try done; [by exists [] | lia]. }
  clear E0. induction Hr as [| s1 s2 s3 Hs _ IH]; [done |]. apply IH. clear IH.
  destruct Hs as [now' us1 c t client received us' c' t' p Hp | us1 c t client received over | us1 b q cap' t client received over
    | us1 q cap' t client received over].
  - by eapply poll_preserves.
  - destruct H0. by constructor.
  - destruct H0 as [? ? Ho Hpre ? Hb]. constructor; unfold handed_over in *; cbn in *; try done.
    + intros Hc. rewrite <- (Ho Hc). by rewrite <- app_assoc.
    + by rewrite <- app_assoc.
    + lia.
  - destruct H0 as [? ? ? ? Hcl ?]. by constructor.
Qed.

End Tee.

Module Miss.
Import Store DStore RWriter Tee.

(** ** The response *)

(** The bytes of the object a response carries. *)
Definition response_extent `{HashIter} (status : Z) (headers : gmap string string) : option (Z * Z) :=
  let header name := snd <$> List.find (fun kv => eq_ignore_ascii_case kv.1 name) (hash_iter headers) in
  if status =? 206 then
    value ← header "content-range";
    '(s, e, _) ← Http.parse_content_range value;
    Some (s, e)
  else if status =? 200 then
    value ← header "content-length";
    length ← parse_u64 value;
    if 0 <? length then Some (0, length - 1) else None
  else None.

Definition is_object_checksum (name : string) : bool :=
  existsb (fun n => bool_decide (n = to_lowercase name))
    ["x-amz-checksum-crc32"; "x-amz-checksum-crc32c"; "x-amz-checksum-sha1"; "x-amz-checksum-sha256";
     "x-amz-checksum-crc64nvme"; "x-amz-checksum-type"; "content-md5"]%string.

(** The headers the client gets: none that describe the whole object's content. *)
Definition client_headers (headers : gmap string string) : gmap string string :=
  base.filter (fun kv => is_object_checksum kv.1 = false) headers.

(** The task, once the tee has closed and the channel is empty. *)
Definition cache_response `{HashIter} `{PathCodec} `{FrameEncoder} `{HttpDate} (env : writer_env) (key : string)
    (status : Z) (headers : gmap string string) (compression_enabled : bool) (om : ObjectMetadata) (ttl : Z)
    (s : System) (st : Storage) : Storage * Result unit :=
  match response_extent status headers with
  | Some (start, end_) => cache_streamed_range env key start end_ compression_enabled (s_received s) om ttl st
  | None => (st, Ok tt)
  end.

(** The stream has ended and the task has received all there was. *)
Definition drained (s : System) : Prop := s_over s = true /\ queue (s_channel s) = [] /\ rx_open (s_channel s) = true.

Lemma response_extent_Some `{HashIter} status headers s e :
  response_extent status headers = Some (s, e) -> 0 <= s <= e /\ e < U64_MAX.
Proof.
  unfold response_extent. destruct (status =? 206).
  - intros (v & _ & ([[s' e'] t] & Hp & [= <- <-])%bind_Some)%bind_Some.
    apply Http.parse_content_range_Some in Hp as (? & ? & Ht). unfold is_u64, U64_MAX in *. lia.
  - destruct (status =? 200); [| done]. intros (v & _ & (n & Hn & Hs)%bind_Some)%bind_Some.
    apply parse_u64_range in Hn. destruct (Z.ltb_spec 0 n); [| done]. injection Hs as <- <-.
    unfold is_u64, U64_MAX in *. lia.
Qed.

Lemma sub_list_prefix {A} (l a b : list A) s :
  a ++ b = sub_list l s (s + zlen (a ++ b)) -> a = sub_list l s (s + zlen a).
Proof.
  unfold sub_list, zlen. intros E. apply (f_equal (take (length a))) in E. rewrite take_app_length, take_take in E.
  rewrite E at 1. f_equal. rewrite length_app. lia.
Qed.

(** What the task received is where the body begins. *)
Lemma received_prefix now timeout cap us s :
  reachable (start_system now timeout cap us) s -> queue (s_channel s) = [] -> rx_open (s_channel s) = true ->
  data_of (s_client s) = s_received s /\
  exists rest, concat (data_of (items_of us)) = concat (s_received s) ++ rest /\
    (s_upstream s = [] -> pending_send (s_tee s) = None -> rest = []).
Proof.
  intros [(consumed & Hus & Hi) _ Ho _ Hcl _]%tee_invariant Hq Hrx. unfold handed_over in Ho. rewrite Hq, app_nil_r in Ho.
  assert (channel_closed (s_tee s) = false) as Hc by (destruct (channel_closed (s_tee s)); [by rewrite Hcl in Hrx | done]).
  specialize (Ho Hc). split; [done |]. rewrite Hus. unfold items_of, data_of in *. rewrite !omap_app, Hi, !omap_app, <- Ho.
  rewrite !concat_app, <- app_assoc. eexists. split; [done |]. intros Hu Hp. by rewrite Hu, Hp.
Qed.

(** C8: a miss that streams through is served and cached exactly.  However the polls of the
    client, the receives of the task and the upstream's answers interleave, until the
    stream ends, stalls or is dropped: the data the client was given is what the task
    received, and it is where the response's body begins.  If that body is the bytes of
    the object version the response names, from the first byte of its extent, then the
    storage stays sound and the disk faithful whatever fails; and when the task succeeds,
    the range it published is no larger than the extent and its file holds exactly those
    bytes, which are the whole body when the upstream was drained.  Where ranges are
    published through journals the range is pending then, and it loads as those bytes
    unless the metadata is stale or a larger pending range hides it ([findable],
    [DStore.larger_pending_hides]). *)
Theorem streamed_miss_exact `{HashIter} `{PathCodecSpec} `{FrameEncoder} `{FrameCodec} `{HttpDate}
    `{!Comp.FrameCodecLaws} object `{!LayoutSeparates object} env key bucket object_key status headers compression
    om ttl st now timeout cap us s start end_ :
  storage_ok object st -> response_extent status headers = Some (start, end_) ->
  reachable (start_system now timeout cap us) s -> drained s ->
  concat (data_of (items_of us)) = sub_list (object key (om_etag om)) start (start + zlen (concat (data_of (items_of us)))) ->
  zlen (concat (data_of (items_of us))) < 2 ^ 64 ->
  parse_cache_key key = Ok (bucket, object_key) ->
  let received := concat (s_received s) in
  let '(st', result) := cache_response env key status headers compression om ttl s st in
  data_of (s_client s) = s_received s /\ storage_ok object st' /\ disk_faithful object (disk_of st') /\
  (result = Ok tt ->
   0 < zlen received <= end_ - start + 1 /\ committed env key start om received st' /\
   (findable env key start om received st ->
    forall t, Disk.load_range_data_from_new_storage t (disk_of st') key
      (stored_range start (start + zlen received - 1) om) = Ok received)) /\
  (s_upstream s = [] -> pending_send (s_tee s) = None -> received = concat (data_of (items_of us))).
Proof.
  intros Hok He Hr (_ & Hq & Hrx) Hbody Hlen Hk received.
  destruct (response_extent_Some _ _ _ _ He) as [Hse Hmax].
  destruct (received_prefix _ _ _ _ _ Hr Hq Hrx) as (Hclient & rest & Erest & Hall).
  rewrite Erest in Hbody, Hlen. apply sub_list_prefix in Hbody. rewrite zlen_app in Hlen. pose proof (zlen_nonneg rest).
  pose proof (streamed_range_exact object env key bucket object_key start end_ compression (s_received s) om ttl st
    Hok ltac:(unfold is_u64, U64_MAX in *; lia) Hmax ltac:(lia) Hbody Hk) as Hs.
  unfold cache_response. rewrite He. destruct (cache_streamed_range _ _ _ _ _ _ _ _ _) as [st' result].
  destruct Hs as (? & ? & ?). split_and!; try done. intros Hu Hp. unfold received. by rewrite Erest, Hall, app_nil_r.
Qed.

(** ** Samples *)

#[local] Existing Instance map_order.
#[local] Existing Instance sample_codec.
#[local] Existing Instance sample_codec_spec.
#[local] Existing Instance Comp.stored_only.
#[local] Existing Instance Comp.stored_reader.
#[local] Existing Instance Comp.stored_reader_laws.
#[local] Existing Instance no_dates.
#[local] Existing Instance sample_layout.

Definition sample_upstream : list upstream :=
  [UFrame (Data (take 2 Disk.sample_bytes)); UPending; UFrame (Data (drop 2 Disk.sample_bytes)); UFrame NonData; UEnd].

Definition sample_headers : gmap string string := {[ "Content-Range"%string := "bytes 0-5/6"%string ]}.

(** A poll of a system, and a receive of the task. *)
Definition poll_system (now : Z) (s : System) : System :=
  let '(us, c, t, p) := poll_next now (s_upstream s) (s_channel s) (s_tee s) in
  mkSystem us c t (match p with Ready (Some item) => s_client s ++ [item] | _ => s_client s end) (s_received s)
    (match p with Ready None => true | _ => false end).

Definition receive (s : System) : System :=
  match queue (s_channel s) with
  | b :: q => mkSystem (s_upstream s) (mkChannel q (capacity (s_channel s)) (rx_open (s_channel s))) (s_tee s) (s_client s)
                (s_received s ++ [b]) (s_over s)
  | [] => s
  end.

Lemma poll_system_step now s : s_over s = false -> step s (poll_system now s).
Proof.
  intros Ho. unfold poll_system. destruct (poll_next _ _ _ _) as [[[us c] t] p] eqn:E. destruct s; cbn in *. subst. by econstructor.
Qed.

Lemma receive_step s : rx_open (s_channel s) = true -> queue (s_channel s) <> [] -> step s (receive s).
Proof.
  intros Ho Hq. unfold receive. destruct s as [us [[| b q] cap rx] t client received over]; cbn in *; [done |]. subst. constructor.
Qed.

Definition sample_run : System :=
  let poll := poll_system 1 in
  poll (poll (receive (poll (receive (poll (poll (poll (start_system 0 60 1 sample_upstream)))))))).

Lemma sample_run_reachable : reachable (start_system 0 60 1 sample_upstream) sample_run.
Proof.
  unfold reachable, sample_run. do 3 (eapply rtc_l; [by apply (poll_system_step 1) |]).
  eapply rtc_l; [by apply receive_step |]. eapply rtc_l; [by apply (poll_system_step 1) |].
  eapply rtc_l; [by apply receive_step |]. do 2 (eapply rtc_l; [by apply (poll_system_step 1) |]). apply rtc_refl.
Qed.

Lemma streamed_miss_exact_witness :
  let st' := (cache_response sample_writer_env "b/k/x" 206 sample_headers false sample_om 60 sample_run empty_storage).1 in
  data_of (s_client sample_run) = s_received sample_run /\
  Disk.load_range_data_from_new_storage 5 (disk_of st') "b/k/x" (stored_range 0 5 sample_om) = Ok Disk.sample_bytes.
Proof.
  pose proof (streamed_miss_exact sample_object sample_writer_env "b/k/x" "b" "k/x" 206 sample_headers false sample_om 60
    empty_storage 0 60 1 sample_upstream sample_run 0 5 empty_storage_ok) as Hw.
  destruct (cache_response sample_writer_env "b/k/x" 206 sample_headers false sample_om 60 sample_run empty_storage)
    as [st' result] eqn:E.
  destruct Hw as (Hc & _ & _ & Hl & _).
  - vm_compute. reflexivity.
  - exact sample_run_reachable.
  - split_and!; reflexivity.
  - reflexivity.
  - reflexivity.
  - reflexivity.
  - split; [exact Hc |]. apply Hl.
    + change result with (st', result).2. rewrite <- E. vm_compute. reflexivity.
    + split; [reflexivity |]. split.
      * intros m Hm. cbn in Hm. by rewrite lookup_empty in Hm.
      * intros name ls e Hl'. cbn in Hl'. by rewrite lookup_empty in Hl'.
Defined.

(** Any frame restarts the watchdog, trailers too. *)
Lemma trailers_restart_watchdog :
  let '(_, _, t, _) := poll_next 50 [UFrame NonData] (mkChannel [] 1 true) (with_idle_timeout 0 60) in
  idle_sleep t = Some 110.
Proof. reflexivity. Qed.

End Miss.
