(* ===== verification/SignedForward.v ===== *)
(** * The raw exchange of a signed request ([signed_request_proxy.rs])

    [forward_signed_request_streaming]: the request line and headers as they were signed,
    the body frame by frame, framed as HTTP chunks when the headers say so, and a copy of
    each frame for the cache; then the response, read from the socket past informational
    ones, parsed, and its body decoded.  The socket and the channel of the cache answer
    through arguments. *)

From S2P Require Import Prelude CacheTypes SignedRequest AwsChunked Globs RustStr.

#[local] Open Scope Z_scope.
#[local] Arguments String.append : simpl nomatch.

Module Wire.
Import Chunked.

(** A header whose value is not visible ASCII has no text ([HeaderValue::to_str]). *)
Abbreviation HeaderMap := (list (string * option string)).

Definition crlf : string := String "013" (String "010" "").

Definition header_line (h : string * option string) : string :=
  match h.2 with Some value => h.1 +:+ ": " +:+ value +:+ crlf | None => "" end.

Fixpoint concat_lines (hs : HeaderMap) : string :=
  match hs with [] => "" | h :: hs' => header_line h +:+ concat_lines hs' end.

Definition map_get (hs : HeaderMap) (name : string) : option string :=
  match List.find (fun h => bool_decide (h.1 = name)) hs with Some (_, v) => v | None => None end.

(** ** The request *)

Record Request := mkRequest { rq_method : string; rq_path : string; rq_version : string; rq_headers : HeaderMap }.

Definition referer_is_signed (auth : string) : bool :=
  if is_sigv4_algorithm auth then
    match find_str "SignedHeaders=" auth with
    | Some pos =>
        existsb (fun h => bool_decide (h = "referer")) (split_char ";" (signed_headers_value (string_drop (pos + 14) auth)))
    | None => false
    end
  else false.

Definition should_inject_referer (proxy_referer : option string) (hs : HeaderMap) : bool :=
  match proxy_referer with
  | None => false
  | Some _ =>
      if existsb (fun h => bool_decide (h.1 = "referer")) hs then false else
      match map_get hs "authorization" with
      | Some auth => negb (referer_is_signed auth)
      | None => true
      end
  end.

Definition header_block (proxy_referer : option string) (rq : Request) : string :=
  rq_method rq +:+ " " +:+ rq_path rq +:+ " " +:+ rq_version rq +:+ crlf
  +:+ concat_lines (rq_headers rq)
  +:+ (if should_inject_referer proxy_referer (rq_headers rq)
       then match proxy_referer with Some value => "Referer: " +:+ value +:+ crlf | None => "" end else "")
  +:+ crlf.

Definition header_block_advertises_chunked_transfer_encoding (block : string) : bool :=
  let lower := to_lowercase block in
  let needle := crlf +:+ "transfer-encoding:" in
  match find_str needle lower with
  | None => false
  | Some pos =>
      let rest := string_drop (pos + String.length needle) lower in
      let value := match find_str crlf rest with Some n => string_take n rest | None => rest end in
      contains "chunked" value
  end.

(** ** The body *)

(** What the client's body yields. *)
Inductive body_event := BData (data : bytes) | BTrailers (trailers : HeaderMap) | BError (error : string).

(** The socket may fail at its n-th write, or to flush; the cache may close its channel
    before its n-th frame. *)
Record wire_env := mkWireEnv { wv_write : nat -> option string; wv_flush : option string; wv_tee_open : nat -> bool }.

Record Forwarded := mkForwarded {
  fw_wire : bytes;
  fw_writes : nat;
  fw_sent : Z;
  fw_teed : list bytes;
  fw_tee : bool;
  fw_terminator : bool;
}.

Definition fM := stM Forwarded ProxyError.

Definition write_all (env : wire_env) (b : bytes) (what : string) : fM unit := fun f =>
  match wv_write env (fw_writes f) with
  | Some error => (f, Err (HttpError ("Failed to " +:+ what +:+ ": " +:+ error)))
  | None => (mkForwarded (fw_wire f ++ b) (S (fw_writes f)) (fw_sent f) (fw_teed f) (fw_tee f) (fw_terminator f), Ok tt)
  end.

Definition http_chunk (data : bytes) : bytes := str_bytes (u64_to_hex (zlen data)) ++ CRLF ++ data ++ CRLF.

Definition last_chunk (trailers : HeaderMap) : bytes := str_bytes ("0" +:+ crlf +:+ concat_lines trailers +:+ crlf).

Definition set_sent (n : Z) (f : Forwarded) : Forwarded :=
  mkForwarded (fw_wire f) (fw_writes f) n (fw_teed f) (fw_tee f) (fw_terminator f).

Definition set_terminator (f : Forwarded) : Forwarded :=
  mkForwarded (fw_wire f) (fw_writes f) (fw_sent f) (fw_teed f) (fw_tee f) true.

(** The copy for the cache: a closed channel ends the copying. *)
Definition tee_frame (env : wire_env) (data : bytes) (f : Forwarded) : Forwarded :=
  if fw_tee f then
    if wv_tee_open env (length (fw_teed f))
    then mkForwarded (fw_wire f) (fw_writes f) (fw_sent f) (fw_teed f ++ [data]) true (fw_terminator f)
    else mkForwarded (fw_wire f) (fw_writes f) (fw_sent f) (fw_teed f) false (fw_terminator f)
  else f.

Definition forward_frame (env : wire_env) (chunked : bool) (cap : Z) (hint : option Z) (data : bytes) : fM unit := fun f =>
  match data with
  | [] => (f, Ok tt)
  | _ =>
      if cap <? saturating_add (fw_sent f) (zlen data)
      then (f, Err (RequestBodyTooLarge hint cap))
      else
        match write_all env (if chunked then http_chunk data else data) "write request body" f with
        | (f, Ok _) => (tee_frame env data (set_sent (saturating_add (fw_sent f) (zlen data)) f), Ok tt)
        | r => r
        end
  end.

Definition write_trailers (env : wire_env) (trailers : HeaderMap) : fM unit := fun f =>
  match write_all env (last_chunk trailers) "write request trailers" f with
  | (f, Ok _) => (set_terminator f, Ok tt)
  | r => r
  end.

Fixpoint forward_body (env : wire_env) (chunked : bool) (cap : Z) (hint : option Z) (events : list body_event) : fM unit :=
  match events with
  | [] => mret tt
  | BError error :: _ => lift (Err (HttpError ("Failed to read request body: " +:+ error)))
  | BTrailers trailers :: rest =>
      _ ← (if chunked then write_trailers env trailers else mret tt);
      forward_body env chunked cap hint rest
  | BData data :: rest =>
      _ ← forward_frame env chunked cap hint data;
      forward_body env chunked cap hint rest
  end.

Definition finish_body (env : wire_env) (chunked : bool) : fM unit := fun f =>
  if chunked && negb (fw_terminator f) then write_all env (last_chunk []) "write chunk terminator" f else (f, Ok tt).

Definition flush (env : wire_env) : fM unit :=
  match wv_flush env with
  | Some error => lift (Err (HttpError ("Failed to flush request: " +:+ error)))
  | None => mret tt
  end.

Definition content_length_hint (hs : HeaderMap) : option Z := map_get hs "content-length" ≫= parse_u64.

(** The request as it goes out; [tee] tells whether the cache wants a copy. *)
Definition send_request (env : wire_env) (proxy_referer : option string) (rq : Request) (cap : Z) (tee : bool)
    (events : list body_event) : Forwarded * Result unit :=
  let hint := content_length_hint (rq_headers rq) in
  let f0 := mkForwarded [] 0 0 [] tee false in
  if match hint with Some cl => cap <? cl | None => false end then (f0, Err (RequestBodyTooLarge hint cap)) else
  let block := header_block proxy_referer rq in
  let chunked := header_block_advertises_chunked_transfer_encoding block in
  (_ ← write_all env (str_bytes block) "write request headers";
   _ ← forward_body env chunked cap hint events;
   _ ← finish_body env chunked;
   flush env) f0.

(** ** Chunked responses *)

Inductive ChunkedDecodeError :=
  | ChunkTooLarge (declared max : Z)
  | BodyTooLarge (accumulated max : Z)
  | TruncatedBeforeTerminator
  | MalformedChunkSize (s : string).

Record ChunkedDecodeConfig := mkDecodeConfig { max_chunk_size : Z; max_total_decoded : Z }.

Definition default_decode_config : ChunkedDecodeConfig := mkDecodeConfig (16 * 1024 * 1024) (100 * 1024 * 1024).

(** [String::from_utf8_lossy]: each longest part of a sequence that cannot be one is a
    replacement character. *)
Definition replacement : string := String "239" (String "191" (String "189" "")).

Definition take_str (n : nat) (s : bytes) : string := String.string_of_list_byte (take n s).

Definition second_ok (b0 b1 : Byte.byte) : bool :=
  if in_range 224 224 b0 then in_range 160 191 b1
  else if in_range 237 237 b0 then in_range 128 159 b1
  else if in_range 240 240 b0 then in_range 144 191 b1
  else if in_range 244 244 b0 then in_range 128 143 b1
  else is_cont b1.

(** The text of the first sequence, and how many bytes it takes up. *)
Definition lossy_step (b0 : Byte.byte) (rest : bytes) : string * nat :=
  let need := if in_range 0 127 b0 then 0%nat else if in_range 194 223 b0 then 1%nat
              else if in_range 224 239 b0 then 2%nat else if in_range 240 244 b0 then 3%nat else 9%nat in
  match need with
  | O => (take_str 1 [b0], 1%nat)
  | 9%nat => (replacement, 1%nat)
  | _ =>
      match rest with
      | b1 :: rest' =>
          if negb (second_ok b0 b1) then (replacement, 1%nat)
          else if (need =? 1)%nat then (take_str 2 (b0 :: rest), 2%nat)
          else
            match rest' with
            | b2 :: rest'' =>
                if negb (is_cont b2) then (replacement, 2%nat)
                else if (need =? 2)%nat then (take_str 3 (b0 :: rest), 3%nat)
                else match rest'' with
                     | b3 :: _ => if is_cont b3 then (take_str 4 (b0 :: rest), 4%nat) else (replacement, 3%nat)
                     | [] => (replacement, 3%nat)
                     end
            | [] => (replacement, 2%nat)
            end
      | [] => (replacement, 1%nat)
      end
  end.

Fixpoint lossy_loop (fuel : nat) (s : bytes) : string :=
  match fuel, s with
  | S fuel, b0 :: rest => let '(text, n) := lossy_step b0 rest in text +:+ lossy_loop fuel (drop n s)
  | _, _ => ""
  end.

Definition from_utf8_lossy (s : bytes) : string := lossy_loop (length s) s.

Fixpoint decode_chunked_loop (fuel : nat) (config : ChunkedDecodeConfig) (decoded data : bytes)
    : outcome ChunkedDecodeError bytes :=
  match data, fuel with
  | [], _ => Ok decoded
  | _, O => Panic
  | _, S fuel =>
      match split_crlf data with
      | None => Err TruncatedBeforeTerminator
      | Some (line, rest) =>
          let trimmed := str_trim (from_utf8_lossy line) in
          match u64_from_str_radix 16 trimmed with
          | None => Err (MalformedChunkSize trimmed)
          | Some chunk_size =>
              if chunk_size =? 0 then Ok decoded
              else if max_chunk_size config <? chunk_size then Err (ChunkTooLarge chunk_size (max_chunk_size config))
              else if max_total_decoded config <? zlen decoded + chunk_size
                   then Err (BodyTooLarge (zlen decoded + chunk_size) (max_total_decoded config))
              else if zlen rest <? chunk_size then Err TruncatedBeforeTerminator
              else
                match drop (Z.to_nat chunk_size) rest with
                | b1 :: b2 :: rest' =>
                    if bool_decide (b1 = CR) && bool_decide (b2 = LF)
                    then decode_chunked_loop fuel config (decoded ++ take (Z.to_nat chunk_size) rest) rest'
                    else Err TruncatedBeforeTerminator
                | _ => Err TruncatedBeforeTerminator
                end
          end
      end
  end.

(** Each turn takes up at least a size line, so the length of the data is fuel enough. *)
Definition decode_chunked_body_bounded (data : bytes) (config : ChunkedDecodeConfig) : outcome ChunkedDecodeError bytes :=
  decode_chunked_loop (length data) config [] data.

(** ** The response *)

(** The bytes before the first blank line and those after it. *)
Fixpoint split_blank (s : bytes) : option (bytes * bytes) :=
  match s with
  | [] => None
  | b :: s' =>
      if bool_decide (take 4 s = CRLF ++ CRLF) then Some ([], drop 4 s)
      else '(h, r) ← split_blank s'; Some (b :: h, r)
  end.

(** [str::lines]: a carriage return belongs to the line feed after it, and the last line may
    do without one. *)
Fixpoint lines_of (parts : list string) : list string :=
  match parts with
  | [] => []
  | [last] => match last with EmptyString => [] | _ => [last] end
  | line :: parts' => default line (strip_suffix (String "013" "") line) :: lines_of parts'
  end.

Definition str_lines (s : string) : list string := lines_of (split_char "010" s).

Fixpoint split_ws_loop (current : list string) (cs : list string) : list string :=
  match cs with
  | [] => match current with [] => [] | _ => [concat_str current] end
  | c :: cs' =>
      if char_is_whitespace c
      then match current with [] => split_ws_loop [] cs' | _ => concat_str current :: split_ws_loop [] cs' end
      else split_ws_loop (current ++ [c]) cs'
  end.

Definition split_whitespace (s : string) : list string := split_ws_loop [] (utf8_chars s).

(** [StatusCode::from_u16] takes three digits. *)
Definition parse_status_code (status_line : string) : Result Z :=
  match split_whitespace status_line with
  | _ :: code_str :: _ =>
      match parse_u64 code_str with
      | Some code => if (code <=? 65535) && (100 <=? code) && (code <=? 999) then Ok code
                     else Err (HttpError "Invalid status code")
      | None => Err (HttpError "Invalid status code")
      end
  | _ => Err (HttpError "Invalid status line")
  end.

(** The verdict of the first header line that has one. *)
Fixpoint complete_by (lines : list string) (all body : bytes) : bool :=
  match lines with
  | [] => true
  | line :: rest =>
      match (if starts_with "content-length:" (to_lowercase line)
             then (split_char ":" line !! 1%nat) ≫= (fun l => parse_u64 (str_trim l)) else None) with
      | Some content_length => content_length <=? zlen body
      | None =>
          if starts_with "transfer-encoding:" (to_lowercase line) && contains "chunked" line
          then let ends b := bool_decide (b `suffix_of` all) in
               ends (str_bytes "0" ++ CRLF ++ CRLF) || ends (str_bytes "0" ++ CRLF ++ CRLF ++ CRLF)
          else complete_by rest all body
      end
  end.

Definition has_complete_response (s : bytes) : bool :=
  match split_blank s with
  | None => false
  | Some (head, body) => complete_by (str_lines (from_utf8_lossy head)) s body
  end.

Fixpoint extract_loop (fuel : nat) (s : bytes) : Result (option bytes) :=
  match s, fuel with
  | [], _ => Ok None
  | _, O => Panic
  | _, S fuel =>
      match split_blank s with
      | None => Ok None
      | Some (head, body) =>
          match str_lines (from_utf8_lossy head) with
          | [] => Err (HttpError "Invalid HTTP response: no status line")
          | status_line :: _ =>
              status ← parse_status_code status_line;
              if (100 <=? status) && (status <? 200) then extract_loop fuel body
              else Ok (if has_complete_response s then Some s else None)
          end
      end
  end.

(** Every informational response takes up bytes, so the length is fuel enough. *)
Definition extract_final_response (s : bytes) : Result (option bytes) := extract_loop (length s) s.

(** What the socket yields; the end of the list is the end of the stream. *)
Inductive read_event := RData (b : bytes) | RError (error : string).

Definition READ_LIMIT : Z := 100 * 1024 * 1024.

Fixpoint read_response (reads : list read_event) (all : bytes) : Result bytes :=
  match reads with
  | [] => Ok all
  | RError error :: _ => Err (HttpError ("Failed to read response: " +:+ error))
  | RData [] :: _ => Ok all
  | RData b :: rest =>
      let all := all ++ b in
      found ← (if 4 <=? zlen all then extract_final_response all else Ok None);
      match found with
      | Some final => Ok final
      | None => if READ_LIMIT <? zlen all then Ok all else read_response rest all
      end
  end.

Record Response := mkResponse { rs_status : Z; rs_headers : list (string * string); rs_body : bytes }.

Section Parse.
(** Which names and values the [http] crate takes as a header. *)
Variable header_ok : string -> string -> bool.

Definition header_lines (lines : list string) : list (string * string) :=
  omap (fun line => '(name, value) ← split_once ":" line; Some (str_trim name, str_trim value)) lines.

Definition is_chunked_header (h : string * string) : bool :=
  bool_decide (to_lowercase h.1 = "transfer-encoding") && contains "chunked" h.2.

(** The last length that is stated; one that does not parse clears it. *)
Definition stated_length (hs : list (string * string)) : option Z :=
  foldl (fun acc h => if is_chunked_header h then acc
                      else if bool_decide (to_lowercase h.1 = "content-length") then parse_u64 h.2 else acc) None hs.

Definition decode_error : ProxyError := HttpError "Chunked decode error".

Definition parse_http_response (s : bytes) : Result Response :=
  match split_blank s with
  | None => Err (HttpError "Invalid HTTP response: no header end found")
  | Some (head, raw_body) =>
      match str_lines (from_utf8_lossy head) with
      | [] => Err (HttpError "Invalid HTTP response: no status line")
      | status_line :: lines =>
          status ← parse_status_code status_line;
          let hs := header_lines lines in
          let is_chunked := existsb is_chunked_header hs in
          body ← match raw_body with
                 | [] => Ok []
                 | _ =>
                     if is_chunked then
                       match decode_chunked_body_bounded raw_body default_decode_config with
                       | Ok body => Ok body
                       | Err _ => Err decode_error
                       | Panic => Panic
                       end
                     else match stated_length hs with
                          | Some length => Ok (take (Z.to_nat length) raw_body)
                          | None => Ok raw_body
                          end
                 end;
          let sent := base.filter (fun h => is_chunked_header h = false) hs in
          let sent := if is_chunked then sent ++ [("content-length"%string, u64_to_string (zlen body))] else sent in
          if forallb (fun h => header_ok h.1 h.2) sent
          then Ok (mkResponse status ((fun h => (to_lowercase h.1, h.2)) <$> sent) body)
          else Err (HttpError "Failed to build response")
      end
  end.

(** The whole exchange over an established connection. *)
Definition forward_signed_request_streaming (env : wire_env) (proxy_referer : option string) (rq : Request) (cap : Z)
    (tee : bool) (events : list body_event) (reads : list read_event) : Forwarded * Result Response :=
  match send_request env proxy_referer rq cap tee events with
  | (f, Ok _) => (f, bytes_read ← read_response reads []; parse_http_response bytes_read)
  | (f, Err e) => (f, Err e)
  | (f, Panic) => (f, Panic)
  end.

End Parse.

(** ** Text of digits *)

Lemma lossy_ascii s : all_chars is_ascii s = true -> from_utf8_lossy (str_bytes s) = s.
Proof.
  unfold from_utf8_lossy. induction s as [| a s IH]; [done |]. cbn [all_chars]. rewrite andb_true_iff. intros [Ha Hs].
  rewrite str_bytes_cons. cbn [length lossy_loop]. unfold lossy_step. rewrite (proj1 (byte_of_ascii_facts a) Ha).
  cbn -[lossy_loop str_bytes take_str String.append]. rewrite drop_0, IH by done. unfold take_str. cbn.
  by rewrite Ascii.ascii_of_byte_of_ascii.
Qed.

Lemma plain_char_facts a :
  is_plain_char a = true -> is_continuation a = false /\ char_is_whitespace (String a "") = false.
Proof.
  revert a. refine (ascii_all _ _). intros [] [] [] [] [] [] [] []; intros H; vm_compute in H; try discriminate H; split; reflexivity.
Qed.

Lemma drop_whitespace_plain cs : Forall (fun c => char_is_whitespace c = false) cs -> drop_whitespace cs = cs.
Proof. destruct 1 as [| c cs Hc]; [done |]. cbn. by rewrite Hc. Qed.

Lemma str_trim_plain s : all_chars is_plain_char s = true -> str_trim s = s.
Proof.
  intros Hs. assert (Forall (fun c => char_is_whitespace c = false) (utf8_chars s)) as Hw.
  { induction s as [| a s IH]; [constructor |]. cbn [all_chars] in Hs. apply andb_true_iff in Hs as [Ha Hs]. specialize (IH Hs).
    destruct (plain_char_facts a Ha) as [_ Hwa]. cbn [utf8_chars].
    destruct (utf8_chars s) as [| c cs]; [by repeat constructor |].
    assert (at_boundary s = true) as ->; [| by constructor].
    destruct s as [| a' s]; [done |]. cbn [all_chars] in Hs. apply andb_true_iff in Hs as [Ha' _].
    cbn. by rewrite (proj1 (plain_char_facts a' Ha')). }
  unfold str_trim. rewrite (drop_whitespace_plain _ Hw), drop_whitespace_plain by (by apply List.Forall_rev).
  by rewrite rev_involutive, concat_utf8_chars.
Qed.

Lemma size_line n :
  is_u64 n -> split_crlf (str_bytes (u64_to_hex n)) = None /\
  u64_from_str_radix 16 (str_trim (from_utf8_lossy (str_bytes (u64_to_hex n)))) = Some n.
Proof.
  intros Hn. assert (all_chars is_plain_char (u64_to_hex n) = true) as Hp
    by (apply fmt_radix_plain; [lia | unfold is_u64 in Hn; lia | done]).
  split; [by apply no_cr_no_crlf, plain_no_space |]. rewrite lossy_ascii by (by apply plain_ascii).
  rewrite str_trim_plain by done. apply u64_roundtrip; auto.
Qed.

(** ** Chunks *)

(** The decoder on one chunk of the encoder. *)
Lemma decode_http_chunk fuel config decoded frame rest :
  0 < zlen frame <= max_chunk_size config -> is_u64 (zlen frame) -> zlen decoded + zlen frame <= max_total_decoded config ->
  decode_chunked_loop (S fuel) config decoded (http_chunk frame ++ rest) = decode_chunked_loop fuel config (decoded ++ frame) rest.
Proof.
  intros Hf Hu Ht. unfold http_chunk. destruct (size_line (zlen frame) Hu) as [Hs Hv].
  cbn [decode_chunked_loop]. rewrite <- !app_assoc.
  destruct (str_bytes (u64_to_hex (zlen frame)) ++ CRLF ++ frame ++ CRLF ++ rest) as [| b l] eqn:E.
  { exfalso. by destruct (str_bytes (u64_to_hex (zlen frame))). }
  rewrite <- E, (split_crlf_app _ _ Hs), Hv.
  rewrite (proj2 (Z.eqb_neq _ _)), (proj2 (Z.ltb_ge (max_chunk_size config) _)), (proj2 (Z.ltb_ge (max_total_decoded config) _)),
    (proj2 (Z.ltb_ge (zlen (frame ++ CRLF ++ rest)) _)) by (rewrite ?(zlen_app frame); pose proof (zlen_nonneg (CRLF ++ rest)); lia).
  unfold zlen. rewrite Nat2Z.id, drop_app_length, take_app_length. done.
Qed.

Lemma decode_last_chunk fuel config decoded trailers :
  decode_chunked_loop (S fuel) config decoded (last_chunk trailers) = Ok decoded.
Proof.
  unfold last_chunk. change ("0" +:+ crlf +:+ concat_lines trailers +:+ crlf) with
    (String "0" (String "013" (String "010" (concat_lines trailers +:+ crlf)))).
  rewrite !str_bytes_cons. reflexivity.
Qed.

(** What the proxy writes as chunks, its own decoder reads back. *)
Lemma chunks_decode config trailers frames : forall fuel decoded,
  (length frames < fuel)%nat ->
  Forall (fun f => 0 < zlen f <= max_chunk_size config /\ is_u64 (zlen f)) frames ->
  zlen decoded + zlen (concat frames) <= max_total_decoded config ->
  decode_chunked_loop fuel config decoded (concat (http_chunk <$> frames) ++ last_chunk trailers) = Ok (decoded ++ concat frames).
Proof.
  induction frames as [| f frames IH]; intros [| fuel] decoded Hl Hf Ht; try (cbn in Hl; lia).
  - rewrite app_nil_r. apply decode_last_chunk.
  - apply Forall_cons_1 in Hf as [[Hf1 Hf2] Hf]. cbn [fmap list_fmap concat] in *. rewrite zlen_app in Ht.
    pose proof (zlen_nonneg (concat frames)). rewrite <- app_assoc, decode_http_chunk by (done || lia).
    rewrite IH; [by rewrite <- app_assoc | cbn in Hl; lia | done | rewrite zlen_app; lia].
Qed.

Lemma chunks_length frames : (length frames <= length (concat (http_chunk <$> frames)))%nat.
Proof.
  induction frames as [| f frames IH]; [done |]. cbn [fmap list_fmap concat length]. rewrite length_app.
  assert (2 <= length (http_chunk f))%nat by (unfold http_chunk; rewrite !length_app; change (length CRLF) with 2%nat; lia). lia.
Qed.

(** ** What is sent *)

Definition nonempty (frames : list bytes) : list bytes := base.filter (fun f => f <> []) frames.

Definition wire_body (chunked : bool) (frames : list bytes) : bytes :=
  if chunked then concat (http_chunk <$> nonempty frames) else concat frames.

(** A body as hyper yields it: data frames, then trailers if there are any. *)
Definition body_events (frames : list bytes) (trailers : option HeaderMap) : list body_event :=
  (BData <$> frames) ++ option_list (BTrailers <$> trailers).

Lemma nonempty_cons b f frames : nonempty ((b :: f) :: frames) = (b :: f) :: nonempty frames.
Proof. unfold nonempty. by rewrite filter_cons_True. Qed.

Lemma forward_frame_Ok env chunked cap hint b data f f' :
  forward_frame env chunked cap hint (b :: data) f = (f', Ok tt) ->
  fw_wire f' = fw_wire f ++ wire_body chunked [b :: data] /\ fw_terminator f' = fw_terminator f /\
  fw_sent f' = saturating_add (fw_sent f) (zlen (b :: data)) /\ fw_sent f' <= cap /\
  (if fw_tee f' then fw_tee f = true /\ fw_teed f' = fw_teed f ++ [b :: data] else fw_teed f' = fw_teed f).
Proof.
  unfold forward_frame, write_all. bsplit_goal; [done |]. destruct (wv_write env (fw_writes f)); [done |].
  intros E. injection E as <-. unfold tee_frame, wire_body. cbn [fw_tee set_sent fw_teed]. rewrite nonempty_cons.
  cbn [concat fmap list_fmap nonempty base.filter list_filter]. rewrite !app_nil_r.
  destruct (fw_tee f) eqn:Et; [destruct (wv_tee_open env _) |]; cbn; rewrite ?Et; destruct chunked; split_and!; try done; lia.
Qed.

(** The whole body: on the wire, in the cache's copy, and within the cap. *)
Lemma forward_body_Ok env chunked cap hint trailers frames : forall f f',
  0 <= fw_sent f -> fw_sent f <= cap ->
  forward_body env chunked cap hint (body_events frames trailers) f = (f', Ok tt) ->
  fw_wire f' = fw_wire f ++ wire_body chunked frames ++ (if chunked then from_option last_chunk [] trailers else []) /\
  fw_terminator f' = (fw_terminator f || (chunked && bool_decide (is_Some trailers))) /\
  (cap < U64_MAX -> fw_sent f + zlen (concat frames) <= cap) /\
  (exists sent, fw_teed f' = fw_teed f ++ sent /\ sent `prefix_of` nonempty frames /\
     (fw_tee f' = true -> fw_tee f = true /\ sent = nonempty frames) /\ (fw_tee f = false -> sent = [])).
Proof.
  induction frames as [| frame frames IH]; intros f f' H0 Hcap.
  - unfold body_events. cbn [fmap list_fmap app wire_body nonempty base.filter list_filter concat].
    intros E. assert (fw_wire f' = fw_wire f ++ (if chunked then from_option last_chunk [] trailers else []) /\
      fw_terminator f' = (fw_terminator f || (chunked && bool_decide (is_Some trailers))) /\
      fw_teed f' = fw_teed f /\ fw_tee f' = fw_tee f) as (-> & -> & -> & ->).
    { destruct trailers as [t |]; cbn in E; [| injection E as <-; rewrite andb_false_r, orb_false_r; by destruct chunked; rewrite app_nil_r].
      rewrite andb_true_r. apply stM_bind_Ok in E as (f1 & [] & E1 & E). injection E as <-. destruct chunked; cbn.
      - unfold write_trailers, write_all in E1. destruct (wv_write env _); [done |]. injection E1 as <-. cbn. by rewrite orb_true_r.
      - injection E1 as <-. by rewrite app_nil_r, orb_false_r. }
    split_and!; try done; [by destruct chunked | rewrite zlen_nil; lia |]. exists []. by rewrite app_nil_r.
  - unfold body_events. cbn [fmap list_fmap app]. intros (f1 & [] & E1 & E)%stM_bind_Ok. fold (body_events frames trailers) in E.
    destruct frame as [| b data].
    { injection E1 as <-. apply (IH f f' H0 Hcap) in E as (Hw & Ht & Hc & Hs). by split_and!. }
    apply forward_frame_Ok in E1 as (Hw1 & Ht1 & Hs1 & Hc1 & Htee1). unfold saturating_add, U64_MAX in Hs1.
    pose proof (zlen_nonneg (b :: data)).
    apply (IH f1 f' ltac:(lia) Hc1) in E as (Hw & Ht & Hc & sent & Hs & Hpre & Hall & Hnone).
    rewrite Hw, Ht, Hs, Hw1, Ht1. split_and!.
    + unfold wire_body. rewrite !nonempty_cons. destruct chunked; cbn [concat fmap list_fmap nonempty base.filter list_filter];
        rewrite ?app_nil_r, <- ?app_assoc; done.
    + done.
    + unfold U64_MAX in *. intros Hlt. specialize (Hc Hlt). cbn [concat]. rewrite zlen_app. lia.
    + rewrite nonempty_cons. destruct (fw_tee f1).
      * destruct Htee1 as [Htee ->]. exists ((b :: data) :: sent). rewrite <- app_assoc. split_and!; [done | by apply prefix_cons | | congruence].
        intros Hf'. destruct (Hall Hf') as [_ ->]. done.
      * rewrite Htee1, (Hnone eq_refl). exists []. split_and!; [done | apply prefix_nil | | done].
        intros Hf'. by destruct (Hall Hf').
Qed.

Lemma concat_nonempty frames : concat (nonempty frames) = concat frames.
Proof. induction frames as [| [| b f] frames IH]; [done | done |]. rewrite nonempty_cons. cbn. by rewrite IH. Qed.

Lemma nonempty_Forall (P : bytes -> Prop) frames :
  Forall P frames -> Forall (fun f => 0 < zlen f /\ P f) (nonempty frames).
Proof.
  rewrite !Forall_forall. intros HP f [Hf Hin]%list_elem_of_filter. split; [| by apply HP].
  destruct f; [done |]. rewrite zlen_cons. pose proof (zlen_nonneg f). lia.
Qed.

(** A request that was sent: what is on the wire, and what the cache got of it. *)
Lemma send_request_Ok env proxy_referer rq cap tee frames trailers f :
  0 <= cap -> send_request env proxy_referer rq cap tee (body_events frames trailers) = (f, Ok tt) ->
  let block := header_block proxy_referer rq in
  let chunked := header_block_advertises_chunked_transfer_encoding block in
  fw_wire f = str_bytes block ++ wire_body chunked frames ++ (if chunked then last_chunk (default [] trailers) else []) /\
  (cap < U64_MAX -> zlen (concat frames) <= cap) /\
  fw_teed f `prefix_of` nonempty frames /\ (fw_tee f = true -> fw_teed f = nonempty frames).
Proof.
  intros Hcap. unfold send_request. destruct (match content_length_hint _ with Some cl => _ | None => _ end); [done |].
  set (block := header_block proxy_referer rq). set (chunked := header_block_advertises_chunked_transfer_encoding block).
  cbn zeta. intros (f1 & [] & E1 & E)%stM_bind_Ok. apply stM_bind_Ok in E as (f2 & [] & E2 & E).
  apply stM_bind_Ok in E as (f3 & [] & E3 & E). unfold flush in E. destruct (wv_flush env); [done |]. injection E as ->.
  unfold write_all in E1. destruct (wv_write env _); [done |]. injection E1 as <-.
  apply forward_body_Ok in E2 as (Hw & Hterm & Hsize & sent & Hs & Hpre & Hall & _); [| cbn; lia..].
  cbn [fw_wire fw_sent fw_teed fw_tee fw_terminator app] in *.
  assert (fw_teed f = fw_teed f2 /\ fw_tee f = fw_tee f2 /\
    fw_wire f = str_bytes block ++ wire_body chunked frames ++ (if chunked then last_chunk (default [] trailers) else [])) as (-> & -> & ->).
  { unfold finish_body in E3. rewrite Hterm in E3. cbn [orb] in E3. destruct chunked; cbn [andb] in E3.
    - destruct trailers as [t |]; cbn in E3; [by injection E3 as <- |]. unfold write_all in E3. destruct (wv_write env _); [done |].
      injection E3 as <-. cbn. rewrite Hw. cbn. by rewrite app_nil_r, <- app_assoc.
    - by injection E3 as <-. }
  rewrite Hs. split_and!; [done | intros Hlt; specialize (Hsize Hlt); lia | done |]. intros Hf'. by destruct (Hall Hf') as [_ ->].
Qed.

(** ** The cache does not matter to the exchange *)

(** States that differ in the cache's copy only. *)
Definition same_exchange (f g : Forwarded) : Prop :=
  fw_wire f = fw_wire g /\ fw_writes f = fw_writes g /\ fw_sent f = fw_sent g /\ fw_terminator f = fw_terminator g.

Definition same_run (m : fM unit) : Prop := forall f g, same_exchange f g ->
  same_exchange (m f).1 (m g).1 /\ (m f).2 = (m g).2.

Lemma same_run_bind (m : fM unit) (k : unit -> fM unit) : same_run m -> same_run (k tt) -> same_run (_ ← m; k tt).
Proof.
  intros Hm Hk f g Hfg. unfold mbind, stM_bind. destruct (Hm f g Hfg) as [H1 H2].
  destruct (m f) as [f1 r1], (m g) as [g1 r2]. cbn [fst snd] in H1, H2. subst r2.
  destruct r1 as [[] | |]; [by apply Hk | done | done].
Qed.

Lemma write_all_same env b what : same_run (write_all env b what).
Proof.
  intros f g (Hw & Hn & Hs & Ht). unfold write_all. rewrite Hn. destruct (wv_write env _); [done |].
  split; [| done]. unfold same_exchange. cbn. by rewrite Hw.
Qed.

Lemma tee_frame_same env b f : same_exchange (tee_frame env b f) f.
Proof. unfold tee_frame. destruct (fw_tee f); [destruct (wv_tee_open env _) |]; done. Qed.

Lemma same_exchange_trans f g h : same_exchange f g -> same_exchange g h -> same_exchange f h.
Proof. unfold same_exchange. intros (? & ? & ? & ?) (? & ? & ? & ?). split_and!; congruence. Qed.

Lemma same_exchange_sym f g : same_exchange f g -> same_exchange g f.
Proof. unfold same_exchange. intros (? & ? & ? & ?). by split_and!. Qed.

Lemma forward_frame_same env chunked cap hint data : same_run (forward_frame env chunked cap hint data).
Proof.
  intros f g Hfg. unfold forward_frame. destruct data as [| b data]; [done |].
  pose proof Hfg as (Hw & Hn & Hs & Ht). rewrite Hs. destruct (cap <? _); [done |].
  destruct (write_all_same env (if chunked then http_chunk (b :: data) else b :: data) "write request body" f g Hfg) as [H1 H2].
  destruct (write_all _ _ _ f) as [f1 r1], (write_all _ _ _ g) as [g1 r2]. cbn [fst snd] in H1, H2. subst r2.
  destruct r1 as [[] | |]; [| done | done]. split; [| done].
  eapply same_exchange_trans; [apply tee_frame_same |]. eapply same_exchange_trans; [| apply same_exchange_sym, tee_frame_same].
  destruct H1 as (? & ? & Hs1 & ?). unfold same_exchange. cbn. rewrite Hs1. done.
Qed.

Lemma forward_body_same env chunked cap hint events : same_run (forward_body env chunked cap hint events).
Proof.
  induction events as [| [data | trailers | error] events IH]; cbn [forward_body]; [done | | | done].
  - apply (same_run_bind _ (fun _ => _)); [apply forward_frame_same | exact IH].
  - apply (same_run_bind _ (fun _ => _)); [| exact IH]. destruct chunked; [| done].
    intros f g Hfg. unfold write_trailers. destruct (write_all_same env (last_chunk trailers) "write request trailers" f g Hfg) as [H1 H2].
    destruct (write_all _ _ _ f) as [f1 r1], (write_all _ _ _ g) as [g1 r2]. cbn [fst snd] in H1, H2. subst r2.
    destruct r1; [| done | done]. split; [| done]. destruct H1 as (? & ? & ? & ?). by unfold same_exchange.
Qed.

(** Whether and how far the cache takes the frames, the upstream gets the same bytes and
    the client the same answer. *)
Lemma exchange_without_cache header_ok env proxy_referer rq cap tee events reads :
  let '(f, response) := forward_signed_request_streaming header_ok env proxy_referer rq cap tee events reads in
  let '(f0, response0) := forward_signed_request_streaming header_ok env proxy_referer rq cap false events reads in
  fw_wire f = fw_wire f0 /\ response = response0.
Proof.
  assert (same_exchange (send_request env proxy_referer rq cap tee events).1 (send_request env proxy_referer rq cap false events).1 /\
    (send_request env proxy_referer rq cap tee events).2 = (send_request env proxy_referer rq cap false events).2) as [H1 H2].
  { unfold send_request. destruct (match content_length_hint _ with Some cl => _ | None => _ end); [done |].
    set (chunked := header_block_advertises_chunked_transfer_encoding _).
    apply (same_run_bind _ (fun _ => _ ← forward_body env chunked cap (content_length_hint (rq_headers rq)) events;
                                     _ ← finish_body env chunked; flush env)); [apply write_all_same | | done].
    apply (same_run_bind _ (fun _ => _ ← finish_body env chunked; flush env)); [apply forward_body_same |].
    apply (same_run_bind _ (fun _ => flush env)).
    - intros f g Hfg. unfold finish_body. pose proof Hfg as (_ & _ & _ & Ht). rewrite Ht. destruct (_ && _); [by apply write_all_same | done].
    - unfold flush. destruct (wv_flush env); intros f g Hfg; done. }
  unfold forward_signed_request_streaming. destruct (send_request _ _ _ _ tee _) as [f r], (send_request _ _ _ _ false _) as [f0 r0].
  cbn [fst snd] in H1, H2. subst r0. destruct H1 as (Hw & _). by destruct r as [[] | |].
Qed.

(** The copying ends only at a frame for which the channel is closed. *)
Definition closed_at_end (env : wire_env) (f : Forwarded) : Prop :=
  fw_tee f = true \/ wv_tee_open env (length (fw_teed f)) = false.

Lemma forward_body_closed env chunked cap hint events : forall f,
  closed_at_end env f -> closed_at_end env (forward_body env chunked cap hint events f).1.
Proof.
  assert (forall b what f, closed_at_end env f -> closed_at_end env (write_all env b what f).1) as Hw.
  { intros b what f. unfold write_all. by destruct (wv_write env _). }
  induction events as [| [data | trailers | error] events IH]; intros f Hf; cbn [forward_body]; [done | | | done].
  - unfold mbind, stM_bind. assert (closed_at_end env (forward_frame env chunked cap hint data f).1) as Hff.
    { unfold forward_frame. destruct data as [| b data]; [done |]. destruct (cap <? _); [done |].
      specialize (Hw (if chunked then http_chunk (b :: data) else b :: data) "write request body"%string f Hf).
      destruct (write_all _ _ _ f) as [f1 [[] | |]]; [| done | done]. cbn [fst] in *.
      unfold tee_frame. cbn [set_sent fw_tee fw_teed]. unfold closed_at_end in *.
      destruct (fw_tee f1) eqn:Et; [| cbn; rewrite Et; by rewrite ?Et in Hw]. destruct (wv_tee_open env _) eqn:Eo; cbn; [by left | by right]. }
    destruct (forward_frame _ _ _ _ _ f) as [f1 [[] | |]]; [by apply IH | done | done].
  - unfold mbind, stM_bind. assert (closed_at_end env ((if chunked then write_trailers env trailers else mret tt) f).1) as Hff.
    { destruct chunked; [| done]. unfold write_trailers. specialize (Hw (last_chunk trailers) "write request trailers"%string f Hf).
      by destruct (write_all _ _ _ f) as [f1 [[] | |]]. }
    destruct ((if chunked then write_trailers env trailers else mret tt) f) as [f1 [[] | |]]; [by apply IH | done | done].
Qed.

Lemma send_request_closed env proxy_referer rq cap events f r :
  send_request env proxy_referer rq cap true events = (f, r) -> closed_at_end env f.
Proof.
  unfold send_request. destruct (match content_length_hint _ with Some cl => _ | None => _ end); [intros [= <- _]; by left |].
  set (chunked := header_block_advertises_chunked_transfer_encoding _). unfold mbind, stM_bind, write_all at 1. cbn [fw_writes].
  destruct (wv_write env 0); [intros [= <- _]; by left |].
  set (f1 := mkForwarded _ _ _ _ _ _). pose proof (forward_body_closed env chunked cap (content_length_hint (rq_headers rq)) events f1 ltac:(by left)) as Hf.
  destruct (forward_body _ _ _ _ _ f1) as [f2 [[] | |]]; [| by intros [= <- _]..]. cbn [fst] in Hf.
  unfold finish_body, write_all, flush. destruct (_ && _); [destruct (wv_write env _) |]; destruct (wv_flush env); intros [= <- _]; exact Hf.
Qed.

(** C9: an upload is forwarded exactly.  When the request has been sent, the wire carries the
    header block, and then the body: with chunked framing, chunks and trailers that decode
    to the client's bytes; without, the bytes themselves.  A body over the cap was not
    sent.  The cache's copy is the frames from the first one on, and all of the body if
    the cache did not close its channel. *)
Theorem upload_forwarded_exact env proxy_referer rq cap tee frames trailers f config :
  0 <= cap ->
  Forall (fun b => zlen b <= max_chunk_size config /\ is_u64 (zlen b)) frames ->
  zlen (concat frames) <= max_total_decoded config ->
  send_request env proxy_referer rq cap tee (body_events frames trailers) = (f, Ok tt) ->
  let block := header_block proxy_referer rq in
  exists body, fw_wire f = str_bytes block ++ body /\
    (if header_block_advertises_chunked_transfer_encoding block
     then decode_chunked_body_bounded body config = Ok (concat frames) /\ last_chunk (default [] trailers) `suffix_of` body
     else body = concat frames) /\
    (cap < U64_MAX -> zlen (concat frames) <= cap) /\
    fw_teed f `prefix_of` nonempty frames /\ (fw_tee f = true -> concat (fw_teed f) = concat frames).
Proof.
  intros Hcap Hf Ht E. pose proof (send_request_Ok _ _ _ _ _ _ _ _ Hcap E) as Hsent. cbn zeta in *.
  destruct Hsent as (-> & Hsize & Hpre & Hall).
  set (block := header_block proxy_referer rq). set (chunked := header_block_advertises_chunked_transfer_encoding block).
  eexists. split; [done |]. split_and!; [| done | done |].
  - unfold wire_body. destruct chunked; [| by rewrite app_nil_r]. split; [| by apply suffix_app_r].
    unfold decode_chunked_body_bounded. rewrite chunks_decode; [by rewrite concat_nonempty | | |].
    + rewrite length_app. pose proof (chunks_length (nonempty frames)). enough (0 < length (last_chunk (default [] trailers)))%nat by lia.
      unfold last_chunk. cbn. lia.
    + eapply Forall_impl; [by apply nonempty_Forall |]. intros b (? & ? & ?). by split_and!.
    + by rewrite zlen_nil, concat_nonempty.
  - intros Hf'. by rewrite (Hall Hf'), concat_nonempty.
Qed.

(** A chunked upload with a checksum trailer, as a client sends one. *)
Definition sample_upload : Request :=
  mkRequest "PUT" "/bucket/key" "HTTP/1.1"
    [("host", Some "s3.amazonaws.com"); ("transfer-encoding", Some "chunked"); ("x-amz-trailer", Some "x-amz-checksum-crc32")]%string.

Definition fair_wire : wire_env := mkWireEnv (fun _ => None) None (fun _ => true).

Definition sample_frames : list bytes := [str_bytes "hello "; []; str_bytes "world"].

Definition sample_trailers : HeaderMap := [("x-amz-checksum-crc32", Some "DUoRhQ==")]%string.

Lemma upload_forwarded_exact_witness :
  exists f body,
    send_request fair_wire (Some "proxy"%string) sample_upload 1000 true (body_events sample_frames (Some sample_trailers)) = (f, Ok tt) /\
    fw_wire f = str_bytes (header_block (Some "proxy"%string) sample_upload) ++ body /\
    decode_chunked_body_bounded body default_decode_config = Ok (str_bytes "hello world") /\
    concat (fw_teed f) = str_bytes "hello world".
Proof.
  eexists. destruct (upload_forwarded_exact fair_wire (Some "proxy"%string) sample_upload 1000 true sample_frames
    (Some sample_trailers) _ default_decode_config ltac:(lia)
    ltac:(repeat constructor; vm_compute; discriminate) ltac:(vm_compute; discriminate) eq_refl)
    as (body & Hw & Hb & _ & _ & Ht).
  exists body. split; [reflexivity |]. split; [exact Hw |].
  assert (header_block_advertises_chunked_transfer_encoding (header_block (Some "proxy"%string) sample_upload) = true) as Hc
    by (vm_compute; reflexivity).
  rewrite Hc in Hb. destruct Hb as [Hb _]. split; [exact Hb | exact (Ht eq_refl)].
Defined.

(** ** What the decoder accepts *)

(** A chunked body that stops after a whole chunk decodes, although the documentation of
    the decoder promises [TruncatedBeforeTerminator]. *)
Lemma missing_terminator_accepted :
  decode_chunked_body_bounded (concat (http_chunk <$> [str_bytes "hello "])) default_decode_config = Ok (str_bytes "hello ").
Proof. vm_compute. reflexivity. Qed.

(** A chunk extension, which HTTP allows, is refused. *)
Lemma chunk_extension_refused :
  exists s, decode_chunked_body_bounded (str_bytes ("5;a=b" +:+ crlf +:+ "hello" +:+ crlf +:+ "0" +:+ crlf +:+ crlf)) default_decode_config
    = Err (MalformedChunkSize s).
Proof. eexists. vm_compute. reflexivity. Qed.

Definition short_body : bytes :=
  str_bytes ("HTTP/1.1 200 OK" +:+ crlf +:+ "Content-Length: 10" +:+ crlf +:+ crlf +:+ "hello").

(** A response whose connection closes short of its stated length is returned as it is, its
    [Content-Length] intact. *)
Lemma short_response_accepted :
  (s ← read_response [RData short_body] []; parse_http_response (fun _ _ => true) s)
    = Ok (mkResponse 200 [("content-length", "10")]%string (str_bytes "hello")).
Proof. vm_compute. reflexivity. Qed.

(** A response that states no length is taken as complete once its head is there, and what
    follows of its body is lost. *)
Lemma unframed_response_cut :
  (s ← read_response [RData (str_bytes ("HTTP/1.1 200 OK" +:+ crlf +:+ crlf +:+ "hel")); RData (str_bytes "lo")] [];
   parse_http_response (fun _ _ => true) s) = Ok (mkResponse 200 [] (str_bytes "hel")).
Proof. vm_compute. reflexivity. Qed.

(** A header whose value is not visible ASCII is left out, signed or not. *)
Lemma opaque_header_dropped :
  header_block None (mkRequest "PUT" "/k" "HTTP/1.1" [("x-amz-meta-name", None); ("host", Some "h")]%string)
    = "PUT /k HTTP/1.1" +:+ crlf +:+ "host: h" +:+ crlf +:+ crlf.
Proof. reflexivity. Qed.

End Wire.
