(* ===== verification/WriteThrough.v ===== *)
(** * Uploads cached as they pass ([signed_put_handler.rs], [cache.rs], [s3_client.rs])

    A signed write is forwarded as it comes, and the frames that were sent are handed to a
    task that decodes them, writes them through a sink and publishes them when S3 has
    accepted the upload: a whole object with its metadata ([run_streaming_cache_write]), or
    a part of an upload with its record ([run_streaming_part_cache_write]).  With it go the
    routing of a write by its query, the invalidation of what the cache held of the key and
    the replacement of its metadata.  Metrics, gauges, the RAM tier's contents and the
    write ledger are left out. *)

From S2P Require Import Prelude CacheTypes SignedRequest RangeMerge AwsChunked Maps MetadataCache DiskPaths DiskRanges Frames.
From S2P Require Import CacheTier SizeAccounting Storage DiskStore RangeWriter WriteCache HttpHeaders Multipart SignedForward RustStr.

#[local] Open Scope Z_scope.

Module Through.
Import Store DStore RWriter.

(** ** Routing *)

Definition U32_MAX : Z := 2 ^ 32 - 1.

Definition parse_u32 (s : string) : option Z :=
  n ← parse_u64 s; if n <=? U32_MAX then Some n else None.

(** The last [uploadId], and the last [partNumber] if it is a number. *)
Definition parse_upload_part_query (query : string) : option (string * Z) :=
  let '(upload_id, part_number) :=
    foldl (fun (acc : option string * option Z) param =>
             match split_once "=" param with
             | Some (key, value) =>
                 if bool_decide (key = "uploadId") then (Some value, acc.2)
                 else if bool_decide (key = "partNumber") then (acc.1, parse_u32 value)
                 else acc
             | None => acc
             end) (None, None) (split_char "&" query) in
  match upload_id, part_number with Some id, Some n => Some (id, n) | _, _ => None end.

Definition is_complete_multipart_upload (query : string) : bool :=
  contains "uploadId" query && negb (contains "partNumber" query).

Fixpoint first_upload_id (params : list string) : option string :=
  match params with
  | [] => None
  | param :: rest =>
      match split_once "=" param with
      | Some (key, value) => if bool_decide (key = "uploadId") then Some value else first_upload_id rest
      | None => first_upload_id rest
      end
  end.

Definition extract_upload_id (query : string) : option string := first_upload_id (split_char "&" query).

Definition is_create_multipart_upload (query : string) : bool :=
  (bool_decide (query = "uploads") || starts_with "uploads&" query || starts_with "uploads=" query
   || contains "&uploads" query)
  && negb (contains "uploadId" query).

Definition is_abort_multipart_upload (query : string) : bool :=
  contains "uploadId" query && negb (contains "partNumber" query).

Inductive PutRoute :=
  | CreateUpload
  | UploadPart (upload_id : string) (part_number : Z)
  | AbortUpload (upload_id : string)
  | CompleteUpload (upload_id : string)
  | PutObject.

(** The tests of [handle_put], in their order. *)
Definition handle_put (method query : string) : PutRoute :=
  if is_create_multipart_upload query then CreateUpload else
  match parse_upload_part_query query with
  | Some (upload_id, part_number) => UploadPart upload_id part_number
  | None =>
      if bool_decide (method = "DELETE") && is_abort_multipart_upload query
      then AbortUpload (default "" (extract_upload_id query))
      else if is_complete_multipart_upload query then CompleteUpload (default "" (extract_upload_id query))
      else PutObject
  end.

(** ** The object's length *)

Definition part_content_length (request_headers : Headers) : option Z :=
  match header_get request_headers "content-length" with
  | Some v => parse_u64 v
  | None => header_get request_headers "Content-Length" ≫= parse_u64
  end.

Definition decoded_length (request_headers : Headers) (content_length : option Z) : option Z :=
  if Chunked.is_aws_chunked request_headers then Chunked.get_decoded_content_length request_headers else content_length.

(** ** Draining the tee *)

Record StreamingCapacityBudget := mkBudget { current_usage : Z; max_capacity : Z }.

Inductive DrainOutcome :=
  | Continue (decoder : option Chunked.Decoder) (written : Z)
  | Skip (reason : string).

Definition new_decoder (is_aws_chunked : bool) : option Chunked.Decoder :=
  if is_aws_chunked then Some Chunked.new else None.

(** The object's bytes a frame carries. *)
Definition decode_frame (decoder : option Chunked.Decoder) (frame : bytes)
    : outcome Chunked.AwsChunkedError (option Chunked.Decoder * bytes) :=
  match decoder with
  | Some d => '(d, decoded) ← Chunked.push d frame; Ok (Some d, decoded)
  | None => Ok (None, frame)
  end.

(** [capacity_exceeded] of a part without a stated length. *)
Definition over_budget (budget : option StreamingCapacityBudget) (staged_bytes : Z) : bool :=
  match budget with
  | Some b => match Capacity.check_streaming_capacity staged_bytes (current_usage b) (max_capacity b) with Ok _ => false | _ => true end
  | None => false
  end.

Section Drain.
Context `{HashIter} `{PathCodec} `{FrameEncoder} `{HttpDate}.

(** The loop of both tasks, which add up the bytes with [count]; a panic of the blocking
    thread skips as well. *)
Fixpoint drain (env : writer_env) (count : Z -> Z -> Z) (budget : option StreamingCapacityBudget) (frames : list bytes)
    (decoder : option Chunked.Decoder) (written : Z) (s : Comp.CompressionStats * IncrementalRangeWriter)
    : Comp.CompressionStats * IncrementalRangeWriter * DrainOutcome :=
  match frames with
  | [] => (s, Continue decoder written)
  | frame :: rest =>
      match decode_frame decoder frame with
      | Err _ => (s, Skip "decode_error")
      | Panic => (s, Skip "drain_task_panic")
      | Ok (decoder, chunk) =>
          match write_range_chunk env chunk s with
          | (s, Err _) => (s, Skip "cache_write_error")
          | (s, Panic) => (s, Skip "drain_task_panic")
          | (s, Ok _) =>
              let written := count written (zlen chunk) in
              if over_budget budget written then (s, Skip "capacity_exceeded")
              else drain env count budget rest decoder written s
          end
      end
  end.

End Drain.

(** ** The answer of S3 *)

Inductive s3_result :=
  | S3Response (status : Z) (headers : gmap string string)
  | S3Error
  | S3Dropped.

Definition is_success (status : Z) : bool := (200 <=? status) && (status <? 300).

(** [HeaderValue::to_str]. *)
Definition is_visible (a : ascii) : bool :=
  let n := Ascii.nat_of_ascii a in ((32 <=? n)%nat && (n <? 127)%nat) || (n =? 9)%nat.

Definition response_map (headers : list (string * string)) : gmap string string :=
  foldl (fun m h => <[h.1 := if all_chars is_visible h.2 then h.2 else ""]> m) ∅ headers.

Definition s3_result_of (response : Result Wire.Response) : s3_result :=
  match response with
  | Ok r => S3Response (Wire.rs_status r) (response_map (Wire.rs_headers r))
  | Err _ => S3Error
  | Panic => S3Dropped
  end.

(** Why the upload is not cached after all: phases 2 and 3 of both tasks. *)
Definition refusal (decoder : option Chunked.Decoder) (expected : option Z) (result : s3_result) : option string :=
  match result with
  | S3Error => Some "s3_error"
  | S3Dropped => Some "s3_channel_closed"
  | S3Response status _ =>
      if negb (is_success status) then Some "s3_non_success" else
      match decoder with
      | None => None
      | Some d =>
          match Chunked.finish d with
          | Ok trailers =>
              match expected with
              | Some n => if negb (Chunked.at_decoded_len trailers =? n) then Some "decoded_length_mismatch" else None
              | None => None
              end
          | _ => Some "decode_finish_error"
          end
      end
  end.

Definition response_headers (result : s3_result) : gmap string string :=
  match result with S3Response _ headers => headers | _ => ∅ end.

Definition get_either (h : gmap string string) (lower upper : string) : option string :=
  match h !! lower with Some v => Some v | None => h !! upper end.

Definition response_etag (h : gmap string string) : string := default "" (get_either h "etag" "ETag").

(** ** Metadata from responses ([s3_client.rs]) *)

Definition parse_content_range_total_size (content_range : string) : option Z :=
  if negb (starts_with "bytes " content_range) then None else
  '(_, total) ← rsplit_once "/" content_range;
  if bool_decide (total = "*") then None else parse_u64 total.

Definition is_transient_header (name : string) : bool :=
  existsb (fun n => bool_decide (n = to_lowercase name))
    ["connection"; "transfer-encoding"; "date"; "server"; "x-amz-request-id"; "x-amz-id-2"]%string.

Definition extract_object_metadata_from_response (h : gmap string string) : ObjectMetadata :=
  let content_length := default 0 (get_either h "content-length" "Content-Length" ≫= parse_u64) in
  let content_length := default content_length
    (get_either h "content-range" "Content-Range" ≫= parse_content_range_total_size) in
  ObjectMetadata_new_with_headers (response_etag h) (default "" (get_either h "last-modified" "Last-Modified"))
    content_length (get_either h "content-type" "Content-Type")
    (base.filter (fun kv => is_transient_header kv.1 = false) h).

Definition is_checksum_header (name : string) : bool :=
  let key_lower := to_lowercase name in
  starts_with "x-amz-checksum-" key_lower || starts_with "x-amz-content-sha256" key_lower
  || bool_decide (key_lower = "content-md5").

(** A checksum the request states, where the response states none. *)
Definition merge_checksums (request_headers : Headers) (h : gmap string string) : gmap string string :=
  foldl (fun m kv => if is_checksum_header kv.1 && bool_decide (m !! kv.1 = None) then <[kv.1 := kv.2]> m else m)
    h request_headers.

Definition request_content_type (request_headers : Headers) : option string :=
  match header_get request_headers "content-type" with
  | Some v => Some v
  | None => header_get request_headers "Content-Type"
  end.

Definition write_cache_metadata (etag last_modified : string) (content_length : Z) (content_type : option string)
    (headers : gmap string string) (now expires : Z) : ObjectMetadata :=
  mkObjectMetadata etag last_modified content_length content_type headers Complete content_length [] Lz4 0 None ∅ None
    true (Some expires) (Some now) (Some now) false.

(** With a client the headers are those it extracts, otherwise all of them. *)
Definition build_streaming_write_cache_metadata (now : Z) (s3_client : bool) (content_length : Z)
    (h : gmap string string) (request_headers : Headers) (ttl : Z) : Result ObjectMetadata :=
  let last_modified := default "" (get_either h "last-modified" "Last-Modified") in
  let comprehensive := if s3_client then om_response_headers (extract_object_metadata_from_response h) else h in
  expires ← add_ttl now ttl;
  Ok (write_cache_metadata (response_etag h) last_modified content_length (request_content_type request_headers)
        (merge_checksums request_headers comprehensive) now expires).

(** ** Replacing what the cache holds of a key ([cache.rs]) *)

(** The RAM tier cannot be cleared; the metadata file cannot be unlinked, or rewritten. *)
Record put_env := mkPutEnv {
  pe_writer : writer_env;
  pe_ram_removal : option string;
  pe_unlink_metadata : string -> bool;
  pe_rewrite_metadata : string -> bool;
}.

Definition pe_store (env : put_env) : store_env := we_store (pe_writer env).

(** A key that spells a range of another one: [key:range:idx:start-end:range:...]. *)
Definition granular_key (key : string) : option (string * Z) :=
  match Multipart.split_str (String.length key) ":range:" key with
  | [original; info; _] =>
      '(idx, range) ← split_once ":" info;
      '(s, e) ← split_once "-" range;
      idx ← parse_u64 idx;
      _ ← parse_u64 s;
      _ ← parse_u64 e;
      Some (original, idx)
  | _ => None
  end.

Definition clear_head (m : NewCacheMetadata) : NewCacheMetadata :=
  mkNewCacheMetadata (cm_cache_key m) (cm_object_metadata m) (cm_ranges m) (cm_created_at m) (cm_expires_at m)
    (cm_compression_info m) None None (cm_head_access_count m) None.

Section Replace.
Context `{HashIter} `{PathCodec} `{FrameEncoder} `{HttpDate}.

Definition parsed_at (path : string) (st : Storage) : option NewCacheMetadata := metadata_files st !! path ≫= parsed_metadata.

Definition set_metadata_file (path : string) (m : NewCacheMetadata) (st : Storage) : Storage :=
  set_metadata_files (<[path := MetaParsed m]> (metadata_files st)) st.

Definition unlink_metadata (env : put_env) (path : string) (st : Storage) : Storage :=
  if pe_unlink_metadata env path then set_metadata_files (base.delete path (metadata_files st)) st else st.

Definition invalidate_metadata_cache (key : string) (st : Storage) : Storage :=
  set_metadata_cache (MetaCache.invalidate key (metadata_cache st)) st.

Definition invalidate_head_cache_entry_unified (env : put_env) (key : string) (st : Storage) : Storage :=
  let st := invalidate_metadata_cache key st in
  let path := get_new_metadata_file_path key in
  match parsed_at path st with
  | Some m => if pe_rewrite_metadata env path then set_metadata_file path (clear_head m) st else st
  | None => st
  end.

Definition delete_specific_range (env : put_env) (key : string) (range_idx : Z) (st : Storage) : Storage * Result unit :=
  let path := get_new_metadata_file_path key in
  match metadata_files st !! path with
  | None => (st, Ok tt)
  | Some (MetaUnreadable error) => (st, Err (CacheError ("Failed to read metadata: " +:+ error)))
  | Some MetaCorrupt => (st, Err (CacheError "Failed to parse metadata"))
  | Some (MetaParsed m) =>
      match cm_ranges m !! Z.to_nat range_idx with
      | Some r =>
          let st := set_range_files (remove_listed (se_removable (pe_store env)) [r] (range_files st)) st in
          let ranges := base.delete (Z.to_nat range_idx) (cm_ranges m) in
          match ranges with
          | [] => (unlink_metadata env path st, Ok tt)
          | _ => if pe_rewrite_metadata env path then (set_metadata_file path (set_ranges ranges m) st, Ok tt)
                 else (st, Err (CacheError "Failed to write metadata"))
          end
      | None => (st, Ok tt)
      end
  end.

(** Every range is debited, whether its file was there or not. *)
Definition invalidate_entry (env : put_env) (key : string) (m : NewCacheMetadata) (st : Storage) : Storage :=
  let st := set_range_files (remove_listed (se_removable (pe_store env)) (cm_ranges m) (range_files st)) st in
  let st := if se_consolidator (pe_store env)
            then foldl (fun st r => debit_range key r (om_is_write_cached (cm_object_metadata m)) st) st (cm_ranges m)
            else st in
  unlink_metadata env (get_new_metadata_file_path key) st.

Definition invalidate_cache_hierarchy (env : put_env) (key : string) (st : Storage) : Storage * Result unit :=
  let st := invalidate_metadata_cache key st in
  match pe_ram_removal env with
  | Some error => (st, Err (CacheError error))
  | None =>
      match granular_key key with
      | Some (original, idx) =>
          let '(st, result) := delete_specific_range env original idx st in
          (invalidate_head_cache_entry_unified env key st, result)
      | None =>
          let st := match parsed_at (get_new_metadata_file_path key) st with
                    | Some m => invalidate_entry env key m st
                    | None => st
                    end in
          (invalidate_head_cache_entry_unified env key st, Ok tt)
      end
  end.

(** The files that were there and are gone now, and their ranges. *)
Fixpoint remove_range_files (removable : string -> bool) (rs : list NewRangeSpec) (files : gmap string Disk.file)
    (removed : list NewRangeSpec) : gmap string Disk.file * list NewRangeSpec :=
  match rs with
  | [] => (files, removed)
  | r :: rest =>
      match files !! nr_file_path r with
      | Some _ => if removable (nr_file_path r)
                  then remove_range_files removable rest (base.delete (nr_file_path r) files) (removed ++ [r])
                  else remove_range_files removable rest files removed
      | None => remove_range_files removable rest files removed
      end
  end.

Definition debit_removed_ranges (env : put_env) (key : string) (is_write_cached : bool) (removed : list NewRangeSpec)
    (st : Storage) : Storage :=
  match removed with
  | [] => st
  | _ =>
      if se_consolidator (pe_store env) then
        write_eviction_journal_entries (se_evict_journal (pe_store env)) (fun n => se_clock (pe_store env) (n + 10))
          (se_instance (pe_store env))
          ((fun r => (key, nr_start r, nr_end r, nr_compressed_size r, absolute_range_path (pe_store env) (nr_file_path r))) <$> removed)
          (foldl (fun st r => debit_range key r is_write_cached st) st removed)
      else st
  end.

(** The ranges of the metadata at hand other than the one just published. *)
Definition supersede (env : put_env) (key path : string) (st : Storage) : Storage :=
  match parsed_at (get_new_metadata_file_path key) st with
  | Some m =>
      let superseded := base.filter (fun r => nr_file_path r <> path) (cm_ranges m) in
      let '(files, removed) := remove_range_files (se_removable (pe_store env)) superseded (range_files st) [] in
      debit_removed_ranges env key (om_is_write_cached (cm_object_metadata m)) removed (set_range_files files st)
  | None => st
  end.

Definition store_new_metadata (env : put_env) (m : NewCacheMetadata) (st : Storage) : Storage * Result unit :=
  match se_write_meta (pe_store env) with
  | None => (set_metadata_file (get_new_metadata_file_path (cm_cache_key m)) m st, Ok tt)
  | Some e => (st, Err e)
  end.

Definition set_compression (algorithm : CompressionAlgorithm) (compressed_size : Z) (om : ObjectMetadata) : ObjectMetadata :=
  mkObjectMetadata (om_etag om) (om_last_modified om) (om_content_length om) (om_content_type om) (om_response_headers om)
    (om_upload_state om) (om_cumulative_size om) (om_parts om) algorithm compressed_size (om_parts_count om)
    (om_part_ranges om) (om_upload_id om) (om_is_write_cached om) (om_write_cache_expires_at om)
    (om_write_cache_created_at om) (om_write_cache_last_accessed om) (om_graduation_accounted om).

Definition credit_staged_range (env : put_env) (key : string) (r : NewRangeSpec) (is_write_cached already_existed : bool)
    (st : Storage) : Storage :=
  credit_range (pe_store env) key r (is_staged_range_spec r is_write_cached) already_existed st.

Definition store_streamed_write_cache_metadata (env : put_env) (key : string) (r : NewRangeSpec) (om : ObjectMetadata)
    (ttl : Z) (already_existed : bool) (st : Storage) : Storage * Result unit :=
  let om := set_compression (nr_compression_algorithm r) (nr_compressed_size r) om in
  let r := with_staged (classify_new_range_as_staged (nr_file_path r) (om_is_write_cached om)) r in
  let st := supersede env key (nr_file_path r) st in
  let now := se_clock (pe_store env) 1 in
  match add_ttl now ttl with
  | Ok expires =>
      let '(st, result) := store_new_metadata env (set_ranges [r] (new_metadata key om now expires)) st in
      let st := invalidate_metadata_cache key st in
      match result with
      | Ok _ => (credit_staged_range env key r (om_is_write_cached om) already_existed st, Ok tt)
      | _ => (st, result)
      end
  | Err e => (st, Err e)
  | Panic => (st, Panic)
  end.

(** ** A whole object *)

Inductive StreamingCacheOutcome := Committed | Skipped (reason : string) | TaskPanicked.

Definition run_streaming_cache_write (env : put_env) (key : string) (w : IncrementalRangeWriter) (frames : list bytes)
    (is_aws_chunked : bool) (expected_decoded_len : option Z) (ttl : Z) (request_headers : Headers) (s3_client : bool)
    (result : s3_result) (st : Storage) : Storage * StreamingCacheOutcome :=
  match drain (pe_writer env) u64_add None frames (new_decoder is_aws_chunked) 0 (compression_stats st, w) with
  | (stats, w, Skip reason) => (abort_incremental_range (pe_writer env) w (set_compression_stats stats st), Skipped reason)
  | (stats, w, Continue decoder decoded_written) =>
      let st := set_compression_stats stats st in
      match refusal decoder expected_decoded_len result with
      | Some reason => (abort_incremental_range (pe_writer env) w st, Skipped reason)
      | None =>
          match build_streaming_write_cache_metadata (se_clock (pe_store env) 0) s3_client decoded_written
                  (response_headers result) request_headers ttl with
          | Ok om =>
              let '(st, _) := invalidate_cache_hierarchy env key st in
              match finalize_incremental_range (pe_writer env) w None (om_etag om) st with
              | (st, Ok (r, already_existed)) =>
                  match store_streamed_write_cache_metadata env key r om ttl already_existed st with
                  | (st, Ok _) => (st, Committed)
                  | (st, Err _) => (st, Skipped "commit_error")
                  | (st, Panic) => (st, TaskPanicked)
                  end
              | (st, _) => (st, Skipped "commit_error")
              end
          | _ => (abort_incremental_range (pe_writer env) w st, TaskPanicked)
          end
      end
  end.

(** An empty object has metadata only ([spawn_cache_write_task],
    [store_put_as_write_cached_range_with_ttl]). *)
Definition cache_empty_put (env : put_env) (key : string) (ttl : Z) (request_headers : Headers) (s3_client : bool)
    (result : s3_result) (st : Storage) : Storage * Result unit :=
  match result with
  | S3Response status h =>
      if negb (is_success status) then (st, Ok tt) else
      let '(st, _) := invalidate_cache_hierarchy env key st in
      let now := se_clock (pe_store env) 0 in
      match build_streaming_write_cache_metadata now s3_client 0 h request_headers ttl, add_ttl now ttl with
      | Ok om, Ok expires => store_new_metadata env (new_metadata key om now expires) st
      | _, _ => (st, Panic)
      end
  | _ => (st, Ok tt)
  end.

(** ** The request *)

(** What [setup_put_cache_tee] decides. *)
Inductive CacheTee :=
  | NoTee
  | EmptyObject
  | TeeTo (w : IncrementalRangeWriter) (decoded_len : Z).

(** [admitted]: neither the disk's safety bound nor the reservation refuses the bytes. *)
Definition setup_put_cache_tee (env : put_env) (cache_manager admitted : bool) (key : string) (decoded_len : option Z)
    (should_compress : bool) (st : Storage) : Storage * CacheTee :=
  if negb cache_manager then (st, NoTee) else
  match decoded_len with
  | None => (st, NoTee)
  | Some n =>
      if n =? 0 then (st, EmptyObject)
      else if negb admitted then (st, NoTee)
      else match WriteCacheRangeSink_open (pe_writer env) key n should_compress st with
           | (st, Ok (Some w)) => (st, TeeTo w n)
           | (st, _) => (st, NoTee)
           end
  end.

Definition STREAMED_BODY_CAP : Z := 5 * 1024 * 1024 * 1024.

Record PutRequest := mkPut {
  put_key : string;
  put_request : Wire.Request;
  put_headers : Headers;
  put_events : list Wire.body_event;
}.

(** What the handler has at hand for every request. *)
Record put_config := mkPutConfig {
  pc_usage : Z;
  pc_capacity : Z;
  pc_cache_manager : bool;
  pc_admitted : bool;
  pc_compress : bool;
  pc_ttl : Z;
  pc_s3_client : bool;
  pc_referer : option string;
  pc_header_ok : string -> string -> bool;
}.

Definition forward_put (config : put_config) (wire : Wire.wire_env) (reads : list Wire.read_event) (rq : PutRequest) (tee : bool)
    : Wire.Forwarded * Result Wire.Response :=
  Wire.forward_signed_request_streaming (pc_header_ok config) wire (pc_referer config) (put_request rq) STREAMED_BODY_CAP tee
    (put_events rq) reads.

Definition put_setup (env : put_env) (config : put_config) (rq : PutRequest) (content_length : option Z) (st : Storage) :=
  setup_put_cache_tee env (pc_cache_manager config) (pc_admitted config) (put_key rq)
    (decoded_length (put_headers rq) content_length) (pc_compress config) st.

(** The exchange, the answer to the client and what the task makes of it. *)
Definition stream_put_to_upstream (env : put_env) (config : put_config) (wire : Wire.wire_env) (reads : list Wire.read_event)
    (rq : PutRequest) (content_length : option Z) (st : Storage)
    : Wire.Forwarded * Result Wire.Response * Storage * option StreamingCacheOutcome :=
  let forward := forward_put config wire reads rq in
  match put_setup env config rq content_length st with
  | (st, TeeTo w n) =>
      let '(f, response) := forward true in
      let '(st, outcome) := run_streaming_cache_write env (put_key rq) w (Wire.fw_teed f) (Chunked.is_aws_chunked (put_headers rq))
                              (Some n) (pc_ttl config) (put_headers rq) (pc_s3_client config) (s3_result_of response) st in
      (f, response, st, Some outcome)
  | (st, EmptyObject) =>
      let '(f, response) := forward false in
      let '(st, _) := cache_empty_put env (put_key rq) (pc_ttl config) (put_headers rq) (pc_s3_client config)
                        (s3_result_of response) st in
      (f, response, st, None)
  | (st, NoTee) => let '(f, response) := forward false in (f, response, st, None)
  end.

(** The object case of [handle_put]: an object that does not fit goes by the cache. *)
Definition handle_put_object (env : put_env) (config : put_config) (wire : Wire.wire_env) (reads : list Wire.read_event)
    (rq : PutRequest) (st : Storage) : Wire.Forwarded * Result Wire.Response * Storage * option StreamingCacheOutcome :=
  let content_length := part_content_length (put_headers rq) in
  match Capacity.check_cache_capacity content_length (pc_usage config) (pc_capacity config) with
  | Capacity.Cache => stream_put_to_upstream env config wire reads rq content_length st
  | Capacity.Bypass _ => let '(f, response) := forward_put config wire reads rq false in (f, response, st, None)
  | Capacity.StreamWithCapacityCheck => stream_put_to_upstream env config wire reads rq None st
  end.

(** ** A part of an upload *)


End Replace.

(** ** What a drained body is *)

(** The bytes of the object a body carries. *)
Definition object_bytes (is_aws_chunked : bool) (body : bytes) : option bytes :=
  if is_aws_chunked then
    match Chunked.decode_aws_chunked body with Ok r => Some (Chunked.data r) | _ => None end
  else Some body.

Lemma byte_step_length d b d' o : Chunked.decoder_ok d -> Chunked.byte_step d b = Ok (d', o) -> zlen o <= 1.
Proof.
  intros Hok. unfold Chunked.byte_step. intros ([[d1 r] o1] & Ht & E)%bind_Ok_inv. injection E as <- <-. revert Ht.
  unfold Chunked.push_turn. unfold Chunked.decoder_ok in Hok. destruct (Chunked.state d) as [| n | seen | |].
  - intros ([[d2 r2] []] & _ & Ht)%bind_Ok_inv; [| by injection Ht as <- <- <-].
    apply bind_Ok_inv in Ht as (h & _ & Ht). apply bind_Ok_inv in Ht as (n & _ & Ht). by injection Ht as <- <- <-.
  - intros [= <- <- <-]. change (zlen [b]) with 1. rewrite Z.min_r by lia. done.
  - destruct (negb _); [done |]. by intros [= <- <- <-].
  - intros ([[d2 r2] []] & _ & Ht)%bind_Ok_inv; [| by injection Ht as <- <- <-].
    apply bind_Ok_inv in Ht as ([ts rest] & _ & Ht). by injection Ht as <- <- <-.
  - done.
Qed.

Lemma run_length s : forall d d' o, Chunked.decoder_ok d -> Chunked.run d s = Ok (d', o) -> zlen o <= zlen s.
Proof.
  induction s as [| b s IH]; intros d d' o Hok; cbn [Chunked.run]; [by intros [= <- <-] |].
  intros ([d1 o1] & E1 & E)%bind_Ok_inv. apply bind_Ok_inv in E as ([d2 o2] & E2 & E). injection E as <- <-.
  pose proof (byte_step_length _ _ _ _ Hok E1). pose proof (Chunked.byte_step_ok _ _ _ _ Hok E1) as Hok1.
  pose proof (IH _ _ _ Hok1 E2). rewrite zlen_app, zlen_cons. lia.
Qed.

(** A frame decodes to no more bytes than it has. *)
Lemma push_Ok d s d' o :
  Chunked.decoder_ok d -> Chunked.push d s = Ok (d', o) -> Chunked.decoder_ok d' /\ zlen o <= zlen s.
Proof.
  intros Hok E. pose proof (Chunked.push_run d s Hok) as Hr. rewrite E in Hr. cbn in Hr.
  destruct (Chunked.run d s) as [[d1 o1] | |] eqn:Er; [| done..]. injection Hr as <- <-.
  split; [by eapply Chunked.run_ok | by eapply run_length].
Qed.

(** What the decoder made of the frames: [decoded], or the frames themselves. *)
Definition decodes (decoder decoder' : option Chunked.Decoder) (frames : list bytes) (decoded : bytes) : Prop :=
  match decoder with
  | Some d => exists d', decoder' = Some d' /\ Chunked.push_all d frames = Ok (d', decoded)
  | None => decoder' = None /\ decoded = concat frames
  end.

Lemma decode_frame_Ok decoder frame decoder1 chunk :
  from_option Chunked.decoder_ok True decoder -> decode_frame decoder frame = Ok (decoder1, chunk) ->
  from_option Chunked.decoder_ok True decoder1 /\ zlen chunk <= zlen frame /\
  forall decoder' frames decoded, decodes decoder1 decoder' frames decoded -> decodes decoder decoder' (frame :: frames) (chunk ++ decoded).
Proof.
  destruct decoder as [d |]; cbn; [| intros _ [= <- <-]; split_and!; [done | done |]; intros decoder' frames decoded [-> ->]; done].
  intros Hok ([d1 o] & Ep & [= <- <-])%bind_Ok_inv. destruct (push_Ok _ _ _ _ Hok Ep) as [Hok1 Hl]. split_and!; [done | done |].
  intros decoder' frames decoded (d' & -> & Ea). exists d'. cbn [Chunked.push_all]. rewrite Ep. cbn [mbind outcome_bind]. by rewrite Ea.
Qed.

Section Drained.
Context `{FrameEncoder} `{FrameCodec} `{!Comp.FrameCodecLaws}.

(** Counting in 64 bits, short of an overflow. *)
Definition counts (count : Z -> Z -> Z) : Prop := forall a b, 0 <= a -> 0 <= b -> a + b < 2 ^ 64 -> count a b = a + b.

Lemma u64_add_counts : counts u64_add.
Proof. intros a b Ha Hb Hab. u64. lia. Qed.


(** A drain that went through: the writer holds what the frames decode to. *)
Lemma drain_Continue env count budget frames : forall decoder written stats w stats' w' decoder' written' data,
  from_option Chunked.decoder_ok True decoder -> writer_ok w data -> zlen data + zlen (concat frames) < 2 ^ 64 ->
  drain env count budget frames decoder written (stats, w) = (stats', w', Continue decoder' written') ->
  exists decoded, decodes decoder decoder' frames decoded /\ zlen decoded <= zlen (concat frames) /\
    writer_ok w' (data ++ decoded) /\ same_range w w' /\
    (frames <> [] -> over_budget budget written' = false) /\
    (counts count -> 0 <= written -> written + zlen (concat frames) < 2 ^ 64 -> written' = written + zlen decoded).
Proof.
  induction frames as [| frame frames IH]; intros decoder written stats w stats' w' decoder' written' data Hd Hw Hlen; cbn [drain].
  { intros [= <- <- <- <-]. exists []. rewrite app_nil_r, zlen_nil. split_and!; [by destruct decoder; [eexists |] | done | done | done | done | lia]. }
  destruct (decode_frame decoder frame) as [[decoder1 chunk] | |] eqn:Ef; [| done..].
  destruct (decode_frame_Ok _ _ _ _ Hd Ef) as (Hd1 & Hchunk & Hdec).
  destruct (write_range_chunk env chunk (stats, w)) as [[stats1 w1] [[] | |]] eqn:Ew; [| done..].
  cbn [concat] in Hlen. rewrite zlen_app in Hlen. pose proof (zlen_nonneg (concat frames)). pose proof (zlen_nonneg chunk).
  apply (write_range_chunk_ok _ _ _ _ _ _ _ Hw) in Ew as (Hw1 & Hs1 & _); [| rewrite zlen_app; lia].
  destruct (over_budget budget (count written (zlen chunk))) eqn:Eb; [done |]. intros E.
  edestruct (IH _ _ _ _ _ _ _ _ _ Hd1 Hw1 ltac:(rewrite zlen_app; lia) E) as (decoded & Hds & Hl & Hw' & Hs' & Hbud & Hn).
  exists (chunk ++ decoded). rewrite app_assoc, !zlen_app. cbn [concat]. rewrite zlen_app.
  split_and!; [by apply Hdec | lia | done | by eapply same_range_trans | |].
  { intros _. destruct frames as [| f frames]; [| by apply Hbud]. cbn in E. by injection E as _ _ _ <-. }
  intros Hc Hpos Hmax. rewrite (Hc written (zlen chunk)) in Hn by lia. rewrite Hn; [lia | done | lia | lia].
Qed.

(** Together with the verdict: the object's bytes, and their stated number. *)
Lemma accepted_body is_aws_chunked frames decoder' decoded expected status headers :
  decodes (new_decoder is_aws_chunked) decoder' frames decoded -> zlen (concat frames) < 2 ^ 63 ->
  refusal decoder' expected (S3Response status headers) = None ->
  is_success status = true /\ object_bytes is_aws_chunked (concat frames) = Some decoded /\
  (is_aws_chunked = true -> forall n, expected = Some n -> n = zlen decoded).
Proof.
  unfold refusal, object_bytes. destruct (is_success status); [| done]. cbn [negb]. destruct is_aws_chunked; cbn [new_decoder decodes].
  - intros (d' & -> & Ea) Hlen. destruct (Chunked.finish d') as [t | |] eqn:Ef; [| done..].
    destruct (Chunked.incremental_agrees_with_whole _ _ _ _ Hlen Ea Ef) as [-> Hn]. intros Hr. split_and!; [done | done |].
    intros _ n ->. destruct (Z.eqb_spec (Chunked.at_decoded_len t) n); [congruence | done].
  - intros [-> ->] _ _. done.
Qed.

End Drained.

(** ** Soundness of the storage *)

Section Sound.
Context `{HashIter} `{PathCodecSpec} `{FrameEncoder} `{FrameCodec} `{HttpDate} `{!Comp.FrameCodecLaws}.
Context (object : string -> string -> bytes) `{!LayoutSeparates object}.

Lemma storage_ok_fewer_files files st : files ⊆ range_files st -> storage_ok object st -> storage_ok object (set_range_files files st).
Proof. intros Hs Hok. apply storage_ok_range_files; [done |]. eapply files_ok_subseteq; [done | apply Hok]. Qed.

Lemma invalidate_metadata_cache_ok key st : storage_ok object st -> storage_ok object (invalidate_metadata_cache key st).
Proof. intros [Hf Hm Hj]. by constructor. Qed.

Lemma unlink_metadata_ok env path st : storage_ok object st -> storage_ok object (unlink_metadata env path st).
Proof.
  intros [Hf Hm Hj]. unfold unlink_metadata. destruct (pe_unlink_metadata env path); [| done]. constructor; [done | | done].
  intros p m Hp. cbn in Hp. apply lookup_delete_Some in Hp as [_ Hp]. by apply Hm.
Qed.

Lemma parsed_at_Some path st m : parsed_at path st = Some m <-> metadata_files st !! path = Some (MetaParsed m).
Proof. unfold parsed_at. destruct (metadata_files st !! path) as [[m' | |] |]; cbn; split; congruence. Qed.

(** A file of metadata written back with some of its ranges. *)
Lemma rewrite_metadata_ok path m m' st :
  storage_ok object st -> metadata_files st !! path = Some (MetaParsed m) ->
  cm_cache_key m' = cm_cache_key m -> (forall r, r ∈ cm_ranges m' -> r ∈ cm_ranges m) ->
  storage_ok object (set_metadata_file path m' st).
Proof.
  intros Hok Hm Hk Hr. apply storage_ok_metadata; [done |]. destruct (so_meta _ _ Hok path m Hm) as [Hp Hn].
  split; [by rewrite Hk |]. rewrite Forall_forall in *. auto.
Qed.

Lemma invalidate_head_ok env key st : storage_ok object st -> storage_ok object (invalidate_head_cache_entry_unified env key st).
Proof.
  intros Hok. unfold invalidate_head_cache_entry_unified. pose proof (invalidate_metadata_cache_ok key st Hok) as Hok1.
  destruct (parsed_at _ _) as [m |] eqn:Em; [| done]. destruct (pe_rewrite_metadata env _); [| done].
  apply parsed_at_Some in Em. by apply (rewrite_metadata_ok _ m).
Qed.

Lemma put_debits_ok key b rs : forall st, storage_ok object st ->
  storage_ok object (foldl (fun st r => debit_range key r b st) st rs).
Proof. induction rs as [| r rs IH]; intros st Hok; cbn; [done |]. apply IH. by apply debit_range_ok. Qed.

Lemma delete_specific_range_ok env key idx st : storage_ok object st -> storage_ok object (delete_specific_range env key idx st).1.
Proof.
  intros Hok. unfold delete_specific_range. destruct (metadata_files st !! _) as [[m | |] |] eqn:Em; try done.
  destruct (cm_ranges m !! Z.to_nat idx) as [r |]; [| done].
  assert (storage_ok object (set_range_files (remove_listed (se_removable (pe_store env)) [r] (range_files st)) st)) as Hok1
    by (apply storage_ok_fewer_files; [apply remove_listed_sub | done]).
  destruct (base.delete (Z.to_nat idx) (cm_ranges m)) as [| r' rs] eqn:Ed; [by apply unlink_metadata_ok |].
  destruct (pe_rewrite_metadata env _); [| done]. apply (rewrite_metadata_ok _ m); [done | done | done |].
  cbn. intros x. rewrite <- Ed, delete_take_drop, elem_of_app. intros [Hx | Hx]; [by eapply elem_of_take in Hx as (? & ? & _); eapply list_elem_of_lookup_2 |].
  apply list_elem_of_lookup in Hx as (i & Hx). rewrite lookup_drop in Hx. by eapply list_elem_of_lookup_2.
Qed.

(** Invalidating a key, whatever fails. *)
Lemma invalidate_ok env key st : storage_ok object st -> storage_ok object (invalidate_cache_hierarchy env key st).1.
Proof.
  intros Hok. unfold invalidate_cache_hierarchy. pose proof (invalidate_metadata_cache_ok key st Hok) as Hok1.
  destruct (pe_ram_removal env); [done |]. destruct (granular_key key) as [[original idx] |].
  - pose proof (delete_specific_range_ok env original idx _ Hok1) as Hok2.
    destruct (delete_specific_range _ _ _ _) as [st2 r]. by apply invalidate_head_ok.
  - cbn [fst]. apply invalidate_head_ok. destruct (parsed_at _ _) as [m |]; [| done]. unfold invalidate_entry.
    apply unlink_metadata_ok. assert (storage_ok object (set_range_files (remove_listed (se_removable (pe_store env)) (cm_ranges m)
      (range_files (invalidate_metadata_cache key st))) (invalidate_metadata_cache key st))) as Hok2
      by (apply storage_ok_fewer_files; [apply remove_listed_sub | done]).
    destruct (se_consolidator _); [by apply put_debits_ok | done].
Qed.

Lemma superseded_files_spec removable rs : forall files removed,
  (remove_range_files removable rs files removed).1 ⊆ files /\
  forall path, path ∉ nr_file_path <$> rs -> (remove_range_files removable rs files removed).1 !! path = files !! path.
Proof.
  induction rs as [| r rs IH]; intros files removed; cbn [remove_range_files fmap list_fmap]; [done |].
  assert (forall files', files' ⊆ files -> (forall path, path <> nr_file_path r -> files' !! path = files !! path) ->
    forall removed', (remove_range_files removable rs files' removed').1 ⊆ files /\
      (forall path, path ∉ nr_file_path r :: (nr_file_path <$> rs) ->
         (remove_range_files removable rs files' removed').1 !! path = files !! path)) as Hstep.
  { intros files' Hsub Hsame removed'. destruct (IH files' removed') as [Hs1 Hs2]. split; [by etrans |].
    intros path [Hne Hn]%not_elem_of_cons. rewrite Hs2 by done. by apply Hsame. }
  destruct (files !! nr_file_path r); [| by apply Hstep]. destruct (removable _); [| by apply Hstep].
  apply Hstep; [apply delete_subseteq | intros path Hne; by rewrite lookup_delete_ne].
Qed.

(** The previous ranges go, the new one stays. *)
Lemma supersede_ok env key path st :
  storage_ok object st -> storage_ok object (supersede env key path st) /\
  range_files (supersede env key path st) !! path = range_files st !! path.
Proof.
  intros Hok. unfold supersede. destruct (parsed_at _ st) as [m |]; [| done].
  set (superseded := base.filter _ _).
  destruct (superseded_files_spec (se_removable (pe_store env)) superseded (range_files st) []) as [Hsub Hkeep].
  destruct (remove_range_files _ _ _ _) as [files removed]. cbn [fst] in *.
  pose proof (storage_ok_fewer_files _ _ Hsub Hok) as Hok1.
  assert (files !! path = range_files st !! path) as <-.
  { apply Hkeep. intros (r & Ep & Hr)%list_elem_of_fmap. apply list_elem_of_filter in Hr as [Hne _]. congruence. }
  unfold debit_removed_ranges. destruct removed as [| r removed]; [done |]. destruct (se_consolidator _); [| done].
  split; [by apply eviction_entries_ok, put_debits_ok |].
  destruct (eviction_entries_fields (se_evict_journal (pe_store env)) (fun n => se_clock (pe_store env) (n + 10)) (se_instance (pe_store env))
    ((fun r => (key, nr_start r, nr_end r, nr_compressed_size r, absolute_range_path (pe_store env) (nr_file_path r))) <$> r :: removed)
    (foldl (fun st r => debit_range key r (om_is_write_cached (cm_object_metadata m)) st) (set_range_files files st) (r :: removed)))
    as (-> & _ & _).
  generalize (r :: removed). intros rs. change files with (range_files (set_range_files files st)) at 2. generalize (set_range_files files st).
  induction rs as [| r' rs IH]; intros st1; cbn; [done |]. by rewrite IH.
Qed.

(** Storing the metadata of a published range. *)
Lemma store_streamed_ok env key r om ttl existed st :
  storage_ok object st -> (forall b, named key (with_staged b r)) ->
  storage_ok object (store_streamed_write_cache_metadata env key r om ttl existed st).1.
Proof.
  intros Hok Hn. unfold store_streamed_write_cache_metadata.
  set (r' := with_staged _ r). destruct (supersede_ok env key (nr_file_path r') st Hok) as [Hok1 _].
  destruct (add_ttl _ _) as [expires | |]; [| done..]. unfold store_new_metadata.
  destruct (se_write_meta (pe_store env)); cbn [fst]; [by apply invalidate_metadata_cache_ok |].
  unfold credit_staged_range. apply credit_range_ok, invalidate_metadata_cache_ok. apply storage_ok_metadata; [done |].
  split; [done |]. cbn. apply Forall_singleton. exists key. split; [done | apply Hn].
Qed.

(** ** A cached object *)

(** The metadata of [key] lists one range, the whole of [data], whose file is there. *)
Definition holds_object (st : Storage) (key etag : string) (data : bytes) (expires : Z) : Prop :=
  exists m r frame, metadata_files st !! get_new_metadata_file_path key = Some (MetaParsed m) /\
    om_etag (cm_object_metadata m) = etag /\ om_content_length (cm_object_metadata m) = zlen data /\
    om_write_cache_expires_at (cm_object_metadata m) = Some expires /\ cm_ranges m = [r] /\
    nr_start r = 0 /\ nr_end r = zlen data - 1 /\ named key r /\
    range_file_belongs_to r (object_version_id etag) = true /\
    range_files st !! get_versioned_range_file_path key 0 (zlen data - 1) etag = Some (Disk.Readable frame) /\
    decompress_data frame = Ok data.

Lemma holds_object_loads st key bucket object_key etag data expires last_modified now :
  holds_object st key etag data expires -> parse_cache_key key = Ok (bucket, object_key) -> zlen data < U64_MAX -> now <= expires ->
  Disk.load_range_data_from_new_storage now (disk_of st) key (mkCachedRange 0 (zlen data - 1) [] etag last_modified Lz4) = Ok data.
Proof.
  intros (m & r & frame & Hm & <- & _ & Hexp & Hr & Hs & He & Hn & Hb & Hf & Hd) Hk Hmax Hnow.
  unfold Disk.load_range_data_from_new_storage, Disk.find_range_spec. cbn [r_etag r_start r_end].
  assert (Disk.get_metadata now (disk_of st) key = Some m) as ->.
  { unfold Disk.get_metadata. cbn [disk_of Disk.metadata_files]. rewrite lookup_omap, Hm. cbn.
    unfold is_write_cache_expired. rewrite Hexp, (proj2 (Z.ltb_ge expires now)) by done. by destruct (om_is_write_cached _). }
  rewrite bool_decide_true by done. cbn [negb mbind outcome_bind option_bind]. rewrite Hr. cbn [List.find].
  rewrite Hs, He, Hb, !Z.eqb_refl. cbn [andb].
  apply (read_named st key bucket object_key r _ frame data Hk Hn Hb); rewrite ?Hs, ?He; try done; lia.
Qed.

Lemma store_streamed_holds env key r om ttl existed st st' data frame :
  storage_ok object st -> (forall b, named key (with_staged b r)) -> nr_start r = 0 -> nr_end r = zlen data - 1 ->
  nr_file_path r = get_versioned_range_file_path key 0 (zlen data - 1) (om_etag om) ->
  om_content_length om = zlen data ->
  range_files st !! nr_file_path r = Some (Disk.Readable frame) -> decompress_data frame = Ok data ->
  store_streamed_write_cache_metadata env key r om ttl existed st = (st', Ok tt) ->
  forall expires, om_write_cache_expires_at om = Some expires -> holds_object st' key (om_etag om) data expires.
Proof.
  intros Hok Hn Hs He Hp Hlen Hf Hd. unfold store_streamed_write_cache_metadata.
  set (b := classify_new_range_as_staged _ _). destruct (supersede_ok env key (nr_file_path (with_staged b r)) st Hok) as [_ Hkeep].
  destruct (add_ttl _ _) as [t | |]; [| done..]. unfold store_new_metadata.
  destruct (se_write_meta (pe_store env)); [done |]. intros E expires Hexp. injection E as <-.
  unfold credit_staged_range, credit_range.
  set (st1 := set_metadata_file _ _ _).
  assert (holds_object (invalidate_metadata_cache key st1) key (om_etag om) data expires) as Hh.
  { eexists _, (with_staged b r), frame. split; [apply lookup_insert_eq |]. cbn. split_and!; try done.
    - destruct (Hn b) as (Hs1 & He1 & _). cbn in Hs1, He1. rewrite Hs in Hs1. rewrite He in He1.
      rewrite (range_path_belongs key 0 (zlen data - 1) (om_etag om)) by done. by apply bool_decide_true.
    - rewrite <- Hp. change (nr_file_path r) with (nr_file_path (with_staged b r)). by rewrite Hkeep. }
  destruct (_ && _); exact Hh.
Qed.

(** ** The task of a whole object *)

Lemma run_put_spec env key w frames is_aws_chunked n ttl request_headers s3_client result st :
  storage_ok object st -> writer_ok w [] -> w_cache_key w = key -> w_start w = 0 -> w_end w = n - 1 -> 0 < n <= U64_MAX ->
  zlen (concat frames) < 2 ^ 63 ->
  (forall status h data, result = S3Response status h -> is_success status = true ->
     object_bytes is_aws_chunked (concat frames) = Some data -> object key (response_etag h) = data) ->
  let '(st', outcome) := run_streaming_cache_write env key w frames is_aws_chunked (Some n) ttl request_headers s3_client result st in
  storage_ok object st' /\
  (outcome = Committed -> exists status h data, result = S3Response status h /\ is_success status = true /\
     object_bytes is_aws_chunked (concat frames) = Some data /\ zlen data = n /\ n <= zlen (concat frames) /\
     holds_object st' key (response_etag h) data (se_clock (pe_store env) 0 + ttl)).
Proof.
  intros Hok Hw Hk Hs He Hn Hlen Hobj. unfold run_streaming_cache_write.
  assert (from_option Chunked.decoder_ok True (new_decoder is_aws_chunked)) as Hdok by by destruct is_aws_chunked.
  destruct (drain _ _ _ _ _ _ _) as [[stats w'] [decoder written | reason]] eqn:Ed;
    [| split; [by apply remove_file_ok, storage_ok_stats | done]].
  assert (zlen (@nil Byte.byte) + zlen (concat frames) < 2 ^ 64) as Hlen' by (rewrite zlen_nil; lia).
  destruct (drain_Continue _ _ _ _ _ _ _ _ _ _ _ _ _ Hdok Hw Hlen' Ed)
    as (data & Hdec & Hle & Hw' & (Et & Ek & Es & Ee & _) & _ & Hcount). cbn [app] in Hw'.
  pose proof (storage_ok_stats object stats st Hok) as Hok1.
  destruct (refusal decoder (Some n) result) as [reason |] eqn:Eref; [split; [by apply remove_file_ok | done] |].
  destruct result as [status h | |]; [| done..].
  destruct (accepted_body _ _ _ _ _ _ _ Hdec Hlen Eref) as (Hsucc & Hbytes & _).
  specialize (Hobj _ _ _ eq_refl Hsucc Hbytes).
  cbn [response_headers]. unfold build_streaming_write_cache_metadata.
  destruct (add_ttl _ ttl) as [expires | |] eqn:Ettl; [| split; [by apply remove_file_ok | done]..]. cbn [mbind outcome_bind].
  set (om := write_cache_metadata _ _ _ _ _ _ _).
  pose proof (invalidate_ok env key _ Hok1) as Hok2. destruct (invalidate_cache_hierarchy env key _) as [st2 r2]. cbn [fst] in Hok2.
  change (om_etag om) with (response_etag h).
  assert (is_u64 (w_start w') /\ w_start w' <= w_end w' /\ w_end w' < U64_MAX) as (Hu & Hse & Hmax)
    by (unfold is_u64, U64_MAX in *; rewrite Es, Ee, Hs, He; lia).
  assert (w_cache_key w' = key) as Ek' by congruence. assert (w_start w' = 0) as Es' by congruence.
  pose proof (finalize_ok object (pe_writer env) w' None (response_etag h) st2 data Hok2 Hw' Hu Hse Hmax) as Hfin.
  rewrite Ek', Es', Hobj, Z.add_0_l, sub_list_full in Hfin. specialize (Hfin eq_refl).
  destruct (finalize_incremental_range _ _ _ _ _) as [st3 [[r existed] | |]] eqn:Ef; [| split; done..]. cbn [fst] in Hfin.
  destruct (finalize_Ok _ _ _ _ _ _ _ _ _ Hw' Hu Hse Hmax Ef) as (Hp & Hexact & _).
  assert (forall b, named key (with_staged b r)) as Hnamed by (intros b; rewrite <- Ek'; by eapply published_named).
  destruct Hp as (Hrs & Hrl & _ & Hpath & _ & _ & frame & Hfile & Hframe & _). specialize (Hexact eq_refl).
  pose proof (store_streamed_ok env key r om ttl existed st3 Hfin Hnamed) as Hok4.
  destruct (store_streamed_write_cache_metadata _ _ _ _ _ _ _) as [st4 [[] | |]] eqn:Estore; [| split; done..]. split; [done |].
  intros _. exists status, h, data. assert (zlen data = n) as Hzn by lia. split_and!; try done; [lia |].
  assert (expires = se_clock (pe_store env) 0 + ttl) as <-.
  { revert Ettl. unfold add_ttl, system_time_checked_add. destruct (_ <=? _); [by intros [= <-] | done]. }
  change (response_etag h) with (om_etag om).
  eapply (store_streamed_holds env key r om ttl existed st3 st4 data frame); try done; [congruence | lia | |].
  - rewrite Hpath, Ek', Es'. do 2 f_equal. lia.
  - cbn. rewrite Hcount by (apply u64_add_counts || lia). lia.
Qed.

(** Without an answer of S3 nothing is published. *)
Lemma run_put_unanswered env key w frames is_aws_chunked expected ttl request_headers s3_client result st :
  storage_ok object st -> (forall status h, result <> S3Response status h) ->
  let '(st', outcome) := run_streaming_cache_write env key w frames is_aws_chunked expected ttl request_headers s3_client result st in
  storage_ok object st' /\ outcome <> Committed.
Proof.
  intros Hok Hr. unfold run_streaming_cache_write. destruct (drain _ _ _ _ _ _ _) as [[stats w'] [decoder written | reason]];
    [| split; [by apply remove_file_ok, storage_ok_stats | done]].
  destruct result as [status h | |]; [by destruct (Hr status h) | |]; cbn; (split; [by apply remove_file_ok, storage_ok_stats | done]).
Qed.

Lemma run_put_skipped env key w frames is_aws_chunked expected ttl request_headers s3_client result st s reason :
  storage_ok object st ->
  drain (pe_writer env) u64_add None frames (new_decoder is_aws_chunked) 0 (compression_stats st, w) = (s, Skip reason) ->
  let '(st', outcome) := run_streaming_cache_write env key w frames is_aws_chunked expected ttl request_headers s3_client result st in
  storage_ok object st' /\ outcome <> Committed.
Proof.
  intros Hok E. unfold run_streaming_cache_write. rewrite E. destruct s as [stats w']. split; [by apply remove_file_ok, storage_ok_stats | done].
Qed.

(** ** The request *)

Lemma begin_other env key start end_ b st st' r :
  begin_incremental_range_write env key start end_ b st = (st', r) -> (exists w, r = Ok w) \/ st' = st.
Proof.
  unfold begin_incremental_range_write. destruct (_ <? _); [intros [= <- _]; by right |].
  destruct (se_create_dir _); [intros [= <- _]; by right |]. destruct (we_create env); [intros [= <- _]; by right |].
  destruct (range_files st !! _); [intros [= <- _]; by right |]. intros [= _ <-]. left. by eexists.
Qed.

Lemma decoded_length_u64 h n : decoded_length h (part_content_length h) = Some n \/ decoded_length h None = Some n -> is_u64 n.
Proof.
  unfold decoded_length, part_content_length, Chunked.get_decoded_content_length.
  destruct (Chunked.is_aws_chunked h).
  - intros [E | E]; apply bind_Some in E as (v & _ & E); by apply parse_u64_range in E.
  - intros [E | E]; [| done]. destruct (header_get h "content-length"); [by apply parse_u64_range in E |].
    apply bind_Some in E as (v & _ & E). by apply parse_u64_range in E.
Qed.

(** A sink that was opened is empty and spans the stated length. *)
Lemma put_setup_ok env config rq content_length st st1 tee :
  storage_ok object st -> put_setup env config rq content_length st = (st1, tee) ->
  storage_ok object st1 /\
  (forall w n, tee = TeeTo w n -> decoded_length (put_headers rq) content_length = Some n /\ n <> 0 /\
     writer_ok w [] /\ w_cache_key w = put_key rq /\ w_start w = 0 /\ w_end w = n - 1).
Proof.
  intros Hok. unfold put_setup, setup_put_cache_tee. destruct (pc_cache_manager config); cbn [negb]; [| by intros [= <- <-]].
  destruct (decoded_length _ _) as [n |]; [| by intros [= <- <-]]. destruct (Z.eqb_spec n 0) as [| Hn]; [by intros [= <- <-] |].
  destruct (pc_admitted config); cbn [negb]; [| by intros [= <- <-]]. unfold WriteCacheRangeSink_open.
  rewrite (proj2 (Z.eqb_neq n 0)) by done.
  destruct (begin_incremental_range_write _ _ _ _ _ st) as [st' r] eqn:Eb. destruct (begin_other _ _ _ _ _ _ _ _ Eb) as [[w ->] | ->].
  - destruct (begin_Ok _ _ _ _ _ _ _ _ Eb) as (Hw & Hk & Hs & He & _ & _ & _ & path & Ht & ->). intros [= <- <-]. split.
    + apply storage_ok_range_files; [done |]. apply files_ok_other; [| apply Hok]. intros. rewrite Ht. by apply writer_tmp_not_range.
    + intros w' n' [= <- <-]. by split_and!.
  - destruct r as [w | |]; [| by intros [= <- <-]..]. intros [= <- <-]. split; [done |]. intros w' n' [= <- <-].
    by destruct (begin_Ok _ _ _ _ _ _ _ _ Eb) as (Hw & Hk & Hs & He & _).
Qed.

(** The channel of the tee is closed by the task alone, when it has given up on frames it
    was sent. *)
Definition closed_by_task (env : put_env) (wire : Wire.wire_env) (is_aws_chunked : bool) (w : IncrementalRangeWriter)
    (stats : Comp.CompressionStats) (frames : list bytes) : Prop :=
  forall k, Wire.wv_tee_open wire k = false -> exists s reason,
    drain (pe_writer env) u64_add None (take k frames) (new_decoder is_aws_chunked) 0 (stats, w) = (s, Skip reason).

Lemma forward_put_Ok config wire reads rq tee f r :
  forward_put config wire reads rq tee = (f, Ok r) ->
  Wire.send_request wire (pc_referer config) (put_request rq) STREAMED_BODY_CAP tee (put_events rq) = (f, Ok tt).
Proof.
  unfold forward_put, Wire.forward_signed_request_streaming. destruct (Wire.send_request _ _ _ _ _ _) as [f' [[] | |]] eqn:E; [| done..].
  by intros [= <- _].
Qed.

Lemma forward_put_isolated config wire reads rq tee f response f0 response0 :
  forward_put config wire reads rq tee = (f, response) -> forward_put config wire reads rq false = (f0, response0) ->
  Wire.fw_wire f = Wire.fw_wire f0 /\ response = response0.
Proof.
  unfold forward_put. intros E E0.
  pose proof (Wire.exchange_without_cache (pc_header_ok config) wire (pc_referer config) (put_request rq) STREAMED_BODY_CAP tee
    (put_events rq) reads) as Hx. by rewrite E, E0 in Hx.
Qed.

(** The frames the task got are the body, unless it gave up. *)
Lemma teed_frames env config wire reads rq frames trailers f r is_aws_chunked w stats :
  put_events rq = Wire.body_events frames trailers ->
  closed_by_task env wire is_aws_chunked w stats (Wire.nonempty frames) ->
  forward_put config wire reads rq true = (f, Ok r) ->
  (concat (Wire.fw_teed f) = concat frames /\ zlen (concat frames) < 2 ^ 63) \/
  exists s reason, drain (pe_writer env) u64_add None (Wire.fw_teed f) (new_decoder is_aws_chunked) 0 (stats, w) = (s, Skip reason).
Proof.
  intros Hev Hclosed E%forward_put_Ok. rewrite Hev in E.
  assert (0 <= STREAMED_BODY_CAP) as Hcap0 by done.
  pose proof (Wire.send_request_Ok _ _ _ _ _ _ _ _ Hcap0 E) as Hs. cbn zeta in Hs. destruct Hs as (_ & Hcap & Hpre & Hall).
  specialize (Hcap ltac:(done)). destruct (Wire.send_request_closed _ _ _ _ _ _ _ E) as [Ht | Ht].
  - left. rewrite (Hall Ht), Wire.concat_nonempty. split; [done |]. unfold STREAMED_BODY_CAP in Hcap. lia.
  - right. destruct Hpre as [rest Hpre]. destruct (Hclosed _ Ht) as (s & reason & Hd). exists s, reason.
    by rewrite Hpre, take_app_length in Hd.
Qed.

Lemma cache_empty_put_ok env key ttl request_headers s3_client result st :
  storage_ok object st -> storage_ok object (cache_empty_put env key ttl request_headers s3_client result st).1.
Proof.
  intros Hok. unfold cache_empty_put. destruct result as [status h | |]; [| done..]. destruct (negb _); [done |].
  pose proof (invalidate_ok env key st Hok) as Hok1. destruct (invalidate_cache_hierarchy env key st) as [st1 r1].
  destruct (build_streaming_write_cache_metadata _ _ _ _ _ _) as [om | |]; [| done..].
  destruct (add_ttl _ _) as [t | |]; [| done..]. unfold store_new_metadata. destruct (se_write_meta _); [done |].
  apply storage_ok_metadata; [done |]. split; [done | constructor].
Qed.

(** What is promised of an object that was committed. *)
Definition committed_object (env : put_env) (config : put_config) (rq : PutRequest) (frames : list bytes)
    (response : Result Wire.Response) (st : Storage) : Prop :=
  exists r data, response = Ok r /\ is_success (Wire.rs_status r) = true /\
    object_bytes (Chunked.is_aws_chunked (put_headers rq)) (concat frames) = Some data /\ 0 < zlen data < U64_MAX /\
    holds_object st (put_key rq) (response_etag (response_map (Wire.rs_headers r))) data
      (se_clock (pe_store env) 0 + pc_ttl config).

Lemma stream_put_spec env config wire reads rq content_length frames trailers st :
  storage_ok object st -> put_events rq = Wire.body_events frames trailers ->
  (forall n, decoded_length (put_headers rq) content_length = Some n -> is_u64 n) ->
  (forall st1 w n, put_setup env config rq content_length st = (st1, TeeTo w n) ->
     closed_by_task env wire (Chunked.is_aws_chunked (put_headers rq)) w (compression_stats st1) (Wire.nonempty frames)) ->
  (forall f r data, forward_put config wire reads rq true = (f, Ok r) -> is_success (Wire.rs_status r) = true ->
     object_bytes (Chunked.is_aws_chunked (put_headers rq)) (concat frames) = Some data ->
     object (put_key rq) (response_etag (response_map (Wire.rs_headers r))) = data) ->
  let '(f, response, st', outcome) := stream_put_to_upstream env config wire reads rq content_length st in
  let '(f0, response0) := forward_put config wire reads rq false in
  Wire.fw_wire f = Wire.fw_wire f0 /\ response = response0 /\ storage_ok object st' /\
  (outcome = Some Committed -> committed_object env config rq frames response st').
Proof.
  intros Hok Hev Hu Hclosed Hobj. unfold stream_put_to_upstream. destruct (put_setup _ _ _ _ _) as [st1 tee] eqn:Es.
  destruct (put_setup_ok _ _ _ _ _ _ _ Hok Es) as [Hok1 Htee].
  destruct (forward_put config wire reads rq false) as [f0 response0] eqn:E0. destruct tee as [| | w n]; [done | |].
  { pose proof (cache_empty_put_ok env (put_key rq) (pc_ttl config) (put_headers rq) (pc_s3_client config) (s3_result_of response0) st1 Hok1).
    by destruct (cache_empty_put _ _ _ _ _ _ _). }
  destruct (Htee _ _ eq_refl) as (Hn & Hn0 & Hw & Hk & Hstart & Hend). specialize (Hu n Hn). specialize (Hclosed _ _ _ eq_refl).
  destruct (forward_put config wire reads rq true) as [f response] eqn:E1.
  destruct (forward_put_isolated _ _ _ _ _ _ _ _ _ E1 E0) as [Hwire Hresp].
  set (run := run_streaming_cache_write _ _ _ _ _ _ _ _ _ _ _).
  enough (let '(st', outcome) := run in storage_ok object st' /\
    (outcome = Committed -> committed_object env config rq frames response st')) as Hrun.
  { destruct run as [st' outcome]. destruct Hrun as [Hok' Hc]. split_and!; [done | done | done |]. intros [= ->]. by apply Hc. }
  assert ((forall status h, s3_result_of response <> S3Response status h) \/ exists r, response = Ok r) as [Hno | [r ->]]
    by (destruct response; [right; by eexists | by left..]).
  { pose proof (run_put_unanswered env (put_key rq) w (Wire.fw_teed f) (Chunked.is_aws_chunked (put_headers rq)) (Some n) (pc_ttl config)
      (put_headers rq) (pc_s3_client config) _ st1 Hok1 Hno) as Hr. fold run in Hr. destruct run as [st' outcome]. by destruct Hr. }
  destruct (teed_frames _ _ _ _ _ _ _ _ _ _ _ _ Hev Hclosed E1) as [[Hteed Hmax] | (s & reason & Hskip)].
  2: { pose proof (run_put_skipped env (put_key rq) w (Wire.fw_teed f) (Chunked.is_aws_chunked (put_headers rq)) (Some n) (pc_ttl config)
      (put_headers rq) (pc_s3_client config) (s3_result_of (Ok r)) st1 s reason Hok1 Hskip) as Hr. fold run in Hr.
    destruct run as [st' outcome]. by destruct Hr. }
  pose proof (run_put_spec env (put_key rq) w (Wire.fw_teed f) (Chunked.is_aws_chunked (put_headers rq)) n (pc_ttl config)
    (put_headers rq) (pc_s3_client config) (s3_result_of (Ok r)) st1 Hok1 Hw Hk Hstart Hend) as Hspec. fold run in Hspec.
  rewrite Hteed in Hspec.
  assert (let '(st', outcome) := run in storage_ok object st' /\
     (outcome = Committed -> exists status h data, s3_result_of (Ok r) = S3Response status h /\ is_success status = true /\
        object_bytes (Chunked.is_aws_chunked (put_headers rq)) (concat frames) = Some data /\ zlen data = n /\ n <= zlen (concat frames) /\
        holds_object st' (put_key rq) (response_etag h) data (se_clock (pe_store env) 0 + pc_ttl config))) as Hspec'.
  { apply Hspec; [unfold is_u64, U64_MAX in *; lia | done |]. intros status h data [= <- <-] Hsucc Hb. by apply (Hobj f r). }
  destruct run as [st' outcome]. destruct Hspec' as [Hok' Hc]. split; [done |]. intros ->.
  destruct (Hc eq_refl) as (status & h & data & [= <- <-] & Hsucc & Hb & Hz & Hle & Hh). exists r, data.
  split_and!; try done; unfold is_u64, U64_MAX in *; lia.
Qed.

End Sound.

(** C10: an upload that passes through is cached as the object S3 stored.  Whatever the
    cache does, the upstream gets the bytes and the client the answer they would get
    without it, and whatever fails, the storage stays sound and the disk faithful.  When
    the task commits, S3 has accepted the upload; the metadata of the key then carries the
    ETag of the answer and the length of the object's bytes (the body, or what its
    aws-chunked coding decodes to), and until its TTL runs out the object loads as exactly
    those bytes.  The channel to the task is closed by the task alone, when it gives up. *)
Theorem put_cached_exact `{HashIter} `{PathCodecSpec} `{FrameEncoder} `{FrameCodec} `{HttpDate} `{!Comp.FrameCodecLaws}
    object `{!LayoutSeparates object} env config wire reads rq frames trailers st bucket object_key :
  storage_ok object st -> parse_cache_key (put_key rq) = Ok (bucket, object_key) ->
  put_events rq = Wire.body_events frames trailers ->
  (forall content_length st1 w n, put_setup env config rq content_length st = (st1, TeeTo w n) ->
     closed_by_task env wire (Chunked.is_aws_chunked (put_headers rq)) w (compression_stats st1) (Wire.nonempty frames)) ->
  (forall f r data, forward_put config wire reads rq true = (f, Ok r) -> is_success (Wire.rs_status r) = true ->
     object_bytes (Chunked.is_aws_chunked (put_headers rq)) (concat frames) = Some data ->
     object (put_key rq) (response_etag (response_map (Wire.rs_headers r))) = data) ->
  let '(f, response, st', outcome) := handle_put_object env config wire reads rq st in
  let '(f0, response0) := forward_put config wire reads rq false in
  Wire.fw_wire f = Wire.fw_wire f0 /\ response = response0 /\ storage_ok object st' /\ disk_faithful object (disk_of st') /\
  (outcome = Some Committed -> exists r data m, response = Ok r /\ is_success (Wire.rs_status r) = true /\
     object_bytes (Chunked.is_aws_chunked (put_headers rq)) (concat frames) = Some data /\
     metadata_files st' !! get_new_metadata_file_path (put_key rq) = Some (MetaParsed m) /\
     om_etag (cm_object_metadata m) = response_etag (response_map (Wire.rs_headers r)) /\
     om_content_length (cm_object_metadata m) = zlen data /\
     forall now last_modified, now <= se_clock (pe_store env) 0 + pc_ttl config ->
       Disk.load_range_data_from_new_storage now (disk_of st') (put_key rq)
         (mkCachedRange 0 (zlen data - 1) [] (om_etag (cm_object_metadata m)) last_modified Lz4) = Ok data).
Proof.
  intros Hok Hk Hev Hclosed Hobj.
  assert (forall content_length, content_length = part_content_length (put_headers rq) \/ content_length = None ->
    let '(f, response, st', outcome) := stream_put_to_upstream env config wire reads rq content_length st in
    let '(f0, response0) := forward_put config wire reads rq false in
    Wire.fw_wire f = Wire.fw_wire f0 /\ response = response0 /\ storage_ok object st' /\
    (outcome = Some Committed -> committed_object env config rq frames response st')) as Hspec.
  { intros content_length Hcl. apply (stream_put_spec object env config wire reads rq content_length frames trailers st); try done;
      [| intros; by eapply Hclosed]. intros n Hn. apply (decoded_length_u64 (put_headers rq)). destruct Hcl as [-> | ->]; auto. }
  unfold handle_put_object.
  destruct (Capacity.check_cache_capacity _ _ _); [specialize (Hspec _ (or_introl eq_refl)) | | specialize (Hspec _ (or_intror eq_refl))].
  2: { destruct (forward_put config wire reads rq false). split_and!; try done. by apply storage_ok_faithful. }
  all: destruct (stream_put_to_upstream _ _ _ _ _ _ _) as [[[f response] st'] outcome];
    destruct (forward_put config wire reads rq false) as [f0 response0]; destruct Hspec as (Hw & Hr & Hok' & Hc);
    split_and!; [done | done | done | by apply storage_ok_faithful |]; intros Ho;
    destruct (Hc Ho) as (r & data & -> & Hsucc & Hb & Hz & Hh); exists r, data;
    pose proof Hh as (m & _ & _ & Hm & He & Hl & _); exists m; split_and!; try done;
    intros now last_modified Hnow; rewrite He; by eapply holds_object_loads; [| | lia |].
Qed.

(** ** The task of a part *)





(** ** Samples *)

#[local] Existing Instance map_order.
#[local] Existing Instance sample_codec.
#[local] Existing Instance sample_codec_spec.
#[local] Existing Instance Comp.stored_only.
#[local] Existing Instance Comp.stored_reader.
#[local] Existing Instance Comp.stored_reader_laws.
#[local] Existing Instance no_dates.
#[local] Existing Instance sample_layout.

Definition sample_put_env : put_env := mkPutEnv sample_writer_env None (fun _ => true) (fun _ => true).

Definition sample_config : put_config := mkPutConfig 0 1000 true true false 60 true None (fun _ _ => true).

Definition line (s : string) : string := s +:+ Wire.crlf.

(** The object's bytes in one signed chunk, cut inside it. *)
Definition sample_body : bytes :=
  Chunked.str_bytes (line "6;chunk-signature=00") ++ Disk.sample_bytes ++ Chunked.CRLF
  ++ Chunked.str_bytes (line "0;chunk-signature=00" +:+ Wire.crlf).

Definition sample_frames : list bytes := [take 25 sample_body; drop 25 sample_body].

Definition sample_put : PutRequest :=
  mkPut "b/k/x" (Wire.mkRequest "PUT" "/b/k/x" "HTTP/1.1" [("host", Some "s3.amazonaws.com")])
    [("content-encoding", "aws-chunked"); ("x-amz-decoded-content-length", "6"); ("content-length", "56")]
    (Wire.body_events sample_frames None).

Definition sample_answer : list Wire.read_event :=
  [Wire.RData (Chunked.str_bytes (line "HTTP/1.1 100 Continue" +:+ Wire.crlf));
   Wire.RData (Chunked.str_bytes (line "HTTP/1.1 200 OK" +:+ line "ETag: v1" +:+ line "Content-Length: 0" +:+ Wire.crlf))].

Definition sample_result := handle_put_object sample_put_env sample_config Wire.fair_wire sample_answer sample_put empty_storage.

Lemma put_cached_exact_witness :
  let '(f, response, st', outcome) := sample_result in
  outcome = Some Committed /\
  Disk.load_range_data_from_new_storage 5 (disk_of st') "b/k/x" (mkCachedRange 0 5 [] "v1" "" Lz4) = Ok Disk.sample_bytes.
Proof.
  pose proof (put_cached_exact sample_object sample_put_env sample_config Wire.fair_wire sample_answer sample_put sample_frames None
    empty_storage "b" "k/x" empty_storage_ok eq_refl eq_refl) as Hw.
  assert (sample_result.2 = Some Committed) as Ho by (vm_compute; reflexivity).
  unfold sample_result in *. destruct (handle_put_object _ _ _ _ _ _) as [[[f response] st'] outcome] eqn:E. cbn [snd] in Ho.
  destruct (forward_put sample_config Wire.fair_wire sample_answer sample_put false) as [f0 response0] eqn:E0.
  destruct Hw as (_ & Hr & _ & _ & Hc).
  - intros ? ? ? ? _ k Hk. discriminate Hk.
  - intros f1 r data _ _ Hb. vm_compute in Hb. by injection Hb as <-.
  - split; [exact Ho |]. destruct (Hc Ho) as (r & data & m & Hresp & _ & Hb & _ & He & _ & Hl). vm_compute in Hb. injection Hb as <-.
    specialize (Hl 5 ""%string ltac:(vm_compute; discriminate)). rewrite He in Hl. rewrite Hresp in Hr.
    change response0 with (f0, response0).2 in Hr. rewrite <- E0 in Hr. vm_compute in Hr. injection Hr as ->. exact Hl.
Defined.




(** ** Routing *)

(** The routes of the five writes an SDK sends, and of a part whose number is no [u32]. *)
Example routes :
  handle_put "POST" "uploads" = CreateUpload
  /\ handle_put "PUT" "partNumber=7&uploadId=abc" = UploadPart "abc" 7
  /\ handle_put "DELETE" "uploadId=abc" = AbortUpload "abc"
  /\ handle_put "POST" "uploadId=abc" = CompleteUpload "abc"
  /\ handle_put "PUT" "" = PutObject
  /\ handle_put "PUT" "partNumber=4294967296&uploadId=abc" = PutObject.
Proof. vm_compute. split_and!; reflexivity. Qed.

(** ** What the cache takes for an object *)

(** A write of a sub-resource has no route of its own. *)
Lemma subresource_is_object :
  handle_put "PUT" "tagging" = PutObject /\ handle_put "PUT" "acl" = PutObject /\ handle_put "PUT" "retention" = PutObject.
Proof. vm_compute. split_and!; reflexivity. Qed.

Definition tagging_put : PutRequest :=
  mkPut "b/k/x" (Wire.mkRequest "PUT" "/b/k/x?tagging" "HTTP/1.1" [("host", Some "s3.amazonaws.com")])
    [("content-length", "10")] (Wire.body_events [Chunked.str_bytes "<Tagging/>"] None).

Definition plain_answer : list Wire.read_event :=
  [Wire.RData (Chunked.str_bytes (line "HTTP/1.1 200 OK" +:+ line "Content-Length: 0" +:+ Wire.crlf))].

(** The tags of an object are cached as its content. *)
Lemma tagging_cached_as_object :
  let '(_, _, st, outcome) := handle_put_object sample_put_env sample_config Wire.fair_wire plain_answer tagging_put empty_storage in
  outcome = Some Committed /\
  Disk.load_range_data_from_new_storage 5 (disk_of st) "b/k/x" (mkCachedRange 0 9 [] "" "" Lz4) = Ok (Chunked.str_bytes "<Tagging/>").
Proof. vm_compute. split; reflexivity. Qed.

Definition copy_put : PutRequest :=
  mkPut "b/k/x" (Wire.mkRequest "PUT" "/b/k/x" "HTTP/1.1" [("host", Some "s3.amazonaws.com"); ("x-amz-copy-source", Some "/b/other")])
    [("content-length", "0"); ("x-amz-copy-source", "/b/other")] (Wire.body_events [] None).

(** A copy, which has no body, is cached as an empty object. *)
Lemma copy_cached_as_empty :
  let '(_, _, st, _) := handle_put_object sample_put_env sample_config Wire.fair_wire plain_answer copy_put empty_storage in
  (fun m => (om_content_length (cm_object_metadata m), cm_ranges m)) <$> parsed_at (get_new_metadata_file_path "b/k/x") st = Some (0, []).
Proof. vm_compute. reflexivity. Qed.

(** The headers of the answer to a write are kept for the object: its length is theirs. *)
Lemma answer_length_kept :
  let '(_, _, st, _) := sample_result in
  (fun m => om_response_headers (cm_object_metadata m) !! "content-length"%string)
    <$> parsed_at (get_new_metadata_file_path "b/k/x") st = Some (Some "0"%string).
Proof. vm_compute. reflexivity. Qed.

(** Writing a key that spells a range of another removes that range. *)
Lemma spelled_range_removed :
  let '(_, _, st, _) := sample_result in
  let st' := (invalidate_cache_hierarchy sample_put_env "b/k/x:range:0:0-5:range:" st).1 in
  is_Some (parsed_at (get_new_metadata_file_path "b/k/x") st) /\ parsed_at (get_new_metadata_file_path "b/k/x") st' = None.
Proof. vm_compute. split; [by eexists | reflexivity]. Qed.

(** A range whose file is gone is debited all the same. *)
Lemma absent_file_debited :
  let '(_, _, st, _) := sample_result in
  let st := set_accumulator (Size.new "h:1") (set_range_files ∅ st) in
  Size.delta (accumulator (invalidate_cache_hierarchy sample_put_env "b/k/x" st).1) < 0.
Proof. vm_compute. reflexivity. Qed.

End Through.
