(* ===== verification/Egress.v ===== *)
(** * Where the proxy connects to ([destination_policy.rs], [tcp_proxy.rs],
      [tls_proxy_listener.rs], [connection_pool.rs], [upstream_overrides.rs],
      [https_connector.rs])

    The tunnels a client asks for, by CONNECT or by the server name of its TLS handshake,
    with the policy that keeps them away from internal addresses, and the transport of the
    requests the proxy makes itself.  An address is the integer of its bits.  What DNS
    answers is an argument. *)

From S2P Require Import Prelude CacheTypes SignedRequest AwsChunked Maps DiskRanges Frames RustStr.

#[local] Open Scope Z_scope.

Module Net.

(** ** Addresses *)

Inductive IpAddr := V4 (bits : Z) | V6 (bits : Z).

#[global] Instance IpAddr_eq_dec : EqDecision IpAddr.
Proof. solve_decision. Defined.

#[global] Instance IpAddr_countable : Countable IpAddr.
Proof.
  refine (inj_countable' (fun ip => match ip with V4 b => inl b | V6 b => inr b end)
                         (fun s => match s with inl b => V4 b | inr b => V6 b end) _).
  by intros [].
Defined.


(** [Ipv4Addr::octets], [Ipv6Addr::segments]. *)
Definition octet (ip : Z) (i : Z) : Z := Z.land (Z.shiftr ip (24 - 8 * i)) 255.

Definition segment (ip : Z) (i : Z) : Z := Z.land (Z.shiftr ip (112 - 16 * i)) 65535.

Definition to_ipv4_mapped (ip : Z) : option Z :=
  if Z.shiftr ip 32 =? 65535 then Some (Z.land ip (2 ^ 32 - 1)) else None.

(** [IpAddr::from_str] reads a prefix of the text and wants nothing to follow. *)
Definition read_char (c : ascii) (s : string) : option string :=
  match s with String a s' => if ascii_eqb a c then Some s' else None | EmptyString => None end.

Fixpoint read_digits (fuel : nat) (radix max_digits acc count : Z) (s : string) : option (Z * Z * string) :=
  match s with
  | String a s' =>
      match fuel, to_digit radix a with
      | S f, Some d =>
          if max_digits <? count + 1 then None else read_digits f radix max_digits (acc * radix + d) (count + 1) s'
      | _, _ => Some (acc, count, s)
      end
  | EmptyString => Some (acc, count, s)
  end.

Definition read_number (radix max_digits limit : Z) (allow_zero_prefix : bool) (s : string) : option (Z * string) :=
  '(n, count, rest) ← read_digits (S (String.length s)) radix max_digits 0 0 s;
  if count =? 0 then None
  else if negb allow_zero_prefix && starts_with "0" s && (1 <? count) then None
  else if limit <? n then None else Some (n, rest).

Definition read_separator {A} (c : ascii) (first : bool) (read : string -> option (A * string)) (s : string) : option (A * string) :=
  if first then read s else s ← read_char c s; read s.

Definition read_ipv4_addr (s : string) : option (Z * string) :=
  let number := read_number 10 3 255 false in
  '(a, s) ← number s;
  '(b, s) ← read_separator "." false number s;
  '(c, s) ← read_separator "." false number s;
  '(d, s) ← read_separator "." false number s;
  Some (((a * 256 + b) * 256 + c) * 256 + d, s).

(** The groups read, whether they end with an IPv4 address, and the rest. *)
Fixpoint read_groups (limit : nat) (first : bool) (s : string) : list Z * bool * string :=
  match limit with
  | O => ([], false, s)
  | S more =>
      match (if bool_decide (more = O) then None else read_separator ":" first read_ipv4_addr s) with
      | Some (v4, s) => ([Z.shiftr v4 16; Z.land v4 65535], true, s)
      | None =>
          match read_separator ":" first (read_number 16 4 65535 true) s with
          | Some (group, s) => let '(groups, v4, s) := read_groups more false s in (group :: groups, v4, s)
          | None => ([], false, s)
          end
      end
  end.

Definition of_segments (groups : list Z) : Z := foldl (fun acc g => acc * 65536 + g) 0 groups.

Definition read_ipv6_addr (s : string) : option (Z * string) :=
  let '(front, front_ipv4, s) := read_groups 8 true s in
  if bool_decide (length front = 8%nat) then Some (of_segments front, s)
  else if front_ipv4 then None else
  s ← read_char ":" s;
  s ← read_char ":" s;
  let '(back, _, s) := read_groups (7 - length front) true s in
  Some (of_segments (front ++ replicate (8 - length front - length back) 0 ++ back), s).

Definition parse_ip (s : string) : option IpAddr :=
  match read_ipv4_addr s with
  | Some (bits, rest) => if is_empty_str rest then Some (V4 bits) else None
  | None => '(bits, rest) ← read_ipv6_addr s; if is_empty_str rest then Some (V6 bits) else None
  end.

Example parse_ip_forms :
  parse_ip "169.254.169.254" = Some (V4 2852039166) /\ parse_ip "010.0.0.1" = None /\ parse_ip "1.2.3.256" = None
  /\ parse_ip "::1" = Some (V6 1) /\ parse_ip "::" = Some (V6 0) /\ parse_ip "fe80::1:2" = Some (V6 (65152 * 2 ^ 112 + 65536 + 2))
  /\ parse_ip "::ffff:10.0.0.1" = Some (V6 (65535 * 2 ^ 32 + 167772161)) /\ parse_ip "1:2:3:4:5:6:7:8:9" = None
  /\ parse_ip "1::2::3" = None /\ parse_ip "1.2.3.4::" = None /\ parse_ip "[::1]" = None.
Proof. vm_compute. split_and!; reflexivity. Qed.

(** ** The destination policy *)

Inductive RejectionReason :=
  | PortNotAllowed (requested allowed : Z)
  | AllowlistMiss (hostname : string)
  | IpRangeBlocked (hostname : string) (ips : list IpAddr)
  | DnsResolutionFailed (hostname error : string).

Definition is_prohibited_v4 (ip : Z) : bool :=
  let o := octet ip in
  if o 0 =? 0 then true
  else if o 0 =? 127 then true
  else if o 0 =? 10 then true
  else if (o 0 =? 172) && (Z.land (o 1) 240 =? 16) then true
  else if (o 0 =? 192) && (o 1 =? 168) then true
  else (o 0 =? 169) && (o 1 =? 254).

Definition is_prohibited_v6 (ip : Z) : bool :=
  match to_ipv4_mapped ip with
  | Some v4 => is_prohibited_v4 v4
  | None =>
      if ip =? 0 then true
      else if ip =? 1 then true
      else if Z.land (segment ip 0) 65472 =? 65152 then true
      else Z.land (segment ip 0) 65024 =? 64512
  end.

Definition is_prohibited (ip : IpAddr) : bool :=
  match ip with V4 v4 => is_prohibited_v4 v4 | V6 v6 => is_prohibited_v6 v6 end.

Record DestinationPolicy := mkPolicy {
  allowed_port : Z;
  connect_allowlist : option (list string);
  endpoint_override_ips : gset IpAddr;
}.

Definition pattern_matches (hostname_lower pattern : string) : bool :=
  let pattern_lower := to_lowercase pattern in
  match strip_prefix "*." pattern_lower with
  | Some suffix => ends_with ("." +:+ suffix) hostname_lower || bool_decide (hostname_lower = suffix)
  | None => bool_decide (hostname_lower = pattern_lower)
  end.

Definition hostname_matches_allowlist (hostname : string) (allowlist : list string) : bool :=
  existsb (pattern_matches (to_lowercase hostname)) allowlist.

Definition ip_allowed (policy : DestinationPolicy) (ip : IpAddr) : bool :=
  if negb (is_prohibited ip) then true else bool_decide (ip ∈ endpoint_override_ips policy).

Definition classify_ips (policy : DestinationPolicy) (host : string) (resolved_ips : list IpAddr)
    : outcome RejectionReason (list IpAddr) :=
  match base.filter (fun ip => ip_allowed policy ip = true) resolved_ips with
  | [] => Err (IpRangeBlocked host resolved_ips)
  | allowed_ips => Ok allowed_ips
  end.

(** What a lookup answers: addresses, or an error. *)
Definition Resolver : Type := string -> outcome string (list IpAddr).

Definition check (policy : DestinationPolicy) (host : string) (port : Z) (lookup_ip : Resolver)
    : outcome RejectionReason (list IpAddr) :=
  if negb (port =? allowed_port policy) then Err (PortNotAllowed port (allowed_port policy)) else
  if match connect_allowlist policy with Some l => negb (hostname_matches_allowlist host l) | None => false end
  then Err (AllowlistMiss host) else
  match lookup_ip host with
  | Ok [] => Err (DnsResolutionFailed host "no IP addresses returned")
  | Ok resolved_ips => classify_ips policy host resolved_ips
  | Err e => Err (DnsResolutionFailed host e)
  | Panic => Panic
  end.

(** ** Endpoint overrides *)

Record EndpointOverrides := mkOverrides {
  eo_exact : gmap string (list IpAddr);
  eo_suffixes : list (string * list IpAddr);
}.

Section Config.
Context `{HashIter}.

Definition add_override (acc : gmap string (list IpAddr) * list (string * list IpAddr)) (entry : string * list string) :=
  let '(hostname, ip_strings) := entry in
  match omap parse_ip ip_strings with
  | [] => acc
  | ips =>
      match strip_prefix "*" hostname with
      | Some suffix => (acc.1, acc.2 ++ [(suffix, ips)])
      | None => (<[hostname := ips]> acc.1, acc.2)
      end
  end.

Definition longest_first {A} (suffix : A -> string) (l : list A) : list A :=
  sort_by_key (fun x => - Z.of_nat (String.length (suffix x))) l.

Definition EndpointOverrides_from_config (raw : gmap string (list string)) : EndpointOverrides :=
  let '(exact, suffixes) := foldl add_override (∅, []) (hash_iter raw) in
  mkOverrides exact (longest_first fst suffixes).

(** The carve-out of the policies. *)
Definition override_ips (raw : gmap string (list string)) : gset IpAddr :=
  foldl (fun ips entry => ips ∪ list_to_set (omap parse_ip entry.2)) ∅ (hash_iter raw).

End Config.

Definition resolve_override (overrides : EndpointOverrides) (endpoint : string) : option (list IpAddr) :=
  match eo_exact overrides !! endpoint with
  | Some ips => Some ips
  | None => snd <$> List.find (fun rule => ends_with rule.1 endpoint) (eo_suffixes overrides)
  end.

(** ** The server name of a TLS handshake *)

(** Offsets stay below the length of the buffer and a few 16-bit lengths. *)
Definition byte_at (data : bytes) (i : Z) : Result Z :=
  match data !! Z.to_nat i with Some b => Ok (Chunked.byte_val b) | None => Panic end.

Definition u16_at (data : bytes) (i : Z) : Result Z :=
  h ← byte_at data i; l ← byte_at data (i + 1); Ok (h * 256 + l).

Definition parse_sni_extension (data : bytes) : Result (option string) :=
  if zlen data <? 5 then Ok None else
  list_len ← u16_at data 0;
  if zlen data <? list_len + 2 then Ok None else
  name_type ← byte_at data 2;
  if negb (name_type =? 0) then Ok None else
  name_len ← u16_at data 3;
  if zlen data <? 5 + name_len then Ok None else
  hostname ← slice data 5 (5 + name_len);
  Ok (match Chunked.from_utf8 hostname with Ok h => Some h | _ => None end).

Fixpoint find_sni (fuel : nat) (data : bytes) (offset extensions_end : Z) : Result (option string) :=
  match fuel with
  | O => Ok None
  | S f =>
      if offset + 4 <=? extensions_end then
        ext_type ← u16_at data offset;
        ext_len ← u16_at data (offset + 2);
        let offset := offset + 4 in
        if (ext_type =? 0) && (offset + ext_len <=? extensions_end)
        then extension ← slice data offset (offset + ext_len); parse_sni_extension extension
        else find_sni f data (offset + ext_len) extensions_end
      else Ok None
  end.

Definition parse_client_hello_for_sni (data : bytes) : Result (option string) :=
  if zlen data <? 38 then Ok None else
  let offset := 4 + 2 + 32 in
  if zlen data <=? offset then Ok None else
  session_id_len ← byte_at data offset;
  let offset := offset + (1 + session_id_len) in
  if zlen data <? offset + 2 then Ok None else
  cipher_suites_len ← u16_at data offset;
  let offset := offset + (2 + cipher_suites_len) in
  if zlen data <=? offset then Ok None else
  compression_methods_len ← byte_at data offset;
  let offset := offset + (1 + compression_methods_len) in
  if zlen data <? offset + 2 then Ok None else
  extensions_len ← u16_at data offset;
  let offset := offset + 2 in
  let extensions_end := offset + extensions_len in
  if zlen data <? extensions_end then Ok None else
  find_sni (Z.to_nat extensions_len) data offset extensions_end.

Definition extract_sni_from_tls_handshake (data : bytes) : Result (option string) :=
  if zlen data <? 5 then Ok None else
  record_type ← byte_at data 0;
  if negb (record_type =? 22) then Ok None else
  handshake_data ← slice data 5 (zlen data);
  if zlen handshake_data <? 4 then Ok None else
  handshake_type ← byte_at handshake_data 0;
  if negb (handshake_type =? 1) then Ok None else
  parse_client_hello_for_sni handshake_data.

(** ** Tunnels *)

(** What becomes of a client's connection. *)
Inductive tunnel :=
  | Dial (ip : IpAddr) (port : Z)
  | Closed
  | Answer (status : Z)
  | Failed (error : ProxyError).

Definition establish_tcp_tunnel (policy : DestinationPolicy) (overrides : EndpointOverrides) (lookup_ip : Resolver)
    (target_host : string) : tunnel :=
  let allowed := match resolve_override overrides target_host with
                 | Some ips => classify_ips policy target_host ips
                 | None => check policy target_host 443 lookup_ip
                 end in
  match allowed with
  | Ok (ip :: _) => Dial ip 443
  | Ok [] => Failed (ConnectionError ("No IP addresses found for " +:+ target_host))
  | _ => Closed
  end.

(** The bytes peeked of a connection, at most [PEEK_BUFFER] of them. *)
Definition PEEK_BUFFER : Z := 4096.

Definition handle_connection (policy : DestinationPolicy) (overrides : EndpointOverrides) (lookup_ip : Resolver)
    (peeked : bytes) : tunnel :=
  match take (Z.to_nat PEEK_BUFFER) peeked with
  | [] => Closed
  | data =>
      match extract_sni_from_tls_handshake data with
      | Ok (Some target_host) => establish_tcp_tunnel policy overrides lookup_ip target_host
      | Ok None => Failed (ConnectionError "Failed to extract SNI from TLS handshake")
      | _ => Closed
      end
  end.

Definition parse_u16 (s : string) : option Z :=
  n ← parse_u64 s; if n <=? 65535 then Some n else None.

(** The host and port of an authority; a port that is not one is 443. *)
Definition connect_target (target : string) : string * Z :=
  match rsplit_once ":" target with
  | Some (host, port) => (host, default 443 (parse_u16 port))
  | None => (target, 443)
  end.

(** The answer is sent, and the first address is dialled once the client has taken it. *)
Definition handle_connect (policy : DestinationPolicy) (lookup_ip : Resolver) (authority : option string) : list tunnel :=
  let target := default "" authority in
  if is_empty_str target then [Answer 400] else
  let '(host, port) := connect_target target in
  match check policy host port lookup_ip with
  | Ok (ip :: _) => [Answer 200; Dial ip port]
  | Ok [] => [Answer 200]
  | _ => [Answer 403]
  end.

(** ** Which addresses are internal *)

(** The ranges of the documentation, as a base and the length of a prefix. *)
Definition v4 (a b c d : Z) : Z := ((a * 256 + b) * 256 + c) * 256 + d.

















(** ** Reading a handshake *)

Lemma byte_at_Ok data i : 0 <= i < zlen data -> exists v, byte_at data i = Ok v /\ 0 <= v < 256.
Proof.
  intros Hi. unfold byte_at. destruct (lookup_lt_is_Some_2 data (Z.to_nat i)) as [b ->]; [unfold zlen in Hi; lia |].
  eexists. split; [done |]. unfold Chunked.byte_val. pose proof (Byte.to_N_bounded b). lia.
Qed.

Lemma u16_at_Ok data i : 0 <= i -> i + 2 <= zlen data -> exists v, u16_at data i = Ok v /\ 0 <= v < 65536.
Proof.
  intros Hi Hlen. unfold u16_at. destruct (byte_at_Ok data i) as (h & -> & Hh); [lia |].
  destruct (byte_at_Ok data (i + 1)) as (l & -> & Hl); [lia |]. eexists. split; [done | lia].
Qed.

(** The next read succeeds, the next guard lets it through. *)
Ltac read_byte :=
  match goal with
  | |- context [mbind _ ?m] =>
      let v := fresh "v" in let E := fresh "E" in let Hv := fresh "Hv" in
      lazymatch m with
      | byte_at ?d ?i => destruct (byte_at_Ok d i) as (v & E & Hv); [lia |]
      | u16_at ?d ?i => destruct (u16_at_Ok d i) as (v & E & Hv); [lia | lia |]
      end; rewrite E; cbn [mbind outcome_bind]
  end.

Ltac read_guard :=
  lazymatch goal with
  | |- ex (fun r => (if ?a <? ?b then Ok None else _) = _) => destruct (Z.ltb_spec a b); [by eexists |]
  | |- ex (fun r => (if ?a <=? ?b then Ok None else _) = _) => destruct (Z.leb_spec a b); [by eexists |]
  | |- ex (fun r => (if negb (?a =? ?b) then Ok None else _) = _) => destruct (Z.eqb_spec a b); cbn [negb]; [| by eexists]
  end.

Lemma parse_sni_extension_total data : exists r, parse_sni_extension data = Ok r.
Proof.
  unfold parse_sni_extension. read_guard. read_byte. read_guard. read_byte. read_guard. read_byte. read_guard.
  rewrite slice_Ok by lia. by eexists.
Qed.

Lemma find_sni_total fuel data : forall offset extensions_end,
  0 <= offset -> extensions_end <= zlen data -> exists r, find_sni fuel data offset extensions_end = Ok r.
Proof.
  induction fuel as [| fuel IH]; intros offset extensions_end Ho He; [by eexists |]. cbn [find_sni].
  destruct (Z.leb_spec (offset + 4) extensions_end); [| by eexists]. read_byte. read_byte.
  destruct ((v =? 0) && (offset + 4 + v0 <=? extensions_end)) eqn:Hsni.
  - apply andb_true_iff in Hsni as [_ Hsni%Z.leb_le]. rewrite slice_Ok by lia. apply parse_sni_extension_total.
  - apply IH; lia.
Qed.

(** No input makes the parser read past its end. *)
Lemma extract_sni_total data : exists r, extract_sni_from_tls_handshake data = Ok r.
Proof.
  unfold extract_sni_from_tls_handshake. read_guard. read_byte. read_guard. rewrite slice_Ok by lia. cbn [mbind outcome_bind].
  set (handshake := sub_list data 5 (zlen data)). read_guard. read_byte. read_guard.
  unfold parse_client_hello_for_sni. do 2 read_guard. read_byte. read_guard. read_byte. read_guard. read_byte. read_guard. read_byte.
  read_guard. apply find_sni_total; lia.
Qed.

(** Each extension takes four bytes at least, so the length is fuel enough. *)
Lemma find_sni_fuel data fuel : forall fuel' offset extensions_end,
  extensions_end - offset <= Z.of_nat fuel -> extensions_end - offset <= Z.of_nat fuel' -> 0 <= offset -> extensions_end <= zlen data ->
  find_sni fuel data offset extensions_end = find_sni fuel' data offset extensions_end.
Proof.
  induction fuel as [| fuel IH]; intros [| fuel'] offset extensions_end Hf Hf' Ho He; cbn [find_sni]; try done;
    destruct (Z.leb_spec (offset + 4) extensions_end); try done; try lia.
  read_byte. read_byte. destruct (_ && _); [done |]. apply IH; lia.
Qed.

(** ** The layout of a ClientHello *)

Definition be16 (n : Z) : bytes := [byte_of_Z (n / 256); byte_of_Z n].

(** [hello_fixed]: the type and length of the message, the version and the random. *)
Record ClientHello := mkHello {
  hello_fixed : bytes;
  hello_session : bytes;
  hello_ciphers : bytes;
  hello_compression : bytes;
  hello_extensions : list (Z * bytes);
}.

Definition extension_bytes (e : Z * bytes) : bytes := be16 e.1 ++ be16 (zlen e.2) ++ e.2.

Definition extensions_bytes (h : ClientHello) : bytes := concat (extension_bytes <$> hello_extensions h).

Definition hello_bytes (h : ClientHello) : bytes :=
  hello_fixed h ++ [byte_of_Z (zlen (hello_session h))] ++ hello_session h
  ++ be16 (zlen (hello_ciphers h)) ++ hello_ciphers h
  ++ [byte_of_Z (zlen (hello_compression h))] ++ hello_compression h
  ++ be16 (zlen (extensions_bytes h)) ++ extensions_bytes h.

(** The body of the server-name extension of one host. *)
Definition server_name (host : bytes) : bytes := be16 (zlen host + 3) ++ [Byte.x00] ++ be16 (zlen host) ++ host.

Definition extension_ok (e : Z * bytes) : Prop := 0 <= e.1 < 65536 /\ zlen e.2 < 65536.

Definition hello_ok (h : ClientHello) : Prop :=
  length (hello_fixed h) = 38%nat /\ hello_fixed h !! 0%nat = Some Byte.x01 /\
  zlen (hello_session h) < 256 /\ zlen (hello_ciphers h) < 65536 /\ zlen (hello_compression h) < 256 /\
  zlen (extensions_bytes h) < 65536 /\ Forall extension_ok (hello_extensions h).

Definition server_name_extension (h : ClientHello) : option bytes :=
  snd <$> (list_find (fun e => e.1 = 0) (hello_extensions h) ≫= fun ie => Some ie.2).

Lemma byte_val_of_Z n : 0 <= n < 256 -> Chunked.byte_val (byte_of_Z n) = n.
Proof. intros Hn. change (Z_of_byte (byte_of_Z n) = n). rewrite Comp.Z_of_byte_of_Z. by apply Z.mod_small. Qed.

Lemma byte_at_app pre b post : byte_at (pre ++ b :: post) (zlen pre) = Ok (Chunked.byte_val b).
Proof. unfold byte_at, zlen. by rewrite Nat2Z.id, list_lookup_middle. Qed.

Lemma u16_at_app pre n post : 0 <= n < 65536 -> u16_at (pre ++ be16 n ++ post) (zlen pre) = Ok n.
Proof.
  intros Hn. unfold u16_at, be16. cbn [app]. rewrite byte_at_app. cbn [mbind outcome_bind].
  rewrite cons_middle, app_assoc. replace (zlen pre + 1) with (zlen (pre ++ [byte_of_Z (n / 256)])) by (rewrite zlen_app; done).
  rewrite byte_at_app. cbn [mbind outcome_bind]. rewrite byte_val_of_Z by (split; [apply Z.div_pos | apply Z.div_lt_upper_bound]; lia).
  unfold Chunked.byte_val. change (Z.of_N (Byte.to_N (byte_of_Z n))) with (Z_of_byte (byte_of_Z n)). rewrite Comp.Z_of_byte_of_Z.
  f_equal. pose proof (Z.div_mod n 256). lia.
Qed.

Lemma slice_middle {E A} (pre mid post : list A) : slice (E:=E) (pre ++ mid ++ post) (zlen pre) (zlen pre + zlen mid) = Ok mid.
Proof.
  rewrite slice_Ok by (rewrite ?zlen_app; pose proof (zlen_nonneg pre); pose proof (zlen_nonneg mid); pose proof (zlen_nonneg post); lia).
  f_equal. unfold sub_list, zlen. rewrite Nat2Z.id, drop_app_length. replace (Z.to_nat _) with (length mid) by lia. apply take_app_length.
Qed.

(** A read at the end of a known prefix. *)
Lemma byte_at_eq data i pre n post : data = pre ++ [byte_of_Z n] ++ post -> i = zlen pre -> 0 <= n < 256 -> byte_at data i = Ok n.
Proof. intros -> -> Hn. cbn [app]. by rewrite byte_at_app, byte_val_of_Z. Qed.

Lemma u16_at_eq data i pre n post : data = pre ++ be16 n ++ post -> i = zlen pre -> 0 <= n < 65536 -> u16_at data i = Ok n.
Proof. intros -> ->. apply u16_at_app. Qed.

Lemma slice_eq {E A} (data : list A) i j pre mid post :
  data = pre ++ mid ++ post -> i = zlen pre -> j = zlen pre + zlen mid -> slice (E:=E) data i j = Ok mid.
Proof. intros -> -> ->. apply slice_middle. Qed.

Lemma zlen_be16 n : zlen (be16 n) = 2.
Proof. done. Qed.

Lemma zlen_extension e : zlen (extension_bytes e) = zlen e.2 + 4.
Proof. unfold extension_bytes. rewrite !zlen_app, !zlen_be16. lia. Qed.

Lemma parse_server_name host name : zlen host + 3 < 65536 -> Chunked.from_utf8 host = Ok name ->
  parse_sni_extension (server_name host) = Ok (Some name).
Proof.
  intros Hlen Hname. unfold parse_sni_extension. pose proof (zlen_nonneg host).
  assert (zlen (server_name host) = zlen host + 5) as -> by (unfold server_name; rewrite !zlen_app, !zlen_be16; change (zlen [Byte.x00]) with 1; lia).
  destruct (Z.ltb_spec (zlen host + 5) 5); [lia |].
  rewrite (u16_at_eq _ 0 [] (zlen host + 3) ([Byte.x00] ++ be16 (zlen host) ++ host)) by (done || lia). cbn [mbind outcome_bind].
  destruct (Z.ltb_spec (zlen host + 5) (zlen host + 3 + 2)); [lia |].
  rewrite (byte_at_eq _ 2 (be16 (zlen host + 3)) 0 (be16 (zlen host) ++ host)) by (done || lia). cbn [mbind outcome_bind Z.eqb negb].
  rewrite (u16_at_eq _ 3 (be16 (zlen host + 3) ++ [Byte.x00]) (zlen host) host) by (done || lia). cbn [mbind outcome_bind].
  destruct (Z.ltb_spec (zlen host + 5) (5 + zlen host)); [lia |].
  rewrite (slice_eq _ 5 (5 + zlen host) (be16 (zlen host + 3) ++ [Byte.x00] ++ be16 (zlen host)) host []); [| | done..].
  - cbn [mbind outcome_bind]. by rewrite Hname.
  - unfold server_name. by rewrite app_nil_r, <- !app_assoc.
Qed.

Lemma find_sni_extensions exts : forall fuel pre post,
  (length exts <= fuel)%nat -> Forall extension_ok exts ->
  find_sni fuel (pre ++ concat (extension_bytes <$> exts) ++ post) (zlen pre) (zlen pre + zlen (concat (extension_bytes <$> exts)))
  = match list_find (fun e => e.1 = 0) exts with Some (_, e) => parse_sni_extension e.2 | None => Ok None end.
Proof.
  induction exts as [| e exts IH]; intros fuel pre post Hf Hok.
  - destruct fuel; [done |]. cbn. by destruct (Z.leb_spec (zlen pre + 4) (zlen pre + zlen (@nil Byte.byte))); [rewrite zlen_nil in *; lia |].
  - apply Forall_cons in Hok as [[Ht Hb] Hok]. destruct fuel as [| fuel]; [cbn in Hf; lia |]. cbn [find_sni fmap list_fmap concat].
    set (tail := concat (extension_bytes <$> exts)) in *. pose proof (zlen_nonneg e.2). pose proof (zlen_nonneg tail).
    change (concat (list_fmap _ _ extension_bytes exts)) with tail. rewrite zlen_app, zlen_extension. destruct (Z.leb_spec (zlen pre + 4) (zlen pre + (zlen e.2 + 4 + zlen tail))); [| lia].
    unfold extension_bytes. rewrite <- !app_assoc.
    rewrite (u16_at_eq _ (zlen pre) pre e.1 (be16 (zlen e.2) ++ e.2 ++ tail ++ post)) by (done || lia). cbn [mbind outcome_bind].
    rewrite (u16_at_eq _ (zlen pre + 2) (pre ++ be16 e.1) (zlen e.2) (e.2 ++ tail ++ post)) by (rewrite ?zlen_app, ?zlen_be16, <- ?app_assoc; done || lia).
    cbn [mbind outcome_bind list_find].
    assert (pre ++ be16 e.1 ++ be16 (zlen e.2) ++ e.2 ++ tail ++ post = (pre ++ extension_bytes e) ++ tail ++ post) as Hdata
      by (unfold extension_bytes; by rewrite <- !app_assoc).
    destruct (Z.eqb_spec e.1 0) as [Hsni | Hsni].
    + rewrite decide_True by done. rewrite (proj2 (Z.leb_le _ _)) by lia. cbn [andb].
      rewrite (slice_eq _ _ _ (pre ++ be16 e.1 ++ be16 (zlen e.2)) e.2 (tail ++ post));
        [done | by rewrite <- !app_assoc | rewrite !zlen_app, !zlen_be16; lia..].
    + rewrite decide_False by done. cbn [andb]. rewrite Hdata.
      replace (zlen pre + 4 + zlen e.2) with (zlen (pre ++ extension_bytes e)) by (rewrite zlen_app, zlen_extension; lia).
      replace (zlen pre + (zlen e.2 + 4 + zlen tail)) with (zlen (pre ++ extension_bytes e) + zlen tail)
        by (rewrite zlen_app, zlen_extension; lia).
      cbn in Hf. rewrite IH by (done || lia). destruct (list_find _ exts) as [[] |]; done.
Qed.

Lemma extract_hello record hello post : length record = 4%nat -> hello_ok hello ->
  extract_sni_from_tls_handshake (Byte.x16 :: record ++ hello_bytes hello ++ post) = parse_client_hello_for_sni (hello_bytes hello ++ post).
Proof.
  intros Hrec (Hfix & Hone & _). set (handshake := hello_bytes hello ++ post).
  assert (exists rest, handshake = Byte.x01 :: rest /\ 37 <= zlen rest) as (rest & Hh & Hlen).
  { unfold handshake, hello_bytes. destruct (hello_fixed hello) as [| b fixed]; [done |]. injection Hone as ->.
    eexists. split; [done |]. injection Hfix as Hfix. unfold zlen. rewrite !length_app. lia. }
  unfold extract_sni_from_tls_handshake.
  assert (zlen (Byte.x16 :: record ++ handshake) = 5 + zlen handshake) as Hz
    by (rewrite zlen_cons, zlen_app; unfold zlen at 1; rewrite Hrec; lia).
  rewrite Hz. pose proof (zlen_nonneg handshake). destruct (Z.ltb_spec (5 + zlen handshake) 5); [lia |].
  cbn [byte_at lookup list_lookup Z.to_nat mbind outcome_bind]. change (Chunked.byte_val Byte.x16) with 22. cbn [Z.eqb Pos.eqb negb].
  rewrite (slice_eq _ 5 _ (Byte.x16 :: record) handshake []);
    [| by rewrite app_nil_r | unfold zlen; cbn [length]; rewrite Hrec; lia | unfold zlen; cbn [length]; rewrite Hrec; lia].
  cbn [mbind outcome_bind]. rewrite Hh. rewrite zlen_cons. destruct (Z.ltb_spec (zlen rest + 1) 4); [lia |].
  by assert (byte_at (Byte.x01 :: rest) 0 = Ok 1) as -> by done.
Qed.

Lemma extensions_length exts : Z.of_nat (length exts) <= zlen (concat (extension_bytes <$> exts)).
Proof.
  induction exts as [| e exts IH]; [done |]. cbn [fmap list_fmap concat length]. rewrite zlen_app, zlen_extension.
  pose proof (zlen_nonneg e.2). change (list_fmap _ _ extension_bytes exts) with (extension_bytes <$> exts). lia.
Qed.

Ltac pass_guard :=
  match goal with
  | |- context [if ?a <? ?b then Ok None else _] => destruct (Z.ltb_spec a b); [exfalso; lia |]
  | |- context [if ?a <=? ?b then Ok None else _] => destruct (Z.leb_spec a b); [exfalso; lia |]
  end.

(** The side conditions of a read: the data, the offset, the value's width. *)
Ltac at_end Hdata :=
  first [ rewrite Hdata; by rewrite <- !app_assoc
        | rewrite !zlen_app, ?zlen_be16; unfold zlen; cbn [length]; unfold zlen in *; lia
        | lia ].

Lemma parse_hello hello post : hello_ok hello ->
  parse_client_hello_for_sni (hello_bytes hello ++ post)
  = match server_name_extension hello with Some body => parse_sni_extension body | None => Ok None end.
Proof.
  intros (Hfix & _ & Hs & Hc & Hm & He & Hexts). unfold hello_bytes.
  set (fixed := hello_fixed hello) in *. set (session := hello_session hello) in *. set (ciphers := hello_ciphers hello) in *.
  set (compression := hello_compression hello) in *. set (exts := extensions_bytes hello) in *.
  set (data := _ ++ post).
  assert (zlen fixed = 38) as Hf by (unfold zlen; rewrite Hfix; done).
  pose proof (zlen_nonneg session); pose proof (zlen_nonneg ciphers); pose proof (zlen_nonneg compression);
    pose proof (zlen_nonneg exts); pose proof (zlen_nonneg post).
  assert (zlen data = 44 + zlen session + zlen ciphers + zlen compression + zlen exts + zlen post) as Hlen.
  { unfold data. rewrite !zlen_app, !zlen_be16, Hf. change (zlen [byte_of_Z (zlen session)]) with 1.
    change (zlen [byte_of_Z (zlen compression)]) with 1. lia. }
  assert (data = fixed ++ [byte_of_Z (zlen session)] ++ session ++ be16 (zlen ciphers) ++ ciphers
    ++ [byte_of_Z (zlen compression)] ++ compression ++ be16 (zlen exts) ++ exts ++ post) as Hdata
    by (unfold data; by rewrite <- !app_assoc).
  clearbody data. unfold parse_client_hello_for_sni. rewrite Hlen. do 2 pass_guard.
  rewrite (byte_at_eq data (4 + 2 + 32) fixed (zlen session) _ Hdata) by lia. cbn [mbind outcome_bind]. pass_guard.
  rewrite (u16_at_eq data _ (fixed ++ [byte_of_Z (zlen session)] ++ session) (zlen ciphers) (ciphers
    ++ [byte_of_Z (zlen compression)] ++ compression ++ be16 (zlen exts) ++ exts ++ post)) by (at_end Hdata).
  cbn [mbind outcome_bind]. pass_guard.
  rewrite (byte_at_eq data _ (fixed ++ [byte_of_Z (zlen session)] ++ session ++ be16 (zlen ciphers) ++ ciphers)
    (zlen compression) (compression ++ be16 (zlen exts) ++ exts ++ post)) by (at_end Hdata).
  cbn [mbind outcome_bind]. pass_guard.
  set (before := fixed ++ [byte_of_Z (zlen session)] ++ session ++ be16 (zlen ciphers) ++ ciphers ++ [byte_of_Z (zlen compression)] ++ compression).
  rewrite (u16_at_eq data _ before (zlen exts) (exts ++ post)) by (unfold before; at_end Hdata).
  cbn [mbind outcome_bind]. pass_guard.
  assert (data = (before ++ be16 (zlen exts)) ++ exts ++ post) as -> by (rewrite Hdata; unfold before; by rewrite <- !app_assoc).
  set (offset := 4 + 2 + 32 + _ + _ + _ + 2).
  assert (offset = zlen (before ++ be16 (zlen exts))) as ->
    by (unfold offset, before; rewrite !zlen_app, !zlen_be16, Hf; unfold zlen; cbn [length]; lia).
  pose proof (find_sni_extensions (hello_extensions hello) (Z.to_nat (zlen exts)) (before ++ be16 (zlen exts)) post) as Hfind.
  change (concat (extension_bytes <$> hello_extensions hello)) with exts in Hfind. rewrite Hfind; [| | done].
  - unfold server_name_extension. by destruct (list_find _ _) as [[] |].
  - apply Nat2Z.inj_le. rewrite Z2Nat.id by lia. apply extensions_length.
Qed.

(** C27: the server name is read off every ClientHello.  No input makes the parser read out
    of bounds.  On the bytes of a handshake record that hold a ClientHello laid out as the
    protocol says, whatever its session, ciphers, compression methods and extensions and
    whatever follows it, the parser returns the host of its server-name extension, and
    nothing when it has none. *)
Theorem sni_hostname_read data record hello post :
  (exists r, extract_sni_from_tls_handshake data = Ok r) /\
  (length record = 4%nat -> hello_ok hello ->
   let handshake := Byte.x16 :: record ++ hello_bytes hello ++ post in
   (server_name_extension hello = None -> extract_sni_from_tls_handshake handshake = Ok None) /\
   (forall host name, server_name_extension hello = Some (server_name host) -> zlen host + 3 < 65536 ->
      Chunked.from_utf8 host = Ok name -> extract_sni_from_tls_handshake handshake = Ok (Some name))).
Proof.
  split; [apply extract_sni_total |]. intros Hrec Hok handshake.
  assert (extract_sni_from_tls_handshake handshake = match server_name_extension hello with
    | Some body => parse_sni_extension body | None => Ok None end) as ->.
  { unfold handshake. rewrite extract_hello by done. by apply parse_hello. }
  split; [by intros -> |]. intros host name -> Hlen Hname. by apply parse_server_name.
Qed.

(** ** Overrides and the policy *)

(** The first match in the order of length is the most specific one. *)
Lemma find_most_specific {A} (suffix : A -> string) (test : A -> bool) l x :
  List.find test (longest_first suffix l) = Some x ->
  x ∈ l /\ test x = true /\ forall y, y ∈ l -> test y = true -> (String.length (suffix y) <= String.length (suffix x))%nat.
Proof.
  unfold longest_first. set (key := fun x => _). intros Hf.
  pose proof (sort_by_key_perm key l) as Hp. pose proof (sort_by_key_sorted key l) as Hs.
  destruct (List.find_some _ _ Hf) as [Hin Ht].
  split; [by rewrite <- Hp, list_elem_of_In |]. split; [done |]. intros y Hy Hty. rewrite <- Hp in Hy.
  clear Hp. revert Hf. induction Hs as [| z sorted Hs IH Hz]; [done |]. cbn. destruct (test z) eqn:Hz'.
  - intros [= ->]. apply elem_of_cons in Hy as [-> | Hy]; [done |]. rewrite Forall_forall in Hz. specialize (Hz y Hy). unfold key_le, key in Hz. lia.
  - intros Hf. apply elem_of_cons in Hy as [-> | Hy]; [congruence |]. apply IH; [| | done..].
    + destruct Hin as [-> | Hin]; [congruence | done].
    + done.
Qed.

Section Configured.
Context `{HashIter}.







(** The policy of the listeners ([HttpsProxy::new], [TlsProxyListener::new]). *)
Definition listener_policy (connect_allowlist : option (list string)) (raw : gmap string (list string)) : DestinationPolicy :=
  mkPolicy 443 connect_allowlist (override_ips raw).






Lemma classify_ips_Ok policy host ips allowed :
  classify_ips policy host ips = Ok allowed <-> allowed <> [] /\ allowed = base.filter (fun ip => ip_allowed policy ip = true) ips.
Proof. unfold classify_ips. destruct (base.filter _ ips); [split; [done | by intros [? ->]] |]. split; [by intros [= <-] | by intros [_ ->]]. Qed.






Lemma classify_elem policy host ips ip rest : classify_ips policy host ips = Ok (ip :: rest) -> ip ∈ ips.
Proof.
  intros [_ Hc]%classify_ips_Ok. assert (ip ∈ base.filter (fun ip => ip_allowed policy ip = true) ips) as Hin by (rewrite <- Hc; left).
  by apply list_elem_of_filter in Hin as [_ ?].
Qed.

End Configured.





(** ** Samples *)

#[local] Existing Instance map_order.

Definition sample_hello (host : string) : ClientHello :=
  mkHello (Byte.x01 :: replicate 37 Byte.x00) [Byte.xaa] [Byte.x13; Byte.x01] [Byte.x00]
    [(10, [Byte.x00; Byte.x1d]); (0, server_name (Chunked.str_bytes host)); (43, [])].

Definition sample_record (host : string) : bytes :=
  Byte.x16 :: [Byte.x03; Byte.x01; Byte.x00; Byte.x00] ++ hello_bytes (sample_hello host).

Lemma sni_hostname_read_witness :
  extract_sni_from_tls_handshake (sample_record "s3.amazonaws.com" ++ [Byte.x17]) = Ok (Some "s3.amazonaws.com"%string).
Proof.
  destruct (sni_hostname_read [] [Byte.x03; Byte.x01; Byte.x00; Byte.x00] (sample_hello "s3.amazonaws.com") [Byte.x17]) as [_ Hread].
  destruct Hread as [_ Hread]; [reflexivity | |].
  - unfold hello_ok. split_and!; try reflexivity. repeat constructor; cbn; unfold extension_ok; cbn; lia.
  - unfold sample_record. rewrite <- app_comm_cons, <- app_assoc.
    apply (Hread (Chunked.str_bytes "s3.amazonaws.com")); reflexivity.
Defined.

Definition sample_overrides : gmap string (list string) := {[ "*.vpce.local"%string := ["10.0.0.7"%string] ]}.

Definition sample_allowlist : option (list string) := Some ["*.amazonaws.com"%string].

(** The first address is that of the instance metadata service. *)
Definition sample_dns : Resolver := fun host =>
  if ends_with "amazonaws.com" host then Ok [V4 (v4 169 254 169 254); V4 (v4 52 216 1 2)] else Err "NXDOMAIN".


(** ** Where the code and its documentation part *)

(** A server name with an override is not held against the allowlist. *)
Lemma override_skips_allowlist :
  handle_connection (listener_policy sample_allowlist sample_overrides) (EndpointOverrides_from_config sample_overrides) sample_dns
    (sample_record "a.vpce.local") = Dial (V4 (v4 10 0 0 7)) 443
  /\ hostname_matches_allowlist "a.vpce.local" ["*.amazonaws.com"%string] = false.
Proof. split; vm_compute; reflexivity. Qed.

(** A handshake that arrives in two segments is refused. *)
Lemma split_hello_refused :
  handle_connection (listener_policy None ∅) (EndpointOverrides_from_config ∅) sample_dns (take 60 (sample_record "s3.amazonaws.com"))
  = Failed (ConnectionError "Failed to extract SNI from TLS handshake")
  /\ handle_connection (listener_policy None ∅) (EndpointOverrides_from_config ∅) sample_dns (sample_record "s3.amazonaws.com")
     = Dial (V4 (v4 52 216 1 2)) 443.
Proof. split; vm_compute; reflexivity. Qed.

(** A port that is no port is taken for 443. *)
Lemma bad_port_is_443 :
  handle_connect (listener_policy sample_allowlist ∅) sample_dns (Some "s3.amazonaws.com:99999"%string)
  = [Answer 200; Dial (V4 (v4 52 216 1 2)) 443].
Proof. vm_compute. reflexivity. Qed.

(** An entry that starts with a star needs no dot, and case matters. *)
Lemma star_without_dot :
  let overrides := EndpointOverrides_from_config {[ "*example.com"%string := ["10.0.0.7"%string] ]} in
  resolve_override overrides "notexample.com" = Some [V4 (v4 10 0 0 7)] /\ resolve_override overrides "a.Example.com" = None.
Proof. split; vm_compute; reflexivity. Qed.

End Net.
