(* ===== verification/IpPool.v ===== *)
(** * Upstream addresses and transports ([connection_pool.rs], [upstream_overrides.rs],
      [https_connector.rs], [s3_client.rs], [http_proxy.rs])

    The transport of a request to S3 (verified TLS on port 443 unless the configuration
    says otherwise), the addresses of an endpoint with their round robin, the exclusion of
    addresses that fail and their recovery by probes.  Requests, DNS refreshes and probes
    of a process share the pool and the health tracker: at the end they are the steps of a
    relation, in which the accesses of one operation to the tracker are one step.  DNS answers and the outcomes of connections are arguments. *)

From S2P Require Import Prelude CacheTypes SignedRequest AwsChunked Maps DiskRanges Frames Egress RustStr.

#[local] Open Scope Z_scope.

Module Pool.
Import Net.

(** ** Transport overrides *)

Inductive UpstreamScheme := Http | Https.

Record UpstreamOverrideConfig := mkUpstream { scheme : UpstreamScheme; validate_tls : bool }.

Inductive TransportMode := Plaintext | TlsValidated | TlsUnvalidated.

#[global] Instance TransportMode_eq_dec : EqDecision TransportMode.
Proof. solve_decision. Defined.

Definition from_scheme (scheme : UpstreamScheme) (validate_tls : bool) : TransportMode :=
  match scheme with Http => Plaintext | Https => if validate_tls then TlsValidated else TlsUnvalidated end.

Record UpstreamOverrides := mkUpstreams {
  uo_exact : gmap (string * Z) TransportMode;
  uo_suffixes : list (string * Z * TransportMode);
}.

Definition host_has_literal_label (host : string) : bool :=
  existsb (fun label => negb (is_empty_str label) && negb (bool_decide (label = "*"))) (split_char "." host).

Definition strip_brackets (host : string) : string :=
  default host (strip_prefix "[" host ≫= strip_suffix "]").

(** The host and port of a key, unless it is malformed or would match any host. *)
Definition override_key (key : string) : option (string * Z) :=
  '(host_raw, port_raw) ← rsplit_once ":" key;
  port ← parse_u16 port_raw;
  let host := to_lowercase (trim (strip_brackets host_raw)) in
  if (port =? 0) || is_empty_str host || negb (host_has_literal_label host) then None else Some (host, port).

Definition add_upstream (acc : gmap (string * Z) TransportMode * list (string * Z * TransportMode))
    (entry : string * UpstreamOverrideConfig) :=
  match override_key entry.1 with
  | None => acc
  | Some (host, port) =>
      let mode := from_scheme (scheme entry.2) (validate_tls entry.2) in
      (<[(host, port) := mode]> acc.1,
       if bool_decide (is_Some (parse_ip host)) then acc.2 else acc.2 ++ [("." +:+ host, port, mode)])
  end.

Definition UpstreamOverrides_from_config `{HashIter} (raw : gmap string UpstreamOverrideConfig) : UpstreamOverrides :=
  let '(exact, suffixes) := foldl add_upstream (∅, []) (hash_iter raw) in
  mkUpstreams exact (longest_first (fun rule => rule.1.1) suffixes).

Definition upstream_resolve (o : UpstreamOverrides) (host : string) (port : Z) : option TransportMode :=
  let host := to_lowercase (strip_brackets host) in
  match uo_exact o !! (host, port) with
  | Some mode => Some mode
  | None => snd <$> List.find (fun rule => (rule.1.2 =? port) && ends_with rule.1.1 host) (uo_suffixes o)
  end.

Definition connect_port (mode : option TransportMode) (target_port : Z) : Z :=
  match mode with Some _ => target_port | None => 443 end.

(** ** Round robin *)

Record IpDistributor := mkDistributor { ips : list IpAddr; counter : Z }.

Definition IpDistributor_new (ips : list IpAddr) : IpDistributor := mkDistributor ips 0.

Definition select_ip (d : IpDistributor) : IpDistributor * option IpAddr :=
  if bool_decide (ips d = []) then (d, None)
  else (mkDistributor (ips d) (u64_add (counter d) 1), ips d !! Z.to_nat (counter d mod zlen (ips d))).

Definition update_ips (new_ips : list IpAddr) (d : IpDistributor) : IpDistributor := mkDistributor new_ips 0.

Definition remove_ip (ip : IpAddr) (d : IpDistributor) : IpDistributor :=
  match list_find (fun x => x = ip) (ips d) with
  | Some (pos, _) => mkDistributor (base.delete pos (ips d)) 0
  | None => d
  end.

Definition add_ip (ip : IpAddr) (d : IpDistributor) : IpDistributor * bool :=
  if bool_decide (ip ∈ ips d) then (d, false) else (mkDistributor (ips d ++ [ip]) 0, true).

(** The addresses from [start] on, and then those before it. *)
Definition rotation {A} (l : list A) (start : nat) : list A := drop start l ++ take start l.

Definition select_ip_excluding (exclude : list IpAddr) (d : IpDistributor) : IpDistributor * option IpAddr :=
  if bool_decide (ips d = []) then (d, None)
  else let start := Z.to_nat (counter d mod zlen (ips d)) in
       (mkDistributor (ips d) (u64_add (counter d) 1),
        snd <$> list_find (fun ip => ip ∉ exclude) (rotation (ips d) start)).

(** ** Health *)

Record IpHealthEntry := mkHealth { unhealthy_at : Z; cooldown : Z }.

Record IpHealthTracker := mkTracker {
  failures : gmap IpAddr Z;
  unhealthy : gmap IpAddr IpHealthEntry;
  threshold : Z;
  initial_cooldown : Z;
  max_cooldown : Z;
}.

Definition set_health (failures : gmap IpAddr Z) (unhealthy : gmap IpAddr IpHealthEntry) (t : IpHealthTracker) : IpHealthTracker :=
  mkTracker failures unhealthy (threshold t) (initial_cooldown t) (max_cooldown t).

(** [record_success], [record_probe_success] and [forget] have one body. *)
Definition record_success (ip : IpAddr) (t : IpHealthTracker) : IpHealthTracker :=
  set_health (base.delete ip (failures t)) (base.delete ip (unhealthy t)) t.

Definition record_failure_at (ip : IpAddr) (now : Z) (t : IpHealthTracker) : IpHealthTracker * bool :=
  let count := (default 0 (failures t !! ip) + 1) mod 2 ^ 32 in
  let threshold_reached := threshold t <=? count in
  (set_health (<[ip := count]> (failures t))
     (if threshold_reached && bool_decide (unhealthy t !! ip = None)
      then <[ip := mkHealth now (initial_cooldown t)]> (unhealthy t) else unhealthy t) t,
   threshold_reached).

(** [Duration::MAX] in nanoseconds. *)
Definition DURATION_MAX : Z := (2 ^ 64 - 1) * 1000000000 + 999999999.

Definition record_probe_failure_at (ip : IpAddr) (now : Z) (t : IpHealthTracker) : IpHealthTracker :=
  match unhealthy t !! ip with
  | Some entry =>
      let new_cooldown := Z.min (cooldown entry * 2) DURATION_MAX in
      set_health (failures t)
        (<[ip := mkHealth now (if max_cooldown t <? new_cooldown then max_cooldown t else new_cooldown)]> (unhealthy t)) t
  | None => t
  end.

(** [duration_since] of a later instant is zero. *)
Definition is_probe_candidate_at (ip : IpAddr) (now : Z) (t : IpHealthTracker) : bool :=
  match unhealthy t !! ip with
  | Some entry => cooldown entry <=? Z.max (now - unhealthy_at entry) 0
  | None => false
  end.

Definition is_unhealthy (ip : IpAddr) (t : IpHealthTracker) : bool := bool_decide (is_Some (unhealthy t !! ip)).

(** ** The pool *)

Record ConnectionPoolManager := mkPool {
  overrides : EndpointOverrides;
  ip_distributors : gmap string IpDistributor;
  resolved_ips : gmap string (list IpAddr);
  last_dns_refresh : gmap string Z;
  dns_refresh_count : Z;
  dns_refresh_interval : Z;
  max_registered_endpoints : Z;
}.

Definition set_distributors (d : gmap string IpDistributor) (p : ConnectionPoolManager) : ConnectionPoolManager :=
  mkPool (overrides p) d (resolved_ips p) (last_dns_refresh p) (dns_refresh_count p) (dns_refresh_interval p)
    (max_registered_endpoints p).

Section Manager.
Context `{HashIter}.

Definition new_with_config (raw : gmap string (list string)) (interval cap : Z) : ConnectionPoolManager :=
  let overrides := EndpointOverrides_from_config raw in
  mkPool overrides (IpDistributor_new <$> eo_exact overrides) ∅ ∅ 0 interval cap.

Definition resolve_endpoint (lookup_ip : Resolver) (endpoint : string) (p : ConnectionPoolManager) : Result (list IpAddr) :=
  match resolve_override (overrides p) endpoint with
  | Some ips => Ok ips
  | None =>
      match lookup_ip endpoint with
      | Ok [] => Err (ConnectionError ("No IP addresses found for endpoint: " +:+ endpoint))
      | Ok ips => Ok ips
      | Err e => Err (ConnectionError ("DNS resolution failed for " +:+ endpoint +:+ ": " +:+ e))
      | Panic => Panic
      end
  end.

(** Unhealthy addresses no endpoint resolves to any more are forgotten. *)
Definition forget_absent (resolved : gmap string (list IpAddr)) (t : IpHealthTracker) : IpHealthTracker :=
  let present := fun ip => existsb (fun entry => bool_decide (ip ∈ entry.2)) (hash_iter resolved) in
  let gone := fun ip => bool_decide (is_Some (unhealthy t !! ip)) && negb (present ip) in
  set_health (base.filter (fun entry => gone entry.1 = false) (failures t))
    (base.filter (fun entry => gone entry.1 = false) (unhealthy t)) t.

Definition refresh_endpoint_dns (lookup_ip : Resolver) (now : Z) (endpoint : string) (health : option IpHealthTracker)
    (p : ConnectionPoolManager) : ConnectionPoolManager * option IpHealthTracker * Result unit :=
  match resolve_endpoint lookup_ip endpoint p with
  | Ok new_ips =>
      let resolved := <[endpoint := new_ips]> (resolved_ips p) in
      let health := forget_absent resolved <$> health in
      let distributor_ips := match health with
                             | Some t => base.filter (fun ip => is_unhealthy ip t = false) new_ips
                             | None => new_ips
                             end in
      let distributor := match ip_distributors p !! endpoint with
                         | Some d => update_ips distributor_ips d
                         | None => IpDistributor_new distributor_ips
                         end in
      (mkPool (overrides p) (<[endpoint := distributor]> (ip_distributors p)) resolved
         (<[endpoint := now]> (last_dns_refresh p)) (u64_add (dns_refresh_count p) 1) (dns_refresh_interval p)
         (max_registered_endpoints p), health, Ok tt)
  | Err e => (p, health, Err e)
  | Panic => (p, health, Panic)
  end.

Definition register_endpoint (lookup_ip : Resolver) (now : Z) (endpoint : string) (p : ConnectionPoolManager) : ConnectionPoolManager :=
  if bool_decide (is_Some (resolved_ips p !! endpoint)) || bool_decide (is_Some (resolve_override (overrides p) endpoint)) then p
  else if max_registered_endpoints p <=? Z.of_nat (size (resolved_ips p)) then p
  else (refresh_endpoint_dns lookup_ip now endpoint None p).1.1.

Definition refresh_due (now : Z) (p : ConnectionPoolManager) (endpoint : string) : bool :=
  match last_dns_refresh p !! endpoint with
  | Some last => dns_refresh_interval p <=? Z.max (now - last) 0
  | None => true
  end.

(** Each endpoint that is due is resolved anew; one that fails is left as it is. *)
Definition refresh_dns (lookup_ip : Resolver) (now : Z) (health : option IpHealthTracker) (p : ConnectionPoolManager)
    : ConnectionPoolManager * option IpHealthTracker :=
  foldl (fun '(p, health) endpoint => (refresh_endpoint_dns lookup_ip now endpoint health p).1)
    (p, health) (base.filter (fun endpoint => refresh_due now p endpoint = true) (fst <$> hash_iter (resolved_ips p))).

Definition get_distributed_ip (endpoint : string) (p : ConnectionPoolManager) : ConnectionPoolManager * option IpAddr :=
  match ip_distributors p !! endpoint with
  | Some d => let '(d, ip) := select_ip d in (set_distributors (<[endpoint := d]> (ip_distributors p)) p, ip)
  | None => (p, None)
  end.

Fixpoint more_distinct (n : nat) (result : list IpAddr) (d : IpDistributor) : IpDistributor * list IpAddr :=
  match n with
  | O => (d, result)
  | S n =>
      match select_ip_excluding result d with
      | (d, Some ip) => more_distinct n (result ++ [ip]) d
      | (d, None) => (d, result)
      end
  end.

Definition distinct_ips (n : nat) (d : IpDistributor) : IpDistributor * list IpAddr :=
  match select_ip d with
  | (d, Some first) => more_distinct (n - 1) [first] d
  | (d, None) => (d, [])
  end.

Definition get_distinct_distributed_ips (host : string) (n : nat) (p : ConnectionPoolManager) : ConnectionPoolManager * list IpAddr :=
  match ip_distributors p !! host with
  | Some d => let '(d, result) := distinct_ips n d in (set_distributors (<[host := d]> (ip_distributors p)) p, result)
  | None => (p, [])
  end.

Definition select_ip_pair (host : string) (p : ConnectionPoolManager) : ConnectionPoolManager * (option IpAddr * option IpAddr) :=
  let '(p, result) := get_distinct_distributed_ips host 2 p in
  (p, match result with
      | [] => (None, None)
      | [ip] => (Some ip, Some ip)
      | ip :: ip' :: _ => (Some ip, Some ip')
      end).

Definition get_hostname_for_ip (ip : IpAddr) (p : ConnectionPoolManager) : option string :=
  match List.find (fun entry => bool_decide (ip ∈ ips entry.2)) (hash_iter (ip_distributors p)) with
  | Some (endpoint, _) => Some endpoint
  | None => fst <$> List.find (fun entry => bool_decide (ip ∈ entry.2)) (hash_iter (eo_exact (overrides p)))
  end.

Definition get_endpoint_for_ip (ip : IpAddr) (p : ConnectionPoolManager) : option string :=
  match get_hostname_for_ip ip p with
  | Some endpoint => Some endpoint
  | None => fst <$> List.find (fun entry => bool_decide (ip ∈ entry.2)) (hash_iter (resolved_ips p))
  end.

(** What a spawned task does with an address that failed too often. *)
Definition exclude_ip (host : string) (ip : IpAddr) (p : ConnectionPoolManager) : ConnectionPoolManager :=
  set_distributors (alter (remove_ip ip) host (ip_distributors p)) p.

Definition readmit_ip (endpoint : string) (ip : IpAddr) (p : ConnectionPoolManager) : ConnectionPoolManager :=
  set_distributors (alter (fun d => (add_ip ip d).1) endpoint (ip_distributors p)) p.

(** ** Connections to an upstream *)

(** [tls]: the name the handshake asks for, and whether the certificate is verified. *)
Record connection := mkConnection {
  c_ip : IpAddr;
  c_port : Z;
  c_tls : option (string * bool);
}.

Record request_uri := mkUri { uri_scheme : string; uri_host : string; uri_port : option Z }.

(** [CustomHttpsConnector::call], up to the connection it opens. *)
Definition connector_call (upstreams : UpstreamOverrides) (lookup_ip : Resolver) (p : ConnectionPoolManager)
    (uri : request_uri) : Result connection :=
  let target_port := default 80 (uri_port uri) in
  let transport_mode := upstream_resolve upstreams (uri_host uri) target_port in
  '(ip, tls_hostname) ←
    match parse_ip (uri_host uri) with
    | Some ip => Ok (ip, default (uri_host uri) (get_hostname_for_ip ip p))
    | None =>
        ips ← resolve_endpoint lookup_ip (uri_host uri) p;
        match ips with
        | ip :: _ => Ok (ip, uri_host uri)
        | [] => Err (ConnectionError ("No addresses found for " +:+ uri_host uri))
        end
    end;
  Ok (mkConnection ip (connect_port transport_mode target_port)
        match transport_mode with
        | Some Plaintext => None
        | Some TlsUnvalidated => Some (tls_hostname, false)
        | Some TlsValidated | None => Some (tls_hostname, true)
        end).

(** The text of an address. *)
Definition fmt_v4 (ip : Z) : string :=
  u64_to_string (octet ip 0) +:+ "." +:+ u64_to_string (octet ip 1) +:+ "." +:+ u64_to_string (octet ip 2) +:+ "."
  +:+ u64_to_string (octet ip 3).

(** The first of the longest runs of zero segments, as its start and length. *)
Fixpoint zero_run (i current_start current_len start len : nat) (segments : list Z) : nat * nat :=
  match segments with
  | [] => (start, len)
  | s :: rest =>
      if s =? 0 then
        let current_start := if bool_decide (current_len = O) then i else current_start in
        let current_len := S current_len in
        if bool_decide (len < current_len)%nat then zero_run (S i) current_start current_len current_start current_len rest
        else zero_run (S i) current_start current_len start len rest
      else zero_run (S i) 0 0 start len rest
  end.

Definition fmt_segments (segments : list Z) : string := String.concat ":" (u64_to_hex <$> segments).

Definition fmt_v6 (ip : Z) : string :=
  match to_ipv4_mapped ip with
  | Some v4 => "::ffff:" +:+ fmt_v4 v4
  | None =>
      let segments := segment ip <$> [0; 1; 2; 3; 4; 5; 6; 7] in
      let '(start, len) := zero_run 0 0 0 0 0 segments in
      if bool_decide (1 < len)%nat
      then fmt_segments (take start segments) +:+ "::" +:+ fmt_segments (drop (start + len) segments)
      else fmt_segments segments
  end.

Definition address_text (ip : IpAddr) : string := match ip with V4 ip => fmt_v4 ip | V6 ip => "[" +:+ fmt_v6 ip +:+ "]" end.

Definition rewrite_uri_authority (original : request_uri) (ip : IpAddr) : request_uri :=
  let port := match uri_port original with
              | Some 443 => if bool_decide (uri_scheme original = "https") then None else Some 443
              | Some 80 => if bool_decide (uri_scheme original = "http") then None else Some 80
              | port => port
              end in
  mkUri (uri_scheme original) (address_text ip) port.

(** Where [try_forward_request] sends a request, and the address it selected. *)
Definition forward_target (upstreams : UpstreamOverrides) (ip_distribution_enabled : bool) (host : string) (uri : request_uri)
    (p : ConnectionPoolManager) : ConnectionPoolManager * request_uri * option IpAddr :=
  if bool_decide (is_Some (upstream_resolve upstreams (uri_host uri) (default 80 (uri_port uri)))) then (p, uri, None)
  else if ip_distribution_enabled then
    match get_distributed_ip host p with
    | (p, Some ip) => (p, rewrite_uri_authority uri ip, Some ip)
    | (p, None) => (p, uri, None)
    end
  else (p, uri, None).



End Manager.

Example fmt_forms :
  fmt_v4 (v4 52 216 1 2) = "52.216.1.2" /\ fmt_v6 1 = "::1" /\ fmt_v6 (65152 * 2 ^ 112 + 65536 + 2) = "fe80::1:2"
  /\ parse_ip (fmt_v6 (9734 * 2 ^ 112 + 5)) = Some (V6 (9734 * 2 ^ 112 + 5)).
Proof. vm_compute. split_and!; reflexivity. Qed.

(** ** Requests, refreshes and probes *)

(** [s_removals], [s_readmissions]: tasks that have not got the pool's lock yet;
    [s_probes]: candidates with the endpoint that was found for them; [s_answers]: every address DNS has given. *)
Record system := mkSystem {
  s_pool : ConnectionPoolManager;
  s_health : IpHealthTracker;
  s_removals : list (string * IpAddr);
  s_probes : list (IpAddr * option string);
  s_readmissions : list (string * IpAddr);
  s_answers : list (string * IpAddr);
}.

Definition set_pool (p : ConnectionPoolManager) (s : system) : system :=
  mkSystem p (s_health s) (s_removals s) (s_probes s) (s_readmissions s) (s_answers s).

Definition set_tracker (t : IpHealthTracker) (s : system) : system :=
  mkSystem (s_pool s) t (s_removals s) (s_probes s) (s_readmissions s) (s_answers s).

Definition add_removal (host : string) (ip : IpAddr) (s : system) : system :=
  mkSystem (s_pool s) (s_health s) (s_removals s ++ [(host, ip)]) (s_probes s) (s_readmissions s) (s_answers s).

Definition answers_of (lookup_ip : Resolver) (endpoint : string) : list (string * IpAddr) :=
  match lookup_ip endpoint with Ok ips => pair endpoint <$> ips | _ => [] end.

(** What a request of the system does to the outside. *)
Inductive event := Picks (host : string) (ips : list IpAddr) | Internal.

Section Steps.
Context `{HashIter}.

Inductive step : system -> event -> system -> Prop :=
  | StepSelect s host p ip :
      get_distributed_ip host (s_pool s) = (p, Some ip) -> step s (Picks host [ip]) (set_pool p s)
  | StepPair s host p picked :
      get_distinct_distributed_ips host 2 (s_pool s) = (p, picked) -> step s (Picks host picked) (set_pool p s)
  | StepFailure s host ip now t excluded :
      record_failure_at ip now (s_health s) = (t, excluded) ->
      step s Internal (if excluded then add_removal host ip (set_tracker t s) else set_tracker t s)
  | StepRemoval s host ip before after :
      s_removals s = before ++ (host, ip) :: after ->
      step s Internal (mkSystem (exclude_ip host ip (s_pool s)) (s_health s) (before ++ after) (s_probes s) (s_readmissions s) (s_answers s))
  | StepSuccess s ip : step s Internal (set_tracker (record_success ip (s_health s)) s)
  | StepRegister s lookup_ip now host :
      step s Internal (mkSystem (register_endpoint lookup_ip now host (s_pool s)) (s_health s) (s_removals s) (s_probes s)
                         (s_readmissions s) (s_answers s ++ answers_of lookup_ip host))
  | StepRefresh s lookup_ip now endpoint p health result :
      is_Some (resolved_ips (s_pool s) !! endpoint) ->
      refresh_endpoint_dns lookup_ip now endpoint (Some (s_health s)) (s_pool s) = (p, Some health, result) ->
      step s Internal (mkSystem p health (s_removals s) (s_probes s) (s_readmissions s) (s_answers s ++ answers_of lookup_ip endpoint))
  | StepProbe s ip now :
      is_probe_candidate_at ip now (s_health s) = true ->
      step s Internal (mkSystem (s_pool s) (s_health s) (s_removals s) (s_probes s ++ [(ip, get_endpoint_for_ip ip (s_pool s))])
                         (s_readmissions s) (s_answers s))
  | StepGone s ip before after :
      s_probes s = before ++ (ip, None) :: after ->
      step s Internal (mkSystem (s_pool s) (record_success ip (s_health s)) (s_removals s) (before ++ after) (s_readmissions s) (s_answers s))
  | StepProbeSuccess s ip endpoint before after :
      s_probes s = before ++ (ip, Some endpoint) :: after ->
      step s Internal (mkSystem (s_pool s) (record_success ip (s_health s)) (s_removals s) (before ++ after)
                         (s_readmissions s ++ [(endpoint, ip)]) (s_answers s))
  | StepProbeFailure s ip now endpoint before after :
      s_probes s = before ++ (ip, Some endpoint) :: after ->
      step s Internal (mkSystem (s_pool s) (record_probe_failure_at ip now (s_health s)) (s_removals s) (before ++ after)
                         (s_readmissions s) (s_answers s))
  | StepReadmit s ip endpoint before after :
      s_readmissions s = before ++ (endpoint, ip) :: after ->
      step s Internal (mkSystem (readmit_ip endpoint ip (s_pool s)) (s_health s) (s_removals s) (s_probes s) (before ++ after) (s_answers s)).

Inductive reachable (raw : gmap string (list string)) (interval cap : Z) (threshold initial max : Z) : system -> Prop :=
  | ReachInit : reachable raw interval cap threshold initial max
      (mkSystem (new_with_config raw interval cap) (mkTracker ∅ ∅ threshold initial max) [] [] [] [])
  | ReachStep s e s' : reachable raw interval cap threshold initial max s -> step s e s' ->
      reachable raw interval cap threshold initial max s'.

(** ** What the steps keep *)

Definition known (overrides : EndpointOverrides) (answers : list (string * IpAddr)) (endpoint : string) (ip : IpAddr) : Prop :=
  (endpoint, ip) ∈ answers \/ exists ips, resolve_override overrides endpoint = Some ips /\ ip ∈ ips.

Definition pool_known (answers : list (string * IpAddr)) (p : ConnectionPoolManager) : Prop :=
  (forall e d, ip_distributors p !! e = Some d -> Forall (known (overrides p) answers e) (ips d)) /\
  (forall e l, resolved_ips p !! e = Some l -> Forall (known (overrides p) answers e) l).

Definition health_ok (t : IpHealthTracker) : Prop :=
  0 <= initial_cooldown t <= max_cooldown t /\ max_cooldown t <= DURATION_MAX /\
  forall ip h, unhealthy t !! ip = Some h -> initial_cooldown t <= cooldown h <= max_cooldown t.

Record system_ok (s : system) : Prop := {
  ok_pool : pool_known (s_answers s) (s_pool s);
  ok_health : health_ok (s_health s);
  ok_probes : Forall (fun probe => forall e, probe.2 = Some e -> known (overrides (s_pool s)) (s_answers s) e probe.1) (s_probes s);
  ok_readmissions : Forall (fun r => known (overrides (s_pool s)) (s_answers s) r.1 r.2) (s_readmissions s);
}.

Lemma known_mono o answers more e ip : known o answers e ip -> known o (answers ++ more) e ip.
Proof. intros [Hin | Hov]; [left; apply elem_of_app; by left | by right]. Qed.

Lemma pool_known_mono answers more p : pool_known answers p -> pool_known (answers ++ more) p.
Proof. intros [Hd Hr]. split; intros e x Hx; (eapply Forall_impl; [by eauto | intros ip; apply known_mono]). Qed.

Lemma set_distributor_known answers p e d :
  pool_known answers p -> Forall (known (overrides p) answers e) (ips d) ->
  pool_known answers (set_distributors (<[e := d]> (ip_distributors p)) p).
Proof.
  intros [Hd Hr] He. split; [| done]. cbn. intros e' d' [[<- <-] | [_ Hl]]%lookup_insert_Some; [done | by apply Hd].
Qed.

Lemma select_ip_spec d d' r : select_ip d = (d', r) -> ips d' = ips d /\ (forall ip, r = Some ip -> ip ∈ ips d) /\ (ips d <> [] -> is_Some r).
Proof.
  unfold select_ip. case_bool_decide as He; [by intros [= <- <-] |]. intros [= <- <-]. cbn.
  split_and!; [done | intros ip Hip; by eapply list_elem_of_lookup_2 |]. intros _. apply lookup_lt_is_Some_2.
  unfold zlen. pose proof (Z.mod_pos_bound (counter d) (Z.of_nat (length (ips d)))). destruct (ips d); [done |]. cbn in *. lia.
Qed.

Lemma elem_of_rotation {A} (l : list A) n x : x ∈ rotation l n <-> x ∈ l.
Proof. unfold rotation. rewrite <- (take_drop n l) at 3. rewrite !elem_of_app. tauto. Qed.

Lemma select_excluding_spec exclude d d' r :
  select_ip_excluding exclude d = (d', r) ->
  ips d' = ips d /\ match r with Some ip => ip ∈ ips d /\ ip ∉ exclude | None => forall ip, ip ∈ ips d -> ip ∈ exclude end.
Proof.
  unfold select_ip_excluding. case_bool_decide as He.
  - intros [= <- <-]. rewrite He. split; [done |]. by intros ? ?%elem_of_nil.
  - intros [= <- <-]. split; [done |]. destruct (list_find _ _) as [[i ip] |] eqn:Hf; cbn.
    + apply list_find_Some in Hf as (Hl & Hx & _). apply list_elem_of_lookup_2 in Hl. by rewrite elem_of_rotation in Hl.
    + intros ip Hip. apply list_find_None in Hf. rewrite Forall_forall in Hf.
      destruct (decide (ip ∈ exclude)) as [| Hn]; [done |]. destruct (Hf ip); [by apply elem_of_rotation | done].
Qed.

(** What more picks give: addresses of the endpoint, no two the same, and either as many as
    were asked for or all there are. *)
Lemma more_distinct_spec n : forall result d d' picked,
  NoDup result -> Forall (fun ip => ip ∈ ips d) result -> more_distinct n result d = (d', picked) ->
  ips d' = ips d /\ NoDup picked /\ Forall (fun ip => ip ∈ ips d) picked /\
  (length picked = (length result + n)%nat \/ ((length picked < length result + n)%nat /\ forall ip, ip ∈ ips d -> ip ∈ picked)).
Proof.
  induction n as [| n IH]; intros result d d' picked Hnd Hin; cbn [more_distinct].
  - intros [= <- <-]. split_and!; [done.. | left; lia].
  - destruct (select_ip_excluding result d) as [d1 [ip |]] eqn:Hs; apply select_excluding_spec in Hs as [Hd Hs].
    + destruct Hs as [Hip Hnew]. intros Hm. rewrite <- Hd in Hin, Hip.
      assert (NoDup (result ++ [ip])) as Hnd1.
      { apply NoDup_app. split_and!; [done | by intros x Hx ->%list_elem_of_singleton | apply NoDup_singleton]. }
      assert (Forall (fun ip => ip ∈ ips d1) (result ++ [ip])) as Hin1 by (apply Forall_app; by rewrite Forall_singleton).
      destruct (IH _ _ _ _ Hnd1 Hin1 Hm) as (Hd' & Hnd' & Hin' & Hlen).
      rewrite length_app in Hlen. cbn in Hlen. rewrite Hd in Hin', Hlen, Hd'. split_and!; [done.. |]. destruct Hlen as [? | [? ?]]; [left; lia | right; split; [lia | done]].
    + intros [= <- <-]. split_and!; [done.. |]. right. split; [lia | done].
Qed.

Lemma distinct_ips_spec n d d' picked : (0 < n)%nat -> distinct_ips n d = (d', picked) ->
  ips d' = ips d /\ NoDup picked /\ Forall (fun ip => ip ∈ ips d) picked /\
  length picked = Nat.min n (length (remove_dups (ips d))).
Proof.
  intros Hn. unfold distinct_ips. destruct (select_ip d) as [d1 [first |]] eqn:Hs; apply select_ip_spec in Hs as (Hd & Hin & Hsome).
  - intros Hm. specialize (Hin _ eq_refl).
    destruct (more_distinct_spec (n - 1) [first] d1 d' picked) as (Hd' & Hnd & Hall & Hlen);
      [apply NoDup_singleton | by rewrite Forall_singleton, Hd | done |].
    rewrite Hd in Hd', Hall, Hlen. do 3 (split; [done |]). cbn [length] in Hlen.
    assert (picked ⊆ remove_dups (ips d)) as Hsub by (intros ip; rewrite elem_of_remove_dups; rewrite Forall_forall in Hall; auto).
    pose proof (NoDup_remove_dups (ips d)) as Hrd.
    pose proof (submseteq_length _ _ (NoDup_submseteq _ _ Hnd Hsub)). destruct Hlen as [Hlen | [Hlt Hcover]]; [lia |].
    assert (remove_dups (ips d) ⊆ picked) as Hsup by (intros ip; rewrite elem_of_remove_dups; auto).
    pose proof (submseteq_length _ _ (NoDup_submseteq _ _ Hrd Hsup)). lia.
  - intros [= <- <-]. assert (ips d = []) as He by (destruct (ips d) eqn:E; [done |]; by destruct Hsome as [? ?]).
    rewrite Hd, He. split_and!; [done | constructor | constructor | cbn; lia].
Qed.

Lemma remove_ip_sub ip d x : x ∈ ips (remove_ip ip d) -> x ∈ ips d.
Proof.
  unfold remove_ip. destruct (list_find _ _) as [[pos y] |]; [| done]. cbn. intros [i Hi]%list_elem_of_lookup_1.
  destruct (decide (i < pos)%nat).
  - rewrite list_lookup_delete_lt in Hi by done. by eapply list_elem_of_lookup_2.
  - rewrite list_lookup_delete_ge in Hi by lia. by eapply list_elem_of_lookup_2.
Qed.

Lemma alter_distributor_known answers p e (f : IpDistributor -> IpDistributor) :
  pool_known answers p -> (forall d ip, ip ∈ ips (f d) -> ip ∈ ips d \/ known (overrides p) answers e ip) ->
  pool_known answers (set_distributors (alter f e (ip_distributors p)) p).
Proof.
  intros [Hd Hr] Hf. split; [| done]. cbn. intros e' d'. destruct (decide (e' = e)) as [-> | Hne].
  - rewrite lookup_alter_eq. destruct (ip_distributors p !! e) as [d |] eqn:E; [| done]. intros [= <-]. apply Forall_forall. intros ip Hip.
    destruct (Hf _ _ Hip) as [Hin |]; [| done]. specialize (Hd _ _ E). rewrite Forall_forall in Hd. auto.
  - rewrite lookup_alter_ne by done. apply Hd.
Qed.

Lemma resolve_endpoint_known lookup_ip p endpoint answers l :
  resolve_endpoint lookup_ip endpoint p = Ok l -> Forall (known (overrides p) (answers ++ answers_of lookup_ip endpoint) endpoint) l.
Proof.
  unfold resolve_endpoint, answers_of. intros Hr. apply Forall_forall. intros ip Hip.
  destruct (resolve_override _ endpoint) as [ips |] eqn:Hov; [injection Hr as ->; right; eauto |]. left. apply elem_of_app. right.
  destruct (lookup_ip endpoint) as [[| ip0 ips] | |]; [done | | done..]. injection Hr as <-. apply list_elem_of_fmap. eauto.
Qed.

Lemma refresh_known lookup_ip now endpoint health p answers :
  pool_known answers p ->
  let p' := (refresh_endpoint_dns lookup_ip now endpoint health p).1.1 in
  overrides p' = overrides p /\ pool_known (answers ++ answers_of lookup_ip endpoint) p'.
Proof.
  intros Hok. unfold refresh_endpoint_dns. pose proof (pool_known_mono _ (answers_of lookup_ip endpoint) _ Hok) as [Hd Hr].
  destruct (resolve_endpoint lookup_ip endpoint p) as [new_ips | |] eqn:Hres; [| by split | by split].
  pose proof (resolve_endpoint_known _ _ _ answers _ Hres) as Hnew.
  split; [done |]. split; cbn.
  - intros e d [[<- <-] | [_ Hl]]%lookup_insert_Some; [| by apply Hd].
    assert (Forall (known (overrides p) (answers ++ answers_of lookup_ip endpoint) endpoint)
      (match forget_absent (<[endpoint:=new_ips]> (resolved_ips p)) <$> health with
       | Some t => base.filter (fun ip => is_unhealthy ip t = false) new_ips | None => new_ips end)) as Hall.
    { destruct health; cbn; [| done]. rewrite Forall_forall in Hnew. apply Forall_forall. intros ip [_ ?]%list_elem_of_filter. auto. }
    by destruct (ip_distributors p !! endpoint).
  - intros e l [[<- <-] | [_ Hl]]%lookup_insert_Some; [done | by apply Hr].
Qed.

Lemma find_hash_iter {A} (m : gmap string A) test e x :
  List.find test (hash_iter m) = Some (e, x) -> m !! e = Some x /\ test (e, x) = true.
Proof. intros [Hin Ht]%List.find_some. apply list_elem_of_In, hash_iter_lookup in Hin. done. Qed.

Lemma endpoint_for_ip_known answers p ip e : pool_known answers p -> get_endpoint_for_ip ip p = Some e -> known (overrides p) answers e ip.
Proof.
  intros [Hd Hr]. unfold get_endpoint_for_ip, get_hostname_for_ip.
  destruct (List.find _ (hash_iter (ip_distributors p))) as [[e1 d] |] eqn:H1.
  - intros [= <-]. apply find_hash_iter in H1 as [Hl Hin%bool_decide_eq_true]. specialize (Hd _ _ Hl). rewrite Forall_forall in Hd. auto.
  - destruct (List.find _ (hash_iter (eo_exact _))) as [[e2 l] |] eqn:H2; cbn.
    + intros [= <-]. apply find_hash_iter in H2 as [Hl Hin%bool_decide_eq_true]. right. exists l. split; [| done]. unfold resolve_override. by rewrite Hl.
    + destruct (List.find _ (hash_iter (resolved_ips p))) as [[e3 l] |] eqn:H3; [| done]. intros [= <-].
      apply find_hash_iter in H3 as [Hl Hin%bool_decide_eq_true]. specialize (Hr _ _ Hl). rewrite Forall_forall in Hr. auto.
Qed.

Lemma set_health_ok f u t : health_ok t -> (forall ip h, u !! ip = Some h -> unhealthy t !! ip = Some h \/ initial_cooldown t <= cooldown h <= max_cooldown t) ->
  health_ok (set_health f u t).
Proof. intros (Hi & Hm & Hu) Hnew. do 2 (split; [done |]). cbn. intros ip h [Hold | Hb]%Hnew; [by apply (Hu ip) | done]. Qed.

Lemma record_success_ok ip t : health_ok t -> health_ok (record_success ip t).
Proof. intros Hok. apply set_health_ok; [done |]. intros ip' h [_ ?]%lookup_delete_Some. by left. Qed.

Lemma record_failure_ok ip now t : health_ok t -> health_ok (record_failure_at ip now t).1.
Proof.
  intros Hok. apply set_health_ok; [done |]. intros ip' h. destruct (_ && _); [| by left].
  intros [[<- <-] | [_ ?]]%lookup_insert_Some; [right | by left]. destruct Hok as (? & ? & _). cbn. lia.
Qed.

Lemma record_probe_failure_ok ip now t : health_ok t -> health_ok (record_probe_failure_at ip now t).
Proof.
  intros Hok. unfold record_probe_failure_at. destruct (unhealthy t !! ip) as [entry |] eqn:He; [| done].
  apply set_health_ok; [done |]. intros ip' h [[<- <-] | [_ ?]]%lookup_insert_Some; [right | by left].
  destruct Hok as (? & ? & Hu). specialize (Hu _ _ He). cbn. destruct (Z.ltb_spec (max_cooldown t) (Z.min (cooldown entry * 2) DURATION_MAX)); lia.
Qed.

Lemma forget_absent_ok resolved t : health_ok t -> health_ok (forget_absent resolved t).
Proof. intros Hok. apply set_health_ok; [done |]. intros ip h [? _]%map_lookup_filter_Some. by left. Qed.

Lemma refresh_health lookup_ip now endpoint t p p' t' r :
  health_ok t -> refresh_endpoint_dns lookup_ip now endpoint (Some t) p = (p', Some t', r) -> health_ok t'.
Proof.
  intros Hok. unfold refresh_endpoint_dns. destruct (resolve_endpoint _ _ _); intros [= <- <- <-]; [by apply forget_absent_ok | done..].
Qed.

Lemma pick_known answers p host d d' :
  pool_known answers p -> ip_distributors p !! host = Some d -> ips d' = ips d ->
  pool_known answers (set_distributors (<[host := d']> (ip_distributors p)) p).
Proof. intros Hp Hl Hd. apply set_distributor_known; [done |]. rewrite Hd. by apply (proj1 Hp host d). Qed.

(** The two ways a request picks addresses leave the pool with the addresses it had. *)
Lemma get_distributed_spec answers host p p' r :
  pool_known answers p -> get_distributed_ip host p = (p', r) ->
  overrides p' = overrides p /\ pool_known answers p' /\ (forall ip, r = Some ip -> known (overrides p) answers host ip).
Proof.
  intros Hp. unfold get_distributed_ip. destruct (ip_distributors p !! host) as [d |] eqn:Hl; [| by intros [= <- <-]].
  destruct (select_ip d) as [d' ip] eqn:Hs. intros [= <- <-]. apply select_ip_spec in Hs as (Hd & Hin & _).
  split_and!; [done | by eapply pick_known |]. intros x Hx. pose proof (proj1 Hp _ _ Hl) as Hall. rewrite Forall_forall in Hall. auto.
Qed.

Lemma get_distinct_spec answers host n p p' picked :
  pool_known answers p -> (0 < n)%nat -> get_distinct_distributed_ips host n p = (p', picked) ->
  overrides p' = overrides p /\ pool_known answers p' /\ NoDup picked /\ Forall (known (overrides p) answers host) picked /\
  length picked = Nat.min n (length (remove_dups (from_option ips [] (ip_distributors p !! host)))).
Proof.
  intros Hp Hn. unfold get_distinct_distributed_ips. destruct (ip_distributors p !! host) as [d |] eqn:Hl.
  - destruct (distinct_ips n d) as [d' l] eqn:Hs. intros [= <- <-]. apply distinct_ips_spec in Hs as (Hd & Hnd & Hin & Hlen); [| done].
    split_and!; [done | by eapply pick_known | done | | done]. pose proof (proj1 Hp _ _ Hl) as Hall.
    rewrite Forall_forall in Hall. eapply Forall_impl; [exact Hin | auto].
  - intros [= <- <-]. do 2 (split; [done |]). split_and!; [constructor | constructor | cbn; lia].
Qed.

Lemma register_known lookup_ip now host p answers :
  pool_known answers p ->
  overrides (register_endpoint lookup_ip now host p) = overrides p /\
  pool_known (answers ++ answers_of lookup_ip host) (register_endpoint lookup_ip now host p).
Proof.
  intros Hp. unfold register_endpoint. pose proof (pool_known_mono _ (answers_of lookup_ip host) _ Hp).
  destruct (_ || _); [done |]. destruct (_ <=? _); [done |]. by apply refresh_known.
Qed.

(** The tasks that wait, when addresses are learned and when one of them is done. *)
Lemma waiting_mono {A} (P Q : A -> Prop) before x after (l : list A) :
  Forall P l -> l = before ++ x :: after -> (forall y, P y -> Q y) -> Forall Q (before ++ after) /\ P x.
Proof.
  intros Hall -> HPQ. apply Forall_app in Hall as [Hb Ha]. inversion Ha; subst. split; [| done].
  apply Forall_app. split; eapply Forall_impl; eauto.
Qed.

(** A step that leaves the tasks as they are, when the pool keeps its overrides and the answers only grow. *)
Lemma system_ok_pool s p t more :
  system_ok s -> overrides p = overrides (s_pool s) -> pool_known (s_answers s ++ more) p -> health_ok t ->
  system_ok (mkSystem p t (s_removals s) (s_probes s) (s_readmissions s) (s_answers s ++ more)).
Proof.
  intros [_ _ Hpr Hre] Ho Hp Ht. split; cbn; [done | done | |]; rewrite Ho.
  - eapply Forall_impl; [exact Hpr |]. cbn. intros probe Hk e He. by apply known_mono, Hk.
  - eapply Forall_impl; [exact Hre |]. intros r. apply known_mono.
Qed.

Lemma system_ok_same s p t : system_ok s -> overrides p = overrides (s_pool s) -> pool_known (s_answers s) p -> health_ok t ->
  system_ok (mkSystem p t (s_removals s) (s_probes s) (s_readmissions s) (s_answers s)).
Proof. intros Hok Ho Hp Ht. rewrite <- (app_nil_r (s_answers s)). apply system_ok_pool; [done.. | by rewrite app_nil_r | done]. Qed.

Lemma exclude_known answers host ip p : pool_known answers p -> pool_known answers (exclude_ip host ip p).
Proof. intros Hp. apply alter_distributor_known; [done |]. intros d x Hx. left. by eapply remove_ip_sub. Qed.

Lemma readmit_known answers e ip p : pool_known answers p -> known (overrides p) answers e ip -> pool_known answers (readmit_ip e ip p).
Proof.
  intros Hp Hk. apply alter_distributor_known; [done |]. intros d x. unfold add_ip. case_bool_decide; cbn; [by left |].
  intros [Hx | ->%list_elem_of_singleton]%elem_of_app; [by left | by right].
Qed.

Lemma pool_step_ok s e s' : system_ok s -> step s e s' -> system_ok s' /\ overrides (s_pool s') = overrides (s_pool s).
Proof.
  intros Hok Hstep. pose proof Hok as [Hp Ht Hpr Hre]. destruct Hstep as
    [s host p ip Hg | s host p picked Hg | s host ip now t excluded Hf | s host ip before after Hr | s ip | s lookup_ip now host
    | s lookup_ip now endpoint p t r _ Hr | s ip now _ | s ip before after Hr | s ip endpoint before after Hr
    | s ip now endpoint before after Hr | s ip endpoint before after Hr].
  - eapply get_distributed_spec in Hg as (Ho & Hp' & _); [| exact Hp]. split; [by apply system_ok_same | done].
  - eapply get_distinct_spec in Hg as (Ho & Hp' & _); [| exact Hp | lia]. split; [by apply system_ok_same | done].
  - pose proof (record_failure_ok ip now _ Ht) as Hf'. rewrite Hf in Hf'. split; [| by destruct excluded].
    destruct excluded; [| by apply system_ok_same]. by split.
  - split; [| done]. split; cbn; [by apply exclude_known | done..].
  - split; [| done]. apply system_ok_same; [done.. | by apply record_success_ok].
  - destruct (register_known lookup_ip now host _ _ Hp). split; [by apply system_ok_pool | done].
  - pose proof (refresh_known lookup_ip now endpoint (Some (s_health s)) _ _ Hp) as Hk. apply refresh_health in Hr as Ht'; [| done].
    rewrite Hr in Hk. destruct Hk. split; [by apply system_ok_pool | done].
  - split; [| done]. split; cbn; [done.. | | done]. apply Forall_app. split; [done |]. apply Forall_singleton. cbn. intros e. by apply endpoint_for_ip_known.
  - eapply waiting_mono in Hr as [Hrest _]; [| exact Hpr | done]. split; [| done]. split; cbn; [done | by apply record_success_ok | done..].
  - eapply waiting_mono in Hr as [Hrest Hk]; [| exact Hpr | done]. split; [| done].
    split; cbn; [done | by apply record_success_ok | done |]. apply Forall_app. split; [done |]. apply Forall_singleton. by apply Hk.
  - eapply waiting_mono in Hr as [Hrest _]; [| exact Hpr | done]. split; [| done]. split; cbn; [done | by apply record_probe_failure_ok | done..].
  - eapply waiting_mono in Hr as [Hrest Hk]; [| exact Hre | done]. split; [| done]. split; cbn; [by apply readmit_known | done..].
Qed.

Lemma initial_ok raw interval cap threshold initial max :
  0 <= initial <= max -> max <= DURATION_MAX ->
  system_ok (mkSystem (new_with_config raw interval cap) (mkTracker ∅ ∅ threshold initial max) [] [] [] []).
Proof.
  intros Hi Hm. split; cbn; [| | constructor | constructor].
  - split; cbn; [| by intros e l; rewrite lookup_empty]. intros e d (l & <- & Hl)%lookup_fmap_Some. cbn.
    apply Forall_forall. intros ip Hip. right. exists l. split; [| done]. unfold resolve_override. by rewrite Hl.
  - do 2 (split; [done |]). cbn. intros ip h. by rewrite lookup_empty.
Qed.

Lemma step_settings s e s' : step s e s' ->
  initial_cooldown (s_health s') = initial_cooldown (s_health s) /\ max_cooldown (s_health s') = max_cooldown (s_health s).
Proof.
  destruct 1 as [| | s host ip now t excluded Hf | | | | s lookup_ip now endpoint p t r _ Hr | | | | |]; try done.
  - assert (t = (record_failure_at ip now (s_health s)).1) as -> by (by rewrite Hf). by destruct excluded.
  - revert Hr. unfold refresh_endpoint_dns. destruct (resolve_endpoint _ _ _); by intros [= <- <- <-].
  - cbn. unfold record_probe_failure_at. by destruct (_ !! _).
Qed.

Lemma pool_reachable_ok raw interval cap threshold initial max s :
  0 <= initial <= max -> max <= DURATION_MAX -> reachable raw interval cap threshold initial max s ->
  system_ok s /\ overrides (s_pool s) = EndpointOverrides_from_config raw /\
  initial_cooldown (s_health s) = initial /\ max_cooldown (s_health s) = max.
Proof.
  intros Hi Hm. induction 1 as [| s e s' _ (Hok & Ho & Hci & Hcm) Hstep].
  - split; [by apply initial_ok | done].
  - destruct (pool_step_ok _ _ _ Hok Hstep) as [Hok' Ho']. destruct (step_settings _ _ _ Hstep).
    split_and!; [done | congruence..].
Qed.

Fixpoint picks (n : nat) (d : IpDistributor) : list (option IpAddr) :=
  match n with O => [] | S n => let '(d, ip) := select_ip d in ip :: picks n d end.

Lemma picks_lookup n : forall d, ips d <> [] -> 0 <= counter d -> counter d + Z.of_nat n < 2 ^ 64 ->
  picks n d = (fun i => ips d !! Z.to_nat ((counter d + Z.of_nat i) mod zlen (ips d))) <$> seq 0 n.
Proof.
  induction n as [| n IH]; intros d He Hc Hb; [done |]. cbn [picks]. unfold select_ip at 1. rewrite bool_decide_false by done.
  rewrite IH; cbn; [| done | unfold u64_add, wrap64; rewrite Z.mod_small; lia..].
  rewrite Z.add_0_r. f_equal. rewrite <- fmap_S_seq, <- list_fmap_compose. apply list_fmap_ext. intros i x _. cbn.
  unfold u64_add, wrap64. rewrite (Z.mod_small (counter d + 1)) by lia. do 3 f_equal. lia.
Qed.

(** As many picks as there are addresses give each of them once. *)
Lemma picks_rotation d : ips d <> [] -> 0 <= counter d -> counter d + zlen (ips d) < 2 ^ 64 ->
  picks (length (ips d)) d = Some <$> rotation (ips d) (Z.to_nat (counter d mod zlen (ips d))).
Proof.
  intros He Hc Hb. rewrite picks_lookup by done. unfold zlen in *. remember (length (ips d)) as n eqn:Hlen.
  assert (0 < n)%nat as Hn by (destruct (ips d); [done | cbn in Hlen; lia]).
  pose proof (Z.mod_pos_bound (counter d) (Z.of_nat n) ltac:(lia)) as Hm. remember (Z.to_nat (counter d mod Z.of_nat n)) as start eqn:Hstart.
  apply list_eq. intros i. destruct (decide (i < n)%nat) as [Hi | Hi].
  - rewrite list_lookup_fmap, lookup_seq_lt by done. cbn. rewrite <- Zplus_mod_idemp_l. rewrite list_lookup_fmap. unfold rotation.
    destruct (decide (start + i < n)%nat).
    + rewrite Z.mod_small by lia. rewrite lookup_app_l by (rewrite length_drop; lia). rewrite lookup_drop.
      replace (Z.to_nat (counter d mod Z.of_nat n + Z.of_nat i)) with (start + i)%nat by lia.
      destruct (lookup_lt_is_Some_2 (ips d) (start + i)) as [x ->]; [lia | done].
    + rewrite lookup_app_r by (rewrite length_drop; lia). rewrite length_drop, lookup_take_lt by lia.
      assert ((counter d mod Z.of_nat n + Z.of_nat i) mod Z.of_nat n = counter d mod Z.of_nat n + Z.of_nat i - Z.of_nat n) as ->
        by (symmetry; apply (Zmod_unique _ _ 1); lia).
      replace (Z.to_nat (counter d mod Z.of_nat n + Z.of_nat i - Z.of_nat n)) with (i - (length (ips d) - start))%nat by lia.
      destruct (lookup_lt_is_Some_2 (ips d) (i - (length (ips d) - start))) as [x ->]; [lia | done].
  - rewrite !lookup_ge_None_2; [done | |]; rewrite length_fmap; [unfold rotation; rewrite length_app, length_drop, length_take |
      rewrite length_seq]; lia.
Qed.

Lemma rotation_perm {A} (l : list A) n : rotation l n ≡ₚ l.
Proof. unfold rotation. rewrite Permutation_app_comm. by rewrite take_drop. Qed.

(** The pair of a hedged request. *)
Lemma select_ip_pair_spec host d p p' pair :
  ip_distributors p !! host = Some d -> select_ip_pair host p = (p', pair) ->
  match pair with
  | (None, None) => ips d = []
  | (Some ip1, Some ip2) => ip1 ∈ ips d /\ ip2 ∈ ips d /\ (ip1 = ip2 -> forall ip, ip ∈ ips d -> ip = ip1)
  | _ => False
  end.
Proof.
  intros Hl. unfold select_ip_pair, get_distinct_distributed_ips. rewrite Hl. destruct (distinct_ips 2 d) as [d' l] eqn:Hs.
  apply distinct_ips_spec in Hs as (_ & Hnd & Hin & Hlen); [| lia]. intros [= <- <-]. rewrite Forall_forall in Hin.
  destruct l as [| ip1 [| ip2 l]]; cbn in Hlen.
  - destruct (ips d) as [| x l]; [done |]. assert (x ∈ remove_dups (x :: l)) as Hx by (rewrite elem_of_remove_dups; left).
    destruct (remove_dups (x :: l)); [by apply not_elem_of_nil in Hx | cbn in Hlen; lia].
  - assert (ip1 ∈ ips d) as H1 by (apply Hin; left). split_and!; [done.. |]. intros _ ip Hip.
    rewrite <- elem_of_remove_dups in H1, Hip. destruct (remove_dups (ips d)) as [| x [| y r]]; [cbn in Hlen; lia | | cbn in Hlen; lia].
    apply list_elem_of_singleton in H1 as ->. by apply list_elem_of_singleton in Hip.
  - split_and!; [apply Hin; left | apply Hin; right; left |]. intros ->. inversion Hnd as [| ? ? Hno]; subst. destruct Hno. left.
Qed.

(** C26: in every state that requests, failures, successes, DNS refreshes, probes and the tasks they start reach, in any order, the
    addresses a request to a host gets were given for that host by DNS or by the configured endpoint overrides; a hedged pair is of
    different addresses whenever the host has two; as many requests as a host has addresses use each of them once; and the cooldown of an
    excluded address stays between the initial and the longest one. *)
Theorem upstream_ip_known raw interval cap threshold initial max s :
  0 <= initial <= max -> max <= DURATION_MAX -> reachable raw interval cap threshold initial max s ->
  (forall host picked s', step s (Picks host picked) s' ->
     NoDup picked /\ Forall (known (EndpointOverrides_from_config raw) (s_answers s) host) picked) /\
  (forall host d p pair, ip_distributors (s_pool s) !! host = Some d -> select_ip_pair host (s_pool s) = (p, pair) ->
     match pair with
     | (None, None) => ips d = []
     | (Some ip1, Some ip2) => ip1 ∈ ips d /\ ip2 ∈ ips d /\ (ip1 = ip2 -> forall ip, ip ∈ ips d -> ip = ip1)
     | _ => False
     end) /\
  (forall host d, ip_distributors (s_pool s) !! host = Some d -> ips d <> [] -> 0 <= counter d -> counter d + zlen (ips d) < 2 ^ 64 ->
     exists l, picks (length (ips d)) d = Some <$> l /\ l ≡ₚ ips d) /\
  (forall ip h, unhealthy (s_health s) !! ip = Some h -> initial <= cooldown h <= max).
Proof.
  intros Hi Hm Hr. destruct (pool_reachable_ok _ _ _ _ _ _ _ Hi Hm Hr) as ([Hp (_ & _ & Ht) _ _] & Ho & Hci & Hcm).
  rewrite <- Ho, <- Hci, <- Hcm. split_and!; [| | | exact Ht].
  - intros host picked s' Hstep. inversion Hstep as [? ? ? ip Hg | ? ? ? ? Hg | | | | | | | | | |]; subst.
    + destruct (get_distributed_spec _ _ _ _ _ Hp Hg) as (_ & _ & Hk). split; [apply NoDup_singleton | apply Forall_singleton; auto].
    + eapply get_distinct_spec in Hg as (_ & _ & Hnd & Hk & _); [by split | exact Hp | lia].
  - intros host d p pair. apply select_ip_pair_spec.
  - intros host d _ He Hc Hb. eexists. split; [by apply picks_rotation | apply rotation_perm].
Qed.

End Steps.

(** ** Transports *)



Section Transports.
Context `{HashIter}.












End Transports.

(** *** The text of an address *)






Section Egress.
Context `{HashIter}.




End Egress.

(** ** Samples *)

#[local] Existing Instance map_order.

Definition sample_upstreams : gmap string UpstreamOverrideConfig :=
  {[ "minio.local:9000"%string := mkUpstream Http true; "10.0.0.5:80"%string := mkUpstream Http true ]}.

Definition sample_endpoints : gmap string (list string) := {[ "s3.local"%string := ["10.0.0.5"; "10.0.0.6"]%string ]}.

Definition sample_pool : ConnectionPoolManager := new_with_config sample_endpoints 60 100.

Definition sample_names : Resolver := fun host =>
  if ends_with "minio.local" host then Ok [V4 (v4 10 0 0 9)] else Err "NXDOMAIN".

Definition ip5 : IpAddr := V4 (v4 10 0 0 5).
Definition ip6 : IpAddr := V4 (v4 10 0 0 6).


Definition sample_start : system := mkSystem sample_pool (mkTracker ∅ ∅ 2 30 600) [] [] [] [].

Lemma upstream_ip_known_witness :
  get_distributed_ip "s3.local" sample_pool = (set_distributors {[ "s3.local"%string := mkDistributor [ip5; ip6] 1 ]} sample_pool, Some ip5)
  /\ known (EndpointOverrides_from_config sample_endpoints) [] "s3.local" ip5.
Proof.
  destruct (upstream_ip_known sample_endpoints 60 100 2 30 600 sample_start) as [Hpick _]; [lia | unfold DURATION_MAX; lia | apply ReachInit |].
  assert (get_distributed_ip "s3.local" sample_pool = (set_distributors {[ "s3.local"%string := mkDistributor [ip5; ip6] 1 ]} sample_pool, Some ip5)) as Hg
    by (vm_compute; reflexivity).
  split; [exact Hg |]. destruct (Hpick _ _ _ (StepSelect sample_start _ _ _ Hg)) as [_ Hk]. rewrite Forall_singleton in Hk. exact Hk.
Defined.

(** ** Where the code and its documentation part *)

(** The connector dials any address it is given, also one of the ranges the tunnels refuse. *)
Lemma connector_checks_no_range :
  connector_call (UpstreamOverrides_from_config ∅) sample_names (new_with_config ∅ 60 100) (mkUri "http" "169.254.169.254" None)
    = Ok (mkConnection (V4 (v4 169 254 169 254)) 443 (Some ("169.254.169.254"%string, true)))
  /\ is_prohibited (V4 (v4 169 254 169 254)) = true.
Proof. split; vm_compute; reflexivity. Qed.

(** A request moved to an address takes the transport of a key for that address: it leaves in plaintext though no key names its host. *)
Lemma moved_request_in_plaintext :
  let upstreams := UpstreamOverrides_from_config sample_upstreams in
  let '(p, uri, ip) := forward_target upstreams true "s3.local" (mkUri "http" "s3.local" None) sample_pool in
  upstream_resolve upstreams "s3.local" 80 = None /\ ip = Some ip5 /\ connector_call upstreams sample_names p uri = Ok (mkConnection ip5 80 None).
Proof. vm_compute. split_and!; reflexivity. Qed.

(** A distributed IPv6 address is written with brackets, which the connector does not read as an address: it looks it up as a name. *)
Lemma bracketed_address_is_a_name :
  let uri := rewrite_uri_authority (mkUri "http" "s3.amazonaws.com" None) (V6 (9734 * 2 ^ 112 + 5)) in
  uri_host uri = "[2606::5]"%string /\ parse_ip (uri_host uri) = None
  /\ connector_call (UpstreamOverrides_from_config ∅) sample_names (new_with_config ∅ 60 100) uri
     = Err (ConnectionError "DNS resolution failed for [2606::5]: NXDOMAIN").
Proof. vm_compute. split_and!; reflexivity. Qed.

(** Two failures take an address out; a success of an older request then clears its exclusion, and nothing brings it back: no probe looks at it,
    and an endpoint of the configuration is never refreshed. *)
Lemma success_strands_ip :
  let t := (record_failure_at ip5 20 (record_failure_at ip5 10 (s_health sample_start)).1).1 in
  let p := exclude_ip "s3.local" ip5 sample_pool in
  is_unhealthy ip5 t = true /\
  (forall now, is_probe_candidate_at ip5 now (record_success ip5 t) = false) /\
  ips <$> (ip_distributors p !! "s3.local"%string) = Some [ip6] /\
  forall now health, refresh_dns sample_names now health p = (p, health).
Proof. split_and!; [vm_compute; reflexivity | intros now; vm_compute; reflexivity | vm_compute; reflexivity | intros now health; reflexivity]. Qed.

(** The refresh of another endpoint forgets the exclusion of a configured address, which DNS never lists. *)
Lemma refresh_forgets_configured_ip :
  let t := (record_failure_at ip5 20 (record_failure_at ip5 10 (s_health sample_start)).1).1 in
  let p := exclude_ip "s3.local" ip5 sample_pool in
  is_unhealthy ip5 t = true /\
  match refresh_endpoint_dns sample_names 30 "minio.local" (Some t) p with
  | (p', Some t', _) => is_unhealthy ip5 t' = false /\ ips <$> (ip_distributors p' !! "s3.local"%string) = Some [ip6]
  | _ => False
  end.
Proof. vm_compute. split_and!; reflexivity. Qed.

(** An endpoint that a pattern covers gets no distributor, neither at the start nor when it is registered. *)
Lemma pattern_never_distributed :
  let p := new_with_config {[ "*.vpce.local"%string := ["10.0.0.7"%string] ]} 60 100 in
  resolve_override (overrides p) "a.vpce.local" = Some [V4 (v4 10 0 0 7)] /\
  forall lookup_ip now, get_distributed_ip "a.vpce.local" (register_endpoint lookup_ip now "a.vpce.local" p) = (p, None).
Proof. split; [vm_compute; reflexivity | intros lookup_ip now; vm_compute; reflexivity]. Qed.

End Pool.
