(* ===== verification/HitBuffer.v ===== *)
(** * Cache-hit updates ([cache_hit_update_buffer.rs])

    Accesses and TTL refreshes are recorded in RAM and flushed in batches to the journal of
    the instance, from where the consolidator applies them to the metadata.  Requests record
    while the ticker and other requests flush: the accesses of a flush to the buffer, the
    flag, the counters and the file system are the steps of a relation.  The second part is
    the journal file itself, to which flushes append without the lock that the other writers
    take; the third lets the two run together, a write of a flush being a step of both. *)

From S2P Require Import Prelude CacheTypes Ranges RangeMerge Maps MetadataCache DiskPaths DiskRanges Frames.
From S2P Require Import SizeAccounting Storage DiskStore Consolidate RustStr.
From stdpp Require Import gmap strings list_tactics.

#[local] Open Scope Z_scope.

Module Hits.
Import Store DStore Cons.

(** ** Updates *)

Inductive CacheHitUpdateType :=
  | TtlRefresh (new_ttl_secs : Z)
  | AccessUpdate (increment : Z).

Record BufferedCacheHitUpdate := mkUpdate {
  u_cache_key : string;
  u_range_start : Z;
  u_range_end : Z;
  u_update_type : CacheHitUpdateType;
  u_timestamp : Z;
}.

Definition ttl_update (cache_key : string) (new_ttl now : Z) : BufferedCacheHitUpdate :=
  mkUpdate cache_key 0 0 (TtlRefresh (new_ttl / NANOS_PER_SEC)) now.

Definition access_update (cache_key : string) (range_start range_end increment now : Z) : BufferedCacheHitUpdate :=
  mkUpdate cache_key range_start range_end (AccessUpdate increment) now.

Definition to_journal_entry (instance_id : string) (u : BufferedCacheHitUpdate) : JournalEntry :=
  let '(operation, new_ttl_secs, access_increment) :=
    match u_update_type u with
    | TtlRefresh new_ttl_secs => (Disk.TtlRefresh, Some new_ttl_secs, None)
    | AccessUpdate increment => (Disk.AccessUpdate, None, Some increment)
    end in
  let range_spec := mkNewRangeSpec (u_range_start u) (u_range_end u) "" Lz4 0 0 (u_timestamp u) (u_timestamp u) 0 None in
  mkEntry (u_timestamp u) instance_id (u_cache_key u) range_spec operation "" 0 new_ttl_secs None access_increment None.

(** A time before the epoch has no JSON form. *)
Definition serializes (u : BufferedCacheHitUpdate) : bool := 0 <=? u_timestamp u.

(** ** The buffer *)

Record CacheHitUpdateBuffer := mkBuffer {
  b_instance_id : string;
  b_buffer : list BufferedCacheHitUpdate;
  b_last_flush : Z;
  b_flush_interval : Z;
  b_max_buffer_size : Z;
  b_flush_in_progress : bool;
  b_updates_recorded : Z;
  b_entries_flushed : Z;
}.

Definition with_config (instance_id : string) (now flush_interval max_buffer_size : Z) : CacheHitUpdateBuffer :=
  mkBuffer instance_id [] now flush_interval max_buffer_size false 0 0.

Definition DEFAULT_FLUSH_INTERVAL_SECS : Z := 5.
Definition MAX_BUFFER_ENTRIES : Z := 10000.

Definition new (instance_id : string) (now : Z) : CacheHitUpdateBuffer :=
  with_config instance_id now (DEFAULT_FLUSH_INTERVAL_SECS * NANOS_PER_SEC) MAX_BUFFER_ENTRIES.

Definition set_buffer (l : list BufferedCacheHitUpdate) (b : CacheHitUpdateBuffer) : CacheHitUpdateBuffer :=
  mkBuffer (b_instance_id b) l (b_last_flush b) (b_flush_interval b) (b_max_buffer_size b) (b_flush_in_progress b)
    (b_updates_recorded b) (b_entries_flushed b).

Definition set_flag (flag : bool) (b : CacheHitUpdateBuffer) : CacheHitUpdateBuffer :=
  mkBuffer (b_instance_id b) (b_buffer b) (b_last_flush b) (b_flush_interval b) (b_max_buffer_size b) flag
    (b_updates_recorded b) (b_entries_flushed b).

Definition set_last_flush (now : Z) (b : CacheHitUpdateBuffer) : CacheHitUpdateBuffer :=
  mkBuffer (b_instance_id b) (b_buffer b) now (b_flush_interval b) (b_max_buffer_size b) (b_flush_in_progress b)
    (b_updates_recorded b) (b_entries_flushed b).

Definition count_flushed (n : Z) (b : CacheHitUpdateBuffer) : CacheHitUpdateBuffer :=
  mkBuffer (b_instance_id b) (b_buffer b) (b_last_flush b) (b_flush_interval b) (b_max_buffer_size b)
    (b_flush_in_progress b) (b_updates_recorded b) (u64_add (b_entries_flushed b) n).

Definition add_to_buffer (u : BufferedCacheHitUpdate) (b : CacheHitUpdateBuffer) : CacheHitUpdateBuffer :=
  mkBuffer (b_instance_id b) (b_buffer b ++ [u]) (b_last_flush b) (b_flush_interval b) (b_max_buffer_size b)
    (b_flush_in_progress b) (u64_add (b_updates_recorded b) 1) (b_entries_flushed b).

(** [maybe_flush]: the length and the time are read one after the other. *)
Definition should_flush (buffer_len now : Z) (b : CacheHitUpdateBuffer) : bool :=
  (b_flush_interval b <=? Z.max (now - b_last_flush b) 0) || (b_max_buffer_size b <=? buffer_len).

(** ** Flushing *)

(** Where a flush is, with what it holds. *)
Inductive flush_at :=
  | Claimed
  | Took (entries : list BufferedCacheHitUpdate)
  | TookNothing
  | Released
  | DirFailed (entries : list BufferedCacheHitUpdate)
  | Restored
  | Ready (entries : list BufferedCacheHitUpdate)
  | Wrote (entries_flushed errors : Z)
  | Counted (entries_flushed errors : Z)
  | Stamped (entries_flushed errors : Z).

(** What the append to the journal meets: the lines before the failure are in the file. *)
Inductive append_io := OpenFails | WriteFails (complete_lines : nat) | Written.

(** The updates that reach the file, those that do not, and the counts of the result. *)
Definition append (io : append_io) (entries : list BufferedCacheHitUpdate)
    : list BufferedCacheHitUpdate * list BufferedCacheHitUpdate * Z * Z :=
  let lines := base.filter (fun u => serializes u = true) entries in
  let refused := base.filter (fun u => serializes u = false) entries in
  match lines, io with
  | [], _ => ([], refused, 0, zlen refused)
  | _, Written => (lines, refused, zlen lines, zlen refused)
  | _, OpenFails => ([], entries, 0, zlen refused + zlen lines)
  | _, WriteFails n => (take n lines, drop n lines ++ refused, 0, zlen refused + zlen lines)
  end.

(** [h_recorded]: every update recorded; [h_journal]: those whose lines a flush wrote to the journal file; [h_dropped]: those no one holds any more;
    [h_faults]: appends that failed and flushes whose request was cancelled. *)
Record hits := mkHits {
  h_buffer : CacheHitUpdateBuffer;
  h_flushes : list flush_at;
  h_recorded : list BufferedCacheHitUpdate;
  h_journal : list BufferedCacheHitUpdate;
  h_dropped : list BufferedCacheHitUpdate;
  h_faults : Z;
}.

Definition held (f : flush_at) : list BufferedCacheHitUpdate :=
  match f with Took es | DirFailed es | Ready es => es | _ => [] end.

Definition took (entries : list BufferedCacheHitUpdate) : flush_at :=
  match entries with [] => TookNothing | _ => Took entries end.

(** The flush has set the flag and not cleared it. *)
Definition has_flag (f : flush_at) : bool := match f with Released => false | _ => true end.

Inductive step : hits -> hits -> Prop :=
  | Record s u :
      step s (mkHits (add_to_buffer u (h_buffer s)) (h_flushes s) (h_recorded s ++ [u]) (h_journal s) (h_dropped s) (h_faults s))
  | Claim s :
      b_flush_in_progress (h_buffer s) = false ->
      step s (mkHits (set_flag true (h_buffer s)) (h_flushes s ++ [Claimed]) (h_recorded s) (h_journal s) (h_dropped s) (h_faults s))
  | Take s before after :
      h_flushes s = before ++ Claimed :: after ->
      step s (mkHits (set_buffer [] (h_buffer s)) (before ++ took (b_buffer (h_buffer s)) :: after) (h_recorded s) (h_journal s) (h_dropped s) (h_faults s))
  | ReleaseEmpty s before after :
      h_flushes s = before ++ TookNothing :: after ->
      step s (mkHits (set_flag false (h_buffer s)) (before ++ Released :: after) (h_recorded s) (h_journal s) (h_dropped s) (h_faults s))
  | StampEmpty s now before after :
      h_flushes s = before ++ Released :: after ->
      step s (mkHits (set_last_flush now (h_buffer s)) (before ++ after) (h_recorded s) (h_journal s) (h_dropped s) (h_faults s))
  | MakeDir s created entries before after :
      h_flushes s = before ++ Took entries :: after ->
      step s (mkHits (h_buffer s) (before ++ (if created : bool then Ready entries else DirFailed entries) :: after)
                (h_recorded s) (h_journal s) (h_dropped s) (h_faults s))
  | PutBack s entries before after :
      h_flushes s = before ++ DirFailed entries :: after ->
      step s (mkHits (set_buffer (b_buffer (h_buffer s) ++ entries) (h_buffer s)) (before ++ Restored :: after)
                (h_recorded s) (h_journal s) (h_dropped s) (h_faults s))
  | ReleaseFailed s before after :
      h_flushes s = before ++ Restored :: after ->
      step s (mkHits (set_flag false (h_buffer s)) (before ++ after) (h_recorded s) (h_journal s) (h_dropped s) (h_faults s))
  | Append s io entries before after written lost flushed errors :
      h_flushes s = before ++ Ready entries :: after ->
      append io entries = (written, lost, flushed, errors) ->
      step s (mkHits (h_buffer s) (before ++ Wrote flushed errors :: after)
                (h_recorded s) (h_journal s ++ written) (h_dropped s ++ lost)
                (h_faults s + match io with Written => 0 | _ => 1 end))
  | Count s flushed errors before after :
      h_flushes s = before ++ Wrote flushed errors :: after ->
      step s (mkHits (count_flushed flushed (h_buffer s)) (before ++ Counted flushed errors :: after)
                (h_recorded s) (h_journal s) (h_dropped s) (h_faults s))
  | Stamp s now flushed errors before after :
      h_flushes s = before ++ Counted flushed errors :: after ->
      step s (mkHits (set_last_flush now (h_buffer s)) (before ++ Stamped flushed errors :: after)
                (h_recorded s) (h_journal s) (h_dropped s) (h_faults s))
  | Release s flushed errors before after :
      h_flushes s = before ++ Stamped flushed errors :: after ->
      step s (mkHits (set_flag false (h_buffer s)) (before ++ after) (h_recorded s) (h_journal s) (h_dropped s) (h_faults s))
  | Cancel s f before after :
      h_flushes s = before ++ f :: after ->
      step s (mkHits (h_buffer s) (before ++ after) (h_recorded s) (h_journal s) (h_dropped s ++ held f) (h_faults s + 1)).

Definition initial (b : CacheHitUpdateBuffer) : hits := mkHits b [] [] [] [] 0.

Inductive reachable (b : CacheHitUpdateBuffer) : hits -> Prop :=
  | ReachInit : reachable b (initial b)
  | ReachStep s s' : reachable b s -> step s s' -> reachable b s'.

(** ** What the steps keep *)

Definition held_all (fs : list flush_at) : list BufferedCacheHitUpdate := concat (held <$> fs).

(** Lines written and not counted yet. *)
Definition uncounted (f : flush_at) : Z := match f with Wrote n _ => n | _ => 0 end.

Definition flag_holders (fs : list flush_at) : nat := length (base.filter (fun f => has_flag f = true) fs).

#[local] Arguments held_all : simpl never.
#[local] Arguments flag_holders : simpl never.
#[local] Arguments sum_by : simpl never.

Record hits_ok (b : CacheHitUpdateBuffer) (s : hits) : Prop := {
  ok_instance : b_instance_id (h_buffer s) = b_instance_id b;
  ok_updates : h_recorded s ≡ₚ b_buffer (h_buffer s) ++ held_all (h_flushes s) ++ h_journal s ++ h_dropped s;
  ok_recorded : b_updates_recorded (h_buffer s) = wrap64 (zlen (h_recorded s));
  ok_holders : (flag_holders (h_flushes s) <= 1)%nat;
  ok_flag : flag_holders (h_flushes s) <> O -> b_flush_in_progress (h_buffer s) = true;
  ok_faults : 0 <= h_faults s;
  ok_clean : h_faults s = 0 ->
    (flag_holders (h_flushes s) = O -> b_flush_in_progress (h_buffer s) = false) /\
    Forall (fun u => serializes u = false) (h_dropped s) /\
    wrap64 (b_entries_flushed (h_buffer s) + sum_by uncounted (h_flushes s)) = wrap64 (zlen (h_journal s));
}.

Lemma held_all_mid before f after : held_all (before ++ f :: after) = held_all before ++ held f ++ held_all after.
Proof. unfold held_all. by rewrite fmap_app, concat_app, fmap_cons. Qed.

Lemma held_all_app before after : held_all (before ++ after) = held_all before ++ held_all after.
Proof. unfold held_all. by rewrite fmap_app, concat_app. Qed.

Lemma flag_holders_mid before f after :
  flag_holders (before ++ f :: after) = (flag_holders before + flag_holders after + if has_flag f then 1 else 0)%nat.
Proof. unfold flag_holders. rewrite filter_app, filter_cons, length_app. case_decide as Hf; [rewrite Hf | apply not_true_is_false in Hf; rewrite Hf]; cbn; lia. Qed.

Lemma flag_holders_app before after : flag_holders (before ++ after) = (flag_holders before + flag_holders after)%nat.
Proof. unfold flag_holders. by rewrite filter_app, length_app. Qed.

Lemma filter_split {A} (f : A -> bool) (l : list A) : l ≡ₚ base.filter (fun x => f x = true) l ++ base.filter (fun x => f x = false) l.
Proof.
  induction l as [| x l IH]; [done |]. rewrite !filter_cons. destruct (f x) eqn:Hf.
  - rewrite decide_True, decide_False by done. cbn. by rewrite <- IH.
  - rewrite decide_False, decide_True by done. rewrite <- Permutation_middle. by rewrite <- IH.
Qed.

Lemma append_spec io entries written lost flushed errors : append io entries = (written, lost, flushed, errors) ->
  entries ≡ₚ written ++ lost /\
  (io = Written -> flushed = zlen written /\ Forall (fun u => serializes u = false) lost).
Proof.
  unfold append. pose proof (filter_split serializes entries) as Hs.
  assert (Forall (fun u => serializes u = false) (base.filter (fun u => serializes u = false) entries)) as Hr
    by (apply Forall_forall; intros u [? _]%list_elem_of_filter; done).
  destruct (base.filter (fun u => serializes u = true) entries) as [| u l]; [intros [= <- <- <- <-]; done |].
  destruct io as [| n |]; intros [= <- <- <- <-]; (split; [| done]).
  - done.
  - by rewrite app_assoc, take_drop.
  - done.
Qed.

Lemma zlen_snoc {A} (l : list A) x : zlen (l ++ [x]) = zlen l + 1.
Proof. unfold zlen. rewrite length_app. cbn. lia. Qed.

Lemma took_spec entries : held (took entries) = entries /\ has_flag (took entries) = true /\ uncounted (took entries) = 0.
Proof. by destruct entries. Qed.

(** A step in which a flush goes on or ends: the clauses that follow by arithmetic or a permutation. *)
Ltac flush_step Hok Hf :=
  destruct Hok as [Hi Hu Hr Hh Hfl Hfa Hc]; rewrite Hf in *;
  rewrite ?held_all_mid, ?flag_holders_mid, ?sum_by_app, ?sum_by_cons in *; cbn [has_flag held uncounted] in *;
  split; cbn; rewrite ?held_all_mid, ?held_all_app, ?flag_holders_mid, ?flag_holders_app, ?sum_by_app, ?sum_by_cons;
  cbn [has_flag held uncounted]; try done; try lia;
  try (rewrite Hu; solve_Permutation);
  try (intros Hz; destruct (Hc Hz) as (? & ? & ?); split_and!; [intros; first [done | lia] | done | first [done | by rewrite ?Z.add_0_l in *]]).

Lemma hits_step_ok b s s' : hits_ok b s -> step s s' -> hits_ok b s'.
Proof.
  intros Hok Hstep. destruct Hstep as
    [s u | s Hno | s before after Hf | s before after Hf | s now before after Hf | s created entries before after Hf
    | s entries before after Hf | s before after Hf | s io entries before after written lost flushed errors Hf Happ
    | s flushed errors before after Hf | s now flushed errors before after Hf | s flushed errors before after Hf | s f before after Hf].
  - destruct Hok as [Hi Hu Hr Hh Hfl Hfa Hc]. split; cbn; try done.
    + rewrite Hu. solve_Permutation.
    + unfold u64_add. rewrite Hr, zlen_snoc. unfold wrap64. by rewrite Zplus_mod_idemp_l.
  - destruct Hok as [Hi Hu Hr Hh Hfl Hfa Hc]. assert (flag_holders (h_flushes s) = O) as Hz
      by (destruct (flag_holders (h_flushes s)); [done |]; rewrite Hfl in Hno by done; done).
    split; cbn; rewrite ?held_all_mid, ?flag_holders_mid, ?sum_by_app, ?Hz; cbn; try done; try lia.
    + rewrite Hu. solve_Permutation.
    + intros Hno'. rewrite Z.add_0_r. split; [done |]. by apply Hc.
  - destruct (took_spec (b_buffer (h_buffer s))) as (Hheld & Hflag & Hcount).
    flush_step Hok Hf; rewrite ?Hheld, ?Hflag, ?Hcount; try done; try lia.
    rewrite Hu. solve_Permutation.
  - flush_step Hok Hf.
  - flush_step Hok Hf; [intros ?; apply Hfl; lia |]. intros Hz. destruct (Hc Hz) as (Hff & ? & ?). split_and!; [intros ?; apply Hff; lia | done | done].
  - destruct created; flush_step Hok Hf.
  - flush_step Hok Hf.
  - flush_step Hok Hf.
  - apply append_spec in Happ as [Hperm Hclean]. flush_step Hok Hf.
    + rewrite Hu, Hperm. solve_Permutation.
    + destruct io; lia.
    + destruct io; [lia.. |]. rewrite Z.add_0_r. intros Hz. destruct (Hc Hz) as (? & ? & Hcount). destruct Hclean as [-> Hlost]; [done |].
      split_and!; [lia | by apply Forall_app |]. unfold zlen in *. rewrite length_app, Nat2Z.inj_add. unfold wrap64 in *.
      rewrite <- (Zplus_mod_idemp_l (Z.of_nat (length (h_journal s)))), <- Hcount, Zplus_mod_idemp_l. f_equal. lia.
  - flush_step Hok Hf. intros Hz. destruct (Hc Hz) as (? & ? & Hcount). split_and!; [lia | done |].
    rewrite <- Hcount. unfold u64_add, wrap64. rewrite Zplus_mod_idemp_l. f_equal. lia.
  - flush_step Hok Hf.
  - flush_step Hok Hf.
  - flush_step Hok Hf. intros ?. apply Hfl. lia.
Qed.

Lemma hits_reachable_ok b s : b_buffer b = [] -> b_flush_in_progress b = false -> b_updates_recorded b = 0 -> b_entries_flushed b = 0 ->
  reachable b s -> hits_ok b s.
Proof.
  intros Hb Hf Hr He. induction 1 as [| s s' _ IH Hstep]; [| by eapply hits_step_ok].
  split; cbn; try done.
  - by rewrite Hb.
  - unfold flag_holders. cbn. lia.
  - intros _. split_and!; [done | constructor | by rewrite He].
Qed.

(** ** From the journal to the metadata *)

(** What a hit may not change of a range. *)
Definition same_data (r r' : NewRangeSpec) : Prop :=
  nr_start r' = nr_start r /\ nr_end r' = nr_end r /\ nr_file_path r' = nr_file_path r /\
  nr_compression_algorithm r' = nr_compression_algorithm r /\ nr_compressed_size r' = nr_compressed_size r /\
  nr_uncompressed_size r' = nr_uncompressed_size r /\ nr_created_at r' = nr_created_at r /\ nr_staged r' = nr_staged r.

Definition increment_of (u : BufferedCacheHitUpdate) : Z := match u_update_type u with AccessUpdate n => n | TtlRefresh _ => 0 end.

Definition of_range (key : string) (r : NewRangeSpec) (u : BufferedCacheHitUpdate) : bool :=
  bool_decide (u_cache_key u = key) && (u_range_start u =? nr_start r) && (u_range_end u =? nr_end r).

(** The accesses that were recorded of a range. *)
Definition accesses (key : string) (r : NewRangeSpec) (us : list BufferedCacheHitUpdate) : Z :=
  sum_by increment_of (base.filter (fun u => of_range key r u = true) us).

Definition extent (r : NewRangeSpec) : Z * Z := (nr_start r, nr_end r).

Definition hit_entry (e : JournalEntry) : Prop := exists instance u, e = to_journal_entry instance u.

Lemma same_extent_iff r r' : same_extent r r' = true <-> extent r = extent r'.
Proof. rewrite same_extent_spec. unfold extent. split; [by intros [-> ->] | by intros [= -> ->]]. Qed.

Lemma update_extent_spec r f rs : NoDup (extent <$> rs) ->
  default rs (update_extent r f rs) = (fun x => if same_extent x r then f x else x) <$> rs.
Proof.
  intros Hnd. induction rs as [| x rs IH]; [done |]. cbn. inversion Hnd as [| ? ? Hno Hnd']; subst.
  destruct (same_extent x r) eqn:Hx; cbn.
  - f_equal. rewrite <- (list_fmap_id rs) at 1. apply list_fmap_ext. intros i y Hy. cbn. destruct (same_extent y r) eqn:Hy'; [| done].
    apply same_extent_iff in Hx, Hy'. destruct Hno. rewrite Hx, <- Hy'. apply list_elem_of_fmap. exists y. split; [done |]. by eapply list_elem_of_lookup_2.
  - specialize (IH Hnd'). destruct (update_extent r f rs); cbn in *; congruence.
Qed.

(** What one update does to a range. *)
Definition hit_range (x : NewRangeSpec) (u : BufferedCacheHitUpdate) : NewRangeSpec :=
  if (nr_start x =? u_range_start u) && (nr_end x =? u_range_end u)
  then match u_update_type u with
       | TtlRefresh _ => touch_range (u_timestamp u) x
       | AccessUpdate n => count_accesses n (u_timestamp u) x
       end
  else x.

Lemma hit_range_extent x u : extent (hit_range x u) = extent x.
Proof. unfold hit_range. destruct (_ && _); [| done]. by destruct (u_update_type u). Qed.

Section Counting.
Context `{HashIter} `{PathCodec}.

Lemma apply_hit env instance u a :
  NoDup (extent <$> cm_ranges (ap_metadata a)) ->
  let a' := apply_entry env (to_journal_entry instance u) a in
  cm_ranges (ap_metadata a') = (fun x => hit_range x u) <$> cm_ranges (ap_metadata a) /\
  cm_object_metadata (ap_metadata a') = cm_object_metadata (ap_metadata a) /\
  cm_cache_key (ap_metadata a') = cm_cache_key (ap_metadata a) /\ ap_graduated a' = ap_graduated a.
Proof.
  intros Hnd a'. subst a'. unfold apply_entry, to_journal_entry, hit_range.
  destruct (u_update_type u) as [secs | n]; cbn [je_operation je_new_ttl_secs je_access_increment je_range_spec je_timestamp].
  - cbn. split; [| done]. by rewrite update_extent_spec.
  - pose proof (update_extent_spec (mkNewRangeSpec (u_range_start u) (u_range_end u) "" Lz4 0 0 (u_timestamp u) (u_timestamp u) 0 None)
      (count_accesses n (u_timestamp u)) (cm_ranges (ap_metadata a)) Hnd) as Hup.
    destruct (update_extent _ _ _) as [rs |]; (split; [exact Hup | done]).
Qed.

Lemma apply_hits env instance us : forall a,
  NoDup (extent <$> cm_ranges (ap_metadata a)) ->
  let a' := foldl (fun a e => apply_entry env e a) a (to_journal_entry instance <$> us) in
  cm_ranges (ap_metadata a') = (fun x => foldl hit_range x us) <$> cm_ranges (ap_metadata a) /\
  cm_object_metadata (ap_metadata a') = cm_object_metadata (ap_metadata a) /\
  cm_cache_key (ap_metadata a') = cm_cache_key (ap_metadata a) /\ ap_graduated a' = ap_graduated a.
Proof.
  induction us as [| u us IH]; intros a Hnd; cbn.
  - split; [| done]. symmetry. apply (list_fmap_id (cm_ranges _)).
  - destruct (apply_hit env instance u a Hnd) as (Hr & Ho & Hk & Hg).
    destruct (IH (apply_entry env (to_journal_entry instance u) a)) as (Hr' & Ho' & Hk' & Hg').
    { rewrite Hr, <- list_fmap_compose. erewrite list_fmap_ext; [exact Hnd |]. intros i x _. apply hit_range_extent. }
    rewrite Hr', Ho', Hk', Hg', Ho, Hk, Hg, Hr, <- list_fmap_compose. done.
Qed.

Lemma same_data_trans x y z : same_data x y -> same_data y z -> same_data x z.
Proof. unfold same_data. intuition congruence. Qed.

Lemma accesses_cons key x u us : accesses key x (u :: us) = (if of_range key x u then increment_of u else 0) + accesses key x us.
Proof. unfold accesses. rewrite filter_cons. case_decide as Hu; [by rewrite Hu | apply not_true_is_false in Hu; by rewrite Hu]. Qed.

Lemma accesses_extent key x y us : extent x = extent y -> accesses key x us = accesses key y us.
Proof. intros [= Hs He]. unfold accesses, of_range. by rewrite Hs, He. Qed.

Lemma accesses_perm key x us us' : us ≡ₚ us' -> accesses key x us = accesses key x us'.
Proof. intros Hp. unfold accesses. by rewrite Hp. Qed.

Lemma hit_range_spec key x u : u_cache_key u = key -> 0 <= nr_access_count x < 2 ^ 64 ->
  same_data x (hit_range x u) /\ nr_access_count (hit_range x u) = wrap64 (nr_access_count x + if of_range key x u then increment_of u else 0).
Proof.
  intros <- Hx. unfold hit_range, of_range, increment_of. rewrite bool_decide_true, (Z.eqb_sym (u_range_start u)), (Z.eqb_sym (u_range_end u)) by done.
  cbn [andb]. assert (nr_access_count x = wrap64 (nr_access_count x + 0)) as Hsame by (unfold wrap64; rewrite Z.add_0_r, Z.mod_small; done).
  destruct (_ && _); [| by split]. by destruct (u_update_type u).
Qed.

Lemma hit_ranges_spec key us : forall x, Forall (fun u => u_cache_key u = key) us -> 0 <= nr_access_count x < 2 ^ 64 ->
  same_data x (foldl hit_range x us) /\ nr_access_count (foldl hit_range x us) = wrap64 (nr_access_count x + accesses key x us).
Proof.
  induction us as [| u us IH]; intros x Hkey Hx; cbn.
  - split; [done |]. unfold accesses. cbn. rewrite Z.add_0_r. unfold wrap64. by rewrite Z.mod_small.
  - inversion Hkey as [| ? ? Hu Hus]; subst. destruct (hit_range_spec _ x u eq_refl Hx) as [Hs1 Hc1].
    destruct (IH (hit_range x u) Hus) as [Hs2 Hc2]; [rewrite Hc1; apply Z.mod_pos_bound; lia |].
    split; [by eapply same_data_trans |]. rewrite Hc2, Hc1, accesses_cons, (accesses_extent _ (hit_range x u) x) by apply hit_range_extent.
    unfold wrap64. rewrite Zplus_mod_idemp_l. f_equal. lia.
Qed.

(** *** A consolidation of hits *)

Lemma validate_hits env key path m instance us st :
  get_sharded_path "metadata" key ".meta" = Ok path -> metadata_files st !! path = Some (MetaParsed m) ->
  evicted_ranges st !! key = None -> Forall (fun u => u_cache_key u = key) us ->
  validate_journal_entries_with_staleness env (to_journal_entry instance <$> us) st = (st, (to_journal_entry instance <$> us, [])).
Proof.
  intros Hpath Hm Hev. induction us as [| u us IH]; intros Hkey; [done |]. inversion Hkey as [| ? ? Hu Hus]; subst. cbn.
  assert (validate_entry env (to_journal_entry instance u) st = (st, Valid)) as ->; [| by rewrite IH].
  unfold validate_entry, to_journal_entry, check_and_clear_evicted_range.
  destruct (u_update_type u); cbn; rewrite Hev; cbn; rewrite Hpath, bool_decide_true by eauto; done.
Qed.

Lemma filter_all_true {A} (f : A -> bool) l : (forall x, x ∈ l -> f x = true) -> List.filter f l = l.
Proof.
  induction l as [| x l IH]; intros Hl; [done |]. cbn. rewrite Hl by left. f_equal. apply IH. intros y Hy. apply Hl. by right.
Qed.

Lemma hit_matches etag instance u : matches_object_version (to_journal_entry instance u) etag = true.
Proof. unfold to_journal_entry. by destruct (u_update_type u). Qed.

Lemma filter_hits etag instance us :
  List.filter (fun e => matches_object_version e etag) (to_journal_entry instance <$> us) = to_journal_entry instance <$> us.
Proof. apply filter_all_true. intros e (u & -> & _)%list_elem_of_fmap. apply hit_matches. Qed.

Lemma cleanup_rejected_hits env key etag retained attempted failed instance us st :
  cleanup_rejected env key etag retained attempted failed (to_journal_entry instance <$> us) st = (st, Ok failed).
Proof. induction us as [| u us IH]; [done |]. cbn. unfold to_journal_entry at 1. destruct (u_update_type u); exact IH. Qed.

Lemma latest_publications_hits instance us : forall acc, latest_publications acc (to_journal_entry instance <$> us) = acc.
Proof. induction us as [| u us IH]; [done |]. intros acc. cbn. unfold to_journal_entry at 1. destruct (u_update_type u); apply IH. Qed.

Lemma guessed_length_keeps m : cm_ranges (guess_content_length m) = cm_ranges m /\ cm_cache_key (guess_content_length m) = cm_cache_key m
  /\ om_etag (cm_object_metadata (guess_content_length m)) = om_etag (cm_object_metadata m).
Proof. unfold guess_content_length. destruct (cm_ranges m) as [| r [| ? ?]] eqn:E; [done | | done]. by destruct (_ && _). Qed.

Lemma consolidate_hits env key files st path m instance us :
  ce_lock env = true -> ce_write_meta env = None -> get_sharded_path "metadata" key ".meta" = Ok path ->
  metadata_files st !! path = Some (MetaParsed m) -> cm_cache_key m = key -> evicted_ranges st !! key = None -> foreign_ranges m = [] ->
  NoDup (extent <$> cm_ranges m) -> us <> [] -> Forall (fun u => u_cache_key u = key) us ->
  entries_read env key files st = to_journal_entry instance <$> us ->
  exists st' r m', consolidate_object_with_files env key files st = (st', Ok r) /\
    cr_consolidated_entries r = to_journal_entry instance <$> us /\
    metadata_files st' = <[path := MetaParsed m']> (metadata_files st) /\ range_files st' = range_files st /\
    journal_files st' = journal_files st /\
    cm_ranges m' = (fun x => foldl hit_range x us) <$> cm_ranges m /\
    om_etag (cm_object_metadata m') = om_etag (cm_object_metadata m).
Proof.
  intros Hlock Hwrite Hpath Hm Hkey Hev Hfor Hnd Hne Hus Hread. unfold consolidate_object_with_files. rewrite Hlock, Hread. cbn [negb].
  assert (exists e es, to_journal_entry instance <$> us = e :: es) as (e & es & Ees) by (destruct us; [done | cbn; eauto]).
  rewrite Ees. cbv beta iota. rewrite <- Ees, (validate_hits _ key path m) by done. rewrite Ees. cbv beta iota. rewrite <- Ees.
  unfold consolidate_valid, load_or_create_metadata_with_journal_entries. rewrite Hpath. cbn [mbind outcome_bind].
  rewrite Hm. rewrite filter_hits, cleanup_rejected_hits, Hfor. cbn [retire_foreign].
  unfold resolve_conflicts, apply_journal_entries. rewrite latest_publications_hits, map_to_list_empty. cbn [foldl].
  set (m1 := set_ranges _ (drop_retired [] m)).
  assert (cm_ranges m1 = cm_ranges m /\ cm_cache_key m1 = key /\ cm_object_metadata m1 = cm_object_metadata m) as (Hr1 & Hk1 & Ho1).
  { unfold m1, drop_retired. cbn. split; [| done]. apply filter_all_true. intros x _. by rewrite bool_decide_false by apply not_elem_of_nil. }
  destruct (apply_hits env instance us (mkApplied m1 0 0)) as (Hr & Ho & Hk & _); [cbn [ap_metadata]; by rewrite Hr1 |].
  set (a := foldl _ _ _) in *. cbn [ap_metadata] in Hr, Ho, Hk. destruct (guessed_length_keeps (ap_metadata a)) as (Hgr & Hgk & Hge).
  unfold cons_write_metadata. cbn [ap_metadata]. rewrite Hgk, Hk, Hk1, Hpath, Hwrite.
  do 2 eexists. exists (guess_content_length (ap_metadata a)). split; [reflexivity |]. cbn. rewrite app_nil_r.
  split_and!; [| done | done | done | by rewrite Hgr, Hr, Hr1 | by rewrite Hge, Ho, Ho1].
  apply filter_all_true. intros x _. by rewrite (bool_decide_false (_ ∈ [])) by apply not_elem_of_nil; rewrite orb_true_r.
Qed.

(** *** A flush that meets no failure *)

Lemma flush_moves_buffer s : h_flushes s = [] -> b_flush_in_progress (h_buffer s) = false ->
  exists s', rtc step s s' /\ b_buffer (h_buffer s') = [] /\ h_flushes s' = [] /\ b_flush_in_progress (h_buffer s') = false /\
    h_faults s' = h_faults s /\ h_recorded s' = h_recorded s /\
    h_journal s' = h_journal s ++ base.filter (fun u => serializes u = true) (b_buffer (h_buffer s)).
Proof.
  intros Hf Hflag. destruct (b_buffer (h_buffer s)) as [| u l] eqn:Hb.
  { exists s. split; [constructor |]. rewrite app_nil_r. done. }
  destruct (append Written (u :: l)) as [[[written lost] flushed] errors] eqn:Happ.
  assert (written = base.filter (fun u => serializes u = true) (u :: l)) as Hw.
  { revert Happ. unfold append. destruct (base.filter (fun u => serializes u = true) (u :: l)); by intros [= <- <- <- <-]. }
  eexists. split; [| shelve].
  eapply rtc_l; [by apply Claim |]. rewrite Hf. cbn.
  eapply rtc_l; [by apply (Take _ [] []) |]. cbn. rewrite Hb.
  eapply rtc_l; [by apply (MakeDir _ true (u :: l) [] []) |]. cbn.
  eapply rtc_l; [by eapply (Append _ Written (u :: l) [] []) |]. cbn.
  eapply rtc_l; [by apply (Count _ flushed errors [] []) |]. cbn.
  eapply rtc_l; [by apply (Stamp _ 0 flushed errors [] []) |]. cbn.
  eapply rtc_l; [by apply (Release _ flushed errors [] []) |]. cbn. constructor.
  Unshelve. cbn. rewrite Hw, Z.add_0_r. done.
Qed.

Lemma filter_serialized us : Forall (fun u => serializes u = true) us -> base.filter (fun u => serializes u = true) us = us.
Proof. induction 1 as [| u us Hu _ IH]; [done |]. rewrite filter_cons_True by done. by rewrite IH. Qed.

Lemma nothing_dropped b s : hits_ok b s -> h_faults s = 0 -> Forall (fun u => serializes u = true) (h_recorded s) -> h_dropped s = [].
Proof.
  intros Hok Hz Hs. destruct (ok_clean _ _ Hok Hz) as (_ & Hd & _). rewrite (ok_updates _ _ Hok), !Forall_app in Hs.
  destruct Hs as (_ & _ & _ & Hs). destruct (h_dropped s) as [| u l]; [done |]. inversion Hs; inversion Hd; congruence.
Qed.

(** Consolidating a journal whose entries of the key are these hits, of an object without ranges of another version and without a mark of
    an eviction, raises the access count of every range by exactly the accesses among them, changes nothing else of the range than its last
    access, and hands every entry to the cleanup. *)
Lemma consolidation_counts env key files st path m instance hits :
  ce_lock env = true -> ce_write_meta env = None -> get_sharded_path "metadata" key ".meta" = Ok path ->
  metadata_files st !! path = Some (MetaParsed m) -> cm_cache_key m = key -> evicted_ranges st !! key = None -> foreign_ranges m = [] ->
  NoDup (extent <$> cm_ranges m) -> Forall (fun x => 0 <= nr_access_count x < 2 ^ 64) (cm_ranges m) -> hits <> [] ->
  Forall (fun u => u_cache_key u = key) hits -> entries_read env key files st ≡ₚ to_journal_entry instance <$> hits ->
  exists st' r m', consolidate_object_with_files env key files st = (st', Ok r) /\
    cr_consolidated_entries r ≡ₚ to_journal_entry instance <$> hits /\
    metadata_files st' !! path = Some (MetaParsed m') /\ range_files st' = range_files st /\
    Forall2 (fun x x' => same_data x x' /\ nr_access_count x' = wrap64 (nr_access_count x + accesses key x hits)) (cm_ranges m) (cm_ranges m').
Proof.
  intros Hlock Hwrite Hpath Hm Hkey Hev Hfor Hnd Hcount Hne Hkeys Hread.
  apply Permutation_map_inv in Hread as (us & Hread & Hperm). rewrite Hperm in Hkeys.
  assert (us <> []) as Hne' by (intros ->; by apply Permutation_nil_r in Hperm).
  destruct (consolidate_hits env key files st path m instance us) as (st' & r & m' & Hcons & Hent & Hmeta & Hfiles & _ & Hranges & _); [done.. |].
  exists st', r, m'. split; [done |]. split; [rewrite Hent; by rewrite <- Hperm |]. split; [by rewrite Hmeta, lookup_insert_eq |]. split; [done |].
  rewrite Hranges. apply Forall2_fmap_r, Forall_Forall2_diag. eapply Forall_impl; [exact Hcount |]. intros x Hx.
  destruct (hit_ranges_spec key us x Hkeys Hx) as [Hsame Hacc]. split; [done |]. by rewrite Hacc, (accesses_perm key x hits us Hperm).
Qed.

End Counting.

(** ** The journal file of an instance *)

(** A file with its last line apart when no newline ends it: a write that failed part of the way. *)
Record content := mkContent { c_lines : list line; c_tail : option line }.

Definition no_content : content := mkContent [] None.

Definition read_lines (c : content) : list line := c_lines c ++ option_list (c_tail c).

(** Text that is appended runs on from an unended line, which no longer parses. *)
Definition append_text (new : list line) (c : content) : content :=
  match c_tail c, new with
  | Some _, _ :: rest => mkContent (c_lines c ++ Garbage "" :: rest) None
  | _, _ => mkContent (c_lines c ++ new) (c_tail c)
  end.

(** What is under way: an append or a cleanup that has the lock and has read the file, a flush that has it open. *)
Inductive file_op :=
  | Appending (e : JournalEntry) (existing : content)
  | Cleaning (consolidated : list JournalEntry) (existing : content)
  | Flushing (entries : list JournalEntry) (inode : nat).

(** [j_path]: the inode the name stands for; [j_fresh]: the files of appends that found the lock busy; [j_appended]: entries whose append
    returned success; [j_flushed]: entries whose lines flushes wrote whole; [j_consolidated]: entries a cleanup was given.  What went wrong:
    [j_torn], a flush stopped part of the way; [j_unread], an append could not read the file; [j_raced], a flush wrote while an append or
    a cleanup had the lock, or to a file the name no longer stands for. *)
Record journal := mkJournal {
  j_inodes : gmap nat content;
  j_path : option nat;
  j_locked : bool;
  j_ops : list file_op;
  j_fresh : list JournalEntry;
  j_appended : list JournalEntry;
  j_flushed : list JournalEntry;
  j_consolidated : list JournalEntry;
  j_torn : bool;
  j_unread : bool;
  j_raced : bool;
}.

Definition current (j : journal) : content := default no_content (j_path j ≫= fun i => j_inodes j !! i).

Definition unused (j : journal) : nat := fresh (dom (j_inodes j)).

(** A rewrite is a new file renamed over the old one. *)
Definition rename_over (c : content) (ops : list file_op) (j : journal) : journal :=
  let i := unused j in
  mkJournal (<[i := c]> (j_inodes j)) (Some i) false ops (j_fresh j) (j_appended j) (j_flushed j) (j_consolidated j) (j_torn j)
    (j_unread j) (j_raced j).

(** An unlinked file stays for the flush that has it open. *)
Definition unlink_journal (ops : list file_op) (j : journal) : journal :=
  mkJournal (j_inodes j) None false ops (j_fresh j) (j_appended j) (j_flushed j) (j_consolidated j) (j_torn j) (j_unread j) (j_raced j).

Definition set_ops (locked : bool) (ops : list file_op) (j : journal) : journal :=
  mkJournal (j_inodes j) (j_path j) locked ops (j_fresh j) (j_appended j) (j_flushed j) (j_consolidated j) (j_torn j) (j_unread j) (j_raced j).

Definition note_appended (e : JournalEntry) (j : journal) : journal :=
  mkJournal (j_inodes j) (j_path j) (j_locked j) (j_ops j) (j_fresh j) (j_appended j ++ [e]) (j_flushed j) (j_consolidated j) (j_torn j)
    (j_unread j) (j_raced j).

Definition note_unread (j : journal) : journal :=
  mkJournal (j_inodes j) (j_path j) (j_locked j) (j_ops j) (j_fresh j) (j_appended j) (j_flushed j) (j_consolidated j) (j_torn j) true (j_raced j).

(** The fields by which a cleanup knows an entry. *)
Definition entry_id (e : JournalEntry) : string * Z * Z * Z * string :=
  (je_cache_key e, nr_start (je_range_spec e), nr_end (je_range_spec e), je_timestamp e, je_instance_id e).

Definition was_consolidated (consolidated : list JournalEntry) (e : JournalEntry) : bool :=
  bool_decide (entry_id e ∈ entry_id <$> consolidated).

Definition remaining (consolidated : list JournalEntry) (c : content) : list JournalEntry :=
  List.filter (fun e => negb (was_consolidated consolidated e)) (parsed_lines (read_lines c)).

(** A cleanup rewrites a file only if it removes an entry. *)
Definition removes (consolidated : list JournalEntry) (c : content) : bool :=
  existsb (was_consolidated consolidated) (parsed_lines (read_lines c)).

Definition write_inode (i : nat) (c : content) (ops : list file_op) (flushed : list JournalEntry) (torn : bool) (j : journal) : journal :=
  mkJournal (<[i := c]> (j_inodes j)) (j_path j) (j_locked j) ops (j_fresh j) (j_appended j) (j_flushed j ++ flushed) (j_consolidated j)
    (j_torn j || torn) (j_unread j) (j_raced j || (j_locked j || negb (bool_decide (j_path j = Some i)))).

(** [colon]: the file's name holds a colon, by which a cleanup takes it for a fresh journal that it may delete. *)
Inductive file_step (colon : bool) : journal -> journal -> Prop :=
  | AppendLocked j e :
      j_locked j = false -> file_step colon j (set_ops true (j_ops j ++ [Appending e (current j)]) j)
  | AppendUnread j e :
      j_locked j = false -> is_Some (j_path j) ->
      file_step colon j (note_unread (set_ops true (j_ops j ++ [Appending e no_content]) j))
  | AppendRenamed j e c before after :
      j_ops j = before ++ Appending e c :: after ->
      file_step colon j (note_appended e (rename_over (append_text [Parsed e] c) (before ++ after) j))
  | AppendFailed j e c before after :
      j_ops j = before ++ Appending e c :: after -> file_step colon j (set_ops false (before ++ after) j)
  | AppendBusy j e :
      j_locked j = true ->
      file_step colon j (mkJournal (j_inodes j) (j_path j) (j_locked j) (j_ops j) (j_fresh j ++ [e]) (j_appended j ++ [e]) (j_flushed j)
                     (j_consolidated j) (j_torn j) (j_unread j) (j_raced j))
  | CleanLocked j consolidated :
      j_locked j = false ->
      file_step colon j (mkJournal (j_inodes j) (j_path j) true (j_ops j ++ [Cleaning consolidated (current j)]) (j_fresh j) (j_appended j)
                     (j_flushed j) (j_consolidated j ++ consolidated) (j_torn j) (j_unread j) (j_raced j))
  | CleanRewritten j consolidated c before after :
      j_ops j = before ++ Cleaning consolidated c :: after -> removes consolidated c = true -> remaining consolidated c <> [] \/ colon = false ->
      file_step colon j (rename_over (mkContent (Parsed <$> remaining consolidated c) None) (before ++ after) j)
  | CleanDeleted j consolidated c before after :
      j_ops j = before ++ Cleaning consolidated c :: after -> removes consolidated c = true -> remaining consolidated c = [] -> colon = true ->
      file_step colon j (unlink_journal (before ++ after) j)
  | CleanSkipped j consolidated c before after :
      j_ops j = before ++ Cleaning consolidated c :: after -> file_step colon j (set_ops false (before ++ after) j)
  | FlushOpened j entries i :
      j_path j = Some i -> file_step colon j (set_ops (j_locked j) (j_ops j ++ [Flushing entries i]) j)
  | FlushCreated j entries :
      j_path j = None ->
      let i := unused j in
      file_step colon j (mkJournal (<[i := no_content]> (j_inodes j)) (Some i) (j_locked j) (j_ops j ++ [Flushing entries i]) (j_fresh j)
                     (j_appended j) (j_flushed j) (j_consolidated j) (j_torn j) (j_unread j) (j_raced j))
  | FlushWritten j entries i c before after :
      j_ops j = before ++ Flushing entries i :: after -> j_inodes j !! i = Some c ->
      file_step colon j (write_inode i (append_text (Parsed <$> entries) c) (before ++ after) entries false j)
  | FlushTorn j entries i c whole part before after :
      j_ops j = before ++ Flushing entries i :: after -> j_inodes j !! i = Some c -> whole `prefix_of` entries ->
      file_step colon j (write_inode i (mkContent (c_lines (append_text (Parsed <$> whole) c)) (Some part)) (before ++ after) whole true j).

Definition no_journal : journal := mkJournal ∅ None false [] [] [] [] [] false false false.

Inductive file_reachable (colon : bool) : journal -> Prop :=
  | FileInit : file_reachable colon no_journal
  | FileStep j j' : file_reachable colon j -> file_step colon j j' -> file_reachable colon j'.

(** ** What the file keeps *)

(** Every entry whose append succeeded is in the text, in a file of its own, or was given to a cleanup; and every line a flush wrote is in the text or
    was given to a cleanup, unless a flush raced with another writer. *)
Definition keeps (j : journal) (c : content) : Prop :=
  (forall e, e ∈ j_appended j -> e ∈ j_fresh j \/ was_consolidated (j_consolidated j) e = true \/ e ∈ parsed_lines (read_lines c)) /\
  (j_raced j = false -> forall e, e ∈ j_flushed j -> was_consolidated (j_consolidated j) e = true \/ e ∈ parsed_lines (read_lines c)).

Definition takes_lock (op : file_op) : bool := match op with Flushing _ _ => false | _ => true end.

Definition op_ok (j : journal) (op : file_op) : Prop :=
  match op with
  | Appending _ c => c_tail c = None /\ keeps j c
  | Cleaning consolidated c => c_tail c = None /\ keeps j c /\ consolidated ⊆ j_consolidated j
  | Flushing _ _ => True
  end.

Definition lock_holders (ops : list file_op) : nat := length (base.filter (fun op => takes_lock op = true) ops).

#[local] Arguments lock_holders : simpl never.
#[local] Arguments current : simpl never.

Record journal_ok (j : journal) : Prop := {
  ok_tails : forall i c, j_inodes j !! i = Some c -> c_tail c = None;
  ok_current : keeps j (current j);
  ok_ops : Forall (op_ok j) (j_ops j);
  ok_lock : lock_holders (j_ops j) = if j_locked j then 1%nat else O;
}.

Lemma lock_holders_mid before op after :
  lock_holders (before ++ op :: after) = (lock_holders (before ++ after) + if takes_lock op then 1 else 0)%nat.
Proof.
  unfold lock_holders. rewrite !filter_app, filter_cons, !length_app. case_decide as Ht; [rewrite Ht | apply not_true_is_false in Ht; rewrite Ht]; cbn; lia.
Qed.

Lemma no_holder_ok j ops : Forall (op_ok j) ops -> lock_holders ops = O -> forall j', Forall (op_ok j') ops.
Proof.
  intros Hall Hz j'. induction ops as [| op ops IH]; [constructor |]. inversion Hall; subst.
  unfold lock_holders in Hz. rewrite filter_cons in Hz. case_decide as Ht; [done |]. constructor; [by destruct op | by apply IH].
Qed.

Lemma parsed_lines_app l l' : parsed_lines (l ++ l') = parsed_lines l ++ parsed_lines l'.
Proof. apply omap_app. Qed.

Lemma parsed_lines_entries es : parsed_lines (Parsed <$> es) = es.
Proof. induction es as [| e es IH]; [done |]. cbn. f_equal. exact IH. Qed.

Lemma read_append new c : c_tail c = None -> read_lines (append_text new c) = read_lines c ++ new /\ c_tail (append_text new c) = None.
Proof. intros Ht. unfold read_lines, append_text. rewrite Ht. cbn. by rewrite !app_nil_r. Qed.

Lemma current_tail j : journal_ok j -> c_tail (current j) = None.
Proof.
  intros Hok. unfold current. destruct (j_path j ≫= _) as [c |] eqn:E; [| done]. cbn. apply bind_Some in E as (i & _ & Hi). by eapply ok_tails.
Qed.

Lemma current_rename c ops j : current (rename_over c ops j) = c.
Proof. unfold current. cbn. by rewrite lookup_insert_eq. Qed.

Lemma was_consolidated_mono l l' e : l ⊆ l' -> was_consolidated l e = true -> was_consolidated l' e = true.
Proof.
  unfold was_consolidated. rewrite !bool_decide_eq_true. intros Hl (x & Hx & Hin)%list_elem_of_fmap. apply list_elem_of_fmap. eauto.
Qed.

(** What is kept stays kept while nothing new is appended or flushed. *)
Lemma keeps_mono j j' c :
  keeps j c -> j_appended j' = j_appended j -> j_fresh j' = j_fresh j -> j_consolidated j ⊆ j_consolidated j' ->
  (j_raced j' = false -> j_raced j = false /\ j_flushed j' = j_flushed j) -> keeps j' c.
Proof.
  intros [Hk Hfl] Ha Hf Hc Hr. split.
  - intros e. rewrite Ha, Hf. intros He. destruct (Hk e He) as [? | [? | ?]]; [by left | right; left; by eapply was_consolidated_mono | auto].
  - intros Hr' e. destruct (Hr Hr') as [Hr0 ->]. intros He. destruct (Hfl Hr0 e He); [left; by eapply was_consolidated_mono | auto].
Qed.

Lemma op_ok_mono j j' op :
  op_ok j op -> j_appended j' = j_appended j -> j_fresh j' = j_fresh j -> j_consolidated j ⊆ j_consolidated j' ->
  (j_raced j' = false -> j_raced j = false /\ j_flushed j' = j_flushed j) -> op_ok j' op.
Proof.
  destruct op as [e c | consolidated c | entries i]; cbn; [intros [Ht Hk] .. | done]; intros Ha Hf Hc Hr.
  - split; [done |]. by eapply keeps_mono.
  - destruct Hk as [Hk Hsub]. split_and!; [done | by eapply keeps_mono | by etrans].
Qed.

(** The operation that holds the lock, apart from the rest. *)
Lemma holder_apart j before op after : journal_ok j -> j_ops j = before ++ op :: after -> takes_lock op = true ->
  op_ok j op /\ lock_holders (before ++ after) = O /\ forall j', Forall (op_ok j') (before ++ after).
Proof.
  intros [_ _ Hops Hlock] Hf Ht. rewrite Hf in *. rewrite lock_holders_mid, Ht in Hlock.
  apply Forall_app in Hops as [Hb Ha]. inversion Ha; subst.
  assert (lock_holders (before ++ after) = O) as Hz by (destruct (j_locked j); lia).
  split_and!; [done.. |]. apply (no_holder_ok j); [by apply Forall_app | done].
Qed.

Lemma rename_tails c ops j : journal_ok j -> c_tail c = None -> forall i x, j_inodes (rename_over c ops j) !! i = Some x -> c_tail x = None.
Proof. intros Hok Hc i x. cbn. intros [[_ <-] | [_ Hl]]%lookup_insert_Some; [done | by eapply ok_tails]. Qed.

Lemma flush_write_ok j entries i c before after :
  journal_ok j -> j_ops j = before ++ Flushing entries i :: after -> j_inodes j !! i = Some c ->
  journal_ok (write_inode i (append_text (Parsed <$> entries) c) (before ++ after) entries false j).
Proof.
  intros Hok Hf Hi. pose proof (ok_tails _ Hok _ _ Hi) as Ht. destruct (read_append (Parsed <$> entries) c Ht) as [Hread Htail].
  pose proof Hok as [Htails [Hcur Hfl] Hops Hlock]. rewrite Hf in Hops, Hlock. rewrite lock_holders_mid in Hlock. cbn [takes_lock] in Hlock.
  rewrite Nat.add_0_r in Hlock. set (j' := write_inode _ _ _ _ _ _).
  assert (current j' = if bool_decide (j_path j = Some i) then append_text (Parsed <$> entries) c else current j) as Hcurrent.
  { unfold current. cbn. destruct (j_path j) as [k |]; [| done]. cbn. case_bool_decide as Hk; [injection Hk as -> | ];
      [by rewrite lookup_insert_eq | rewrite lookup_insert_ne by congruence; done]. }
  assert (bool_decide (j_path j = Some i) = true -> current j = c) as Hsame.
  { intros Hk%bool_decide_eq_true. unfold current. by rewrite Hk; cbn; rewrite Hi. }
  split; [| split | | exact Hlock].
  - intros i' x. cbn. intros [[_ <-] | [_ Hl]]%lookup_insert_Some; [done | by eapply Htails].
  - intros e He. destruct (Hcur e He) as [? | [? | Hin]]; [by left | by right; left | right; right]. rewrite Hcurrent.
    destruct (bool_decide (j_path j = Some i)); [| done]. rewrite Hsame in Hin by done. rewrite Hread, parsed_lines_app. by apply elem_of_app; left.
  - cbn. intros [Hr [_ Hb]%orb_false_iff]%orb_false_iff. apply negb_false_iff in Hb. rewrite Hcurrent, Hb, Hread, parsed_lines_app, parsed_lines_entries.
    intros e. rewrite elem_of_app. intros [He | He]; [| right; apply elem_of_app; by right].
    destruct (Hfl Hr e He) as [? | Hin]; [by left | right; apply elem_of_app; left]. by rewrite Hsame in Hin.
  - apply Forall_app in Hops as [Hb Ha]. inversion Ha as [| ? ? _ Ha']; subst. cbn. destruct (j_locked j) eqn:El.
    + apply Forall_app. split; (eapply Forall_impl; [eassumption |]); intros op Hop; (eapply op_ok_mono; [exact Hop | done | done | done |]);
        cbn; rewrite El; by intros [_ [= _]]%orb_false_iff.
    + apply (no_holder_ok j); [by apply Forall_app | exact Hlock].
Qed.

Lemma clean_ok j cs c before after :
  journal_ok j -> j_ops j = before ++ Cleaning cs c :: after ->
  forall j', j_inodes j' = j_inodes j \/ (exists i c', j_inodes j' = <[i := c']> (j_inodes j) /\ c_tail c' = None) ->
  j_locked j' = false -> j_ops j' = before ++ after -> j_appended j' = j_appended j -> j_fresh j' = j_fresh j ->
  j_flushed j' = j_flushed j -> j_consolidated j' = j_consolidated j -> j_raced j' = j_raced j ->
  parsed_lines (read_lines (current j')) = remaining cs c -> journal_ok j'.
Proof.
  intros Hok Hf j' Hino Hl' Hops' Ha Hfr Hfl Hcons Hrace Hcur.
  destruct (holder_apart _ _ _ _ Hok Hf eq_refl) as ((Htc & [Hk Hkf] & Hcs) & Hz & Hrest).
  assert (forall e, e ∈ parsed_lines (read_lines c) ->
    was_consolidated (j_consolidated j) e = true \/ e ∈ parsed_lines (read_lines (current j'))) as Hin.
  { intros e He. destruct (was_consolidated cs e) eqn:Hw; [left; by eapply was_consolidated_mono |]. right. rewrite Hcur.
    apply list_elem_of_In, List.filter_In. split; [by apply list_elem_of_In | by rewrite Hw]. }
  split; [| split | rewrite Hops'; apply Hrest | rewrite Hl', Hops'; exact Hz].
  - intros i x Hx. destruct Hino as [Ei | (i' & c' & Ei & Hc')]; rewrite Ei in Hx; [by eapply ok_tails |].
    apply lookup_insert_Some in Hx as [[_ <-] | [_ Hx]]; [done | by eapply ok_tails].
  - rewrite Ha, Hfr, Hcons. intros e He. destruct (Hk e He) as [? | [? | He']]; [by auto.. |]. destruct (Hin e He'); auto.
  - rewrite Hrace, Hfl, Hcons. intros Hr e He. destruct (Hkf Hr e He) as [? | He']; auto.
Qed.

Lemma file_step_ok colon j j' : file_step colon j j' -> j_torn j' = false -> j_unread j' = false -> journal_ok j -> journal_ok j'.
Proof.
  intros Hstep Htorn Hunread Hok. pose proof (current_tail j Hok) as Hct. pose proof Hok as [Htails Hcur Hops Hlock].
  destruct Hstep as [j e Hl | j e Hl Hp | j e c before after Hf | j e c before after Hf | j e Hl | j cs Hl | j cs c before after Hf Hrm Hne
    | j cs c before after Hf Hrm Hnil Hcol | j cs c before after Hf
    | j entries i Hp | j entries Hp i | j entries i c before after Hf Hi | j entries i c whole part before after Hf Hi Hpre].
  - split; cbn; [done | done | |].
    + apply Forall_app. split; [done | by apply Forall_singleton].
    + rewrite lock_holders_mid, app_nil_r, Hlock, Hl. done.
  - done.
  - destruct (holder_apart _ _ _ _ Hok Hf eq_refl) as ([Htc [Hkc Hkf]] & Hz & Hrest). destruct (read_append [Parsed e] c Htc) as [Hread Htail].
    split; [by apply rename_tails | | apply Hrest | exact Hz].
    change (current _) with (current (rename_over (append_text [Parsed e] c) (before ++ after) j)). rewrite current_rename.
    split; cbn [note_appended rename_over j_appended j_fresh j_consolidated j_raced j_flushed]; rewrite Hread, parsed_lines_app.
    + intros e' [He' | ->%list_elem_of_singleton]%elem_of_app; [| right; right; apply elem_of_app; right; left].
      destruct (Hkc e' He') as [? | [? | ?]]; [by auto.. |]. right. right. apply elem_of_app. by left.
    + intros Hr e' He'. destruct (Hkf Hr e' He') as [? | ?]; [by left | right; apply elem_of_app; by left].
  - destruct (holder_apart _ _ _ _ Hok Hf eq_refl) as (_ & Hz & Hrest). split; [done | done | apply Hrest | exact Hz].
  - assert (forall c, keeps j c -> keeps (mkJournal (j_inodes j) (j_path j) (j_locked j) (j_ops j) (j_fresh j ++ [e]) (j_appended j ++ [e])
      (j_flushed j) (j_consolidated j) (j_torn j) (j_unread j) (j_raced j)) c) as Hk.
    { intros c [Hkc Hkf]. split; [| exact Hkf]. intros e'. cbn. rewrite !elem_of_app. intros [He' | He']; [| by auto]. destruct (Hkc e' He') as [? | [? | ?]]; auto. }
    split; cbn; [done | by apply Hk | | done].
    eapply Forall_impl; [exact Hops |]. intros [e' c | cs c | ? ?]; cbn; [by intros [? ?]; auto | by intros (? & ? & ?); auto | done].
  - split; cbn; [done | | |].
    + eapply keeps_mono; [exact Hcur | done | done | cbn; set_solver | done].
    + apply Forall_app. split; [eapply Forall_impl; [exact Hops |]; intros op Hop; eapply op_ok_mono; [exact Hop | done | done | cbn; set_solver | done] |].
      apply Forall_singleton. split_and!; [done | eapply keeps_mono; [exact Hcur | done | done | cbn; set_solver | done] | cbn; set_solver].
    + rewrite lock_holders_mid, app_nil_r, Hlock, Hl. done.
  - eapply (clean_ok j cs c before after Hok Hf); try done; [right; by eexists _, _ |]. rewrite current_rename. unfold read_lines. cbn.
    by rewrite app_nil_r, parsed_lines_entries.
  - eapply (clean_ok j cs c before after Hok Hf); cbn; try done; by rewrite ?Hnil; auto.
  - destruct (holder_apart _ _ _ _ Hok Hf eq_refl) as (_ & Hz & Hrest). split; [done | done | apply Hrest | exact Hz].
  - split; cbn; [done | done | |].
    + apply Forall_app. split; [done | by apply Forall_singleton].
    + rewrite lock_holders_mid, app_nil_r, Hlock. apply Nat.add_0_r.
  - split; cbn.
    + intros i' x [[_ <-] | [_ Hx]]%lookup_insert_Some; [done | by eapply Htails].
    + assert (current j = no_content) as Hno by (unfold current; by rewrite Hp).
      match goal with |- keeps ?j' ?c => assert (c = no_content) as -> end.
      { unfold current. cbn. by rewrite lookup_insert_eq. }
      rewrite <- Hno. by eapply keeps_mono; [exact Hcur | ..].
    + apply Forall_app. split; [done | by apply Forall_singleton].
    + rewrite lock_holders_mid, app_nil_r, Hlock. apply Nat.add_0_r.
  - by apply flush_write_ok.
  - cbn in Htorn. by rewrite orb_true_r in Htorn.
Qed.

Lemma faults_stay colon j j' : file_step colon j j' -> (j_torn j' = false -> j_torn j = false) /\ (j_unread j' = false -> j_unread j = false).
Proof. destruct 1; cbn; split; try done; by intros [? _]%orb_false_iff. Qed.

Lemma file_reachable_ok colon j : file_reachable colon j -> j_torn j = false -> j_unread j = false -> journal_ok j.
Proof.
  induction 1 as [| j j' _ IH Hstep]; intros Htorn Hunread.
  - split; cbn; [by intros i c; rewrite lookup_empty | split; [by intros e ?%elem_of_nil | by intros _ e ?%elem_of_nil] | constructor | done].
  - destruct (faults_stay _ _ _ Hstep) as [Ht Hu]. eapply file_step_ok; [exact Hstep | done | done |]. apply IH; auto.
Qed.


(** ** The buffer and the file together *)

(** Steps of the buffer that write no line; steps of the file that are no write of a flush; and a write, which is a step of both: the lines the
    flush hands over are the lines that reach the file. *)
Inductive system_step (colon : bool) (instance : string) : hits * journal -> hits * journal -> Prop :=
  | BufferStep h h' j : step h h' -> h_journal h' = h_journal h -> system_step colon instance (h, j) (h', j)
  | OtherStep h j j' : file_step colon j j' -> j_flushed j' = j_flushed j -> system_step colon instance (h, j) (h, j')
  | WriteStep h h' j j' written :
      step h h' -> h_journal h' = h_journal h ++ written ->
      file_step colon j j' -> j_flushed j' = j_flushed j ++ (to_journal_entry instance <$> written) ->
      system_step colon instance (h, j) (h', j').

Definition system_reachable (colon : bool) (b : CacheHitUpdateBuffer) : hits * journal -> Prop :=
  rtc (system_step colon (b_instance_id b)) (initial b, no_journal).

Lemma system_parts colon b h j : system_reachable colon b (h, j) ->
  reachable b h /\ file_reachable colon j /\ j_flushed j = to_journal_entry (b_instance_id b) <$> h_journal h.
Proof.
  set (P := fun s : hits * journal =>
    reachable b s.1 /\ file_reachable colon s.2 /\ j_flushed s.2 = to_journal_entry (b_instance_id b) <$> h_journal s.1).
  unfold system_reachable. intros Hrun. enough (P (h, j)) by done. revert Hrun. generalize (h, j). apply (rtc_ind_r P).
  - split_and!; [constructor | constructor | done].
  - intros s1 s2 _ Hstep (Hr & Hfr & He). destruct Hstep as [h0 h1 j0 Hs Hj | h0 j0 j1 Hs Hj | h0 h1 j0 j1 written Hs Hj Hs' Hj'];
      cbn in *; (split_and!; cbn; [first [by eapply ReachStep | done] | first [by eapply FileStep | done] |]); [congruence.. |].
    by rewrite Hj', Hj, fmap_app, He.
Qed.

(** C14: however requests record hits, flushes run and other writers work on the journal file, one flush writes at a time and every recorded update is in
    the buffer, with the flush, was written to the file or was dropped, once.  Without a failed append to the file or a cancelled request, and for updates whose time is not
    before the epoch, none is dropped, and when no flush is under way the next one writes out the whole buffer.  What was written is still in
    the file or was handed to a cleanup as consolidated, unless a flush raced with another writer of the file, stopped part of the way, or an append could not
    read the file.  And a consolidation of an object without foreign ranges and eviction mark that reads, of its key, exactly the hits recorded raises
    the access count of every range by exactly the accesses recorded of it and changes nothing else of the range than its last access. *)
Theorem hits_counted_once `{HashIter} `{PathCodec} colon instance now interval cap h j :
  system_reachable colon (with_config instance now interval cap) (h, j) ->
  (h_recorded h ≡ₚ b_buffer (h_buffer h) ++ held_all (h_flushes h) ++ h_journal h ++ h_dropped h /\
   b_updates_recorded (h_buffer h) = wrap64 (zlen (h_recorded h)) /\ (flag_holders (h_flushes h) <= 1)%nat) /\
  (h_faults h = 0 -> Forall (fun u => serializes u = true) (h_recorded h) ->
     h_dropped h = [] /\
     (h_flushes h = [] -> exists h', rtc step h h' /\ b_buffer (h_buffer h') = [] /\ held_all (h_flushes h') = [] /\ h_journal h' ≡ₚ h_recorded h)) /\
  (j_torn j = false -> j_unread j = false -> j_raced j = false -> forall u, u ∈ h_journal h ->
     was_consolidated (j_consolidated j) (to_journal_entry instance u) = true \/
     to_journal_entry instance u ∈ parsed_lines (read_lines (current j))) /\
  (forall env key files st path m,
     ce_lock env = true -> ce_write_meta env = None -> get_sharded_path "metadata" key ".meta" = Ok path ->
     metadata_files st !! path = Some (MetaParsed m) -> cm_cache_key m = key -> evicted_ranges st !! key = None -> foreign_ranges m = [] ->
     NoDup (extent <$> cm_ranges m) -> Forall (fun x => 0 <= nr_access_count x < 2 ^ 64) (cm_ranges m) ->
     let hits := base.filter (fun u => u_cache_key u = key) (h_recorded h) in hits <> [] ->
     entries_read env key files st ≡ₚ to_journal_entry instance <$> hits ->
     exists st' r m', consolidate_object_with_files env key files st = (st', Ok r) /\
       cr_consolidated_entries r ≡ₚ to_journal_entry instance <$> hits /\
       metadata_files st' !! path = Some (MetaParsed m') /\ range_files st' = range_files st /\
       Forall2 (fun x x' => same_data x x' /\ nr_access_count x' = wrap64 (nr_access_count x + accesses key x (h_recorded h)))
         (cm_ranges m) (cm_ranges m')).
Proof.
  intros (Hreach & Hfile & Hlines)%system_parts.
  assert (hits_ok (with_config instance now interval cap) h) as Hok by (by apply hits_reachable_ok).
  pose proof Hok as [_ Hu Hr Hh _ _ Hc]. split_and!; [done.. | | |].
  - intros Hz Hs. pose proof (nothing_dropped _ _ Hok Hz Hs) as Hd. split; [done |].
    intros Hf. destruct (flush_moves_buffer h Hf) as (h' & Hrun & Hb' & Hf' & _ & _ & _ & Hj'); [by apply Hc; [| rewrite Hf] |].
    exists h'. rewrite Hf', Hj'. split_and!; [done.. |]. rewrite Hu, Hf, Hd, app_nil_r. cbn. rewrite Hu in Hs. apply Forall_app in Hs as [Hsb _].
    rewrite filter_serialized by done. solve_Permutation.
  - intros Htorn Hunread Hraced u Hin. apply (proj2 (ok_current _ (file_reachable_ok _ _ Hfile Htorn Hunread)) Hraced).
    rewrite Hlines. by apply list_elem_of_fmap_2.
  - intros env key files st path m Hlock Hwrite Hpath Hm Hkey Hev Hfor Hnd Hcount hits Hne Hread.
    destruct (consolidation_counts env key files st path m instance hits) as (st' & r & m' & ? & ? & ? & ? & Hall); try done.
    { apply Forall_forall. by intros u [? _]%list_elem_of_filter. }
    exists st', r, m'. split_and!; try done. eapply Forall2_impl; [exact Hall |]. intros x x' [? ->]. split; [done |]. f_equal. f_equal.
    unfold accesses, hits. f_equal.
    apply list_filter_filter_l. intros u [[Hk%bool_decide_eq_true _]%andb_true_iff _]%andb_true_iff. done.
Qed.

(** ** Samples *)

#[local] Existing Instance map_order.
#[local] Existing Instance sample_codec.
#[local] Existing Instance Comp.stored_only.
#[local] Existing Instance Comp.stored_reader.
#[local] Existing Instance no_dates.

Definition hit1 : BufferedCacheHitUpdate := access_update "b/k/x" 0 5 1 3000.
Definition hit2 : BufferedCacheHitUpdate := access_update "b/k/x" 0 5 2 3001.

Definition sample_buffer : CacheHitUpdateBuffer := with_config "h:1" 0 5 10.

(** Two hits recorded and written; their flush is about to count them. *)
Definition sample_hits : hits :=
  mkHits (mkBuffer "h:1" [] 0 5 10 true 2 0) [Wrote 2 0] [hit1; hit2] [hit1; hit2] [] 0.

Lemma sample_hits_reachable : reachable sample_buffer sample_hits.
Proof.
  pose proof (ReachStep _ _ _ (ReachInit sample_buffer) (Record _ hit1)) as H1. eapply ReachStep in H1; [| apply (Record _ hit2)].
  eapply ReachStep in H1; [| apply Claim; reflexivity]. eapply ReachStep in H1; [| apply (Take _ [] []); reflexivity].
  eapply ReachStep in H1; [| apply (MakeDir _ true [hit1; hit2] [] []); reflexivity].
  eapply ReachStep in H1; [| apply (Append _ Written [hit1; hit2] [] [] [hit1; hit2] [] 2 0); reflexivity]. exact H1.
Qed.

(** A stored and consolidated range, and the journal of the flush. *)
Definition hit_storage : Storage :=
  set_journal_files {[ "h:1.journal"%string := Parsed <$> (to_journal_entry "h:1" <$> [hit1; hit2]) ]} (consolidated (sample_cons everything) sample_stored).

Definition hit_metadata : NewCacheMetadata :=
  match metadata_files hit_storage !! get_new_metadata_file_path "b/k/x" with Some (MetaParsed m) => m | _ => sample_metadata end.

(** The file the flush has written to. *)
Definition hit_journal : journal :=
  mkJournal {[ 0%nat := mkContent (Parsed <$> (to_journal_entry "h:1" <$> [hit1; hit2])) None ]} (Some 0%nat) false [] [] []
    (to_journal_entry "h:1" <$> [hit1; hit2]) [] false false false.

Lemma sample_system_reachable : system_reachable true sample_buffer (sample_hits, hit_journal).
Proof.
  unfold system_reachable. eapply rtc_l; [apply BufferStep; [apply (Record _ hit1) | reflexivity] |].
  eapply rtc_l; [apply BufferStep; [apply (Record _ hit2) | reflexivity] |].
  eapply rtc_l; [apply BufferStep; [apply Claim; reflexivity | reflexivity] |].
  eapply rtc_l; [apply BufferStep; [apply (Take _ [] []); reflexivity | reflexivity] |].
  eapply rtc_l; [apply BufferStep; [apply (MakeDir _ true [hit1; hit2] [] []); reflexivity | reflexivity] |].
  eapply rtc_l; [apply OtherStep; [apply (FlushCreated _ no_journal (to_journal_entry "h:1" <$> [hit1; hit2])); reflexivity | reflexivity] |].
  eapply rtc_l; [eapply (WriteStep _ _ _ _ _ _ [hit1; hit2]) |].
  - apply (Append _ Written [hit1; hit2] [] [] [hit1; hit2] [] 2 0); reflexivity.
  - reflexivity.
  - eapply (FlushWritten _ _ _ _ _ [] []); vm_compute; reflexivity.
  - reflexivity.
  - match goal with |- rtc _ ?s _ => assert (s = (sample_hits, hit_journal)) as -> by (vm_compute; reflexivity) end. constructor.
Qed.

Lemma hits_counted_once_witness :
  exists st' r m', consolidate_object_with_files (sample_cons everything) "b/k/x" [] hit_storage = (st', Ok r) /\
    metadata_files st' !! get_new_metadata_file_path "b/k/x" = Some (MetaParsed m') /\
    Forall2 (fun x x' => same_data x x' /\ nr_access_count x' = wrap64 (nr_access_count x + accesses "b/k/x" x [hit1; hit2]))
      (cm_ranges hit_metadata) (cm_ranges m') /\
    (fun x => accesses "b/k/x" x [hit1; hit2]) <$> cm_ranges hit_metadata = [3].
Proof.
  destruct (hits_counted_once true "h:1" 0 5 10 sample_hits hit_journal sample_system_reachable) as (_ & _ & _ & Hcons).
  destruct (Hcons (sample_cons everything) "b/k/x"%string [] hit_storage (get_new_metadata_file_path "b/k/x") hit_metadata)
    as (st' & r & m' & Hrun & _ & Hm & _ & Hall).
  - reflexivity.
  - reflexivity.
  - vm_compute. reflexivity.
  - vm_compute. reflexivity.
  - vm_compute. reflexivity.
  - vm_compute. reflexivity.
  - vm_compute. reflexivity.
  - vm_compute. repeat constructor. intros ?%elem_of_nil. done.
  - assert (cm_ranges hit_metadata = [hd sample_stored_range (cm_ranges hit_metadata)]) as -> by (vm_compute; reflexivity).
    repeat constructor; vm_compute; congruence.
  - vm_compute. discriminate.
  - assert (entries_read (sample_cons everything) "b/k/x" [] hit_storage = to_journal_entry "h:1" <$> [hit1; hit2]) as -> by (vm_compute; reflexivity).
    reflexivity.
  - exists st', r, m'. split; [exact Hrun |]. split; [exact Hm |]. split; [exact Hall | vm_compute; reflexivity].
Defined.

Definition entry1 : JournalEntry := eviction_entry 10 "h:1" "b/k/x" 0 5 6 "f1".
Definition entry2 : JournalEntry := eviction_entry 11 "h:1" "b/k/y" 0 5 6 "f2".
Definition hit_line : JournalEntry := to_journal_entry "h:1" hit1.

(** An append, a flush that has the file open, and a second append that has read it. *)
Definition sample_journal : journal :=
  mkJournal {[ 0%nat := mkContent [Parsed entry1] None ]} (Some 0%nat) true
    [Flushing [hit_line] 0; Appending entry2 (mkContent [Parsed entry1] None)] [] [entry1] [] [] false false false.

Lemma sample_journal_reachable : file_reachable true sample_journal.
Proof.
  pose proof (FileStep _ _ _ (FileInit true) (AppendLocked _ no_journal entry1 eq_refl)) as H1.
  eapply FileStep in H1; [| eapply (AppendRenamed _ _ entry1 no_content [] []); reflexivity].
  eapply FileStep in H1; [| apply (FlushOpened _ _ [hit_line] 0); vm_compute; reflexivity].
  eapply FileStep in H1; [| apply (AppendLocked _ _ entry2); reflexivity].
  match type of H1 with file_reachable _ ?j => assert (j = sample_journal) as E by (vm_compute; reflexivity); rewrite <- E; exact H1 end.
Qed.


(** ** Where the code and its documentation part *)

(** A flush that writes between the read and the rename of an append is overwritten: its hits are counted as flushed and are nowhere. *)
Lemma flush_lost_by_append :
  exists j, file_reachable true j /\ j_torn j = false /\ j_unread j = false /\ j_consolidated j = [] /\ j_fresh j = [] /\
    j_flushed j = [hit_line] /\ read_lines (current j) = [Parsed entry1; Parsed entry2].
Proof.
  pose proof sample_journal_reachable as H1.
  eapply FileStep in H1; [| eapply (FlushWritten _ _ [hit_line] 0 _ [] _); reflexivity].
  eapply FileStep in H1; [| eapply (AppendRenamed _ _ entry2 _ [] []); reflexivity].
  eexists. split; [exact H1 |]. vm_compute. split_and!; reflexivity.
Qed.

(** A flush whose write stops within a line leaves it without its end, and the next entry that is appended runs on from it. *)
Lemma torn_flush_swallows_entry :
  exists j, file_reachable true j /\ j_consolidated j = [] /\ j_fresh j = [] /\ entry2 ∈ j_appended j /\
    parsed_lines (read_lines (current j)) = [entry1].
Proof.
  pose proof (FileStep _ _ _ (FileInit true) (AppendLocked _ no_journal entry1 eq_refl)) as H1.
  eapply FileStep in H1; [| eapply (AppendRenamed _ _ entry1 no_content [] []); reflexivity].
  eapply FileStep in H1; [| apply (FlushOpened _ _ [hit_line] 0); vm_compute; reflexivity].
  eapply FileStep in H1; [| eapply (FlushTorn _ _ [hit_line] 0 _ [] (Garbage "") [] []); [reflexivity | vm_compute; reflexivity | apply prefix_nil]].
  eapply FileStep in H1; [| apply (AppendLocked _ _ entry2); reflexivity].
  eapply FileStep in H1; [| eapply (AppendRenamed _ _ entry2 _ [] []); vm_compute; reflexivity].
  eexists. split; [exact H1 |]. split; [reflexivity |]. split; [reflexivity |]. split; [right; left | vm_compute; reflexivity].
Qed.

(** An append that cannot read the file that is there starts a new one, and the entries of the old one are nowhere. *)
Lemma unread_append_drops :
  exists j, file_reachable true j /\ j_torn j = false /\ j_consolidated j = [] /\ j_fresh j = [] /\ j_appended j = [entry1; entry2] /\
    read_lines (current j) = [Parsed entry2].
Proof.
  pose proof (FileStep _ _ _ (FileInit true) (AppendLocked _ no_journal entry1 eq_refl)) as H1.
  eapply FileStep in H1; [| eapply (AppendRenamed _ _ entry1 no_content [] []); reflexivity].
  eapply FileStep in H1; [| apply (AppendUnread _ _ entry2); [reflexivity | by eexists]].
  eapply FileStep in H1; [| eapply (AppendRenamed _ _ entry2 no_content [] []); reflexivity].
  eexists. split; [exact H1 |]. vm_compute. split_and!; reflexivity.
Qed.

(** A flush that cannot open the journal drops what it took, where one that cannot make the directory puts it back. *)
Lemma failed_open_drops us : Forall (fun u => serializes u = true) us -> us <> [] ->
  append OpenFails us = ([], us, 0, zlen us).
Proof.
  intros Hs Hne. unfold append. rewrite filter_serialized by done.
  assert (base.filter (fun u => serializes u = false) us = []) as ->.
  { clear Hne. induction Hs as [| u us Hu _ IH]; [done |]. rewrite filter_cons_False by congruence. exact IH. }
  by destruct us.
Qed.

(** A request that is cancelled during its flush leaves the flag set: whatever happens later, nothing is written to the journal any more. *)
Lemma cancelled_flush_blocks s s' :
  flag_holders (h_flushes s) = O -> b_flush_in_progress (h_buffer s) = true -> rtc step s s' ->
  h_journal s' = h_journal s /\ b_flush_in_progress (h_buffer s') = true.
Proof.
  intros Hz Hflag Hrun. induction Hrun as [s | s1 s2 s3 Hstep _ IH]; [done |].
  destruct Hstep as [s u | s Hno | s before after Hf | s before after Hf | s now before after Hf | s created entries before after Hf
    | s entries before after Hf | s before after Hf | s io entries before after written lost flushed errors Hf Happ
    | s flushed errors before after Hf | s now flushed errors before after Hf | s flushed errors before after Hf | s f before after Hf];
    try (rewrite Hf, flag_holders_mid in Hz; cbn [has_flag] in Hz; lia).
  - by apply IH.
  - congruence.
  - rewrite Hf, flag_holders_mid in Hz. apply IH; cbn; [rewrite flag_holders_app; lia | done].
  - rewrite Hf, flag_holders_mid in Hz. apply IH; cbn; [rewrite flag_holders_app; lia | done].
Qed.

Lemma cancelled_flush_stuck :
  exists s, reachable sample_buffer s /\ h_flushes s = [] /\ b_flush_in_progress (h_buffer s) = true.
Proof.
  pose proof (ReachStep _ _ _ sample_hits_reachable (Cancel sample_hits (Wrote 2 0) [] [] eq_refl)) as H1. eexists. split; [exact H1 | done].
Qed.

End Hits.
