(* ===== verification/LockFiles.v ===== *)
(** * Metadata locks ([metadata_lock_manager.rs])

    A metadata file is locked by a lock file beside it, flocked by the process that works on
    it, and within a process by a mutex per key.  Two parts, each a step relation: the map of
    mutexes of one process, and the lock file of one key under the tasks of all processes,
    with its inodes, so that a file that was unlinked and one of the same name are
    different.  Clock readings and which processes are alive are arguments of the steps. *)

From S2P Require Import Prelude CacheTypes RustStr.
From stdpp Require Import gmap strings.

#[local] Open Scope Z_scope.

Module Locks.

(** ** The mutexes of a process *)

(** [ll_queues] holds weak references: an entry is alive while a task refers to its mutex. *)
Record LocalLocks := mkLocal {
  ll_queues : gmap string nat;
  ll_insertions : Z;
}.

(** What a task has of a mutex. *)
Inductive local_state := Queued | Owner.

(** A process: its map, and the key and mutex each of its tasks refers to. *)
Record process := mkProcess {
  p_locks : LocalLocks;
  p_tasks : gmap nat (string * nat * local_state);
  p_next : nat;
}.

Definition strong_count (p : process) (mutex : nat) : nat :=
  size (base.filter (fun entry : nat * (string * nat * local_state) => entry.2.1.2 = mutex) (p_tasks p)).

(** [Weak::upgrade] of the entry of a key. *)
Definition upgrade (key : string) (p : process) : option nat :=
  mutex ← ll_queues (p_locks p) !! key; if bool_decide (strong_count p mutex = O) then None else Some mutex.

Definition prune (p : process) : LocalLocks :=
  let insertions := ll_insertions (p_locks p) + 1 in
  if 1024 <=? insertions
  then mkLocal (base.filter (fun entry : string * nat => strong_count p entry.2 <> O) (ll_queues (p_locks p))) 0
  else mkLocal (ll_queues (p_locks p)) insertions.

(** The mutex of a key, and the process after the call. *)
Definition local_lock (key : string) (p : process) : process * nat :=
  match upgrade key p with
  | Some mutex => (p, mutex)
  | None =>
      let locks := prune p in
      (mkProcess (mkLocal (<[key := p_next p]> (ll_queues locks)) (ll_insertions locks)) (p_tasks p) (S (p_next p)), p_next p)
  end.

Definition set_task (t : nat) (x : option (string * nat * local_state)) (p : process) : process :=
  mkProcess (p_locks p) (partial_alter (fun _ => x) t (p_tasks p)) (p_next p).

Definition owned (p : process) (mutex : nat) : Prop := exists t key, p_tasks p !! t = Some (key, mutex, Owner).

(** [acquire_lock] queues on the mutex, [try_acquire_lock] takes it at once or gives up; a task that ends, or that is cancelled, lets go of it. *)
Inductive local_step : process -> process -> Prop :=
  | LocalQueue p p' t key mutex :
      p_tasks p !! t = None -> local_lock key p = (p', mutex) -> local_step p (set_task t (Some (key, mutex, Queued)) p')
  | LocalTry p p' t key mutex :
      p_tasks p !! t = None -> local_lock key p = (p', mutex) -> ~ owned p' mutex -> local_step p (set_task t (Some (key, mutex, Owner)) p')
  | LocalRefused p p' key mutex :
      local_lock key p = (p', mutex) -> owned p' mutex -> local_step p p'
  | LocalAcquire p t key mutex :
      p_tasks p !! t = Some (key, mutex, Queued) -> ~ owned p mutex -> local_step p (set_task t (Some (key, mutex, Owner)) p)
  | LocalRelease p t x :
      p_tasks p !! t = Some x -> local_step p (set_task t None p).

Definition no_locks : process := mkProcess (mkLocal ∅ 0) ∅ 0.

(** The wait before the next attempt: [jitter] is drawn from [0] to twice a quarter of the capped wait. *)
Definition BASE_BACKOFF_MS : Z := 100.
Definition MAX_BACKOFF_MS : Z := 5000.

Definition calculate_backoff (attempt jitter : Z) : Z :=
  let capped := Z.min (BASE_BACKOFF_MS * Z.shiftl 1 (Z.min attempt 10)) MAX_BACKOFF_MS in
  Z.max (capped + (jitter - capped / 4)) 0.

(** ** The lock file of a key *)

Record LockFileContent := mkLockContent {
  lc_hostname : string;
  lc_pid : Z;
  lc_acquired_at_ms : Z;
  lc_fence_epoch : Z;
}.

(** The text of a lock file. *)
Inductive lock_text := Empty | Unparseable | Owned (info : LockFileContent).

Definition parsed (text : lock_text) : option LockFileContent := match text with Owned info => Some info | _ => None end.

Definition new_content (host : string) (pid now_ms fence_epoch : Z) : LockFileContent := mkLockContent host pid now_ms fence_epoch.

(** [alive]: the processes of this host; [mtime_age]: of a file without an owner, [None] where it cannot be had. *)
Definition is_lock_stale (my_hostname : string) (timeout_ms : Z) (alive : Z -> bool) (now_ms : Z) (mtime_age : option Z)
    (text : option lock_text) : bool :=
  match text with
  | None => true
  | Some (Owned info) =>
      if bool_decide (lc_hostname info = my_hostname) then negb (alive (lc_pid info))
      else timeout_ms <? Z.max (now_ms - lc_acquired_at_ms info) 0
  | Some _ => timeout_ms <? default U64_MAX mtime_age
  end.

(** How a stale lock is broken: its file is unlinked, or its text replaced under the next epoch. *)
Definition is_same_host (my_hostname : string) (text : option lock_text) : bool :=
  match text ≫= parsed with Some info => bool_decide (lc_hostname info = my_hostname) | None => true end.

Definition takeover_epoch (text : option lock_text) : Z := default 0 (lc_fence_epoch <$> (text ≫= parsed)).

(** Where a task is in [try_acquire_lock_once], with the inode it has open. *)
Inductive lock_at :=
  | Opened (i : nat)
  | Contended
  | Breaking
  | Unlinking
  | Overwriting (epoch : Z)
  | OverwriteOpened (k : nat) (epoch : Z)
  | Overwritten (epoch : Z)
  | Broke
  | Retrying (epoch : Z)
  | Reopened (i : nat) (epoch : Z)
  | Flocked (i : nat) (epoch : Z)
  | Writing (i k : nat) (epoch : Z)
  | Written (i : nat) (epoch : Z)
  | Holding (i : nat) (epoch : Z)
  | Refreshing (i k : nat) (epoch : Z) (info : LockFileContent)
  | Dropping (i : nat).

(** A task with its process. *)
Record lock_task := mkTask { t_host : string; t_pid : Z; t_at : lock_at }.

(** [f_raced]: a file was unlinked while another task had it open to lock it; [f_broken]: while another task had it flocked. *)
Record lock_file := mkLockFile {
  f_inodes : gmap nat lock_text;
  f_path : option nat;
  f_flock : gmap nat nat;
  f_tasks : gmap nat lock_task;
  f_raced : bool;
  f_broken : bool;
}.

Definition text_at_path (f : lock_file) : option lock_text := i ← f_path f; f_inodes f !! i.

Definition unused (f : lock_file) : nat := fresh (dom (f_inodes f)).

(** [OpenOptions::create]: the file of the name, made empty where there is none. *)
Definition open_create (f : lock_file) : lock_file * nat :=
  match f_path f with
  | Some i => (f, i)
  | None => let i := unused f in
            (mkLockFile (<[i := Empty]> (f_inodes f)) (Some i) (f_flock f) (f_tasks f) (f_raced f) (f_broken f), i)
  end.

Definition set_text (i : nat) (text : lock_text) (f : lock_file) : lock_file :=
  mkLockFile (<[i := text]> (f_inodes f)) (f_path f) (f_flock f) (f_tasks f) (f_raced f) (f_broken f).

Definition at_place (t : nat) (x : lock_task) (place : lock_at) (f : lock_file) : lock_file :=
  mkLockFile (f_inodes f) (f_path f) (f_flock f) (<[t := mkTask (t_host x) (t_pid x) place]> (f_tasks f)) (f_raced f) (f_broken f).

Definition set_flock (i t : nat) (f : lock_file) : lock_file :=
  mkLockFile (f_inodes f) (f_path f) (<[i := t]> (f_flock f)) (f_tasks f) (f_raced f) (f_broken f).

(** A task ends: its handle is closed, which lets go of its flock. *)
Definition close (t : nat) (f : lock_file) : lock_file :=
  mkLockFile (f_inodes f) (f_path f) (base.filter (fun lock : nat * nat => lock.2 <> t) (f_flock f)) (base.delete t (f_tasks f))
    (f_raced f) (f_broken f).

(** The inode a task is about to lock, and the one it has locked and works under. *)
Definition open_inode (place : lock_at) : option nat := match place with Opened i | Reopened i _ => Some i | _ => None end.

Definition locked_inode (place : lock_at) : option nat :=
  match place with Flocked i _ | Writing i _ _ | Written i _ | Holding i _ | Refreshing i _ _ _ => Some i | _ => None end.

(** The inode a task has truncated and writes to, which may have lost its name since. *)
Definition text_inode (place : lock_at) : option nat :=
  match place with OverwriteOpened k _ | Writing _ k _ | Refreshing _ k _ _ => Some k | _ => None end.

Definition opened (i : nat) (x : lock_task) : bool := bool_decide (open_inode (t_at x) = Some i).

(** [remove_file] of the name, whatever file it stands for. *)
Definition unlink (t : nat) (f : lock_file) : lock_file :=
  match f_path f with
  | None => f
  | Some i =>
      mkLockFile (f_inodes f) None (f_flock f) (f_tasks f)
        (f_raced f || bool_decide (map_Exists (fun t' x => t' <> t /\ opened i x = true) (f_tasks f)))
        (f_broken f || match f_flock f !! i with Some t' => negb (bool_decide (t' = t)) | None => false end)
  end.

Inductive lock_step : lock_file -> lock_file -> Prop :=
  | Open f f' t host pid i :
      f_tasks f !! t = None -> open_create f = (f', i) -> lock_step f (at_place t (mkTask host pid (Opened i)) (Opened i) f')
  | TryLock f t x i :
      f_tasks f !! t = Some x -> t_at x = Opened i -> f_flock f !! i = None ->
      lock_step f (at_place t x (Flocked i 0) (set_flock i t f))
  | TryLockFails f t x i :
      f_tasks f !! t = Some x -> t_at x = Opened i -> is_Some (f_flock f !! i) -> lock_step f (at_place t x Contended f)
  | CheckStale f t x timeout_ms alive now_ms mtime_age :
      f_tasks f !! t = Some x -> t_at x = Contended ->
      is_lock_stale (t_host x) timeout_ms alive now_ms mtime_age (text_at_path f) = true -> lock_step f (at_place t x Breaking f)
  | CheckActive f t x timeout_ms alive now_ms mtime_age :
      f_tasks f !! t = Some x -> t_at x = Contended ->
      is_lock_stale (t_host x) timeout_ms alive now_ms mtime_age (text_at_path f) = false -> lock_step f (close t f)
  | BreakLocal f t x :
      f_tasks f !! t = Some x -> t_at x = Breaking -> is_same_host (t_host x) (text_at_path f) = true -> lock_step f (at_place t x Unlinking f)
  | BreakRemote f t x :
      f_tasks f !! t = Some x -> t_at x = Breaking -> is_same_host (t_host x) (text_at_path f) = false ->
      lock_step f (at_place t x (Overwriting (u64_add (takeover_epoch (text_at_path f)) 1)) f)
  | BreakUnlink f t x :
      f_tasks f !! t = Some x -> t_at x = Unlinking -> is_Some (f_path f) -> lock_step f (at_place t x Broke (unlink t f))
  | BreakGone f t x :
      f_tasks f !! t = Some x -> t_at x = Unlinking -> f_path f = None -> lock_step f (close t f)
  | BreakTruncate f t x k epoch :
      f_tasks f !! t = Some x -> t_at x = Overwriting epoch -> f_path f = Some k ->
      lock_step f (at_place t x (OverwriteOpened k epoch) (set_text k Empty f))
  | BreakOverwrite f t x k epoch now_ms :
      f_tasks f !! t = Some x -> t_at x = OverwriteOpened k epoch ->
      lock_step f (at_place t x (Overwritten epoch) (set_text k (Owned (new_content (t_host x) (t_pid x) now_ms epoch)) f))
  | BreakVerified f t x epoch info :
      f_tasks f !! t = Some x -> t_at x = Overwritten epoch -> text_at_path f = Some (Owned info) -> lc_fence_epoch info = epoch ->
      lock_step f (at_place t x Broke f)
  | BreakLost f t x epoch :
      f_tasks f !! t = Some x -> t_at x = Overwritten epoch ->
      (forall info, text_at_path f = Some (Owned info) -> lc_fence_epoch info <> epoch) -> lock_step f (close t f)
  | ReadEpoch f t x :
      f_tasks f !! t = Some x -> t_at x = Broke -> lock_step f (at_place t x (Retrying (takeover_epoch (text_at_path f))) f)
  | Reopen f f' t x i epoch :
      f_tasks f !! t = Some x -> t_at x = Retrying epoch -> open_create f = (f', i) ->
      lock_step f (at_place t x (Reopened i epoch) (set_text i Empty f'))
  | LockBlocking f t x i epoch :
      f_tasks f !! t = Some x -> t_at x = Reopened i epoch -> f_flock f !! i = None ->
      lock_step f (at_place t x (Flocked i epoch) (set_flock i t f))
  | WriteOpen f f' t x i k epoch :
      f_tasks f !! t = Some x -> t_at x = Flocked i epoch -> open_create f = (f', k) ->
      lock_step f (at_place t x (Writing i k epoch) (set_text k Empty f'))
  | Write f t x i k epoch now_ms :
      f_tasks f !! t = Some x -> t_at x = Writing i k epoch ->
      lock_step f (at_place t x (Written i epoch) (set_text k (Owned (new_content (t_host x) (t_pid x) now_ms epoch)) f))
  | WritePart f t x k :
      f_tasks f !! t = Some x -> text_inode (t_at x) = Some k -> lock_step f (set_text k Unparseable f)
  | WriteFails f t x i k epoch :
      f_tasks f !! t = Some x -> t_at x = Writing i k epoch -> lock_step f (close t (unlink t f))
  | Verified f t x i epoch info :
      f_tasks f !! t = Some x -> t_at x = Written i epoch -> text_at_path f = Some (Owned info) -> lc_fence_epoch info = epoch ->
      lock_step f (at_place t x (Holding i epoch) f)
  | NotVerified f t x i epoch :
      f_tasks f !! t = Some x -> t_at x = Written i epoch ->
      (forall info, text_at_path f = Some (Owned info) -> lc_fence_epoch info <> epoch) -> lock_step f (close t f)
  | Heartbeat f t x i k epoch info :
      f_tasks f !! t = Some x -> t_at x = Holding i epoch -> f_path f = Some k -> text_at_path f = Some (Owned info) ->
      lc_fence_epoch info = epoch -> lock_step f (at_place t x (Refreshing i k epoch info) (set_text k Empty f))
  | Refresh f t x i k epoch info now_ms :
      f_tasks f !! t = Some x -> t_at x = Refreshing i k epoch info ->
      lock_step f (at_place t x (Holding i epoch) (set_text k (Owned (mkLockContent (lc_hostname info) (lc_pid info) now_ms epoch)) f))
  | RefreshFails f t x i k epoch info :
      f_tasks f !! t = Some x -> t_at x = Refreshing i k epoch info -> lock_step f (at_place t x (Holding i epoch) f)
  | Drop f t x i epoch :
      f_tasks f !! t = Some x -> t_at x = Holding i epoch -> lock_step f (at_place t x (Dropping i) (unlink t f))
  | Dropped f t x i :
      f_tasks f !! t = Some x -> t_at x = Dropping i -> lock_step f (close t f)
  | Crash f t x :
      f_tasks f !! t = Some x -> lock_step f (close t f).

Definition no_lock_file : lock_file := mkLockFile ∅ None ∅ ∅ false false.

Inductive reachable : lock_file -> Prop :=
  | ReachInit : reachable no_lock_file
  | ReachStep f f' : reachable f -> lock_step f f' -> reachable f'.

(** ** What the steps keep *)

(** While no file was unlinked under another task: whoever has a flock has it on the file the name stands for, and whoever is about to lock
    a file has that one open. *)
Definition task_ok (f : lock_file) (t : nat) (x : lock_task) : Prop :=
  (forall i, locked_inode (t_at x) = Some i -> f_flock f !! i = Some t /\ f_path f = Some i) /\
  (forall i, open_inode (t_at x) = Some i -> f_path f = Some i).

Definition lock_ok (f : lock_file) : Prop := map_Forall (task_ok f) (f_tasks f).

Lemma task_ok_locked f t x i : task_ok f t x -> locked_inode (t_at x) = Some i -> f_flock f !! i = Some t /\ f_path f = Some i.
Proof. intros [Hl _]. apply Hl. Qed.

Lemma close_ok t f : lock_ok f -> lock_ok (close t f).
Proof.
  intros Hok t' x'. cbn. intros [Hne Hx]%lookup_delete_Some. destruct (Hok t' x' Hx) as [Hl Ho]. split; [| done].
  intros i Hi. destruct (Hl i Hi) as [Hf Hp]. split; [| done]. cbn. apply map_lookup_filter_Some. split; [done |]. cbn. congruence.
Qed.

Lemma at_place_ok t x place f : lock_ok f -> (locked_inode place = None \/ locked_inode place = locked_inode (t_at x)) ->
  open_inode place = None -> f_tasks f !! t = Some x -> lock_ok (at_place t x place f).
Proof.
  intros Hok Hl Ho Hx t' x'. cbn. intros [[<- <-] | [Hne Hx']]%lookup_insert_Some.
  - split; cbn; [| by rewrite Ho]. intros i Hi. destruct Hl as [Hl | Hl]; [congruence |]. rewrite Hl in Hi. by apply (Hok _ _ Hx).
  - by apply (Hok t' x').
Qed.

(** A file that no one else has locked or is about to lock can be unlinked. *)
Lemma unlink_apart t x f t' x' : lock_ok f -> f_tasks f !! t = Some x -> f_raced (unlink t f) = false -> f_broken (unlink t f) = false ->
  f_tasks f !! t' = Some x' -> t' <> t -> is_Some (f_path f) -> locked_inode (t_at x') = None /\ open_inode (t_at x') = None.
Proof.
  intros Hok Hx Hraced Hbroken Hx' Hne [i Hp]. revert Hraced Hbroken. unfold unlink. rewrite Hp. cbn.
  intros [_ Hr%bool_decide_eq_false]%orb_false_iff [_ Hb]%orb_false_iff. destruct (Hok t' x' Hx') as [Hl Ho]. split.
  - destruct (locked_inode (t_at x')) as [k |]; [| done]. destruct (Hl k eq_refl) as [Hf Hk]. assert (k = i) as -> by congruence.
    rewrite Hf in Hb. apply negb_false_iff, bool_decide_eq_true in Hb. congruence.
  - destruct (open_inode (t_at x')) as [k |] eqn:E; [| done]. destruct Hr. exists t', x'. split; [done |]. split; [done |].
    apply bool_decide_eq_true. rewrite E. f_equal. specialize (Ho k eq_refl). congruence.
Qed.

Lemma unlink_place_ok t x place f : lock_ok f -> f_tasks f !! t = Some x -> f_raced (unlink t f) = false -> f_broken (unlink t f) = false ->
  is_Some (f_path f) -> locked_inode place = None -> open_inode place = None -> lock_ok (at_place t x place (unlink t f)).
Proof.
  intros Hok Hx Hr Hb Hp Hl Ho t' x'. cbn. intros [[<- <-] | [Hne Hx']]%lookup_insert_Some; [split; cbn; congruence |].
  assert (f_tasks (unlink t f) = f_tasks f) as E by (unfold unlink; by destruct (f_path f)). rewrite E in Hx'.
  destruct (unlink_apart t x f t' x') as [Hl' Ho']; [done.. |]. split; congruence.
Qed.

Lemma open_create_ok f f' i : lock_ok f -> open_create f = (f', i) ->
  lock_ok f' /\ f_path f' = Some i /\ f_tasks f' = f_tasks f /\ f_flock f' = f_flock f /\ f_raced f' = f_raced f /\ f_broken f' = f_broken f.
Proof.
  intros Hok. unfold open_create. destruct (f_path f) as [k |] eqn:Hp; intros [= <- <-]; [done |]. split; [| done].
  intros t x Hx. destruct (Hok t x Hx) as [Hl Ho]. split; cbn; intros i Hi.
  - destruct (Hl i Hi). congruence.
  - specialize (Ho i Hi). congruence.
Qed.

Lemma set_text_ok i text f : lock_ok f -> lock_ok (set_text i text f).
Proof. done. Qed.

(** A task that has the file of the name open gets its flock. *)
Lemma set_flock_ok t x i epoch f : lock_ok f -> f_tasks f !! t = Some x -> open_inode (t_at x) = Some i -> f_flock f !! i = None ->
  lock_ok (at_place t x (Flocked i epoch) (set_flock i t f)).
Proof.
  intros Hok Hx Hi Hf t' x'. cbn. intros [[<- <-] | [Hne Hx']]%lookup_insert_Some.
  - split; cbn; [| done]. intros k [= <-]. split; [apply lookup_insert_eq | by apply (Hok _ _ Hx)].
  - destruct (Hok t' x' Hx') as [Hl Ho]. split; cbn; [| done]. intros k Hk. destruct (Hl k Hk) as [Hf' Hp]. split; [| done].
    rewrite lookup_insert_ne; [done |]. intros ->. congruence.
Qed.

(** A task comes to have the file of the name open. *)
Lemma opened_ok t x i place f : lock_ok f -> f_path f = Some i -> locked_inode place = None -> open_inode place = Some i ->
  lock_ok (at_place t x place f).
Proof.
  intros Hok Hp Hl Ho t' x'. cbn. intros [[<- <-] | [Hne Hx']]%lookup_insert_Some; [split; cbn; congruence | by apply (Hok t' x')].
Qed.

(** Steps that only move a task, or end it. *)
Ltac lock_plain :=
  match goal with
  | |- lock_ok (close _ _) => by apply close_ok
  | |- lock_ok (set_text _ _ _) => by apply set_text_ok
  | Ha : t_at _ = _ |- lock_ok (at_place _ _ _ ?f) => is_var f; apply at_place_ok; [done | first [by left | right; by rewrite Ha] | done | done]
  end.

Lemma lock_step_ok f f' : lock_step f f' -> f_raced f' = false -> f_broken f' = false -> lock_ok f -> lock_ok f'.
Proof.
  intros Hstep Hraced Hbroken Hok. destruct Hstep as
    [f f' t host pid i Ht Ho | f t x i Hx Ha Hf | | | | | | f t x Hx Ha Hp | | f t x k epoch Hx Ha Hp | f t x k epoch now Hx Ha | | |
    | f f' t x i epoch Hx Ha Ho | f t x i epoch Hx Ha Hf | f f' t x i k epoch Hx Ha Ho | f t x i k epoch now Hx Ha | | f t x i k epoch Hx Ha
    | | | f t x i k epoch info Hx Ha Hp | f t x i k epoch info now Hx Ha | | f t x i epoch Hx Ha | |];
    try lock_plain.
  - destruct (open_create_ok f f' i Hok Ho) as (Hok' & Hp & _). by eapply opened_ok.
  - apply set_flock_ok; [done.. | by rewrite Ha | done].
  - apply unlink_place_ok; done.
  - apply (at_place_ok t x _ (set_text k _ f)); by auto.
  - apply (at_place_ok t x _ (set_text k _ f)); by auto.
  - destruct (open_create_ok f f' i Hok Ho) as (Hok' & Hp & _). by eapply (opened_ok t x i _ (set_text i Empty f')).
  - apply set_flock_ok; [done.. | by rewrite Ha | done].
  - destruct (open_create_ok f f' k Hok Ho) as (Hok' & _ & Htasks & _). apply (at_place_ok t x (Writing i k epoch) (set_text k _ f'));
      [done | right; by rewrite Ha | done | cbn; by rewrite Htasks].
  - apply (at_place_ok t x _ (set_text k _ f)); [done | right; by rewrite Ha | done | done].
  - destruct (task_ok_locked f t x i (Hok _ _ Hx)) as [_ Hp]; [by rewrite Ha |].
    intros t' x'. cbn. intros [Hne Hx']%lookup_delete_Some.
    assert (f_tasks (unlink t f) = f_tasks f) as E by (unfold unlink; by rewrite Hp). rewrite E in Hx'.
    destruct (unlink_apart t x f t' x') as [Hl' Ho']; [done.. | by rewrite Hp |]. split; congruence.
  - apply (at_place_ok t x _ (set_text k _ f)); [done | right; by rewrite Ha | done | done].
  - apply (at_place_ok t x _ (set_text k _ f)); [done | right; by rewrite Ha | done | done].
  - destruct (task_ok_locked f t x i (Hok _ _ Hx)) as [_ Hp]; [by rewrite Ha |]. by apply unlink_place_ok.
Qed.

Lemma unlink_flags t f : (f_raced (unlink t f) = false -> f_raced f = false) /\ (f_broken (unlink t f) = false -> f_broken f = false).
Proof. unfold unlink. destruct (f_path f); [| done]. cbn. split; by intros [? _]%orb_false_iff. Qed.

Lemma lock_flags_stay f f' : lock_step f f' -> (f_raced f' = false -> f_raced f = false) /\ (f_broken f' = false -> f_broken f = false).
Proof.
  assert (forall i f f', open_create f = (f', i) -> f_raced f' = f_raced f /\ f_broken f' = f_broken f) as Hopen.
  { intros i g g'. unfold open_create. destruct (f_path g); by intros [= <- <-]. }
  destruct 1; cbn; try done; try apply unlink_flags;
    match goal with Ho : open_create _ = _ |- _ => destruct (Hopen _ _ _ Ho) as [-> ->]; done end.
Qed.

(** *** The mutexes *)

Record local_ok (p : process) : Prop := {
  ok_queue : forall t key mutex st, p_tasks p !! t = Some (key, mutex, st) -> ll_queues (p_locks p) !! key = Some mutex;
  ok_owner : forall t t' key key' mutex, p_tasks p !! t = Some (key, mutex, Owner) -> p_tasks p !! t' = Some (key', mutex, Owner) -> t = t';
}.

Lemma strong_pos p t key mutex st : p_tasks p !! t = Some (key, mutex, st) -> strong_count p mutex <> O.
Proof.
  intros Ht Hz. unfold strong_count in Hz. apply map_size_empty_inv in Hz.
  assert (base.filter (fun entry : nat * (string * nat * local_state) => entry.2.1.2 = mutex) (p_tasks p) !! t = Some (key, mutex, st)) as Hf
    by (by apply map_lookup_filter_Some). by rewrite Hz, lookup_empty in Hf.
Qed.

Lemma local_lock_ok p key p' mutex : local_ok p -> local_lock key p = (p', mutex) ->
  local_ok p' /\ ll_queues (p_locks p') !! key = Some mutex /\ p_tasks p' = p_tasks p.
Proof.
  intros [Hq Ho]. unfold local_lock. destruct (upgrade key p) as [m |] eqn:Hup.
  - intros [= <- <-]. split; [done |]. split; [| done]. revert Hup. unfold upgrade. destruct (_ !! key); [| done]. cbn. case_bool_decide; congruence.
  - intros [= <- <-]. cbn. split; [| by rewrite lookup_insert_eq]. split; cbn; [| exact Ho]. intros t k m st Ht.
    pose proof (strong_pos _ _ _ _ _ Ht) as Hs. specialize (Hq _ _ _ _ Ht). destruct (decide (k = key)) as [-> | Hne].
    + revert Hup. unfold upgrade. rewrite Hq. cbn. by rewrite bool_decide_false.
    + rewrite lookup_insert_ne by done. unfold prune. destruct (_ <=? _); cbn; [| done]. by apply map_lookup_filter_Some.
Qed.

Lemma local_step_ok p p' : local_step p p' -> local_ok p -> local_ok p'.
Proof.
  intros Hstep Hok. destruct Hstep as [p p' t key m Ht Hl | p p' t key m Ht Hl Hfree | p p' key m Hl _ | p t key m Ht Hfree | p t x Ht].
  - destruct (local_lock_ok _ _ _ _ Hok Hl) as ([Hq Ho] & Hk & Htasks). split; unfold set_task; cbn.
    + intros t' k m' st [[_ Hx] | [_ Hx]]%lookup_partial_alter_Some; [injection Hx as <- <- _; done | by eapply Hq].
    + intros t1 t2 k1 k2 m' [[_ Hx] | [_ H1]]%lookup_partial_alter_Some; [done |].
      intros [[_ Hx] | [_ H2]]%lookup_partial_alter_Some; [done | by eapply Ho].
  - destruct (local_lock_ok _ _ _ _ Hok Hl) as ([Hq Ho] & Hk & Htasks). split; unfold set_task; cbn.
    + intros t' k m' st [[_ Hx] | [_ Hx]]%lookup_partial_alter_Some; [injection Hx as <- <- _; done | by eapply Hq].
    + intros t1 t2 k1 k2 m' [[-> Hx] | [_ H1]]%lookup_partial_alter_Some [[-> Hy] | [_ H2]]%lookup_partial_alter_Some;
        [done | injection Hx as _ <-; destruct Hfree; by eexists _, _ | injection Hy as _ <-; destruct Hfree; by eexists _, _ | by eapply Ho].
  - by eapply local_lock_ok.
  - destruct Hok as [Hq Ho]. split; unfold set_task; cbn.
    + intros t' k m' st [[_ Hx] | [_ Hx]]%lookup_partial_alter_Some; [injection Hx as <- <- _; by eapply Hq | by eapply Hq].
    + intros t1 t2 k1 k2 m' [[-> Hx] | [_ H1]]%lookup_partial_alter_Some [[-> Hy] | [_ H2]]%lookup_partial_alter_Some;
        [done | injection Hx as _ <-; destruct Hfree; by eexists _, _ | injection Hy as _ <-; destruct Hfree; by eexists _, _ | by eapply Ho].
  - destruct Hok as [Hq Ho]. split; unfold set_task; cbn.
    + intros t' k m' st [[_ Hx] | [_ Hx]]%lookup_partial_alter_Some; [done | by eapply Hq].
    + intros t1 t2 k1 k2 m' [[_ Hx] | [_ H1]]%lookup_partial_alter_Some [[_ Hy] | [_ H2]]%lookup_partial_alter_Some; [done.. | by eapply Ho].
Qed.

(** C16: within a process, under every interleaving of queueing, trying, acquiring and letting go, at most one task owns the lock of a key,
    although idle mutexes are pruned.  Between processes and hosts, under every interleaving of opening, locking, writing, verifying, breaking and
    dropping, whatever text a reader finds in the file,
    at most one task at a time has the lock file locked and works under it, and the file of the name is the one it has locked, as
    long as no lock file is unlinked while another task has it locked or has it open and is about to lock it. *)
Theorem metadata_lock_exclusive :
  (forall p, rtc local_step no_locks p -> forall t t' key m m',
     p_tasks p !! t = Some (key, m, Owner) -> p_tasks p !! t' = Some (key, m', Owner) -> t = t') /\
  (forall f, reachable f -> f_raced f = false -> f_broken f = false -> forall t t' x x' i i',
     f_tasks f !! t = Some x -> f_tasks f !! t' = Some x' -> locked_inode (t_at x) = Some i -> locked_inode (t_at x') = Some i' ->
     t = t' /\ f_path f = Some i).
Proof.
  split.
  - intros p Hrun t t' key m m' Ht Ht'. assert (local_ok p) as [Hq Ho].
    { clear Ht Ht'. assert (local_ok no_locks) as Hok by (split; cbn; intros *; by rewrite lookup_empty).
      induction Hrun as [p | p1 p2 p3 Hstep _ IH]; [done |]. by eapply IH, local_step_ok. }
    assert (m' = m) as -> by (apply Hq in Ht, Ht'; congruence). by eapply Ho.
  - intros f Hreach Hr Hb t t' x x' i i' Hx Hx' Hi Hi'. assert (lock_ok f) as Hok.
    { clear -Hreach Hr Hb. induction Hreach as [| f f' _ IH Hstep]; [intros ? ?; cbn; by rewrite lookup_empty |].
      eapply lock_step_ok; [exact Hstep | done.. |]. apply lock_flags_stay in Hstep as [? ?]. auto. }
    destruct (task_ok_locked _ _ _ _ (Hok _ _ Hx) Hi) as [Hf Hp]. destruct (task_ok_locked _ _ _ _ (Hok _ _ Hx') Hi') as [Hf' Hp'].
    assert (i' = i) as -> by congruence. split; [congruence | done].
Qed.

Lemma backoff_bounds attempt jitter : 0 <= attempt ->
  let capped := Z.min (100 * 2 ^ Z.min attempt 10) 5000 in
  0 <= jitter <= 2 * (capped / 4) ->
  75 <= calculate_backoff attempt jitter <= 6250 /\ capped - capped / 4 <= calculate_backoff attempt jitter <= capped + capped / 4.
Proof.
  intros Ha capped Hj. unfold calculate_backoff, BASE_BACKOFF_MS, MAX_BACKOFF_MS. rewrite Z.shiftl_1_l. fold capped.
  assert (1 <= 2 ^ Z.min attempt 10) by (apply (Z.pow_le_mono_r 2 0); lia).
  assert (100 <= capped <= 5000) by lia. pose proof (Z.div_mod capped 4 ltac:(lia)). pose proof (Z.mod_pos_bound capped 4 ltac:(lia)). lia.
Qed.

(** ** Samples *)

Ltac lock_run H tac := eapply ReachStep in H; [| tac].

Definition hostA : string := "a".
Definition hostB : string := "b".

(** A task has the lock and another has the file open. *)
Definition sample_lock : lock_file :=
  mkLockFile {[ 0%nat := Owned (new_content hostA 1 100 0) ]} (Some 0%nat) {[ 0%nat := 1%nat ]}
    {[ 1%nat := mkTask hostA 1 (Holding 0 0); 2%nat := mkTask hostB 2 (Opened 0) ]} false false.

Lemma sample_lock_reachable : reachable sample_lock.
Proof.
  pose proof (ReachStep _ _ ReachInit (Open no_lock_file _ 1 hostA 1 _ eq_refl eq_refl)) as H1.
  lock_run H1 ltac:(eapply (TryLock _ 1); vm_compute; reflexivity).
  lock_run H1 ltac:(eapply (WriteOpen _ _ 1 _ 0); vm_compute; reflexivity).
  lock_run H1 ltac:(eapply (Write _ 1 _ 0 _ 0 100); vm_compute; reflexivity).
  lock_run H1 ltac:(eapply (Verified _ 1 _ 0 0); vm_compute; reflexivity).
  lock_run H1 ltac:(eapply (Open _ _ 2 hostB 2); vm_compute; reflexivity).
  match type of H1 with reachable ?f => assert (f = sample_lock) as E by (vm_compute; reflexivity); rewrite <- E; exact H1 end.
Qed.

Lemma metadata_lock_exclusive_witness :
  f_path sample_lock = Some 0%nat /\ rtc local_step no_locks (set_task 0 (Some ("b/k"%string, 0%nat, Owner)) (local_lock "b/k" no_locks).1).
Proof.
  destruct metadata_lock_exclusive as [_ Hfile]. split.
  - apply (Hfile sample_lock sample_lock_reachable eq_refl eq_refl 1%nat 1%nat (mkTask hostA 1 (Holding 0 0)) (mkTask hostA 1 (Holding 0 0)) 0%nat 0%nat);
      reflexivity.
  - eapply rtc_l; [| apply rtc_refl]. eapply (LocalTry no_locks _ 0); [reflexivity | reflexivity |]. intros (t & key & Ht).
    assert (p_tasks (local_lock "b/k" no_locks).1 = ∅) as E by reflexivity. by rewrite E, lookup_empty in Ht.
Defined.

(** ** Where the code and its documentation part *)

(** The holder unlinks the file on drop.  A task that had it open then locks the unlinked file and writes its text to a new file of the name,
    which nobody has locked: a third task locks that one.  All epochs are 0, so both verifications succeed. *)
Lemma two_holders_after_drop :
  exists f x x', reachable f /\ f_broken f = false /\ f_tasks f !! 2%nat = Some x /\ f_tasks f !! 3%nat = Some x' /\
    t_at x = Holding 0 0 /\ t_at x' = Holding 1 0.
Proof.
  pose proof sample_lock_reachable as H1.
  lock_run H1 ltac:(eapply (Drop _ 1); vm_compute; reflexivity).
  lock_run H1 ltac:(eapply (Dropped _ 1); vm_compute; reflexivity).
  lock_run H1 ltac:(eapply (TryLock _ 2); vm_compute; reflexivity).
  lock_run H1 ltac:(eapply (WriteOpen _ _ 2 _ 0); vm_compute; reflexivity).
  lock_run H1 ltac:(eapply (Write _ 2 _ 0 _ 0 200); vm_compute; reflexivity).
  lock_run H1 ltac:(eapply (Verified _ 2 _ 0 0); vm_compute; reflexivity).
  lock_run H1 ltac:(eapply (Open _ _ 3 hostA 3); vm_compute; reflexivity).
  lock_run H1 ltac:(eapply (TryLock _ 3); vm_compute; reflexivity).
  lock_run H1 ltac:(eapply (WriteOpen _ _ 3 _ 1); vm_compute; reflexivity).
  lock_run H1 ltac:(eapply (Write _ 3 _ 1 _ 0 300); vm_compute; reflexivity).
  lock_run H1 ltac:(eapply (Verified _ 3 _ 1 0); vm_compute; reflexivity).
  eexists _, _, _. split; [exact H1 |]. vm_compute. split_and!; reflexivity.
Qed.

(** A process that died leaves its text in the file.  The next holder has the file locked and not written yet when a third task of the host reads
    the text of the dead one, takes the lock for stale and unlinks it: both hold the lock. *)
Lemma leftover_text_breaks_live_lock :
  exists f x x', reachable f /\ f_raced f = false /\ f_tasks f !! 2%nat = Some x /\ f_tasks f !! 3%nat = Some x' /\
    t_at x = Holding 0 0 /\ t_at x' = Holding 1 0.
Proof.
  pose proof (ReachStep _ _ ReachInit (Open no_lock_file _ 1 hostA 1 _ eq_refl eq_refl)) as H1.
  lock_run H1 ltac:(eapply (TryLock _ 1); vm_compute; reflexivity).
  lock_run H1 ltac:(eapply (WriteOpen _ _ 1 _ 0); vm_compute; reflexivity).
  lock_run H1 ltac:(eapply (Write _ 1 _ 0 _ 0 100); vm_compute; reflexivity).
  lock_run H1 ltac:(eapply (Verified _ 1 _ 0 0); vm_compute; reflexivity).
  lock_run H1 ltac:(eapply (Crash _ 1); vm_compute; reflexivity).
  lock_run H1 ltac:(eapply (Open _ _ 2 hostA 2); vm_compute; reflexivity).
  lock_run H1 ltac:(eapply (TryLock _ 2); vm_compute; reflexivity).
  lock_run H1 ltac:(eapply (Open _ _ 3 hostA 3); vm_compute; reflexivity).
  lock_run H1 ltac:(eapply (TryLockFails _ 3); [vm_compute; reflexivity | reflexivity | vm_compute; eexists; reflexivity]).
  lock_run H1 ltac:(eapply (CheckStale _ 3 _ 30000 (fun pid => negb (pid =? 1)) 200 None); vm_compute; reflexivity).
  lock_run H1 ltac:(eapply (BreakLocal _ 3); vm_compute; reflexivity).
  lock_run H1 ltac:(eapply (BreakUnlink _ 3); [vm_compute; reflexivity | reflexivity | vm_compute; eexists; reflexivity]).
  lock_run H1 ltac:(eapply (ReadEpoch _ 3); vm_compute; reflexivity).
  lock_run H1 ltac:(eapply (Reopen _ _ 3); vm_compute; reflexivity).
  lock_run H1 ltac:(eapply (LockBlocking _ 3); vm_compute; reflexivity).
  lock_run H1 ltac:(eapply (WriteOpen _ _ 3 _ 1); vm_compute; reflexivity).
  lock_run H1 ltac:(eapply (Write _ 3 _ 1 _ 0 300); vm_compute; reflexivity).
  lock_run H1 ltac:(eapply (Verified _ 3 _ 1 0); vm_compute; reflexivity).
  lock_run H1 ltac:(eapply (WriteOpen _ _ 2 _ 0); vm_compute; reflexivity).
  lock_run H1 ltac:(eapply (Write _ 2 _ 0 _ 0 400); vm_compute; reflexivity).
  lock_run H1 ltac:(eapply (Verified _ 2 _ 0 0); vm_compute; reflexivity).
  eexists _, _, _. split; [exact H1 |]. vm_compute. split_and!; reflexivity.
Qed.

(** A lock file without a readable owner counts as another host's when its age is judged, and as this host's when it is broken. *)
Lemma unparseable_lock_unlinked my_hostname timeout_ms alive now_ms age :
  is_lock_stale my_hostname timeout_ms alive now_ms (Some age) (Some Unparseable) = (timeout_ms <? age) /\
  is_same_host my_hostname (Some Unparseable) = true.
Proof. done. Qed.

End Locks.
